(* ===== verification/_CoqProject ===== *)
-Q . S2P
Prelude.v
GoBig.v
BigInt.v
BigDec.v
BigDecPow.v
MonoSqrt.v
CLTick.v
SdkMath.v
CLMath.v
Store.v
CLKeys.v
SwapStrategy.v
SwapStep.v
SumTree.v
SumTreeSet.v
BinarySearch.v
MapSum.v
GoState.v
PrefixStore.v
SdkCoins.v
SdkCoinsRef.v
DecCoins.v
Accum.v
AccumCorrect.v
CLDirection.v
CLState.v
CLPool.v
CLUptime.v
CLRewards.v
CLSwap.v
CLSwapCorrect.v
CLPosition.v
CLFrame.v
CLBooks.v
CLLiquidity.v
CLSwapBooks.v
CLInvariant.v
SdkMore.v
Twap.v
TwapKeys.v
TwapHistory.v
TwapQuery.v
TwapUpdate.v
TwapPrune.v
TwapCorrect.v
Epochs.v
EpochsCorrect.v
Mint.v
MintCorrect.v
Lockup.v
LockupStore.v
LockupAcc.v
LockupBooks.v
LockupOps.v
LockupIter.v
LockupCorrect.v
LockupInvariants.v
LockupRuns.v
SdkPool.v
SdkPoolRef.v
DecMath.v
DecMathReal.v
Cfmm.v
GammTypes.v
GammBalancer.v
GammStableswap.v
GammBalancerOk.v
GammStableswapOk.v
GammStableswapSwap.v
GammPool.v
GammBalancerLaws.v
GammPoolLaws.v
Gamm.v
GammBooks.v
GammCorrect.v
GammRuns.v
PoolManager.v
PoolManagerCorrect.v
PoolManagerGamm.v
PoolManagerRuns.v
