(* ===== verification/Prelude.v ===== *)
(** * A verification of the Osmosis chain: numeric core, concentrated
      liquidity, constant-function pools, routing, price averages, token locks,
      epochs and inflation

    Osmosis is a Cosmos-SDK chain in Go whose modules implement automated
    market makers.  This library models its own core logic, file by file, and
    proves what each part promises to the parts above it.

    ** The program and its models

    - [osmomath] is the fixed-point arithmetic everything else uses.  A
      [BigInt] (1024 bits) is modelled in [BigInt] ([osmomath/int.go]), a
      [BigDec] (36 decimals) in [BigDec] and [BigDecPow]
      ([osmomath/decimal.go], [exp2.go]), the deterministic square root in
      [MonoSqrt] ([sqrt.go]), tolerances and binary search in [BinarySearch]
      ([binary_search.go], [rounding_direction.go]), powers of an SDK decimal in
      [DecMath] ([math.go]; [DecMathReal] compares them with the real
      power).  [GoBig] has the Go integers these use.  Decimals are the integers stored in them, so every
      rounding is explicit.
    - [x/concentrated-liquidity] is a market maker in which liquidity is
      provided between two ticks.  Its arithmetic: [CLTick] models
      [math/tick.go] and [math/precompute.go] (ticks, prices, square-root
      prices), [CLMath] models [math/math.go] (amounts and next prices at
      constant liquidity), [CLKeys] the tick keys of [types/keys.go],
      [SwapStrategy] the two strategies of [swapstrategy/].  Its keeper, as
      functions on the state [Keeper] of [CLState] (pools, ticks,
      accumulators, positions and their indexes, locks, incentive records,
      totals, and the state of the modules it calls): [CLPool] ([pool.go],
      [model/pool.go]), [CLUptime] (ticks, accrual of incentives and growth:
      [tick.go], [incentives.go], [spread_rewards.go]), [CLRewards] (claims,
      forfeits and incentives), [CLSwap] ([swaps.go]) and [CLPosition]
      ([position.go], [lp.go]).
    - The theorems about that module: [SwapStep] and [CLSwapCorrect] (one step
      and the loop of a swap), [CLDirection] (ticks and the direction of a step),
      [CLFrame] (what reward bookkeeping leaves alone), [CLBooks],
      [CLLiquidity] and [CLSwapBooks] (the books of liquidity under liquidity
      provision and swaps) and [CLInvariant] (the transition system, its
      invariant, and runs that show defects).
    - [osmoutils/accum], the reward accumulators of that module, is modelled in
      [Accum] on the coins of [DecCoins]; [AccumCorrect] has its
      specification, a ledger of positions, and the refinement.
    - [osmoutils/sumtree], the tree of partial sums in which locked amounts are
      accumulated by duration, is modelled in [SumTree] ([tree.go],
      [node.go]); [SumTreeSet] proves insertion and updates correct.
    - [x/twap], the time-weighted average prices of all pools, is modelled in
      [Twap] (records, keys, updates, pruning, genesis, queries).
      [TwapHistory] has its specification, the history of prices of a pair and
      the area under it; [TwapKeys], [TwapQuery], [TwapUpdate] and [TwapPrune]
      relate keys and pairs, queries, updates and pruning to it, [TwapCorrect]
      composes them into the refinement and has runs that show defects.
    - [x/epochs], the timers, is modelled in [Epochs] with its theorems in
      [EpochsCorrect]; [x/mint], which issues the coins of an epoch through a
      hook of the timers, in [Mint] and [MintCorrect].
    - [x/lockup], the locks of tokens, is modelled in [Lockup]: locks, synthetic
      locks, reference keys and iterators, one accumulation store per
      denomination, messages, genesis, the end of a block and the registered
      invariants.  [LockupStore] and [LockupAcc] relate the keys,
      the store and the accumulation stores ([PrefixStore]: a store inside a
      store) to maps; [LockupBooks] states the books, [LockupOps] and
      [LockupIter] prove each operation and iterator against them,
      [LockupCorrect] has the specification of the module and the refinement,
      [LockupInvariants] the queries and registered invariants, and
      [LockupRuns] a reference bank, runs and defects.

    - [x/gamm], the older pools.  [GammTypes] has constants and keys, [Cfmm] what
      both models of a pool share ([cfmm_common/lp.go]), [GammBalancer] the
      weighted pools ([pool-models/balancer]), [GammStableswap] those with the
      curve of stable assets ([pool-models/stableswap]).  [GammPool] is the
      interface [CFMMPoolI] as a class with the laws the keeper relies on;
      [GammBalancerOk], [GammStableswapOk] and [GammStableswapSwap] prove the
      operations of the models, [GammBalancerLaws] and [GammPoolLaws] the laws.
      [Gamm] models the keeper ([keeper/pool.go], [pool_service.go], [swap.go],
      [share.go], [total_liquidity.go], [invariants.go]) for any pool model,
      [GammBooks] states its books, [GammCorrect] proves every operation against
      them, [GammRuns] has a reference bank (on [SdkCoinsRef]), runs and defects.
    - [x/poolmanager], through which all swaps go.  [PoolManager] models routes
      and split routes ([router.go], [types/routes.go]), taker fees and the shares
      set aside for agreements ([taker_fee.go], [store.go]), creation of pools
      ([create_pool.go]), volumes, estimates, blocks and messages ([keeper.go],
      [msg_server.go], [gov.go]), over any modules that have pools.
      [PoolManagerCorrect] states what it relies on and proves its theorems,
      [PoolManagerGamm] shows that the keeper of [x/gamm] provides it, and
      [PoolManagerRuns] runs the two together, with the defects found.

    A Go function that can fail returns a [Res]: a value, an [error], or a
    panic, kept apart.  One that also changes state is a computation of
    [GoState], which keeps the state reached also on errors.  The definitions
    keep the Go names.

    ** Interfaces

    Code outside the repository is a parameter.  [SdkMath] is the class of the
    [LegacyDec] and [Int] operations of [cosmossdk.io/math] that the sources
    call, [SdkMathSpec] its documented behaviour (direction of rounding, exactness,
    when it cannot overflow); [KVStore] and [KVStoreSpec] in [Store] are the
    key-value store, with iterators in byte order, and [BigEndian] the key
    encoding of the SDK; [DecCoinsOps] in [DecCoins] has the coin operations
    of the SDK, [CoinsOps] in [SdkCoins] those on integer coins
    (reference: [SdkCoinsRef]), [SdkMore] and [SdkPool] more operations of its
    decimals and coins ([SdkPoolRef]), [PoolManagerInterface]
    and [TimeFormat] in [Twap] the pools and the text layout of times,
    [PoolModuleI] and [PoolManagerKeepers] in [PoolManager] a module of pools and
    the modules the pool manager calls, with their laws [ModuleLaws] (how a swap
    settles, for [x/gamm], and proved for it) and [ModuleReads] and
    [PoolManagerSpec] (queries of any module change nothing, the bank and staking);
    [MintKeepers], [LockupKeepers] and [GammKeepers] the bank and account calls
    of [Mint], [Lockup] and [Gamm] (with the hooks of locks and pools), [SdkText]
    and [GammText] addresses
    and times as text, and [ExternalKeepers] in [CLState] the calls of other modules
    (bank, lockup, pool manager, contract hooks), which change only the part
    [Ext] of the state: a hook that calls back into the module is not modelled.
    Theorems about clients are proved for every instance
    of the laws; [sdk_ref] and [assoc_store] are concrete instances, which the
    witnesses run.

    ** What the theorems show

    - Arithmetic: [Mul] is correctly rounded, directed roundings go their way,
      the error of [Quo] and of integer powers is bounded, an operation panics
      exactly when its result does not fit; the square root is the least upper
      root at its precision and monotone.
    - Ticks: prices follow the closed form of the additive-geometric spacing on
      all 612 million ticks, tick and price conversions are inverse, and a square-root price is
      mapped to the tick whose bucket contains it.
    - Amounts and next prices: each routine brackets the exact rational of its
      comment, on the side that favours the pool.
    - Store: byte order of the keys is tick order, so the iterators enumerate
      the initialized ticks on their side, in order.
    - Swap steps and swaps: a step returns the closed forms of the curve,
      rounded to the side of the pool, charges the spread factor, and panics in
      exactly one case.  A swap is a path of steps, each of which trades
      with the liquidity of exactly the positions that span it; it returns
      their sums, takes all that is specified or stops at the limit of the
      price, and its loop ends.
    - The books of concentrated liquidity: in every state reached by creating
      pools, creating, extending, withdrawing and transferring positions, swaps
      and claims, the liquidity of pools, ticks and positions agree and tick
      and price are aligned; so the conditions of the theorems about swaps hold
      in every such state.  Assumed there: a spacing below 2^62, a spread factor
      of at most one half for exact amounts in, and, for a decrease of the spacing, a
      new spacing that divides the old one and a pool whose tick is that of its
      price (a new pool may have a lower one until its first swap; decreasing its
      spacing then can break the books).  An executed swap agrees with its estimate, and
      removing liquidity never pays more than adding it took.
    - Accumulators: each operation is a step of an abstract ledger, and what
      is paid and owed is what was put in, up to half a unit of the last
      decimal per operation.
    - Price averages: whatever blocks, swaps, new pools and epochs do, the
      module neither fails nor panics, its store represents the history of
      prices at the ends of blocks, pruning loses nothing that a query from the
      kept time on needs, and an arithmetic average is the area under the
      recorded prices over the time, between the extreme prices.
    - Sums: any sequence of increases and decreases from an empty store leaves
      a tree whose range queries are the sums of the changes in the range;
      removal, which no module uses, can break the tree.
    - Epochs and inflation: every epoch of a timer starts once and in order;
      the minter issues once per epoch what its schedule says, and distributes
      exactly that.
    - Locks: messages and ends of blocks refine a specification on maps of
      locks; the store, the references, the accumulation stores and the account
      of the module agree with that map in every state; the end of a block
      succeeds and pays what has matured; an accumulation query equals
      the sum over the locks the iterators yield, so the two registered
      invariants about amounts hold.  Assumed there: no synthetic locks (superfluid staking creates
      them), denominations whose trees do not overlap, addresses none of which
      is a prefix of another, other modules that leave the stores and the account
      alone; runs outside of these show defects.
    - Constant-function pools: a pool of either model stays well formed under
      every operation that succeeds; weights change along the line between their ends; a swap
      of a stableswap pool stays on its curve up to a bound on the rounding,
      and [Pow], on which the weighted curve rests, is within its precision of
      the real power.  Over any run of the keeper the accounts of the pools hold
      their liquidity and the shares in circulation are those of the pools;
      joining and leaving gains nothing.  Assumed for solvency: a swap leaves
      something of the asset it pays; a run shows what happens otherwise.
    - Routes through pools of [x/gamm], beside any other modules: a swap along a route pays at least the minimum named, the trader
      pays and receives exactly the two coins and nothing of the tokens in
      between, and what is set aside for agreements is covered by the fees
      collected; over different pools and for the usual fees, an estimate is what
      execution pays or costs.  Concentrated pools are left out: such a swap may stop
      at the limit of the price and settle less than it was asked to.  The fee is the rate rounded up, and the two directions of it are
      inverse up to one unit.  The search for a trade within a price impact ends
      at an acceptable amount whose successor is too large, or at that successor.
    - Search: for a monotone function an answer within the tolerance is found
      whenever there is one.

    ** Fuel and bounds

    [swapLoop] takes fuel; [swap_fuel], the tokens specified plus the
    no-progress limit of 100, is proved enough.  The loops of [LogBase2] and
    [PowerInteger] have as many iterations as bits of their argument; the loop of
    the tick cache as many as there are exponents.  Tree operations take one
    unit of fuel per level.  Trees of the
    lockup module have 8-byte keys and so fewer than 70 levels; [tree_fuel] is
    80.  The search of [impactLoop] halves
    an interval of 256-bit integers; [impactFuel] is 258 and proved enough below
    [2^254].  The other searches are bounded in the source, and so is the series of
    [PowApprox] (150000 terms; 27 are enough where it is proved accurate).  Domains
    of the theorems (for example prices up to [10^56] in units of [10^-36],
    liquidity below [10^95] in units of [10^-18]) contain what the chain allows
    ([MaxSqrtPrice] is [10^55] in these units).

    ** What is not modelled

    Text and wire conversion of the numbers, and the aliasing of the in-place
    operations; of concentrated liquidity, genesis, paginated queries, events
    and telemetry, the one-off migrations of accumulators and the lookup of
    unbonding positions; of locks, the one-off migration and the gRPC queries;
    of the older pools, genesis, messages, queries and the migration to
    concentrated liquidity, and gas; of the pool manager, genesis, the trackers of [protorev.go] and the
    read-only queries; the other modules ([x/incentives],
    [x/superfluid], [x/txfees] and the smaller ones), the wiring of the
    application, command line, bindings, publishers and generated code. *)

From Stdlib Require Import ZArith Lia List Bool String.
Import ListNotations.

#[global] Open Scope Z_scope.

(** ** Results of Go functions

    A Go function either returns a value, returns a non-nil [error], or
    panics.  [Res A] keeps the three apart. *)

Inductive Res (A : Type) : Type :=
| Ok (a : A)
| Err (e : string)
| Panic (m : string).
Arguments Ok {A} a.
Arguments Err {A} e.
Arguments Panic {A} m.

Definition bind {A B} (c : Res A) (k : A -> Res B) : Res B :=
  match c with
  | Ok a => k a
  | Err e => Err e
  | Panic m => Panic m
  end.

Declare Scope go_scope.
Delimit Scope go_scope with go.
Notation "x <- c ;; k" := (bind c (fun x => k))
  (at level 62, c at next level, right associativity) : go_scope.
Notation "' pat <- c ;; k" := (bind c (fun x => match x with pat => k end))
  (at level 62, pat pattern, c at next level, right associativity) : go_scope.
Notation "c ;;; k" := (bind c (fun _ => k))
  (at level 62, right associativity) : go_scope.
#[global] Open Scope go_scope.

(** The value of a result, with a default; only used to state witnesses. *)
Definition is_ok {A} (r : Res A) : bool :=
  match r with Ok _ => true | _ => false end.

Definition is_panic {A} (r : Res A) : bool :=
  match r with Panic _ => true | _ => false end.

Lemma bind_ok_inv {A B} (c : Res A) (k : A -> Res B) b :
  bind c k = Ok b -> exists a, c = Ok a /\ k a = Ok b.
Proof. destruct c; cbn; intros H; try discriminate; eauto. Qed.

Lemma bind_assoc {A B C} (c : Res A) (k : A -> Res B) (h : B -> Res C) :
  bind (bind c k) h = bind c (fun a => bind (k a) h).
Proof. now destruct c. Qed.

Lemma bind_ok {A B} (a : A) (k : A -> Res B) : bind (Ok a) k = k a.
Proof. reflexivity. Qed.

Lemma Ok_inj {A} (a b : A) : Ok a = Ok b -> a = b.
Proof. congruence. Qed.

(** ** Automation *)

Create HintDb go.
Create Rewrite HintDb gor.

(** Decompose a hypothesis [x <- c ;; k = Ok v] into its successful steps. *)
Ltac inv_bind H :=
  match type of H with
  | bind _ _ = Ok _ =>
      let a := fresh "v" in let E := fresh "E" in
      apply bind_ok_inv in H; destruct H as (a & E & H)
  end.

Ltac inv_binds :=
  repeat match goal with
  | H : bind _ _ = Ok _ |- _ => inv_bind H
  | H : Ok _ = Ok _ |- _ => apply Ok_inj in H
  | H : Err _ = Ok _ |- _ => discriminate H
  | H : Panic _ = Ok _ |- _ => discriminate H
  | H : Ok _ = Err _ |- _ => discriminate H
  | H : Ok _ = Panic _ |- _ => discriminate H
  end.

(** Turn boolean comparisons on [Z] and [bool] connectives into [Prop]. *)
Ltac b2p :=
  repeat match goal with
  | H : (_ && _)%bool = true |- _ => apply andb_prop in H; destruct H
  | H : (_ || _)%bool = false |- _ => apply orb_false_iff in H; destruct H
  | H : negb _ = true |- _ => apply negb_true_iff in H
  | H : negb _ = false |- _ => apply negb_false_iff in H
  | H : (_ =? _) = true |- _ => apply Z.eqb_eq in H
  | H : (_ =? _) = false |- _ => apply Z.eqb_neq in H
  | H : (_ <? _) = true |- _ => apply Z.ltb_lt in H
  | H : (_ <? _) = false |- _ => apply Z.ltb_ge in H
  | H : (_ <=? _) = true |- _ => apply Z.leb_le in H
  | H : (_ <=? _) = false |- _ => apply Z.leb_gt in H
  | H : (_ >? _) = true |- _ => rewrite Z.gtb_ltb in H
  | H : (_ >? _) = false |- _ => rewrite Z.gtb_ltb in H
  | H : (_ >=? _) = true |- _ => rewrite Z.geb_leb in H
  | H : (_ >=? _) = false |- _ => rewrite Z.geb_leb in H
  end.

(** Case split on the innermost scrutinee of an [if] of the goal or of [H]. *)
Ltac case_if :=
  match goal with
  | |- context [if ?b then _ else _] =>
      lazymatch b with
      | context [if _ then _ else _] => fail
      | _ => let E := fresh "C" in destruct b eqn:E
      end
  end.

Ltac case_if_in H :=
  match type of H with
  | context [if ?b then _ else _] =>
      lazymatch b with
      | context [if _ then _ else _] => fail
      | _ => let E := fresh "C" in destruct b eqn:E
      end
  end.

(** ** Integer division

    Go's [/], [%] and [big.Int.Quo], [big.Int.Rem] truncate toward zero:
    they are [Z.quot] and [Z.rem].  [cdiv] is the ceiling quotient that the
    rounding-up routines are compared with. *)

Definition cdiv (a b : Z) : Z := - ((- a) / b).

Lemma cdiv_spec a b : 0 < b -> b * (cdiv a b - 1) < a <= b * cdiv a b.
Proof.
  intros Hb. unfold cdiv.
  pose proof (Z.div_mod (- a) b ltac:(lia)).
  pose proof (Z.mod_pos_bound (- a) b Hb). nia.
Qed.

Lemma cdiv_unique a b q : 0 < b -> b * (q - 1) < a <= b * q -> cdiv a b = q.
Proof. intros Hb Hq. pose proof (cdiv_spec a b Hb). nia. Qed.

Lemma cdiv_exact a b : 0 < b -> cdiv (a * b) b = a.
Proof. intros Hb. apply cdiv_unique; nia. Qed.

Lemma cdiv_nonneg a b : 0 < b -> 0 <= a -> 0 <= cdiv a b.
Proof. intros Hb Ha. pose proof (cdiv_spec a b Hb). nia. Qed.

Lemma cdiv_le_mono a a' b : 0 < b -> a <= a' -> cdiv a b <= cdiv a' b.
Proof.
  intros Hb Ha. pose proof (cdiv_spec a b Hb). pose proof (cdiv_spec a' b Hb). nia.
Qed.

Lemma cdiv_pos a b : 0 < b -> 0 < a -> 0 < cdiv a b.
Proof. intros Hb Ha. pose proof (cdiv_spec a b Hb). nia. Qed.

Lemma div_spec a b : 0 < b -> b * (a / b) <= a < b * (a / b + 1).
Proof.
  intros Hb. pose proof (Z.div_mod a b ltac:(lia)).
  pose proof (Z.mod_pos_bound a b Hb). nia.
Qed.

Lemma quot_nonneg a b : 0 <= a -> 0 < b -> Z.quot a b = a / b.
Proof. intros. apply Z.quot_div_nonneg; lia. Qed.

Lemma rem_nonneg a b : 0 <= a -> 0 < b -> Z.rem a b = a mod b.
Proof. intros. apply Z.rem_mod_nonneg; lia. Qed.

Lemma quot_rem_pos a b :
  0 < b -> 0 <= a ->
  a = b * Z.quot a b + Z.rem a b /\ 0 <= Z.rem a b < b /\ 0 <= Z.quot a b.
Proof.
  intros Hb Ha. pose proof (Z.quot_rem a b ltac:(lia)).
  pose proof (Z.rem_bound_pos a b Ha Hb).
  pose proof (Z.quot_pos a b Ha Hb). lia.
Qed.

Lemma quot_rem_neg a b :
  0 < b -> a <= 0 ->
  a = b * Z.quot a b + Z.rem a b /\ - b < Z.rem a b <= 0 /\ Z.quot a b <= 0.
Proof.
  intros Hb Ha. pose proof (quot_rem_pos (- a) b Hb ltac:(lia)) as H.
  rewrite Z.quot_opp_l, Z.rem_opp_l in H by lia. lia.
Qed.

(** Truncated division never moves away from zero. *)
Lemma quot_abs_le a b : Z.abs (Z.quot a b) <= Z.abs a.
Proof.
  destruct (Z.eq_dec b 0) as [-> | Hb].
  - destruct a; cbn; lia.
  - rewrite <- Z.quot_abs by lia.
    rewrite Z.quot_div_nonneg by lia.
    pose proof (div_spec (Z.abs a) (Z.abs b) ltac:(lia)). nia.
Qed.

Lemma quot_exact a b : b <> 0 -> Z.quot (a * b) b = a.
Proof. intros. now apply Z.quot_mul. Qed.

(** ** Powers of ten *)

Definition pow10 (n : Z) : Z := 10 ^ n.

Lemma pow10_pos n : 0 <= n -> 0 < pow10 n.
Proof. intros. unfold pow10. apply Z.pow_pos_nonneg; lia. Qed.

Lemma pow10_add a b : 0 <= a -> 0 <= b -> pow10 (a + b) = pow10 a * pow10 b.
Proof. intros. apply Z.pow_add_r; lia. Qed.

Lemma pow10_le a b : 0 <= a <= b -> pow10 a <= pow10 b.
Proof. intros. apply Z.pow_le_mono_r; lia. Qed.

Lemma pow10_lt a b : 0 <= a < b -> pow10 a < pow10 b.
Proof. intros. apply Z.pow_lt_mono_r; lia. Qed.

#[export] Hint Resolve pow10_pos cdiv_nonneg cdiv_pos : go.

(** ** Sums over lists *)

Definition zsum (l : list Z) : Z := fold_right Z.add 0 l.

Lemma zsum_app l1 l2 : zsum (l1 ++ l2) = zsum l1 + zsum l2.
Proof. unfold zsum. induction l1; cbn in *; lia. Qed.
