(* ===== verification/GoBig.v ===== *)
(** * Go integers

    The parts of Go's [math/big] and of its fixed-width integers that
    [osmomath] and the concentrated-liquidity math use.  A [*big.Int] is the
    integer it points to; sharing of pointers is not modelled. *)

From Stdlib Require Import ZArith Lia Bool String.
From S2P Require Import Prelude.

(** [x.BitLen()]: length of [|x|] in bits, 0 for 0. *)
Definition BitLen (x : Z) : Z :=
  if x =? 0 then 0 else Z.log2 (Z.abs x) + 1.

(** [Quo] and [QuoRem] truncate toward zero, [Mod] is Euclidean; all of them
    panic on a zero divisor. *)
Definition bigQuo (x y : Z) : Res Z :=
  if y =? 0 then Panic "division by zero" else Ok (Z.quot x y).

Definition bigQuoRem (x y : Z) : Res (Z * Z) :=
  if y =? 0 then Panic "division by zero" else Ok (Z.quot x y, Z.rem x y).

Definition bigMod (x y : Z) : Res Z :=
  if y =? 0 then Panic "division by zero" else Ok (x mod Z.abs y).

(** [x.Lsh(n)], [x.Rsh(n)]: the right shift is arithmetic (floor). *)
Definition Lsh (x n : Z) : Z := Z.shiftl x n.
Definition Rsh (x n : Z) : Z := Z.shiftr x n.

(** [x.Sqrt()]: floor square root; panics on a negative argument. *)
Definition Sqrt (x : Z) : Res Z :=
  if x <? 0 then Panic "square root of negative number" else Ok (Z.sqrt x).

Definition min_int64 : Z := - 2 ^ 63.
Definition max_int64 : Z := 2 ^ 63 - 1.
Definition max_uint64 : Z := 2 ^ 64 - 1.

Definition IsInt64 (x : Z) : bool := (min_int64 <=? x) && (x <=? max_int64).
Definition IsUint64 (x : Z) : bool := (0 <=? x) && (x <=? max_uint64).

(** Conversions and arithmetic of [int64] and [uint64] wrap around. *)
Definition int64 (x : Z) : Z := (x + 2 ^ 63) mod 2 ^ 64 - 2 ^ 63.
Definition uint64 (x : Z) : Z := x mod 2 ^ 64.

Lemma BitLen_le x n : 0 <= n -> (BitLen x <= n <-> Z.abs x < 2 ^ n).
Proof.
  intros Hn. unfold BitLen. destruct (Z.eqb_spec x 0) as [-> | Hx].
  - pose proof (Z.pow_pos_nonneg 2 n ltac:(lia) Hn). cbn [Z.abs]. lia.
  - rewrite (Z.log2_lt_pow2 (Z.abs x) n) by lia. lia.
Qed.

Lemma BitLen_ltb x n : 0 <= n -> (n <? BitLen x) = negb (Z.abs x <? 2 ^ n).
Proof.
  intros Hn. pose proof (BitLen_le x n Hn).
  destruct (Z.ltb_spec n (BitLen x)), (Z.ltb_spec (Z.abs x) (2 ^ n)); cbn; lia.
Qed.

Lemma BitLen_abs x y : Z.abs x = Z.abs y -> BitLen x = BitLen y.
Proof.
  intros H. unfold BitLen. rewrite H.
  destruct (Z.eqb_spec x 0), (Z.eqb_spec y 0); lia.
Qed.

Lemma IsInt64_spec x : IsInt64 x = true <-> - 2 ^ 63 <= x < 2 ^ 63.
Proof. unfold IsInt64, min_int64, max_int64. lia. Qed.

Lemma int64_id x : - 2 ^ 63 <= x < 2 ^ 63 -> int64 x = x.
Proof. intros H. unfold int64. rewrite Z.mod_small; lia. Qed.

Lemma uint64_id x : 0 <= x < 2 ^ 64 -> uint64 x = x.
Proof. intros H. unfold uint64. rewrite Z.mod_small; lia. Qed.

(** The arithmetic shifts as multiplications and floor divisions. *)
Lemma Lsh_mul x n : 0 <= n -> Lsh x n = x * 2 ^ n.
Proof. intros. now apply Z.shiftl_mul_pow2. Qed.

Lemma Rsh_div x n : 0 <= n -> Rsh x n = x / 2 ^ n.
Proof. intros. now apply Z.shiftr_div_pow2. Qed.

Lemma bigQuo_ok x y : y <> 0 -> bigQuo x y = Ok (Z.quot x y).
Proof. intros. unfold bigQuo. now destruct (Z.eqb_spec y 0). Qed.

Lemma bigQuo_inv x y q : bigQuo x y = Ok q -> y <> 0 /\ q = Z.quot x y.
Proof. unfold bigQuo. destruct (Z.eqb_spec y 0); intros H; inversion H; auto. Qed.

Lemma bigQuoRem_ok x y : y <> 0 -> bigQuoRem x y = Ok (Z.quot x y, Z.rem x y).
Proof. intros. unfold bigQuoRem. now destruct (Z.eqb_spec y 0). Qed.

Lemma bigQuoRem_inv x y q r :
  bigQuoRem x y = Ok (q, r) -> y <> 0 /\ q = Z.quot x y /\ r = Z.rem x y.
Proof. unfold bigQuoRem. destruct (Z.eqb_spec y 0); intros H; inversion H; auto. Qed.

(** ** Package [time]

    A [time.Time] is the nanoseconds since the Unix epoch, a [time.Duration] is
    nanoseconds. *)

(** [t.Sub(u)] saturates at the ends of [time.Duration]. *)
Definition time_Sub (t u : Z) : Z := Z.max (- 2 ^ 63) (Z.min (2 ^ 63 - 1) (t - u)).

Definition Nanosecond : Z := 1.
Definition Second : Z := 10 ^ 9.
Definition Minute : Z := 60 * Second.
Definition Hour : Z := 60 * Minute.

(** [time.Time{}], the first of January of year 1. *)
Definition zero_time : Z := - 62135596800 * Second.
