(* ===== verification/BigInt.v ===== *)
(** * [osmomath.BigInt] ([osmomath/int.go])

    A bounded wrapper of [*big.Int]: every operation that can leave the range
    [|i| < 2^1024] checks the bit length and panics.  A [BigInt] is the
    integer it wraps; the nil value (an uninitialised struct) is not
    represented, operations on it dereference nil in the source. *)

From Stdlib Require Import ZArith Lia Bool String.
From S2P Require Import Prelude GoBig.

Definition maxBitLen : Z := 1024.

Definition equal (i i2 : Z) : bool := i =? i2.
Definition gt (i i2 : Z) : bool := i >? i2.
Definition gte (i i2 : Z) : bool := i >=? i2.
Definition lt (i i2 : Z) : bool := i <? i2.
Definition lte (i i2 : Z) : bool := i <=? i2.
Definition min (i i2 : Z) : Z := if i >? i2 then i2 else i.
Definition max (i i2 : Z) : Z := if i <? i2 then i2 else i.

Definition NewBigInt (n : Z) : Z := n.
Definition NewBigIntFromUint64 (n : Z) : Z := n.

Definition NewBigIntFromBigInt (i : Z) : Res Z :=
  if BitLen i >? maxBitLen then Panic "NewIntFromBigInt() out of bound" else Ok i.

Definition NewBigIntWithDecimal (n dec : Z) : Res Z :=
  if dec <? 0 then Panic "NewIntWithDecimal() decimal is negative" else
  let i := n * 10 ^ dec in
  if BitLen i >? maxBitLen then Panic "NewIntWithDecimal() out of bound" else Ok i.

Definition ZeroBigInt : Z := 0.
Definition OneBigInt : Z := 1.

Definition Int64 (i : Z) : Res Z :=
  if negb (IsInt64 i) then Panic "Int64() out of bound" else Ok i.
Definition Uint64 (i : Z) : Res Z :=
  if negb (IsUint64 i) then Panic "Uint64() out of bounds" else Ok i.

Definition IsZero (i : Z) : bool := Z.sgn i =? 0.
Definition IsNegative (i : Z) : bool := Z.sgn i =? -1.
Definition IsPositive (i : Z) : bool := Z.sgn i =? 1.

Definition Add (i i2 : Z) : Res Z :=
  let res := i + i2 in
  if BitLen res >? maxBitLen then Panic "Int overflow" else Ok res.
Definition AddRaw (i i2 : Z) : Res Z := Add i (NewBigInt i2).

Definition Sub (i i2 : Z) : Res Z :=
  let res := i - i2 in
  if BitLen res >? maxBitLen then Panic "Int overflow" else Ok res.
Definition SubRaw (i i2 : Z) : Res Z := Sub i (NewBigInt i2).

Definition Mul (i i2 : Z) : Res Z :=
  if BitLen i + BitLen i2 - 1 >? maxBitLen then Panic "Int overflow" else
  let res := i * i2 in
  if BitLen res >? maxBitLen then Panic "Int overflow" else Ok res.
Definition MulRaw (i i2 : Z) : Res Z := Mul i (NewBigInt i2).

Definition Quo (i i2 : Z) : Res Z :=
  if Z.sgn i2 =? 0 then Panic "Division by zero" else bigQuo i i2.
Definition QuoRaw (i i2 : Z) : Res Z := Quo i (NewBigInt i2).

Definition Mod (i i2 : Z) : Res Z :=
  if Z.sgn i2 =? 0 then Panic "division-by-zero" else bigMod i i2.
Definition ModRaw (i i2 : Z) : Res Z := Mod i (NewBigInt i2).

Definition Neg (i : Z) : Z := - i.
Definition Abs (i : Z) : Z := Z.abs i.
Definition MinBigInt (i1 i2 : Z) : Z := min i1 i2.
Definition MaxBigInt (i i2 : Z) : Z := max i i2.

(** ** The range invariant *)

Definition wf (i : Z) : Prop := Z.abs i < 2 ^ maxBitLen.

Lemma range_check (i : Z) (m : string) (r : Z) :
  (if BitLen i >? maxBitLen then Panic m else Ok i) = Ok r <-> wf i /\ r = i.
Proof.
  unfold wf. rewrite Z.gtb_ltb, BitLen_ltb by (cbv; discriminate).
  destruct (Z.ltb_spec (Z.abs i) (2 ^ maxBitLen)) as [Hi | Hi]; cbn [negb].
  - split; [intros [= <-]; auto | intros [_ ->]; reflexivity].
  - split; [discriminate | lia].
Qed.

Lemma NewBigIntFromBigInt_ok i : wf i -> NewBigIntFromBigInt i = Ok i.
Proof. intros. now apply range_check. Qed.

(** The early exit of [Mul] fires only on products that overflow anyway. *)
Lemma mul_precheck_sound i i2 :
  wf i -> wf i2 -> BitLen i + BitLen i2 - 1 > maxBitLen -> ~ wf (i * i2).
Proof.
  unfold wf, BitLen. intros Hi Hi2 Hb.
  pose proof (BitLen_le i maxBitLen ltac:(cbv; discriminate)) as B1.
  pose proof (BitLen_le i2 maxBitLen ltac:(cbv; discriminate)) as B2.
  unfold BitLen in B1, B2.
  destruct (Z.eqb_spec i 0), (Z.eqb_spec i2 0); try lia.
  pose proof (Z.log2_spec (Z.abs i) ltac:(lia)) as [L1 _].
  pose proof (Z.log2_spec (Z.abs i2) ltac:(lia)) as [L2 _].
  pose proof (Z.log2_nonneg (Z.abs i)). pose proof (Z.log2_nonneg (Z.abs i2)).
  assert (2 ^ maxBitLen <= 2 ^ (Z.log2 (Z.abs i) + Z.log2 (Z.abs i2))) as Hp
    by (apply Z.pow_le_mono_r; lia).
  rewrite Z.pow_add_r in Hp by lia. rewrite Z.abs_mul.
  assert (2 ^ Z.log2 (Z.abs i) * 2 ^ Z.log2 (Z.abs i2) <= Z.abs i * Z.abs i2).
  { apply Z.mul_le_mono_nonneg; try lia; apply Z.pow_nonneg; lia. }
  lia.
Qed.

Lemma BigInt_Mul_iff i i2 r : wf i -> wf i2 -> (Mul i i2 = Ok r <-> wf (i * i2) /\ r = i * i2).
Proof.
  intros Hi Hi2. unfold Mul. destruct (Z.gtb_spec (BitLen i + BitLen i2 - 1) maxBitLen).
  - pose proof (mul_precheck_sound i i2 Hi Hi2 ltac:(lia)).
    split; [discriminate | tauto].
  - apply range_check.
Qed.

Lemma Quo_wf i i2 : wf i -> wf (Z.quot i i2).
Proof. unfold wf. pose proof (quot_abs_le i i2). lia. Qed.

Lemma Mod_wf i i2 : wf i2 -> i2 <> 0 -> wf (i mod Z.abs i2).
Proof. unfold wf. intros. pose proof (Z.mod_pos_bound i (Z.abs i2) ltac:(lia)). lia. Qed.

(** C40: The arithmetic of [BigInt] is exact integer arithmetic bounded by
    1024 bits: on in-range operands [Add], [Sub] and [Mul] return precisely
    when the true result is in range (the early overflow test of [Mul]
    rejects nothing else), [Quo] and [Mod] return precisely on a non-zero
    divisor with the truncated quotient and the Euclidean remainder, and
    every returned value is in range again. *)
Theorem BigInt_exact_or_panic (i i2 r : Z) :
  wf i -> wf i2 ->
  (Add i i2 = Ok r <-> wf r /\ r = i + i2) /\
  (Sub i i2 = Ok r <-> wf r /\ r = i - i2) /\
  (Mul i i2 = Ok r <-> wf r /\ r = i * i2) /\
  (Quo i i2 = Ok r <-> wf r /\ i2 <> 0 /\ r = Z.quot i i2) /\
  (Mod i i2 = Ok r <-> wf r /\ i2 <> 0 /\ r = i mod Z.abs i2).
Proof.
  intros Hi Hi2. split; [|split; [|split; [|split]]].
  - unfold Add. rewrite range_check. intuition (subst; auto).
  - unfold Sub. rewrite range_check. intuition (subst; auto).
  - rewrite (BigInt_Mul_iff _ _ _ Hi Hi2). intuition (subst; auto).
  - unfold Quo, bigQuo. pose proof (Quo_wf i i2 Hi).
    destruct (Z.eqb_spec (Z.sgn i2) 0), (Z.eqb_spec i2 0); try lia.
    + split; [discriminate | lia].
    + split; [intros [= <-]; auto | intros (_ & _ & ->); reflexivity].
  - unfold Mod, bigMod. pose proof (Mod_wf i i2 Hi2).
    destruct (Z.eqb_spec (Z.sgn i2) 0), (Z.eqb_spec i2 0); try lia.
    + split; [discriminate | lia].
    + split; [intros [= <-]; auto | intros (_ & _ & ->); reflexivity].
Qed.

Lemma BigInt_exact_or_panic_witness :
  wf (2 ^ 600) /\ wf (2 ^ 423) /\ (Mul (2 ^ 600) (2 ^ 423) = Ok (2 ^ 1023)).
Proof.
  assert (W : wf (2 ^ 600) /\ wf (2 ^ 423) /\ wf (2 ^ 1023)) by (repeat split; vm_compute; reflexivity).
  destruct W as (W1 & W2 & W3).
  split; [exact W1 | split; [exact W2 |]].
  apply (BigInt_exact_or_panic (2 ^ 600) (2 ^ 423) (2 ^ 1023) W1 W2).
  split; [exact W3 | vm_compute; reflexivity].
Defined.
