(* ===== verification/BigDec.v ===== *)
(** * [osmomath.BigDec]: arithmetic ([osmomath/decimal.go])

    A [BigDec] is a decimal with 36 fractional digits stored as the integer
    [i = value * 10^36].  The definitions below work on that integer, one per
    Go function, under the Go name; [Panic] is returned where the source
    panics (bit length above 1144, zero divisor, too much precision).  [Dec]
    arguments ([sdkmath.LegacyDec]) are the integers behind [BigIntMut()],
    with 18 fractional digits.  The in-place ([...Mut]) and the copying
    variants compute the same value, which is what is defined here; what they
    do to the memory shared with the receiver is not modelled.  Logarithms,
    powers and roots are in [BigDecPow]. *)

From Stdlib Require Import ZArith Lia List Bool String.
From S2P Require Import Prelude GoBig BigInt.
Import ListNotations.

Definition BigDecPrecision : Z := 36.
Definition BigDecimalPrecisionBits : Z := 120.
Definition DecPrecision : Z := 18.
Definition maxDecBitLen : Z := maxBitLen + BigDecimalPrecisionBits.

Definition defaultBigDecPrecisionReuse : Z := 10 ^ 36.
Definition precisionReuseSDKDec : Z := 10 ^ 18.
Definition squaredPrecisionReuse : Z := 10 ^ 72.
Definition bigDecDecPrecisionFactorDiff : Z := 10 ^ 18.
Definition fivePrecision : Z := Z.quot defaultBigDecPrecisionReuse 2.
Definition fivePrecisionSDKDec : Z := Z.quot precisionReuseSDKDec 2.

Definition ZeroBigDec : Z := 0.
Definition OneBigDec : Z := defaultBigDecPrecisionReuse.
Definition SmallestBigDec : Z := 1.
Definition twoBigDec : Z := 2 * 10 ^ 36.

Definition calcPrecisionMultiplier (prec : Z) : Res Z :=
  if prec >? BigDecPrecision then Panic "too much precision" else
  Ok (10 ^ (BigDecPrecision - prec)).

(** The table built by [init()]; indexing it with a negative precision is an
    out-of-range panic. *)
Definition precisionMultipliers : list Z :=
  map (fun n => 10 ^ (BigDecPrecision - Z.of_nat n)) (seq 0 37).

Definition precisionMultiplier (prec : Z) : Res Z :=
  if prec >? BigDecPrecision then Panic "too much precision" else
  if prec <? 0 then Panic "index out of range" else
  match nth_error precisionMultipliers (Z.to_nat prec) with
  | Some m => Ok m
  | None => Panic "index out of range"
  end.

(** [precisionFactors], keyed by [uint64]; a missing key is the nil pointer. *)
Definition precisionFactors (precision : Z) : Res Z :=
  if (0 <=? precision) && (precision <=? BigDecPrecision)
  then Ok (10 ^ (BigDecPrecision - precision))
  else Panic "nil pointer dereference".

Definition NewBigDecWithPrec (i prec : Z) : Res Z :=
  m <- precisionMultiplier prec ;; Ok (i * m).
Definition NewBigDec (i : Z) : Res Z := NewBigDecWithPrec i 0.
Definition NewBigDecFromBigIntWithPrec (i prec : Z) : Res Z :=
  m <- precisionMultiplier prec ;; Ok (i * m).
Definition NewBigDecFromBigInt (i : Z) : Res Z := NewBigDecFromBigIntWithPrec i 0.
Definition NewBigDecFromBigIntMutWithPrec (i prec : Z) : Res Z :=
  m <- precisionMultiplier prec ;; Ok (i * m).
Definition NewBigDecFromBigIntMut (i : Z) : Res Z := NewBigDecFromBigIntMutWithPrec i 0.
Definition NewBigDecFromIntWithPrec (i prec : Z) : Res Z :=
  m <- precisionMultiplier prec ;; Ok (i * m).
Definition NewBigDecFromInt (i : Z) : Res Z := NewBigDecFromIntWithPrec i 0.
Definition NewBigDecFromDecMulDec (a b : Z) : Z := a * b.

Definition IsZero (d : Z) : bool := Z.sgn d =? 0.
Definition IsNegative (d : Z) : bool := Z.sgn d =? -1.
Definition IsPositive (d : Z) : bool := Z.sgn d =? 1.
Definition Equal (d d2 : Z) : bool := d =? d2.
Definition GT (d d2 : Z) : bool := d >? d2.
Definition GTE (d d2 : Z) : bool := d >=? d2.
Definition LT (d d2 : Z) : bool := d <? d2.
Definition LTE (d d2 : Z) : bool := d <=? d2.
Definition Neg (d : Z) : Z := - d.
Definition Abs (d : Z) : Z := Z.abs d.

Definition assertMaxBitLen (i : Z) : Res unit :=
  if BitLen i >? maxDecBitLen then Panic "Int overflow" else Ok tt.

(** ** Rounding *)

(** [chopPrecisionAndRound] and [chopPrecisionAndRoundSdkDec] share their
    text and differ in the precision and its half. *)
Definition chop_round_nonneg (precision five d : Z) : Z :=
  let quo := Z.quot d precision in
  let rem := Z.rem d precision in
  if Z.sgn rem =? 0 then quo else
  match Z.compare rem five with
  | Lt => quo
  | Gt => quo + 1
  | Eq => if negb (Z.testbit quo 0) then quo else quo + 1
  end.

Definition chopPrecisionAndRound (d : Z) : Z :=
  if Z.sgn d =? -1
  then - chop_round_nonneg defaultBigDecPrecisionReuse fivePrecision (- d)
  else chop_round_nonneg defaultBigDecPrecisionReuse fivePrecision d.

Definition chopPrecisionAndRoundSdkDec (d : Z) : Z :=
  if Z.sgn d =? -1
  then - chop_round_nonneg precisionReuseSDKDec fivePrecisionSDKDec (- d)
  else chop_round_nonneg precisionReuseSDKDec fivePrecisionSDKDec d.

Definition incBasedOnRem (rem d : Z) : Z :=
  if Z.sgn rem =? 0 then d else d + 1.

Definition chopPrecisionAndTruncate (d precisionReuse : Z) : Z := Z.quot d precisionReuse.
Definition chopPrecisionAndTruncateMut (d precisionReuse : Z) : Z := Z.quot d precisionReuse.

Definition chopPrecisionAndRoundUpMut (d precisionReuse : Z) : Z :=
  if Z.sgn d =? -1
  then - chopPrecisionAndTruncateMut (- d) precisionReuse
  else incBasedOnRem (Z.rem d precisionReuse) (Z.quot d precisionReuse).

Definition chopPrecisionAndRoundUpDec (d : Z) : Z :=
  chopPrecisionAndRoundUpMut d precisionReuseSDKDec.

Definition chopPrecisionAndRoundNonMutative (d : Z) : Z := chopPrecisionAndRound d.

(** ** Arithmetic *)

(** The common tail [assertMaxBitLen(x); return BigDec{x}]. *)
Definition checked (x : Z) : Res Z := assertMaxBitLen x ;;; Ok x.

Definition AddMut (d d2 : Z) : Res Z := checked (d + d2).
Definition Add (d d2 : Z) : Res Z := AddMut d d2.
Definition SubMut (d d2 : Z) : Res Z := checked (d - d2).
Definition Sub (d d2 : Z) : Res Z := SubMut d d2.
Definition NegMut (d : Z) : Z := - d.
Definition AbsMut (d : Z) : Z := Z.abs d.

Definition MulMut (d d2 : Z) : Res Z := checked (chopPrecisionAndRound (d * d2)).
Definition Mul (d d2 : Z) : Res Z := MulMut d d2.
Definition MulDecMut (d d2 : Z) : Res Z := checked (chopPrecisionAndRoundSdkDec (d * d2)).
Definition MulDec (d d2 : Z) : Res Z := MulDecMut d d2.
Definition MulTruncate (d d2 : Z) : Res Z :=
  checked (chopPrecisionAndTruncateMut (d * d2) defaultBigDecPrecisionReuse).
Definition MulTruncateDec (d d2 : Z) : Res Z :=
  checked (chopPrecisionAndTruncateMut (d * d2) precisionReuseSDKDec).
Definition MulRoundUp (d d2 : Z) : Res Z :=
  checked (chopPrecisionAndRoundUpMut (d * d2) defaultBigDecPrecisionReuse).
Definition MulRoundUpDec (d d2 : Z) : Res Z :=
  checked (chopPrecisionAndRoundUpMut (d * d2) precisionReuseSDKDec).
Definition MulInt (d i : Z) : Res Z := checked (d * i).
Definition MulInt64 (d i : Z) : Res Z := checked (d * i).

Definition QuoMut (d d2 : Z) : Res Z :=
  q <- bigQuo (d * squaredPrecisionReuse) d2 ;; checked (chopPrecisionAndRound q).
Definition Quo (d d2 : Z) : Res Z := QuoMut d d2.
Definition QuoRaw (d d2 : Z) : Res Z :=
  q <- bigQuo (d * defaultBigDecPrecisionReuse) d2 ;; checked (chopPrecisionAndRound q).
Definition QuoTruncateMut (d d2 : Z) : Res Z :=
  q <- bigQuo (d * defaultBigDecPrecisionReuse) d2 ;; checked q.
Definition QuoTruncate (d d2 : Z) : Res Z :=
  q <- bigQuo (d * defaultBigDecPrecisionReuse) d2 ;; checked q.
Definition QuoTruncateDec (d d2 : Z) : Res Z :=
  q <- bigQuo (d * precisionReuseSDKDec) d2 ;; checked q.
Definition QuoTruncateDecMut (d d2 : Z) : Res Z :=
  q <- bigQuo (d * precisionReuseSDKDec) d2 ;; checked q.
Definition QuoRoundUp (d d2 : Z) : Res Z :=
  '(chopped, rem) <- bigQuoRem (d * defaultBigDecPrecisionReuse) d2 ;;
  checked (if Z.sgn rem >? 0 then chopped + 1 else chopped).
Definition QuoByDecRoundUp (d d2 : Z) : Res Z :=
  '(chopped, rem) <- bigQuoRem (d * precisionReuseSDKDec) d2 ;;
  checked (if Z.sgn rem >? 0 then chopped + 1 else chopped).
Definition QuoRoundUpMut (d d2 : Z) : Res Z :=
  '(quo, rem) <- bigQuoRem (d * defaultBigDecPrecisionReuse) d2 ;;
  checked (incBasedOnRem rem quo).
Definition QuoRoundUpNextIntMut (d d2 : Z) : Res Z :=
  '(quo, rem) <- bigQuoRem d d2 ;;
  checked (incBasedOnRem rem quo * defaultBigDecPrecisionReuse).
Definition QuoInt (d i : Z) : Res Z := bigQuo d i.
Definition QuoInt64 (d i : Z) : Res Z := bigQuo d i.

Definition IsInteger (d : Z) : bool := Z.sgn (Z.rem d defaultBigDecPrecisionReuse) =? 0.

(** ** Conversions *)

Definition Dec (d : Z) : Z := Z.quot d bigDecDecPrecisionFactorDiff.

Definition DecRoundUp (d : Z) : Z :=
  incBasedOnRem (Z.rem d bigDecDecPrecisionFactorDiff) (Z.quot d bigDecDecPrecisionFactorDiff).

Definition ChopPrecisionMut (d precision : Z) : Res Z :=
  if precision >? BigDecPrecision then Panic "maximum BigDec precision exceeded" else
  precisionFactor <- precisionFactors precision ;;
  q <- bigQuo d precisionFactor ;; Ok (q * precisionFactor).
Definition ChopPrecision (d precision : Z) : Res Z := ChopPrecisionMut d precision.

Definition BigDecFromDec (d : Z) : Res Z := NewBigDecFromBigIntMutWithPrec d DecPrecision.
Definition BigDecFromDecMut (d : Z) : Res Z := NewBigDecFromBigIntMutWithPrec d DecPrecision.
Definition BigDecFromSDKInt (i : Z) : Res Z := NewBigDecFromBigIntWithPrec i 0.

Fixpoint BigDecFromDecSlice (ds : list Z) : Res (list Z) :=
  match ds with
  | [] => Ok []
  | d :: ds' =>
      r <- NewBigDecFromBigIntMutWithPrec d DecPrecision ;;
      rs <- BigDecFromDecSlice ds' ;; Ok (r :: rs)
  end.

Definition RoundInt64 (d : Z) : Res Z :=
  let chopped := chopPrecisionAndRoundNonMutative d in
  if negb (IsInt64 chopped) then Panic "Int64() out of bound" else Ok chopped.
Definition RoundInt (d : Z) : Res Z :=
  NewBigIntFromBigInt (chopPrecisionAndRoundNonMutative d).
Definition TruncateInt64 (d : Z) : Res Z :=
  let chopped := chopPrecisionAndTruncate d defaultBigDecPrecisionReuse in
  if negb (IsInt64 chopped) then Panic "Int64() out of bound" else Ok chopped.
Definition TruncateInt (d : Z) : Res Z :=
  NewBigIntFromBigInt (chopPrecisionAndTruncate d defaultBigDecPrecisionReuse).
Definition TruncateDec (d : Z) : Res Z :=
  NewBigDecFromBigInt (chopPrecisionAndTruncate d defaultBigDecPrecisionReuse).

Definition CeilMut (d : Z) : Res Z :=
  '(quo, rem) <- bigQuoRem d defaultBigDecPrecisionReuse ;;
  if Z.sgn rem <=? 0 then NewBigDecFromBigIntMut quo
  else NewBigDecFromBigIntMut (quo + 1).
Definition Ceil (d : Z) : Res Z := CeilMut d.

(** ** Helpers *)

Fixpoint DecsEqual (d1s d2s : list Z) : bool :=
  match d1s, d2s with
  | [], [] => true
  | d1 :: t1, d2 :: t2 => if Equal d1 d2 then DecsEqual t1 t2 else false
  | _, _ => false
  end.

Definition MinBigDec (d1 d2 : Z) : Z := if LT d1 d2 then d1 else d2.
Definition MaxBigDec (d1 d2 : Z) : Z := if LT d1 d2 then d2 else d1.

(** ** Range *)

Definition in_range (x : Z) : Prop := Z.abs x < 2 ^ maxDecBitLen.

Lemma checked_iff x r : checked x = Ok r <-> in_range x /\ r = x.
Proof.
  unfold checked, assertMaxBitLen, in_range.
  rewrite Z.gtb_ltb, BitLen_ltb by (cbv; discriminate).
  destruct (Z.ltb_spec (Z.abs x) (2 ^ maxDecBitLen)) as [H | H]; cbn [negb bind].
  - split; [intros [= <-]; auto | intros [_ ->]; reflexivity].
  - split; [discriminate | lia].
Qed.

Lemma checked_ok x : in_range x -> checked x = Ok x.
Proof. intros. now apply checked_iff. Qed.

(** A convenient sufficient condition: 344 decimal digits. *)
Lemma in_range_pow10 x : Z.abs x < 10 ^ 344 -> in_range x.
Proof.
  unfold in_range. assert (10 ^ 344 < 2 ^ maxDecBitLen) by (vm_compute; reflexivity). lia.
Qed.

Lemma in_range_le x y : Z.abs x <= Z.abs y -> in_range y -> in_range x.
Proof. unfold in_range. lia. Qed.

Lemma prec_pos : 0 < defaultBigDecPrecisionReuse.
Proof. reflexivity. Qed.

Lemma sdk_prec_pos : 0 < precisionReuseSDKDec.
Proof. reflexivity. Qed.

Lemma prec_double : defaultBigDecPrecisionReuse = 2 * fivePrecision.
Proof. reflexivity. Qed.

Lemma sdk_prec_double : precisionReuseSDKDec = 2 * fivePrecisionSDKDec.
Proof. reflexivity. Qed.

#[export] Hint Resolve prec_pos sdk_prec_pos : go.

(** ** Rounding to nearest, ties to even *)

(** [r] is [d / p] rounded to the nearest integer, ties to the even one. *)
Definition nearest_even (p d r : Z) : Prop :=
  2 * Z.abs (d - r * p) <= p /\ (2 * Z.abs (d - r * p) = p -> Z.even r = true).

Lemma nearest_even_opp p d r : nearest_even p d r -> nearest_even p (- d) (- r).
Proof.
  unfold nearest_even. replace (- d - - r * p) with (- (d - r * p)) by ring.
  rewrite Z.abs_opp, Z.even_opp. auto.
Qed.

Lemma nearest_even_unique p d r s :
  0 < p -> nearest_even p d r -> nearest_even p d s -> r = s.
Proof.
  intros Hp [H1 E1] [H2 E2].
  assert (r = s \/ r = s + 1 \/ r = s - 1) as [|[C|C]] by nia; auto; exfalso; subst.
  - assert (2 * Z.abs (d - s * p) = p) by nia.
    assert (2 * Z.abs (d - (s + 1) * p) = p) by nia.
    specialize (E1 ltac:(assumption)). specialize (E2 ltac:(assumption)).
    rewrite Z.add_1_r, Z.even_succ, <- Z.negb_even in E1. now rewrite E2 in E1.
  - assert (2 * Z.abs (d - s * p) = p) by nia.
    assert (2 * Z.abs (d - (s - 1) * p) = p) by nia.
    specialize (E1 ltac:(assumption)). specialize (E2 ltac:(assumption)).
    rewrite Z.sub_1_r, Z.even_pred, <- Z.negb_even in E1. now rewrite E2 in E1.
Qed.

Lemma chop_round_nonneg_spec p h d :
  0 < h -> p = 2 * h -> 0 <= d -> nearest_even p d (chop_round_nonneg p h d).
Proof.
  intros Hh -> Hd. unfold chop_round_nonneg, nearest_even.
  pose proof (quot_rem_pos d (2 * h) ltac:(lia) Hd) as (E & B & _).
  set (q := Z.quot d (2 * h)) in *. set (m := Z.rem d (2 * h)) in *.
  destruct (Z.eqb_spec (Z.sgn m) 0).
  - assert (m = 0) by lia. split; nia.
  - destruct (Z.compare_spec m h) as [-> | L | G].
    + rewrite Z.bit0_odd, Z.negb_odd. destruct (Z.even q) eqn:Ev.
      * split; [nia | auto].
      * split; [nia |]. intros _. rewrite Z.add_1_r, Z.even_succ, <- Z.negb_even.
        now rewrite Ev.
    + split; [nia | intros; nia].
    + split; [nia | intros; nia].
Qed.

Lemma chopPrecisionAndRound_spec d :
  nearest_even defaultBigDecPrecisionReuse d (chopPrecisionAndRound d).
Proof.
  unfold chopPrecisionAndRound. destruct (Z.eqb_spec (Z.sgn d) (-1)).
  - replace d with (- (- d)) at 1 by ring. apply nearest_even_opp.
    apply chop_round_nonneg_spec; [reflexivity | reflexivity | lia].
  - apply chop_round_nonneg_spec; [reflexivity | reflexivity | lia].
Qed.

Lemma chopPrecisionAndRoundSdkDec_spec d :
  nearest_even precisionReuseSDKDec d (chopPrecisionAndRoundSdkDec d).
Proof.
  unfold chopPrecisionAndRoundSdkDec. destruct (Z.eqb_spec (Z.sgn d) (-1)).
  - replace d with (- (- d)) at 1 by ring. apply nearest_even_opp.
    apply chop_round_nonneg_spec; [reflexivity | reflexivity | lia].
  - apply chop_round_nonneg_spec; [reflexivity | reflexivity | lia].
Qed.

Lemma nearest_even_exact p r : 0 < p -> nearest_even p (r * p) r.
Proof. intros. unfold nearest_even. rewrite Z.sub_diag. cbn [Z.abs]. split; lia. Qed.

Lemma chopPrecisionAndRound_exact r :
  chopPrecisionAndRound (r * defaultBigDecPrecisionReuse) = r.
Proof.
  eapply nearest_even_unique; [apply prec_pos | apply chopPrecisionAndRound_spec |].
  apply nearest_even_exact, prec_pos.
Qed.

(** Rounding to nearest is monotone and keeps integer bounds. *)
Lemma nearest_even_le p d r k : 0 < p -> nearest_even p d r -> k * p <= d -> k <= r.
Proof. intros Hp [H _] L. nia. Qed.

Lemma nearest_even_ge p d r k : 0 < p -> nearest_even p d r -> d <= k * p -> r <= k.
Proof. intros Hp [H _] L. nia. Qed.

Lemma nearest_even_mono p d1 d2 r1 r2 :
  0 < p -> nearest_even p d1 r1 -> nearest_even p d2 r2 -> d1 <= d2 -> r1 <= r2.
Proof.
  intros Hp N1 N2 L. destruct (Z_le_gt_dec r1 r2) as [|G]; [assumption|].
  destruct (Z.eq_dec d1 d2) as [<- | Hne].
  - pose proof (nearest_even_unique p d1 r1 r2 Hp N1 N2). lia.
  - destruct N1 as [N1 _], N2 as [N2 _]. nia.
Qed.

(** ** Directed rounding *)

Lemma quot_inc_cdiv a b : 0 <= a -> 0 < b -> incBasedOnRem (Z.rem a b) (Z.quot a b) = cdiv a b.
Proof.
  intros Ha Hb. pose proof (quot_rem_pos a b Hb Ha) as (E & B & _).
  symmetry. unfold incBasedOnRem. destruct (Z.eqb_spec (Z.sgn (Z.rem a b)) 0).
  - apply cdiv_unique; [lia|]. assert (Z.rem a b = 0) by lia. nia.
  - apply cdiv_unique; [lia|]. assert (0 < Z.rem a b) by lia. nia.
Qed.

Lemma quot_neg_cdiv a b : a <= 0 -> 0 < b -> Z.quot a b = cdiv a b.
Proof.
  intros Ha Hb. pose proof (quot_rem_neg a b Hb Ha) as (E & B & _).
  symmetry. apply cdiv_unique; nia.
Qed.

Lemma roundUpMut_cdiv d p : 0 < p -> chopPrecisionAndRoundUpMut d p = cdiv d p.
Proof.
  intros Hp. unfold chopPrecisionAndRoundUpMut, chopPrecisionAndTruncateMut.
  destruct (Z.eqb_spec (Z.sgn d) (-1)).
  - rewrite Z.quot_opp_l by lia. rewrite Z.opp_involutive. apply quot_neg_cdiv; lia.
  - apply quot_inc_cdiv; lia.
Qed.

Lemma quot_signed_inc_cdiv a b :
  0 < b -> (if Z.sgn (Z.rem a b) >? 0 then Z.quot a b + 1 else Z.quot a b) = cdiv a b.
Proof.
  intros Hb. destruct (Z_le_gt_dec 0 a) as [Ha | Ha].
  - rewrite <- quot_inc_cdiv by lia. unfold incBasedOnRem.
    pose proof (quot_rem_pos a b Hb Ha) as (E & B & _).
    destruct (Z.gtb_spec (Z.sgn (Z.rem a b)) 0), (Z.eqb_spec (Z.sgn (Z.rem a b)) 0); lia.
  - rewrite <- quot_neg_cdiv by lia.
    pose proof (quot_rem_neg a b Hb ltac:(lia)) as (E & B & _).
    destruct (Z.gtb_spec (Z.sgn (Z.rem a b)) 0); lia.
Qed.

(** What rounding "up" by one whenever there is a remainder gives on a
    negative dividend: one more than the ceiling. *)
Lemma quot_inc_negative a b :
  a < 0 -> 0 < b -> a mod b <> 0 -> incBasedOnRem (Z.rem a b) (Z.quot a b) = cdiv a b + 1.
Proof.
  intros Ha Hb Hm. rewrite <- quot_neg_cdiv by lia. unfold incBasedOnRem.
  destruct (Z.eqb_spec (Z.sgn (Z.rem a b)) 0); [|reflexivity].
  pose proof (quot_rem_neg a b Hb ltac:(lia)) as (E & B & _).
  exfalso. apply Hm. rewrite E. replace (Z.rem a b) with 0 by lia.
  rewrite Z.add_0_r, Z.mul_comm. apply Z.mod_mul. lia.
Qed.

(** ** What each operation computes

    One equation per operation, used by the clients of this file. *)

Lemma Mul_iff d d2 r :
  Mul d d2 = Ok r <-> in_range r /\ nearest_even defaultBigDecPrecisionReuse (d * d2) r.
Proof.
  unfold Mul, MulMut. rewrite checked_iff.
  pose proof (chopPrecisionAndRound_spec (d * d2)) as N. split.
  - intros [R ->]. auto.
  - intros [R N']. rewrite (nearest_even_unique _ _ _ _ prec_pos N N'). auto.
Qed.

Lemma MulDec_iff d d2 r :
  MulDec d d2 = Ok r <-> in_range r /\ nearest_even precisionReuseSDKDec (d * d2) r.
Proof.
  unfold MulDec, MulDecMut. rewrite checked_iff.
  pose proof (chopPrecisionAndRoundSdkDec_spec (d * d2)) as N. split.
  - intros [R ->]. auto.
  - intros [R N']. rewrite (nearest_even_unique _ _ _ _ sdk_prec_pos N N'). auto.
Qed.

Lemma in_range_eq x r : in_range x /\ r = x <-> in_range r /\ r = x.
Proof. split; intros [R ->]; auto. Qed.

Lemma MulTruncate_iff d d2 r :
  MulTruncate d d2 = Ok r <-> in_range r /\ r = Z.quot (d * d2) defaultBigDecPrecisionReuse.
Proof. unfold MulTruncate. rewrite checked_iff. apply in_range_eq. Qed.

Lemma MulTruncateDec_iff d d2 r :
  MulTruncateDec d d2 = Ok r <-> in_range r /\ r = Z.quot (d * d2) precisionReuseSDKDec.
Proof. unfold MulTruncateDec. rewrite checked_iff. apply in_range_eq. Qed.

Lemma MulRoundUp_iff d d2 r :
  MulRoundUp d d2 = Ok r <-> in_range r /\ r = cdiv (d * d2) defaultBigDecPrecisionReuse.
Proof.
  unfold MulRoundUp. rewrite checked_iff, roundUpMut_cdiv by apply prec_pos.
  apply in_range_eq.
Qed.

Lemma MulRoundUpDec_iff d d2 r :
  MulRoundUpDec d d2 = Ok r <-> in_range r /\ r = cdiv (d * d2) precisionReuseSDKDec.
Proof.
  unfold MulRoundUpDec. rewrite checked_iff, roundUpMut_cdiv by apply sdk_prec_pos.
  apply in_range_eq.
Qed.

Lemma QuoTruncate_iff d d2 r :
  QuoTruncate d d2 = Ok r <->
  d2 <> 0 /\ in_range r /\ r = Z.quot (d * defaultBigDecPrecisionReuse) d2.
Proof.
  unfold QuoTruncate, bigQuo. destruct (Z.eqb_spec d2 0); cbn [bind].
  - split; [discriminate | lia].
  - rewrite checked_iff, in_range_eq. intuition auto.
Qed.

Lemma QuoTruncateDec_iff d d2 r :
  QuoTruncateDec d d2 = Ok r <->
  d2 <> 0 /\ in_range r /\ r = Z.quot (d * precisionReuseSDKDec) d2.
Proof.
  unfold QuoTruncateDec, bigQuo. destruct (Z.eqb_spec d2 0); cbn [bind].
  - split; [discriminate | lia].
  - rewrite checked_iff, in_range_eq. intuition auto.
Qed.

Lemma QuoRoundUp_iff d d2 r :
  0 < d2 ->
  QuoRoundUp d d2 = Ok r <-> in_range r /\ r = cdiv (d * defaultBigDecPrecisionReuse) d2.
Proof.
  intros H. unfold QuoRoundUp. rewrite bigQuoRem_ok by lia. cbn [bind].
  rewrite quot_signed_inc_cdiv, checked_iff by assumption. apply in_range_eq.
Qed.

Lemma QuoByDecRoundUp_iff d d2 r :
  0 < d2 ->
  QuoByDecRoundUp d d2 = Ok r <-> in_range r /\ r = cdiv (d * precisionReuseSDKDec) d2.
Proof.
  intros H. unfold QuoByDecRoundUp. rewrite bigQuoRem_ok by lia. cbn [bind].
  rewrite quot_signed_inc_cdiv, checked_iff by assumption. apply in_range_eq.
Qed.

Lemma QuoRoundUpMut_iff d d2 r :
  0 <= d -> 0 < d2 ->
  QuoRoundUpMut d d2 = Ok r <-> in_range r /\ r = cdiv (d * defaultBigDecPrecisionReuse) d2.
Proof.
  intros Hd H. unfold QuoRoundUpMut. rewrite bigQuoRem_ok by lia. cbn [bind].
  pose proof prec_pos. rewrite quot_inc_cdiv, checked_iff by nia. apply in_range_eq.
Qed.

Lemma QuoRoundUpNextIntMut_iff d d2 r :
  0 <= d -> 0 < d2 ->
  QuoRoundUpNextIntMut d d2 = Ok r <->
  in_range r /\ r = cdiv d d2 * defaultBigDecPrecisionReuse.
Proof.
  intros Hd H. unfold QuoRoundUpNextIntMut. rewrite bigQuoRem_ok by lia. cbn [bind].
  rewrite quot_inc_cdiv, checked_iff by lia. apply in_range_eq.
Qed.

Lemma Quo_inv d d2 r :
  Quo d d2 = Ok r ->
  d2 <> 0 /\ in_range r /\
  nearest_even defaultBigDecPrecisionReuse (Z.quot (d * squaredPrecisionReuse) d2) r.
Proof.
  unfold Quo, QuoMut. intros H. inv_bind H. apply bigQuo_inv in E as [Hd2 ->].
  apply checked_iff in H as [R ->]. split; [assumption | split; [assumption |]].
  apply chopPrecisionAndRound_spec.
Qed.

(** A division whose exact result has 36 decimals is exact. *)
Lemma Quo_exact q d2 d :
  d2 <> 0 -> in_range q -> d * defaultBigDecPrecisionReuse = q * d2 -> Quo d d2 = Ok q.
Proof.
  intros H R E. unfold Quo, QuoMut. rewrite bigQuo_ok by assumption. cbn [bind].
  change squaredPrecisionReuse with (defaultBigDecPrecisionReuse * defaultBigDecPrecisionReuse).
  rewrite Z.mul_assoc, E, <- Z.mul_assoc, (Z.mul_comm d2), Z.mul_assoc.
  rewrite Z.quot_mul, chopPrecisionAndRound_exact by assumption. now apply checked_ok.
Qed.

Lemma Mul_exact r d d2 :
  in_range r -> d * d2 = r * defaultBigDecPrecisionReuse -> Mul d d2 = Ok r.
Proof.
  intros R E. apply Mul_iff. split; [assumption |]. rewrite E.
  apply nearest_even_exact, prec_pos.
Qed.

Lemma Sub_iff d d2 r : Sub d d2 = Ok r <-> in_range r /\ r = d - d2.
Proof. unfold Sub, SubMut. rewrite checked_iff. apply in_range_eq. Qed.

Lemma Add_iff d d2 r : Add d d2 = Ok r <-> in_range r /\ r = d + d2.
Proof. unfold Add, AddMut. rewrite checked_iff. apply in_range_eq. Qed.

(** The same facts as equations, for rewriting when the range is known. *)
Lemma Sub_ok d d2 : in_range (d - d2) -> Sub d d2 = Ok (d - d2).
Proof. intros R. now apply Sub_iff. Qed.

Lemma Add_ok d d2 : in_range (d + d2) -> Add d d2 = Ok (d + d2).
Proof. intros R. now apply Add_iff. Qed.

Lemma MulRoundUp_ok d d2 :
  in_range (cdiv (d * d2) defaultBigDecPrecisionReuse) ->
  MulRoundUp d d2 = Ok (cdiv (d * d2) defaultBigDecPrecisionReuse).
Proof. intros R. now apply MulRoundUp_iff. Qed.

Lemma MulRoundUpDec_ok d d2 :
  in_range (cdiv (d * d2) precisionReuseSDKDec) ->
  MulRoundUpDec d d2 = Ok (cdiv (d * d2) precisionReuseSDKDec).
Proof. intros R. now apply MulRoundUpDec_iff. Qed.

Lemma MulTruncate_ok d d2 :
  0 <= d * d2 -> in_range (d * d2 / defaultBigDecPrecisionReuse) ->
  MulTruncate d d2 = Ok (d * d2 / defaultBigDecPrecisionReuse).
Proof. intros H R. apply MulTruncate_iff. now rewrite (quot_nonneg _ _ H prec_pos). Qed.

Lemma MulTruncateDec_ok d d2 :
  0 <= d * d2 -> in_range (d * d2 / precisionReuseSDKDec) ->
  MulTruncateDec d d2 = Ok (d * d2 / precisionReuseSDKDec).
Proof. intros H R. apply MulTruncateDec_iff. now rewrite (quot_nonneg _ _ H sdk_prec_pos). Qed.

Lemma QuoTruncateMut_ok d d2 :
  0 <= d -> 0 < d2 -> in_range (d * defaultBigDecPrecisionReuse / d2) ->
  QuoTruncateMut d d2 = Ok (d * defaultBigDecPrecisionReuse / d2).
Proof.
  intros Hd H R. pose proof prec_pos. apply QuoTruncate_iff.
  rewrite quot_nonneg by nia. split; [lia|]. now split.
Qed.

Lemma QuoTruncateDec_ok d d2 :
  0 <= d -> 0 < d2 -> in_range (d * precisionReuseSDKDec / d2) ->
  QuoTruncateDec d d2 = Ok (d * precisionReuseSDKDec / d2).
Proof.
  intros Hd H R. pose proof sdk_prec_pos. apply QuoTruncateDec_iff.
  rewrite quot_nonneg by nia. split; [lia|]. now split.
Qed.

Lemma QuoByDecRoundUp_ok d d2 :
  0 < d2 -> in_range (cdiv (d * precisionReuseSDKDec) d2) ->
  QuoByDecRoundUp d d2 = Ok (cdiv (d * precisionReuseSDKDec) d2).
Proof. intros H R. now apply QuoByDecRoundUp_iff. Qed.

Lemma QuoRoundUpMut_ok d d2 :
  0 <= d -> 0 < d2 -> in_range (cdiv (d * defaultBigDecPrecisionReuse) d2) ->
  QuoRoundUpMut d d2 = Ok (cdiv (d * defaultBigDecPrecisionReuse) d2).
Proof. intros Hd H R. now apply QuoRoundUpMut_iff. Qed.

Lemma QuoRoundUpNextIntMut_ok d d2 :
  0 <= d -> 0 < d2 -> in_range (cdiv d d2 * defaultBigDecPrecisionReuse) ->
  QuoRoundUpNextIntMut d d2 = Ok (cdiv d d2 * defaultBigDecPrecisionReuse).
Proof. intros Hd H R. now apply QuoRoundUpNextIntMut_iff. Qed.

Lemma precisionMultiplier_ok prec :
  0 <= prec <= BigDecPrecision -> precisionMultiplier prec = Ok (10 ^ (BigDecPrecision - prec)).
Proof.
  intros H. unfold precisionMultiplier.
  destruct (Z.gtb_spec prec BigDecPrecision); [lia|].
  destruct (Z.ltb_spec prec 0); [lia|].
  unfold precisionMultipliers. rewrite nth_error_map, nth_error_seq.
  unfold BigDecPrecision in *.
  destruct (Nat.ltb_spec (Z.to_nat prec) 37); [|lia]. cbn [option_map Nat.add].
  do 2 f_equal. lia.
Qed.

Lemma BigDecFromDec_ok d : BigDecFromDec d = Ok (d * precisionReuseSDKDec).
Proof. reflexivity. Qed.

Lemma BigDecFromDecMut_ok d : BigDecFromDecMut d = Ok (d * precisionReuseSDKDec).
Proof. reflexivity. Qed.

Lemma BigDecFromSDKInt_ok i : BigDecFromSDKInt i = Ok (i * defaultBigDecPrecisionReuse).
Proof. reflexivity. Qed.

Lemma NewBigDec_ok i : NewBigDec i = Ok (i * defaultBigDecPrecisionReuse).
Proof. reflexivity. Qed.

Lemma CeilMut_ok d : CeilMut d = Ok (cdiv d defaultBigDecPrecisionReuse * defaultBigDecPrecisionReuse).
Proof.
  pose proof prec_pos as P. unfold CeilMut. rewrite bigQuoRem_ok by lia. cbn [bind].
  rewrite <- (quot_signed_inc_cdiv d) by assumption.
  destruct (Z.leb_spec (Z.sgn (Z.rem d defaultBigDecPrecisionReuse)) 0),
    (Z.gtb_spec (Z.sgn (Z.rem d defaultBigDecPrecisionReuse)) 0); try lia; reflexivity.
Qed.

#[export] Hint Rewrite BigDecFromDec_ok BigDecFromDecMut_ok BigDecFromSDKInt_ok
  NewBigDec_ok CeilMut_ok : gor.

(** Remembered bounds of a [Dec]/[BigDec] round trip. *)
Lemma Dec_of_Dec x : Dec (x * precisionReuseSDKDec) = x.
Proof. unfold Dec. apply Z.quot_mul. discriminate. Qed.

Lemma Dec_nonneg d : 0 <= d -> Dec d = d / precisionReuseSDKDec.
Proof. intros. unfold Dec. now apply quot_nonneg. Qed.

Lemma DecRoundUp_nonneg d : 0 <= d -> DecRoundUp d = cdiv d precisionReuseSDKDec.
Proof. intros. unfold DecRoundUp. now apply quot_inc_cdiv. Qed.

(** ** Properties *)

(** [Mul] (and [MulMut]) is multiplication correctly rounded to 36
    decimals, half to even (bankers' rounding), and panics exactly when the
    rounded product needs more than 1144 bits. *)
Theorem Mul_correctly_rounded (d d2 r : Z) :
  Mul d d2 = Ok r <-> in_range r /\ nearest_even (10 ^ 36) (d * d2) r.
Proof. apply Mul_iff. Qed.

(** the directed variants round in the direction their names say, for
    every sign of the product: [MulRoundUp] and [MulRoundUpDec] are ceilings,
    [MulTruncate] and [MulTruncateDec] truncate toward zero, [QuoTruncate]
    truncates, and [QuoRoundUp], [QuoByDecRoundUp] are ceilings for a positive
    divisor; each panics exactly when that value needs more than 1144 bits. *)
Theorem directed_rounding (d d2 r : Z) :
  (MulRoundUp d d2 = Ok r <-> in_range r /\ r = cdiv (d * d2) (10 ^ 36)) /\
  (MulRoundUpDec d d2 = Ok r <-> in_range r /\ r = cdiv (d * d2) (10 ^ 18)) /\
  (MulTruncate d d2 = Ok r <-> in_range r /\ r = Z.quot (d * d2) (10 ^ 36)) /\
  (MulTruncateDec d d2 = Ok r <-> in_range r /\ r = Z.quot (d * d2) (10 ^ 18)) /\
  (QuoTruncate d d2 = Ok r <-> d2 <> 0 /\ in_range r /\ r = Z.quot (d * 10 ^ 36) d2) /\
  (0 < d2 -> (QuoRoundUp d d2 = Ok r <-> in_range r /\ r = cdiv (d * 10 ^ 36) d2)) /\
  (0 < d2 -> (QuoByDecRoundUp d d2 = Ok r <-> in_range r /\ r = cdiv (d * 10 ^ 18) d2)).
Proof.
  split; [apply MulRoundUp_iff|]. split; [apply MulRoundUpDec_iff|].
  split; [apply MulTruncate_iff|]. split; [apply MulTruncateDec_iff|].
  split; [apply QuoTruncate_iff|]. split; [apply QuoRoundUp_iff | apply QuoByDecRoundUp_iff].
Qed.

(** [Quo] is within half a unit of the last decimal of the exact quotient
    plus the truncation of its 72-digit intermediate, and is exact whenever
    the quotient has at most 36 decimals. *)
Theorem Quo_error_bound (d d2 r : Z) :
  Quo d d2 = Ok r ->
  d2 <> 0 /\ in_range r /\
  2 * 10 ^ 36 * Z.abs (d * 10 ^ 36 - r * d2) < Z.abs d2 * (10 ^ 36 + 2) /\
  ((d2 | d * 10 ^ 36) -> r * d2 = d * 10 ^ 36).
Proof.
  intros H. pose proof H as H0. apply Quo_inv in H as (Hd2 & R & N).
  split; [assumption | split; [assumption | split]].
  - change squaredPrecisionReuse with (10 ^ 36 * 10 ^ 36) in N.
    change defaultBigDecPrecisionReuse with (10 ^ 36) in N.
    set (P := 10 ^ 36) in *. assert (HP : 0 < P) by reflexivity.
    destruct N as [N _].
    pose proof (Z.quot_rem (d * (P * P)) d2 Hd2) as E.
    pose proof (Z.rem_bound_abs (d * (P * P)) d2 Hd2) as B.
    set (q := Z.quot (d * (P * P)) d2) in *. set (m := Z.rem (d * (P * P)) d2) in *.
    replace (2 * P * Z.abs (d * P - r * d2)) with (2 * Z.abs (d2 * (q - r * P) + m)).
    2:{ replace (d2 * (q - r * P) + m) with (P * (d * P - r * d2)) by nia.
        rewrite Z.abs_mul, (Z.abs_eq P) by lia. ring. }
    pose proof (Z.abs_triangle (d2 * (q - r * P)) m).
    rewrite (Z.abs_mul d2 (q - r * P)) in H. nia.
  - intros [k Hk]. symmetry in Hk.
    destruct (Z_lt_ge_dec (Z.abs k) (2 ^ maxDecBitLen)) as [L | G].
    + rewrite (Quo_exact k d2 d Hd2 L ltac:(symmetry; exact Hk)) in H0.
      inversion H0; subst. exact Hk.
    + exfalso. revert H0. unfold Quo, QuoMut. rewrite bigQuo_ok by assumption. cbn [bind].
      change squaredPrecisionReuse with (10 ^ 36 * defaultBigDecPrecisionReuse).
      rewrite Z.mul_assoc, <- Hk, <- Z.mul_assoc, (Z.mul_comm d2), Z.mul_assoc, Z.quot_mul by assumption.
      rewrite (chopPrecisionAndRound_exact k), checked_iff. unfold in_range. lia.
Qed.

Lemma Quo_error_bound_witness :
  Quo (10 ^ 36) (3 * 10 ^ 36) = Ok 333333333333333333333333333333333333 /\ 3 * 10 ^ 36 <> 0.
Proof.
  assert (H : Quo (10 ^ 36) (3 * 10 ^ 36) = Ok 333333333333333333333333333333333333)
    by (vm_compute; reflexivity).
  split; [exact H | exact (proj1 (Quo_error_bound _ _ _ H))].
Defined.

(** [DecRoundUp] and [QuoRoundUpMut] increment on any non-zero remainder
    of a truncating division: on non-negative dividends this is the ceiling,
    on negative ones with a remainder it is the ceiling plus one, while the
    copying [QuoRoundUp] stays the ceiling. *)
Theorem round_up_on_negatives (d d2 : Z) :
  0 < d2 ->
  (0 <= d -> DecRoundUp d = cdiv d (10 ^ 18)) /\
  (d < 0 -> d mod 10 ^ 18 <> 0 -> DecRoundUp d = cdiv d (10 ^ 18) + 1) /\
  (0 <= d -> QuoRoundUpMut d d2 = QuoRoundUp d d2) /\
  (d < 0 -> (d * 10 ^ 36) mod d2 <> 0 ->
   QuoRoundUpMut d d2 = checked (cdiv (d * 10 ^ 36) d2 + 1) /\
   QuoRoundUp d d2 = checked (cdiv (d * 10 ^ 36) d2)).
Proof.
  intros H. split; [|split; [|split]].
  - apply DecRoundUp_nonneg.
  - intros. apply quot_inc_negative; [lia | reflexivity | assumption].
  - intros Hd. unfold QuoRoundUpMut, QuoRoundUp. rewrite bigQuoRem_ok by lia. cbn [bind].
    pose proof prec_pos. rewrite quot_inc_cdiv, quot_signed_inc_cdiv by nia. reflexivity.
  - intros Hd Hm. unfold QuoRoundUpMut, QuoRoundUp. rewrite bigQuoRem_ok by lia. cbn [bind].
    change defaultBigDecPrecisionReuse with (10 ^ 36).
    rewrite quot_inc_negative, quot_signed_inc_cdiv by (try assumption; lia). auto.
Qed.

Lemma round_up_on_negatives_witness :
  0 < 2 * 10 ^ 36 /\ QuoRoundUpMut (- 1) (2 * 10 ^ 36) = Ok 1 /\ QuoRoundUp (- 1) (2 * 10 ^ 36) = Ok 0.
Proof.
  pose proof (round_up_on_negatives (- 1) (2 * 10 ^ 36) ltac:(reflexivity)) as (_ & _ & _ & H).
  split; [reflexivity |].
  destruct (H ltac:(reflexivity) ltac:(vm_compute; discriminate)) as [H1 H2].
  rewrite H1, H2. split; vm_compute; reflexivity.
Defined.
