(* ===== verification/BigDecPow.v ===== *)
(** * [osmomath.BigDec]: powers, logarithms, roots and [Exp2]
    ([osmomath/decimal.go], [osmomath/exp2.go])

    Loops are [Fixpoint]s on a fuel argument; the fuel each caller passes is
    proved sufficient ([power_loop_fuel], [normalize_up_fuel],
    [normalize_down_fuel]), the loops with a fixed iteration count take that
    count. *)

From Stdlib Require Import ZArith Lia List Bool String.
From S2P Require Import Prelude GoBig BigInt BigDec.
Import ListNotations.

Abbreviation P36 := defaultBigDecPrecisionReuse.

(** ** Integer powers: square and multiply *)

(** [for i := power; i > 1; { if i%2 != 0 { tmp = tmp.MulMut(d) }; i /= 2;
    d = d.MulMut(d) }; return d.MulMut(tmp)] *)
Fixpoint power_loop (fuel : nat) (tmp d i : Z) : Res Z :=
  if i >? 1 then
    match fuel with
    | O => Panic "out of fuel"
    | S fuel' =>
        tmp' <- (if negb (i mod 2 =? 0) then BigDec.MulMut tmp d else Ok tmp) ;;
        d' <- BigDec.MulMut d d ;;
        power_loop fuel' tmp' d' (i / 2)
    end
  else BigDec.MulMut d tmp.

(** A [uint64] exponent is halved at most 64 times. *)
Definition PowerIntegerMut (d power : Z) : Res Z :=
  if power =? 0 then Ok OneBigDec else
  if power =? 1 then Ok d else
  if power =? 2 then BigDec.MulMut d d else
  power_loop 64 OneBigDec d power.

Definition PowerInteger (d power : Z) : Res Z := PowerIntegerMut d power.

(** ** Base-2 logarithm *)

Definition maxLog2Iterations : nat := 300.
Definition negOneBigDec : Z := - P36.
Definition oneHalfBigDec : Z := 5 * 10 ^ 35.
Definition logOfEbase2 : Z := 1442695040888963407359924681001892137.
Definition tickLogOf2 : Z := 144262291094554178391070900057480.

(** [for xCopy.LT(oneBigDec) { xCopy.i.Lsh(xCopy.i, 1); y.AddMut(negOneBigDec) }] *)
Fixpoint normalize_up (fuel : nat) (x y : Z) : Res (Z * Z) :=
  if LT x OneBigDec then
    match fuel with
    | O => Panic "out of fuel"
    | S fuel' => y' <- BigDec.AddMut y negOneBigDec ;; normalize_up fuel' (Lsh x 1) y'
    end
  else Ok (x, y).

(** [for xCopy.GTE(twoBigDec) { xCopy.i.Rsh(xCopy.i, 1); y.AddMut(oneBigDec) }] *)
Fixpoint normalize_down (fuel : nat) (x y : Z) : Res (Z * Z) :=
  if GTE x twoBigDec then
    match fuel with
    | O => Panic "out of fuel"
    | S fuel' => y' <- BigDec.AddMut y OneBigDec ;; normalize_down fuel' (Rsh x 1) y'
    end
  else Ok (x, y).

(** The mantissa loop, [n] iterations left. *)
Fixpoint log2_loop (n : nat) (x y b : Z) : Res Z :=
  match n with
  | O => Ok y
  | S n' =>
      x' <- BigDec.MulMut x x ;;
      if GTE x' twoBigDec
      then y' <- BigDec.AddMut y b ;; log2_loop n' (Rsh x' 1) y' (Rsh b 1)
      else log2_loop n' x' y (Rsh b 1)
  end.

Definition LogBase2 (x : Z) : Res Z :=
  if LTE x ZeroBigDec then Panic "log is not defined at <= 0" else
  '(x1, y1) <- normalize_up 120 x ZeroBigDec ;;
  '(x2, y2) <- normalize_down (Z.to_nat (Z.log2 x1)) x1 y1 ;;
  log2_loop maxLog2Iterations x2 y2 oneHalfBigDec.

Definition Ln (x : Z) : Res Z := log2x <- LogBase2 x ;; BigDec.Quo log2x logOfEbase2.
Definition TickLog (x : Z) : Res Z := log2x <- LogBase2 x ;; BigDec.Quo log2x tickLogOf2.
Definition CustomBaseLog (x base : Z) : Res Z :=
  if LTE base ZeroBigDec || Equal base OneBigDec then Panic "log is not defined at base <= 0 or base == 1" else
  log2x_argument <- LogBase2 x ;;
  log2x_base <- LogBase2 base ;;
  BigDec.Quo log2x_argument log2x_base.

(** ** Newton's nth root *)

Definition maxApproxRootIterations : nat := 100.

(** One fuel unit per iteration of
    [for iter := 0; delta.Abs().GT(SmallestBigDec()) && iter < maxApproxRootIterations; iter++]. *)
Fixpoint root_loop (iters : nat) (d root guess delta : Z) : Res Z :=
  match iters with
  | O => Ok guess
  | S iters' =>
      if GT (BigDec.Abs delta) SmallestBigDec then
        prev0 <- PowerInteger guess (uint64 (root - 1)) ;;
        let prev := if BigDec.IsZero prev0 then SmallestBigDec else prev0 in
        delta1 <- BigDec.Quo d prev ;;
        delta2 <- BigDec.SubMut delta1 guess ;;
        delta3 <- BigDec.QuoInt delta2 root ;;
        guess' <- BigDec.Add guess delta3 ;;
        root_loop iters' d root guess' delta3
      else Ok guess
  end.

Definition approx_root_nonneg (d root : Z) : Res Z :=
  if (root =? 1) || BigDec.IsZero d || Equal d OneBigDec then Ok d else
  if root =? 0 then Ok OneBigDec else
  root_loop maxApproxRootIterations d root OneBigDec OneBigDec.

(** The deferred [recover] turns a panic into an error. *)
Definition recovered {A} (r : Res A) : Res A :=
  match r with Panic m => Err m | _ => r end.

Definition ApproxRoot (d root : Z) : Res Z :=
  recovered
    (if BigDec.IsNegative d then
       d' <- BigDec.MulInt64 d (-1) ;;
       absRoot <- recovered (approx_root_nonneg d' root) ;;
       BigDec.MulInt64 absRoot (-1)
     else approx_root_nonneg d root).

Definition ApproxSqrt (d : Z) : Res Z := ApproxRoot d 2.

(** ** [Exp2]: rational approximation of 2^x *)

Definition numeratorCoefficients13Param : list Z :=
  [ 1000000000000000000000044212244679434;
    352032455817400196452603772766844426;
    56507868883666405413116800969512484;
    5343900728213034434757419480319916;
    317708814342353603087543715930732;
    11429747507407623028722262874632;
    198381965651614980168744540366 ].

Definition denominatorCoefficients13Param : list Z :=
  [ 1000000000000000000000000000000000000;
    - 341114724742545112949699755780593311;
    52724071627342653404436933178482287;
    - 4760950735524957576233524801866342;
    267168475410566529819971616894193;
    - 8923715368802211181557353097439;
    140277233177373698516010555916 ].

(** 2^9, computed as [MustNewBigDecFromStr("2").PowerInteger(9)]. *)
Definition maxSupportedExponent : Z := 512 * P36.

(** The accumulation loop over the remaining coefficient pairs. *)
Fixpoint cheb_loop (cs : list (Z * Z)) (x x_exp_i h_x p_x : Z) : Res (Z * Z) :=
  match cs with
  | [] => Ok (h_x, p_x)
  | (cn, cd) :: cs' =>
      x_exp_i' <- BigDec.MulMut x_exp_i x ;;
      tn <- BigDec.Mul cn x_exp_i' ;;
      h_x' <- BigDec.AddMut h_x tn ;;
      td <- BigDec.Mul cd x_exp_i' ;;
      p_x' <- BigDec.AddMut p_x td ;;
      cheb_loop cs' x x_exp_i' h_x' p_x'
  end.

Definition exp2ChebyshevRationalApprox (x : Z) : Res Z :=
  if LT x ZeroBigDec || GT x OneBigDec then Panic "exponent must be in the range [0, 1]" else
  if BigDec.IsZero x then Ok OneBigDec else
  if Equal x OneBigDec then Ok twoBigDec else
  '(h_x, p_x) <- cheb_loop (tl (combine numeratorCoefficients13Param denominatorCoefficients13Param))
                   x OneBigDec (hd 0 numeratorCoefficients13Param) (hd 0 denominatorCoefficients13Param) ;;
  BigDec.QuoMut h_x p_x.

Definition Exp2 (exponent : Z) : Res Z :=
  if BigDec.IsNegative exponent then Panic "negative exponent is not supported" else
  if GT (BigDec.Abs exponent) maxSupportedExponent then Panic "integer exponent is too large" else
  integerExponent <- BigDec.TruncateDec exponent ;;
  fractionalExponent <- BigDec.Sub exponent integerExponent ;;
  fractionalResult <- exp2ChebyshevRationalApprox fractionalExponent ;;
  n <- BigDec.TruncateInt integerExponent ;;
  shift <- BigInt.Uint64 n ;;
  Ok (Lsh fractionalResult shift).

Definition Power (d power : Z) : Res Z :=
  if BigDec.IsNegative d then Panic "negative base is not supported for Power()" else
  if BigDec.IsNegative power then Panic "negative power is not supported for Power()" else
  if GT (BigDec.Abs power) maxSupportedExponent then Panic "integer exponent is too large" else
  if IsInteger power then
    n <- BigDec.TruncateInt power ;; u <- BigInt.Uint64 n ;; PowerInteger d u
  else
  if BigDec.IsZero power then Ok OneBigDec else
  if BigDec.IsZero d then Ok ZeroBigDec else
  if LT d OneBigDec then Panic "Power() is not supported for base < 1" else
  if Equal d twoBigDec then Exp2 power else
  l <- LogBase2 d ;; e <- BigDec.Mul l power ;; Exp2 e.

(** ** Integer powers: correctness *)

(** Square and multiply preserves any relation [Q exponent value] that
    rounded multiplication preserves, up to exponent [N]. *)
Section PowerLoop.
Variable N : Z.
Variable Q : Z -> Z -> Prop.
Hypothesis Qmul : forall a c v w,
  Q a v -> Q c w -> 0 <= a -> 1 <= c -> a + c <= N -> exists r, BigDec.MulMut v w = Ok r /\ Q (a + c) r.

Lemma power_loop_fuel fuel : forall tmp d i t m,
  Q t tmp -> Q m d -> 0 <= t -> 1 <= m -> 1 <= i < 2 ^ (Z.of_nat fuel + 1) -> m * i + t <= N ->
  exists r, power_loop fuel tmp d i = Ok r /\ Q (m * i + t) r.
Proof.
  induction fuel as [|fuel IH]; intros tmp d i t m Qt Qm Ht Hm Hi HN; cbn [power_loop];
    destruct (Z.gtb_spec i 1) as [Gi | Li].
  - cbn in Hi. lia.
  - destruct (Qmul t m tmp d Qt Qm Ht Hm ltac:(nia)) as (r & E & Qr).
    unfold BigDec.MulMut in *. rewrite Z.mul_comm. exists r. split; [assumption|].
    now replace (m * i + t) with (t + m) by nia.
  - pose proof (Z.div_mod i 2 ltac:(lia)) as Ed.
    pose proof (Z.mod_pos_bound i 2 ltac:(lia)).
    assert (Hi2 : 1 <= i / 2 < 2 ^ (Z.of_nat fuel + 1)).
    { replace (Z.of_nat (S fuel) + 1) with (Z.succ (Z.of_nat fuel + 1)) in Hi by lia.
      rewrite Z.pow_succ_r in Hi by lia. lia. }
    destruct (Qmul m m d d Qm Qm ltac:(lia) Hm ltac:(nia)) as (d' & Ed' & Qd').
    destruct (Z.eqb_spec (i mod 2) 0) as [Ev | Od]; cbn [negb bind].
    + rewrite Ed'. cbn [bind].
      destruct (IH tmp d' (i / 2) t (m + m) Qt Qd' Ht ltac:(lia) Hi2 ltac:(nia)) as (r & E & Qr).
      exists r. split; [assumption|]. replace (m * i + t) with ((m + m) * (i / 2) + t) by nia. assumption.
    + destruct (Qmul t m tmp d Qt Qm Ht Hm ltac:(nia)) as (t' & Et' & Qt').
      rewrite Et', Ed'. cbn [bind].
      destruct (IH t' d' (i / 2) (t + m) (m + m) Qt' Qd' ltac:(lia) ltac:(lia) Hi2 ltac:(nia)) as (r & E & Qr).
      exists r. split; [assumption|]. replace (m * i + t) with ((m + m) * (i / 2) + (t + m)) by nia. assumption.
  - destruct (Qmul t m tmp d Qt Qm Ht Hm ltac:(nia)) as (r & E & Qr).
    unfold BigDec.MulMut in *. rewrite Z.mul_comm. exists r. split; [assumption|].
    now replace (m * i + t) with (t + m) by nia.
Qed.

Lemma PowerInteger_gen d n :
  Q 0 OneBigDec -> Q 1 d -> 0 <= n < 2 ^ 64 -> n <= N ->
  exists r, PowerInteger d n = Ok r /\ Q n r.
Proof.
  intros Q0 Q1 Hn HN. unfold PowerInteger, PowerIntegerMut.
  destruct (Z.eqb_spec n 0) as [-> |]; [eauto|].
  destruct (Z.eqb_spec n 1) as [-> |]; [eauto|].
  destruct (Z.eqb_spec n 2) as [-> |].
  - apply (Qmul 1 1); auto; lia.
  - destruct (power_loop_fuel 64 OneBigDec d n 0 1 Q0 Q1 ltac:(lia) ltac:(lia)) as (r & E & Qr).
    + cbn. lia.
    + lia.
    + exists r. split; [assumption|]. now replace n with (1 * n + 0) by lia.
Qed.
End PowerLoop.

(** [v] is [b^a] (a 36-decimal fraction of at most one) up to half a unit of
    the last place per multiplication. *)
Definition pow_approx (b a v : Z) : Prop :=
  0 <= v <= P36 /\
  (a = 0 /\ v = P36 \/ 1 <= a /\ 2 * Z.abs (v * P36 ^ (a - 1) - b ^ a) <= (a - 1) * P36 ^ (a - 1)).

Lemma approx_step p X Y B C v w r a c :
  0 < p -> 0 < X -> 0 < Y -> 1 <= a -> 1 <= c ->
  0 <= v <= p -> 0 <= C <= p * Y ->
  2 * Z.abs (v * X - B) <= (a - 1) * X ->
  2 * Z.abs (w * Y - C) <= (c - 1) * Y ->
  2 * Z.abs (v * w - r * p) <= p ->
  2 * Z.abs (r * (p * X * Y) - B * C) <= (a + c - 1) * (p * X * Y).
Proof.
  intros Hp HX HY Ha Hc Hv HC HA HB HR.
  set (ea := v * X - B) in *. set (ec := w * Y - C) in *. set (e := v * w - r * p) in *.
  assert (D : r * (p * X * Y) - B * C = v * X * ec + ea * C - e * (X * Y)) by (subst ea ec e; ring).
  rewrite D.
  assert (T1 : 2 * Z.abs (v * X * ec) <= p * X * ((c - 1) * Y)).
  { rewrite Z.abs_mul, (Z.abs_eq (v * X)) by nia.
    replace (2 * (v * X * Z.abs ec)) with (v * X * (2 * Z.abs ec)) by ring.
    apply Z.mul_le_mono_nonneg; nia. }
  assert (T2 : 2 * Z.abs (ea * C) <= (a - 1) * X * (p * Y)).
  { rewrite Z.abs_mul, (Z.abs_eq C) by lia.
    replace (2 * (Z.abs ea * C)) with (2 * Z.abs ea * C) by ring.
    apply Z.mul_le_mono_nonneg; lia. }
  assert (T3 : 2 * Z.abs (e * (X * Y)) <= p * (X * Y)).
  { rewrite Z.abs_mul, (Z.abs_eq (X * Y)) by nia.
    replace (2 * (Z.abs e * (X * Y))) with (2 * Z.abs e * (X * Y)) by ring.
    apply Z.mul_le_mono_nonneg_r; nia. }
  replace ((a + c - 1) * (p * X * Y))
    with (p * X * ((c - 1) * Y) + (a - 1) * X * (p * Y) + p * (X * Y)) by ring.
  lia.
Qed.

Lemma unit_mul_range v w :
  0 <= v <= P36 -> 0 <= w <= P36 ->
  exists r, BigDec.MulMut v w = Ok r /\ 0 <= r <= P36 /\ 2 * Z.abs (v * w - r * P36) <= P36.
Proof.
  intros Hv Hw. pose proof prec_pos as HP.
  pose proof (chopPrecisionAndRound_spec (v * w)) as Nr.
  set (r := chopPrecisionAndRound (v * w)) in *.
  assert (0 <= r) by (apply (nearest_even_le _ _ _ 0 HP Nr); nia).
  assert (r <= P36) by (apply (nearest_even_ge _ _ _ P36 HP Nr); nia).
  exists r. split; [|split; [lia | exact (proj1 Nr)]].
  unfold BigDec.MulMut. fold r. apply checked_ok, in_range_pow10.
  assert (P36 < 10 ^ 344) by reflexivity. lia.
Qed.

Lemma pow_approx_mul b a c v w :
  0 <= b <= P36 -> pow_approx b a v -> pow_approx b c w -> 0 <= a -> 1 <= c ->
  exists r, BigDec.MulMut v w = Ok r /\ pow_approx b (a + c) r.
Proof.
  intros Hb [Hv Av] [Hw [[-> ?] | [_ Aw]]] Ha Hc; [lia|].
  pose proof prec_pos as HP.
  destruct (unit_mul_range v w Hv Hw) as (r & E & Hr & Er).
  exists r. split; [assumption|]. split; [assumption|]. right. split; [lia|].
  destruct Av as [[-> ->] | [Ha1 Av]].
  - assert (r = w) by nia. subst r. exact Aw.
  - replace (a + c - 1) with (1 + (a - 1) + (c - 1)) at 1 by lia.
    replace (P36 ^ (a + c - 1)) with (P36 * P36 ^ (a - 1) * P36 ^ (c - 1)).
    2:{ replace (a + c - 1) with (1 + (a - 1) + (c - 1)) by lia.
        rewrite !Z.pow_add_r, Z.pow_1_r by lia. reflexivity. }
    replace (P36 ^ (1 + (a - 1) + (c - 1))) with (P36 * P36 ^ (a - 1) * P36 ^ (c - 1))
      by (rewrite !Z.pow_add_r, Z.pow_1_r by lia; reflexivity).
    rewrite Z.pow_add_r by lia.
    apply (approx_step P36 _ _ (b ^ a) (b ^ c) v w r a c); auto; try lia;
      try (apply Z.pow_pos_nonneg; lia).
    split; [apply Z.pow_nonneg; lia|].
    replace (P36 * P36 ^ (c - 1)) with (P36 ^ c)
      by (replace c with (Z.succ (c - 1)) at 1 by lia; apply Z.pow_succ_r; lia).
    apply Z.pow_le_mono_l. lia.
Qed.

(** On bases in [0, 1], [PowerInteger] never panics for any [uint64]
    exponent and its result is within [(n-1)/2] units of the last (36th)
    decimal of the exact power: square and multiply loses at most half a unit
    per multiplication of the naive product. *)
Theorem PowerInteger_accuracy (d n : Z) :
  0 <= d <= 10 ^ 36 -> 1 <= n < 2 ^ 64 ->
  exists r, PowerInteger d n = Ok r /\ 0 <= r <= 10 ^ 36 /\
    2 * Z.abs (r * (10 ^ 36) ^ (n - 1) - d ^ n) <= (n - 1) * (10 ^ 36) ^ (n - 1).
Proof.
  intros Hd Hn. change (10 ^ 36) with P36 in *.
  destruct (PowerInteger_gen n (pow_approx d)) with (d := d) (n := n) as (r & E & Hr & A); try lia.
  - intros a c v w Av Aw Ha Hc _. now apply pow_approx_mul.
  - split; [unfold OneBigDec; lia | left; auto].
  - split; [assumption | right]. split; [lia|].
    replace (d ^ 1) with d by ring. cbn [Z.sub Z.opp Z.add Z.pos_sub]. rewrite Z.pow_0_r. lia.
  - exists r. split; [assumption | split; [assumption|]].
    destruct A as [[-> _] | [_ A]]; [lia | exact A].
Qed.

Lemma PowerInteger_accuracy_witness :
  exists r, PowerInteger (5 * 10 ^ 35) 10 = Ok r /\ 0 <= r <= 10 ^ 36.
Proof.
  destruct (PowerInteger_accuracy (5 * 10 ^ 35) 10 ltac:(split; vm_compute; discriminate)
              ltac:(split; vm_compute; [discriminate | reflexivity])) as (r & E & B & _).
  exists r. exact (conj E B).
Defined.

(** ** Integer powers of integers are exact *)

Lemma pow_int_mul k N a c v w :
  in_range (k ^ N * P36) -> v = k ^ a * P36 -> w = k ^ c * P36 -> 0 <= a -> 1 <= c -> a + c <= N ->
  exists r, BigDec.MulMut v w = Ok r /\ r = k ^ (a + c) * P36.
Proof.
  intros R -> -> Ha Hc HN. exists (k ^ (a + c) * P36). split; [|reflexivity].
  change BigDec.MulMut with BigDec.Mul. apply Mul_exact; [|rewrite Z.pow_add_r by lia; ring].
  eapply in_range_le; [|exact R]. rewrite !Z.abs_mul.
  apply Z.mul_le_mono_nonneg_r; [lia|]. rewrite !Z.abs_pow.
  destruct (Z.eq_dec k 0) as [-> | Hk].
  - cbn [Z.abs]. rewrite !Z.pow_0_l by lia. lia.
  - apply Z.pow_le_mono_r; lia.
Qed.

Lemma PowerInteger_int k n :
  0 <= n < 2 ^ 64 -> in_range (k ^ n * P36) -> PowerInteger (k * P36) n = Ok (k ^ n * P36).
Proof.
  intros Hn R.
  destruct (PowerInteger_gen n (fun a v => v = k ^ a * P36)) with (d := k * P36) (n := n)
    as (r & E & ->); try lia.
  - intros a c v w Hv Hw Ha Hc HN. now apply (pow_int_mul k n).
  - rewrite Z.pow_0_r. unfold OneBigDec. lia.
  - exact E.
Qed.

(** [PowerInteger] is exact on integers: raising the decimal [k] to the
    [n]-th power returns exactly [k^n], provided that value fits. *)
Theorem PowerInteger_integer_exact (k n : Z) :
  0 <= n < 2 ^ 64 -> in_range (k ^ n * 10 ^ 36) ->
  PowerInteger (k * 10 ^ 36) n = Ok (k ^ n * 10 ^ 36).
Proof. apply PowerInteger_int. Qed.

Lemma PowerInteger_integer_exact_witness :
  PowerInteger (10 * 10 ^ 36) 77 = Ok (10 ^ 77 * 10 ^ 36).
Proof.
  apply (PowerInteger_integer_exact 10 77);
    [split; [discriminate | reflexivity] | vm_compute; reflexivity].
Defined.

(** ** Base-2 logarithm: termination and integer part *)

Lemma AddMut_small y z : Z.abs y + Z.abs z < 10 ^ 344 -> BigDec.AddMut y z = Ok (y + z).
Proof. intros. apply checked_ok, in_range_pow10. lia. Qed.

Lemma normalize_up_fuel fuel : forall x y,
  0 < x -> P36 <= x * 2 ^ Z.of_nat fuel -> Z.abs y + Z.of_nat fuel * P36 < 10 ^ 344 ->
  exists k, 0 <= k <= Z.of_nat fuel /\ normalize_up fuel x y = Ok (x * 2 ^ k, y - k * P36) /\
    P36 <= x * 2 ^ k /\ (k = 0 \/ x * 2 ^ k < 2 * P36).
Proof.
  induction fuel as [|fuel IH]; intros x y Hx HP Hy; cbn [normalize_up];
    unfold LT, OneBigDec; destruct (Z.ltb_spec x P36) as [L | G].
  - rewrite Z.pow_0_r in HP. lia.
  - exists 0. rewrite Z.pow_0_r, Z.mul_1_r. split; [lia|].
    split; [do 2 f_equal; lia | split; [assumption | left; reflexivity]].
  - rewrite Nat2Z.inj_succ, Z.pow_succ_r in HP by lia.
    rewrite Nat2Z.inj_succ in Hy. pose proof prec_pos as PP.
    rewrite AddMut_small by (unfold negOneBigDec; lia). cbn [bind].
    rewrite Lsh_mul, Z.pow_1_r by lia. unfold negOneBigDec.
    destruct (IH (x * 2) (y + - P36) ltac:(lia) ltac:(lia) ltac:(lia)) as (k & Hk & E & B & C).
    exists (Z.succ k). rewrite Z.pow_succ_r, Nat2Z.inj_succ by lia. split; [lia|].
    rewrite E. split; [do 2 f_equal; lia | split; [lia|]].
    right. destruct C as [-> | C]; [rewrite Z.pow_0_r; lia | lia].
  - exists 0. rewrite Z.pow_0_r, Z.mul_1_r. split; [lia|].
    split; [do 2 f_equal; lia | split; [assumption | left; reflexivity]].
Qed.

Lemma normalize_down_fuel fuel : forall x y,
  P36 <= x < 2 * P36 * 2 ^ Z.of_nat fuel -> Z.abs y + Z.of_nat fuel * P36 < 10 ^ 344 ->
  exists k z, 0 <= k <= Z.of_nat fuel /\ normalize_down fuel x y = Ok (z, y + k * P36) /\
    P36 <= z < 2 * P36 /\ P36 * 2 ^ k <= x < 2 * P36 * 2 ^ k.
Proof.
  induction fuel as [|fuel IH]; intros x y HP Hy; cbn [normalize_down];
    unfold GTE, twoBigDec; rewrite Z.geb_leb;
    change (2 * 10 ^ 36) with (2 * P36); destruct (Z.leb_spec (2 * P36) x) as [G | L].
  - rewrite Z.pow_0_r in HP. lia.
  - exists 0, x. rewrite Z.pow_0_r. repeat split; try lia. do 2 f_equal. lia.
  - rewrite Nat2Z.inj_succ, Z.pow_succ_r in HP by lia.
    rewrite Nat2Z.inj_succ in Hy. pose proof prec_pos as PP.
    rewrite AddMut_small by (unfold OneBigDec; lia). cbn [bind].
    rewrite Rsh_div, Z.pow_1_r by lia. unfold OneBigDec.
    pose proof (div_spec x 2 ltac:(lia)) as D.
    destruct (IH (x / 2) (y + P36) ltac:(lia) ltac:(lia)) as (k & z & Hk & E & B & C).
    exists (Z.succ k), z. rewrite Z.pow_succ_r, Nat2Z.inj_succ by lia. split; [lia|].
    rewrite E. split; [do 2 f_equal; lia | split; [assumption | lia]].
  - exists 0, x. rewrite Z.pow_0_r. repeat split; try lia. do 2 f_equal. lia.
Qed.

Lemma square_normalized x :
  P36 <= x < 2 * P36 ->
  exists r, BigDec.MulMut x x = Ok r /\ P36 <= r < 4 * P36.
Proof.
  intros Hx. pose proof prec_pos as HP.
  pose proof (chopPrecisionAndRound_spec (x * x)) as Nr.
  set (r := chopPrecisionAndRound (x * x)) in *.
  assert (P36 <= r) by (apply (nearest_even_le _ _ _ P36 HP Nr); nia).
  assert (r < 4 * P36).
  { assert (x * x <= (4 * P36 - 4) * P36 + 1) by nia.
    enough (r <= 4 * P36 - 3) by lia.
    apply (nearest_even_ge _ _ _ _ HP Nr). nia. }
  exists r. split; [|lia]. unfold BigDec.MulMut. fold r. apply checked_ok, in_range_pow10.
  assert (4 * P36 < 10 ^ 344) by reflexivity. lia.
Qed.

(** The mantissa loop keeps [1 <= x < 2] and adds less than [2 b]. *)
Lemma log2_loop_bounds n : forall x y b,
  P36 <= x < 2 * P36 -> 0 <= b -> Z.abs y + 2 * b < 10 ^ 344 ->
  exists y', log2_loop n x y b = Ok y' /\ y <= y' <= y + Z.max 0 (2 * b - 1).
Proof.
  induction n as [|n IH]; intros x y b Hx Hb Hy; cbn [log2_loop].
  - exists y. split; [reflexivity | lia].
  - destruct (square_normalized x Hx) as (r & -> & Hr). cbn [bind].
    pose proof (div_spec b 2 ltac:(lia)) as Db. rewrite (Rsh_div b 1), Z.pow_1_r by lia.
    unfold GTE, twoBigDec. rewrite Z.geb_leb. change (2 * 10 ^ 36) with (2 * P36).
    destruct (Z.leb_spec (2 * P36) r) as [G | L].
    + rewrite AddMut_small by lia. cbn [bind].
      rewrite (Rsh_div r 1), Z.pow_1_r by lia. pose proof (div_spec r 2 ltac:(lia)) as Dr.
      destruct (IH (r / 2) (y + b) (b / 2) ltac:(lia) ltac:(lia) ltac:(lia)) as (y' & E & B).
      exists y'. split; [assumption | lia].
    + destruct (IH r y (b / 2) ltac:(lia) ltac:(lia) ltac:(lia)) as (y' & E & B).
      exists y'. split; [assumption | lia].
Qed.

Lemma LogBase2_value (x : Z) :
  0 < x -> in_range x ->
  exists k y, LogBase2 x = Ok y /\ k * 10 ^ 36 <= y < (k + 1) * 10 ^ 36 /\
    (0 <= k -> 10 ^ 36 * 2 ^ k <= x < 10 ^ 36 * 2 ^ (k + 1)) /\
    (k < 0 -> 10 ^ 36 <= x * 2 ^ (- k) < 2 * 10 ^ 36).
Proof.
  intros Hx R. change (10 ^ 36) with P36. unfold LogBase2, LTE, ZeroBigDec.
  destruct (Z.leb_spec x 0); [lia|]. pose proof prec_pos as HP.
  destruct (normalize_up_fuel 120 x 0 Hx) as (k1 & Hk1 & -> & B1 & C1).
  { assert (P36 <= 2 ^ Z.of_nat 120) by (vm_compute; discriminate). nia. }
  { vm_compute. reflexivity. }
  cbn [bind]. set (x1 := x * 2 ^ k1) in *.
  assert (Hx1 : x1 < 2 ^ 1264).
  { subst x1. unfold in_range in R. change maxDecBitLen with 1144 in R.
    replace 1264 with (1144 + 120) by reflexivity. rewrite Z.pow_add_r by lia.
    assert (2 ^ k1 <= 2 ^ 120) by (apply Z.pow_le_mono_r; lia).
    pose proof (Z.pow_pos_nonneg 2 k1 ltac:(lia) ltac:(lia)). nia. }
  pose proof (Z.log2_spec x1 ltac:(lia)) as L. pose proof (Z.log2_nonneg x1) as L0.
  pose proof (proj1 (Z.log2_lt_pow2 x1 1264 ltac:(lia)) Hx1) as L1.
  destruct (normalize_down_fuel (Z.to_nat (Z.log2 x1)) x1 (0 - k1 * P36)) as (k2 & x2 & Hk2 & -> & B2 & C2).
  { rewrite Z2Nat.id by lia. split; [assumption|].
    rewrite Z.pow_succ_r in L by lia. nia. }
  { rewrite Z2Nat.id by lia. assert (2000 * P36 < 10 ^ 344) by reflexivity. nia. }
  cbn [bind]. rewrite Z2Nat.id in Hk2 by lia.
  destruct (log2_loop_bounds maxLog2Iterations x2 (0 - k1 * P36 + k2 * P36) oneHalfBigDec B2)
    as (y & E & By).
  { vm_compute. discriminate. }
  { assert (2000 * P36 < 10 ^ 344) by reflexivity. change oneHalfBigDec with (5 * 10 ^ 35).
    change P36 with (10 * 10 ^ 35) in *. nia. }
  exists (k2 - k1), y. split; [assumption|].
  change (Z.max 0 (2 * oneHalfBigDec - 1)) with (P36 - 1) in By.
  assert (Ex1 : x1 = x * 2 ^ k1) by reflexivity. clearbody x1.
  split; [lia|]. destruct C1 as [-> | C1].
  - rewrite Z.pow_0_r in Ex1. split; [intros _ | lia].
    rewrite Z.sub_0_r, Z.pow_add_r, Z.pow_1_r by lia. lia.
  - assert (k2 = 0) as ->.
    { assert (k2 = 0 \/ 1 <= k2) as [|K] by lia; [assumption|].
      pose proof (Z.pow_le_mono_r 2 1 k2 ltac:(lia) K) as Q. rewrite Z.pow_1_r in Q. nia. }
    split.
    + intros K. assert (k1 = 0) as -> by lia. rewrite Z.pow_0_r in Ex1.
      change (0 - 0) with 0. change (2 ^ 0) with 1. change (2 ^ (0 + 1)) with 2. lia.
    + intros _. replace (- (0 - k1)) with k1 by lia. lia.
Qed.

(** [LogBase2] returns (its normalisation loops terminate and nothing
    overflows) on every positive value of at most 1144 bits, and the integer
    part of the result is exactly the integer part of log_2 x. *)
Theorem LogBase2_integer_part (x : Z) :
  0 < x -> in_range x ->
  exists k y, LogBase2 x = Ok y /\ k * 10 ^ 36 <= y < (k + 1) * 10 ^ 36 /\
    (0 <= k -> 10 ^ 36 * 2 ^ k <= x < 10 ^ 36 * 2 ^ (k + 1)) /\
    (k < 0 -> 10 ^ 36 <= x * 2 ^ (- k) < 2 * 10 ^ 36).
Proof. apply LogBase2_value. Qed.

Lemma LogBase2_integer_part_witness :
  exists k y, LogBase2 (3 * 10 ^ 36) = Ok y /\ k * 10 ^ 36 <= y < (k + 1) * 10 ^ 36.
Proof.
  destruct (LogBase2_integer_part (3 * 10 ^ 36) ltac:(reflexivity) ltac:(vm_compute; reflexivity))
    as (k & y & E & B & _).
  exists k, y. exact (conj E B).
Defined.

(** ** [Exp2]: totality, exactness on integers, bounds *)

Lemma scaled_term c x :
  0 <= x <= P36 -> Z.abs c < 10 ^ 300 ->
  exists t, BigDec.Mul c x = Ok t /\ Z.min c 0 <= t <= Z.max c 0.
Proof.
  intros Hx Hc. pose proof prec_pos as HP.
  pose proof (chopPrecisionAndRound_spec (c * x)) as Nr.
  set (r := chopPrecisionAndRound (c * x)) in *.
  assert (Z.min c 0 <= r) by (apply (nearest_even_le _ _ _ _ HP Nr); nia).
  assert (r <= Z.max c 0) by (apply (nearest_even_ge _ _ _ _ HP Nr); nia).
  exists r. split; [|lia]. unfold BigDec.Mul, BigDec.MulMut. fold r.
  apply checked_ok, in_range_pow10. assert (10 ^ 300 < 10 ^ 344) by reflexivity. lia.
Qed.

Definition pos_sum (l : list Z) : Z := zsum (map (fun c => Z.max c 0) l).
Definition neg_sum (l : list Z) : Z := zsum (map (fun c => Z.min c 0) l).

Lemma cheb_loop_bounds cs : forall x xi h p,
  0 <= x <= P36 -> 0 <= xi <= P36 ->
  Forall (fun c => Z.abs (fst c) < 10 ^ 40 /\ Z.abs (snd c) < 10 ^ 40) cs ->
  Z.abs h + Z.of_nat (List.length cs) * 10 ^ 40 < 10 ^ 300 ->
  Z.abs p + Z.of_nat (List.length cs) * 10 ^ 40 < 10 ^ 300 ->
  exists h' p', cheb_loop cs x xi h p = Ok (h', p') /\
    h + neg_sum (map fst cs) <= h' <= h + pos_sum (map fst cs) /\
    p + neg_sum (map snd cs) <= p' <= p + pos_sum (map snd cs).
Proof.
  induction cs as [|[cn cd] cs IH]; intros x xi h p Hx Hxi HF Hh Hp; cbn [cheb_loop].
  - exists h, p. cbn. repeat split; lia.
  - inversion HF as [|c' cs' [Hn Hd] HF']; subst. cbn [fst snd] in *.
    destruct (unit_mul_range xi x Hxi Hx) as (xi' & -> & Hxi' & _). cbn [bind].
    assert (10 ^ 40 < 10 ^ 300) by reflexivity.
    destruct (scaled_term cn xi' Hxi' ltac:(lia)) as (tn & -> & Htn). cbn [bind].
    cbn [List.length] in Hh, Hp. rewrite Nat2Z.inj_succ in Hh, Hp.
    assert (10 ^ 300 + 10 ^ 300 < 10 ^ 344) by reflexivity.
    rewrite AddMut_small by lia. cbn [bind].
    destruct (scaled_term cd xi' Hxi' ltac:(lia)) as (td & -> & Htd). cbn [bind].
    rewrite AddMut_small by lia. cbn [bind].
    destruct (IH x xi' (h + tn) (p + td) Hx Hxi' HF' ltac:(lia) ltac:(lia))
      as (h' & p' & E & Bh & Bp).
    exists h', p'. split; [exact E|].
    unfold pos_sum, neg_sum, zsum in *. cbn [map fst snd fold_right] in *. lia.
Qed.

Lemma cheb_in_unit x :
  0 <= x < P36 ->
  exists r, exp2ChebyshevRationalApprox x = Ok r /\ 94 * 10 ^ 34 <= r <= 218 * 10 ^ 34.
Proof.
  intros Hx. pose proof prec_pos as HP. unfold exp2ChebyshevRationalApprox.
  unfold LT, GT, ZeroBigDec, OneBigDec, BigDec.IsZero, Equal.
  destruct (Z.ltb_spec x 0); [lia|]. destruct (Z.gtb_spec x P36); [lia|]. cbn [orb].
  destruct (Z.eqb_spec (Z.sgn x) 0).
  { exists P36. split; [reflexivity | vm_compute; split; discriminate]. }
  destruct (Z.eqb_spec x P36); [lia|].
  match goal with |- context [cheb_loop ?cs _ _ ?h ?p] =>
    destruct (cheb_loop_bounds cs x P36 h p ltac:(lia) ltac:(lia)) as (h' & p' & E & Bh & Bp) end.
  { cbn [tl combine numeratorCoefficients13Param denominatorCoefficients13Param].
    repeat constructor. }
  { vm_compute. reflexivity. }
  { vm_compute. reflexivity. }
  rewrite E. cbn [bind].
  match type of Bh with ?a <= _ <= ?b =>
    let a' := eval vm_compute in a in let b' := eval vm_compute in b in
    change (a' <= h' <= b') in Bh end.
  match type of Bp with ?a <= _ <= ?b =>
    let a' := eval vm_compute in a in let b' := eval vm_compute in b in
    change (a' <= p' <= b') in Bp end.
  assert (Hp : 0 < p') by lia.
  change BigDec.QuoMut with BigDec.Quo.
  unfold BigDec.Quo, BigDec.QuoMut. rewrite bigQuo_ok by lia. cbn [bind].
  set (q := Z.quot (h' * squaredPrecisionReuse) p').
  assert (Hq : 94 * 10 ^ 34 * P36 <= q <= 218 * 10 ^ 34 * P36).
  { subst q. rewrite quot_nonneg by (unfold squaredPrecisionReuse; lia).
    change squaredPrecisionReuse with (P36 * P36).
    split.
    - apply Z.div_le_lower_bound; [lia|]. change P36 with (100 * 10 ^ 34) in *.
      apply Z.le_trans with ((h' * (100 * 10 ^ 34)) * (100 * 10 ^ 34)); [|lia].
      apply Z.le_trans with ((p' * (94 * 10 ^ 34)) * (100 * 10 ^ 34)); [lia|].
      apply Z.mul_le_mono_nonneg_r; lia.
    - apply Z.div_le_upper_bound; [lia|]. change P36 with (100 * 10 ^ 34) in *.
      apply Z.le_trans with ((h' * (100 * 10 ^ 34)) * (100 * 10 ^ 34)); [lia|].
      apply Z.le_trans with ((p' * (218 * 10 ^ 34)) * (100 * 10 ^ 34)); [|lia].
      apply Z.mul_le_mono_nonneg_r; lia. }
  pose proof (chopPrecisionAndRound_spec q) as Nr.
  pose proof (nearest_even_le _ _ _ _ HP Nr (proj1 Hq)).
  pose proof (nearest_even_ge _ _ _ _ HP Nr (proj2 Hq)).
  exists (chopPrecisionAndRound q). split; [|lia].
  apply checked_ok, in_range_pow10. assert (218 * 10 ^ 34 < 10 ^ 344) by reflexivity. lia.
Qed.

Lemma TruncateDec_ok d :
  0 <= d -> BigDec.TruncateDec d = Ok (d / P36 * P36).
Proof.
  intros. unfold BigDec.TruncateDec, chopPrecisionAndTruncate. rewrite quot_nonneg by (auto with go).
  reflexivity.
Qed.

(** [Exp2] is defined on exactly its documented domain [0, 512]: it
    panics outside, returns inside (no intermediate overflows, no division by
    zero, and the fractional exponent it evaluates stays below one, so the
    shared constant [twoBigDec] is never returned and shifted in place), is
    exact on integers, and elsewhere lies between 0.94 and 2.18 times the
    power of two of the integer part. *)
Theorem Exp2_domain (e : Z) :
  (e < 0 \/ 512 * 10 ^ 36 < e -> is_panic (Exp2 e) = true) /\
  (0 <= e <= 512 * 10 ^ 36 ->
   exists r, Exp2 e = Ok r /\
     94 * 10 ^ 34 * 2 ^ (e / 10 ^ 36) <= r <= 218 * 10 ^ 34 * 2 ^ (e / 10 ^ 36) /\
     (e mod 10 ^ 36 = 0 -> r = 2 ^ (e / 10 ^ 36) * 10 ^ 36)).
Proof.
  change (10 ^ 36) with P36. pose proof prec_pos as HP.
  unfold Exp2, BigDec.IsNegative, GT, BigDec.Abs, maxSupportedExponent. split.
  - intros [H | H].
    + destruct (Z.eqb_spec (Z.sgn e) (-1)); [reflexivity | lia].
    + destruct (Z.eqb_spec (Z.sgn e) (-1)); [lia|].
      destruct (Z.gtb_spec (Z.abs e) (512 * P36)); [reflexivity | lia].
  - intros H. destruct (Z.eqb_spec (Z.sgn e) (-1)) as [|_]; [lia|].
    destruct (Z.gtb_spec (Z.abs e) (512 * P36)) as [|_]; [lia|].
    pose proof (div_spec e P36 HP) as D. pose proof (Z.mod_eq e P36 ltac:(lia)) as M.
    set (n := e / P36) in *. assert (Hn : 0 <= n <= 512) by nia.
    rewrite TruncateDec_ok by lia. fold n. cbn [bind].
    unfold BigDec.Sub, BigDec.SubMut. rewrite checked_ok
      by (apply in_range_pow10; assert (P36 < 10 ^ 344) by reflexivity; lia).
    cbn [bind]. destruct (cheb_in_unit (e - n * P36) ltac:(lia)) as (f & Ef & Bf).
    rewrite Ef. cbn [bind].
    unfold BigDec.TruncateInt, chopPrecisionAndTruncate. rewrite Z.quot_mul by lia.
    rewrite BigInt.NewBigIntFromBigInt_ok
      by (unfold BigInt.wf; assert (512 < 2 ^ maxBitLen) by reflexivity; lia).
    cbn [bind]. unfold BigInt.Uint64, IsUint64, max_uint64.
    replace ((0 <=? n) && (n <=? 2 ^ 64 - 1)) with true by lia. cbn [negb bind].
    exists (Lsh f n). rewrite Lsh_mul by lia.
    pose proof (Z.pow_pos_nonneg 2 n ltac:(lia) ltac:(lia)).
    split; [reflexivity | split; [nia|]].
    intros Z0. assert (e - n * P36 = 0) as Z1 by lia. rewrite Z1 in Ef.
    assert (f = P36) by (vm_compute in Ef; inversion Ef; reflexivity). subst f. lia.
Qed.

Lemma Exp2_domain_witness :
  (exists r, Exp2 (25 * 10 ^ 35) = Ok r) /\ Exp2 (10 * 10 ^ 36) = Ok (1024 * 10 ^ 36).
Proof.
  split.
  - destruct (proj2 (Exp2_domain (25 * 10 ^ 35)) ltac:(split; vm_compute; discriminate)) as (r & E & _).
    exists r. exact E.
  - destruct (proj2 (Exp2_domain (10 * 10 ^ 36)) ltac:(split; vm_compute; discriminate)) as (r & E & _ & X).
    rewrite E. f_equal. apply X. vm_compute. reflexivity.
Defined.
