(* ===== verification/MonoSqrt.v ===== *)
(** * Monotonic square roots ([osmomath/sqrt.go])

    Two copies of the same routine, at 18 decimals ([Dec]) and at 36
    ([BigDec]).  Values are the scaled integers; [r.Sqrt(r)] is Go's floor
    square root. *)

From Stdlib Require Import ZArith Lia Bool String.
From S2P Require Import Prelude GoBig.

Definition tenTo18 : Z := 10 ^ 18.
Definition tenTo36 : Z := tenTo18 * tenTo18.

Definition MonotonicSqrtMut (d : Z) : Res Z :=
  if Z.sgn d =? -1 then Err "cannot take square root of negative number" else
  r <- Sqrt (d * tenTo18) ;;
  let check := r * r in
  let shiftedD := d * tenTo18 in
  Ok (if check <? shiftedD then r + 1 else r).

Definition MonotonicSqrt (d : Z) : Res Z := MonotonicSqrtMut d.

Definition MonotonicSqrtBigDecMut (d : Z) : Res Z :=
  if Z.sgn d =? -1 then Err "cannot take square root of negative number" else
  r <- Sqrt (d * tenTo36) ;;
  let check := r * r in
  let shiftedD := d * tenTo36 in
  Ok (if check <? shiftedD then r + 1 else r).

Definition MonotonicSqrtBigDec (d : Z) : Res Z := MonotonicSqrtBigDecMut d.

Definition MustMonotonicSqrt (d : Z) : Res Z :=
  match MonotonicSqrt d with Err e => Panic e | r => r end.

Definition MustMonotonicSqrtBigDec (d : Z) : Res Z :=
  match MonotonicSqrtBigDec d with Err e => Panic e | r => r end.

(** ** The ceiling square root *)

Definition csqrt (n : Z) : Z := if Z.sqrt n * Z.sqrt n <? n then Z.sqrt n + 1 else Z.sqrt n.

Lemma csqrt_spec n : 0 <= n -> 0 <= csqrt n /\ n <= csqrt n * csqrt n /\
  (csqrt n = 0 \/ (csqrt n - 1) * (csqrt n - 1) < n).
Proof.
  intros Hn. unfold csqrt. pose proof (Z.sqrt_spec n Hn) as S. cbv zeta in S.
  pose proof (Z.sqrt_nonneg n) as N. generalize dependent (Z.sqrt n). intros s S N.
  destruct (Z.ltb_spec (s * s) n); repeat split; nia.
Qed.

(** [csqrt n] is the least non-negative integer whose square reaches [n]. *)
Lemma csqrt_least n s : 0 <= n -> 0 <= s -> n <= s * s -> csqrt n <= s.
Proof. intros Hn Hs H. pose proof (csqrt_spec n Hn). nia. Qed.

Lemma csqrt_unique n r :
  0 <= n -> 0 <= r -> n <= r * r -> (forall s, 0 <= s -> n <= s * s -> r <= s) -> r = csqrt n.
Proof.
  intros Hn Hr H L. pose proof (csqrt_least n r Hn Hr H).
  pose proof (csqrt_spec n Hn) as (A & B & _). specialize (L _ A B). lia.
Qed.

Lemma csqrt_mono n m : 0 <= n -> n <= m -> csqrt n <= csqrt m.
Proof.
  intros Hn H. apply csqrt_least; [assumption | |];
    pose proof (csqrt_spec m ltac:(lia)); lia.
Qed.

Lemma csqrt_square s : 0 <= s -> csqrt (s * s) = s.
Proof. intros. symmetry. apply csqrt_unique; intros; nia. Qed.

Lemma MonotonicSqrt_eq d :
  MonotonicSqrt d = if d <? 0 then Err "cannot take square root of negative number"
                    else Ok (csqrt (d * 10 ^ 18)).
Proof.
  unfold MonotonicSqrt, MonotonicSqrtMut, Sqrt, csqrt, tenTo18.
  destruct (Z.eqb_spec (Z.sgn d) (-1)), (Z.ltb_spec d 0); try lia; [reflexivity|].
  destruct (Z.ltb_spec (d * 10 ^ 18) 0); [lia | reflexivity].
Qed.

Lemma MonotonicSqrtBigDec_eq d :
  MonotonicSqrtBigDec d = if d <? 0 then Err "cannot take square root of negative number"
                          else Ok (csqrt (d * 10 ^ 36)).
Proof.
  unfold MonotonicSqrtBigDec, MonotonicSqrtBigDecMut, Sqrt, csqrt.
  change tenTo36 with (10 ^ 36).
  destruct (Z.eqb_spec (Z.sgn d) (-1)), (Z.ltb_spec d 0); try lia; [reflexivity|].
  destruct (Z.ltb_spec (d * 10 ^ 36) 0); [lia | reflexivity].
Qed.

(** ** Properties *)

(** C39: Both square roots return, on every non-negative decimal, the least
    decimal whose square is at least the argument (so [r^2 >= d], with no
    smaller representable value doing it), and an error exactly on negative
    arguments. *)
Theorem MonotonicSqrt_least_upper_root (d r : Z) :
  (MonotonicSqrt d = Ok r <->
    0 <= d /\ 0 <= r /\ d * 10 ^ 18 <= r * r /\
    forall s, 0 <= s -> d * 10 ^ 18 <= s * s -> r <= s) /\
  (MonotonicSqrtBigDec d = Ok r <->
    0 <= d /\ 0 <= r /\ d * 10 ^ 36 <= r * r /\
    forall s, 0 <= s -> d * 10 ^ 36 <= s * s -> r <= s) /\
  ((exists e, MonotonicSqrt d = Err e) <-> d < 0) /\
  ((exists e, MonotonicSqrtBigDec d = Err e) <-> d < 0).
Proof.
  rewrite MonotonicSqrt_eq, MonotonicSqrtBigDec_eq.
  destruct (Z.ltb_spec d 0) as [L | G].
  - split; [split; [discriminate | lia] | split; [split; [discriminate | lia] | split]];
      (split; [auto | eauto]).
  - pose proof (csqrt_spec (d * 10 ^ 18) ltac:(lia)) as (A1 & B1 & _).
    pose proof (csqrt_spec (d * 10 ^ 36) ltac:(lia)) as (A2 & B2 & _).
    split; [|split; [|split]].
    + split.
      * intros [= <-]. repeat split; auto. intros. apply csqrt_least; lia.
      * intros (_ & Hr & Hge & Hl). f_equal. symmetry. apply csqrt_unique; auto; lia.
    + split.
      * intros [= <-]. repeat split; auto. intros. apply csqrt_least; lia.
      * intros (_ & Hr & Hge & Hl). f_equal. symmetry. apply csqrt_unique; auto; lia.
    + split; [intros [e H]; discriminate | lia].
    + split; [intros [e H]; discriminate | lia].
Qed.

(** Both square roots are monotone, and exact on squares of decimals. *)
Theorem MonotonicSqrt_monotone (d1 d2 : Z) :
  0 <= d1 <= d2 ->
  (exists r1 r2, MonotonicSqrt d1 = Ok r1 /\ MonotonicSqrt d2 = Ok r2 /\ r1 <= r2) /\
  (exists r1 r2, MonotonicSqrtBigDec d1 = Ok r1 /\ MonotonicSqrtBigDec d2 = Ok r2 /\ r1 <= r2) /\
  (d1 * d1 = d2 * 10 ^ 18 -> MonotonicSqrt d2 = Ok d1) /\
  (d1 * d1 = d2 * 10 ^ 36 -> MonotonicSqrtBigDec d2 = Ok d1).
Proof.
  intros H. rewrite !MonotonicSqrt_eq, !MonotonicSqrtBigDec_eq.
  destruct (Z.ltb_spec d1 0); [lia|]. destruct (Z.ltb_spec d2 0); [lia|].
  split; [|split; [|split]].
  - do 2 eexists. repeat split. apply csqrt_mono; lia.
  - do 2 eexists. repeat split. apply csqrt_mono; lia.
  - intros <-. f_equal. apply csqrt_square. lia.
  - intros <-. f_equal. apply csqrt_square. lia.
Qed.

Lemma MonotonicSqrt_monotone_witness :
  0 <= 2 * 10 ^ 18 <= 4 * 10 ^ 18 /\ MonotonicSqrt (4 * 10 ^ 18) = Ok (2 * 10 ^ 18).
Proof.
  assert (H : 0 <= 2 * 10 ^ 18 <= 4 * 10 ^ 18) by lia.
  split; [exact H|].
  apply (proj1 (proj2 (proj2 (MonotonicSqrt_monotone (2 * 10 ^ 18) (4 * 10 ^ 18) H)))). vm_compute. reflexivity.
Defined.
