(* ===== verification/CLTick.v ===== *)
(** * Ticks and prices of concentrated liquidity
    ([x/concentrated-liquidity/math/tick.go], [math/precompute.go],
    [types/constants.go])

    Prices and square-root prices are [BigDec]s (scaled by 10^36); a tick is
    an [int64].  The tables filled by [init()] are definitions by the same
    formulas, [tickExpCache] is the map the loops of [buildTickExpCache]
    produce. *)

From Stdlib Require Import ZArith Lia List Bool String.
From S2P Require Import Prelude GoBig BigInt BigDec BigDecPow MonoSqrt.
Import ListNotations.

(** ** Constants *)

Definition MinInitializedTick : Z := -108000000.
Definition MaxTick : Z := 342000000.
Definition MinCurrentTick : Z := MinInitializedTick - 1.
Definition MinInitializedTickV2 : Z := -270000000.
Definition MinCurrentTickV2 : Z := MinInitializedTickV2 - 1.
Definition ExponentAtPriceOne : Z := -6.

(** [MaxSpotPrice] = 10^38 and [MinSpotPrice] = 10^-12 as 18-decimal [Dec]s. *)
Definition MaxSpotPrice : Z := 10 ^ 38 * 10 ^ 18.
Definition MinSpotPrice : Z := 10 ^ 6.
Definition MaxSpotPriceBigDec : Z := MaxSpotPrice * 10 ^ 18.
Definition MinSpotPriceBigDec : Z := MinSpotPrice * 10 ^ 18.
Definition MinSpotPriceV2 : Z := 10 ^ 6.
Definition MaxSqrtPriceBigDec : Z := 10 ^ 19 * 10 ^ 36.
Definition MinSqrtPriceBigDec : Z := 10 ^ 30.

(** ** Precomputed tables *)

Definition osmomathBigOneDec : Z := 10 ^ 36.
Definition osmomathBigTenDec : Z := 10 * 10 ^ 36.

Definition geometricExponentIncrementDistanceInTicks : Z := 9 * 10 ^ 6.

(** [bigPowersOfTen], 309 entries, and [bigNegPowersOfTen], 37 entries;
    indexing outside panics. *)
Definition bigPowersOfTen (i : Z) : Res Z :=
  if (0 <=? i) && (i <? 309) then PowerInteger osmomathBigTenDec i else Panic "index out of range".

Definition bigNegPowersOfTen (i : Z) : Res Z :=
  if (0 <=? i) && (i <=? BigDecPrecision)
  then p <- PowerInteger osmomathBigTenDec i ;; BigDec.Quo osmomathBigOneDec p
  else Panic "index out of range".

Definition powTenBigDec (exponent : Z) : Res Z :=
  if exponent >=? 0 then bigPowersOfTen exponent else bigNegPowersOfTen (- exponent).

Record tickExpIndexData : Type := {
  initialPrice : Z;
  maxPrice : Z;
  additiveIncrementPerTick : Z;
  initialTick : Z
}.

(** The two loops of [buildTickExpCache]; the map is an association list. *)
Fixpoint build_positive (fuel : nat) (curMaxPrice curExpIndex : Z)
    (cache : list (Z * tickExpIndexData)) : Res (list (Z * tickExpIndexData)) :=
  if LT curMaxPrice MaxSpotPriceBigDec then
    match fuel with
    | O => Panic "out of fuel"
    | S fuel' =>
        ip <- PowerInteger osmomathBigTenDec curExpIndex ;;
        mp <- PowerInteger osmomathBigTenDec (curExpIndex + 1) ;;
        inc <- powTenBigDec (ExponentAtPriceOne + curExpIndex) ;;
        build_positive fuel' mp (curExpIndex + 1)
          ((curExpIndex, {| initialPrice := ip; maxPrice := mp; additiveIncrementPerTick := inc;
              initialTick := geometricExponentIncrementDistanceInTicks * curExpIndex |}) :: cache)
    end
  else Ok cache.

Fixpoint build_negative (fuel : nat) (minPrice curExpIndex : Z)
    (cache : list (Z * tickExpIndexData)) : Res (list (Z * tickExpIndexData)) :=
  if GT minPrice MinSpotPriceV2 then
    match fuel with
    | O => Panic "out of fuel"
    | S fuel' =>
        ip <- powTenBigDec curExpIndex ;;
        mp <- powTenBigDec (curExpIndex + 1) ;;
        inc <- powTenBigDec (ExponentAtPriceOne + curExpIndex) ;;
        build_negative fuel' ip (curExpIndex - 1)
          ((curExpIndex, {| initialPrice := ip; maxPrice := mp; additiveIncrementPerTick := inc;
              initialTick := geometricExponentIncrementDistanceInTicks * curExpIndex |}) :: cache)
    end
  else Ok cache.

Definition buildTickExpCache : Res (list (Z * tickExpIndexData)) :=
  cache <- build_positive 100 osmomathBigOneDec 0 [] ;;
  build_negative 100 osmomathBigOneDec (-1) cache.

Definition built_cache (r : Res (list (Z * tickExpIndexData))) : list (Z * tickExpIndexData) :=
  match r with Ok c => c | _ => [] end.

Definition tickExpCache := Eval vm_compute in built_cache buildTickExpCache.

(** Reading an absent key gives the nil pointer, whose fields then panic. *)
Fixpoint cache_get (index : Z) (c : list (Z * tickExpIndexData)) : Res tickExpIndexData :=
  match c with
  | [] => Panic "nil pointer dereference"
  | (k, v) :: c' => if index =? k then Ok v else cache_get index c'
  end.

(** ** Tick to price *)

Definition TickToAdditiveGeometricIndices (tickIndex : Z) : Res (Z * Z) :=
  if tickIndex =? 0 then Ok (0, 0) else
  if (tickIndex =? MinInitializedTickV2) || (tickIndex =? MinCurrentTickV2) then Ok (0, -30) else
  if tickIndex <? MinCurrentTickV2 then Err "TickIndexMinimumError" else
  if tickIndex >? MaxTick then Err "TickIndexMaximumError" else
  let geometricExponentDelta := Z.quot tickIndex geometricExponentIncrementDistanceInTicks in
  Ok (tickIndex - geometricExponentDelta * geometricExponentIncrementDistanceInTicks,
      geometricExponentDelta).

Definition TickToPrice (tickIndex : Z) : Res Z :=
  if tickIndex =? 0 then Ok OneBigDec else
  if (tickIndex =? MinInitializedTickV2) || (tickIndex =? MinCurrentTickV2) then Ok MinSpotPriceV2 else
  '(numAdditiveTicks, geometricExponentDelta) <- TickToAdditiveGeometricIndices tickIndex ;;
  let exponentAtCurrentTick0 := ExponentAtPriceOne + geometricExponentDelta in
  let '(exponentAtCurrentTick, unscaledPrice0) :=
    if tickIndex <? 0 then (exponentAtCurrentTick0 - 1, 1000000 * 10)
    else (exponentAtCurrentTick0, 1000000) in
  let unscaledPrice := unscaledPrice0 + numAdditiveTicks in
  p10 <- powTenBigDec exponentAtCurrentTick ;;
  price <- MulInt64 p10 unscaledPrice ;;
  if GT price MaxSpotPriceBigDec || LT price MinSpotPriceV2 then Err "PriceBoundError" else Ok price.

Definition TickToSqrtPrice (tickIndex : Z) : Res Z :=
  priceBigDec <- TickToPrice tickIndex ;;
  if tickIndex >=? MinInitializedTick then
    sqrtPrice <- MonotonicSqrtMut (BigDec.Dec priceBigDec) ;; BigDecFromDecMut sqrtPrice
  else MonotonicSqrtBigDec priceBigDec.

Definition TicksToSqrtPrice (lowerTick upperTick : Z) : Res (Z * Z) :=
  if lowerTick >=? upperTick then Err "InvalidLowerUpperTickError" else
  sqrtPriceUpperTick <- TickToSqrtPrice upperTick ;;
  sqrtPriceLowerTick <- TickToSqrtPrice lowerTick ;;
  Ok (sqrtPriceLowerTick, sqrtPriceUpperTick).

(** ** Tick spacing *)

Definition RoundDownTickToSpacing (tickIndex tickSpacing : Z) : Res Z :=
  if tickSpacing =? 0 then Panic "integer divide by zero" else
  let tickIndexModulus0 := Z.rem tickIndex tickSpacing in
  let tickIndexModulus :=
    if tickIndexModulus0 <? 0 then int64 (tickIndexModulus0 + tickSpacing) else tickIndexModulus0 in
  let tickIndex' :=
    if negb (tickIndexModulus =? 0) then int64 (tickIndex - tickIndexModulus) else tickIndex in
  if (tickIndex' >? MaxTick) || (tickIndex' <? MinInitializedTickV2)
  then Err "TickIndexNotWithinBoundariesError" else Ok tickIndex'.

(** ** Price to tick *)

(** [for geoSpacing.maxPrice.LT(price) { index += 1; ... }] *)
Fixpoint search_up (fuel : nat) (index price : Z) : Res tickExpIndexData :=
  geoSpacing <- cache_get index tickExpCache ;;
  if LT (maxPrice geoSpacing) price then
    match fuel with O => Panic "out of fuel" | S fuel' => search_up fuel' (index + 1) price end
  else Ok geoSpacing.

(** [for geoSpacing.initialPrice.GT(price) { index -= 1; ... }] *)
Fixpoint search_down (fuel : nat) (index price : Z) : Res tickExpIndexData :=
  geoSpacing <- cache_get index tickExpCache ;;
  if GT (initialPrice geoSpacing) price then
    match fuel with O => Panic "out of fuel" | S fuel' => search_down fuel' (index - 1) price end
  else Ok geoSpacing.

Definition CalculatePriceToTick (price : Z) : Res Z :=
  if BigDec.IsNegative price then Err "price must be greater than zero" else
  if GT price MaxSpotPriceBigDec || LT price MinSpotPriceV2 then Err "PriceBoundError" else
  if Equal price osmomathBigOneDec then Ok 0 else
  price' <- (if GTE price MinSpotPriceBigDec then ChopPrecisionMut price DecPrecision else Ok price) ;;
  geoSpacing <- (if GT price' osmomathBigOneDec then search_up 68 0 price'
                 else search_down 68 (-1) price') ;;
  priceInThisExponent <- BigDec.Sub price' (initialPrice geoSpacing) ;;
  ticksFilledByCurrentSpacing <- BigDec.QuoMut priceInThisExponent (additiveIncrementPerTick geoSpacing) ;;
  n <- BigDec.TruncateInt64 ticksFilledByCurrentSpacing ;;
  Ok (int64 (n + initialTick geoSpacing)).

(** The errors of the inner [TickToSqrtPrice] calls are replaced. *)
Definition or_calc_err (r : Res Z) : Res Z :=
  match r with Err _ => Err "ErrCalculateSqrtPriceToTick" | _ => r end.

Definition CalculateSqrtPriceToTick (sqrtPrice : Z) : Res Z :=
  price <- BigDec.Mul sqrtPrice sqrtPrice ;;
  tick0 <- CalculatePriceToTick price ;;
  if tick0 <? MinCurrentTick then Err "TickIndexMinimumError" else
  let '(tick, outOfBounds) :=
    if tick0 <=? MinInitializedTickV2 then (MinInitializedTickV2 + 1, true)
    else if tick0 >=? MaxTick - 1 then (MaxTick - 2, true)
    else (tick0, false) in
  sqrtPriceTplus1 <- or_calc_err (TickToSqrtPrice (tick + 1)) ;;
  if GTE sqrtPrice sqrtPriceTplus1 then
    sqrtPriceTplus2 <- or_calc_err (TickToSqrtPrice (tick + 2)) ;;
    if (negb outOfBounds && GTE sqrtPrice sqrtPriceTplus2) || (outOfBounds && GT sqrtPrice sqrtPriceTplus2)
    then Err "SqrtPriceToTickError" else
    if Equal sqrtPrice sqrtPriceTplus2 then Ok (tick + 2) else Ok (tick + 1)
  else
    sqrtPriceT <- or_calc_err (TickToSqrtPrice tick) ;;
    if GTE sqrtPrice sqrtPriceT then Ok tick else
    sqrtPriceTmin1 <- or_calc_err (TickToSqrtPrice (tick - 1)) ;;
    if LT sqrtPrice sqrtPriceTmin1 then Err "SqrtPriceToTickError" else Ok (tick - 1).

Definition SqrtPriceToTickRoundDownSpacing (sqrtPrice tickSpacing : Z) : Res Z :=
  tickIndex <- CalculateSqrtPriceToTick sqrtPrice ;;
  RoundDownTickToSpacing tickIndex (int64 tickSpacing).

(** ** The closed form of the tick price *)

(** Tick [t] lies in the geometric bucket [t / 9000000] and is its
    [t mod 9000000]-th additive step (floor division, so that negative ticks
    need no special case). *)
Definition tick_price (t : Z) : Z := pow10 (30 + t / 9000000) * (10 ^ 6 + t mod 9000000).

Lemma powTenBigDec_ok e : -36 <= e <= 307 -> powTenBigDec e = Ok (pow10 (36 + e)).
Proof.
  intros He. unfold powTenBigDec, bigPowersOfTen, bigNegPowersOfTen, BigDecPrecision, osmomathBigTenDec.
  assert (R : forall n, 0 <= n <= 307 -> in_range (10 ^ n * P36)).
  { intros n Hn. apply in_range_pow10. change P36 with (10 ^ 36). rewrite <- Z.pow_add_r by lia.
    rewrite Z.abs_eq by (apply Z.pow_nonneg; lia). apply Z.pow_lt_mono_r; lia. }
  rewrite Z.geb_leb. destruct (Z.leb_spec 0 e).
  - destruct (Z.ltb_spec e 309); [cbn [andb] | lia].
    change (10 ^ 36) with P36. rewrite PowerInteger_int by (try apply R; lia).
    f_equal. change P36 with (10 ^ 36). unfold pow10. rewrite (Z.pow_add_r 10 36 e) by lia. apply Z.mul_comm.
  - replace ((0 <=? - e) && (- e <=? 36)) with true by lia.
    change (10 ^ 36) with P36. rewrite PowerInteger_int by (try apply R; lia). cbn [bind].
    pose proof (Z.pow_pos_nonneg 10 (- e) ltac:(lia) ltac:(lia)). pose proof prec_pos.
    apply Quo_exact; [nia | |].
    + apply in_range_pow10. unfold pow10. rewrite Z.abs_eq by (apply Z.pow_nonneg; lia).
      apply Z.pow_lt_mono_r; lia.
    + change osmomathBigOneDec with (10 ^ 36). change P36 with (10 ^ 36). unfold pow10.
      rewrite (Z.mul_assoc (10 ^ (36 + e))), <- (Z.pow_add_r 10 (36 + e)) by lia.
      now replace (36 + e + - e) with 36 by lia.
Qed.

Lemma pow10_succ n : 0 <= n -> pow10 (n + 1) = 10 * pow10 n.
Proof. intros. rewrite pow10_add by lia. change (pow10 1) with 10. lia. Qed.

Lemma pow10_36 q : -30 <= q -> pow10 (36 + q) = 10 ^ 6 * pow10 (30 + q).
Proof. intros. replace (36 + q) with (6 + (30 + q)) by lia. rewrite pow10_add by lia. reflexivity. Qed.

Lemma pow10_37 q : -30 <= q -> pow10 (37 + q) = 10 ^ 7 * pow10 (30 + q).
Proof. intros. replace (37 + q) with (7 + (30 + q)) by lia. rewrite pow10_add by lia. reflexivity. Qed.

Lemma tick_split t : t = 9000000 * (t / 9000000) + t mod 9000000 /\ 0 <= t mod 9000000 < 9000000.
Proof. split; [apply Z.div_mod; lia | apply Z.mod_pos_bound; lia]. Qed.

(** One tick up adds the increment of the bucket. *)
Lemma tick_price_succ t :
  MinInitializedTickV2 <= t -> tick_price (t + 1) = tick_price t + pow10 (30 + t / 9000000).
Proof.
  intros Ht. unfold MinInitializedTickV2 in Ht. unfold tick_price.
  destruct (tick_split t) as [E B]. destruct (tick_split (t + 1)) as [E' B'].
  assert (-30 <= t / 9000000) by lia.
  assert ((t + 1) / 9000000 = t / 9000000 /\ (t + 1) mod 9000000 = t mod 9000000 + 1 \/
          (t + 1) / 9000000 = t / 9000000 + 1 /\ (t + 1) mod 9000000 = 0 /\ t mod 9000000 = 8999999)
    as [[-> ->] | (-> & -> & ->)] by lia.
  - ring.
  - replace (30 + (t / 9000000 + 1)) with (30 + t / 9000000 + 1) by lia.
    rewrite pow10_succ by lia. ring.
Qed.

Lemma tick_price_lt t u : MinInitializedTickV2 <= t -> t < u -> tick_price t < tick_price u.
Proof.
  intros Ht. replace u with (t + (u - t)) by lia. generalize (u - t). intros k.
  intros Hk. assert (0 < k) as Hk' by lia. clear Hk. revert k Hk'.
  assert (Step : forall v, MinInitializedTickV2 <= v -> tick_price v < tick_price (v + 1)).
  { intros v Hv. rewrite tick_price_succ by assumption.
    pose proof (pow10_pos (30 + v / 9000000)) as P. destruct (tick_split v).
    unfold MinInitializedTickV2 in Hv. lia. }
  intros k Hk. enough (forall n, 0 <= n -> tick_price t < tick_price (t + (n + 1))) as H
    by (specialize (H (k - 1) ltac:(lia)); now replace (k - 1 + 1) with k in H by lia).
  apply natlike_ind.
  - rewrite Z.add_0_l. auto.
  - intros n Hn IH. unfold Z.succ. specialize (Step (t + (n + 1)) ltac:(lia)).
    replace (t + (n + 1 + 1)) with (t + (n + 1) + 1) by lia. lia.
Qed.

Lemma tick_price_le t u : MinInitializedTickV2 <= t -> t <= u -> tick_price t <= tick_price u.
Proof.
  intros Ht H. destruct (Z.eq_dec t u) as [-> |]; [lia|].
  pose proof (tick_price_lt t u Ht ltac:(lia)). lia.
Qed.

Lemma tick_price_bounds t :
  MinInitializedTickV2 <= t <= MaxTick -> 10 ^ 6 <= tick_price t <= 10 ^ 74.
Proof.
  intros [H1 H2].
  pose proof (tick_price_le MinInitializedTickV2 t ltac:(lia) H1) as L.
  pose proof (tick_price_le t MaxTick H1 H2) as U.
  change (tick_price MinInitializedTickV2) with (10 ^ 6) in L.
  change (tick_price MaxTick) with (10 ^ 74) in U. lia.
Qed.

Lemma TickToPrice_ok t :
  MinInitializedTickV2 <= t <= MaxTick -> TickToPrice t = Ok (tick_price t).
Proof.
  intros Ht. pose proof (tick_price_bounds t Ht) as PB. destruct (tick_split t) as [E B].
  unfold TickToPrice. destruct (Z.eqb_spec t 0) as [-> | N0]; [reflexivity|].
  destruct (Z.eqb_spec t MinInitializedTickV2) as [-> | N1]; [reflexivity|].
  destruct (Z.eqb_spec t MinCurrentTickV2) as [-> | N2]; [unfold MinCurrentTickV2 in Ht; lia|].
  cbn [orb]. unfold TickToAdditiveGeometricIndices.
  destruct (Z.eqb_spec t 0); [lia|].
  destruct (Z.eqb_spec t MinInitializedTickV2); [lia|].
  destruct (Z.eqb_spec t MinCurrentTickV2); [lia|]. cbn [orb].
  destruct (Z.ltb_spec t MinCurrentTickV2); [unfold MinCurrentTickV2 in *; lia|].
  destruct (Z.gtb_spec t MaxTick); [lia|]. cbn [bind].
  change geometricExponentIncrementDistanceInTicks with 9000000. unfold ExponentAtPriceOne.
  unfold MinInitializedTickV2, MaxTick in Ht, N1.
  enough (G : exists e u, (if t <? 0 then (-6 + Z.quot t 9000000 - 1, 1000000 * 10) else (-6 + Z.quot t 9000000, 1000000)) = (e, u)
     /\ -36 <= e <= 307 /\ pow10 (36 + e) * (u + (t - Z.quot t 9000000 * 9000000)) = tick_price t).
  { destruct G as (e & u & -> & He & Hp). rewrite powTenBigDec_ok by assumption. cbn [bind].
    unfold MulInt64. rewrite Hp. rewrite checked_ok
      by (apply in_range_pow10; assert (10 ^ 74 < 10 ^ 344) by reflexivity; lia).
    cbn [bind]. unfold GT, LT. change MaxSpotPriceBigDec with (10 ^ 74). change MinSpotPriceV2 with (10 ^ 6).
    destruct (Z.gtb_spec (tick_price t) (10 ^ 74)); [lia|].
    destruct (Z.ltb_spec (tick_price t) (10 ^ 6)); [lia|]. reflexivity. }
  unfold tick_price. destruct (Z.ltb_spec t 0) as [Neg | Pos].
  - pose proof (quot_rem_neg t 9000000 ltac:(lia) ltac:(lia)) as (Eq & Bq & _).
    set (q' := Z.quot t 9000000) in *. do 2 eexists. split; [reflexivity|].
    assert (t / 9000000 = q' /\ t mod 9000000 = 0 /\ Z.rem t 9000000 = 0 \/
            t / 9000000 = q' - 1 /\ t mod 9000000 = Z.rem t 9000000 + 9000000)
      as [(-> & -> & Er) | (-> & ->)] by lia.
    + split; [lia|]. replace (30 + q') with (36 + (-6 + q' - 1) + 1) by lia.
      rewrite pow10_succ by lia. replace (t - q' * 9000000) with 0 by lia. ring.
    + split; [lia|]. replace (30 + (q' - 1)) with (36 + (-6 + q' - 1)) by lia.
      replace (t - q' * 9000000) with (Z.rem t 9000000) by lia. ring.
  - rewrite quot_nonneg by lia. do 2 eexists. split; [reflexivity|]. split; [lia|].
    replace (36 + (-6 + t / 9000000)) with (30 + t / 9000000) by lia.
    replace (t - t / 9000000 * 9000000) with (t mod 9000000) by lia. reflexivity.
Qed.

(** ** The bucket search *)

Definition bucket (idx : Z) : tickExpIndexData :=
  {| initialPrice := pow10 (36 + idx); maxPrice := pow10 (37 + idx);
     additiveIncrementPerTick := pow10 (30 + idx); initialTick := 9000000 * idx |}.

Definition bucket_eqb (a b : tickExpIndexData) : bool :=
  (initialPrice a =? initialPrice b) && (maxPrice a =? maxPrice b) &&
  (additiveIncrementPerTick a =? additiveIncrementPerTick b) && (initialTick a =? initialTick b).

Lemma bucket_eqb_eq a b : bucket_eqb a b = true -> a = b.
Proof. destruct a, b. unfold bucket_eqb. cbn. intros. b2p. now subst. Qed.

Lemma tickExpCache_table :
  forallb (fun n => match cache_get (Z.of_nat n - 30) tickExpCache with
                    | Ok d => bucket_eqb d (bucket (Z.of_nat n - 30)) | _ => false end)
    (seq 0 68) = true.
Proof. vm_compute. reflexivity. Qed.

(** The table built by [buildTickExpCache] has one entry per power of ten
    from 10^-30 to 10^37. *)
Lemma cache_get_ok idx : -30 <= idx <= 37 -> cache_get idx tickExpCache = Ok (bucket idx).
Proof.
  intros H. pose proof tickExpCache_table as T. rewrite forallb_forall in T.
  specialize (T (Z.to_nat (idx + 30)) ltac:(apply in_seq; lia)).
  rewrite Z2Nat.id in T by lia. replace (idx + 30 - 30) with idx in T by lia.
  destruct (cache_get idx tickExpCache); try discriminate.
  apply bucket_eqb_eq in T. now subst.
Qed.

Lemma search_up_ok fuel : forall idx p,
  0 <= idx -> 37 <= idx + Z.of_nat fuel -> idx <= 37 -> pow10 (36 + idx) <= p <= 10 ^ 74 ->
  exists k, 0 <= k <= 37 /\ search_up fuel idx p = Ok (bucket k) /\
    pow10 (36 + k) <= p <= pow10 (37 + k).
Proof.
  induction fuel as [|fuel IH]; intros idx p H0 Hf H37 Hp; cbn [search_up];
    rewrite cache_get_ok by lia; cbn [bind]; unfold LT; cbn [maxPrice bucket];
    destruct (Z.ltb_spec (pow10 (37 + idx)) p) as [L | G].
  - replace idx with 37 in * by lia. change (pow10 (37 + 37)) with (10 ^ 74) in L. lia.
  - exists idx. split; [lia | split; [reflexivity | lia]].
  - destruct (Z.eq_dec idx 37) as [-> |].
    + change (pow10 (37 + 37)) with (10 ^ 74) in L. lia.
    + apply IH; try lia. replace (36 + (idx + 1)) with (37 + idx) by lia. lia.
  - exists idx. split; [lia | split; [reflexivity | lia]].
Qed.

Lemma search_down_ok fuel : forall idx p,
  -30 <= idx <= -1 -> idx - Z.of_nat fuel <= -30 -> 10 ^ 6 <= p <= pow10 (37 + idx) ->
  exists k, -30 <= k <= -1 /\ search_down fuel idx p = Ok (bucket k) /\
    pow10 (36 + k) <= p <= pow10 (37 + k).
Proof.
  induction fuel as [|fuel IH]; intros idx p H0 Hf Hp; cbn [search_down];
    rewrite cache_get_ok by lia; cbn [bind]; unfold GT; cbn [initialPrice bucket];
    destruct (Z.gtb_spec (pow10 (36 + idx)) p) as [L | G].
  - replace idx with (-30) in * by lia. change (pow10 (36 + -30)) with (10 ^ 6) in L. lia.
  - exists idx. split; [lia | split; [reflexivity | lia]].
  - destruct (Z.eq_dec idx (-30)) as [-> |].
    + change (pow10 (36 + -30)) with (10 ^ 6) in L. lia.
    + apply IH; try lia. replace (37 + (idx - 1)) with (36 + idx) by lia. lia.
  - exists idx. split; [lia | split; [reflexivity | lia]].
Qed.

(** The price [CalculatePriceToTick] works with: prices from 10^-12 up are
    truncated to 18 decimals. *)
Definition chopped_price (p : Z) : Z :=
  if 10 ^ 24 <=? p then p / 10 ^ 18 * 10 ^ 18 else p.

Lemma chopped_price_bounds p :
  10 ^ 6 <= p <= 10 ^ 74 -> 10 ^ 6 <= chopped_price p <= p.
Proof.
  intros H. unfold chopped_price. destruct (Z.leb_spec (10 ^ 24) p); [|lia].
  pose proof (div_spec p (10 ^ 18) ltac:(lia)). lia.
Qed.

Lemma chop_mul p k : 10 ^ 24 <= p -> k * 10 ^ 18 <= p -> k * 10 ^ 18 <= chopped_price p.
Proof.
  intros H L. unfold chopped_price. destruct (Z.leb_spec (10 ^ 24) p); [|lia].
  apply Z.mul_le_mono_nonneg_r; [lia|]. apply Z.div_le_lower_bound; lia.
Qed.

Lemma ChopPrecisionMut_18 p : 0 <= p -> ChopPrecisionMut p DecPrecision = Ok (p / 10 ^ 18 * 10 ^ 18).
Proof.
  intros H. unfold ChopPrecisionMut, precisionFactors, BigDecPrecision, DecPrecision. cbn [bind].
  change (18 >? 36) with false. change ((0 <=? 18) && (18 <=? 36)) with true. cbv iota. cbn [bind].
  change (36 - 18) with 18. rewrite bigQuo_ok by discriminate. cbn [bind].
  now rewrite quot_nonneg by lia.
Qed.

(** The last arithmetic step inside the bucket [idx], for a price [p'] of it. *)
Lemma bucket_ticks idx p :
  -30 <= idx <= 37 -> pow10 (36 + idx) <= p <= pow10 (37 + idx) ->
  exists r, (x <- BigDec.Sub p (initialPrice (bucket idx)) ;;
             y <- BigDec.QuoMut x (additiveIncrementPerTick (bucket idx)) ;;
             n <- BigDec.TruncateInt64 y ;;
             Ok (int64 (n + initialTick (bucket idx)))) = Ok (r / P36 + 9000000 * idx) /\
    nearest_even P36 ((p - pow10 (36 + idx)) * pow10 (42 - idx)) r /\ 0 <= r <= 9000000 * P36.
Proof.
  intros Hi Hp. cbn [bucket initialPrice additiveIncrementPerTick initialTick].
  rewrite pow10_36, pow10_37 in Hp by lia. rewrite pow10_36 by lia.
  set (X := pow10 (30 + idx)) in *. pose proof (pow10_pos (30 + idx) ltac:(lia)) as HX. fold X in HX.
  assert (HX67 : X <= 10 ^ 67) by (apply (pow10_le (30 + idx) 67); lia).
  set (a := p - 10 ^ 6 * X). assert (Ha : 0 <= a <= 9000000 * X) by (subst a; lia).
  unfold BigDec.Sub, BigDec.SubMut. fold a. rewrite checked_ok
    by (apply in_range_pow10; assert (9000000 * 10 ^ 67 < 10 ^ 344) by reflexivity; lia).
  cbn [bind]. unfold BigDec.QuoMut. rewrite bigQuo_ok by lia. cbn [bind].
  assert (XY : X * pow10 (42 - idx) = 10 ^ 72).
  { unfold X. rewrite <- pow10_add by lia. now replace (30 + idx + (42 - idx)) with 72 by lia. }
  change squaredPrecisionReuse with (10 ^ 72). rewrite <- XY.
  replace (a * (X * pow10 (42 - idx))) with (a * pow10 (42 - idx) * X) by ring.
  rewrite Z.quot_mul by lia.
  set (Y := pow10 (42 - idx)) in *. pose proof (pow10_pos (42 - idx) ltac:(lia)) as HY. fold Y in HY.
  pose proof (chopPrecisionAndRound_spec (a * Y)) as Nr. pose proof prec_pos as HP.
  set (r := chopPrecisionAndRound (a * Y)) in *.
  assert (R0 : 0 <= r) by (apply (nearest_even_le _ _ _ 0 HP Nr); nia).
  assert (R1 : r <= 9000000 * P36).
  { apply (nearest_even_ge _ _ _ _ HP Nr). replace (9000000 * P36 * P36) with (9000000 * 10 ^ 72) by reflexivity.
    rewrite <- XY. nia. }
  rewrite checked_ok by (apply in_range_pow10; assert (9000000 * P36 < 10 ^ 344) by reflexivity; lia).
  cbn [bind]. unfold BigDec.TruncateInt64, chopPrecisionAndTruncate.
  rewrite quot_nonneg by lia. pose proof (div_spec r P36 HP) as Dr.
  assert (Br : 0 <= r / P36 <= 9000000) by nia.
  rewrite (proj2 (IsInt64_spec (r / P36))) by lia. cbn [negb bind].
  exists r. rewrite int64_id by lia. auto.
Qed.

(** What [CalculatePriceToTick] computes, on its whole domain. *)
Lemma CalculatePriceToTick_spec p :
  10 ^ 6 <= p <= 10 ^ 74 ->
  exists idx r, -30 <= idx <= 37 /\ CalculatePriceToTick p = Ok (r / P36 + 9000000 * idx) /\
    pow10 (36 + idx) <= chopped_price p <= pow10 (37 + idx) /\
    nearest_even P36 ((chopped_price p - pow10 (36 + idx)) * pow10 (42 - idx)) r /\
    0 <= r <= 9000000 * P36.
Proof.
  intros H. pose proof (chopped_price_bounds p H) as HB. unfold CalculatePriceToTick, BigDec.IsNegative.
  destruct (Z.eqb_spec (Z.sgn p) (-1)); [lia|].
  unfold GT, LT, GTE, Equal. change MaxSpotPriceBigDec with (10 ^ 74). change MinSpotPriceV2 with (10 ^ 6).
  destruct (Z.gtb_spec p (10 ^ 74)); [lia|]. destruct (Z.ltb_spec p (10 ^ 6)); [lia|]. cbn [orb].
  change osmomathBigOneDec with (10 ^ 36). destruct (Z.eqb_spec p (10 ^ 36)) as [-> |].
  { exists (-1), (9000000 * P36). split; [lia|]. split; [reflexivity|].
    split; [vm_compute; split; discriminate|]. split; [|vm_compute; split; discriminate].
    split; [vm_compute; discriminate | intros; vm_compute; reflexivity]. }
  change MinSpotPriceBigDec with (10 ^ 24). rewrite Z.geb_leb.
  assert (Ec : (if 10 ^ 24 <=? p then ChopPrecisionMut p DecPrecision else Ok p) = Ok (chopped_price p)).
  { unfold chopped_price. destruct (10 ^ 24 <=? p); [apply ChopPrecisionMut_18; lia | reflexivity]. }
  rewrite Ec. cbn [bind]. set (p' := chopped_price p) in *.
  destruct (Z.gtb_spec p' (10 ^ 36)) as [G | L].
  - destruct (search_up_ok 68 0 p' ltac:(lia) ltac:(cbn; lia) ltac:(lia)) as (k & Hk & -> & Bk).
    { change (pow10 (36 + 0)) with (10 ^ 36). lia. }
    cbn [bind]. destruct (bucket_ticks k p' ltac:(lia) Bk) as (r & -> & Nr & Br).
    exists k, r. split; [lia | auto].
  - destruct (search_down_ok 68 (-1) p' ltac:(lia) ltac:(cbn; lia)) as (k & Hk & -> & Bk).
    { change (pow10 (37 + -1)) with (10 ^ 36). lia. }
    cbn [bind]. destruct (bucket_ticks k p' ltac:(lia) Bk) as (r & -> & Nr & Br).
    exists k, r. split; [lia | auto].
Qed.

(** Lower bound: a price that has reached tick [t] is mapped to [t] or above. *)
Lemma price_to_tick_ge p t r :
  10 ^ 6 <= p <= 10 ^ 74 -> MinInitializedTickV2 <= t -> CalculatePriceToTick p = Ok r ->
  tick_price t <= chopped_price p -> t <= r.
Proof.
  intros Hp Ht Hr L. destruct (CalculatePriceToTick_spec p Hp) as (idx & s & Hi & E & Bi & Ns & Bs).
  rewrite E in Hr. apply Ok_inj in Hr. subst r. unfold MinInitializedTickV2 in Ht.
  destruct (tick_split t) as [Et Bt]. pose proof prec_pos as HP. pose proof (div_spec s P36 HP) as Ds.
  unfold tick_price in L. set (q := t / 9000000) in *. set (n := t mod 9000000) in *.
  assert (Hq : -30 <= q) by lia. pose proof (Z.div_pos s P36 ltac:(lia) HP) as S0.
  destruct (Z_lt_ge_dec q idx); [lia|].
  assert (Lq : pow10 (36 + q) <= chopped_price p).
  { rewrite pow10_36 by lia. pose proof (pow10_pos (30 + q) ltac:(lia)). nia. }
  assert (XY : pow10 (30 + idx) * pow10 (42 - idx) = P36 * P36).
  { rewrite <- pow10_add by lia. now replace (30 + idx + (42 - idx)) with 72 by lia. }
  pose proof (pow10_pos (42 - idx) ltac:(lia)) as HY. pose proof (pow10_pos (30 + idx) ltac:(lia)) as HX.
  enough (t - 9000000 * idx <= s / P36) by lia.
  apply Z.div_le_lower_bound; [lia|].
  apply (nearest_even_le _ _ _ _ HP Ns). rewrite pow10_36 in * by lia.
  rewrite (Z.mul_comm P36), <- Z.mul_assoc, <- XY, Z.mul_assoc.
  apply Z.mul_le_mono_nonneg_r; [lia|].
  destruct (Z.eq_dec q idx) as [<- |]; [nia|].
  assert (pow10 (37 + idx) <= pow10 (36 + q)) by (apply pow10_le; lia).
  rewrite (pow10_37 idx), pow10_36 in * by lia.
  assert (Eq : 10 ^ 6 * pow10 (30 + q) = 10 ^ 7 * pow10 (30 + idx)) by lia.
  assert (n = 0) by nia. assert (q = idx + 1).
  { destruct (Z_lt_ge_dec (idx + 1) q); [|lia].
    pose proof (pow10_lt (30 + idx + 1) (30 + q) ltac:(lia)). rewrite pow10_succ in * by lia. lia. }
  nia.
Qed.

(** Upper bound: below the next tick, by the margin of the decimal rounding,
    a price is mapped to [t] or below. *)
Lemma price_to_tick_le p t r :
  10 ^ 6 <= p <= 10 ^ 74 -> MinInitializedTickV2 <= t -> CalculatePriceToTick p = Ok r ->
  chopped_price p + pow10 (Z.max 0 (t / 9000000 - 6)) <= tick_price (t + 1) -> r <= t.
Proof.
  intros Hp Ht Hr L. destruct (CalculatePriceToTick_spec p Hp) as (idx & s & Hi & E & Bi & Ns & Bs).
  rewrite E in Hr. apply Ok_inj in Hr. subst r. rewrite tick_price_succ in L by assumption.
  unfold MinInitializedTickV2 in Ht.
  destruct (tick_split t) as [Et Bt]. pose proof prec_pos as HP. pose proof (div_spec s P36 HP) as Ds.
  unfold tick_price in L. set (q := t / 9000000) in *. set (n := t mod 9000000) in *.
  assert (Hq : -30 <= q) by lia.
  pose proof (pow10_pos (Z.max 0 (q - 6)) ltac:(lia)) as HS.
  pose proof (pow10_pos (30 + q) ltac:(lia)) as HXq.
  assert (s / P36 <= 9000000) by (apply Z.div_le_upper_bound; lia).
  destruct (Z_lt_ge_dec idx q); [lia|].
  assert (idx = q) as ->.
  { destruct (Z.eq_dec idx q) as [|]; [assumption|]. exfalso.
    assert (pow10 (37 + q) <= pow10 (36 + idx)) by (apply pow10_le; lia).
    rewrite (pow10_37 q) in * by lia. nia. }
  assert (XY : pow10 (30 + q) * pow10 (42 - q) = P36 * P36).
  { rewrite <- pow10_add by lia. now replace (30 + q + (42 - q)) with 72 by lia. }
  assert (SY : P36 <= pow10 (Z.max 0 (q - 6)) * pow10 (42 - q)).
  { rewrite <- pow10_add by lia. change P36 with (pow10 36). apply pow10_le. lia. }
  pose proof (pow10_pos (42 - q) ltac:(lia)) as HY.
  rewrite pow10_36 in * by lia.
  set (X := pow10 (30 + q)) in *. set (Y := pow10 (42 - q)) in *. set (sl := pow10 (Z.max 0 (q - 6))) in *.
  set (a := chopped_price p - 10 ^ 6 * X) in *. assert (Ha : a + sl <= (n + 1) * X) by (subst a; lia).
  assert (a * Y + sl * Y <= (n + 1) * (P36 * P36)) by (rewrite <- XY; nia).
  destruct Ns as [Ns _]. assert (s < (n + 1) * P36) by nia.
  enough (s / P36 < n + 1) by lia. apply Z.div_lt_upper_bound; lia.
Qed.

(** ** Square-root prices of ticks *)

Definition tick_sqrt_price (t : Z) : Z :=
  if MinInitializedTick <=? t then csqrt (tick_price t) * 10 ^ 18
  else csqrt (tick_price t * 10 ^ 36).

Lemma tick_price_multiple t :
  MinInitializedTick <= t <= MaxTick -> exists k, tick_price t = k * 10 ^ 18.
Proof.
  intros H. unfold MinInitializedTick, MaxTick in H. unfold tick_price. destruct (tick_split t).
  exists (pow10 (12 + t / 9000000) * (10 ^ 6 + t mod 9000000)).
  replace (30 + t / 9000000) with (12 + t / 9000000 + 18) by lia.
  rewrite (pow10_add _ 18) by lia. change (pow10 18) with (10 ^ 18). ring.
Qed.

Lemma TickToSqrtPrice_ok t :
  MinInitializedTickV2 <= t <= MaxTick -> TickToSqrtPrice t = Ok (tick_sqrt_price t).
Proof.
  intros H. unfold TickToSqrtPrice, tick_sqrt_price. rewrite TickToPrice_ok by assumption. cbn [bind].
  pose proof (tick_price_bounds t H) as B. rewrite Z.geb_leb.
  destruct (Z.leb_spec MinInitializedTick t).
  - destruct (tick_price_multiple t ltac:(lia)) as [k Ek].
    change MonotonicSqrtMut with MonotonicSqrt. rewrite MonotonicSqrt_eq.
    rewrite Ek. change (10 ^ 18) with precisionReuseSDKDec. rewrite Dec_of_Dec.
    change precisionReuseSDKDec with (10 ^ 18). destruct (Z.ltb_spec k 0); [lia|].
    cbn [bind]. apply BigDecFromDecMut_ok.
  - rewrite MonotonicSqrtBigDec_eq. destruct (Z.ltb_spec (tick_price t) 0); [lia | reflexivity].
Qed.

Lemma tick_sqrt_price_mono t u :
  MinCurrentTick <= t -> t <= u <= MaxTick -> tick_sqrt_price t <= tick_sqrt_price u.
Proof.
  intros Ht Hu. unfold MinCurrentTick in Ht. unfold tick_sqrt_price.
  assert (MinInitializedTickV2 < MinInitializedTick - 1) by reflexivity.
  destruct (Z.leb_spec MinInitializedTick t), (Z.leb_spec MinInitializedTick u); try lia.
  - apply Z.mul_le_mono_nonneg_r; [lia|]. apply csqrt_mono.
    + pose proof (tick_price_bounds t). lia.
    + apply tick_price_le; lia.
  - pose proof (tick_price_le MinInitializedTick u ltac:(lia) ltac:(lia)) as L.
    change (tick_price MinInitializedTick) with (10 ^ 24) in L.
    pose proof (csqrt_mono (10 ^ 24) _ ltac:(lia) L) as M. change (csqrt (10 ^ 24)) with (10 ^ 12) in M.
    replace t with (MinInitializedTick - 1) by lia.
    assert (csqrt (tick_price (MinInitializedTick - 1) * 10 ^ 36) <= 10 ^ 30) by (vm_compute; discriminate).
    lia.
  - replace u with t by lia. lia.
Qed.

(** The increment of a bucket dwarfs the error of an 18-decimal square root
    (and the margin of the decimal division). *)
Lemma sqrt_margin t :
  MinInitializedTick <= t <= MaxTick ->
  let c := csqrt (tick_price t) in
  c * c + pow10 (Z.max 0 (t / 9000000 - 6)) <= tick_price (t + 1).
Proof.
  intros H c. unfold MinInitializedTick, MaxTick in H.
  rewrite tick_price_succ by (unfold MinInitializedTickV2; lia). destruct (tick_split t) as [Et Bt].
  set (q := t / 9000000) in *. assert (Hq : -12 <= q <= 38) by lia.
  set (X := pow10 (30 + q)). assert (HX : 10 ^ 18 <= X) by (apply (pow10_le 18); lia).
  assert (Hs : 2 * pow10 (Z.max 0 (q - 6)) <= X).
  { apply Z.le_trans with (10 * pow10 (Z.max 0 (q - 6))).
    - pose proof (pow10_pos (Z.max 0 (q - 6)) ltac:(lia)). lia.
    - rewrite <- pow10_succ by lia. apply pow10_le. lia. }
  assert (Hp : 10 ^ 6 * X <= tick_price t < 10 ^ 7 * X).
  { unfold tick_price. fold q X. nia. }
  pose proof (csqrt_spec (tick_price t) ltac:(lia)) as (C0 & C1 & C2). fold c in C0, C1, C2.
  destruct C2 as [-> | C2]; [lia|].
  assert (4 * c <= X) by nia. lia.
Qed.

Lemma tick_sqrt_price_lt t :
  MinCurrentTick <= t < MaxTick -> tick_sqrt_price t < tick_sqrt_price (t + 1).
Proof.
  intros H. unfold tick_sqrt_price, MinCurrentTick in *.
  destruct (Z.leb_spec MinInitializedTick t), (Z.leb_spec MinInitializedTick (t + 1)); try lia.
  - pose proof (sqrt_margin t ltac:(lia)) as M. cbv zeta in M.
    assert (0 < pow10 (Z.max 0 (t / 9000000 - 6))) by (apply pow10_pos; lia).
    assert (MinInitializedTickV2 < MinInitializedTick) by reflexivity.
    pose proof (tick_price_bounds t ltac:(lia)). pose proof (tick_price_bounds (t + 1) ltac:(lia)).
    pose proof (csqrt_spec (tick_price t) ltac:(lia)) as (C0 & _).
    pose proof (csqrt_spec (tick_price (t + 1)) ltac:(lia)) as (D0 & D1 & _).
    enough (csqrt (tick_price t) < csqrt (tick_price (t + 1))) by lia. nia.
  - replace t with (MinInitializedTick - 1) by lia. vm_compute. reflexivity.
Qed.

(** ** Square-root price to tick *)

Definition sqrt_domain (sp : Z) : Prop :=
  tick_sqrt_price MinCurrentTick <= sp <= tick_sqrt_price MaxTick.

Lemma sqrt_domain_price sp :
  sqrt_domain sp ->
  exists p, BigDec.Mul sp sp = Ok p /\ nearest_even P36 (sp * sp) p /\ 10 ^ 6 <= p <= 10 ^ 74.
Proof.
  intros [L U]. assert (L0 : 10 ^ 29 <= tick_sqrt_price MinCurrentTick) by (vm_compute; discriminate).
  change (tick_sqrt_price MaxTick) with (10 ^ 55) in U.
  pose proof (chopPrecisionAndRound_spec (sp * sp)) as Nr. pose proof prec_pos as HP.
  set (p := chopPrecisionAndRound (sp * sp)) in *.
  assert (10 ^ 6 <= p) by (apply (nearest_even_le _ _ _ _ HP Nr); change P36 with (10 ^ 36); nia).
  assert (p <= 10 ^ 74) by (apply (nearest_even_ge _ _ _ _ HP Nr); change P36 with (10 ^ 36); nia).
  exists p. split; [|split; [assumption | lia]]. unfold BigDec.Mul, BigDec.MulMut. fold p.
  apply checked_ok, in_range_pow10. assert (10 ^ 74 < 10 ^ 344) by reflexivity. lia.
Qed.

(** At or above the square-root price of [t], the squared price reaches [t]. *)
Lemma square_reaches t sp p :
  MinCurrentTick <= t <= MaxTick -> tick_sqrt_price t <= sp -> nearest_even P36 (sp * sp) p ->
  tick_price t <= chopped_price p.
Proof.
  intros Ht L Np. pose proof prec_pos as HP. unfold MinCurrentTick in Ht. unfold tick_sqrt_price in L.
  assert (MinInitializedTickV2 < MinInitializedTick - 1) by reflexivity.
  pose proof (tick_price_bounds t ltac:(lia)) as B.
  destruct (Z.leb_spec MinInitializedTick t).
  - pose proof (csqrt_spec (tick_price t) ltac:(lia)) as (C0 & C1 & _).
    assert (tick_price t <= p).
    { apply (nearest_even_le _ _ _ _ HP Np). change P36 with (10 ^ 18 * 10 ^ 18). nia. }
    pose proof (tick_price_le MinInitializedTick t ltac:(lia) ltac:(lia)) as T24.
    change (tick_price MinInitializedTick) with (10 ^ 24) in T24.
    destruct (tick_price_multiple t ltac:(lia)) as [k Ek]. rewrite Ek in *. apply chop_mul; lia.
  - pose proof (csqrt_spec (tick_price t * 10 ^ 36) ltac:(lia)) as (C0 & C1 & _).
    assert (tick_price t <= p) by (apply (nearest_even_le _ _ _ _ HP Np); change P36 with (10 ^ 36); nia).
    unfold chopped_price. destruct (Z.leb_spec (10 ^ 24) p); [|assumption].
    replace t with (MinInitializedTick - 1) by lia.
    apply Z.le_trans with (10 ^ 6 * 10 ^ 18); [vm_compute; discriminate|].
    apply Z.mul_le_mono_nonneg_r; [lia|]. apply Z.div_le_lower_bound; lia.
Qed.

(** Below the square-root price of [t], the squared price stays below [t + 1]
    by the rounding margin. *)
Lemma square_stays_below t sp p :
  MinInitializedTick <= t <= MaxTick -> 0 <= sp < tick_sqrt_price t -> nearest_even P36 (sp * sp) p ->
  10 ^ 6 <= p <= 10 ^ 74 ->
  chopped_price p + pow10 (Z.max 0 (t / 9000000 - 6)) <= tick_price (t + 1).
Proof.
  intros Ht L Np Hp. pose proof prec_pos as HP. unfold tick_sqrt_price in L.
  destruct (Z.leb_spec MinInitializedTick t); [|lia].
  pose proof (sqrt_margin t Ht) as M. cbv zeta in M. pose proof (chopped_price_bounds p Hp).
  assert (p <= csqrt (tick_price t) * csqrt (tick_price t)); [|lia].
  apply (nearest_even_ge _ _ _ _ HP Np). change P36 with (10 ^ 18 * 10 ^ 18). nia.
Qed.

Lemma price_tick_max p r : 10 ^ 6 <= p <= 10 ^ 74 -> CalculatePriceToTick p = Ok r -> r <= MaxTick.
Proof.
  intros Hp Hr. destruct (CalculatePriceToTick_spec p Hp) as (idx & s & Hi & E & _ & _ & Bs).
  rewrite E in Hr. apply Ok_inj in Hr. subst r. pose proof prec_pos as HP.
  assert (s / P36 <= 9000000) by (apply Z.div_le_upper_bound; lia). unfold MaxTick. lia.
Qed.

(** The candidate taken from the squared price is off by at most one. *)
Lemma candidate_tick sp :
  sqrt_domain sp ->
  exists p t, BigDec.Mul sp sp = Ok p /\ CalculatePriceToTick p = Ok t /\ MinCurrentTick <= t <= MaxTick /\
    (MinCurrentTick <= t - 1 -> tick_sqrt_price (t - 1) <= sp) /\
    (t + 1 <= MaxTick -> sp < tick_sqrt_price (t + 1)).
Proof.
  intros H. pose proof H as [L U]. destruct (sqrt_domain_price sp H) as (p & Ep & Np & Hp).
  destruct (CalculatePriceToTick_spec p Hp) as (idx & s & _ & Et & _).
  set (t := s / P36 + 9000000 * idx) in *. exists p, t.
  split; [assumption | split; [assumption|]].
  assert (V2 : MinInitializedTickV2 <= MinCurrentTick) by discriminate.
  assert (Lo : MinCurrentTick <= t).
  { apply (price_to_tick_ge p); auto. apply (square_reaches _ sp); auto; unfold MinCurrentTick, MinInitializedTick, MaxTick; lia. }
  pose proof (price_tick_max p t Hp Et) as Hi.
  split; [lia|]. assert (0 <= sp) by (assert (0 <= tick_sqrt_price MinCurrentTick) by (vm_compute; discriminate); lia).
  split; intros Hb.
  - destruct (Z_le_gt_dec (tick_sqrt_price (t - 1)) sp) as [|G]; [assumption | exfalso].
    destruct (Z.eq_dec (t - 1) MinCurrentTick) as [E1 | N1]; [rewrite E1 in G; lia|].
    assert (MinInitializedTick <= t - 1) by (unfold MinCurrentTick in *; lia).
    pose proof (square_stays_below (t - 1) sp p ltac:(lia) ltac:(lia) Np Hp) as B.
    pose proof (price_to_tick_le p (t - 1) t Hp ltac:(lia) Et B). lia.
  - destruct (Z_lt_ge_dec sp (tick_sqrt_price (t + 1))) as [|G]; [assumption | exfalso].
    pose proof (square_reaches (t + 1) sp p ltac:(lia) ltac:(lia) Np) as B.
    pose proof (price_to_tick_ge p (t + 1) t Hp ltac:(lia) Et B). lia.
Qed.

(** The final selection among the neighbours of the candidate. *)
Lemma CalculateSqrtPriceToTick_total sp :
  sqrt_domain sp ->
  exists t, CalculateSqrtPriceToTick sp = Ok t /\ MinCurrentTick <= t <= MaxTick /\
    tick_sqrt_price t <= sp /\ (t < MaxTick -> sp < tick_sqrt_price (t + 1)).
Proof.
  intros H. pose proof H as [L U].
  destruct (candidate_tick sp H) as (p & t & Ep & Et & Ht & Hlo & Hhi).
  unfold CalculateSqrtPriceToTick. rewrite Ep. cbn [bind]. rewrite Et. cbn [bind].
  assert (V2 : MinInitializedTickV2 < MinCurrentTick) by reflexivity.
  assert (Hmm : MinCurrentTick < MaxTick - 2) by reflexivity.
  assert (S : forall u, MinCurrentTick <= u <= MaxTick -> or_calc_err (TickToSqrtPrice u) = Ok (tick_sqrt_price u)).
  { intros u Hu. rewrite TickToSqrtPrice_ok by lia. reflexivity. }
  destruct (Z.ltb_spec t MinCurrentTick); [lia|].
  destruct (Z.leb_spec t MinInitializedTickV2); [lia|]. rewrite Z.geb_leb.
  unfold GTE, GT, LT, Equal. rewrite ?Z.geb_leb.
  destruct (Z.leb_spec (MaxTick - 1) t) as [Clamp | In].
  - replace (MaxTick - 2 + 1) with (MaxTick - 1) by lia.
    replace (MaxTick - 2 + 2) with MaxTick by lia.
    rewrite (S (MaxTick - 1)) by lia. cbn [bind]. rewrite ?Z.geb_leb.
    destruct (Z.leb_spec (tick_sqrt_price (MaxTick - 1)) sp) as [Ge | Lt].
    + rewrite (S MaxTick) by lia. cbn [bind negb andb orb].
      destruct (Z.gtb_spec sp (tick_sqrt_price MaxTick)); [lia|].
      destruct (Z.eqb_spec sp (tick_sqrt_price MaxTick)) as [Eq | Ne].
      * exists MaxTick. repeat split; lia.
      * exists (MaxTick - 1). replace (MaxTick - 1 + 1) with MaxTick by lia. repeat split; lia.
    + assert (t = MaxTick - 1) as ->.
      { destruct (Z.eq_dec t MaxTick) as [-> |]; [specialize (Hlo ltac:(lia)); lia | lia]. }
      specialize (Hlo ltac:(lia)). replace (MaxTick - 1 - 1) with (MaxTick - 2) in Hlo by lia.
      rewrite (S (MaxTick - 2)) by lia. cbn [bind]. rewrite ?Z.geb_leb.
      destruct (Z.leb_spec (tick_sqrt_price (MaxTick - 2)) sp); [|lia].
      exists (MaxTick - 2). replace (MaxTick - 2 + 1) with (MaxTick - 1) by lia. repeat split; lia.
  - specialize (Hhi ltac:(lia)). rewrite (S (t + 1)) by lia. cbn [bind]. rewrite ?Z.geb_leb.
    destruct (Z.leb_spec (tick_sqrt_price (t + 1)) sp); [lia|].
    rewrite (S t) by lia. cbn [bind]. rewrite ?Z.geb_leb.
    destruct (Z.leb_spec (tick_sqrt_price t) sp); [exists t; repeat split; lia|].
    destruct (Z.eq_dec t MinCurrentTick) as [-> |]; [lia|]. specialize (Hlo ltac:(lia)).
    rewrite (S (t - 1)) by lia. cbn [bind].
    destruct (Z.ltb_spec sp (tick_sqrt_price (t - 1))); [lia|].
    exists (t - 1). replace (t - 1 + 1) with t by lia. repeat split; lia.
Qed.

Lemma sqrt_price_tick_inverse t :
  MinCurrentTick <= t <= MaxTick -> CalculateSqrtPriceToTick (tick_sqrt_price t) = Ok t.
Proof.
  intros H. destruct (CalculateSqrtPriceToTick_total (tick_sqrt_price t)) as (u & E & Hu & B & B').
  { split; apply tick_sqrt_price_mono; lia. }
  rewrite E. f_equal. destruct (Z_lt_ge_dec u t) as [L | G].
  - specialize (B' ltac:(lia)). pose proof (tick_sqrt_price_mono (u + 1) t ltac:(lia) ltac:(lia)). lia.
  - destruct (Z.eq_dec u t) as [|]; [assumption|].
    pose proof (tick_sqrt_price_lt t ltac:(lia)).
    pose proof (tick_sqrt_price_mono (t + 1) u ltac:(lia) ltac:(lia)). lia.
Qed.

(** [RoundDownTickToSpacing] returns the largest multiple of the spacing
    not above the tick (Euclidean remainder, also for negative ticks), and an
    error exactly when that multiple leaves the tick range. *)
Lemma RoundDownTickToSpacing_floor (t spacing : Z) :
  MinInitializedTickV2 <= t <= MaxTick -> 0 < spacing < 2 ^ 62 ->
  (MinInitializedTickV2 <= t / spacing * spacing ->
     RoundDownTickToSpacing t spacing = Ok (t / spacing * spacing)) /\
  (t / spacing * spacing < MinInitializedTickV2 ->
     RoundDownTickToSpacing t spacing = Err "TickIndexNotWithinBoundariesError").
Proof.
  intros Ht Hs. unfold RoundDownTickToSpacing. unfold MinInitializedTickV2, MaxTick in Ht.
  destruct (Z.eqb_spec spacing 0); [lia|].
  assert (Hm : (if Z.rem t spacing <? 0 then int64 (Z.rem t spacing + spacing) else Z.rem t spacing) = t mod spacing).
  { destruct (Z_le_gt_dec 0 t).
    - rewrite rem_nonneg by lia. pose proof (Z.mod_pos_bound t spacing ltac:(lia)).
      destruct (Z.ltb_spec (t mod spacing) 0); lia.
    - pose proof (quot_rem_neg t spacing ltac:(lia) ltac:(lia)) as (Eq & Br & _).
      destruct (Z.ltb_spec (Z.rem t spacing) 0).
      + rewrite int64_id by lia.
        apply Z.mod_unique with (q := Z.quot t spacing - 1); lia.
      + apply Z.mod_unique with (q := Z.quot t spacing); lia. }
  rewrite Hm. pose proof (Z.div_mod t spacing ltac:(lia)) as Ed.
  pose proof (Z.mod_pos_bound t spacing ltac:(lia)) as Bd.
  assert (Hr : (if negb (t mod spacing =? 0) then int64 (t - t mod spacing) else t) = t / spacing * spacing).
  { destruct (Z.eqb_spec (t mod spacing) 0); cbn [negb]; [lia|]. rewrite int64_id; lia. }
  cbv zeta. rewrite Hr. unfold MaxTick, MinInitializedTickV2.
  destruct (Z.gtb_spec (t / spacing * spacing) 342000000); [lia|].
  destruct (Z.ltb_spec (t / spacing * spacing) (-270000000)); cbn [orb]; split; intros; try lia; reflexivity.
Qed.

(** ** Properties *)

(** the price of a tick. On the initialisable range, [TickToPrice]
    returns the documented piecewise-linear price, 10^q plus n steps of
    10^(q-6) with [t = 9000000 q + n]; prices stay within
    [MinSpotPriceV2, MaxSpotPrice] and strictly increase with the tick;
    ticks outside [MinCurrentTickV2, MaxTick] are errors. *)
Theorem TickToPrice_correct (t : Z) :
  (MinInitializedTickV2 <= t <= MaxTick ->
    TickToPrice t = Ok (10 ^ (30 + t / 9000000) * (10 ^ 6 + t mod 9000000)) /\
    exists p, TickToPrice t = Ok p /\ MinSpotPriceV2 <= p <= MaxSpotPriceBigDec) /\
  (MinInitializedTickV2 <= t < MaxTick ->
    exists p p', TickToPrice t = Ok p /\ TickToPrice (t + 1) = Ok p' /\ p < p') /\
  (t < MinCurrentTickV2 \/ MaxTick < t -> exists e, TickToPrice t = Err e).
Proof.
  split; [|split].
  - intros H. rewrite TickToPrice_ok by assumption. split; [reflexivity|].
    exists (tick_price t). split; [reflexivity | exact (tick_price_bounds t H)].
  - intros H. rewrite !TickToPrice_ok by lia. do 2 eexists. repeat split.
    apply tick_price_lt; lia.
  - intros H. unfold TickToPrice, TickToAdditiveGeometricIndices.
    unfold MinCurrentTickV2, MinInitializedTickV2, MaxTick in *.
    destruct (Z.eqb_spec t 0); [lia|].
    destruct (Z.eqb_spec t (-270000000)); [lia|]. destruct (Z.eqb_spec t (-270000000 - 1)); [lia|].
    cbn [orb]. destruct (Z.ltb_spec t (-270000000 - 1)); [eexists; reflexivity|].
    destruct (Z.gtb_spec t 342000000); [eexists; reflexivity | lia].
Qed.

Lemma TickToPrice_correct_witness :
  TickToPrice (-1) = Ok (9999999 * 10 ^ 29) /\ (exists e, TickToPrice 342000001 = Err e).
Proof.
  split.
  - exact (proj1 (proj1 (TickToPrice_correct (-1)) ltac:(split; discriminate))).
  - apply (proj2 (proj2 (TickToPrice_correct 342000001))). right. reflexivity.
Defined.

(** [CalculatePriceToTick] inverts [TickToPrice] on every initialisable
    tick, across all 68 powers of ten and both sides of price one. *)
Theorem price_tick_roundtrip (t : Z) :
  MinInitializedTickV2 <= t <= MaxTick ->
  (p <- TickToPrice t ;; CalculatePriceToTick p) = Ok t.
Proof.
  intros H. rewrite TickToPrice_ok by assumption. cbn [bind].
  pose proof (tick_price_bounds t H) as Hp.
  destruct (CalculatePriceToTick_spec _ Hp) as (idx & s & _ & E & _). rewrite E. f_equal.
  set (r := s / P36 + 9000000 * idx) in *.
  assert (Hch : chopped_price (tick_price t) = tick_price t).
  { unfold chopped_price. destruct (Z.leb_spec (10 ^ 24) (tick_price t)); [|reflexivity].
    destruct (Z_lt_ge_dec t MinInitializedTick) as [L | G].
    - pose proof (tick_price_lt t MinInitializedTick ltac:(lia) L) as T.
      change (tick_price MinInitializedTick) with (10 ^ 24) in T. lia.
    - destruct (tick_price_multiple t ltac:(lia)) as [k ->]. now rewrite Z.div_mul by lia. }
  assert (t <= r) by (apply (price_to_tick_ge (tick_price t)); try rewrite Hch; auto; lia).
  assert (r <= t); [|lia].
  apply (price_to_tick_le (tick_price t)); auto; try lia. rewrite Hch, tick_price_succ by lia.
  destruct (tick_split t). unfold MinInitializedTickV2, MaxTick in H.
  enough (pow10 (Z.max 0 (t / 9000000 - 6)) <= pow10 (30 + t / 9000000)) by lia. apply pow10_le. lia.
Qed.

Lemma price_tick_roundtrip_witness :
  (p <- TickToPrice (-107999999) ;; CalculatePriceToTick p) = Ok (-107999999).
Proof. apply (price_tick_roundtrip (-107999999)). split; discriminate. Defined.

(** C29: [CalculateSqrtPriceToTick] is total and correct on the whole range of
    reachable square-root prices: it returns the unique tick whose bucket
    [sqrt(t), sqrt(t+1)) contains the argument ([MaxTick] at the upper end);
    in particular its out-of-bounds errors are unreachable there. *)
Theorem CalculateSqrtPriceToTick_bucket (sp lo hi : Z) :
  TickToSqrtPrice MinCurrentTick = Ok lo -> TickToSqrtPrice MaxTick = Ok hi -> lo <= sp <= hi ->
  exists t s, CalculateSqrtPriceToTick sp = Ok t /\ MinCurrentTick <= t <= MaxTick /\
    TickToSqrtPrice t = Ok s /\ s <= sp /\
    (t < MaxTick -> exists s', TickToSqrtPrice (t + 1) = Ok s' /\ sp < s').
Proof.
  assert (V : MinInitializedTickV2 <= MinCurrentTick <= MaxTick) by (split; discriminate).
  rewrite !TickToSqrtPrice_ok by lia. intros Hlo Hhi Hsp.
  apply Ok_inj in Hlo, Hhi. subst lo hi.
  destruct (CalculateSqrtPriceToTick_total sp Hsp) as (t & E & Ht & B & B').
  exists t, (tick_sqrt_price t). rewrite E. repeat split; try lia.
  - apply TickToSqrtPrice_ok. lia.
  - intros Hm. exists (tick_sqrt_price (t + 1)). split; [apply TickToSqrtPrice_ok; lia | auto].
Qed.

Lemma CalculateSqrtPriceToTick_bucket_witness :
  exists t s, CalculateSqrtPriceToTick (123456789 * 10 ^ 28) = Ok t /\ MinCurrentTick <= t <= MaxTick /\
    TickToSqrtPrice t = Ok s /\ s <= 123456789 * 10 ^ 28.
Proof.
  assert (Hlo : TickToSqrtPrice MinCurrentTick = Ok 999999949999998749999937499997) by (vm_compute; reflexivity).
  assert (Hhi : TickToSqrtPrice MaxTick = Ok (10 ^ 55)) by (vm_compute; reflexivity).
  assert (Hsp : 999999949999998749999937499997 <= 123456789 * 10 ^ 28 <= 10 ^ 55) by (split; vm_compute; discriminate).
  destruct (CalculateSqrtPriceToTick_bucket _ _ _ Hlo Hhi Hsp) as (t & s & E & B & Es & L & _).
  exists t, s. exact (conj E (conj B (conj Es L))).
Defined.

(** C30: the square-root price of every tick from [MinCurrentTick] to [MaxTick]
    maps back to that tick, and square-root prices strictly increase with the
    tick. *)
Theorem sqrt_price_tick_roundtrip (t : Z) :
  MinCurrentTick <= t <= MaxTick ->
  (s <- TickToSqrtPrice t ;; CalculateSqrtPriceToTick s) = Ok t /\
  (t < MaxTick -> exists s s', TickToSqrtPrice t = Ok s /\ TickToSqrtPrice (t + 1) = Ok s' /\ s < s').
Proof.
  intros H. assert (V : MinInitializedTickV2 < MinCurrentTick) by reflexivity.
  rewrite TickToSqrtPrice_ok by lia. cbn [bind]. split.
  - now apply sqrt_price_tick_inverse.
  - intros Hm. exists (tick_sqrt_price t), (tick_sqrt_price (t + 1)).
    rewrite TickToSqrtPrice_ok by lia. repeat split. apply tick_sqrt_price_lt. lia.
Qed.

Lemma sqrt_price_tick_roundtrip_witness :
  (s <- TickToSqrtPrice 341999999 ;; CalculateSqrtPriceToTick s) = Ok 341999999.
Proof. apply (sqrt_price_tick_roundtrip 341999999). split; vm_compute; discriminate. Defined.
