(* ===== verification/SdkMath.v ===== *)
(** * The interface of [cosmossdk.io/math]

    [osmomath.Dec] and [osmomath.Int] are aliases ([osmomath/sdk_math_alias.go])
    of [LegacyDec] and [Int] of the Cosmos SDK, which is not part of the
    repository.  The components that call it are written against the operations
    of the class [SdkMath]; a [LegacyDec] is the integer behind [BigIntMut()]
    (18 decimals) and an [Int] is the integer itself, so comparisons, [IsZero],
    [IsNegative] and [Neg] are those of [Z].  [SdkMathSpec] states the
    documented behaviour that the theorems rely on: sums are exact, the
    directed products and quotients err in the stated direction by less than
    one unit, and an operation panics rather than wrap when its result needs
    more than 315 bits.  [sdk_ref] is an implementation of the interface, which
    shows that the laws can hold and which the concrete examples run. *)

From Stdlib Require Import ZArith Lia List Bool String.
From S2P Require Import Prelude GoBig BigInt BigDec.

Class SdkMath : Type := {
  dec_Add : Z -> Z -> Res Z;
  dec_Sub : Z -> Z -> Res Z;
  dec_MulTruncate : Z -> Z -> Res Z;
  dec_MulRoundUp : Z -> Z -> Res Z;
  dec_QuoTruncate : Z -> Z -> Res Z;
  dec_QuoRoundUp : Z -> Z -> Res Z;
  dec_Quo : Z -> Z -> Res Z;
  dec_Min : Z -> Z -> Z;
  dec_Ceil : Z -> Res Z;
  dec_TruncateInt : Z -> Res Z;
  int_ToLegacyDec : Z -> Res Z;
  int_QuoRaw : Z -> Z -> Res Z;
  int_Add : Z -> Z -> Res Z;
  int_Sub : Z -> Z -> Res Z
}.

(** One whole token, [osmomath.OneDec()], and [osmomath.SmallestDec()]. *)
Definition OneDec : Z := 10 ^ 18.
Definition SmallestDec : Z := 1.

Definition sdk_fits (x : Z) : Prop := Z.abs x < 2 ^ 315.

Class SdkMathSpec (S : SdkMath) : Prop := {
  dec_Add_exact a b r : dec_Add a b = Ok r -> r = a + b;
  dec_Add_total a b : sdk_fits (a + b) -> dec_Add a b = Ok (a + b);
  (** These methods have no error result. *)
  dec_Add_noerr a b e : dec_Add a b <> Err e;
  dec_Sub_noerr a b e : dec_Sub a b <> Err e;
  dec_Sub_exact a b r : dec_Sub a b = Ok r -> r = a - b;
  dec_Sub_total a b : sdk_fits (a - b) -> dec_Sub a b = Ok (a - b);
  dec_MulTruncate_bound a b r :
    0 <= a -> 0 <= b -> dec_MulTruncate a b = Ok r ->
    r * OneDec <= a * b < (r + 1) * OneDec;
  dec_MulRoundUp_bound a b r :
    0 <= a -> 0 <= b -> dec_MulRoundUp a b = Ok r ->
    a * b <= r * OneDec < a * b + OneDec;
  dec_MulRoundUp_total a b :
    0 <= a -> 0 <= b -> sdk_fits (cdiv (a * b) OneDec) -> is_ok (dec_MulRoundUp a b) = true;
  dec_QuoTruncate_bound a b r :
    0 <= a -> 0 < b -> dec_QuoTruncate a b = Ok r ->
    r * b <= a * OneDec < (r + 1) * b;
  (** [QuoRoundUp] goes through an intermediate quotient of 36 decimals, which
      is truncated before the result is rounded up. *)
  dec_QuoRoundUp_bound a b r :
    0 <= a -> 0 < b -> dec_QuoRoundUp a b = Ok r ->
    a * 10 ^ 36 < (r * OneDec + 1) * b /\ (r - 1) * b < a * OneDec;
  dec_QuoRoundUp_total a b :
    0 <= a -> 0 < b -> sdk_fits (a * 10 ^ 36) -> is_ok (dec_QuoRoundUp a b) = true;
  (** [Quo] rounds to nearest. *)
  dec_Quo_bound a b r :
    0 <= a -> 0 < b -> dec_Quo a b = Ok r -> Z.abs (r * b - a * OneDec) <= b;
  dec_Min_exact a b : dec_Min a b = Z.min a b;
  dec_Ceil_exact a r : dec_Ceil a = Ok r -> r = cdiv a OneDec * OneDec;
  dec_TruncateInt_exact a r : dec_TruncateInt a = Ok r -> r = Z.quot a OneDec;
  int_ToLegacyDec_exact a r : int_ToLegacyDec a = Ok r -> r = a * OneDec;
  int_QuoRaw_exact a b r : int_QuoRaw a b = Ok r -> b <> 0 /\ r = Z.quot a b;
  int_QuoRaw_total a b : b <> 0 -> Z.abs a < 2 ^ 255 -> int_QuoRaw a b = Ok (Z.quot a b);
  int_ToLegacyDec_total a : Z.abs a < 2 ^ 255 -> int_ToLegacyDec a = Ok (a * OneDec);
  int_Add_exact a b r : int_Add a b = Ok r -> r = a + b;
  int_Add_total a b : Z.abs (a + b) < 2 ^ 255 -> int_Add a b = Ok (a + b);
  int_Sub_total a b : Z.abs (a - b) < 2 ^ 255 -> int_Sub a b = Ok (a - b);
  int_Sub_exact a b r : int_Sub a b = Ok r -> r = a - b
}.

(** Replace the results of exact operations by their values. *)
Ltac dec_exact :=
  repeat match goal with
  | H : dec_Add _ _ = Ok _ |- _ => apply dec_Add_exact in H; subst
  | H : dec_Sub _ _ = Ok _ |- _ => apply dec_Sub_exact in H; subst
  | H : dec_Ceil _ = Ok _ |- _ => apply dec_Ceil_exact in H; subst
  | H : dec_TruncateInt _ = Ok _ |- _ => apply dec_TruncateInt_exact in H; subst
  | H : int_Add _ _ = Ok _ |- _ => apply int_Add_exact in H; subst
  | H : int_Sub _ _ = Ok _ |- _ => apply int_Sub_exact in H; subst
  | H : int_ToLegacyDec _ = Ok _ |- _ => apply int_ToLegacyDec_exact in H; subst
  end.

(** ** A reference implementation *)

Definition sdk_check (x : Z) : Res Z :=
  if BitLen x >? 315 then Panic "Int overflow" else Ok x.

Lemma sdk_check_ok x r : sdk_check x = Ok r -> r = x.
Proof. unfold sdk_check. case_if; congruence. Qed.

Lemma sdk_check_noerr x e : sdk_check x <> Err e.
Proof. unfold sdk_check. case_if; discriminate. Qed.

Lemma sdk_check_total x : sdk_fits x -> sdk_check x = Ok x.
Proof.
  unfold sdk_fits, sdk_check. intros H.
  destruct (Z.gtb_spec (BitLen x) 315) as [G|]; [|reflexivity].
  apply BitLen_le in H; lia.
Qed.

(** [Int] is limited to 256 bits. *)
Definition int_check (x : Z) : Res Z :=
  if BitLen x >? 256 then Panic "Int overflow" else Ok x.

Lemma int_check_ok x r : int_check x = Ok r -> r = x.
Proof. unfold int_check. case_if; congruence. Qed.

Lemma int_check_total x : Z.abs x < 2 ^ 255 -> int_check x = Ok x.
Proof.
  unfold int_check. intros H. destruct (Z.gtb_spec (BitLen x) 256) as [G|]; [|reflexivity].
  apply BitLen_le in H; lia.
Qed.

#[export] Instance sdk_ref : SdkMath := {|
  dec_Add a b := sdk_check (a + b);
  dec_Sub a b := sdk_check (a - b);
  dec_MulTruncate a b := sdk_check (Z.quot (a * b) OneDec);
  dec_MulRoundUp a b := sdk_check (cdiv (a * b) OneDec);
  dec_QuoTruncate a b := q <- bigQuo (a * OneDec) b ;; sdk_check q;
  dec_QuoRoundUp a b :=
    if b <=? 0 then Panic "division by zero" else sdk_check (cdiv (a * OneDec) b);
  dec_Quo a b :=
    if b =? 0 then Panic "division by zero"
    else q <- bigQuo (2 * a * OneDec + b) (2 * b) ;; sdk_check q;
  dec_Min a b := Z.min a b;
  dec_Ceil a := Ok (cdiv a OneDec * OneDec);
  dec_TruncateInt a := Ok (Z.quot a OneDec);
  int_ToLegacyDec a := sdk_check (a * OneDec);
  int_QuoRaw a b := bigQuo a b;
  int_Add a b := int_check (a + b);
  int_Sub a b := int_check (a - b)
|}.

Lemma OneDec_pos : 0 < OneDec.
Proof. reflexivity. Qed.

Lemma sdk_fits_le x y : Z.abs x <= Z.abs y -> sdk_fits y -> sdk_fits x.
Proof. unfold sdk_fits. lia. Qed.

Lemma cdiv_abs_le a b : 0 <= a -> 0 < b -> Z.abs (cdiv a b) <= Z.abs a.
Proof.
  intros Ha Hb. pose proof (cdiv_spec a b Hb). pose proof (cdiv_nonneg a b Hb Ha). nia.
Qed.

Lemma sdk_check_is_ok x : sdk_fits x -> is_ok (sdk_check x) = true.
Proof. intros H. now rewrite sdk_check_total. Qed.

#[export] Instance sdk_ref_spec : SdkMathSpec sdk_ref.
Proof.
  pose proof OneDec_pos as P. split; cbn [dec_Add dec_Sub dec_MulTruncate dec_MulRoundUp
    dec_QuoTruncate dec_QuoRoundUp dec_Quo dec_Min dec_Ceil dec_TruncateInt int_ToLegacyDec int_QuoRaw int_Add int_Sub sdk_ref].
  - intros a b r. apply sdk_check_ok.
  - intros a b. apply sdk_check_total.
  - intros a b e. apply sdk_check_noerr.
  - intros a b e. apply sdk_check_noerr.
  - intros a b r. apply sdk_check_ok.
  - intros a b. apply sdk_check_total.
  - intros a b r Ha Hb H. apply sdk_check_ok in H as ->.
    rewrite quot_nonneg by nia. pose proof (div_spec (a * b) OneDec P). lia.
  - intros a b r Ha Hb H. apply sdk_check_ok in H as ->.
    pose proof (cdiv_spec (a * b) OneDec P). lia.
  - intros a b Ha Hb H. now apply sdk_check_is_ok.
  - intros a b r Ha Hb H. rewrite bigQuo_ok in H by lia. cbn [bind] in H.
    apply sdk_check_ok in H as ->. rewrite quot_nonneg by nia.
    pose proof (div_spec (a * OneDec) b Hb). lia.
  - intros a b r Ha Hb H. destruct (Z.leb_spec b 0); [lia|]. apply sdk_check_ok in H as ->.
    pose proof (cdiv_spec (a * OneDec) b Hb). change (10 ^ 36) with (OneDec * OneDec). nia.
  - intros a b Ha Hb H. destruct (Z.leb_spec b 0); [lia|]. apply sdk_check_is_ok. revert H.
    apply sdk_fits_le. change (10 ^ 36) with (OneDec * OneDec).
    pose proof (cdiv_abs_le (a * OneDec) b ltac:(nia) Hb). nia.
  - intros a b r Ha Hb H. destruct (Z.eqb_spec b 0); [lia|]. rewrite bigQuo_ok in H by lia.
    cbn [bind] in H. apply sdk_check_ok in H as ->. rewrite quot_nonneg by nia.
    pose proof (div_spec (2 * a * OneDec + b) (2 * b) ltac:(lia)). nia.
  - reflexivity.
  - intros a r. congruence.
  - intros a r. congruence.
  - intros a r. apply sdk_check_ok.
  - intros a b r. apply bigQuo_inv.
  - intros a b Hb _. now apply bigQuo_ok.
  - intros a H. apply sdk_check_total. unfold sdk_fits. change (2 ^ 315) with (2 ^ 255 * 2 ^ 60).
    assert (OneDec < 2 ^ 60) by reflexivity. nia.
  - intros a b r. apply int_check_ok.
  - intros a b. apply int_check_total.
  - intros a b. apply int_check_total.
  - intros a b r. apply int_check_ok.
Qed.
