(* ===== verification/CLMath.v ===== *)
(** * Concentrated liquidity: amounts, prices and liquidity
    ([x/concentrated-liquidity/math/math.go])

    Square-root prices are [BigDec] (36 decimals), liquidity and amounts are
    [Dec] (18 decimals) or [BigDec]; all are the integers behind them.  The
    theorems compare each routine with the exact rational formula of its doc
    comment, cleared of denominators: for [l] liquidity and square-root prices
    [a <= b] the exact amount of token 0 is [l*(b-a)*10^54 / (a*b)] units of
    the last decimal of a [BigDec], and of token 1 [l*(b-a) / 10^18]. *)

From Stdlib Require Import ZArith Lia List Bool String.
From S2P Require Import Prelude GoBig BigInt BigDec SdkMath.

(** Square-root prices in increasing order, as the routines reorder them. *)
Definition sort2 (a b : Z) : Z * Z := if GT a b then (b, a) else (a, b).

Definition Liquidity0 (amount sqrtPriceA sqrtPriceB : Z) : Res Z :=
  let '(sqrtPriceA, sqrtPriceB) := sort2 sqrtPriceA sqrtPriceB in
  amountBigDec <- BigDecFromSDKInt amount ;;
  product <- Mul sqrtPriceA sqrtPriceB ;;
  diff <- Sub sqrtPriceB sqrtPriceA ;;
  if IsZero diff then Panic "liquidity0 diff is zero" else
  n <- MulMut amountBigDec product ;;
  q <- QuoMut n diff ;;
  Ok (Dec q).

Definition Liquidity1 (amount sqrtPriceA sqrtPriceB : Z) : Res Z :=
  let '(sqrtPriceA, sqrtPriceB) := sort2 sqrtPriceA sqrtPriceB in
  amountBigDec <- BigDecFromSDKInt amount ;;
  diff <- Sub sqrtPriceB sqrtPriceA ;;
  if IsZero diff then Panic "liquidity1 diff is zero" else
  q <- QuoMut amountBigDec diff ;;
  Ok (Dec q).

Definition CalcAmount0Delta (liq sqrtPriceA sqrtPriceB : Z) (roundUp : bool) : Res Z :=
  let '(sqrtPriceA, sqrtPriceB) := sort2 sqrtPriceA sqrtPriceB in
  diff <- Sub sqrtPriceB sqrtPriceA ;;
  if roundUp then
    x <- MulRoundUpDec diff liq ;;
    y <- QuoRoundUpMut x sqrtPriceB ;;
    QuoRoundUpNextIntMut y sqrtPriceA
  else
    x <- MulTruncateDec diff liq ;;
    y <- QuoTruncateMut x sqrtPriceB ;;
    QuoTruncateMut y sqrtPriceA.

Definition CalcAmount1Delta (liq sqrtPriceA sqrtPriceB : Z) (roundUp : bool) : Res Z :=
  d <- Sub sqrtPriceB sqrtPriceA ;;
  let diff := AbsMut d in
  if roundUp then
    x <- MulDecMut diff liq ;; CeilMut x
  else MulTruncateDec diff liq.

Definition GetNextSqrtPriceFromAmount0InRoundingUp
    (sqrtPriceCurrent liquidity amountZeroRemainingIn : Z) : Res Z :=
  if IsZero amountZeroRemainingIn then Ok sqrtPriceCurrent else
  product <- MulTruncate amountZeroRemainingIn sqrtPriceCurrent ;;
  denominator <- AddMut product liquidity ;;
  n <- MulRoundUp liquidity sqrtPriceCurrent ;;
  QuoRoundUpMut n denominator.

Definition GetNextSqrtPriceFromAmount0OutRoundingUp
    (sqrtPriceCurrent liquidity amountZeroRemainingOut : Z) : Res Z :=
  if IsZero amountZeroRemainingOut then Ok sqrtPriceCurrent else
  product <- MulRoundUpDec sqrtPriceCurrent amountZeroRemainingOut ;;
  denominator <- Sub liquidity product ;;
  n <- MulRoundUp liquidity sqrtPriceCurrent ;;
  QuoRoundUpMut n denominator.

Definition GetNextSqrtPriceFromAmount1InRoundingDown
    (sqrtPriceCurrent liquidity amountOneRemainingIn : Z) : Res Z :=
  q <- QuoTruncateDec amountOneRemainingIn liquidity ;;
  AddMut q sqrtPriceCurrent.

Definition GetNextSqrtPriceFromAmount1OutRoundingDown
    (sqrtPriceCurrent liquidity amountOneRemainingOut : Z) : Res Z :=
  q <- QuoByDecRoundUp amountOneRemainingOut liquidity ;;
  Sub sqrtPriceCurrent q.

Section WithSdk.
Context {S : SdkMath}.

Definition GetLiquidityFromAmounts
    (sqrtPrice sqrtPriceA sqrtPriceB amount0 amount1 : Z) : Res Z :=
  let '(sqrtPriceA, sqrtPriceB) := sort2 sqrtPriceA sqrtPriceB in
  if LTE sqrtPrice sqrtPriceA then Liquidity0 amount0 sqrtPriceA sqrtPriceB
  else if LT sqrtPrice sqrtPriceB then
    liquidity0 <- Liquidity0 amount0 sqrtPrice sqrtPriceB ;;
    liquidity1 <- Liquidity1 amount1 sqrtPrice sqrtPriceA ;;
    Ok (dec_Min liquidity0 liquidity1)
  else Liquidity1 amount1 sqrtPriceB sqrtPriceA.

Definition SquareRoundUp (sqrtPrice : Z) : Res Z := dec_MulRoundUp sqrtPrice sqrtPrice.
Definition SquareTruncate (sqrtPrice : Z) : Res Z := dec_MulTruncate sqrtPrice sqrtPrice.

End WithSdk.

(** ** Lemmas *)

Lemma sort2_minmax a b : sort2 a b = (Z.min a b, Z.max a b).
Proof. unfold sort2, GT. destruct (Z.gtb_spec a b); f_equal; lia. Qed.

(** Three successive ceilings (floors) bound the exact quotient from above
    (below), by at most the units they drop. *)
Lemma ceil_chain p q n hi lo :
  0 < p -> 0 < q -> 0 < hi -> 0 < lo ->
  let u1 := cdiv n p in let u2 := cdiv (u1 * q) hi in let u3 := cdiv u2 lo in
  n * q <= u3 * (p * lo * hi) < n * q + p * q + p * hi + p * lo * hi.
Proof.
  intros Hp Hq Hh Hl u1 u2 u3.
  pose proof (cdiv_spec n p Hp) as [A1 B1]. fold u1 in A1, B1.
  pose proof (cdiv_spec (u1 * q) hi Hh) as [A2 B2]. fold u2 in A2, B2.
  pose proof (cdiv_spec u2 lo Hl) as [A3 B3]. fold u3 in A3, B3.
  assert (n * q <= p * u1 * q) by (apply Z.mul_le_mono_nonneg_r; lia).
  assert (p * (u1 * q) <= p * (hi * u2)) by (apply Z.mul_le_mono_nonneg_l; lia).
  assert (p * hi * u2 <= p * hi * (lo * u3)) by (apply Z.mul_le_mono_nonneg_l; nia).
  assert (p * (u1 - 1) * q < n * q) by (apply Z.mul_lt_mono_pos_r; lia).
  assert (p * (hi * (u2 - 1)) < p * (u1 * q)) by (apply Z.mul_lt_mono_pos_l; lia).
  assert (p * hi * (lo * (u3 - 1)) < p * hi * u2) by (apply Z.mul_lt_mono_pos_l; nia).
  lia.
Qed.

Lemma floor_chain p q n hi lo :
  0 < p -> 0 < q -> 0 < hi -> 0 < lo ->
  let v1 := n / p in let v2 := v1 * q / hi in let v3 := v2 * q / lo in
  v3 * (p * lo * hi) <= n * q * q < v3 * (p * lo * hi) + p * lo * hi + p * hi * q + p * q * q.
Proof.
  intros Hp Hq Hh Hl v1 v2 v3.
  pose proof (div_spec n p Hp) as [A1 B1]. fold v1 in A1, B1.
  pose proof (div_spec (v1 * q) hi Hh) as [A2 B2]. fold v2 in A2, B2.
  pose proof (div_spec (v2 * q) lo Hl) as [A3 B3]. fold v3 in A3, B3.
  assert (p * v1 * (q * q) <= n * (q * q)) by (apply Z.mul_le_mono_nonneg_r; nia).
  assert (p * q * (hi * v2) <= p * q * (v1 * q)) by (apply Z.mul_le_mono_nonneg_l; nia).
  assert (p * hi * (lo * v3) <= p * hi * (v2 * q)) by (apply Z.mul_le_mono_nonneg_l; nia).
  assert (n * (q * q) < p * (v1 + 1) * (q * q)) by (apply Z.mul_lt_mono_pos_r; nia).
  assert (p * q * (v1 * q) < p * q * (hi * (v2 + 1))) by (apply Z.mul_lt_mono_pos_l; nia).
  assert (p * hi * (v2 * q) < p * hi * (lo * (v3 + 1))) by (apply Z.mul_lt_mono_pos_l; nia).
  lia.
Qed.

(** The results as closed expressions of the ordered prices. *)
Definition amt0_up (l lo hi : Z) : Z :=
  cdiv (cdiv (cdiv ((hi - lo) * l) precisionReuseSDKDec * defaultBigDecPrecisionReuse) hi) lo
  * defaultBigDecPrecisionReuse.
Definition amt0_down (l lo hi : Z) : Z :=
  (hi - lo) * l / precisionReuseSDKDec * defaultBigDecPrecisionReuse / hi
  * defaultBigDecPrecisionReuse / lo.

(** Square-root prices up to ten times [MaxSqrtPrice] and liquidity of at most 315 bits:
    no intermediate of the routines below overflows. *)
Definition price_dom (p : Z) : Prop := 0 < p <= 10 ^ 56.
Definition liq_dom (l : Z) : Prop := 0 <= l < 10 ^ 95.

Lemma CalcAmount0Delta_up_inv l a b r :
  0 <= l -> 0 < a -> 0 < b -> CalcAmount0Delta l a b true = Ok r ->
  r = amt0_up l (Z.min a b) (Z.max a b).
Proof.
  intros Hl Ha Hb. unfold CalcAmount0Delta. rewrite sort2_minmax. intros H. inv_binds.
  apply Sub_iff in E as [_ ->]. apply MulRoundUpDec_iff in E0 as [_ ->].
  pose proof sdk_prec_pos as Q. pose proof prec_pos as P.
  pose proof (cdiv_nonneg ((Z.max a b - Z.min a b) * l) _ Q ltac:(nia)).
  apply QuoRoundUpMut_iff in E1 as [_ ->]; [|lia..].
  apply QuoRoundUpNextIntMut_iff in H as [_ ->]; [reflexivity| |lia].
  apply cdiv_nonneg; nia.
Qed.

Lemma CalcAmount0Delta_down_inv l a b r :
  0 <= l -> 0 < a -> 0 < b -> CalcAmount0Delta l a b false = Ok r ->
  r = amt0_down l (Z.min a b) (Z.max a b).
Proof.
  intros Hl Ha Hb. unfold CalcAmount0Delta. rewrite sort2_minmax. intros H. inv_binds.
  apply Sub_iff in E as [_ ->]. apply MulTruncateDec_iff in E0 as [_ ->].
  apply QuoTruncate_iff in E1 as (_ & _ & ->). apply QuoTruncate_iff in H as (_ & _ & ->).
  pose proof sdk_prec_pos as Q. pose proof prec_pos as P. unfold amt0_down.
  assert (N : 0 <= (Z.max a b - Z.min a b) * l) by nia.
  rewrite (quot_nonneg _ _ N Q).
  pose proof (Z.div_pos _ _ N Q).
  assert (N1 : 0 <= (Z.max a b - Z.min a b) * l / precisionReuseSDKDec * defaultBigDecPrecisionReuse) by nia.
  rewrite (quot_nonneg _ (Z.max a b) N1) by lia.
  pose proof (Z.div_pos _ (Z.max a b) N1 ltac:(lia)).
  apply quot_nonneg; nia.
Qed.

Lemma cdiv_le a b n : 0 < b -> 0 <= a <= n -> 0 <= cdiv a b <= n.
Proof.
  intros Hb Ha. pose proof (cdiv_abs_le a b ltac:(lia) Hb). pose proof (cdiv_nonneg a b Hb ltac:(lia)). lia.
Qed.

Lemma div_le a b n : 0 < b -> 0 <= a <= n -> 0 <= a / b <= n.
Proof. intros Hb Ha. pose proof (div_spec a b Hb). pose proof (Z.div_pos a b ltac:(lia) Hb). nia. Qed.

Lemma mul_dom x y m n : 0 <= x <= m -> 0 <= y <= n -> 0 <= x * y <= m * n.
Proof. intros. split; [nia|]. apply Z.mul_le_mono_nonneg; lia. Qed.

Lemma in_range_dom x m : 0 <= x <= m -> (m <? 10 ^ 344) = true -> in_range x.
Proof. intros Hx Hm. apply in_range_pow10. b2p. lia. Qed.

Ltac in_dom H := apply (in_range_dom _ _ H); vm_compute; reflexivity.

Lemma one_dom : 0 <= defaultBigDecPrecisionReuse <= 10 ^ 36.
Proof. split; vm_compute; discriminate. Qed.

Lemma diff_dom l a b :
  liq_dom l -> price_dom a -> price_dom b ->
  in_range (Z.max a b - Z.min a b) /\ 0 <= (Z.max a b - Z.min a b) * l <= 10 ^ 56 * 10 ^ 95.
Proof.
  intros Hl Ha Hb. unfold liq_dom, price_dom in *.
  assert (D : 0 <= Z.max a b - Z.min a b <= 10 ^ 56) by lia. split.
  - in_dom D.
  - apply mul_dom; [exact D | lia].
Qed.

Lemma CalcAmount0Delta_up_ok l a b :
  liq_dom l -> price_dom a -> price_dom b ->
  CalcAmount0Delta l a b true = Ok (amt0_up l (Z.min a b) (Z.max a b)).
Proof.
  intros Hl Ha Hb. pose proof (diff_dom l a b Hl Ha Hb) as [R N].
  pose proof sdk_prec_pos as Q. unfold price_dom in *.
  pose proof (cdiv_le _ _ _ Q N) as N1.
  pose proof (mul_dom _ defaultBigDecPrecisionReuse _ (10 ^ 36) N1 one_dom) as N2.
  pose proof (cdiv_le _ (Z.max a b) _ ltac:(lia) N2) as N3.
  pose proof (cdiv_le _ (Z.min a b) _ ltac:(lia) N3) as N4.
  pose proof (mul_dom _ defaultBigDecPrecisionReuse _ (10 ^ 36) N4 one_dom) as N5.
  unfold CalcAmount0Delta. rewrite sort2_minmax, (Sub_ok _ _ R), bind_ok.
  rewrite MulRoundUpDec_ok by in_dom N1. rewrite bind_ok.
  rewrite QuoRoundUpMut_ok; [|apply N1|lia|in_dom N3]. rewrite bind_ok.
  apply QuoRoundUpNextIntMut_ok; [apply N3|lia|in_dom N5].
Qed.

Lemma CalcAmount0Delta_down_ok l a b :
  liq_dom l -> price_dom a -> price_dom b ->
  CalcAmount0Delta l a b false = Ok (amt0_down l (Z.min a b) (Z.max a b)).
Proof.
  intros Hl Ha Hb. pose proof (diff_dom l a b Hl Ha Hb) as [R N].
  pose proof sdk_prec_pos as Q. unfold price_dom in *.
  pose proof (div_le _ _ _ Q N) as N1.
  pose proof (mul_dom _ defaultBigDecPrecisionReuse _ (10 ^ 36) N1 one_dom) as N2.
  pose proof (div_le _ (Z.max a b) _ ltac:(lia) N2) as N3.
  pose proof (mul_dom _ defaultBigDecPrecisionReuse _ (10 ^ 36) N3 one_dom) as N4.
  pose proof (div_le _ (Z.min a b) _ ltac:(lia) N4) as N5.
  unfold CalcAmount0Delta. rewrite sort2_minmax, (Sub_ok _ _ R), bind_ok.
  rewrite MulTruncateDec_ok; [|apply N|in_dom N1]. rewrite bind_ok.
  rewrite QuoTruncateMut_ok; [|apply N1|lia|in_dom N3]. rewrite bind_ok.
  apply QuoTruncateMut_ok; [apply N3|lia|in_dom N5].
Qed.

Lemma minmax_mul a b : Z.min a b * Z.max a b = a * b.
Proof. destruct (Z.le_gt_cases a b); [rewrite Z.min_l, Z.max_r | rewrite Z.min_r, Z.max_l]; lia. Qed.

Lemma minmax_diff a b : Z.max a b - Z.min a b = Z.abs (b - a).
Proof. lia. Qed.

Lemma amt0_up_bracket l a b :
  0 < a -> 0 < b ->
  l * Z.abs (b - a) * 10 ^ 54 <= amt0_up l (Z.min a b) (Z.max a b) * (a * b) <
    l * Z.abs (b - a) * 10 ^ 54 + 10 ^ 72 + 10 ^ 36 * Z.max a b + 10 ^ 36 * (a * b).
Proof.
  intros Ha Hb. unfold amt0_up.
  pose proof (ceil_chain precisionReuseSDKDec defaultBigDecPrecisionReuse
    ((Z.max a b - Z.min a b) * l) (Z.max a b) (Z.min a b) sdk_prec_pos prec_pos ltac:(lia) ltac:(lia)) as H.
  cbv zeta in H. rewrite minmax_diff in *. rewrite <- (Z.mul_assoc precisionReuseSDKDec), minmax_mul in H.
  set (u := cdiv _ _) in *. change precisionReuseSDKDec with (10 ^ 18) in *.
  change defaultBigDecPrecisionReuse with (10 ^ 18 * 10 ^ 18) in *.
  change (10 ^ 54) with (10 ^ 18 * 10 ^ 18 * 10 ^ 18).
  change (10 ^ 72) with (10 ^ 18 * 10 ^ 18 * 10 ^ 18 * 10 ^ 18).
  change (10 ^ 36) with (10 ^ 18 * 10 ^ 18).
  assert (P : 0 < 10 ^ 18) by reflexivity. set (p := 10 ^ 18) in *. nia.
Qed.

Lemma amt0_down_bracket l a b :
  0 < a -> 0 < b ->
  amt0_down l (Z.min a b) (Z.max a b) * (a * b) <= l * Z.abs (b - a) * 10 ^ 54 <
    amt0_down l (Z.min a b) (Z.max a b) * (a * b) + a * b + 10 ^ 36 * Z.max a b + 10 ^ 72.
Proof.
  intros Ha Hb. unfold amt0_down.
  pose proof (floor_chain precisionReuseSDKDec defaultBigDecPrecisionReuse
    ((Z.max a b - Z.min a b) * l) (Z.max a b) (Z.min a b) sdk_prec_pos prec_pos ltac:(lia) ltac:(lia)) as H.
  cbv zeta in H. rewrite minmax_diff in *. rewrite <- (Z.mul_assoc precisionReuseSDKDec), minmax_mul in H.
  set (v := _ / Z.min a b) in *. change precisionReuseSDKDec with (10 ^ 18) in *.
  change defaultBigDecPrecisionReuse with (10 ^ 18 * 10 ^ 18) in *.
  change (10 ^ 54) with (10 ^ 18 * 10 ^ 18 * 10 ^ 18).
  change (10 ^ 72) with (10 ^ 18 * 10 ^ 18 * 10 ^ 18 * 10 ^ 18).
  change (10 ^ 36) with (10 ^ 18 * 10 ^ 18).
  assert (P : 0 < 10 ^ 18) by reflexivity. set (p := 10 ^ 18) in *. nia.
Qed.

Definition amt1_up (l d : Z) : Z :=
  cdiv (chopPrecisionAndRoundSdkDec (d * l)) defaultBigDecPrecisionReuse * defaultBigDecPrecisionReuse.
Definition amt1_down (l d : Z) : Z := d * l / precisionReuseSDKDec.

Lemma Sub_price_ok a b : price_dom a -> price_dom b -> Sub b a = Ok (b - a).
Proof.
  unfold price_dom. intros Ha Hb. apply Sub_ok, in_range_pow10.
  apply Z.le_lt_trans with (10 ^ 56); [lia | vm_compute; reflexivity].
Qed.

Lemma CalcAmount1Delta_down_ok l a b :
  liq_dom l -> price_dom a -> price_dom b ->
  CalcAmount1Delta l a b false = Ok (amt1_down l (Z.abs (b - a))).
Proof.
  intros Hl Ha Hb. unfold CalcAmount1Delta. rewrite (Sub_price_ok a b Ha Hb), bind_ok.
  pose proof (diff_dom l a b Hl Ha Hb) as [_ N]. rewrite minmax_diff in N. unfold AbsMut.
  pose proof (div_le _ _ _ sdk_prec_pos N) as N1.
  apply MulTruncateDec_ok; [apply N | in_dom N1].
Qed.

Lemma chopSdk_dom d m : 0 <= d <= m -> 0 <= chopPrecisionAndRoundSdkDec d <= m + 1.
Proof.
  intros H. pose proof (chopPrecisionAndRoundSdkDec_spec d) as N.
  pose proof sdk_prec_pos as P. split.
  - apply (nearest_even_le _ _ _ 0 P N). lia.
  - apply (nearest_even_ge _ _ _ (m + 1) P N). nia.
Qed.

Lemma CalcAmount1Delta_up_ok l a b :
  liq_dom l -> price_dom a -> price_dom b ->
  CalcAmount1Delta l a b true = Ok (amt1_up l (Z.abs (b - a))).
Proof.
  intros Hl Ha Hb. unfold CalcAmount1Delta. rewrite (Sub_price_ok a b Ha Hb), bind_ok.
  pose proof (diff_dom l a b Hl Ha Hb) as [_ N]. rewrite minmax_diff in N. unfold AbsMut, MulDecMut.
  pose proof (chopSdk_dom _ _ N) as N1.
  rewrite checked_ok by in_dom N1. rewrite bind_ok. apply CeilMut_ok.
Qed.

Lemma CalcAmount1Delta_up_inv l a b r :
  CalcAmount1Delta l a b true = Ok r -> r = amt1_up l (Z.abs (b - a)).
Proof.
  unfold CalcAmount1Delta. intros H. inv_binds. apply Sub_iff in E as [_ ->].
  unfold MulDecMut in E0. apply checked_iff in E0 as [_ ->]. rewrite CeilMut_ok in H.
  now apply Ok_inj in H.
Qed.

Lemma CalcAmount1Delta_down_inv l a b r :
  0 <= l -> CalcAmount1Delta l a b false = Ok r -> r = amt1_down l (Z.abs (b - a)).
Proof.
  unfold CalcAmount1Delta. intros Hl H. inv_binds. apply Sub_iff in E as [_ ->].
  apply MulTruncateDec_iff in H as [_ ->]. apply quot_nonneg; [unfold AbsMut; nia | apply sdk_prec_pos].
Qed.

Lemma amt1_down_bracket l d :
  amt1_down l d * 10 ^ 18 <= l * d < (amt1_down l d + 1) * 10 ^ 18.
Proof.
  pose proof (div_spec (d * l) precisionReuseSDKDec sdk_prec_pos) as H. unfold amt1_down.
  change (10 ^ 18) with precisionReuseSDKDec. lia.
Qed.

Lemma amt1_up_bracket l d :
  2 * l * d - 10 ^ 18 <= 2 * amt1_up l d * 10 ^ 18 < 2 * l * d + 10 ^ 18 + 2 * 10 ^ 54.
Proof.
  unfold amt1_up. pose proof (chopPrecisionAndRoundSdkDec_spec (d * l)) as [N _].
  set (x := chopPrecisionAndRoundSdkDec (d * l)) in *.
  pose proof (cdiv_spec x defaultBigDecPrecisionReuse prec_pos) as C.
  set (u := cdiv x _) in *. change (10 ^ 54) with (defaultBigDecPrecisionReuse * precisionReuseSDKDec).
  change (10 ^ 18) with precisionReuseSDKDec. pose proof sdk_prec_pos as P.
  set (p := precisionReuseSDKDec) in *. set (q := defaultBigDecPrecisionReuse) in *. nia.
Qed.

Lemma amt1_up_nonneg l d : 0 <= l -> 0 <= d -> 0 <= amt1_up l d.
Proof.
  intros. unfold amt1_up. apply Z.mul_nonneg_nonneg; [|discriminate].
  apply cdiv_nonneg; [apply prec_pos|].
  apply (chopSdk_dom (d * l) (d * l)). nia.
Qed.

Lemma amt0_up_nonneg l lo hi : 0 <= l -> 0 < lo <= hi -> 0 <= amt0_up l lo hi.
Proof.
  intros Hl H. unfold amt0_up. pose proof sdk_prec_pos as P. pose proof prec_pos as Q.
  apply Z.mul_nonneg_nonneg; [|lia]. apply cdiv_nonneg; [lia|]. apply cdiv_nonneg; [lia|].
  apply Z.mul_nonneg_nonneg; [|lia]. apply cdiv_nonneg; nia.
Qed.

(** *** Next square-root prices as closed expressions *)

Definition next0_in (p l x : Z) : Z :=
  cdiv (cdiv (l * p) defaultBigDecPrecisionReuse * defaultBigDecPrecisionReuse)
       (x * p / defaultBigDecPrecisionReuse + l).
Definition next0_out (p l x : Z) : Z :=
  cdiv (cdiv (l * p) defaultBigDecPrecisionReuse * defaultBigDecPrecisionReuse)
       (l - cdiv (p * x) precisionReuseSDKDec).

Definition amount_dom (x : Z) : Prop := 0 <= x <= 10 ^ 113.

Lemma num_dom p l :
  price_dom p -> amount_dom l ->
  let n := cdiv (l * p) defaultBigDecPrecisionReuse in
  0 <= n <= 10 ^ 113 * 10 ^ 56 /\ 0 <= n * defaultBigDecPrecisionReuse <= 10 ^ 113 * 10 ^ 56 * 10 ^ 36.
Proof.
  intros Hp Hl n. unfold price_dom, amount_dom in Hp, Hl.
  pose proof (mul_dom l p _ _ Hl ltac:(split; [lia | apply Hp])) as N.
  pose proof (cdiv_le _ _ _ prec_pos N) as N1. split; [exact N1|].
  exact (mul_dom _ defaultBigDecPrecisionReuse _ (10 ^ 36) N1 one_dom).
Qed.

Lemma next0_in_ok p l x :
  price_dom p -> amount_dom l -> amount_dom x -> x <> 0 -> 0 < l ->
  GetNextSqrtPriceFromAmount0InRoundingUp p l x = Ok (next0_in p l x).
Proof.
  intros Hp Hl Hx Nx Pl. pose proof (num_dom p l Hp Hl) as [N1 N2].
  unfold price_dom, amount_dom in *.
  pose proof (mul_dom x p _ _ Hx ltac:(split; [lia | apply Hp])) as M.
  pose proof (div_le _ _ _ prec_pos M) as M1.
  assert (M2 : 0 <= x * p / defaultBigDecPrecisionReuse + l <= 10 ^ 113 * 10 ^ 56 + 10 ^ 113) by lia.
  pose proof (cdiv_le _ (x * p / defaultBigDecPrecisionReuse + l) _ ltac:(lia) N2) as N3.
  unfold GetNextSqrtPriceFromAmount0InRoundingUp, IsZero.
  destruct (Z.eqb_spec (Z.sgn x) 0); [lia|].
  rewrite MulTruncate_ok; [|apply M|in_dom M1]. rewrite bind_ok. change AddMut with Add.
  rewrite Add_ok by in_dom M2. rewrite bind_ok. rewrite MulRoundUp_ok by in_dom N1. rewrite bind_ok.
  apply QuoRoundUpMut_ok; [apply N1|lia|in_dom N3].
Qed.

Lemma next0_out_ok p l x :
  price_dom p -> amount_dom l -> amount_dom x -> x <> 0 ->
  cdiv (p * x) precisionReuseSDKDec < l ->
  GetNextSqrtPriceFromAmount0OutRoundingUp p l x = Ok (next0_out p l x).
Proof.
  intros Hp Hl Hx Nx Pl. pose proof (num_dom p l Hp Hl) as [N1 N2].
  unfold price_dom, amount_dom in *.
  pose proof (mul_dom p x _ _ ltac:(split; [lia | apply Hp]) Hx) as M.
  pose proof (cdiv_le _ _ _ sdk_prec_pos M) as M1.
  assert (M2 : 0 <= l - cdiv (p * x) precisionReuseSDKDec <= 10 ^ 113) by lia.
  pose proof (cdiv_le _ (l - cdiv (p * x) precisionReuseSDKDec) _ ltac:(lia) N2) as N3.
  unfold GetNextSqrtPriceFromAmount0OutRoundingUp, IsZero.
  destruct (Z.eqb_spec (Z.sgn x) 0); [lia|].
  rewrite MulRoundUpDec_ok by in_dom M1. rewrite bind_ok.
  rewrite Sub_ok by in_dom M2. rewrite bind_ok. rewrite MulRoundUp_ok by in_dom N1. rewrite bind_ok.
  apply QuoRoundUpMut_ok; [apply N1|lia|in_dom N3].
Qed.

Lemma next1_in_ok p l x :
  price_dom p -> 0 < l -> amount_dom x ->
  GetNextSqrtPriceFromAmount1InRoundingDown p l x = Ok (x * precisionReuseSDKDec / l + p).
Proof.
  unfold price_dom, amount_dom. intros Hp Hl Hx.
  pose proof (mul_dom x precisionReuseSDKDec _ (10 ^ 18) Hx ltac:(split; vm_compute; discriminate)) as M.
  pose proof (div_le _ l _ Hl M) as M1. unfold GetNextSqrtPriceFromAmount1InRoundingDown.
  rewrite QuoTruncateDec_ok; [|apply Hx|apply Hl|in_dom M1]. rewrite bind_ok. apply Add_ok.
  assert (M2 : 0 <= x * precisionReuseSDKDec / l + p <= 10 ^ 113 * 10 ^ 18 + 10 ^ 56) by lia.
  in_dom M2.
Qed.

Lemma next1_out_ok p l x :
  price_dom p -> 0 < l -> amount_dom x ->
  GetNextSqrtPriceFromAmount1OutRoundingDown p l x = Ok (p - cdiv (x * precisionReuseSDKDec) l).
Proof.
  unfold price_dom, amount_dom. intros Hp Hl Hx.
  pose proof (mul_dom x precisionReuseSDKDec _ (10 ^ 18) Hx ltac:(split; vm_compute; discriminate)) as M.
  pose proof (cdiv_le _ l _ Hl M) as M1. unfold GetNextSqrtPriceFromAmount1OutRoundingDown.
  rewrite QuoByDecRoundUp_ok; [|apply Hl|in_dom M1]. rewrite bind_ok. apply Sub_ok.
  apply in_range_pow10. apply Z.le_lt_trans with (10 ^ 113 * 10 ^ 18 + 10 ^ 56); [lia | vm_compute; reflexivity].
Qed.

Lemma next0_in_bracket p l x :
  0 < p -> 0 < l -> 0 <= x ->
  l * p * 10 ^ 36 <= next0_in p l x * (x * p + l * 10 ^ 36) /\
  (10 ^ 30 <= p -> 10 ^ 12 <= x -> next0_in p l x <= p).
Proof.
  intros Hp Hl Hx. unfold next0_in. change (10 ^ 36) with defaultBigDecPrecisionReuse.
  pose proof prec_pos as P. set (q := defaultBigDecPrecisionReuse) in *.
  pose proof (cdiv_spec (l * p) q P) as [A1 B1]. set (n := cdiv (l * p) q) in *.
  assert (Hxp : 0 <= x * p) by nia.
  pose proof (div_spec (x * p) q P) as [A2 B2]. pose proof (Z.div_pos _ _ Hxp P).
  set (v := x * p / q) in *. assert (Hd : 0 < v + l) by lia.
  pose proof (cdiv_spec (n * q) (v + l) Hd) as [A3 B3]. set (r := cdiv (n * q) (v + l)) in *.
  assert (0 <= n) by nia. assert (0 <= r) by nia. split.
  - assert (q * (v + l) * r <= (x * p + l * q) * r) by (apply Z.mul_le_mono_nonneg_r; lia).
    assert (n * q * q <= (v + l) * r * q) by (apply Z.mul_le_mono_nonneg_r; lia).
    assert (l * p * q <= q * n * q) by (apply Z.mul_le_mono_nonneg_r; lia). nia.
  - intros Hp' Hx'. assert (10 ^ 42 <= x * p).
    { apply Z.le_trans with (10 ^ 12 * 10 ^ 30); [vm_compute; discriminate|]. apply Z.mul_le_mono_nonneg; lia. }
    assert (Hv : 10 ^ 6 <= v).
    { apply Z.div_le_lower_bound; [lia|]. change q with (10 ^ 36). lia. }
    assert (Hpv : q <= p * v).
    { apply Z.le_trans with (10 ^ 30 * 10 ^ 6); [vm_compute; discriminate|]. apply Z.mul_le_mono_nonneg; lia. }
    nia.
Qed.

Lemma next0_out_bracket p l x :
  0 < p -> 0 <= x -> cdiv (p * x) precisionReuseSDKDec < l ->
  l * p * 10 ^ 18 <= next0_out p l x * (l * 10 ^ 18 - x * p) /\ p <= next0_out p l x.
Proof.
  intros Hp Hx. unfold next0_out. change (10 ^ 18) with precisionReuseSDKDec.
  pose proof prec_pos as P. pose proof sdk_prec_pos as T.
  pose proof (cdiv_spec (p * x) precisionReuseSDKDec T) as [A0 B0].
  assert (0 <= cdiv (p * x) precisionReuseSDKDec) by (apply cdiv_nonneg; nia).
  set (t := precisionReuseSDKDec) in *. set (w := cdiv (p * x) t) in *. intros Hl.
  set (q := defaultBigDecPrecisionReuse) in *.
  pose proof (cdiv_spec (l * p) q P) as [A1 B1]. set (n := cdiv (l * p) q) in *.
  assert (Hd : 0 < l - w) by lia.
  pose proof (cdiv_spec (n * q) (l - w) Hd) as [A3 B3]. set (r := cdiv (n * q) (l - w)) in *.
  assert (l * p <= (l - w) * r) by lia. assert (0 <= r) by nia. split; [|nia].
  assert (l * p * t <= (l - w) * r * t) by (apply Z.mul_le_mono_nonneg_r; lia).
  assert (r * (p * x) <= r * (t * w)) by (apply Z.mul_le_mono_nonneg_l; lia). nia.
Qed.

(** ** Properties *)

(** [CalcAmount0Delta] brackets the exact amount
    [liq * |pB - pA| / (pA * pB)] of token 0, whatever the order of the two
    square-root prices: rounded up it is a whole number of tokens that is
    never below the exact amount, rounded down it is never above it, so the
    pool is never short; both are within the stated error of the exact
    amount, and neither rounding overflows on prices up to ten times [MaxSqrtPrice]. *)
Theorem CalcAmount0Delta_brackets (l a b : Z) :
  0 <= l < 10 ^ 95 -> 0 < a <= 10 ^ 56 -> 0 < b <= 10 ^ 56 ->
  exists up down,
    CalcAmount0Delta l a b true = Ok up /\ CalcAmount0Delta l a b false = Ok down /\
    (10 ^ 36 | up) /\
    down * (a * b) <= l * Z.abs (b - a) * 10 ^ 54 <= up * (a * b) /\
    up * (a * b) < l * Z.abs (b - a) * 10 ^ 54 + 10 ^ 72 + 10 ^ 36 * Z.max a b + 10 ^ 36 * (a * b) /\
    l * Z.abs (b - a) * 10 ^ 54 < down * (a * b) + a * b + 10 ^ 36 * Z.max a b + 10 ^ 72.
Proof.
  intros Hl Ha Hb. pose proof (amt0_up_bracket l a b ltac:(lia) ltac:(lia)) as U.
  pose proof (amt0_down_bracket l a b ltac:(lia) ltac:(lia)) as D.
  exists (amt0_up l (Z.min a b) (Z.max a b)), (amt0_down l (Z.min a b) (Z.max a b)).
  split; [now apply CalcAmount0Delta_up_ok|]. split; [now apply CalcAmount0Delta_down_ok|].
  split; [apply Z.divide_factor_r|]. tauto.
Qed.

Lemma CalcAmount0Delta_brackets_witness :
  exists up, CalcAmount0Delta (1517818840967515822610790519) (70710678118654752440 * 10 ^ 18) (74161984870956629488 * 10 ^ 18) true = Ok up.
Proof.
  destruct (CalcAmount0Delta_brackets 1517818840967515822610790519 (70710678118654752440 * 10 ^ 18)
    (74161984870956629488 * 10 ^ 18)) as (up & down & H & _);
    [split; vm_compute; congruence.. | exists up; exact H].
Defined.

(** [CalcAmount1Delta] rounded down is the floor of the exact amount
    [liq * |pB - pA|] of token 1; rounded up it is a whole number of tokens,
    above the exact amount by less than one token and half a unit of the last
    decimal.  Unlike the round-up of token 0 it is not always at least the
    exact amount: the product is first rounded to nearest, so up to half a unit
    of the last decimal can be lost, and a positive amount below that is
    charged as zero. *)
Theorem CalcAmount1Delta_brackets (l a b : Z) :
  0 <= l < 10 ^ 95 -> 0 < a <= 10 ^ 56 -> 0 < b <= 10 ^ 56 ->
  (exists up down,
    CalcAmount1Delta l a b true = Ok up /\ CalcAmount1Delta l a b false = Ok down /\
    (10 ^ 36 | up) /\
    down * 10 ^ 18 <= l * Z.abs (b - a) < (down + 1) * 10 ^ 18 /\
    2 * l * Z.abs (b - a) - 10 ^ 18 <= 2 * up * 10 ^ 18 < 2 * l * Z.abs (b - a) + 10 ^ 18 + 2 * 10 ^ 54) /\
  (2 * l <= 10 ^ 18 -> b = a + 1 -> CalcAmount1Delta l a b true = Ok 0).
Proof.
  intros Hl Ha Hb. pose proof (amt1_up_bracket l (Z.abs (b - a))) as U.
  pose proof (amt1_down_bracket l (Z.abs (b - a))) as D. split.
  - exists (amt1_up l (Z.abs (b - a))), (amt1_down l (Z.abs (b - a))).
    split; [now apply CalcAmount1Delta_up_ok|]. split; [now apply CalcAmount1Delta_down_ok|].
    split; [apply Z.divide_factor_r|]. tauto.
  - intros H ->. rewrite CalcAmount1Delta_up_ok by assumption.
    replace (a + 1 - a) with 1 by ring. unfold amt1_up.
    rewrite Z.mul_1_l. replace (chopPrecisionAndRoundSdkDec l) with 0; [reflexivity|].
    apply (nearest_even_unique precisionReuseSDKDec l); [apply sdk_prec_pos | |
      apply chopPrecisionAndRoundSdkDec_spec].
    unfold nearest_even. change precisionReuseSDKDec with (10 ^ 18). split; [lia | reflexivity].
Qed.

Lemma CalcAmount1Delta_brackets_witness :
  CalcAmount1Delta 300000000000000000 (10 ^ 36) (10 ^ 36 + 1) true = Ok 0.
Proof.
  apply (CalcAmount1Delta_brackets 300000000000000000 (10 ^ 36) (10 ^ 36 + 1));
    vm_compute; try split; congruence.
Defined.

(** the four next-square-root-price routines round as the swap needs.
    Token 0 in: the new price is never below the exact
    [L*p / (L + x*p)] (the price falls by no more than it should) and, from
    the smallest square-root price [10^-6] on and for at least [10^-24] of a
    token, never above the current price.  Token 0 out: never below the exact
    [L*p / (L - x*p)].  Token 1 in: the floor of [p + x/L].  Token 1 out: the
    current price minus the ceiling of [x/L].  None of them overflows. *)
Theorem next_sqrt_price_rounding (p l x : Z) :
  0 < p <= 10 ^ 56 -> 0 < l <= 10 ^ 113 -> 0 < x <= 10 ^ 113 ->
  (exists r, GetNextSqrtPriceFromAmount0InRoundingUp p l x = Ok r /\
     l * p * 10 ^ 36 <= r * (x * p + l * 10 ^ 36) /\ (10 ^ 30 <= p -> 10 ^ 12 <= x -> r <= p)) /\
  (cdiv (p * x) (10 ^ 18) < l ->
   exists r, GetNextSqrtPriceFromAmount0OutRoundingUp p l x = Ok r /\
     l * p * 10 ^ 18 <= r * (l * 10 ^ 18 - x * p) /\ p <= r) /\
  (exists r, GetNextSqrtPriceFromAmount1InRoundingDown p l x = Ok r /\
     (r - p) * l <= x * 10 ^ 18 < (r - p + 1) * l) /\
  (exists r, GetNextSqrtPriceFromAmount1OutRoundingDown p l x = Ok r /\
     (p - r - 1) * l < x * 10 ^ 18 <= (p - r) * l).
Proof.
  intros Hp Hl Hx. assert (Dl : amount_dom l) by (unfold amount_dom; lia).
  assert (Dx : amount_dom x) by (unfold amount_dom; lia).
  split; [|split; [|split]].
  - eexists. split; [apply next0_in_ok; auto; lia|]. apply next0_in_bracket; lia.
  - intros H. eexists. split; [apply next0_out_ok; auto; lia|]. apply next0_out_bracket; auto; lia.
  - eexists. split; [apply next1_in_ok; auto; lia|].
    pose proof (div_spec (x * precisionReuseSDKDec) l ltac:(lia)) as D.
    change (10 ^ 18) with precisionReuseSDKDec. set (v := _ / l) in *. nia.
  - eexists. split; [apply next1_out_ok; auto; lia|].
    pose proof (cdiv_spec (x * precisionReuseSDKDec) l ltac:(lia)) as D.
    change (10 ^ 18) with precisionReuseSDKDec. set (v := cdiv _ l) in *. nia.
Qed.

Lemma next_sqrt_price_rounding_witness :
  exists r, GetNextSqrtPriceFromAmount0InRoundingUp (70710678118654752440 * 10 ^ 18)
    (1517818840967515822610790519 * 10 ^ 18) (13369999999999 * 10 ^ 30) = Ok r /\ r <= 70710678118654752440 * 10 ^ 18.
Proof.
  destruct (next_sqrt_price_rounding (70710678118654752440 * 10 ^ 18)
    (1517818840967515822610790519 * 10 ^ 18) (13369999999999 * 10 ^ 30)) as [(r & H & _ & L) _];
    [split; vm_compute; congruence.. |].
  exists r. split; [exact H | apply L; vm_compute; congruence].
Defined.
