(* ===== verification/Store.v ===== *)
(** * Key-value stores and byte keys

    The modules of the chain keep their state in the key-value stores of the
    Cosmos SDK ([cosmossdk.io/store]), which are not part of the repository.
    [KVStore] is the interface the models use and [KVStoreSpec] the documented
    contract: point operations, prefix stores, and iterators that enumerate the
    keys of a half-open range once each, in ascending (descending) byte order.
    [Uint64ToBigEndian] and its inverse ([cosmos-sdk/types]) are in
    [BigEndian].  Sorted association lists implement the interface. *)

From Stdlib Require Import ZArith Lia List Bool String Sorted Permutation.
From S2P Require Import Prelude GoBig.
Import ListNotations.

(** ** Byte strings in [bytes.Compare] order *)

Definition bytes : Type := list Z.

Fixpoint bcompare (a b : bytes) : comparison :=
  match a, b with
  | [], [] => Eq
  | [], _ :: _ => Lt
  | _ :: _, [] => Gt
  | x :: a', y :: b' =>
      match Z.compare x y with Eq => bcompare a' b' | c => c end
  end.

Definition blt (a b : bytes) : Prop := bcompare a b = Lt.
Definition bltb (a b : bytes) : bool := match bcompare a b with Lt => true | _ => false end.
Definition bleb (a b : bytes) : bool := match bcompare a b with Gt => false | _ => true end.

Lemma bcompare_refl a : bcompare a a = Eq.
Proof. induction a; cbn; [|rewrite Z.compare_refl]; auto. Qed.

Lemma bcompare_eq a b : bcompare a b = Eq <-> a = b.
Proof.
  split; [|intros ->; apply bcompare_refl].
  revert b; induction a as [|x a IH]; intros [|y b]; cbn; try discriminate; auto.
  destruct (Z.compare_spec x y); try discriminate. intros E. f_equal; auto.
Qed.

Lemma bcompare_antisym a b : bcompare b a = CompOpp (bcompare a b).
Proof.
  revert b; induction a as [|x a IH]; intros [|y b]; cbn; auto.
  rewrite (Z.compare_antisym x y). destruct (Z.compare x y); cbn; auto.
Qed.

Lemma blt_trans a b c : blt a b -> blt b c -> blt a c.
Proof.
  unfold blt. revert b c; induction a as [|x a IH]; intros [|y b] [|z c]; cbn; try discriminate; auto.
  destruct (Z.compare_spec x y), (Z.compare_spec y z); try discriminate; intros; subst.
  - rewrite Z.compare_refl. eauto.
  - now rewrite (proj2 (Z.compare_lt_iff y z)).
  - now rewrite (proj2 (Z.compare_lt_iff x z)).
  - rewrite (proj2 (Z.compare_lt_iff x z)); [reflexivity | lia].
Qed.

Lemma blt_irrefl a : ~ blt a a.
Proof. unfold blt. rewrite bcompare_refl. discriminate. Qed.

Lemma bltb_spec a b : bltb a b = true <-> blt a b.
Proof. unfold bltb, blt. destruct (bcompare a b); split; congruence. Qed.

Lemma bleb_spec a b : bleb a b = true <-> ~ blt b a.
Proof. unfold bleb, blt. rewrite (bcompare_antisym a b). destruct (bcompare a b); cbn; split; congruence. Qed.

Lemma bcompare_app p a b : bcompare (p ++ a) (p ++ b) = bcompare a b.
Proof. induction p; cbn; [reflexivity | now rewrite Z.compare_refl]. Qed.

Lemma bltb_app p a b : bltb (p ++ a) (p ++ b) = bltb a b.
Proof. unfold bltb. now rewrite bcompare_app. Qed.
Lemma bleb_app p a b : bleb (p ++ a) (p ++ b) = bleb a b.
Proof. unfold bleb. now rewrite bcompare_app. Qed.
Lemma bleb_prefix p x : bleb p (p ++ x) = true.
Proof. rewrite <- (app_nil_r p) at 1. rewrite bleb_app. now destruct x. Qed.

Lemma app_eq_length {A} (a b x y : list A) : List.length a = List.length b -> (a ++ x = b ++ y) -> a = b /\ x = y.
Proof.
  revert b. induction a as [|c a IH]; intros [|d b] L E; try discriminate L; [auto|].
  cbn in E. injection E as -> E. injection L as L. destruct (IH b L E) as [-> ->]. auto.
Qed.

Lemma bcompare_app_eq a b x y : List.length a = List.length b ->
  bcompare (a ++ x) (b ++ y) = match bcompare a b with Eq => bcompare x y | c => c end.
Proof.
  revert b. induction a as [|c a IH]; intros [|d b] L; try discriminate L; [reflexivity|].
  cbn [bcompare app]. injection L as L. destruct (Z.compare c d); auto.
Qed.

(** Between a prefix and an extension of it lie extensions of it. *)
Lemma between_prefix p k x : bleb p k = true -> bltb k (p ++ x) = true -> exists w, k = p ++ w.
Proof.
  unfold bleb, bltb. revert k. induction p as [|c p IH]; intros k L U; [now exists k|].
  destruct k as [|d k]; [discriminate L|]. cbn [bcompare app] in L, U. rewrite (Z.compare_antisym c d) in U.
  destruct (Z.compare_spec c d) as [-> | |]; cbn [CompOpp] in U; try discriminate.
  destruct (IH k L U) as [w ->]. now exists w.
Qed.

(** Equal-length strings compare as the numbers they spell in base 256. *)
Fixpoint be_value (acc : Z) (bs : bytes) : Z :=
  match bs with [] => acc | b :: bs' => be_value (acc * 256 + b) bs' end.

Definition byte (b : Z) : Prop := 0 <= b < 256.

Lemma be_value_acc acc bs : be_value acc bs = acc * 256 ^ Z.of_nat (List.length bs) + be_value 0 bs.
Proof.
  revert acc; induction bs as [|b bs IH]; intros acc; [cbn; lia|].
  cbn [be_value List.length]. rewrite (IH (acc * 256 + b)), (IH (0 * 256 + b)).
  rewrite Nat2Z.inj_succ, Z.pow_succ_r by lia. ring.
Qed.

Lemma be_value_bound bs : Forall byte bs -> 0 <= be_value 0 bs < 256 ^ Z.of_nat (List.length bs).
Proof.
  induction 1 as [|b bs Hb _ IH]; [cbn; lia|].
  cbn [be_value List.length]. rewrite be_value_acc, Nat2Z.inj_succ, Z.pow_succ_r by lia.
  unfold byte in Hb. nia.
Qed.

Lemma bcompare_be a b :
  Forall byte a -> Forall byte b -> List.length a = List.length b ->
  bcompare a b = Z.compare (be_value 0 a) (be_value 0 b).
Proof.
  intros Ha. revert b. induction Ha as [|x a Hx Ha IH]; intros b Hb L; destruct b as [|y b]; try discriminate.
  - reflexivity.
  - inversion Hb as [|? ? Hy Hb']; subst. injection L as L. cbn [bcompare be_value].
    rewrite (be_value_acc (0 * 256 + x)), (be_value_acc (0 * 256 + y)).
    pose proof (be_value_bound a Ha). pose proof (be_value_bound b Hb') as B. rewrite <- L in B |- *.
    destruct (Z.compare_spec x y) as [-> | Lt | Gt].
    + rewrite (IH b Hb' L). symmetry. apply Z.add_compare_mono_l.
    + symmetry. apply Z.compare_lt_iff. nia.
    + symmetry. apply Z.compare_gt_iff. nia.
Qed.

(** ** Big-endian [uint64] *)

Class BigEndian : Type := {
  Uint64ToBigEndian : Z -> bytes;
  BigEndianToUint64 : bytes -> Z
}.

Class BigEndianSpec (B : BigEndian) : Prop := {
  Uint64ToBigEndian_bytes n : 0 <= n < 2 ^ 64 -> Forall byte (Uint64ToBigEndian n);
  Uint64ToBigEndian_length n : 0 <= n < 2 ^ 64 -> List.length (Uint64ToBigEndian n) = 8%nat;
  Uint64ToBigEndian_value n : 0 <= n < 2 ^ 64 -> be_value 0 (Uint64ToBigEndian n) = n;
  BigEndianToUint64_value bs :
    Forall byte bs -> List.length bs = 8%nat -> BigEndianToUint64 bs = be_value 0 bs
}.

#[export] Instance big_endian_ref : BigEndian := {|
  Uint64ToBigEndian n := map (fun i => Z.shiftr n (8 * i) mod 256) [7; 6; 5; 4; 3; 2; 1; 0];
  BigEndianToUint64 bs := be_value 0 bs
|}.

#[export] Instance big_endian_ref_spec : BigEndianSpec big_endian_ref.
Proof.
  split; cbn [Uint64ToBigEndian BigEndianToUint64 big_endian_ref]; intros.
  - apply Forall_forall. intros b Hb. apply in_map_iff in Hb as (i & <- & _).
    apply Z.mod_pos_bound. lia.
  - reflexivity.
  - cbn [map be_value]. rewrite !Z.shiftr_div_pow2 by lia.
    change (2 ^ 64) with 18446744073709551616 in H.
    change (2 ^ (8 * 7)) with 72057594037927936. change (2 ^ (8 * 6)) with 281474976710656.
    change (2 ^ (8 * 5)) with 1099511627776. change (2 ^ (8 * 4)) with 4294967296.
    change (2 ^ (8 * 3)) with 16777216. change (2 ^ (8 * 2)) with 65536.
    change (2 ^ (8 * 1)) with 256. change (2 ^ (8 * 0)) with 1.
    Z.to_euclidean_division_equations. lia.
  - reflexivity.
Qed.

(** ** Stores *)

Definition in_rng (lo hi : option bytes) (k : bytes) : bool :=
  (match lo with None => true | Some a => bleb a k end) &&
  (match hi with None => true | Some b => bltb k b end).

Class KVStore (V : Type) : Type := {
  St : Type;
  st_empty : St;
  st_get : St -> bytes -> option V;
  st_set : St -> bytes -> V -> St;
  st_delete : St -> bytes -> St;
  st_prefix : St -> bytes -> St;
  st_iter : St -> option bytes -> option bytes -> list (bytes * V);
  st_riter : St -> option bytes -> option bytes -> list (bytes * V)
}.

Definition key_lt {V} (x y : bytes * V) : Prop := blt (fst x) (fst y).

Class KVStoreSpec {V} (K : KVStore V) : Prop := {
  st_get_empty k : st_get st_empty k = None;
  st_get_set s k v k' : st_get (st_set s k v) k' = match bcompare k k' with Eq => Some v | _ => st_get s k' end;
  st_get_delete s k k' : st_get (st_delete s k) k' = match bcompare k k' with Eq => None | _ => st_get s k' end;
  st_get_prefix s p k : st_get (st_prefix s p) k = st_get s (p ++ k);
  st_iter_sorted s lo hi : StronglySorted key_lt (st_iter s lo hi);
  st_iter_in s lo hi k v :
    In (k, v) (st_iter s lo hi) <-> st_get s k = Some v /\ in_rng lo hi k = true;
  st_riter_rev s lo hi : st_riter s lo hi = rev (st_iter s lo hi)
}.

(** The contract determines what an iterator enumerates. *)
Lemma sorted_unique {V} (l1 l2 : list (bytes * V)) :
  StronglySorted key_lt l1 -> StronglySorted key_lt l2 ->
  (forall x, In x l1 <-> In x l2) -> l1 = l2.
Proof.
  intros S1. revert l2. induction S1 as [|x l1 S1 IH F1]; intros l2 S2 E.
  - destruct l2 as [|y l2]; [reflexivity|]. destruct (proj2 (E y) (or_introl eq_refl)).
  - destruct S2 as [|y l2 S2 F2]; [destruct (proj1 (E x) (or_introl eq_refl))|].
    rewrite Forall_forall in F1, F2.
    assert (x = y) as ->.
    { destruct (proj1 (E x) (or_introl eq_refl)) as [|I1]; [congruence|].
      destruct (proj2 (E y) (or_introl eq_refl)) as [|I2]; [congruence|].
      destruct (blt_irrefl (fst x)). eapply blt_trans; [apply F1 | apply F2]; assumption. }
    f_equal. apply IH; [assumption|]. intros z. split; intros I.
    + destruct (proj1 (E z) (or_intror I)) as [<-|]; [|assumption].
      destruct (blt_irrefl _ (F1 _ I)).
    + destruct (proj2 (E z) (or_intror I)) as [<-|]; [|assumption].
      destruct (blt_irrefl _ (F2 _ I)).
Qed.

(** ** Association lists

    The newest binding of a key comes first; iteration sorts. *)

Section AssocStore.
Context {V : Type}.
Implicit Types s : list (bytes * V).

Fixpoint al_get s (k : bytes) : option V :=
  match s with
  | [] => None
  | (k', v) :: s' => match bcompare k' k with Eq => Some v | _ => al_get s' k end
  end.

Definition al_delete s (k : bytes) : list (bytes * V) :=
  filter (fun kv => match bcompare k (fst kv) with Eq => false | _ => true end) s.

Fixpoint strip (p k : bytes) : option bytes :=
  match p, k with
  | [], _ => Some k
  | x :: p', y :: k' => if x =? y then strip p' k' else None
  | _ :: _, [] => None
  end.

Fixpoint al_prefix s (p : bytes) : list (bytes * V) :=
  match s with
  | [] => []
  | (k, v) :: s' =>
      match strip p k with Some k' => (k', v) :: al_prefix s' p | None => al_prefix s' p end
  end.

Fixpoint ins (kv : bytes * V) (l : list (bytes * V)) : list (bytes * V) :=
  match l with
  | [] => [kv]
  | x :: l' =>
      match bcompare (fst kv) (fst x) with
      | Lt => kv :: l
      | Eq => kv :: l'
      | Gt => x :: ins kv l'
      end
  end.

Definition canon s : list (bytes * V) := fold_right ins [] s.

Lemma ins_in kv l x :
  StronglySorted key_lt l ->
  In x (ins kv l) <-> x = kv \/ (In x l /\ fst x <> fst kv).
Proof.
  induction 1 as [|y l S IH F]; cbn [ins In]; [intuition congruence|].
  rewrite Forall_forall in F.
  destruct (bcompare (fst kv) (fst y)) eqn:C; cbn [In].
  - apply bcompare_eq in C. split.
    + intros [-> | I]; [now left|]. right. split; [now right|]. rewrite C. intros E.
      pose proof (F _ I) as L. unfold key_lt in L. rewrite E in L. now apply blt_irrefl in L.
    + intros [-> | [[-> | I] N]]; [now left | congruence | now right].
  - split.
    + intros [-> | I]; [now left|]. right. split; [assumption|]. intros E.
      assert (L : blt (fst kv) (fst x)).
      { destruct I as [<- | I]; [exact C|]. eapply blt_trans; [exact C | now apply F]. }
      rewrite E in L. now apply blt_irrefl in L.
    + intros [-> | [I N]]; auto.
  - rewrite IH. split.
    + intros [<- | [-> | [I N]]]; auto. right. split; [now left|]. intros E. rewrite E, bcompare_refl in C. discriminate.
    + intros [-> | [[<- | I] N]]; auto.
Qed.

Lemma ins_sorted kv l : StronglySorted key_lt l -> StronglySorted key_lt (ins kv l).
Proof.
  induction 1 as [|y l S IH F]; cbn [ins]; [repeat constructor|].
  destruct (bcompare (fst kv) (fst y)) eqn:C.
  - apply bcompare_eq in C. constructor; [assumption|]. revert F. apply Forall_impl.
    unfold key_lt. now rewrite C.
  - constructor; [now constructor|]. constructor; [exact C|]. revert F. apply Forall_impl.
    intros z L. eapply blt_trans; [exact C | exact L].
  - constructor; [assumption|]. apply Forall_forall. intros z I. apply (ins_in _ _ _ S) in I as [-> | [I _]].
    + unfold key_lt, blt. rewrite (bcompare_antisym (fst kv)), C. reflexivity.
    + rewrite Forall_forall in F. now apply F.
Qed.

Lemma canon_sorted s : StronglySorted key_lt (canon s).
Proof. induction s; cbn; [constructor | now apply ins_sorted]. Qed.

Lemma canon_in s k v : In (k, v) (canon s) <-> al_get s k = Some v.
Proof.
  induction s as [|[k' v'] s IH]; cbn [canon fold_right al_get]; [cbn; intuition congruence|].
  rewrite ins_in by apply canon_sorted. cbn [fst]. change (fold_right ins [] s) with (canon s). rewrite IH.
  destruct (bcompare k' k) eqn:C.
  - apply bcompare_eq in C as ->. intuition congruence.
  - assert (k <> k') by (intros ->; rewrite bcompare_refl in C; discriminate). intuition congruence.
  - assert (k <> k') by (intros ->; rewrite bcompare_refl in C; discriminate). intuition congruence.
Qed.

Lemma strip_spec p k k' : strip p k = Some k' <-> k = p ++ k'.
Proof.
  revert k; induction p as [|x p IH]; intros [|y k]; cbn; try (split; congruence).
  destruct (Z.eqb_spec x y) as [->|]; [rewrite IH|]; split; congruence.
Qed.

Lemma al_get_prefix s p k : al_get (al_prefix s p) k = al_get s (p ++ k).
Proof.
  induction s as [|[k' v] s IH]; cbn [al_prefix al_get]; [reflexivity|].
  destruct (strip p k') as [k''|] eqn:E.
  - apply strip_spec in E as ->. cbn [al_get]. now rewrite bcompare_app, IH.
  - destruct (bcompare k' (p ++ k)) eqn:C; try assumption.
    apply bcompare_eq in C. apply strip_spec in C. congruence.
Qed.

Lemma al_get_delete s k k' :
  al_get (al_delete s k) k' = match bcompare k k' with Eq => None | _ => al_get s k' end.
Proof.
  induction s as [|[k0 v] s IH]; cbn [al_delete filter al_get fst]; [now destruct (bcompare k k')|].
  change (filter _ s) with (al_delete s k).
  destruct (bcompare k k0) eqn:C0; cbn [al_get];
    [apply bcompare_eq in C0 as <-; rewrite IH; now destruct (bcompare k k') | |];
    (destruct (bcompare k0 k') eqn:C1; [apply bcompare_eq in C1 as <-; now rewrite C0 | exact IH..]).
Qed.

Lemma filter_sorted (f : bytes * V -> bool) l :
  StronglySorted key_lt l -> StronglySorted key_lt (filter f l).
Proof.
  induction 1 as [|x l S IH F]; cbn; [constructor|]. destruct (f x); [|assumption].
  constructor; [assumption|]. apply Forall_forall. intros y I. apply filter_In in I as [I _].
  rewrite Forall_forall in F. now apply F.
Qed.

#[export] Instance assoc_store : KVStore V := {|
  St := list (bytes * V);
  st_empty := [];
  st_get := al_get;
  st_set s k v := (k, v) :: s;
  st_delete := al_delete;
  st_prefix := al_prefix;
  st_iter s lo hi := filter (fun kv => in_rng lo hi (fst kv)) (canon s);
  st_riter s lo hi := rev (filter (fun kv => in_rng lo hi (fst kv)) (canon s))
|}.

#[export] Instance assoc_store_spec : KVStoreSpec assoc_store.
Proof.
  split; cbn [St st_empty st_get st_set st_delete st_prefix st_iter st_riter assoc_store]; intros; auto.
  - apply al_get_delete.
  - apply al_get_prefix.
  - apply filter_sorted, canon_sorted.
  - now rewrite filter_In, canon_in.
Qed.

End AssocStore.
