(* ===== verification/CLKeys.v ===== *)
(** * Concentrated liquidity: the keys of the tick store
    ([x/concentrated-liquidity/types/keys.go])

    Ticks are stored under a one-byte prefix, the pool id and a nine-byte
    encoding of the tick: a sign byte followed by the two's complement
    [uint64] in big-endian order.  Swaps walk the ticks with store iterators,
    so what matters is that byte order is tick order. *)

From Stdlib Require Import ZArith Lia List Bool String.
From S2P Require Import Prelude GoBig Store.
Import ListNotations.

Definition TickPrefix : bytes := [1].
Definition TickNegativePrefix : bytes := [5].
Definition TickPositivePrefix : bytes := [6].

Section Keys.
Context {B : BigEndian}.

Definition TickIndexToBytes (tickIndex : Z) : bytes :=
  if tickIndex <? 0
  then TickNegativePrefix ++ Uint64ToBigEndian (uint64 tickIndex)
  else TickPositivePrefix ++ Uint64ToBigEndian (uint64 tickIndex).

Definition TickIndexFromBytes (bz : bytes) : Res Z :=
  match bz with
  | sign :: rest =>
      if negb (Nat.eqb (List.length bz) 9) then Err "InvalidTickIndexEncodingError" else
      let i := int64 (BigEndianToUint64 rest) in
      if (sign =? 5) && (i >=? 0) then Err "InvalidTickIndexEncodingError"
      else if (sign =? 6) && (i <? 0) then Err "InvalidTickIndexEncodingError"
      else Ok i
  | [] => Err "InvalidTickIndexEncodingError"
  end.

Definition keyTickPrefixByPoolIdPrealloc (poolId : Z) : bytes :=
  TickPrefix ++ Uint64ToBigEndian poolId.

Definition KeyTickPrefixByPoolId (poolId : Z) : bytes := keyTickPrefixByPoolIdPrealloc poolId.

Definition KeyTick (poolId tickIndex : Z) : bytes :=
  keyTickPrefixByPoolIdPrealloc poolId ++ TickIndexToBytes tickIndex.

Context {BS : BigEndianSpec B}.

Definition is_int64 (t : Z) : Prop := - 2 ^ 63 <= t < 2 ^ 63.

Lemma uint64_range t : 0 <= uint64 t < 2 ^ 64.
Proof. unfold uint64. apply Z.mod_pos_bound. reflexivity. Qed.

Lemma uint64_tick t : is_int64 t -> uint64 t = if t <? 0 then t + 2 ^ 64 else t.
Proof.
  unfold is_int64, uint64. intros H. destruct (Z.ltb_spec t 0).
  - symmetry. apply Z.mod_unique with (q := -1); lia.
  - apply Z.mod_small. lia.
Qed.

Lemma int64_uint64 t : is_int64 t -> int64 (uint64 t) = t.
Proof.
  intros H. rewrite uint64_tick by assumption. unfold is_int64 in H. unfold int64.
  destruct (Z.ltb_spec t 0).
  - replace (t + 2 ^ 64 + 2 ^ 63) with (t + 2 ^ 63 + 1 * 2 ^ 64) by ring.
    rewrite Z.mod_add by discriminate. rewrite Z.mod_small by lia. lia.
  - rewrite Z.mod_small by lia. lia.
Qed.

Lemma TickIndexToBytes_compare t u :
  is_int64 t -> is_int64 u -> bcompare (TickIndexToBytes t) (TickIndexToBytes u) = Z.compare t u.
Proof.
  intros Ht Hu. unfold TickIndexToBytes.
  assert (C : bcompare (Uint64ToBigEndian (uint64 t)) (Uint64ToBigEndian (uint64 u)) =
              Z.compare (uint64 t) (uint64 u)).
  { pose proof (uint64_range t). pose proof (uint64_range u).
    rewrite bcompare_be, !Uint64ToBigEndian_value; auto using Uint64ToBigEndian_bytes.
    rewrite !Uint64ToBigEndian_length; auto. }
  rewrite (uint64_tick t), (uint64_tick u) in C |- * by assumption.
  unfold is_int64 in *. destruct (Z.ltb_spec t 0), (Z.ltb_spec u 0).
  - rewrite bcompare_app, C. rewrite !(Z.add_comm _ (2 ^ 64)). apply Z.add_compare_mono_l.
  - cbn. symmetry. apply Z.compare_lt_iff. lia.
  - cbn. symmetry. apply Z.compare_gt_iff. lia.
  - now rewrite bcompare_app, C.
Qed.

Lemma TickIndexToBytes_inj t u :
  is_int64 t -> is_int64 u -> TickIndexToBytes t = TickIndexToBytes u -> t = u.
Proof.
  intros Ht Hu E. apply Z.compare_eq. rewrite <- TickIndexToBytes_compare by assumption.
  now apply bcompare_eq.
Qed.

Lemma TickIndexFromToBytes t : is_int64 t -> TickIndexFromBytes (TickIndexToBytes t) = Ok t.
Proof.
  intros Ht. pose proof (uint64_range t) as U. unfold TickIndexToBytes.
  destruct (Z.ltb_spec t 0); unfold TickNegativePrefix, TickPositivePrefix; cbn [app TickIndexFromBytes];
    cbn [List.length]; rewrite Uint64ToBigEndian_length by assumption; cbn [Nat.eqb negb];
    rewrite BigEndianToUint64_value, Uint64ToBigEndian_value, int64_uint64
      by auto using Uint64ToBigEndian_bytes, Uint64ToBigEndian_length;
    destruct (Z.geb_spec t 0), (Z.ltb_spec t 0); cbn; try lia; reflexivity.
Qed.

(** ** Properties *)

(** C38: Byte order is tick order, across the sign change too, and decoding
    undoes encoding: the keys of two ticks of one pool compare as the ticks
    do, so a store iterator visits the ticks in order; [TickIndexFromBytes]
    recovers the tick. *)
Theorem tick_key_order_roundtrip (poolId t u : Z) :
  - 2 ^ 63 <= t < 2 ^ 63 -> - 2 ^ 63 <= u < 2 ^ 63 ->
  bcompare (KeyTick poolId t) (KeyTick poolId u) = Z.compare t u /\
  TickIndexFromBytes (TickIndexToBytes t) = Ok t /\
  (forall bz, List.length bz <> 9%nat -> TickIndexFromBytes bz = Err "InvalidTickIndexEncodingError").
Proof.
  intros Ht Hu. split; [|split].
  - unfold KeyTick. rewrite bcompare_app. now apply TickIndexToBytes_compare.
  - now apply TickIndexFromToBytes.
  - intros [|b bz] L; [reflexivity|]. unfold TickIndexFromBytes.
    destruct (Nat.eqb_spec (List.length (b :: bz)) 9); [contradiction | reflexivity].
Qed.

End Keys.

Lemma tick_key_order_roundtrip_witness :
  bcompare (KeyTick 7 (-1)) (KeyTick 7 0) = Lt /\ TickIndexFromBytes (TickIndexToBytes (-1)) = Ok (-1).
Proof.
  destruct (tick_key_order_roundtrip 7 (-1) 0) as (C & R & _); [split; vm_compute; congruence..|].
  split; [exact C | exact R].
Defined.
