(* ===== verification/SwapStrategy.v ===== *)
(** * Concentrated liquidity: swap strategies
    ([x/concentrated-liquidity/swapstrategy])

    One step of a swap moves the square-root price inside a bucket of constant
    liquidity, towards the next initialized tick or the price limit.  The Go
    interface [SwapStrategy] is the record of operations of the same name;
    [zeroForOneStrategy] and [oneForZeroStrategy] build it from the fields of
    the two Go structs.  A step returns the new square-root price, the amount
    that counts against the specified amount, the amount of the other token
    and the spread reward charge. *)

From Stdlib Require Import ZArith Lia List Bool String Sorted.
From S2P Require Import Prelude GoBig BigInt BigDec MonoSqrt SdkMath CLMath CLTick Store CLKeys.
Import ListNotations.

(** The fields of [zeroForOneStrategy] and [oneForZeroStrategy]; the two cached
    decimals are nil unless set. *)
Record strategyData : Type := {
  sqrtPriceLimit : Z;
  spreadFactor : Z;
  oneMinusSpreadFactor : option Z;
  spfOverOneMinusSpf : option Z
}.

(** sqrtPriceNext, consumed amount, computed amount, spreadRewardChargeTotal *)
Definition stepResult : Type := (Z * Z * Z * Z)%type.

Record SwapStrategy : Type := {
  ZeroForOne : bool;
  GetSqrtTargetPrice : Z -> Z;
  ComputeSwapWithinBucketOutGivenIn : Z -> Z -> Z -> Z -> Res stepResult;
  ComputeSwapWithinBucketInGivenOut : Z -> Z -> Z -> Z -> Res stepResult;
  SetLiquidityDeltaSign : Z -> Z;
  UpdateTickAfterCrossing : Z -> Z;
  ValidateSqrtPrice : Z -> Z -> Res unit
}.

Section Strategies.
Context {S : SdkMath}.

(** ** Spread rewards *)

Definition computeSpreadRewardChargeFromAmountIn (amountIn spfOverOneMinus : Z) : Res Z :=
  dec_MulRoundUp amountIn spfOverOneMinus.

Definition computeSpreadRewardChargePerSwapStepOutGivenIn
    (hasReachedTarget : bool) (amountIn amountSpecifiedRemaining spf : Z)
    (SfOveroneMinSf : unit -> Res Z) : Res Z :=
  if spf =? 0 then Ok 0
  else if spf <? 0 then Panic "spread factor must be non-negative"
  else
    spreadRewardChargeTotal <-
      (if hasReachedTarget
       then q <- SfOveroneMinSf tt ;; computeSpreadRewardChargeFromAmountIn amountIn q
       else dec_Sub amountSpecifiedRemaining amountIn) ;;
    if spreadRewardChargeTotal <? 0 then Panic "spread factor charge must be non-negative"
    else Ok spreadRewardChargeTotal.

Definition getOneMinusSpreadFactor (s : strategyData) : Res Z :=
  match oneMinusSpreadFactor s with
  | Some v => Ok v
  | None => dec_Sub OneDec (spreadFactor s)
  end.

Definition getSpfOverOneMinusSpf (s : strategyData) : Res Z :=
  match spfOverOneMinusSpf s with
  | Some v => Ok v
  | None => om <- getOneMinusSpreadFactor s ;; dec_QuoRoundUp (spreadFactor s) om
  end.

(** ** Zero for one: the price moves to the left *)

Definition zfo_GetSqrtTargetPrice (s : strategyData) (nextTickSqrtPrice : Z) : Z :=
  if LT nextTickSqrtPrice (sqrtPriceLimit s) then sqrtPriceLimit s else nextTickSqrtPrice.

Definition zfo_ComputeSwapWithinBucketOutGivenIn (s : strategyData)
    (sqrtPriceCurrent sqrtPriceTarget liquidity amountZeroInRemaining : Z) : Res stepResult :=
  liquidityBigDec <- BigDecFromDec liquidity ;;
  amountZeroIn <- CalcAmount0Delta liquidity sqrtPriceTarget sqrtPriceCurrent true ;;
  oneMinusTakerFee <- getOneMinusSpreadFactor s ;;
  let lessSpreadReward := NewBigDecFromDecMulDec amountZeroInRemaining oneMinusTakerFee in
  sqrtPriceNext <-
    (if GTE lessSpreadReward amountZeroIn then Ok sqrtPriceTarget
     else GetNextSqrtPriceFromAmount0InRoundingUp sqrtPriceCurrent liquidityBigDec lessSpreadReward) ;;
  let hasReachedTarget := Equal sqrtPriceTarget sqrtPriceNext in
  amountZeroIn <-
    (if negb hasReachedTarget
     then CalcAmount0Delta liquidity sqrtPriceNext sqrtPriceCurrent true
     else Ok amountZeroIn) ;;
  amountOneOut <- CalcAmount1Delta liquidity sqrtPriceNext sqrtPriceCurrent false ;;
  let amountZeroInFinal := DecRoundUp amountZeroIn in
  charge <- computeSpreadRewardChargePerSwapStepOutGivenIn hasReachedTarget amountZeroInFinal
              amountZeroInRemaining (spreadFactor s) (fun _ => getSpfOverOneMinusSpf s) ;;
  Ok (sqrtPriceNext, amountZeroInFinal, Dec amountOneOut, charge).

Definition zfo_ComputeSwapWithinBucketInGivenOut (s : strategyData)
    (sqrtPriceCurrent sqrtPriceTarget liquidity amountOneRemainingOut : Z) : Res stepResult :=
  amountOneRemainingOutBigDec <- BigDecFromDec amountOneRemainingOut ;;
  amountOneOut <- CalcAmount1Delta liquidity sqrtPriceTarget sqrtPriceCurrent false ;;
  sqrtPriceNext <-
    (if GTE amountOneRemainingOutBigDec amountOneOut then Ok sqrtPriceTarget
     else GetNextSqrtPriceFromAmount1OutRoundingDown sqrtPriceCurrent liquidity amountOneRemainingOutBigDec) ;;
  let hasReachedTarget := Equal sqrtPriceTarget sqrtPriceNext in
  amountOneOut <-
    (if negb hasReachedTarget
     then CalcAmount1Delta liquidity sqrtPriceNext sqrtPriceCurrent false
     else Ok amountOneOut) ;;
  amountZeroIn <- CalcAmount0Delta liquidity sqrtPriceNext sqrtPriceCurrent true ;;
  let amountZeroInFinal := DecRoundUp amountZeroIn in
  q <- getSpfOverOneMinusSpf s ;;
  charge <- computeSpreadRewardChargeFromAmountIn amountZeroInFinal q ;;
  let amountOneOut :=
    if GT amountOneOut amountOneRemainingOutBigDec then amountOneRemainingOutBigDec else amountOneOut in
  Ok (sqrtPriceNext, Dec amountOneOut, amountZeroInFinal, charge).

Definition zfo_ValidateSqrtPrice (sqrtPrice currentSqrtPrice : Z) : Res unit :=
  if GT sqrtPrice currentSqrtPrice || LT sqrtPrice MinSqrtPriceBigDec
  then Err "SqrtPriceValidationError" else Ok tt.

Definition zeroForOneStrategy (s : strategyData) : SwapStrategy := {|
  ZeroForOne := true;
  GetSqrtTargetPrice := zfo_GetSqrtTargetPrice s;
  ComputeSwapWithinBucketOutGivenIn := zfo_ComputeSwapWithinBucketOutGivenIn s;
  ComputeSwapWithinBucketInGivenOut := zfo_ComputeSwapWithinBucketInGivenOut s;
  SetLiquidityDeltaSign d := - d;
  UpdateTickAfterCrossing nextTick := int64 (nextTick - 1);
  ValidateSqrtPrice := zfo_ValidateSqrtPrice
|}.

(** ** One for zero: the price moves to the right *)

Definition ofz_GetSqrtTargetPrice (s : strategyData) (nextTickSqrtPrice : Z) : Z :=
  if GT nextTickSqrtPrice (sqrtPriceLimit s) then sqrtPriceLimit s else nextTickSqrtPrice.

Definition ofz_ComputeSwapWithinBucketOutGivenIn (s : strategyData)
    (sqrtPriceCurrent sqrtPriceTarget liquidity amountOneInRemaining : Z) : Res stepResult :=
  amountOneIn <- CalcAmount1Delta liquidity sqrtPriceTarget sqrtPriceCurrent true ;;
  oneMinusTakerFee <- getOneMinusSpreadFactor s ;;
  let lessSpreadReward := NewBigDecFromDecMulDec amountOneInRemaining oneMinusTakerFee in
  sqrtPriceNext <-
    (if GTE lessSpreadReward amountOneIn then Ok sqrtPriceTarget
     else GetNextSqrtPriceFromAmount1InRoundingDown sqrtPriceCurrent liquidity lessSpreadReward) ;;
  let hasReachedTarget := Equal sqrtPriceTarget sqrtPriceNext in
  amountOneIn <-
    (if negb hasReachedTarget
     then CalcAmount1Delta liquidity sqrtPriceNext sqrtPriceCurrent true
     else Ok amountOneIn) ;;
  amountZeroOut <- CalcAmount0Delta liquidity sqrtPriceNext sqrtPriceCurrent false ;;
  let amountInDecFinal := DecRoundUp amountOneIn in
  charge <- computeSpreadRewardChargePerSwapStepOutGivenIn hasReachedTarget amountInDecFinal
              amountOneInRemaining (spreadFactor s) (fun _ => getSpfOverOneMinusSpf s) ;;
  Ok (sqrtPriceNext, amountInDecFinal, Dec amountZeroOut, charge).

Definition ofz_ComputeSwapWithinBucketInGivenOut (s : strategyData)
    (sqrtPriceCurrent sqrtPriceTarget liquidity amountZeroRemainingOut : Z) : Res stepResult :=
  liquidityBigDec <- BigDecFromDec liquidity ;;
  amountZeroRemainingOutBigDec <- BigDecFromDec amountZeroRemainingOut ;;
  amountZeroOut <- CalcAmount0Delta liquidity sqrtPriceTarget sqrtPriceCurrent false ;;
  sqrtPriceNext <-
    (if GTE amountZeroRemainingOutBigDec amountZeroOut then Ok sqrtPriceTarget
     else GetNextSqrtPriceFromAmount0OutRoundingUp sqrtPriceCurrent liquidityBigDec amountZeroRemainingOut) ;;
  let hasReachedTarget := Equal sqrtPriceTarget sqrtPriceNext in
  amountZeroOut <-
    (if negb hasReachedTarget
     then CalcAmount0Delta liquidity sqrtPriceNext sqrtPriceCurrent false
     else Ok amountZeroOut) ;;
  amountOneIn <- CalcAmount1Delta liquidity sqrtPriceNext sqrtPriceCurrent true ;;
  let amountOneInFinal := DecRoundUp amountOneIn in
  q <- getSpfOverOneMinusSpf s ;;
  charge <- computeSpreadRewardChargeFromAmountIn amountOneInFinal q ;;
  let amountZeroOut :=
    if GT amountZeroOut amountZeroRemainingOutBigDec then amountZeroRemainingOutBigDec else amountZeroOut in
  Ok (sqrtPriceNext, Dec amountZeroOut, amountOneInFinal, charge).

Definition ofz_ValidateSqrtPrice (sqrtPrice currentSqrtPrice : Z) : Res unit :=
  if LT sqrtPrice currentSqrtPrice || GT sqrtPrice MaxSqrtPriceBigDec
  then Err "SqrtPriceValidationError" else Ok tt.

Definition oneForZeroStrategy (s : strategyData) : SwapStrategy := {|
  ZeroForOne := false;
  GetSqrtTargetPrice := ofz_GetSqrtTargetPrice s;
  ComputeSwapWithinBucketOutGivenIn := ofz_ComputeSwapWithinBucketOutGivenIn s;
  ComputeSwapWithinBucketInGivenOut := ofz_ComputeSwapWithinBucketInGivenOut s;
  SetLiquidityDeltaSign d := d;
  UpdateTickAfterCrossing nextTick := nextTick;
  ValidateSqrtPrice := ofz_ValidateSqrtPrice
|}.

(** ** Construction and price limits ([swap_strategy.go]) *)

Definition New (zeroForOne : bool) (limit spf : Z) : SwapStrategy :=
  let d := {| sqrtPriceLimit := limit; spreadFactor := spf;
              oneMinusSpreadFactor := None; spfOverOneMinusSpf := None |} in
  if zeroForOne then zeroForOneStrategy d else oneForZeroStrategy d.

End Strategies.

Definition GetPriceLimit (zeroForOne : bool) : Z :=
  if zeroForOne then MinSpotPriceBigDec else MaxSpotPriceBigDec.

Definition GetSqrtPriceLimit (priceLimit : Z) (zeroForOne : bool) : Res Z :=
  if IsZero priceLimit then Ok (if zeroForOne then MinSqrtPriceBigDec else MaxSqrtPriceBigDec)
  else if LT priceLimit MinSpotPriceV2 || GT priceLimit MaxSpotPriceBigDec then Err "PriceBoundError"
  else if GTE priceLimit MinSpotPriceBigDec then
    r <- MonotonicSqrtMut (Dec priceLimit) ;; BigDecFromDecMut r
  else MonotonicSqrtBigDec priceLimit.

(** ** The tick iterators *)

Section Iterators.
Context {V : Type} {K : KVStore V} {B : BigEndian}.

(** The loop [for ; iter.Valid(); iter.Next()] that both strategies run: it
    stops at the first tick that satisfies [stop]. *)
Fixpoint seek (stop : Z -> bool) (entries : list (bytes * V)) : Res (list (bytes * V)) :=
  match entries with
  | [] => Ok []
  | (k, _) :: rest =>
      match TickIndexFromBytes k with
      | Ok tick => if stop tick then Ok entries else seek stop rest
      | _ => Panic "invalid tick index"
      end
  end.

Definition zfo_InitializeNextTickIterator (store : St) (poolId currentTickIndex : Z) :
    Res (list (bytes * V)) :=
  let prefixStore := st_prefix store (KeyTickPrefixByPoolId poolId) in
  let startKey := TickIndexToBytes (int64 (currentTickIndex + 1)) in
  seek (fun tick => tick <=? currentTickIndex) (st_riter prefixStore None (Some startKey)).

Definition ofz_InitializeNextTickIterator (store : St) (poolId currentTickIndex : Z) :
    Res (list (bytes * V)) :=
  let prefixStore := st_prefix store (KeyTickPrefixByPoolId poolId) in
  let startKey := TickIndexToBytes currentTickIndex in
  seek (fun tick => tick >? currentTickIndex) (st_iter prefixStore (Some startKey) None).

Context {KS : KVStoreSpec K} {BS : BigEndianSpec B}.

Definition enc (tv : Z * V) : bytes * V := (TickIndexToBytes (fst tv), snd tv).

(** Every key under the pool's tick prefix is the encoding of a tick, as
    [SetTickInfo] leaves it. *)
Definition ticks_wf (store : St) (poolId : Z) : Prop :=
  forall k v, st_get (st_prefix store (KeyTickPrefixByPoolId poolId)) k = Some v ->
    exists t, is_int64 t /\ k = TickIndexToBytes t.

Definition tick_lt (x y : Z * V) : Prop := fst x < fst y.

Lemma decode_entries l :
  StronglySorted key_lt l ->
  (forall k v, In (k, v) l -> exists t, is_int64 t /\ k = TickIndexToBytes t) ->
  exists ts, l = map enc ts /\ StronglySorted tick_lt ts /\ Forall (fun tv => is_int64 (fst tv)) ts.
Proof.
  induction 1 as [|[k v] l Sl IH F]; intros H.
  - exists []. repeat constructor.
  - destruct IH as (ts & E & S' & I'); [intros; apply (H k0 v0); now right|].
    destruct (H k v) as (t & It & ->); [now left|].
    exists ((t, v) :: ts). cbn [map]. split; [now rewrite E|]. split; [|now constructor].
    constructor; [assumption|]. rewrite Forall_forall in *. intros [u w] Hu.
    assert (L : key_lt (TickIndexToBytes t, v) (enc (u, w))) by (apply F; rewrite E; now apply in_map).
    unfold key_lt, blt, enc in L. cbn [fst] in L. unfold tick_lt. cbn [fst].
    rewrite TickIndexToBytes_compare in L; [now apply Z.compare_lt_iff | assumption | now apply (I' (u, w))].
Qed.

Lemma enc_in ts t v :
  is_int64 t -> Forall (fun tv => is_int64 (fst tv)) ts ->
  In (TickIndexToBytes t, v) (map enc ts) <-> In (t, v) ts.
Proof.
  intros It F. rewrite in_map_iff. split.
  - intros ([u w] & E & I). rewrite Forall_forall in F. pose proof (F _ I) as Iu. cbn [fst] in Iu.
    injection E as E1 E2. cbn [fst snd] in *.
    apply TickIndexToBytes_inj in E1; [congruence | assumption..].
  - intros I. now exists (t, v).
Qed.

Lemma seek_first stop ts :
  Forall (fun tv => is_int64 (fst tv)) ts ->
  (forall t v ts', ts = (t, v) :: ts' -> stop t = true) ->
  seek stop (map enc ts) = Ok (map enc ts).
Proof.
  intros F H. destruct ts as [|[t v] ts]; [reflexivity|]. cbn [map seek enc fst snd].
  inversion F as [|? ? It _]; subst. cbn [fst] in It. rewrite (TickIndexFromToBytes t It).
  now rewrite (H t v ts eq_refl).
Qed.

Lemma StronglySorted_rev {A} (R : A -> A -> Prop) l :
  StronglySorted R l -> StronglySorted (fun x y => R y x) (rev l).
Proof.
  induction 1 as [|a l Sl IH F]; cbn [rev]; [constructor|]. rewrite Forall_forall in F.
  assert (F' : Forall (fun x => R a x) (rev l)).
  { apply Forall_forall. intros x I. apply F. now apply in_rev. }
  clear Sl F. induction IH as [|b l' S' IH' Fb]; cbn [app]; [repeat constructor|].
  inversion F' as [|? ? Ra Fa]; subst. constructor; [now apply IH'|].
  apply Forall_app. split; [assumption | now repeat constructor].
Qed.

(** What the pool's iterator enumerates, as ticks. *)
Lemma tick_range store poolId lo hi :
  ticks_wf store poolId ->
  exists ts, st_iter (st_prefix store (KeyTickPrefixByPoolId poolId)) lo hi = map enc ts /\
    StronglySorted tick_lt ts /\ Forall (fun tv => is_int64 (fst tv)) ts /\
    forall t v, is_int64 t ->
      (In (t, v) ts <-> st_get store (KeyTick poolId t) = Some v /\ in_rng lo hi (TickIndexToBytes t) = true).
Proof.
  intros W. destruct (decode_entries (st_iter (st_prefix store (KeyTickPrefixByPoolId poolId)) lo hi))
    as (ts & E & Srt & I).
  - apply st_iter_sorted.
  - intros k v H. apply st_iter_in in H as [H _]. exact (W k v H).
  - exists ts. repeat split; auto; [rewrite <- enc_in in H0; auto; rewrite <- E in H0;
      apply st_iter_in in H0 as [G R]; rewrite ?st_get_prefix in G; auto..|].
    intros [G R]. apply enc_in; auto. rewrite <- E. apply st_iter_in. now rewrite st_get_prefix.
Qed.

Lemma rng_below t u : is_int64 t -> is_int64 u ->
  in_rng None (Some (TickIndexToBytes u)) (TickIndexToBytes t) = (t <? u).
Proof.
  intros. unfold in_rng, bltb. cbn [andb]. rewrite TickIndexToBytes_compare by assumption. reflexivity.
Qed.

Lemma rng_from t u : is_int64 t -> is_int64 u ->
  in_rng (Some (TickIndexToBytes u)) None (TickIndexToBytes t) = (u <=? t).
Proof.
  intros. unfold in_rng, bleb. rewrite TickIndexToBytes_compare by assumption. rewrite andb_true_r. reflexivity.
Qed.

Lemma left_ticks store poolId cur :
  ticks_wf store poolId -> - 2 ^ 63 <= cur < 2 ^ 63 - 1 ->
  exists left,
    zfo_InitializeNextTickIterator store poolId cur = Ok (map enc left) /\
    StronglySorted (fun x y => tick_lt y x) left /\
    (forall t v, is_int64 t ->
       (In (t, v) left <-> st_get store (KeyTick poolId t) = Some v /\ t <= cur)) /\
    Forall (fun tv => is_int64 (fst tv)) left.
Proof.
  intros W Hc. assert (Ic1 : is_int64 (cur + 1)) by (unfold is_int64; lia).
  destruct (tick_range store poolId None (Some (TickIndexToBytes (cur + 1))) W) as (ls & El & Sl & Il & Ml).
  assert (Ml' : forall t v, is_int64 t -> (In (t, v) ls <-> st_get store (KeyTick poolId t) = Some v /\ t <= cur)).
  { intros t v It. rewrite Ml, rng_below by assumption. split; intros [G R]; split; auto; lia. }
  exists (rev ls). split; [|split; [now apply StronglySorted_rev | split; [|now apply Forall_rev]]].
  - unfold zfo_InitializeNextTickIterator.
    rewrite st_riter_rev, int64_id, El, <- map_rev by (unfold is_int64 in *; lia).
    apply seek_first; [now apply Forall_rev|]. intros t v ts' E.
    assert (I : In (t, v) ls) by (apply in_rev; rewrite E; now left).
    rewrite Forall_forall in Il. pose proof (Il _ I) as It. apply (Ml' t v It) in I. lia.
  - intros t v It. rewrite <- in_rev. now apply Ml'.
Qed.

Lemma right_ticks store poolId cur :
  ticks_wf store poolId -> - 2 ^ 63 <= cur < 2 ^ 63 ->
  exists right,
    ofz_InitializeNextTickIterator store poolId cur = Ok (map enc right) /\
    StronglySorted tick_lt right /\
    (forall t v, is_int64 t ->
       (In (t, v) right <-> st_get store (KeyTick poolId t) = Some v /\ cur < t)) /\
    Forall (fun tv => is_int64 (fst tv)) right.
Proof.
  intros W Ic. unfold ofz_InitializeNextTickIterator.
  destruct (tick_range store poolId (Some (TickIndexToBytes cur)) None W) as (rs & Er & Sr & Ir & Mr).
  assert (Mr' : forall t v, is_int64 t -> (In (t, v) rs <-> st_get store (KeyTick poolId t) = Some v /\ cur <= t)).
  { intros t v It. rewrite Mr, rng_from by assumption. split; intros [G R]; split; auto; lia. }
  rewrite Er. clear Mr Er. destruct rs as [|[t0 v0] rs].
  { exists []. split; [reflexivity|]. split; [constructor|]. split; [|constructor]. intros t v It.
    split; [intros [] | intros [G L]; apply (proj2 (Mr' t v It)); split; [exact G | lia]]. }
  inversion Sr as [|? ? Sr' Fr]; subst. inversion Ir as [|? ? It0 Ir']; subst. cbn [fst] in It0.
  rewrite Forall_forall in Fr. pose proof (proj1 (Mr' t0 v0 It0) (or_introl eq_refl)) as [G0 L0].
  assert (Frt : forall t v, In (t, v) rs -> t0 < t) by (intros t v I; exact (Fr _ I)).
  destruct (Z.eqb_spec t0 cur) as [-> | Ne].
  - exists rs. split; [|split; [assumption | split; [|assumption]]].
    + cbn [map seek enc fst snd]. rewrite (TickIndexFromToBytes cur Ic).
      destruct (Z.gtb_spec cur cur); [lia|]. apply seek_first; [assumption|].
      intros t v ts' ->. specialize (Frt t v (or_introl eq_refl)). lia.
    + intros t v It. split.
      * intros I. split; [apply (Mr' t v It); now right | now apply (Frt t v)].
      * intros [G L]. destruct (proj2 (Mr' t v It)) as [E | I]; [split; [exact G | lia] | | exact I].
        injection E as E _. lia.
  - exists ((t0, v0) :: rs). split; [|split; [assumption | split; [|assumption]]].
    + apply seek_first; [assumption|]. intros t v ts' E. injection E as <- _ _. lia.
    + intros t v It. rewrite (Mr' t v It). split; intros [G L]; split; auto; [|lia].
      destruct (Z.eq_dec t cur) as [-> |]; [|lia].
      destruct (proj2 (Mr' cur v Ic)) as [E | I]; [split; [exact G | lia] | congruence |].
      specialize (Frt _ _ I). lia.
Qed.

(** C37: From the current tick the zero-for-one iterator yields exactly the
    initialized ticks of the pool at or below it, in decreasing order, and the
    one-for-zero iterator exactly those strictly above it, in increasing
    order; neither panics on a well-formed tick store.  No tick of another pool
    is seen and none is seen twice. *)
Theorem next_tick_iterators (store : St) (poolId cur : Z) :
  ticks_wf store poolId -> - 2 ^ 63 <= cur < 2 ^ 63 - 1 ->
  exists left right,
    zfo_InitializeNextTickIterator store poolId cur = Ok (map enc left) /\
    StronglySorted (fun x y => tick_lt y x) left /\
    (forall t v, is_int64 t ->
       (In (t, v) left <-> st_get store (KeyTick poolId t) = Some v /\ t <= cur)) /\
    ofz_InitializeNextTickIterator store poolId cur = Ok (map enc right) /\
    StronglySorted tick_lt right /\
    (forall t v, is_int64 t ->
       (In (t, v) right <-> st_get store (KeyTick poolId t) = Some v /\ cur < t)).
Proof.
  intros W Hc. destruct (left_ticks store poolId cur W Hc) as (ls & Hl).
  destruct (right_ticks store poolId cur W ltac:(lia)) as (rs & Hr).
  exists ls, rs. tauto.
Qed.

End Iterators.

Lemma next_tick_iterators_witness :
  exists left right,
    zfo_InitializeNextTickIterator [(KeyTick 1 (-10), 7); (KeyTick 1 20, 8); (KeyTick 2 5, 9)] 1 0 = Ok (map enc left) /\
    ofz_InitializeNextTickIterator [(KeyTick 1 (-10), 7); (KeyTick 1 20, 8); (KeyTick 2 5, 9)] 1 0 = Ok (map enc right).
Proof.
  assert (W : ticks_wf (K := assoc_store) [(KeyTick 1 (-10), 7); (KeyTick 1 20, 8); (KeyTick 2 5, 9)] 1).
  { intros k v H. apply canon_in in H. vm_compute in H. destruct H as [H | [H | []]]; injection H as <- _.
    - exists (-10). split; [split; vm_compute; congruence | reflexivity].
    - exists 20. split; [split; vm_compute; congruence | reflexivity]. }
  destruct (next_tick_iterators (K := assoc_store) _ 1 0 W) as (l & r & Hl & _ & _ & Hr & _);
    [split; vm_compute; congruence|].
  exists l, r. exact (conj Hl Hr).
Defined.
