(* ===== verification/SwapStep.v ===== *)
(** * Concentrated liquidity: what one swap step guarantees

    Theorems about the four [ComputeSwapWithinBucket...] operations of
    [SwapStrategy]: amounts are rounded in the pool's favour, the spread reward
    covers the spread factor, the price stays on its side, and the cases in
    which a step panics or goes past its target are characterised exactly.
    In integers: [l] is liquidity (18 decimals), square-root prices have 36
    decimals, amounts 18, so the exact amount of token 0 between [p] and [q] is
    [l*|p-q|*10^36 / (p*q)] and of token 1 [l*|p-q| / 10^36]. *)

From Stdlib Require Import ZArith Lia List Bool String.
From S2P Require Import Prelude GoBig BigInt BigDec SdkMath CLMath SwapStrategy.
Import ListNotations.

(** The strategy data [New] builds: nothing cached. *)
Definition fresh (limit spf : Z) : strategyData :=
  {| sqrtPriceLimit := limit; spreadFactor := spf;
     oneMinusSpreadFactor := None; spfOverOneMinusSpf := None |}.

(** [amt] covers, resp. does not exceed, the exact amount of token 0 or 1. *)
Definition covers0 (l p q amt : Z) : Prop := l * Z.abs (p - q) * 10 ^ 36 <= amt * (p * q).
Definition within0 (l p q amt : Z) : Prop := amt * (p * q) <= l * Z.abs (p - q) * 10 ^ 36.
Definition within1 (l p q amt : Z) : Prop := amt * 10 ^ 36 <= l * Z.abs (p - q).
(** Up to half a unit of the last of 36 decimals. *)
Definition nearly_covers1 (l p q amt : Z) : Prop :=
  2 * l * Z.abs (p - q) <= 2 * amt * 10 ^ 36 + 10 ^ 18.

(** The spread reward charged on [amt]: at least the fraction [spf/(1-spf)] of
    it (up to [amt * 10^-36]), zero without a spread factor. *)
Definition fee_covers (spf amt ch : Z) : Prop :=
  0 <= ch /\ (spf = 0 -> ch = 0) /\ amt * spf * 10 ^ 36 <= (ch * 10 ^ 36 + amt) * (OneDec - spf).

(** ** Whole-token amounts and the bounds of each side *)

Lemma DecRoundUp_tokens u : DecRoundUp (u * defaultBigDecPrecisionReuse) = u * OneDec.
Proof.
  unfold DecRoundUp. change defaultBigDecPrecisionReuse with (OneDec * OneDec).
  change bigDecDecPrecisionFactorDiff with OneDec. rewrite Z.mul_assoc.
  rewrite Z.rem_mul, Z.quot_mul by discriminate. reflexivity.
Qed.

Lemma covers0_up l a b u :
  0 < a -> 0 < b -> amt0_up l (Z.min a b) (Z.max a b) = u * defaultBigDecPrecisionReuse ->
  covers0 l b a (u * OneDec).
Proof.
  intros Ha Hb E. pose proof (amt0_up_bracket l a b Ha Hb) as [L _]. rewrite E in L.
  unfold covers0. change defaultBigDecPrecisionReuse with (OneDec * OneDec) in L.
  change (10 ^ 54) with (OneDec * OneDec * OneDec) in L. change (10 ^ 36) with (OneDec * OneDec).
  apply (Z.mul_le_mono_pos_r _ _ OneDec OneDec_pos). lia.
Qed.

Lemma within1_down l a b :
  0 <= l -> within1 l b a (Dec (amt1_down l (Z.abs (b - a)))) /\ 0 <= Dec (amt1_down l (Z.abs (b - a))).
Proof.
  intros Hl. pose proof (amt1_down_bracket l (Z.abs (b - a))) as [L _].
  assert (N : 0 <= amt1_down l (Z.abs (b - a))) by (apply Z.div_pos; [nia | reflexivity]).
  rewrite Dec_nonneg by assumption. unfold within1. change (10 ^ 36) with (OneDec * OneDec).
  change (10 ^ 18) with OneDec in L. change precisionReuseSDKDec with OneDec.
  pose proof (div_spec (amt1_down l (Z.abs (b - a))) OneDec OneDec_pos) as [D _].
  pose proof OneDec_pos. split; [nia | apply Z.div_pos; lia].
Qed.

Lemma amt0_up_tokens l lo hi : exists u, amt0_up l lo hi = u * defaultBigDecPrecisionReuse.
Proof. unfold amt0_up. eexists. reflexivity. Qed.

Lemma amt1_up_tokens l x : exists u, amt1_up l x = u * defaultBigDecPrecisionReuse.
Proof. unfold amt1_up. eexists. reflexivity. Qed.

Lemma up_amount_bound l cur next x :
  0 <= l -> 10 ^ 30 <= cur -> 0 < next <= cur ->
  l * (cur - next) * 10 ^ 54 <= x * (cur * next) ->
  amt0_up l (Z.min next cur) (Z.max next cur) < x + 10 ^ 43.
Proof.
  intros Hl Hc Hn H. pose proof (amt0_up_bracket l next cur ltac:(lia) ltac:(lia)) as [_ U].
  rewrite Z.abs_eq in U by lia. rewrite Z.max_r in U |- * by lia. rewrite Z.min_l in U |- * by lia.
  rewrite (Z.mul_comm next cur) in U. set (cn := cur * next) in *.
  assert (C : cur <= cn) by (unfold cn; nia). clearbody cn.
  apply (Z.mul_lt_mono_pos_r cn); [lia|]. set (up := amt0_up l next cur) in *. clearbody up. lia.
Qed.

Lemma amt0_up_zero lo hi : amt0_up 0 lo hi = 0.
Proof. unfold amt0_up. rewrite Z.mul_0_r. reflexivity. Qed.

Lemma amt0_down_zero lo hi : amt0_down 0 lo hi = 0.
Proof. unfold amt0_down. rewrite Z.mul_0_r. reflexivity. Qed.

(** The amount in of the step, recomputed when the target was not reached. *)
Lemma recompute_up0 (f : Z -> Res Z) tgt next v w :
  (tgt = next -> v = w) -> f next = Ok w ->
  (if negb (Equal tgt next) then f next else Ok v) = Ok w.
Proof. unfold Equal. intros E F. destruct (Z.eqb_spec tgt next); cbn [negb]; [f_equal; auto | exact F]. Qed.

Lemma within0_down l a b :
  0 <= l -> 0 < a -> 0 < b ->
  within0 l b a (Dec (amt0_down l (Z.min a b) (Z.max a b))) /\ 0 <= Dec (amt0_down l (Z.min a b) (Z.max a b)).
Proof.
  intros Hl Ha Hb. pose proof (amt0_down_bracket l a b Ha Hb) as [L _].
  assert (N : 0 <= amt0_down l (Z.min a b) (Z.max a b)).
  { unfold amt0_down. pose proof prec_pos. pose proof sdk_prec_pos.
    assert (0 <= (Z.max a b - Z.min a b) * l / precisionReuseSDKDec) by (apply Z.div_pos; nia).
    assert (0 <= (Z.max a b - Z.min a b) * l / precisionReuseSDKDec * defaultBigDecPrecisionReuse / Z.max a b)
      by (apply Z.div_pos; nia).
    apply Z.div_pos; nia. }
  rewrite Dec_nonneg by assumption. set (x := amt0_down l (Z.min a b) (Z.max a b)) in *.
  unfold within0. change precisionReuseSDKDec with OneDec.
  pose proof (div_spec x OneDec OneDec_pos) as [D _]. pose proof OneDec_pos as O.
  split; [|apply Z.div_pos; lia]. change (10 ^ 54) with (OneDec * OneDec * OneDec) in L.
  change (10 ^ 36) with (OneDec * OneDec). apply (Z.mul_le_mono_pos_r _ _ OneDec O).
  assert (OneDec * (x / OneDec) * (a * b) <= x * (a * b)) by (apply Z.mul_le_mono_nonneg_r; nia). lia.
Qed.

Lemma nearly_covers1_up l a b u :
  amt1_up l (Z.abs (b - a)) = u * defaultBigDecPrecisionReuse -> nearly_covers1 l b a (u * OneDec).
Proof.
  intros E. pose proof (amt1_up_bracket l (Z.abs (b - a))) as [L _]. rewrite E in L. unfold nearly_covers1.
  change defaultBigDecPrecisionReuse with (OneDec * OneDec) in L. change (10 ^ 36) with (OneDec * OneDec).
  change (10 ^ 18) with OneDec in *. lia.
Qed.

Lemma amt1_up_zero x : amt1_up 0 x = 0.
Proof. unfold amt1_up. rewrite Z.mul_0_r. reflexivity. Qed.

Lemma capped_out w rem :
  0 <= w -> 0 <= rem ->
  let out := Dec (if GT w (rem * precisionReuseSDKDec) then rem * precisionReuseSDKDec else w) in
  0 <= out <= rem /\ out <= Dec w /\ (rem * precisionReuseSDKDec <= w -> out = rem).
Proof.
  intros Hw Hr out. subst out. pose proof sdk_prec_pos as P. unfold GT.
  rewrite (Dec_nonneg w Hw). pose proof (div_spec w precisionReuseSDKDec P) as D.
  destruct (Z.gtb_spec w (rem * precisionReuseSDKDec)).
  - rewrite Dec_of_Dec. nia.
  - rewrite (Dec_nonneg w Hw). pose proof (Z.div_pos w precisionReuseSDKDec Hw P).
    split; [nia|]. split; [lia|]. intros. nia.
Qed.

(** The denominator [L - x*p] of the next price stays a good fraction of
    [L*p/t], so the next price stays within a fixed factor of the target. *)
Lemma ofz_out_denominator cur tgt l rem :
  0 < cur <= tgt -> 10 * tgt <= l * 10 ^ 18 * cur ->
  rem * precisionReuseSDKDec < amt0_down l cur tgt -> 0 <= rem -> 0 < l ->
  let w := cdiv (cur * rem) precisionReuseSDKDec in
  w < l * 10 ^ 18 /\ 9 * (l * 10 ^ 18 * cur) <= 10 * (tgt * (l * 10 ^ 18 - w)).
Proof.
  intros Hc Hl Hx Hr Pl w. pose proof (amt0_down_bracket l cur tgt ltac:(lia) ltac:(lia)) as [D _].
  rewrite Z.min_l, Z.max_r, Z.abs_eq in D by lia.
  pose proof (cdiv_spec (cur * rem) precisionReuseSDKDec sdk_prec_pos) as [C1 _]. fold w in C1.
  change precisionReuseSDKDec with (10 ^ 18) in *.
  change (10 ^ 54) with (10 ^ 18 * 10 ^ 18 * 10 ^ 18) in D.
  assert (Pp : 0 < 10 ^ 18) by reflexivity. set (p := 10 ^ 18) in *.
  assert (X : rem * p * (cur * tgt) <= l * (tgt - cur) * (p * p * p)).
  { apply Z.le_trans with (amt0_down l cur tgt * (cur * tgt)); [|lia].
    apply Z.mul_le_mono_nonneg_r; nia. }
  assert (X' : rem * cur * tgt <= l * (tgt - cur) * (p * p)).
  { apply (Z.mul_le_mono_pos_r _ _ p Pp). lia. }
  assert (Y : p * (w - 1) * tgt <= l * (tgt - cur) * (p * p)) by nia.
  assert (Y' : (w - 1) * tgt <= l * (tgt - cur) * p).
  { apply (Z.mul_le_mono_pos_r _ _ p Pp). lia. }
  split; nia.
Qed.

Section Steps.
Context {S : SdkMath} {SS : SdkMathSpec S}.
Variables limit spf : Z.
Hypothesis Hspf : 0 <= spf <= 5 * 10 ^ 17.
Let d := fresh limit spf.

Lemma oneMinus_ok : getOneMinusSpreadFactor d = Ok (OneDec - spf).
Proof.
  unfold getOneMinusSpreadFactor. cbn [oneMinusSpreadFactor spreadFactor d fresh].
  apply dec_Sub_total. unfold sdk_fits, OneDec.
  apply Z.le_lt_trans with (10 ^ 18); [lia | reflexivity].
Qed.

Lemma ratio_ok :
  exists q, getSpfOverOneMinusSpf d = Ok q /\ 0 <= q <= 10 ^ 18 /\
    spf * 10 ^ 36 < (q * OneDec + 1) * (OneDec - spf) /\ (q - 1) * (OneDec - spf) < spf * OneDec.
Proof.
  assert (E : getSpfOverOneMinusSpf d = dec_QuoRoundUp spf (OneDec - spf)).
  { unfold getSpfOverOneMinusSpf. cbn [spfOverOneMinusSpf d fresh]. now rewrite oneMinus_ok. }
  rewrite E. assert (P : 0 < OneDec - spf) by (unfold OneDec; lia).
  pose proof (dec_QuoRoundUp_total spf (OneDec - spf) ltac:(lia) P) as T.
  destruct (dec_QuoRoundUp spf (OneDec - spf)) as [q| |] eqn:Q;
    [|specialize (T ltac:(unfold sdk_fits; apply Z.le_lt_trans with (5 * 10 ^ 17 * 10 ^ 36); [lia | reflexivity])); discriminate..].
  destruct (dec_QuoRoundUp_bound spf (OneDec - spf) q ltac:(lia) P Q) as [L U].
  exists q. split; [reflexivity|]. split; [|now split]. unfold OneDec in *. split; nia.
Qed.

Lemma charge_from_amount amt q :
  0 <= amt < 10 ^ 94 -> 0 <= q <= 10 ^ 18 ->
  exists ch, computeSpreadRewardChargeFromAmountIn amt q = Ok ch /\
    amt * q <= ch * OneDec < amt * q + OneDec.
Proof.
  intros Ha Hq. unfold computeSpreadRewardChargeFromAmountIn.
  assert (F : sdk_fits (cdiv (amt * q) OneDec)).
  { unfold sdk_fits. pose proof (cdiv_nonneg (amt * q) OneDec OneDec_pos ltac:(nia)).
    pose proof (cdiv_spec (amt * q) OneDec OneDec_pos).
    apply Z.le_lt_trans with (10 ^ 94 + 1); [|reflexivity]. unfold OneDec in *.
    assert (amt * q <= 10 ^ 94 * 10 ^ 18) by (apply Z.mul_le_mono_nonneg; lia). lia. }
  pose proof (dec_MulRoundUp_total amt q ltac:(lia) ltac:(lia) F) as T.
  destruct (dec_MulRoundUp amt q) as [ch| |] eqn:Q; try discriminate.
  exists ch. split; [reflexivity|]. exact (dec_MulRoundUp_bound amt q ch ltac:(lia) ltac:(lia) Q).
Qed.

(** The bounds on the charge that follow from its two roundings. *)
Lemma fee_lower amt q ch :
  0 <= amt -> spf * 10 ^ 36 < (q * OneDec + 1) * (OneDec - spf) -> amt * q <= ch * OneDec ->
  amt * spf * 10 ^ 36 <= (ch * 10 ^ 36 + amt) * (OneDec - spf).
Proof.
  change (10 ^ 36) with (OneDec * OneDec). intros Ha L H.
  assert (P : 0 < OneDec - spf) by (unfold OneDec; lia).
  assert (amt * (spf * (OneDec * OneDec)) <= amt * ((q * OneDec + 1) * (OneDec - spf)))
    by (apply Z.mul_le_mono_nonneg_l; lia).
  assert (amt * q * (OneDec * (OneDec - spf)) <= ch * OneDec * (OneDec * (OneDec - spf)))
    by (apply Z.mul_le_mono_nonneg_r; [pose proof OneDec_pos; nia | exact H]).
  nia.
Qed.

Lemma fee_upper amt rem q ch :
  0 <= amt -> (q - 1) * (OneDec - spf) < spf * OneDec -> ch * OneDec < amt * q + OneDec ->
  amt * OneDec <= rem * (OneDec - spf) -> (amt + ch - rem) * OneDec < amt + OneDec.
Proof.
  intros Ha L H R. assert (P : 0 < OneDec - spf) by (unfold OneDec; lia).
  pose proof OneDec_pos as O. set (o := OneDec) in *. set (m := o - spf) in *.
  assert (Es : spf = o - m) by (unfold m; lia). clearbody m. rewrite Es in *.
  assert (amt * ((q - 1) * m) <= amt * ((o - m) * o)) by (apply Z.mul_le_mono_nonneg_l; lia).
  assert (ch * o * m < (amt * q + o) * m) by (apply Z.mul_lt_mono_pos_r; lia).
  assert (amt * o * o <= rem * m * o) by (apply Z.mul_le_mono_nonneg_r; lia).
  apply (Z.mul_lt_mono_pos_r m); [assumption|]. nia.
Qed.

Lemma charge_reached amt rem :
  0 <= amt < 10 ^ 94 ->
  exists ch,
    computeSpreadRewardChargePerSwapStepOutGivenIn true amt rem spf (fun _ => getSpfOverOneMinusSpf d) = Ok ch /\
    fee_covers spf amt ch /\
    (amt * OneDec <= rem * (OneDec - spf) -> (amt + ch - rem) * OneDec < amt + OneDec).
Proof.
  intros Ha. unfold computeSpreadRewardChargePerSwapStepOutGivenIn, fee_covers.
  destruct (Z.eqb_spec spf 0) as [Z0 | NZ].
  - exists 0. split; [reflexivity|]. pose proof OneDec_pos. rewrite Z0 in *. split; [lia|]. nia.
  - destruct (Z.ltb_spec spf 0); [lia|].
    destruct ratio_ok as (q & -> & Hq & L & U). rewrite bind_ok.
    destruct (charge_from_amount amt q Ha Hq) as (ch & -> & Hc). rewrite bind_ok.
    assert (0 <= ch) by (pose proof OneDec_pos; nia).
    destruct (Z.ltb_spec ch 0); [lia|]. exists ch. split; [reflexivity|]. split.
    + split; [assumption|]. split; [lia|]. apply (fee_lower amt q ch); [lia | exact L | apply Hc].
    + intros R. apply (fee_upper amt rem q ch); [lia | exact U | apply Hc | exact R].
Qed.

Lemma charge_rest amt rem :
  0 <= amt < 10 ^ 94 -> 0 <= rem < 10 ^ 94 ->
  computeSpreadRewardChargePerSwapStepOutGivenIn false amt rem spf (fun _ => getSpfOverOneMinusSpf d) =
  if spf =? 0 then Ok 0
  else if rem <? amt then Panic "spread factor charge must be non-negative"
  else Ok (rem - amt).
Proof.
  intros Ha Hr. unfold computeSpreadRewardChargePerSwapStepOutGivenIn.
  destruct (Z.eqb_spec spf 0); [reflexivity|]. destruct (Z.ltb_spec spf 0); [lia|].
  rewrite dec_Sub_total by (unfold sdk_fits; apply Z.lt_trans with (10 ^ 94); [lia | reflexivity]).
  rewrite bind_ok. destruct (Z.ltb_spec (rem - amt) 0), (Z.ltb_spec rem amt); try lia; reflexivity.
Qed.

(** What the charge of an exact-in step satisfies: without a spread factor it
    is zero; at the target it covers the spread factor; short of the target it
    is whatever remains; and the step takes more than what remains by less than
    one unit of the last decimal per token and one more, whenever the amount
    fits in what remains after the spread factor. *)
Definition step_fee (spf : Z) (reached : bool) (amt rem ch : Z) : Prop :=
  0 <= ch /\ (spf = 0 -> ch = 0) /\ (reached = true -> fee_covers spf amt ch) /\
  (reached = false -> 0 < spf -> amt + ch = rem) /\
  (amt * OneDec <= rem * (OneDec - spf) -> (amt + ch - rem) * OneDec < amt + OneDec).

(** The step panics although the charge was meant never to be negative. *)
Definition short_of_amount (spf : Z) (reached : bool) (amt rem : Z) : Prop :=
  reached = false /\ 0 < spf /\ rem < amt.

Lemma charge_cases reached amt rem :
  0 <= amt < 10 ^ 94 -> 0 <= rem < 10 ^ 94 ->
  let c := computeSpreadRewardChargePerSwapStepOutGivenIn reached amt rem spf (fun _ => getSpfOverOneMinusSpf d) in
  (short_of_amount spf reached amt rem -> c = Panic "spread factor charge must be non-negative") /\
  (~ short_of_amount spf reached amt rem -> exists ch, c = Ok ch /\ step_fee spf reached amt rem ch).
Proof.
  intros Ha Hr c. unfold short_of_amount, step_fee. pose proof OneDec_pos as O.
  destruct reached; subst c.
  - split; [intros [E _]; discriminate|]. intros _.
    destruct (charge_reached amt rem Ha) as (ch & E & F & U). exists ch.
    split; [exact E|]. split; [apply F|]. split; [apply F|]. split; [auto|]. split; [discriminate | exact U].
  - rewrite (charge_rest amt rem Ha Hr). destruct (Z.eqb_spec spf 0) as [Z0 | NZ].
    + split; [intros (_ & H & _); lia|]. intros _. exists 0. split; [reflexivity|].
      rewrite Z0. split; [lia|]. split; [lia|]. split; [discriminate|]. split; [lia|]. nia.
    + destruct (Z.ltb_spec rem amt).
      * split; [reflexivity|]. intros N. exfalso. apply N. split; [reflexivity|]. lia.
      * split; [intros (_ & _ & H'); lia|]. intros _. exists (rem - amt). split; [reflexivity|].
        split; [lia|]. split; [lia|]. split; [discriminate|]. split; [lia|]. intros _. nia.
Qed.

(** *** Exact-in steps, zero for one *)

Lemma x_bounds rem : 2 <= rem < 10 ^ 93 -> 10 ^ 18 <= rem * (OneDec - spf) <= 10 ^ 93 * 10 ^ 18.
Proof.
  intros H. unfold OneDec. split; [|apply Z.mul_le_mono_nonneg; lia].
  change (10 ^ 18) with (2 * (5 * 10 ^ 17)) at 1. apply Z.mul_le_mono_nonneg; lia.
Qed.

(** The price a step reaches: the target, when what remains after the spread
    factor covers the amount to it, else the price at which that is used up,
    rounded up. *)
Definition zfo_in_price (cur tgt l rem : Z) : Z :=
  let x := rem * (OneDec - spf) in if amt0_up l tgt cur <=? x then tgt else next0_in cur (l * 10 ^ 18) x.

Lemma zfo_next cur tgt l rem :
  10 ^ 30 <= cur <= 10 ^ 55 -> 0 < tgt <= cur -> 0 <= l < 10 ^ 95 -> 2 <= rem < 10 ^ 93 ->
  let x := rem * (OneDec - spf) in let a := amt0_up l (Z.min tgt cur) (Z.max tgt cur) in
  exists next, next = zfo_in_price cur tgt l rem /\
    (if GTE x a then Ok tgt
     else GetNextSqrtPriceFromAmount0InRoundingUp cur (l * precisionReuseSDKDec) x) = Ok next /\
    0 < next <= cur /\ 0 <= amt0_up l (Z.min next cur) (Z.max next cur) < 10 ^ 94 * 10 ^ 18 /\
    (a <= x -> next = tgt).
Proof.
  intros Hc Ht Hl Hr x a. pose proof (x_bounds rem Hr) as Hx. fold x in Hx.
  assert (A0 : forall n, 0 < n <= cur -> 0 <= amt0_up l (Z.min n cur) (Z.max n cur))
    by (intros n Hn; apply amt0_up_nonneg; lia).
  unfold zfo_in_price. fold x. replace (amt0_up l tgt cur) with a by (unfold a; now rewrite Z.min_l, Z.max_r by lia).
  unfold GTE. rewrite Z.geb_leb. destruct (Z.leb_spec a x) as [G | L].
  - exists tgt. split; [reflexivity|]. split; [reflexivity|]. split; [lia|]. split; [|auto]. split; [now apply A0|].
    apply Z.le_lt_trans with x; [exact G | lia].
  - assert (Pl : 0 < l).
    { destruct (Z.eq_dec l 0) as [-> |]; [|lia]. exfalso. unfold a in L.
      rewrite amt0_up_zero in L. lia. }
    change precisionReuseSDKDec with (10 ^ 18).
    pose proof (next0_in_bracket cur (l * 10 ^ 18) x ltac:(lia) ltac:(lia) ltac:(lia)) as [B1 B2].
    rewrite next0_in_ok; [| unfold price_dom; lia | unfold amount_dom; lia | unfold amount_dom; lia | lia..].
    exists (next0_in cur (l * 10 ^ 18) x). split; [reflexivity|]. split; [reflexivity|].
    specialize (B2 ltac:(lia) ltac:(lia)). set (next := next0_in cur (l * 10 ^ 18) x) in *.
    assert (Pn : 0 < next).
    { apply Z.lt_nge. intros N. assert (0 < l * 10 ^ 18 * cur * 10 ^ 36) by lia.
      assert (0 < x * cur + l * 10 ^ 18 * 10 ^ 36) by nia. nia. }
    split; [lia|]. split; [|intros; lia]. split; [apply A0; lia|].
    apply Z.lt_trans with (x + 10 ^ 43); [|lia].
    apply up_amount_bound; [lia..|].
    change (10 ^ 54) with (10 ^ 18 * 10 ^ 36). set (p18 := 10 ^ 18) in *. set (p36 := 10 ^ 36) in *. nia.
Qed.

(** The step once its next price is known. *)
Lemma zfo_exact_in_eq cur tgt l rem next :
  price_dom cur -> price_dom tgt -> 0 <= l < 10 ^ 95 -> price_dom next ->
  (if GTE (rem * (OneDec - spf)) (amt0_up l (Z.min tgt cur) (Z.max tgt cur)) then Ok tgt
   else GetNextSqrtPriceFromAmount0InRoundingUp cur (l * precisionReuseSDKDec) (rem * (OneDec - spf))) = Ok next ->
  let amt := DecRoundUp (amt0_up l (Z.min next cur) (Z.max next cur)) in
  zfo_ComputeSwapWithinBucketOutGivenIn d cur tgt l rem =
  (ch <- computeSpreadRewardChargePerSwapStepOutGivenIn (tgt =? next) amt rem spf
           (fun _ => getSpfOverOneMinusSpf d) ;;
   Ok (next, amt, Dec (amt1_down l (Z.abs (cur - next))), ch)).
Proof.
  intros Dc Dt Hl Dn En amt. unfold zfo_ComputeSwapWithinBucketOutGivenIn.
  rewrite BigDecFromDec_ok, bind_ok, (CalcAmount0Delta_up_ok l tgt cur Hl Dt Dc), bind_ok, oneMinus_ok, bind_ok.
  unfold NewBigDecFromDecMulDec. rewrite En, bind_ok.
  erewrite (recompute_up0 (fun n => CalcAmount0Delta l n cur true)); [| |apply (CalcAmount0Delta_up_ok l next cur Hl Dn Dc)];
    [|now intros -> ]. now rewrite bind_ok, (CalcAmount1Delta_down_ok l next cur Hl Dn Dc), bind_ok.
Qed.

Lemma zfo_exact_in_cases cur tgt l rem next amt :
  price_dom cur -> price_dom tgt -> 0 <= l < 10 ^ 95 -> price_dom next ->
  (if GTE (rem * (OneDec - spf)) (amt0_up l (Z.min tgt cur) (Z.max tgt cur)) then Ok tgt
   else GetNextSqrtPriceFromAmount0InRoundingUp cur (l * precisionReuseSDKDec) (rem * (OneDec - spf))) = Ok next ->
  DecRoundUp (amt0_up l (Z.min next cur) (Z.max next cur)) = amt -> 0 <= amt < 10 ^ 94 -> 0 <= rem < 10 ^ 94 ->
  let step := zfo_ComputeSwapWithinBucketOutGivenIn d cur tgt l rem in
  (short_of_amount spf (tgt =? next) amt rem -> step = Panic "spread factor charge must be non-negative") /\
  (~ short_of_amount spf (tgt =? next) amt rem -> exists ch,
     computeSpreadRewardChargePerSwapStepOutGivenIn (tgt =? next) amt rem spf (fun _ => getSpfOverOneMinusSpf d) = Ok ch /\
     step = Ok (next, amt, Dec (amt1_down l (Z.abs (cur - next))), ch) /\ step_fee spf (tgt =? next) amt rem ch).
Proof.
  intros Dc Dt Hl Dn En Ea Ha Hr step. subst step.
  rewrite (zfo_exact_in_eq cur tgt l rem next Dc Dt Hl Dn En), Ea.
  destruct (charge_cases (tgt =? next) amt rem Ha Hr) as [C1 C2]. split.
  - intros H. now rewrite (C1 H).
  - intros H. destruct (C2 H) as (ch & E & F). exists ch. rewrite E. auto.
Qed.

(** At the target the charge is a rounded-up multiple of the rounded-up ratio. *)
Lemma charge_reached_ratio amt rem ch :
  0 <= amt < 10 ^ 94 -> 0 < spf ->
  computeSpreadRewardChargePerSwapStepOutGivenIn true amt rem spf (fun _ => getSpfOverOneMinusSpf d) = Ok ch ->
  exists q, spf * 10 ^ 36 < (q * OneDec + 1) * (OneDec - spf) /\ amt * q <= ch * OneDec.
Proof.
  intros Ha Hs. unfold computeSpreadRewardChargePerSwapStepOutGivenIn.
  destruct (Z.eqb_spec spf 0); [lia|]. destruct (Z.ltb_spec spf 0); [lia|].
  destruct ratio_ok as (q & -> & Hq & L & _). rewrite bind_ok.
  destruct (charge_from_amount amt q Ha Hq) as (c & -> & Hc). rewrite bind_ok.
  destruct (Z.ltb_spec c 0); [discriminate|]. intros E. apply Ok_inj in E as <-. exists q. split; [exact L | apply Hc].
Qed.

(** C28: an exact-in step of token 0 for token 1 (prices of the chain's range,
    a spread factor of at most one half, liquidity below 10^95 and amounts below
    10^93 in units of 10^-18).  Its price [next], its amount in [amt] and its
    amount out [out] are those of the closed forms: the target when what
    remains after the spread factor covers the amount to it, else the price where
    that is used up; whole tokens that cover the exact amount for the move; and
    at most the exact amount.  The step panics if and only if [next] is not the
    target, there is a spread factor and [amt] is above what remains; otherwise
    it returns these three and a charge: at the target it covers the spread
    factor, short of it the step takes exactly what remained. *)
Theorem zfo_exact_in_step (cur tgt l rem : Z) :
  10 ^ 30 <= cur <= 10 ^ 55 -> 0 < tgt <= cur -> 0 <= l < 10 ^ 95 -> 2 <= rem < 10 ^ 93 ->
  let step := zfo_ComputeSwapWithinBucketOutGivenIn (fresh limit spf) cur tgt l rem in
  let next := zfo_in_price cur tgt l rem in
  let amt := DecRoundUp (amt0_up l next cur) in
  let out := Dec (amt1_down l (cur - next)) in
  (0 < next <= cur /\ (OneDec | amt) /\ 0 <= amt /\ covers0 l cur next amt /\ 0 <= out /\ within1 l cur next out) /\
  (short_of_amount spf (tgt =? next) amt rem <-> step = Panic "spread factor charge must be non-negative") /\
  (~ short_of_amount spf (tgt =? next) amt rem ->
     exists ch, step = Ok (next, amt, out, ch) /\ step_fee spf (tgt =? next) amt rem ch).
Proof.
  intros Hc Ht Hl Hr step next amt out.
  assert (Dc : price_dom cur) by (unfold price_dom; lia).
  assert (Dt : price_dom tgt) by (unfold price_dom; lia).
  destruct (zfo_next cur tgt l rem Hc Ht Hl Hr) as (n & -> & En & Hn & Ha & _). fold next in En, Hn, Ha.
  assert (Dn : price_dom next) by (unfold price_dom; lia).
  destruct (amt0_up_tokens l (Z.min next cur) (Z.max next cur)) as (u & Eu).
  pose proof (within1_down l next cur ltac:(lia)) as [W1 W0].
  assert (Hu : 0 <= u * OneDec < 10 ^ 94).
  { rewrite Eu in Ha. change defaultBigDecPrecisionReuse with (OneDec * OneDec) in Ha. unfold OneDec in *. lia. }
  assert (Eq : DecRoundUp (amt0_up l (Z.min next cur) (Z.max next cur)) = u * OneDec) by (rewrite Eu; apply DecRoundUp_tokens).
  assert (Ea : amt = u * OneDec) by (rewrite <- Eq; unfold amt; now rewrite Z.min_l, Z.max_r by lia).
  assert (Eo : out = Dec (amt1_down l (Z.abs (cur - next)))) by (unfold out; now rewrite Z.abs_eq by lia). clearbody amt out. subst amt out.
  destruct (zfo_exact_in_cases cur tgt l rem next _ Dc Dt Hl Dn En Eq Hu ltac:(lia)) as [C1 C2]. clearbody next. split.
  - split; [lia|]. split; [apply Z.divide_factor_r|]. split; [lia|].
    split; [now apply (covers0_up l next cur); [lia..|]|]. split; [exact W0 | exact W1].
  - assert (Dec1 : short_of_amount spf (tgt =? next) (u * OneDec) rem \/ ~ short_of_amount spf (tgt =? next) (u * OneDec) rem).
    { unfold short_of_amount. destruct (tgt =? next); [right; intros [X _]; discriminate X|].
      destruct (Z_lt_dec 0 spf), (Z_lt_dec rem (u * OneDec)); [left; auto | right; intros (_ & ? & ?); lia..]. }
    split; [split; [exact C1|]|].
    + intros P. destruct Dec1 as [|N]; [assumption|]. destruct (C2 N) as (ch & _ & E & _). pose proof (eq_trans (eq_sym E) P) as X. discriminate X.
    + intros H. destruct (C2 H) as (ch & _ & E & F). exists ch. split; [exact E | exact F].
Qed.

(** *** Exact-in steps, one for zero *)

Lemma ofz_next cur tgt l rem :
  0 < cur <= tgt -> tgt <= 10 ^ 55 -> 0 <= l < 10 ^ 95 -> 2 <= rem < 10 ^ 93 ->
  let x := rem * (OneDec - spf) in let a := amt1_up l (Z.abs (cur - tgt)) in
  exists next,
    (if GTE x a then Ok tgt
     else GetNextSqrtPriceFromAmount1InRoundingDown cur l x) = Ok next /\
    cur <= next <= 10 ^ 56 /\ 0 <= amt1_up l (Z.abs (cur - next)) < 10 ^ 94 * 10 ^ 18 /\
    (a <= x -> next = tgt).
Proof.
  intros Hc Ht Hl Hr x a. pose proof (x_bounds rem Hr) as Hx. fold x in Hx.
  unfold GTE. destruct (Z.geb_spec x a) as [G | L].
  - exists tgt. split; [reflexivity|]. split; [lia|]. split; [|auto].
    split; [apply amt1_up_nonneg; lia|]. apply Z.le_lt_trans with x; [exact G | lia].
  - assert (Pl : 0 < l).
    { destruct (Z.eq_dec l 0) as [-> |]; [|lia]. exfalso. unfold a in L. rewrite amt1_up_zero in L. lia. }
    rewrite next1_in_ok; [| unfold price_dom; lia | lia | unfold amount_dom; lia].
    exists (x * precisionReuseSDKDec / l + cur). split; [reflexivity|].
    pose proof (div_spec (x * precisionReuseSDKDec) l Pl) as [D _].
    pose proof (Z.div_pos (x * precisionReuseSDKDec) l ltac:(change precisionReuseSDKDec with (10 ^ 18); lia) Pl) as V0.
    set (v := x * precisionReuseSDKDec / l) in *. change precisionReuseSDKDec with (10 ^ 18) in D.
    pose proof (amt1_up_bracket l (Z.abs (cur - tgt))) as [_ U]. fold a in U.
    pose proof (amt1_up_bracket l (Z.abs (cur - (v + cur)))) as [_ U'].
    replace (Z.abs (cur - (v + cur))) with v in * by lia.
    assert (B : v <= 10 ^ 55 + 2 * 10 ^ 54).
    { replace (Z.abs (cur - tgt)) with (tgt - cur) in U by lia.
      assert (l * v < l * (tgt - cur + 10 ^ 18 + 10 ^ 54)) by lia.
      apply Z.mul_lt_mono_pos_l in H; lia. }
    split; [lia|]. split; [|intros; lia]. split; [apply amt1_up_nonneg; lia | lia].
Qed.

(** An exact-in step of token 1 for token 0.  It ends at a square-root
    price at or above the current one; the amount of token 1 taken is a whole
    number of tokens, at least the exact amount for the move up to half of the
    last of 36 decimals, and the amount of token 0 given is at most the exact
    amount; the charge and the one panicking case are as for the other
    direction. *)
Theorem ofz_exact_in_step (cur tgt l rem : Z) :
  0 < cur <= tgt -> tgt <= 10 ^ 55 -> 0 <= l < 10 ^ 95 -> 2 <= rem < 10 ^ 93 ->
  let step := ofz_ComputeSwapWithinBucketOutGivenIn (fresh limit spf) cur tgt l rem in
  exists next amt out,
    cur <= next <= 10 ^ 56 /\ (OneDec | amt) /\ 0 <= amt /\ nearly_covers1 l cur next amt /\
    0 <= out /\ within0 l cur next out /\
    (short_of_amount spf (tgt =? next) amt rem -> step = Panic "spread factor charge must be non-negative") /\
    (~ short_of_amount spf (tgt =? next) amt rem ->
       exists ch, step = Ok (next, amt, out, ch) /\ step_fee spf (tgt =? next) amt rem ch).
Proof.
  intros Hc Ht Hl Hr step.
  assert (Dc : price_dom cur) by (unfold price_dom; lia).
  assert (Dt : price_dom tgt) by (unfold price_dom; lia).
  destruct (ofz_next cur tgt l rem Hc Ht Hl Hr) as (next & En & Hn & Ha & _).
  assert (Dn : price_dom next) by (unfold price_dom; lia).
  destruct (amt1_up_tokens l (Z.abs (cur - next))) as (u & Eu).
  pose proof (within0_down l next cur ltac:(lia) ltac:(lia) ltac:(lia)) as [W1 W0].
  exists next, (u * OneDec), (Dec (amt0_down l (Z.min next cur) (Z.max next cur))).
  assert (Hu : 0 <= u * OneDec < 10 ^ 94).
  { rewrite Eu in Ha. change defaultBigDecPrecisionReuse with (OneDec * OneDec) in Ha. unfold OneDec in *. lia. }
  destruct (charge_cases (tgt =? next) (u * OneDec) rem Hu ltac:(lia)) as [C1 C2].
  assert (St : step = ch <- computeSpreadRewardChargePerSwapStepOutGivenIn (tgt =? next) (u * OneDec) rem spf
                              (fun _ => getSpfOverOneMinusSpf d) ;;
                      Ok (next, u * OneDec, Dec (amt0_down l (Z.min next cur) (Z.max next cur)), ch)).
  { subst step. unfold ofz_ComputeSwapWithinBucketOutGivenIn. fold d.
    rewrite (CalcAmount1Delta_up_ok l tgt cur Hl Dt Dc), bind_ok, oneMinus_ok, bind_ok.
    unfold NewBigDecFromDecMulDec. rewrite En, bind_ok.
    erewrite (recompute_up0 (fun n => CalcAmount1Delta l n cur true)); [| |apply (CalcAmount1Delta_up_ok l next cur Hl Dn Dc)];
      [|now intros -> ]. rewrite bind_ok, (CalcAmount0Delta_down_ok l next cur Hl Dn Dc), bind_ok, Eu, DecRoundUp_tokens.
    reflexivity. }
  rewrite St. split; [lia|]. split; [apply Z.divide_factor_r|]. split; [lia|].
  split; [now apply nearly_covers1_up|]. split; [exact W0|]. split; [exact W1|]. split.
  - intros H. now rewrite (C1 H).
  - intros H. destruct (C2 H) as (ch & -> & F). exists ch. split; [reflexivity | exact F].
Qed.

(** *** Exact-out steps *)

Lemma charge_out amt :
  0 <= amt < 10 ^ 94 ->
  exists q ch, getSpfOverOneMinusSpf d = Ok q /\ computeSpreadRewardChargeFromAmountIn amt q = Ok ch /\
    0 <= ch /\ amt * spf * 10 ^ 36 <= (ch * 10 ^ 36 + amt) * (OneDec - spf).
Proof.
  intros Ha. destruct ratio_ok as (q & Eq & Hq & L & _).
  destruct (charge_from_amount amt q Ha Hq) as (ch & Ec & Hc). exists q, ch. split; [exact Eq|]. split; [exact Ec|].
  pose proof OneDec_pos. split; [nia|]. apply (fee_lower amt q ch); [lia | exact L | apply Hc].
Qed.

Lemma zfo_out_next cur tgt l rem :
  0 < tgt <= cur -> cur <= 10 ^ 55 -> 0 <= l < 10 ^ 95 -> 0 <= rem < 10 ^ 94 ->
  let x := rem * precisionReuseSDKDec in let a := amt1_down l (Z.abs (cur - tgt)) in
  exists next,
    (if GTE x a then Ok tgt else GetNextSqrtPriceFromAmount1OutRoundingDown cur l x) = Ok next /\
    tgt <= next <= cur /\ (a <= x -> next = tgt) /\ (x < a -> x <= amt1_down l (Z.abs (cur - next))).
Proof.
  intros Ht Hc Hl Hr x a. assert (Hx : 0 <= x <= 10 ^ 94 * 10 ^ 18) by (apply mul_dom; [lia | split; vm_compute; discriminate]).
  pose proof (amt1_down_bracket l (Z.abs (cur - tgt))) as [A _]. fold a in A.
  unfold GTE. destruct (Z.geb_spec x a) as [G | L].
  - exists tgt. split; [reflexivity|]. split; [lia|]. split; [auto | intros; lia].
  - assert (Pl : 0 < l) by nia.
    rewrite next1_out_ok; [| unfold price_dom; lia | lia | unfold amount_dom; lia].
    pose proof (cdiv_spec (x * precisionReuseSDKDec) l Pl) as [C1 C2].
    pose proof (cdiv_nonneg (x * precisionReuseSDKDec) l Pl ltac:(change precisionReuseSDKDec with (10 ^ 18); lia)) as V0.
    set (v := cdiv (x * precisionReuseSDKDec) l) in *. change precisionReuseSDKDec with (10 ^ 18) in C1, C2.
    replace (Z.abs (cur - tgt)) with (cur - tgt) in A by lia.
    assert (V : v <= cur - tgt).
    { assert (l * (v - 1) < l * (cur - tgt)) by lia. apply Z.mul_lt_mono_pos_l in H; lia. }
    exists (cur - v). split; [reflexivity|]. split; [lia|]. split; [intros; lia|]. intros _.
    replace (Z.abs (cur - (cur - v))) with v by lia.
    apply Z.div_le_lower_bound; [apply sdk_prec_pos|]. change precisionReuseSDKDec with (10 ^ 18). lia.
Qed.

(** an exact-out step of token 0 for token 1.  It ends between the target
    and the current square-root price and never gives more than what remains:
    exactly what remains when the bucket can provide it, and otherwise the step
    reaches the target.  The amount of token 0 taken is a whole number of
    tokens that covers the exact amount for the move, and the charge covers
    the spread factor on it; the step returns unless the amount in is at the
    limit of the decimals. *)
Theorem zfo_exact_out_step (cur tgt l rem : Z) :
  0 < tgt <= cur -> cur <= 10 ^ 55 -> 0 <= l < 10 ^ 95 -> 0 <= rem < 10 ^ 94 ->
  exists next out amt,
    tgt <= next <= cur /\ 0 <= out <= rem /\ within1 l cur next out /\
    (next <> tgt -> out = rem) /\ (OneDec | amt) /\ 0 <= amt /\ covers0 l cur next amt /\
    (amt < 10 ^ 94 -> exists ch,
       zfo_ComputeSwapWithinBucketInGivenOut (fresh limit spf) cur tgt l rem = Ok (next, out, amt, ch) /\
       0 <= ch /\ amt * spf * 10 ^ 36 <= (ch * 10 ^ 36 + amt) * (OneDec - spf)).
Proof.
  intros Ht Hc Hl Hr.
  assert (Dc : price_dom cur) by (unfold price_dom; lia).
  assert (Dt : price_dom tgt) by (unfold price_dom; lia).
  destruct (zfo_out_next cur tgt l rem Ht Hc Hl Hr) as (next & En & Hn & Reach & Short).
  assert (Dn : price_dom next) by (unfold price_dom; lia).
  destruct (amt0_up_tokens l (Z.min next cur) (Z.max next cur)) as (u & Eu).
  pose proof (within1_down l next cur ltac:(lia)) as [W1 W0].
  set (w := amt1_down l (Z.abs (cur - next))) in *.
  assert (Hw : 0 <= w) by (apply Z.div_pos; [nia | reflexivity]).
  destruct (capped_out w rem Hw ltac:(lia)) as (O1 & O2 & O3).
  exists next, (Dec (if GT w (rem * precisionReuseSDKDec) then rem * precisionReuseSDKDec else w)), (u * OneDec).
  assert (Hu : 0 <= u * OneDec).
  { pose proof (amt0_up_nonneg l (Z.min next cur) (Z.max next cur) ltac:(lia) ltac:(lia)) as A.
    rewrite Eu in A. change defaultBigDecPrecisionReuse with (OneDec * OneDec) in A. unfold OneDec in *. lia. }
  split; [lia|]. split; [exact O1|]. split; [unfold within1 in *; lia|].
  split; [intros N; apply O3, Short; destruct (Z.le_gt_cases (amt1_down l (Z.abs (cur - tgt))) (rem * precisionReuseSDKDec)); [contradict N; auto | assumption]|].
  split; [apply Z.divide_factor_r|]. split; [lia|]. split; [now apply (covers0_up l next cur); [lia..|]|].
  intros Hu'. destruct (charge_out (u * OneDec) ltac:(lia)) as (q & ch & Eq & Ec & Fc). exists ch. split; [|exact Fc].
  unfold zfo_ComputeSwapWithinBucketInGivenOut. fold d.
  rewrite BigDecFromDec_ok, bind_ok, (CalcAmount1Delta_down_ok l tgt cur Hl Dt Dc), bind_ok, En, bind_ok.
  erewrite (recompute_up0 (fun n => CalcAmount1Delta l n cur false)); [| |apply (CalcAmount1Delta_down_ok l next cur Hl Dn Dc)];
    [|now intros -> ]. rewrite bind_ok, (CalcAmount0Delta_up_ok l next cur Hl Dn Dc), bind_ok, Eu, DecRoundUp_tokens.
  rewrite Eq, bind_ok, Ec. reflexivity.
Qed.

Lemma ofz_out_next cur tgt l rem :
  10 ^ 30 <= cur <= tgt -> tgt <= 10 ^ 55 -> 0 <= l < 10 ^ 95 -> 0 <= rem < 10 ^ 94 ->
  (l = 0 \/ 10 * tgt <= l * 10 ^ 18 * cur) ->
  let x := rem * precisionReuseSDKDec in let a := amt0_down l (Z.min tgt cur) (Z.max tgt cur) in
  exists next,
    (if GTE x a then Ok tgt
     else GetNextSqrtPriceFromAmount0OutRoundingUp cur (l * precisionReuseSDKDec) rem) = Ok next /\
    cur <= next <= 10 ^ 56 /\ (a <= x -> next = tgt).
Proof.
  intros Hc Ht Hl Hr Hll x a. unfold GTE. destruct (Z.geb_spec x a) as [G | L].
  - exists tgt. split; [reflexivity|]. split; [lia | auto].
  - assert (Pl : 0 < l).
    { destruct (Z.eq_dec l 0) as [-> |]; [|lia]. exfalso. unfold a in L. rewrite amt0_down_zero in L.
      subst x. change precisionReuseSDKDec with (10 ^ 18) in L. lia. }
    destruct Hll as [|Hll]; [lia|]. pose proof L as L'. unfold a in L'. rewrite Z.min_r, Z.max_l in L' by lia.
    destruct (ofz_out_denominator cur tgt l rem ltac:(lia) Hll L' ltac:(lia) Pl) as [W1 W2].
    destruct (Z.eq_dec rem 0) as [-> | Nr].
    { exists cur. split; [reflexivity|]. split; [lia|]. intros; lia. }
    change (l * precisionReuseSDKDec) with (l * 10 ^ 18).
    rewrite next0_out_ok; [| unfold price_dom; lia | unfold amount_dom; lia | unfold amount_dom; lia | lia..].
    pose proof (next0_out_bracket cur (l * 10 ^ 18) rem ltac:(lia) ltac:(lia) W1) as [_ B].
    exists (next0_out cur (l * 10 ^ 18) rem). split; [reflexivity|]. split; [|intros; lia].
    split; [exact B|]. unfold next0_out.
    set (den := l * 10 ^ 18 - cdiv (cur * rem) precisionReuseSDKDec) in *.
    pose proof (cdiv_spec (l * 10 ^ 18 * cur) defaultBigDecPrecisionReuse prec_pos) as [N1 _].
    set (n := cdiv (l * 10 ^ 18 * cur) defaultBigDecPrecisionReuse) in *.
    pose proof (cdiv_spec (n * defaultBigDecPrecisionReuse) den ltac:(lia)) as [R1 _].
    set (r := cdiv (n * defaultBigDecPrecisionReuse) den) in *.
    change defaultBigDecPrecisionReuse with (10 ^ 36) in *. assert (Pd : 0 < den) by lia.
    set (m := l * 10 ^ 18 * cur) in *. clearbody m r n den.
    assert (den * (r - 1) < m + 10 ^ 36) by lia.
    assert (9 * (den * (r - 1)) < den * (10 * tgt) + 9 * 10 ^ 36) by lia.
    assert (den * (9 * (r - 1) - 10 * tgt - 9 * 10 ^ 36) < 0) by nia.
    assert (9 * (r - 1) - 10 * tgt - 9 * 10 ^ 36 < 0) by nia. lia.
Qed.

(** An exact-out step of token 1 for token 0.  It ends at a square-root
    price at or above the current one and never gives more than what remains
    nor more than the exact amount of token 0 for the move; the amount of token
    1 taken is a whole number of tokens, at least the exact amount up to half
    of the last of 36 decimals, and the charge covers the spread factor on it.
    The step returns when the bucket is not nearly empty and the amount in is
    not at the limit of the decimals. *)
Theorem ofz_exact_out_step (cur tgt l rem : Z) :
  10 ^ 30 <= cur <= tgt -> tgt <= 10 ^ 55 -> 0 <= l < 10 ^ 95 -> 0 <= rem < 10 ^ 94 ->
  (l = 0 \/ 10 * tgt <= l * 10 ^ 18 * cur) ->
  exists next out amt,
    cur <= next <= 10 ^ 56 /\ 0 <= out <= rem /\ within0 l cur next out /\
    (OneDec | amt) /\ 0 <= amt /\ nearly_covers1 l cur next amt /\
    (amt < 10 ^ 94 -> exists ch,
       ofz_ComputeSwapWithinBucketInGivenOut (fresh limit spf) cur tgt l rem = Ok (next, out, amt, ch) /\
       0 <= ch /\ amt * spf * 10 ^ 36 <= (ch * 10 ^ 36 + amt) * (OneDec - spf)).
Proof.
  intros Hc Ht Hl Hr Hll.
  assert (Dc : price_dom cur) by (unfold price_dom; lia).
  assert (Dt : price_dom tgt) by (unfold price_dom; lia).
  destruct (ofz_out_next cur tgt l rem Hc Ht Hl Hr Hll) as (next & En & Hn & _).
  assert (Dn : price_dom next) by (unfold price_dom; lia).
  destruct (amt1_up_tokens l (Z.abs (cur - next))) as (u & Eu).
  pose proof (within0_down l next cur ltac:(lia) ltac:(lia) ltac:(lia)) as [W1 W0].
  set (w := amt0_down l (Z.min next cur) (Z.max next cur)) in *.
  assert (Hw : 0 <= w) by (subst w; unfold amt0_down; repeat (apply Z.div_pos || apply Z.mul_nonneg_nonneg); try lia; try discriminate; reflexivity).
  destruct (capped_out w rem Hw ltac:(lia)) as (O1 & O2 & _).
  exists next, (Dec (if GT w (rem * precisionReuseSDKDec) then rem * precisionReuseSDKDec else w)), (u * OneDec).
  assert (Hu : 0 <= u * OneDec).
  { pose proof (amt1_up_nonneg l (Z.abs (cur - next)) ltac:(lia) ltac:(lia)) as A.
    rewrite Eu in A. change defaultBigDecPrecisionReuse with (OneDec * OneDec) in A. unfold OneDec in *. lia. }
  split; [lia|]. split; [exact O1|]. split; [apply Z.le_trans with (Dec w * (cur * next)); [apply Z.mul_le_mono_nonneg_r; nia | exact W1]|].
  split; [apply Z.divide_factor_r|]. split; [lia|]. split; [now apply nearly_covers1_up|].
  intros Hu'. destruct (charge_out (u * OneDec) ltac:(lia)) as (q & ch & Eq & Ec & Fc). exists ch. split; [|exact Fc].
  unfold ofz_ComputeSwapWithinBucketInGivenOut. fold d.
  rewrite !BigDecFromDec_ok, !bind_ok, (CalcAmount0Delta_down_ok l tgt cur Hl Dt Dc), bind_ok, En, bind_ok.
  erewrite (recompute_up0 (fun n => CalcAmount0Delta l n cur false)); [| |apply (CalcAmount0Delta_down_ok l next cur Hl Dn Dc)];
    [|now intros -> ]. rewrite bind_ok, (CalcAmount1Delta_up_ok l next cur Hl Dn Dc), bind_ok, Eu, DecRoundUp_tokens.
  rewrite Eq, bind_ok, Ec. reflexivity.
Qed.

End Steps.

Ltac by_compute := first [vm_compute; reflexivity | split; vm_compute; congruence].

(** *** Three steps that the code means to exclude *)

(** Three exact-in steps in a bucket of 10^6 units of liquidity at price 1,
    with any decimals that satisfy the interface.  With 3.5 tokens left after
    an earlier tick and a spread factor of 0.1%, the amount in is rounded up to
    4 whole tokens, more than what is left, and the step panics on a negative
    charge.  With 4 tokens and a bucket that needs 3.2, the amount after the
    spread factor (3.996) is below the rounded 4, so the step is not bounded by
    its target and ends past it.  With 10^6 tokens, a spread factor of 0.05%
    and a bucket that needs 999,500 tokens, the step takes more than the
    10^6 tokens that were left. *)
Theorem exact_in_corner_cases (T : SdkMath) (TS : SdkMathSpec T) (limit : Z) :
  zfo_ComputeSwapWithinBucketOutGivenIn (fresh limit (10 ^ 15)) (10 ^ 36) (9 * 10 ^ 35) (10 ^ 24) (35 * 10 ^ 17)
    = Panic "spread factor charge must be non-negative" /\
  (exists next amt out ch,
     zfo_ComputeSwapWithinBucketOutGivenIn (fresh limit (10 ^ 15)) (10 ^ 36)
       999996800010239967232104857264456753 (10 ^ 24) (4 * 10 ^ 18) = Ok (next, amt, out, ch) /\
     next < 999996800010239967232104857264456753) /\
  (exists next amt out ch,
     zfo_ComputeSwapWithinBucketOutGivenIn (fresh limit (5 * 10 ^ 14)) (10 ^ 36)
       500125156320369172385389443708287999 (10 ^ 24) (10 ^ 24) = Ok (next, amt, out, ch) /\
     next = 500125156320369172385389443708287999 /\ 10 ^ 24 < amt + ch).
Proof.
  assert (H15 : 0 <= 10 ^ 15 <= 5 * 10 ^ 17) by (split; vm_compute; congruence).
  assert (H14 : 0 <= 5 * 10 ^ 14 <= 5 * 10 ^ 17) by (split; vm_compute; congruence).
  assert (Hl : 0 <= 10 ^ 24 < 10 ^ 95) by (split; vm_compute; congruence).
  assert (Hp : price_dom (10 ^ 36)) by (split; vm_compute; congruence).
  split; [|split].
  - apply (zfo_exact_in_cases limit (10 ^ 15) H15 (10 ^ 36) (9 * 10 ^ 35) (10 ^ 24) (35 * 10 ^ 17)
      999996503512225469503645880502178825 (4 * 10 ^ 18) Hp ltac:(by_compute) Hl ltac:(by_compute)
      ltac:(by_compute) ltac:(by_compute) ltac:(by_compute) ltac:(by_compute)).
    split; [|split]; vm_compute; reflexivity.
  - destruct (zfo_exact_in_cases limit (10 ^ 15) H15 (10 ^ 36) 999996800010239967232104857264456753 (10 ^ 24)
      (4 * 10 ^ 18) 999996004015967952192063040516090098 (4 * 10 ^ 18) Hp ltac:(by_compute) Hl ltac:(by_compute)
      ltac:(by_compute) ltac:(by_compute) ltac:(by_compute) ltac:(by_compute)) as [_ H].
    destruct H as (ch & _ & E & _); [intros (_ & _ & L); vm_compute in L; congruence|].
    do 3 eexists. exists ch. split; [exact E | vm_compute; reflexivity].
  - destruct (zfo_exact_in_cases limit (5 * 10 ^ 14) H14 (10 ^ 36) 500125156320369172385389443708287999 (10 ^ 24)
      (10 ^ 24) 500125156320369172385389443708287999 (999500 * 10 ^ 18) Hp ltac:(by_compute) Hl ltac:(by_compute)
      ltac:(by_compute) ltac:(by_compute) ltac:(by_compute) ltac:(by_compute)) as [_ H].
    destruct H as (ch & C & E & _); [intros (R & _); vm_compute in R; congruence|].
    do 3 eexists. exists ch. split; [exact E|]. split; [reflexivity|]. rewrite Z.eqb_refl in C.
    apply (charge_reached_ratio limit (5 * 10 ^ 14) H14 (999500 * 10 ^ 18)) in C as (q & L & B);
      [| by_compute | vm_compute; reflexivity].
    unfold OneDec in *. assert (500250125062532 <= q) by lia. lia.
Qed.

(** *** Instances of the theorems *)

Lemma zfo_exact_in_step_witness :
  exists next amt out ch,
    zfo_ComputeSwapWithinBucketOutGivenIn (fresh (10 ^ 30) (10 ^ 15))
      (70710678118654752440 * 10 ^ 18) (67416615162732695594 * 10 ^ 18) 1517882343751510418088349649
      (13370 * 10 ^ 18) = Ok (next, amt, out, ch) /\ covers0 1517882343751510418088349649 (70710678118654752440 * 10 ^ 18) next amt.
Proof.
  destruct (zfo_exact_in_step (10 ^ 30) (10 ^ 15) ltac:(split; vm_compute; congruence)
    (70710678118654752440 * 10 ^ 18) (67416615162732695594 * 10 ^ 18) 1517882343751510418088349649 (13370 * 10 ^ 18)
    ltac:(split; vm_compute; congruence) ltac:(split; vm_compute; congruence)
    ltac:(split; vm_compute; congruence) ltac:(split; vm_compute; congruence))
    as ((_ & _ & _ & C & _) & [P _] & H).
  assert (E : zfo_ComputeSwapWithinBucketOutGivenIn (fresh (10 ^ 30) (10 ^ 15))
      (70710678118654752440 * 10 ^ 18) (67416615162732695594 * 10 ^ 18) 1517882343751510418088349649
      (13370 * 10 ^ 18) <> Panic "spread factor charge must be non-negative") by (vm_compute; congruence).
  destruct H as (ch & R & _); [intros F; exact (E (P F))|].
  eexists _, _, _, ch. split; [exact R | exact C].
Defined.

Lemma ofz_exact_in_step_witness :
  exists next amt out ch,
    ofz_ComputeSwapWithinBucketOutGivenIn (fresh (10 ^ 55) (10 ^ 15))
      (70710678118654752440 * 10 ^ 18) (74161984870956629488 * 10 ^ 18) 1517882343751510418088349649
      (42000000 * 10 ^ 18) = Ok (next, amt, out, ch) /\ 70710678118654752440 * 10 ^ 18 <= next.
Proof.
  destruct (ofz_exact_in_step (10 ^ 55) (10 ^ 15) ltac:(split; vm_compute; congruence)
    (70710678118654752440 * 10 ^ 18) (74161984870956629488 * 10 ^ 18) 1517882343751510418088349649 (42000000 * 10 ^ 18)
    ltac:(split; vm_compute; congruence) ltac:(vm_compute; congruence)
    ltac:(split; vm_compute; congruence) ltac:(split; vm_compute; congruence))
    as (next & amt & out & L & _ & _ & _ & _ & _ & P & H).
  assert (E : ofz_ComputeSwapWithinBucketOutGivenIn (fresh (10 ^ 55) (10 ^ 15))
      (70710678118654752440 * 10 ^ 18) (74161984870956629488 * 10 ^ 18) 1517882343751510418088349649
      (42000000 * 10 ^ 18) <> Panic "spread factor charge must be non-negative") by (vm_compute; congruence).
  destruct H as (ch & R & _); [intros F; exact (E (P F))|].
  exists next, amt, out, ch. split; [exact R | exact (proj1 L)].
Defined.

Lemma zfo_exact_out_step_witness :
  exists next out amt,
    67416615162732695594 * 10 ^ 18 <= next /\ out <= 42000000 * 10 ^ 18 /\
    covers0 1517882343751510418088349649 (70710678118654752440 * 10 ^ 18) next amt.
Proof.
  destruct (zfo_exact_out_step (10 ^ 30) (10 ^ 15) ltac:(split; vm_compute; congruence)
    (70710678118654752440 * 10 ^ 18) (67416615162732695594 * 10 ^ 18) 1517882343751510418088349649 (42000000 * 10 ^ 18)
    ltac:(split; vm_compute; congruence) ltac:(vm_compute; congruence)
    ltac:(split; vm_compute; congruence) ltac:(split; vm_compute; congruence))
    as (next & out & amt & L & O & _ & _ & _ & _ & C & _).
  exists next, out, amt. exact (conj (proj1 L) (conj (proj2 O) C)).
Defined.

Lemma ofz_exact_out_step_witness :
  exists next out amt,
    70710678118654752440 * 10 ^ 18 <= next /\ out <= 8398 * 10 ^ 18 /\
    within0 1517882343751510418088349649 (70710678118654752440 * 10 ^ 18) next out /\ 0 <= amt.
Proof.
  destruct (ofz_exact_out_step (10 ^ 55) (10 ^ 15) ltac:(split; vm_compute; congruence)
    (70710678118654752440 * 10 ^ 18) (74161984870956629488 * 10 ^ 18) 1517882343751510418088349649 (8398 * 10 ^ 18)
    ltac:(split; vm_compute; congruence) ltac:(vm_compute; congruence)
    ltac:(split; vm_compute; congruence) ltac:(split; vm_compute; congruence) ltac:(right; vm_compute; congruence))
    as (next & out & amt & L & O & W & _ & A & _).
  exists next, out, amt. exact (conj (proj1 L) (conj (proj2 O) (conj W A))).
Defined.

Lemma exact_in_corner_cases_witness :
  zfo_ComputeSwapWithinBucketOutGivenIn (fresh (10 ^ 30) (10 ^ 15)) (10 ^ 36) (9 * 10 ^ 35) (10 ^ 24) (35 * 10 ^ 17)
    = Panic "spread factor charge must be non-negative".
Proof. exact (proj1 (exact_in_corner_cases sdk_ref sdk_ref_spec (10 ^ 30))). Defined.
