(* ===== verification/SumTree.v ===== *)
(** * The accumulation store: a B+ tree with sums ([osmoutils/sumtree])

    The tree lives in a key-value store: the node of level [n] with key [k] is
    stored under [nodeKey n k], leaves at level 0.  A branch keeps, for each
    child, the child's key and the sum of the leaves below it.  Stored values
    are held decoded, as the list of [Child] of a [Node] message; a [Leaf]
    message is the one-child list (the two have the same wire format).  Keys
    are Go byte slices, where [nil] and the empty slice are different values
    with the same content: [None] is [nil].  Operations that climb the tree
    recurse with fuel, one unit per level. *)

From Stdlib Require Import ZArith Lia List Bool String Sorted.
From S2P Require Import Prelude GoBig SdkMath Store.
Import ListNotations.

Record Child : Type := { Index : bytes; Accumulation : Z }.

Definition gokey : Type := option bytes.
Definition content (k : gokey) : bytes := match k with Some b => b | None => [] end.

(** ["node/"] *)
Definition nodeKeyPrefix : bytes := [110; 111; 100; 101; 47].

(** [cosmossdk.io/store/types.PrefixEndBytes]: the end of the range of the keys
    that begin with a prefix. *)
Class PrefixEnd : Type := { PrefixEndBytes : bytes -> option bytes }.
Class PrefixEndSpec (P : PrefixEnd) : Prop := {
  PrefixEndBytes_range p k :
    Forall byte p -> Forall byte k ->
    (in_rng (Some p) (PrefixEndBytes p) k = true <-> exists k', k = p ++ k')
}.

(** ** Nodes *)

Definition accumulate {S : SdkMath} (cs : list Child) : Res Z :=
  fold_left (fun res c => r <- res ;; int_Add r (Accumulation c)) cs (Ok 0).

Fixpoint find_from (idx : nat) (cs : list Child) (key : bytes) : nat * bool :=
  match cs with
  | [] => (idx, false)
  | c :: cs' =>
      match bcompare (Index c) key with
      | Eq => (idx, true)
      | Gt => (idx, false)
      | Lt => find_from (Datatypes.S idx) cs' key
      end
  end.
Definition find (cs : list Child) (key : bytes) : nat * bool := find_from 0 cs key.

Fixpoint setAcc (cs : list Child) (idx : nat) (acc : Z) : list Child :=
  match cs, idx with
  | [], _ => []
  | c :: cs', O => {| Index := Index c; Accumulation := acc |} :: cs'
  | c :: cs', Datatypes.S i => c :: setAcc cs' i acc
  end.

Definition insert (cs : list Child) (idx : nat) (c : Child) : list Child :=
  firstn idx cs ++ c :: skipn idx cs.
Definition delete (cs : list Child) (idx : nat) : list Child :=
  firstn idx cs ++ skipn (Datatypes.S idx) cs.
Definition split (cs : list Child) (idx : nat) : list Child * list Child :=
  (firstn idx cs, skipn idx cs).
Definition merge (cs cs2 : list Child) : list Child := cs ++ cs2.

(** ** The tree *)

Section Tree.
Context {S : SdkMath} {K : KVStore (list Child)} {P : PrefixEnd}.

(** [Tree.m]: the largest number of children of a node, a [uint8]. *)
Variable m : Z.

Record ptr : Type := { level : Z; key : gokey }.

Definition put_uint16 (n : Z) : bytes := [Z.shiftr n 8 mod 256; n mod 256].
Definition uint16 (n : Z) : Z := n mod 2 ^ 16.

Definition nodeKey (lv : Z) (k : bytes) : bytes := nodeKeyPrefix ++ put_uint16 lv ++ k.
Definition leafKey (k : bytes) : bytes := nodeKey 0 k.

Definition ptrGet (lv : Z) (k : gokey) : ptr := {| level := lv; key := k |}.
Definition pkey (p : ptr) : bytes := nodeKey (level p) (content (key p)).

Definition exists_ (s : St) (p : option ptr) : bool :=
  match p with
  | None => false
  | Some p => match st_get s (pkey p) with Some _ => true | None => false end
  end.

(** [ptr.node()]: a missing key is an empty node. *)
Definition node (s : St) (p : ptr) : list Child :=
  match st_get s (pkey p) with Some cs => cs | None => [] end.

Definition set (s : St) (p : ptr) (cs : list Child) : St := st_set s (pkey p) cs.
Definition create (s : St) (p : ptr) (cs : list Child) : St := st_set s (pkey p) cs.
Definition delete_ptr (s : St) (p : ptr) : St := st_delete s (pkey p).

Definition setLeaf (s : St) (p : ptr) (leaf : Child) : Res St :=
  if negb (level p =? 0)
  then Panic "setLeaf should only be called on pointers to leaf nodes. This ptr is a branch"
  else Ok (st_set s (leafKey (content (key p))) [leaf]).

Definition endBytes (lv : Z) (end_ : gokey) : option bytes :=
  match end_ with
  | Some e => Some (nodeKey lv e)
  | None => PrefixEndBytes (nodeKey lv [])
  end.

Definition ptrIterator (s : St) (lv : Z) (begin end_ : gokey) : list (bytes * list Child) :=
  st_iter s (Some (nodeKey lv (content begin))) (endBytes lv end_).
Definition ptrReverseIterator (s : St) (lv : Z) (begin end_ : gokey) : list (bytes * list Child) :=
  st_riter s (Some (nodeKey lv (content begin))) (endBytes lv end_).

(** [ptrIterator.ptr()]: the key under the cursor without its 7-byte prefix,
    a non-nil slice. *)
Definition iter_ptr (lv : Z) (it : list (bytes * list Child)) : option ptr :=
  match it with
  | [] => None
  | (k, _) :: _ => Some {| level := lv; key := Some (skipn 7 k) |}
  end.

Definition leftSibling (s : St) (p : ptr) : option ptr :=
  iter_ptr (level p) (ptrReverseIterator s (level p) None (key p)).

Definition rightSibling (s : St) (p : ptr) : option ptr :=
  let it := ptrIterator s (level p) (key p) None in
  match it with
  | [] => None
  | _ :: it' => iter_ptr (level p) (if exists_ s (Some p) then it' else it)
  end.

Definition parent (s : St) (p : ptr) : ptr :=
  let up := ptrGet (uint16 (level p + 1)) (key p) in
  if exists_ s (Some up) then up
  else
    let sib := leftSibling s up in
    match sib with
    | Some q => if exists_ s sib then q else ptrGet (uint16 (level p + 1)) None
    | None => ptrGet (uint16 (level p + 1)) None
    end.

Fixpoint updateAccumulation (fuel : nat) (s : St) (p : ptr) (c : Child) : Res St :=
  if negb (exists_ s (Some p)) then Ok s else
  match fuel with
  | O => Panic "out of fuel"
  | Datatypes.S fuel' =>
      let '(idx, found) := find (node s p) (Index c) in
      if negb found then Panic "non existing key pushed from the child" else
      let cs := setAcc (node s p) idx (Accumulation c) in
      let s := set s p cs in
      acc <- accumulate cs ;;
      updateAccumulation fuel' s (parent s p) {| Index := content (key p); Accumulation := acc |}
  end.

Fixpoint push (fuel : nat) (s : St) (p : ptr) (c : Child) : Res St :=
  if negb (exists_ s (Some p)) then Ok (create s p [c]) else
  match fuel with
  | O => Panic "out of fuel"
  | Datatypes.S fuel' =>
      let '(idx, found) := find (node s p) (Index c) in
      if found then updateAccumulation fuel s p c else
      let cs := insert (node s p) idx c in
      let par := parent s p in
      if Z.of_nat (List.length cs) >? m then
        let sp := Z.to_nat ((m / 2 + 1) mod 256) in
        let '(leftnode, rightnode) := split cs sp in
        match nth_error cs sp with
        | None => Panic "index out of range"
        | Some c' =>
            let s := create s (ptrGet (level p) (Some (Index c'))) rightnode in
            if negb (exists_ s (Some par)) then
              accl <- accumulate leftnode ;;
              accr <- accumulate rightnode ;;
              let s := create s par
                [ {| Index := content (key p); Accumulation := accl |};
                  {| Index := Index c'; Accumulation := accr |} ] in
              Ok (set s p leftnode)
            else
              accr <- accumulate rightnode ;;
              s <- push fuel' s par {| Index := Index c'; Accumulation := accr |} ;;
              let par := parent s p in
              accl <- accumulate leftnode ;;
              s <- updateAccumulation fuel s par {| Index := content (key p); Accumulation := accl |} ;;
              Ok (set s p leftnode)
        end
      else
        acc <- accumulate cs ;;
        s <- updateAccumulation fuel s par {| Index := content (key p); Accumulation := acc |} ;;
        Ok (set s p cs)
  end.

Fixpoint pull (fuel : nat) (s : St) (p : ptr) (k : bytes) : Res St :=
  if negb (exists_ s (Some p)) then Ok s else
  match fuel with
  | O => Panic "out of fuel"
  | Datatypes.S fuel' =>
      let '(idx, found) := find (node s p) k in
      if negb found then Panic "pulling non existing child" else
      let cs := delete (node s p) idx in
      match cs with
      | _ :: _ =>
          let s := set s p cs in
          acc <- accumulate cs ;;
          updateAccumulation fuel s (parent s p) {| Index := content (key p); Accumulation := acc |}
      | [] =>
          let left := leftSibling s p in
          let right := rightSibling s p in
          let par := parent s p in
          let s := delete_ptr s p in
          s <- pull fuel' s par (content (key p)) ;;
          match left, right with
          | Some l, Some r =>
              if exists_ s left && exists_ s right then
                let par := parent s l in
                match bcompare (content (key par)) (content (key (parent s r))) with
                | Eq =>
                    let leftnode := node s l in
                    let rightnode := node s r in
                    if Z.of_nat (List.length leftnode) + Z.of_nat (List.length rightnode) <? m then
                      let s := set s l (merge leftnode rightnode) in
                      let s := delete_ptr s r in
                      s <- pull fuel' s par (content (key r)) ;;
                      acc <- accumulate leftnode ;;
                      updateAccumulation fuel s par {| Index := content (key l); Accumulation := acc |}
                    else Ok s
                | _ => Ok s
                end
              else Ok s
          | _, _ => Ok s
          end
      end
  end.

(** ** Operations of the tree *)

Definition Get (s : St) (k : gokey) : Res Z :=
  match st_get s (leafKey (content k)) with
  | None => Ok 0
  | Some l => match rev l with c :: _ => Ok (Accumulation c) | [] => Panic "nil pointer dereference" end
  end.

Definition Set_ (fuel : nat) (s : St) (k : gokey) (acc : Z) : Res St :=
  let p := ptrGet 0 k in
  let leaf := {| Index := content k; Accumulation := acc |} in
  s <- setLeaf s p leaf ;;
  push fuel s (parent s p) leaf.

Definition Increase (fuel : nat) (s : St) (k : gokey) (amt : Z) : Res St :=
  value <- Get s k ;;
  v <- int_Add value amt ;;
  Set_ fuel s k v.

Definition Decrease (fuel : nat) (s : St) (k : gokey) (amt : Z) : Res St :=
  Increase fuel s k (- amt).

Definition Remove (fuel : nat) (s : St) (k : gokey) : Res St :=
  let p := ptrGet 0 k in
  if negb (exists_ s (Some p)) then Ok s else
  let par := parent s p in
  pull fuel (delete_ptr s p) par (content k).

Definition IsEmpty (s : St) : bool :=
  match st_get s (leafKey []) with Some _ => false | None => true end.

Definition NewTree (fuel : nat) (s : St) : Res St :=
  if IsEmpty s then Set_ fuel s None 0 else Ok s.

Definition Clear (s : St) : St :=
  fold_left (fun s kv => st_delete s (fst kv)) (st_iter s None None) s.

Definition root (s : St) : option ptr :=
  match st_riter s (Some nodeKeyPrefix) (PrefixEndBytes nodeKeyPrefix) with
  | [] => None
  | (k, _) :: _ =>
      match skipn 5 k with
      | a :: b :: rest => Some {| level := a * 256 + b; key := Some rest |}
      | _ => None
      end
  end.

(** [accumulationSplit], by recursion on the level of the node. *)
Fixpoint accumulationSplit (lv : nat) (s : St) (pk k : bytes) : Res (Z * Z * Z) :=
  match lv with
  | O =>
      match st_get s (leafKey pk) with
      | Some l =>
          match rev l with
          | c :: _ =>
              match bcompare pk k with
              | Lt => Ok (Accumulation c, 0, 0)
              | Eq => Ok (0, Accumulation c, 0)
              | Gt => Ok (0, 0, Accumulation c)
              end
          | [] => Panic "nil pointer dereference"
          end
      | None => Panic "nil pointer dereference"
      end
  | Datatypes.S lv' =>
      let cs := node s (ptrGet (Z.of_nat lv) (Some pk)) in
      let '(idx0, found) := find cs k in
      match idx0, found with
      | O, false => Panic "index out of range [-1]"
      | _, _ =>
          let idx := if found then idx0 else pred idx0 in
          match nth_error cs idx with
          | None => Panic "index out of range"
          | Some c =>
              '(l, e, r) <- accumulationSplit lv' s (Index c) k ;;
              accl <- accumulate (firstn idx cs) ;;
              l <- int_Add l accl ;;
              accr <- accumulate (skipn (Datatypes.S idx) cs) ;;
              r <- int_Add r accr ;;
              Ok (l, e, r)
          end
      end
  end.

Definition SplitAcc (s : St) (k : gokey) : Res (Z * Z * Z) :=
  match root s with
  | None => Panic "nil pointer dereference"
  | Some r => accumulationSplit (Z.to_nat (level r)) s (content (key r)) (content k)
  end.

Definition SubsetAccumulation (s : St) (start end_ : gokey) : Res Z :=
  match start, end_ with
  | None, _ => '(l, e, _) <- SplitAcc s end_ ;; int_Add l e
  | Some _, None => '(_, e, r) <- SplitAcc s start ;; int_Add e r
  | Some _, Some _ =>
      '(_, leftexact, leftrest) <- SplitAcc s start ;;
      '(_, _, rightest) <- SplitAcc s end_ ;;
      x <- int_Add leftexact leftrest ;;
      int_Sub x rightest
  end.

Definition TotalAccumulatedValue (s : St) : Res Z := SubsetAccumulation s None None.
Definition PrefixSum (s : St) (k : gokey) : Res Z := SubsetAccumulation s None k.

End Tree.

(** ** An implementation of [PrefixEndBytes] *)

Fixpoint prefix_end (p : bytes) : option bytes :=
  match p with
  | [] => None
  | x :: p' =>
      match prefix_end p' with
      | Some e => Some (x :: e)
      | None => if x =? 255 then None else Some [x + 1]
      end
  end.

#[export] Instance prefix_end_ref : PrefixEnd := {| PrefixEndBytes := prefix_end |}.

Lemma in_rng_cons x p y k :
  byte x -> byte y ->
  in_rng (Some (x :: p)) (prefix_end (x :: p)) (y :: k) = (x =? y) && in_rng (Some p) (prefix_end p) k.
Proof.
  unfold byte. intros Hx Hy. unfold in_rng, bleb, bltb. cbn [bcompare prefix_end].
  destruct (Z.compare_spec x y) as [-> | L | G]; [rewrite Z.eqb_refl | | ].
  - destruct (prefix_end p); cbn [bcompare andb]; [now rewrite Z.compare_refl|].
    destruct (Z.eqb_spec y 255); [reflexivity|]. cbn [bcompare].
    rewrite (proj2 (Z.compare_lt_iff y (y + 1))) by lia. reflexivity.
  - rewrite (proj2 (Z.eqb_neq x y)) by lia. cbn [andb].
    destruct (prefix_end p); cbn [bcompare].
    + now rewrite (proj2 (Z.compare_gt_iff y x)).
    + destruct (Z.eqb_spec x 255); [lia|]. cbn [bcompare].
      destruct (Z.compare_spec y (x + 1)); [|lia|reflexivity]. now destruct k.
  - now rewrite (proj2 (Z.eqb_neq x y)) by lia.
Qed.

#[export] Instance prefix_end_ref_spec : PrefixEndSpec prefix_end_ref.
Proof.
  split. cbn [PrefixEndBytes prefix_end_ref]. intros p k Hp. revert k.
  induction Hp as [|x p Hx Hp IH]; intros k Hk.
  - split; [intros _; now exists k|]. intros _. now destruct k.
  - destruct Hk as [|y k Hy Hk].
    + split; [discriminate|]. intros (k' & E). discriminate.
    + rewrite in_rng_cons, andb_true_iff, (IH k Hk), Z.eqb_eq by assumption. split.
      * intros (-> & k' & ->). now exists k'.
      * intros (k' & E). injection E as -> ->. split; [reflexivity | now exists k'].
Qed.

(** ** What a stored tree holds

    [holds s lv k l]: the node of level [lv] and key [k] is stored with all it
    refers to, its leaves in key order are [l], children are in increasing
    order and the first one has the key of the node, every sum is right, and
    the leaves of a child lie between its key and the next one. *)

Section Holds.
Context {S : SdkMath} {SS : SdkMathSpec S} {K : KVStore (list Child)} {P : PrefixEnd}.

Definition leaves : Type := list (bytes * Z).
Definition total (l : leaves) : Z := zsum (map snd l).

Fixpoint kids (H : bytes -> leaves -> Prop) (cs : list Child) (ls : list leaves) : Prop :=
  match cs, ls with
  | [], [] => True
  | c :: cs', l :: ls' =>
      H (Index c) l /\ Accumulation c = total l /\
      (forall c', In c' cs' ->
         blt (Index c) (Index c') /\ Forall (fun kv => blt (fst kv) (Index c')) l) /\
      kids H cs' ls'
  | _, _ => False
  end.

Fixpoint holds (s : St) (lv : nat) (k : bytes) (l : leaves) : Prop :=
  match lv with
  | O => exists a, st_get s (leafKey k) = Some [{| Index := k; Accumulation := a |}] /\ l = [(k, a)]
  | Datatypes.S lv' =>
      exists cs ls, st_get s (nodeKey (Z.of_nat lv) k) = Some cs /\
        (match cs with c :: _ => Index c = k | [] => False end) /\
        kids (holds s lv') cs ls /\ l = List.concat ls
  end.

(** The sums of the leaves below, at and above a key. *)
Definition sum_at (o : comparison) (k : bytes) (l : leaves) : Z :=
  total (filter (fun kv => match bcompare (fst kv) k, o with
                           | Lt, Lt | Eq, Eq | Gt, Gt => true | _, _ => false end) l).

Lemma total_app l1 l2 : total (l1 ++ l2) = total l1 + total l2.
Proof. unfold total. now rewrite map_app, zsum_app. Qed.

Lemma sum_at_app o k l1 l2 : sum_at o k (l1 ++ l2) = sum_at o k l1 + sum_at o k l2.
Proof. unfold sum_at. now rewrite filter_app, total_app. Qed.

(** All leaves on one side of the key. *)
Lemma sum_at_all o o' k l :
  Forall (fun kv => bcompare (fst kv) k = o') l ->
  sum_at o k l = match o, o' with Lt, Lt | Eq, Eq | Gt, Gt => total l | _, _ => 0 end.
Proof.
  unfold sum_at. induction 1 as [|kv l E _ IH]; [now destruct o, o'|].
  cbn [filter]. rewrite E. unfold total, zsum in *.
  destruct o, o'; cbn [map fold_right] in *; rewrite ?IH; reflexivity.
Qed.

Lemma sum_at_total k l : sum_at Lt k l + sum_at Eq k l + sum_at Gt k l = total l.
Proof.
  induction l as [|kv l IH]; [reflexivity|]. unfold sum_at, total, zsum in *. cbn [filter].
  destruct (bcompare (fst kv) k); cbn [map fold_right]; lia.
Qed.

Lemma sum_at_bound o k l :
  Forall (fun kv => 0 <= snd kv) l -> 0 <= sum_at o k l <= total l.
Proof.
  unfold sum_at, total, zsum. induction 1 as [|kv l E _ IH]; cbn; [lia|].
  destruct (bcompare (fst kv) k), o; cbn [map fold_right]; lia.
Qed.

Lemma holds_lower s lv : forall k l, holds s lv k l -> Forall (fun kv => ~ blt (fst kv) k) l.
Proof.
  induction lv as [|lv IH]; intros k l; cbn [holds].
  - intros (a & _ & ->). constructor; [apply blt_irrefl | constructor].
  - intros (cs & ls & _ & Hk & Kd & ->).
    assert (G : forall cs ls, kids (holds s lv) cs ls ->
      (forall c, In c cs -> ~ blt (Index c) k) -> Forall (fun kv => ~ blt (fst kv) k) (List.concat ls)).
    { induction cs0 as [|c cs0 IHc]; intros [|l0 ls0] Kd0 Lo; try contradiction; [constructor|].
      destruct Kd0 as (Hc & _ & Up & Kd0). cbn [List.concat]. apply Forall_app. split.
      - specialize (IH _ _ Hc). revert IH. apply Forall_impl. intros kv N L.
        destruct (bcompare (Index c) k) eqn:C.
        + apply bcompare_eq in C. rewrite C in N. contradiction.
        + apply (Lo c (or_introl eq_refl)). exact C.
        + apply N. eapply blt_trans; [exact L|]. unfold blt. rewrite (bcompare_antisym (Index c)), C. reflexivity.
      - apply IHc; [exact Kd0|]. intros c' I. apply Lo. now right. }
    apply (G cs ls Kd). intros c I. destruct cs as [|c0 cs]; [contradiction|]. subst k.
    destruct I as [<- | I]; [apply blt_irrefl|]. destruct ls as [|l0 ls]; [contradiction|].
    destruct Kd as (_ & _ & Up & _). destruct (Up c I) as [L _]. intros L'.
    exact (blt_irrefl _ (blt_trans _ _ _ L L')).
Qed.

(** [find], after the adjustment, picks the last child at or below the key. *)
Lemma find_from_split H cs ls k : forall i,
  kids H cs ls -> (match cs with c :: _ => ~ blt k (Index c) | [] => False end) ->
  exists pre c post, cs = pre ++ c :: post /\ ~ blt k (Index c) /\
    (forall c', In c' post -> blt k (Index c')) /\
    (find_from i cs k = ((i + List.length pre)%nat, true) \/
     find_from i cs k = ((i + Datatypes.S (List.length pre))%nat, false)).
Proof.
  revert ls. induction cs as [|c cs IH]; intros ls i Kd Hd; [contradiction|].
  destruct ls as [|l ls]; [contradiction|]. destruct Kd as (_ & _ & Up & Kd). cbn [find_from].
  destruct (bcompare (Index c) k) eqn:C.
  - exists [], c, cs. apply bcompare_eq in C as <-. split; [reflexivity|]. split; [apply blt_irrefl|].
    split; [intros c' I; now apply Up | left; f_equal; cbn; lia].
  - destruct cs as [|c1 cs].
    { exists [], c, []. split; [reflexivity|]. split; [exact Hd|]. split; [intros ? []|]. right. cbn. f_equal. lia. }
    destruct (bcompare (Index c1) k) eqn:C1.
    1,2: destruct (IH ls (Datatypes.S i) Kd) as (pre & c' & post & E & N & Po & F);
      [unfold blt; rewrite (bcompare_antisym (Index c1)), C1; discriminate |
       exists (c :: pre), c', post; rewrite E; split; [reflexivity|]; split; [exact N|]; split; [exact Po|];
       rewrite <- E; cbn [List.length]; destruct F as [-> | ->]; [left | right]; f_equal; lia].
    exists [], c, (c1 :: cs). split; [reflexivity|]. split; [exact Hd|]. split.
    + assert (L1 : blt k (Index c1)) by (unfold blt; rewrite (bcompare_antisym (Index c1)), C1; reflexivity).
      intros c' [<- | I]; [exact L1|]. destruct ls as [|l1 ls]; [contradiction|]. destruct Kd as (_ & _ & Up1 & _).
      eapply blt_trans; [exact L1 | now apply Up1].
    + right. cbn [find_from List.length]. rewrite C1. f_equal. lia.
  - exfalso. apply Hd. unfold blt. rewrite (bcompare_antisym (Index c)), C. reflexivity.
Qed.

Lemma kids_app H pre post ls :
  kids H (pre ++ post) ls -> exists l1 l2, ls = l1 ++ l2 /\ kids H pre l1 /\ kids H post l2 /\
    (forall c', In c' post -> Forall (fun kv => blt (fst kv) (Index c')) (List.concat l1)).
Proof.
  revert ls. induction pre as [|c pre IH]; intros ls Kd.
  - exists [], ls. split; [reflexivity|]. split; [exact I|]. split; [exact Kd|]. intros; constructor.
  - destruct ls as [|l ls]; [contradiction|]. destruct Kd as (Hc & Ha & Up & Kd).
    destruct (IH ls Kd) as (l1 & l2 & -> & K1 & K2 & U). exists (l :: l1), l2. split; [reflexivity|].
    split; [|split; [exact K2|]].
    + split; [exact Hc|]. split; [exact Ha|]. split; [|exact K1]. intros c' I. apply Up, in_or_app. now left.
    + intros c' I. cbn [List.concat]. apply Forall_app. split; [|now apply U]. apply Up, in_or_app. now right.
Qed.

Lemma blt_not_le a b c : blt a b -> ~ blt c b -> blt a c.
Proof.
  intros L N. destruct (bcompare b c) eqn:C.
  - apply bcompare_eq in C as <-. exact L.
  - eapply blt_trans; [exact L | exact C].
  - exfalso. apply N. unfold blt. now rewrite (bcompare_antisym b), C.
Qed.

Lemma kids_above s lv k : forall cs ls,
  kids (holds s lv) cs ls -> (forall c, In c cs -> blt k (Index c)) ->
  Forall (fun kv => bcompare (fst kv) k = Gt) (List.concat ls).
Proof.
  induction cs as [|c cs IH]; intros [|l ls] Kd Up; try contradiction; [constructor|].
  destruct Kd as (Hc & _ & _ & Kd). cbn [List.concat]. apply Forall_app. split.
  - pose proof (holds_lower s lv _ _ Hc) as Lo. revert Lo. apply Forall_impl. intros kv N.
    pose proof (blt_not_le _ _ _ (Up c (or_introl eq_refl)) N) as L. unfold blt in L.
    now rewrite (bcompare_antisym k), L.
  - apply IH; [exact Kd|]. intros c' I. apply Up. now right.
Qed.

Lemma accumulate_from cs : forall r,
  Forall (fun c => 0 <= Accumulation c) cs -> 0 <= r -> r + zsum (map Accumulation cs) < 2 ^ 255 ->
  fold_left (fun res c => r <- res ;; int_Add r (Accumulation c)) cs (Ok r) = Ok (r + zsum (map Accumulation cs)).
Proof.
  induction cs as [|c cs IH]; intros r F Hr B; cbn [fold_left map zsum fold_right].
  - f_equal. cbn. lia.
  - inversion F as [|? ? Fc F']; subst. unfold zsum in *. cbn [map fold_right] in B |- *.
    assert (0 <= fold_right Z.add 0 (map Accumulation cs)).
    { clear - F'. induction F'; cbn; lia. }
    rewrite bind_ok, int_Add_total by lia. rewrite IH by (auto; lia). f_equal. lia.
Qed.

Lemma kids_total H : forall cs ls, kids H cs ls -> zsum (map Accumulation cs) = total (List.concat ls).
Proof.
  induction cs as [|c cs IH]; intros [|l ls] Kd; try contradiction; [reflexivity|].
  destruct Kd as (_ & Ha & _ & Kd). cbn [List.concat]. rewrite total_app, <- (IH ls Kd), <- Ha. reflexivity.
Qed.

Lemma kids_nonneg H : forall cs ls, kids H cs ls ->
  Forall (fun kv => 0 <= snd kv) (List.concat ls) -> Forall (fun c => 0 <= Accumulation c) cs.
Proof.
  induction cs as [|c cs IH]; intros [|l ls] Kd F; try contradiction; [constructor|].
  destruct Kd as (_ & Ha & _ & Kd). cbn [List.concat] in F. apply Forall_app in F as [F1 F2]. constructor; [|eauto].
  rewrite Ha. clear - F1. unfold total, zsum. induction F1; cbn; lia.
Qed.

Lemma accumulate_kids H cs ls :
  kids H cs ls -> Forall (fun kv => 0 <= snd kv) (List.concat ls) -> total (List.concat ls) < 2 ^ 255 ->
  accumulate cs = Ok (total (List.concat ls)).
Proof.
  intros Kd F B. unfold accumulate. rewrite accumulate_from.
  - f_equal. rewrite Z.add_0_l. now apply kids_total with (H := H).
  - now apply kids_nonneg with (H := H) (ls := ls).
  - lia.
  - rewrite (kids_total H cs ls Kd). lia.
Qed.

Lemma total_nonneg l : Forall (fun kv => 0 <= snd kv) l -> 0 <= total l.
Proof. unfold total, zsum. induction 1; cbn; lia. Qed.

Lemma split_holds s lv : forall k0 l k,
  holds s lv k0 l -> ~ blt k k0 -> Forall (fun kv => 0 <= snd kv) l -> total l < 2 ^ 255 ->
  accumulationSplit lv s k0 k = Ok (sum_at Lt k l, sum_at Eq k l, sum_at Gt k l).
Proof.
  induction lv as [|lv IH]; intros k0 l k Hh N F B; cbn [holds accumulationSplit] in *.
  - destruct Hh as (a & -> & ->). cbn [rev app Accumulation]. unfold sum_at, total, zsum. cbn [filter fst].
    destruct (bcompare k0 k); cbn; now rewrite ?Z.add_0_r.
  - destruct Hh as (cs & ls & G & Hd & Kd & ->). unfold node, pkey, ptrGet. cbn [level key content]. rewrite G.
    destruct (find_from_split (holds s lv) cs ls k 0 Kd) as (pre & c & post & E & Nc & Po & Fd);
      [destruct cs; [contradiction | now subst k0]|].
    unfold find. rewrite E in Kd, Fd |- *. clear cs E G Hd.
    destruct (kids_app _ _ _ _ Kd) as (l1 & l2 & -> & K1 & K2 & U1). destruct l2 as [|lc l2]; [contradiction|].
    destruct K2 as (Hc & _ & _ & K2). rewrite concat_app in *. cbn [List.concat] in *.
    apply Forall_app in F as [F1 F]. apply Forall_app in F as [Fc F2].
    rewrite !total_app in B. pose proof (total_nonneg _ F1). pose proof (total_nonneg _ Fc). pose proof (total_nonneg _ F2).
    assert (S1 : Forall (fun kv => bcompare (fst kv) k = Lt) (List.concat l1)).
    { specialize (U1 c (or_introl eq_refl)). revert U1. apply Forall_impl. intros kv L. exact (blt_not_le _ _ _ L Nc). }
    pose proof (kids_above s lv k post l2 K2 Po) as S2.
    rewrite !sum_at_app, !(sum_at_all _ _ _ _ S1), !(sum_at_all _ _ _ _ S2).
    pose proof (IH (Index c) lc k Hc Nc Fc ltac:(lia)) as R.
    assert (Hn : nth_error (pre ++ c :: post) (List.length pre) = Some c)
      by (rewrite nth_error_app2, Nat.sub_diag by lia; reflexivity).
    assert (T1 : firstn (List.length pre) (pre ++ c :: post) = pre)
      by (rewrite firstn_app, firstn_all, Nat.sub_diag; cbn; apply app_nil_r).
    assert (T2 : skipn (Datatypes.S (List.length pre)) (pre ++ c :: post) = post).
    { rewrite skipn_app, skipn_all2 by lia. replace (Datatypes.S (List.length pre) - List.length pre)%nat with 1%nat by lia. reflexivity. }
    pose proof (sum_at_bound Lt k lc Fc). pose proof (sum_at_bound Gt k lc Fc).
    destruct Fd as [-> | ->]; cbn [Nat.add Nat.pred]; [destruct (List.length pre) as [|n] eqn:Ln | ];
      rewrite ?Hn, R; cbn [bind]; rewrite ?T1, ?T2;
      rewrite (accumulate_kids _ pre l1 K1 F1) by lia; cbn [bind]; rewrite int_Add_total by lia; cbn [bind];
      rewrite (accumulate_kids _ post l2 K2 F2) by lia; cbn [bind]; rewrite int_Add_total by lia; cbn [bind];
      do 3 f_equal; lia.
Qed.

End Holds.

(** ** Properties *)

Section Queries.
Context {S : SdkMath} {SS : SdkMathSpec S} {K : KVStore (list Child)} {P : PrefixEnd}.

Definition tree_ok (s : St) (l : leaves) : Prop :=
  (exists lv, root s = Some {| level := Z.of_nat lv; key := Some [] |} /\ holds s lv [] l) /\
  Forall (fun kv => 0 <= snd kv) l /\ total l < 2 ^ 255.

(** The leaves with keys from [a] to [b], both included. *)
Definition sum_between (a b : bytes) (l : leaves) : Z :=
  total (filter (fun kv => bleb a (fst kv) && bleb (fst kv) b) l).

Lemma sum_between_split a b l :
  ~ blt b a -> sum_between a b l = total l - sum_at Lt a l - sum_at Gt b l.
Proof.
  intros N. induction l as [|kv l IH]; [reflexivity|].
  unfold sum_between, sum_at, total, zsum, bleb in *. cbn [filter].
  rewrite (bcompare_antisym (fst kv) a) in *.
  assert (X : bcompare (fst kv) a = Lt -> bcompare (fst kv) b = Gt -> False).
  { intros L G. apply N. eapply blt_trans; [|exact L]. unfold blt. now rewrite (bcompare_antisym (fst kv)), G. }
  destruct (bcompare (fst kv) a) eqn:A, (bcompare (fst kv) b) eqn:B'; try (exfalso; now apply X);
    cbn [CompOpp andb map fold_right] in *; lia.
Qed.

Lemma SplitAcc_holds s l k :
  tree_ok s l -> SplitAcc s k = Ok (sum_at Lt (content k) l, sum_at Eq (content k) l, sum_at Gt (content k) l).
Proof.
  intros ((lv & R & H) & F & B). unfold SplitAcc. rewrite R. cbn [level key content]. rewrite Nat2Z.id.
  apply split_holds; auto. now destruct (content k).
Qed.

(** C33: queries on a well-formed tree return the sums of its leaves.
    [SplitAcc] gives the sums below, at and above the key; [PrefixSum] the sum
    up to the key, included; [SubsetAccumulation] the sum from the start, or
    between two keys in order, both ends included.  [TotalAccumulatedValue],
    which passes nil for both ends, returns the value of the leaf with the
    empty key and not the sum of all leaves. *)
Theorem SubsetAccumulation_correct (s : St) (l : leaves) (a b : bytes) :
  tree_ok s l ->
  SplitAcc s (Some b) = Ok (sum_at Lt b l, sum_at Eq b l, sum_at Gt b l) /\
  PrefixSum s (Some b) = Ok (sum_at Lt b l + sum_at Eq b l) /\
  SubsetAccumulation s (Some a) None = Ok (sum_at Eq a l + sum_at Gt a l) /\
  (~ blt b a -> SubsetAccumulation s (Some a) (Some b) = Ok (sum_between a b l)) /\
  TotalAccumulatedValue s = Ok (sum_at Eq [] l).
Proof.
  intros T. pose proof T as (_ & F & B).
  assert (Bd : forall k, 0 <= sum_at Lt k l /\ 0 <= sum_at Eq k l /\ 0 <= sum_at Gt k l /\
                         sum_at Lt k l + sum_at Eq k l + sum_at Gt k l = total l).
  { intros k. pose proof (sum_at_bound Lt k l F). pose proof (sum_at_bound Eq k l F).
    pose proof (sum_at_bound Gt k l F). pose proof (sum_at_total k l). lia. }
  pose proof (Bd a). pose proof (Bd b). pose proof (Bd []).
  unfold PrefixSum, TotalAccumulatedValue, SubsetAccumulation.
  rewrite !(SplitAcc_holds s l _ T). cbn [content bind].
  assert (Z0 : sum_at Lt [] l = 0).
  { unfold sum_at. replace (filter _ l) with (@nil (bytes * Z)); [reflexivity|].
    induction l as [|kv l' IH]; [reflexivity|]. clear. induction (kv :: l') as [|[k v] t IH]; [reflexivity|].
    cbn [filter fst]. destruct k; cbn [bcompare]; exact IH. }
  split; [reflexivity|]. split; [now rewrite int_Add_total by lia|]. split; [now rewrite int_Add_total by lia|].
  split; [|rewrite int_Add_total by lia; now rewrite Z0].
  intros N. pose proof (sum_between_split a b l N).
  rewrite int_Add_total by lia. cbn [bind]. rewrite int_Sub_total; [f_equal; lia|].
  pose proof (sum_at_bound Gt b l F). lia.
Qed.

End Queries.

(** *** Trees built by the operations *)

Definition sets (m : Z) (ks : list Z) (r : Res (list (bytes * list Child))) : Res (list (bytes * list Child)) :=
  fold_left (fun r k => s <- r ;; Set_ (K := assoc_store) m 20 s (Some [k]) k) ks r.
Definition removes (m : Z) (ks : list Z) (r : Res (list (bytes * list Child))) : Res (list (bytes * list Child)) :=
  fold_left (fun r k => s <- r ;; Remove (K := assoc_store) m 20 s (Some [k])) ks r.
Definition new_tree (m : Z) : Res (list (bytes * list Child)) := NewTree (K := assoc_store) m 20 [].

(** A tree of order 2 with the empty key, 1 and 2: two levels of branches. *)
Definition small_tree : list (bytes * list Child) :=
  Eval vm_compute in match sets 2 [1; 2] (new_tree 2) with Ok s => s | _ => [] end.

Lemma small_tree_ok : tree_ok (K := assoc_store) small_tree [([], 0); ([1], 1); ([2], 2)].
Proof.
  split; [|split; [repeat constructor; vm_compute; congruence | vm_compute; reflexivity]].
  exists 2%nat. split; [vm_compute; reflexivity|].
  exists [ {| Index := []; Accumulation := 1 |}; {| Index := [2]; Accumulation := 2 |} ], [ [([], 0); ([1], 1)]; [([2], 2)] ].
  split; [vm_compute; reflexivity|]. split; [reflexivity|]. split; [|reflexivity].
  split; [|split; [reflexivity|]; split; [intros c' [<- | []]; split; [reflexivity | repeat constructor]|];
    split; [|split; [reflexivity|]; split; [intros c' [] | exact I]]].
  - exists [ {| Index := []; Accumulation := 0 |}; {| Index := [1]; Accumulation := 1 |} ], [ [([], 0)]; [([1], 1)] ].
    split; [vm_compute; reflexivity|]. split; [reflexivity|]. split; [|reflexivity].
    split; [exists 0; split; vm_compute; reflexivity|]. split; [reflexivity|].
    split; [intros c' [<- | []]; split; [reflexivity | repeat constructor]|].
    split; [exists 1; split; vm_compute; reflexivity|]. split; [reflexivity|]. split; [intros c' [] | exact I].
  - exists [ {| Index := [2]; Accumulation := 2 |} ], [ [([2], 2)] ].
    split; [vm_compute; reflexivity|]. split; [reflexivity|]. split; [|reflexivity].
    split; [exists 2; split; vm_compute; reflexivity|]. split; [reflexivity|]. split; [intros c' [] | exact I].
Qed.

Lemma SubsetAccumulation_correct_witness :
  PrefixSum (K := assoc_store) small_tree (Some [1]) = Ok 1 /\
  TotalAccumulatedValue (K := assoc_store) small_tree = Ok 0.
Proof.
  destruct (SubsetAccumulation_correct (K := assoc_store) small_tree _ [1] [1] small_tree_ok)
    as (_ & P & _ & _ & T).
  split; [exact P | exact T].
Defined.

(** Removal can leave a tree on which queries fail or are wrong, at the
    order 10 the chain uses.  After setting 1..10 and removing 6, the first key
    of the second leaf node, a prefix sum at 6 indexes a slice at -1 and
    panics.  After setting 1..24 (each key with itself as its value) and
    removing 2..5, 13..17 and then 6..11, the emptied node makes its two
    neighbours merge, the merged node is recorded with the sum of its left part
    alone, and the prefix sum at 20 is 58 although the leaves up to 20 sum to
    70. *)
Theorem sumtree_removal_defects :
  (s <- removes 10 [6] (sets 10 [1; 2; 3; 4; 5; 6; 7; 8; 9; 10] (new_tree 10)) ;;
   PrefixSum (K := assoc_store) s (Some [6])) = Panic "index out of range [-1]" /\
  (exists s,
     removes 10 [2; 3; 4; 5; 13; 14; 15; 16; 17; 6; 7; 8; 9; 10; 11]
       (sets 10 [1; 2; 3; 4; 5; 6; 7; 8; 9; 10; 11; 12; 13; 14; 15; 16; 17; 18; 19; 20; 21; 22; 23; 24] (new_tree 10)) = Ok s /\
     PrefixSum (K := assoc_store) s (Some [20]) = Ok 58 /\
     (a <- Get (K := assoc_store) s None ;; b <- Get (K := assoc_store) s (Some [1]) ;;
      c <- Get (K := assoc_store) s (Some [12]) ;; d <- Get (K := assoc_store) s (Some [18]) ;;
      e <- Get (K := assoc_store) s (Some [19]) ;; f <- Get (K := assoc_store) s (Some [20]) ;;
      Ok (a + b + c + d + e + f)) = Ok 70).
Proof.
  split; [vm_compute; reflexivity|].
  eexists. split; [vm_compute; reflexivity|]. split; vm_compute; reflexivity.
Qed.
