(* ===== verification/SumTreeSet.v ===== *)
(** * Insertion into the accumulation store ([osmoutils/sumtree])

    A stored tree is described level by level: the entries of level [lv], read
    from left to right over its nodes, are exactly the nodes of the level below
    with the sums of what they hold, and the top level is one node with the
    empty key ([tower]).  [Set] splits nodes on its way up and leaves sums
    stale until it comes back, so the statements about [updateAccumulation] and
    [push] speak of the levels from the one they start at, over any list of
    entries that level has to hold.  The result: setting a leaf is an update of
    the sorted list of leaves, it keeps the tree well formed, and it cannot
    fail while the sums are far from the 256-bit limit. *)

From Stdlib Require Import ZArith Lia List Bool String Sorted.
From S2P Require Import Prelude GoBig SdkMath Store SumTree.
Import ListNotations.

(** ** Entries in the order of their keys *)

Definition ilt (c d : Child) : Prop := blt (Index c) (Index d).
Definition indices (D : list Child) : list bytes := map Index D.

Fixpoint put (c : Child) (D : list Child) : list Child :=
  match D with
  | [] => [c]
  | d :: D' =>
      match bcompare (Index d) (Index c) with
      | Eq => c :: D'
      | Gt => c :: d :: D'
      | Lt => d :: put c D'
      end
  end.

Definition acc_sum (D : list Child) : Z := zsum (map Accumulation D).
Definition abs_sum (D : list Child) : Z := zsum (map (fun c => Z.abs (Accumulation c)) D).

Lemma acc_sum_app D1 D2 : acc_sum (D1 ++ D2) = acc_sum D1 + acc_sum D2.
Proof. unfold acc_sum. now rewrite map_app, zsum_app. Qed.
Lemma abs_sum_app D1 D2 : abs_sum (D1 ++ D2) = abs_sum D1 + abs_sum D2.
Proof. unfold abs_sum. now rewrite map_app, zsum_app. Qed.
Lemma abs_sum_nonneg D : 0 <= abs_sum D.
Proof. unfold abs_sum, zsum. induction D; cbn; lia. Qed.
Lemma acc_sum_abs D : Z.abs (acc_sum D) <= abs_sum D.
Proof. unfold acc_sum, abs_sum, zsum. induction D; cbn [map fold_right]; lia. Qed.

Lemma blt_gt a b : blt a b <-> bcompare b a = Gt.
Proof. unfold blt. rewrite (bcompare_antisym a b). destruct (bcompare a b); cbn; split; congruence. Qed.

Lemma put_app_l c D1 D : Forall (fun d => ilt d c) D1 -> put c (D1 ++ D) = D1 ++ put c D.
Proof.
  induction 1 as [|d D1 L _ IH]; [reflexivity|]. cbn [app put]. unfold ilt, blt in L. now rewrite L, IH.
Qed.

Lemma put_app_r c D1 D2 : Forall (fun d => ilt c d) D2 -> put c (D1 ++ D2) = put c D1 ++ D2.
Proof.
  intros F. induction D1 as [|d D1 IH]; cbn [app put].
  - destruct D2 as [|e D2]; [reflexivity|]. inversion F as [|? ? L]; subst. unfold ilt in L.
    cbn [put]. now rewrite (proj1 (blt_gt _ _) L).
  - destruct (bcompare (Index d) (Index c)); cbn [app]; now rewrite ?IH.
Qed.

Lemma put_in c D x : In x (put c D) -> x = c \/ In x D.
Proof.
  induction D as [|d D IH]; cbn [put]; [intros [<- | []]; auto|].
  destruct (bcompare (Index d) (Index c)); cbn [In]; intuition.
Qed.

Lemma put_self c D : In c (put c D).
Proof. induction D as [|d D IH]; cbn [put]; [now left|]. destruct (bcompare (Index d) (Index c)); cbn [In]; auto. Qed.

Lemma put_indices c D k : In k (indices (put c D)) <-> k = Index c \/ In k (indices D).
Proof.
  unfold indices. induction D as [|d D IH]; cbn [put map In]; [intuition|].
  destruct (bcompare (Index d) (Index c)) eqn:E; cbn [map In].
  - apply bcompare_eq in E. rewrite E. intuition.
  - rewrite IH. intuition.
  - intuition.
Qed.

Lemma put_sorted c D : StronglySorted ilt D -> StronglySorted ilt (put c D).
Proof.
  induction 1 as [|d D Sd IH F]; cbn [put]; [repeat constructor|].
  destruct (bcompare (Index d) (Index c)) eqn:E.
  - apply bcompare_eq in E. constructor; [exact Sd|]. unfold ilt in *. now rewrite <- E.
  - constructor; [exact IH|]. apply Forall_forall. intros x I. rewrite Forall_forall in F.
    destruct (put_in _ _ _ I) as [-> | I']; [exact E | auto].
  - apply blt_gt in E. constructor; [constructor; assumption|]. constructor; [exact E|].
    revert F. apply Forall_impl. intros x L. eapply blt_trans; [exact E | exact L].
Qed.

Lemma put_head c D a : Index c <> [] -> hd_error (indices D) = Some a -> a = [] -> hd_error (indices (put c D)) = Some [].
Proof.
  intros N H ->. destruct D as [|d D]; [discriminate|]. cbn in H. injection H as H. cbn [put]. rewrite H.
  destruct (Index c) as [|x k] eqn:E; [contradiction|]. cbn. now rewrite H.
Qed.

Lemma put_abs c D : abs_sum (put c D) <= abs_sum D + Z.abs (Accumulation c).
Proof.
  unfold abs_sum, zsum. induction D as [|d D IH]; cbn [put map fold_right]; [lia|].
  destruct (bcompare (Index d) (Index c)); cbn [map fold_right]; lia.
Qed.

Lemma put_length c D : ~ In (Index c) (indices D) -> List.length (put c D) = Datatypes.S (List.length D).
Proof.
  unfold indices. induction D as [|d D IH]; intros N; cbn [put List.length]; [reflexivity|].
  cbn [map In] in N. destruct (bcompare (Index d) (Index c)) eqn:E; cbn [List.length].
  - apply bcompare_eq in E. destruct N. now left.
  - f_equal. apply IH. intros I. apply N. now right.
  - reflexivity.
Qed.

(** [find] followed by [setAcc] or [insert] is [put]. *)
Lemma find_put c D : forall i, exists j,
  (find_from i D (Index c) = ((i + j)%nat, true) /\ In (Index c) (indices D) /\ setAcc D j (Accumulation c) = put c D) \/
  (find_from i D (Index c) = ((i + j)%nat, false) /\ insert D j c = put c D).
Proof.
  induction D as [|d D IH]; intros i; cbn [find_from put].
  - exists 0%nat. right. rewrite Nat.add_0_r. split; reflexivity.
  - destruct (bcompare (Index d) (Index c)) eqn:E.
    + exists 0%nat. left. apply bcompare_eq in E. rewrite Nat.add_0_r. split; [reflexivity|].
      split; [left; exact E|]. cbn [setAcc]. rewrite E. now destruct c.
    + destruct (IH (Datatypes.S i)) as (j & [(F & I & P) | (F & P)]); exists (Datatypes.S j); rewrite F, <- P.
      * left. split; [f_equal; lia|]. split; [now right | reflexivity].
      * right. split; [f_equal; lia | reflexivity].
    + exists 0%nat. right. rewrite Nat.add_0_r. split; reflexivity.
Qed.

Lemma found_in c D : snd (find D (Index c)) = true -> In (Index c) (indices D).
Proof. unfold find. destruct (find_put c D 0) as (j & [(-> & I & _) | (-> & _)]); [auto | discriminate]. Qed.

Lemma find_sorted c D : StronglySorted ilt D -> In (Index c) (indices D) -> snd (find D (Index c)) = true.
Proof.
  unfold find. generalize 0%nat. induction D as [|d D IH]; intros i Sd I; [destruct I|]. inversion Sd as [|? ? Sd' F]; subst.
  cbn [find_from]. destruct (bcompare (Index d) (Index c)) eqn:E; [reflexivity | |].
  - apply IH; [exact Sd'|]. destruct I as [I|I]; [|exact I]. rewrite I, bcompare_refl in E. discriminate.
  - exfalso. destruct I as [I|I]; [rewrite I, bcompare_refl in E; discriminate|].
    apply in_map_iff in I as (x & Ex & Ix). rewrite Forall_forall in F. specialize (F x Ix). unfold ilt in F.
    rewrite Ex in F. unfold blt in F. congruence.
Qed.

(** ** Keys of nodes *)

Definition level_ok (lv : Z) : Prop := 0 <= lv < 2 ^ 16.

Lemma put_uint16_inj a b : level_ok a -> level_ok b -> put_uint16 a = put_uint16 b -> a = b.
Proof.
  unfold level_ok, put_uint16. intros A B H. injection H as H1 H2. rewrite !Z.shiftr_div_pow2 in H1 by lia.
  change (2 ^ 8) with 256 in *. change (2 ^ 16) with 65536 in *. Z.to_euclidean_division_equations. lia.
Qed.

Lemma nodeKey_inj l l' k k' : level_ok l -> level_ok l' -> nodeKey l k = nodeKey l' k' -> l = l' /\ k = k'.
Proof.
  intros L L' H. unfold nodeKey in H. apply app_inv_head in H.
  assert (E : put_uint16 l = put_uint16 l' /\ k = k').
  { unfold put_uint16 in *. cbn [app] in H. injection H as H1 H2 H3. split; [congruence | exact H3]. }
  destruct E as [E1 E2]. split; [now apply put_uint16_inj | exact E2].
Qed.

Lemma nodeKey_app l k : nodeKey l k = nodeKey l [] ++ k.
Proof. unfold nodeKey. now rewrite app_nil_r, app_assoc. Qed.

Lemma put_uint16_byte l : Forall byte (put_uint16 l).
Proof. unfold put_uint16, byte. repeat constructor; apply Z.mod_pos_bound; lia. Qed.

Lemma nodeKey_byte l k : Forall byte k -> Forall byte (nodeKey l k).
Proof.
  intros H. unfold nodeKey. apply Forall_app. split; [repeat constructor; unfold byte; lia|].
  apply Forall_app. split; [apply put_uint16_byte | exact H].
Qed.

Lemma bcompare_nil_l k : bleb [] k = true.
Proof. now destruct k. Qed.

(** ** Levels *)

Section Levels.
Context {K : KVStore (list Child)} {KS : KVStoreSpec K} {P : PrefixEnd} {PS : PrefixEndSpec P}.

Definition nodes : Type := list (bytes * list Child).
Definition klt (x y : bytes * list Child) : Prop := blt (fst x) (fst y).

Definition at_level (s : St) (lv : Z) (L : nodes) : Prop :=
  StronglySorted klt L /\ forall k cs, st_get s (nodeKey lv k) = Some cs <-> In (k, cs) L.

Definition entry (x : bytes * list Child) : Child := {| Index := fst x; Accumulation := acc_sum (snd x) |}.

(** The keys of the store are byte strings and those of nodes have a level. *)
Definition keyed (s : St) : Prop :=
  (forall k v, st_get s k = Some v -> Forall byte k) /\
  (forall r v, st_get s (nodeKeyPrefix ++ r) = Some v -> exists l k, level_ok l /\ r = put_uint16 l ++ k).

Definition begins_with_key (x : bytes * list Child) : Prop :=
  match snd x with c :: _ => Index c = fst x | [] => False end.

(** Nodes have two entries or more, but for a root right above the leaves. *)
Definition occupied (lv : Z) (L : nodes) : Prop :=
  (lv = 1 /\ exists x, L = [x]) \/ Forall (fun x => 2 <= List.length (snd x))%nat L.

Fixpoint tower (s : St) (n : nat) (lv : Z) (D : list Child) : Prop :=
  match n with
  | O => indices D = [[]] /\ forall l k, lv <= l < 2 ^ 16 -> st_get s (nodeKey l k) = None
  | Datatypes.S n' =>
      exists L, D = List.concat (map snd L) /\ at_level s lv L /\ Forall begins_with_key L /\
        occupied lv L /\
        tower s n' (lv + 1) (map entry L)
  end.

Lemma tower_frame s s' n : forall lv D, (forall l k, lv <= l < 2 ^ 16 -> st_get s' (nodeKey l k) = st_get s (nodeKey l k)) ->
  0 <= lv -> lv + Z.of_nat n <= 2 ^ 16 -> tower s n lv D -> tower s' n lv D.
Proof.
  induction n as [|n IH]; intros lv D E L0 L1; cbn [tower].
  - intros (I & N). split; [exact I|]. intros l k B. rewrite E by exact B. auto.
  - intros (L & ED & (Sd & A) & H & O & T). exists L. split; [exact ED|]. split; [split; [exact Sd|]|].
    + intros k cs. rewrite E by lia. apply A.
    + split; [exact H|]. split; [exact O|]. apply (IH (lv + 1)); [intros; apply E; lia | lia | lia | exact T].
Qed.

(** The keys of a level are sorted when the entries are. *)
Lemma sorted_app {A} (R : A -> A -> Prop) l1 l2 : StronglySorted R (l1 ++ l2) <->
  StronglySorted R l1 /\ StronglySorted R l2 /\ forall x y, In x l1 -> In y l2 -> R x y.
Proof.
  induction l1 as [|a l1 IH]; cbn [app].
  - split; [intros H; repeat split; auto; [constructor | intros x y []] | intros (_ & H & _); exact H].
  - split.
    + intros H. inversion H as [|? ? Sd F]; subst. apply IH in Sd as (S1 & S2 & C). rewrite Forall_app in F. destruct F as [F1 F2].
      split; [constructor; assumption|]. split; [exact S2|]. rewrite Forall_forall in F2. intros x y [<- | I] J; auto.
    + intros (S1 & S2 & C). inversion S1 as [|? ? S1' F]; subst. constructor.
      * apply IH. split; [exact S1'|]. split; [exact S2|]. intros x y I J. apply C; [now right | exact J].
      * apply Forall_app. split; [exact F|]. apply Forall_forall. intros y J. apply C; [now left | exact J].
Qed.

Lemma entries_sorted L : StronglySorted klt L <-> StronglySorted ilt (map entry L).
Proof.
  induction L as [|x L IH]; cbn [map]; [split; constructor|]. split; intros H; inversion H as [|? ? Sd F]; subst; constructor; try (now apply IH).
  - apply Forall_map. exact F.
  - rewrite Forall_map in F. exact F.
Qed.

Lemma first_in x : begins_with_key x -> exists c r, snd x = c :: r /\ Index c = fst x.
Proof. unfold begins_with_key. destruct (snd x) as [|c r]; [contradiction|]. eauto. Qed.

(** Entries of a node lie between its key and the next key. *)
Lemma level_split L1 x L2 D : D = List.concat (map snd (L1 ++ x :: L2)) -> StronglySorted ilt D ->
  Forall begins_with_key (L1 ++ x :: L2) ->
  StronglySorted ilt (snd x) /\
  (forall d c, In d (List.concat (map snd L1)) -> In c (snd x) -> ilt d c) /\
  (forall y c, In y L2 -> In c (snd x) -> blt (Index c) (fst y)) /\
  (forall d, In d (List.concat (map snd L1)) -> blt (Index d) (fst x)) /\
  (forall d, In d (List.concat (map snd L2)) -> exists y, In y L2 /\ ~ blt (Index d) (fst y)).
Proof.
  intros -> Sd H. rewrite map_app, concat_app in Sd. cbn [map List.concat] in Sd.
  apply sorted_app in Sd as (S1 & S2 & C1). apply sorted_app in S2 as (Sx & S2 & C2).
  apply Forall_app in H as [_ H]. inversion H as [|? ? Hx H2]; subst.
  split; [exact Sx|]. split; [intros d c I J; apply C1; [exact I | apply in_or_app; now left]|].
  rewrite Forall_forall in H2. split; [|split].
  - intros y c I J. destruct (first_in y (H2 y I)) as (e & r & E & <-). apply (C2 c e J). apply in_concat.
    exists (snd y). split; [now apply in_map|]. rewrite E. now left.
  - intros d I. destruct (first_in x Hx) as (e & r & E & <-). apply (C1 d e I). apply in_or_app. left. rewrite E. now left.
  - intros d I. apply in_concat in I as (cs & I & J). apply in_map_iff in I as (y & <- & I). exists y. split; [exact I|].
    destruct (first_in y (H2 y I)) as (e & r & E & <-). intros B.
    assert (Sy : StronglySorted ilt (snd y)).
    { clear - S2 I. induction L2 as [|z L2 IH]; [destruct I|]. cbn [map List.concat] in S2. apply sorted_app in S2 as (Sz & S2 & _).
      destruct I as [<- | I]; auto. }
    rewrite E in Sy, J. inversion Sy as [|? ? _ F]; subst. rewrite Forall_forall in F. destruct J as [<- | J].
    + exact (blt_irrefl _ B).
    + exact (blt_irrefl _ (blt_trans _ _ _ B (F d J))).
Qed.

(** ** Finding the parent of a node *)

(** [p] is the last node of its level whose key is not above [k]. *)
Definition floor (s : St) (lv : Z) (p : ptr) (k : bytes) : Prop :=
  level p = lv /\ st_get s (nodeKey lv (content (key p))) <> None /\ ~ blt k (content (key p)) /\
  forall k2, st_get s (nodeKey lv k2) <> None -> blt (content (key p)) k2 -> blt k k2.

Lemma exists_pkey s p : exists_ s (Some p) = true <-> st_get s (nodeKey (level p) (content (key p))) <> None.
Proof. unfold exists_, pkey. destruct (st_get s _); split; congruence. Qed.

Lemma not_exists_pkey s p : exists_ s (Some p) = false <-> st_get s (nodeKey (level p) (content (key p))) = None.
Proof. unfold exists_, pkey. destruct (st_get s _); split; congruence. Qed.

Lemma level_range s lv k x v : In (x, v) (st_iter s (Some (nodeKey lv [])) (Some (nodeKey lv k))) ->
  exists y, x = nodeKey lv y /\ blt y k /\ st_get s (nodeKey lv y) = Some v.
Proof.
  intros I. apply st_iter_in in I as [G R]. unfold in_rng in R. apply andb_true_iff in R as [R1 R2].
  rewrite (nodeKey_app lv k) in R2. destruct (between_prefix _ _ _ R1 R2) as (y & ->). exists y.
  rewrite <- nodeKey_app in *. split; [reflexivity|]. split; [|exact G].
  rewrite (nodeKey_app lv y), <- (nodeKey_app lv k), (nodeKey_app lv k), bltb_app in R2. now apply bltb_spec.
Qed.

Lemma parent_floor s lv q : level_ok lv -> level q + 1 = lv -> st_get s (nodeKey lv []) <> None ->
  floor s lv (parent s q) (content (key q)).
Proof.
  intros LO E N. unfold parent, uint16, ptrGet. rewrite E, Z.mod_small by exact LO.
  destruct (exists_ s (Some {| level := lv; key := key q |})) eqn:X.
  { apply exists_pkey in X. cbn [level key] in X. split; [reflexivity|]. split; [exact X|].
    split; [apply blt_irrefl|]. auto. }
  apply not_exists_pkey in X. cbn [level key] in X. destruct (key q) as [k|]; [|contradiction]. cbn [content] in *.
  unfold leftSibling, ptrReverseIterator, endBytes. cbn [level key content]. rewrite st_riter_rev.
  pose proof (st_iter_sorted s (Some (nodeKey lv [])) (Some (nodeKey lv k))) as Sd.
  pose proof (fun x v => level_range s lv k x v) as R.
  assert (C : forall y v, st_get s (nodeKey lv y) = Some v -> blt y k ->
    In (nodeKey lv y, v) (st_iter s (Some (nodeKey lv [])) (Some (nodeKey lv k)))).
  { intros y v G L. apply st_iter_in. split; [exact G|]. unfold in_rng. rewrite (nodeKey_app lv y), (nodeKey_app lv k).
    rewrite bltb_app, (proj2 (bltb_spec _ _) L), andb_true_r. rewrite <- (app_nil_r (nodeKey lv [])) at 1.
    rewrite bleb_app. apply bcompare_nil_l. }
  destruct (st_get s (nodeKey lv [])) as [v0|] eqn:G0; [|contradiction].
  assert (L0 : blt [] k) by (destruct k; [congruence | reflexivity]).
  pose proof (C [] v0 G0 L0) as I0.
  destruct (rev (st_iter s (Some (nodeKey lv [])) (Some (nodeKey lv k)))) as [|[x v] r] eqn:Er.
  { apply in_rev in I0. rewrite Er in I0. destruct I0. }
  assert (Ix : In (x, v) (st_iter s (Some (nodeKey lv [])) (Some (nodeKey lv k)))) by (apply in_rev; rewrite Er; now left).
  destruct (R x v Ix) as (y & -> & Ly & Gy).
  replace (iter_ptr lv ((nodeKey lv y, v) :: r)) with (Some {| level := lv; key := Some y |}) by reflexivity.
  assert (Xy : exists_ s (Some {| level := lv; key := Some y |}) = true) by (apply exists_pkey; cbn [level key content]; congruence).
  rewrite Xy. split; [reflexivity|]. cbn [key content]. split; [congruence|].
  split; [intros B; exact (blt_irrefl _ (blt_trans _ _ _ B Ly))|].
  intros k2 N2 L2. destruct (st_get s (nodeKey lv k2)) as [v2|] eqn:G2; [|contradiction].
  destruct (bcompare k k2) eqn:B; [apply bcompare_eq in B as <-; congruence | exact B |].
  exfalso. apply blt_gt in B. pose proof (C k2 v2 G2 B) as I2.
  rewrite <- (rev_involutive (st_iter s _ _)) in Sd, I2. rewrite Er in Sd, I2. cbn [rev] in Sd, I2.
  apply sorted_app in Sd as (_ & _ & Cr). apply in_app_or in I2 as [I2 | [I2 | []]].
  - specialize (Cr _ _ I2 (or_introl eq_refl)). unfold key_lt in Cr. cbn [fst] in Cr.
    rewrite (nodeKey_app lv k2), (nodeKey_app lv y) in Cr. unfold blt in Cr. rewrite bcompare_app in Cr.
    exact (blt_irrefl _ (blt_trans _ _ _ Cr L2)).
  - apply (f_equal fst) in I2. cbn [fst] in I2. apply nodeKey_inj in I2 as [_ <-]; [|exact LO | exact LO].
    exact (blt_irrefl _ L2).
Qed.

Lemma parent_none s lv q : keyed s -> level_ok lv -> level q + 1 = lv -> (forall k, st_get s (nodeKey lv k) = None) ->
  parent s q = {| level := lv; key := None |}.
Proof.
  intros [KB _] LO E N. unfold parent, uint16, ptrGet. rewrite E, Z.mod_small by exact LO.
  rewrite (proj2 (not_exists_pkey s {| level := lv; key := key q |})) by apply N.
  unfold leftSibling, ptrReverseIterator, endBytes. cbn [level key content]. rewrite st_riter_rev.
  destruct (key q) as [k|].
  - destruct (st_iter s (Some (nodeKey lv [])) (Some (nodeKey lv k))) as [|[x v] r] eqn:I; [reflexivity|].
    destruct (level_range s lv k x v) as (y & _ & _ & G); [rewrite I; now left | rewrite N in G; discriminate].
  - destruct (st_iter s (Some (nodeKey lv [])) (PrefixEndBytes (nodeKey lv []))) as [|[x v] r] eqn:I; [reflexivity|].
    assert (Ix : In (x, v) (st_iter s (Some (nodeKey lv [])) (PrefixEndBytes (nodeKey lv [])))) by (rewrite I; now left).
    apply st_iter_in in Ix as [G R]. apply PrefixEndBytes_range in R; [|apply nodeKey_byte; constructor | eapply KB; exact G].
    destruct R as (y & ->). rewrite <- nodeKey_app in G. rewrite N in G. discriminate.
Qed.

(** The node the floor of a key names, in the list of the level. *)
Lemma floor_split s lv L p k : at_level s lv L -> floor s lv p k ->
  exists L1 cs L2, L = L1 ++ (content (key p), cs) :: L2 /\ st_get s (nodeKey lv (content (key p))) = Some cs /\
    (forall y, In y L2 -> blt k (fst y)) /\ ~ blt k (content (key p)).
Proof.
  intros (Sd & A) (_ & X & N & U). destruct (st_get s (nodeKey lv (content (key p)))) as [cs|] eqn:G; [|contradiction].
  destruct (in_split _ _ (proj1 (A _ _) G)) as (L1 & L2 & ->). exists L1, cs, L2. repeat split; auto.
  intros [y cy] I. cbn [fst]. apply sorted_app in Sd as (_ & Sd & _). inversion Sd as [|? ? _ F]; subst.
  rewrite Forall_forall in F. apply U; [|exact (F _ I)].
  rewrite (proj2 (A y cy)); [discriminate|]. apply in_or_app. right. now right.
Qed.

End Levels.

(** ** Writing nodes *)

Section Writes.
Context {K : KVStore (list Child)} {KS : KVStoreSpec K}.

Inductive writes (s : St) : St -> Prop :=
| writes_refl : writes s s
| writes_set s1 l k cs : writes s s1 -> level_ok l -> Forall byte k -> writes s (st_set s1 (nodeKey l k) cs).

Lemma writes_trans s s1 s2 : writes s s1 -> writes s1 s2 -> writes s s2.
Proof. intros A B. induction B; [exact A | now constructor]. Qed.

Lemma writes_keyed s s' : writes s s' -> keyed s -> keyed s'.
Proof.
  intros W [A B]. induction W as [|s1 l k cs W [IA IB] LO HB]; [now split|]. split; intros k' v G; rewrite st_get_set in G.
  - destruct (bcompare (nodeKey l k) k') eqn:E; eauto. apply bcompare_eq in E as <-. now apply nodeKey_byte.
  - destruct (bcompare (nodeKey l k) (nodeKeyPrefix ++ k')) eqn:E; eauto. apply bcompare_eq in E. unfold nodeKey in E.
    apply app_inv_head in E. exists l, k. auto.
Qed.

Lemma set_other_level s l k cs l' k' : level_ok l -> level_ok l' -> l <> l' ->
  st_get (st_set s (nodeKey l k) cs) (nodeKey l' k') = st_get s (nodeKey l' k').
Proof.
  intros A B N. rewrite st_get_set. destruct (bcompare _ _) eqn:E; try reflexivity.
  apply bcompare_eq in E. apply nodeKey_inj in E as [E _]; [contradiction | assumption | assumption].
Qed.

Lemma set_level s l k cs k' : level_ok l ->
  st_get (st_set s (nodeKey l k) cs) (nodeKey l k') = match bcompare k k' with Eq => Some cs | _ => st_get s (nodeKey l k') end.
Proof. intros A. rewrite st_get_set, (nodeKey_app l k), (nodeKey_app l k'), bcompare_app. reflexivity. Qed.

Lemma replace_level s lv L1 k cs L2 cs' : level_ok lv -> at_level s lv (L1 ++ (k, cs) :: L2) ->
  at_level (st_set s (nodeKey lv k) cs') lv (L1 ++ (k, cs') :: L2).
Proof.
  intros LO [Sd A]. split.
  - apply sorted_app in Sd as (S1 & S2 & C). inversion S2 as [|? ? S2' F]; subst. apply sorted_app.
    split; [exact S1|]. split; [constructor; [exact S2' | exact F]|]. intros x y I [<- | J].
    + apply (C x (k, cs) I). now left.
    + apply (C x y I). now right.
  - intros k' v. rewrite set_level by exact LO. apply sorted_app in Sd as (_ & S2 & C). inversion S2 as [|? ? _ F]; subst.
    rewrite Forall_forall in F. destruct (bcompare k k') eqn:E.
    + apply bcompare_eq in E as <-. split.
      * intros H. injection H as <-. apply in_or_app. right. now left.
      * intros I. f_equal. apply in_app_or in I as [I | [I | I]].
        -- destruct (blt_irrefl k (C _ (k, cs) I (or_introl eq_refl))).
        -- now injection I.
        -- destruct (blt_irrefl k (F _ I)).
    + rewrite (A k' v). split; intros I; apply in_app_or in I as [I | [I | I]]; apply in_or_app; auto using in_cons;
        injection I as -> _; rewrite bcompare_refl in E; discriminate.
    + rewrite (A k' v). split; intros I; apply in_app_or in I as [I | [I | I]]; apply in_or_app; auto using in_cons;
        injection I as -> _; rewrite bcompare_refl in E; discriminate.
Qed.

Lemma insert_level s lv L1 x L2 k2 cs2 : level_ok lv -> at_level s lv (L1 ++ x :: L2) -> blt (fst x) k2 ->
  (forall y, In y L2 -> blt k2 (fst y)) ->
  at_level (st_set s (nodeKey lv k2) cs2) lv (L1 ++ x :: (k2, cs2) :: L2).
Proof.
  intros LO [Sd A] B U. apply sorted_app in Sd as (S1 & S2 & C). inversion S2 as [|? ? S2' F]; subst.
  assert (Sd' : StronglySorted klt (L1 ++ x :: (k2, cs2) :: L2)).
  { apply sorted_app. split; [exact S1|]. split.
    - constructor; [constructor; [exact S2' | apply Forall_forall; exact U]|]. constructor; [exact B | exact F].
    - intros z y I [<- | [<- | J]].
      + apply C; [exact I | now left].
      + eapply blt_trans; [apply (C z x I); now left | exact B].
      + apply C; [exact I | now right]. }
  split; [exact Sd'|]. intros k' v. rewrite set_level by exact LO.
  assert (N : forall z, In z (L1 ++ x :: L2) -> fst z <> k2).
  { intros z I E. apply in_app_or in I as [I | [<- | I]].
    - apply (blt_irrefl k2). rewrite <- E at 1. eapply blt_trans; [apply (C z x I); now left | exact B].
    - apply (blt_irrefl k2). rewrite <- E at 1. exact B.
    - apply (blt_irrefl k2). rewrite <- E at 2. exact (U z I). }
  assert (J : In (k', v) (L1 ++ x :: (k2, cs2) :: L2) <-> (k', v) = (k2, cs2) \/ In (k', v) (L1 ++ x :: L2)).
  { rewrite !in_app_iff. cbn [In]. intuition. }
  rewrite J. destruct (bcompare k2 k') eqn:E.
  - apply bcompare_eq in E as <-. split; [intros H; injection H as <-; now left|].
    intros [H | H]; [now injection H as -> | destruct (N _ H eq_refl)].
  - rewrite (A k' v). split; [auto|]. intros [H | H]; [|exact H]. injection H as -> _. rewrite bcompare_refl in E. discriminate.
  - rewrite (A k' v). split; [auto|]. intros [H | H]; [|exact H]. injection H as -> _. rewrite bcompare_refl in E. discriminate.
Qed.

Definition below (s s' : St) (lv : Z) : Prop :=
  forall l k, level_ok l -> l < lv -> st_get s' (nodeKey l k) = st_get s (nodeKey l k).

End Writes.

(** ** Sums *)

Section Sums.
Context {S : SdkMath} {SS : SdkMathSpec S}.

Lemma accumulate_exact_from cs : forall r0 r,
  fold_left (fun res c => r <- res ;; int_Add r (Accumulation c)) cs r0 = Ok r ->
  exists a, r0 = Ok a /\ r = a + acc_sum cs.
Proof.
  induction cs as [|c cs IH]; intros r0 r H; cbn [fold_left] in H.
  - exists r. split; [exact H | cbn; lia].
  - apply IH in H as (a & H & ->). apply bind_ok_inv in H as (b & -> & H). apply int_Add_exact in H. subst a. exists b.
    split; [reflexivity|]. change (acc_sum (c :: cs)) with (Accumulation c + acc_sum cs). lia.
Qed.

Lemma accumulate_exact cs r : accumulate cs = Ok r -> r = acc_sum cs.
Proof. intros H. apply accumulate_exact_from in H as (a & H & ->). apply Ok_inj in H. subst a. lia. Qed.

Lemma accumulate_small cs : abs_sum cs < 2 ^ 255 -> accumulate cs = Ok (acc_sum cs).
Proof.
  intros B. unfold accumulate. replace (acc_sum cs) with (0 + acc_sum cs) by lia.
  assert (G : forall r, Z.abs r + abs_sum cs < 2 ^ 255 ->
    fold_left (fun res c => r <- res ;; int_Add r (Accumulation c)) cs (Ok r) = Ok (r + acc_sum cs)).
  { clear B. induction cs as [|c cs IH]; intros r B; cbn [fold_left].
    - f_equal. cbn. lia.
    - pose proof (abs_sum_nonneg cs) as Nn.
      change (abs_sum (c :: cs)) with (Z.abs (Accumulation c) + abs_sum cs) in B.
      change (acc_sum (c :: cs)) with (Accumulation c + acc_sum cs).
      assert (Z.abs (r + Accumulation c) < 2 ^ 255) by lia. rewrite bind_ok, int_Add_total by assumption. rewrite IH by lia. f_equal. lia. }
  apply G. rewrite Z.abs_0. exact B.
Qed.

Lemma entries_abs L : abs_sum (map entry L) <= abs_sum (List.concat (map snd L)).
Proof.
  induction L as [|x L IH]; [reflexivity|]. cbn [map List.concat]. rewrite abs_sum_app.
  change (abs_sum (entry x :: map entry L)) with (Z.abs (acc_sum (snd x)) + abs_sum (map entry L)).
  pose proof (acc_sum_abs (snd x)). lia.
Qed.

End Sums.

(** ** Updates of one level *)

Lemma put_level c L1 kp cs L2 D : D = List.concat (map snd (L1 ++ (kp, cs) :: L2)) -> StronglySorted ilt D ->
  Forall begins_with_key (L1 ++ (kp, cs) :: L2) -> ~ blt (Index c) kp -> (forall y, In y L2 -> blt (Index c) (fst y)) ->
  put c D = List.concat (map snd (L1 ++ (kp, put c cs) :: L2)) /\ (In (Index c) (indices D) -> In (Index c) (indices cs)).
Proof.
  intros E Sd H N U. destruct (level_split _ _ _ _ E Sd H) as (_ & _ & _ & A & B). cbn [fst snd] in *. subst D.
  assert (F1 : Forall (fun d => ilt d c) (List.concat (map snd L1))).
  { apply Forall_forall. intros d I. exact (blt_not_le _ _ _ (A d I) N). }
  assert (F2 : Forall (fun d => ilt c d) (List.concat (map snd L2))).
  { apply Forall_forall. intros d I. destruct (B d I) as (y & J & Ny). exact (blt_not_le _ _ _ (U y J) Ny). }
  rewrite !map_app, !concat_app. cbn [map List.concat snd]. split.
  - now rewrite put_app_l, put_app_r.
  - unfold indices. rewrite !map_app, !in_app_iff. intros [I | [I | I]]; [|exact I|]; exfalso;
      apply in_map_iff in I as (d & E & I).
    + rewrite Forall_forall in F1. specialize (F1 d I). unfold ilt in F1. rewrite E in F1. exact (blt_irrefl _ F1).
    + rewrite Forall_forall in F2. specialize (F2 d I). unfold ilt in F2. rewrite E in F2. exact (blt_irrefl _ F2).
Qed.

Lemma put_entry L1 kp cs L2 a : StronglySorted klt (L1 ++ (kp, cs) :: L2) ->
  put {| Index := kp; Accumulation := a |} (map entry (L1 ++ (kp, cs) :: L2)) =
  map entry L1 ++ {| Index := kp; Accumulation := a |} :: map entry L2.
Proof.
  intros Sd. apply sorted_app in Sd as (_ & _ & C). rewrite map_app, put_app_l.
  - cbn [map put entry Index fst]. now rewrite bcompare_refl.
  - apply Forall_map, Forall_forall. intros x I. apply (C x (kp, cs) I). now left.
Qed.

Lemma put_entry_new L1 x L2 k2 a : StronglySorted klt (L1 ++ x :: L2) -> blt (fst x) k2 -> (forall y, In y L2 -> blt k2 (fst y)) ->
  put {| Index := k2; Accumulation := a |} (map entry (L1 ++ x :: L2)) =
  map entry L1 ++ entry x :: {| Index := k2; Accumulation := a |} :: map entry L2.
Proof.
  intros Sd B U. apply sorted_app in Sd as (_ & _ & C). rewrite map_app, put_app_l.
  - cbn [map put entry Index]. unfold blt in B. rewrite B. f_equal. f_equal.
    destruct L2 as [|y L2]; [reflexivity|]. cbn [map put entry Index]. rewrite (proj1 (blt_gt _ _) (U y (or_introl eq_refl))). reflexivity.
  - apply Forall_map, Forall_forall. intros z I. eapply blt_trans; [apply (C z x I); now left | exact B].
Qed.

Lemma first_key L D : D = List.concat (map snd L) -> Forall begins_with_key L -> hd_error (indices D) = Some [] ->
  hd_error (indices (map entry L)) = Some [].
Proof.
  intros -> F H. destruct L as [|x L]; [discriminate|]. inversion F as [|? ? Fx _]; subst.
  destruct (first_in x Fx) as (c & r & E & K). cbn in H |- *. rewrite E in H. cbn in H. now rewrite <- K.
Qed.

(** The keys of a level are keys of the level below. *)
Lemma entries_below L D k : D = List.concat (map snd L) -> Forall begins_with_key L -> In k (indices (map entry L)) -> In k (indices D).
Proof.
  intros -> BK I. unfold indices in I. rewrite map_map in I. apply in_map_iff in I as (x & <- & Ix).
  rewrite Forall_forall in BK. destruct (first_in x (BK x Ix)) as (e & r & Ee & Ef).
  change (In (fst x) (indices (List.concat (map snd L)))). rewrite <- Ef. apply in_map, in_concat.
  exists (snd x). split; [now apply in_map | rewrite Ee; now left].
Qed.

Lemma entries_byte L D : D = List.concat (map snd L) -> Forall begins_with_key L -> (forall k, In k (indices D) -> Forall byte k) ->
  forall k, In k (indices (map entry L)) -> Forall byte k.
Proof. intros E BK HB k I. eapply HB, entries_below; eauto. Qed.

Lemma put_begins c kp cs : begins_with_key (kp, cs) -> ~ blt (Index c) kp -> begins_with_key (kp, put c cs).
Proof.
  unfold begins_with_key. cbn [fst snd]. destruct cs as [|d cs]; [contradiction|]. intros E N. cbn [put].
  destruct (bcompare (Index d) (Index c)) eqn:B; [apply bcompare_eq in B; congruence | exact E |].
  apply blt_gt in B. rewrite E in B. contradiction.
Qed.

Lemma put_at_least c cs : (List.length cs <= List.length (put c cs))%nat.
Proof. induction cs as [|d cs IH]; cbn [put List.length]; [lia|]. destruct (bcompare (Index d) (Index c)); cbn [List.length]; lia. Qed.

Lemma Forall_middle {A} (Q : A -> Prop) L1 x y L2 : Forall Q (L1 ++ x :: L2) -> Q y -> Forall Q (L1 ++ y :: L2).
Proof. rewrite !Forall_app. intros [F1 F2] H. inversion F2; subst. auto. Qed.

(** The occupancy of a level survives the growth of a node. *)
Lemma occupied_grow lv L1 (kp : bytes) (cs cs' : list Child) L2 : (List.length cs <= List.length cs')%nat ->
  occupied lv (L1 ++ (kp, cs) :: L2) -> occupied lv (L1 ++ (kp, cs') :: L2).
Proof.
  intros G [(E1 & x & E) | F].
  - left. split; [exact E1|]. destruct L1 as [|y L1]; [|destruct L1; discriminate]. cbn in E. injection E as _ ->. now exists (kp, cs').
  - right. eapply Forall_middle; [exact F|]. apply Forall_app in F as [_ F]. inversion F; subst. cbn [snd] in *. lia.
Qed.

Section Insert.
Context {S : SdkMath} {SS : SdkMathSpec S} {K : KVStore (list Child)} {KS : KVStoreSpec K} {P : PrefixEnd} {PS : PrefixEndSpec P}.

Definition at_ptr (s : St) (n : nat) (lv : Z) (p : ptr) (k : bytes) : Prop :=
  match n with O => p = {| level := lv; key := None |} | _ => floor s lv p k end.

Lemma tower_first s n lv D : tower s (Datatypes.S n) lv D -> hd_error (indices D) = Some [] -> st_get s (nodeKey lv []) <> None.
Proof.
  intros (L & E & (_ & A) & F & _) H. pose proof (first_key L D E F H) as H1. destruct L as [|[k cs] L]; [discriminate|].
  cbn in H1. injection H1 as ->. rewrite (proj2 (A [] cs)); [discriminate | now left].
Qed.

Lemma parent_at s n lv D q : keyed s -> tower s n lv D -> hd_error (indices D) = Some [] -> level_ok lv -> level q + 1 = lv ->
  at_ptr s n lv (parent s q) (content (key q)).
Proof.
  intros Kd T H LO E. destruct n as [|n]; cbn [at_ptr].
  - destruct T as [_ N]. apply parent_none; auto. intros k. apply N. unfold level_ok in LO. lia.
  - apply parent_floor; auto. eapply tower_first; eauto.
Qed.

Lemma tower_above s s' n lv D : (forall l k, lv < l < 2 ^ 16 -> st_get s' (nodeKey l k) = st_get s (nodeKey l k)) ->
  0 <= lv -> lv + 1 + Z.of_nat n <= 2 ^ 16 -> tower s n (lv + 1) D -> tower s' n (lv + 1) D.
Proof. intros E L0 L1. apply tower_frame; [intros l k B; apply E; lia | lia | lia]. Qed.

(** [updateAccumulation]: the entry of one key changes, the sums above follow. *)
Lemma update_tower n : forall fuel s lv D p c,
  keyed s -> tower s n lv D -> StronglySorted ilt D -> In (Index c) (indices D) -> hd_error (indices D) = Some [] ->
  (forall k, In k (indices D) -> Forall byte k) ->
  1 <= lv -> lv + Z.of_nat n < 2 ^ 16 -> (n <= fuel)%nat -> at_ptr s n lv p (Index c) ->
  (forall s', updateAccumulation fuel s p c = Ok s' -> tower s' n lv (put c D) /\ writes s s' /\ below s s' lv) /\
  ((Z.of_nat n + 1) * abs_sum D + Z.abs (Accumulation c) < 2 ^ 255 -> exists s', updateAccumulation fuel s p c = Ok s').
Proof.
  induction n as [|n IH]; intros fuel s lv D p c Kd T Sd I H HB L1 Ln Hf Hp; cbn [at_ptr] in Hp.
  - subst p. assert (E : updateAccumulation fuel s {| level := lv; key := None |} c = Ok s).
    { assert (X : exists_ s (Some {| level := lv; key := None |}) = false) by (apply not_exists_pkey, (proj2 T); cbn [level]; lia).
      destruct fuel; cbn [updateAccumulation]; now rewrite X. }
    rewrite E. split; [|eauto]. intros s' Es. apply Ok_inj in Es as <-. split; [|split; [constructor | now intros l k]].
    destruct T as [T1 T2]. split; [|exact T2]. destruct D as [|d [|]]; try discriminate. cbn in T1. injection T1 as T1.
    cbn in I. destruct I as [I | []]. cbn [put]. rewrite I, bcompare_refl. cbn. now rewrite <- I, T1.
  - destruct T as (L & ED & AL & BK & OC & T). destruct fuel as [|fuel]; [lia|].
    destruct (floor_split s lv L p (Index c) AL Hp) as (La & cs & Lb & -> & G & U & N). destruct Hp as (Lp & _).
    destruct (put_level c La (content (key p)) cs Lb D ED Sd BK N U) as [EP IP]. specialize (IP I).
    assert (LO : level_ok lv) by (unfold level_ok; lia).
    assert (Scs : StronglySorted ilt cs) by apply (level_split _ _ _ _ ED Sd BK).
    cbn [updateAccumulation]. rewrite (proj2 (exists_pkey s p)) by (rewrite Lp; congruence). cbn [negb].
    unfold node, set, pkey. rewrite Lp, G. unfold find. destruct (find_put c cs 0) as (j & F).
    pose proof (find_sorted c cs Scs IP) as Fs. unfold find in Fs. destruct F as [(F & _ & F2) | (F & _)]; rewrite F in Fs; [|discriminate].
    rewrite F. cbn [negb fst Nat.add]. rewrite F2. set (cs' := put c cs) in *. set (kp := content (key p)) in *.
    set (s1 := st_set s (nodeKey lv kp) cs').
    assert (Kp : In kp (indices (map entry (La ++ (kp, cs) :: Lb)))).
    { unfold indices. rewrite map_map, in_map_iff. exists (kp, cs). split; [reflexivity | apply in_or_app; right; now left]. }
    assert (HBe : forall k, In k (indices (map entry (La ++ (kp, cs) :: Lb))) -> Forall byte k).
    { eapply entries_byte; eauto. }
    assert (W1 : writes s s1) by (constructor; [constructor | exact LO | now apply HBe]).
    assert (T1 : tower s1 n (lv + 1) (map entry (La ++ (kp, cs) :: Lb))).
    { apply (tower_above s); try lia; [|exact T]. intros l k B. apply set_other_level; unfold level_ok; lia. }
    assert (H1 : hd_error (indices (map entry (La ++ (kp, cs) :: Lb))) = Some []) by (eapply first_key; eauto).
    pose proof (writes_keyed _ _ W1 Kd) as Kd1.
    pose proof (parent_at s1 n (lv + 1) _ p Kd1 T1 H1 ltac:(unfold level_ok; lia) ltac:(lia)) as Pa.
    destruct AL as [SL AL].
    assert (Ab : abs_sum cs' <= abs_sum D + Z.abs (Accumulation c)).
    { unfold cs'. pose proof (put_abs c cs). rewrite ED, map_app, concat_app. cbn [map List.concat snd]. rewrite !abs_sum_app.
      pose proof (abs_sum_nonneg (List.concat (map snd La))). pose proof (abs_sum_nonneg (List.concat (map snd Lb))). lia. }
    pose proof (abs_sum_nonneg D) as Dn. pose proof (entries_abs (La ++ (kp, cs) :: Lb)) as Ea. rewrite <- ED in Ea.
    destruct (accumulate cs') as [acc|e|e] eqn:Acc; cbn [bind];
      [|split; [discriminate | intros B; rewrite accumulate_small in Acc by nia; discriminate] ..].
    apply accumulate_exact in Acc. subst acc.
    destruct (IH fuel s1 (lv + 1) (map entry (La ++ (kp, cs) :: Lb)) (parent s1 p) {| Index := kp; Accumulation := acc_sum cs' |})
      as [R1 R2]; auto; try lia; [now apply entries_sorted|].
    pose proof (acc_sum_abs cs') as Aa. split.
    + intros s' E. destruct (R1 s' E) as (T' & W' & B'). split; [|split; [exact (writes_trans _ _ _ W1 W')|]].
      * exists (La ++ (kp, cs') :: Lb). split; [exact EP|].
        split; [|split; [eapply Forall_middle; [exact BK|]; apply put_begins; [|exact N]; apply Forall_app in BK as [_ BK]; now inversion BK|]].
        -- destruct (replace_level s lv La kp cs Lb cs' LO (conj SL AL)) as [Sr Ar]. split; [exact Sr|].
           intros k v. rewrite <- (Ar k v). rewrite B' by (auto; lia). reflexivity.
        -- split; [eapply occupied_grow; [apply put_at_least | exact OC]|].
           rewrite put_entry in T' by exact SL. rewrite map_app. exact T'.
      * intros l k LOl Ll. rewrite B' by (auto; lia). apply set_other_level; auto. lia.
    + intros B. apply R2. cbn [Accumulation]. rewrite Nat2Z.inj_succ in B.
      assert (abs_sum (map entry (La ++ (kp, cs) :: Lb)) * (Z.of_nat n + 1) <= abs_sum D * (Z.of_nat n + 1))
        by (apply Z.mul_le_mono_nonneg_r; lia). lia.
Qed.

Variable m : Z.
Hypothesis m_ok : 3 <= m < 256.

Definition split_at : nat := Z.to_nat (m / 2 + 1).

Lemma split_at_code : Z.to_nat ((m / 2 + 1) mod 256) = split_at.
Proof. unfold split_at. f_equal. apply Z.mod_small. pose proof (Z.div_le_upper_bound m 2 128 ltac:(lia) ltac:(lia)). pose proof (Z.div_pos m 2). lia. Qed.

(** Both halves of an overfull node keep two entries or more. *)
Lemma halves (cs : list Child) : m < Z.of_nat (List.length cs) ->
  exists left c' right, cs = left ++ c' :: right /\ firstn split_at cs = left /\ skipn split_at cs = c' :: right /\
    nth_error cs split_at = Some c' /\ (2 <= List.length left)%nat /\ (2 <= List.length (c' :: right))%nat.
Proof.
  intros L. assert (B : (2 <= split_at)%nat /\ (split_at + 2 <= List.length cs)%nat).
  { unfold split_at. Z.to_euclidean_division_equations. lia. }
  destruct (skipn split_at cs) as [|c' right] eqn:E.
  { apply (f_equal (@List.length _)) in E. rewrite length_skipn in E. cbn in E. lia. }
  exists (firstn split_at cs), c', right. rewrite <- E. split; [symmetry; apply firstn_skipn|]. split; [reflexivity|].
  split; [reflexivity|]. split.
  - rewrite <- (firstn_skipn split_at cs) at 1. rewrite nth_error_app2; rewrite length_firstn; [|lia].
    replace (split_at - Nat.min split_at (List.length cs))%nat with 0%nat by lia. now rewrite E.
  - rewrite length_firstn, length_skipn. lia.
Qed.

Lemma level_key s n lv D k : tower s (Datatypes.S n) lv D -> st_get s (nodeKey lv k) <> None -> In k (indices D).
Proof.
  intros (L & E & (_ & A) & F & _) N. destruct (st_get s (nodeKey lv k)) as [cs|] eqn:G; [|contradiction].
  eapply entries_below; eauto. apply A in G. unfold indices. rewrite map_map. apply in_map_iff. now exists (k, cs).
Qed.

Definition budget (n : nat) (D : list Child) (c : Child) : Z :=
  (Z.of_nat n + 4) * (Z.of_nat n + 4) * abs_sum D + (Z.of_nat n + 4) * Z.abs (Accumulation c).

Lemma at_level_below s s' lv L : level_ok lv -> below s s' (lv + 1) -> at_level s lv L -> at_level s' lv L.
Proof. intros LO B [Sd A]. split; [exact Sd|]. intros k cs. rewrite B by (auto; lia). apply A. Qed.

Lemma close_level s n lv k cs L : 0 <= lv -> lv + 1 + Z.of_nat n < 2 ^ 16 -> tower s n (lv + 1) (map entry L) ->
  at_level (st_set s (nodeKey lv k) cs) lv L -> Forall begins_with_key L ->
  occupied lv L ->
  tower (st_set s (nodeKey lv k) cs) (Datatypes.S n) lv (List.concat (map snd L)).
Proof.
  intros L0 Ln T A F O. exists L. repeat split; auto; try apply A.
  apply (tower_above s); auto; [|lia]. intros l k' B. apply set_other_level; unfold level_ok; lia.
Qed.

Lemma below_set s s' lv k cs : level_ok lv -> below s s' lv -> below s (st_set s' (nodeKey lv k) cs) lv.
Proof. intros LO B l k' LOl Ll. rewrite set_other_level by (auto; lia). now apply B. Qed.

Lemma below_weaken s s' lv : below s s' (lv + 1) -> below s s' lv.
Proof. intros B l k LO L. apply B; [exact LO | lia]. Qed.

Lemma below_trans s s1 s2 lv : below s s1 lv -> below s1 s2 lv -> below s s2 lv.
Proof. intros A B l k LO L. rewrite B, A by assumption. reflexivity. Qed.

(** A node that overflows: the keys of its two halves, around the new one. *)
Lemma halves_level c La kp cs Lb D left c' right : D = List.concat (map snd (La ++ (kp, cs) :: Lb)) -> StronglySorted ilt D ->
  Forall begins_with_key (La ++ (kp, cs) :: Lb) -> ~ blt (Index c) kp -> (forall y, In y Lb -> blt (Index c) (fst y)) ->
  put c cs = left ++ c' :: right -> (2 <= List.length left)%nat ->
  begins_with_key (kp, left) /\ blt kp (Index c') /\ (forall y, In y Lb -> blt (Index c') (fst y)).
Proof.
  intros E Sd BK N U EP Ln. destruct (level_split _ _ _ _ E Sd BK) as (Scs & _ & Up & _). cbn [fst snd] in *.
  apply Forall_app in BK as [_ BK]. inversion BK as [|? ? Bk _]; subst.
  pose proof (put_begins c kp cs Bk N) as Bp. pose proof (put_sorted c cs Scs) as Sp. rewrite EP in Bp, Sp.
  destruct left as [|e left]; [cbn in Ln; lia|]. unfold begins_with_key in *. cbn [fst snd app] in *.
  split; [exact Bp|]. split.
  - rewrite <- Bp. apply (sorted_app ilt (e :: left) (c' :: right)) in Sp as (_ & _ & C).
    apply (C e c'); [now left | now left].
  - intros y I. assert (Ic : In c' (put c cs)) by (rewrite EP; right; apply in_or_app; right; now left).
    destruct (put_in _ _ _ Ic) as [-> | Ic']; [now apply U | now apply (Up y c' I)].
Qed.

Lemma abs_part c La (kp : bytes) cs Lb : abs_sum (put c cs) <= abs_sum (List.concat (map snd (La ++ (kp, cs) :: Lb))) + Z.abs (Accumulation c).
Proof.
  pose proof (put_abs c cs). rewrite map_app, concat_app. cbn [map List.concat snd]. rewrite !abs_sum_app.
  pose proof (abs_sum_nonneg (List.concat (map snd La))). pose proof (abs_sum_nonneg (List.concat (map snd Lb))). lia.
Qed.

(** The node above that takes the right half is the one that has the left. *)
Lemma floor_half s n lv D par kp k' Lb : tower s (Datatypes.S n) lv D -> floor s lv par kp -> blt kp k' ->
  (forall k2, In k2 (indices D) -> blt kp k2 -> exists y, In y Lb /\ fst y = k2) ->
  (forall y : bytes * list Child, In y Lb -> blt k' (fst y)) -> floor s lv par k'.
Proof.
  intros T (Lp & X & N & U) B A C. repeat split; auto.
  - intros B2. apply N. exact (blt_trans _ _ _ B B2).
  - intros k2 X2 B2. destruct (A k2) as (y & Iy & <-); [eapply level_key; eauto | now apply U | now apply C].
Qed.

(** [push] at the top of the tree: the overfull root gets a new root above. *)
Lemma split_root s lv kp cs left c' right D : keyed s -> 1 <= lv -> lv + 3 < 2 ^ 16 -> at_level s lv [(kp, cs)] -> kp = [] ->
  (forall l k, lv + 1 <= l < 2 ^ 16 -> st_get s (nodeKey l k) = None) ->
  begins_with_key (kp, left) -> blt kp (Index c') -> (2 <= List.length left)%nat -> (2 <= List.length (c' :: right))%nat ->
  D = left ++ c' :: right ->
  let s1 := st_set s (nodeKey lv (Index c')) (c' :: right) in
  let s2 := st_set s1 (nodeKey (lv + 1) []) [ {| Index := kp; Accumulation := acc_sum left |};
                                              {| Index := Index c'; Accumulation := acc_sum (c' :: right) |} ] in
  tower (st_set s2 (nodeKey lv kp) left) 2 lv D.
Proof.
  intros Kd L1 L2 AL Ek N Bk B Ll Lr -> s1 s2. assert (LO : level_ok lv) by (unfold level_ok; lia).
  assert (LO1 : level_ok (lv + 1)) by (unfold level_ok; lia).
  assert (A1 : at_level s1 lv [(kp, cs); (Index c', c' :: right)]).
  { apply (insert_level s lv [] (kp, cs) [] (Index c')); auto. intros y []. }
  assert (A2 : at_level s2 lv [(kp, cs); (Index c', c' :: right)]).
  { destruct A1 as [Sd A1]. split; [exact Sd|]. intros k v. unfold s2. rewrite set_other_level by (auto; lia). apply A1. }
  assert (T2 : tower s2 1 (lv + 1) (map entry [(kp, left); (Index c', c' :: right)])).
  { set (cs2 := [ {| Index := kp; Accumulation := acc_sum left |}; {| Index := Index c'; Accumulation := acc_sum (c' :: right) |} ]) in *.
    exists [([], cs2)]. split; [reflexivity|]. split; [split; [repeat constructor|]|].
    - intros k v. unfold s2. rewrite set_level by exact LO1. cbn [In]. destruct (bcompare [] k) eqn:E.
      + apply bcompare_eq in E as <-. split; [intros H; injection H as <-; now left | intros [H | []]; now injection H as ->].
      + unfold s1. rewrite set_other_level, N by (auto; lia). split; [discriminate|]. intros [H | []]. injection H as <- _. discriminate.
      + unfold s1. rewrite set_other_level, N by (auto; lia). split; [discriminate|]. intros [H | []]. injection H as <- _. discriminate.
    - split; [repeat constructor; exact Ek|]. split; [right; repeat constructor|]. split; [reflexivity|]. intros l k Bl. unfold s2, s1.
      rewrite !set_other_level by (unfold level_ok in *; lia). apply N. lia. }
  replace (left ++ c' :: right) with (List.concat (map snd [(kp, left); (Index c', c' :: right)])) by (cbn; now rewrite app_nil_r).
  apply close_level; auto; try lia.
  - apply (replace_level s2 lv [] kp cs [(Index c', c' :: right)] left LO A2).
  - constructor; [exact Bk|]. repeat constructor.
  - right. constructor; [exact Ll|]. constructor; [exact Lr | constructor].
Qed.

(** A level opened at the node that a new key belongs to. *)
Record Opened (s : St) (n : nat) (lv : Z) (D : list Child) (p : ptr) (c : Child) (La : nodes) (cs : list Child) (Lb : nodes) : Prop := {
  op_keyed : keyed s;
  op_entries : D = List.concat (map snd (La ++ (content (key p), cs) :: Lb));
  op_level : at_level s lv (La ++ (content (key p), cs) :: Lb);
  op_begins : Forall begins_with_key (La ++ (content (key p), cs) :: Lb);
  op_occupied : occupied lv (La ++ (content (key p), cs) :: Lb);
  op_above : tower s n (lv + 1) (map entry (La ++ (content (key p), cs) :: Lb));
  op_sorted : StronglySorted ilt D;
  op_new : ~ In (Index c) (indices D);
  op_first : hd_error (indices (map entry (La ++ (content (key p), cs) :: Lb))) = Some [];
  op_bytes : forall k, In k (indices (map entry (La ++ (content (key p), cs) :: Lb))) -> Forall byte k;
  op_put_bytes : forall k, In k (indices (put c D)) -> Forall byte k;
  op_put : put c D = List.concat (map snd (La ++ (content (key p), put c cs) :: Lb));
  op_node : level p = lv /\ st_get s (nodeKey lv (content (key p))) = Some cs;
  op_next : forall y, In y Lb -> blt (Index c) (fst y);
  op_this : ~ blt (Index c) (content (key p));
  op_parent : at_ptr s n (lv + 1) (parent s p) (content (key p));
  op_range : 1 <= lv /\ lv + Z.of_nat n + 3 < 2 ^ 16
}.

Lemma open_level s n lv D p c : keyed s -> tower s (Datatypes.S n) lv D -> StronglySorted ilt D -> ~ In (Index c) (indices D) ->
  hd_error (indices D) = Some [] -> (forall k, In k (indices D) -> Forall byte k) -> Forall byte (Index c) ->
  1 <= lv -> lv + Z.of_nat n + 3 < 2 ^ 16 -> floor s lv p (Index c) -> exists La cs Lb, Opened s n lv D p c La cs Lb.
Proof.
  intros Kd (L & ED & AL & BK & OC & T) Sd NI H HB Hc L1 Ln Hp.
  destruct (floor_split s lv L p (Index c) AL Hp) as (La & cs & Lb & -> & G & U & N). destruct Hp as (Lp & _).
  destruct (put_level c La (content (key p)) cs Lb D ED Sd BK N U) as [EP _].
  assert (H1 : hd_error (indices (map entry (La ++ (content (key p), cs) :: Lb))) = Some []) by (eapply first_key; eauto).
  exists La, cs, Lb. split; auto.
  - eapply entries_byte; eauto.
  - intros k I. apply put_indices in I as [-> | I]; auto.
  - eapply parent_at; eauto; [unfold level_ok; lia | lia].
Qed.

Lemma opened_find s n lv D p c La cs Lb : Opened s n lv D p c La cs Lb ->
  exists j, find cs (Index c) = (j, false) /\ insert cs j c = put c cs.
Proof.
  intros O. unfold find. destruct (find_put c cs 0) as (j & [(_ & I & _) | (F1 & F2)]); [|exists j; auto].
  exfalso. apply (op_new _ _ _ _ _ _ _ _ _ O). rewrite (op_entries _ _ _ _ _ _ _ _ _ O). unfold indices in *.
  rewrite map_app, concat_app, map_app. apply in_or_app. right. cbn [map List.concat snd]. rewrite map_app. apply in_or_app. now left.
Qed.

(** The outcome of [push] and of its parts. *)
Definition outcome (s : St) (n : nat) (lv : Z) (D : list Child) (c : Child) (r : Res St) : Prop :=
  (forall s', r = Ok s' -> (exists n', (n <= n' <= Datatypes.S n)%nat /\ tower s' (Datatypes.S n') lv (put c D)) /\
     writes s s' /\ below s s' lv) /\
  (budget n D c < 2 ^ 255 -> exists s', r = Ok s').

Lemma push_fits fuel s n lv D p c La cs Lb : Opened s n lv D p c La cs Lb -> (n <= fuel)%nat ->
  outcome s n lv D c (acc <- accumulate (put c cs) ;;
    s' <- updateAccumulation fuel s (parent s p) {| Index := content (key p); Accumulation := acc |} ;;
    Ok (set s' p (put c cs))).
Proof.
  intros O Hf. pose proof O as [Kd ED AL BK OC T Sd NI H HB HP EP (Lp & G) U N Pa (L1 & Ln)].
  set (kp := content (key p)) in *. assert (LO : level_ok lv) by (unfold level_ok; lia).
  pose proof (abs_part c La kp cs Lb) as Ab. rewrite <- ED in Ab. pose proof (abs_sum_nonneg D) as Dn.
  pose proof (entries_abs (La ++ (kp, cs) :: Lb)) as Ea. rewrite <- ED in Ea.
  pose proof (acc_sum_abs (put c cs)) as Aa. unfold outcome, budget.
  destruct (accumulate (put c cs)) as [acc|e|e] eqn:Acc; cbn [bind];
    [|split; [discriminate | intros B; rewrite accumulate_small in Acc by nia; discriminate] ..].
  apply accumulate_exact in Acc. subst acc.
  assert (Kp : In kp (indices (map entry (La ++ (kp, cs) :: Lb)))).
  { unfold indices. rewrite map_map, in_map_iff. exists (kp, cs). split; [reflexivity | apply in_or_app; right; now left]. }
  destruct (update_tower n fuel s (lv + 1) _ (parent s p) {| Index := kp; Accumulation := acc_sum (put c cs) |}
    Kd T (proj1 (entries_sorted _) (proj1 AL)) Kp H HB ltac:(lia) ltac:(lia) Hf Pa) as [R1 R2].
  split.
  - intros s' E. apply bind_ok_inv in E as (s1 & E & E'). apply Ok_inj in E' as <-. destruct (R1 s1 E) as (T1 & W1 & B1).
    unfold set, pkey. rewrite Lp. fold kp. split; [|split].
    + exists n. split; [lia|]. rewrite EP. apply close_level; [lia | lia | | | |].
      * rewrite put_entry in T1 by apply AL. rewrite map_app. exact T1.
      * apply (replace_level s1 lv La kp cs Lb); [exact LO|]. now apply (at_level_below s).
      * eapply Forall_middle; [exact BK|]. apply put_begins; [|exact N]. apply Forall_app in BK as [_ BK]. now inversion BK.
      * eapply occupied_grow; [apply put_at_least | exact OC].
    + constructor; [exact W1 | exact LO | now apply HB].
    + apply below_set; [exact LO | now apply below_weaken].
  - intros B. destruct R2 as (s1 & ->); [cbn [Accumulation]; nia | cbn [bind]; eauto].
Qed.

(** The new node of a split has the key of one of the entries. *)
Lemma half_byte s n lv D p c La cs Lb left c' right : Opened s n lv D p c La cs Lb -> put c cs = left ++ c' :: right -> Forall byte (Index c').
Proof.
  intros O E. apply (op_put_bytes _ _ _ _ _ _ _ _ _ O). rewrite (op_put _ _ _ _ _ _ _ _ _ O), E. unfold indices.
  apply in_map. rewrite map_app, concat_app. apply in_or_app. right. cbn [map List.concat snd]. apply in_or_app. left.
  apply in_or_app. right. now left.
Qed.

Lemma push_splits_root s lv D p c La cs Lb left c' right : Opened s 0 lv D p c La cs Lb ->
  put c cs = left ++ c' :: right -> (2 <= List.length left)%nat -> (2 <= List.length (c' :: right))%nat ->
  let s1 := create s (ptrGet lv (Some (Index c'))) (c' :: right) in
  outcome s 0 lv D c (accl <- accumulate left ;; accr <- accumulate (c' :: right) ;;
    Ok (set (create s1 (parent s p) [ {| Index := content (key p); Accumulation := accl |};
                                      {| Index := Index c'; Accumulation := accr |} ]) p left)).
Proof.
  intros O EH Ll Lr s1. pose proof (half_byte _ _ _ _ _ _ _ _ _ _ _ _ O EH) as Hc'.
  pose proof O as [Kd ED AL BK OC T Sd NI H HB HP EP (Lp & G) U N Pa (L1 & Ln)].
  set (kp := content (key p)) in *. cbn [at_ptr] in Pa. rewrite Pa.
  destruct (halves_level c La kp cs Lb D left c' right ED Sd BK N U EH Ll) as (Bk & B & _).
  assert (Single : La = [] /\ Lb = [] /\ kp = []).
  { destruct T as [T _]. unfold indices in T. rewrite map_app, map_app in T. cbn [map entry Index fst] in T.
    destruct La as [|a La]; [|destruct La; discriminate]. destruct Lb; [|discriminate]. cbn [map app] in T. injection T as T. auto. }
  destruct Single as (-> & -> & Ek). cbn [app] in *. cbn [map List.concat snd app] in EP, ED. rewrite app_nil_r in EP, ED. subst D.
  pose proof (put_abs c cs) as Ab. rewrite EH, abs_sum_app in Ab.
  pose proof (abs_sum_nonneg left). pose proof (abs_sum_nonneg (c' :: right)). pose proof (abs_sum_nonneg cs). unfold outcome, budget.
  destruct (accumulate left) as [accl|e|e] eqn:Al; cbn [bind];
    [|split; [discriminate | intros X; rewrite accumulate_small in Al by nia; discriminate] ..].
  destruct (accumulate (c' :: right)) as [accr|e|e] eqn:Ar; cbn [bind];
    [|split; [discriminate | intros X; rewrite accumulate_small in Ar by nia; discriminate] ..].
  apply accumulate_exact in Al, Ar. subst accl accr. split; [|eauto]. intros s' E. apply Ok_inj in E as <-.
  unfold s1, set, create, pkey, ptrGet. cbn [level key content]. rewrite Lp. fold kp.
  assert (LO : level_ok lv) by (unfold level_ok; lia). split; [|split].
  - exists 1%nat. split; [lia|]. eapply split_root; eauto; [lia | apply T].
  - repeat (constructor; auto); unfold level_ok; try lia. apply HB. left. reflexivity.
  - repeat (apply below_set; [exact LO|]). intros l k LOl Hl. rewrite !set_other_level; unfold level_ok in *; auto; lia.
Qed.

(** What [push] has to satisfy with [n] levels above the one it starts at. *)
Definition pushes (n fuel : nat) : Prop := forall s lv D p c,
  keyed s -> tower s (Datatypes.S n) lv D -> StronglySorted ilt D -> ~ In (Index c) (indices D) -> hd_error (indices D) = Some [] ->
  (forall k, In k (indices D) -> Forall byte k) -> Forall byte (Index c) ->
  1 <= lv -> lv + Z.of_nat n + 3 < 2 ^ 16 -> floor s lv p (Index c) -> outcome s n lv D c (push m fuel s p c).

(** Keys after the node being split belong to the nodes after it. *)
Lemma later_keys La kp cs Lb k2 : StronglySorted klt (La ++ (kp, cs) :: Lb) -> In k2 (indices (map entry (La ++ (kp, cs) :: Lb))) ->
  blt kp k2 -> exists y, In y Lb /\ fst y = k2.
Proof.
  intros Sd I B. unfold indices in I. rewrite map_map in I. apply in_map_iff in I as (y & E & I). cbn [entry Index] in E. subst k2.
  apply sorted_app in Sd as (_ & _ & C). apply in_app_or in I as [I | [<- | I]]; [| |eauto].
  - destruct (blt_irrefl kp). exact (blt_trans _ _ _ B (C y (kp, cs) I (or_introl eq_refl))).
  - destruct (blt_irrefl kp B).
Qed.

(** The two halves, once the levels above know them. *)
Lemma join_halves s s1 s2 s3 n lv D p c La cs Lb left c' right n2 : Opened s n lv D p c La cs Lb -> put c cs = left ++ c' :: right ->
  (2 <= List.length left)%nat -> (2 <= List.length (c' :: right))%nat -> lv + 1 + Z.of_nat n2 < 2 ^ 16 ->
  s1 = st_set s (nodeKey lv (Index c')) (c' :: right) -> below s1 s2 (lv + 1) -> below s2 s3 (lv + 1) ->
  tower s3 n2 (lv + 1) (put {| Index := content (key p); Accumulation := acc_sum left |}
    (put {| Index := Index c'; Accumulation := acc_sum (c' :: right) |} (map entry (La ++ (content (key p), cs) :: Lb)))) ->
  tower (st_set s3 (nodeKey lv (content (key p))) left) (Datatypes.S n2) lv (put c D).
Proof.
  intros O EH Ll Lr Ln2 E1 B2 B3 T3. pose proof O as [Kd ED AL BK OC T Sd NI H HB HP EP (Lp & G) U N Pa (L1 & Ln)].
  set (kp := content (key p)) in *. assert (LO : level_ok lv) by (unfold level_ok; lia).
  destruct (halves_level c La kp cs Lb D left c' right ED Sd BK N U EH Ll) as (Bk & B & U').
  assert (A1 : at_level s1 lv (La ++ (kp, cs) :: (Index c', c' :: right) :: Lb)) by (subst s1; apply insert_level; auto).
  assert (A3 : at_level s3 lv (La ++ (kp, cs) :: (Index c', c' :: right) :: Lb)).
  { apply (at_level_below s2); auto. now apply (at_level_below s1). }
  rewrite EP, EH. replace (List.concat (map snd (La ++ (kp, left ++ c' :: right) :: Lb))) with
    (List.concat (map snd (La ++ (kp, left) :: (Index c', c' :: right) :: Lb)))
    by (rewrite !map_app, !concat_app; cbn [map List.concat snd app]; now rewrite <- app_assoc).
  apply close_level; [lia | lia | | | |].
  - rewrite put_entry_new in T3 by (auto; apply AL).
    change (map entry La ++ entry (kp, cs) :: {| Index := Index c'; Accumulation := acc_sum (c' :: right) |} :: map entry Lb)
      with (map entry La ++ map entry ((kp, cs) :: (Index c', c' :: right) :: Lb)) in T3.
    rewrite <- map_app, put_entry in T3 by apply A3. rewrite map_app. exact T3.
  - apply (replace_level s3 lv La kp cs ((Index c', c' :: right) :: Lb)); auto.
  - apply Forall_app in BK as [F1 F2]. inversion F2; subst. apply Forall_app. split; [exact F1|].
    constructor; [exact Bk|]. constructor; [reflexivity | assumption].
  - right. destruct OC as [(_ & x & E) | F].
    + destruct La as [|a La]; [|destruct La; discriminate]. destruct Lb; [|discriminate].
      constructor; [exact Ll|]. constructor; [exact Lr | constructor].
    + apply Forall_app in F as [F1 F2]. inversion F2; subst. apply Forall_app. split; [exact F1|].
      constructor; [exact Ll|]. constructor; [exact Lr | assumption].
Qed.

(** The way back of a split: the sum of the left half replaces the stale one. *)
Lemma finish_split s s1 s2 n n2 fuel lv D p c La cs Lb left c' right : Opened s n lv D p c La cs Lb ->
  put c cs = left ++ c' :: right -> (2 <= List.length left)%nat -> (2 <= List.length (c' :: right))%nat ->
  lv + Z.of_nat n2 + 2 < 2 ^ 16 -> (Datatypes.S n2 <= fuel)%nat -> Forall byte (Index c') ->
  s1 = st_set s (nodeKey lv (Index c')) (c' :: right) -> keyed s2 -> below s1 s2 (lv + 1) ->
  let E2 := put {| Index := Index c'; Accumulation := acc_sum (c' :: right) |} (map entry (La ++ (content (key p), cs) :: Lb)) in
  tower s2 (Datatypes.S n2) (lv + 1) E2 ->
  let r := (s3 <- updateAccumulation fuel s2 (parent s2 p) {| Index := content (key p); Accumulation := acc_sum left |} ;;
            Ok (set s3 p left)) in
  (forall s', r = Ok s' -> tower s' (Datatypes.S (Datatypes.S n2)) lv (put c D) /\ writes s2 s' /\ below s1 s' lv) /\
  ((Z.of_nat n2 + 2) * abs_sum E2 + Z.abs (acc_sum left) < 2 ^ 255 -> exists s', r = Ok s').
Proof.
  intros O EH Ll Lr Ln2 Hf Hc' E1 Kd2 B2 E2 T2 r. pose proof O as [Kd ED AL BK OC T Sd NI H HB HP EP (Lp & G) U N Pa (L1 & Ln)].
  set (kp := content (key p)) in *. assert (LO : level_ok lv) by (unfold level_ok; lia).
  destruct (halves_level c La kp cs Lb D left c' right ED Sd BK N U EH Ll) as (Bk & B & U').
  assert (H2 : hd_error (indices E2) = Some []).
  { unfold E2. eapply put_head; [|exact H | reflexivity]. cbn [Index]. intros Z0. rewrite Z0 in B. now destruct kp. }
  assert (HB2 : forall k, In k (indices E2) -> Forall byte k) by (intros k I; apply put_indices in I as [-> | I]; auto).
  assert (Ik : In kp (indices E2)).
  { apply put_indices. right. unfold indices. rewrite map_map. apply in_map_iff. exists (kp, cs).
    split; [reflexivity | apply in_or_app; right; now left]. }
  pose proof (parent_at s2 (Datatypes.S n2) (lv + 1) E2 p Kd2 T2 H2 ltac:(unfold level_ok; lia) ltac:(lia)) as Pa2.
  destruct (update_tower (Datatypes.S n2) fuel s2 (lv + 1) E2 (parent s2 p) {| Index := kp; Accumulation := acc_sum left |}
    Kd2 T2 (put_sorted _ _ (proj1 (entries_sorted _) (proj1 AL))) Ik H2 HB2 ltac:(lia) ltac:(lia) Hf Pa2) as [R1 R2].
  unfold r. split.
  - intros s' E. apply bind_ok_inv in E as (s3 & E & E'). apply Ok_inj in E' as <-. destruct (R1 s3 E) as (T3 & W3 & B3).
    unfold set, pkey. rewrite Lp. fold kp. split; [|split].
    + apply (join_halves s s1 s2 s3 n lv D p c La cs Lb left c' right (Datatypes.S n2) O EH Ll Lr); auto. lia.
    + constructor; auto.
    + apply below_set; [exact LO|]. apply (below_trans s1 s2); now apply below_weaken.
  - intros X. destruct R2 as (s3 & ->); [cbn [Accumulation]; lia | cbn [bind]; eauto].
Qed.

Lemma budget_part n A a : 0 <= n -> 0 <= A -> 0 <= a -> A + a <= (n + 4) * (n + 4) * A + (n + 4) * a.
Proof. intros. assert (0 <= n * A) by nia. assert (0 <= n * a) by nia. assert (0 <= n * n * A) by nia. lia. Qed.

Lemma budget_push n A a e r : 0 <= n -> 0 <= e <= A -> 0 <= a -> 0 <= r <= A + a ->
  (n + 4) * (n + 4) * e + (n + 4) * r <= (Z.succ n + 4) * (Z.succ n + 4) * A + (Z.succ n + 4) * a.
Proof.
  intros Hn He Ha Hr. assert ((n + 4) * (n + 4) * e <= (n + 4) * (n + 4) * A) by (apply Z.mul_le_mono_nonneg_l; nia).
  assert ((n + 4) * r <= (n + 4) * (A + a)) by (apply Z.mul_le_mono_nonneg_l; lia).
  assert (0 <= n * A) by nia. lia.
Qed.

Lemma budget_finish n n2 A a e2 l : 0 <= n -> 0 <= n2 <= n + 1 -> 0 <= A -> 0 <= a -> 0 <= e2 <= 2 * A + a -> 0 <= l <= A + a ->
  (n2 + 2) * e2 + l <= (Z.succ n + 4) * (Z.succ n + 4) * A + (Z.succ n + 4) * a.
Proof.
  intros Hn H2 HA Ha He Hl. assert ((n2 + 2) * e2 <= (n + 3) * (2 * A + a)) by (apply Z.mul_le_mono_nonneg; lia).
  assert (0 <= n * A) by nia. assert (0 <= n * a) by nia. assert (0 <= n * n * A) by nia. lia.
Qed.

Lemma push_splits_inner n fuel s lv D p c La cs Lb left c' right : pushes n fuel -> (Datatypes.S n <= fuel)%nat ->
  Opened s (Datatypes.S n) lv D p c La cs Lb ->
  put c cs = left ++ c' :: right -> (2 <= List.length left)%nat -> (2 <= List.length (c' :: right))%nat ->
  let s1 := create s (ptrGet lv (Some (Index c'))) (c' :: right) in
  exists_ s1 (Some (parent s p)) = true /\
  outcome s (Datatypes.S n) lv D c (accr <- accumulate (c' :: right) ;;
    s2 <- push m fuel s1 (parent s p) {| Index := Index c'; Accumulation := accr |} ;;
    accl <- accumulate left ;;
    s3 <- updateAccumulation (Datatypes.S fuel) s2 (parent s2 p) {| Index := content (key p); Accumulation := accl |} ;;
    Ok (set s3 p left)).
Proof.
  intros IH Hf O EH Ll Lr s1. pose proof (half_byte _ _ _ _ _ _ _ _ _ _ _ _ O EH) as Hc'.
  pose proof O as [Kd ED AL BK OC T Sd NI H HB HP EP (Lp & G) U N Pa (L1 & Ln)].
  set (kp := content (key p)) in *. cbn [at_ptr] in Pa.
  assert (LO : level_ok lv) by (unfold level_ok; lia). assert (LO1 : level_ok (lv + 1)) by (unfold level_ok; lia).
  destruct (halves_level c La kp cs Lb D left c' right ED Sd BK N U EH Ll) as (Bk & B & U').
  assert (E1 : s1 = st_set s (nodeKey lv (Index c')) (c' :: right)) by reflexivity. clearbody s1.
  assert (W1 : writes s s1) by (rewrite E1; constructor; [constructor | exact LO | exact Hc']).
  assert (X1 : forall l k, lv < l < 2 ^ 16 -> st_get s1 (nodeKey l k) = st_get s (nodeKey l k))
    by (intros l k Bl; rewrite E1; apply set_other_level; unfold level_ok; lia).
  assert (T1 : tower s1 (Datatypes.S n) (lv + 1) (map entry (La ++ (kp, cs) :: Lb))) by (apply (tower_above s); auto; lia).
  split. { destruct Pa as (Lq & Xq & _). apply exists_pkey. rewrite Lq, X1 by lia. exact Xq. }
  assert (Pf : floor s1 (lv + 1) (parent s p) (Index c')).
  { apply (floor_half s1 n (lv + 1) _ (parent s p) kp (Index c') Lb T1); auto.
    - destruct Pa as (A1 & A2 & A3 & A4). repeat split; auto; [now rewrite X1 by lia|].
      intros k2 Y2. rewrite X1 in Y2 by lia. now apply A4.
    - intros k2 I2 B2. now apply (later_keys La kp cs Lb k2 (proj1 AL)). }
  assert (NIe : ~ In (Index c') (indices (map entry (La ++ (kp, cs) :: Lb)))).
  { intros I. destruct (later_keys La kp cs Lb _ (proj1 AL) I B) as (y & Iy & Ey). specialize (U' y Iy). rewrite Ey in U'.
    exact (blt_irrefl _ U'). }
  pose proof (entries_abs (La ++ (kp, cs) :: Lb)) as Ea. rewrite <- ED in Ea. set (E0 := map entry (La ++ (kp, cs) :: Lb)) in *.
  pose proof (abs_part c La kp cs Lb) as Ab. rewrite <- ED, EH, abs_sum_app in Ab.
  pose proof (abs_sum_nonneg left). pose proof (abs_sum_nonneg (c' :: right)). pose proof (abs_sum_nonneg D). pose proof (abs_sum_nonneg E0).
  pose proof (acc_sum_abs left). pose proof (acc_sum_abs (c' :: right)). unfold outcome, budget. rewrite Nat2Z.inj_succ.
  pose proof (budget_part (Z.succ (Z.of_nat n)) (abs_sum D) (Z.abs (Accumulation c)) ltac:(lia) ltac:(lia) ltac:(lia)) as Bp.
  destruct (accumulate (c' :: right)) as [accr|e|e] eqn:Ar; cbn [bind];
    [|split; [discriminate | intros X; rewrite accumulate_small in Ar by lia; discriminate] ..].
  apply accumulate_exact in Ar. subst accr. set (cr := {| Index := Index c'; Accumulation := acc_sum (c' :: right) |}).
  destruct (IH s1 (lv + 1) E0 (parent s p) cr) as [P1 P2];
    [exact (writes_keyed _ _ W1 Kd) | exact T1 | exact (proj1 (entries_sorted _) (proj1 AL)) | exact NIe | exact H | exact HB | exact Hc' | lia | lia | exact Pf |].
  destruct (push m fuel s1 (parent s p) cr) as [s2|e|e] eqn:Ep; cbn [bind];
    [|split; [discriminate|]; intros X; destruct P2 as (? & ?); [|discriminate];
     unfold budget; cbn [Accumulation cr];
     pose proof (budget_push (Z.of_nat n) (abs_sum D) (Z.abs (Accumulation c)) (abs_sum E0) (Z.abs (acc_sum (c' :: right)))); lia ..].
  destruct (P1 s2 eq_refl) as ((n2 & Hn2 & T2) & W2 & B2).
  destruct (accumulate left) as [accl|e|e] eqn:Al; cbn [bind];
    [|split; [discriminate | intros X; rewrite accumulate_small in Al by lia; discriminate] ..].
  apply accumulate_exact in Al. subst accl. pose proof (put_abs cr E0) as Ap. change (Accumulation cr) with (acc_sum (c' :: right)) in Ap.
  destruct (finish_split s s1 s2 (Datatypes.S n) n2 (Datatypes.S fuel) lv D p c La cs Lb left c' right O EH Ll Lr
    ltac:(lia) ltac:(lia) Hc' E1 (writes_keyed _ _ W2 (writes_keyed _ _ W1 Kd)) B2 T2) as [F1 F2].
  split.
  - intros s' E. destruct (F1 s' E) as (T' & W' & B'). split; [exists (Datatypes.S n2); split; [lia | exact T']|].
    split; [exact (writes_trans _ _ _ (writes_trans _ _ _ W1 W2) W')|]. apply (below_trans s s1); [|exact B'].
    rewrite E1. apply below_set; [exact LO | now intros l k].
  - intros X. apply F2. fold cr E0. pose proof (abs_sum_nonneg (put cr E0)).
    eapply Z.le_lt_trans; [|exact X]. apply (budget_finish (Z.of_nat n) (Z.of_nat n2) (abs_sum D) (Z.abs (Accumulation c)) (abs_sum (put cr E0)) (Z.abs (acc_sum left))); lia.
Qed.

Lemma push_tower n : forall fuel, (Datatypes.S n <= fuel)%nat -> pushes n fuel.
Proof.
  induction n as [|n IH]; intros [|fuel] Hf; try lia; intros s lv D p c Kd T Sd NI H HB Hc L1 Ln Hp;
    destruct (open_level s _ lv D p c Kd T Sd NI H HB Hc L1 Ln Hp) as (La & cs & Lb & O);
    destruct (opened_find _ _ _ _ _ _ _ _ _ O) as (j & F1 & F2); pose proof (op_node _ _ _ _ _ _ _ _ _ O) as (Lp & G);
    cbn [push]; rewrite (proj2 (exists_pkey s p)) by (rewrite Lp; congruence); cbn [negb]; unfold node, pkey; rewrite Lp, G, F1, F2;
    (destruct (Z.gtb_spec (Z.of_nat (List.length (put c cs))) m) as [Big|Fit]; [|now apply (push_fits _ _ _ _ _ _ _ _ _ _ O); lia]);
    destruct (halves (put c cs) ltac:(lia)) as (left & c' & right & EH & E1 & E2 & E3 & Ll & Lr);
    rewrite split_at_code; unfold split; rewrite E1, E2, E3.
  - pose proof (push_splits_root s lv D p c La cs Lb left c' right O EH Ll Lr) as R.
    pose proof (op_parent _ _ _ _ _ _ _ _ _ O) as Pa. cbn [at_ptr] in Pa.
    replace (exists_ (create s (ptrGet lv (Some (Index c'))) (c' :: right)) (Some (parent s p))) with false; [exact R|].
    symmetry. apply not_exists_pkey. rewrite Pa. unfold create, ptrGet, pkey. cbn [level key content].
    rewrite set_other_level by (unfold level_ok; lia). apply (op_above _ _ _ _ _ _ _ _ _ O). lia.
  - destruct (push_splits_inner n fuel s lv D p c La cs Lb left c' right (IH fuel ltac:(lia)) ltac:(lia) O EH Ll Lr) as [X R].
    rewrite X. exact R.
Qed.

(** ** The whole tree *)

Definition leaf_of (d : Child) : bytes * list Child := (Index d, [d]).

(** [n] levels of branches over the leaves [D]. *)
Record tree (s : St) (n : nat) (D : list Child) : Prop := {
  tree_keyed : keyed s;
  tree_leaves : at_level s 0 (map leaf_of D);
  tree_tower : tower s (Datatypes.S n) 1 D;
  tree_sorted : StronglySorted ilt D;
  tree_first : hd_error (indices D) = Some [];
  tree_bytes : forall k, In k (indices D) -> Forall byte k
}.

Fixpoint value (D : list Child) (k : bytes) : option Z :=
  match D with
  | [] => None
  | d :: D' => match bcompare (Index d) k with Eq => Some (Accumulation d) | _ => value D' k end
  end.

Lemma value_put c D k : StronglySorted ilt D ->
  value (put c D) k = match bcompare (Index c) k with Eq => Some (Accumulation c) | _ => value D k end.
Proof.
  induction 1 as [|d D Sd IH F]; cbn [put value]; [reflexivity|].
  destruct (bcompare (Index d) (Index c)) eqn:E; cbn [value].
  - apply bcompare_eq in E. rewrite E. now destruct (bcompare (Index c) k).
  - rewrite IH. destruct (bcompare (Index d) k) eqn:E1; try reflexivity. apply bcompare_eq in E1. subst k.
    rewrite (bcompare_antisym (Index d)), E. reflexivity.
  - reflexivity.
Qed.

Lemma value_none D k : StronglySorted ilt D -> value D k = None <-> ~ In k (indices D).
Proof.
  intros _. unfold indices. induction D as [|d D IH]; cbn [value map In]; [split; auto|].
  destruct (bcompare (Index d) k) eqn:E.
  - apply bcompare_eq in E. split; [discriminate | intros N; destruct N; now left].
  - rewrite IH. split; [intros N [I|I]; [subst k; rewrite bcompare_refl in E; discriminate | auto] | auto].
  - rewrite IH. split; [intros N [I|I]; [subst k; rewrite bcompare_refl in E; discriminate | auto] | auto].
Qed.

Lemma value_in D d : StronglySorted ilt D -> In d D -> value D (Index d) = Some (Accumulation d).
Proof.
  induction 1 as [|e D Sd IH F]; intros I; [destruct I|]. cbn [value]. destruct I as [<- | I]; [now rewrite bcompare_refl|].
  rewrite Forall_forall in F. specialize (F d I). unfold ilt, blt in F. rewrite F. auto.
Qed.

Lemma get_leaf s n D k : tree s n D -> Get s k = Ok (match value D (content k) with Some v => v | None => 0 end).
Proof.
  intros T. unfold Get, leafKey. destruct (tree_leaves s n D T) as [_ A].
  destruct (st_get s (nodeKey 0 (content k))) as [l|] eqn:G.
  - apply A in G. apply in_map_iff in G as (d & E & I). unfold leaf_of in E. injection E as Ek El. rewrite <- El, <- Ek.
    cbn [rev app]. now rewrite (value_in D d (tree_sorted _ _ _ T) I).
  - replace (value D (content k)) with (@None Z); [reflexivity|]. symmetry. apply value_none; [apply T|]. intros I.
    apply in_map_iff in I as (d & E & I). apply (in_map leaf_of) in I. apply A in I. rewrite E in I. congruence.
Qed.

Lemma put_in_iff c D x : StronglySorted ilt D -> In x (put c D) <-> x = c \/ (In x D /\ Index x <> Index c).
Proof.
  intros Sd. split.
  - revert x. induction Sd as [|d D Sd IH F]; intros x; cbn [put In]; [intuition|]. rewrite Forall_forall in F.
    destruct (bcompare (Index d) (Index c)) eqn:E; cbn [In].
    + apply bcompare_eq in E. intros [<- | I]; [now left|]. right. split; [now right|]. intros X. specialize (F x I). unfold ilt in F.
      rewrite X, <- E in F. exact (blt_irrefl _ F).
    + intros [<- | I]; [right; split; [now left | intros X; rewrite X, bcompare_refl in E; discriminate]|].
      destruct (IH x I) as [-> | [I' N]]; auto.
    + intros [<- | [<- | I]]; [now left | right; split; [now left | intros X; rewrite X, bcompare_refl in E; discriminate]|].
      right. split; [now right|]. intros X. apply blt_gt in E. specialize (F x I). unfold ilt in F. rewrite X in F.
      exact (blt_irrefl _ (blt_trans _ _ _ E F)).
  - intros [-> | [I N]]; [apply put_self|]. induction Sd as [|d D Sd IH F]; [destruct I|]. cbn [put].
    destruct (bcompare (Index d) (Index c)) eqn:E; cbn [In].
    + apply bcompare_eq in E. destruct I as [-> | I]; [contradiction | now right].
    + destruct I as [-> | I]; auto.
    + destruct I as [-> | I]; auto.
Qed.

Lemma leaves_put s D c : at_level s 0 (map leaf_of D) -> StronglySorted ilt D ->
  at_level (st_set s (nodeKey 0 (Index c)) [c]) 0 (map leaf_of (put c D)).
Proof.
  intros [_ A] Sd. split.
  - pose proof (put_sorted c D Sd) as Sp. clear - Sp. induction Sp as [|d D' Sp IH F]; [constructor|]. cbn [map]. constructor; [exact IH|].
    apply Forall_map. exact F.
  - intros k cs. rewrite set_level by (unfold level_ok; lia). rewrite in_map_iff.
    assert (J : forall d, leaf_of d = (k, cs) <-> Index d = k /\ cs = [d]).
    { intros d. unfold leaf_of. split; [intros E; injection E; auto | intros [-> ->]; reflexivity]. }
    destruct (bcompare (Index c) k) eqn:E.
    + apply bcompare_eq in E. split.
      * intros X. injection X as <-. exists c. split; [apply J; auto | apply put_self].
      * intros (d & Ed & I). apply J in Ed as [Ek ->]. apply put_in_iff in I as [-> | [_ N]]; [reflexivity | congruence | exact Sd].
    + rewrite (A k cs), in_map_iff. split; intros (d & Ed & I); exists d; (split; [exact Ed|]); apply J in Ed as [Ek _].
      * apply put_in_iff; [exact Sd|]. right. split; [exact I|]. intros X. rewrite <- Ek, X, bcompare_refl in E. discriminate.
      * apply put_in_iff in I as [-> | [I _]]; [rewrite Ek, bcompare_refl in E; discriminate | exact I | exact Sd].
    + rewrite (A k cs), in_map_iff. split; intros (d & Ed & I); exists d; (split; [exact Ed|]); apply J in Ed as [Ek _].
      * apply put_in_iff; [exact Sd|]. right. split; [exact I|]. intros X. rewrite <- Ek, X, bcompare_refl in E. discriminate.
      * apply put_in_iff in I as [-> | [I _]]; [rewrite Ek, bcompare_refl in E; discriminate | exact I | exact Sd].
Qed.

Lemma push_found fuel s n lv D p c : tower s (Datatypes.S n) lv D -> StronglySorted ilt D -> In (Index c) (indices D) ->
  floor s lv p (Index c) -> push m (Datatypes.S fuel) s p c = updateAccumulation (Datatypes.S fuel) s p c.
Proof.
  intros (L & ED & AL & BK & _) Sd I Hp.
  destruct (floor_split s lv L p (Index c) AL Hp) as (La & cs & Lb & -> & G & U & N). destruct Hp as (Lp & _).
  destruct (put_level c La (content (key p)) cs Lb D ED Sd BK N U) as [_ IP]. specialize (IP I).
  assert (Scs : StronglySorted ilt cs) by apply (level_split _ _ _ _ ED Sd BK).
  cbn [push]. rewrite (proj2 (exists_pkey s p)) by (rewrite Lp; congruence). cbn [negb]. unfold node, pkey. rewrite Lp, G.
  pose proof (find_sorted c cs Scs IP) as F. destruct (find cs (Index c)) as [j b]. cbn [snd] in F. now subst b.
Qed.

(** [Set]: an update of the leaves. *)
Lemma set_tree fuel s n D k v : tree s n D -> Forall byte (content k) -> Z.of_nat n + 6 < 2 ^ 16 -> (Datatypes.S n <= fuel)%nat ->
  let c := {| Index := content k; Accumulation := v |} in
  (forall s', Set_ m fuel s k v = Ok s' -> (exists n', (n <= n' <= Datatypes.S n)%nat /\ tree s' n' (put c D)) /\ writes s s') /\
  (budget n D c < 2 ^ 255 -> exists s', Set_ m fuel s k v = Ok s').
Proof.
  intros T Hk Ln Hf c. destruct T as [Kd TL TT Sd H HB]. destruct fuel as [|fuel]; [lia|].
  unfold Set_, setLeaf, ptrGet. cbn [level key negb Z.eqb bind]. fold c. unfold leafKey.
  set (s1 := st_set s (nodeKey 0 (content k)) [c]). assert (LO0 : level_ok 0) by (unfold level_ok; lia).
  assert (W1 : writes s s1) by (constructor; [constructor | exact LO0 | exact Hk]). pose proof (writes_keyed _ _ W1 Kd) as Kd1.
  assert (T1 : tower s1 (Datatypes.S n) 1 D).
  { apply (tower_frame s); try lia; [|exact TT]. intros l k' B. apply set_other_level; unfold level_ok; lia. }
  pose proof (parent_at s1 (Datatypes.S n) 1 D {| level := 0; key := k |} Kd1 T1 H ltac:(unfold level_ok; lia) eq_refl) as Pa.
  cbn [at_ptr key] in Pa. set (p := parent s1 {| level := 0; key := k |}) in *. change (content k) with (Index c) in Pa.
  assert (Close : forall s' n', tower s' (Datatypes.S n') 1 (put c D) -> writes s1 s' -> below s1 s' 1 -> tree s' n' (put c D)).
  { intros s' n' T' W' B'. split; [exact (writes_keyed _ _ W' Kd1) | | exact T' | now apply put_sorted | |].
    - apply (at_level_below s1); [exact LO0 | exact B' | now apply (leaves_put s D c)].
    - destruct (list_eq_dec Z.eq_dec (content k) []) as [E|E].
      + destruct D as [|d D]; [discriminate|]. cbn in H. injection H as H. cbn [put Index c]. rewrite E, H. cbn. now rewrite E.
      + eapply put_head; [exact E | exact H | reflexivity].
    - intros k' I. apply put_indices in I as [-> | I]; auto. }
  destruct (in_dec (list_eq_dec Z.eq_dec) (Index c) (indices D)) as [I|NI].
  - rewrite (push_found fuel s1 n 1 D p c T1 Sd I Pa).
    destruct (update_tower (Datatypes.S n) (Datatypes.S fuel) s1 1 D p c Kd1 T1 Sd I H HB ltac:(lia) ltac:(lia) Hf Pa) as [R1 R2].
    split.
    + intros s' E. destruct (R1 s' E) as (T' & W' & B'). split; [exists n; split; [lia | now apply Close]|]. exact (writes_trans _ _ _ W1 W').
    + intros B. apply R2. unfold budget in B. rewrite Nat2Z.inj_succ. pose proof (abs_sum_nonneg D).
      assert (0 <= Z.of_nat n * abs_sum D) by nia. assert (0 <= Z.of_nat n * Z.of_nat n * abs_sum D) by nia.
      assert (0 <= Z.of_nat n * Z.abs (Accumulation c)) by nia. lia.
  - destruct (push_tower n (Datatypes.S fuel) Hf s1 1 D p c Kd1 T1 Sd NI H HB Hk ltac:(lia) ltac:(lia) Pa) as [R1 R2].
    split; [|exact R2]. intros s' E. destruct (R1 s' E) as ((n' & Hn & T') & W' & B').
    split; [exists n'; split; [lia | now apply Close]|]. exact (writes_trans _ _ _ W1 W').
Qed.

(** ** Height *)

Lemma concat_nonempty (L : nodes) D : D = List.concat (map snd L) -> D <> [] -> L <> [].
Proof. intros -> N ->. now apply N. Qed.

Lemma occupied_length L : Forall (fun x : bytes * list Child => 2 <= List.length (snd x))%nat L ->
  (2 * List.length L <= List.length (List.concat (map snd L)))%nat.
Proof. induction 1 as [|x L H _ IH]; cbn [map List.concat List.length]; [lia|]. rewrite length_app. lia. Qed.

Lemma tower_height s n : forall lv D, 1 <= lv -> tower s (Datatypes.S n) lv D -> D <> [] -> (2 ^ n <= List.length D)%nat.
Proof.
  induction n as [|n IH]; intros lv D Hl T N.
  - cbn. destruct D; [contradiction | cbn; lia].
  - destruct T as (L & ED & _ & BK & OC & T). pose proof (concat_nonempty L D ED N) as NL.
    assert (Ne : map entry L <> []) by (destruct L; [contradiction | discriminate]).
    pose proof (IH (lv + 1) (map entry L) ltac:(lia) T Ne) as B. rewrite length_map in B.
    destruct OC as [(_ & x & ->) | F].
    + exfalso. destruct T as (L' & E' & _ & BK' & OC' & _). destruct OC' as [(E1 & _) | F']; [lia|].
      apply occupied_length in F'. rewrite <- E' in F'. cbn in F'. destruct L'; [discriminate | cbn in F'; lia].
    + apply occupied_length in F. rewrite <- ED in F. cbn [Nat.pow]. lia.
Qed.

Lemma tree_height s n D : tree s n D -> (2 ^ n <= List.length D)%nat.
Proof.
  intros T. apply (tower_height s n 1 D); [lia | apply T|]. intros ->. pose proof (tree_first _ _ _ T) as H. discriminate.
Qed.

(** ** The tree as the queries see it *)

Definition leaves_of (D : list Child) : leaves := map (fun d => (Index d, Accumulation d)) D.

Lemma kids_leaves s D : at_level s 0 (map leaf_of D) -> StronglySorted ilt D ->
  kids (holds s 0) D (map (fun d => [(Index d, Accumulation d)]) D).
Proof.
  intros [_ A]. assert (G : forall d, In d D -> st_get s (nodeKey 0 (Index d)) = Some [d]).
  { intros d I. apply A. apply in_map_iff. exists d. auto. }
  clear A. induction D as [|d D IH]; intros Sd; [exact I|]. inversion Sd as [|? ? Sd' F]; subst. cbn [map kids].
  rewrite Forall_forall in F. split; [|split; [cbn; lia|split; [|apply IH; [intros; apply G; now right | exact Sd']]]].
  - exists (Accumulation d). split; [|reflexivity]. unfold leafKey. rewrite G by now left. now destruct d.
  - intros c' I. split; [now apply F|]. repeat constructor. now apply F.
Qed.

Lemma kids_group s lv L : at_level s (Z.of_nat (Datatypes.S lv)) L -> Forall begins_with_key L -> forall ls,
  kids (holds s lv) (List.concat (map snd L)) ls ->
  exists ls', kids (holds s (Datatypes.S lv)) (map entry L) ls' /\ List.concat ls' = List.concat ls.
Proof.
  intros [SL A] BK. assert (G : forall x, In x L -> st_get s (nodeKey (Z.of_nat (Datatypes.S lv)) (fst x)) = Some (snd x))
    by (intros [k cs] I; now apply A).
  clear A. induction L as [|x L IH]; intros ls Kd.
  { exists []. split; [exact I|]. destruct ls; [reflexivity | contradiction]. }
  cbn [map List.concat] in Kd. apply kids_app in Kd as (l1 & l2 & -> & K1 & K2 & U).
  inversion SL as [|? ? SL' F]; subst. inversion BK as [|? ? Bx BK']; subst.
  destruct (IH SL' BK' (fun y I => G y (or_intror I)) l2 K2) as (ls' & Kd' & E').
  exists (List.concat l1 :: ls'). split; [|cbn [List.concat]; now rewrite E', concat_app].
  split; [|split; [|split; [|exact Kd']]].
  - exists (snd x), l1. split; [now apply G; left|]. split; [exact Bx|]. split; [exact K1 | reflexivity].
  - cbn [entry Accumulation]. unfold acc_sum. exact (kids_total _ _ _ K1).
  - intros c' I. apply in_map_iff in I as (y & <- & I). rewrite Forall_forall in F, BK'. split; [exact (F y I)|].
    destruct (first_in y (BK' y I)) as (e & r & Ee & Ef). cbn [entry Index]. rewrite <- Ef. apply U. apply in_concat.
    exists (snd y). split; [now apply in_map | rewrite Ee; now left].
Qed.

Lemma tower_holds s n : forall lv D ls, tower s n (Z.of_nat (Datatypes.S lv)) D -> kids (holds s lv) D ls ->
  hd_error (indices D) = Some [] -> holds s (lv + n) [] (List.concat ls).
Proof.
  induction n as [|n IH]; intros lv D ls T Kd H.
  - destruct T as [T _]. destruct D as [|d [|]]; try discriminate. destruct ls as [|l [|]]; cbn [kids] in Kd; try (now destruct Kd as (? & ? & ? & ?)); try contradiction.
    cbn in T. injection T as T. destruct Kd as (Hd & _). rewrite T in Hd. cbn [List.concat]. rewrite app_nil_r, Nat.add_0_r. exact Hd.
  - destruct T as (L & ED & AL & BK & _ & T). rewrite ED in Kd. destruct (kids_group s lv L AL BK ls Kd) as (ls' & Kd' & <-).
    replace (lv + Datatypes.S n)%nat with (Datatypes.S lv + n)%nat by lia.
    apply (IH (Datatypes.S lv) (map entry L)); [|exact Kd' | eapply first_key; eauto].
    replace (Z.of_nat (Datatypes.S (Datatypes.S lv))) with (Z.of_nat (Datatypes.S lv) + 1) by lia. exact T.
Qed.

Lemma tower_none s n : forall lv D l k, tower s n lv D -> lv + Z.of_nat n <= l < 2 ^ 16 -> st_get s (nodeKey l k) = None.
Proof.
  induction n as [|n IH]; intros lv D l k T B.
  - apply (proj2 T). lia.
  - destruct T as (L & _ & _ & _ & _ & T). apply (IH (lv + 1) (map entry L)); [exact T | lia].
Qed.

Lemma tower_top s n : forall lv D k, tower s (Datatypes.S n) lv D -> st_get s (nodeKey (lv + Z.of_nat n) k) <> None -> k = [].
Proof.
  induction n as [|n IH]; intros lv D k T N.
  - destruct T as (L & _ & (_ & A) & _ & _ & (T & _)). rewrite Z.add_0_r in N.
    destruct (st_get s (nodeKey lv k)) as [cs|] eqn:G; [|contradiction]. apply A in G. unfold indices in T. rewrite map_map in T.
    apply (in_map (fun x => Index (entry x))) in G. rewrite T in G. cbn in G. destruct G as [G | []]. now symmetry.
  - destruct T as (L & _ & _ & _ & _ & T). apply (IH (lv + 1) (map entry L)); [exact T|].
    replace (lv + 1 + Z.of_nat n) with (lv + Z.of_nat (Datatypes.S n)) by lia. exact N.
Qed.

Lemma put_uint16_lt l l' k k' : level_ok l -> level_ok l' -> l < l' -> blt (put_uint16 l ++ k) (put_uint16 l' ++ k').
Proof.
  unfold level_ok, put_uint16, blt. intros A B L. cbn [app bcompare]. rewrite !Z.shiftr_div_pow2 by lia.
  change (2 ^ 8) with 256. change (2 ^ 16) with 65536 in *.
  destruct (Z.compare_spec ((l / 256) mod 256) ((l' / 256) mod 256)) as [E|E|E]; [|reflexivity|exfalso; Z.to_euclidean_division_equations; lia].
  destruct (Z.compare_spec (l mod 256) (l' mod 256)) as [E'|E'|E']; [exfalso|reflexivity|exfalso]; Z.to_euclidean_division_equations; lia.
Qed.

Lemma tower_root s n : forall lv D, tower s (Datatypes.S n) lv D -> hd_error (indices D) = Some [] ->
  st_get s (nodeKey (lv + Z.of_nat n) []) <> None.
Proof.
  induction n as [|n IH]; intros lv D T H.
  - rewrite Z.add_0_r. eapply tower_first; eauto.
  - destruct T as (L & ED & _ & BK & _ & T). replace (lv + Z.of_nat (Datatypes.S n)) with (lv + 1 + Z.of_nat n) by lia.
    eapply IH; [exact T | eapply first_key; eauto].
Qed.

Lemma root_tree s n D : tree s n D -> Z.of_nat n + 2 < 2 ^ 16 -> root s = Some {| level := Z.of_nat (Datatypes.S n); key := Some [] |}.
Proof.
  intros [(KB & KN) _ T _ H _] Ln. unfold root. rewrite st_riter_rev.
  set (it := st_iter s (Some nodeKeyPrefix) (PrefixEndBytes nodeKeyPrefix)). set (top := Z.of_nat (Datatypes.S n)).
  assert (PB : Forall byte nodeKeyPrefix) by (repeat constructor; unfold byte; lia).
  assert (LOt : level_ok top) by (unfold level_ok, top; lia).
  assert (R : forall k v, In (k, v) it -> exists l k', level_ok l /\ k = nodeKey l k' /\ st_get s (nodeKey l k') = Some v).
  { intros k v I. apply st_iter_in in I as [G R]. apply PrefixEndBytes_range in R; [|exact PB | eapply KB; exact G].
    destruct R as (r & ->). destruct (KN r v G) as (l & k' & LO & ->). exists l, k'. auto. }
  pose proof (tower_root s n 1 D T H) as Top. replace (1 + Z.of_nat n) with top in Top by (unfold top; lia).
  destruct (st_get s (nodeKey top [])) as [vt|] eqn:Gt; [|contradiction].
  assert (It : In (nodeKey top [], vt) it).
  { apply st_iter_in. split; [exact Gt|]. apply PrefixEndBytes_range; [exact PB | apply nodeKey_byte; constructor|].
    unfold nodeKey. eauto. }
  assert (Sd : StronglySorted key_lt it) by apply st_iter_sorted.
  destruct (rev it) as [|[x v] r] eqn:Er; [apply in_rev in It; rewrite Er in It; destruct It|].
  assert (Ix : In (x, v) it) by (apply in_rev; rewrite Er; now left).
  assert (Mx : x = nodeKey top []).
  { rewrite <- (rev_involutive it), Er in Sd, It. cbn [rev] in Sd, It. apply sorted_app in Sd as (_ & _ & C).
    apply in_app_or in It as [It | [It | []]]; [|now apply (f_equal fst) in It]. specialize (C _ _ It (or_introl eq_refl)).
    unfold key_lt in C. cbn [fst] in C. destruct (R x v Ix) as (l & k' & LO & -> & G). exfalso.
    destruct (Z.lt_trichotomy l top) as [Ll | [-> | Ll]].
    - unfold nodeKey, blt in C. rewrite bcompare_app in C. pose proof (put_uint16_lt l top k' [] LO LOt Ll) as B.
      exact (blt_irrefl _ (blt_trans _ _ _ B C)).
    - assert (k' = []) as -> by (apply (tower_top s n 1 D k' T); replace (1 + Z.of_nat n) with top by (unfold top; lia); congruence).
      exact (blt_irrefl _ C).
    - rewrite (tower_none s (Datatypes.S n) 1 D l k' T) in G by (unfold level_ok, top in *; lia). discriminate. }
  rewrite Mx. unfold nodeKey, nodeKeyPrefix, put_uint16. cbn [app skipn]. do 2 f_equal. rewrite Z.shiftr_div_pow2 by lia.
  unfold level_ok in LOt. change (2 ^ 8) with 256. change (2 ^ 16) with 65536 in LOt. Z.to_euclidean_division_equations. lia.
Qed.

(** The queries of a tree, by their theorem, see its leaves. *)
Lemma tree_is_ok s n D : tree s n D -> Z.of_nat n + 2 < 2 ^ 16 -> Forall (fun d => 0 <= Accumulation d) D -> acc_sum D < 2 ^ 255 ->
  tree_ok s (leaves_of D).
Proof.
  intros T Ln F B. split; [|split].
  - exists (Datatypes.S n). split; [now apply (root_tree s n D)|].
    replace (leaves_of D) with (List.concat (map (fun d => [(Index d, Accumulation d)]) D))
      by (unfold leaves_of; clear; induction D; cbn; congruence).
    apply (tower_holds s (Datatypes.S n) 0 D); [apply T | apply kids_leaves; apply T | apply T].
  - unfold leaves_of. apply Forall_map. exact F.
  - unfold leaves_of, total. rewrite map_map. exact B.
Qed.

(** ** Growing and shrinking a leaf *)

Definition leaf_value (D : list Child) (k : bytes) : Z := match value D k with Some v => v | None => 0 end.

Lemma increase_tree fuel s n D k amt : tree s n D -> Forall byte (content k) -> Z.of_nat n + 6 < 2 ^ 16 -> (Datatypes.S n <= fuel)%nat ->
  let c := {| Index := content k; Accumulation := leaf_value D (content k) + amt |} in
  (forall s', Increase m fuel s k amt = Ok s' -> (exists n', (n <= n' <= Datatypes.S n)%nat /\ tree s' n' (put c D)) /\ writes s s') /\
  (budget n D c < 2 ^ 255 -> exists s', Increase m fuel s k amt = Ok s').
Proof.
  intros T Hk Ln Hf c. unfold Increase. rewrite (get_leaf s n D k T). fold (leaf_value D (content k)). cbn [bind].
  destruct (set_tree fuel s n D k (leaf_value D (content k) + amt) T Hk Ln Hf) as [R1 R2].
  destruct (int_Add (leaf_value D (content k)) amt) as [v|e|e] eqn:E; cbn [bind].
  - apply int_Add_exact in E. subst v. split; [exact R1 | exact R2].
  - split; [discriminate|]. intros B. exfalso. unfold budget in B. cbn [Accumulation c] in B.
    pose proof (abs_sum_nonneg D). rewrite int_Add_total in E by nia. discriminate.
  - split; [discriminate|]. intros B. exfalso. unfold budget in B. cbn [Accumulation c] in B.
    pose proof (abs_sum_nonneg D). rewrite int_Add_total in E by nia. discriminate.
Qed.

(** A store with no nodes, and the tree [NewTree] makes of it. *)
Definition vacant (s : St) : Prop := keyed s /\ forall l k, level_ok l -> st_get s (nodeKey l k) = None.

Lemma new_tree_vacant fuel s : vacant s -> (1 <= fuel)%nat ->
  exists s', NewTree m fuel s = Ok s' /\ tree s' 0 [ {| Index := []; Accumulation := 0 |} ] /\ writes s s'.
Proof.
  intros [Kd N] Hf. unfold NewTree, IsEmpty, leafKey. rewrite N by (unfold level_ok; lia).
  unfold Set_, setLeaf, ptrGet. cbn [level key negb Z.eqb bind content]. unfold leafKey. set (c := {| Index := []; Accumulation := 0 |}).
  set (s1 := st_set s (nodeKey 0 []) [c]). assert (LO0 : level_ok 0) by (unfold level_ok; lia). assert (LO1 : level_ok 1) by (unfold level_ok; lia).
  assert (W1 : writes s s1) by (constructor; [constructor | exact LO0 | constructor]).
  assert (N1 : forall l k, 1 <= l < 2 ^ 16 -> st_get s1 (nodeKey l k) = None).
  { intros l k B. unfold s1. rewrite set_other_level by (unfold level_ok; lia). apply N. unfold level_ok. lia. }
  rewrite (parent_none s1 1 {| level := 0; key := None |} (writes_keyed _ _ W1 Kd) LO1 eq_refl) by (intros k; apply N1; lia).
  assert (X : exists_ s1 (Some {| level := 1; key := None |}) = false) by (apply not_exists_pkey, N1; cbn; lia).
  destruct fuel as [|fuel]; [lia|]. cbn [push]. rewrite X. cbn [negb]. unfold create, pkey. cbn [level key content].
  eexists. split; [reflexivity|]. set (s2 := st_set s1 (nodeKey 1 []) [c]).
  assert (W2 : writes s s2) by (constructor; [exact W1 | exact LO1 | constructor]). split; [|exact W2].
  assert (One : forall st l, (forall k, k <> [] -> st_get st (nodeKey l k) = None) -> st_get st (nodeKey l []) = Some [c] -> at_level st l [([], [c])]).
  { intros st l A B. split; [repeat constructor|]. intros k cs. cbn [In]. destruct k as [|b k].
    - rewrite B. split; [intros E; injection E as <-; now left | intros [E | []]; now injection E as ->].
    - rewrite A by discriminate. split; [discriminate | intros [E | []]; discriminate]. }
  split; [exact (writes_keyed _ _ W2 Kd) | | | repeat constructor | reflexivity | intros k [<- | []]; constructor].
  - apply One.
    + intros k Nk. unfold s2. rewrite set_other_level by (auto; lia). unfold s1. rewrite set_level by exact LO0.
      destruct k; [contradiction|]. cbn [bcompare]. now apply N.
    + unfold s2. rewrite set_other_level by (auto; lia). unfold s1. rewrite set_level by exact LO0. reflexivity.
  - exists [([], [c])]. split; [reflexivity|]. split; [|split; [repeat constructor|split; [left; eauto|split; [reflexivity|]]]].
    + apply One; intros; unfold s2; rewrite set_level by exact LO1; [|reflexivity]. destruct k; [contradiction|]. cbn [bcompare]. apply N1. lia.
    + intros l k B. unfold s2. rewrite set_other_level by (unfold level_ok; lia). apply N1. lia.
Qed.

Lemma new_tree_tree fuel s n D : tree s n D -> NewTree m fuel s = Ok s.
Proof.
  intros T. unfold NewTree, IsEmpty, leafKey. pose proof (tree_first _ _ _ T) as H. destruct D as [|d D]; [discriminate|].
  cbn in H. injection H as H. destruct (tree_leaves _ _ _ T) as [_ A].
  rewrite (proj2 (A [] [d])); [reflexivity|]. left. unfold leaf_of. now rewrite H.
Qed.

(** ** Runs of increases and decreases *)

Definition wsum (f : bytes -> bool) (D : list Child) : Z := zsum (map (fun d => if f (Index d) then Accumulation d else 0) D).

Lemma wsum_cons f d D : wsum f (d :: D) = (if f (Index d) then Accumulation d else 0) + wsum f D.
Proof. reflexivity. Qed.

Definition bump (D : list Child) (k : bytes) (amt : Z) : list Child := put {| Index := k; Accumulation := leaf_value D k + amt |} D.

(** What a change of one leaf does to a sum over leaves. *)
Lemma bump_cases D k amt : StronglySorted ilt D ->
  (exists D1 d D2, D = D1 ++ d :: D2 /\ Index d = k /\ bump D k amt = D1 ++ {| Index := k; Accumulation := Accumulation d + amt |} :: D2) \/
  (~ In k (indices D) /\ exists D1 D2, D = D1 ++ D2 /\ bump D k amt = D1 ++ {| Index := k; Accumulation := amt |} :: D2).
Proof.
  intros Sd. unfold bump, leaf_value. induction Sd as [|d D Sd IH F]; cbn [value put Index].
  - right. split; [auto|]. exists [], []. auto.
  - destruct (bcompare (Index d) k) eqn:E.
    + apply bcompare_eq in E. left. exists [], d, D. auto.
    + destruct IH as [(D1 & e & D2 & -> & Ee & ->) | (N & D1 & D2 & -> & ->)].
      * left. exists (d :: D1), e, D2. auto.
      * right. split; [|exists (d :: D1), D2; auto]. unfold indices. cbn [map In]. intros [X | X]; [|exact (N X)].
        rewrite X, bcompare_refl in E. discriminate.
    + right. assert (N : ~ In k (indices (d :: D))).
      { intros [X | X]; [rewrite X, bcompare_refl in E; discriminate|]. apply in_map_iff in X as (e & <- & I).
        rewrite Forall_forall in F. specialize (F e I). apply blt_gt in E. exact (blt_irrefl _ (blt_trans _ _ _ E F)). }
      split; [exact N|]. exists [], (d :: D). split; [reflexivity|]. cbn [app].
      replace (value D k) with (@None Z); [reflexivity|]. symmetry. apply value_none; [exact Sd|]. intros I. apply N. now right.
Qed.

Lemma wsum_app f D1 D2 : wsum f (D1 ++ D2) = wsum f D1 + wsum f D2.
Proof. unfold wsum. now rewrite map_app, zsum_app. Qed.

Lemma wsum_bump f D k amt : StronglySorted ilt D -> wsum f (bump D k amt) = wsum f D + (if f k then amt else 0).
Proof.
  intros Sd. destruct (bump_cases D k amt Sd) as [(D1 & d & D2 & -> & Ed & ->) | (_ & D1 & D2 & -> & ->)];
    rewrite !wsum_app, !wsum_cons; cbn [Index Accumulation]; [rewrite Ed|]; destruct (f k); lia.
Qed.

Lemma abs_bump D k amt : StronglySorted ilt D -> abs_sum (bump D k amt) <= abs_sum D + Z.abs amt.
Proof.
  intros Sd. destruct (bump_cases D k amt Sd) as [(D1 & d & D2 & -> & Ed & ->) | (_ & D1 & D2 & -> & ->)];
    rewrite !abs_sum_app; unfold abs_sum, zsum; cbn [map fold_right Accumulation]; lia.
Qed.

Lemma length_bump D k amt : StronglySorted ilt D -> (List.length (bump D k amt) <= Datatypes.S (List.length D))%nat.
Proof.
  intros Sd. destruct (bump_cases D k amt Sd) as [(D1 & d & D2 & -> & Ed & ->) | (_ & D1 & D2 & -> & ->)];
    rewrite !length_app; cbn [List.length]; lia.
Qed.

Fixpoint increases (fuel : nat) (ops : list (bytes * Z)) (s : St) : Res St :=
  match ops with [] => Ok s | (k, amt) :: ops' => s <- Increase m fuel s (Some k) amt ;; increases fuel ops' s end.

Definition ops_sum (f : bytes -> bool) (ops : list (bytes * Z)) : Z := zsum (map (fun o => if f (fst o) then snd o else 0) ops).
Definition ops_abs (ops : list (bytes * Z)) : Z := zsum (map (fun o => Z.abs (snd o)) ops).

Lemma small_height s n D b : tree s n D -> Z.of_nat (List.length D) < 2 ^ Z.of_nat b -> (n < b)%nat.
Proof.
  intros T B. pose proof (tree_height s n D T) as Hh. apply (Nat.pow_lt_mono_r_iff 2); [lia|].
  apply Nat.le_lt_trans with (List.length D); [exact Hh|]. apply Nat2Z.inj_lt. now rewrite Nat2Z.inj_pow.
Qed.

Lemma leaf_abs D k : Z.abs (leaf_value D k) <= abs_sum D.
Proof.
  unfold leaf_value, abs_sum, zsum. induction D as [|d D IH]; cbn [value map fold_right]; [lia|].
  pose proof (abs_sum_nonneg D) as N. unfold abs_sum, zsum in N. destruct (bcompare (Index d) k); lia.
Qed.

Lemma budget_small n D k amt : (n < 50)%nat ->
  budget n D {| Index := k; Accumulation := leaf_value D k + amt |} <= 5000 * (abs_sum D + Z.abs amt).
Proof.
  intros Hn. unfold budget. cbn [Accumulation]. pose proof (leaf_abs D k). pose proof (abs_sum_nonneg D).
  assert ((Z.of_nat n + 4) * (Z.of_nat n + 4) <= 53 * 53) by (apply Z.mul_le_mono_nonneg; lia).
  assert ((Z.of_nat n + 4) * (Z.of_nat n + 4) * abs_sum D <= 53 * 53 * abs_sum D) by (apply Z.mul_le_mono_nonneg_r; lia).
  assert ((Z.of_nat n + 4) * Z.abs (leaf_value D k + amt) <= 53 * (abs_sum D + Z.abs amt)) by (apply Z.mul_le_mono_nonneg; lia). lia.
Qed.

Lemma increases_tree fuel (ops : list (bytes * Z)) : forall s n D, tree s n D -> Forall (fun o => Forall byte (fst o)) ops ->
  Z.of_nat (List.length D + List.length ops) < 2 ^ 50 -> (60 <= fuel)%nat ->
  (forall s', increases fuel ops s = Ok s' -> exists n', tree s' n' (fold_left (fun D o => bump D (fst o) (snd o)) ops D)) /\
  (5000 * (abs_sum D + ops_abs ops) < 2 ^ 255 -> exists s', increases fuel ops s = Ok s').
Proof.
  induction ops as [|[k amt] ops IH]; intros s n D T F Ln Hf; cbn [increases fold_left fst snd].
  - split; [intros s' E; apply Ok_inj in E as <-; eauto | eauto].
  - inversion F as [|? ? Fk F']; subst. cbn [fst] in Fk. cbn [List.length] in Ln.
    pose proof (small_height s n D 50 T ltac:(change (Z.of_nat 50) with 50; lia)) as Hn.
    destruct (increase_tree fuel s n D (Some k) amt T Fk ltac:(lia) ltac:(lia)) as [R1 R2]. cbn [content] in R1, R2.
    fold (bump D k amt) in R1. pose proof (tree_sorted _ _ _ T) as Sd.
    pose proof (abs_bump D k amt Sd) as Ab. pose proof (length_bump D k amt Sd) as Lb.
    pose proof (abs_sum_nonneg D) as Dn.
    assert (On : 0 <= ops_abs ops) by (unfold ops_abs, zsum; clear; induction ops; cbn; lia).
    change (ops_abs ((k, amt) :: ops)) with (Z.abs amt + ops_abs ops).
    destruct (Increase m fuel s (Some k) amt) as [s1|e|e] eqn:E; cbn [bind].
    + destruct (R1 s1 eq_refl) as ((n1 & Hn1 & T1) & _).
      destruct (IH s1 n1 (bump D k amt) T1 F' ltac:(lia) Hf) as [I1 I2]. split; [exact I1|]. intros B. apply I2. lia.
    + split; [discriminate|]. intros B. destruct R2 as (? & ?); [|discriminate]. eapply Z.le_lt_trans; [exact (budget_small n D k amt Hn)|]. lia.
    + split; [discriminate|]. intros B. destruct R2 as (? & ?); [|discriminate]. eapply Z.le_lt_trans; [exact (budget_small n D k amt Hn)|]. lia.
Qed.

Lemma fold_bump (f : bytes -> bool) (ops : list (bytes * Z)) : forall D, StronglySorted ilt D ->
  wsum f (fold_left (fun D o => bump D (fst o) (snd o)) ops D) = wsum f D + ops_sum f ops.
Proof.
  induction ops as [|[k amt] ops IH]; intros D Sd; cbn [fold_left fst snd].
  - unfold ops_sum. cbn. lia.
  - rewrite IH by (now apply put_sorted). rewrite wsum_bump by exact Sd.
    change (ops_sum f ((k, amt) :: ops)) with ((if f k then amt else 0) + ops_sum f ops). lia.
Qed.

Lemma wsum_key D k : StronglySorted ilt D -> wsum (fun k' => match bcompare k' k with Eq => true | _ => false end) D = leaf_value D k.
Proof.
  unfold leaf_value. induction 1 as [|d D Sd IH F]; [reflexivity|]. rewrite wsum_cons. cbn [value].
  destruct (bcompare (Index d) k) eqn:E; [|exact IH..]. apply bcompare_eq in E. subst k.
  replace (value D (Index d)) with (@None Z) in IH; [lia|]. symmetry. apply value_none; [exact Sd|]. intros I.
  apply in_map_iff in I as (e & Ee & I). rewrite Forall_forall in F. specialize (F e I). unfold ilt in F. rewrite Ee in F.
  exact (blt_irrefl _ F).
Qed.

Lemma wsum_from D a : sum_at Eq a (leaves_of D) + sum_at Gt a (leaves_of D) = wsum (fun k => bleb a k) D.
Proof.
  unfold leaves_of. induction D as [|d D IH]; [reflexivity|]. rewrite wsum_cons. unfold sum_at, total, zsum, bleb in *.
  cbn [map filter fst]. rewrite (bcompare_antisym (Index d) a). destruct (bcompare (Index d) a); cbn [CompOpp map fold_right snd] in *; lia.
Qed.

Lemma wsum_all D : wsum (fun _ => true) D = acc_sum D.
Proof. unfold wsum, acc_sum. f_equal. Qed.

End Insert.

(** ** Theorem *)

Section Accumulates.
Context {S : SdkMath} {SS : SdkMathSpec S} {K : KVStore (list Child)} {KS : KVStoreSpec K} {P : PrefixEnd} {PS : PrefixEndSpec P}.

(** C24: from an empty store, any run of increases and decreases ([Decrease] is
    an increase by the opposite) returns as long as the amounts are far from the
    256-bit limit; the value of a key is then the sum of the amounts added to
    it, and when no value is negative, the sum the tree reports from a key on
    is the sum of all amounts added at or after it.  Splits of nodes and the
    sums kept on the way up are never wrong. *)
Theorem accumulation_store_sums (m : Z) (fuel : nat) (s : St) (ops : list (bytes * Z)) :
  3 <= m < 256 -> (60 <= fuel)%nat -> vacant s -> Forall (fun o => Forall byte (fst o)) ops ->
  Z.of_nat (List.length ops) < 2 ^ 49 -> 5000 * ops_abs ops < 2 ^ 255 ->
  exists s', (s <- NewTree m fuel s ;; increases m fuel ops s) = Ok s' /\
    (forall k, Get s' (Some k) = Ok (ops_sum (fun k' => match bcompare k' k with Eq => true | _ => false end) ops)) /\
    ((forall k, 0 <= ops_sum (fun k' => match bcompare k' k with Eq => true | _ => false end) ops) ->
     forall a, SubsetAccumulation s' (Some a) None = Ok (ops_sum (fun k => bleb a k) ops)).
Proof.
  intros Hm Hf V F Ln B. destruct (new_tree_vacant m fuel s V ltac:(lia)) as (s0 & E0 & T0 & _). rewrite E0. cbn [bind].
  destruct (increases_tree m Hm fuel ops s0 0 _ T0 F ltac:(cbn [List.length]; lia) Hf) as [R1 R2].
  destruct R2 as (s1 & E1); [change (abs_sum [ {| Index := []; Accumulation := 0 |} ]) with 0; lia|]. exists s1. split; [exact E1|]. destruct (R1 s1 E1) as (n & T).
  set (D0 := [ {| Index := []; Accumulation := 0 |} ]) in *. set (D := fold_left (fun D o => bump D (fst o) (snd o)) ops D0) in *.
  assert (Sd0 : StronglySorted ilt D0) by repeat constructor. pose proof (tree_sorted _ _ _ T) as Sd.
  assert (W : forall f, wsum f D = ops_sum f ops).
  { intros f. unfold D. rewrite fold_bump by exact Sd0. unfold wsum, D0. cbn. destruct (f []); lia. }
  split; [intros k; rewrite (get_leaf _ _ _ _ T); cbn [content]; fold (leaf_value D k); now rewrite <- (wsum_key D k Sd), W|].
  intros Nn a.
  assert (LD : (List.length D <= Datatypes.S (List.length ops))%nat).
  { unfold D, D0. clear. assert (G : forall ops D, StronglySorted ilt D ->
      (List.length (fold_left (fun D (o : bytes * Z) => bump D (fst o) (snd o)) ops D) <= List.length D + List.length ops)%nat).
    { induction ops0 as [|o ops0 IH]; intros D Sd; cbn [fold_left List.length]; [lia|].
      pose proof (IH (bump D (fst o) (snd o)) (put_sorted _ _ Sd)). pose proof (length_bump D (fst o) (snd o) Sd). lia. }
    apply (G ops [ {| Index := []; Accumulation := 0 |} ]). repeat constructor. }
  pose proof (small_height s1 n D 50 T ltac:(change (Z.of_nat 50) with 50; lia)) as Hn.
  assert (Ab : ops_sum (fun _ => true) ops <= ops_abs ops) by (unfold ops_sum, ops_abs, zsum; clear; induction ops; cbn; lia).
  assert (An : 0 <= ops_abs ops) by (unfold ops_abs, zsum; clear; induction ops; cbn; lia).
  assert (OK : tree_ok s1 (leaves_of D)).
  { apply (tree_is_ok s1 n); [exact T | lia | | rewrite <- wsum_all, W; lia].
    apply Forall_forall. intros d I. specialize (Nn (Index d)). rewrite <- W, wsum_key in Nn by exact Sd.
    unfold leaf_value in Nn. now rewrite (value_in D d Sd I) in Nn. }
  pose proof OK as (_ & Fn & Bt). pose proof (sum_at_bound Eq a _ Fn). pose proof (sum_at_bound Gt a _ Fn).
  pose proof (sum_at_total a (leaves_of D)). pose proof (sum_at_bound Lt a _ Fn).
  unfold SubsetAccumulation. rewrite (SplitAcc_holds s1 _ _ OK). cbn [content bind].
  rewrite int_Add_total by lia. now rewrite wsum_from, W.
Qed.

End Accumulates.

(** *** Forty keys in one tree *)

Definition forty_ops : list (bytes * Z) := map (fun i => ([Z.of_nat i mod 256], Z.of_nat i)) (seq 1 40).

Lemma accumulation_store_sums_witness : exists s',
  (s <- NewTree (K := assoc_store) 10 60 [] ;; increases (K := assoc_store) 10 60 forty_ops s) = Ok s' /\
  SubsetAccumulation (K := assoc_store) s' (Some [39]) None = Ok 79.
Proof.
  destruct (accumulation_store_sums (K := assoc_store) 10 60 [] forty_ops ltac:(lia) ltac:(lia)) as (s' & E & _ & Q).
  - split; [split; [intros k v H; discriminate H | intros r v H; discriminate H] | reflexivity].
  - unfold forty_ops. apply Forall_map, Forall_forall. intros i _. constructor; [apply Z.mod_pos_bound; lia | constructor].
  - vm_compute. reflexivity.
  - vm_compute. reflexivity.
  - exists s'. split; [exact E|]. rewrite Q; [vm_compute; reflexivity|]. intros k. unfold ops_sum, forty_ops, zsum. rewrite map_map.
    induction (seq 1 40) as [|i l IH]; cbn [map fold_right]; [lia|].
    apply Z.add_nonneg_nonneg; [|exact IH]. destruct (bcompare _ k); cbn [snd]; lia.
Defined.
