(* ===== verification/BinarySearch.v ===== *)
(** * Error tolerances, binary search and rounded division
    ([osmomath/binary_search.go], [osmomath/rounding_direction.go])

    A comparison against a tolerance returns [Ok 0] when the value is accepted
    and otherwise the side it is on.  A nil [Dec] field is [None].  The two
    binary searches run the same loop with their own midpoint and comparison;
    [maxIterations] bounds it in the source, so the model needs no fuel. *)

From Stdlib Require Import ZArith Lia List Bool String.
From S2P Require Import Prelude GoBig BigInt BigDec SdkMath.
Import ListNotations.

Inductive RoundingDirection : Type :=
| RoundUnconstrained | RoundUp | RoundDown | RoundBankers.

Record ErrTolerance : Type := {
  AdditiveTolerance : option Z;
  MultiplicativeTolerance : option Z;
  RoundingDir : RoundingDirection
}.

(** The direction check shared by the three comparisons. *)
Definition roundingCheck (dir : RoundingDirection) (expected actual : Z) : option Z :=
  match dir with
  | RoundDown => if expected <? actual then Some (-1) else None
  | RoundUp => if expected >? actual then Some 1 else None
  | _ => None
  end.

Definition sign3 (expected actual : Z) : Z :=
  if expected >? actual then 1 else if expected <? actual then -1 else 0.

Section Compare.
Context {S : SdkMath}.

Definition Compare (e : ErrTolerance) (expected actual : Z) : Res Z :=
  x <- int_ToLegacyDec expected ;;
  y <- int_ToLegacyDec actual ;;
  d <- dec_Sub x y ;;
  let diff := Z.abs d in
  let comparisonSign := if expected >? actual then 1 else -1 in
  match roundingCheck (RoundingDir e) expected actual with
  | Some c => Ok c
  | None =>
      let additive :=
        match AdditiveTolerance e with
        | None => None
        | Some tol =>
            if (tol =? 0) && (expected =? actual) then Some 0
            else if diff >? tol then Some comparisonSign else None
        end in
      match additive with
      | Some c => Ok c
      | None =>
          match MultiplicativeTolerance e with
          | None => Ok 0
          | Some tol =>
              if tol =? 0 then Ok 0 else
              let minValue := Z.min (Z.abs expected) (Z.abs actual) in
              if minValue =? 0 then Ok comparisonSign else
              mv <- int_ToLegacyDec minValue ;;
              errTerm <- dec_Quo diff mv ;;
              if errTerm >? tol then Ok comparisonSign else Ok 0
          end
      end
  end.

Definition CompareDec (e : ErrTolerance) (expected actual : Z) : Res Z :=
  match roundingCheck (RoundingDir e) expected actual with
  | Some c => Ok c
  | None =>
      d <- dec_Sub expected actual ;;
      let diff := Z.abs d in
      let comparisonSign := sign3 expected actual in
      let additive :=
        match AdditiveTolerance e with
        | None => None
        | Some tol =>
            if (tol =? 0) && (expected =? actual) then Some 0
            else if diff >? tol then Some comparisonSign else None
        end in
      match additive with
      | Some c => Ok c
      | None =>
          match MultiplicativeTolerance e with
          | None => Ok 0
          | Some tol =>
              if tol =? 0 then Ok 0 else
              let minValue := dec_Min (Z.abs expected) (Z.abs actual) in
              if minValue =? 0 then Ok comparisonSign else
              errTerm <- dec_Quo diff minValue ;;
              if errTerm >? tol then Ok comparisonSign else Ok 0
          end
      end
  end.

End Compare.

Definition CompareBigDec (e : ErrTolerance) (expected actual : Z) : Res Z :=
  match roundingCheck (RoundingDir e) expected actual with
  | Some c => Ok c
  | None =>
      d <- Sub expected actual ;;
      let diff := Abs d in
      let comparisonSign := sign3 expected actual in
      additive <-
        match AdditiveTolerance e with
        | None => Ok None
        | Some tol =>
            if (tol =? 0) && Equal expected actual then Ok (Some 0)
            else t <- BigDecFromDec tol ;; Ok (if GT diff t then Some comparisonSign else None)
        end ;;
      match additive with
      | Some c => Ok c
      | None =>
          match MultiplicativeTolerance e with
          | None => Ok 0
          | Some tol =>
              if tol =? 0 then Ok 0 else
              let minValue := MinBigDec (Abs expected) (Abs actual) in
              if IsZero minValue then Ok comparisonSign else
              errTerm <- Quo diff minValue ;;
              t <- BigDecFromDec tol ;;
              if GT errTerm t then Ok comparisonSign else Ok 0
          end
      end
  end.

(** [EqualCoins]: coins are (denom, amount) pairs; [AmountOf] is the SDK's
    lookup in a sorted coin list. *)
Definition EqualCoins {S : SdkMath} (AmountOf : list (string * Z) -> string -> Res Z)
    (e : ErrTolerance) (expectedCoins actualCoins : list (string * Z)) : Res bool :=
  if (Datatypes.length expectedCoins <? Datatypes.length actualCoins)%nat then Ok false else
  (fix loop (coins : list (string * Z)) : Res bool :=
     match coins with
     | [] => Ok true
     | (denom, amount) :: rest =>
         actual <- AmountOf actualCoins denom ;;
         curCoinEqual <- Compare e amount actual ;;
         if negb (curCoinEqual =? 0) then Ok false else loop rest
     end) expectedCoins.

(** ** The search loop *)

Fixpoint searchLoop (mid : Z -> Z -> Res Z) (f : Z -> Res Z) (compare : Z -> Res Z)
    (iterations : nat) (lowerbound upperbound : Z) : Res Z :=
  match iterations with
  | O => Err "hit maximum iterations, did not converge fast enough"
  | Datatypes.S n =>
      curEstimate <- mid lowerbound upperbound ;;
      curOutput <- f curEstimate ;;
      compRes <- compare curOutput ;;
      if compRes <? 0 then searchLoop mid f compare n lowerbound curEstimate
      else if compRes >? 0 then searchLoop mid f compare n curEstimate upperbound
      else Ok curEstimate
  end.

Definition BinarySearch {S : SdkMath} (f : Z -> Res Z) (lowerbound upperbound targetOutput : Z)
    (errTolerance : ErrTolerance) (maxIterations : Z) : Res Z :=
  searchLoop (fun lo hi => s <- int_Add lo hi ;; int_QuoRaw s 2) f (Compare errTolerance targetOutput)
    (Z.to_nat maxIterations) lowerbound upperbound.

Definition BinarySearchBigDec (f : Z -> Res Z) (lowerbound upperbound targetOutput : Z)
    (errTolerance : ErrTolerance) (maxIterations : Z) : Res Z :=
  searchLoop (fun lo hi => s <- Add lo hi ;; Ok (Rsh s 1)) f (CompareBigDec errTolerance targetOutput)
    (Z.to_nat maxIterations) lowerbound upperbound.

(** ** Rounded division *)

Definition DivIntByU64ToBigDec {S : SdkMath} (i u : Z) (round : RoundingDirection) : Res Z :=
  if u =? 0 then Err "div by zero" else
  x <- int_ToLegacyDec i ;;
  d <- BigDecFromDecMut x ;;
  match round with
  | RoundUp => n <- NewBigDec (int64 u) ;; QuoRoundUp d n
  | RoundDown => QuoInt64 d (int64 u)
  | RoundBankers => n <- NewBigDec (int64 u) ;; Quo d n
  | RoundUnconstrained => Err "invalid rounding mode"
  end.

(** [scales[i]] panics when there are fewer scales than coins. *)
Fixpoint DivCoinAmtsByU64ToBigDec {S : SdkMath} (amounts scales : list Z) (round : RoundingDirection) :
    Res (list Z) :=
  match amounts, scales with
  | [], _ => Ok []
  | _ :: _, [] => Panic "index out of range"
  | a :: amounts', u :: scales' =>
      r <- DivIntByU64ToBigDec a u round ;;
      rs <- DivCoinAmtsByU64ToBigDec amounts' scales' round ;;
      Ok (r :: rs)
  end.

(** ** Lemmas *)

Lemma roundingCheck_some dir e a c : roundingCheck dir e a = Some c -> c = Z.sgn (e - a) /\ c <> 0.
Proof.
  unfold roundingCheck. destruct dir; try discriminate.
  - destruct (Z.gtb_spec e a); [|discriminate]. intros H0. injection H0 as <-. lia.
  - destruct (Z.ltb_spec e a); [|discriminate]. intros H0. injection H0 as <-. lia.
Qed.

Lemma sign3_sgn e a : sign3 e a = Z.sgn (e - a).
Proof. unfold sign3. destruct (Z.gtb_spec e a), (Z.ltb_spec e a); lia. Qed.

(** What acceptance means, with the tolerances in the units of [BigDec]. *)
Definition accepted (e : ErrTolerance) (expected actual : Z) : Prop :=
  (RoundingDir e = RoundDown -> actual <= expected) /\
  (RoundingDir e = RoundUp -> expected <= actual) /\
  (forall tol, AdditiveTolerance e = Some tol -> 0 <= tol -> Z.abs (expected - actual) <= tol * 10 ^ 18) /\
  (forall tol, MultiplicativeTolerance e = Some tol -> tol <> 0 -> expected <> actual ->
     exists r, Quo (Z.abs (expected - actual)) (Z.min (Z.abs expected) (Z.abs actual)) = Ok r /\ r <= tol * 10 ^ 18).

Lemma roundingCheck_none dir e a :
  roundingCheck dir e a = None ->
  (dir = RoundDown -> a <= e) /\ (dir = RoundUp -> e <= a).
Proof.
  unfold roundingCheck. destruct dir; intros H; split; intros E; try discriminate.
  - destruct (Z.gtb_spec e a); [discriminate | lia].
  - destruct (Z.ltb_spec e a); [discriminate | lia].
Qed.

(** Every comparison answers 0 for an accepted value and otherwise the side. *)
Lemma CompareBigDec_sound e expected actual c :
  CompareBigDec e expected actual = Ok c ->
  (c = 0 -> accepted e expected actual) /\ (c = 0 \/ c = Z.sgn (expected - actual)).
Proof.
  unfold CompareBigDec. destruct roundingCheck as [k|] eqn:R; intros H.
  { apply Ok_inj in H as <-. apply roundingCheck_some in R. intuition lia. }
  apply roundingCheck_none in R as [Rd Ru].
  inv_bind H. apply Sub_iff in E as [_ ->]. inv_bind H. rename v into add.
  rewrite sign3_sgn in *. unfold Equal, GT, Abs in *.
  assert (Hadd : add = None -> forall tol, AdditiveTolerance e = Some tol -> 0 <= tol ->
            Z.abs (expected - actual) <= tol * 10 ^ 18).
  { intros -> tol T Ht. rewrite T in E. case_if_in E; [discriminate|].
    rewrite BigDecFromDec_ok in E. cbn [bind] in E. apply Ok_inj in E.
    change precisionReuseSDKDec with (10 ^ 18) in E. case_if_in E; [discriminate|]. b2p. lia. }
  assert (Hsome : forall k, add = Some k -> k = 0 /\ expected = actual \/
            k = Z.sgn (expected - actual)).
  { intros k ->. destruct (AdditiveTolerance e) as [tol|]; [|discriminate].
    case_if_in E.
    - apply Ok_inj in E. injection E as <-. b2p. left. lia.
    - rewrite BigDecFromDec_ok in E. cbn [bind] in E. apply Ok_inj in E.
      case_if_in E; [injection E as <-; now right | discriminate]. }
  destruct add as [k|].
  { apply Ok_inj in H as <-. destruct (Hsome k eq_refl) as [[-> ->]| ->].
    - split; [intros _|now left]. unfold accepted. rewrite Z.sub_diag. repeat split; try lia.
    - split; [|now right]. intros Z0. assert (expected = actual) as -> by lia.
      unfold accepted. rewrite Z.sub_diag. repeat split; try lia. }
  specialize (Hadd eq_refl).
  destruct (MultiplicativeTolerance e) as [tol|] eqn:T.
  2: { apply Ok_inj in H as <-. split; [|now left]. intros _. unfold accepted. rewrite T.
       repeat split; auto. discriminate. }
  case_if_in H; b2p.
  { apply Ok_inj in H as <-. split; [|now left]. intros _. unfold accepted. rewrite T.
    repeat split; auto. intros tol' E'. injection E' as <-. lia. }
  unfold MinBigDec, LT in H.
  replace (if Z.abs expected <? Z.abs actual then Z.abs expected else Z.abs actual)
    with (Z.min (Z.abs expected) (Z.abs actual)) in H by (case_if; b2p; lia).
  case_if_in H.
  { apply Ok_inj in H as <-. split; [|now right]. intros Z0. unfold accepted. rewrite T.
    repeat split; auto. lia. }
  inv_bind H. rewrite BigDecFromDec_ok in H. cbn [bind] in H.
  change precisionReuseSDKDec with (10 ^ 18) in H.
  case_if_in H; apply Ok_inj in H as <-.
  - split; [|now right]. intros Z0. unfold accepted. rewrite T. repeat split; auto. lia.
  - split; [|now left]. intros _. unfold accepted. rewrite T. repeat split; auto.
    intros tol' E' _ _. injection E' as <-. exists v. b2p. split; [exact E0 | lia].
Qed.

(** With an additive tolerance only, the comparison is total in range and its
    answer depends on the value monotonically. *)
Lemma CompareBigDec_additive e expected actual tol :
  AdditiveTolerance e = Some tol -> MultiplicativeTolerance e = None -> 0 <= tol ->
  in_range (expected - actual) ->
  exists c, CompareBigDec e expected actual = Ok c /\
    (c < 0 -> expected < actual /\ forall b, actual <= b -> ~ accepted e expected b) /\
    (c > 0 -> actual < expected /\ forall b, b <= actual -> ~ accepted e expected b).
Proof.
  intros A M Ht R. unfold CompareBigDec.
  destruct roundingCheck as [k|] eqn:C.
  { exists k. split; [reflexivity|]. unfold roundingCheck in C. unfold accepted.
    destruct (RoundingDir e); try discriminate; case_if_in C; try discriminate;
      injection C as <-; b2p; split; try lia; intros _; (split; [lia|]); intros b Hb (D & U & _);
      [specialize (U eq_refl) | specialize (D eq_refl)]; lia. }
  rewrite Sub_ok by exact R. cbn [bind]. rewrite A, M, sign3_sgn. unfold Equal, GT, Abs.
  rewrite BigDecFromDec_ok. change precisionReuseSDKDec with (10 ^ 18).
  destruct ((tol =? 0) && (expected =? actual)) eqn:Z0; cbn [bind].
  { exists 0. split; [reflexivity|]. lia. }
  destruct (Z.gtb_spec (Z.abs (expected - actual)) (tol * 10 ^ 18)) as [G|G].
  2: { exists 0. split; [reflexivity|]. lia. }
  exists (Z.sgn (expected - actual)). split; [reflexivity|].
  split; intros S; (split; [lia|]); intros b Hb (_ & _ & Q & _); specialize (Q tol A Ht); lia.
Qed.

(** ** The loop, for any midpoint strictly below the upper bound *)

Section Loop.
Context (mid : Z -> Z -> Res Z) (f : Z -> Res Z) (compare : Z -> Res Z) (good : Z -> Prop).
Context (lo0 hi0 : Z).
Hypothesis mid_between : forall lo hi m,
  lo0 <= lo -> hi <= hi0 -> lo < hi -> mid lo hi = Ok m -> lo <= m < hi.

Lemma searchLoop_sound n lo hi y :
  (forall v, compare v = Ok 0 -> good v) ->
  lo0 <= lo -> hi <= hi0 -> lo < hi ->
  (forall a b m, lo0 <= a -> b <= hi0 -> mid a b = Ok m -> a = b -> m = a) ->
  searchLoop mid f compare n lo hi = Ok y ->
  lo <= y < hi /\ exists v, f y = Ok v /\ good v.
Proof.
  intros Hg L H LH Hdeg.
  assert (Gen : forall a b, lo0 <= a -> b <= hi0 -> lo <= a -> b <= hi -> a <= b -> a < hi ->
            searchLoop mid f compare n a b = Ok y ->
            lo <= y < hi /\ exists v, f y = Ok v /\ good v); [|intros S; apply (Gen lo hi); auto; lia].
  induction n as [|n IH]; cbn [searchLoop]; intros a b La Hb La' Hb' AB AH S; [discriminate|].
  inv_bind S. inv_bind S. inv_bind S. rename v into m, v0 into w, v1 into c.
  assert (M : a <= m <= b /\ m < hi).
  { destruct (Z.eq_dec a b) as [e|ne].
    - pose proof (Hdeg a b m La Hb E e). lia.
    - pose proof (mid_between a b m La Hb ltac:(lia) E). lia. }
  case_if_in S; [apply (IH a m); auto; lia|].
  case_if_in S; [apply (IH m b); auto; lia|].
  apply Ok_inj in S as <-. split; [lia|]. exists w. split; [exact E0|]. apply Hg. b2p.
  replace c with 0 in E1 by lia. exact E1.
Qed.

Lemma searchLoop_finds (g : Z -> Z) n lo hi :
  (forall a b, lo0 <= a -> b <= hi0 -> a < b -> mid a b = Ok ((a + b) / 2)) ->
  (forall y, lo0 <= y < hi0 -> f y = Ok (g y)) ->
  (forall y z, lo0 <= y <= z -> z < hi0 -> g y <= g z) ->
  (forall y, lo0 <= y < hi0 -> exists c, compare (g y) = Ok c /\
     (c < 0 -> forall v, g y <= v -> ~ good v) /\ (c > 0 -> forall v, v <= g y -> ~ good v)) ->
  lo0 <= lo -> hi <= hi0 -> hi - lo <= 2 ^ (Z.of_nat n - 1) -> (1 <= n)%nat ->
  (exists y0, lo <= y0 < hi /\ good (g y0)) ->
  exists y, searchLoop mid f compare n lo hi = Ok y.
Proof.
  intros Hm Hf Hmono Hc. revert lo hi.
  induction n as [|n IH]; intros lo hi L H W N (y0 & Y & G); [lia|].
  cbn [searchLoop]. rewrite Hm by lia. cbn [bind].
  pose proof (div_spec (lo + hi) 2 ltac:(lia)) as D. set (m := (lo + hi) / 2) in *.
  rewrite Hf by lia. cbn [bind].
  destruct (Hc m ltac:(lia)) as (c & -> & Cn & Cp). cbn [bind].
  assert (P : (1 <= n)%nat -> 2 ^ (Z.of_nat (Datatypes.S n) - 1) = 2 * 2 ^ (Z.of_nat n - 1)).
  { intros. rewrite <- Z.pow_succ_r by lia. f_equal. lia. }
  assert (One : n = 0%nat -> m = y0).
  { intros ->. change (2 ^ (Z.of_nat 1 - 1)) with 1 in W. lia. }
  destruct (Z.ltb_spec c 0) as [C|C].
  - assert (y0 < m).
    { destruct (Z.lt_ge_cases y0 m); [assumption|]. exfalso.
      apply (Cn C (g y0)); [apply Hmono; lia | exact G]. }
    destruct n; [specialize (One eq_refl); lia|].
    rewrite P in W by lia. apply IH; try lia. exists y0. split; [lia | exact G].
  - destruct (Z.gtb_spec c 0) as [C'|C'].
    + assert (m < y0).
      { destruct (Z.lt_ge_cases m y0); [assumption|]. exfalso.
        apply (Cp ltac:(lia) (g y0)); [apply Hmono; lia | exact G]. }
      destruct n; [specialize (One eq_refl); lia|].
      rewrite P in W by lia. apply IH; try lia. exists y0. split; [lia | exact G].
    + exists m. reflexivity.
Qed.

End Loop.

Lemma bigdec_mid a b m : (s <- Add a b ;; Ok (Rsh s 1)) = Ok m -> m = (a + b) / 2.
Proof.
  intros H. inv_binds. apply Add_iff in E as [_ ->]. subst m. now rewrite Rsh_div by lia.
Qed.

Lemma bigdec_mid_between a b m :
  a < b -> (s <- Add a b ;; Ok (Rsh s 1)) = Ok m -> a <= m < b.
Proof. intros L H. apply bigdec_mid in H as ->. pose proof (div_spec (a + b) 2 ltac:(lia)). lia. Qed.

Lemma bigdec_mid_same a m : (s <- Add a a ;; Ok (Rsh s 1)) = Ok m -> m = a.
Proof. intros H. apply bigdec_mid in H as ->. pose proof (div_spec (a + a) 2 ltac:(lia)). lia. Qed.

Lemma bigdec_mid_ok lo hi a b :
  in_range (2 * lo) -> in_range (2 * hi) -> lo <= a -> b <= hi -> a < b ->
  (s <- Add a b ;; Ok (Rsh s 1)) = Ok ((a + b) / 2).
Proof.
  intros. rewrite Add_ok by (unfold in_range in *; lia). cbn [bind]. now rewrite Rsh_div by lia.
Qed.

Lemma BinarySearchBigDec_accepts f lo hi target e n y :
  lo < hi -> BinarySearchBigDec f lo hi target e n = Ok y ->
  lo <= y < hi /\ exists v, f y = Ok v /\ accepted e target v.
Proof.
  intros LH. unfold BinarySearchBigDec.
  apply searchLoop_sound with (lo0 := lo) (hi0 := hi); try lia.
  - intros a b m _ _. apply bigdec_mid_between.
  - intros v H. now apply (proj1 (CompareBigDec_sound _ _ _ _ H)).
  - intros a b m _ _ H ->. now apply bigdec_mid_same.
Qed.

(** ** Rounded division: the quotient of an amount by a scaling factor *)

Section Div.
Context `{SdkMathSpec}.

Lemma int64_wraps u : 2 ^ 63 <= u < 2 ^ 64 -> int64 u = u - 2 ^ 64 /\ int64 u < 0.
Proof.
  intros Hu. unfold int64. replace (u + 2 ^ 63) with ((u - 2 ^ 63) + 1 * 2 ^ 64) by lia.
  rewrite Z.mod_add, Z.mod_small by lia. lia.
Qed.

Lemma DivIntByU64_down i u r :
  0 <= i -> 0 < u < 2 ^ 63 -> DivIntByU64ToBigDec i u RoundDown = Ok r -> r = i * 10 ^ 36 / u.
Proof.
  intros Hi Hu. unfold DivIntByU64ToBigDec. destruct (Z.eqb_spec u 0); [lia|]. intros E.
  inv_bind E. apply int_ToLegacyDec_exact in E0 as ->. rewrite BigDecFromDecMut_ok in E.
  cbn [bind] in E. apply bigQuo_inv in E as [_ ->]. rewrite int64_id by lia.
  rewrite quot_nonneg by (unfold OneDec, precisionReuseSDKDec; lia). f_equal.
  change (10 ^ 36) with (OneDec * precisionReuseSDKDec). ring.
Qed.

Lemma DivIntByU64_up i u r :
  0 <= i -> 0 < u < 2 ^ 63 -> DivIntByU64ToBigDec i u RoundUp = Ok r -> r = cdiv (i * 10 ^ 36) u.
Proof.
  intros Hi Hu. unfold DivIntByU64ToBigDec. destruct (Z.eqb_spec u 0); [lia|]. intros E.
  inv_bind E. apply int_ToLegacyDec_exact in E0 as ->. rewrite BigDecFromDecMut_ok in E.
  cbn [bind] in E. rewrite NewBigDec_ok, int64_id in E by lia. cbn [bind] in E.
  pose proof prec_pos as P. apply QuoRoundUp_iff in E as (_ & ->); [|nia].
  replace (i * OneDec * precisionReuseSDKDec * defaultBigDecPrecisionReuse)
    with (i * 10 ^ 36 * defaultBigDecPrecisionReuse)
    by (change (10 ^ 36) with (OneDec * precisionReuseSDKDec); ring).
  apply cdiv_unique; [nia|]. pose proof (cdiv_spec (i * 10 ^ 36) u ltac:(lia)). nia.
Qed.

(** A factor of [2^63] or more turns negative in the conversion to [int64]. *)
Lemma DivIntByU64_wraps i u r :
  0 <= i -> 2 ^ 63 <= u < 2 ^ 64 -> DivIntByU64ToBigDec i u RoundDown = Ok r -> r <= 0.
Proof.
  intros Hi Hu. unfold DivIntByU64ToBigDec. destruct (Z.eqb_spec u 0); [lia|]. intros E.
  inv_bind E. apply int_ToLegacyDec_exact in E0 as ->. rewrite BigDecFromDecMut_ok in E.
  cbn [bind] in E. apply bigQuo_inv in E as [_ ->]. destruct (int64_wraps u Hu) as [-> N].
  rewrite <- (Z.opp_involutive (u - 2 ^ 64)), Z.quot_opp_r by lia.
  assert (0 <= i * OneDec * precisionReuseSDKDec) by (unfold OneDec, precisionReuseSDKDec; lia).
  pose proof (Z.quot_pos (i * OneDec * precisionReuseSDKDec) (- (u - 2 ^ 64)) ltac:(lia) ltac:(lia)). lia.
Qed.

End Div.

(** ** Theorems *)

(** Whatever the function and the tolerance, an input that
    [BinarySearchBigDec] returns lies in [[lowerbound, upperbound)] (the upper
    bound itself is never tried) and its output meets the tolerance and the
    rounding direction. *)
Theorem BinarySearchBigDec_sound f lowerbound upperbound targetOutput e maxIterations y :
  lowerbound < upperbound ->
  BinarySearchBigDec f lowerbound upperbound targetOutput e maxIterations = Ok y ->
  lowerbound <= y < upperbound /\ exists v, f y = Ok v /\ accepted e targetOutput v.
Proof.
  apply BinarySearchBigDec_accepts.
Qed.

(** C34: for a monotone function and an additive tolerance (with any rounding
    direction), if some input in [[lowerbound, upperbound)] is accepted, then
    [n] iterations with [upperbound - lowerbound <= 2^(n-1)] find one: the
    search never reports "hit maximum iterations". *)
Theorem BinarySearchBigDec_finds g lowerbound upperbound targetOutput e tol maxIterations :
  AdditiveTolerance e = Some tol -> MultiplicativeTolerance e = None -> 0 <= tol ->
  in_range (2 * lowerbound) -> in_range (2 * upperbound) ->
  (forall y, lowerbound <= y < upperbound -> in_range (targetOutput - g y)) ->
  (forall y z, lowerbound <= y <= z -> z < upperbound -> g y <= g z) ->
  (exists y0, lowerbound <= y0 < upperbound /\ accepted e targetOutput (g y0)) ->
  1 <= maxIterations -> upperbound - lowerbound <= 2 ^ (maxIterations - 1) ->
  exists y, BinarySearchBigDec (fun x => Ok (g x)) lowerbound upperbound targetOutput e maxIterations = Ok y /\
    lowerbound <= y < upperbound /\ accepted e targetOutput (g y).
Proof.
  intros A M Ht Rl Rh Rg Mono (y0 & Y & G) N W.
  assert (E : exists y, BinarySearchBigDec (fun x => Ok (g x)) lowerbound upperbound targetOutput e
                maxIterations = Ok y).
  { unfold BinarySearchBigDec.
    apply searchLoop_finds with (lo0 := lowerbound) (hi0 := upperbound) (g := g)
      (good := accepted e targetOutput); try lia; auto.
    - intros a b L H AB. now apply bigdec_mid_ok with lowerbound upperbound.
    - intros y Hy. destruct (CompareBigDec_additive e targetOutput (g y) tol A M Ht (Rg y Hy))
        as (c & Hc & C1 & C2).
      exists c. split; [exact Hc|]. split; [intros C; apply C1, C | intros C; apply C2, C].
    - rewrite Z2Nat.id by lia. exact W.
    - exists y0. auto. }
  destruct E as (y & E). exists y. split; [exact E|].
  apply BinarySearchBigDec_accepts in E as (B & v & Fv & Gv); [|lia].
  split; [exact B|]. apply Ok_inj in Fv as ->. exact Gv.
Qed.

(** Squaring on [[0, 4)], target 2, additive tolerance [10^-3], rounding up. *)
Definition tol_up : ErrTolerance :=
  {| AdditiveTolerance := Some (10 ^ 15); MultiplicativeTolerance := None; RoundingDir := RoundUp |}.

Lemma BinarySearchBigDec_sound_witness :
  exists y, BinarySearchBigDec (fun x => Mul x x) 0 (4 * 10 ^ 36) (2 * 10 ^ 36) tol_up 100 = Ok y /\
    0 <= y < 4 * 10 ^ 36 /\ exists v, Mul y y = Ok v /\ accepted tol_up (2 * 10 ^ 36) v.
Proof.
  exists 1414550781250000000000000000000000000.
  assert (E : BinarySearchBigDec (fun x => Mul x x) 0 (4 * 10 ^ 36) (2 * 10 ^ 36) tol_up 100 =
    Ok 1414550781250000000000000000000000000) by (vm_compute; reflexivity).
  split; [exact E|].
  apply (BinarySearchBigDec_sound (fun x => Mul x x) 0 (4 * 10 ^ 36) (2 * 10 ^ 36) tol_up 100); [lia | exact E].
Defined.

Lemma BinarySearchBigDec_finds_witness :
  exists y, BinarySearchBigDec (fun x => Ok (3 * x)) 0 (2 ^ 125) (2 * 10 ^ 36) tol_up 126 = Ok y /\
    0 <= y < 2 ^ 125 /\ accepted tol_up (2 * 10 ^ 36) (3 * y).
Proof.
  apply (BinarySearchBigDec_finds (fun x => 3 * x) 0 (2 ^ 125) (2 * 10 ^ 36) tol_up (10 ^ 15) 126).
  - reflexivity.
  - reflexivity.
  - lia.
  - vm_compute. reflexivity.
  - vm_compute. reflexivity.
  - intros y Hy. apply in_range_le with (2 ^ 200); [lia | vm_compute; reflexivity].
  - intros y z H _. lia.
  - exists ((2 * 10 ^ 36 + 1) / 3). split; [vm_compute; split; congruence|].
    unfold accepted. cbn [tol_up RoundingDir AdditiveTolerance MultiplicativeTolerance].
    split; [intros D; discriminate D|]. split; [intros _; vm_compute; congruence|].
    split; [intros t E; injection E as <-; intros _; vm_compute; congruence | intros t E; discriminate E].
  - lia.
  - vm_compute. congruence.
Defined.
