(* ===== verification/MapSum.v ===== *)
(** * Sums over finite maps

    Totals that a component must keep equal to the sum of what it stores: the
    shares of an accumulator, the liquidity of the positions of a pool.  And
    whether two addresses are the same account, as a number: the laws of a bank
    add it up. *)

From stdpp Require Import base gmap.
From Stdlib Require Import ZArith Lia.
From S2P Require Import Prelude Store.
Open Scope Z_scope.

Section Sums.
Context {K : Type} `{Countable K} {A : Type}.
Implicit Types (f g h : A -> Z) (m : gmap K A).

Definition msum f m : Z := map_fold (fun _ r a => f r + a) 0 m.

Lemma msum_insert f m n r : m !! n = None -> msum f (<[n:=r]> m) = f r + msum f m.
Proof.
  intros E. unfold msum. rewrite (map_fold_insert_L (fun _ r a => f r + a)); auto. intros; lia.
Qed.

Lemma msum_delete f m n r : m !! n = Some r -> msum f (delete n m) = msum f m - f r.
Proof.
  intros E. unfold msum. rewrite (map_fold_delete_L (fun _ r a => f r + a) 0 n r m); auto; intros; lia.
Qed.

Lemma msum_update f m n r r' : m !! n = Some r -> msum f (<[n:=r']> m) = msum f m - f r + f r'.
Proof.
  intros E. rewrite <- insert_delete_eq. rewrite msum_insert by apply lookup_delete_eq.
  rewrite (msum_delete f m n r E). lia.
Qed.

Lemma msum_empty f : msum f ∅ = 0.
Proof. unfold msum. apply map_fold_empty. Qed.

Lemma msum_plus f g h m :
  (forall n r, m !! n = Some r -> h r = f r + g r) -> msum h m = msum f m + msum g m.
Proof.
  induction m as [|n r m Hn IH] using map_ind; intros E.
  - now rewrite !msum_empty.
  - rewrite !msum_insert by exact Hn. rewrite IH, (E n r (lookup_insert_eq m n r)); [lia|].
    intros n' r' Hn'. apply (E n'). rewrite lookup_insert_ne; congruence.
Qed.

Lemma msum_ext f g m : (forall n r, m !! n = Some r -> f r = g r) -> msum f m = msum g m.
Proof.
  intros E. rewrite (msum_plus g (fun _ => 0) f).
  - enough (msum (fun _ : A => 0) m = 0) by lia. clear.
    induction m as [|n r m Hn IH] using map_ind; [apply msum_empty|]. now rewrite msum_insert.
  - intros n r Hn. rewrite (E n r Hn). lia.
Qed.

Lemma msum_scale f c m : msum (fun r => c * f r) m = c * msum f m.
Proof.
  induction m as [|n r m Hn IH] using map_ind; [rewrite !msum_empty; lia|].
  rewrite !msum_insert by exact Hn. lia.
Qed.

Lemma msum_le f g m : (forall n r, m !! n = Some r -> f r <= g r) -> msum f m <= msum g m.
Proof.
  induction m as [|n r m Hn IH] using map_ind; intros E; [now rewrite !msum_empty|].
  rewrite !msum_insert by exact Hn. pose proof (E n r (lookup_insert_eq m n r)).
  enough (msum f m <= msum g m) by lia. apply IH. intros n' r' Hn'.
  apply (E n'). rewrite lookup_insert_ne; congruence.
Qed.

Lemma msum_zero f m : (forall n r, m !! n = Some r -> f r = 0) -> msum f m = 0.
Proof.
  intros E. rewrite (msum_ext f (fun r => 0 * f r)); [rewrite msum_scale; lia|].
  intros n r Hn. now rewrite (E n r Hn).
Qed.

Lemma msum_nonneg f m : (forall n r, m !! n = Some r -> 0 <= f r) -> 0 <= msum f m.
Proof.
  intros E. rewrite <- (msum_zero (fun _ => 0) m) by reflexivity. now apply msum_le.
Qed.

(** One summand is at most the sum of non-negative ones. *)
Lemma msum_member f m n r :
  (forall n' r', m !! n' = Some r' -> 0 <= f r') -> m !! n = Some r -> f r <= msum f m.
Proof.
  intros P E. enough (0 <= msum f (delete n m)) by (rewrite (msum_delete f m n r E) in *; lia).
  apply msum_nonneg. intros n' r' Hn'. apply lookup_delete_Some in Hn' as [_ Hn']. eauto.
Qed.

End Sums.

(** ** Accounts *)

Definition at_addr (a b : bytes) : Z := if decide (a = b) then 1 else 0.
