(* ===== verification/GoState.v ===== *)
(** * Stateful Go functions

    A Go function that reads and writes a store or a receiver either returns,
    returns an error or panics, and in each case leaves the state as far as it
    had got: [M S A] keeps the state also on errors, which matters where a
    caller goes on after one. *)

From Stdlib Require Import ZArith List Bool String Ascii.
From S2P Require Import Prelude GoBig Store.
Import ListNotations.

Definition M (S A : Type) : Type := S -> Res A * S.

Definition ret {S A} (a : A) : M S A := fun s => (Ok a, s).
Definition fail {S A} (e : string) : M S A := fun s => (Err e, s).
Definition panic {S A} (m : string) : M S A := fun s => (Panic m, s).
Definition lift {S A} (r : Res A) : M S A := fun s => (r, s).
Definition get {S} : M S S := fun s => (Ok s, s).
Definition put {S} (s : S) : M S unit := fun _ => (Ok tt, s).
Definition modify {S} (f : S -> S) : M S unit := fun s => (Ok tt, f s).

Definition mbind {S A B} (c : M S A) (k : A -> M S B) : M S B :=
  fun s => match c s with
           | (Ok a, s') => k a s'
           | (Err e, s') => (Err e, s')
           | (Panic m, s') => (Panic m, s')
           end.

Declare Scope gost_scope.
Delimit Scope gost_scope with gost.
Notation "x <~ c ;; k" := (mbind c (fun x => k))
  (at level 62, c at next level, right associativity) : gost_scope.
Notation "' pat <~ c ;; k" := (mbind c (fun x => match x with pat => k end))
  (at level 62, pat pattern, c at next level, right associativity) : gost_scope.
Notation "c ~;; k" := (mbind c (fun _ => k))
  (at level 62, right associativity) : gost_scope.
#[global] Open Scope gost_scope.

Definition when {S} (b : bool) (c : M S unit) : M S unit := if b then c else ret tt.

(** [for _, x := range l { body }] *)
Fixpoint for_each {S A} (l : list A) (body : A -> M S unit) : M S unit :=
  match l with
  | [] => ret tt
  | x :: l' => body x ~;; for_each l' body
  end.

(** Running a computation on a part of the state. *)
Definition zoom {S T A} (proj : S -> T) (inj : T -> S -> S) (c : M T A) : M S A :=
  fun s => let '(r, t) := c (proj s) in (r, inj t s).

Lemma mbind_ok_inv {S A B} (c : M S A) (k : A -> M S B) s b s' :
  mbind c k s = (Ok b, s') -> exists a s1, c s = (Ok a, s1) /\ k a s1 = (Ok b, s').
Proof.
  unfold mbind. destruct (c s) as [[a|e|m] s1]; intros H; try discriminate H. eauto.
Qed.

Lemma mbind_assoc {S A B C} (c : M S A) (k : A -> M S B) (h : B -> M S C) s :
  mbind (mbind c k) h s = mbind c (fun a => mbind (k a) h) s.
Proof. unfold mbind. now destruct (c s) as [[a|e|m] s1]. Qed.

Lemma mbind_ext {S A B} (c : M S A) (k1 k2 : A -> M S B) s :
  (forall a s1, c s = (Ok a, s1) -> k1 a s1 = k2 a s1) -> mbind c k1 s = mbind c k2 s.
Proof. unfold mbind. destruct (c s) as [[a|e|m] s1]; auto. Qed.

Lemma ret_ok_inv {S A} (a b : A) (s s' : S) : ret a s = (Ok b, s') -> a = b /\ s = s'.
Proof. unfold ret. intros H. injection H as <- <-. auto. Qed.

Lemma lift_ok_inv {S A} (r : Res A) (b : A) (s s' : S) : lift r s = (Ok b, s') -> r = Ok b /\ s = s'.
Proof. unfold lift. intros H. injection H as -> <-. auto. Qed.

Lemma pair_ok_inv {S A} (r : Res A) (b : A) (s s' : S) : (r, s) = (Ok b, s') -> r = Ok b /\ s = s'.
Proof. intros H. injection H as -> ->. auto. Qed.

(** Decompose a hypothesis about a successful run into its steps. *)
Ltac inv_m H :=
  lazymatch type of H with
  | mbind _ _ _ = (Ok _, _) =>
      let a := fresh "v" in let s := fresh "s" in let E := fresh "E" in
      apply mbind_ok_inv in H; destruct H as (a & s & E & H)
  | ret _ _ = (Ok _, _) =>
      let E := fresh "E" in apply ret_ok_inv in H; destruct H as [E H]
  | lift _ _ = (Ok _, _) =>
      let E := fresh "E" in apply lift_ok_inv in H; destruct H as [E H]
  | fail _ _ = (Ok _, _) => discriminate H
  | panic _ _ = (Ok _, _) => discriminate H
  end.

(** Decompose every hypothesis about a successful run, down to the results of
    its pure steps, and name the results after the variables that hold them. *)
Ltac inv_ok :=
  repeat match goal with
  | H : mbind _ _ _ = (Ok _, _) |- _ => inv_m H
  | H : lift _ _ = (Ok _, _) |- _ =>
      let E := fresh "E" in apply lift_ok_inv in H; destruct H as [E H]; subst
  | H : ret _ _ = (Ok _, _) |- _ =>
      let E := fresh "E" in apply ret_ok_inv in H; destruct H as [E H];
      repeat match type of E with (_, _) = (_, _) => injection E; clear E; intros E; intros end; subst
  | H : (Ok _, _) = (Ok _, _) |- _ => injection H; clear H; intros; subst
  | H : (fun _ => _) _ = (Ok _, _) |- _ => cbv beta in H
  | H : (?r, ?s) = (Ok _, ?s') |- _ =>
      lazymatch r with
      | Err _ => discriminate H
      | Panic _ => discriminate H
      | _ => let E := fresh "E" in apply pair_ok_inv in H; destruct H as [E H]; subst
      end
  | H : fail _ _ = (Ok _, _) |- _ => discriminate H
  | H : panic _ _ = (Ok _, _) |- _ => discriminate H
  | H : (Err _, _) = (Ok _, _) |- _ => discriminate H
  | H : (Panic _, _) = (Ok _, _) |- _ => discriminate H
  | p : (_ * _)%type |- _ => destruct p
  | H : (let '(_, _) := ?p in _) _ = (Ok _, _) |- _ => is_var p; destruct p
  end.

(** Read a part of the state. *)
Definition look {S A} (f : S -> A) : M S A := fun s => (Ok (f s), s).

(** The block a function runs in. *)
Record Ctx : Type := { BlockHeight : Z; BlockTime : Z }.

(** ** Text keys: [[]byte(s)] *)

Fixpoint string_bytes (s : string) : bytes :=
  match s with
  | EmptyString => []
  | String c s' => Z.of_nat (nat_of_ascii c) :: string_bytes s'
  end.

Lemma string_bytes_inj s t : string_bytes s = string_bytes t -> s = t.
Proof.
  revert t. induction s as [|c s IH]; intros [|d t] H; try discriminate H; [reflexivity|].
  cbn in H. injection H as Hc Ht. apply Nat2Z.inj in Hc. f_equal; [|auto].
  rewrite <- (ascii_nat_embedding c), <- (ascii_nat_embedding d). congruence.
Qed.

Lemma string_bytes_app s t : string_bytes (s ++ t) = string_bytes s ++ string_bytes t.
Proof. induction s as [|c s IH]; cbn; [reflexivity | now rewrite IH]. Qed.

(** ** Point operations of a store, with equality of keys *)

Section Points.
Context {V : Type} {K : KVStore V} {KS : KVStoreSpec K}.

Lemma get_set_eq s k v : st_get (st_set s k v) k = Some v.
Proof. now rewrite st_get_set, bcompare_refl. Qed.

Lemma get_set_ne s k v k' : k <> k' -> st_get (st_set s k v) k' = st_get s k'.
Proof.
  intros N. rewrite st_get_set. destruct (bcompare k k') eqn:E; try reflexivity.
  apply bcompare_eq in E. contradiction.
Qed.

Lemma get_delete_eq s k : st_get (st_delete s k) k = None.
Proof. now rewrite st_get_delete, bcompare_refl. Qed.

Lemma get_delete_ne s k k' : k <> k' -> st_get (st_delete s k) k' = st_get s k'.
Proof.
  intros N. rewrite st_get_delete. destruct (bcompare k k') eqn:E; try reflexivity.
  apply bcompare_eq in E. contradiction.
Qed.

End Points.
