(* ===== verification/PrefixStore.v ===== *)
(** * Prefix stores ([cosmossdk.io/store/prefix])

    [prefix.NewStore(parent, p)] is a store whose keys are the keys of the
    parent that begin with [p], without it; what is written to it is written to
    the parent.  The state of a prefix store is the state of its parent, so two
    prefix stores of one parent see each other's writes exactly when their
    prefixes overlap. *)

From Stdlib Require Import ZArith Lia List Bool Sorted.
From S2P Require Import Prelude GoBig Store GoState.
Import ListNotations.

Section Prefix.
Context {V : Type} (K : KVStore V) (p : bytes).

Definition stripped (kv : bytes * V) : list (bytes * V) :=
  match strip p (fst kv) with Some k => [(k, snd kv)] | None => [] end.

Definition prefix_iter (s : St) (lo hi : option bytes) : list (bytes * V) :=
  flat_map stripped (st_iter s (Some (p ++ match lo with Some a => a | None => [] end)) (option_map (fun b => p ++ b) hi)).

(** The part below a second prefix, as a store of its own. *)
Definition prefix_sub (s : St) (q : bytes) : St :=
  fold_right (fun kv acc => match strip q (fst kv) with Some k => st_set acc (p ++ k) (snd kv) | None => acc end) st_empty
    (prefix_iter s None None).

Definition prefix_kv : KVStore V := {|
  St := @St V K;
  st_empty := st_empty;
  st_get s k := st_get s (p ++ k);
  st_set s k v := st_set s (p ++ k) v;
  st_delete s k := st_delete s (p ++ k);
  st_prefix := prefix_sub;
  st_iter := prefix_iter;
  st_riter s lo hi := rev (prefix_iter s lo hi)
|}.

Context {KS : KVStoreSpec K}.

Lemma prefix_iter_in s lo hi k v : In (k, v) (prefix_iter s lo hi) <-> st_get s (p ++ k) = Some v /\ in_rng lo hi k = true.
Proof.
  unfold prefix_iter. rewrite in_flat_map.
  assert (R : in_rng (Some (p ++ match lo with Some a => a | None => [] end)) (option_map (fun b => p ++ b) hi) (p ++ k) = in_rng lo hi k).
  { unfold in_rng, bleb, bltb. rewrite bcompare_app. destruct hi; cbn [option_map]; rewrite ?bcompare_app; destruct lo; try reflexivity;
      now destruct k. }
  split.
  - intros ([k0 v0] & I & J). unfold stripped in J. cbn [fst snd] in J. destruct (strip p k0) as [k1|] eqn:E; [|destruct J].
    destruct J as [J | []]. injection J as -> ->. apply strip_spec in E as ->. apply st_iter_in in I as [G I]. rewrite R in I. auto.
  - intros [G I]. exists (p ++ k, v). split; [apply st_iter_in; now rewrite R|]. unfold stripped. cbn [fst snd].
    rewrite (proj2 (strip_spec p (p ++ k) k) eq_refl). now left.
Qed.

Lemma prefix_iter_sorted s lo hi : StronglySorted key_lt (prefix_iter s lo hi).
Proof.
  unfold prefix_iter. set (l := st_iter s _ _). assert (Sd : StronglySorted key_lt l) by apply st_iter_sorted. clearbody l.
  induction Sd as [|[k v] l Sd IH F]; cbn [flat_map]; [constructor|]. unfold stripped at 1. cbn [fst snd].
  destruct (strip p k) as [k1|] eqn:E; [|exact IH]. apply strip_spec in E as ->. cbn [app]. constructor; [exact IH|].
  apply Forall_forall. intros [k2 v2] I. apply in_flat_map in I as ([k3 v3] & I & J). unfold stripped in J. cbn [fst snd] in J.
  destruct (strip p k3) as [k4|] eqn:E; [|destruct J]. destruct J as [J | []]. injection J as -> ->. apply strip_spec in E as ->.
  rewrite Forall_forall in F. specialize (F _ I). unfold key_lt, blt in *. cbn [fst] in *. now rewrite bcompare_app in F.
Qed.

Lemma prefix_sub_get s q k : st_get (prefix_sub s q) (p ++ k) = st_get s (p ++ q ++ k).
Proof.
  unfold prefix_sub. pose proof (prefix_iter_sorted s None None) as Sd. pose proof (fun k v => prefix_iter_in s None None k v) as A.
  set (l := prefix_iter s None None) in *. clearbody l.
  assert (G : st_get (fold_right (fun kv acc => match strip q (fst kv) with Some k => st_set acc (p ++ k) (snd kv) | None => acc end) st_empty l) (p ++ k)
    = match List.find (fun kv => match bcompare (fst kv) (q ++ k) with Eq => true | _ => false end) l with Some kv => Some (snd kv) | None => None end).
  { clear - KS. induction l as [|[k0 v0] l IH]; cbn [fold_right List.find fst snd]; [apply st_get_empty|].
    destruct (strip q k0) as [k1|] eqn:E.
    - apply strip_spec in E as ->. rewrite st_get_set, !bcompare_app. destruct (bcompare k1 k); [reflexivity | exact IH | exact IH].
    - destruct (bcompare k0 (q ++ k)) eqn:B; [|exact IH..]. apply bcompare_eq in B. apply strip_spec in B. congruence. }
  rewrite G. destruct (List.find _ l) as [[k0 v0]|] eqn:Fd.
  - apply find_some in Fd as [I B]. cbn [fst snd] in *. destruct (bcompare k0 (q ++ k)) eqn:B'; try discriminate.
    apply bcompare_eq in B' as ->. now apply A in I as [-> _].
  - destruct (st_get s (p ++ q ++ k)) as [v|] eqn:E; [|reflexivity]. exfalso.
    assert (I : In (q ++ k, v) l) by (apply A; split; [exact E | reflexivity]).
    apply (find_none _ _ Fd) in I. cbn [fst] in I. now rewrite bcompare_refl in I.
Qed.

#[global] Instance prefix_kv_spec : KVStoreSpec prefix_kv.
Proof.
  split; cbn [St st_empty st_get st_set st_delete st_prefix st_iter st_riter prefix_kv]; intros.
  - apply st_get_empty.
  - now rewrite st_get_set, bcompare_app.
  - now rewrite st_get_delete, bcompare_app.
  - apply prefix_sub_get.
  - apply prefix_iter_sorted.
  - apply prefix_iter_in.
  - reflexivity.
Qed.

End Prefix.
