(* ===== verification/SdkCoins.v ===== *)
(** * Coins ([sdk.Coin], [sdk.Coins])

    A coin is a denomination with an amount, and [sdk.Coins] is a slice of
    them.  The operations on slices are those of the Cosmos SDK
    ([cosmos-sdk/types/coin.go]), which is not part of the repository:
    [CoinsOps] is what the modules use of it and [CoinsSpec] its documented
    behaviour on valid coins, which are sorted by denomination, without
    repetitions, and positive. *)

From Stdlib Require Import ZArith Lia List Bool String Sorted.
From S2P Require Import Prelude GoBig Store GoState.
Import ListNotations.

Record Coin : Type := { Denom : string; Amount : Z }.

Definition NewCoin (denom : string) (amount : Z) : Res Coin :=
  if amount <? 0 then Panic "negative coin amount" else Ok {| Denom := denom; Amount := amount |}.

Class CoinsOps : Type := {
  ValidateDenom : string -> bool;
  Coins_Add : list Coin -> list Coin -> Res (list Coin);
  Coins_Sub : list Coin -> list Coin -> Res (list Coin);
  Coins_IsAllLTE : list Coin -> list Coin -> bool;
  Coins_Equal : list Coin -> list Coin -> bool;
  Coins_AmountOf : list Coin -> string -> Res Z;
  Coins_IsAllPositive : list Coin -> bool;
  Coins_IsValid : list Coin -> bool;
  (** [sdk.NewCoins(coins...)] *)
  MakeCoins : list Coin -> Res (list Coin)
}.

Definition amount_of (cs : list Coin) (d : string) : Z :=
  zsum (map (fun c => if String.eqb (Denom c) d then Amount c else 0) cs).

Definition denom_lt (c e : Coin) : Prop := blt (string_bytes (Denom c)) (string_bytes (Denom e)).

Definition coins_ok {C : CoinsOps} (cs : list Coin) : Prop :=
  StronglySorted denom_lt cs /\ Forall (fun c => 0 < Amount c /\ ValidateDenom (Denom c) = true) cs.

Class CoinsSpec (C : CoinsOps) : Prop := {
  (** Denominations are made of a few ASCII characters. *)
  ValidateDenom_bytes d : ValidateDenom d = true -> d <> EmptyString /\ Forall (fun b => 0 <= b < 128) (string_bytes d);
  Coins_Add_exact a b r : coins_ok a -> coins_ok b -> Coins_Add a b = Ok r ->
    coins_ok r /\ forall d, amount_of r d = amount_of a d + amount_of b d;
  Coins_Add_total a b : coins_ok a -> coins_ok b -> (forall d, amount_of a d + amount_of b d < 2 ^ 255) -> exists r, Coins_Add a b = Ok r;
  Coins_Sub_exact a b r : coins_ok a -> coins_ok b -> Coins_Sub a b = Ok r ->
    coins_ok r /\ forall d, amount_of r d = amount_of a d - amount_of b d;
  Coins_IsAllLTE_spec a b : coins_ok b -> Coins_IsAllLTE a b = true -> Forall (fun c => Amount c <= amount_of b (Denom c)) a;
  Coins_Equal_spec a b : coins_ok a -> coins_ok b -> Coins_Equal a b = true <-> a = b;
  Coins_AmountOf_spec cs d : coins_ok cs -> ValidateDenom d = true -> Coins_AmountOf cs d = Ok (amount_of cs d);
  Coins_IsAllPositive_spec cs : Coins_IsAllPositive cs = true -> cs <> [] /\ Forall (fun c => 0 < Amount c) cs;
  Coins_IsValid_spec cs : Coins_IsValid cs = true -> coins_ok cs;
  (** Zero coins are dropped, the rest is sorted; invalid sets panic. *)
  MakeCoins_exact cs r : MakeCoins cs = Ok r -> coins_ok r /\ forall d, amount_of r d = amount_of cs d;
  MakeCoins_total cs : coins_ok cs -> MakeCoins cs = Ok cs
}.

(** ** Amounts *)

Lemma amount_cons c cs d : amount_of (c :: cs) d = (if String.eqb (Denom c) d then Amount c else 0) + amount_of cs d.
Proof. reflexivity. Qed.

Section Facts.
Context {C : CoinsOps}.

Lemma coins_ok_nonneg cs d : coins_ok cs -> 0 <= amount_of cs d.
Proof.
  intros [_ F]. induction F as [|c cs [P _] _ IH]; [reflexivity|]. rewrite amount_cons. destruct (String.eqb (Denom c) d); lia.
Qed.

Lemma amount_absent cs d : ~ In d (map Denom cs) -> amount_of cs d = 0.
Proof.
  induction cs as [|c cs IH]; intros N; [reflexivity|]. rewrite amount_cons. cbn in N.
  destruct (String.eqb_spec (Denom c) d); [tauto|]. rewrite IH by tauto. reflexivity.
Qed.

Lemma later_absent c cs : Forall (denom_lt c) cs -> ~ In (Denom c) (map Denom cs).
Proof.
  intros F I. apply in_map_iff in I as (e & E & I). rewrite Forall_forall in F. specialize (F e I). unfold denom_lt in F.
  rewrite E in F. exact (blt_irrefl _ F).
Qed.

Lemma coins_ok_tail c cs : coins_ok (c :: cs) -> coins_ok cs.
Proof. intros [Sd F]. inversion Sd; inversion F; subst. now split. Qed.

Lemma amount_in c cs : coins_ok cs -> In c cs -> amount_of cs (Denom c) = Amount c.
Proof.
  intros [Sd _]. induction Sd as [|e cs Sd IH F]; intros I; [destruct I|]. rewrite amount_cons. destruct I as [<- | I].
  - rewrite String.eqb_refl, amount_absent by now apply later_absent. lia.
  - destruct (String.eqb_spec (Denom e) (Denom c)) as [E|]; [|now rewrite IH].
    exfalso. apply (later_absent e cs F). rewrite E. now apply in_map.
Qed.

(** Coins with one denomination. *)
Lemma single_coins cs d : coins_ok cs -> (forall e, e <> d -> amount_of cs e = 0) ->
  cs = if amount_of cs d =? 0 then [] else [ {| Denom := d; Amount := amount_of cs d |} ].
Proof.
  intros O Z. assert (D : forall c, In c cs -> Denom c = d).
  { intros c I. destruct (String.string_dec (Denom c) d) as [E|N]; [exact E|]. specialize (Z _ N). rewrite amount_in in Z by assumption.
    destruct O as [_ F]. rewrite Forall_forall in F. destruct (F c I). lia. }
  destruct cs as [|c [|e cs]].
  - reflexivity.
  - pose proof (D c (or_introl eq_refl)) as E. rewrite amount_cons, E, String.eqb_refl. cbn [amount_of map zsum fold_right].
    destruct O as [_ F]. inversion F as [|? ? [P _] _]; subst. destruct (Z.eqb_spec (Amount c + 0) 0); [lia|].
    rewrite Z.add_0_r. now destruct c.
  - exfalso. destruct O as [Sd _]. inversion Sd as [|? ? _ F]; subst. inversion F as [|? ? L _]; subst. unfold denom_lt in L.
    rewrite (D c), (D e) in L by (cbn; auto). exact (blt_irrefl _ L).
Qed.

Lemma single_ok c : 0 < Amount c -> ValidateDenom (Denom c) = true -> coins_ok [c].
Proof. intros P V. split; repeat constructor; assumption. Qed.

Lemma amount_single c d : amount_of [c] d = if String.eqb (Denom c) d then Amount c else 0.
Proof. rewrite amount_cons. cbn [amount_of map zsum fold_right]. lia. Qed.

End Facts.
