(* ===== verification/SdkCoinsRef.v ===== *)
(** * A reference implementation of coins

    The operations of [CoinsOps] on canonical sets of coins: sorted by
    denomination, one coin per denomination, no zero amounts. *)

From Stdlib Require Import ZArith Lia List Bool String Ascii Sorted.
From S2P Require Import Prelude GoBig Store GoState SdkCoins.
Import ListNotations.

(** [[a-zA-Z][a-zA-Z0-9/:._-]{2,127}] *)
Definition letter (b : Z) : bool := (65 <=? b) && (b <=? 90) || (97 <=? b) && (b <=? 122).
Definition denom_char (b : Z) : bool :=
  letter b || (48 <=? b) && (b <=? 57) || existsb (Z.eqb b) [47; 58; 46; 95; 45].
Definition valid_denom (d : string) : bool :=
  match string_bytes d with
  | b :: rest => letter b && forallb denom_char rest && (2 <=? Z.of_nat (List.length rest)) && (Z.of_nat (List.length rest) <=? 127)
  | [] => false
  end.

Fixpoint ins_denom (d : string) (l : list string) : list string :=
  match l with
  | [] => [d]
  | e :: r => match bcompare (string_bytes d) (string_bytes e) with Lt => d :: l | Eq => l | Gt => e :: ins_denom d r end
  end.
Definition denoms (cs : list Coin) : list string := fold_right ins_denom [] (map Denom cs).

Definition coin_at (cs : list Coin) (d : string) : Coin := {| Denom := d; Amount := amount_of cs d |}.
Definition canon_coins (cs : list Coin) : list Coin := filter (fun c => negb (Amount c =? 0)) (map (coin_at cs) (denoms cs)).

Definition neg_coin (c : Coin) : Coin := {| Denom := Denom c; Amount := - Amount c |}.

Definition coin_eqb (c e : Coin) : bool := String.eqb (Denom c) (Denom e) && (Amount c =? Amount e).
Fixpoint coins_eqb (a b : list Coin) : bool :=
  match a, b with
  | [], [] => true
  | c :: a', e :: b' => coin_eqb c e && coins_eqb a' b'
  | _, _ => false
  end.

Fixpoint sorted_coins (cs : list Coin) : bool :=
  match cs with
  | c :: ((e :: _) as rest) => bltb (string_bytes (Denom c)) (string_bytes (Denom e)) && sorted_coins rest
  | _ => true
  end.
Definition valid_coins (cs : list Coin) : bool := sorted_coins cs && forallb (fun c => (0 <? Amount c) && valid_denom (Denom c)) cs.

#[export] Instance coins_ref : CoinsOps := {|
  ValidateDenom := valid_denom;
  Coins_Add a b := let r := canon_coins (a ++ b) in if forallb (fun c => Amount c <? 2 ^ 256) r then Ok r else Panic "Int overflow";
  Coins_Sub a b := let r := canon_coins (a ++ map neg_coin b) in if forallb (fun c => 0 <? Amount c) r then Ok r else Panic "negative coin amount";
  Coins_IsAllLTE a b := forallb (fun c => Amount c <=? amount_of b (Denom c)) a;
  Coins_Equal := coins_eqb;
  Coins_AmountOf cs d := if valid_denom d then Ok (amount_of cs d) else Panic "invalid denom";
  Coins_IsAllPositive cs := match cs with [] => false | _ => forallb (fun c => 0 <? Amount c) cs end;
  Coins_IsValid := valid_coins;
  MakeCoins cs := let r := canon_coins cs in if valid_coins r then Ok r else Panic "invalid coins"
|}.

(** ** Facts *)

Definition slt (d e : string) : Prop := blt (string_bytes d) (string_bytes e).

Lemma ins_denom_in d l e : In e (ins_denom d l) <-> e = d \/ In e l.
Proof.
  induction l as [|x l IH]; cbn [ins_denom]; [cbn; intuition congruence|]. destruct (bcompare _ _) eqn:E; cbn [In].
  - apply bcompare_eq, string_bytes_inj in E as ->. cbn. intuition congruence.
  - cbn. intuition congruence.
  - rewrite IH. intuition congruence.
Qed.

Lemma ins_denom_sorted d l : StronglySorted slt l -> StronglySorted slt (ins_denom d l).
Proof.
  induction 1 as [|x l Sd IH F]; cbn [ins_denom]; [repeat constructor|]. destruct (bcompare _ _) eqn:E.
  - now constructor.
  - constructor; [now constructor|]. constructor; [exact E|]. eapply Forall_impl; [|exact F]. intros y L. eapply blt_trans; [exact E | exact L].
  - constructor; [exact IH|]. apply Forall_forall. intros y I. apply ins_denom_in in I as [-> | I].
    + unfold slt, blt. now rewrite bcompare_antisym, E.
    + rewrite Forall_forall in F. auto.
Qed.

Lemma denoms_sorted cs : StronglySorted slt (denoms cs).
Proof. unfold denoms. induction (map Denom cs); cbn; [constructor | now apply ins_denom_sorted]. Qed.

Lemma denoms_in cs d : In d (denoms cs) <-> In d (map Denom cs).
Proof. unfold denoms. induction (map Denom cs) as [|e l IH]; cbn; [reflexivity|]. rewrite ins_denom_in, IH. intuition congruence. Qed.

Lemma amount_app a b d : amount_of (a ++ b) d = amount_of a d + amount_of b d.
Proof. induction a as [|c a IH]; [reflexivity|]. cbn [app]. rewrite !amount_cons, IH. lia. Qed.

Lemma amount_neg b d : amount_of (map neg_coin b) d = - amount_of b d.
Proof. induction b as [|c b IH]; [reflexivity|]. cbn [map]. rewrite !amount_cons, IH. cbn [neg_coin Denom Amount]. destruct (String.eqb _ _); lia. Qed.

Lemma amount_filter cs d : amount_of (filter (fun c => negb (Amount c =? 0)) cs) d = amount_of cs d.
Proof.
  induction cs as [|c cs IH]; [reflexivity|]. cbn [filter]. destruct (Z.eqb_spec (Amount c) 0) as [E|]; cbn [negb]; rewrite ?amount_cons, IH; [|reflexivity].
  rewrite E. destruct (String.eqb _ _); lia.
Qed.

Lemma slt_nodup l d : StronglySorted slt (d :: l) -> ~ In d l.
Proof. intros Sd I. inversion Sd as [|? ? _ F]; subst. rewrite Forall_forall in F. exact (blt_irrefl _ (F d I)). Qed.

Lemma amount_at cs l d : StronglySorted slt l -> amount_of (map (coin_at cs) l) d = if existsb (String.eqb d) l then amount_of cs d else 0.
Proof.
  induction l as [|e l IH]; intros Sd; [reflexivity|]. cbn [map existsb]. rewrite amount_cons, IH by now inversion Sd. cbn [coin_at Denom Amount].
  rewrite (String.eqb_sym e d). destruct (String.eqb_spec d e) as [-> |]; cbn [orb]; [|reflexivity].
  destruct (existsb (String.eqb e) l) eqn:Ex; [|lia]. exfalso. apply existsb_exists in Ex as (x & I & E). apply String.eqb_eq in E as <-. now apply (slt_nodup l e).
Qed.

Lemma amount_canon cs d : amount_of (canon_coins cs) d = amount_of cs d.
Proof.
  unfold canon_coins. rewrite amount_filter, amount_at by apply denoms_sorted. destruct (existsb (String.eqb d) (denoms cs)) eqn:Ex; [reflexivity|].
  symmetry. apply amount_absent. intros I. apply denoms_in in I. enough (existsb (String.eqb d) (denoms cs) = true) by congruence.
  apply existsb_exists. exists d. split; [exact I | apply String.eqb_refl].
Qed.

Lemma map_sorted cs l : StronglySorted slt l -> StronglySorted denom_lt (map (coin_at cs) l).
Proof. induction 1 as [|d l Sd IH F]; cbn; constructor; [exact IH | now apply Forall_map]. Qed.

Lemma filter_coins_sorted f cs : StronglySorted denom_lt cs -> StronglySorted denom_lt (filter f cs).
Proof.
  induction 1 as [|c cs Sd IH F]; cbn [filter]; [constructor|]. destruct (f c); [|exact IH]. constructor; [exact IH|].
  apply Forall_forall. intros x I. apply filter_In in I as [I _]. rewrite Forall_forall in F. auto.
Qed.

Lemma canon_sorted_coins cs : StronglySorted denom_lt (canon_coins cs).
Proof. apply filter_coins_sorted, map_sorted, denoms_sorted. Qed.

Lemma canon_member cs c : In c (canon_coins cs) -> Amount c = amount_of cs (Denom c) /\ Amount c <> 0 /\ In (Denom c) (map Denom cs).
Proof.
  unfold canon_coins. intros I. apply filter_In in I as [I N]. apply in_map_iff in I as (d & <- & I). cbn [coin_at Denom Amount] in *.
  apply negb_true_iff, Z.eqb_neq in N. apply denoms_in in I. auto.
Qed.

Lemma canon_coins_ok cs : (forall d, 0 <= amount_of cs d) -> Forall (fun c => valid_denom (Denom c) = true) cs -> coins_ok (canon_coins cs).
Proof.
  intros N F. split; [apply canon_sorted_coins|]. apply Forall_forall. intros c I. apply canon_member in I as (E & Nz & I). split; [rewrite E in *; specialize (N (Denom c)); lia|].
  apply in_map_iff in I as (e & <- & I). rewrite Forall_forall in F. now apply F.
Qed.

Lemma coins_ok_denoms cs : coins_ok cs -> Forall (fun c => valid_denom (Denom c) = true) cs.
Proof. intros [_ F]. eapply Forall_impl; [|exact F]. now intros c [_ V]. Qed.

Lemma coins_eqb_eq a b : coins_eqb a b = true <-> a = b.
Proof.
  revert b. induction a as [|c a IH]; intros [|e b]; cbn [coins_eqb]; try (split; [discriminate | discriminate]); [tauto|].
  unfold coin_eqb. rewrite !andb_true_iff, String.eqb_eq, Z.eqb_eq, IH. destruct c, e. cbn. split; [intros [[-> ->] ->]; reflexivity | intros E; injection E; auto].
Qed.

Lemma sorted_coins_ok cs : sorted_coins cs = true <-> StronglySorted denom_lt cs.
Proof.
  induction cs as [|c [|e cs] IH]; cbn [sorted_coins].
  - split; [constructor | reflexivity].
  - split; [repeat constructor | reflexivity].
  - rewrite andb_true_iff, bltb_spec, IH. split.
    + intros [L Sd]. constructor; [exact Sd|]. constructor; [exact L|]. inversion Sd as [|? ? _ F]; subst. eapply Forall_impl; [|exact F].
      intros x Lx. eapply blt_trans; [exact L | exact Lx].
    + intros Sd. inversion Sd as [|? ? Sd' F]; subst. inversion F; subst. auto.
Qed.

Lemma valid_coins_ok cs : valid_coins cs = true <-> coins_ok cs.
Proof.
  unfold valid_coins, coins_ok. rewrite andb_true_iff, sorted_coins_ok, forallb_forall, Forall_forall.
  split; intros [H1 H2]; (split; [exact H1|]); intros c I; specialize (H2 c I); rewrite andb_true_iff, Z.ltb_lt in *; exact H2.
Qed.

Lemma valid_denom_bytes d : valid_denom d = true -> d <> EmptyString /\ Forall (fun b => 0 <= b < 128) (string_bytes d).
Proof.
  unfold valid_denom. destruct (string_bytes d) as [|b rest] eqn:E; [discriminate|]. intros H. split; [intros ->; discriminate E|].
  apply andb_prop in H as [H _]. apply andb_prop in H as [H _]. apply andb_prop in H as [Hb Hr].
  assert (L : forall x, letter x = true -> 0 <= x < 128) by (unfold letter; intros x; rewrite orb_true_iff, !andb_true_iff, !Z.leb_le; lia).
  constructor; [now apply L|]. apply Forall_forall. intros x I. rewrite forallb_forall in Hr. specialize (Hr x I). unfold denom_char in Hr.
  rewrite !orb_true_iff in Hr. destruct Hr as [[Hr | Hr] | Hr]; [now apply L | rewrite andb_true_iff, !Z.leb_le in Hr; lia|].
  apply existsb_exists in Hr as (y & Iy & Ey). apply Z.eqb_eq in Ey as ->. cbn in Iy. lia.
Qed.

Lemma canon_fix cs : coins_ok cs -> canon_coins cs = cs.
Proof.
  intros [Sd F]. enough (X : forall all, (forall c, In c cs -> amount_of all (Denom c) = Amount c) -> denoms cs = map Denom cs /\
      filter (fun c => negb (Amount c =? 0)) (map (coin_at all) (map Denom cs)) = cs).
  { destruct (X cs) as [X1 X2]; [intros c I; apply amount_in; [now split | exact I]|]. unfold canon_coins. now rewrite X1. }
  intros all H. induction Sd as [|c cs Sd IH Fc]; [now split|]. inversion F as [|? ? [Pc _] F']; subst.
  destruct IH as [IH1 IH2]; [exact F' | intros e I; apply H; now right|]. split.
  - unfold denoms in *. cbn [map fold_right]. rewrite IH1. destruct cs as [|e cs]; [reflexivity|]. cbn [map ins_denom]. inversion Fc as [|? ? L _]; subst.
    unfold denom_lt, blt in L. now rewrite L.
  - cbn [map filter]. cbn [coin_at Amount]. rewrite (H c (or_introl eq_refl)). destruct (Z.eqb_spec (Amount c) 0); [lia|]. cbn [negb]. rewrite IH2.
    f_equal. unfold coin_at. rewrite (H c (or_introl eq_refl)). now destruct c.
Qed.

#[export] Instance coins_ref_spec : CoinsSpec coins_ref.
Proof.
  split; cbn [ValidateDenom Coins_Add Coins_Sub Coins_IsAllLTE Coins_Equal Coins_AmountOf Coins_IsAllPositive Coins_IsValid MakeCoins coins_ref].
  - exact valid_denom_bytes.
  - intros a b r Oa Ob. destruct (forallb _ _); [|discriminate]. intros E. apply Ok_inj in E as <-.
    assert (Am : forall d, amount_of (a ++ b) d = amount_of a d + amount_of b d) by (intros; apply amount_app). split; [|intros d; now rewrite amount_canon].
    apply canon_coins_ok; [intros d; rewrite Am; pose proof (coins_ok_nonneg a d Oa); pose proof (coins_ok_nonneg b d Ob); lia|].
    apply Forall_app. split; now apply coins_ok_denoms.
  - intros a b Oa Ob Lt. destruct (forallb _ _) eqn:E; [eauto|]. exfalso. enough (X : forallb (fun c => Amount c <? 2 ^ 256) (canon_coins (a ++ b)) = true) by congruence.
    apply forallb_forall. intros c I. apply canon_member in I as (-> & _). apply Z.ltb_lt. rewrite amount_app. specialize (Lt (Denom c)). lia.
  - intros a b r Oa Ob. destruct (forallb _ _) eqn:Ef; [|discriminate]. intros E. apply Ok_inj in E as <-.
    assert (Am : forall d, amount_of (canon_coins (a ++ map neg_coin b)) d = amount_of a d - amount_of b d) by (intros; rewrite amount_canon, amount_app, amount_neg; lia).
    split; [|exact Am]. split; [apply canon_sorted_coins|]. apply Forall_forall. intros c I. rewrite forallb_forall in Ef. split; [now apply Z.ltb_lt, Ef|].
    apply canon_member in I as (_ & _ & I). rewrite map_app, map_map in I. apply in_app_or in I as [I | I]; apply in_map_iff in I as (e & <- & I);
      [pose proof (coins_ok_denoms a Oa) as F | pose proof (coins_ok_denoms b Ob) as F]; rewrite Forall_forall in F; exact (F e I).
  - intros a b _ H. apply Forall_forall. intros c I. rewrite forallb_forall in H. now apply Z.leb_le, H.
  - intros a b _ _. apply coins_eqb_eq.
  - intros cs d _ V. now rewrite V.
  - intros cs H. destruct cs as [|c cs]; [discriminate|]. split; [discriminate|]. apply Forall_forall. intros e I. rewrite forallb_forall in H. now apply Z.ltb_lt, H.
  - intros cs. apply valid_coins_ok.
  - intros cs r. destruct (valid_coins _) eqn:Vc; [|discriminate]. intros E. apply Ok_inj in E as <-. split; [now apply valid_coins_ok | intros d; apply amount_canon].
  - intros cs O. rewrite canon_fix by exact O. now rewrite (proj2 (valid_coins_ok cs) O).
Qed.

(** ** A reference bank

    Accounts as a list of the newest balances; a transfer needs funds.  The
    examples run on it, and it satisfies what the theorems assume of a bank. *)

From stdpp Require Import base numbers list.
From Stdlib Require Import ZArith Lia List Bool String.
From S2P Require Import Prelude GoBig SdkMath Store GoState SdkCoins MapSum.
Import ListNotations.
Open Scope Z_scope.

Definition Bank : Type := list (bytes * list Coin).

Definition addr_eqb (a b : bytes) : bool := match bcompare a b with Eq => true | _ => false end.

Lemma addr_eqb_at a b : at_addr a b = if addr_eqb a b then 1 else 0.
Proof.
  unfold at_addr, addr_eqb. destruct (bcompare a b) eqn:E.
  - apply bcompare_eq in E as ->. now rewrite decide_True.
  - rewrite decide_False; [reflexivity|]. intros ->. now rewrite bcompare_refl in E.
  - rewrite decide_False; [reflexivity|]. intros ->. now rewrite bcompare_refl in E.
Qed.

Fixpoint held (e : Bank) (a : bytes) : list Coin :=
  match e with
  | [] => []
  | (b, cs) :: e' => if addr_eqb b a then if valid_coins cs then cs else [] else held e' a
  end.

Definition covers (cs held : list Coin) : bool := valid_coins cs && forallb (fun c => Amount c <=? amount_of held (Denom c)) cs.

Definition take (a : bytes) (cs : list Coin) (e : Bank) : Bank := (a, canon_coins (held e a ++ map neg_coin cs)) :: e.
Definition give (a : bytes) (cs : list Coin) (e : Bank) : Bank := (a, canon_coins (held e a ++ cs)) :: e.

Definition send (from to : bytes) (cs : list Coin) : M Bank unit := fun e =>
  if covers cs (held e from) then (Ok tt, give to cs (take from cs e)) else (Err "insufficient funds", e).

Lemma held_ok e a : coins_ok (held e a).
Proof.
  induction e as [|[b cs] e IH]; cbn [held]; [split; constructor|]. destruct (addr_eqb b a); [|exact IH].
  destruct (valid_coins cs) eqn:Vc; [now apply valid_coins_ok | split; constructor].
Qed.

Lemma held_put a cs e b : coins_ok cs -> held ((a, cs) :: e) b = if addr_eqb a b then cs else held e b.
Proof. intros O. cbn [held]. now rewrite (proj2 (valid_coins_ok cs) O). Qed.

Lemma addr_eqb_eq a b : addr_eqb a b = true <-> a = b.
Proof. unfold addr_eqb. rewrite <- bcompare_eq. destruct (bcompare a b); split; congruence. Qed.

Lemma covers_le cs h : coins_ok h -> covers cs h = true -> coins_ok cs /\ forall d, amount_of cs d <= amount_of h d.
Proof.
  intros Oh H. unfold covers in H. apply andb_prop in H as [Vc Le]. apply valid_coins_ok in Vc. split; [exact Vc|]. intros d.
  destruct (In_dec String.string_dec d (map Denom cs)) as [I | N]; [|rewrite (amount_absent cs d N); now apply coins_ok_nonneg].
  apply in_map_iff in I as (c & <- & I). rewrite forallb_forall in Le. specialize (Le c I). apply Z.leb_le in Le. now rewrite amount_in.
Qed.

Lemma le_covers cs h : coins_ok cs -> (forall d, amount_of cs d <= amount_of h d) -> covers cs h = true.
Proof.
  intros O Le. unfold covers. rewrite (proj2 (valid_coins_ok cs) O). apply forallb_forall. intros c I. apply Z.leb_le. rewrite <- (amount_in c cs O I). apply Le.
Qed.

Lemma take_balance a cs e b d : coins_ok cs -> (forall x, amount_of cs x <= amount_of (held e a) x) ->
  amount_of (held (take a cs e) b) d = amount_of (held e b) d - at_addr a b * amount_of cs d.
Proof.
  intros O Le. unfold take. rewrite held_put.
  - rewrite addr_eqb_at. destruct (addr_eqb a b) eqn:E; [|lia]. apply addr_eqb_eq in E as <-. rewrite amount_canon, amount_app, amount_neg. lia.
  - apply canon_coins_ok; [intros x; rewrite amount_app, amount_neg; specialize (Le x); lia|]. apply Forall_app. split; [apply coins_ok_denoms, held_ok|].
    apply Forall_map. exact (coins_ok_denoms cs O).
Qed.

Lemma give_balance a cs e b d : coins_ok cs -> amount_of (held (give a cs e) b) d = amount_of (held e b) d + at_addr a b * amount_of cs d.
Proof.
  intros O. unfold give. rewrite held_put.
  - rewrite addr_eqb_at. destruct (addr_eqb a b) eqn:E; [|lia]. apply addr_eqb_eq in E as <-. rewrite amount_canon, amount_app. lia.
  - apply canon_coins_ok; [intros x; rewrite amount_app; pose proof (coins_ok_nonneg _ x (held_ok e a)); pose proof (coins_ok_nonneg cs x O); lia|].
    apply Forall_app. split; [apply coins_ok_denoms, held_ok | exact (coins_ok_denoms cs O)].
Qed.

Lemma send_balance from to cs e e' : send from to cs e = (Ok tt, e') ->
  forall b d, amount_of (held e' b) d = amount_of (held e b) d + (at_addr to b - at_addr from b) * amount_of cs d.
Proof.
  unfold send. destruct (covers cs (held e from)) eqn:Cv; [|discriminate]. intros H b d. apply (f_equal snd) in H. cbn [snd] in H. subst e'.
  apply covers_le in Cv as [O Le]; [|apply held_ok]. rewrite give_balance, take_balance by assumption. lia.
Qed.
