(* ===== verification/DecCoins.v ===== *)
(** * The interface of [sdk.DecCoins]

    [DecCoins] and [Coins] of the Cosmos SDK ([cosmos-sdk/types]) are sorted
    lists of (denomination, amount) without repeated denominations.  They are
    not part of the repository: components that use them are written against
    the class [DecCoinsOps], and [DecCoinsSpec] states their documented
    behaviour through the amount of each denomination, in units of [10^-18].
    A finite-map implementation shows that the laws can hold. *)

From stdpp Require Import base gmap strings.
From Stdlib Require Import ZArith Lia.
From S2P Require Import Prelude GoBig BigDec SdkMath.

#[global] Open Scope Z_scope.

Class DecCoinsOps : Type := {
  DecCoins : Type;
  Coins : Type;
  AmountOf : DecCoins -> string -> Z;
  CoinsAmountOf : Coins -> string -> Z;
  NewDecCoins : DecCoins;
  dc_Add : DecCoins -> DecCoins -> Res DecCoins;
  dc_Sub : DecCoins -> DecCoins -> Res DecCoins;
  dc_MulDec : DecCoins -> Z -> Res DecCoins;
  dc_TruncateDecimal : DecCoins -> Res (Coins * DecCoins);
  NewDecCoinsFromCoins : Coins -> Res DecCoins;
  dc_IsAnyNegative : DecCoins -> bool;
  (** The set of one coin, [sdk.DecCoin{denom, amount}]. *)
  dc_coin : string -> Z -> DecCoins;
  dc_SafeSub : DecCoins -> DecCoins -> Res (DecCoins * bool);
  dc_MulDecTruncate : DecCoins -> Z -> Res DecCoins;
  dc_QuoDecTruncate : DecCoins -> Z -> Res DecCoins;
  dc_IsZero : DecCoins -> bool;
  (** [Coins] are slices: they can be read coin by coin and appended to. *)
  coins_list : Coins -> list (string * Z);
  coins_append : Coins -> string -> Z -> Coins;
  coins_empty : Coins;
  coins_Add : Coins -> Coins -> Res Coins;
  coins_IsZero : Coins -> bool
}.

Class DecCoinsSpec (C : DecCoinsOps) : Prop := {
  AmountOf_empty d : AmountOf NewDecCoins d = 0;
  dc_Add_exact a b r d : dc_Add a b = Ok r -> AmountOf r d = AmountOf a d + AmountOf b d;
  dc_Add_total a b : (forall d, sdk_fits (AmountOf a d + AmountOf b d)) -> is_ok (dc_Add a b) = true;
  (** These methods have no error result. *)
  dc_Add_noerr a b e : dc_Add a b <> Err e;
  FromCoins_noerr c e : NewDecCoinsFromCoins c <> Err e;
  (** [Sub] panics when a difference is negative. *)
  dc_Sub_exact a b r d :
    dc_Sub a b = Ok r -> AmountOf r d = AmountOf a d - AmountOf b d /\ 0 <= AmountOf r d;
  dc_Sub_total a b :
    (forall d, 0 <= AmountOf a d - AmountOf b d) -> (forall d, sdk_fits (AmountOf a d - AmountOf b d)) ->
    is_ok (dc_Sub a b) = true;
  (** [MulDec] rounds each product to nearest. *)
  dc_MulDec_nearest a x r d :
    dc_MulDec a x = Ok r -> 2 * Z.abs (AmountOf r d * OneDec - AmountOf a d * x) <= OneDec;
  dc_MulDec_zero a x r d : dc_MulDec a x = Ok r -> AmountOf a d * x = 0 -> AmountOf r d = 0;
  dc_MulDec_total a x : (forall d, sdk_fits (AmountOf a d * x)) -> is_ok (dc_MulDec a x) = true;
  dc_Truncate_exact a c r d :
    dc_TruncateDecimal a = Ok (c, r) ->
    0 <= AmountOf a d /\ CoinsAmountOf c d = AmountOf a d / OneDec /\ AmountOf r d = AmountOf a d mod OneDec;
  dc_Truncate_total a : (forall d, 0 <= AmountOf a d) -> is_ok (dc_TruncateDecimal a) = true;
  FromCoins_exact c r d : NewDecCoinsFromCoins c = Ok r -> AmountOf r d = CoinsAmountOf c d * OneDec;
  FromCoins_total c : (forall d, sdk_fits (CoinsAmountOf c d * OneDec)) -> is_ok (NewDecCoinsFromCoins c) = true;
  dc_IsAnyNegative_spec a : dc_IsAnyNegative a = false <-> forall d, 0 <= AmountOf a d;
  dc_coin_amount d x e : AmountOf (dc_coin d x) e = if String.eqb d e then x else 0;
  (** [SafeSub] does not panic on a negative difference, it reports it. *)
  dc_SafeSub_exact a b r n d : dc_SafeSub a b = Ok (r, n) -> AmountOf r d = AmountOf a d - AmountOf b d;
  dc_MulDecTruncate_bound a x r d :
    0 <= x -> 0 <= AmountOf a d -> dc_MulDecTruncate a x = Ok r ->
    AmountOf r d * OneDec <= AmountOf a d * x < (AmountOf r d + 1) * OneDec;
  dc_QuoDecTruncate_bound a x r d :
    0 < x -> 0 <= AmountOf a d -> dc_QuoDecTruncate a x = Ok r ->
    AmountOf r d * x <= AmountOf a d * OneDec < (AmountOf r d + 1) * x;
  dc_IsZero_spec a : dc_IsZero a = true <-> forall d, AmountOf a d = 0;
  coins_empty_amount d : CoinsAmountOf coins_empty d = 0;
  coins_Add_exact a b r d : coins_Add a b = Ok r -> CoinsAmountOf r d = CoinsAmountOf a d + CoinsAmountOf b d;
  coins_IsZero_spec a : coins_IsZero a = true <-> forall d, CoinsAmountOf a d = 0;
  (** A denomination occurs at most once. *)
  coins_list_amount c d : CoinsAmountOf c d = zsum (map snd (filter (fun kv => kv.1 = d) (coins_list c)));
  coins_append_amount c d x e :
    ~ In d (map fst (coins_list c)) ->
    CoinsAmountOf (coins_append c d x) e = CoinsAmountOf c e + if String.eqb d e then x else 0
}.

Lemma Permutation_zsum l l' : l ≡ₚ l' -> zsum l = zsum l'.
Proof. unfold zsum. induction 1; cbn; lia. Qed.

(** [sdk.NewDecCoinFromDec], and [sdk.NewDecCoins] of one coin: a negative
    amount panics. *)
Definition NewDecCoinFromDec {C : DecCoinsOps} (d : string) (x : Z) : Res DecCoins :=
  if x <? 0 then Panic "negative coin amount" else Ok (dc_coin d x).

(** [sdk.NewCoins(coins...)] of two coins; zero amounts are dropped. *)
Definition NewCoins {C : DecCoinsOps} (l : list (string * Z)) : Res Coins :=
  fold_left (fun r kv =>
    c <- r ;;
    if kv.2 <? 0 then Panic "negative coin amount"
    else if negb (CoinsAmountOf c kv.1 =? 0) then Panic "duplicate denomination"
    else if kv.2 =? 0 then Ok c else Ok (coins_append c kv.1 kv.2)) l (Ok coins_empty).

(** ** Finite maps implement the interface *)

Definition amap : Type := gmap string Z.
Definition amt (m : amap) (d : string) : Z := default 0 ((m : gmap string Z) !! d).
Definition add_map (a b : amap) : amap :=
  union_with (M := gmap string Z) (fun x y => Some (x + y)) a b.
Definition on_amts (f : Z -> Z) (m : amap) : amap := f <$> (m : gmap string Z).

Definition fits_b (x : Z) : bool := Z.abs x <? 2 ^ 315.
Definition all_b (p : Z -> bool) (m : amap) : bool := forallb (fun kv => p kv.2) (map_to_list (m : gmap string Z)).

Lemma all_b_spec (p : Z -> bool) m : all_b p m = true <-> forall k x, (m : gmap string Z) !! k = Some x -> p x = true.
Proof.
  unfold all_b. rewrite forallb_forall. split.
  - intros H k x Hk. apply (H (k, x)). now apply list_elem_of_In, elem_of_map_to_list.
  - intros H [k x] Hin. apply (H k). now apply elem_of_map_to_list, list_elem_of_In.
Qed.

Lemma all_b_amt (p : Z -> bool) m : p 0 = true -> (all_b p m = true <-> forall d, p (amt m d) = true).
Proof.
  intros P0. rewrite all_b_spec. unfold amt. split.
  - intros H d. destruct ((m : gmap string Z) !! d) as [x|] eqn:E; [exact (H d x E) | exact P0].
  - intros H k x E. specialize (H k). now rewrite E in H.
Qed.

Definition checked_map (m : amap) : Res amap := if all_b fits_b m then Ok m else Panic "Int overflow".

Definition nonneg_b (x : Z) : bool := 0 <=? x.

Definition zero_b (x : Z) : bool := x =? 0.

#[export] Instance map_coins : DecCoinsOps := {|
  DecCoins := amap;
  Coins := amap;
  AmountOf := amt;
  CoinsAmountOf := amt;
  NewDecCoins := (∅ : gmap string Z);
  dc_Add a b := checked_map (add_map a b);
  dc_Sub a b :=
    r <- checked_map (add_map a (on_amts Z.opp b)) ;;
    if all_b nonneg_b r then Ok r else Panic "negative coin amount";
  dc_MulDec a x := checked_map (on_amts (fun v => chopPrecisionAndRoundSdkDec (v * x)) a);
  dc_TruncateDecimal a :=
    if all_b nonneg_b a then Ok (on_amts (fun v => v / OneDec) a, on_amts (fun v => v mod OneDec) a)
    else Panic "negative coin amount";
  NewDecCoinsFromCoins c := checked_map (on_amts (fun v => v * OneDec) c);
  dc_IsAnyNegative a := negb (all_b nonneg_b a);
  dc_coin d x := ({[ d := x ]} : gmap string Z);
  dc_SafeSub a b :=
    r <- checked_map (add_map a (on_amts Z.opp b)) ;; Ok (r, negb (all_b nonneg_b r));
  dc_MulDecTruncate a x := checked_map (on_amts (fun v => Z.quot (v * x) OneDec) a);
  dc_QuoDecTruncate a x :=
    if x =? 0 then Panic "division by zero" else checked_map (on_amts (fun v => Z.quot (v * OneDec) x) a);
  dc_IsZero a := all_b zero_b a;
  coins_list c := map_to_list (c : gmap string Z);
  coins_append c d x := (<[ d := x ]> (c : gmap string Z) : gmap string Z);
  coins_empty := (∅ : gmap string Z);
  coins_Add a b := checked_map (add_map a b);
  coins_IsZero a := all_b zero_b a
|}.

Lemma amt_union a b d : amt (add_map a b) d = amt a d + amt b d.
Proof.
  unfold amt, add_map. rewrite lookup_union_with.
  destruct ((a : gmap string Z) !! d), ((b : gmap string Z) !! d); cbn; lia.
Qed.

Lemma amt_fmap (f : Z -> Z) m d : f 0 = 0 -> amt (on_amts f m) d = f (amt m d).
Proof.
  intros F0. unfold amt, on_amts. rewrite lookup_fmap.
  destruct ((m : gmap string Z) !! d); cbn; auto.
Qed.

Lemma checked_map_ok m r : checked_map m = Ok r -> r = m.
Proof. unfold checked_map. case_if; congruence. Qed.

Lemma checked_map_noerr m e : checked_map m <> Err e.
Proof. unfold checked_map. case_if; discriminate. Qed.

Lemma checked_map_total m : (forall d, sdk_fits (amt m d)) -> checked_map m = Ok m.
Proof.
  intros H. unfold checked_map. rewrite (proj2 (all_b_amt fits_b m eq_refl)); [reflexivity|].
  intros d. apply Z.ltb_lt. exact (H d).
Qed.

Lemma all_nonneg m : all_b nonneg_b m = true <-> forall d, 0 <= amt m d.
Proof.
  rewrite (all_b_amt nonneg_b m eq_refl). unfold nonneg_b. split; intros H d; apply Z.leb_le, H.
Qed.

Lemma all_zero m : all_b zero_b m = true <-> forall d, amt m d = 0.
Proof.
  rewrite (all_b_amt zero_b m eq_refl). unfold zero_b. split; intros H d; apply Z.eqb_eq, H.
Qed.

Lemma amt_single d x e : amt ({[ d := x ]} : gmap string Z) e = if String.eqb d e then x else 0.
Proof.
  unfold amt. destruct (String.eqb_spec d e) as [-> | N];
    [now rewrite lookup_singleton_eq | now rewrite lookup_singleton_ne].
Qed.

(** The list of a map holds the amount of each denomination once. *)
Lemma amt_list m d :
  amt m d = zsum (map snd (filter (fun kv : string * Z => kv.1 = d) (map_to_list (m : gmap string Z)))).
Proof.
  unfold amt. induction (m : gmap string Z) as [|k x m' Hk IH] using map_ind.
  - now rewrite map_to_list_empty, lookup_empty.
  - rewrite (Permutation_zsum _ (map snd (filter (fun kv => kv.1 = d) ((k, x) :: map_to_list m')))).
    2: { apply Permutation_map, filter_Permutation. now apply map_to_list_insert. }
    rewrite filter_cons. cbn [fst]. destruct (decide (k = d)) as [-> | N].
    + rewrite lookup_insert_eq. cbn [default map snd]. unfold zsum in *. cbn [fold_right].
      rewrite <- IH, Hk. cbn. unfold id. lia.
    + rewrite lookup_insert_ne by assumption. exact IH.
Qed.

Lemma checked_map_is_ok m : (forall d, sdk_fits (amt m d)) -> is_ok (checked_map m) = true.
Proof. intros H. now rewrite checked_map_total. Qed.

Lemma round_abs_le v : Z.abs (chopPrecisionAndRoundSdkDec v) <= Z.abs v.
Proof.
  pose proof (chopPrecisionAndRoundSdkDec_spec v) as [N _]. change precisionReuseSDKDec with (10 ^ 18) in N. lia.
Qed.

#[export] Instance map_coins_spec : DecCoinsSpec map_coins.
Proof.
  split; cbn [AmountOf CoinsAmountOf NewDecCoins dc_Add dc_Sub dc_MulDec dc_TruncateDecimal
    NewDecCoinsFromCoins dc_IsAnyNegative dc_coin dc_SafeSub dc_MulDecTruncate dc_QuoDecTruncate dc_IsZero
    coins_list coins_append coins_empty coins_Add coins_IsZero map_coins].
  - reflexivity.
  - intros a b r d H. apply checked_map_ok in H as ->. apply amt_union.
  - intros a b H. apply checked_map_is_ok. intros d. rewrite amt_union. apply H.
  - intros a b e. apply checked_map_noerr.
  - intros c e. apply checked_map_noerr.
  - intros a b r d H. inv_bind H. apply checked_map_ok in E as ->. case_if_in H; [|discriminate].
    apply Ok_inj in H as <-. rewrite all_nonneg in C. split; [|apply C].
    rewrite amt_union, amt_fmap by reflexivity. lia.
  - intros a b H F.
    assert (E : forall d, amt (add_map a (on_amts Z.opp b)) d = amt a d - amt b d).
    { intros d. rewrite amt_union, amt_fmap by reflexivity. lia. }
    rewrite checked_map_total by (intros d; rewrite E; apply F). cbn [bind].
    rewrite (proj2 (all_nonneg _)); [reflexivity|]. intros d. rewrite E. apply H.
  - intros a x r d H. apply checked_map_ok in H as ->. rewrite amt_fmap by reflexivity.
    pose proof (chopPrecisionAndRoundSdkDec_spec (amt a d * x)) as [N _].
    change precisionReuseSDKDec with OneDec in N. lia.
  - intros a x r d H Z0. apply checked_map_ok in H as ->. rewrite amt_fmap by reflexivity.
    now rewrite Z0.
  - intros a x H. apply checked_map_is_ok. intros d. rewrite amt_fmap by reflexivity.
    eapply sdk_fits_le; [apply round_abs_le | apply H].
  - intros a c r d. case_if; [|discriminate]. intros H. apply Ok_inj in H. injection H as <- <-.
    rewrite all_nonneg in C. rewrite !amt_fmap by reflexivity. auto.
  - intros a H. now rewrite (proj2 (all_nonneg _)).
  - intros c r d H. apply checked_map_ok in H as ->. now rewrite amt_fmap.
  - intros c H. apply checked_map_is_ok. intros d. rewrite amt_fmap by reflexivity. apply H.
  - intros a. rewrite <- all_nonneg. destruct (all_b nonneg_b a); cbn; split; congruence.
  - apply amt_single.
  - intros a b r n d H. inv_bind H. apply checked_map_ok in E as ->. apply Ok_inj in H. injection H as <- _.
    rewrite amt_union, amt_fmap by reflexivity. lia.
  - intros a x r d Hx Ha H. apply checked_map_ok in H as ->. rewrite amt_fmap by reflexivity.
    rewrite quot_nonneg by (nia || apply OneDec_pos). pose proof (div_spec (amt a d * x) OneDec OneDec_pos). lia.
  - intros a x r d Hx Ha H. destruct (Z.eqb_spec x 0); [lia|]. apply checked_map_ok in H as ->.
    pose proof OneDec_pos. rewrite amt_fmap by now rewrite Z.quot_0_l by lia.
    rewrite quot_nonneg by nia. pose proof (div_spec (amt a d * OneDec) x Hx). lia.
  - apply all_zero.
  - intros d. reflexivity.
  - intros a b r d H. apply checked_map_ok in H as ->. apply amt_union.
  - apply all_zero.
  - apply amt_list.
  - intros c d x e N. unfold amt. destruct (String.eqb_spec d e) as [-> | Ne].
    + rewrite lookup_insert_eq. destruct ((c : gmap string Z) !! e) as [y|] eqn:E; [|cbn; lia].
      exfalso. apply N. apply in_map_iff. exists (e, y). split; [reflexivity|].
      now apply list_elem_of_In, elem_of_map_to_list.
    + rewrite lookup_insert_ne by exact Ne. lia.
Qed.

(** A coin set of one denomination, for examples. *)
Definition coin (d : string) (x : Z) : @DecCoins map_coins := ({[ d := x ]} : gmap string Z).
