(* ===== verification/Accum.v ===== *)
(** * Reward accumulators ([osmoutils/accum])

    An accumulator keeps a value per share in a store, together with the total
    number of shares; a position records its shares, the value per share from
    which it accrues and rewards already moved aside.  An operation works on
    the store and on the [AccumulatorObject] the caller holds, which is a copy
    of the stored content that can be out of date: both are the state.
    Stored protobuf messages are held decoded; [options], an empty struct, is
    [unit]. *)

From Stdlib Require Import ZArith Lia List Bool String.
From S2P Require Import Prelude GoBig SdkMath Store GoState DecCoins.
Import ListNotations.
Open Scope string_scope.
Open Scope Z_scope.

(** ** Keys ([prefix.go]) *)

Definition modulePrefix : string := "accum".
Definition accumulatorPrefix : string := "acc".
Definition positionPrefix : string := "pos".
Definition KeySeparator : string := "||".
Definition accumPrefixKey : string := modulePrefix ++ KeySeparator ++ accumulatorPrefix ++ KeySeparator.
Definition positionPrefixKey : string := modulePrefix ++ KeySeparator ++ positionPrefix ++ KeySeparator.

Definition formatAccumPrefixKey (accumName : string) : bytes :=
  string_bytes (accumPrefixKey ++ accumName).

Definition FormatPositionPrefixKey (accumName name : string) : bytes :=
  string_bytes (positionPrefixKey ++ accumName ++ KeySeparator ++ name).

(** [strings.Contains(s, sub)] *)
Definition contains (s sub : string) : bool :=
  match String.index 0 sub s with Some _ => true | None => false end.

Section Accum.
Context {S : SdkMath} {C : DecCoinsOps}.

Definition Options : Type := unit.

Record PosRecord : Type := {
  NumShares : Z;
  AccumValuePerShare : DecCoins;
  UnclaimedRewardsTotal : DecCoins;
  RecordOptions : option Options
}.

Record AccumulatorContent : Type := { AccumValue : DecCoins; TotalShares : Z }.

Inductive StoreValue : Type :=
| ContentValue (c : AccumulatorContent)
| RecordValue (r : PosRecord).

Record AccumulatorObject : Type := {
  name : string;
  valuePerShare : DecCoins;
  totalShares : Z
}.

Context {K : KVStore StoreValue}.

(** ** Store access *)

(** [osmoutils.Get]: a value of another kind does not unmarshal. *)
Definition get_content (s : St) (key : bytes) : Res (option AccumulatorContent) :=
  match st_get s key with
  | None => Ok None
  | Some (ContentValue c) => Ok (Some c)
  | Some (RecordValue _) => Err "unmarshal"
  end.

Definition get_record (s : St) (key : bytes) : Res (option PosRecord) :=
  match st_get s key with
  | None => Ok None
  | Some (RecordValue r) => Ok (Some r)
  | Some (ContentValue _) => Err "unmarshal"
  end.

(** The state of a method call: the store and the receiver. *)
Definition ASt : Type := (St * AccumulatorObject)%type.

Definition set_store (f : St -> St) : M ASt unit := modify (fun s => (f (fst s), snd s)).
Definition set_value (v : DecCoins) : M ASt unit :=
  modify (fun s => (fst s, {| name := name (snd s); valuePerShare := v; totalShares := totalShares (snd s) |})).
Definition set_total (t : Z) : M ASt unit :=
  modify (fun s => (fst s, {| name := name (snd s); valuePerShare := valuePerShare (snd s); totalShares := t |})).
Definition receiver : M ASt AccumulatorObject := fun s => (Ok (snd s), s).

Definition setAccumulator (accumName : string) (value : DecCoins) (shares : Z) : M St unit :=
  if contains accumName KeySeparator
  then fail "Accumulator name cannot contain '||'"
  else modify (fun s => st_set s (formatAccumPrefixKey accumName)
                          (ContentValue {| AccumValue := value; TotalShares := shares |})).

Definition has (s : St) (key : bytes) : bool :=
  match st_get s key with Some _ => true | None => false end.

Definition MakeAccumulator (accumName : string) : M St unit :=
  s <~ get ;;
  if has s (formatAccumPrefixKey accumName)
  then fail "Accumulator with given name already exists in store"
  else setAccumulator accumName NewDecCoins 0.

Definition MakeAccumulatorWithValueAndShare (accumName : string) (accumValue : DecCoins) (shares : Z) :
    M St unit :=
  s <~ get ;;
  if has s (formatAccumPrefixKey accumName)
  then fail "Accumulator with given name already exists in store"
  else setAccumulator accumName accumValue shares.

Definition OverwriteAccumulatorUnsafe (accumName : string) (accumValue : DecCoins) (shares : Z) :
    M St unit :=
  s <~ get ;;
  if negb (has s (formatAccumPrefixKey accumName))
  then fail "Accumulator with given name does not exist in store"
  else setAccumulator accumName accumValue shares.

Definition GetAccumulator (s : St) (accumName : string) : Res AccumulatorObject :=
  found <- get_content s (formatAccumPrefixKey accumName) ;;
  match found with
  | None => Err "AccumDoesNotExistError"
  | Some c => Ok {| name := accumName; valuePerShare := AccumValue c; totalShares := TotalShares c |}
  end.

(** ** Positions *)

(** The function and the method [GetPosition] have the same body. *)
Definition GetPosition (accum : AccumulatorObject) (s : St) (n : string) : Res PosRecord :=
  found <- get_record s (FormatPositionPrefixKey (name accum) n) ;;
  match found with None => Err "NoPositionError" | Some r => Ok r end.

Definition MustGetPosition (accum : AccumulatorObject) (s : St) (n : string) : Res PosRecord :=
  match GetPosition accum s n with Err e => Panic e | r => r end.

Definition GetPositionSize (accum : AccumulatorObject) (s : St) (n : string) : Res Z :=
  position <- GetPosition accum s n ;; Ok (NumShares position).

Definition HasPosition (accum : AccumulatorObject) (s : St) (n : string) : bool :=
  has s (FormatPositionPrefixKey (name accum) n).

Definition initOrUpdatePosition (accumulatorValuePerShare : DecCoins) (index : string)
    (numShareUnits : Z) (unclaimedRewardsTotal : DecCoins) (options : option Options) : M ASt unit :=
  accum <~ receiver ;;
  set_store (fun s => st_set s (FormatPositionPrefixKey (name accum) index)
    (RecordValue {| NumShares := numShareUnits; AccumValuePerShare := accumulatorValuePerShare;
                    UnclaimedRewardsTotal := unclaimedRewardsTotal; RecordOptions := options |})).

Definition GetTotalRewards (accum : AccumulatorObject) (position : PosRecord) : Res DecCoins :=
  diff <- dc_Sub (valuePerShare accum) (AccumValuePerShare position) ;;
  accumulatorRewards <- dc_MulDec diff (NumShares position) ;;
  dc_Add (UnclaimedRewardsTotal position) accumulatorRewards.

Definition in_store {A} (f : AccumulatorObject -> St -> Res A) : M ASt A :=
  fun s => (f (snd s) (fst s), s).

Definition with_store (c : M St unit) : M ASt unit := zoom fst (fun t s => (t, snd s)) c.

(** [setAccumulator(accum, accum.valuePerShare, accum.totalShares)] *)
Definition store_receiver : M ASt unit :=
  accum <~ receiver ;;
  with_store (setAccumulator (name accum) (valuePerShare accum) (totalShares accum)).

(** The error of [setAccumulator] is ignored. *)
Definition AddToAccumulator (amt : DecCoins) : M ASt unit :=
  accum <~ receiver ;;
  v <~ lift (dc_Add (valuePerShare accum) amt) ;;
  set_value v ~;;
  (fun s => match store_receiver s with
            | (Err _, s') => (Ok tt, s')
            | r => r
            end).

(** Re-fetch the total shares, change them by [f], write the receiver back. *)
Definition update_total (f : Z -> Res Z) : M ASt unit :=
  updatedAccum <~ in_store (fun accum s => GetAccumulator s (name accum)) ;;
  total <~ lift (f (totalShares updatedAccum)) ;;
  set_total total ~;;
  store_receiver.

Definition validate (options : option Options) : Res unit := Ok tt.

Definition NewPositionIntervalAccumulation (n : string) (numShareUnits : Z)
    (intervalAccumulationPerShare : DecCoins) (options : option Options) : M ASt unit :=
  lift (validate options) ~;;
  initOrUpdatePosition intervalAccumulationPerShare n numShareUnits NewDecCoins options ~;;
  update_total (fun t => dec_Add t numShareUnits).

Definition NewPosition (n : string) (numShareUnits : Z) (options : option Options) : M ASt unit :=
  accum <~ receiver ;;
  NewPositionIntervalAccumulation n numShareUnits (valuePerShare accum) options.

Definition AddToPositionIntervalAccumulation (n : string) (newShares : Z)
    (intervalAccumulationPerShare : DecCoins) : M ASt unit :=
  if negb (newShares >? 0)
  then fail "Attempted to add zero or negative number of shares to a position" else
  position <~ in_store (fun accum s => GetPosition accum s n) ;;
  unclaimedRewards <~ in_store (fun accum _ => GetTotalRewards accum position) ;;
  oldNumShares <~ in_store (fun accum s => GetPositionSize accum s n) ;;
  shares <~ lift (dec_Add oldNumShares newShares) ;;
  initOrUpdatePosition intervalAccumulationPerShare n shares unclaimedRewards (RecordOptions position) ~;;
  update_total (fun t => dec_Add t newShares).

Definition AddToPosition (n : string) (newShares : Z) : M ASt unit :=
  accum <~ receiver ;;
  AddToPositionIntervalAccumulation n newShares (valuePerShare accum).

Definition RemoveFromPositionIntervalAccumulation (n : string) (numSharesToRemove : Z)
    (intervalAccumulationPerShare : DecCoins) : M ASt unit :=
  if negb (numSharesToRemove >? 0) then fail "Attempted to remove no/negative shares" else
  position <~ in_store (fun accum s => GetPosition accum s n) ;;
  if numSharesToRemove >? NumShares position
  then fail "Attempted to remove more shares than exist in the position" else
  unclaimedRewards <~ in_store (fun accum _ => GetTotalRewards accum position) ;;
  oldNumShares <~ in_store (fun accum s => GetPositionSize accum s n) ;;
  shares <~ lift (dec_Sub oldNumShares numSharesToRemove) ;;
  initOrUpdatePosition intervalAccumulationPerShare n shares unclaimedRewards (RecordOptions position) ~;;
  update_total (fun t => dec_Sub t numSharesToRemove).

Definition RemoveFromPosition (n : string) (numSharesToRemove : Z) : M ASt unit :=
  accum <~ receiver ;;
  RemoveFromPositionIntervalAccumulation n numSharesToRemove (valuePerShare accum).

Definition UpdatePositionIntervalAccumulation (n : string) (numShares : Z)
    (intervalAccumulationPerShare : DecCoins) : M ASt unit :=
  if numShares =? 0 then fail "ZeroSharesError" else
  if numShares <? 0
  then RemoveFromPositionIntervalAccumulation n (- numShares) intervalAccumulationPerShare
  else AddToPositionIntervalAccumulation n numShares intervalAccumulationPerShare.

Definition UpdatePosition (n : string) (numShares : Z) : M ASt unit :=
  accum <~ receiver ;;
  UpdatePositionIntervalAccumulation n numShares (valuePerShare accum).

Definition SetPositionIntervalAccumulation (n : string) (intervalAccumulationPerShare : DecCoins) :
    M ASt unit :=
  position <~ in_store (fun accum s => GetPosition accum s n) ;;
  initOrUpdatePosition intervalAccumulationPerShare n (NumShares position)
    (UnclaimedRewardsTotal position) (RecordOptions position).

Definition deletePosition (positionName : string) : M ASt unit :=
  accum <~ receiver ;;
  set_store (fun s => st_delete s (FormatPositionPrefixKey (name accum) positionName)).

(** Any error in fetching the position is reported as a missing position. *)
Definition ClaimRewards (positionName : string) : M ASt (Coins * DecCoins) :=
  position <~ in_store (fun accum s =>
    match GetPosition accum s positionName with Err _ => Err "NoPositionError" | r => r end) ;;
  totalRewards <~ in_store (fun accum _ => GetTotalRewards accum position) ;;
  '(truncatedRewardsTotal, dust) <~ lift (dc_TruncateDecimal totalRewards) ;;
  (if NumShares position =? 0 then deletePosition positionName
   else accum <~ receiver ;;
        initOrUpdatePosition (valuePerShare accum) positionName (NumShares position) NewDecCoins
          (RecordOptions position)) ~;;
  ret (truncatedRewardsTotal, dust).

Definition DeletePosition (positionName : string) : M ASt DecCoins :=
  position <~ in_store (fun accum s => GetPosition accum s positionName) ;;
  '(remainingRewards, dust) <~ ClaimRewards positionName ;;
  deletePosition positionName ~;;
  accum <~ receiver ;;
  total <~ lift (dec_Sub (totalShares accum) (NumShares position)) ;;
  set_total total ~;;
  store_receiver ~;;
  rewards <~ lift (NewDecCoinsFromCoins remainingRewards) ;;
  lift (dc_Add rewards dust).

Definition AddToUnclaimedRewards (positionName : string) (rewardsToAddTotal : DecCoins) : M ASt unit :=
  position <~ in_store (fun accum s => GetPosition accum s positionName) ;;
  if dc_IsAnyNegative rewardsToAddTotal then fail "NegativeRewardsAdditionError" else
  unclaimed <~ lift (dc_Add (UnclaimedRewardsTotal position) rewardsToAddTotal) ;;
  initOrUpdatePosition (AccumValuePerShare position) positionName (NumShares position) unclaimed
    (RecordOptions position).

End Accum.
