(* ===== verification/AccumCorrect.v ===== *)
(** * Correctness of the reward accumulators

    [Abs] is what an accumulator promises: a value per share, the total number
    of shares and a finite map of positions.  [Rep] relates it to the store and
    an up-to-date [AccumulatorObject]; every operation of [Accum] refines a
    rule of [astep].  On the abstract side the books are kept in units of
    [10^-36]: [owed] is what all positions together could claim. *)

From stdpp Require Import base gmap strings.
From Stdlib Require Import ZArith Lia List Bool.
From S2P Require Import Prelude GoBig SdkMath Store MapSum GoState DecCoins Accum.
Import ListNotations.
Open Scope Z_scope.

(** ** Keys *)

Lemma app_inj_l (a b c : string) : (a +:+ b)%string = (a +:+ c)%string -> b = c.
Proof. induction a as [|x a IH]; cbn; intros H; [exact H|]. injection H as H. auto. Qed.

Lemma position_key_inj a n m : FormatPositionPrefixKey a n = FormatPositionPrefixKey a m -> n = m.
Proof.
  unfold FormatPositionPrefixKey. intros H. apply string_bytes_inj in H.
  now do 3 apply app_inj_l in H.
Qed.

Lemma accum_key_not_position a b n : formatAccumPrefixKey a <> FormatPositionPrefixKey b n.
Proof.
  unfold formatAccumPrefixKey, FormatPositionPrefixKey. intros H. apply string_bytes_inj in H.
  cbn in H. injection H as H. discriminate.
Qed.

Lemma accum_key_inj a b : formatAccumPrefixKey a = formatAccumPrefixKey b -> a = b.
Proof. intros H. apply string_bytes_inj in H. now apply app_inj_l in H. Qed.

Section Correct.
Context {S : SdkMath} {SS : SdkMathSpec S} {C : DecCoinsOps} {CS : DecCoinsSpec C}.
Context {K : KVStore StoreValue} {KS : KVStoreSpec K}.

(** ** The abstract accumulator *)

Record Abs : Type := {
  a_value : DecCoins;
  a_total : Z;
  a_pos : gmap string PosRecord
}.

Definition mk_record (shares : Z) (start unclaimed : DecCoins) (o : option Options) : PosRecord :=
  {| NumShares := shares; AccumValuePerShare := start; UnclaimedRewardsTotal := unclaimed; RecordOptions := o |}.

(** [rw] is what a position has set aside plus what it accrued up to [v],
    rounded to nearest. *)
Definition accrued (v : DecCoins) (r : PosRecord) (rw : DecCoins) : Prop :=
  forall d, AmountOf (AccumValuePerShare r) d <= AmountOf v d /\
    2 * Z.abs ((AmountOf rw d - AmountOf (UnclaimedRewardsTotal r) d) * OneDec
               - (AmountOf v d - AmountOf (AccumValuePerShare r) d) * NumShares r) <= OneDec /\
    (NumShares r = 0 -> AmountOf rw d = AmountOf (UnclaimedRewardsTotal r) d).

Inductive aop : Type :=
| AAdd (amt : DecCoins)
| ANew (n : string) (shares : Z) (interval : DecCoins) (o : option Options)
| AAddTo (n : string) (shares : Z) (interval : DecCoins)
| ARemove (n : string) (shares : Z) (interval : DecCoins)
| ASetInterval (n : string) (interval : DecCoins)
| AClaim (n : string)
| ADelete (n : string)
| AUnclaimed (n : string) (amt : DecCoins).

(** What an operation hands out: nothing, the coins and dust of a claim, or the
    rewards of a deleted position. *)
Inductive payout : Type :=
| PNone
| PClaim (coins : Coins) (dust : DecCoins)
| PDelete (rewards : DecCoins).

Definition p_amount (p : payout) (d : string) : Z :=
  match p with
  | PNone => 0
  | PClaim coins dust => CoinsAmountOf coins d * OneDec + AmountOf dust d
  | PDelete rewards => AmountOf rewards d
  end.

Inductive astep (A : Abs) : aop -> payout -> Abs -> Prop :=
| step_add amt v :
    (forall d, AmountOf v d = AmountOf (a_value A) d + AmountOf amt d) ->
    astep A (AAdd amt) PNone {| a_value := v; a_total := a_total A; a_pos := a_pos A |}
| step_new n sh iv o :
    astep A (ANew n sh iv o) PNone
      {| a_value := a_value A; a_total := a_total A + sh;
         a_pos := <[n := mk_record sh iv NewDecCoins o]> (a_pos A) |}
| step_add_to n x iv r rw :
    a_pos A !! n = Some r -> 0 < x -> accrued (a_value A) r rw ->
    astep A (AAddTo n x iv) PNone
      {| a_value := a_value A; a_total := a_total A + x;
         a_pos := <[n := mk_record (NumShares r + x) iv rw (RecordOptions r)]> (a_pos A) |}
| step_remove n x iv r rw :
    a_pos A !! n = Some r -> 0 < x <= NumShares r -> accrued (a_value A) r rw ->
    astep A (ARemove n x iv) PNone
      {| a_value := a_value A; a_total := a_total A - x;
         a_pos := <[n := mk_record (NumShares r - x) iv rw (RecordOptions r)]> (a_pos A) |}
| step_set n iv r :
    a_pos A !! n = Some r ->
    astep A (ASetInterval n iv) PNone
      {| a_value := a_value A; a_total := a_total A;
         a_pos := <[n := mk_record (NumShares r) iv (UnclaimedRewardsTotal r) (RecordOptions r)]> (a_pos A) |}
| step_claim n r rw p :
    a_pos A !! n = Some r -> accrued (a_value A) r rw -> (forall d, 0 <= AmountOf rw d) ->
    (forall d, p_amount p d = AmountOf rw d) ->
    astep A (AClaim n) p
      {| a_value := a_value A; a_total := a_total A;
         a_pos := if NumShares r =? 0 then delete n (a_pos A)
                  else <[n := mk_record (NumShares r) (a_value A) NewDecCoins (RecordOptions r)]> (a_pos A) |}
| step_delete n r rw p :
    a_pos A !! n = Some r -> accrued (a_value A) r rw -> (forall d, 0 <= AmountOf rw d) ->
    (forall d, p_amount p d = AmountOf rw d) ->
    astep A (ADelete n) p
      {| a_value := a_value A; a_total := a_total A - NumShares r; a_pos := delete n (a_pos A) |}
| step_unclaimed n amt r u :
    a_pos A !! n = Some r -> (forall d, 0 <= AmountOf amt d) ->
    (forall d, AmountOf u d = AmountOf (UnclaimedRewardsTotal r) d + AmountOf amt d) ->
    astep A (AUnclaimed n amt) PNone
      {| a_value := a_value A; a_total := a_total A;
         a_pos := <[n := mk_record (NumShares r) (AccumValuePerShare r) u (RecordOptions r)]> (a_pos A) |}.

(** The code's operation, with what it hands out. *)
Definition run_op (op : aop) : M ASt payout :=
  match op with
  | AAdd amt => AddToAccumulator amt ~;; ret PNone
  | ANew n sh iv o => NewPositionIntervalAccumulation n sh iv o ~;; ret PNone
  | AAddTo n x iv => AddToPositionIntervalAccumulation n x iv ~;; ret PNone
  | ARemove n x iv => RemoveFromPositionIntervalAccumulation n x iv ~;; ret PNone
  | ASetInterval n iv => SetPositionIntervalAccumulation n iv ~;; ret PNone
  | AClaim n => '(coins, dust) <~ ClaimRewards n ;; ret (PClaim coins dust)
  | ADelete n => rewards <~ DeletePosition n ;; ret (PDelete rewards)
  | AUnclaimed n amt => AddToUnclaimedRewards n amt ~;; ret PNone
  end.

(** ** The representation relation *)

Definition Rep (s : ASt) (A : Abs) : Prop :=
  contains (name (snd s)) KeySeparator = false /\
  valuePerShare (snd s) = a_value A /\ totalShares (snd s) = a_total A /\
  st_get (fst s) (formatAccumPrefixKey (name (snd s))) =
    Some (ContentValue {| AccumValue := a_value A; TotalShares := a_total A |}) /\
  forall n, st_get (fst s) (FormatPositionPrefixKey (name (snd s)) n) = RecordValue <$> (a_pos A !! n).

Lemma Rep_position s A n r :
  Rep s A -> (GetPosition (snd s) (fst s) n = Ok r <-> a_pos A !! n = Some r).
Proof.
  intros (_ & _ & _ & _ & P). unfold GetPosition, get_record. rewrite P.
  destruct (a_pos A !! n) as [r'|]; cbn; split; intros H; try discriminate; congruence.
Qed.

Lemma Rep_no_position s A n : Rep s A -> a_pos A !! n = None -> GetPosition (snd s) (fst s) n = Err "NoPositionError".
Proof.
  intros (_ & _ & _ & _ & P) E. unfold GetPosition, get_record. now rewrite P, E.
Qed.

Lemma GetTotalRewards_accrued a r rw : GetTotalRewards a r = Ok rw -> accrued (valuePerShare a) r rw.
Proof.
  unfold GetTotalRewards. intros H d. inv_bind H. inv_bind H.
  apply (dc_Sub_exact _ _ _ d) in E as [E P].
  pose proof (dc_MulDec_nearest _ _ _ d E0) as N.
  pose proof (dc_MulDec_zero _ _ _ d E0) as Z0.
  apply (dc_Add_exact _ _ _ d) in H. rewrite E in *. split; [lia|]. split; [lia|].
  intros Sh. rewrite Sh in Z0. lia.
Qed.

(** Writing a position, deleting one, and writing the content back. *)
Lemma Rep_set_position s A n r :
  Rep s A ->
  Rep (st_set (fst s) (FormatPositionPrefixKey (name (snd s)) n) (RecordValue r), snd s)
    {| a_value := a_value A; a_total := a_total A; a_pos := <[n := r]> (a_pos A) |}.
Proof.
  intros (N & V & T & Ct & P). repeat split; cbn [fst snd a_value a_total a_pos]; auto.
  - rewrite get_set_ne; [exact Ct|]. intros E. symmetry in E. now apply accum_key_not_position in E.
  - intros m. destruct (decide (n = m)) as [<-|D].
    + now rewrite get_set_eq, lookup_insert_eq.
    + rewrite get_set_ne, lookup_insert_ne by (try intros E; try apply position_key_inj in E; auto). apply P.
Qed.

Lemma Rep_delete_position s A n :
  Rep s A ->
  Rep (st_delete (fst s) (FormatPositionPrefixKey (name (snd s)) n), snd s)
    {| a_value := a_value A; a_total := a_total A; a_pos := delete n (a_pos A) |}.
Proof.
  intros (N & V & T & Ct & P). repeat split; cbn [fst snd a_value a_total a_pos]; auto.
  - rewrite get_delete_ne; [exact Ct|]. intros E. symmetry in E. now apply accum_key_not_position in E.
  - intros m. destruct (decide (n = m)) as [<-|D].
    + now rewrite get_delete_eq, lookup_delete_eq.
    + rewrite get_delete_ne, lookup_delete_ne by (try intros E; try apply position_key_inj in E; auto). apply P.
Qed.

Lemma Rep_content s A a :
  Rep s A -> name a = name (snd s) ->
  Rep (st_set (fst s) (formatAccumPrefixKey (name a))
         (ContentValue {| AccumValue := valuePerShare a; TotalShares := totalShares a |}), a)
    {| a_value := valuePerShare a; a_total := totalShares a; a_pos := a_pos A |}.
Proof.
  intros (N & V & T & Ct & P) E. repeat split; cbn [fst snd a_value a_total a_pos]; auto.
  - now rewrite E.
  - now rewrite get_set_eq.
  - intros m. rewrite get_set_ne by apply accum_key_not_position. rewrite E. apply P.
Qed.

Lemma store_receiver_ok s :
  contains (name (snd s)) KeySeparator = false ->
  store_receiver s =
    (Ok tt, (st_set (fst s) (formatAccumPrefixKey (name (snd s)))
              (ContentValue {| AccumValue := valuePerShare (snd s); TotalShares := totalShares (snd s) |}), snd s)).
Proof.
  intros N. unfold store_receiver, mbind, receiver, with_store, zoom, setAccumulator. rewrite N. reflexivity.
Qed.

(** ** Running the operations *)

Lemma run_in_store {A B} (f : AccumulatorObject -> St -> Res A) (k : A -> M ASt B) s :
  mbind (in_store f) k s =
    match f (snd s) (fst s) with Ok a => k a s | Err e => (Err e, s) | Panic m => (Panic m, s) end.
Proof. reflexivity. Qed.

Lemma run_lift {A B} (r : Res A) (k : A -> M ASt B) s :
  mbind (lift r) k s = match r with Ok a => k a s | Err e => (Err e, s) | Panic m => (Panic m, s) end.
Proof. reflexivity. Qed.

Lemma run_init {B} iv n sh u o (k : unit -> M ASt B) s :
  mbind (initOrUpdatePosition iv n sh u o) k s =
    k tt (st_set (fst s) (FormatPositionPrefixKey (name (snd s)) n) (RecordValue (mk_record sh iv u o)), snd s).
Proof. reflexivity. Qed.

Lemma run_delete {B} n (k : unit -> M ASt B) s :
  mbind (deletePosition n) k s =
    k tt (st_delete (fst s) (FormatPositionPrefixKey (name (snd s)) n), snd s).
Proof. reflexivity. Qed.

Lemma run_update_total {B} s A f (k : unit -> M ASt B) :
  Rep s A ->
  mbind (update_total f) k s =
    match f (a_total A) with
    | Ok t => let a := {| name := name (snd s); valuePerShare := a_value A; totalShares := t |} in
              k tt (st_set (fst s) (formatAccumPrefixKey (name a))
                     (ContentValue {| AccumValue := valuePerShare a; TotalShares := totalShares a |}), a)
    | Err e => (Err e, s)
    | Panic m => (Panic m, s)
    end.
Proof.
  intros (N & V & T & Ct & P). unfold update_total. rewrite mbind_assoc, run_in_store.
  unfold GetAccumulator, get_content. rewrite Ct. cbn [bind totalShares TotalShares AccumValue].
  rewrite mbind_assoc, run_lift. destruct (f (a_total A)) as [t|e|m]; try reflexivity.
  rewrite <- V. unfold mbind, set_total, modify. cbn [fst snd]. rewrite store_receiver_ok by exact N. reflexivity.
Qed.

(** What a run of [op] from a represented state must satisfy: success is a
    rule of the abstract accumulator, an error changes nothing. *)
Definition good_run (A : Abs) (op : aop) (s : ASt) (out : Res payout * ASt) : Prop :=
  match out with
  | (Ok p, s') => exists A', astep A op p A' /\ Rep s' A' /\ name (snd s') = name (snd s)
  | (Err _, s') => s' = s
  | (Panic _, _) => True
  end.

Ltac position_case R n :=
  match goal with
  | R : Rep ?s ?A |- _ =>
      destruct (a_pos A !! n) as [r|] eqn:Pos;
      [ pose proof (proj2 (Rep_position s A n r R) Pos) as GP
      | pose proof (Rep_no_position s A n R Pos) as GP ]
  end.

Lemma good_set A op s n r f p :
  Rep s A ->
  (forall t, f (a_total A) = Ok t ->
     astep A op p {| a_value := a_value A; a_total := t; a_pos := <[n:=r]> (a_pos A) |}) ->
  (forall e, f (a_total A) <> Err e) ->
  good_run A op s
    (mbind (update_total f) (fun _ => ret p)
       (st_set (fst s) (FormatPositionPrefixKey (name (snd s)) n) (RecordValue r), snd s)).
Proof.
  intros R Hs Hn. rewrite (run_update_total _ _ f _ (Rep_set_position s A n r R)).
  cbn [a_total a_value]. destruct (f (a_total A)) as [t|e|m] eqn:E; [|now destruct (Hn e)|exact I].
  eexists. split; [now apply Hs|]. cbn [fst snd name].
  split; [|reflexivity].
  exact (Rep_content _ _ {| name := name (snd s); valuePerShare := a_value A; totalShares := t |}
           (Rep_set_position s A n r R) eq_refl).
Qed.

Lemma new_good A n sh iv o s : Rep s A -> good_run A (ANew n sh iv o) s (run_op (ANew n sh iv o) s).
Proof.
  intros R. cbn [run_op]. unfold NewPositionIntervalAccumulation.
  rewrite !mbind_assoc, run_lift. cbn [validate]. rewrite mbind_assoc, run_init.
  apply good_set; [exact R| |].
  - intros t Ht. apply dec_Add_exact in Ht as ->. constructor.
  - intros e. apply dec_Add_noerr.
Qed.

Lemma add_good A amt s : Rep s A -> good_run A (AAdd amt) s (run_op (AAdd amt) s).
Proof.
  intros R. pose proof R as (N & V & T & Ct & P). cbn [run_op]. unfold AddToAccumulator.
  rewrite mbind_assoc. change (mbind receiver ?k s) with (k (snd s) s). cbv beta.
  rewrite mbind_assoc, run_lift.
  destruct (dc_Add (valuePerShare (snd s)) amt) as [v|e|m] eqn:E; [|reflexivity|exact I].
  unfold mbind at 1, set_value, modify. unfold mbind at 1. rewrite store_receiver_ok by exact N.
  exists {| a_value := v; a_total := a_total A; a_pos := a_pos A |}. split; [|split; [|reflexivity]].
  - constructor. intros d. rewrite <- V. now apply dc_Add_exact.
  - rewrite <- T. exact (Rep_content s A {| name := name (snd s); valuePerShare := v;
      totalShares := totalShares (snd s) |} R eq_refl).
Qed.

Lemma Rep_rewards s A r rw : Rep s A -> GetTotalRewards (snd s) r = Ok rw -> accrued (a_value A) r rw.
Proof. intros (_ & <- & _). apply GetTotalRewards_accrued. Qed.

Lemma add_to_good A n x iv s : Rep s A -> good_run A (AAddTo n x iv) s (run_op (AAddTo n x iv) s).
Proof.
  intros R. cbn [run_op]. unfold AddToPositionIntervalAccumulation.
  destruct (Z.gtb_spec x 0) as [X|X]; cbn [negb]; [|reflexivity].
  rewrite mbind_assoc, run_in_store. position_case R n; rewrite GP; [|reflexivity].
  rewrite mbind_assoc, run_in_store.
  destruct (GetTotalRewards (snd s) r) as [rw|e|m] eqn:Rw; [|reflexivity|exact I].
  apply (Rep_rewards s A r rw R) in Rw as Acc.
  rewrite mbind_assoc, run_in_store. unfold GetPositionSize. rewrite GP. cbn [bind].
  rewrite mbind_assoc, run_lift. destruct (dec_Add (NumShares r) x) as [sh|e|m] eqn:E; [|reflexivity|exact I].
  apply dec_Add_exact in E as ->. rewrite mbind_assoc, run_init. apply good_set; [exact R| |].
  - intros t Ht. apply dec_Add_exact in Ht as ->. econstructor; eauto; lia.
  - intros e. apply dec_Add_noerr.
Qed.

Lemma remove_good A n x iv s : Rep s A -> good_run A (ARemove n x iv) s (run_op (ARemove n x iv) s).
Proof.
  intros R. cbn [run_op]. unfold RemoveFromPositionIntervalAccumulation.
  destruct (Z.gtb_spec x 0) as [X|X]; cbn [negb]; [|reflexivity].
  rewrite mbind_assoc, run_in_store. position_case R n; rewrite GP; [|reflexivity].
  destruct (Z.gtb_spec x (NumShares r)) as [G|G]; [reflexivity|].
  rewrite mbind_assoc, run_in_store.
  destruct (GetTotalRewards (snd s) r) as [rw|e|m] eqn:Rw; [|reflexivity|exact I].
  apply (Rep_rewards s A r rw R) in Rw as Acc.
  rewrite mbind_assoc, run_in_store. unfold GetPositionSize. rewrite GP. cbn [bind].
  rewrite mbind_assoc, run_lift. destruct (dec_Sub (NumShares r) x) as [sh|e|m] eqn:E; [|reflexivity|exact I].
  apply dec_Sub_exact in E as ->. rewrite mbind_assoc, run_init. apply good_set; [exact R| |].
  - intros t Ht. apply dec_Sub_exact in Ht as ->. econstructor; eauto; lia.
  - intros e. apply dec_Sub_noerr.
Qed.

Lemma set_interval_good A n iv s :
  Rep s A -> good_run A (ASetInterval n iv) s (run_op (ASetInterval n iv) s).
Proof.
  intros R. cbn [run_op]. unfold SetPositionIntervalAccumulation.
  rewrite mbind_assoc, run_in_store. position_case R n; rewrite GP; [|reflexivity].
  rewrite run_init. eexists. split; [econstructor; exact Pos|].
  split; [|reflexivity]. apply (Rep_set_position s A n _ R).
Qed.

Lemma unclaimed_good A n amt s :
  Rep s A -> good_run A (AUnclaimed n amt) s (run_op (AUnclaimed n amt) s).
Proof.
  intros R. cbn [run_op]. unfold AddToUnclaimedRewards.
  rewrite mbind_assoc, run_in_store. position_case R n; rewrite GP; [|reflexivity].
  destruct (dc_IsAnyNegative amt) eqn:Ng; [reflexivity|].
  rewrite mbind_assoc, run_lift.
  destruct (dc_Add (UnclaimedRewardsTotal r) amt) as [u|e|m] eqn:E; [|reflexivity|exact I].
  rewrite run_init. eexists. split; [|split; [apply (Rep_set_position s A n _ R)|reflexivity]].
  apply step_unclaimed; [exact Pos| |].
  - now apply dc_IsAnyNegative_spec.
  - intros d. now apply dc_Add_exact.
Qed.

(** The three outcomes of a claim. *)
Lemma claim_run A n s :
  Rep s A ->
  (exists r rw c dust s', a_pos A !! n = Some r /\ accrued (a_value A) r rw /\
     (forall d, 0 <= AmountOf rw d) /\
     (forall d, CoinsAmountOf c d * OneDec + AmountOf dust d = AmountOf rw d) /\
     ClaimRewards n s = (Ok (c, dust), s') /\ name (snd s') = name (snd s) /\
     totalShares (snd s') = totalShares (snd s) /\
     Rep s' {| a_value := a_value A; a_total := a_total A;
         a_pos := if NumShares r =? 0 then delete n (a_pos A)
                  else <[n := mk_record (NumShares r) (a_value A) NewDecCoins (RecordOptions r)]> (a_pos A) |}) \/
  (exists e, ClaimRewards n s = (Err e, s)) \/ (exists m, ClaimRewards n s = (Panic m, s)).
Proof.
  intros R. unfold ClaimRewards. rewrite run_in_store. position_case R n; rewrite GP; [|eauto].
  rewrite run_in_store. destruct (GetTotalRewards (snd s) r) as [rw|e|m] eqn:Rw; [|eauto|eauto].
  apply (Rep_rewards s A r rw R) in Rw as Acc.
  rewrite run_lift. destruct (dc_TruncateDecimal rw) as [[c dust]|e|m] eqn:E; [|eauto|eauto].
  left. pose proof R as (_ & V & _).
  assert (Tr : forall d, 0 <= AmountOf rw d /\ CoinsAmountOf c d * OneDec + AmountOf dust d = AmountOf rw d).
  { intros d. destruct (dc_Truncate_exact _ _ _ d E) as (P & -> & ->). split; [exact P|].
    pose proof (Z.div_mod (AmountOf rw d) OneDec ltac:(discriminate)). lia. }
  exists r, rw, c, dust. destruct (NumShares r =? 0) eqn:Z0.
  - exists (st_delete (fst s) (FormatPositionPrefixKey (name (snd s)) n), snd s).
    split; [reflexivity|]. split; [exact Acc|]. split; [intros d; apply Tr|]. split; [intros d; apply Tr|].
    do 3 (split; [reflexivity|]). exact (Rep_delete_position s A n R).
  - exists (st_set (fst s) (FormatPositionPrefixKey (name (snd s)) n)
       (RecordValue (mk_record (NumShares r) (valuePerShare (snd s)) NewDecCoins (RecordOptions r))), snd s).
    pose proof (Rep_set_position s A n (mk_record (NumShares r) (valuePerShare (snd s)) NewDecCoins (RecordOptions r)) R) as R'.
    split; [reflexivity|]. split; [exact Acc|]. split; [intros d; apply Tr|]. split; [intros d; apply Tr|].
    do 3 (split; [reflexivity|]). rewrite V in R' |- *. exact R'.
Qed.

Lemma claim_good A n s : Rep s A -> good_run A (AClaim n) s (run_op (AClaim n) s).
Proof.
  intros R. cbn [run_op].
  destruct (claim_run A n s R) as [(r & rw & c & dust & s' & Pos & Acc & Nn & Tr & E & Nm & _ & R')|[[e E]|[m E]]];
    unfold mbind; rewrite E; [|reflexivity|exact I].
  eexists. split; [|split; [exact R'|exact Nm]]. econstructor; eauto.
Qed.

Lemma delete_good A n s : Rep s A -> good_run A (ADelete n) s (run_op (ADelete n) s).
Proof.
  intros R. cbn [run_op]. unfold DeletePosition. rewrite mbind_assoc, run_in_store.
  destruct (claim_run A n s R) as [(r & rw & c & dust & s1 & Pos & Acc & Nn & Tr & E & Nm & Tt & R1)|[[e E]|[m E]]].
  2, 3: destruct (GetPosition (snd s) (fst s) n) as [r|e'|m']; try reflexivity; try exact I;
    rewrite mbind_assoc; unfold mbind at 1; rewrite E; cbn [good_run]; auto.
  rewrite (proj2 (Rep_position s A n r R) Pos). rewrite mbind_assoc. unfold mbind at 1. rewrite E.
  rewrite mbind_assoc, run_delete. pose proof (Rep_delete_position s1 _ n R1) as R2.
  cbn [a_value a_total a_pos] in R2.
  replace (delete n _) with (delete n (a_pos A)) in R2
    by (destruct (NumShares r =? 0); [now rewrite delete_delete_eq | now rewrite delete_insert_eq]).
  set (s2 := (st_delete _ _, _)) in *.
  rewrite mbind_assoc. change (mbind receiver ?k s2) with (k (snd s2) s2). cbv beta.
  rewrite mbind_assoc, run_lift. pose proof R2 as (N2 & V2 & T2 & _ & _).
  cbn [a_value a_total] in V2, T2.
  destruct (dec_Sub (totalShares (snd s2)) (NumShares r)) as [t|e|m] eqn:Et;
    [|now apply dec_Sub_noerr in Et|exact I].
  apply dec_Sub_exact in Et as ->. rewrite T2.
  rewrite mbind_assoc. unfold mbind at 1, set_total, modify.
  rewrite mbind_assoc. unfold mbind at 1. rewrite store_receiver_ok by exact N2.
  rewrite mbind_assoc, run_lift.
  destruct (NewDecCoinsFromCoins c) as [rc|e|m] eqn:Ec; [|now apply FromCoins_noerr in Ec|exact I].
  rewrite run_lift. destruct (dc_Add rc dust) as [out|e|m] eqn:Eo; [|now apply dc_Add_noerr in Eo|exact I].
  eexists. split; [|split; [|exact Nm]].
  - eapply step_delete; [exact Pos | exact Acc | exact Nn |]. intros d.
    cbn [p_amount]. rewrite (dc_Add_exact _ _ _ d Eo), (FromCoins_exact _ _ d Ec). apply Tr.
  - rewrite <- V2. exact (Rep_content s2 _ {| name := name (snd s2); valuePerShare := valuePerShare (snd s2);
      totalShares := a_total A - NumShares r |} R2 eq_refl).
Qed.

Lemma run_op_good A op s : Rep s A -> good_run A op s (run_op op s).
Proof.
  destruct op; [apply add_good | apply new_good | apply add_to_good | apply remove_good
    | apply set_interval_good | apply claim_good | apply delete_good | apply unclaimed_good].
Qed.

(** ** Keeping the books *)

Definition claimable (d : string) (v : DecCoins) (r : PosRecord) : Z :=
  AmountOf (UnclaimedRewardsTotal r) d * OneDec +
  (AmountOf v d - AmountOf (AccumValuePerShare r) d) * NumShares r.

Definition owed (d : string) (A : Abs) : Z := msum (claimable d (a_value A)) (a_pos A).

Definition wf (A : Abs) : Prop :=
  a_total A = msum NumShares (a_pos A) /\
  forall n r, a_pos A !! n = Some r ->
    0 <= NumShares r /\
    forall d, AmountOf (AccumValuePerShare r) d <= AmountOf (a_value A) d /\ 0 <= AmountOf (UnclaimedRewardsTotal r) d.

(** Uses in which every position accrues the whole value of the accumulator:
    an interval value is the current value, a new position has a new name, and
    nothing negative is added. *)
Definition plain (v : DecCoins) (free : string -> Prop) (op : aop) : Prop :=
  match op with
  | AAdd amt => forall d, 0 <= AmountOf amt d
  | ANew n sh iv _ => free n /\ 0 <= sh /\ forall d, AmountOf iv d = AmountOf v d
  | AAddTo _ _ iv | ARemove _ _ iv => forall d, AmountOf iv d = AmountOf v d
  | ASetInterval _ _ => False
  | _ => True
  end.

(** What an operation makes claimable, in units of [10^-36], when [T] is the
    total number of shares. *)
Definition inflow (d : string) (T : Z) (op : aop) : Z :=
  match op with
  | AAdd amt => AmountOf amt d * T
  | AUnclaimed _ amt => AmountOf amt d * OneDec
  | _ => 0
  end.

Lemma accrued_nonneg v r rw d :
  accrued v r rw -> 0 <= NumShares r -> 0 <= AmountOf (UnclaimedRewardsTotal r) d -> 0 <= AmountOf rw d.
Proof.
  intros Acc Sh U. destruct (Acc d) as (St & N & _).
  assert (0 <= (AmountOf v d - AmountOf (AccumValuePerShare r) d) * NumShares r) by nia.
  assert (0 < OneDec) by reflexivity. nia.
Qed.

Lemma wf_insert A n r T :
  wf A -> 0 <= NumShares r ->
  (forall d, AmountOf (AccumValuePerShare r) d <= AmountOf (a_value A) d /\ 0 <= AmountOf (UnclaimedRewardsTotal r) d) ->
  T = msum NumShares (<[n:=r]> (a_pos A)) ->
  wf {| a_value := a_value A; a_total := T; a_pos := <[n:=r]> (a_pos A) |}.
Proof.
  intros [_ W] Sh Hd E. split; [exact E|]. cbn [a_pos a_value]. intros m q Hm.
  destruct (decide (n = m)) as [<-|D].
  - rewrite lookup_insert_eq in Hm. injection Hm as <-. auto.
  - rewrite lookup_insert_ne in Hm by exact D. exact (W m q Hm).
Qed.

Lemma wf_delete A n T :
  wf A -> T = msum NumShares (delete n (a_pos A)) ->
  wf {| a_value := a_value A; a_total := T; a_pos := delete n (a_pos A) |}.
Proof.
  intros [_ W] E. split; [exact E|]. cbn [a_pos a_value]. intros m q Hm.
  apply lookup_delete_Some in Hm as [_ Hm]. exact (W m q Hm).
Qed.

Lemma books_exact x : x = 0 -> 2 * Z.abs x <= OneDec.
Proof. intros ->. discriminate. Qed.

Definition set_pos (A : Abs) (T : Z) (n : string) (r : PosRecord) : Abs :=
  {| a_value := a_value A; a_total := T; a_pos := <[n:=r]> (a_pos A) |}.

Lemma owed_update d A n r r' T :
  a_pos A !! n = Some r ->
  owed d (set_pos A T n r') = owed d A - claimable d (a_value A) r + claimable d (a_value A) r'.
Proof. intros Pos. unfold owed. cbn [set_pos a_value a_pos]. exact (msum_update _ _ _ r r' Pos). Qed.

Lemma owed_delete d A n r T :
  a_pos A !! n = Some r ->
  owed d {| a_value := a_value A; a_total := T; a_pos := delete n (a_pos A) |} =
    owed d A - claimable d (a_value A) r.
Proof. intros Pos. unfold owed. cbn [a_value a_pos]. exact (msum_delete _ _ _ r Pos). Qed.

(** A position of [wf] whose shares become [sh] and which restarts from the
    current value with [u] set aside. *)
Lemma wf_restart A n r sh start u o T :
  wf A -> a_pos A !! n = Some r -> 0 <= sh ->
  (forall d, AmountOf start d <= AmountOf (a_value A) d) -> (forall d, 0 <= AmountOf u d) ->
  T = a_total A - NumShares r + sh ->
  wf (set_pos A T n (mk_record sh start u o)).
Proof.
  intros W Pos Sh St U E. apply wf_insert; cbn [mk_record NumShares AccumValuePerShare UnclaimedRewardsTotal]; auto.
  rewrite (msum_update _ _ _ r _ Pos). cbn [mk_record NumShares]. destruct W as [Tot _]. lia.
Qed.

(** Adding or removing shares: what was accrued is set aside. *)
Lemma books_restart A n r rw sh iv T :
  wf A -> a_pos A !! n = Some r -> accrued (a_value A) r rw -> 0 <= sh ->
  (forall d, AmountOf iv d = AmountOf (a_value A) d) -> T = a_total A - NumShares r + sh ->
  let A' := set_pos A T n (mk_record sh iv rw (RecordOptions r)) in
  wf A' /\ forall d, 2 * Z.abs (owed d A' + 0 * OneDec - owed d A - 0) <= OneDec.
Proof.
  intros W Pos Acc Sh Iv E A'. destruct (proj2 W n r Pos) as [Sr Hd]. split.
  - eapply wf_restart; eauto; [intros d; rewrite Iv; lia|].
    intros d. apply (accrued_nonneg _ _ _ _ Acc); auto; apply Hd.
  - intros d. unfold A'. rewrite (owed_update d A n r _ _ Pos).
    unfold claimable. cbn [mk_record NumShares AccumValuePerShare UnclaimedRewardsTotal].
    rewrite Iv. destruct (Acc d) as (_ & N & _). lia.
Qed.

Lemma books_claim A n r rw p :
  wf A -> a_pos A !! n = Some r -> accrued (a_value A) r rw -> (forall d, p_amount p d = AmountOf rw d) ->
  let A' := {| a_value := a_value A; a_total := a_total A;
       a_pos := if NumShares r =? 0 then delete n (a_pos A)
                else <[n := mk_record (NumShares r) (a_value A) NewDecCoins (RecordOptions r)]> (a_pos A) |} in
  wf A' /\ forall d, 2 * Z.abs (owed d A' + p_amount p d * OneDec - owed d A - 0) <= OneDec.
Proof.
  intros W Pos Acc Hp A'. destruct (proj2 W n r Pos) as [Sh Hd]. pose proof W as [Tot _]. subst A'.
  destruct (Z.eqb_spec (NumShares r) 0) as [Z0|Z0].
  - split; [apply wf_delete; auto; rewrite (msum_delete _ _ _ r Pos); lia|].
    intros d. rewrite (owed_delete d A n r _ Pos), Hp. unfold claimable.
    destruct (Acc d) as (_ & _ & Eq). rewrite (Eq Z0), Z0. apply books_exact. ring.
  - change (Build_Abs _ _ _) with
      (set_pos A (a_total A) n (mk_record (NumShares r) (a_value A) NewDecCoins (RecordOptions r))).
    split; [eapply wf_restart; eauto; [lia | intros d; rewrite AmountOf_empty; lia | lia]|].
    intros d. rewrite (owed_update d A n r _ _ Pos), Hp. unfold claimable.
    cbn [mk_record NumShares AccumValuePerShare UnclaimedRewardsTotal].
    rewrite AmountOf_empty. destruct (Acc d) as (_ & N & _). lia.
Qed.

Lemma books_add A amt v :
  wf A -> (forall d, 0 <= AmountOf amt d) ->
  (forall d, AmountOf v d = AmountOf (a_value A) d + AmountOf amt d) ->
  let A' := {| a_value := v; a_total := a_total A; a_pos := a_pos A |} in
  wf A' /\ forall d, 2 * Z.abs (owed d A' + 0 * OneDec - owed d A - AmountOf amt d * a_total A) <= OneDec.
Proof.
  intros W Pl Hv A'. pose proof W as [Tot Wp]. split.
  - split; [exact Tot|]. cbn [a_pos a_value]. intros n r Hn. destruct (Wp n r Hn) as [Sh Hd].
    split; [exact Sh|]. intros d. destruct (Hd d). specialize (Pl d). rewrite Hv. lia.
  - intros d. unfold owed. cbn [a_value a_pos A'].
    rewrite (msum_plus (claimable d (a_value A)) (fun r => AmountOf amt d * NumShares r) (claimable d v)).
    + rewrite msum_scale, Tot. apply books_exact. ring.
    + intros n r _. unfold claimable. rewrite Hv. ring.
Qed.

(** One operation keeps [wf] and the books, up to half a unit of the last
    decimal. *)
Lemma astep_books A op p A' :
  wf A -> plain (a_value A) (fun n => a_pos A !! n = None) op -> astep A op p A' ->
  wf A' /\ forall d, 2 * Z.abs (owed d A' + p_amount p d * OneDec - owed d A - inflow d (a_total A) op) <= OneDec.
Proof.
  intros W Pl St. pose proof W as [Tot Wp].
  destruct St as [amt v Hv | n sh iv o | n x iv r rw Pos X Acc | n x iv r rw Pos X Acc | n iv r Pos
    | n r rw p Pos Acc Nn Hp | n r rw p Pos Acc Nn Hp | n amt r u Pos Ha Hu]; cbn [plain] in Pl; cbn [inflow].
  - now apply books_add.
  - destruct Pl as (Fr & Sh & Iv). split.
    + apply wf_insert; cbn; auto; [intros d; rewrite Iv, AmountOf_empty; lia|].
      rewrite msum_insert by exact Fr. cbn. lia.
    + intros d. unfold owed. cbn [a_value a_pos]. rewrite msum_insert by exact Fr.
      unfold claimable at 1. cbn. rewrite Iv, AmountOf_empty. apply books_exact. ring.
  - destruct (Wp n r Pos). eapply books_restart; eauto; lia.
  - eapply books_restart; eauto; lia.
  - destruct Pl.
  - now apply books_claim with rw.
  - split; [apply wf_delete; auto; rewrite (msum_delete _ _ _ r Pos); lia|].
    intros d. rewrite (owed_delete d A n r _ Pos), Hp. unfold claimable. destruct (Acc d) as (_ & N & _). lia.
  - destruct (Wp n r Pos) as [Sh Hd]. change (Build_Abs _ _ _) with
      (set_pos A (a_total A) n (mk_record (NumShares r) (AccumValuePerShare r) u (RecordOptions r))). split.
    + eapply wf_restart; eauto; [intros d; apply Hd| |lia].
      intros d. rewrite Hu. specialize (Ha d). destruct (Hd d). lia.
    + intros d. rewrite (owed_update d A n r _ _ Pos). unfold claimable. cbn. rewrite Hu.
      apply books_exact. ring.
Qed.

(** ** Sequences of operations *)

Record event : Type := { e_paid : payout; e_inflow : string -> Z }.

(** Successful plain operations, one after another, on the same object. *)
Inductive runs : ASt -> list event -> ASt -> Prop :=
| runs_nil s : runs s [] s
| runs_cons s op p s' tr s'' :
    plain (valuePerShare (snd s)) (fun n => HasPosition (snd s) (fst s) n = false) op ->
    run_op op s = (Ok p, s') -> runs s' tr s'' ->
    runs s ({| e_paid := p; e_inflow := fun d => inflow d (totalShares (snd s)) op |} :: tr) s''.

Definition paid_total (d : string) (tr : list event) : Z := zsum (map (fun e => p_amount (e_paid e) d) tr).
Definition inflow_total (d : string) (tr : list event) : Z := zsum (map (fun e => e_inflow e d) tr).

Lemma Rep_has s A n : Rep s A -> HasPosition (snd s) (fst s) n = false -> a_pos A !! n = None.
Proof.
  intros (_ & _ & _ & _ & P). unfold HasPosition, has. rewrite P. destruct (a_pos A !! n); [discriminate | auto].
Qed.

Lemma runs_books s tr s' :
  runs s tr s' -> forall A, Rep s A -> wf A ->
  exists A', Rep s' A' /\ wf A' /\
    forall d, 2 * Z.abs (owed d A' + paid_total d tr * OneDec - owed d A - inflow_total d tr)
              <= Z.of_nat (length tr) * OneDec.
Proof.
  induction 1 as [s|s op p s1 tr s2 Pl E _ IH]; intros A R W.
  - exists A. split; [exact R|]. split; [exact W|]. intros d. cbn.
    replace (_ - _) with 0 by ring. reflexivity.
  - pose proof (run_op_good A op s R) as G. rewrite E in G. destruct G as (A1 & St & R1 & _).
    pose proof R as (_ & V & T & _).
    assert (Pl' : plain (a_value A) (fun n => a_pos A !! n = None) op).
    { rewrite V in Pl. destruct op; cbn [plain] in *; auto. destruct Pl as (F & Pl).
      split; [exact (Rep_has s A n R F) | exact Pl]. }
    destruct (astep_books A op p A1 W Pl' St) as [W1 B1].
    destruct (IH A1 R1 W1) as (A2 & R2 & W2 & B2). exists A2. split; [exact R2|]. split; [exact W2|].
    intros d. specialize (B1 d). specialize (B2 d). unfold paid_total, inflow_total in *.
    cbn [map e_paid e_inflow zsum fold_right length]. rewrite T. unfold zsum in *. lia.
Qed.

(** A new accumulator with no positions left over under its name. *)
Lemma make_Rep nm st st' a :
  (forall n, st_get st (FormatPositionPrefixKey nm n) = None) ->
  MakeAccumulator nm st = (Ok tt, st') -> GetAccumulator st' nm = Ok a ->
  exists A, Rep (st', a) A /\ wf A /\ forall d, owed d A = 0.
Proof.
  intros Fr. unfold MakeAccumulator, mbind, get, setAccumulator.
  destruct (has st (formatAccumPrefixKey nm)); [discriminate|].
  destruct (contains nm KeySeparator) eqn:N; [discriminate|].
  unfold modify. intros E G. injection E as <-. unfold GetAccumulator, get_content in G.
  rewrite get_set_eq in G. apply Ok_inj in G as <-.
  exists {| a_value := NewDecCoins; a_total := 0; a_pos := ∅ |}. split; [|split].
  - repeat split; cbn [fst snd name valuePerShare totalShares a_value a_total a_pos]; auto.
    + apply get_set_eq.
    + intros n. rewrite get_set_ne by apply accum_key_not_position. now rewrite Fr, lookup_empty.
  - split; [cbn [a_total a_pos]; now rewrite msum_empty|].
    intros n r Hn. cbn [a_pos] in Hn. now rewrite lookup_empty in Hn.
  - intros d. unfold owed. apply msum_empty.
Qed.

Lemma owed_nonneg A d : wf A -> 0 <= owed d A.
Proof.
  intros [_ W]. apply msum_nonneg. intros n r Hn. destruct (W n r Hn) as [Sh Hd]. destruct (Hd d).
  unfold claimable. assert (0 < OneDec) by reflexivity. nia.
Qed.

(** ** Theorems *)

(** C4: on an up-to-date object every operation refines the abstract
    accumulator: when it succeeds, the store, the object and what is handed
    out are those of the corresponding rule of [astep] (positions rewritten
    with what they accrued, rounded to nearest; totals changed by exactly the
    shares), and the object is up to date again; when it returns an error,
    nothing has changed. *)
Theorem accum_refines (A : Abs) (op : aop) (s : ASt) :
  Rep s A ->
  match run_op op s with
  | (Ok p, s') => exists A', astep A op p A' /\ Rep s' A' /\ name (snd s') = name (snd s)
  | (Err _, s') => s' = s
  | (Panic _, _) => True
  end.
Proof. apply run_op_good. Qed.

(** C5: from a newly made accumulator, after any sequence of successful
    operations that are [plain] (interval values are the current value of the
    accumulator, new positions have new names, nothing negative is added, and no
    interval is set apart), the total number of shares is the sum of the shares of
    the positions and the books balance: what was handed out plus what is still
    owed is what was added (value per share times total shares at that time), up to
    half a unit of the last decimal per operation, in either direction.  So claims
    exceed what was added by at most half a unit per operation. *)
Theorem accum_solvent (nm : string) (st st' : St) (a : AccumulatorObject) (tr : list event) (s' : ASt) :
  (forall n, st_get st (FormatPositionPrefixKey nm n) = None) ->
  MakeAccumulator nm st = (Ok tt, st') -> GetAccumulator st' nm = Ok a ->
  runs (st', a) tr s' ->
  exists A, Rep s' A /\ totalShares (snd s') = msum NumShares (a_pos A) /\
    forall d, 0 <= owed d A /\
      2 * Z.abs (owed d A + paid_total d tr * OneDec - inflow_total d tr) <= Z.of_nat (length tr) * OneDec /\
      2 * (paid_total d tr * OneDec) <= 2 * inflow_total d tr + Z.of_nat (length tr) * OneDec.
Proof.
  intros Fr Mk Gt Rn. destruct (make_Rep nm st st' a Fr Mk Gt) as (A0 & R0 & W0 & O0).
  destruct (runs_books _ _ _ Rn A0 R0 W0) as (A & R & W & B). exists A. split; [exact R|].
  pose proof R as (_ & _ & T & _). split; [rewrite T; apply W|]. intros d.
  specialize (B d). rewrite O0 in B. pose proof (owed_nonneg A d W). lia.
Qed.

End Correct.

(** ** Witnesses and executions, with the reference instances *)

#[local] Instance ex_kv : KVStore (@StoreValue map_coins) := assoc_store.
#[local] Instance ex_kv_spec : KVStoreSpec ex_kv := assoc_store_spec.

Definition ex_store : Type := @St _ ex_kv.
Definition ex_empty : ex_store := st_empty.
Definition ex_made : ex_store := snd (MakeAccumulator "pool" ex_empty).
Definition ex_object (st : ex_store) : AccumulatorObject :=
  match GetAccumulator st "pool" with
  | Ok a => a
  | _ => {| name := ""; valuePerShare := NewDecCoins; totalShares := 0 |}
  end.
Definition ex_start : ASt := (ex_made, ex_object ex_made).
Definition after (op : aop) (s : ASt) : ASt := snd (run_op op s).
Definition paid (op : aop) (s : ASt) : payout :=
  match fst (run_op op s) with Ok p => p | _ => PNone end.

Lemma run_op_ok op s : is_ok (fst (run_op op s)) = true -> run_op op s = (Ok (paid op s), after op s).
Proof. unfold paid, after. destruct (run_op op s) as [[p|e|m] s']; cbn; congruence. Qed.

Definition ex_event (op : aop) (s : ASt) : event :=
  {| e_paid := paid op s; e_inflow := fun d => inflow d (totalShares (snd s)) op |}.

(** Alice opens a position of 10 shares, 3 osmo per share are added, and she
    claims. *)
Definition ex_s1 : ASt := after (ANew "alice" (10 * OneDec) NewDecCoins None) ex_start.
Definition ex_s2 : ASt := after (AAdd (coin "osmo" (3 * OneDec))) ex_s1.
Definition ex_s3 : ASt := after (AClaim "alice") ex_s2.

Lemma coin_nonneg d x e : 0 <= x -> 0 <= AmountOf (coin d x) e.
Proof.
  intros H. change (AmountOf (coin d x) e) with (amt (coin d x) e). unfold amt, coin.
  destruct (decide (d = e)) as [<-|N]; [rewrite lookup_singleton_eq | rewrite lookup_singleton_ne by exact N]; cbn; lia.
Qed.

Lemma accum_refines_witness :
  exists A, Rep ex_start A /\
    match run_op (ANew "alice" (10 * OneDec) NewDecCoins None) ex_start with
    | (Ok p, s') => exists A', astep A (ANew "alice" (10 * OneDec) NewDecCoins None) p A' /\ Rep s' A' /\
                      name (snd s') = name (snd ex_start)
    | (Err _, s') => s' = ex_start
    | (Panic _, _) => True
    end.
Proof.
  destruct (make_Rep "pool" ex_empty ex_made (ex_object ex_made)) as (A & R & _); try reflexivity.
  exists A. split; [exact R|].
  pose proof (accum_refines (S := sdk_ref) (C := map_coins) (K := ex_kv) A
    (ANew "alice" (10 * OneDec) NewDecCoins None) ex_start R) as H.
  exact H.
Defined.

Lemma accum_solvent_witness :
  exists tr A, runs ex_start tr ex_s3 /\ paid_total "osmo" tr = 30 * OneDec /\ Rep ex_s3 A /\
    forall d, 0 <= owed d A /\
      2 * Z.abs (owed d A + paid_total d tr * OneDec - inflow_total d tr) <= Z.of_nat (length tr) * OneDec /\
      2 * (paid_total d tr * OneDec) <= 2 * inflow_total d tr + Z.of_nat (length tr) * OneDec.
Proof.
  pose (e1 := ex_event (ANew "alice" (10 * OneDec) NewDecCoins None) ex_start).
  pose (e2 := ex_event (AAdd (coin "osmo" (3 * OneDec))) ex_s1). pose (e3 := ex_event (AClaim "alice") ex_s2).
  assert (R3 : runs ex_s2 [e3] ex_s3).
  { apply (runs_cons ex_s2 (AClaim "alice") (paid (AClaim "alice") ex_s2) ex_s3 [] ex_s3 I);
      [apply run_op_ok; vm_compute; reflexivity | constructor]. }
  assert (R2 : runs ex_s1 [e2; e3] ex_s3).
  { apply (runs_cons ex_s1 (AAdd (coin "osmo" (3 * OneDec))) (paid (AAdd (coin "osmo" (3 * OneDec))) ex_s1)
      ex_s2 [e3] ex_s3); [intros d; apply coin_nonneg; discriminate | apply run_op_ok; vm_compute; reflexivity | exact R3]. }
  assert (Rn : runs ex_start [e1; e2; e3] ex_s3).
  { apply (runs_cons ex_start (ANew "alice" (10 * OneDec) NewDecCoins None)
      (paid (ANew "alice" (10 * OneDec) NewDecCoins None) ex_start) ex_s1 [e2; e3] ex_s3);
      [|apply run_op_ok; vm_compute; reflexivity | exact R2].
    split; [vm_compute; reflexivity|]. split; [discriminate|]. intros d. reflexivity. }
  assert (Fr : forall n, st_get ex_empty (FormatPositionPrefixKey "pool" n) = None) by reflexivity.
  assert (Mk : MakeAccumulator "pool" ex_empty = (Ok tt, ex_made)) by reflexivity.
  assert (Gt : GetAccumulator ex_made "pool" = Ok (ex_object ex_made)) by reflexivity.
  pose proof (accum_solvent (S := sdk_ref) (C := map_coins) (K := ex_kv) "pool" ex_empty ex_made
    (ex_object ex_made) [e1; e2; e3] ex_s3 Fr Mk Gt Rn) as (A & R & _ & B).
  exists [e1; e2; e3], A. split; [exact Rn|]. split; [vm_compute; reflexivity|]. split; [exact R | exact B].
Defined.
