(* ===== verification/CLDirection.v ===== *)
(** * Concentrated liquidity: ticks and the direction of a swap

    What the bookkeeping of liquidity needs from the price arithmetic: a tick
    computed from a square-root price is the one whose bucket contains the
    price, and a step of a swap moves the price in the direction of the swap
    or not at all.  The lemmas are about successful runs and put no bound on
    the amounts. *)

From Stdlib Require Import ZArith Lia List Bool.
From S2P Require Import Prelude GoBig BigInt BigDec MonoSqrt SdkMath CLMath CLTick Store CLKeys SwapStrategy SwapStep.

(** ** Square-root prices of ticks *)

Lemma tick_sqrt_price_le t u :
  MinInitializedTickV2 <= t -> t <= u <= MaxTick -> tick_sqrt_price t <= tick_sqrt_price u.
Proof.
  intros Ht Hu. unfold tick_sqrt_price.
  pose proof (tick_price_le t u Ht ltac:(lia)) as P.
  pose proof (tick_price_bounds t ltac:(lia)) as Bt.
  destruct (Z.leb_spec MinInitializedTick t), (Z.leb_spec MinInitializedTick u); try lia.
  - apply Z.mul_le_mono_nonneg_r; [discriminate|]. apply csqrt_mono; lia.
  - pose proof (tick_price_le t MinInitializedTick Ht ltac:(lia)) as L.
    pose proof (tick_price_le MinInitializedTick u ltac:(vm_compute; discriminate) ltac:(lia)) as U.
    change (tick_price MinInitializedTick) with (10 ^ 24) in L, U.
    pose proof (csqrt_mono (tick_price t * 10 ^ 36) (10 ^ 24 * 10 ^ 36) ltac:(lia) ltac:(lia)) as A.
    change (csqrt (10 ^ 24 * 10 ^ 36)) with (10 ^ 12 * 10 ^ 18) in A.
    pose proof (csqrt_mono (10 ^ 24) (tick_price u) ltac:(lia) ltac:(lia)) as D.
    change (csqrt (10 ^ 24)) with (10 ^ 12) in D. lia.
  - apply csqrt_mono; lia.
Qed.

Lemma tick_sqrt_price_range t :
  MinInitializedTick <= t <= MaxTick -> 10 ^ 30 <= tick_sqrt_price t <= 10 ^ 55.
Proof.
  intros H. assert (V : MinInitializedTickV2 < MinInitializedTick) by reflexivity.
  pose proof (tick_sqrt_price_le MinInitializedTick t ltac:(lia) ltac:(lia)) as A.
  pose proof (tick_sqrt_price_le t MaxTick ltac:(lia) ltac:(lia)) as D.
  assert (E : tick_sqrt_price MinInitializedTick = 10 ^ 30) by (vm_compute; reflexivity).
  assert (F : tick_sqrt_price MaxTick = 10 ^ 55) by (vm_compute; reflexivity).
  rewrite E in A. rewrite F in D. split; assumption.
Qed.

Lemma or_calc_err_inv r s : or_calc_err r = Ok s -> r = Ok s.
Proof. unfold or_calc_err. destruct r; congruence. Qed.

(** The selection among the neighbours of a candidate. *)
Lemma neighbour_sound e e' sp tick (oob : bool) t :
  MinInitializedTickV2 < tick -> tick + 2 <= MaxTick -> (oob = true -> tick = MaxTick - 2) ->
  (sqrtPriceTplus1 <- or_calc_err (TickToSqrtPrice (tick + 1)) ;;
   if GTE sp sqrtPriceTplus1 then
     sqrtPriceTplus2 <- or_calc_err (TickToSqrtPrice (tick + 2)) ;;
     if (negb oob && GTE sp sqrtPriceTplus2) || (oob && GT sp sqrtPriceTplus2)
     then Err e else if Equal sp sqrtPriceTplus2 then Ok (tick + 2) else Ok (tick + 1)
   else
     sqrtPriceT <- or_calc_err (TickToSqrtPrice tick) ;;
     if GTE sp sqrtPriceT then Ok tick else
     sqrtPriceTmin1 <- or_calc_err (TickToSqrtPrice (tick - 1)) ;;
     if LT sp sqrtPriceTmin1 then Err e' else Ok (tick - 1)) = Ok t ->
  tick - 1 <= t <= tick + 2 /\ tick_sqrt_price t <= sp /\ (t < MaxTick -> sp < tick_sqrt_price (t + 1)).
Proof.
  intros Hl Hh Ho H.
  assert (T : forall u s, MinInitializedTickV2 <= u <= MaxTick ->
    or_calc_err (TickToSqrtPrice u) = Ok s -> s = tick_sqrt_price u).
  { intros u s Hu E1. apply or_calc_err_inv in E1. rewrite TickToSqrtPrice_ok in E1 by lia. now apply Ok_inj in E1. }
  inv_bind H. apply T in E; [|lia]. subst v. unfold GTE, GT, LT, Equal in H.
  destruct (Z.geb_spec sp (tick_sqrt_price (tick + 1))) as [G | L]; inv_bind H; apply T in E; try lia; subst v.
  - destruct (Z.eqb_spec sp (tick_sqrt_price (tick + 2))) as [Eq | Ne].
    + case_if_in H; [discriminate|]. apply Ok_inj in H as <-. split; [lia|]. split; [lia|]. intros Hm.
      destruct oob; [specialize (Ho eq_refl); lia|]. cbn in C. destruct (Z.geb_spec sp (tick_sqrt_price (tick + 2))); [discriminate | lia].
    + case_if_in H; [discriminate|]. apply Ok_inj in H as <-. split; [lia|]. split; [lia|]. intros _.
      replace (tick + 1 + 1) with (tick + 2) by lia.
      destruct oob; cbn in C; [destruct (Z.gtb_spec sp (tick_sqrt_price (tick + 2)))
                              |destruct (Z.geb_spec sp (tick_sqrt_price (tick + 2)))]; try discriminate; lia.
  - destruct (Z.geb_spec sp (tick_sqrt_price tick)) as [G | L'].
    + apply Ok_inj in H as <-. split; [lia|]. split; [lia | intros _; exact L].
    + inv_bind H. apply T in E; [|lia]. subst v. case_if_in H; [discriminate|]. b2p. apply Ok_inj in H as <-.
      split; [lia|]. split; [lia|]. intros _. now replace (tick - 1 + 1) with tick by lia.
Qed.

(** A tick is only returned with the bucket that contains the price. *)
Lemma CalculateSqrtPriceToTick_sound sp t :
  CalculateSqrtPriceToTick sp = Ok t ->
  MinCurrentTick - 1 <= t <= MaxTick /\ tick_sqrt_price t <= sp /\ (t < MaxTick -> sp < tick_sqrt_price (t + 1)).
Proof.
  unfold CalculateSqrtPriceToTick. intros H. inv_bind H. inv_bind H.
  destruct (Z.ltb_spec v0 MinCurrentTick); [discriminate|].
  assert (V2 : MinInitializedTickV2 < MinCurrentTick - 1) by reflexivity.
  assert (Hmm : MinCurrentTick < MaxTick - 2) by reflexivity.
  destruct (Z.leb_spec v0 MinInitializedTickV2); [lia|].
  destruct (Z.geb_spec v0 (MaxTick - 1)) as [Clamp | In];
    apply neighbour_sound in H as (R & Lo & Up); try lia; try discriminate; auto;
    (split; [lia | split; [exact Lo | exact Up]]).
Qed.

(** ** Steps *)

Section Direction.
Context {S : SdkMath} {SS : SdkMathSpec S}.
Variables limit spf : Z.
Hypothesis Hspf : 0 <= spf <= 5 * 10 ^ 17.

Lemma oneMinus_direct om : getOneMinusSpreadFactor (fresh limit spf) = Ok om -> om = OneDec - spf.
Proof. rewrite (oneMinus_ok limit spf Hspf). intros H. now apply Ok_inj in H. Qed.

(** Token 0 in: the new price is rounded up, yet not above the current one. *)
Lemma next0_in_le cur l x next :
  10 ^ 30 <= cur -> 10 ^ 12 <= x -> 0 < l ->
  GetNextSqrtPriceFromAmount0InRoundingUp cur (l * precisionReuseSDKDec) x = Ok next -> 0 < next <= cur.
Proof.
  intros Hc Hx Hl H. unfold GetNextSqrtPriceFromAmount0InRoundingUp, IsZero in H.
  destruct (Z.eqb_spec (Z.sgn x) 0); [lia|]. inv_binds.
  apply MulTruncate_iff in E as [_ ->]. apply Add_iff in E0 as [_ ->]. apply MulRoundUp_iff in E1 as [_ ->].
  pose proof sdk_prec_pos as Q. pose proof prec_pos as P.
  assert (Px : 0 <= x * cur) by nia. rewrite (quot_nonneg _ _ Px P) in H.
  pose proof (Z.div_pos _ _ Px P). set (L := l * precisionReuseSDKDec) in *. assert (HL : 0 < L) by (subst L; nia).
  assert (N : 0 < cdiv (L * cur) defaultBigDecPrecisionReuse) by (apply cdiv_pos; nia).
  apply QuoRoundUpMut_iff in H as [_ ->]; [|lia..]. split; [apply cdiv_pos; nia|].
  apply (next0_in_bracket cur L x); lia.
Qed.

Lemma zfo_in_direction cur tgt l rem next amt out ch :
  10 ^ 30 <= cur -> 0 < tgt <= cur -> 0 <= l -> 2 <= rem ->
  zfo_ComputeSwapWithinBucketOutGivenIn (fresh limit spf) cur tgt l rem = Ok (next, amt, out, ch) -> 0 < next <= cur.
Proof.
  intros Hc Ht Hl Hr H. unfold zfo_ComputeSwapWithinBucketOutGivenIn in H.
  rewrite BigDecFromDec_ok, bind_ok in H. inv_bind H. inv_bind H. apply oneMinus_direct in E0 as ->.
  unfold NewBigDecFromDecMulDec in H. inv_bind H.
  assert (Hx : 10 ^ 12 <= rem * (OneDec - spf)) by (unfold OneDec; nia).
  assert (R : 0 < v0 <= cur).
  { unfold GTE in E0. destruct (Z.geb_spec (rem * (OneDec - spf)) v) as [G | L]; [apply Ok_inj in E0; lia|].
    apply CalcAmount0Delta_up_inv in E; [|lia..].
    assert (Pl : 0 < l) by (destruct (Z.eq_dec l 0) as [-> |]; [rewrite amt0_up_zero in E; lia | lia]).
    exact (next0_in_le _ _ _ _ Hc Hx Pl E0). }
  inv_binds. injection H as <- <- <- <-. exact R.
Qed.

Lemma zfo_out_direction cur tgt l rem next out amt ch :
  0 < tgt <= cur -> 0 <= l -> 0 <= rem ->
  zfo_ComputeSwapWithinBucketInGivenOut (fresh limit spf) cur tgt l rem = Ok (next, out, amt, ch) -> 0 < next <= cur.
Proof using Type.
  clear Hspf. intros Ht Hl Hr H. unfold zfo_ComputeSwapWithinBucketInGivenOut in H.
  rewrite BigDecFromDec_ok, bind_ok in H. inv_bind H. inv_bind H.
  assert (R : 0 < v0 <= cur).
  { unfold GTE in E0. destruct (Z.geb_spec (rem * precisionReuseSDKDec) v) as [G | L]; [apply Ok_inj in E0; lia|].
    apply CalcAmount1Delta_down_inv in E; [|lia]. pose proof (amt1_down_bracket l (Z.abs (cur - tgt))) as [A _].
    rewrite <- E in A. pose proof sdk_prec_pos as Q.
    assert (Pl : 0 < l) by (destruct (Z.eq_dec l 0) as [-> |]; [exfalso; nia | lia]).
    unfold GetNextSqrtPriceFromAmount1OutRoundingDown in E0. inv_bind E0.
    apply QuoByDecRoundUp_iff in E1 as (_ & E1); [|lia]. apply Sub_iff in E0 as [_ ->]. subst v1.
    pose proof (cdiv_spec (rem * precisionReuseSDKDec * precisionReuseSDKDec) l Pl) as [_ C2].
    pose proof (cdiv_nonneg (rem * precisionReuseSDKDec * precisionReuseSDKDec) l Pl ltac:(nia)) as V0.
    pose proof (cdiv_spec (rem * precisionReuseSDKDec * precisionReuseSDKDec) l Pl) as [C1 _].
    set (w := cdiv _ l) in *. replace (Z.abs (cur - tgt)) with (cur - tgt) in A by lia.
    change (10 ^ 18) with precisionReuseSDKDec in A.
    assert (w <= cur - tgt) by (assert (l * (w - 1) < l * (cur - tgt)) by nia; apply Z.mul_lt_mono_pos_l in H0; lia).
    lia. }
  inv_binds. injection H as <- <- <- <-. exact R.
Qed.

Lemma ofz_in_direction cur tgt l rem next amt out ch :
  0 < cur <= tgt -> 0 <= l -> 2 <= rem ->
  ofz_ComputeSwapWithinBucketOutGivenIn (fresh limit spf) cur tgt l rem = Ok (next, amt, out, ch) -> cur <= next.
Proof.
  intros Ht Hl Hr H. unfold ofz_ComputeSwapWithinBucketOutGivenIn in H.
  inv_bind H. inv_bind H. apply oneMinus_direct in E0 as ->. unfold NewBigDecFromDecMulDec in H. inv_bind H.
  assert (Hx : 0 < rem * (OneDec - spf)) by (unfold OneDec; nia).
  assert (R : cur <= v0).
  { unfold GTE in E0. destruct (Z.geb_spec (rem * (OneDec - spf)) v) as [G | L]; [apply Ok_inj in E0; lia|].
    apply CalcAmount1Delta_up_inv in E.
    assert (0 < l) by (destruct (Z.eq_dec l 0) as [-> |]; [rewrite amt1_up_zero in E; lia | lia]).
    unfold GetNextSqrtPriceFromAmount1InRoundingDown in E0. inv_bind E0.
    apply QuoTruncateDec_iff in E1 as (_ & _ & ->). apply Add_iff in E0 as [_ ->].
    pose proof sdk_prec_pos. assert (0 <= Z.quot (rem * (OneDec - spf) * precisionReuseSDKDec) l) by (apply Z.quot_pos; nia). lia. }
  inv_binds. injection H as <- <- <- <-. exact R.
Qed.

(** Token 0 out: when the output leaves no liquidity the quotient is
    meaningless, and below any price of a tick. *)
Lemma next0_out_cases cur L x next :
  0 < cur -> 0 < L -> 0 <= x ->
  GetNextSqrtPriceFromAmount0OutRoundingUp cur L x = Ok next -> cur <= next \/ next <= 1.
Proof using Type.
  clear Hspf. intros Hc HL Hx H. unfold GetNextSqrtPriceFromAmount0OutRoundingUp, IsZero in H.
  destruct (Z.eqb_spec (Z.sgn x) 0) as [|Nx]; [apply Ok_inj in H; lia|]. inv_binds.
  apply MulRoundUpDec_iff in E as [_ ->]. apply Sub_iff in E0 as [_ ->]. apply MulRoundUp_iff in E1 as [_ ->].
  pose proof sdk_prec_pos as Q. pose proof prec_pos as P.
  pose proof (cdiv_nonneg (cur * x) precisionReuseSDKDec Q ltac:(nia)).
  pose proof (cdiv_spec (L * cur) defaultBigDecPrecisionReuse P) as [_ C2].
  set (n := cdiv (L * cur) defaultBigDecPrecisionReuse) in *.
  set (den := L - cdiv (cur * x) precisionReuseSDKDec) in *.
  destruct (Z.lt_trichotomy den 0) as [Neg | [Zero | Pos]].
  - right. unfold QuoRoundUpMut, bigQuoRem in H. destruct (Z.eqb_spec den 0); [lia|]. rewrite bind_ok in H.
    apply checked_iff in H as [_ ->].
    assert (Hn : 0 <= n * defaultBigDecPrecisionReuse) by nia.
    replace den with (- - den) by lia. rewrite Z.quot_opp_r by lia.
    pose proof (Z.quot_pos _ (- den) Hn ltac:(lia)). unfold incBasedOnRem. case_if; lia.
  - unfold QuoRoundUpMut, bigQuoRem in H. rewrite Zero in H. discriminate H.
  - left. apply QuoRoundUpMut_iff in H as [_ ->]; [|nia|lia].
    pose proof (cdiv_spec (n * defaultBigDecPrecisionReuse) den Pos) as [_ D2]. set (r := cdiv _ den) in *.
    assert (0 <= r) by (apply cdiv_nonneg; nia).
    assert (L * cur <= den * r) by nia. assert (den <= L) by lia.
    assert (den * r <= L * r) by (apply Z.mul_le_mono_nonneg_r; lia).
    apply Z.mul_le_mono_pos_l with (p := L); lia.
Qed.

Lemma ofz_out_direction cur tgt l rem next out amt ch :
  0 < cur <= tgt -> 0 <= l -> 0 <= rem ->
  ofz_ComputeSwapWithinBucketInGivenOut (fresh limit spf) cur tgt l rem = Ok (next, out, amt, ch) ->
  cur <= next \/ next <= 1.
Proof using Type.
  clear Hspf. intros Ht Hl Hr H. unfold ofz_ComputeSwapWithinBucketInGivenOut in H.
  rewrite !BigDecFromDec_ok, !bind_ok in H. inv_bind H. inv_bind H.
  assert (R : cur <= v0 \/ v0 <= 1).
  { unfold GTE in E0. destruct (Z.geb_spec (rem * precisionReuseSDKDec) v) as [G | L]; [apply Ok_inj in E0; lia|].
    apply CalcAmount0Delta_down_inv in E; [|lia..]. pose proof sdk_prec_pos as Q.
    assert (Pl : 0 < l) by (destruct (Z.eq_dec l 0) as [-> |]; [rewrite amt0_down_zero in E; nia | lia]).
    apply (next0_out_cases cur (l * precisionReuseSDKDec) rem); auto; nia. }
  inv_binds. injection H as <- <- <- <-. exact R.
Qed.

(** The next price of a step in either direction and either mode, when the
    target is ahead of the current price. *)
Definition ahead (zfo : bool) (cur tgt : Z) : Prop :=
  if zfo then 10 ^ 30 <= tgt <= cur else 0 < cur <= tgt.

Definition moves (zfo : bool) (cur next : Z) : Prop :=
  next <= 1 \/ if zfo then next <= cur else cur <= next.

Lemma exact_in_toward zfo cur tgt l rem next amt out ch :
  ahead zfo cur tgt -> 0 <= l -> 2 <= rem ->
  ComputeSwapWithinBucketOutGivenIn (New zfo limit spf) cur tgt l rem = Ok (next, amt, out, ch) ->
  if zfo then next <= cur else cur <= next.
Proof.
  unfold ahead. destruct zfo; intros A Hl Hr H.
  - exact (proj2 (zfo_in_direction cur tgt l rem next amt out ch ltac:(lia) ltac:(lia) Hl Hr H)).
  - exact (ofz_in_direction cur tgt l rem next amt out ch ltac:(lia) Hl Hr H).
Qed.

Lemma exact_in_moves zfo cur tgt l rem r :
  ahead zfo cur tgt -> 0 <= l -> 2 <= rem ->
  ComputeSwapWithinBucketOutGivenIn (New zfo limit spf) cur tgt l rem = Ok r -> moves zfo cur (fst (fst (fst r))).
Proof. destruct r as [[[next amt] out] ch]. intros A Hl Hr H. right. exact (exact_in_toward zfo cur tgt l rem next amt out ch A Hl Hr H). Qed.

Lemma exact_out_moves zfo cur tgt l rem r :
  ahead zfo cur tgt -> 0 <= l -> 2 <= rem ->
  ComputeSwapWithinBucketInGivenOut (New zfo limit spf) cur tgt l rem = Ok r -> moves zfo cur (fst (fst (fst r))).
Proof using Type.
  clear Hspf. destruct r as [[[next amt] out] ch]. unfold ahead, moves. destruct zfo; intros A Hl Hr H; cbn [fst].
  - right. exact (proj2 (zfo_out_direction cur tgt l rem next amt out ch ltac:(lia) Hl ltac:(lia) H)).
  - destruct (ofz_out_direction cur tgt l rem next amt out ch ltac:(lia) Hl ltac:(lia) H); auto.
Qed.

End Direction.
