(* ===== verification/CLState.v ===== *)
(** * Concentrated liquidity: the state of the module

    The messages of [model/*.pb.go] and [types/*.pb.go], and what the keeper
    ([keeper.go]) reads and writes.  The module keeps everything in one
    key-value store, under a different prefix for each kind of entry
    ([types/keys.go]).  [Keeper] has one component per prefix: ticks and
    accumulators, whose keys matter to the theorems, are key-value stores on
    their byte keys; the other entries, which are only reached by their whole
    key or by a prefix of fixed width, are finite maps from the decoded key to
    the decoded value.

    Other modules (bank, lockup, account keepers, the CosmWasm contracts and
    the listeners) are an interface, [ExternalKeepers], with a state of its
    own.  Addresses are their text, times are nanoseconds since Go's zero
    time.  Gas, events, logs and telemetry are left out. *)

From stdpp Require Import base gmap strings pretty.
From Stdlib Require Import ZArith Lia List Bool.
From S2P Require Import Prelude GoBig BigDec SdkMath CLTick Store CLKeys GoState DecCoins Accum.
Import ListNotations.

#[global] Open Scope Z_scope.

(** ** Time *)

Definition SupportedUptimes : list Z :=
  [Nanosecond; Minute; Hour; Hour * 24; Hour * 24 * 7; Hour * 24 * 7 * 2].

(** ** Messages *)

Record Pool : Type := {
  Address : string;
  IncentivesAddress : string;
  SpreadRewardsAddress : string;
  Id : Z;
  CurrentTickLiquidity : Z;
  Token0 : string;
  Token1 : string;
  CurrentSqrtPrice : Z;
  CurrentTick : Z;
  TickSpacing : Z;
  SpreadFactor : Z;
  LastLiquidityUpdate : Z
}.

Record Position : Type := {
  PositionId : Z;
  PositionAddress : string;
  PoolId : Z;
  LowerTick : Z;
  UpperTick : Z;
  JoinTime : Z;
  Liquidity : Z
}.

Record IncentiveRecordBody : Type := {
  RemainingDenom : string;
  RemainingAmount : Z;
  EmissionRate : Z;
  StartTime : Z
}.

Record IncentiveRecord : Type := {
  IncentiveId : Z;
  IncentivePoolId : Z;
  RecordBody : IncentiveRecordBody;
  MinUptime : Z
}.

Record Params : Type := {
  AuthorizedTickSpacing : list Z;
  AuthorizedSpreadFactors : list Z;
  AuthorizedUptimes : list Z;
  IsPermissionlessPoolCreationEnabled : bool;
  UnrestrictedPoolCreatorWhitelist : list string
}.

(** ** Other modules *)

Class ExternalKeepers (C : DecCoinsOps) : Type := {
  Ext : Type;
  (** bank *)
  SendCoins : string -> string -> Coins -> M Ext unit;
  HasBalance : Ext -> string -> string -> Z -> bool;
  GetBalance : Ext -> string -> string -> Z;
  MintCoins : string -> Coins -> M Ext unit;
  (** lockup: the end time of a lock, zero while it is not unlocking *)
  GetLockByID : Ext -> Z -> Res Z;
  CreateLockNoSend : string -> Coins -> Z -> M Ext Z;
  BeginForceUnlock : Z -> Coins -> M Ext Z;
  (** account: addresses of module accounts, and those derived from a pool id *)
  GetModuleAddress : string -> string;
  NewPoolAddress : Z -> string;
  NewModuleAddressWithPrefix : string -> string -> Z -> string;
  (** poolmanager *)
  AuthorizedQuoteDenoms : Ext -> list string;
  (** CosmWasm hooks of a pool, by action prefix; nothing when no contract is set *)
  callPoolActionListener : string -> Z -> M Ext unit;
  (** listeners, which return nothing *)
  listen : string -> string -> Z -> Ext -> Ext
}.

(** ** Keys of accumulators ([types/keys.go]) *)

Definition byte_string (n : nat) : string := String (Ascii.ascii_of_nat n) EmptyString.

Definition KeySpreadRewardPositionAccumulator (positionId : Z) : string :=
  byte_string 10 +:+ "|" +:+ pretty positionId.

Definition KeySpreadRewardPoolAccumulator (poolId : Z) : string :=
  byte_string 11 +:+ "/" +:+ pretty poolId.

Definition KeyUptimeAccumulator (poolId uptimeIndex : Z) : string :=
  byte_string 12 +:+ "/" +:+ pretty poolId +:+ "/" +:+ pretty uptimeIndex.

(** [string(types.KeyPositionId(positionId))] *)
Definition KeyPositionId (positionId : Z) : string := byte_string 8 +:+ pretty positionId.

(** [types.GetConcentratedLockupDenomFromPoolId] *)
Definition GetConcentratedLockupDenomFromPoolId (poolId : Z) : string :=
  "cl/pool" +:+ "/" +:+ pretty poolId.

(** ** The keeper *)

Section State.
Context {C : DecCoinsOps}.

Record TickInfo : Type := {
  LiquidityGross : Z;
  LiquidityNet : Z;
  SpreadRewardGrowthOppositeDirectionOfLastTraversal : DecCoins;
  UptimeTrackers : list DecCoins
}.

Context {E : ExternalKeepers C} {KT : KVStore TickInfo} {KA : KVStore StoreValue}.

Record Keeper : Type := {
  k_pools : gmap Z Pool;
  k_ticks : @St _ KT;
  k_accums : @St _ KA;
  k_positions : gmap Z Position;
  k_addressPoolPosition : gset (string * Z * Z);
  k_poolPosition : gset (Z * Z);
  k_positionLock : gmap Z Z;
  k_lockPosition : gmap Z Z;
  k_fullRange : gmap Z Z;
  k_incentives : gmap (Z * Z * Z) IncentiveRecordBody;
  k_nextPositionId : Z;
  k_nextIncentiveId : Z;
  k_totalLiquidity : gmap string Z;
  k_spreadThreshold : option Z;
  k_incentiveThreshold : option Z;
  k_params : Params;
  k_ext : Ext
}.

(** Replacing one component. *)

Definition set_pools (u : gmap Z Pool -> gmap Z Pool) (k : Keeper) : Keeper :=
  match k with Build_Keeper a b c d e f g h i j k l m n o p q => Build_Keeper (u a) b c d e f g h i j k l m n o p q end.
Definition set_ticks (u : @St _ KT -> @St _ KT) (k : Keeper) : Keeper :=
  match k with Build_Keeper a b c d e f g h i j k l m n o p q => Build_Keeper a (u b) c d e f g h i j k l m n o p q end.
Definition set_accums (u : @St _ KA -> @St _ KA) (k : Keeper) : Keeper :=
  match k with Build_Keeper a b c d e f g h i j k l m n o p q => Build_Keeper a b (u c) d e f g h i j k l m n o p q end.
Definition set_positions (u : gmap Z Position -> gmap Z Position) (k : Keeper) : Keeper :=
  match k with Build_Keeper a b c d e f g h i j k l m n o p q => Build_Keeper a b c (u d) e f g h i j k l m n o p q end.
Definition set_addressPoolPosition (u : gset (string * Z * Z) -> gset (string * Z * Z)) (k : Keeper) : Keeper :=
  match k with Build_Keeper a b c d e f g h i j k l m n o p q => Build_Keeper a b c d (u e) f g h i j k l m n o p q end.
Definition set_poolPosition (u : gset (Z * Z) -> gset (Z * Z)) (k : Keeper) : Keeper :=
  match k with Build_Keeper a b c d e f g h i j k l m n o p q => Build_Keeper a b c d e (u f) g h i j k l m n o p q end.
Definition set_positionLock (u : gmap Z Z -> gmap Z Z) (k : Keeper) : Keeper :=
  match k with Build_Keeper a b c d e f g h i j k l m n o p q => Build_Keeper a b c d e f (u g) h i j k l m n o p q end.
Definition set_lockPosition (u : gmap Z Z -> gmap Z Z) (k : Keeper) : Keeper :=
  match k with Build_Keeper a b c d e f g h i j k l m n o p q => Build_Keeper a b c d e f g (u h) i j k l m n o p q end.
Definition set_fullRange (u : gmap Z Z -> gmap Z Z) (k : Keeper) : Keeper :=
  match k with Build_Keeper a b c d e f g h i j k l m n o p q => Build_Keeper a b c d e f g h (u i) j k l m n o p q end.
Definition set_incentives (u : gmap (Z * Z * Z) IncentiveRecordBody -> gmap (Z * Z * Z) IncentiveRecordBody) (k : Keeper) : Keeper :=
  match k with Build_Keeper a b c d e f g h i j k l m n o p q => Build_Keeper a b c d e f g h i (u j) k l m n o p q end.
Definition set_nextPositionId (u : Z -> Z) (k : Keeper) : Keeper :=
  match k with Build_Keeper a b c d e f g h i j k l m n o p q => Build_Keeper a b c d e f g h i j (u k) l m n o p q end.
Definition set_nextIncentiveId (u : Z -> Z) (k : Keeper) : Keeper :=
  match k with Build_Keeper a b c d e f g h i j k l m n o p q => Build_Keeper a b c d e f g h i j k (u l) m n o p q end.
Definition set_totalLiquidity (u : gmap string Z -> gmap string Z) (k : Keeper) : Keeper :=
  match k with Build_Keeper a b c d e f g h i j k l m n o p q => Build_Keeper a b c d e f g h i j k l (u m) n o p q end.
Definition set_spreadThreshold (u : option Z -> option Z) (k : Keeper) : Keeper :=
  match k with Build_Keeper a b c d e f g h i j k l m n o p q => Build_Keeper a b c d e f g h i j k l m (u n) o p q end.
Definition set_incentiveThreshold (u : option Z -> option Z) (k : Keeper) : Keeper :=
  match k with Build_Keeper a b c d e f g h i j k l m n o p q => Build_Keeper a b c d e f g h i j k l m n (u o) p q end.
Definition set_ext (u : Ext -> Ext) (k : Keeper) : Keeper :=
  match k with Build_Keeper a b c d e f g h i j k l m n o p q => Build_Keeper a b c d e f g h i j k l m n o p (u q) end.

(** A call of another module, on its state. *)
Definition external {A} (c : M Ext A) : M Keeper A := zoom k_ext (fun e => set_ext (fun _ => e)) c.

Definition ask {A} (f : Keeper -> A) : M Keeper A := fun k => (Ok (f k), k).

(** A method of an accumulator object, which works on the store of the module
    and on the object: the object after the call is returned. *)
Definition on_accum {A} (o : AccumulatorObject) (c : M ASt A) : M Keeper (A * AccumulatorObject) :=
  fun k => match c (k_accums k, o) with
           | (Ok a, (st, o')) => (Ok (a, o'), set_accums (fun _ => st) k)
           | (Err e, (st, _)) => (Err e, set_accums (fun _ => st) k)
           | (Panic m, (st, _)) => (Panic m, set_accums (fun _ => st) k)
           end.

(** A function on the store of accumulators. *)
Definition on_accum_store {A} (c : M (@St _ KA) A) : M Keeper A :=
  zoom k_accums (fun st => set_accums (fun _ => st)) c.

(** ** Pools ([pool.go], [model/pool.go]) *)

Definition getPoolById (poolId : Z) : M Keeper Pool :=
  fun k => match k_pools k !! poolId with
           | Some p => (Ok p, k)
           | None => (Err "PoolNotFoundError", k)
           end.

Definition setPool (p : Pool) : M Keeper unit := modify (set_pools <[Id p := p]>).

(** [GetPool] and the conversions between pool interfaces add no condition. *)
Definition GetConcentratedPoolById (poolId : Z) : M Keeper Pool :=
  fun k => match getPoolById poolId k with
           | (Err _, k') => (Err "PoolNotFoundError", k')
           | r => r
           end.

Definition PoolHasPosition (p : Pool) : bool :=
  if IsZero (CurrentSqrtPrice p) && (CurrentTick p =? 0) then false else true.

(** ** Ids and totals ([keeper.go], [total_liquidity.go]) *)

Definition GetNextPositionId : M Keeper Z := ask k_nextPositionId.
Definition SetNextPositionId (positionId : Z) : M Keeper unit :=
  modify (set_nextPositionId (fun _ => positionId)).
Definition GetNextIncentiveRecordId : M Keeper Z := ask k_nextIncentiveId.
Definition SetNextIncentiveRecordId (id : Z) : M Keeper unit :=
  modify (set_nextIncentiveId (fun _ => id)).

Definition setDenomLiquidity (denom : string) (amount : Z) : M Keeper unit :=
  modify (set_totalLiquidity <[denom := amount]>).

Definition GetDenomLiquidity (denom : string) : M Keeper Z :=
  ask (fun k => default 0 (k_totalLiquidity k !! denom)).

Context {S : SdkMath}.

Definition RecordTotalLiquidityIncrease (coins : Coins) : M Keeper unit :=
  for_each (coins_list coins) (fun c =>
    amount <~ GetDenomLiquidity c.1 ;;
    amount <~ lift (int_Add amount c.2) ;;
    setDenomLiquidity c.1 amount).

Definition RecordTotalLiquidityDecrease (coins : Coins) : M Keeper unit :=
  for_each (coins_list coins) (fun c =>
    amount <~ GetDenomLiquidity c.1 ;;
    amount <~ lift (int_Sub amount c.2) ;;
    setDenomLiquidity c.1 amount).

(** Parsing a stored total panics on malformed bytes, which decoded values exclude. *)
Definition GetTotalLiquidity : M Keeper Coins :=
  l <~ ask (fun k => map_to_list (k_totalLiquidity k)) ;;
  lift (fold_left (fun r (c : string * Z) => t <- r ;; coins_Add t (coins_append coins_empty c.1 c.2)) l (Ok coins_empty)).

End State.

(** ** A reference instance, which the examples run *)

Record RefExt : Type := { balances : gmap (string * string) Z; locks : gmap Z Z }.

Definition balance_of (e : RefExt) (addr denom : string) : Z := default 0 (balances e !! (addr, denom)).

Definition move_coin (from to : string) (c : string * Z) : M RefExt unit :=
  fun e =>
    if balance_of e from c.1 <? c.2 then (Err "insufficient funds", e) else
    let b := <[(from, c.1) := balance_of e from c.1 - c.2]> (balances e) in
    (Ok tt, {| balances := <[(to, c.1) := default 0 (b !! (to, c.1)) + c.2]> b; locks := locks e |}).

Definition ext_ref : ExternalKeepers map_coins := {|
  Ext := RefExt;
  SendCoins from to c := for_each (coins_list c) (move_coin from to);
  HasBalance e addr denom amount := amount <=? balance_of e addr denom;
  GetBalance := balance_of;
  MintCoins to c := for_each (coins_list c) (fun c => modify (fun e =>
    {| balances := <[(to, c.1) := balance_of e to c.1 + c.2]> (balances e); locks := locks e |}));
  GetLockByID e id := match locks e !! id with Some t => Ok t | None => Err "ErrLockupNotFound" end;
  CreateLockNoSend owner c d := ret 1;
  BeginForceUnlock id c := ret id;
  GetModuleAddress m := m;
  NewPoolAddress id := "pool/" +:+ pretty id;
  NewModuleAddressWithPrefix m p id := m +:+ "/" +:+ p +:+ "/" +:+ pretty id;
  AuthorizedQuoteDenoms e := ["usdc"];
  callPoolActionListener action id := ret tt;
  listen event sender id e := e
|}.

Definition ref_ticks : KVStore (@TickInfo map_coins) := assoc_store.
Definition ref_accums : KVStore (@StoreValue map_coins) := assoc_store.

Definition RefKeeper : Type := @Keeper map_coins ext_ref ref_ticks ref_accums.

Definition empty_keeper (e : RefExt) : RefKeeper :=
  @Build_Keeper map_coins ext_ref ref_ticks ref_accums
    ∅ (@st_empty _ ref_ticks) (@st_empty _ ref_accums) ∅ ∅ ∅ ∅ ∅ ∅ ∅ 1 1 ∅ (Some 0) (Some 0)
    {| AuthorizedTickSpacing := [1; 10; 100; 1000]; AuthorizedSpreadFactors := [0; 10 ^ 15];
       AuthorizedUptimes := [Nanosecond]; IsPermissionlessPoolCreationEnabled := true;
       UnrestrictedPoolCreatorWhitelist := [] |} e.
