(* ===== verification/CLPool.v ===== *)
(** * Concentrated liquidity: the pool
    ([x/concentrated-liquidity/model/pool.go], pure checks of [tick.go] and [pool.go])

    A pool records the current square-root price and tick and the liquidity
    that is active there.  The tokens of a change of liquidity follow from the
    curve; they are rounded up when tokens come in and toward zero when they go
    out, so that what a position pays covers what it gets back at the same
    price.  The constant [ExponentAtPriceOne] of the message is left out. *)

From stdpp Require Import base gmap strings.
From Stdlib Require Import ZArith Lia List Bool.
From S2P Require Import Prelude GoBig BigInt BigDec BigDecPow MonoSqrt SdkMath CLTick CLMath Store CLKeys SwapStep GoState DecCoins Accum CLState.
Import ListNotations.

Definition incentivesAddressPrefix : string := "incentives".
Definition spreadRewardsAddressPrefix : string := "spreadRewards".
Definition ModuleName : string := "concentratedliquidity".

Definition NewConcentratedLiquidityPool {C : DecCoinsOps} {E : ExternalKeepers C}
    (poolId : Z) (denom0 denom1 : string) (tickSpacing spreadFactor : Z) : Res Pool :=
  if String.eqb denom0 denom1 then Err "MatchingDenomError" else
  if (spreadFactor <? 0) || (spreadFactor >=? OneDec) then Err "InvalidSpreadFactorError" else
  Ok {| Address := NewPoolAddress poolId;
        IncentivesAddress := NewModuleAddressWithPrefix ModuleName incentivesAddressPrefix poolId;
        SpreadRewardsAddress := NewModuleAddressWithPrefix ModuleName spreadRewardsAddressPrefix poolId;
        Id := poolId; CurrentTickLiquidity := 0; Token0 := denom0; Token1 := denom1;
        CurrentSqrtPrice := ZeroBigDec; CurrentTick := 0; TickSpacing := tickSpacing;
        SpreadFactor := spreadFactor; LastLiquidityUpdate := 0 |}.

Definition SpotPrice (p : Pool) (quoteAssetDenom baseAssetDenom : string) : Res Z :=
  if negb (String.eqb baseAssetDenom (Token0 p)) && negb (String.eqb baseAssetDenom (Token1 p))
  then Err "base asset denom is not in pool" else
  if negb (String.eqb quoteAssetDenom (Token0 p)) && negb (String.eqb quoteAssetDenom (Token1 p))
  then Err "quote asset denom is not in pool" else
  priceSquared <- PowerInteger (CurrentSqrtPrice p) 2 ;;
  if String.eqb baseAssetDenom (Token0 p) then BigDecFromDecMut (Dec priceSquared)
  else q <- QuoMut OneBigDec priceSquared ;; BigDecFromDecMut (Dec q).

(** ** Setters *)

Definition with_price (p : Pool) (liquidity sqrtPrice tick : Z) : Pool :=
  {| Address := Address p; IncentivesAddress := IncentivesAddress p;
     SpreadRewardsAddress := SpreadRewardsAddress p; Id := Id p;
     CurrentTickLiquidity := liquidity; Token0 := Token0 p; Token1 := Token1 p;
     CurrentSqrtPrice := sqrtPrice; CurrentTick := tick; TickSpacing := TickSpacing p;
     SpreadFactor := SpreadFactor p; LastLiquidityUpdate := LastLiquidityUpdate p |}.

Definition SetCurrentSqrtPrice (p : Pool) (newSqrtPrice : Z) : Pool :=
  with_price p (CurrentTickLiquidity p) newSqrtPrice (CurrentTick p).

Definition SetCurrentTick (p : Pool) (newTick : Z) : Pool :=
  with_price p (CurrentTickLiquidity p) (CurrentSqrtPrice p) newTick.

Definition SetTickSpacing (p : Pool) (tickSpacing : Z) : Pool :=
  {| Address := Address p; IncentivesAddress := IncentivesAddress p;
     SpreadRewardsAddress := SpreadRewardsAddress p; Id := Id p;
     CurrentTickLiquidity := CurrentTickLiquidity p; Token0 := Token0 p; Token1 := Token1 p;
     CurrentSqrtPrice := CurrentSqrtPrice p; CurrentTick := CurrentTick p; TickSpacing := tickSpacing;
     SpreadFactor := SpreadFactor p; LastLiquidityUpdate := LastLiquidityUpdate p |}.

Definition SetLastLiquidityUpdate (p : Pool) (newTime : Z) : Pool :=
  {| Address := Address p; IncentivesAddress := IncentivesAddress p;
     SpreadRewardsAddress := SpreadRewardsAddress p; Id := Id p;
     CurrentTickLiquidity := CurrentTickLiquidity p; Token0 := Token0 p; Token1 := Token1 p;
     CurrentSqrtPrice := CurrentSqrtPrice p; CurrentTick := CurrentTick p; TickSpacing := TickSpacing p;
     SpreadFactor := SpreadFactor p; LastLiquidityUpdate := newTime |}.

Definition IsCurrentTickInRange (p : Pool) (lowerTick upperTick : Z) : bool :=
  (CurrentTick p >=? lowerTick) && (CurrentTick p <? upperTick).

Section Pool.
Context {S : SdkMath}.

Definition UpdateLiquidity (p : Pool) (newLiquidity : Z) : Res Pool :=
  l <- dec_Add (CurrentTickLiquidity p) newLiquidity ;;
  Ok (with_price p l (CurrentSqrtPrice p) (CurrentTick p)).

Definition UpdateLiquidityIfActivePosition (p : Pool) (lowerTick upperTick liquidityDelta : Z) : Res (Pool * bool) :=
  if IsCurrentTickInRange p lowerTick upperTick then
    l <- dec_Add (CurrentTickLiquidity p) liquidityDelta ;;
    Ok (with_price p l (CurrentSqrtPrice p) (CurrentTick p), true)
  else Ok (p, false).

Definition CalcActualAmounts (p : Pool) (lowerTick upperTick liquidityDelta : Z) : Res (Z * Z) :=
  if liquidityDelta =? 0 then Err "ErrZeroLiquidity" else
  '(sqrtPriceLowerTick, sqrtPriceUpperTick) <- TicksToSqrtPrice lowerTick upperTick ;;
  let roundUp := liquidityDelta >? 0 in
  '(actualAmountDenom0, actualAmountDenom1) <-
    (if IsCurrentTickInRange p lowerTick upperTick then
       a0 <- CalcAmount0Delta liquidityDelta (CurrentSqrtPrice p) sqrtPriceUpperTick roundUp ;;
       a1 <- CalcAmount1Delta liquidityDelta (CurrentSqrtPrice p) sqrtPriceLowerTick roundUp ;;
       Ok (a0, a1)
     else if CurrentTick p <? lowerTick then
       a0 <- CalcAmount0Delta liquidityDelta sqrtPriceLowerTick sqrtPriceUpperTick roundUp ;;
       Ok (a0, ZeroBigDec)
     else
       a1 <- CalcAmount1Delta liquidityDelta sqrtPriceLowerTick sqrtPriceUpperTick roundUp ;;
       Ok (ZeroBigDec, a1)) ;;
  if roundUp then Ok (DecRoundUp actualAmountDenom0, DecRoundUp actualAmountDenom1)
  else Ok (Dec actualAmountDenom0, Dec actualAmountDenom1).

Definition ApplySwap (p : Pool) (newLiquidity newCurrentTick newCurrentSqrtPrice : Z) : Res Pool :=
  if newLiquidity <? 0 then Err "NegativeLiquidityError" else
  if IsNegative newCurrentSqrtPrice then Err "SqrtPriceNegativeError" else
  if (newCurrentTick <? MinCurrentTick) || (newCurrentTick >? MaxTick)
  then Err "TickIndexNotWithinBoundariesError"
  else Ok (with_price p newLiquidity newCurrentSqrtPrice newCurrentTick).

(** ** Tick ranges ([tick.go]) *)

Definition validateTickRangeIsValid (tickSpacing lowerTick upperTick : Z) : Res unit :=
  if int64 tickSpacing =? 0 then Panic "integer divide by zero" else
  if negb (Z.rem lowerTick (int64 tickSpacing) =? 0) || negb (Z.rem upperTick (int64 tickSpacing) =? 0)
  then Err "TickSpacingError" else
  if (lowerTick <? MinInitializedTick) || (lowerTick >=? MaxTick) then Err "InvalidTickError" else
  if (upperTick >? MaxTick) || (upperTick <=? MinInitializedTick) then Err "InvalidTickError" else
  if lowerTick >=? upperTick then Err "InvalidLowerUpperTickError" else Ok tt.

Definition roundTickToCanonicalPriceTick (lowerTick upperTick sqrtPriceTickLower sqrtPriceTickUpper
    tickSpacing : Z) : Res (Z * Z) :=
  newLowerTick <- SqrtPriceToTickRoundDownSpacing sqrtPriceTickLower tickSpacing ;;
  newUpperTick <- SqrtPriceToTickRoundDownSpacing sqrtPriceTickUpper tickSpacing ;;
  (if negb (lowerTick =? newLowerTick) || negb (upperTick =? newUpperTick)
   then validateTickRangeIsValid tickSpacing newLowerTick newUpperTick else Ok tt) ;;;
  Ok (newLowerTick, newUpperTick).

End Pool.

(** ** Pools of the keeper ([pool.go]) *)

Section KeeperPools.
Context {C : DecCoinsOps} {E : ExternalKeepers C} {KT : KVStore TickInfo} {KA : KVStore StoreValue}.

Definition CalculateSpotPrice (poolId : Z) (quoteAssetDenom baseAssetDenom : string) : M Keeper Z :=
  pool <~ getPoolById poolId ;;
  if negb (PoolHasPosition pool) then fail "NoSpotPriceWhenNoLiquidityError" else
  price <~ lift (SpotPrice pool quoteAssetDenom baseAssetDenom) ;;
  if IsZero price then fail "PriceBoundError" else
  if GT price MaxSpotPriceBigDec || LT price MinSpotPriceBigDec then fail "PriceBoundError" else
  ret price.

Definition GetTotalPoolLiquidity (poolId : Z) : M Keeper Coins :=
  pool <~ getPoolById poolId ;;
  b0 <~ ask (fun k => GetBalance (k_ext k) (Address pool) (Token0 pool)) ;;
  b1 <~ ask (fun k => GetBalance (k_ext k) (Address pool) (Token1 pool)) ;;
  lift (NewCoins [(Token0 pool, b0); (Token1 pool, b1)]).

Definition GetPoolDenoms (poolId : Z) : M Keeper (list string) :=
  pool <~ getPoolById poolId ;; ret [Token0 pool; Token1 pool].

Definition validateTickSpacing (params : Params) (tickSpacing : Z) : bool :=
  existsb (fun authorizedTick => tickSpacing =? authorizedTick) (AuthorizedTickSpacing params).

Definition validateTickSpacingUpdate (pool : Pool) (params : Params) (newTickSpacing : Z) : bool :=
  existsb (fun authorizedTick => (newTickSpacing =? authorizedTick) && (newTickSpacing <? TickSpacing pool))
    (AuthorizedTickSpacing params).

Definition validateSpreadFactor (params : Params) (spreadFactor : Z) : bool :=
  existsb (fun authorized => spreadFactor =? authorized) (AuthorizedSpreadFactors params).

Definition validateAuthorizedQuoteDenoms (denom1 : string) (authorizedQuoteDenoms : list string) : bool :=
  existsb (String.eqb denom1) authorizedQuoteDenoms.

Definition DecreaseConcentratedPoolTickSpacing (records : list (Z * Z)) : M Keeper unit :=
  for_each records (fun '(poolId, newTickSpacing) =>
    pool <~ GetConcentratedPoolById poolId ;;
    params <~ ask k_params ;;
    if negb (validateTickSpacingUpdate pool params newTickSpacing) then fail "tick spacing is not valid" else
    setPool (SetTickSpacing pool newTickSpacing)).

End KeeperPools.

(** ** Amounts of a change of liquidity *)

Definition res_map {A B} (f : A -> B) (r : Res A) : Res B := a <- r ;; Ok (f a).

Lemma checked_opp x : checked (- x) = res_map Z.opp (checked x).
Proof.
  unfold checked, assertMaxBitLen, res_map. rewrite (BitLen_abs (- x) x) by lia.
  now destruct (BitLen x >? maxDecBitLen).
Qed.

Lemma MulTruncateDec_opp a b : MulTruncateDec a (- b) = res_map Z.opp (MulTruncateDec a b).
Proof.
  unfold MulTruncateDec. rewrite <- checked_opp. f_equal.
  rewrite Z.mul_opp_r, Z.quot_opp_l by discriminate. reflexivity.
Qed.

Lemma QuoTruncateMut_opp a b : QuoTruncateMut (- a) b = res_map Z.opp (QuoTruncateMut a b).
Proof.
  unfold QuoTruncateMut, bigQuo. destruct (Z.eqb_spec b 0); [reflexivity|].
  rewrite !bind_ok, <- checked_opp. f_equal. now rewrite Z.mul_opp_l, Z.quot_opp_l.
Qed.

(** Removing liquidity is the mirror image of the amounts rounded down. *)
Lemma CalcAmount0Delta_opp l a b :
  CalcAmount0Delta (- l) a b false = res_map Z.opp (CalcAmount0Delta l a b false).
Proof.
  unfold CalcAmount0Delta. destruct (sort2 a b) as [lo hi]. destruct (Sub hi lo) as [d| |]; try reflexivity.
  rewrite !bind_ok, MulTruncateDec_opp. destruct (MulTruncateDec d l) as [x| |]; try reflexivity.
  unfold res_map at 1. rewrite !bind_ok, QuoTruncateMut_opp.
  destruct (QuoTruncateMut x hi) as [y| |]; try reflexivity.
  unfold res_map at 1. rewrite !bind_ok. apply QuoTruncateMut_opp.
Qed.

Lemma CalcAmount1Delta_opp l a b :
  CalcAmount1Delta (- l) a b false = res_map Z.opp (CalcAmount1Delta l a b false).
Proof.
  unfold CalcAmount1Delta. destruct (Sub b a) as [d| |]; try reflexivity.
  rewrite !bind_ok. apply MulTruncateDec_opp.
Qed.

Lemma Dec_opp d : Dec (- d) = - Dec d.
Proof. unfold Dec. now rewrite Z.quot_opp_l by discriminate. Qed.

Lemma tick_sqrt_price_dom t : MinInitializedTick <= t <= MaxTick -> price_dom (tick_sqrt_price t).
Proof.
  intros H. assert (V : MinCurrentTick < MinInitializedTick) by reflexivity.
  pose proof (tick_sqrt_price_mono t MaxTick ltac:(lia) ltac:(lia)).
  pose proof (tick_sqrt_price_mono MinInitializedTick t ltac:(lia) ltac:(lia)).
  assert (tick_sqrt_price MaxTick = 10 ^ 55) by (vm_compute; reflexivity).
  assert (tick_sqrt_price MinInitializedTick = 10 ^ 30) by (vm_compute; reflexivity).
  unfold price_dom. lia.
Qed.

Lemma TicksToSqrtPrice_ok lo hi :
  MinInitializedTick <= lo -> lo < hi <= MaxTick ->
  TicksToSqrtPrice lo hi = Ok (tick_sqrt_price lo, tick_sqrt_price hi).
Proof.
  intros Hl Hh. assert (V : MinInitializedTickV2 < MinInitializedTick) by reflexivity.
  unfold TicksToSqrtPrice. destruct (Z.geb_spec lo hi); [lia|].
  now rewrite !TickToSqrtPrice_ok by lia.
Qed.

(** The two amounts as functions of the liquidity: the deposit, in whole
    tokens, and the withdrawal, in units of [10^-18]. *)
Definition deposit0 (p : Pool) (lo hi l : Z) : Z :=
  if IsCurrentTickInRange p lo hi
  then amt0_up l (Z.min (CurrentSqrtPrice p) (tick_sqrt_price hi)) (Z.max (CurrentSqrtPrice p) (tick_sqrt_price hi))
  else if CurrentTick p <? lo
  then amt0_up l (Z.min (tick_sqrt_price lo) (tick_sqrt_price hi)) (Z.max (tick_sqrt_price lo) (tick_sqrt_price hi))
  else 0.

Definition withdrawal0 (p : Pool) (lo hi l : Z) : Z :=
  if IsCurrentTickInRange p lo hi
  then amt0_down l (Z.min (CurrentSqrtPrice p) (tick_sqrt_price hi)) (Z.max (CurrentSqrtPrice p) (tick_sqrt_price hi))
  else if CurrentTick p <? lo
  then amt0_down l (Z.min (tick_sqrt_price lo) (tick_sqrt_price hi)) (Z.max (tick_sqrt_price lo) (tick_sqrt_price hi))
  else 0.

Definition deposit1 (p : Pool) (lo hi l : Z) : Z :=
  if IsCurrentTickInRange p lo hi then amt1_up l (Z.abs (tick_sqrt_price lo - CurrentSqrtPrice p))
  else if CurrentTick p <? lo then 0 else amt1_up l (Z.abs (tick_sqrt_price hi - tick_sqrt_price lo)).

Definition withdrawal1 (p : Pool) (lo hi l : Z) : Z :=
  if IsCurrentTickInRange p lo hi then amt1_down l (Z.abs (tick_sqrt_price lo - CurrentSqrtPrice p))
  else if CurrentTick p <? lo then 0 else amt1_down l (Z.abs (tick_sqrt_price hi - tick_sqrt_price lo)).

Section Amounts.
Context {S : SdkMath}.
Variables (p : Pool) (lo hi : Z).
Hypothesis Hlo : MinInitializedTick <= lo.
Hypothesis Hhi : lo < hi <= MaxTick.
Hypothesis Hp : price_dom (CurrentSqrtPrice p).

Lemma CalcActualAmounts_deposit l :
  0 < l < 10 ^ 95 -> CalcActualAmounts p lo hi l = Ok (DecRoundUp (deposit0 p lo hi l), DecRoundUp (deposit1 p lo hi l)).
Proof using Hlo Hhi Hp.
  intros Hl. assert (L : liq_dom l) by (unfold liq_dom; lia).
  pose proof (tick_sqrt_price_dom lo ltac:(lia)). pose proof (tick_sqrt_price_dom hi ltac:(lia)).
  unfold CalcActualAmounts, deposit0, deposit1. destruct (Z.eqb_spec l 0); [lia|].
  rewrite TicksToSqrtPrice_ok, bind_ok by assumption. destruct (Z.gtb_spec l 0); [|lia].
  destruct (IsCurrentTickInRange p lo hi); [|destruct (CurrentTick p <? lo)];
    rewrite ?CalcAmount0Delta_up_ok, ?CalcAmount1Delta_up_ok by assumption; reflexivity.
Qed.

Lemma CalcActualAmounts_withdrawal l :
  0 < l < 10 ^ 95 -> CalcActualAmounts p lo hi (- l) = Ok (- Dec (withdrawal0 p lo hi l), - Dec (withdrawal1 p lo hi l)).
Proof using Hlo Hhi Hp.
  intros Hl. assert (L : liq_dom l) by (unfold liq_dom; lia).
  pose proof (tick_sqrt_price_dom lo ltac:(lia)). pose proof (tick_sqrt_price_dom hi ltac:(lia)).
  unfold CalcActualAmounts, withdrawal0, withdrawal1. destruct (Z.eqb_spec (- l) 0); [lia|].
  rewrite TicksToSqrtPrice_ok, bind_ok by assumption. destruct (Z.gtb_spec (- l) 0); [lia|].
  destruct (IsCurrentTickInRange p lo hi); [|destruct (CurrentTick p <? lo)];
    rewrite ?CalcAmount0Delta_opp, ?CalcAmount1Delta_opp, ?CalcAmount0Delta_down_ok, ?CalcAmount1Delta_down_ok by assumption;
    cbn [res_map bind]; now rewrite ?Dec_opp.
Qed.

(** Parts of the liquidity never give more than the whole costs. *)
Lemma parts_le (down : Z -> Z) (up a e : Z) (parts : list Z) (l : Z) :
  0 < a -> 0 <= e -> (forall x, down x * a <= x * e) -> l * e < up * a + a ->
  zsum parts <= l -> zsum (map down parts) <= up.
Proof using Type.
  clear. intros Ha He Hd Hu Hs.
  assert (D : zsum (map down parts) * a <= zsum parts * e).
  { clear - Hd. unfold zsum. induction parts as [|x parts IH]; cbn; [lia|]. pose proof (Hd x). lia. }
  nia.
Qed.

Lemma withdrawals0_le parts l :
  0 <= l -> Forall (fun x => 0 < x) parts -> zsum parts <= l ->
  zsum (map (withdrawal0 p lo hi) parts) <= deposit0 p lo hi l.
Proof using Hlo Hhi Hp.
  intros Hl Hpos Hs. pose proof (tick_sqrt_price_dom lo ltac:(lia)). pose proof (tick_sqrt_price_dom hi ltac:(lia)).
  assert (G : forall a b, price_dom a -> price_dom b ->
    zsum (map (fun x => amt0_down x (Z.min a b) (Z.max a b)) parts) <= amt0_up l (Z.min a b) (Z.max a b)).
  { intros a b [Pa _] [Pb _]. apply (parts_le _ _ (a * b) (Z.abs (b - a) * 10 ^ 54) _ l); [nia | | | | exact Hs].
    - apply Z.mul_nonneg_nonneg; [lia | discriminate].
    - intros x. pose proof (amt0_down_bracket x a b Pa Pb). lia.
    - pose proof (amt0_up_bracket l a b Pa Pb). nia. }
  unfold withdrawal0, deposit0. destruct (IsCurrentTickInRange p lo hi); [now apply G|].
  destruct (CurrentTick p <? lo); [now apply G|]. clear. unfold zsum. induction parts; cbn; lia.
Qed.

Lemma withdrawals1_le parts l :
  0 <= l -> zsum parts <= l ->
  zsum (map (withdrawal1 p lo hi) parts) <= deposit1 p lo hi l.
Proof using Type.
  intros Hl Hs.
  assert (G : forall d, 0 <= d -> zsum (map (fun x => amt1_down x d) parts) <= amt1_up l d).
  { intros d Hd. apply (parts_le _ _ (10 ^ 18) d _ l); [reflexivity | exact Hd | | | exact Hs].
    - intros x. apply (amt1_down_bracket x d).
    - pose proof (amt1_up_bracket l d). lia. }
  unfold withdrawal1, deposit1. destruct (IsCurrentTickInRange p lo hi); [apply G; lia|].
  destruct (CurrentTick p <? lo); [|apply G; lia]. clear. unfold zsum. induction parts; cbn; lia.
Qed.

Lemma withdrawal_nonneg l : 0 <= l -> 0 <= withdrawal0 p lo hi l /\ 0 <= withdrawal1 p lo hi l.
Proof using Hlo Hhi Hp.
  intros Hl. pose proof (tick_sqrt_price_dom lo ltac:(lia)) as [Pl _]. pose proof (tick_sqrt_price_dom hi ltac:(lia)) as [Ph _].
  destruct Hp as [Pp _]. pose proof sdk_prec_pos as Q. pose proof prec_pos as P.
  assert (G : forall a b, 0 < a -> 0 < b -> 0 <= amt0_down l (Z.min a b) (Z.max a b)).
  { intros a b Ha Hb. unfold amt0_down.
    repeat (apply Z.div_pos || apply Z.mul_nonneg_nonneg); lia. }
  assert (G1 : forall d, 0 <= d -> 0 <= amt1_down l d) by (intros d Hd; apply Z.div_pos; [nia | exact Q]).
  unfold withdrawal0, withdrawal1. destruct (IsCurrentTickInRange p lo hi); [|destruct (CurrentTick p <? lo)];
    split; try (apply G; assumption); try (apply G1; lia); lia.
Qed.

Lemma deposit_tokens l : exists u v, deposit0 p lo hi l = u * defaultBigDecPrecisionReuse /\
  deposit1 p lo hi l = v * defaultBigDecPrecisionReuse.
Proof using Type.
  unfold deposit0, deposit1. destruct (IsCurrentTickInRange p lo hi); [|destruct (CurrentTick p <? lo)].
  - destruct (amt0_up_tokens l (Z.min (CurrentSqrtPrice p) (tick_sqrt_price hi)) (Z.max (CurrentSqrtPrice p) (tick_sqrt_price hi))) as [u ->].
    destruct (amt1_up_tokens l (Z.abs (tick_sqrt_price lo - CurrentSqrtPrice p))) as [v ->]. eauto.
  - destruct (amt0_up_tokens l (Z.min (tick_sqrt_price lo) (tick_sqrt_price hi)) (Z.max (tick_sqrt_price lo) (tick_sqrt_price hi))) as [u ->].
    exists u, 0. auto.
  - destruct (amt1_up_tokens l (Z.abs (tick_sqrt_price hi - tick_sqrt_price lo))) as [v ->]. exists 0, v. auto.
Qed.

(** Truncating each part to 18 decimals only lowers the sum. *)
Lemma Dec_parts (f : Z -> Z) (parts : list Z) (u : Z) :
  (forall x, In x parts -> 0 <= f x) -> zsum (map f parts) <= u * defaultBigDecPrecisionReuse ->
  zsum (map (fun x => Dec (f x)) parts) <= u * OneDec.
Proof using Type.
  clear. intros Hf Hs. assert (D : zsum (map (fun x => Dec (f x)) parts) * precisionReuseSDKDec <= zsum (map f parts)).
  { clear Hs. unfold zsum. induction parts as [|x parts IH]; [cbn; lia|]. cbn [map fold_right].
    specialize (IH ltac:(intros; apply Hf; now right)). specialize (Hf x ltac:(now left)).
    rewrite (Dec_nonneg _ Hf). pose proof (div_spec (f x) precisionReuseSDKDec sdk_prec_pos). lia. }
  change defaultBigDecPrecisionReuse with (precisionReuseSDKDec * precisionReuseSDKDec) in Hs.
  change OneDec with precisionReuseSDKDec. pose proof sdk_prec_pos. nia.
Qed.

End Amounts.

(** C8: adding liquidity [l] to a range costs whole numbers of both tokens, and
    removing it again at the same price, in any number of parts, gives back at
    most what was paid: both computations succeed, amounts in are rounded up,
    amounts out toward zero, and truncation of the parts does not help. *)
Theorem liquidity_amounts_favour_pool {S : SdkMath} (p : Pool) (lo hi l : Z) (parts : list Z) :
  MinInitializedTick <= lo -> lo < hi <= MaxTick -> 0 < CurrentSqrtPrice p <= 10 ^ 56 ->
  0 < l < 10 ^ 95 -> Forall (fun x => 0 < x) parts -> zsum parts <= l ->
  exists a0 a1 outs,
    CalcActualAmounts p lo hi l = Ok (a0 * OneDec, a1 * OneDec) /\
    Forall2 (fun x '(b0, b1) => CalcActualAmounts p lo hi (- x) = Ok (- b0, - b1) /\ 0 <= b0 /\ 0 <= b1) parts outs /\
    zsum (map fst outs) <= a0 * OneDec /\ zsum (map snd outs) <= a1 * OneDec.
Proof.
  intros Hlo Hhi Hp Hl Hpos Hs. destruct (deposit_tokens p lo hi l) as (u & v & Eu & Ev).
  exists u, v, (map (fun x => (Dec (withdrawal0 p lo hi x), Dec (withdrawal1 p lo hi x))) parts).
  assert (B : forall x, In x parts -> 0 < x <= l).
  { revert Hs. clear - Hpos. revert l. induction Hpos as [|y parts Hy Hpos IH]; intros l Hs x Hx; [destruct Hx|].
    assert (0 <= zsum parts) by (clear - Hpos; unfold zsum; induction Hpos; cbn; lia).
    unfold zsum in *. cbn in Hs. destruct Hx as [<- | Hx]; [lia|]. specialize (IH (l - y) ltac:(lia) x Hx). lia. }
  assert (W : forall x, In x parts -> 0 <= withdrawal0 p lo hi x /\ 0 <= withdrawal1 p lo hi x).
  { intros x Hx. apply withdrawal_nonneg; auto. specialize (B x Hx). lia. }
  split; [|split; [|rewrite !map_map; cbn [fst snd]; split]].
  - rewrite CalcActualAmounts_deposit by auto. now rewrite Eu, Ev, !DecRoundUp_tokens.
  - clear Hs Hpos. induction parts as [|x parts IH]; cbn [map]; constructor.
    + specialize (B x ltac:(now left)). specialize (W x ltac:(now left)).
      rewrite CalcActualAmounts_withdrawal by (auto; lia). split; [reflexivity|]. rewrite !Dec_nonneg by apply W.
      split; apply Z.div_pos; (apply W || reflexivity).
    + apply IH; intros; [apply B | apply W]; now right.
  - apply Dec_parts; [apply W|]. rewrite <- Eu. apply withdrawals0_le; auto; lia.
  - apply Dec_parts; [apply W|]. rewrite <- Ev. apply withdrawals1_le; auto; lia.
Qed.

(** The pool and range of the repository's swap tests: ETH/USDC at price 5000,
    between 4545 and 5500. *)
Definition eth_usdc : Pool :=
  {| Address := "pool"; IncentivesAddress := "incentives"; SpreadRewardsAddress := "rewards"; Id := 1;
     CurrentTickLiquidity := 0; Token0 := "eth"; Token1 := "usdc";
     CurrentSqrtPrice := 70710678118654752440 * 10 ^ 18; CurrentTick := 31000000; TickSpacing := 100;
     SpreadFactor := 0; LastLiquidityUpdate := 0 |}.

Lemma liquidity_amounts_favour_pool_witness :
  exists a0 a1 outs,
    CalcActualAmounts eth_usdc 30545000 31500000 1517882343751510418088349649 = Ok (a0 * OneDec, a1 * OneDec) /\
    length outs = 2%nat /\ zsum (map fst outs) <= a0 * OneDec /\ zsum (map snd outs) <= a1 * OneDec.
Proof.
  destruct (liquidity_amounts_favour_pool eth_usdc 30545000 31500000 1517882343751510418088349649
    [517882343751510418088349649; 1000000000000000000000000000]) as (a0 & a1 & outs & E & F & L0 & L1).
  - vm_compute; congruence.
  - split; vm_compute; congruence.
  - split; vm_compute; congruence.
  - split; vm_compute; congruence.
  - repeat constructor.
  - vm_compute; congruence.
  -   exists a0, a1, outs. split; [exact E|]. split; [symmetry; exact (Forall2_length F) | split; assumption].
Defined.
