(* ===== verification/CLUptime.v ===== *)
(** * Concentrated liquidity: incentive records, global accumulators and ticks
    ([incentives.go], [spread_rewards.go], [tick.go])

    A pool has one spread-reward accumulator and one accumulator for every
    supported uptime, whose values per unit of liquidity only grow.  Before
    anything that depends on liquidity changes, the uptime accumulators are
    brought up to the block time: every incentive record emits its rate times
    the time elapsed, divided by the liquidity in range.  A tick stores the
    part of each accumulator that accrued on the other side of it, and crossing
    the tick turns that part into its complement. *)

From stdpp Require Import base gmap strings pretty.
From Stdlib Require Import ZArith Lia List Bool.
From S2P Require Import Prelude GoBig BigDec SdkMath CLTick Store CLKeys GoState DecCoins Accum CLState CLPool.
Import ListNotations.

Definition oneDecScalingFactor : Z := OneDec.
Definition perUnitLiqScalingFactor : Z := 10 ^ 27 * OneDec.
Definition dec1e9 : Z := 10 ^ 9 * OneDec.
Definition oneDec : Z := OneDec.

Definition MigratedIncentiveAccumulatorPoolIDs : list Z := [1423; 1213; 1298; 1297; 1292; 1431].
Definition MigratedSpreadFactorAccumulatorPoolIDsV25 : list Z := [1260; 1264; 1477; 1134; 1261; 1281; 1423].
Definition MigratedIncentiveAccumulatorPoolIDsV24 : list Z := [1281; 1276; 1275; 1260].

Definition mem (x : Z) (l : list Z) : bool := existsb (Z.eqb x) l.

(** [defer recover()]: a panic of the body becomes an error. *)
Definition recovered_as {A} (e : string) (r : Res A) : Res A :=
  match r with Panic _ => Err e | r => r end.

(** [slices.IndexFunc]; -1 is an error. *)
Fixpoint index_of (x : Z) (l : list Z) (i : Z) : option Z :=
  match l with
  | [] => None
  | y :: l' => if y =? x then Some i else index_of x l' (i + 1)
  end.

Definition findUptimeIndex (uptime : Z) : Res Z :=
  match index_of uptime SupportedUptimes 0 with
  | Some i => Ok i
  | None => Err "InvalidUptimeIndexError"
  end.

Section Amounts.
Context {S : SdkMath}.

Definition scaleUpTotalEmittedAmount (totalEmittedAmount scalingFactor : Z) : Res Z :=
  recovered_as "IncentiveScalingFactorOverflowError" (dec_MulTruncate totalEmittedAmount scalingFactor).

Definition computeTotalIncentivesToEmit (timeElapsedSeconds emissionRate : Z) : Res Z :=
  recovered_as "IncentiveEmissionOvrflowError" (dec_MulTruncate timeElapsedSeconds emissionRate).

Definition scaleDownIncentiveAmount (incentiveAmount scalingFactor : Z) : Res Z :=
  amount <- int_ToLegacyDec incentiveAmount ;;
  q <- dec_QuoTruncate amount scalingFactor ;;
  dec_TruncateInt q.

Definition scaleDownSpreadRewardAmount (incentiveAmount scalingFactor : Z) : Res Z :=
  amount <- int_ToLegacyDec incentiveAmount ;;
  q <- dec_QuoTruncate amount scalingFactor ;;
  dec_TruncateInt q.

Context {C : DecCoinsOps}.

Definition with_remaining (r : IncentiveRecord) (amount : Z) : IncentiveRecord :=
  {| IncentiveId := IncentiveId r; IncentivePoolId := IncentivePoolId r; MinUptime := MinUptime r;
     RecordBody := {| RemainingDenom := RemainingDenom (RecordBody r); RemainingAmount := amount;
                      EmissionRate := EmissionRate (RecordBody r); StartTime := StartTime (RecordBody r) |} |}.

(** The body of the loop of [calcAccruedIncentivesForAccum]: the coins to add
    and the new record, [None] on [continue]. *)
Definition accrueRecord (BlockTime accumUptime liquidityInAccum timeElapsed scaling : Z)
    (r : IncentiveRecord) : Res (option (DecCoins * IncentiveRecord)) :=
  let body := RecordBody r in
  if negb (StartTime body <? BlockTime) || negb (MinUptime r =? accumUptime) then Ok None else
  match computeTotalIncentivesToEmit timeElapsed (EmissionRate body) with
  | Err _ => Ok None
  | Panic m => Panic m
  | Ok totalEmittedAmount =>
    match scaleUpTotalEmittedAmount totalEmittedAmount scaling with
    | Err _ => Ok None
    | Panic m => Panic m
    | Ok scaledTotalEmittedAmount =>
      incentivesPerLiquidity <- dec_QuoTruncate scaledTotalEmittedAmount liquidityInAccum ;;
      emitted <- NewDecCoinFromDec (RemainingDenom body) incentivesPerLiquidity ;;
      let remainingRewards := RemainingAmount body in
      if totalEmittedAmount <=? remainingRewards then
        remaining <- dec_Sub remainingRewards totalEmittedAmount ;;
        Ok (Some (emitted, with_remaining r remaining))
      else
        match scaleUpTotalEmittedAmount remainingRewards scaling with
        | Err _ => Ok None
        | Panic m => Panic m
        | Ok remainingRewardsScaled =>
          remainingPerLiquidity <- dec_QuoTruncate remainingRewardsScaled liquidityInAccum ;;
          emitted <- NewDecCoinFromDec (RemainingDenom body) remainingPerLiquidity ;;
          Ok (Some (emitted, with_remaining r 0))
        end
    end
  end.

Fixpoint accrueRecords (BlockTime accumUptime liquidityInAccum timeElapsed scaling : Z)
    (records : list IncentiveRecord) (incentives : DecCoins) : Res (DecCoins * list IncentiveRecord) :=
  match records with
  | [] => Ok (incentives, [])
  | r :: rest =>
      step <- accrueRecord BlockTime accumUptime liquidityInAccum timeElapsed scaling r ;;
      '(incentives', r') <-
        match step with
        | None => Ok (incentives, r)
        | Some (emitted, r') => i <- dc_Add incentives emitted ;; Ok (i, r')
        end ;;
      '(total, rest') <- accrueRecords BlockTime accumUptime liquidityInAccum timeElapsed scaling rest incentives' ;;
      Ok (total, r' :: rest')
  end.

Definition calcAccruedIncentivesForAccum (BlockTime accumUptime liquidityInAccum timeElapsed : Z)
    (poolIncentiveRecords : list IncentiveRecord) (scaling : Z) : Res (DecCoins * list IncentiveRecord) :=
  if negb (liquidityInAccum >? 0) || negb (timeElapsed >? 0)
  then Err "QualifyingLiquidityOrTimeElapsedNotPositiveError"
  else accrueRecords BlockTime accumUptime liquidityInAccum timeElapsed scaling poolIncentiveRecords NewDecCoins.

(** [osmoutils/coin_helper.go] *)
Fixpoint zip_with_res (f : DecCoins -> DecCoins -> Res DecCoins) (a b : list DecCoins) : Res (list DecCoins) :=
  match a, b with
  | x :: a', y :: b' => z <- f x y ;; rest <- zip_with_res f a' b' ;; Ok (z :: rest)
  | _, _ => Ok []
  end.

Definition SubDecCoinArrays (a b : list DecCoins) : Res (list DecCoins) :=
  if negb (Nat.eqb (List.length a) (List.length b)) then Err "DecCoin arrays must be of equal length to be subtracted"
  else zip_with_res dc_Sub a b.

Definition SafeSubDecCoinArrays (a b : list DecCoins) : Res (list DecCoins) :=
  if negb (Nat.eqb (List.length a) (List.length b)) then Err "DecCoin arrays must be of equal length to be subtracted"
  else zip_with_res (fun x y => '(r, _) <- dc_SafeSub x y ;; Ok r) a b.

Definition calculateSpreadRewardGrowth (targetTick : Z) (ticksGrowth : DecCoins) (currentTick : Z)
    (growthGlobal : DecCoins) (isUpperTick : bool) : Res DecCoins :=
  if (isUpperTick && (currentTick >=? targetTick)) || (negb isUpperTick && (currentTick <? targetTick))
  then dc_Sub growthGlobal ticksGrowth
  else Ok ticksGrowth.

End Amounts.

(** The uptime indices [0 .. 5]. *)
Definition uptimeIndices : list Z := [0; 1; 2; 3; 4; 5].

Section Uptime.
Context {S : SdkMath} {B : BigEndian} {C : DecCoinsOps} {E : ExternalKeepers C}
  {KT : KVStore TickInfo} {KA : KVStore StoreValue}.

(** ** Accumulators of a pool *)

Definition createSpreadRewardAccumulator (poolId : Z) : M Keeper unit :=
  on_accum_store (MakeAccumulator (KeySpreadRewardPoolAccumulator poolId)).

Definition GetSpreadRewardAccumulator (poolId : Z) : M Keeper AccumulatorObject :=
  fun k => (GetAccumulator (k_accums k) (KeySpreadRewardPoolAccumulator poolId), k).

Definition createUptimeAccumulators (poolId : Z) : M Keeper unit :=
  for_each uptimeIndices (fun uptimeIndex =>
    on_accum_store (MakeAccumulator (KeyUptimeAccumulator poolId uptimeIndex))).

Fixpoint get_accums (poolId : Z) (indices : list Z) : M Keeper (list AccumulatorObject) :=
  match indices with
  | [] => ret []
  | uptimeIndex :: rest =>
      acc <~ (fun k => (GetAccumulator (k_accums k) (KeyUptimeAccumulator poolId uptimeIndex), k)) ;;
      accums <~ get_accums poolId rest ;;
      ret (acc :: accums)
  end.

Definition GetUptimeAccumulators (poolId : Z) : M Keeper (list AccumulatorObject) :=
  get_accums poolId uptimeIndices.

Definition GetUptimeAccumulatorValues (poolId : Z) : M Keeper (list DecCoins) :=
  uptimeAccums <~ GetUptimeAccumulators poolId ;;
  ret (map valuePerShare uptimeAccums).

Definition getInitialUptimeGrowthOppositeDirectionOfLastTraversalForTick (pool : Pool) (tick : Z) :
    M Keeper (list DecCoins) :=
  if CurrentTick pool >=? tick then GetUptimeAccumulatorValues (Id pool)
  else ret (map (fun _ => NewDecCoins) SupportedUptimes).

Definition getInitialSpreadRewardGrowthOppositeDirectionOfLastTraversalForTick (pool : Pool) (tick : Z) :
    M Keeper DecCoins :=
  if CurrentTick pool >=? tick
  then acc <~ GetSpreadRewardAccumulator (Id pool) ;; ret (valuePerShare acc)
  else ret NewDecCoins.

(** ** Incentive records *)

Definition setIncentiveRecord (r : IncentiveRecord) : M Keeper unit :=
  uptimeIndex <~ lift (findUptimeIndex (MinUptime r)) ;;
  let key := (IncentivePoolId r, uptimeIndex, IncentiveId r) in
  k <~ get ;;
  if bool_decide (is_Some (k_incentives k !! key)) && (RemainingAmount (RecordBody r) =? 0)
  then modify (set_incentives (delete key))
  else when (RemainingAmount (RecordBody r) >? 0) (modify (set_incentives <[key := RecordBody r]>)).

Definition setMultipleIncentiveRecords (records : list IncentiveRecord) : M Keeper unit :=
  for_each records setIncentiveRecord.

Definition GetIncentiveRecord (poolId minUptime incentiveRecordId : Z) : M Keeper IncentiveRecord :=
  uptimeIndex <~ lift (findUptimeIndex minUptime) ;;
  found <~ ask (fun k => k_incentives k !! (poolId, uptimeIndex, incentiveRecordId)) ;;
  match found with
  | None => fail "IncentiveRecordNotFoundError"
  | Some body => ret {| IncentiveId := incentiveRecordId; IncentivePoolId := poolId;
                        RecordBody := body; MinUptime := minUptime |}
  end.

(** [ParseFullIncentiveRecordFromBz] of a decoded entry. *)
Definition full_record (kv : (Z * Z * Z) * IncentiveRecordBody) : IncentiveRecord :=
  let '((poolId, uptimeIndex, id), body) := kv in
  {| IncentiveId := id; IncentivePoolId := poolId; RecordBody := body;
     MinUptime := nth (Z.to_nat uptimeIndex) SupportedUptimes 0 |}.

Definition GetAllIncentiveRecordsForPool (poolId : Z) : M Keeper (list IncentiveRecord) :=
  ask (fun k => map full_record
    (base.filter (fun kv : (Z * Z * Z) * IncentiveRecordBody => kv.1.1.1 = poolId) (map_to_list (k_incentives k)))).

Definition getAllIncentiveRecordsForUptime (poolId minUptime : Z) : M Keeper (list IncentiveRecord) :=
  getPoolById poolId ~;;
  uptimeIndex <~ lift (findUptimeIndex minUptime) ;;
  ask (fun k => map full_record
    (base.filter (fun kv : (Z * Z * Z) * IncentiveRecordBody => kv.1.1.1 = poolId /\ kv.1.1.2 = uptimeIndex)
       (map_to_list (k_incentives k)))).

Definition GetIncentivePoolIDMigrationThreshold : M Keeper Z :=
  fun k => match k_incentiveThreshold k with
           | Some t => (Ok t, k)
           | None => (Err "incentive accumulator migration threshold not found", k)
           end.

Definition GetSpreadFactorPoolIDMigrationThreshold : M Keeper Z :=
  fun k => match k_spreadThreshold k with
           | Some t => (Ok t, k)
           | None => (Err "spread reward accumulator migration threshold not found", k)
           end.

Definition SetIncentivePoolIDMigrationThreshold (poolIDThreshold : Z) : M Keeper unit :=
  modify (set_incentiveThreshold (fun _ => Some poolIDThreshold)).

Definition SetSpreadFactorPoolIDMigrationThreshold (poolIDThreshold : Z) : M Keeper unit :=
  modify (set_spreadThreshold (fun _ => Some poolIDThreshold)).

Definition getIncentiveScalingFactorForPool (poolID : Z) : M Keeper Z :=
  migrationThreshold <~ GetIncentivePoolIDMigrationThreshold ;;
  if poolID >? migrationThreshold then ret perUnitLiqScalingFactor
  else if mem poolID MigratedIncentiveAccumulatorPoolIDs then ret perUnitLiqScalingFactor
  else if mem poolID MigratedIncentiveAccumulatorPoolIDsV24 then ret perUnitLiqScalingFactor
  else ret oneDecScalingFactor.

Definition getSpreadFactorScalingFactorForPool (poolID : Z) : M Keeper Z :=
  migrationThreshold <~ GetSpreadFactorPoolIDMigrationThreshold ;;
  if poolID >? migrationThreshold then ret perUnitLiqScalingFactor
  else if mem poolID MigratedSpreadFactorAccumulatorPoolIDsV25 then ret perUnitLiqScalingFactor
  else ret oneDecScalingFactor.

(** ** Bringing the uptime accumulators to the block time *)

(** The loop over the uptime accumulators. *)
Fixpoint accrueAccums (BlockTime liquidity timeElapsed scaling : Z) (uptimes : list Z)
    (accums : list AccumulatorObject) (records : list IncentiveRecord) :
    M Keeper (list AccumulatorObject * list IncentiveRecord) :=
  match accums with
  | [] => ret ([], records)
  | acc :: rest =>
      match uptimes with
      | [] => panic "index out of range"
      | uptime :: uptimes' =>
          '(incentives, records') <~
            lift (calcAccruedIncentivesForAccum BlockTime uptime liquidity timeElapsed records scaling) ;;
          '(_, acc') <~ on_accum acc (AddToAccumulator incentives) ;;
          '(rest', records'') <~ accrueAccums BlockTime liquidity timeElapsed scaling uptimes' rest records' ;;
          ret (acc' :: rest', records'')
      end
  end.

(** The pool and the accumulator objects are pointers: what they hold after
    the call is returned. *)
Definition updateGivenPoolUptimeAccumulatorsToNow (BlockTime : Z) (pool : Pool)
    (uptimeAccums : list AccumulatorObject) : M Keeper (Pool * list AccumulatorObject) :=
  timeElapsedSec <~ lift (dec_Quo (time_Sub BlockTime (LastLiquidityUpdate pool) * OneDec) dec1e9) ;;
  if timeElapsedSec =? 0 then ret (pool, uptimeAccums) else
  if timeElapsedSec <? 0 then fail "TimeElapsedNotPositiveError" else
  poolIncentiveRecords <~ GetAllIncentiveRecordsForPool (Id pool) ;;
  scaling <~ getIncentiveScalingFactorForPool (Id pool) ;;
  '(accums', records) <~
    (if negb (CurrentTickLiquidity pool <? oneDec)
     then accrueAccums BlockTime (CurrentTickLiquidity pool) timeElapsedSec scaling SupportedUptimes
            uptimeAccums poolIncentiveRecords
     else ret (uptimeAccums, poolIncentiveRecords)) ;;
  setMultipleIncentiveRecords records ~;;
  let pool' := SetLastLiquidityUpdate pool BlockTime in
  setPool pool' ~;;
  ret (pool', accums').

Definition updatePoolUptimeAccumulatorsToNowWithPool (BlockTime : Z) (pool : Pool) : M Keeper Pool :=
  uptimeAccums <~ GetUptimeAccumulators (Id pool) ;;
  '(pool', _) <~ updateGivenPoolUptimeAccumulatorsToNow BlockTime pool uptimeAccums ;;
  ret pool'.

Definition UpdatePoolUptimeAccumulatorsToNow (BlockTime poolId : Z) : M Keeper unit :=
  pool <~ getPoolById poolId ;;
  updatePoolUptimeAccumulatorsToNowWithPool BlockTime pool ~;; ret tt.

(** ** Ticks *)

Definition SetTickInfo (poolId tickIndex : Z) (tickInfo : TickInfo) : M Keeper unit :=
  modify (set_ticks (fun st => st_set st (KeyTick poolId tickIndex) tickInfo)).

Definition RemoveTickInfo (poolId tickIndex : Z) : M Keeper unit :=
  modify (set_ticks (fun st => st_delete st (KeyTick poolId tickIndex))).

Definition makeInitialTickInfo (BlockTime poolId tickIndex : Z) : M Keeper TickInfo :=
  pool <~ getPoolById poolId ;;
  growth <~ getInitialSpreadRewardGrowthOppositeDirectionOfLastTraversalForTick pool tickIndex ;;
  pool <~ updatePoolUptimeAccumulatorsToNowWithPool BlockTime pool ;;
  trackers <~ getInitialUptimeGrowthOppositeDirectionOfLastTraversalForTick pool tickIndex ;;
  ret {| LiquidityGross := 0; LiquidityNet := 0;
         SpreadRewardGrowthOppositeDirectionOfLastTraversal := growth; UptimeTrackers := trackers |}.

Definition GetTickInfo (BlockTime poolId tickIndex : Z) : M Keeper TickInfo :=
  found <~ ask (fun k => st_get (k_ticks k) (KeyTick poolId tickIndex)) ;;
  match found with
  | None => makeInitialTickInfo BlockTime poolId tickIndex
  | Some tickStruct => ret tickStruct
  end.

Definition initOrUpdateTick (BlockTime poolId tickIndex liquidityDelta : Z) (upper : bool) : M Keeper bool :=
  tickInfo <~ GetTickInfo BlockTime poolId tickIndex ;;
  liquidityAfter <~ lift (dec_Add (LiquidityGross tickInfo) liquidityDelta) ;;
  liquidityNet <~ lift (if upper then dec_Sub (LiquidityNet tickInfo) liquidityDelta
                        else dec_Add (LiquidityNet tickInfo) liquidityDelta) ;;
  SetTickInfo poolId tickIndex
    {| LiquidityGross := liquidityAfter; LiquidityNet := liquidityNet;
       SpreadRewardGrowthOppositeDirectionOfLastTraversal := SpreadRewardGrowthOppositeDirectionOfLastTraversal tickInfo;
       UptimeTrackers := UptimeTrackers tickInfo |} ~;;
  ret ((liquidityAfter =? 0) && (liquidityNet =? 0)).

(** [updatedUptimeTrackers[uptimeId]] for each accumulator; a missing tracker is an
    index out of range. *)
Fixpoint flipTrackers (accums : list AccumulatorObject) (trackers : list DecCoins) : Res (list DecCoins) :=
  match accums with
  | [] => Ok trackers
  | acc :: accums' =>
      match trackers with
      | [] => Panic "index out of range"
      | t :: trackers' =>
          t' <- dc_Sub (valuePerShare acc) t ;;
          rest <- flipTrackers accums' trackers' ;;
          Ok (t' :: rest)
      end
  end.

Definition crossTick (poolId tickIndex : Z) (tickInfo : TickInfo) (growthDenom : string) (growthAmount : Z)
    (spreadRewardAccumValue : DecCoins) (uptimeAccums : list AccumulatorObject) : M Keeper unit :=
  total <~ lift (dc_Add spreadRewardAccumValue (dc_coin growthDenom growthAmount)) ;;
  growth <~ lift (dc_Sub total (SpreadRewardGrowthOppositeDirectionOfLastTraversal tickInfo)) ;;
  trackers <~ lift (flipTrackers uptimeAccums (UptimeTrackers tickInfo)) ;;
  SetTickInfo poolId tickIndex
    {| LiquidityGross := LiquidityGross tickInfo; LiquidityNet := LiquidityNet tickInfo;
       SpreadRewardGrowthOppositeDirectionOfLastTraversal := growth; UptimeTrackers := trackers |}.

(** ** Growth inside and outside a range *)

Definition getSpreadRewardGrowthOutside (BlockTime poolId lowerTick upperTick : Z) : M Keeper DecCoins :=
  pool <~ getPoolById poolId ;;
  let currentTick := CurrentTick pool in
  lowerTickInfo <~ GetTickInfo BlockTime poolId lowerTick ;;
  upperTickInfo <~ GetTickInfo BlockTime poolId upperTick ;;
  acc <~ GetSpreadRewardAccumulator poolId ;;
  above <~ lift (calculateSpreadRewardGrowth upperTick
    (SpreadRewardGrowthOppositeDirectionOfLastTraversal upperTickInfo) currentTick (valuePerShare acc) true) ;;
  below <~ lift (calculateSpreadRewardGrowth lowerTick
    (SpreadRewardGrowthOppositeDirectionOfLastTraversal lowerTickInfo) currentTick (valuePerShare acc) false) ;;
  lift (dc_Add above below).

Definition GetUptimeGrowthInsideRange (BlockTime poolId lowerTick upperTick : Z) : M Keeper (list DecCoins) :=
  pool <~ getPoolById poolId ;;
  globalUptimeValues <~ GetUptimeAccumulatorValues poolId ;;
  let currentTick := CurrentTick pool in
  lowerTickInfo <~ GetTickInfo BlockTime poolId lowerTick ;;
  upperTickInfo <~ GetTickInfo BlockTime poolId upperTick ;;
  let lowerValues := UptimeTrackers lowerTickInfo in
  let upperValues := UptimeTrackers upperTickInfo in
  if currentTick <? lowerTick then lift (SafeSubDecCoinArrays lowerValues upperValues)
  else if currentTick <? upperTick then
    globalMinusUpper <~ lift (SubDecCoinArrays globalUptimeValues upperValues) ;;
    lift (SafeSubDecCoinArrays globalMinusUpper lowerValues)
  else lift (SafeSubDecCoinArrays upperValues lowerValues).

Definition GetUptimeGrowthOutsideRange (BlockTime poolId lowerTick upperTick : Z) : M Keeper (list DecCoins) :=
  globalUptimeValues <~ GetUptimeAccumulatorValues poolId ;;
  uptimeGrowthInside <~ GetUptimeGrowthInsideRange BlockTime poolId lowerTick upperTick ;;
  lift (SubDecCoinArrays globalUptimeValues uptimeGrowthInside).

End Uptime.
