(* ===== verification/CLRewards.v ===== *)
(** * Concentrated liquidity: rewards of positions
    ([spread_rewards.go], [incentives.go])

    The shares of a position in an accumulator are its liquidity, and what it
    accrues is the growth of the accumulator inside its range.  Between updates
    the accumulator position holds the growth inside at the last update; before
    an update or a claim it is replaced by that plus the growth outside now, so
    that the generic accumulator code computes the growth inside since the last
    update. *)

From stdpp Require Import base gmap strings pretty.
From Stdlib Require Import ZArith Lia List Bool.
From S2P Require Import Prelude GoBig BigDec SdkMath CLTick Store CLKeys GoState DecCoins Accum CLState CLPool CLUptime.
Import ListNotations.

Section Rewards.
Context {S : SdkMath} {B : BigEndian} {C : DecCoinsOps} {E : ExternalKeepers C}
  {KT : KVStore TickInfo} {KA : KVStore StoreValue}.

(** ** Reading positions ([position.go]) *)

Definition hasPosition (positionId : Z) : M Keeper bool :=
  ask (fun k => bool_decide (is_Some (k_positions k !! positionId))).

Definition GetPosition (positionId : Z) : M Keeper Position :=
  fun k => match k_positions k !! positionId with
           | Some p => (Ok p, k)
           | None => (Err "PositionIdNotFoundError", k)
           end.

Definition GetPositionLiquidity (positionId : Z) : M Keeper Z :=
  position <~ GetPosition positionId ;; ret (Liquidity position).

Definition emptyOptions : option Options := Some tt.

(** ** Accumulator positions *)

Definition updatePositionToInitValuePlusGrowthOutside (acc : AccumulatorObject) (positionKey : string)
    (growthOutside : DecCoins) : M Keeper AccumulatorObject :=
  position <~ (fun k => (Accum.GetPosition acc (k_accums k) positionKey, k)) ;;
  interval <~ lift (dc_Add (AccumValuePerShare position) growthOutside) ;;
  '(_, acc') <~ on_accum acc (SetPositionIntervalAccumulation positionKey interval) ;;
  ret acc'.

Definition updateAccumAndClaimRewards (acc : AccumulatorObject) (positionKey : string)
    (growthOutside : DecCoins) : M Keeper (Coins * DecCoins) :=
  acc <~ updatePositionToInitValuePlusGrowthOutside acc positionKey growthOutside ;;
  '((claimed, dust), acc) <~ on_accum acc (ClaimRewards positionKey) ;;
  hasPos <~ ask (fun k => HasPosition acc (k_accums k) positionKey) ;;
  (if hasPos then
     '(inside, _) <~ lift (dc_SafeSub (valuePerShare acc) growthOutside) ;;
     on_accum acc (SetPositionIntervalAccumulation positionKey inside) ~;; ret tt
   else ret tt) ~;;
  ret (claimed, dust).

Definition initOrUpdatePositionSpreadRewardAccumulator (BlockTime poolId lowerTick upperTick positionId
    liquidityDelta : Z) : M Keeper unit :=
  acc <~ GetSpreadRewardAccumulator poolId ;;
  let positionKey := KeySpreadRewardPositionAccumulator positionId in
  hasPos <~ ask (fun k => HasPosition acc (k_accums k) positionKey) ;;
  growthOutside <~ getSpreadRewardGrowthOutside BlockTime poolId lowerTick upperTick ;;
  '(growthInside, _) <~ lift (dc_SafeSub (valuePerShare acc) growthOutside) ;;
  if negb hasPos then
    if negb (liquidityDelta >? 0) then fail "NonPositiveLiquidityForNewPositionError"
    else on_accum acc (NewPositionIntervalAccumulation positionKey liquidityDelta growthInside None) ~;; ret tt
  else
    acc <~ updatePositionToInitValuePlusGrowthOutside acc positionKey growthOutside ;;
    on_accum acc (UpdatePositionIntervalAccumulation positionKey liquidityDelta growthInside) ~;; ret tt.

(** The loop over the uptime accumulators. *)
Fixpoint updatePositionInAccums (accums : list AccumulatorObject) (inside outside : list DecCoins)
    (positionName : string) (liquidity liquidityDelta : Z) : M Keeper unit :=
  match accums with
  | [] => ret tt
  | acc :: accums' =>
      match inside, outside with
      | i :: inside', o :: outside' =>
          recordExists <~ ask (fun k => HasPosition acc (k_accums k) positionName) ;;
          (if negb recordExists then
             if negb (liquidityDelta >? 0) then fail "NonPositiveLiquidityForNewPositionError"
             else on_accum acc (NewPositionIntervalAccumulation positionName liquidity i emptyOptions) ~;; ret tt
           else
             acc <~ updatePositionToInitValuePlusGrowthOutside acc positionName o ;;
             on_accum acc (UpdatePositionIntervalAccumulation positionName liquidityDelta i) ~;; ret tt) ~;;
          updatePositionInAccums accums' inside' outside' positionName liquidity liquidityDelta
      | _, _ => panic "index out of range"
      end
  end.

Definition initOrUpdatePositionUptimeAccumulators (BlockTime poolId liquidity lowerTick upperTick
    liquidityDelta positionId : Z) : M Keeper unit :=
  UpdatePoolUptimeAccumulatorsToNow BlockTime poolId ~;;
  uptimeAccumulators <~ GetUptimeAccumulators poolId ;;
  inside <~ GetUptimeGrowthInsideRange BlockTime poolId lowerTick upperTick ;;
  outside <~ GetUptimeGrowthOutsideRange BlockTime poolId lowerTick upperTick ;;
  updatePositionInAccums uptimeAccumulators inside outside (KeyPositionId positionId) liquidity liquidityDelta.

(** ** Spread rewards *)

(** Scaling the claimed coins down, coin by coin; a zero coin is not appended. *)
Fixpoint scaleDownCoins (f : Z -> Res Z) (keep : Z -> bool) (coins : list (string * Z)) (acc : Coins) : Res Coins :=
  match coins with
  | [] => Ok acc
  | (denom, amount) :: rest =>
      scaled <- f amount ;;
      scaleDownCoins f keep rest (if keep scaled then coins_append acc denom scaled else acc)
  end.

Definition prepareClaimableSpreadRewards (BlockTime positionId : Z) : M Keeper Coins :=
  position <~ GetPosition positionId ;;
  acc <~ GetSpreadRewardAccumulator (PoolId position) ;;
  let positionKey := KeySpreadRewardPositionAccumulator positionId in
  hasPos <~ ask (fun k => HasPosition acc (k_accums k) positionKey) ;;
  if negb hasPos then fail "SpreadRewardPositionNotFoundError" else
  growthOutside <~ getSpreadRewardGrowthOutside BlockTime (PoolId position) (LowerTick position) (UpperTick position) ;;
  '(claimedScaled, dustScaled) <~ updateAccumAndClaimRewards acc positionKey growthOutside ;;
  scaling <~ getSpreadFactorScalingFactorForPool (PoolId position) ;;
  '(claimed, dust) <~
    (if scaling =? oneDec then ret (claimedScaled, dustScaled)
     else c <~ lift (scaleDownCoins (fun a => scaleDownSpreadRewardAmount a scaling) (fun a => negb (a =? 0))
                       (coins_list claimedScaled) coins_empty) ;;
          ret (c, NewDecCoins)) ;;
  (if negb (dc_IsZero dust) then
     acc <~ GetSpreadRewardAccumulator (PoolId position) ;;
     (if negb (totalShares acc =? 0) then
        perShare <~ lift (dc_QuoDecTruncate dust (totalShares acc)) ;;
        on_accum acc (AddToAccumulator perShare) ~;; ret tt
      else ret tt)
   else ret tt) ~;;
  ret claimed.

Definition collectSpreadRewards (BlockTime : Z) (sender : string) (positionId : Z) : M Keeper Coins :=
  position <~ GetPosition positionId ;;
  if negb (String.eqb sender (PositionAddress position)) then fail "NotPositionOwnerError" else
  claimed <~ prepareClaimableSpreadRewards BlockTime positionId ;;
  if coins_IsZero claimed then ret coins_empty else
  pool <~ getPoolById (PoolId position) ;;
  external (SendCoins (SpreadRewardsAddress pool) sender claimed) ~;;
  ret claimed.

(** A query runs on a copy of the state, which is dropped. *)
Definition on_cache {A} (c : M Keeper A) : M Keeper A := fun k => (fst (c k), k).

Definition GetClaimableSpreadRewards (BlockTime positionId : Z) : M Keeper Coins :=
  on_cache (prepareClaimableSpreadRewards BlockTime positionId).

(** ** Incentives *)

(** The loop over the uptime accumulators: what is collected, what is
    forfeited, and the forfeited coins by uptime, before scaling down. *)
Fixpoint claimAccums (accums : list AccumulatorObject) (outside : list DecCoins) (uptimes : list Z)
    (positionName : string) (positionAge scaling : Z) (collected forfeited : Coins) :
    M Keeper (Coins * Coins * list Coins) :=
  match accums with
  | [] => ret (collected, forfeited, [])
  | acc :: accums' =>
      match outside, uptimes with
      | o :: outside', uptime :: uptimes' =>
          hasPos <~ ask (fun k => HasPosition acc (k_accums k) positionName) ;;
          '(collected, forfeited, byUptime) <~
            (if hasPos then
               '(claimedScaled, _) <~ updateAccumAndClaimRewards acc positionName o ;;
               claimed <~ lift (scaleDownCoins (fun a => scaleDownIncentiveAmount a scaling) (fun a => a >? 0)
                                  (coins_list claimedScaled) coins_empty) ;;
               (if positionAge <? uptime
                then f <~ lift (coins_Add forfeited claimed) ;; ret (collected, f, claimedScaled)
                else c <~ lift (coins_Add collected claimed) ;; ret (c, forfeited, coins_empty))
             else ret (collected, forfeited, coins_empty)) ;;
          '(collected, forfeited, rest) <~
            claimAccums accums' outside' uptimes' positionName positionAge scaling collected forfeited ;;
          ret (collected, forfeited, byUptime :: rest)
      | _, _ => panic "index out of range"
      end
  end.

Definition prepareClaimAllIncentivesForPosition (BlockTime positionId : Z) : M Keeper (Coins * Coins * list Coins) :=
  position <~ GetPosition positionId ;;
  UpdatePoolUptimeAccumulatorsToNow BlockTime (PoolId position) ~;;
  let positionAge := time_Sub BlockTime (JoinTime position) in
  if positionAge <? 0 then fail "NegativeDurationError" else
  uptimeAccumulators <~ GetUptimeAccumulators (PoolId position) ;;
  outside <~ GetUptimeGrowthOutsideRange BlockTime (PoolId position) (LowerTick position) (UpperTick position) ;;
  scaling <~ getIncentiveScalingFactorForPool (PoolId position) ;;
  claimAccums uptimeAccumulators outside SupportedUptimes (KeyPositionId positionId) positionAge scaling
    coins_empty coins_empty.

Definition GetClaimableIncentives (BlockTime positionId : Z) : M Keeper (Coins * Coins) :=
  '(collected, forfeited, _) <~ on_cache (prepareClaimAllIncentivesForPosition BlockTime positionId) ;;
  ret (collected, forfeited).

Definition collectIncentives (BlockTime : Z) (sender : string) (positionId : Z) :
    M Keeper (Coins * Coins * list Coins) :=
  position <~ GetPosition positionId ;;
  if negb (String.eqb sender (PositionAddress position)) then fail "NotPositionOwnerError" else
  '(collected, forfeited, byUptime) <~ prepareClaimAllIncentivesForPosition BlockTime (PositionId position) ;;
  if coins_IsZero collected && coins_IsZero forfeited then ret (collected, forfeited, byUptime) else
  pool <~ getPoolById (PoolId position) ;;
  when (negb (coins_IsZero collected)) (external (SendCoins (IncentivesAddress pool) sender collected)) ~;;
  ret (collected, forfeited, byUptime).

(** The coins of one uptime divided by the liquidity. *)
Fixpoint perLiquidity (coins : list (string * Z)) (liquidity : Z) (acc : DecCoins) : Res DecCoins :=
  match coins with
  | [] => Ok acc
  | (denom, amount) :: rest =>
      a <- int_ToLegacyDec amount ;;
      q <- dec_QuoTruncate a liquidity ;;
      c <- NewDecCoinFromDec denom q ;;
      acc' <- dc_Add acc c ;;
      perLiquidity rest liquidity acc'
  end.

Fixpoint redepositLoop (accums : list AccumulatorObject) (forfeits : list Coins) (liquidity : Z) : M Keeper unit :=
  match accums, forfeits with
  | acc :: accums', f :: forfeits' =>
      (if coins_IsZero f then ret tt
       else incentives <~ lift (perLiquidity (coins_list f) liquidity NewDecCoins) ;;
            on_accum acc (AddToAccumulator incentives) ~;; ret tt) ~;;
      redepositLoop accums' forfeits' liquidity
  | _, _ => ret tt
  end.

Definition redepositForfeitedIncentives (poolId : Z) (sender : string) (scaledForfeitedByUptime : list Coins)
    (totalForfeited : Coins) : M Keeper unit :=
  if negb (Nat.eqb (List.length scaledForfeitedByUptime) (List.length SupportedUptimes))
  then fail "InvalidForfeitedIncentivesLengthError" else
  pool <~ getPoolById poolId ;;
  let activeLiquidity := CurrentTickLiquidity pool in
  if activeLiquidity <? OneDec
  then external (SendCoins (IncentivesAddress pool) sender totalForfeited)
  else uptimeAccums <~ GetUptimeAccumulators poolId ;;
       redepositLoop uptimeAccums scaledForfeitedByUptime activeLiquidity.

(** The denomination of an [sdk.Coin] is valid; its amount is checked. *)
Definition CreateIncentive (BlockTime poolId : Z) (sender denom : string) (amount emissionRate startTime minUptime : Z) :
    M Keeper IncentiveRecord :=
  pool <~ getPoolById poolId ;;
  if (amount <? 0) || (amount =? 0) then fail "InvalidIncentiveCoinError" else
  if startTime <? BlockTime then fail "StartTimeTooEarlyError" else
  if negb (emissionRate >? 0) then fail "NonPositiveEmissionRateError" else
  params <~ ask k_params ;;
  if negb (mem minUptime (AuthorizedUptimes params)) then fail "InvalidMinUptimeError" else
  hasBalance <~ ask (fun k => HasBalance (k_ext k) sender denom amount) ;;
  if negb hasBalance then fail "IncentiveInsufficientBalanceError" else
  UpdatePoolUptimeAccumulatorsToNow BlockTime poolId ~;;
  incentiveRecordId <~ GetNextIncentiveRecordId ;;
  SetNextIncentiveRecordId (uint64 (incentiveRecordId + 1)) ~;;
  remaining <~ lift (int_ToLegacyDec amount) ;;
  let record := {| IncentiveId := incentiveRecordId; IncentivePoolId := poolId; MinUptime := minUptime;
                   RecordBody := {| RemainingDenom := denom; RemainingAmount := remaining;
                                    EmissionRate := emissionRate; StartTime := startTime |} |} in
  getAllIncentiveRecordsForUptime poolId minUptime ~;;
  setIncentiveRecord record ~;;
  coins <~ lift (NewCoins [(denom, amount)]) ;;
  external (SendCoins sender (IncentivesAddress pool) coins) ~;;
  ret record.

(** ** Messages ([msg_server.go]) *)

Fixpoint CollectSpreadRewards (BlockTime : Z) (sender : string) (positionIds : list Z) (total : Coins) : M Keeper Coins :=
  match positionIds with
  | [] => ret total
  | positionId :: rest =>
      collected <~ collectSpreadRewards BlockTime sender positionId ;;
      total <~ lift (coins_Add total collected) ;;
      CollectSpreadRewards BlockTime sender rest total
  end.

Fixpoint CollectIncentives (BlockTime : Z) (sender : string) (positionIds : list Z) (total forfeits : Coins) :
    M Keeper (Coins * Coins) :=
  match positionIds with
  | [] => ret (total, forfeits)
  | positionId :: rest =>
      '(collected, forfeited, _) <~ collectIncentives BlockTime sender positionId ;;
      total <~ lift (coins_Add total collected) ;;
      forfeits <~ lift (coins_Add forfeits forfeited) ;;
      CollectIncentives BlockTime sender rest total forfeits
  end.

End Rewards.
