(* ===== verification/CLSwap.v ===== *)
(** * Concentrated liquidity: swaps
    ([x/concentrated-liquidity/swaps.go])

    [computeOutAmtGivenIn] and [computeInAmtGivenOut] walk the initialized
    ticks from the pool's current price until the specified amount is used up
    or the price limit is reached.  With [updateAccumulators] they also collect
    the growth of spread rewards, cross ticks in the store and write the
    spread-reward accumulator; without it they only compute.  The state of
    the swap, the pool object, the tick iterator and the no-progress counter
    are threaded through a step function, and the [for] loop is a fixpoint
    with fuel whose exhaustion is a distinct result.  The iterator is the list
    of the ticks when it was opened: a swap crosses a tick at most once. *)

From stdpp Require Import base gmap strings.
From Stdlib Require Import ZArith Lia List Bool.
From S2P Require Import Prelude GoBig BigInt BigDec SdkMath CLMath CLTick Store CLKeys SwapStrategy SwapStep GoState DecCoins Accum CLState CLPool CLUptime.
Import ListNotations.

Record SwapState : Type := {
  amountSpecifiedRemaining : Z;
  amountCalculated : Z;
  sqrtPrice : Z;
  tick : Z;
  liquidity : Z;
  globalSpreadRewardGrowthPerUnitLiquidity : Z;
  globalSpreadRewardGrowth : Z
}.

Record SwapResult : Type := { AmountIn : Z; AmountOut : Z; SpreadRewards : Z }.

Record PoolUpdates : Type := { NewCurrentTick : Z; NewLiquidity : Z; NewSqrtPrice : Z }.

Definition swapNoProgressLimit : nat := 100.

Definition getZeroForOne (inDenom asset0 : string) : bool := String.eqb inDenom asset0.

Definition checkDenomValidity (inDenom outDenom asset0 asset1 : string) : Res unit :=
  if negb (String.eqb outDenom asset0) && negb (String.eqb outDenom asset1)
  then Err "TokenOutDenomNotInPoolError"
  else if negb (String.eqb inDenom asset0) && negb (String.eqb inDenom asset1)
  then Err "TokenInDenomNotInPoolError"
  else if String.eqb outDenom inDenom then Err "DenomDuplicatedError"
  else Ok tt.

Definition validateSwapProgressAndAmountConsumption
    (computedSqrtPrice sqrtPriceStart amountIn amountOut : Z) : Res unit :=
  if Equal computedSqrtPrice sqrtPriceStart && negb ((amountIn =? 0) && (amountOut =? 0))
  then Err "SwapNoProgressWithConsumptionError" else Ok tt.

Definition edgeCaseInequalityBasedOnSwapStrategy
    (isZeroForOne : bool) (nextInitializedTickSqrtPrice computedSqrtPrice : Z) : bool :=
  if isZeroForOne then GT nextInitializedTickSqrtPrice computedSqrtPrice
  else LT nextInitializedTickSqrtPrice computedSqrtPrice.

Definition setupSwapStrategy {S : SdkMath} (p : Pool) (spf : Z) (tokenInDenom : string) (priceLimit : Z) :
    Res (SwapStrategy * Z) :=
  let zeroForOne := getZeroForOne tokenInDenom (Token0 p) in
  match GetSqrtPriceLimit priceLimit zeroForOne with
  | Ok limit =>
      let strategy := New zeroForOne limit spf in
      ValidateSqrtPrice strategy limit (CurrentSqrtPrice p) ;;;
      Ok (strategy, limit)
  | Err _ => Err "SqrtRootCalculationError"
  | Panic m => Panic m
  end.

Definition newSwapState {S : SdkMath} (specifiedAmount : Z) (p : Pool) : Res SwapState :=
  amt <- int_ToLegacyDec specifiedAmount ;;
  Ok {| amountSpecifiedRemaining := amt; amountCalculated := 0; sqrtPrice := CurrentSqrtPrice p;
        tick := CurrentTick p; liquidity := CurrentTickLiquidity p;
        globalSpreadRewardGrowthPerUnitLiquidity := 0; globalSpreadRewardGrowth := 0 |}.

(** Returns the new state and the growth per unit of liquidity of the step. *)
Definition updateSpreadRewardGrowthGlobal {S : SdkMath} (ss : SwapState)
    (spreadRewardChargeTotal scalingFactor : Z) : Res (SwapState * Z) :=
  scaled <- (if scalingFactor =? oneDecScalingFactor then Ok spreadRewardChargeTotal
             else match scaleUpTotalEmittedAmount spreadRewardChargeTotal scalingFactor with
                  | Err _ => Err "failed to scale up spread reward charge"
                  | r => r
                  end) ;;
  total <- dec_Add (globalSpreadRewardGrowth ss) spreadRewardChargeTotal ;;
  if liquidity ss =? 0 then
    Ok ({| amountSpecifiedRemaining := amountSpecifiedRemaining ss; amountCalculated := amountCalculated ss;
           sqrtPrice := sqrtPrice ss; tick := tick ss; liquidity := liquidity ss;
           globalSpreadRewardGrowthPerUnitLiquidity := globalSpreadRewardGrowthPerUnitLiquidity ss;
           globalSpreadRewardGrowth := total |}, 0)
  else
    perUnit <- dec_QuoTruncate scaled (liquidity ss) ;;
    growth <- dec_Add (globalSpreadRewardGrowthPerUnitLiquidity ss) perUnit ;;
    Ok ({| amountSpecifiedRemaining := amountSpecifiedRemaining ss; amountCalculated := amountCalculated ss;
           sqrtPrice := sqrtPrice ss; tick := tick ss; liquidity := liquidity ss;
           globalSpreadRewardGrowthPerUnitLiquidity := growth; globalSpreadRewardGrowth := total |}, perUnit).

(** The counter of iterations that consumed nothing. *)
Definition countNoProgress (consumed : Z) (count : nat) : Res nat :=
  if consumed =? 0 then
    if Nat.leb swapNoProgressLimit count then Err "SwapNoProgressError" else Ok (Datatypes.S count)
  else Ok count.

(** [for amountSpecifiedRemaining.GT(smallestDec) && !sqrtPrice.Equal(sqrtPriceLimit)] *)
Definition continues (limit : Z) (st : SwapState) : bool :=
  (amountSpecifiedRemaining st >? SmallestDec) && negb (Equal (sqrtPrice st) limit).

(** The state after the amounts of a step are booked. *)
Definition stepped (st : SwapState) (remaining calculated price : Z) : SwapState :=
  {| amountSpecifiedRemaining := remaining; amountCalculated := calculated; sqrtPrice := price;
     tick := tick st; liquidity := liquidity st;
     globalSpreadRewardGrowthPerUnitLiquidity := globalSpreadRewardGrowthPerUnitLiquidity st;
     globalSpreadRewardGrowth := globalSpreadRewardGrowth st |}.

Definition moved (st : SwapState) (newTick newLiquidity : Z) : SwapState :=
  {| amountSpecifiedRemaining := amountSpecifiedRemaining st; amountCalculated := amountCalculated st;
     sqrtPrice := sqrtPrice st; tick := newTick; liquidity := newLiquidity;
     globalSpreadRewardGrowthPerUnitLiquidity := globalSpreadRewardGrowthPerUnitLiquidity st;
     globalSpreadRewardGrowth := globalSpreadRewardGrowth st |}.

(** [sdk.NewCoin] panics on a negative amount. *)
Definition NewCoinAmount (amount : Z) : Res Z :=
  if amount <? 0 then Panic "negative coin amount" else Ok amount.

Section Swaps.
Context {S : SdkMath} {B : BigEndian} {C : DecCoinsOps} {E : ExternalKeepers C}
  {KT : KVStore TickInfo} {KA : KVStore StoreValue}.

Definition tickIter : Type := list (bytes * TickInfo).

Definition InitializeNextTickIterator (strategy : SwapStrategy) (store : @St _ KT) (poolId cur : Z) : Res tickIter :=
  if ZeroForOne strategy then zfo_InitializeNextTickIterator store poolId cur
  else ofz_InitializeNextTickIterator store poolId cur.

Definition iteratorToNextInitializedTickSqrtPriceTarget (iter : tickIter) (strategy : SwapStrategy) :
    Res (Z * Z * Z) :=
  match iter with
  | [] => Err "RanOutOfTicksForPoolError"
  | (key, _) :: _ =>
      nextInitializedTick <- TickIndexFromBytes key ;;
      match TickToSqrtPrice nextInitializedTick with
      | Ok nextInitializedTickSqrtPrice =>
          Ok (nextInitializedTick, nextInitializedTickSqrtPrice,
              GetSqrtTargetPrice strategy nextInitializedTickSqrtPrice)
      | Err _ => Err "could not convert next tick to nextSqrtPrice"
      | Panic m => Panic m
      end
  end.

Definition getPoolForSwap (poolId : Z) : M Keeper Pool :=
  p <~ getPoolById poolId ;;
  if negb (PoolHasPosition p) then fail "NoSpotPriceWhenNoLiquidityError" else ret p.

Definition swapSetup (poolId : Z) (tokenInDenom tokenOutDenom : string) (getAccumulators : bool) :
    M Keeper (Pool * option AccumulatorObject) :=
  p <~ getPoolForSwap poolId ;;
  lift (checkDenomValidity tokenInDenom tokenOutDenom (Token0 p) (Token1 p)) ~;;
  if getAccumulators
  then acc <~ GetSpreadRewardAccumulator poolId ;; ret (p, Some acc)
  else ret (p, None).

(** The cache of uptime accumulators is never kept (the assignment is to the
    local pointer), so they are fetched at every crossing. *)
Definition crossForSwap (BlockTime : Z) (p : Pool) (nextInitializedTick : Z) (info : TickInfo)
    (spreadRewardAccum : option AccumulatorObject) (tokenInDenom : string) (growth : Z) : M Keeper Pool :=
  uptimeAccums <~ GetUptimeAccumulators (Id p) ;;
  '(p', uptimeAccums) <~ updateGivenPoolUptimeAccumulatorsToNow BlockTime p uptimeAccums ;;
  match spreadRewardAccum with
  | None => panic "nil pointer dereference"
  | Some acc =>
      crossTick (Id p') nextInitializedTick info tokenInDenom growth (valuePerShare acc) uptimeAccums ~;;
      ret p'
  end.

Definition swapCrossTickLogic (BlockTime : Z) (updateAccumulators : bool) (strategy : SwapStrategy)
    (spreadRewardAccum : option AccumulatorObject) (tokenInDenom : string)
    (iter : tickIter) (nextInitializedTick : Z) (p : Pool) (st : SwapState) : M Keeper (SwapState * Pool * tickIter) :=
  match iter with
  | [] => panic "invalid iterator"
  | (_, info) :: iter' =>
      p' <~ (if updateAccumulators
             then crossForSwap BlockTime p nextInitializedTick info spreadRewardAccum tokenInDenom
                    (globalSpreadRewardGrowthPerUnitLiquidity st)
             else ret p) ;;
      let liquidityNet := SetLiquidityDeltaSign strategy (LiquidityNet info) in
      l <~ lift (dec_Add (liquidity st) liquidityNet) ;;
      ret (moved st (UpdateTickAfterCrossing strategy nextInitializedTick) l, p', iter')
  end.

(** The part of a loop body after the step is computed: cross the tick, refuse
    a price past it, or follow the price inside the bucket. *)
Definition afterStep (BlockTime : Z) (updateAccumulators : bool) (strategy : SwapStrategy)
    (spreadRewardAccum : option AccumulatorObject) (tokenInDenom : string) (iter : tickIter)
    (nextTick nextTickSqrtPrice sqrtPriceStart : Z) (p : Pool) (st : SwapState) : M Keeper (SwapState * Pool * tickIter) :=
  if Equal nextTickSqrtPrice (sqrtPrice st)
  then swapCrossTickLogic BlockTime updateAccumulators strategy spreadRewardAccum tokenInDenom iter nextTick p st
  else if edgeCaseInequalityBasedOnSwapStrategy (ZeroForOne strategy) nextTickSqrtPrice (sqrtPrice st)
  then fail "ComputedSqrtPriceInequalityError"
  else if negb (Equal sqrtPriceStart (sqrtPrice st)) then
    newTick <~ lift (CalculateSqrtPriceToTick (sqrtPrice st)) ;;
    ret (moved st newTick (liquidity st), p, iter)
  else ret (st, p, iter).

Definition LoopState : Type := (SwapState * Pool * tickIter * nat)%type.

(** One iteration of the loop of [computeOutAmtGivenIn]. *)
Definition outGivenInStep (BlockTime : Z) (updateAccumulators : bool) (strategy : SwapStrategy)
    (spreadRewardAccum : option AccumulatorObject) (scalingFactor : Z) (tokenInDenom : string) (ls : LoopState) :
    M Keeper LoopState :=
  let '(st, p, iter, count) := ls in
  let sqrtPriceStart := sqrtPrice st in
  '(nextTick, nextTickSqrtPrice, sqrtPriceTarget) <~
    lift (iteratorToNextInitializedTickSqrtPriceTarget iter strategy) ;;
  '(computedSqrtPrice, amountIn, amountOut, spreadRewardCharge) <~
    lift (ComputeSwapWithinBucketOutGivenIn strategy (sqrtPrice st) sqrtPriceTarget (liquidity st)
      (amountSpecifiedRemaining st)) ;;
  lift (validateSwapProgressAndAmountConsumption computedSqrtPrice sqrtPriceStart amountIn amountOut) ~;;
  '(st, _) <~ (if updateAccumulators
               then lift (updateSpreadRewardGrowthGlobal st spreadRewardCharge scalingFactor)
               else ret (st, 0)) ;;
  total <~ lift (dec_Add amountIn spreadRewardCharge) ;;
  remaining <~ lift (dec_Sub (amountSpecifiedRemaining st) total) ;;
  calculated <~ lift (dec_Add (amountCalculated st) amountOut) ;;
  '(st2, p', iter') <~ afterStep BlockTime updateAccumulators strategy spreadRewardAccum tokenInDenom iter
    nextTick nextTickSqrtPrice sqrtPriceStart p (stepped st remaining calculated computedSqrtPrice) ;;
  count' <~ lift (countNoProgress amountIn count) ;;
  ret (st2, p', iter', count').

(** One iteration of the loop of [computeInAmtGivenOut]. *)
Definition inGivenOutStep (BlockTime : Z) (updateAccumulators : bool) (strategy : SwapStrategy)
    (spreadRewardAccum : option AccumulatorObject) (scalingFactor : Z) (tokenInDenom : string) (ls : LoopState) :
    M Keeper LoopState :=
  let '(st, p, iter, count) := ls in
  let sqrtPriceStart := sqrtPrice st in
  '(nextTick, nextTickSqrtPrice, sqrtPriceTarget) <~
    lift (iteratorToNextInitializedTickSqrtPriceTarget iter strategy) ;;
  '(computedSqrtPrice, amountOut, amountIn, spreadRewardCharge) <~
    lift (ComputeSwapWithinBucketInGivenOut strategy (sqrtPrice st) sqrtPriceTarget (liquidity st)
      (amountSpecifiedRemaining st)) ;;
  lift (validateSwapProgressAndAmountConsumption computedSqrtPrice sqrtPriceStart amountIn amountOut) ~;;
  '(st, _) <~ (if updateAccumulators
               then lift (updateSpreadRewardGrowthGlobal st spreadRewardCharge scalingFactor)
               else ret (st, 0)) ;;
  remaining <~ lift (dec_Sub (amountSpecifiedRemaining st) amountOut) ;;
  total <~ lift (dec_Add amountIn spreadRewardCharge) ;;
  calculated <~ lift (dec_Add (amountCalculated st) total) ;;
  '(st2, p', iter') <~ afterStep BlockTime updateAccumulators strategy spreadRewardAccum tokenInDenom iter
    nextTick nextTickSqrtPrice sqrtPriceStart p (stepped st remaining calculated computedSqrtPrice) ;;
  count' <~ lift (countNoProgress amountOut count) ;;
  ret (st2, p', iter', count').

(** [None] is running out of fuel. *)
Fixpoint swapLoop (step : LoopState -> M Keeper LoopState) (limit : Z) (fuel : nat) (ls : LoopState) (k : Keeper) :
    option (Res SwapState * Keeper) :=
  let st := ls.1.1.1 in
  if continues limit st then
    match fuel with
    | O => None
    | Datatypes.S fuel' =>
        match step ls k with
        | (Ok ls', k') => swapLoop step limit fuel' ls' k'
        | (Err e, k') => Some (Err e, k')
        | (Panic m, k') => Some (Panic m, k')
        end
    end
  else Some (Ok st, k).

Definition finished (c : Keeper -> option (Res SwapState * Keeper)) : M Keeper SwapState :=
  fun k => match c k with Some r => r | None => (Panic "out of fuel", k) end.

(** What both computations do before the loop. *)
Definition swapStart (poolId : Z) (tokenInDenom tokenOutDenom : string) (specified spf priceLimit : Z)
    (updateAccumulators : bool) : M Keeper (SwapStrategy * Z * Z * option AccumulatorObject * LoopState) :=
  '(p, spreadRewardAccumulator) <~ swapSetup poolId tokenInDenom tokenOutDenom updateAccumulators ;;
  '(strategy, limit) <~ lift (setupSwapStrategy p spf tokenInDenom priceLimit) ;;
  scalingFactor <~ (if updateAccumulators then getSpreadFactorScalingFactorForPool poolId else ret 0) ;;
  st <~ lift (newSwapState specified p) ;;
  iter <~ (fun k => (InitializeNextTickIterator strategy (k_ticks k) poolId (tick st), k)) ;;
  ret (strategy, limit, scalingFactor, spreadRewardAccumulator, (st, p, iter, 0%nat)).

(** Adding the growth of the swap to the accumulator of the pool. *)
Definition addSpreadRewards (updateAccumulators : bool) (acc : option AccumulatorObject) (denom : string) (growth : Z) :
    M Keeper unit :=
  if updateAccumulators then
    match acc with
    | None => panic "nil pointer dereference"
    | Some acc =>
        coins <~ lift (NewDecCoinFromDec denom growth) ;;
        on_accum acc (AddToAccumulator coins) ~;; ret tt
    end
  else ret tt.

Definition computeOutAmtGivenIn (BlockTime : Z) (fuel : nat) (poolId : Z) (tokenInDenom : string) (tokenInAmount : Z)
    (tokenOutDenom : string) (spf priceLimit : Z) (updateAccumulators : bool) : M Keeper (SwapResult * PoolUpdates) :=
  '(strategy, limit, scalingFactor, acc, ls) <~
    swapStart poolId tokenInDenom tokenOutDenom tokenInAmount spf priceLimit updateAccumulators ;;
  st <~ finished (swapLoop (outGivenInStep BlockTime updateAccumulators strategy acc scalingFactor tokenInDenom)
                    limit fuel ls) ;;
  if amountSpecifiedRemaining st <? 0 then fail "OverChargeSwapOutGivenInError" else
  addSpreadRewards updateAccumulators acc tokenInDenom (globalSpreadRewardGrowthPerUnitLiquidity st) ~;;
  specified <~ lift (int_ToLegacyDec tokenInAmount) ;;
  used <~ lift (dec_Sub specified (amountSpecifiedRemaining st)) ;;
  up <~ lift (dec_Ceil used) ;;
  amountIn <~ lift (dec_TruncateInt up) ;;
  amountOut <~ lift (dec_TruncateInt (amountCalculated st)) ;;
  ret ({| AmountIn := amountIn; AmountOut := amountOut; SpreadRewards := globalSpreadRewardGrowth st |},
       {| NewCurrentTick := tick st; NewLiquidity := liquidity st; NewSqrtPrice := sqrtPrice st |}).

Definition computeInAmtGivenOut (BlockTime : Z) (fuel : nat) (poolId : Z) (tokenOutDenom : string) (tokenOutAmount : Z)
    (tokenInDenom : string) (spf priceLimit : Z) (updateAccumulators : bool) : M Keeper (SwapResult * PoolUpdates) :=
  '(strategy, limit, scalingFactor, acc, ls) <~
    swapStart poolId tokenInDenom tokenOutDenom tokenOutAmount spf priceLimit updateAccumulators ;;
  st <~ finished (swapLoop (inGivenOutStep BlockTime updateAccumulators strategy acc scalingFactor tokenInDenom)
                    limit fuel ls) ;;
  if amountSpecifiedRemaining st <? 0 then fail "over charged problem swap in given out" else
  addSpreadRewards updateAccumulators acc tokenInDenom (globalSpreadRewardGrowthPerUnitLiquidity st) ~;;
  up <~ lift (dec_Ceil (amountCalculated st)) ;;
  amountIn <~ lift (dec_TruncateInt up) ;;
  specified <~ lift (int_ToLegacyDec tokenOutAmount) ;;
  given <~ lift (dec_Sub specified (amountSpecifiedRemaining st)) ;;
  amountOut <~ lift (dec_TruncateInt given) ;;
  ret ({| AmountIn := amountIn; AmountOut := amountOut; SpreadRewards := globalSpreadRewardGrowth st |},
       {| NewCurrentTick := tick st; NewLiquidity := liquidity st; NewSqrtPrice := sqrtPrice st |}).

(** [unboundedPriceLimit] is zero, which means the limit of the direction. *)
Definition CalcOutAmtGivenIn (BlockTime : Z) (fuel : nat) (poolId : Z) (tokenInDenom : string) (tokenInAmount : Z)
    (tokenOutDenom : string) (spf : Z) : M Keeper Z :=
  fun k => (('(res, _) <- fst (computeOutAmtGivenIn BlockTime fuel poolId tokenInDenom tokenInAmount tokenOutDenom
                                 spf ZeroBigDec false k) ;;
             NewCoinAmount (AmountOut res)), k).

Definition CalcInAmtGivenOut (BlockTime : Z) (fuel : nat) (poolId : Z) (tokenOutDenom : string) (tokenOutAmount : Z)
    (tokenInDenom : string) (spf : Z) : M Keeper Z :=
  fun k => (('(res, _) <- fst (computeInAmtGivenOut BlockTime fuel poolId tokenOutDenom tokenOutAmount tokenInDenom
                                 spf ZeroBigDec false k) ;;
             NewCoinAmount (AmountIn res)), k).

(** ** Applying a swap *)

(** An error of a call, reported as another one. *)
Definition as_error {A} (e : string) (c : M Keeper A) : M Keeper A :=
  fun k => match c k with (Err _, k') => (Err e, k') | r => r end.

Definition one_coin (denom : string) (amount : Z) : Coins := coins_append coins_empty denom amount.

Definition updatePoolForSwap (poolId : Z) (sender inDenom : string) (inAmount : Z) (outDenom : string) (outAmount : Z)
    (upd : PoolUpdates) (totalSpreadFactors : Z) : M Keeper unit :=
  pool <~ getPoolById poolId ;;
  up <~ lift (dec_Ceil totalSpreadFactors) ;;
  fees <~ lift (dec_TruncateInt up) ;;
  fees <~ lift (NewCoinAmount fees) ;;
  tokenIn <~ lift (int_Sub inAmount fees) ;;
  as_error "InsufficientUserBalanceError"
    (external (SendCoins sender (Address pool) (one_coin inDenom tokenIn))) ~;;
  when (negb (fees =? 0))
    (as_error "InsufficientUserBalanceError"
      (external (SendCoins sender (SpreadRewardsAddress pool) (one_coin inDenom fees)))) ~;;
  as_error "InsufficientPoolBalanceError"
    (external (SendCoins (Address pool) sender (one_coin outDenom outAmount))) ~;;
  pool <~ lift (ApplySwap pool (NewLiquidity upd) (NewCurrentTick upd) (NewSqrtPrice upd)) ;;
  setPool pool ~;;
  modify (set_ext (listen "AfterConcentratedPoolSwap" sender poolId)).

Definition swapOutAmtGivenIn (BlockTime : Z) (fuel : nat) (sender : string) (poolId : Z) (tokenInDenom : string)
    (tokenInAmount : Z) (tokenOutDenom : string) (spf priceLimit : Z) : M Keeper (Z * Z * PoolUpdates) :=
  '(res, upd) <~ computeOutAmtGivenIn BlockTime fuel poolId tokenInDenom tokenInAmount tokenOutDenom spf priceLimit true ;;
  tokenIn <~ lift (NewCoinAmount (AmountIn res)) ;;
  tokenOut <~ lift (NewCoinAmount (AmountOut res)) ;;
  if negb (tokenOut >? 0) then fail "InvalidAmountCalculatedError" else
  updatePoolForSwap poolId sender tokenInDenom tokenIn tokenOutDenom tokenOut upd (SpreadRewards res) ~;;
  ret (tokenIn, tokenOut, upd).

Definition swapInAmtGivenOut (BlockTime : Z) (fuel : nat) (sender : string) (poolId : Z) (tokenOutDenom : string)
    (tokenOutAmount : Z) (tokenInDenom : string) (spf priceLimit : Z) : M Keeper (Z * Z * PoolUpdates) :=
  '(res, upd) <~ computeInAmtGivenOut BlockTime fuel poolId tokenOutDenom tokenOutAmount tokenInDenom spf priceLimit true ;;
  tokenIn <~ lift (NewCoinAmount (AmountIn res)) ;;
  tokenOut <~ lift (NewCoinAmount (AmountOut res)) ;;
  if negb (tokenIn >? 0) then fail "InvalidAmountCalculatedError" else
  updatePoolForSwap poolId sender tokenInDenom tokenIn tokenOutDenom tokenOut upd (SpreadRewards res) ~;;
  ret (tokenIn, tokenOut, upd).

(** The pool is the one the caller passes; only its id and tokens are read. *)
Definition SwapExactAmountIn (BlockTime : Z) (fuel : nat) (sender : string) (pool : Pool) (tokenInDenom : string)
    (tokenInAmount : Z) (tokenOutDenom : string) (tokenOutMinAmount spf : Z) : M Keeper Z :=
  if String.eqb tokenInDenom tokenOutDenom then fail "DenomDuplicatedError" else
  external (callPoolActionListener "beforeSwapExactAmountIn" (Id pool)) ~;;
  let zeroForOne := getZeroForOne tokenInDenom (Token0 pool) in
  '(tokenIn, tokenOut, _) <~ swapOutAmtGivenIn BlockTime fuel sender (Id pool) tokenInDenom tokenInAmount tokenOutDenom
    spf (GetPriceLimit zeroForOne) ;;
  if tokenOut <? tokenOutMinAmount then fail "AmountLessThanMinError" else
  inCoins <~ lift (NewCoins [(tokenInDenom, tokenIn)]) ;;
  RecordTotalLiquidityIncrease inCoins ~;;
  outCoins <~ lift (NewCoins [(tokenOutDenom, tokenOut)]) ;;
  RecordTotalLiquidityDecrease outCoins ~;;
  external (callPoolActionListener "afterSwapExactAmountIn" (Id pool)) ~;;
  ret tokenOut.

Definition SwapExactAmountOut (BlockTime : Z) (fuel : nat) (sender : string) (pool : Pool) (tokenInDenom : string)
    (tokenInMaxAmount : Z) (tokenOutDenom : string) (tokenOutAmount spf : Z) : M Keeper Z :=
  if String.eqb tokenOutDenom tokenInDenom then fail "DenomDuplicatedError" else
  external (callPoolActionListener "beforeSwapExactAmountOut" (Id pool)) ~;;
  let zeroForOne := getZeroForOne tokenInDenom (Token0 pool) in
  '(tokenIn, tokenOut, _) <~ swapInAmtGivenOut BlockTime fuel sender (Id pool) tokenOutDenom tokenOutAmount tokenInDenom
    spf (GetPriceLimit zeroForOne) ;;
  if tokenIn >? tokenInMaxAmount then fail "AmountGreaterThanMaxError" else
  inCoins <~ lift (NewCoins [(tokenInDenom, tokenIn)]) ;;
  RecordTotalLiquidityIncrease inCoins ~;;
  outCoins <~ lift (NewCoins [(tokenOutDenom, tokenOut)]) ;;
  RecordTotalLiquidityDecrease outCoins ~;;
  external (callPoolActionListener "afterSwapExactAmountOut" (Id pool)) ~;;
  ret tokenIn.

(** ** The largest input that crosses at most a number of ticks *)

(** The loop, which crosses a tick per iteration or ends; the branch that
    would follow the price inside a bucket compares the price with itself and
    is never taken. *)
Fixpoint maxTicksLoop (ticks : nat) (strategy : SwapStrategy) (iter : tickIter) (st : SwapState) (totalOut : Z) :
    Res (SwapState * Z) :=
  match ticks, iter with
  | O, _ | _, [] => Ok (st, totalOut)
  | Datatypes.S ticks', (_, info) :: iter' =>
      '(nextTick, nextTickSqrtPrice, target) <- iteratorToNextInitializedTickSqrtPriceTarget iter strategy ;;
      '(computed, amountOut, amountIn, charge) <-
        ComputeSwapWithinBucketInGivenOut strategy (sqrtPrice st) target (liquidity st) (amountSpecifiedRemaining st) ;;
      remaining <- dec_Sub (amountSpecifiedRemaining st) amountOut ;;
      total <- dec_Add amountIn charge ;;
      calculated <- dec_Add (amountCalculated st) total ;;
      totalOut' <- dec_Add totalOut amountOut ;;
      let st1 := stepped st remaining calculated computed in
      '(st2, iter2) <-
        (if Equal nextTickSqrtPrice computed then
           l <- dec_Add (liquidity st) (SetLiquidityDeltaSign strategy (LiquidityNet info)) ;;
           Ok (moved st1 (UpdateTickAfterCrossing strategy nextTick) l, iter')
         else if edgeCaseInequalityBasedOnSwapStrategy (ZeroForOne strategy) nextTickSqrtPrice computed
         then Err "ComputedSqrtPriceInequalityError"
         else if negb (Equal (sqrtPrice st1) computed) then
           newTick <- CalculateSqrtPriceToTick computed ;; Ok (moved st1 newTick (liquidity st1), iter)
         else Ok (st1, iter)) ;;
      if amountOut =? 0 then Ok (st2, totalOut') else maxTicksLoop ticks' strategy iter2 st2 totalOut'
  end.

Definition ComputeMaxInAmtGivenMaxTicksCrossed (poolId : Z) (tokenInDenom : string) (maxTicksCrossed : nat) :
    M Keeper (Z * string * Z) :=
  p <~ getPoolForSwap poolId ;;
  if negb (String.eqb tokenInDenom (Token0 p)) && negb (String.eqb tokenInDenom (Token1 p))
  then fail "TokenInDenomNotInPoolError" else
  let tokenOutDenom := if String.eqb tokenInDenom (Token0 p) then Token1 p else Token0 p in
  '(strategy, _) <~ lift (setupSwapStrategy p (SpreadFactor p) tokenInDenom ZeroBigDec) ;;
  balance <~ ask (fun k => GetBalance (k_ext k) (Address p) tokenOutDenom) ;;
  st <~ lift (newSwapState balance p) ;;
  iter <~ (fun k => (InitializeNextTickIterator strategy (k_ticks k) poolId (tick st), k)) ;;
  '(st, totalOut) <~ lift (maxTicksLoop maxTicksCrossed strategy iter st 0) ;;
  up <~ lift (dec_Ceil (amountCalculated st)) ;;
  maxAmt <~ lift (dec_TruncateInt up) ;;
  maxAmt <~ lift (NewCoinAmount maxAmt) ;;
  out <~ lift (dec_TruncateInt totalOut) ;;
  out <~ lift (NewCoinAmount out) ;;
  ret (maxAmt, tokenOutDenom, out).

End Swaps.
