(* ===== verification/CLSwapCorrect.v ===== *)
(** * Concentrated liquidity: correctness of the swap computation

    The steps of the loop of [CLSwap]: each takes at least and gives at most
    what the curve says ([CLSwapBooks] puts them together).
    The loop always ends: an iteration consumes a whole token or counts
    against the no-progress limit, so the fuel [swap_fuel], the tokens specified
    plus that limit, never runs out. *)

From stdpp Require Import base gmap strings.
From Stdlib Require Import ZArith Lia List Bool.
From S2P Require Import Prelude GoBig BigInt BigDec MonoSqrt SdkMath CLMath CLTick Store CLKeys SwapStrategy SwapStep GoState DecCoins Accum CLState CLPool CLUptime CLSwap.
Import ListNotations.

(** ** Prices of ticks are positive *)

Lemma csqrt_pos x : 0 < x -> 0 < csqrt x.
Proof.
  intros H. pose proof (csqrt_spec x ltac:(lia)) as C. nia.
Qed.

Lemma TickToSqrtPrice_pos t s : TickToSqrtPrice t = Ok s -> 0 < s.
Proof.
  intros H. destruct (Z.eq_dec t MinCurrentTickV2) as [-> |N].
  { assert (E : TickToSqrtPrice MinCurrentTickV2 = Ok (10 ^ 21)) by (vm_compute; reflexivity).
    rewrite E in H. apply Ok_inj in H as <-. reflexivity. }
  destruct (Z_lt_ge_dec t MinInitializedTickV2) as [L | G]; [|destruct (Z_lt_ge_dec MaxTick t) as [L' | G']].
  - exfalso. revert H. unfold TickToSqrtPrice, TickToPrice, TickToAdditiveGeometricIndices.
    unfold MinCurrentTickV2, MinInitializedTickV2 in *. rewrite !(proj2 (Z.eqb_neq t _)) by lia.
    cbn [orb]. destruct (Z.ltb_spec t (-270000000 - 1)); [discriminate | lia].
  - exfalso. revert H. unfold TickToSqrtPrice, TickToPrice, TickToAdditiveGeometricIndices.
    unfold MinCurrentTickV2, MinInitializedTickV2, MaxTick in *. rewrite !(proj2 (Z.eqb_neq t _)) by lia.
    cbn [orb]. destruct (Z.ltb_spec t (-270000000 - 1)); [lia|].
    destruct (Z.gtb_spec t 342000000); [discriminate | lia].
  - rewrite TickToSqrtPrice_ok in H by lia. apply Ok_inj in H as <-.
    pose proof (tick_price_bounds t ltac:(lia)) as P. unfold tick_sqrt_price.
    destruct (MinInitializedTick <=? t) eqn:C; b2p.
    + apply Z.mul_pos_pos; [|reflexivity]. apply csqrt_pos. lia.
    + apply csqrt_pos, Z.mul_pos_pos; [lia | reflexivity].
Qed.

Lemma GetSqrtPriceLimit_pos priceLimit zfo limit :
  GetSqrtPriceLimit priceLimit zfo = Ok limit -> 0 < limit.
Proof.
  unfold GetSqrtPriceLimit, IsZero, LT, GT, GTE. destruct (Z.eqb_spec (Z.sgn priceLimit) 0).
  { intros H. apply Ok_inj in H as <-. destruct zfo; reflexivity. }
  destruct (Z.ltb_spec priceLimit MinSpotPriceV2) as [|L]; [discriminate|]. cbn [orb].
  case_if; [discriminate|]. unfold MinSpotPriceV2 in L.
  destruct (Z.geb_spec priceLimit MinSpotPriceBigDec) as [G | _]; intros H.
  - inv_bind H. rewrite BigDecFromDecMut_ok in H. apply Ok_inj in H as <-.
    change MonotonicSqrtMut with MonotonicSqrt in E. rewrite MonotonicSqrt_eq in E.
    change MinSpotPriceBigDec with (10 ^ 24) in G. rewrite Dec_nonneg in E by lia.
    assert (P : 0 < priceLimit / precisionReuseSDKDec)
      by (apply Z.div_str_pos; change precisionReuseSDKDec with (10 ^ 18); lia).
    destruct (Z.ltb_spec (priceLimit / precisionReuseSDKDec) 0); [lia|]. apply Ok_inj in E as <-.
    apply Z.mul_pos_pos; [apply csqrt_pos; lia | reflexivity].
  - rewrite MonotonicSqrtBigDec_eq in H. destruct (Z.ltb_spec priceLimit 0); [lia|].
    apply Ok_inj in H as <-. apply csqrt_pos. lia.
Qed.

(** ** Steps of a swap *)

Record swapStep : Type := {
  sw_from : Z; sw_to : Z; sw_liq : Z; sw_in : Z; sw_out : Z; sw_fee : Z
}.

(** What the curve asks of a step in each direction: the amount in covers and
    the amount out does not exceed the exact amount between the two prices, and
    both are that amount rounded, in closed form. *)
Definition on_curve (zeroForOne : bool) (s : swapStep) : Prop :=
  let lo := Z.min (sw_to s) (sw_from s) in let hi := Z.max (sw_to s) (sw_from s) in
  if zeroForOne
  then (covers0 (sw_liq s) (sw_from s) (sw_to s) (sw_in s) /\ within1 (sw_liq s) (sw_from s) (sw_to s) (sw_out s)) /\
    sw_in s = DecRoundUp (amt0_up (sw_liq s) lo hi) /\ sw_out s = Dec (amt1_down (sw_liq s) (Z.abs (sw_from s - sw_to s)))
  else (nearly_covers1 (sw_liq s) (sw_from s) (sw_to s) (sw_in s) /\ within0 (sw_liq s) (sw_from s) (sw_to s) (sw_out s)) /\
    sw_in s = DecRoundUp (amt1_up (sw_liq s) (Z.abs (sw_from s - sw_to s))) /\ sw_out s = Dec (amt0_down (sw_liq s) lo hi).

Definition fair (zeroForOne : bool) (spf : Z) (s : swapStep) : Prop :=
  0 < sw_to s /\ 0 <= sw_liq s /\ on_curve zeroForOne s /\
  (OneDec | sw_in s) /\ 0 <= sw_in s /\ 0 <= sw_out s /\ 0 <= sw_fee s /\ (spf = 0 -> sw_fee s = 0).

Fixpoint chain (p : Z) (steps : list swapStep) (q : Z) : Prop :=
  match steps with
  | [] => p = q
  | s :: rest => sw_from s = p /\ chain (sw_to s) rest q
  end.

Definition total_in (steps : list swapStep) : Z := zsum (map (fun s => sw_in s + sw_fee s) steps).
Definition total_out (steps : list swapStep) : Z := zsum (map sw_out steps).

(** Liquidity stays non-negative along the ticks ahead, as the liquidity net
    of the positions guarantees. *)
Fixpoint nets_ok {C : DecCoinsOps} (sign : Z -> Z) (l : Z) (iter : tickIter) : Prop :=
  0 <= l /\
  match iter with
  | [] => True
  | (_, info) :: iter' => nets_ok sign (l + sign (LiquidityNet info)) iter'
  end.

(** Iterations left: whole tokens (rounded up) and no-progress allowance. *)
Definition loop_measure (st : SwapState) (count : nat) : nat :=
  Z.to_nat (amountSpecifiedRemaining st / OneDec + 1) + (swapNoProgressLimit - count).

Definition swap_fuel (tokens : Z) : nat := Z.to_nat (tokens + 1) + swapNoProgressLimit.

Section Correct.
Context {S : SdkMath} {SS : SdkMathSpec S} {B : BigEndian} {C : DecCoinsOps} {EK : ExternalKeepers C}
  {KT : KVStore TickInfo} {KA : KVStore StoreValue}.
Variables limit spf : Z.
Hypothesis Hspf : 0 <= spf <= 5 * 10 ^ 17.
Hypothesis Hlimit : 0 < limit.

Lemma charge_inv reached amt rem ch :
  computeSpreadRewardChargePerSwapStepOutGivenIn reached amt rem spf
    (fun _ => getSpfOverOneMinusSpf (fresh limit spf)) = Ok ch ->
  0 <= ch /\ (spf = 0 -> ch = 0) /\ (reached = false -> 0 < spf -> amt + ch = rem).
Proof.
  unfold computeSpreadRewardChargePerSwapStepOutGivenIn. intros H.
  destruct (Z.eqb_spec spf 0); [apply Ok_inj in H as <-; split; [lia|]; split; lia|].
  destruct (Z.ltb_spec spf 0); [discriminate|]. inv_bind H.
  destruct (Z.ltb_spec v 0); [discriminate|]. apply Ok_inj in H as <-. split; [assumption|]. split; [lia|].
  intros -> _. apply dec_Sub_exact in E as ->. lia.
Qed.

Lemma oneMinus_inv om : getOneMinusSpreadFactor (fresh limit spf) = Ok om -> om = OneDec - spf.
Proof. rewrite (oneMinus_ok limit spf Hspf). intros H. now apply Ok_inj in H. Qed.

Lemma x_pos rem : 2 <= rem -> 0 < rem * (OneDec - spf).
Proof. intros H. unfold OneDec. nia. Qed.

Lemma next0_in_inv cur l x next :
  0 < cur -> 0 < x -> 0 < l ->
  GetNextSqrtPriceFromAmount0InRoundingUp cur (l * precisionReuseSDKDec) x = Ok next -> 0 < next.
Proof.
  intros Hc Hx Hl H. unfold GetNextSqrtPriceFromAmount0InRoundingUp, IsZero in H.
  destruct (Z.eqb_spec (Z.sgn x) 0); [lia|]. inv_binds.
  apply MulTruncate_iff in E as [_ ->]. apply Add_iff in E0 as [_ ->]. apply MulRoundUp_iff in E1 as [_ ->].
  assert (0 <= Z.quot (x * cur) defaultBigDecPrecisionReuse) by (apply Z.quot_pos; [nia | apply prec_pos]).
  pose proof sdk_prec_pos. pose proof prec_pos.
  assert (N : 0 < cdiv (l * precisionReuseSDKDec * cur) defaultBigDecPrecisionReuse) by (apply cdiv_pos; nia).
  apply QuoRoundUpMut_iff in H as [_ ->]; [|lia|nia]. apply cdiv_pos; nia.
Qed.

Lemma next1_in_inv cur l x next :
  0 < cur -> 0 <= x -> 0 < l ->
  GetNextSqrtPriceFromAmount1InRoundingDown cur l x = Ok next -> 0 < next.
Proof.
  intros Hc Hx Hl H. unfold GetNextSqrtPriceFromAmount1InRoundingDown in H. inv_binds.
  apply QuoTruncateDec_iff in E as (_ & _ & ->). apply Add_iff in H as [_ ->].
  pose proof sdk_prec_pos. assert (0 <= Z.quot (x * precisionReuseSDKDec) l) by (apply Z.quot_pos; nia). lia.
Qed.

(** The recomputed amount of a step, whichever branch it came from. *)
Lemma recompute_inv (f : Z -> Res Z) tgt next v w :
  f tgt = Ok v -> (if negb (Equal tgt next) then f next else Ok v) = Ok w -> f next = Ok w.
Proof.
  unfold Equal. intros E H. destruct (Z.eqb_spec tgt next) as [<- |]; cbn [negb] in H; [congruence | exact H].
Qed.

Lemma zfo_exact_in_fair cur tgt l rem next amt out ch :
  0 < cur -> 0 < tgt -> 0 <= l -> 2 <= rem ->
  zfo_ComputeSwapWithinBucketOutGivenIn (fresh limit spf) cur tgt l rem = Ok (next, amt, out, ch) ->
  fair true spf {| sw_from := cur; sw_to := next; sw_liq := l; sw_in := amt; sw_out := out; sw_fee := ch |} /\
  (next <> tgt -> 0 < spf -> amt + ch = rem).
Proof.
  intros Hc Ht Hl Hr H. unfold zfo_ComputeSwapWithinBucketOutGivenIn in H.
  rewrite BigDecFromDec_ok, bind_ok in H. inv_bind H. inv_bind H. apply oneMinus_inv in E0 as ->.
  unfold NewBigDecFromDecMulDec in H. inv_bind H. pose proof (x_pos rem Hr) as Hx.
  assert (Hn : 0 < v0).
  { unfold GTE in E0. destruct (Z.geb_spec (rem * (OneDec - spf)) v) as [G | L]; [apply Ok_inj in E0; congruence|].
    apply (next0_in_inv cur l (rem * (OneDec - spf)) v0); auto.
    apply CalcAmount0Delta_up_inv in E; [|lia..]. destruct (Z.eq_dec l 0) as [-> |]; [|lia].
    rewrite amt0_up_zero in E. lia. }
  inv_bind H. apply (recompute_inv (fun n => CalcAmount0Delta l n cur true) _ _ _ _ E) in E1.
  inv_bind H. inv_bind H. apply Ok_inj in H. injection H as <- <- <- <-.
  apply CalcAmount0Delta_up_inv in E1; [|lia..]. apply CalcAmount1Delta_down_inv in E2; [|lia].
  destruct (amt0_up_tokens l (Z.min v0 cur) (Z.max v0 cur)) as (u & Eu). rewrite Eu in E1. subst v1 v2.
  rewrite DecRoundUp_tokens in *. apply charge_inv in E3 as (C1 & C2 & C3).
  pose proof (within1_down l v0 cur Hl) as [W1 W0].
  pose proof (amt0_up_nonneg l (Z.min v0 cur) (Z.max v0 cur) Hl ltac:(lia)) as A. rewrite Eu in A.
  pose proof prec_pos. pose proof OneDec_pos. unfold fair, on_curve. cbn [sw_from sw_to sw_liq sw_in sw_out sw_fee].
  split; [|intros N; apply C3; unfold Equal; lia].
  split; [exact Hn|]. split; [exact Hl|]. split; [split; [split; [apply covers0_up; auto | exact W1] | now rewrite Eu, DecRoundUp_tokens]|].
  split; [apply Z.divide_factor_r|]. split; [nia|]. auto.
Qed.

Lemma ofz_exact_in_fair cur tgt l rem next amt out ch :
  0 < cur -> 0 < tgt -> 0 <= l -> 2 <= rem ->
  ofz_ComputeSwapWithinBucketOutGivenIn (fresh limit spf) cur tgt l rem = Ok (next, amt, out, ch) ->
  fair false spf {| sw_from := cur; sw_to := next; sw_liq := l; sw_in := amt; sw_out := out; sw_fee := ch |} /\
  (next <> tgt -> 0 < spf -> amt + ch = rem).
Proof.
  intros Hc Ht Hl Hr H. unfold ofz_ComputeSwapWithinBucketOutGivenIn in H.
  inv_bind H. inv_bind H. apply oneMinus_inv in E0 as ->.
  unfold NewBigDecFromDecMulDec in H. inv_bind H. pose proof (x_pos rem Hr) as Hx.
  assert (Hn : 0 < v0).
  { unfold GTE in E0. destruct (Z.geb_spec (rem * (OneDec - spf)) v) as [G | L]; [apply Ok_inj in E0; congruence|].
    apply (next1_in_inv cur l (rem * (OneDec - spf)) v0); auto; [lia|].
    apply CalcAmount1Delta_up_inv in E. destruct (Z.eq_dec l 0) as [-> |]; [|lia].
    rewrite amt1_up_zero in E. lia. }
  inv_bind H. apply (recompute_inv (fun n => CalcAmount1Delta l n cur true) _ _ _ _ E) in E1.
  inv_bind H. inv_bind H. apply Ok_inj in H. injection H as <- <- <- <-.
  apply CalcAmount1Delta_up_inv in E1. apply CalcAmount0Delta_down_inv in E2; [|lia..].
  destruct (amt1_up_tokens l (Z.abs (cur - v0))) as (u & Eu). rewrite Eu in E1. subst v1 v2.
  rewrite DecRoundUp_tokens in *. apply charge_inv in E3 as (C1 & C2 & C3).
  pose proof (within0_down l v0 cur Hl Hn Hc) as [W1 W0].
  pose proof (amt1_up_nonneg l (Z.abs (cur - v0)) Hl ltac:(lia)) as A. rewrite Eu in A.
  pose proof prec_pos. pose proof OneDec_pos. unfold fair, on_curve. cbn [sw_from sw_to sw_liq sw_in sw_out sw_fee].
  split; [|intros N; apply C3; unfold Equal; lia].
  split; [exact Hn|]. split; [exact Hl|]. split; [split; [split; [now apply nearly_covers1_up | exact W1] | now rewrite Eu, DecRoundUp_tokens]|].
  split; [apply Z.divide_factor_r|]. split; [nia|]. auto.
Qed.

Lemma exact_in_fair zfo cur tgt l rem next amt out ch :
  0 < cur -> 0 < tgt -> 0 <= l -> 2 <= rem ->
  ComputeSwapWithinBucketOutGivenIn (New zfo limit spf) cur tgt l rem = Ok (next, amt, out, ch) ->
  fair zfo spf {| sw_from := cur; sw_to := next; sw_liq := l; sw_in := amt; sw_out := out; sw_fee := ch |} /\
  (next <> tgt -> 0 < spf -> amt + ch = rem).
Proof. destruct zfo; [apply zfo_exact_in_fair | apply ofz_exact_in_fair]. Qed.


(** What one iteration does to the state. *)
Definition iteration (zfo : bool) (st : SwapState) (count : nat) (st' : SwapState) (count' : nat)
    (s : swapStep) : Prop :=
  fair zfo spf s /\ sw_from s = sqrtPrice st /\ sw_to s = sqrtPrice st' /\
  amountSpecifiedRemaining st' = amountSpecifiedRemaining st - (sw_in s + sw_fee s) /\
  amountCalculated st' = amountCalculated st + sw_out s /\
  (sw_in s = 0 -> (count < swapNoProgressLimit)%nat /\ count' = Datatypes.S count) /\
  (sw_in s <> 0 -> count' = count) /\ sw_liq s = liquidity st.

Lemma target_pos zfo iter t p tgt :
  iteratorToNextInitializedTickSqrtPriceTarget iter (New zfo limit spf) = Ok (t, p, tgt) -> 0 < tgt.
Proof.
  unfold iteratorToNextInitializedTickSqrtPriceTarget. intros H. destruct iter as [|[k v] iter]; [discriminate|].
  inv_bind H. destruct (TickToSqrtPrice v0) as [q| |] eqn:Q; try discriminate.
  apply TickToSqrtPrice_pos in Q. apply Ok_inj in H. injection H as _ _ <-.
  destruct zfo; cbn [New GetSqrtTargetPrice zeroForOneStrategy oneForZeroStrategy];
    unfold zfo_GetSqrtTargetPrice, ofz_GetSqrtTargetPrice; case_if; auto.
Qed.

(** The rewards of a step do not touch the rest of the state. *)
Lemma growth_inv ss c f ss' x :
  updateSpreadRewardGrowthGlobal ss c f = Ok (ss', x) ->
  amountSpecifiedRemaining ss' = amountSpecifiedRemaining ss /\ amountCalculated ss' = amountCalculated ss /\
  sqrtPrice ss' = sqrtPrice ss /\ tick ss' = tick ss /\ liquidity ss' = liquidity ss.
Proof using Type.
  unfold updateSpreadRewardGrowthGlobal. intros H. inv_bind H. inv_bind H.
  destruct (liquidity ss =? 0); inv_binds; injection H as <- _; auto.
Qed.

Lemma growth_step_inv (upd : bool) ss c f ss' x (k k' : Keeper) :
  (if upd then lift (updateSpreadRewardGrowthGlobal ss c f) else ret (ss, 0)) k = (Ok (ss', x), k') ->
  amountSpecifiedRemaining ss' = amountSpecifiedRemaining ss /\ amountCalculated ss' = amountCalculated ss /\
  sqrtPrice ss' = sqrtPrice ss /\ tick ss' = tick ss /\ liquidity ss' = liquidity ss.
Proof using Type.
  destruct upd; intros H; inv_m H; [now apply growth_inv in E|]. injection E as <- _. auto.
Qed.

Lemma afterStep_inv bt upd zfo acc d iter t p start pl st st' pl' iter' (k k' : Keeper) :
  afterStep bt upd (New zfo limit spf) acc d iter t p start pl st k = (Ok (st', pl', iter'), k') ->
  sqrtPrice st' = sqrtPrice st /\ amountSpecifiedRemaining st' = amountSpecifiedRemaining st /\
  amountCalculated st' = amountCalculated st /\
  (nets_ok (SetLiquidityDeltaSign (New zfo limit spf)) (liquidity st) iter ->
   nets_ok (SetLiquidityDeltaSign (New zfo limit spf)) (liquidity st') iter').
Proof using SS.
  intros H. unfold afterStep in H. case_if_in H.
  - unfold swapCrossTickLogic in H. destruct iter as [|[key info] iter]; [discriminate|].
    inv_ok. dec_exact. cbn [moved sqrtPrice amountSpecifiedRemaining amountCalculated liquidity]. repeat split. intros N. apply N.
  - case_if_in H; [discriminate|]. case_if_in H; inv_ok; auto.
Qed.

Lemma outGivenInStep_iteration bt upd zfo acc f d iter pl st count st' pl' iter' count' (k k' : Keeper) :
  continues limit st = true -> 0 < sqrtPrice st -> 0 <= liquidity st ->
  outGivenInStep bt upd (New zfo limit spf) acc f d (st, pl, iter, count) k = (Ok (st', pl', iter', count'), k') ->
  exists s, iteration zfo st count st' count' s.
Proof using SS Hspf Hlimit.
  intros C0 Hp Hl H. unfold continues, SmallestDec in C0. b2p.
  unfold outGivenInStep in H. inv_ok.
  lazymatch goal with T : iteratorToNextInitializedTickSqrtPriceTarget _ _ = Ok _ |- _ => apply target_pos in T end.
  lazymatch goal with F : ComputeSwapWithinBucketOutGivenIn _ _ _ _ _ = Ok _ |- _ =>
    apply exact_in_fair in F as [F _]; [|assumption..|lia]; rename F into Fair end.
  lazymatch goal with G : (if upd then _ else _) _ = _ |- _ => apply growth_step_inv in G as (G1 & G2 & G3 & G4 & G5) end.
  dec_exact.
  lazymatch goal with A : afterStep _ _ _ _ _ _ _ _ _ _ _ _ = _ |- _ => apply afterStep_inv in A as (P & R & Am & _) end.
  cbn [stepped sqrtPrice amountSpecifiedRemaining amountCalculated] in P, R, Am. rewrite G1 in R. rewrite G2 in Am.
  eexists. split; [exact Fair|]. cbn [sw_from sw_to sw_in sw_out sw_fee sw_liq].
  split; [reflexivity|]. split; [now symmetry|]. split; [exact R|]. split; [exact Am|].
  lazymatch goal with Cn : countNoProgress ?amt _ = Ok _ |- _ =>
    unfold countNoProgress in Cn; destruct (Z.eqb_spec amt 0) as [Z0 | NZ];
    [destruct (Nat.leb_spec swapNoProgressLimit count); [discriminate|]; apply Ok_inj in Cn; split; [auto|]; split; [lia | reflexivity]
    |apply Ok_inj in Cn; split; [lia|]; split; [auto | reflexivity]] end.
Qed.

Lemma outGivenInStep_inv bt upd zfo acc f d iter pl st count st' pl' iter' count' (k k' : Keeper) :
  continues limit st = true -> 0 < sqrtPrice st ->
  nets_ok (SetLiquidityDeltaSign (New zfo limit spf)) (liquidity st) iter ->
  outGivenInStep bt upd (New zfo limit spf) acc f d (st, pl, iter, count) k = (Ok (st', pl', iter', count'), k') ->
  nets_ok (SetLiquidityDeltaSign (New zfo limit spf)) (liquidity st') iter' /\
  exists s, iteration zfo st count st' count' s.
Proof using SS Hspf Hlimit.
  intros C0 Hp N H. assert (Hl : 0 <= liquidity st) by (destruct iter as [|[]]; apply N).
  split; [|exact (outGivenInStep_iteration _ _ _ _ _ _ _ _ _ _ _ _ _ _ _ _ C0 Hp Hl H)].
  unfold outGivenInStep in H. inv_ok.
  lazymatch goal with G : (if upd then _ else _) _ = _ |- _ => apply growth_step_inv in G as (_ & _ & _ & _ & G5) end.
  lazymatch goal with A : afterStep _ _ _ _ _ _ _ _ _ _ _ _ = _ |- _ => apply afterStep_inv in A as (_ & _ & _ & N') end.
  apply N'. cbn [stepped liquidity]. now rewrite G5.
Qed.

Lemma iteration_measure zfo st count st' count' s :
  continues limit st = true -> iteration zfo st count st' count' s ->
  (loop_measure st' count' < loop_measure st count)%nat.
Proof.
  intros C0 (F & _ & _ & R & _ & Z0 & NZ & _). unfold continues, SmallestDec in C0. b2p.
  destruct F as (_ & _ & _ & [k Ek] & Hin & _ & Hfee & _). unfold loop_measure. rewrite R.
  set (r := amountSpecifiedRemaining st) in *. pose proof OneDec_pos as O.
  pose proof (div_spec r OneDec O). pose proof (div_spec (r - (sw_in s + sw_fee s)) OneDec O).
  destruct (Z.eq_dec (sw_in s) 0) as [E | NE].
  - destruct (Z0 E) as [L ->]. assert ((r - (sw_in s + sw_fee s)) / OneDec <= r / OneDec) by (apply Z.div_le_mono; lia). lia.
  - rewrite (NZ NE). assert (OneDec <= sw_in s) by (assert (1 <= k) by nia; nia).
    assert ((r - (sw_in s + sw_fee s)) / OneDec < r / OneDec) by nia.
    assert (0 <= r / OneDec) by (apply Z.div_pos; lia). lia.
Qed.

Lemma out_loop_terminates bt upd zfo acc f d fuel : forall iter pl st count (k : Keeper),
  (loop_measure st count <= fuel)%nat -> 0 < sqrtPrice st ->
  nets_ok (SetLiquidityDeltaSign (New zfo limit spf)) (liquidity st) iter ->
  exists r, swapLoop (outGivenInStep bt upd (New zfo limit spf) acc f d) limit fuel (st, pl, iter, count) k = Some r.
Proof using SS Hspf Hlimit.
  induction fuel as [|fuel IH]; intros iter pl st count k M Hp N; cbn [swapLoop fst];
    destruct (continues limit st) eqn:C0; eauto.
  - exfalso. unfold continues, SmallestDec in C0. b2p. unfold loop_measure in M.
    pose proof (Z.div_pos (amountSpecifiedRemaining st) OneDec ltac:(lia) OneDec_pos). lia.
  - destruct (outGivenInStep _ _ _ _ _ _ _ k) as [[[[[st1 pl1] iter1] c1]| e | m] k1] eqn:E; eauto.
    apply outGivenInStep_inv in E as (N1 & s & I); [|assumption..].
    pose proof (iteration_measure zfo st count st1 c1 s C0 I). destruct I as (F & _ & Et & _).
    apply IH; [lia | rewrite <- Et; apply F | exact N1].
Qed.

End Correct.

(** ** The whole computation *)

Section Whole.
Context {S : SdkMath} {SS : SdkMathSpec S} {B : BigEndian} {C : DecCoinsOps} {EK : ExternalKeepers C}
  {KT : KVStore TickInfo} {KA : KVStore StoreValue}.

Lemma swapLoop_more step limit fuel r : forall ls (k : Keeper) fuel',
  swapLoop step limit fuel ls k = Some r -> (fuel <= fuel')%nat ->
  swapLoop step limit fuel' ls k = Some r.
Proof using Type.
  induction fuel as [|fuel IH]; intros ls k fuel' H L; cbn [swapLoop] in H.
  - destruct (continues limit (ls.1.1.1)) eqn:C0; [discriminate|]. destruct fuel'; cbn [swapLoop]; now rewrite C0.
  - destruct fuel' as [|fuel']; [lia|]. cbn [swapLoop].
    destruct (continues limit (ls.1.1.1)); [|assumption].
    destruct (step ls k) as [[ls1| |] k1]; [|assumption..]. apply IH; [assumption | lia].
Qed.

(** The pool's price is positive and the liquidity stays non-negative across
    the initialized ticks in the direction of the swap. *)
Definition pool_ok (zfo : bool) (store : @St _ KT) (p : Pool) (poolId : Z) : Prop :=
  0 < CurrentSqrtPrice p /\
  forall limit spf iter,
    InitializeNextTickIterator (New zfo limit spf) store poolId (CurrentTick p) = Ok iter ->
    nets_ok (SetLiquidityDeltaSign (New zfo limit spf)) (CurrentTickLiquidity p) iter.

Lemma setup_inv p spf inD priceLimit strategy limit :
  setupSwapStrategy p spf inD priceLimit = Ok (strategy, limit) ->
  strategy = New (getZeroForOne inD (Token0 p)) limit spf /\ 0 < limit.
Proof using Type.
  unfold setupSwapStrategy. destruct (GetSqrtPriceLimit priceLimit _) as [l| |] eqn:E; try discriminate.
  intros H. inv_bind H. apply Ok_inj in H. injection H as <- <-. split; [reflexivity|].
  now apply GetSqrtPriceLimit_pos in E.
Qed.

Lemma newSwapState_inv amt p st :
  newSwapState amt p = Ok st ->
  st = {| amountSpecifiedRemaining := amt * OneDec; amountCalculated := 0; sqrtPrice := CurrentSqrtPrice p;
          tick := CurrentTick p; liquidity := CurrentTickLiquidity p;
          globalSpreadRewardGrowthPerUnitLiquidity := 0; globalSpreadRewardGrowth := 0 |}.
Proof using SS.
  unfold newSwapState. intros H. inv_bind H. apply int_ToLegacyDec_exact in E as ->. now apply Ok_inj in H.
Qed.

Lemma getPoolById_inv poolId p (k k' : Keeper) :
  getPoolById poolId k = (Ok p, k') -> k' = k /\ k_pools k !! poolId = Some p.
Proof using Type.
  unfold getPoolById. destruct (k_pools k !! poolId) as [q|]; intros H; [|discriminate].
  injection H as -> <-. auto.
Qed.

Lemma spread_scaling_inv poolId f (k k' : Keeper) :
  getSpreadFactorScalingFactorForPool poolId k = (Ok f, k') -> k' = k.
Proof using Type.
  unfold getSpreadFactorScalingFactorForPool, GetSpreadFactorPoolIDMigrationThreshold. intros H. inv_m H.
  destruct (k_spreadThreshold k); [|discriminate]. injection E as _ <-. repeat case_if_in H; now inv_m H.
Qed.

Lemma swapSetup_inv poolId inD outD upd p acc (k k' : Keeper) :
  swapSetup poolId inD outD upd k = (Ok (p, acc), k') -> k' = k /\ k_pools k !! poolId = Some p.
Proof using Type.
  unfold swapSetup, getPoolForSwap, GetSpreadRewardAccumulator. intros H. inv_m H. inv_m E.
  apply getPoolById_inv in E0 as [-> Ep]. case_if_in E; [discriminate|]. inv_m E. subst v s.
  destruct upd; inv_m H; inv_ok; auto.
Qed.

(** What the loop starts from; the setup changes nothing. *)
Lemma swapStart_inv poolId inD outD n spf priceLimit upd strategy limit f acc ls (k k' : Keeper) :
  swapStart poolId inD outD n spf priceLimit upd k = (Ok (strategy, limit, f, acc, ls), k') ->
  exists p iter st,
    k' = k /\ k_pools k !! poolId = Some p /\ ls = (st, p, iter, 0%nat) /\
    setupSwapStrategy p spf inD priceLimit = Ok (strategy, limit) /\ newSwapState n p = Ok st /\
    InitializeNextTickIterator strategy (k_ticks k) poolId (CurrentTick p) = Ok iter.
Proof using SS.
  unfold swapStart. intros H. inv_m H. destruct v as [p acc']. apply swapSetup_inv in E as [-> Ep].
  inv_m H. destruct v as [strategy' limit']. inv_m E. subst s.
  inv_m H. assert (s = k) as -> by (destruct upd; [now apply spread_scaling_inv in E | now inv_m E]).
  inv_m H. inv_m E1. subst s. inv_m H. injection E1 as E1 <-. inv_ok.
  pose proof E2 as N. apply newSwapState_inv in N. rewrite N in E1. eauto 10.
Qed.

(** C3: the swap loop ends, also when it updates accumulators.  For an amount
    [n] of tokens in, [n + 1] iterations plus the no-progress limit are enough
    for the loop to finish, with a result or an error; more fuel does not change
    the outcome. *)
Theorem swap_terminates (bt : Z) (fuel : nat) (k : Keeper) (p : Pool) (poolId n : Z)
    (inD outD : string) (spf priceLimit : Z) (upd : bool) :
  k_pools k !! poolId = Some p -> 0 <= spf <= 5 * 10 ^ 17 -> 0 <= n ->
  pool_ok (getZeroForOne inD (Token0 p)) (k_ticks k) p poolId -> (swap_fuel n <= fuel)%nat ->
  computeOutAmtGivenIn bt fuel poolId inD n outD spf priceLimit upd k =
    computeOutAmtGivenIn bt (swap_fuel n) poolId inD n outD spf priceLimit upd k /\
  forall strategy limit f acc ls k',
    swapStart poolId inD outD n spf priceLimit upd k = (Ok (strategy, limit, f, acc, ls), k') ->
    exists r, swapLoop (outGivenInStep bt upd strategy acc f inD) limit fuel ls k' = Some r.
Proof using SS.
  intros Hk Hs Hn [Pp Pn] Hf.
  assert (T : forall strategy limit f acc ls k',
    swapStart poolId inD outD n spf priceLimit upd k = (Ok (strategy, limit, f, acc, ls), k') ->
    exists r, swapLoop (outGivenInStep bt upd strategy acc f inD) limit (swap_fuel n) ls k' = Some r).
  { intros strategy limit f acc ls k' H. apply swapStart_inv in H as (p' & iter & st & -> & Ep & -> & E1 & E2 & E3).
    rewrite Hk in Ep. injection Ep as <-. apply setup_inv in E1 as [-> Hl]. apply newSwapState_inv in E2 as ->.
    apply out_loop_terminates; [assumption | assumption | | exact Pp | exact (Pn limit spf iter E3)].
    unfold loop_measure, swap_fuel. cbn [amountSpecifiedRemaining].
    rewrite Z.div_mul by discriminate. lia. }
  split.
  - apply mbind_ext. intros [[[[strategy limit] f] acc] ls] k' E1. destruct (T _ _ _ _ _ _ E1) as (r & R).
    unfold mbind, finished. now rewrite R, (swapLoop_more _ _ _ _ _ _ fuel R Hf).
  - intros strategy limit f acc ls k' E1. destruct (T _ _ _ _ _ _ E1) as (r & R).
    exists r. exact (swapLoop_more _ _ _ _ _ _ fuel R Hf).
Qed.

End Whole.

(** ** Estimates and executions

    The two computations only differ in what [updateAccumulators] adds. *)

Definition core (st : SwapState) : Z * Z * Z * Z * Z :=
  (amountSpecifiedRemaining st, amountCalculated st, sqrtPrice st, tick st, liquidity st).

Lemma core_fields st st0 :
  core st = core st0 ->
  amountSpecifiedRemaining st = amountSpecifiedRemaining st0 /\ amountCalculated st = amountCalculated st0 /\
  sqrtPrice st = sqrtPrice st0 /\ tick st = tick st0 /\ liquidity st = liquidity st0.
Proof. unfold core. intros H. injection H. auto. Qed.

Section Estimate.
Context {S : SdkMath} {SS : SdkMathSpec S} {B : BigEndian} {C : DecCoinsOps} {EK : ExternalKeepers C}
  {KT : KVStore TickInfo} {KA : KVStore StoreValue}.

Lemma afterStep_estimate acc0 pl0 (k0 : Keeper) st0 bt strategy acc d iter t p start pl st st' pl' iter' (k k' : Keeper) :
  core st = core st0 ->
  afterStep bt true strategy acc d iter t p start pl st k = (Ok (st', pl', iter'), k') ->
  exists st0', core st' = core st0' /\
    afterStep bt false strategy acc0 d iter t p start pl0 st0 k0 = (Ok (st0', pl0, iter'), k0).
Proof using Type.
  intros Hc H. pose proof (core_fields _ _ Hc) as (F1 & F2 & F3 & F4 & F5).
  unfold afterStep in *. rewrite <- F3. case_if_in H; [|case_if_in H; [discriminate|case_if_in H]].
  - unfold swapCrossTickLogic in *. destruct iter as [|[key info] iter]; [discriminate|]. inv_ok.
    unfold mbind, lift, ret. rewrite <- F5. lazymatch goal with A : dec_Add _ _ = Ok _ |- _ => rewrite A end.
    eexists. split; [|reflexivity]. unfold core, moved. cbn. now rewrite F1, F2, F3.
  - inv_ok. unfold mbind, lift, ret. lazymatch goal with A : CalculateSqrtPriceToTick _ = Ok _ |- _ => rewrite A end.
    eexists. split; [|reflexivity]. unfold core, moved. cbn. now rewrite F1, F2, F3, F5.
  - inv_ok. eexists. split; [exact Hc | reflexivity].
Qed.

(** The common proof of the two steps: the growth of rewards leaves the core
    alone, the rest of the step is the same. *)
Ltac step_estimate acc0 pl0 k0 st0 F1 F2 F3 F5 :=
  let G1 := fresh "G" in let G2 := fresh "G" in let G3 := fresh "G" in let G4 := fresh "G" in
  let G5 := fresh "G" in let st1 := fresh "st" in let Hc1 := fresh "Hc" in let A1 := fresh "A" in
  lazymatch goal with G : updateSpreadRewardGrowthGlobal _ _ _ = Ok _ |- _ =>
    apply growth_inv in G as (G1 & G2 & G3 & G4 & G5) end;
  lazymatch goal with A : afterStep _ _ _ _ _ _ _ _ _ _ (stepped _ ?r ?c ?x) _ = _ |- _ =>
    apply (afterStep_estimate acc0 pl0 k0 (stepped st0 r c x)) in A as (st1 & Hc1 & A1);
    [|unfold core, stepped; cbn [amountSpecifiedRemaining amountCalculated sqrtPrice tick liquidity]; congruence] end;
  exists st1; cbn [fst snd]; (split; [exact Hc1|]); unfold mbind, lift, ret;
  rewrite <- F3, <- F5, <- F1;
  repeat lazymatch goal with A : ?x = Ok _ |- context [?x] => rewrite A end;
  rewrite <- F2, <- ?G1, <- G2;
  repeat lazymatch goal with A : ?x = Ok _ |- context [?x] => rewrite A end;
  rewrite A1; repeat lazymatch goal with A : ?x = Ok _ |- context [?x] => rewrite A end; reflexivity.

Lemma out_step_estimate acc0 f0 pl0 (k0 : Keeper) bt strategy acc f d st st0 pl iter count ls' (k k' : Keeper) :
  core st = core st0 ->
  outGivenInStep bt true strategy acc f d (st, pl, iter, count) k = (Ok ls', k') ->
  exists st0', core ls'.1.1.1 = core st0' /\
    outGivenInStep bt false strategy acc0 f0 d (st0, pl0, iter, count) k0 = (Ok (st0', pl0, ls'.1.2, ls'.2), k0).
Proof using Type.
  intros Hc H. pose proof (core_fields _ _ Hc) as (F1 & F2 & F3 & F4 & F5).
  unfold outGivenInStep in *. inv_ok. step_estimate acc0 pl0 k0 st0 F1 F2 F3 F5.
Qed.

Lemma in_step_estimate acc0 f0 pl0 (k0 : Keeper) bt strategy acc f d st st0 pl iter count ls' (k k' : Keeper) :
  core st = core st0 ->
  inGivenOutStep bt true strategy acc f d (st, pl, iter, count) k = (Ok ls', k') ->
  exists st0', core ls'.1.1.1 = core st0' /\
    inGivenOutStep bt false strategy acc0 f0 d (st0, pl0, iter, count) k0 = (Ok (st0', pl0, ls'.1.2, ls'.2), k0).
Proof using Type.
  intros Hc H. pose proof (core_fields _ _ Hc) as (F1 & F2 & F3 & F4 & F5).
  unfold inGivenOutStep in *. inv_ok. step_estimate acc0 pl0 k0 st0 F1 F2 F3 F5.
Qed.

Lemma loop_estimate (step1 step0 : LoopState -> M Keeper LoopState) limit (k0 : Keeper) (pl0 : Pool) :
  (forall st st0 pl iter count ls' k k', core st = core st0 ->
     step1 (st, pl, iter, count) k = (Ok ls', k') ->
     exists st0', core ls'.1.1.1 = core st0' /\
       step0 (st0, pl0, iter, count) k0 = (Ok (st0', pl0, ls'.1.2, ls'.2), k0)) ->
  forall fuel st st0 pl iter count st' k k', core st = core st0 ->
    swapLoop step1 limit fuel (st, pl, iter, count) k = Some (Ok st', k') ->
    exists st0', core st' = core st0' /\ swapLoop step0 limit fuel (st0, pl0, iter, count) k0 = Some (Ok st0', k0).
Proof using Type.
  intros Hstep. assert (Cont : forall st st0, core st = core st0 -> continues limit st = continues limit st0).
  { intros st st0 Hc. apply core_fields in Hc as (F1 & _ & F3 & _). unfold continues. now rewrite F1, F3. }
  induction fuel as [|fuel IH]; intros st st0 pl iter count st' k k' Hc H; cbn [swapLoop fst] in *;
    rewrite <- (Cont _ _ Hc); destruct (continues limit st); try discriminate;
    try (injection H as <- _; exists st0; auto).
  destruct (step1 (st, pl, iter, count) k) as [[ls1| |] k1] eqn:E; try discriminate.
  destruct (Hstep _ st0 _ _ _ _ _ _ Hc E) as (st1 & Hc1 & ->). destruct ls1 as [[[st2 pl2] iter2] c2].
  exact (IH _ _ _ _ _ _ _ _ Hc1 H).
Qed.

Lemma swapStart_estimate poolId inD outD n spf priceLimit strategy limit f acc ls (k k' : Keeper) :
  swapStart poolId inD outD n spf priceLimit true k = (Ok (strategy, limit, f, acc, ls), k') ->
  swapStart poolId inD outD n spf priceLimit false k = (Ok (strategy, limit, 0, None, ls), k).
Proof using SS.
  intros H. pose proof H as H'. apply swapStart_inv in H' as (p & iter & st & -> & Ep & -> & E1 & E2 & E3).
  unfold swapStart, swapSetup, getPoolForSwap in *. unfold mbind, lift, ret in *.
  unfold getPoolById in *. rewrite Ep in *. destruct (PoolHasPosition p); cbn [negb] in *; [|discriminate H].
  destruct (checkDenomValidity inD outD (Token0 p) (Token1 p)); try discriminate H.
  rewrite E1, E2. pose proof E2 as N. apply newSwapState_inv in N. rewrite N. cbn [tick]. now rewrite E3.
Qed.

(** C7: an executed swap and its estimate agree: whenever a computation that
    updates accumulators returns, the one that does not returns the same
    amounts and the same price, tick and liquidity on the same state, and leaves
    the state alone, for exact amounts in and out. *)
Theorem swap_estimate_matches (bt : Z) (fuel : nat) (k k' : Keeper) (poolId n : Z)
    (inD outD : string) (spf priceLimit : Z) (res : SwapResult) (upd : PoolUpdates) :
  (computeOutAmtGivenIn bt fuel poolId inD n outD spf priceLimit true k = (Ok (res, upd), k') ->
   exists res0, computeOutAmtGivenIn bt fuel poolId inD n outD spf priceLimit false k = (Ok (res0, upd), k) /\
     AmountIn res0 = AmountIn res /\ AmountOut res0 = AmountOut res) /\
  (computeInAmtGivenOut bt fuel poolId outD n inD spf priceLimit true k = (Ok (res, upd), k') ->
   exists res0, computeInAmtGivenOut bt fuel poolId outD n inD spf priceLimit false k = (Ok (res0, upd), k) /\
     AmountIn res0 = AmountIn res /\ AmountOut res0 = AmountOut res).
Proof using SS.
  split; intros H; [unfold computeOutAmtGivenIn in * | unfold computeInAmtGivenOut in *];
    inv_m H; destruct v as [[[[strategy limit] f] acc] ls]; pose proof E as St;
    apply swapStart_inv in St as (p & iter & st & -> & _ & -> & _ & _ & _);
    apply swapStart_estimate in E; unfold mbind at 1; rewrite E; inv_m H; unfold finished in *;
    (destruct (swapLoop _ _ _ _ _) as [[[st'| |] k1]|] eqn:L; try discriminate); injection E0 as <- <-.
  - apply (loop_estimate _ (outGivenInStep bt false strategy None 0 inD) limit k p) with (st0 := st) in L as (st0 & Hc & L0);
      [|intros; eapply out_step_estimate; eauto | reflexivity].
    apply core_fields in Hc as (F1 & F2 & F3 & F4 & F5). unfold mbind, lift, ret. rewrite L0, <- F1.
    case_if_in H; [discriminate|]. inv_ok. cbn [addSpreadRewards]. rewrite <- ?F1, <- F2.
    repeat lazymatch goal with A : ?x = Ok _ |- context [?x] => rewrite A end.
    eexists. cbn [AmountIn AmountOut]. rewrite F3, F4, F5. auto.
  - apply (loop_estimate _ (inGivenOutStep bt false strategy None 0 inD) limit k p) with (st0 := st) in L as (st0 & Hc & L0);
      [|intros; eapply in_step_estimate; eauto | reflexivity].
    apply core_fields in Hc as (F1 & F2 & F3 & F4 & F5). unfold mbind, lift, ret. rewrite L0, <- F1.
    case_if_in H; [discriminate|]. inv_ok. cbn [addSpreadRewards]. rewrite <- ?F1, <- F2.
    repeat lazymatch goal with A : ?x = Ok _ |- context [?x] => rewrite A end.
    eexists. cbn [AmountIn AmountOut]. rewrite F3, F4, F5. auto.
Qed.

End Estimate.

(** ** A pool with one position

    The position of the repository's swap tests: ETH/USDC at price 5000 with a
    range from 4545 to 5500, set up directly in the store. *)

#[local] Existing Instance ext_ref.
#[local] Existing Instance ref_ticks.
#[local] Existing Instance ref_accums.

Definition test_liquidity : Z := 1517882343751510418088349649.
Definition test_pool : Pool := with_price eth_usdc test_liquidity (CurrentSqrtPrice eth_usdc) (CurrentTick eth_usdc).

Definition test_info (gross net : Z) : TickInfo :=
  {| LiquidityGross := gross; LiquidityNet := net;
     SpreadRewardGrowthOppositeDirectionOfLastTraversal := NewDecCoins;
     UptimeTrackers := map (fun _ => NewDecCoins) SupportedUptimes |}.

Definition test_funds : RefExt :=
  {| balances := {[ ("alice", "eth") := 10 ^ 20; ("alice", "usdc") := 10 ^ 20;
                    ("pool", "eth") := 10 ^ 20; ("pool", "usdc") := 10 ^ 20 ]}; locks := ∅ |}.

Definition test_keeper : RefKeeper :=
  snd ((setPool test_pool ~;;
        createSpreadRewardAccumulator 1 ~;; createUptimeAccumulators 1 ~;;
        SetTickInfo 1 30545000 (test_info test_liquidity test_liquidity) ~;;
        SetTickInfo 1 31500000 (test_info test_liquidity (- test_liquidity)))
       (empty_keeper test_funds)).

(** The amounts and ticks that the Go tests expect; with accumulators the
    same amounts are computed. *)
Definition amounts_and_tick (r : Res (SwapResult * PoolUpdates) * RefKeeper) : option (Z * Z * Z) :=
  match fst r with
  | Ok (res, upd) => Some (AmountIn res, AmountOut res, NewCurrentTick upd)
  | _ => None
  end.

Example swap_42_usdc :
  amounts_and_tick (computeOutAmtGivenIn 0 3 1 "usdc" 42000000 "eth" 0 0 false test_keeper) =
    Some (42000000, 8396, 31003913).
Proof. vm_compute. reflexivity. Qed.

Example swap_13370_eth :
  amounts_and_tick (computeOutAmtGivenIn 0 3 1 "eth" 13370 "usdc" 0 0 true test_keeper) =
    Some (13370, 66808388, 30993777).
Proof. vm_compute. reflexivity. Qed.

Lemma test_pool_lookup : k_pools test_keeper !! 1 = Some test_pool.
Proof. vm_compute. reflexivity. Qed.

(** Checking the condition on a concrete store. *)
Fixpoint nets_okb {C : DecCoinsOps} (sign : Z -> Z) (l : Z) (iter : tickIter) : bool :=
  (0 <=? l) && match iter with
               | [] => true
               | (_, info) :: iter' => nets_okb sign (l + sign (LiquidityNet info)) iter'
               end.

Lemma nets_okb_spec {C : DecCoinsOps} sign iter : forall l, nets_okb sign l iter = true -> nets_ok sign l iter.
Proof.
  induction iter as [|[key info] iter IH]; intros l H; cbn [nets_okb nets_ok] in *; b2p; auto.
Qed.

Lemma test_pool_ok : pool_ok true (k_ticks test_keeper) test_pool 1.
Proof.
  split; [reflexivity|]. intros limit spf iter H. apply nets_okb_spec.
  change (zfo_InitializeNextTickIterator (k_ticks test_keeper) 1 (CurrentTick test_pool) = Ok iter) in H.
  assert (T : match zfo_InitializeNextTickIterator (k_ticks test_keeper) 1 (CurrentTick test_pool) with
              | Ok it => nets_okb Z.opp (CurrentTickLiquidity test_pool) it
              | _ => false
              end = true) by (vm_compute; reflexivity).
  rewrite H in T. exact T.
Qed.

Definition test_start : Res (SwapStrategy * Z * Z * option AccumulatorObject * LoopState) :=
  fst (swapStart 1 "eth" "usdc" 13370 (10 ^ 15) 0 true test_keeper).

Lemma swap_terminates_witness :
  match test_start with
  | Ok (strategy, limit, f, acc, ls) =>
      exists r, swapLoop (outGivenInStep 0 true strategy acc f "eth") limit (swap_fuel 13370) ls test_keeper = Some r
  | _ => False
  end.
Proof.
  pose proof (proj2 (swap_terminates 0 (swap_fuel 13370) test_keeper test_pool 1 13370 "eth" "usdc" (10 ^ 15) 0 true
    test_pool_lookup ltac:(split; vm_compute; congruence) ltac:(vm_compute; congruence) test_pool_ok (le_n _))) as H.
  assert (Ok1 : is_ok test_start = true) by (vm_compute; reflexivity). unfold test_start in *.
  destruct (swapStart 1 "eth" "usdc" 13370 (10 ^ 15) 0 true test_keeper) as [[v| |] k'] eqn:St;
    [|discriminate Ok1..]. cbn [fst]. destruct v as [[[[strategy limit] f] acc] ls].
  pose proof St as St'. apply swapStart_inv in St' as (p' & iter & st & -> & _).
  exact (H _ _ _ _ _ _ eq_refl).
Defined.

Lemma swap_estimate_matches_witness :
  amounts_and_tick (computeOutAmtGivenIn 0 3 1 "eth" 13370 "usdc" 0 0 false test_keeper) =
    Some (13370, 66808388, 30993777).
Proof.
  pose proof swap_13370_eth as X. unfold amounts_and_tick in *.
  destruct (computeOutAmtGivenIn 0 3 1 "eth" 13370 "usdc" 0 0 true test_keeper) as [[[res upd]| |] k'] eqn:R;
    [|discriminate X..].
  destruct (proj1 (swap_estimate_matches 0 3 test_keeper k' 1 13370 "eth" "usdc" 0 0 res upd) R) as (res0 & R0 & A & O).
  rewrite R0. cbn [fst] in *. rewrite A, O. exact X.
Defined.
