(* ===== verification/CLPosition.v ===== *)
(** * Concentrated liquidity: positions and liquidity provision
    ([lp.go], [position.go], [pool.go])

    A position adds its liquidity to the two ticks that bound it and, when the
    current tick is in its range, to the liquidity of the pool.  Creating,
    withdrawing and changing a position all go through [UpdatePosition], which
    also settles the accumulators; the tokens move between the owner and the
    pool.  A position may be tied to a lock of the lockup module. *)

From stdpp Require Import base gmap strings pretty sorting.
From Stdlib Require Import ZArith Lia List Bool.
From S2P Require Import Prelude GoBig BigInt BigDec MonoSqrt SdkMath CLMath CLTick Store CLKeys SwapStep GoState DecCoins Accum CLState CLPool CLUptime CLRewards CLSwap.
Import ListNotations.

Definition noUnderlyingLockId : Z := 0.

Record CreatePositionData : Type := {
  ID : Z;
  cpd_Amount0 : Z;
  cpd_Amount1 : Z;
  cpd_Liquidity : Z;
  cpd_LowerTick : Z;
  cpd_UpperTick : Z
}.

Record UpdatePositionData : Type := {
  Amount0 : Z;
  Amount1 : Z;
  LowerTickIsEmpty : bool;
  UpperTickIsEmpty : bool
}.

Record CreateFullRangePositionData : Type := {
  fr_ID : Z;
  fr_Amount0 : Z;
  fr_Amount1 : Z;
  fr_Liquidity : Z
}.

(** [strconv.ParseUint(s, base, 64)] on text of lower-case digits. *)
Definition digitValue (c : Ascii.ascii) : option Z :=
  let n := Z.of_nat (Ascii.nat_of_ascii c) in
  if (48 <=? n) && (n <=? 57) then Some (n - 48)
  else if (97 <=? n) && (n <=? 122) then Some (n - 87)
  else None.

Fixpoint parseDigits (base : Z) (s : string) (acc : Z) : Res Z :=
  match s with
  | EmptyString => Ok acc
  | String c rest =>
      match digitValue c with
      | Some d =>
          if d >=? base then Err "invalid syntax" else
          let acc' := acc * base + d in
          if acc' >? max_uint64 then Err "value out of range" else parseDigits base rest acc'
      | None => Err "invalid syntax"
      end
  end.

Definition ParseUint (s : string) (base : Z) : Res Z :=
  match s with EmptyString => Err "invalid syntax" | _ => parseDigits base s 0 end.

(** [osmoassert.Uint64ArrayValuesAreUnique] *)
Fixpoint ValuesAreUnique (values : list Z) (seen : gset Z) : bool :=
  match values with
  | [] => true
  | v :: rest => if bool_decide (v ∈ seen) then false else ValuesAreUnique rest ({[v]} ∪ seen)
  end.

Definition Uint64ArrayValuesAreUnique (values : list Z) : bool := ValuesAreUnique values ∅.

Section Positions.
Context {S : SdkMath} {B : BigEndian} {C : DecCoinsOps} {E : ExternalKeepers C}
  {KT : KVStore TickInfo} {KA : KVStore StoreValue}.

(** ** Reading positions *)

Definition getOrInitPosition (positionId : Z) : M Keeper Z :=
  has <~ hasPosition positionId ;;
  if has then GetPositionLiquidity positionId else ret 0.

Definition HasAnyPositionForPool (poolId : Z) : M Keeper bool :=
  ask (fun k => existsb (fun e : Z * Z => e.1 =? poolId) (elements (k_poolPosition k))).

(** Pool ids are written in decimal and read back in base 16. *)
Fixpoint matchingPositionIds (entries : list (string * Z * Z)) (poolId : Z) : Res (list Z) :=
  match entries with
  | [] => Ok []
  | (_, keyPool, positionId) :: rest =>
      keyPoolId <- ParseUint (pretty keyPool) 16 ;;
      ids <- matchingPositionIds rest poolId ;;
      Ok (if (keyPoolId =? poolId) || (poolId =? 0) then positionId :: ids else ids)
  end.

(** The prefix is that of an owner, or of an owner and a pool. *)
Definition GetAllPositionIdsForPoolId (addr : string) (prefixPool : option Z) (poolId : Z) : M Keeper (list Z) :=
  entries <~ ask (fun k => List.filter (fun e : string * Z * Z =>
    String.eqb e.1.1 addr && match prefixPool with Some p => e.1.2 =? p | None => true end)
    (elements (k_addressPoolPosition k))) ;;
  ids <~ lift (matchingPositionIds entries poolId) ;;
  ret (merge_sort Z.le ids).

Fixpoint getPositions (ids : list Z) : M Keeper (list Position) :=
  match ids with
  | [] => ret []
  | positionId :: rest =>
      position <~ GetPosition positionId ;;
      positions <~ getPositions rest ;;
      ret (position :: positions)
  end.

Definition GetUserPositions (addr : string) (poolId : Z) : M Keeper (list Position) :=
  ids <~ GetAllPositionIdsForPoolId addr (if poolId =? 0 then None else Some poolId) poolId ;;
  getPositions ids.

(** ** Locks *)

Definition GetLockIdFromPositionId (positionId : Z) : M Keeper Z :=
  fun k => match k_positionLock k !! positionId with
           | Some l => (Ok l, k)
           | None => (Err "PositionIdToLockNotFoundError", k)
           end.

Definition GetPositionIdToLockId (underlyingLockId : Z) : M Keeper Z :=
  fun k => match k_lockPosition k !! underlyingLockId with
           | Some p => (Ok p, k)
           | None => (Err "LockIdToPositionIdNotFoundError", k)
           end.

Definition setPositionIdToLock (positionId underlyingLockId : Z) : M Keeper unit :=
  modify (set_positionLock <[positionId := underlyingLockId]>) ~;;
  modify (set_lockPosition <[underlyingLockId := positionId]>).

Definition RemovePositionIdForLockId (positionId underlyingLockId : Z) : M Keeper unit :=
  modify (set_positionLock (delete positionId)) ~;;
  modify (set_lockPosition (delete underlyingLockId)).

(** The end time of a lock is zero while it is not unlocking. *)
Definition isLockMature (BlockTime underlyingLockId : Z) : M Keeper bool :=
  fun k => match GetLockByID (k_ext k) underlyingLockId with
           | Ok endTime => (Ok (if endTime =? 0 then false else endTime <? BlockTime), k)
           | Err e => if String.eqb e "ErrLockupNotFound" then (Ok true, k) else (Err e, k)
           | Panic m => (Panic m, k)
           end.

Definition PositionHasActiveUnderlyingLock (BlockTime positionId : Z) : M Keeper (bool * Z) :=
  fun k => match GetLockIdFromPositionId positionId k with
           | (Err _, _) => (Ok (false, 0), k)
           | (Panic m, _) => (Panic m, k)
           | (Ok lockId, _) => (lockIsMature <~ isLockMature BlockTime lockId ;; ret (negb lockIsMature, lockId)) k
           end.

Definition positionHasActiveUnderlyingLockAndUpdate (BlockTime positionId : Z) : M Keeper (bool * Z) :=
  '(active, lockId) <~ PositionHasActiveUnderlyingLock BlockTime positionId ;;
  if active && (lockId =? 0) then fail "PositionIdToLockNotFoundError" else
  if negb active && negb (lockId =? 0)
  then RemovePositionIdForLockId positionId lockId ~;; ret (false, 0)
  else ret (active, lockId).

(** ** Writing positions *)

Definition GetFullRangeLiquidityInPool (poolId : Z) : M Keeper Z :=
  fun k => match k_fullRange k !! poolId with
           | Some l => (Ok l, k)
           | None => (Err "DecNotFoundError", k)
           end.

Definition updateFullRangeLiquidityInPool (poolId liquidity : Z) : M Keeper unit :=
  current <~ ask (fun k => default 0 (k_fullRange k !! poolId)) ;;
  total <~ lift (dec_Add current liquidity) ;;
  modify (set_fullRange <[poolId := total]>).

Definition SetPosition (BlockTime poolId : Z) (owner : string) (lowerTick upperTick joinTime liquidity
    positionId underlyingLockId : Z) : M Keeper unit :=
  modify (set_positions <[positionId :=
    {| PositionId := positionId; PositionAddress := owner; PoolId := poolId; LowerTick := lowerTick;
       UpperTick := upperTick; JoinTime := joinTime; Liquidity := liquidity |}]>) ~;;
  modify (set_addressPoolPosition (fun s => {[(owner, poolId, positionId)]} ∪ s)) ~;;
  modify (set_poolPosition (fun s => {[(poolId, positionId)]} ∪ s)) ~;;
  '(active, _) <~ positionHasActiveUnderlyingLockAndUpdate BlockTime positionId ;;
  when (negb active && negb (underlyingLockId =? 0)) (setPositionIdToLock positionId underlyingLockId) ~;;
  when ((lowerTick =? MinInitializedTick) && (upperTick =? MaxTick))
    (updateFullRangeLiquidityInPool poolId liquidity).

Definition deletePosition (positionId : Z) (owner : string) (poolId : Z) : M Keeper unit :=
  k <~ get ;;
  if negb (bool_decide (is_Some (k_positions k !! positionId))) then fail "PositionIdNotFoundError" else
  modify (set_positions (delete positionId)) ~;;
  if negb (bool_decide ((poolId, positionId) ∈ k_poolPosition k)) then fail "PoolPositionIdNotFoundError" else
  modify (set_poolPosition (fun s => s ∖ {[(poolId, positionId)]})) ~;;
  if negb (bool_decide ((owner, poolId, positionId) ∈ k_addressPoolPosition k))
  then fail "AddressPoolPositionIdNotFoundError" else
  modify (set_addressPoolPosition (fun s => s ∖ {[(owner, poolId, positionId)]})) ~;;
  match k_positionLock k !! positionId with
  | Some _ =>
      underlyingLockId <~ GetLockIdFromPositionId positionId ;;
      modify (set_positionLock (delete positionId)) ~;;
      modify (set_lockPosition (delete underlyingLockId))
  | None => ret tt
  end.

Definition initOrUpdatePosition (BlockTime poolId : Z) (owner : string) (lowerTick upperTick liquidityDelta
    joinTime positionId : Z) : M Keeper unit :=
  liquidity <~ getOrInitPosition positionId ;;
  liquidity <~ lift (dec_Add liquidity liquidityDelta) ;;
  if liquidity <? 0 then fail "NegativeLiquidityError" else
  initOrUpdatePositionUptimeAccumulators BlockTime poolId liquidity lowerTick upperTick liquidityDelta positionId ~;;
  SetPosition BlockTime poolId owner lowerTick upperTick joinTime liquidity positionId noUnderlyingLockId.

Definition getNextPositionIdAndIncrement : M Keeper Z :=
  nextPositionId <~ GetNextPositionId ;;
  SetNextPositionId (uint64 (nextPositionId + 1)) ~;;
  ret nextPositionId.

(** ** Changing the liquidity of a position *)

Definition validatePositionUpdateById (positionId : Z) (updateInitiator : string) (lowerTickGiven upperTickGiven
    liquidityDeltaGiven joinTimeGiven poolIdGiven : Z) : M Keeper unit :=
  if positionId =? 0 then fail "ErrZeroPositionId" else
  has <~ hasPosition positionId ;;
  if has then
    position <~ GetPosition positionId ;;
    if negb (String.eqb (PositionAddress position) updateInitiator) then fail "PositionOwnerMismatchError" else
    if negb (LowerTick position =? lowerTickGiven) then fail "LowerTickMismatchError" else
    if negb (UpperTick position =? upperTickGiven) then fail "UpperTickMismatchError" else
    if (liquidityDeltaGiven <? 0) && (Liquidity position <? Z.abs liquidityDeltaGiven)
    then fail "LiquidityWithdrawalError" else
    if negb (JoinTime position =? joinTimeGiven) then fail "JoinTimeMismatchError" else
    if negb (PoolId position =? poolIdGiven) then fail "PositionsNotInSamePoolError" else ret tt
  else ret tt.

Definition UpdatePosition (BlockTime poolId : Z) (owner : string) (lowerTick upperTick liquidityDelta joinTime
    positionId : Z) : M Keeper UpdatePositionData :=
  validatePositionUpdateById positionId owner lowerTick upperTick liquidityDelta joinTime poolId ~;;
  lowerTickIsEmpty <~ initOrUpdateTick BlockTime poolId lowerTick liquidityDelta false ;;
  upperTickIsEmpty <~ initOrUpdateTick BlockTime poolId upperTick liquidityDelta true ;;
  initOrUpdatePosition BlockTime poolId owner lowerTick upperTick liquidityDelta joinTime positionId ~;;
  pool <~ getPoolById poolId ;;
  '(actualAmount0, actualAmount1) <~ lift (CalcActualAmounts pool lowerTick upperTick liquidityDelta) ;;
  '(pool, _) <~ lift (UpdateLiquidityIfActivePosition pool lowerTick upperTick liquidityDelta) ;;
  setPool pool ~;;
  initOrUpdatePositionSpreadRewardAccumulator BlockTime poolId lowerTick upperTick positionId liquidityDelta ~;;
  amount0 <~ lift (dec_TruncateInt actualAmount0) ;;
  amount1 <~ lift (dec_TruncateInt actualAmount1) ;;
  ret {| Amount0 := amount0; Amount1 := amount1;
         LowerTickIsEmpty := lowerTickIsEmpty; UpperTickIsEmpty := upperTickIsEmpty |}.

Definition sendCoinsBetweenPoolAndUser (denom0 denom1 : string) (amount0 amount1 : Z) (sender receiver : string) :
    M Keeper unit :=
  if amount0 <? 0 then fail "Amount0IsNegativeError" else
  if amount1 <? 0 then fail "Amount1IsNegativeError" else
  coins <~ lift (NewCoins [(denom1, amount1); (denom0, amount0)]) ;;
  external (SendCoins sender receiver coins).

(** The pool object, which is mutated, is returned. *)
Definition initializeInitialPositionForPool (pool : Pool) (amount0Desired amount1Desired : Z) : M Keeper Pool :=
  if negb (amount0Desired >? 0) || negb (amount1Desired >? 0) then fail "InitialLiquidityZeroError" else
  a1 <~ lift (int_ToLegacyDec amount1Desired) ;;
  a0 <~ lift (int_ToLegacyDec amount0Desired) ;;
  initialSpotPrice <~ lift (dec_Quo a1 a0) ;;
  initialCurSqrtPrice <~ lift (MonotonicSqrtMut initialSpotPrice) ;;
  initialCurSqrtPriceBigDec <~ lift (BigDecFromDecMut initialCurSqrtPrice) ;;
  initialTick <~ lift (SqrtPriceToTickRoundDownSpacing initialCurSqrtPriceBigDec (TickSpacing pool)) ;;
  let pool := SetCurrentTick (SetCurrentSqrtPrice pool initialCurSqrtPriceBigDec) initialTick in
  setPool pool ~;;
  ret pool.

Definition uninitializePool (poolId : Z) : M Keeper unit :=
  pool <~ getPoolById poolId ;;
  hasAnyPosition <~ HasAnyPositionForPool poolId ;;
  if hasAnyPosition then fail "UninitializedPoolWithLiquidityError" else
  setPool (SetCurrentTick (SetCurrentSqrtPrice pool ZeroBigDec) 0).

(** [tokens.Add(sdk.NewCoin(denom, amount))] when the amount is positive. *)
Definition addIfPositive (tokens : Coins) (denom : string) (amount : Z) : Res Coins :=
  if amount >? 0 then coins_Add tokens (one_coin denom amount) else Ok tokens.

Definition CreatePosition (BlockTime poolId : Z) (owner : string) (tokensProvided : Coins)
    (amount0Min amount1Min lowerTick upperTick : Z) : M Keeper CreatePositionData :=
  let joinTime := BlockTime in
  pool <~ getPoolById poolId ;;
  if negb (forallb (fun c : string * Z => String.eqb c.1 (Token0 pool) || String.eqb c.1 (Token1 pool))
             (coins_list tokensProvided))
  then fail "token provided is not one of the pool tokens" else
  lift (validateTickRangeIsValid (TickSpacing pool) lowerTick upperTick) ~;;
  let amount0Desired := CoinsAmountOf tokensProvided (Token0 pool) in
  let amount1Desired := CoinsAmountOf tokensProvided (Token1 pool) in
  if (amount0Desired =? 0) && (amount1Desired =? 0)
  then fail "cannot create a position with zero amounts of both pool tokens" else
  if amount0Min <? 0 then fail "NotPositiveRequireAmountError" else
  if amount1Min <? 0 then fail "NotPositiveRequireAmountError" else
  '(sqrtPriceLowerTick, sqrtPriceUpperTick) <~ lift (TicksToSqrtPrice lowerTick upperTick) ;;
  '(lowerTick, upperTick) <~ lift (roundTickToCanonicalPriceTick lowerTick upperTick sqrtPriceLowerTick
     sqrtPriceUpperTick (TickSpacing pool)) ;;
  let hasPositions := PoolHasPosition pool in
  external (callPoolActionListener "beforeCreatePosition" poolId) ~;;
  positionId <~ getNextPositionIdAndIncrement ;;
  pool <~ (if negb hasPositions then initializeInitialPositionForPool pool amount0Desired amount1Desired
           else ret pool) ;;
  liquidityDelta <~ lift (GetLiquidityFromAmounts (CurrentSqrtPrice pool) sqrtPriceLowerTick sqrtPriceUpperTick
     amount0Desired amount1Desired) ;;
  if liquidityDelta =? 0 then fail "failed to translate amounts to positive liquidity" else
  updateData <~ UpdatePosition BlockTime poolId owner lowerTick upperTick liquidityDelta joinTime positionId ;;
  if Amount0 updateData <? amount0Min then fail "InsufficientLiquidityCreatedError" else
  if Amount1 updateData <? amount1Min then fail "InsufficientLiquidityCreatedError" else
  sendCoinsBetweenPoolAndUser (Token0 pool) (Token1 pool) (Amount0 updateData) (Amount1 updateData)
    owner (Address pool) ~;;
  when (negb hasPositions) (modify (set_ext (listen "AfterInitialPoolPositionCreated" owner poolId))) ~;;
  tokensAdded <~ lift (addIfPositive coins_empty (Token0 pool) (Amount0 updateData)) ;;
  tokensAdded <~ lift (addIfPositive tokensAdded (Token1 pool) (Amount1 updateData)) ;;
  RecordTotalLiquidityIncrease tokensAdded ~;;
  external (callPoolActionListener "afterCreatePosition" poolId) ~;;
  ret {| ID := positionId; cpd_Amount0 := Amount0 updateData; cpd_Amount1 := Amount1 updateData;
         cpd_Liquidity := liquidityDelta; cpd_LowerTick := lowerTick; cpd_UpperTick := upperTick |}.

(** What removing the whole of a position does to the position and the pool. *)
Definition removeWholePosition (BlockTime : Z) (owner : string) (positionId : Z) (position : Position) (pool : Pool) :
    M Keeper unit :=
  collectSpreadRewards BlockTime owner positionId ~;;
  deletePosition positionId owner (PoolId position) ~;;
  anyPositionsRemainingInPool <~ HasAnyPositionForPool (PoolId position) ;;
  if negb anyPositionsRemainingInPool then
    uninitializePool (Id pool) ~;;
    modify (set_ext (listen "AfterLastPoolPositionRemoved" owner (Id pool)))
  else ret tt.

Definition WithdrawPosition (BlockTime : Z) (owner : string) (positionId requestedLiquidityAmountToWithdraw : Z) :
    M Keeper (Z * Z) :=
  position <~ GetPosition positionId ;;
  if negb (String.eqb owner (PositionAddress position)) then fail "NotPositionOwnerError" else
  if requestedLiquidityAmountToWithdraw <? 0 then fail "InsufficientLiquidityError" else
  '(active, _) <~ positionHasActiveUnderlyingLockAndUpdate BlockTime positionId ;;
  if active : bool then fail "LockNotMatureError" else
  pool <~ getPoolById (PoolId position) ;;
  if requestedLiquidityAmountToWithdraw >? Liquidity position then fail "InsufficientLiquidityError" else
  external (callPoolActionListener "beforeWithdrawPosition" (PoolId position)) ~;;
  '(_, totalForfeited, scaledForfeitedByUptime) <~ collectIncentives BlockTime owner positionId ;;
  let liquidityDelta := - requestedLiquidityAmountToWithdraw in
  updateData <~ UpdatePosition BlockTime (PoolId position) owner (LowerTick position) (UpperTick position)
    liquidityDelta (JoinTime position) positionId ;;
  sendCoinsBetweenPoolAndUser (Token0 pool) (Token1 pool) (Z.abs (Amount0 updateData)) (Z.abs (Amount1 updateData))
    (Address pool) owner ~;;
  redepositForfeitedIncentives (PoolId position) owner scaledForfeitedByUptime totalForfeited ~;;
  when (requestedLiquidityAmountToWithdraw =? Liquidity position)
    (removeWholePosition BlockTime owner positionId position pool) ~;;
  when (LowerTickIsEmpty updateData) (RemoveTickInfo (PoolId position) (LowerTick position)) ~;;
  when (UpperTickIsEmpty updateData) (RemoveTickInfo (PoolId position) (UpperTick position)) ~;;
  tokensRemoved <~ lift (addIfPositive coins_empty (Token0 pool) (Amount0 updateData)) ;;
  tokensRemoved <~ lift (addIfPositive tokensRemoved (Token1 pool) (Amount1 updateData)) ;;
  RecordTotalLiquidityDecrease tokensRemoved ~;;
  external (callPoolActionListener "afterWithdrawPosition" (PoolId position)) ~;;
  ret (- Amount0 updateData, - Amount1 updateData).

Definition addToPosition (BlockTime : Z) (owner : string) (positionId amount0Added amount1Added amount0MinGiven
    amount1MinGiven : Z) : M Keeper (Z * Z * Z) :=
  position <~ GetPosition positionId ;;
  if negb (String.eqb owner (PositionAddress position)) then fail "NotPositionOwnerError" else
  if (amount0Added <? 0) || (amount1Added <? 0) then fail "NegativeAmountAddedError" else
  if (amount0Added =? 0) && (amount1Added =? 0) then fail "ErrZeroLiquidity" else
  '(active, _) <~ positionHasActiveUnderlyingLockAndUpdate BlockTime positionId ;;
  if active : bool then fail "PositionSuperfluidStakedError" else
  '(amount0Withdrawn, amount1Withdrawn) <~ WithdrawPosition BlockTime owner positionId (Liquidity position) ;;
  pool <~ GetConcentratedPoolById (PoolId position) ;;
  if negb (PoolHasPosition pool) then fail "AddToLastPositionInPoolError" else
  amount0Desired <~ lift (int_Add amount0Withdrawn amount0Added) ;;
  amount1Desired <~ lift (int_Add amount1Withdrawn amount1Added) ;;
  tokensProvided <~ lift (NewCoins [(Token0 pool, amount0Desired); (Token1 pool, amount1Desired)]) ;;
  minimumAmount0 <~ lift (if negb (amount0MinGiven =? 0) then int_Add amount0Withdrawn amount0MinGiven
                          else Ok amount0Withdrawn) ;;
  minimumAmount1 <~ lift (if negb (amount1MinGiven =? 0) then int_Add amount1Withdrawn amount1MinGiven
                          else Ok amount1Withdrawn) ;;
  data <~ CreatePosition BlockTime (PoolId position) owner tokensProvided minimumAmount0 minimumAmount1
    (LowerTick position) (UpperTick position) ;;
  ret (ID data, cpd_Amount0 data, cpd_Amount1 data).

(** ** Full-range positions *)

Definition CreateFullRangePosition (BlockTime poolId : Z) (owner : string) (coins : Coins) :
    M Keeper CreateFullRangePositionData :=
  if negb (Nat.eqb (List.length (coins_list coins)) 2) then fail "NumCoinsError" else
  concentratedPool <~ GetConcentratedPoolById poolId ;;
  if CoinsAmountOf coins (Token0 concentratedPool) <=? 0 then fail "Amount0IsNegativeError" else
  if CoinsAmountOf coins (Token1 concentratedPool) <=? 0 then fail "Amount1IsNegativeError" else
  data <~ CreatePosition BlockTime (Id concentratedPool) owner coins 0 0 MinInitializedTick MaxTick ;;
  ret {| fr_ID := ID data; fr_Amount0 := cpd_Amount0 data; fr_Amount1 := cpd_Amount1 data;
         fr_Liquidity := cpd_Liquidity data |}.

Definition mintSharesAndLock (concentratedPoolId positionId : Z) (owner : string) (remainingLockDuration : Z) :
    M Keeper (Z * Coins) :=
  position <~ GetPosition positionId ;;
  if negb (LowerTick position =? MinInitializedTick) || negb (UpperTick position =? MaxTick)
  then fail "PositionNotFullRangeError" else
  amount <~ lift (dec_TruncateInt (Liquidity position)) ;;
  tokenized <~ lift (NewCoins [(GetConcentratedLockupDenomFromPoolId concentratedPoolId, amount)]) ;;
  external (MintCoins "lockup" tokenized) ~;;
  lockId <~ external (CreateLockNoSend owner tokenized remainingLockDuration) ;;
  setPositionIdToLock positionId lockId ~;;
  ret (lockId, tokenized).

Definition CreateFullRangePositionLocked (BlockTime clPoolId : Z) (owner : string) (coins : Coins)
    (remainingLockDuration : Z) : M Keeper (CreateFullRangePositionData * Z) :=
  positionData <~ CreateFullRangePosition BlockTime clPoolId owner coins ;;
  '(concentratedLockId, _) <~ mintSharesAndLock clPoolId (fr_ID positionData) owner remainingLockDuration ;;
  ret (positionData, concentratedLockId).

Definition CreateFullRangePositionUnlocking (BlockTime clPoolId : Z) (owner : string) (coins : Coins)
    (remainingLockDuration : Z) : M Keeper (CreateFullRangePositionData * Z) :=
  positionData <~ CreateFullRangePosition BlockTime clPoolId owner coins ;;
  '(concentratedLockId, tokenized) <~ mintSharesAndLock clPoolId (fr_ID positionData) owner remainingLockDuration ;;
  lockId <~ external (BeginForceUnlock concentratedLockId tokenized) ;;
  ret (positionData, lockId).

(** ** Values of positions *)

Definition CalculateUnderlyingAssetsFromPosition (position : Position) (pool : Pool) : Res (Z * Z) :=
  if Liquidity position =? 0 then Ok (0, 0) else
  '(asset0, asset1) <- CalcActualAmounts pool (LowerTick position) (UpperTick position) (Liquidity position) ;;
  a0 <- dec_TruncateInt asset0 ;;
  a1 <- dec_TruncateInt asset1 ;;
  c0 <- NewCoinAmount a0 ;;
  c1 <- NewCoinAmount a1 ;;
  Ok (c0, c1).

Fixpoint UnderlyingPositionsValue (positionIds : list Z) (underlyingAssets : Coins) : M Keeper Coins :=
  match positionIds with
  | [] => ret underlyingAssets
  | positionId :: rest =>
      position <~ GetPosition positionId ;;
      pool <~ GetConcentratedPoolById (PoolId position) ;;
      '(asset0, asset1) <~ lift (CalcActualAmounts pool (LowerTick position) (UpperTick position) (Liquidity position)) ;;
      a0 <~ lift (dec_TruncateInt asset0) ;;
      a1 <~ lift (dec_TruncateInt asset1) ;;
      c0 <~ lift (NewCoinAmount a0) ;;
      c1 <~ lift (NewCoinAmount a1) ;;
      total <~ lift (coins_Add underlyingAssets (one_coin (Token0 pool) c0)) ;;
      total <~ lift (coins_Add total (one_coin (Token1 pool) c1)) ;;
      UnderlyingPositionsValue rest total
  end.

(** ** Transfers *)

Definition transferPosition (BlockTime : Z) (sender recipient : string) (positionId : Z) : M Keeper unit :=
  let isGovModuleSender := String.eqb sender (GetModuleAddress "gov") in
  position <~ GetPosition positionId ;;
  if negb isGovModuleSender && negb (String.eqb (PositionAddress position) sender)
  then fail "PositionOwnerMismatchError" else
  '(active, _) <~ positionHasActiveUnderlyingLockAndUpdate BlockTime positionId ;;
  if active : bool then fail "LockNotMatureError" else
  deletePosition positionId (PositionAddress position) (PoolId position) ~;;
  anyPositionsRemainingInPool <~ HasAnyPositionForPool (PoolId position) ;;
  if negb anyPositionsRemainingInPool then fail "LastPositionTransferError" else
  SetPosition BlockTime (PoolId position) recipient (LowerTick position) (UpperTick position) (JoinTime position)
    (Liquidity position) (PositionId position) 0.

Definition transferPositions (BlockTime : Z) (positionIds : list Z) (sender recipient : string) : M Keeper unit :=
  if negb (Uint64ArrayValuesAreUnique positionIds) then fail "DuplicatePositionIdsError" else
  for_each positionIds (transferPosition BlockTime sender recipient).

(** ** Creating a pool *)

(** The pool object is given by the pool manager. *)
Definition InitializePool (BlockTime : Z) (pool : Pool) (creatorAddress : string) : M Keeper unit :=
  params <~ ask k_params ;;
  quoteDenoms <~ ask (fun k => AuthorizedQuoteDenoms (k_ext k)) ;;
  let bypassRestrictions := String.eqb creatorAddress (GetModuleAddress "poolmanager")
    || existsb (String.eqb creatorAddress) (UnrestrictedPoolCreatorWhitelist params) in
  (if negb bypassRestrictions then
     if negb (IsPermissionlessPoolCreationEnabled params) then fail "ErrPermissionlessPoolCreationDisabled" else
     if negb (validateTickSpacing params (TickSpacing pool)) then fail "UnauthorizedTickSpacingError" else
     if negb (validateSpreadFactor params (SpreadFactor pool)) then fail "UnauthorizedSpreadFactorError" else
     if negb (validateAuthorizedQuoteDenoms (Token1 pool) quoteDenoms) then fail "UnauthorizedQuoteDenomError" else
     ret tt
   else ret tt) ~;;
  createSpreadRewardAccumulator (Id pool) ~;;
  createUptimeAccumulators (Id pool) ~;;
  setPool (SetLastLiquidityUpdate pool BlockTime) ~;;
  modify (set_ext (listen "AfterConcentratedPoolCreated" creatorAddress (Id pool))).

(** ** Positions of a pool *)

Definition GetPositionIDsByPoolID (poolID : Z) : M Keeper (list Z) :=
  ask (fun k => merge_sort Z.le (map snd (base.filter (fun e : Z * Z => e.1 = poolID) (elements (k_poolPosition k))))).

End Positions.
