(* ===== verification/CLFrame.v ===== *)
(** * Concentrated liquidity: what reward bookkeeping leaves alone

    Claiming, accruing and forfeiting rewards changes accumulators, incentive
    records and balances, but no liquidity: [frame] relates two states with
    the same positions, the same liquidity of ticks and the same pools up to
    the time of their last liquidity update.  Most operations of the module
    only do this, and [frame_auto] proves it from their text. *)

From stdpp Require Import base gmap strings pretty.
From Stdlib Require Import ZArith Lia List Bool.
From S2P Require Import Prelude GoBig BigDec SdkMath CLTick Store CLKeys GoState DecCoins Accum CLState CLPool CLUptime CLRewards CLSwap CLPosition.
Import ListNotations.

Section Frame.
Context {S : SdkMath} {B : BigEndian} {C : DecCoinsOps} {EK : ExternalKeepers C}
  {KT : KVStore TickInfo} {KS : KVStoreSpec KT} {KA : KVStore StoreValue}.

Definition liq_of (i : TickInfo) : Z * Z := (LiquidityGross i, LiquidityNet i).

(** A pool without the time of its last liquidity update. *)
Definition undated (p : Pool) : Pool := SetLastLiquidityUpdate p 0.

Definition pool_at (k : Keeper) (poolId : Z) : option Pool := undated <$> (k_pools k !! poolId).
Definition liq_at (k : Keeper) (key : bytes) : option (Z * Z) := liq_of <$> st_get (k_ticks k) key.

(** Pools are stored under their own id. *)
Definition ids_ok (k : Keeper) : Prop := forall id p, k_pools k !! id = Some p -> Id p = id.

(** Everything but the ticks. *)
Record frame_rest (k k' : Keeper) : Prop := {
  fr_pools id : pool_at k' id = pool_at k id;
  fr_positions : k_positions k' = k_positions k;
  fr_byPool : k_poolPosition k' = k_poolPosition k;
  fr_byOwner : k_addressPoolPosition k' = k_addressPoolPosition k;
  fr_next : k_nextPositionId k' = k_nextPositionId k
}.

Record frame (k k' : Keeper) : Prop := {
  fr_rest : frame_rest k k';
  fr_ticks key : liq_at k' key = liq_at k key
}.

Lemma frame_rest_trans k1 k2 k3 : frame_rest k1 k2 -> frame_rest k2 k3 -> frame_rest k1 k3.
Proof. intros [] []. split; intros; congruence. Qed.

#[export] Instance frame_refl : Reflexive frame.
Proof. intros k. split; [split|]; reflexivity. Qed.

#[export] Instance frame_trans : Transitive frame.
Proof.
  intros k1 k2 k3 [F1 T1] [F2 T2]. split; [exact (frame_rest_trans _ _ _ F1 F2)|]. intros. congruence.
Qed.

Lemma pool_at_inv k id p : pool_at k id = Some p -> exists q, k_pools k !! id = Some q /\ undated q = p.
Proof. unfold pool_at. intros H. apply fmap_Some in H as (q & E & ->). eauto. Qed.

Lemma undated_Id p q : undated p = undated q -> Id p = Id q.
Proof. intros H. exact (f_equal Id H). Qed.

Lemma frame_rest_ids k k' : frame_rest k k' -> ids_ok k -> ids_ok k'.
Proof.
  intros F I id p H. pose proof (fr_pools _ _ F id) as E. unfold pool_at in E. rewrite H in E.
  symmetry in E. apply fmap_Some in E as (q & Eq & Hq). apply undated_Id in Hq. rewrite Hq. now apply I.
Qed.

(** The given pool object is the stored one, up to the time. *)
Definition stored (p : Pool) (k : Keeper) : Prop := pool_at k (Id p) = Some (undated p).

(** [framed_on P c]: a successful run of [c] from a state with [P] is a frame. *)
Definition framed_on (P : Keeper -> Prop) {A} (c : M Keeper A) : Prop :=
  forall k a k', ids_ok k -> P k -> c k = (Ok a, k') -> frame k k'.

(** Conditions that frames keep. *)
Definition stable (P : Keeper -> Prop) : Prop := forall k k', frame k k' -> P k -> P k'.

Definition always (k : Keeper) : Prop := True.

Definition framed {A} (c : M Keeper A) : Prop := framed_on always c.

Lemma always_stable : stable always.
Proof. intros k k' _ _. exact I. Qed.

Lemma stored_stable p : stable (stored p).
Proof. intros k k' F H. unfold stored. now rewrite (fr_pools _ _ (fr_rest _ _ F)). Qed.

Lemma framed_weaken P {A} (c : M Keeper A) : framed c -> framed_on P c.
Proof. intros H k a k' Ids _. now apply H. Qed.

(** ** Combinators *)

Lemma framed_bind P {A D} (c : M Keeper A) (f : A -> M Keeper D) :
  stable P -> framed_on P c -> (forall a, framed_on P (f a)) -> framed_on P (mbind c f).
Proof.
  intros St Hc Hf k d k' Ids HP H. inv_m H. pose proof (Hc _ _ _ Ids HP E) as F.
  exact (transitivity F (Hf v _ _ _ (frame_rest_ids _ _ (fr_rest _ _ F) Ids) (St _ _ F HP) H)).
Qed.

Lemma framed_read P {A} (c : M Keeper A) : (forall k, snd (c k) = k) -> framed_on P c.
Proof. intros H k a k' _ _ E. specialize (H k). rewrite E in H. cbn in H. subst k'. reflexivity. Qed.

Lemma framed_modify P (f : Keeper -> Keeper) : (forall k, frame k (f k)) -> framed_on P (modify f).
Proof. intros H k a k' _ _ E. injection E as _ <-. apply H. Qed.

Lemma framed_for_each P {A} (l : list A) (body : A -> M Keeper unit) :
  stable P -> (forall x, framed_on P (body x)) -> framed_on P (for_each l body).
Proof.
  intros St H. induction l as [|x l IH]; cbn [for_each]; [now apply framed_read|].
  apply framed_bind; auto.
Qed.

Lemma framed_external P {A} (c : M Ext A) : framed_on P (external c).
Proof.
  intros k a k' _ _ E. unfold external, zoom in E. destruct (c (k_ext k)) as [r e]. injection E as _ <-.
  destruct k. split; [split|]; reflexivity.
Qed.

Lemma framed_on_accum P {A} o (c : M ASt A) : framed_on P (on_accum o c).
Proof.
  intros k a k' _ _ E. unfold on_accum in E. destruct (c (k_accums k, o)) as [[x| |] [st o']]; try discriminate E.
  injection E as _ <-. destruct k. split; [split|]; reflexivity.
Qed.

Lemma framed_on_accum_store P {A} (c : M (@St _ KA) A) : framed_on P (on_accum_store c).
Proof.
  intros k a k' _ _ E. unfold on_accum_store, zoom in E. destruct (c (k_accums k)) as [r st]. injection E as _ <-.
  destruct k. split; [split|]; reflexivity.
Qed.

(** Reading the pool makes it known. *)
Lemma framed_getPool P {A} id (f : Pool -> M Keeper A) :
  stable P -> (forall p, framed_on (fun k => P k /\ stored p k) (f p)) -> framed_on P (mbind (getPoolById id) f).
Proof.
  intros St H k a k' Ids HP E. inv_m E. unfold getPoolById in E0.
  destruct (k_pools k !! id) as [p|] eqn:L; [|discriminate]. injection E0 as <- <-.
  apply (H p k a k' Ids); [|exact E]. split; [exact HP|]. unfold stored, pool_at. now rewrite (Ids _ _ L), L.
Qed.

Lemma stable_and P Q : stable P -> stable Q -> stable (fun k => P k /\ Q k).
Proof. intros HP HQ k k' F [A D]. split; [exact (HP _ _ F A) | exact (HQ _ _ F D)]. Qed.

(** Writing back the pool that is stored, with another time. *)
Lemma frame_setPool p t k k' a :
  stored p k -> setPool (SetLastLiquidityUpdate p t) k = (Ok a, k') -> frame k k'.
Proof.
  intros St E. injection E as _ <-. unfold stored, pool_at in St. destruct k. cbn in *.
  split; [split; try reflexivity|reflexivity]. intros id. unfold pool_at. cbn.
  destruct (decide (id = Id p)) as [-> | N].
  - rewrite lookup_insert_eq. cbn. now rewrite St.
  - now rewrite lookup_insert_ne by congruence.
Qed.

End Frame.

Create HintDb frame.
#[export] Hint Resolve always_stable stored_stable stable_and : frame.

(** One step of a frame proof; [frame_auto] repeats it and leaves the calls
    without a registered lemma. *)
Ltac frame_step :=
  lazymatch goal with
  | |- framed _ => unfold framed
  | |- framed_on _ (mbind (getPoolById _) _) => apply framed_getPool; [eauto with frame | intros]
  | |- framed_on _ (mbind _ _) => apply framed_bind; [eauto with frame | | intros]
  | |- framed_on _ (ret _) => now apply framed_read
  | |- framed_on _ (fail _) => now apply framed_read
  | |- framed_on _ (panic _) => now apply framed_read
  | |- framed_on _ (lift _) => now apply framed_read
  | |- framed_on _ (ask _) => now apply framed_read
  | |- framed_on _ get => now apply framed_read
  | |- framed_on _ (getPoolById _) => apply framed_read; intros; unfold getPoolById; now destruct (_ !! _)
  | |- framed_on _ (modify _) => apply framed_modify; intros []; split; [split|]; reflexivity
  | |- framed_on _ (external _) => apply framed_external
  | |- framed_on _ (on_accum _ _) => apply framed_on_accum
  | |- framed_on _ (on_accum_store _) => apply framed_on_accum_store
  | |- framed_on _ (for_each _ _) => apply framed_for_each; [eauto with frame | intros]
  | |- framed_on _ (when ?b _) => destruct b; unfold when
  | |- framed_on _ (if ?b then _ else _) => destruct b
  | |- framed_on _ (match ?x with (_, _) => _ end) => destruct x
  | |- framed_on _ (match ?x with Some _ => _ | None => _ end) => destruct x
  | |- framed_on _ (match ?x with [] => _ | _ :: _ => _ end) => destruct x
  | |- framed_on _ (fun k => (_, k)) => now apply framed_read
  | |- framed_on _ _ => solve [eauto with frame | apply framed_weaken; solve [eauto with frame]]
  end.
Ltac frame_auto := repeat frame_step.

(** ** The operations that are frames *)

Section Operations.
Context {S : SdkMath} {B : BigEndian} {C : DecCoinsOps} {EK : ExternalKeepers C}
  {KT : KVStore TickInfo} {KS : KVStoreSpec KT} {KA : KVStore StoreValue}.

Lemma framed_get_accums pid l : framed (get_accums pid l).
Proof. induction l; cbn [get_accums]; frame_auto. Qed.

#[local] Hint Resolve framed_get_accums : frame.

Lemma framed_GetUptimeAccumulators pid : framed (GetUptimeAccumulators pid).
Proof. unfold GetUptimeAccumulators. frame_auto. Qed.

#[local] Hint Resolve framed_GetUptimeAccumulators : frame.

Lemma framed_GetUptimeAccumulatorValues pid : framed (GetUptimeAccumulatorValues pid).
Proof. unfold GetUptimeAccumulatorValues. frame_auto. Qed.

Lemma framed_GetSpreadRewardAccumulator pid : framed (GetSpreadRewardAccumulator pid).
Proof. unfold GetSpreadRewardAccumulator. frame_auto. Qed.

#[local] Hint Resolve framed_GetUptimeAccumulatorValues framed_GetSpreadRewardAccumulator : frame.

Lemma framed_setIncentiveRecord r : framed (setIncentiveRecord r).
Proof. unfold setIncentiveRecord. frame_auto. Qed.

#[local] Hint Resolve framed_setIncentiveRecord : frame.

Lemma framed_scaling pid : framed (getIncentiveScalingFactorForPool pid) /\ framed (getSpreadFactorScalingFactorForPool pid).
Proof.
  split; [unfold getIncentiveScalingFactorForPool, GetIncentivePoolIDMigrationThreshold
         |unfold getSpreadFactorScalingFactorForPool, GetSpreadFactorPoolIDMigrationThreshold];
    frame_auto; apply framed_read; intros k; [now destruct (k_incentiveThreshold k) | now destruct (k_spreadThreshold k)].
Qed.

Lemma framed_accrueAccums bt l te sc uptimes accums : forall records,
  framed (accrueAccums bt l te sc uptimes accums records).
Proof.
  revert accums. induction uptimes as [|u uptimes IH]; intros [|acc accums] records; cbn [accrueAccums]; frame_auto.
Qed.

#[local] Hint Resolve framed_accrueAccums : frame.

(** Bringing the accumulators up to date writes the pool back: it must be the
    stored one, and stays so. *)
Lemma updateGiven_frame bt pool accums k p' accums' k' :
  ids_ok k -> stored pool k ->
  updateGivenPoolUptimeAccumulatorsToNow bt pool accums k = (Ok (p', accums'), k') ->
  frame k k' /\ undated p' = undated pool.
Proof.
  intros Ids St H. unfold updateGivenPoolUptimeAccumulatorsToNow in H.
  inv_m H. inv_m E. subst s. case_if_in H; [inv_m H; inversion E; subst; split; reflexivity|].
  case_if_in H; [discriminate|].
  inv_m H. assert (F1 : frame k s) by (refine (framed_read always _ _ _ _ _ Ids I E); reflexivity).
  inv_m H. assert (F2 : frame s s0) by (refine (proj1 (framed_scaling _) _ _ _ _ I E1); apply (frame_rest_ids _ _ (fr_rest _ _ F1) Ids)).
  pose proof (transitivity F1 F2) as F. clear F1 F2 E E1. pose proof (frame_rest_ids _ _ (fr_rest _ _ F) Ids) as Ids1.
  pose proof (stored_stable pool _ _ F St) as St1. inv_m H.
  assert (F2 : frame s0 s1).
  { case_if_in E; [exact (framed_accrueAccums _ _ _ _ _ _ _ _ _ _ Ids1 I E) | now inv_m E; subst]. }
  pose proof (transitivity F F2) as F3. pose proof (frame_rest_ids _ _ (fr_rest _ _ F2) Ids1) as Ids2.
  pose proof (stored_stable pool _ _ F2 St1) as St2. destruct v2 as [accs recs]. inv_m H.
  pose proof (framed_for_each always recs setIncentiveRecord always_stable framed_setIncentiveRecord _ _ _ Ids2 I E1) as F4.
  pose proof (stored_stable pool _ _ F4 St2) as St3. inv_m H.
  pose proof (frame_setPool _ _ _ _ _ St3 E2) as F5. inv_m H. inversion E3; subst.
  split; [exact (transitivity F3 (transitivity F4 F5)) | reflexivity].
Qed.

Lemma framed_updateWithPool bt p : framed_on (stored p) (updatePoolUptimeAccumulatorsToNowWithPool bt p).
Proof.
  intros k a k' Ids St H. unfold updatePoolUptimeAccumulatorsToNowWithPool in H. inv_m H.
  pose proof (framed_GetUptimeAccumulators _ _ _ _ Ids I E) as F1. inv_m H. destruct v0 as [p' accs].
  apply updateGiven_frame in E0 as [F2 _];
    [|exact (frame_rest_ids _ _ (fr_rest _ _ F1) Ids) | exact (stored_stable p _ _ F1 St)].
  inv_m H. subst s0. exact (transitivity F1 F2).
Qed.

Lemma framed_with_stored P p {A} (c : M Keeper A) :
  framed_on (stored p) c -> framed_on (fun k => P k /\ stored p k) c.
Proof. intros H k a k' Ids [_ St]. exact (H _ _ _ Ids St). Qed.

#[local] Hint Resolve framed_updateWithPool framed_with_stored : frame.

Lemma framed_UpdatePoolUptimeAccumulatorsToNow bt pid : framed (UpdatePoolUptimeAccumulatorsToNow bt pid).
Proof. unfold UpdatePoolUptimeAccumulatorsToNow. frame_auto. Qed.

Lemma framed_makeInitialTickInfo bt pid t : framed (makeInitialTickInfo bt pid t).
Proof.
  unfold makeInitialTickInfo, getInitialSpreadRewardGrowthOppositeDirectionOfLastTraversalForTick,
    getInitialUptimeGrowthOppositeDirectionOfLastTraversalForTick. frame_auto.
Qed.

#[local] Hint Resolve framed_UpdatePoolUptimeAccumulatorsToNow framed_makeInitialTickInfo : frame.

Lemma framed_GetTickInfo bt pid t : framed (GetTickInfo bt pid t).
Proof. unfold GetTickInfo. frame_auto. Qed.

#[local] Hint Resolve framed_GetTickInfo : frame.

Lemma framed_growth bt pid lo hi :
  framed (getSpreadRewardGrowthOutside bt pid lo hi) /\ framed (GetUptimeGrowthInsideRange bt pid lo hi).
Proof. split; [unfold getSpreadRewardGrowthOutside | unfold GetUptimeGrowthInsideRange]; frame_auto. Qed.

Lemma framed_GetUptimeGrowthOutsideRange bt pid lo hi : framed (GetUptimeGrowthOutsideRange bt pid lo hi).
Proof. unfold GetUptimeGrowthOutsideRange. pose proof (proj2 (framed_growth bt pid lo hi)). frame_auto. Qed.

#[local] Hint Resolve framed_GetUptimeGrowthOutsideRange : frame.
#[local] Hint Extern 1 (framed (getSpreadRewardGrowthOutside _ _ _ _)) => apply framed_growth : frame.
#[local] Hint Extern 1 (framed (GetUptimeGrowthInsideRange _ _ _ _)) => apply framed_growth : frame.
#[local] Hint Extern 1 (framed (getIncentiveScalingFactorForPool _)) => apply framed_scaling : frame.
#[local] Hint Extern 1 (framed (getSpreadFactorScalingFactorForPool _)) => apply framed_scaling : frame.

(** *** Rewards of positions *)

Lemma framed_GetPosition id : framed (GetPosition id).
Proof. apply framed_read. intros k. unfold GetPosition. now destruct (k_positions k !! id). Qed.

Lemma framed_updatePositionToInitValuePlusGrowthOutside acc key g :
  framed (updatePositionToInitValuePlusGrowthOutside acc key g).
Proof. unfold updatePositionToInitValuePlusGrowthOutside. frame_auto. Qed.

#[local] Hint Resolve framed_GetPosition framed_updatePositionToInitValuePlusGrowthOutside : frame.

Lemma framed_updateAccumAndClaimRewards acc key g : framed (updateAccumAndClaimRewards acc key g).
Proof. unfold updateAccumAndClaimRewards. frame_auto. Qed.

#[local] Hint Resolve framed_updateAccumAndClaimRewards : frame.

Lemma framed_initSpread bt pid lo hi id dl :
  framed (initOrUpdatePositionSpreadRewardAccumulator bt pid lo hi id dl).
Proof. unfold initOrUpdatePositionSpreadRewardAccumulator. frame_auto. Qed.

Lemma framed_updatePositionInAccums name l dl accums : forall inside outside,
  framed (updatePositionInAccums accums inside outside name l dl).
Proof.
  induction accums as [|acc accums IH]; intros inside outside; cbn [updatePositionInAccums]; frame_auto.
Qed.

#[local] Hint Resolve framed_updatePositionInAccums : frame.

Lemma framed_initUptime bt pid l lo hi dl id :
  framed (initOrUpdatePositionUptimeAccumulators bt pid l lo hi dl id).
Proof. unfold initOrUpdatePositionUptimeAccumulators. frame_auto. Qed.

Lemma framed_prepareClaimableSpreadRewards bt id : framed (prepareClaimableSpreadRewards bt id).
Proof. unfold prepareClaimableSpreadRewards. frame_auto. Qed.

#[local] Hint Resolve framed_prepareClaimableSpreadRewards : frame.

Lemma framed_collectSpreadRewards bt sender id : framed (collectSpreadRewards bt sender id).
Proof. unfold collectSpreadRewards. frame_auto. Qed.

Lemma framed_claimAccums name age sc accums : forall outside uptimes c f,
  framed (claimAccums accums outside uptimes name age sc c f).
Proof.
  induction accums as [|acc accums IH]; intros outside uptimes c f; cbn [claimAccums]; frame_auto.
Qed.

#[local] Hint Resolve framed_claimAccums : frame.

Lemma framed_prepareClaimAllIncentivesForPosition bt id : framed (prepareClaimAllIncentivesForPosition bt id).
Proof. unfold prepareClaimAllIncentivesForPosition. frame_auto. Qed.

#[local] Hint Resolve framed_prepareClaimAllIncentivesForPosition : frame.

Lemma framed_collectIncentives bt sender id : framed (collectIncentives bt sender id).
Proof. unfold collectIncentives. frame_auto. Qed.

Lemma framed_redepositLoop l accums : forall forfeits, framed (redepositLoop accums forfeits l).
Proof. induction accums as [|acc accums IH]; intros [|f forfeits]; cbn [redepositLoop]; frame_auto. Qed.

#[local] Hint Resolve framed_redepositLoop : frame.

Lemma framed_redepositForfeitedIncentives pid sender f t : framed (redepositForfeitedIncentives pid sender f t).
Proof. unfold redepositForfeitedIncentives. frame_auto. Qed.

Lemma framed_CreateIncentive bt pid sender denom amount rate start up :
  framed (CreateIncentive bt pid sender denom amount rate start up).
Proof.
  unfold CreateIncentive, getAllIncentiveRecordsForUptime, GetNextIncentiveRecordId, SetNextIncentiveRecordId.
  frame_auto.
Qed.

#[local] Hint Resolve framed_collectSpreadRewards framed_collectIncentives : frame.

Lemma framed_CollectSpreadRewards bt sender ids : forall total, framed (CollectSpreadRewards bt sender ids total).
Proof. induction ids as [|id ids IH]; intros total; cbn [CollectSpreadRewards]; frame_auto. Qed.

Lemma framed_CollectIncentives bt sender ids : forall t f, framed (CollectIncentives bt sender ids t f).
Proof. induction ids as [|id ids IH]; intros t f; cbn [CollectIncentives]; frame_auto. Qed.

(** *** Totals, locks and tokens *)

Lemma framed_RecordTotalLiquidity coins :
  framed (RecordTotalLiquidityIncrease coins) /\ framed (RecordTotalLiquidityDecrease coins).
Proof.
  split; [unfold RecordTotalLiquidityIncrease | unfold RecordTotalLiquidityDecrease];
    unfold GetDenomLiquidity, setDenomLiquidity; frame_auto.
Qed.

Lemma framed_setPositionIdToLock id l : framed (setPositionIdToLock id l).
Proof. unfold setPositionIdToLock. frame_auto. Qed.

Lemma framed_isLockMature bt l : framed (isLockMature bt l).
Proof.
  apply framed_read. intros k. unfold isLockMature. destruct (GetLockByID _ _); try reflexivity. now case_if.
Qed.

Lemma framed_lockUpdate bt id : framed (positionHasActiveUnderlyingLockAndUpdate bt id).
Proof.
  unfold positionHasActiveUnderlyingLockAndUpdate, RemovePositionIdForLockId. frame_auto.
  apply framed_read. intros k. unfold PositionHasActiveUnderlyingLock, GetLockIdFromPositionId.
  destruct (k_positionLock k !! id) as [l|]; [|reflexivity]. unfold mbind, isLockMature, ret.
  destruct (GetLockByID (k_ext k) l); try reflexivity. now case_if.
Qed.

Lemma framed_send d0 d1 a0 a1 s r : framed (sendCoinsBetweenPoolAndUser d0 d1 a0 a1 s r).
Proof. unfold sendCoinsBetweenPoolAndUser. frame_auto. Qed.

Lemma framed_fullRange pid l : framed (updateFullRangeLiquidityInPool pid l).
Proof. unfold updateFullRangeLiquidityInPool. frame_auto. Qed.

#[local] Hint Resolve framed_setPositionIdToLock : frame.

Lemma framed_mintSharesAndLock pid id owner d : framed (mintSharesAndLock pid id owner d).
Proof. unfold mintSharesAndLock. frame_auto. Qed.

End Operations.

#[export] Hint Resolve framed_GetPosition framed_collectSpreadRewards framed_collectIncentives
  framed_redepositForfeitedIncentives framed_lockUpdate framed_send framed_mintSharesAndLock framed_GetTickInfo
  framed_UpdatePoolUptimeAccumulatorsToNow framed_get_accums framed_GetUptimeAccumulators
  framed_GetSpreadRewardAccumulator framed_setPositionIdToLock framed_fullRange : frame.
#[export] Hint Extern 1 (framed (RecordTotalLiquidityIncrease _)) => apply framed_RecordTotalLiquidity : frame.
#[export] Hint Extern 1 (framed (RecordTotalLiquidityDecrease _)) => apply framed_RecordTotalLiquidity : frame.
#[export] Hint Extern 1 (framed (getSpreadFactorScalingFactorForPool _)) => apply framed_scaling : frame.

(** What is left of a run is a frame: replace it by the relation. *)
Ltac rest_framed H Ids F :=
  lazymatch type of H with
  | ?c ?k = (Ok ?a, ?k') =>
      let G := fresh in
      assert (G : framed c) by frame_auto; pose proof (G k a k' Ids I H) as F; clear G
  end.
