(* ===== verification/CLBooks.v ===== *)
(** * Concentrated liquidity: the books of a pool

    The liquidity of a pool is kept three times: in the positions, in the
    gross and net liquidity of the ticks that bound them, and in the liquidity
    of the pool at its current tick.  [Books] says that the three agree, that
    the indexes of positions are right, and that the current tick and the
    square-root price lie on the same side of every tick a position may use.
    This file shows that the changes of a single position keep the books. *)

From stdpp Require Import base gmap strings pretty.
From Stdlib Require Import ZArith Lia List Bool.
From S2P Require Import Prelude GoBig BigDec SdkMath CLTick Store CLKeys SwapStrategy MapSum GoState DecCoins Accum CLDirection CLState CLPool CLUptime CLRewards CLSwap CLPosition CLFrame.
Import ListNotations.

(** ** Shares of a position in the totals *)

Definition gross_at (pid t : Z) (q : Position) : Z :=
  if PoolId q =? pid
  then (if LowerTick q =? t then Liquidity q else 0) + (if UpperTick q =? t then Liquidity q else 0) else 0.

Definition net_at (pid t : Z) (q : Position) : Z :=
  if PoolId q =? pid
  then (if LowerTick q =? t then Liquidity q else 0) - (if UpperTick q =? t then Liquidity q else 0) else 0.

Definition active_at (pid t : Z) (q : Position) : Z :=
  if (PoolId q =? pid) && ((LowerTick q <=? t) && (t <? UpperTick q)) then Liquidity q else 0.

(** The price is positive, and the current tick separates the ticks below it
    from those above. *)
Definition aligned (p : Pool) : Prop :=
  0 < CurrentSqrtPrice p /\
  forall b, MinInitializedTick <= b <= MaxTick -> (TickSpacing p | b) ->
    (b <= CurrentTick p -> tick_sqrt_price b <= CurrentSqrtPrice p) /\
    (CurrentTick p < b -> CurrentSqrtPrice p <= tick_sqrt_price b).

(** Ticks that a position of a pool may use. *)
Definition usable (spacing t : Z) : Prop := MinInitializedTick <= t <= MaxTick /\ (spacing | t).

Definition is_uint64 (n : Z) : Prop := 0 <= n < 2 ^ 64.

Lemma active_step pid t q :
  LowerTick q < UpperTick q -> active_at pid t q = active_at pid (t - 1) q + net_at pid t q.
Proof.
  intros H. unfold active_at, net_at. destruct (PoolId q =? pid); cbn [andb]; [|lia].
  destruct (Z.leb_spec (LowerTick q) t), (Z.leb_spec (LowerTick q) (t - 1)), (Z.ltb_spec t (UpperTick q)),
    (Z.ltb_spec (t - 1) (UpperTick q)), (Z.eqb_spec (LowerTick q) t), (Z.eqb_spec (UpperTick q) t); cbn [andb]; lia.
Qed.

Lemma net_le_gross pid t q : 0 <= Liquidity q -> Z.abs (net_at pid t q) <= gross_at pid t q.
Proof. intros H. unfold net_at, gross_at. repeat case_if; lia. Qed.

(** Changing the liquidity of a position changes its shares linearly. *)
Definition mk_position (id pid : Z) (owner : string) (lo hi jt l : Z) : Position :=
  {| PositionId := id; PositionAddress := owner; PoolId := pid; LowerTick := lo; UpperTick := hi;
     JoinTime := jt; Liquidity := l |}.

Definition linear (f : Position -> Z) : Prop :=
  forall q q' x, PoolId q' = PoolId q -> LowerTick q' = LowerTick q -> UpperTick q' = UpperTick q ->
    Liquidity q' = Liquidity q + x ->
    f q' = f q + f (mk_position (PositionId q) (PoolId q) "" (LowerTick q) (UpperTick q) 0 x).

Lemma gross_linear pid t : linear (gross_at pid t).
Proof. intros q q' x P L U Q. unfold gross_at. cbn. rewrite P, L, U, Q. repeat case_if; lia. Qed.
Lemma net_linear pid t : linear (net_at pid t).
Proof. intros q q' x P L U Q. unfold net_at. cbn. rewrite P, L, U, Q. repeat case_if; lia. Qed.
Lemma active_linear pid t : linear (active_at pid t).
Proof. intros q q' x P L U Q. unfold active_at. cbn. rewrite P, L, U, Q. repeat case_if; lia. Qed.

(** Shares only depend on the pool, the range and the liquidity. *)
Definition extensional (f : Position -> Z) : Prop :=
  forall q q', PoolId q' = PoolId q -> LowerTick q' = LowerTick q -> UpperTick q' = UpperTick q ->
    Liquidity q' = Liquidity q -> f q' = f q.

Lemma gross_ext pid t : extensional (gross_at pid t).
Proof. intros q q' P L U Q. unfold gross_at. now rewrite P, L, U, Q. Qed.
Lemma net_ext pid t : extensional (net_at pid t).
Proof. intros q q' P L U Q. unfold net_at. now rewrite P, L, U, Q. Qed.
Lemma active_ext pid t : extensional (active_at pid t).
Proof. intros q q' P L U Q. unfold active_at. now rewrite P, L, U, Q. Qed.

Definition null (f : Position -> Z) : Prop := forall q, Liquidity q = 0 -> f q = 0.
Lemma gross_null pid t : null (gross_at pid t).
Proof. intros q H. unfold gross_at. rewrite H. now repeat case_if. Qed.
Lemma net_null pid t : null (net_at pid t).
Proof. intros q H. unfold net_at. rewrite H. now repeat case_if. Qed.
Lemma active_null pid t : null (active_at pid t).
Proof. intros q H. unfold active_at. rewrite H. now repeat case_if. Qed.

Create HintDb books.
#[export] Hint Resolve gross_linear net_linear active_linear gross_ext net_ext active_ext
  gross_null net_null active_null : books.

(** The liquidity a position has, or zero when there is none. *)
Definition old_liquidity (m : gmap Z Position) (id : Z) : Z :=
  match m !! id with Some q => Liquidity q | None => 0 end.

(** A position keeps its pool and range. *)
Definition same_range (m : gmap Z Position) (id pid lo hi : Z) : Prop :=
  forall q, m !! id = Some q -> PoolId q = pid /\ LowerTick q = lo /\ UpperTick q = hi.

Lemma msum_change f m id pid owner lo hi jt x :
  linear f -> extensional f -> same_range m id pid lo hi ->
  msum f (<[id := mk_position id pid owner lo hi jt (old_liquidity m id + x)]> m) =
  msum f m + f (mk_position id pid owner lo hi jt x).
Proof.
  intros Lf Ef R. unfold old_liquidity. destruct (m !! id) as [q|] eqn:Eq.
  - destruct (R q Eq) as (P & L & U). rewrite (msum_update f m id q) by exact Eq.
    rewrite (Lf q (mk_position id pid owner lo hi jt (Liquidity q + x)) x) by (cbn; congruence || lia).
    rewrite (Ef (mk_position id pid owner lo hi jt x) (mk_position (PositionId q) (PoolId q) "" (LowerTick q) (UpperTick q) 0 x))
      by (cbn; congruence). lia.
  - rewrite msum_insert by exact Eq. rewrite Z.add_0_l. lia.
Qed.

(** ** The books *)

Section Books.
Context {S : SdkMath} {SS : SdkMathSpec S} {B : BigEndian} {BS : BigEndianSpec B} {C : DecCoinsOps}
  {EK : ExternalKeepers C} {KT : KVStore TickInfo} {KS : KVStoreSpec KT} {KA : KVStore StoreValue}.

Definition sums_at (k : Keeper) (pid t : Z) : Z * Z :=
  (msum (gross_at pid t) (k_positions k), msum (net_at pid t) (k_positions k)).

Record pool_books (k : Keeper) (pid : Z) (p : Pool) : Prop := {
  pb_id : is_uint64 pid;
  pb_spacing : 0 < TickSpacing p < 2 ^ 62;
  pb_tick : MinInitializedTickV2 <= CurrentTick p <= MaxTick;
  pb_liquidity : CurrentTickLiquidity p = msum (active_at pid (CurrentTick p)) (k_positions k);
  pb_aligned : PoolHasPosition p = true -> aligned p
}.

Record position_books (k : Keeper) (id : Z) (q : Position) : Prop := {
  qb_id : PositionId q = id;
  qb_liquidity : 0 <= Liquidity q;
  qb_range : LowerTick q < UpperTick q;
  qb_pool : exists p, k_pools k !! PoolId q = Some p /\ PoolHasPosition p = true /\
              usable (TickSpacing p) (LowerTick q) /\ usable (TickSpacing p) (UpperTick q)
}.

Record Books (k : Keeper) : Prop := {
  b_ids : ids_ok k;
  b_pools pid p : k_pools k !! pid = Some p -> pool_books k pid p;
  b_positions id q : k_positions k !! id = Some q -> position_books k id q;
  b_ticks pid t : is_uint64 pid -> is_int64 t -> default (0, 0) (liq_at k (KeyTick pid t)) = sums_at k pid t;
  b_keys pid key : is_uint64 pid -> is_Some (liq_at k (KeyTickPrefixByPoolId pid ++ key)%list) ->
    exists t p, key = TickIndexToBytes t /\ k_pools k !! pid = Some p /\ usable (TickSpacing p) t;
  b_byPool pid id : (pid, id) ∈ k_poolPosition k <-> exists q, k_positions k !! id = Some q /\ PoolId q = pid;
  b_byOwner a pid id : (a, pid, id) ∈ k_addressPoolPosition k <->
    exists q, k_positions k !! id = Some q /\ PoolId q = pid /\ PositionAddress q = a;
  b_next id q : k_positions k !! id = Some q -> 0 <= id < k_nextPositionId k \/ k_nextPositionId k = 0;
  b_next_id : is_uint64 (k_nextPositionId k)
}.

(** ** Frames keep the books *)

Lemma undated_fields p q :
  undated p = undated q ->
  TickSpacing p = TickSpacing q /\ CurrentTick p = CurrentTick q /\ CurrentTickLiquidity p = CurrentTickLiquidity q /\
  CurrentSqrtPrice p = CurrentSqrtPrice q.
Proof. intros H. repeat split; [exact (f_equal TickSpacing H) | exact (f_equal CurrentTick H) | exact (f_equal CurrentTickLiquidity H) | exact (f_equal CurrentSqrtPrice H)]. Qed.

Lemma aligned_undated p q : undated p = undated q -> aligned p -> aligned q.
Proof.
  intros H [A0 A]. apply undated_fields in H as (Sp & T & _ & P). unfold aligned. rewrite <- Sp, <- T, <- P. auto.
Qed.

Lemma PoolHasPosition_undated p q : undated p = undated q -> PoolHasPosition p = PoolHasPosition q.
Proof. intros H. apply undated_fields in H as (_ & T & _ & P). unfold PoolHasPosition. now rewrite T, P. Qed.

Lemma pool_at_transfer k k' pid p :
  pool_at k' pid = pool_at k pid -> k_pools k' !! pid = Some p ->
  exists q, k_pools k !! pid = Some q /\ undated p = undated q.
Proof.
  unfold pool_at. intros E H. rewrite H in E. symmetry in E. apply fmap_Some in E as (q & Eq & Hq). eauto.
Qed.

Lemma pool_books_frame k k' pid p q :
  k_positions k' = k_positions k -> undated p = undated q -> pool_books k pid q -> pool_books k' pid p.
Proof.
  intros Ps H [I Sp T L A]. pose proof (undated_fields _ _ H) as (F1 & F2 & F3 & F4).
  split; rewrite ?F1, ?F2, ?F3, ?Ps; auto. rewrite (PoolHasPosition_undated _ _ H). intros HP.
  apply (aligned_undated q p); auto.
Qed.

Lemma position_books_pools k k' id q :
  (forall pid p, k_pools k !! pid = Some p -> PoolHasPosition p = true ->
     exists p', k_pools k' !! pid = Some p' /\ PoolHasPosition p' = true /\ TickSpacing p' = TickSpacing p) ->
  position_books k id q -> position_books k' id q.
Proof.
  intros T [I L R (p & Hp & HP & U1 & U2)]. split; auto.
  destruct (T _ _ Hp HP) as (p' & Hp' & HP' & Sp). exists p'. rewrite Sp. auto.
Qed.

Lemma frame_books k k' : frame k k' -> Books k -> Books k'.
Proof.
  intros [[Fp Fq Fb Fo Fn] Ft] Bk.
  assert (Fp' : forall pid p, k_pools k !! pid = Some p -> exists p', k_pools k' !! pid = Some p' /\ undated p' = undated p).
  { intros pid p H. destruct (pool_at_transfer k' k pid p (eq_sym (Fp pid)) H) as (p' & E & U). eauto. }
  split.
  - exact (frame_rest_ids k k' (Build_frame_rest _ _ Fp Fq Fb Fo Fn) (b_ids _ Bk)).
  - intros pid p H. destruct (pool_at_transfer k k' pid p (Fp pid) H) as (q & Hq & U).
    exact (pool_books_frame k k' pid p q Fq U (b_pools _ Bk _ _ Hq)).
  - intros id q H. rewrite Fq in H. apply (position_books_pools k k' id q); [|exact (b_positions _ Bk _ _ H)].
    intros pid p Hp HP. destruct (Fp' pid p Hp) as (p' & Hp' & U). exists p'. split; [exact Hp'|].
    rewrite (PoolHasPosition_undated _ _ U). split; [exact HP | apply (undated_fields _ _ U)].
  - intros pid t Hp Ht. unfold sums_at. rewrite Fq, Ft. exact (b_ticks _ Bk pid t Hp Ht).
  - intros pid key Hp Hk. rewrite Ft in Hk. destruct (b_keys _ Bk pid key Hp Hk) as (t & p & E & Ep & U).
    destruct (Fp' pid p Ep) as (p' & Hp' & Un). exists t, p'. split; [exact E|]. split; [exact Hp'|].
    destruct (undated_fields _ _ Un) as (-> & _). exact U.
  - intros pid id. rewrite Fb, Fq. apply (b_byPool _ Bk).
  - intros a pid id. rewrite Fo, Fq. apply (b_byOwner _ Bk).
  - intros id q H. rewrite Fq in H. rewrite Fn. exact (b_next _ Bk id q H).
  - rewrite Fn. apply Bk.
Qed.

(** ** Keys *)

Lemma Uint64ToBigEndian_inj n m : is_uint64 n -> is_uint64 m -> Uint64ToBigEndian n = Uint64ToBigEndian m -> n = m.
Proof.
  intros Hn Hm E. rewrite <- (Uint64ToBigEndian_value n Hn), <- (Uint64ToBigEndian_value m Hm). now rewrite E.
Qed.

Lemma prefix_inj pid pid' a b :
  is_uint64 pid -> is_uint64 pid' ->
  (KeyTickPrefixByPoolId pid ++ a)%list = (KeyTickPrefixByPoolId pid' ++ b)%list -> pid = pid' /\ a = b.
Proof.
  intros Hp Hp' E. unfold KeyTickPrefixByPoolId, keyTickPrefixByPoolIdPrealloc, TickPrefix in E. cbn [app] in E.
  injection E as E. apply app_inj_1 in E as [E1 E2]; [|now rewrite !Uint64ToBigEndian_length].
  split; [now apply Uint64ToBigEndian_inj | exact E2].
Qed.

Lemma KeyTick_inj pid pid' t t' :
  is_uint64 pid -> is_uint64 pid' -> is_int64 t -> is_int64 t' ->
  KeyTick pid t = KeyTick pid' t' -> pid = pid' /\ t = t'.
Proof.
  intros Hp Hp' Ht Ht' E. apply prefix_inj in E as [E1 E2]; auto. split; [exact E1 | now apply TickIndexToBytes_inj].
Qed.

Lemma usable_int64 sp t : usable sp t -> is_int64 t.
Proof. intros [H _]. unfold MinInitializedTick, MaxTick in H. unfold is_int64. lia. Qed.

(** ** Ticks *)

Lemma GetTickInfo_liq bt pid t k info k' :
  GetTickInfo bt pid t k = (Ok info, k') -> liq_of info = default (0, 0) (liq_at k (KeyTick pid t)).
Proof.
  unfold GetTickInfo, liq_at. intros H. inv_m H. injection E as <- <-.
  destruct (st_get (k_ticks k) (KeyTick pid t)) as [i|]; cbn.
  - inv_m H. now subst.
  - unfold makeInitialTickInfo in H. inv_ok. reflexivity.
Qed.

Lemma initOrUpdateTick_inv bt pid t dl (upper : bool) k e k' g n :
  ids_ok k -> default (0, 0) (liq_at k (KeyTick pid t)) = (g, n) ->
  initOrUpdateTick bt pid t dl upper k = (Ok e, k') ->
  let n' := if upper then n - dl else n + dl in
  frame_rest k k' /\
  (forall key, liq_at k' key = if decide (key = KeyTick pid t) then Some (g + dl, n') else liq_at k key) /\
  e = (g + dl =? 0) && (n' =? 0).
Proof.
  intros Ids D H n'. unfold initOrUpdateTick in H. inv_m H.
  pose proof (framed_GetTickInfo _ _ _ _ _ _ Ids I E) as F. apply GetTickInfo_liq in E. rewrite D in E.
  injection E as Eg En. unfold SetTickInfo, modify in H. inv_ok.
  lazymatch goal with E : (if upper then _ else _) = Ok ?x |- _ => rename x into v1 end.
  assert (N : v1 = n') by (subst n'; destruct upper; dec_exact; lia). subst v1. dec_exact.
  lazymatch goal with |- frame_rest _ (set_ticks _ ?x) /\ _ => rename x into k1 end.
  split; [|split].
  - destruct F as [[Fp Fq Fb Fo Fn] _]. destruct k1. split; cbn in *; auto.
  - intros key. transitivity (if decide (key = KeyTick pid t) then Some (LiquidityGross v + dl, n') else liq_at k1 key).
    + unfold liq_at. destruct k1. cbn. case_decide as Dk; [subst key; now rewrite get_set_eq | now rewrite get_set_ne by congruence].
    + case_decide; [reflexivity | exact (fr_ticks _ _ F key)].
  - reflexivity.
Qed.

(** ** Writing a position *)

(** Pools, ticks and the next id are left alone. *)
Record keeps (k k' : Keeper) : Prop := {
  kp_pools id : pool_at k' id = pool_at k id;
  kp_ticks key : liq_at k' key = liq_at k key;
  kp_next : k_nextPositionId k' = k_nextPositionId k
}.

Lemma keeps_trans k1 k2 k3 : keeps k1 k2 -> keeps k2 k3 -> keeps k1 k3.
Proof. intros [] []. split; intros; congruence. Qed.

Lemma frame_keeps k k' : frame k k' -> keeps k k'.
Proof. intros [[] ?]. now split. Qed.

Lemma keeps_ids k k' : keeps k k' -> ids_ok k -> ids_ok k'.
Proof.
  intros F Ids id p H. destruct (pool_at_transfer k k' id p (kp_pools _ _ F id) H) as (q & Hq & U).
  apply undated_Id in U. rewrite U. now apply Ids.
Qed.

Lemma framed_when_setLock b id l : framed (when b (setPositionIdToLock id l)).
Proof. destruct b; [apply framed_setPositionIdToLock | now apply framed_read]. Qed.

Lemma framed_when_fullRange b pid l : framed (when b (updateFullRangeLiquidityInPool pid l)).
Proof. destruct b; [apply framed_fullRange | now apply framed_read]. Qed.

Lemma SetPosition_inv bt pid owner lo hi jt l id lock k a k' :
  ids_ok k -> SetPosition bt pid owner lo hi jt l id lock k = (Ok a, k') ->
  keeps k k' /\ k_positions k' = <[id := mk_position id pid owner lo hi jt l]> (k_positions k) /\
  k_poolPosition k' = {[(pid, id)]} ∪ k_poolPosition k /\
  k_addressPoolPosition k' = {[(owner, pid, id)]} ∪ k_addressPoolPosition k.
Proof.
  intros Ids H. unfold SetPosition in H.
  inv_m H. injection E as _ <-. inv_m H. injection E as _ <-. inv_m H. injection E as _ <-.
  set (k1 := set_poolPosition _ _) in H.
  assert (K1 : keeps k k1) by (subst k1; destruct k; split; reflexivity).
  pose proof (keeps_ids _ _ K1 Ids) as Ids1.
  assert (F : frame k1 k').
  { refine (framed_bind always _ _ always_stable (framed_lockUpdate bt id) _ _ _ _ Ids1 I H).
    intros [active lk]. apply framed_bind; [exact always_stable | apply framed_when_setLock|].
    intros _. apply framed_when_fullRange. }
  split; [exact (keeps_trans _ _ _ K1 (frame_keeps _ _ F))|]. destruct F as [[_ -> -> -> _] _].
  subst k1. destruct k. repeat split; reflexivity.
Qed.

Lemma framed_getOrInitPosition id : framed (getOrInitPosition id).
Proof. unfold getOrInitPosition, hasPosition, GetPositionLiquidity. pose proof (framed_GetPosition id). frame_auto. Qed.

Lemma getOrInitPosition_inv id k l k' :
  getOrInitPosition id k = (Ok l, k') -> k' = k /\ l = old_liquidity (k_positions k) id.
Proof.
  unfold getOrInitPosition, hasPosition, GetPositionLiquidity, GetPosition, old_liquidity. intros H. inv_m H.
  injection E as <- <-. destruct (k_positions k !! id) as [q|] eqn:Q; cbn in H.
  - inv_m H. rewrite Q in E. injection E as <- <-. inv_m H. auto.
  - inv_m H. auto.
Qed.

Lemma initOrUpdatePosition_inv bt pid owner lo hi dl jt id k a k' :
  ids_ok k -> initOrUpdatePosition bt pid owner lo hi dl jt id k = (Ok a, k') ->
  let l := old_liquidity (k_positions k) id + dl in
  0 <= l /\ keeps k k' /\ k_positions k' = <[id := mk_position id pid owner lo hi jt l]> (k_positions k) /\
  k_poolPosition k' = {[(pid, id)]} ∪ k_poolPosition k /\
  k_addressPoolPosition k' = {[(owner, pid, id)]} ∪ k_addressPoolPosition k.
Proof.
  intros Ids H l. unfold initOrUpdatePosition in H. inv_m H. apply getOrInitPosition_inv in E as [-> ->].
  inv_m H. inv_m E. subst s. apply dec_Add_exact in E0 as ->. fold l in H.
  destruct (Z.ltb_spec l 0); [discriminate|]. split; [assumption|]. inv_m H.
  pose proof (framed_initUptime _ _ _ _ _ _ _ _ _ _ Ids I E) as F.
  pose proof (frame_keeps _ _ F) as K. apply SetPosition_inv in H as (K' & P & Q & R); [|exact (keeps_ids _ _ K Ids)].
  split; [exact (keeps_trans _ _ _ K K')|]. destruct F as [[_ Fq Fb Fo _] _]. rewrite P, Q, R, Fq, Fb, Fo. auto.
Qed.

(** ** Changing the liquidity of a position *)

Lemma validate_inv id owner lo hi dl jt pid k a k' :
  validatePositionUpdateById id owner lo hi dl jt pid k = (Ok a, k') ->
  k' = k /\ id <> 0 /\ same_range (k_positions k) id pid lo hi /\
  (forall q, k_positions k !! id = Some q -> PositionAddress q = owner).
Proof.
  unfold validatePositionUpdateById, hasPosition, GetPosition. intros H. destruct (Z.eqb_spec id 0); [discriminate|].
  inv_m H. injection E as <- <-. unfold same_range. destruct (k_positions k !! id) as [q|] eqn:Q; cbn in H.
  - inv_m H. rewrite Q in E. injection E as <- <-. repeat (case_if_in H; [discriminate|]). inv_m H. b2p.
    match goal with H : String.eqb _ _ = true |- _ => apply String.eqb_eq in H end.
    split; [congruence|]. split; [assumption|]. split; intros q' [= <-]; auto.
  - inv_m H. split; [congruence|]. split; [assumption|]. split; intros q [=].
Qed.

Definition active_pool (p : Pool) (lo hi dl : Z) : Pool :=
  if IsCurrentTickInRange p lo hi
  then with_price p (CurrentTickLiquidity p + dl) (CurrentSqrtPrice p) (CurrentTick p) else p.

Record updated (k k' : Keeper) (pid : Z) (owner : string) (lo hi dl jt id : Z) (p : Pool) (d : UpdatePositionData) :
    Prop := {
  u_ticks key : liq_at k' key =
    if decide (key = KeyTick pid hi)
    then let '(g, n) := default (0, 0) (liq_at k (KeyTick pid hi)) in Some (g + dl, n - dl)
    else if decide (key = KeyTick pid lo)
    then let '(g, n) := default (0, 0) (liq_at k (KeyTick pid lo)) in Some (g + dl, n + dl)
    else liq_at k key;
  u_pools pid' : pool_at k' pid' = if decide (pid' = pid) then Some (undated (active_pool p lo hi dl)) else pool_at k pid';
  u_positions : k_positions k' =
    <[id := mk_position id pid owner lo hi jt (old_liquidity (k_positions k) id + dl)]> (k_positions k);
  u_byPool : k_poolPosition k' = {[(pid, id)]} ∪ k_poolPosition k;
  u_byOwner : k_addressPoolPosition k' = {[(owner, pid, id)]} ∪ k_addressPoolPosition k;
  u_next : k_nextPositionId k' = k_nextPositionId k;
  u_nonneg : 0 <= old_liquidity (k_positions k) id + dl;
  u_id : id <> 0;
  u_range : same_range (k_positions k) id pid lo hi;
  u_owner q : k_positions k !! id = Some q -> PositionAddress q = owner;
  u_lower_empty : LowerTickIsEmpty d =
    let '(g, n) := default (0, 0) (liq_at k (KeyTick pid lo)) in (g + dl =? 0) && (n + dl =? 0);
  u_upper_empty : UpperTickIsEmpty d =
    let '(g, n) := default (0, 0) (liq_at k (KeyTick pid hi)) in (g + dl =? 0) && (n - dl =? 0)
}.

Lemma UpdateLiquidityIfActivePosition_inv p lo hi dl p' b :
  UpdateLiquidityIfActivePosition p lo hi dl = Ok (p', b) -> p' = active_pool p lo hi dl.
Proof.
  unfold UpdateLiquidityIfActivePosition, active_pool. case_if; intros H; inv_binds; injection H as <- _; [|reflexivity].
  apply dec_Add_exact in E as ->. reflexivity.
Qed.

Lemma active_pool_undated p q lo hi dl : undated p = undated q -> undated (active_pool p lo hi dl) = undated (active_pool q lo hi dl).
Proof.
  intros H. pose proof (undated_fields _ _ H) as (_ & F2 & F3 & F4). unfold active_pool, IsCurrentTickInRange.
  rewrite F2. case_if; [|exact H]. unfold undated, SetLastLiquidityUpdate, with_price in *. cbn in *.
  injection H as -> -> -> -> _ -> -> _ _ -> ->. now rewrite F3, F4.
Qed.

Lemma pool_at_setPool p k k' a id :
  setPool p k = (Ok a, k') -> pool_at k' id = if decide (id = Id p) then Some (undated p) else pool_at k id.
Proof.
  intros H. injection H as _ <-. unfold pool_at. destruct k. cbn. case_decide.
  - subst id. now rewrite lookup_insert_eq.
  - now rewrite lookup_insert_ne by congruence.
Qed.

Lemma setPool_rest p k k' a :
  setPool p k = (Ok a, k') ->
  k_positions k' = k_positions k /\ k_poolPosition k' = k_poolPosition k /\
  k_addressPoolPosition k' = k_addressPoolPosition k /\ k_nextPositionId k' = k_nextPositionId k /\
  (forall key, liq_at k' key = liq_at k key).
Proof. intros H. injection H as _ <-. destruct k. repeat split. Qed.

Lemma UpdatePosition_inv bt pid owner lo hi dl jt id k d k' :
  ids_ok k -> KeyTick pid lo <> KeyTick pid hi ->
  UpdatePosition bt pid owner lo hi dl jt id k = (Ok d, k') ->
  exists p, k_pools k !! pid = Some p /\ updated k k' pid owner lo hi dl jt id p d.
Proof.
  intros Ids Ne H. unfold UpdatePosition, getPoolById in H. inv_ok.
  lazymatch goal with E : validatePositionUpdateById _ _ _ _ _ _ _ _ = _ |- _ =>
    apply validate_inv in E as (-> & Hid & Rng & Own) end.
  destruct (default (0, 0) (liq_at k (KeyTick pid lo))) as [gl nl] eqn:Dl.
  destruct (default (0, 0) (liq_at k (KeyTick pid hi))) as [gh nh] eqn:Dh.
  lazymatch goal with E : initOrUpdateTick _ _ _ _ false _ = (_, ?s) |- _ => rename s into k1;
    apply (initOrUpdateTick_inv _ _ _ _ _ _ _ _ gl nl) in E as (F1 & T1 & ->); [|assumption..] end.
  pose proof (frame_rest_ids _ _ F1 Ids) as Ids1.
  lazymatch goal with E : initOrUpdateTick _ _ _ _ true _ = (_, ?s) |- _ => rename s into k2;
    apply (initOrUpdateTick_inv _ _ _ _ _ _ _ _ gh nh) in E as (F2 & T2 & ->);
    [|assumption | rewrite T1, decide_False by congruence; exact Dh] end.
  pose proof (frame_rest_ids _ _ F2 Ids1) as Ids2. pose proof (frame_rest_trans _ _ _ F1 F2) as F. clear F1 F2.
  lazymatch goal with E : initOrUpdatePosition _ _ _ _ _ _ _ _ _ = (_, ?s) |- _ => rename s into k3;
    apply initOrUpdatePosition_inv in E as (Nn & K & Ps & Bp & Bo); [|assumption] end.
  pose proof (keeps_ids _ _ K Ids2) as Ids3.
  destruct (k_pools k3 !! pid) as [p3|] eqn:P3; [|discriminate]. inv_ok.
  lazymatch goal with E : UpdateLiquidityIfActivePosition _ _ _ _ = Ok _ |- _ =>
    apply UpdateLiquidityIfActivePosition_inv in E as -> end.
  lazymatch goal with E : setPool (active_pool ?q _ _ _) ?s = (_, ?s') |- _ => rename q into p3, s into k3, s' into k4;
    pose proof (fun i => pool_at_setPool _ _ _ _ i E) as PS; apply setPool_rest in E as (R1 & R2 & R3 & R4 & R5) end.
  assert (Pk : pool_at k3 pid = pool_at k pid) by (rewrite (kp_pools _ _ K); apply (fr_pools _ _ F)).
  destruct (pool_at_transfer k k3 pid p3 Pk P3) as (p & Hp & U). exists p. split; [exact Hp|].
  assert (Hi : Id (active_pool p3 lo hi dl) = pid) by (unfold active_pool; case_if; exact (Ids3 _ _ P3)).
  assert (Ids4 : ids_ok k4).
  { intros i q Hq. specialize (PS i). unfold pool_at at 1 in PS. rewrite Hq in PS. cbn in PS. case_decide.
    - apply (inj Some), undated_Id in PS. congruence.
    - symmetry in PS. apply pool_at_inv in PS as (q' & Hq' & Uq). apply undated_Id in Uq. rewrite <- Uq. now apply Ids3. }
  lazymatch goal with E : initOrUpdatePositionSpreadRewardAccumulator _ _ _ _ _ _ _ = _ |- _ =>
    pose proof (framed_initSpread _ _ _ _ _ _ _ _ _ Ids4 I E) as [[G1 G2 G3 G4 G5] G6] end.
  destruct F as [F1 F2 F3 F4 F5], K as [K1 K2 K3]. split; auto.
  - intros key. rewrite G6, R5, K2, T2, T1, Dl, Dh. repeat case_decide; congruence.
  - intros pid'. rewrite G1, PS, Hi, K1, F1. case_decide; [|reflexivity].
    f_equal. now apply active_pool_undated.
  - now rewrite G2, R1, Ps, F2.
  - now rewrite G3, R2, Bp, F3.
  - now rewrite G4, R3, Bo, F4.
  - now rewrite G5, R4, K3, F5.
  - now rewrite <- F2.
  - cbn [LowerTickIsEmpty]. now rewrite Dl.
  - cbn [UpperTickIsEmpty]. now rewrite Dh.
Qed.

Lemma updated_sum f k k' pid owner lo hi dl jt id p d :
  linear f -> extensional f -> updated k k' pid owner lo hi dl jt id p d ->
  msum f (k_positions k') = msum f (k_positions k) + f (mk_position id pid owner lo hi jt dl).
Proof. intros Lf Ef U. rewrite (u_positions _ _ _ _ _ _ _ _ _ _ _ U). apply msum_change; auto. apply (u_range _ _ _ _ _ _ _ _ _ _ _ U). Qed.

Lemma active_pool_same p lo hi dl :
  TickSpacing (active_pool p lo hi dl) = TickSpacing p /\ CurrentTick (active_pool p lo hi dl) = CurrentTick p /\
  CurrentSqrtPrice (active_pool p lo hi dl) = CurrentSqrtPrice p /\
  CurrentTickLiquidity (active_pool p lo hi dl) =
    CurrentTickLiquidity p + if (lo <=? CurrentTick p) && (CurrentTick p <? hi) then dl else 0.
Proof.
  unfold active_pool, IsCurrentTickInRange. rewrite Z.geb_leb. case_if; cbn; repeat split; lia.
Qed.

Lemma tick_key_ne pid pid' t t' :
  is_uint64 pid -> is_uint64 pid' -> is_int64 t -> is_int64 t' -> pid <> pid' \/ t <> t' -> KeyTick pid t <> KeyTick pid' t'.
Proof. intros Hp Hp' Ht Ht' N E. apply KeyTick_inj in E as [-> ->]; auto. tauto. Qed.

Section Updated.
Context (k k' : Keeper) (pid : Z) (owner : string) (lo hi dl jt id : Z) (p : Pool) (d : UpdatePositionData).
Hypothesis Bk : Books k.
Hypothesis Hp : k_pools k !! pid = Some p.
Hypothesis Hlo : usable (TickSpacing p) lo.
Hypothesis Hhi : usable (TickSpacing p) hi.
Hypothesis Hr : lo < hi.
Hypothesis Hpos : PoolHasPosition p = true.
Hypothesis U : updated k k' pid owner lo hi dl jt id p d.

Lemma updated_pools pid' q' :
  k_pools k' !! pid' = Some q' ->
  (pid' = pid /\ undated q' = undated (active_pool p lo hi dl)) \/
  (pid' <> pid /\ exists q, k_pools k !! pid' = Some q /\ undated q' = undated q).
Proof.
  intros H. pose proof (u_pools _ _ _ _ _ _ _ _ _ _ _ U pid') as E. unfold pool_at in E. rewrite H in E. cbn in E.
  case_decide; [left; split; [assumption | now apply (inj Some) in E]|]. right. split; [assumption|].
  symmetry in E. apply fmap_Some in E as (q & Hq & ->). eauto.
Qed.

Lemma updated_pools_back pid' q :
  k_pools k !! pid' = Some q ->
  exists q', k_pools k' !! pid' = Some q' /\ TickSpacing q' = TickSpacing q /\ PoolHasPosition q' = PoolHasPosition q.
Proof.
  intros H. pose proof (u_pools _ _ _ _ _ _ _ _ _ _ _ U pid') as E. case_decide as D.
  - subst pid'. rewrite Hp in H. injection H as <-. apply pool_at_inv in E as (q' & Hq & Uq). exists q'.
    pose proof (undated_fields _ _ Uq) as (A1 & A2 & _ & A4). pose proof (active_pool_same p lo hi dl) as (C1 & C2 & C3 & _).
    unfold PoolHasPosition. rewrite A1, A2, A4, C1, C2, C3. auto.
  - unfold pool_at in E. rewrite H in E. apply pool_at_inv in E as (q' & Hq & Uq). exists q'.
    rewrite (PoolHasPosition_undated _ _ Uq). split; [exact Hq|]. split; [apply (undated_fields _ _ Uq) | reflexivity].
Qed.

Lemma updated_pool_books pid' q' : k_pools k' !! pid' = Some q' -> pool_books k' pid' q'.
Proof.
  intros H. destruct (updated_pools _ _ H) as [[-> E] | [N (q & Hq & E)]].
  - pose proof (b_pools _ Bk _ _ Hp) as [I1 I2 I3 I4 I5].
    pose proof (undated_fields _ _ E) as (A1 & A2 & A3 & A4). pose proof (active_pool_same p lo hi dl) as (C1 & C2 & C3 & C4).
    split; rewrite ?A1, ?A2, ?A3, ?C1, ?C2; auto.
    + rewrite C4, I4, (updated_sum _ _ _ _ _ _ _ _ _ _ _ _ (active_linear _ _) (active_ext _ _) U).
      unfold active_at at 3. cbn. now rewrite Z.eqb_refl.
    + intros _. unfold aligned. rewrite A1, A2, A4, C1, C2, C3. exact (I5 Hpos).
  - pose proof (b_pools _ Bk _ _ Hq) as PB. pose proof (undated_fields _ _ E) as (A1 & A2 & A3 & A4).
    destruct PB as [I1 I2 I3 I4 I5]. split; rewrite ?A1, ?A2, ?A3; auto.
    + rewrite I4, (updated_sum _ _ _ _ _ _ _ _ _ _ _ _ (active_linear _ _) (active_ext _ _) U).
      unfold active_at at 3. cbn. destruct (Z.eqb_spec pid pid'); [congruence|]. cbn. lia.
    + rewrite (PoolHasPosition_undated _ _ E). intros HP. apply (aligned_undated q q'); auto.
Qed.

Lemma updated_ticks pid' t : is_uint64 pid' -> is_int64 t ->
  default (0, 0) (liq_at k' (KeyTick pid' t)) = sums_at k' pid' t.
Proof.
  intros Ip It. pose proof (pb_id _ _ _ (b_pools _ Bk _ _ Hp)) as Ipid.
  pose proof (usable_int64 _ _ Hlo) as Il. pose proof (usable_int64 _ _ Hhi) as Ih.
  unfold sums_at. rewrite (updated_sum _ _ _ _ _ _ _ _ _ _ _ _ (gross_linear _ _) (gross_ext _ _) U),
    (updated_sum _ _ _ _ _ _ _ _ _ _ _ _ (net_linear _ _) (net_ext _ _) U).
  rewrite (u_ticks _ _ _ _ _ _ _ _ _ _ _ U). unfold gross_at at 2, net_at at 2. cbn [mk_position PoolId LowerTick UpperTick Liquidity].
  case_decide as Dh; [|case_decide as Dl].
  - apply KeyTick_inj in Dh as [-> ->]; auto. rewrite (b_ticks _ Bk pid hi Ip Ih). unfold sums_at. cbn.
    rewrite !Z.eqb_refl, (proj2 (Z.eqb_neq lo hi)) by lia. f_equal; lia.
  - apply KeyTick_inj in Dl as [-> ->]; auto. rewrite (b_ticks _ Bk pid lo Ip Il). unfold sums_at. cbn.
    rewrite !Z.eqb_refl, (proj2 (Z.eqb_neq hi lo)) by lia. f_equal; lia.
  - rewrite (b_ticks _ Bk pid' t Ip It). unfold sums_at. destruct (Z.eqb_spec pid pid') as [<- | N]; [|f_equal; lia].
    destruct (Z.eqb_spec lo t) as [-> |]; [congruence|]. destruct (Z.eqb_spec hi t) as [-> |]; [congruence|]. f_equal; lia.
Qed.

Lemma updated_keys pid' key : is_uint64 pid' -> is_Some (liq_at k' (KeyTickPrefixByPoolId pid' ++ key)%list) ->
  exists t q, key = TickIndexToBytes t /\ k_pools k' !! pid' = Some q /\ usable (TickSpacing q) t.
Proof.
  intros Ip H. pose proof (pb_id _ _ _ (b_pools _ Bk _ _ Hp)) as Ipid.
  rewrite (u_ticks _ _ _ _ _ _ _ _ _ _ _ U) in H. destruct (updated_pools_back _ _ Hp) as (p' & Hp' & Sp & _).
  case_decide as Dh; [|case_decide as Dl].
  - apply prefix_inj in Dh as [-> ->]; auto. exists hi, p'. rewrite Sp. auto.
  - apply prefix_inj in Dl as [-> ->]; auto. exists lo, p'. rewrite Sp. auto.
  - destruct (b_keys _ Bk pid' key Ip H) as (t & q & E & Eq & Us). destruct (updated_pools_back _ _ Eq) as (q' & Hq' & Sq & _).
    exists t, q'. rewrite Sq. auto.
Qed.

Lemma updated_books : 0 <= id < k_nextPositionId k \/ k_nextPositionId k = 0 -> Books k'.
Proof.
  intros Hn. pose proof (u_positions _ _ _ _ _ _ _ _ _ _ _ U) as Ps. split.
  - intros i q Hq. destruct (updated_pools _ _ Hq) as [[-> E] | [N (q0 & Hq0 & E)]]; apply undated_Id in E; rewrite E.
    + unfold active_pool. case_if; exact (b_ids _ Bk _ _ Hp).
    + exact (b_ids _ Bk _ _ Hq0).
  - exact updated_pool_books.
  - intros i q Hq. rewrite Ps in Hq. apply lookup_insert_Some in Hq as [[<- <-] | [N Hq]].
    + split; [reflexivity | apply (u_nonneg _ _ _ _ _ _ _ _ _ _ _ U) | exact Hr|].
      destruct (updated_pools_back _ _ Hp) as (p' & Hp' & Sp & HP). exists p'. cbn. rewrite Sp, HP. auto.
    + apply (position_books_pools k k' i q); [|exact (b_positions _ Bk _ _ Hq)].
      intros pid' q0 Hq0 HP0. destruct (updated_pools_back _ _ Hq0) as (q' & A1 & A2 & A3). exists q'. rewrite A3. auto.
  - exact updated_ticks.
  - exact updated_keys.
  - intros pid' i. rewrite (u_byPool _ _ _ _ _ _ _ _ _ _ _ U), Ps, elem_of_union, elem_of_singleton, (b_byPool _ Bk).
    split.
    + intros [[= -> ->] | (q & Hq & Eq)]; [eexists; split; [apply lookup_insert_eq | reflexivity]|].
      destruct (decide (i = id)) as [-> | N]; [|exists q; rewrite lookup_insert_ne by congruence; auto].
      eexists. split; [apply lookup_insert_eq|]. destruct (u_range _ _ _ _ _ _ _ _ _ _ _ U q Hq) as (A & _). cbn. congruence.
    + intros (q & Hq & Eq). apply lookup_insert_Some in Hq as [[<- <-] | [N Hq]]; [left; cbn in Eq; congruence | right; eauto].
  - intros a pid' i. rewrite (u_byOwner _ _ _ _ _ _ _ _ _ _ _ U), Ps, elem_of_union, elem_of_singleton, (b_byOwner _ Bk).
    split.
    + intros [[= -> -> ->] | (q & Hq & Eq & Ea)]; [eexists; split; [apply lookup_insert_eq | now split]|].
      destruct (decide (i = id)) as [-> | N]; [|exists q; rewrite lookup_insert_ne by congruence; auto].
      eexists. split; [apply lookup_insert_eq|]. destruct (u_range _ _ _ _ _ _ _ _ _ _ _ U q Hq) as (A & _).
      pose proof (u_owner _ _ _ _ _ _ _ _ _ _ _ U q Hq). cbn. split; congruence.
    + intros (q & Hq & Eq & Ea). apply lookup_insert_Some in Hq as [[<- <-] | [N Hq]];
        [left; cbn in Eq, Ea; congruence | right; eauto].
  - intros i q Hq. rewrite Ps in Hq. rewrite (u_next _ _ _ _ _ _ _ _ _ _ _ U).
    apply lookup_insert_Some in Hq as [[<- _] | [_ Hq]]; [exact Hn | exact (b_next _ Bk _ _ Hq)].
  - rewrite (u_next _ _ _ _ _ _ _ _ _ _ _ U). apply Bk.
Qed.

End Updated.

End Books.
