(* ===== verification/CLLiquidity.v ===== *)
(** * Concentrated liquidity: liquidity provision keeps the books

    Creating, withdrawing and transferring positions, and creating pools.
    [Inv] adds to [Books] that no empty position and no empty tick is stored. *)

From stdpp Require Import base gmap strings pretty.
From Stdlib Require Import ZArith Lia List Bool.
From S2P Require Import Prelude GoBig BigInt BigDec MonoSqrt SdkMath CLMath CLTick Store CLKeys SwapStrategy MapSum GoState DecCoins Accum CLDirection CLState CLPool CLUptime CLRewards CLSwap CLPosition CLFrame CLBooks.
Import ListNotations.

Section Liquidity.
Context {S : SdkMath} {SS : SdkMathSpec S} {B : BigEndian} {BS : BigEndianSpec B} {C : DecCoinsOps}
  {EK : ExternalKeepers C} {KT : KVStore TickInfo} {KS : KVStoreSpec KT} {KA : KVStore StoreValue}.

(** No position is empty and a tick is only stored while a position uses it. *)
Record Inv (k : Keeper) : Prop := {
  i_books : Books k;
  i_positive id q : k_positions k !! id = Some q -> 0 < Liquidity q;
  i_used pid t : is_uint64 pid -> is_int64 t -> is_Some (liq_at k (KeyTick pid t)) ->
    0 < msum (gross_at pid t) (k_positions k)
}.

Lemma frame_inv k k' : frame k k' -> Inv k -> Inv k'.
Proof.
  intros F [Bk P U]. split; [exact (frame_books _ _ F Bk)|..];
    rewrite (fr_positions _ _ (fr_rest _ _ F)); [exact P|].
  intros pid t Ip It. rewrite (fr_ticks _ _ F). auto.
Qed.

(** ** Replacing a pool *)

Definition in_pool (k : Keeper) (pid : Z) : Prop := exists id q, k_positions k !! id = Some q /\ PoolId q = pid.

(** The spacing of the new pool divides that of the old one. *)
Lemma respace_books k k' a pid p p' :
  Books k -> k_pools k !! pid = Some p -> Id p' = pid -> 0 < TickSpacing p' -> (TickSpacing p' | TickSpacing p) ->
  MinInitializedTickV2 <= CurrentTick p' <= MaxTick ->
  CurrentTickLiquidity p' = msum (active_at pid (CurrentTick p')) (k_positions k) ->
  (PoolHasPosition p' = true -> aligned p') -> (in_pool k pid -> PoolHasPosition p' = true) ->
  setPool p' k = (Ok a, k') -> Books k'.
Proof.
  intros Bk Hp Hi Sp0 Hs Ht Hl Ha Hh E.
  assert (Us : forall sp sp' t, (sp' | sp) -> usable sp t -> usable sp' t) by (intros sp sp' t D [R U]; split; [exact R | now apply (Z.divide_trans _ sp)]).
  assert (Pn : k_pools k' = <[pid := p']> (k_pools k)) by (rewrite <- Hi; injection E as _ <-; now destruct k).
  apply setPool_rest in E as (R1 & R2 & R3 & R4 & R5).
  assert (Pp : forall pid' q, k_pools k !! pid' = Some q ->
    exists q', k_pools k' !! pid' = Some q' /\ (TickSpacing q' | TickSpacing q) /\
      (PoolHasPosition q = true -> in_pool k pid' -> PoolHasPosition q' = true)).
  { intros pid' q Hq. rewrite Pn. destruct (decide (pid' = pid)) as [-> | N].
    - rewrite lookup_insert_eq. exists p'. assert (q = p) as -> by congruence. auto.
    - rewrite lookup_insert_ne by congruence. exists q. auto using Z.divide_refl. }
  split; unfold sums_at; rewrite ?R1, ?R2, ?R3, ?R4; try apply Bk.
  - intros i q Hq. rewrite Pn in Hq. apply lookup_insert_Some in Hq as [[<- <-] | [_ Hq]]; [exact Hi | exact (b_ids _ Bk _ _ Hq)].
  - intros pid' q Hq. rewrite Pn in Hq. apply lookup_insert_Some in Hq as [[<- <-] | [_ Hq]].
    + pose proof (b_pools _ Bk _ _ Hp) as [I1 I2 _ _ _]. split; rewrite ?R1; auto. pose proof (Z.divide_pos_le _ _ (proj1 I2) Hs). lia.
    + pose proof (b_pools _ Bk _ _ Hq) as [I1 I2 I3 I4 I5]. split; rewrite ?R1; auto.
  - intros i q Hq. destruct (b_positions _ Bk _ _ Hq) as [Q1 Q2 Q3 (q0 & Hq0 & HP & U1 & U2)].
    split; auto. destruct (Pp _ _ Hq0) as (q' & Hq' & Sp & Hh'). exists q'.
    split; [exact Hq'|]. split; [|eauto]. apply Hh'; [exact HP|]. exists i, q. auto.
  - intros pid' t Ip It. rewrite R5. exact (b_ticks _ Bk pid' t Ip It).
  - intros pid' key Ip Hk. rewrite R5 in Hk. destruct (b_keys _ Bk _ _ Ip Hk) as (t & q & E1 & Hq & U).
    destruct (Pp _ _ Hq) as (q' & Hq' & Sp & _). exists t, q'. eauto.
Qed.

Lemma set_pool_books k k' a pid p p' :
  Books k -> k_pools k !! pid = Some p -> Id p' = pid -> TickSpacing p' = TickSpacing p ->
  MinInitializedTickV2 <= CurrentTick p' <= MaxTick ->
  CurrentTickLiquidity p' = msum (active_at pid (CurrentTick p')) (k_positions k) ->
  (PoolHasPosition p' = true -> aligned p') -> (in_pool k pid -> PoolHasPosition p' = true) ->
  setPool p' k = (Ok a, k') -> Books k'.
Proof.
  intros Bk Hp Hi Hs. apply (respace_books k k' a pid p p' Bk Hp Hi); rewrite Hs; [apply (b_pools _ Bk _ _ Hp) | apply Z.divide_refl].
Qed.

(** ** Removing what is empty *)

Lemma keeps_pools k k' pid p :
  keeps k k' -> k_pools k !! pid = Some p -> exists p', k_pools k' !! pid = Some p' /\ undated p' = undated p.
Proof.
  intros K H. destruct (pool_at_transfer k' k pid p (eq_sym (kp_pools _ _ K pid)) H) as (p' & E & U). eauto.
Qed.

Lemma remove_tick_books k k' a pid t :
  Books k -> is_uint64 pid -> is_int64 t -> default (0, 0) (liq_at k (KeyTick pid t)) = (0, 0) ->
  RemoveTickInfo pid t k = (Ok a, k') ->
  Books k' /\ (forall key, liq_at k' key = if decide (key = KeyTick pid t) then None else liq_at k key) /\
  k_positions k' = k_positions k.
Proof.
  intros Bk Ip It Z0 E.
  assert (T : forall key, liq_at k' key = if decide (key = KeyTick pid t) then None else liq_at k key).
  { intros key. injection E as _ <-. unfold liq_at. destruct k. cbn.
    case_decide; [subst; now rewrite get_delete_eq | now rewrite get_delete_ne by congruence]. }
  injection E as _ <-. split; [|split; [exact T | now destruct k]].
  destruct Bk as [B1 B2 B3 B4 B5 B6 B7 B8 B9]. destruct k; split; cbn in *; auto; try (intros; apply B2 || apply B3; assumption).
  - intros pid' q H. destruct (B2 pid' q H). split; auto.
  - intros i q H. destruct (B3 i q H). split; auto.
  - intros pid' t' Ip' It'. rewrite T. case_decide as D; [|exact (B4 pid' t' Ip' It')].
    apply KeyTick_inj in D as [-> ->]; auto. exact (eq_trans (eq_sym Z0) (B4 pid t Ip It)).
  - intros pid' key Ip' Hk. rewrite T in Hk. case_decide; [now apply is_Some_None in Hk|]. exact (B5 pid' key Ip' Hk).
Qed.

Lemma deletePosition_inv id owner pid k a k' :
  deletePosition id owner pid k = (Ok a, k') ->
  keeps k k' /\ k_positions k' = delete id (k_positions k) /\
  k_poolPosition k' = k_poolPosition k ∖ {[(pid, id)]} /\
  k_addressPoolPosition k' = k_addressPoolPosition k ∖ {[(owner, pid, id)]}.
Proof.
  unfold deletePosition. intros H. inv_m H. injection E as <- <-. repeat (case_if_in H; [discriminate|]; inv_m H; injection E as _ <-).
  set (k1 := set_addressPoolPosition _ _) in H.
  assert (K1 : keeps k k1 /\ k_positions k1 = delete id (k_positions k) /\
    k_poolPosition k1 = k_poolPosition k ∖ {[(pid, id)]} /\
    k_addressPoolPosition k1 = k_addressPoolPosition k ∖ {[(owner, pid, id)]}).
  { subst k1. destruct k. repeat split; reflexivity. }
  destruct (k_positionLock k !! id).
  - unfold GetLockIdFromPositionId in H. inv_m H. destruct (k_positionLock k1 !! id); [|discriminate].
    injection E as _ <-. inv_m H. injection E as _ <-. injection H as _ <-. clearbody k1. clear - K1.
    destruct K1 as ([P T N] & Q & R1 & R2). destruct k1. cbn in *. repeat split; auto.
  - inv_m H. now subst.
Qed.

Lemma keeps_pool_books k k' pid p' :
  keeps k k' -> Books k -> k_pools k' !! pid = Some p' ->
  (forall t, msum (active_at pid t) (k_positions k') = msum (active_at pid t) (k_positions k)) -> pool_books k' pid p'.
Proof.
  intros K Bk H Sm. destruct (pool_at_transfer k k' pid p' (kp_pools _ _ K pid) H) as (p & Hp & U).
  destruct (b_pools _ Bk _ _ Hp) as [I1 I2 I3 I4 I5]. pose proof (undated_fields _ _ U) as (F1 & F2 & F3 & F4).
  split; rewrite ?F1, ?F2, ?F3; auto; [now rewrite Sm|].
  rewrite (PoolHasPosition_undated _ _ U). intros HP. apply (aligned_undated p p'); auto.
Qed.

(** Positions rewritten with the same shares: what a transfer or the removal
    of an empty position does. *)
Lemma rewrite_positions_books k k' :
  keeps k k' -> Books k ->
  (forall f, linear f -> extensional f -> null f -> msum f (k_positions k') = msum f (k_positions k)) ->
  (forall id q', k_positions k' !! id = Some q' -> exists q, k_positions k !! id = Some q /\
     PositionId q' = PositionId q /\ Liquidity q' = Liquidity q /\ PoolId q' = PoolId q /\
     LowerTick q' = LowerTick q /\ UpperTick q' = UpperTick q) ->
  (forall pid id, (pid, id) ∈ k_poolPosition k' <-> exists q, k_positions k' !! id = Some q /\ PoolId q = pid) ->
  (forall a pid id, (a, pid, id) ∈ k_addressPoolPosition k' <->
     exists q, k_positions k' !! id = Some q /\ PoolId q = pid /\ PositionAddress q = a) ->
  Books k'.
Proof.
  intros K Bk Sm Q Ip Io. split; auto.
  - exact (keeps_ids _ _ K (b_ids _ Bk)).
  - intros pid p H. apply (keeps_pool_books k k' pid p K Bk H). intros t. apply Sm; auto with books.
  - intros id q' H. destruct (Q id q' H) as (q & Hq & E1 & E2 & E3 & E4 & E5).
    destruct (b_positions _ Bk _ _ Hq) as [Q1 Q2 Q3 (p & Hp & HP & U1 & U2)]. split; rewrite ?E1, ?E2, ?E4, ?E5; auto.
    destruct (keeps_pools _ _ _ _ K Hp) as (p' & Hp' & Un). exists p'. rewrite E3, (PoolHasPosition_undated _ _ Un).
    destruct (undated_fields _ _ Un) as (-> & _). auto.
  - intros pid t Ipid It. rewrite (kp_ticks _ _ K), (b_ticks _ Bk _ _ Ipid It). unfold sums_at.
    now rewrite !Sm by auto with books.
  - intros pid key Ipid Hk. rewrite (kp_ticks _ _ K) in Hk. destruct (b_keys _ Bk _ _ Ipid Hk) as (t & p & E & Hp & U).
    destruct (keeps_pools _ _ _ _ K Hp) as (p' & Hp' & Un). exists t, p'. destruct (undated_fields _ _ Un) as (-> & _). auto.
  - intros id q' H. destruct (Q id q' H) as (q & Hq & _). rewrite (kp_next _ _ K). exact (b_next _ Bk _ _ Hq).
  - rewrite (kp_next _ _ K). apply Bk.
Qed.

Lemma delete_books k k' a id q :
  Books k -> k_positions k !! id = Some q -> Liquidity q = 0 ->
  deletePosition id (PositionAddress q) (PoolId q) k = (Ok a, k') ->
  Books k' /\ keeps k k' /\ k_positions k' = delete id (k_positions k).
Proof.
  intros Bk Hq L0 H. apply deletePosition_inv in H as (K & Ps & Bp & Bo). split; [|auto].
  assert (D : forall i x, k_positions k' !! i = Some x <-> i <> id /\ k_positions k !! i = Some x).
  { intros i x. rewrite Ps, lookup_delete_Some. split; intros []; split; congruence. }
  apply (rewrite_positions_books k k' K Bk).
  - intros f _ _ Nf. rewrite Ps, (msum_delete f _ _ _ Hq), (Nf q L0). lia.
  - intros i x H. apply D in H as [_ H]. exists x. auto 10.
  - intros pid i. rewrite Bp, elem_of_difference, elem_of_singleton, (b_byPool _ Bk). split.
    + intros [(x & Hx & Ex) N]. exists x. split; [apply D; split; [|exact Hx] | exact Ex]. intros ->. congruence.
    + intros (x & Hx & Ex). apply D in Hx as [N Hx]. split; [eauto | congruence].
  - intros a' pid i. rewrite Bo, elem_of_difference, elem_of_singleton, (b_byOwner _ Bk). split.
    + intros [(x & Hx & Ex & Ea) N]. exists x. split; [apply D; split; [|exact Hx] | auto]. intros ->. congruence.
    + intros (x & Hx & Ex & Ea). apply D in Hx as [N Hx]. split; [eauto | congruence].
Qed.

(** ** Transfers *)

Lemma transfer_inv bt sender recipient id k a k' :
  Inv k -> transferPosition bt sender recipient id k = (Ok a, k') -> Inv k'.
Proof.
  intros Iv H. pose proof (i_books _ Iv) as Bk. unfold transferPosition in H. inv_m H. unfold GetPosition in E.
  destruct (k_positions k !! id) as [q|] eqn:Hq; [|discriminate]. injection E as <- <-.
  case_if_in H; [discriminate|]. inv_m H. destruct v as [active lk].
  pose proof (framed_lockUpdate _ _ _ _ _ (b_ids _ Bk) I E) as F. clear E.
  apply (frame_inv _ _ F) in Iv. clear Bk. pose proof (i_books _ Iv) as Bk.
  rewrite <- (fr_positions _ _ (fr_rest _ _ F)) in Hq. clear F. case_if_in H; [discriminate|].
  inv_m H. apply deletePosition_inv in E as (K1 & P1 & Bp1 & Bo1). inv_m H. injection E as <- <-.
  case_if_in H; [discriminate|]. apply SetPosition_inv in H as (K2 & P2 & Bp2 & Bo2);
    [|exact (keeps_ids _ _ K1 (b_ids _ Bk))].
  rewrite (qb_id _ _ _ (b_positions _ Bk _ _ Hq)) in *. rewrite P1 in P2. rewrite insert_delete_eq in P2.
  pose proof (keeps_trans _ _ _ K1 K2) as K.
  set (q' := mk_position id (PoolId q) recipient (LowerTick q) (UpperTick q) (JoinTime q) (Liquidity q)) in *.
  assert (D : forall i x, k_positions k' !! i = Some x <-> (i = id /\ x = q') \/ (i <> id /\ k_positions s !! i = Some x)).
  { intros i x. rewrite P2, lookup_insert_Some. split; intros [[] | []]; auto. }
  assert (Sm : forall f, extensional f -> msum f (k_positions k') = msum f (k_positions s)).
  { intros f Ef. rewrite P2, (msum_update f _ _ _ _ Hq), (Ef q q'); auto. lia. }
  split.
  - apply (rewrite_positions_books s k' K Bk); auto.
    + intros i x Hx. apply D in Hx as [[-> ->] | [N Hx]]; [|exists x; auto 10].
      exists q. split; [exact Hq|]. rewrite (qb_id _ _ _ (b_positions _ Bk _ _ Hq)). cbn. auto.
    + intros pid i. rewrite Bp2, Bp1, elem_of_union, elem_of_difference, !elem_of_singleton, (b_byPool _ Bk). split.
      * intros [[= -> ->] | [(x & Hx & Ex) N]]; [exists q'; split; [apply D; auto | reflexivity]|].
        exists x. split; [apply D; right; split; [|exact Hx] | exact Ex]. intros ->. congruence.
      * intros (x & Hx & Ex). apply D in Hx as [[-> ->] | [N Hx]]; [left; cbn in Ex; congruence|].
        right. split; [eauto | congruence].
    + intros a' pid i. rewrite Bo2, Bo1, elem_of_union, elem_of_difference, !elem_of_singleton, (b_byOwner _ Bk). split.
      * intros [[= -> -> ->] | [(x & Hx & Ex & Ea) N]]; [exists q'; split; [apply D; auto | now split]|].
        exists x. split; [apply D; right; split; [|exact Hx] | auto]. intros ->. congruence.
      * intros (x & Hx & Ex & Ea). apply D in Hx as [[-> ->] | [N Hx]]; [left; cbn in Ex, Ea; congruence|].
        right. split; [eauto | congruence].
  - intros i x Hx. apply D in Hx as [[-> ->] | [N Hx]]; [exact (i_positive _ Iv _ _ Hq) | exact (i_positive _ Iv _ _ Hx)].
  - intros pid t Ip It Hk. rewrite Sm by auto with books. rewrite (kp_ticks _ _ K) in Hk. exact (i_used _ Iv _ _ Ip It Hk).
Qed.

Lemma transferPositions_inv bt ids sender recipient k a k' :
  Inv k -> transferPositions bt ids sender recipient k = (Ok a, k') -> Inv k'.
Proof.
  unfold transferPositions. intros Iv H. case_if_in H; [discriminate|]. clear C0. revert k a Iv H.
  induction ids as [|id ids IH]; intros k a Iv H; cbn [for_each] in H; [now inv_m H; subst|].
  inv_m H. exact (IH _ _ (transfer_inv _ _ _ _ _ _ _ Iv E) H).
Qed.

(** ** Ranges and prices *)

Lemma rem_divide t sp : 0 < sp -> Z.rem t sp = 0 -> (sp | t).
Proof. intros H E. apply Z.rem_divide; lia. Qed.

Lemma validateTickRange_inv sp lo hi a :
  0 < sp < 2 ^ 62 -> validateTickRangeIsValid sp lo hi = Ok a -> usable sp lo /\ usable sp hi /\ lo < hi.
Proof.
  intros Hs. unfold validateTickRangeIsValid, usable. rewrite int64_id by lia.
  repeat (case_if; [discriminate|]). intros _. b2p.
  repeat match goal with H : context [Z.geb ?a ?b] |- _ => rewrite Z.geb_leb in H
                       | H : context [Z.gtb ?a ?b] |- _ => rewrite Z.gtb_ltb in H end. b2p.
  split; [split; [lia | now apply rem_divide; [lia|]] | split; [split; [lia | now apply rem_divide; [lia|]] | lia]].
Qed.

Lemma SqrtPriceToTickRoundDownSpacing_inv sqrtPrice sp t :
  0 < sp < 2 ^ 62 -> SqrtPriceToTickRoundDownSpacing sqrtPrice sp = Ok t ->
  exists T, CalculateSqrtPriceToTick sqrtPrice = Ok T /\ t = T / sp * sp /\ MinInitializedTickV2 <= t <= MaxTick.
Proof.
  intros Hs H. unfold SqrtPriceToTickRoundDownSpacing in H. inv_bind H. rewrite int64_id in H by lia.
  exists v. split; [exact E|]. apply CalculateSqrtPriceToTick_sound in E as (R & _ & _).
  assert (V2 : MinInitializedTickV2 < MinCurrentTick - 1) by reflexivity.
  destruct (RoundDownTickToSpacing_floor v sp ltac:(lia) Hs) as [R1 R2].
  destruct (Z_le_gt_dec MinInitializedTickV2 (v / sp * sp)) as [Ge | Lt].
  - rewrite (R1 Ge) in H. apply Ok_inj in H as <-. split; [reflexivity|].
    pose proof (div_spec v sp ltac:(lia)). lia.
  - rewrite R2 in H by lia. discriminate H.
Qed.

(** Rounding to the canonical tick changes nothing in a valid range. *)
Lemma canonical_ticks sp lo hi slo shi lo' hi' :
  0 < sp < 2 ^ 62 -> usable sp lo -> usable sp hi -> lo < hi ->
  TicksToSqrtPrice lo hi = Ok (slo, shi) ->
  roundTickToCanonicalPriceTick lo hi slo shi sp = Ok (lo', hi') ->
  slo = tick_sqrt_price lo /\ shi = tick_sqrt_price hi /\ lo' = lo /\ hi' = hi.
Proof.
  intros Hs [Rl Dl] [Rh Dh] L T H. rewrite TicksToSqrtPrice_ok in T by lia. apply Ok_inj in T. injection T as <- <-.
  split; [reflexivity|]. split; [reflexivity|].
  assert (V : MinCurrentTick < MinInitializedTick) by reflexivity.
  assert (A : forall t u, MinInitializedTick <= t <= MaxTick -> (sp | t) ->
    SqrtPriceToTickRoundDownSpacing (tick_sqrt_price t) sp = Ok u -> u = t).
  { intros t u Ht [x ->] E. apply SqrtPriceToTickRoundDownSpacing_inv in E as (T & E & -> & _); [|assumption].
    rewrite sqrt_price_tick_inverse in E by lia. apply Ok_inj in E as <-. now rewrite Z.div_mul by lia. }
  unfold roundTickToCanonicalPriceTick in H. inv_binds. injection H as <- <-. split; eapply A; eauto.
Qed.

Lemma tick_sqrt_price_pos t : MinInitializedTickV2 <= t <= MaxTick -> 0 < tick_sqrt_price t.
Proof.
  intros H. pose proof (tick_sqrt_price_le MinInitializedTickV2 t ltac:(lia) ltac:(lia)).
  assert (0 < tick_sqrt_price MinInitializedTickV2) by (vm_compute; reflexivity). lia.
Qed.

(** The tick of a price, rounded down to the spacing, is aligned with it. *)
Lemma initial_aligned p sqrtPrice t :
  0 < TickSpacing p < 2 ^ 62 -> SqrtPriceToTickRoundDownSpacing sqrtPrice (TickSpacing p) = Ok t ->
  let p' := SetCurrentTick (SetCurrentSqrtPrice p sqrtPrice) t in
  aligned p' /\ PoolHasPosition p' = true /\ MinInitializedTickV2 <= t <= MaxTick.
Proof.
  intros Hs H p'. apply SqrtPriceToTickRoundDownSpacing_inv in H as (T & E & -> & R); [|assumption].
  apply CalculateSqrtPriceToTick_sound in E as (RT & Lo & Up).
  assert (V2 : MinInitializedTickV2 < MinCurrentTick - 1) by reflexivity.
  assert (Pos : 0 < sqrtPrice) by (pose proof (tick_sqrt_price_pos T ltac:(lia)); lia).
  split; [|split; [|exact R]].
  - split; [exact Pos|]. intros b Hb D. cbn in *. destruct D as [x ->]. pose proof (div_spec T (TickSpacing p) ltac:(lia)) as Ed.
    set (q := T / TickSpacing p) in *.
    assert (V3 : MinInitializedTickV2 < MinInitializedTick) by reflexivity. split; intros L.
    + pose proof (tick_sqrt_price_le (x * TickSpacing p) T ltac:(lia) ltac:(lia)). lia.
    + assert (q < x) by nia. assert (T < x * TickSpacing p) by nia.
      pose proof (tick_sqrt_price_le (T + 1) (x * TickSpacing p) ltac:(lia) ltac:(lia)). specialize (Up ltac:(lia)). lia.
  - unfold PoolHasPosition, IsZero. cbn. destruct (Z.eqb_spec (Z.sgn sqrtPrice) 0); [lia | reflexivity].
Qed.

(** ** Creating a position *)

Lemma no_positions_active k pid t : ~ in_pool k pid -> msum (active_at pid t) (k_positions k) = 0.
Proof.
  intros N. apply msum_zero. intros id q Hq. unfold active_at. destruct (Z.eqb_spec (PoolId q) pid); [|reflexivity].
  exfalso. apply N. exists id, q. auto.
Qed.

Lemma in_pool_has_position k pid p : Books k -> k_pools k !! pid = Some p -> in_pool k pid -> PoolHasPosition p = true.
Proof.
  intros Bk Hp (id & q & Hq & <-). destruct (qb_pool _ _ _ (b_positions _ Bk _ _ Hq)) as (p' & Hp' & HP & _). congruence.
Qed.

Lemma initialize_books k k' p a0 a1 p' pid :
  Books k -> stored p k -> Id p = pid -> PoolHasPosition p = false ->
  initializeInitialPositionForPool p a0 a1 k = (Ok p', k') ->
  Books k' /\ k_pools k' !! pid = Some p' /\ PoolHasPosition p' = true /\ TickSpacing p' = TickSpacing p /\
  (forall key, liq_at k' key = liq_at k key) /\ k_positions k' = k_positions k /\ k_nextPositionId k' = k_nextPositionId k.
Proof.
  intros Bk St <- HP H. unfold initializeInitialPositionForPool in H. case_if_in H; [discriminate|]. inv_ok.
  lazymatch goal with E : SqrtPriceToTickRoundDownSpacing ?x _ = Ok ?t |- _ => rename x into sp, t into tk, E into Et end.
  lazymatch goal with E : setPool _ ?s = (Ok ?u, ?s') |- _ => rename s into k1, s' into k2, u into un end.
  apply pool_at_inv in St as (p0 & Hp0 & U). pose proof (undated_fields _ _ U) as (F1 & F2 & F3 & F4).
  pose proof (b_pools _ Bk _ _ Hp0) as [I1 I2 I3 I4 _]. rewrite F1 in I2.
  destruct (initial_aligned p sp tk I2 Et) as (Al & HP' & Rt).
  assert (N : ~ in_pool k1 (Id p)).
  { intros N. apply (in_pool_has_position k1 _ p0 Bk Hp0) in N. rewrite (PoolHasPosition_undated _ _ U) in N. congruence. }
  lazymatch goal with E : setPool ?x _ = _ |- _ => pose proof E as Es; set (p' := x) in * end.
  pose proof (setPool_rest _ _ _ _ Es) as (R1 & R2 & R3 & R4 & R5).
  split; [|split; [|auto 10]].
  - apply (set_pool_books k1 k2 un (Id p) p0 p'); auto; try (subst p'; cbn; auto; fail).
    subst p'. cbn. rewrite <- F3, I4. now rewrite !no_positions_active.
  - injection Es as _ <-. destruct k1. cbn. apply lookup_insert_eq.
Qed.

Lemma same_inv k k' :
  Books k' -> k_positions k' = k_positions k -> (forall key, liq_at k' key = liq_at k key) -> Inv k -> Inv k'.
Proof.
  intros Bk Ps T [_ P U]. split; [exact Bk|..]; rewrite Ps; [exact P|].
  intros pid t Ip It. rewrite T. auto.
Qed.

Definition next_state (k : Keeper) : Keeper := set_nextPositionId (fun _ => uint64 (k_nextPositionId k + 1)) k.

Lemma next_inv k : Inv k -> k_nextPositionId k <> 0 -> Inv (next_state k).
Proof.
  intros Iv N. apply (same_inv k); [|now destruct k..|exact Iv]. destruct (i_books _ Iv) as [B1 B2 B3 B4 B5 B6 B7 B8 B9].
  destruct k. unfold next_state. cbn in *. split; cbn; auto.
  - intros pid p H. destruct (B2 pid p H). split; auto.
  - intros id q H. destruct (B3 id q H). split; auto.
  - intros id q H. destruct (B8 id q H) as [L | L]; [|contradiction]. unfold uint64, is_uint64 in *.
    destruct (Z.eq_dec (k_nextPositionId + 1) (2 ^ 64)) as [-> | Ne]; [right; apply Z.mod_same; discriminate|].
    left. rewrite Z.mod_small by lia. lia.
  - unfold is_uint64, uint64. apply Z.mod_pos_bound. reflexivity.
Qed.

Lemma sums_bounds k pid t : Books k -> 0 <= msum (gross_at pid t) (k_positions k) /\
  Z.abs (msum (net_at pid t) (k_positions k)) <= msum (gross_at pid t) (k_positions k).
Proof.
  intros Bk.
  assert (A : forall id q, k_positions k !! id = Some q -> Z.abs (net_at pid t q) <= gross_at pid t q).
  { intros id q Hq. apply net_le_gross. apply (b_positions _ Bk _ _ Hq). }
  pose proof (msum_le (net_at pid t) (gross_at pid t) (k_positions k)) as L1.
  pose proof (msum_le (fun q => -1 * net_at pid t q) (gross_at pid t) (k_positions k)) as L2.
  rewrite msum_scale in L2.
  assert (P1 : msum (net_at pid t) (k_positions k) <= msum (gross_at pid t) (k_positions k))
    by (apply L1; intros id q Hq; specialize (A id q Hq); lia).
  assert (P2 : -1 * msum (net_at pid t) (k_positions k) <= msum (gross_at pid t) (k_positions k))
    by (apply L2; intros id q Hq; specialize (A id q Hq); lia). lia.
Qed.

(** The ticks other than the bounds of a changed position. *)
Lemma updated_other k k' pid owner lo hi dl jt id p d pid' t :
  Inv k -> k_pools k !! pid = Some p -> usable (TickSpacing p) lo -> usable (TickSpacing p) hi ->
  updated k k' pid owner lo hi dl jt id p d -> is_uint64 pid' -> is_int64 t ->
  (pid' <> pid \/ t <> lo /\ t <> hi) -> is_Some (liq_at k' (KeyTick pid' t)) ->
  0 < msum (gross_at pid' t) (k_positions k').
Proof.
  intros Iv Hp Ul Uh U Ip It N Hk. pose proof (pb_id _ _ _ (b_pools _ (i_books _ Iv) _ _ Hp)) as Ipid.
  pose proof (usable_int64 _ _ Ul) as Il. pose proof (usable_int64 _ _ Uh) as Ih.
  rewrite (u_ticks _ _ _ _ _ _ _ _ _ _ _ U), !decide_False in Hk;
    [|intros E; apply KeyTick_inj in E as [-> ->]; auto; tauto..].
  rewrite (updated_sum _ _ _ _ _ _ _ _ _ _ _ _ (gross_linear _ _) (gross_ext _ _) U).
  pose proof (i_used _ Iv _ _ Ip It Hk). unfold gross_at at 2. cbn.
  destruct (Z.eqb_spec pid pid'); [|lia]. destruct (Z.eqb_spec lo t), (Z.eqb_spec hi t); try lia; tauto.
Qed.

Lemma created_inv k k' pid owner lo hi dl jt id p d :
  Inv k -> k_pools k !! pid = Some p -> usable (TickSpacing p) lo -> usable (TickSpacing p) hi -> lo < hi ->
  PoolHasPosition p = true -> k_positions k !! id = None -> dl <> 0 ->
  0 <= id < k_nextPositionId k \/ k_nextPositionId k = 0 ->
  updated k k' pid owner lo hi dl jt id p d -> Inv k'.
Proof.
  intros Iv Hp Ul Uh L HP Fr Nz Hn U. pose proof (i_books _ Iv) as Bk.
  pose proof (u_nonneg _ _ _ _ _ _ _ _ _ _ _ U) as Nn. unfold old_liquidity in Nn. rewrite Fr in Nn. split.
  - exact (updated_books k k' pid owner lo hi dl jt id p d Bk Hp Ul Uh L HP U Hn).
  - intros i q Hq. rewrite (u_positions _ _ _ _ _ _ _ _ _ _ _ U) in Hq.
    apply lookup_insert_Some in Hq as [[<- <-] | [_ Hq]]; [|exact (i_positive _ Iv _ _ Hq)].
    cbn. unfold old_liquidity. rewrite Fr. lia.
  - intros pid' t Ip It Hk.
    destruct (decide (pid' = pid /\ (t = lo \/ t = hi))) as [[-> D] | D].
    + rewrite (updated_sum _ _ _ _ _ _ _ _ _ _ _ _ (gross_linear _ _) (gross_ext _ _) U).
      pose proof (sums_bounds k pid t Bk) as [G _]. unfold gross_at at 2. cbn. rewrite Z.eqb_refl.
      destruct D as [-> | ->]; rewrite Z.eqb_refl; case_if; lia.
    + apply (updated_other k k' pid owner lo hi dl jt id p d pid' t Iv Hp Ul Uh U Ip It); [|exact Hk].
      destruct (Z.eq_dec pid' pid); [right | now left]. split; intros ->; apply D; auto.
Qed.

Lemma fresh_id k : Inv k -> k_nextPositionId k <> 0 -> k_positions k !! k_nextPositionId k = None.
Proof.
  intros Iv N. destruct (k_positions k !! k_nextPositionId k) as [q|] eqn:E; [|reflexivity].
  destruct (b_next _ (i_books _ Iv) _ _ E); lia.
Qed.

(** The pool the position is created in, initialized if it had no position. *)
Lemma pool_ready_inv k p pid a0 a1 p' k' :
  Inv k -> stored p k -> Id p = pid ->
  (if negb (PoolHasPosition p) then initializeInitialPositionForPool p a0 a1 else ret p) k = (Ok p', k') ->
  Inv k' /\ k_nextPositionId k' = k_nextPositionId k /\ k_positions k' = k_positions k /\
  exists q, k_pools k' !! pid = Some q /\ PoolHasPosition q = true /\ TickSpacing q = TickSpacing p.
Proof.
  intros Iv St Hi H. destruct (PoolHasPosition p) eqn:HP; cbn [negb] in H.
  - inv_m H. subst p' k'. split; [exact Iv|]. split; [reflexivity|]. split; [reflexivity|].
    unfold stored in St. rewrite Hi in St. apply pool_at_inv in St as (q & Hq & U). exists q. split; [exact Hq|].
    rewrite (PoolHasPosition_undated _ _ U). split; [exact HP | apply (undated_fields _ _ U)].
  - apply (initialize_books _ _ _ _ _ _ pid) in H as (Bk & Hp & HP' & Sp & T & Ps & Nx); auto; [|apply Iv].
    split; [exact (same_inv _ _ Bk Ps T Iv)|]. eauto 10.
Qed.

Lemma CreatePosition_inv bt pid owner tokens m0 m1 lo hi k data k' :
  Inv k -> CreatePosition bt pid owner tokens m0 m1 lo hi k = (Ok data, k') -> Inv k'.
Proof.
  intros Iv H. unfold CreatePosition in H. inv_m H. unfold getPoolById in E.
  destruct (k_pools k !! pid) as [p|] eqn:Hp; [|discriminate]. injection E as <- <-.
  pose proof (b_pools _ (i_books _ Iv) _ _ Hp) as PB. pose proof (pb_spacing _ _ _ PB) as Hs.
  case_if_in H; [discriminate|]. inv_m H. inv_m E. subst s. cbv zeta in H. repeat (case_if_in H; [discriminate|]).
  apply (validateTickRange_inv _ _ _ _ Hs) in E0 as (Ul & Uh & L).
  inv_m H. destruct v0 as [slo shi]. inv_m E. subst s. inv_m H. destruct v0 as [lo' hi']. inv_m E. subst s.
  apply (canonical_ticks _ _ _ _ _ _ _ Hs Ul Uh L E0) in E1 as (-> & -> & -> & ->).
  inv_m H. pose proof (framed_external always _ _ _ _ (b_ids _ (i_books _ Iv)) I E) as F.
  assert (St : stored p s) by (unfold stored; rewrite (fr_pools _ _ (fr_rest _ _ F)), (b_ids _ (i_books _ Iv) _ _ Hp);
    unfold pool_at; now rewrite Hp).
  pose proof (b_ids _ (i_books _ Iv) _ _ Hp) as Hi. apply (frame_inv _ _ F) in Iv. clear F E E0.
  inv_m H. assert (E1 : v1 = k_nextPositionId s /\ s0 = next_state s) by (injection E as <- <-; auto).
  destruct E1 as [-> ->]. clear E. inv_m H. rename E into Ei, s0 into s1.
  inv_m H. inv_m E. subst s0. destruct (Z.eqb_spec v2 0) as [|Nz]; [discriminate|]. inv_m H.
  assert (N0 : k_nextPositionId s <> 0) by (intros Z0; rewrite Z0 in E; discriminate E).
  pose proof (next_inv s Iv N0) as Iv1.
  assert (St1 : stored p (next_state s)) by (destruct s; exact St).
  destruct (pool_ready_inv _ _ _ _ _ _ _ Iv1 St1 Hi Ei) as (Iv2 & Nx & Ps & q & Hq & HP & Sp).
  rewrite <- Sp in Ul, Uh.
  apply UpdatePosition_inv in E as (q' & Hq' & U);
    [|apply (i_books _ Iv2) | apply tick_key_ne; [exact (pb_id _ _ _ PB) | exact (pb_id _ _ _ PB)
      | exact (usable_int64 _ _ Ul) | exact (usable_int64 _ _ Uh) | right; lia]].
  rewrite Hq in Hq'. injection Hq' as <-.
  assert (Iv3 : Inv s0).
  { apply (created_inv s1 s0 pid owner lo hi v2 bt (k_nextPositionId s) q v3 Iv2 Hq Ul Uh L HP); [| exact Nz | | exact U].
    - rewrite Ps. pose proof (fresh_id s Iv N0) as Fr. destruct s; exact Fr.
    - rewrite Nx. pose proof (b_next_id _ (i_books _ Iv)) as R. unfold is_uint64 in R.
      destruct s. unfold next_state in *. cbn in *. unfold uint64.
      destruct (Z.eq_dec (k_nextPositionId + 1) (2 ^ 64)) as [-> | Ne]; [right; apply Z.mod_same; discriminate|].
      left. rewrite Z.mod_small by lia. lia. }
  rest_framed H (b_ids _ (i_books _ Iv3)) F. exact (frame_inv _ _ F Iv3).
Qed.

(** ** Withdrawing *)

Lemma HasAnyPosition_spec k pid :
  Books k -> existsb (fun e : Z * Z => e.1 =? pid) (elements (k_poolPosition k)) = false -> ~ in_pool k pid.
Proof.
  intros Bk H (id & q & Hq & Eq).
  assert (In : (pid, id) ∈ k_poolPosition k) by (apply (b_byPool _ Bk); eauto).
  apply elem_of_elements, list_elem_of_In in In.
  assert (existsb (fun e : Z * Z => e.1 =? pid) (elements (k_poolPosition k)) = true); [|congruence].
  apply existsb_exists. exists (pid, id). split; [exact In | apply Z.eqb_refl].
Qed.

Lemma uninitializePool_books k k' a pid :
  Books k -> ~ in_pool k pid -> uninitializePool pid k = (Ok a, k') ->
  Books k' /\ k_positions k' = k_positions k /\ (forall key, liq_at k' key = liq_at k key).
Proof.
  intros Bk N H. unfold uninitializePool, getPoolById in H. inv_m H. destruct (k_pools k !! pid) as [p|] eqn:Hp; [|discriminate].
  injection E as <- <-. inv_m H. injection E as <- <-. case_if_in H; [discriminate|].
  pose proof (setPool_rest _ _ _ _ H) as (R1 & _ & _ & _ & R5). split; [|auto].
  pose proof (b_pools _ Bk _ _ Hp) as [I1 I2 I3 I4 I5].
  apply (set_pool_books k k' a pid p (SetCurrentTick (SetCurrentSqrtPrice p ZeroBigDec) 0)); auto; cbn.
  - exact (b_ids _ Bk _ _ Hp).
  - split; vm_compute; discriminate.
  - rewrite I4. now rewrite !no_positions_active.
  - discriminate.
Qed.

Lemma removeWholePosition_books bt owner id position pool q k a k' :
  Books k -> k_positions k !! id = Some q -> Liquidity q = 0 -> PositionAddress q = owner ->
  PoolId q = PoolId position -> Id pool = PoolId position ->
  removeWholePosition bt owner id position pool k = (Ok a, k') ->
  Books k' /\ k_positions k' = delete id (k_positions k) /\ (forall key, liq_at k' key = liq_at k key).
Proof.
  intros Bk Hq L0 Ho Hp Hi H. unfold removeWholePosition in H. inv_m H.
  pose proof (framed_collectSpreadRewards _ _ _ _ _ _ (b_ids _ Bk) I E) as F. clear E.
  apply (frame_books _ _ F) in Bk. inv_m H. rewrite <- Ho, <- Hp in E.
  rewrite <- (fr_positions _ _ (fr_rest _ _ F)) in Hq.
  apply (delete_books _ _ _ _ _ Bk Hq L0) in E as (Bk1 & K & Ps). rewrite (fr_positions _ _ (fr_rest _ _ F)) in Ps.
  assert (T : forall key, liq_at s0 key = liq_at k key) by (intros; rewrite (kp_ticks _ _ K); apply (fr_ticks _ _ F)).
  inv_m H. injection E as <- <-. rewrite <- Hp in H. rewrite Hi, <- Hp in H.
  destruct (existsb _ _) eqn:Ex in H; cbn [negb] in H; [inv_m H; now subst|].
  inv_m H. apply uninitializePool_books in E as (Bk2 & Ps2 & T2); [|exact Bk1 | exact (HasAnyPosition_spec _ _ Bk1 Ex)].
  assert (F3 : frame s1 k') by (refine (framed_modify always _ _ _ _ _ (b_ids _ Bk2) I H); intros []; split; [split|]; reflexivity).
  split; [exact (frame_books _ _ F3 Bk2)|]. rewrite (fr_positions _ _ (fr_rest _ _ F3)), Ps2. split; [exact Ps|].
  intros key. now rewrite (fr_ticks _ _ F3), T2.
Qed.

(** Removing the bounds of a range that are empty. *)
Lemma when_remove_books (b : bool) k k' a pid t :
  Books k -> is_uint64 pid -> is_int64 t -> (b = true -> default (0, 0) (liq_at k (KeyTick pid t)) = (0, 0)) ->
  when b (RemoveTickInfo pid t) k = (Ok a, k') ->
  Books k' /\ k_positions k' = k_positions k /\
  (forall key, liq_at k' key = if b then (if decide (key = KeyTick pid t) then None else liq_at k key) else liq_at k key).
Proof.
  intros Bk Ip It Hb H. destruct b; cbn [when] in H.
  - apply remove_tick_books in H as (Bk' & T & Ps); auto.
  - injection H as _ <-. auto.
Qed.

(** The flags say whether the bounds are left empty. *)
Lemma updated_flags k k' pid owner lo hi dl jt id p d :
  KeyTick pid lo <> KeyTick pid hi -> updated k k' pid owner lo hi dl jt id p d ->
  exists l h, liq_at k' (KeyTick pid lo) = Some l /\ liq_at k' (KeyTick pid hi) = Some h /\
    (LowerTickIsEmpty d = true <-> l = (0, 0)) /\ (UpperTickIsEmpty d = true <-> h = (0, 0)).
Proof.
  intros N U. pose proof (u_ticks _ _ _ _ _ _ _ _ _ _ _ U) as T.
  rewrite (u_lower_empty _ _ _ _ _ _ _ _ _ _ _ U), (u_upper_empty _ _ _ _ _ _ _ _ _ _ _ U), !T.
  rewrite (decide_False (P := KeyTick pid lo = KeyTick pid hi)) by exact N. rewrite !decide_True by reflexivity.
  destruct (default (0, 0) (liq_at k (KeyTick pid lo))) as [g n], (default (0, 0) (liq_at k (KeyTick pid hi))) as [g' n'].
  eexists _, _. split; [reflexivity|]. split; [reflexivity|].
  split; (split; [intros H; b2p; f_equal; lia | intros [= -> ->]; reflexivity]).
Qed.

(** The end of a withdrawal: the position is gone or still holds liquidity,
    and empty bounds are removed. *)
Lemma withdrawn_inv k k4 k5 k6 k7 pid owner lo hi dl jt id p d a5 a6 :
  Inv k -> k_pools k !! pid = Some p -> usable (TickSpacing p) lo -> usable (TickSpacing p) hi -> lo < hi ->
  updated k k4 pid owner lo hi dl jt id p d ->
  Books k5 -> (forall key, liq_at k5 key = liq_at k4 key) ->
  (forall f, null f -> msum f (k_positions k5) = msum f (k_positions k4)) ->
  (forall i q, k_positions k5 !! i = Some q -> 0 < Liquidity q) ->
  when (LowerTickIsEmpty d) (RemoveTickInfo pid lo) k5 = (Ok a5, k6) ->
  when (UpperTickIsEmpty d) (RemoveTickInfo pid hi) k6 = (Ok a6, k7) ->
  Inv k7.
Proof.
  intros Iv Hp Ul Uh L U Bk5 T5 Sm Pos R1 R2.
  pose proof (pb_id _ _ _ (b_pools _ (i_books _ Iv) _ _ Hp)) as Ip.
  pose proof (usable_int64 _ _ Ul) as Il. pose proof (usable_int64 _ _ Uh) as Ih.
  assert (N : KeyTick pid lo <> KeyTick pid hi) by (apply tick_key_ne; auto; right; lia).
  destruct (updated_flags _ _ _ _ _ _ _ _ _ _ _ N U) as (ll & hh & El & Eh & Fl & Fh).
  apply when_remove_books in R1 as (Bk6 & P6 & T6); auto; [|intros B1; rewrite T5, El; cbn; now apply Fl].
  assert (Kh : liq_at k6 (KeyTick pid hi) = Some hh).
  { rewrite T6, T5, Eh. destruct (LowerTickIsEmpty d); [now rewrite decide_False by congruence | reflexivity]. }
  apply when_remove_books in R2 as (Bk7 & P7 & T7); auto; [|intros B1; rewrite Kh; cbn; now apply Fh].
  split; [exact Bk7 | rewrite P7, P6; exact Pos|].
  intros pid' t Ip' It Hk. rewrite P7, P6, Sm by auto with books.
  assert (Live : forall t', is_int64 t' -> liq_at k7 (KeyTick pid' t') = liq_at k4 (KeyTick pid' t') ->
    liq_at k4 (KeyTick pid' t') <> Some (0, 0) -> is_Some (liq_at k4 (KeyTick pid' t')) ->
    0 < msum (gross_at pid' t') (k_positions k4)).
  { intros t' It' E4 NZ [[g n] Es]. pose proof (b_ticks _ Bk7 pid' t' Ip' It') as D. rewrite E4, Es in D. cbn in D.
    unfold sums_at in D. rewrite P7, P6, !Sm in D by auto with books. injection D as -> ->.
    pose proof (sums_bounds k7 pid' t' Bk7) as [G1 G2]. rewrite P7, P6 in G1, G2.
    rewrite (Sm (gross_at pid' t')) in G1, G2 by auto with books. rewrite (Sm (net_at pid' t')) in G2 by auto with books.
    destruct (Z.eq_dec (msum (gross_at pid' t') (k_positions k4)) 0) as [Z0 |]; [|lia].
    exfalso. apply NZ. rewrite Es, Z0. rewrite Z0 in G2. assert (Z1 : msum (net_at pid' t') (k_positions k4) = 0) by lia. now rewrite Z1. }
  destruct (decide (pid' = pid /\ (t = lo \/ t = hi))) as [[-> D] | D].
  - destruct D as [-> | ->].
    + destruct (LowerTickIsEmpty d) eqn:B1.
      { exfalso. rewrite T7 in Hk. rewrite (decide_False (P := KeyTick pid lo = KeyTick pid hi)) in Hk by exact N.
        rewrite T6, decide_True in Hk by reflexivity. destruct (UpperTickIsEmpty d); now apply is_Some_None in Hk. }
      assert (E7 : liq_at k7 (KeyTick pid lo) = liq_at k4 (KeyTick pid lo)).
      { rewrite T7, T6, T5. destruct (UpperTickIsEmpty d); [now rewrite decide_False by congruence | reflexivity]. }
      apply (Live lo Il E7); [|rewrite <- E7; exact Hk]. rewrite El. intros E. apply (inj Some), Fl in E. congruence.
    + destruct (UpperTickIsEmpty d) eqn:B1.
      { exfalso. rewrite T7, decide_True in Hk by reflexivity. now apply is_Some_None in Hk. }
      assert (E7 : liq_at k7 (KeyTick pid hi) = liq_at k4 (KeyTick pid hi)) by (rewrite T7, Kh; congruence).
      apply (Live hi Ih E7); [|rewrite <- E7; exact Hk]. rewrite Eh. intros E. apply (inj Some), Fh in E. congruence.
  - assert (E7 : liq_at k7 (KeyTick pid' t) = liq_at k4 (KeyTick pid' t)).
    { rewrite T7, T6, T5.
      assert (A : KeyTick pid' t <> KeyTick pid lo /\ KeyTick pid' t <> KeyTick pid hi)
        by (split; intros E; apply KeyTick_inj in E as [-> ->]; auto; apply D; auto).
      destruct A. destruct (UpperTickIsEmpty d), (LowerTickIsEmpty d); rewrite ?decide_False by assumption; reflexivity. }
    rewrite E7 in Hk. apply (updated_other k k4 pid owner lo hi dl jt id p d pid' t Iv Hp Ul Uh U Ip' It); [|exact Hk].
    destruct (Z.eq_dec pid' pid); [right | now left]. split; intros ->; apply D; auto.
Qed.

Lemma WithdrawPosition_inv bt owner id req k r k' :
  Inv k -> WithdrawPosition bt owner id req k = (Ok r, k') -> Inv k'.
Proof.
  intros Iv H. unfold WithdrawPosition in H. inv_m H. unfold GetPosition in E.
  destruct (k_positions k !! id) as [q|] eqn:Hq; [|discriminate]. injection E as <- <-.
  destruct (String.eqb_spec owner (PositionAddress q)) as [Ho|]; cbn [negb] in H; [|discriminate].
  case_if_in H; [discriminate|]. inv_m H. destruct v as [active lk].
  pose proof (framed_lockUpdate _ _ _ _ _ (b_ids _ (i_books _ Iv)) I E) as F. clear E.
  apply (frame_inv _ _ F) in Iv. rewrite <- (fr_positions _ _ (fr_rest _ _ F)) in Hq. clear F k. rename s into k.
  destruct active; [discriminate|]. inv_m H. unfold getPoolById in E.
  destruct (k_pools k !! PoolId q) as [p|] eqn:Hp; [|discriminate]. injection E as <- <-.
  pose proof (b_ids _ (i_books _ Iv) _ _ Hp) as Hi. case_if_in H; [discriminate|].
  inv_m H. pose proof (framed_external always _ _ _ _ (b_ids _ (i_books _ Iv)) I E) as F1. clear E.
  pose proof (frame_inv _ _ F1 Iv) as Iv1. inv_m H. destruct v0 as [[collected forf] byUp].
  pose proof (framed_collectIncentives _ _ _ _ _ _ (b_ids _ (i_books _ Iv1)) I E) as F2. clear E.
  pose proof (frame_inv _ _ F2 Iv1) as Iv2. pose proof (transitivity F1 F2) as F. clear F1 F2 Iv Iv1.
  assert (Hq2 : k_positions s0 !! id = Some q) by (rewrite (fr_positions _ _ (fr_rest _ _ F)); exact Hq).
  destruct (b_positions _ (i_books _ Iv2) _ _ Hq2) as [Q1 Q2 Q3 (p2 & Hp2 & HP & Ul & Uh)].
  pose proof (pb_id _ _ _ (b_pools _ (i_books _ Iv2) _ _ Hp2)) as Ip.
  inv_m H. apply UpdatePosition_inv in E as (p3 & Hp3 & U);
    [|apply (i_books _ Iv2)
     |apply tick_key_ne; auto; [exact (usable_int64 _ _ Ul) | exact (usable_int64 _ _ Uh) | right; lia]].
  rewrite Hp2 in Hp3. injection Hp3 as <-.
  assert (Bk4 : Books s1).
  { apply (updated_books s0 s1 _ _ _ _ _ _ _ _ _ (i_books _ Iv2) Hp2 Ul Uh Q3 HP U).
    exact (b_next _ (i_books _ Iv2) _ _ Hq2). }
  inv_m H. pose proof (framed_send _ _ _ _ _ _ _ _ _ (b_ids _ Bk4) I E) as F1. clear E.
  pose proof (frame_books _ _ F1 Bk4) as Bk5. inv_m H.
  pose proof (framed_redepositForfeitedIncentives _ _ _ _ _ _ _ (b_ids _ Bk5) I E) as F2. clear E.
  pose proof (frame_books _ _ F2 Bk5) as Bk6. pose proof (transitivity F1 F2) as F3. clear F1 F2 Bk5.
  inv_m H. rename E into Ew. inv_m H. rename E into El. inv_m H. rename E into Eh.
  set (q' := mk_position id (PoolId q) owner (LowerTick q) (UpperTick q) (JoinTime q) (Liquidity q + - req)).
  assert (P4 : k_positions s1 = <[id := q']> (k_positions s0)).
  { rewrite (u_positions _ _ _ _ _ _ _ _ _ _ _ U). unfold old_liquidity. now rewrite Hq2. }
  pose proof (fr_positions _ _ (fr_rest _ _ F3)) as P6.
  assert (Iv7 : Inv s6).
  { destruct (Z.eqb_spec req (Liquidity q)) as [-> | Ne]; cbn [when] in Ew.
    - apply (removeWholePosition_books _ _ _ _ _ q') in Ew as (Bk7 & P7 & T7); auto;
        [|rewrite P6, P4; apply lookup_insert_eq | cbn; lia].
      refine (withdrawn_inv s0 s1 s4 s5 s6 _ _ _ _ _ _ _ _ _ _ _ Iv2 Hp2 Ul Uh Q3 U Bk7 _ _ _ El Eh).
      + intros key. rewrite T7. apply (fr_ticks _ _ F3).
      + intros f Nf. rewrite P7, P6, (msum_delete f _ id q'); [|rewrite P4; apply lookup_insert_eq].
        rewrite (Nf q'); [lia | cbn; lia].
      + intros i x Hx. rewrite P7, P6, P4 in Hx. apply lookup_delete_Some in Hx as [N Hx].
        rewrite lookup_insert_ne in Hx by congruence. exact (i_positive _ Iv2 _ _ Hx).
    - injection Ew as _ <-.
      refine (withdrawn_inv s0 s1 s3 s5 s6 _ _ _ _ _ _ _ _ _ _ _ Iv2 Hp2 Ul Uh Q3 U Bk6 _ _ _ El Eh).
      + exact (fr_ticks _ _ F3).
      + intros f _. now rewrite P6.
      + intros i x Hx. rewrite P6, P4 in Hx. apply lookup_insert_Some in Hx as [[<- <-] | [_ Hx]];
          [|exact (i_positive _ Iv2 _ _ Hx)].
        cbn. b2p. lia. }
  rest_framed H (b_ids _ (i_books _ Iv7)) G. exact (frame_inv _ _ G Iv7).
Qed.

Lemma addToPosition_inv bt owner id a0 a1 m0 m1 k r k' :
  Inv k -> addToPosition bt owner id a0 a1 m0 m1 k = (Ok r, k') -> Inv k'.
Proof.
  intros Iv H. unfold addToPosition in H. inv_m H.
  pose proof (framed_GetPosition _ _ _ _ (b_ids _ (i_books _ Iv)) I E) as F. apply (frame_inv _ _ F) in Iv. clear F E.
  repeat (case_if_in H; [discriminate|]). inv_m H. destruct v0 as [active lk].
  pose proof (framed_lockUpdate _ _ _ _ _ (b_ids _ (i_books _ Iv)) I E) as F. apply (frame_inv _ _ F) in Iv. clear F E.
  destruct active; [discriminate|]. inv_m H. destruct v0 as [w0 w1]. apply WithdrawPosition_inv in E; [|exact Iv].
  inv_m H. assert (E1 : s2 = s1).
  { unfold GetConcentratedPoolById, getPoolById in E0. destruct (k_pools s1 !! PoolId v); congruence. }
  subst s2. case_if_in H; [discriminate|].
  repeat (inv_m H; lazymatch goal with G : lift _ _ = (Ok _, _) |- _ => inv_m G; subst end).
  inv_m H. apply CreatePosition_inv in E1; [|exact E]. inv_m H. now subst.
Qed.

Lemma CreateFullRangePosition_inv bt pid owner coins k r k' :
  Inv k -> CreateFullRangePosition bt pid owner coins k = (Ok r, k') -> Inv k'.
Proof.
  intros Iv H. unfold CreateFullRangePosition in H. case_if_in H; [discriminate|]. inv_m H.
  assert (E1 : s = k) by (unfold GetConcentratedPoolById, getPoolById in E; destruct (k_pools k !! pid); congruence).
  subst s. repeat (case_if_in H; [discriminate|]). inv_m H. apply CreatePosition_inv in E0; [|exact Iv]. inv_m H. now subst.
Qed.

Lemma CreateFullRangePositionLocked_inv bt pid owner coins dur k r k' :
  Inv k ->
  CreateFullRangePositionLocked bt pid owner coins dur k = (Ok r, k') \/
  CreateFullRangePositionUnlocking bt pid owner coins dur k = (Ok r, k') -> Inv k'.
Proof.
  intros Iv [H | H]; [unfold CreateFullRangePositionLocked in H | unfold CreateFullRangePositionUnlocking in H];
    inv_m H; apply CreateFullRangePosition_inv in E; auto; rest_framed H (b_ids _ (i_books _ E)) F;
    exact (frame_inv _ _ F E).
Qed.

End Liquidity.
