(* ===== verification/CLSwapBooks.v ===== *)
(** * Concentrated liquidity: swaps keep the books

    A swap of [SwapExactAmountIn] or [SwapExactAmountOut] walks the initialized
    ticks.  Its loop keeps the liquidity equal to the sum of the positions that
    are active at the tick it has reached, and that tick aligned with the
    price; crossing a tick adds its net liquidity, and between two initialized
    ticks no position starts or ends.  So every step trades against exactly the
    positions whose range contains it. *)

From stdpp Require Import base gmap strings pretty.
From Stdlib Require Import ZArith Lia List Bool Sorted.
From S2P Require Import Prelude GoBig BigInt BigDec MonoSqrt SdkMath CLMath CLTick Store CLKeys SwapStrategy SwapStep MapSum GoState DecCoins Accum CLDirection CLState CLPool CLUptime CLRewards CLSwap CLSwapCorrect CLPosition CLFrame CLBooks CLLiquidity.
Import ListNotations.

(** The limits of the two entry points are the ends of the tick range. *)
Definition end_price (zfo : bool) : Z := if zfo then 10 ^ 30 else 10 ^ 55.

Lemma entry_limit zfo : GetSqrtPriceLimit (GetPriceLimit zfo) zfo = Ok (end_price zfo).
Proof. destruct zfo; vm_compute; reflexivity. Qed.

(** Ticks of an iterator in the direction of the swap: at or below the current
    one, or above it. *)
Definition onward (zfo : bool) (cur t : Z) : Prop := if zfo then t <= cur else cur < t.

Lemma sorted_weaken {A} (R R' : A -> A -> Prop) l :
  (forall x y, R x y -> R' x y) -> StronglySorted R l -> StronglySorted R' l.
Proof. intros H. induction 1 as [|x l _ IH F]; constructor; [exact IH|]. revert F. apply Forall_impl. auto. Qed.

Section Loop.
Context {S : SdkMath} {SS : SdkMathSpec S} {B : BigEndian} {BS : BigEndianSpec B} {C : DecCoinsOps}
  {EK : ExternalKeepers C} {KT : KVStore TickInfo} {KS : KVStoreSpec KT} {KA : KVStore StoreValue}.

(** The state the swap starts from and its pool. *)
Context (kb : Keeper) (pid sp : Z).
Hypothesis Bk : Books kb.
Hypothesis Hpid : is_uint64 pid.
Hypothesis Hsp : forall p, k_pools kb !! pid = Some p -> TickSpacing p = sp.

Definition act (t : Z) : Z := msum (active_at pid t) (k_positions kb).
Definition net (t : Z) : Z := msum (net_at pid t) (k_positions kb).

(** The tick and the price are on the same side of every usable tick. *)
Definition al (t price : Z) : Prop :=
  forall b, usable sp b -> (b <= t -> tick_sqrt_price b <= price) /\ (t < b -> price <= tick_sqrt_price b).

Lemma act_step t : act t = act (t - 1) + net t.
Proof using Bk. apply msum_plus. intros id q Hq. apply active_step. apply (b_positions _ Bk _ _ Hq). Qed.

Lemma act_nonneg t : 0 <= act t.
Proof using Bk.
  apply msum_nonneg. intros id q Hq. pose proof (qb_liquidity _ _ _ (b_positions _ Bk _ _ Hq)).
  unfold active_at. case_if; lia.
Qed.

Lemma act_const a c : a <= c -> (forall b, a < b <= c -> net b = 0) -> act c = act a.
Proof using Bk.
  intros L. replace c with (a + Z.of_nat (Z.to_nat (c - a))) by lia. generalize (Z.to_nat (c - a)) as n. clear L c.
  induction n as [|n IH]; intros H; [now rewrite Z.add_0_r|].
  rewrite act_step. rewrite (H (a + Z.of_nat (Datatypes.S n))) by lia.
  replace (a + Z.of_nat (Datatypes.S n) - 1) with (a + Z.of_nat n) by lia. rewrite IH; [lia|].
  intros b Hb. apply H. lia.
Qed.

Lemma not_stored_net t : is_int64 t -> liq_at kb (KeyTick pid t) = None -> net t = 0.
Proof using Bk Hpid.
  intros It E. pose proof (b_ticks _ Bk pid t Hpid It) as D. rewrite E in D. cbn in D. unfold sums_at in D.
  unfold net. congruence.
Qed.

Lemma stored_net t i : is_int64 t -> liq_at kb (KeyTick pid t) = Some (liq_of i) -> net t = LiquidityNet i.
Proof using Bk Hpid.
  intros It E. pose proof (b_ticks _ Bk pid t Hpid It) as D. rewrite E in D. cbn in D. unfold sums_at, liq_of in D.
  unfold net. congruence.
Qed.

Lemma stored_usable t : is_int64 t -> is_Some (liq_at kb (KeyTick pid t)) -> usable sp t.
Proof using Bk BS Hpid Hsp.
  intros It H. destruct (b_keys _ Bk pid (TickIndexToBytes t) Hpid H) as (u & p & E & Hp & U).
  apply TickIndexToBytes_inj in E; [|assumption | exact (usable_int64 _ _ U)]. rewrite <- (Hsp p Hp). now subst.
Qed.

Lemma prices_mono t u : usable sp t -> usable sp u -> t <= u -> tick_sqrt_price t <= tick_sqrt_price u.
Proof using Type.
  intros [Rt _] [Ru _] L. assert (MinInitializedTickV2 < MinInitializedTick) by reflexivity. apply tick_sqrt_price_le; lia.
Qed.

(** What an iterator holds: the stored ticks ahead, in order. *)
Record iter_ok (zfo : bool) (cur : Z) (ts : list (Z * TickInfo)) : Prop := {
  it_sorted : StronglySorted (fun x y => onward zfo (x.1 - (if zfo then 1 else 0)) y.1) ts;
  it_stored t i : In (t, i) ts -> is_int64 t /\ onward zfo cur t /\ liq_at kb (KeyTick pid t) = Some (liq_of i);
  it_all t : is_int64 t -> onward zfo cur t -> is_Some (liq_at kb (KeyTick pid t)) -> exists i, In (t, i) ts
}.

Lemma iter_head zfo cur t i ts :
  iter_ok zfo cur ((t, i) :: ts) ->
  usable sp t /\ onward zfo cur t /\ net t = LiquidityNet i /\ liq_at kb (KeyTick pid t) = Some (liq_of i).
Proof using Bk BS Hpid Hsp.
  intros H. destruct (it_stored _ _ _ H t i (or_introl eq_refl)) as (It & O & E).
  split; [apply stored_usable; [assumption | rewrite E; eauto]|]. split; [exact O|]. split; [now apply stored_net | exact E].
Qed.

(** Nothing is stored between the current tick and the next one. *)
Lemma iter_gap zfo cur t i ts b :
  iter_ok zfo cur ((t, i) :: ts) -> is_int64 b ->
  (if zfo then t < b <= cur else cur < b < t) -> liq_at kb (KeyTick pid b) = None.
Proof using Type.
  intros H Ib Hb. destruct (liq_at kb (KeyTick pid b)) eqn:E; [exfalso | reflexivity].
  destruct (it_all _ _ _ H b Ib) as (j & [[= -> _] | In]); [destruct zfo; cbn; lia | rewrite E; eauto | destruct zfo; lia|].
  pose proof (it_sorted _ _ _ H) as Srt. inversion Srt as [|? ? _ F]; subst. rewrite Forall_forall in F.
  specialize (F _ In). destruct zfo; cbn in F; lia.
Qed.

(** The tick after crossing [t]. *)
Definition crossed (zfo : bool) (t : Z) : Z := if zfo then t - 1 else t.

Lemma iter_next zfo cur t i ts : iter_ok zfo cur ((t, i) :: ts) -> iter_ok zfo (crossed zfo t) ts.
Proof using Type.
  intros H. destruct (it_stored _ _ _ H t i (or_introl eq_refl)) as (_ & O & _).
  pose proof (it_sorted _ _ _ H) as Srt. inversion Srt as [|? ? Srt' F]; subst. rewrite Forall_forall in F. split.
  - exact Srt'.
  - intros u j In. destruct (it_stored _ _ _ H u j (or_intror In)) as (Iu & _ & E). split; [exact Iu|]. split; [|exact E].
    specialize (F _ In). destruct zfo; cbn in *; lia.
  - intros u Iu Ou Hs. destruct (it_all _ _ _ H u Iu) as (j & [[= -> _] | In]); auto.
    + destruct zfo; cbn in *; lia.
    + destruct zfo; cbn in *; lia.
    + eauto.
Qed.

(** Crossing: the net liquidity takes the sum to the other side. *)
Lemma cross_act zfo cur t i ts :
  iter_ok zfo cur ((t, i) :: ts) -> is_int64 cur ->
  act cur + (if zfo then - LiquidityNet i else LiquidityNet i) = act (crossed zfo t).
Proof using Bk BS Hpid Hsp.
  intros H Ic. destruct (iter_head _ _ _ _ _ H) as (U & O & N & _). pose proof (usable_int64 _ _ U) as It.
  pose proof (act_step t) as St. rewrite N in St. destruct zfo; cbn [onward crossed] in *.
  - rewrite (act_const t cur O); [lia|]. intros b Hb. apply not_stored_net; [unfold is_int64 in *; lia|].
    apply (iter_gap true cur t i ts); auto. unfold is_int64 in *; lia.
  - rewrite <- (act_const cur (t - 1)); [lia..|]. intros b Hb. apply not_stored_net; [unfold is_int64 in *; lia|].
    apply (iter_gap false cur t i ts); auto; [unfold is_int64 in *; lia | lia].
Qed.

Lemma cross_al zfo t : usable sp t -> al (crossed zfo t) (tick_sqrt_price t).
Proof using Type.
  intros U b Ub. split; intros L; apply prices_mono; auto; destruct zfo; cbn in L; lia.
Qed.

(** Following the price inside a bucket: no usable tick lies between the old
    tick and the new one on the far side of the next initialized tick. *)
Definition short_of (zfo : bool) (price t : Z) : Prop :=
  if zfo then tick_sqrt_price t < price else price < tick_sqrt_price t.

Lemma bucket_facts zfo cur price t i ts price' T :
  iter_ok zfo cur ((t, i) :: ts) -> al cur price -> moves zfo price price' -> short_of zfo price' t ->
  CalculateSqrtPriceToTick price' = Ok T ->
  MinInitializedTickV2 <= T <= MaxTick /\ 0 < price' /\ onward zfo T t /\ al T price' /\
  (forall b, usable sp b -> (if zfo then cur < b <= T -> price <= price' else T < b <= cur -> price' < price)).
Proof using Bk BS Hpid Hsp.
  intros H A Mv Sh E. destruct (iter_head _ _ _ _ _ H) as (U & _ & _ & _).
  apply CalculateSqrtPriceToTick_sound in E as (R & Lo & Up).
  assert (V2 : MinInitializedTickV2 < MinCurrentTick - 1) by reflexivity.
  assert (V3 : MinInitializedTickV2 < MinInitializedTick) by reflexivity.
  pose proof (tick_sqrt_price_pos T ltac:(lia)) as Pos.
  assert (Fwd : forall b, usable sp b -> b <= T -> tick_sqrt_price b <= price').
  { intros b [Rb _] L. pose proof (tick_sqrt_price_le b T ltac:(lia) ltac:(lia)). lia. }
  assert (Bwd : forall b, usable sp b -> T < b -> price' < tick_sqrt_price b).
  { intros b [Rb _] L. pose proof (tick_sqrt_price_le (T + 1) b ltac:(lia) ltac:(lia)). specialize (Up ltac:(lia)). lia. }
  split; [lia|]. split; [lia|]. split; [|split].
  - unfold short_of, onward in *. destruct zfo.
    + destruct (Z_le_gt_dec t T); [assumption|]. pose proof (Bwd t U ltac:(lia)). lia.
    + destruct (Z_lt_ge_dec T t); [assumption|]. pose proof (Fwd t U ltac:(lia)). lia.
  - intros b Ub. split; intros L; [now apply Fwd | pose proof (Bwd b Ub L); lia].
  - intros b Ub. destruct zfo; intros L.
    + pose proof (proj2 (A b Ub) ltac:(lia)). pose proof (Fwd b Ub ltac:(lia)). lia.
    + pose proof (proj1 (A b Ub) ltac:(lia)). pose proof (Bwd b Ub ltac:(lia)). lia.
Qed.

(** A step that moved the price keeps the bucket. *)
Lemma bucket_gap zfo cur price t i ts price' T b :
  iter_ok zfo cur ((t, i) :: ts) -> al cur price -> moves zfo price price' -> short_of zfo price' t ->
  price' <> price -> CalculateSqrtPriceToTick price' = Ok T -> is_int64 cur -> is_int64 b ->
  Z.min T cur < b <= Z.max T cur -> liq_at kb (KeyTick pid b) = None.
Proof using Bk BS Hpid Hsp.
  intros H A Mv Sh Ne E Ic Ib Hb. destruct (bucket_facts _ _ _ _ _ _ _ _ H A Mv Sh E) as (R & _ & O & _ & F).
  destruct (liq_at kb (KeyTick pid b)) eqn:Eb; [|reflexivity].
  assert (Ub : usable sp b) by (apply stored_usable; [assumption | rewrite Eb; eauto]).
  specialize (F b Ub). rewrite <- Eb. unfold moves, short_of, onward in *.
  destruct (iter_head _ _ _ _ _ H) as (U & O' & _ & _). destruct (tick_sqrt_price_range t (proj1 U)) as [P30 _].
  destruct zfo; cbn [onward] in O'.
  - apply (iter_gap true cur t i ts); auto. destruct (Z_lt_ge_dec cur b); [|lia].
    exfalso. specialize (F ltac:(lia)). lia.
  - apply (iter_gap false cur t i ts); auto. destruct (Z_lt_ge_dec cur b); [lia|].
    exfalso. specialize (F ltac:(lia)). destruct Mv as [M1|]; [|lia].
    apply CalculateSqrtPriceToTick_sound in E as (_ & Lo & _).
    pose proof (tick_sqrt_price_le MinInitializedTickV2 T ltac:(lia) ltac:(lia)) as L.
    assert (1 < tick_sqrt_price MinInitializedTickV2) by (vm_compute; reflexivity). lia.
Qed.

Lemma bucket_act zfo cur price t i ts price' T :
  iter_ok zfo cur ((t, i) :: ts) -> al cur price -> moves zfo price price' -> short_of zfo price' t ->
  price' <> price -> CalculateSqrtPriceToTick price' = Ok T -> is_int64 cur -> act T = act cur.
Proof using Bk BS Hpid Hsp.
  intros H A Mv Sh Ne E Ic. destruct (bucket_facts _ _ _ _ _ _ _ _ H A Mv Sh E) as (R & _).
  assert (IT : is_int64 T) by (unfold is_int64, MinInitializedTickV2, MaxTick in *; lia).
  assert (G : forall b, Z.min T cur < b <= Z.max T cur -> net b = 0).
  { intros b Hb. assert (Ib : is_int64 b) by (unfold is_int64 in *; lia).
    apply not_stored_net; [exact Ib|]. exact (bucket_gap _ _ _ _ _ _ _ _ _ H A Mv Sh Ne E Ic Ib Hb). }
  destruct (Z_le_gt_dec T cur); [symmetry|]; apply act_const; try lia; intros b Hb; apply G; lia.
Qed.

Lemma bucket_iter zfo cur price t i ts price' T :
  iter_ok zfo cur ((t, i) :: ts) -> al cur price -> moves zfo price price' -> short_of zfo price' t ->
  price' <> price -> CalculateSqrtPriceToTick price' = Ok T -> is_int64 cur -> iter_ok zfo T ((t, i) :: ts).
Proof using Bk BS Hpid Hsp.
  intros H A Mv Sh Ne E Ic. destruct (bucket_facts _ _ _ _ _ _ _ _ H A Mv Sh E) as (R & _ & O & _).
  split; [apply H|..].
  - intros u j In. destruct (it_stored _ _ _ H u j In) as (Iu & Ou & Eu). split; [exact Iu|]. split; [|exact Eu].
    destruct In as [[= <- <-] | In]; [exact O|]. pose proof (it_sorted _ _ _ H) as Srt.
    inversion Srt as [|? ? _ F]; subst. rewrite Forall_forall in F. specialize (F _ In). destruct zfo; cbn in *; lia.
  - intros u Iu Ou Hs. apply (it_all _ _ _ H u Iu); [|exact Hs].
    destruct (Z_lt_ge_dec cur u) as [L | G]; unfold onward in *; destruct zfo; try lia; exfalso;
      rewrite (bucket_gap _ _ _ _ _ _ _ _ u H A Mv Sh Ne E Ic Iu ltac:(lia)) in Hs; now apply is_Some_None in Hs.
Qed.

(** ** The loop *)

(** What holds at the head of the loop. *)
Record LI (zfo : bool) (st : SwapState) (p : Pool) (iter : tickIter) (k : Keeper) : Prop := {
  li_frame : frame kb k;
  li_stored : stored p k;
  li_id : Id p = pid;
  li_liquidity : liquidity st = act (tick st);
  li_aligned : al (tick st) (sqrtPrice st);
  li_price : 0 < sqrtPrice st;
  li_tick : MinInitializedTickV2 <= tick st <= MaxTick;
  li_iter : exists ts, iter = map enc ts /\ iter_ok zfo (tick st) ts
}.

Lemma li_ids zfo st p iter k : LI zfo st p iter k -> ids_ok k.
Proof using Bk. intros H. exact (frame_rest_ids _ _ (fr_rest _ _ (li_frame _ _ _ _ _ H)) (b_ids _ Bk)). Qed.

Lemma li_int64 zfo st p iter k : LI zfo st p iter k -> is_int64 (tick st).
Proof using Type. intros H. pose proof (li_tick _ _ _ _ _ H). unfold is_int64, MinInitializedTickV2, MaxTick in *. lia. Qed.

(** The next tick, its price and the target of a step. *)
Lemma next_target zfo spf st p iter k t price tgt :
  LI zfo st p iter k ->
  iteratorToNextInitializedTickSqrtPriceTarget iter (New zfo (end_price zfo) spf) = Ok (t, price, tgt) ->
  price = tick_sqrt_price t /\ tgt = price /\ ahead zfo (sqrtPrice st) tgt /\
  exists i ts, iter = map enc ((t, i) :: ts) /\ iter_ok zfo (tick st) ((t, i) :: ts).
Proof using Bk BS Hpid Hsp.
  intros L H. destruct (li_iter _ _ _ _ _ L) as (ts & -> & It).
  unfold iteratorToNextInitializedTickSqrtPriceTarget in H. destruct ts as [|[u i] ts]; [discriminate|].
  destruct (iter_head _ _ _ _ _ It) as (U & O & _ & _). cbn [map enc fst snd] in H.
  rewrite (TickIndexFromToBytes u (usable_int64 _ _ U)), bind_ok in H.
  assert (V : MinInitializedTickV2 < MinInitializedTick) by reflexivity. pose proof (proj1 U) as RU.
  rewrite TickToSqrtPrice_ok in H by lia. apply Ok_inj in H. injection H as <- <- <-.
  pose proof (tick_sqrt_price_range u RU) as P. pose proof (li_aligned _ _ _ _ _ L u U) as [A1 A2].
  pose proof (li_price _ _ _ _ _ L).
  assert (T : GetSqrtTargetPrice (New zfo (end_price zfo) spf) (tick_sqrt_price u) = tick_sqrt_price u).
  { destruct zfo; cbn [New GetSqrtTargetPrice zeroForOneStrategy oneForZeroStrategy];
      unfold zfo_GetSqrtTargetPrice, ofz_GetSqrtTargetPrice, LT, GT, fresh; cbn [sqrtPriceLimit end_price].
    - destruct (Z.ltb_spec (tick_sqrt_price u) (10 ^ 30)); [lia | reflexivity].
    - destruct (Z.gtb_spec (tick_sqrt_price u) (10 ^ 55)); [lia | reflexivity]. }
  rewrite T. split; [reflexivity|]. split; [reflexivity|]. split; [|eauto].
  unfold ahead, onward in *. destruct zfo; [specialize (A1 O) | specialize (A2 O)]; lia.
Qed.

(** Crossing in the store only rewrites growth. *)
Lemma crossForSwap_frame bt p t i acc d g k p' k' :
  ids_ok k -> stored p k -> liq_at k (KeyTick (Id p) t) = Some (liq_of i) ->
  crossForSwap bt p t i acc d g k = (Ok p', k') -> frame k k' /\ undated p' = undated p.
Proof using KS.
  intros Ids St L H. unfold crossForSwap in H. inv_m H.
  pose proof (framed_GetUptimeAccumulators _ _ _ _ Ids I E) as F1. clear E. inv_m H. destruct v0 as [p1 accs].
  apply updateGiven_frame in E as [F2 U];
    [|exact (frame_rest_ids _ _ (fr_rest _ _ F1) Ids) | exact (stored_stable p _ _ F1 St)].
  pose proof (transitivity F1 F2) as F. destruct acc as [acc|]; [|discriminate]. inv_m H. inv_m H. subst p' k'.
  split; [|exact U]. refine (transitivity F _). unfold crossTick in E. rewrite (undated_Id _ _ U) in E.
  rewrite <- (fr_ticks _ _ F) in L. clear - E L KS. inv_ok. unfold SetTickInfo, modify in E. inv_ok.
  lazymatch goal with |- frame ?x _ => destruct x end.
  split; [split; reflexivity|]. intros key. unfold liq_at in *. cbn [CLState.set_ticks CLState.k_ticks] in *.
  destruct (decide (key = KeyTick (Id p) t)) as [-> | N]; [rewrite get_set_eq, L; reflexivity | now rewrite get_set_ne by congruence].
Qed.

Lemma afterStep_li bt upd zfo spf acc d iter t start p st st0 k st' p' iter' k' :
  LI zfo st0 p iter k -> start = sqrtPrice st0 -> tick st = tick st0 -> liquidity st = liquidity st0 ->
  moves zfo (sqrtPrice st0) (sqrtPrice st) ->
  (exists i ts, iter = map enc ((t, i) :: ts) /\ iter_ok zfo (tick st0) ((t, i) :: ts)) ->
  afterStep bt upd (New zfo (end_price zfo) spf) acc d iter t (tick_sqrt_price t) start p st k = (Ok (st', p', iter'), k') ->
  LI zfo st' p' iter' k'.
Proof using Bk BS Hpid Hsp KS SS.
  intros L -> Et El Mv (i & ts & -> & It) H. destruct (iter_head _ _ _ _ _ It) as (U & O & _ & Lq).
  pose proof (li_ids _ _ _ _ _ L) as Ids. pose proof (li_int64 _ _ _ _ _ L) as Ic.
  assert (V : MinInitializedTickV2 < MinInitializedTick) by reflexivity. pose proof (proj1 U) as RU.
  destruct L as [F St Hi Hl Al Pr Rt _]. unfold afterStep, Equal in H. case_if_in H.
  - b2p. unfold swapCrossTickLogic in H. cbn [map enc fst snd] in H. inv_m H.
    assert (X : frame k s /\ undated v = undated p).
    { destruct upd; [|injection E as <- <-; split; reflexivity]. apply crossForSwap_frame in E; auto.
      now rewrite Hi, (fr_ticks _ _ F). }
    clear E. destruct X as [F1 Un]. inv_ok. dec_exact.
    assert (Cr : UpdateTickAfterCrossing (New zfo (end_price zfo) spf) t = crossed zfo t).
    { destruct zfo; [|reflexivity]. cbn [New UpdateTickAfterCrossing zeroForOneStrategy crossed].
      apply int64_id. unfold MinInitializedTick, MaxTick in RU. lia. }
    rewrite Cr.
    assert (Lc : liquidity st + SetLiquidityDeltaSign (New zfo (end_price zfo) spf) (LiquidityNet i) = act (crossed zfo t)).
    { rewrite El, Hl, <- (cross_act zfo (tick st0) t i ts It Ic). destruct zfo; reflexivity. }
    split; cbn [moved tick liquidity sqrtPrice].
    + exact (transitivity F F1).
    + unfold stored. rewrite (undated_Id _ _ Un), Un. exact (stored_stable p _ _ F1 St).
    + rewrite (undated_Id _ _ Un). exact Hi.
    + exact Lc.
    + rewrite <- C0. now apply cross_al.
    + rewrite <- C0. apply tick_sqrt_price_pos. lia.
    + destruct zfo; cbn [crossed]; lia.
    + exists ts. split; [reflexivity | exact (iter_next _ _ _ _ _ It)].
  - assert (Sh : edgeCaseInequalityBasedOnSwapStrategy zfo (tick_sqrt_price t) (sqrtPrice st) = false -> short_of zfo (sqrtPrice st) t).
    { unfold edgeCaseInequalityBasedOnSwapStrategy, short_of, GT, LT. destruct zfo; intros; b2p; lia. }
    replace (ZeroForOne (New zfo (end_price zfo) spf)) with zfo in H by (now destruct zfo).
    case_if_in H; [discriminate|]. specialize (Sh eq_refl). destruct (Z.eqb_spec (sqrtPrice st0) (sqrtPrice st)) as [Ep | Np]; cbn [negb] in H.
    + inv_ok. split; auto; rewrite ?El, ?Et, <- ?Ep; auto. exists ((t, i) :: ts). auto.
    + inv_ok. lazymatch goal with E : CalculateSqrtPriceToTick _ = Ok ?x |- _ => rename x into T, E into ET end.
      apply not_eq_sym in Np.
      destruct (bucket_facts _ _ _ _ _ _ _ _ It Al Mv Sh ET) as (R & P0 & _ & A' & _).
      split; cbn [moved tick liquidity sqrtPrice]; auto.
      * rewrite El, Hl. symmetry. exact (bucket_act _ _ _ _ _ _ _ _ It Al Mv Sh Np ET Ic).
      * exists ((t, i) :: ts). split; [reflexivity | exact (bucket_iter _ _ _ _ _ _ _ _ It Al Mv Sh Np ET Ic)].
Qed.

(** A step of either loop is followed by the same code: only the direction of
    the price it computes matters. *)
Definition step_kept (zfo : bool) (step : LoopState -> M Keeper LoopState) : Prop :=
  forall st p iter n k st' p' iter' n' k',
    LI zfo st p iter k -> continues (end_price zfo) st = true ->
    step (st, p, iter, n) k = (Ok (st', p', iter', n'), k') -> LI zfo st' p' iter' k'.

Lemma growth_state (upd : bool) {A} (r : Res A) (a : A) (k : Keeper) b k' :
  (if upd then lift r else ret a) k = (Ok b, k') -> k' = k.
Proof using Type. destruct upd; intros H; [unfold lift in H | unfold ret in H]; injection H; auto. Qed.

Lemma continues_enough zfo st : continues (end_price zfo) st = true -> 2 <= amountSpecifiedRemaining st.
Proof using Type. unfold continues, SmallestDec. intros H. b2p. lia. Qed.

Lemma li_nonneg zfo st p iter k : LI zfo st p iter k -> 0 <= liquidity st.
Proof using Bk. intros L. rewrite (li_liquidity _ _ _ _ _ L). apply act_nonneg. Qed.

(** What is left of a step once its price is known to move ahead. *)
Ltac finish_step L Mv Ex upd :=
  lazymatch goal with G : (if upd then _ else _) _ = _ |- _ =>
    let Gk := fresh in let Gt := fresh in let Gl := fresh in
    pose proof (growth_state _ _ _ _ _ _ G) as Gk; apply growth_step_inv in G as (_ & _ & _ & Gt & Gl); subst;
    lazymatch goal with A : afterStep _ _ _ _ _ _ _ _ _ _ _ _ = _ |- _ =>
      refine (afterStep_li _ _ _ _ _ _ _ _ _ _ _ _ _ _ _ _ _ L eq_refl _ _ _ Ex A); [exact Gt | exact Gl | exact Mv] end end.

Lemma out_step_kept bt upd zfo spf acc f d :
  0 <= spf <= 5 * 10 ^ 17 -> step_kept zfo (outGivenInStep bt upd (New zfo (end_price zfo) spf) acc f d).
Proof using Bk BS Hpid Hsp KS SS.
  intros Hs st p iter n k st' p' iter' n' k' L C0 H. apply continues_enough in C0.
  pose proof (li_nonneg _ _ _ _ _ L) as Hl. unfold outGivenInStep in H. inv_ok.
  lazymatch goal with T : iteratorToNextInitializedTickSqrtPriceTarget _ _ = Ok _ |- _ =>
    destruct (next_target _ _ _ _ _ _ _ _ _ L T) as (-> & -> & Ah & Ex) end.
  lazymatch goal with X : ComputeSwapWithinBucketOutGivenIn _ _ _ _ _ = Ok _ |- _ =>
    apply (exact_in_moves _ spf Hs zfo _ _ _ _ _ Ah Hl C0) in X; cbn [fst] in X; rename X into Mv end.
  finish_step L Mv Ex upd.
Qed.

Lemma in_step_kept bt upd zfo spf acc f d :
  step_kept zfo (inGivenOutStep bt upd (New zfo (end_price zfo) spf) acc f d).
Proof using Bk BS Hpid Hsp KS SS.
  intros st p iter n k st' p' iter' n' k' L C0 H. apply continues_enough in C0.
  pose proof (li_nonneg _ _ _ _ _ L) as Hl. unfold inGivenOutStep in H. inv_ok.
  lazymatch goal with T : iteratorToNextInitializedTickSqrtPriceTarget _ _ = Ok _ |- _ =>
    destruct (next_target _ _ _ _ _ _ _ _ _ L T) as (-> & -> & Ah & Ex) end.
  lazymatch goal with X : ComputeSwapWithinBucketInGivenOut _ _ _ _ _ = Ok _ |- _ =>
    apply (exact_out_moves _ spf zfo _ _ _ _ _ Ah Hl C0) in X; cbn [fst] in X; rename X into Mv end.
  finish_step L Mv Ex upd.
Qed.

Lemma loop_kept zfo step fuel : step_kept zfo step -> forall st p iter n k st' k',
  LI zfo st p iter k -> swapLoop step (end_price zfo) fuel (st, p, iter, n) k = Some (Ok st', k') ->
  exists p' iter', LI zfo st' p' iter' k'.
Proof using Type.
  intros Hst. induction fuel as [|fuel IH]; intros st p iter n k st' k' L H; cbn [swapLoop fst] in H;
    destruct (continues (end_price zfo) st) eqn:C0; try discriminate; try (injection H as <- <-; eauto).
  destruct (step _ k) as [[[[[st1 p1] iter1] n1]| |] k1] eqn:E; try discriminate.
  exact (IH _ _ _ _ _ _ _ (Hst _ _ _ _ _ _ _ _ _ _ L C0 E) H).
Qed.

(** ** The positions a step trades against *)

(** The liquidity of a position of the pool whose prices span [lo] to [hi]. *)
Definition spanning (lo hi : Z) (q : Position) : Z :=
  if (PoolId q =? pid) && ((tick_sqrt_price (LowerTick q) <=? lo) && (hi <=? tick_sqrt_price (UpperTick q))) then Liquidity q else 0.

(** A step that moves the price trades against the liquidity of exactly the
    positions that span it. *)
Definition backed (s : swapStep) : Prop :=
  sw_from s <> sw_to s ->
  sw_liq s = msum (spanning (Z.min (sw_from s) (sw_to s)) (Z.max (sw_from s) (sw_to s))) (k_positions kb).

Definition toward (zfo : bool) (s : swapStep) : Prop := if zfo then sw_to s <= sw_from s else sw_from s <= sw_to s.

Hypothesis Positive : forall id q, k_positions kb !! id = Some q -> 0 < Liquidity q.

(** The bounds of a position are stored. *)
Lemma bound_stored id q b : k_positions kb !! id = Some q -> PoolId q = pid -> b = LowerTick q \/ b = UpperTick q ->
  usable sp b /\ is_Some (liq_at kb (KeyTick pid b)).
Proof using Bk Hpid Hsp Positive.
  intros Hq Hi Hb. destruct (b_positions _ Bk _ _ Hq) as [_ _ _ (p & Hp & _ & U1 & U2)]. rewrite Hi in Hp. rewrite (Hsp p Hp) in U1, U2.
  assert (U : usable sp b) by (destruct Hb as [-> | ->]; assumption). split; [exact U|].
  pose proof (b_ticks _ Bk pid b Hpid (usable_int64 _ _ U)) as D. destruct (liq_at kb (KeyTick pid b)) as [x|]; [eauto|]. exfalso.
  apply (f_equal fst) in D. cbn in D.
  assert (G : forall n r, k_positions kb !! n = Some r -> 0 <= gross_at pid b r)
    by (intros n r Hr; pose proof (Positive n r Hr); unfold gross_at; repeat case_if; lia).
  pose proof (msum_member (gross_at pid b) _ _ _ G Hq) as M. pose proof (Positive id q Hq) as P. unfold gross_at in M at 1.
  rewrite Hi, Z.eqb_refl in M. destruct (Z.eqb_spec (LowerTick q) b), (Z.eqb_spec (UpperTick q) b); lia.
Qed.

(** No bound lies strictly inside a step that stops at the next tick at the
    latest. *)
Lemma bound_outside zfo cur price t i ts price' id q b :
  iter_ok zfo cur ((t, i) :: ts) -> al cur price -> (if zfo then price' <= price else price <= price') ->
  (if zfo then tick_sqrt_price t <= price' else price' <= tick_sqrt_price t) ->
  k_positions kb !! id = Some q -> PoolId q = pid -> b = LowerTick q \/ b = UpperTick q ->
  (b <= cur -> tick_sqrt_price b <= Z.min price price') /\ (cur < b -> Z.max price price' <= tick_sqrt_price b).
Proof using Bk BS Hpid Hsp Positive.
  intros It A Mv Sh Hq Hi Hb. destruct (bound_stored id q b Hq Hi Hb) as [U Hs]. destruct (A b U) as [A1 A2].
  assert (On : onward zfo cur b -> if zfo then b <= t else t <= b).
  { intros O. destruct (it_all _ _ _ It b (usable_int64 _ _ U) O Hs) as (j & [E | In]); [injection E as -> _; destruct zfo; lia|].
    pose proof (it_sorted _ _ _ It) as Srt. inversion Srt as [|? ? _ F]; subst. rewrite Forall_forall in F. specialize (F _ In). destruct zfo; cbn in *; lia. }
  destruct (iter_head _ _ _ _ _ It) as (Ut & _). destruct zfo; cbn [onward] in *; split; intros L.
  - pose proof (prices_mono b t U Ut (On L)). specialize (A1 L). lia.
  - specialize (A2 L). lia.
  - specialize (A1 L). lia.
  - pose proof (prices_mono t b Ut U (On L)). specialize (A2 L). lia.
Qed.

Lemma active_spans zfo cur price t i ts price' :
  iter_ok zfo cur ((t, i) :: ts) -> al cur price -> (if zfo then price' <= price else price <= price') ->
  (if zfo then tick_sqrt_price t <= price' else price' <= tick_sqrt_price t) -> price <> price' ->
  act cur = msum (spanning (Z.min price price') (Z.max price price')) (k_positions kb).
Proof using Bk BS Hpid Hsp Positive.
  intros It A Mv Sh Ne. apply msum_ext. intros id q Hq. unfold active_at, spanning.
  destruct (Z.eqb_spec (PoolId q) pid) as [Hi|]; [|reflexivity]. cbn [andb].
  pose proof (bound_outside _ _ _ _ _ _ _ _ _ _ It A Mv Sh Hq Hi (or_introl eq_refl)) as [L1 L2].
  pose proof (bound_outside _ _ _ _ _ _ _ _ _ _ It A Mv Sh Hq Hi (or_intror eq_refl)) as [U1 U2].
  destruct (Z.leb_spec (LowerTick q) cur), (Z.ltb_spec cur (UpperTick q)), (Z.leb_spec (tick_sqrt_price (LowerTick q)) (Z.min price price')),
    (Z.leb_spec (Z.max price price') (tick_sqrt_price (UpperTick q))); cbn [andb]; try reflexivity; lia.
Qed.

(** A step stops at the next tick or before it. *)
Lemma afterStep_short bt upd zfo limit spf acc d iter t pt start p st k st' p' iter' k' :
  afterStep bt upd (New zfo limit spf) acc d iter t pt start p st k = (Ok (st', p', iter'), k') ->
  if zfo then pt <= sqrtPrice st else sqrtPrice st <= pt.
Proof using Type.
  unfold afterStep, Equal. intros H. case_if_in H; [b2p; destruct zfo; lia|].
  replace (ZeroForOne (New zfo limit spf)) with zfo in H by (now destruct zfo).
  destruct (edgeCaseInequalityBasedOnSwapStrategy zfo pt (sqrtPrice st)) eqn:E; [discriminate|].
  unfold edgeCaseInequalityBasedOnSwapStrategy, GT, LT in E. destruct zfo; b2p; lia.
Qed.

Lemma out_step_backed bt upd zfo spf acc f d st p iter n k st' p' iter' n' k' s :
  0 <= spf <= 5 * 10 ^ 17 -> LI zfo st p iter k -> continues (end_price zfo) st = true ->
  outGivenInStep bt upd (New zfo (end_price zfo) spf) acc f d (st, p, iter, n) k = (Ok (st', p', iter', n'), k') ->
  sw_from s = sqrtPrice st -> sw_to s = sqrtPrice st' -> sw_liq s = liquidity st -> toward zfo s /\ backed s.
Proof using Bk BS Hpid Hsp KS SS Positive.
  intros Hs L C0 H Ef Et El. apply continues_enough in C0. pose proof (li_nonneg _ _ _ _ _ L) as Hl. unfold outGivenInStep in H. inv_ok.
  lazymatch goal with T : iteratorToNextInitializedTickSqrtPriceTarget _ _ = Ok _ |- _ =>
    destruct (next_target _ _ _ _ _ _ _ _ _ L T) as (-> & -> & Ah & (i & ts & -> & It)) end.
  lazymatch goal with X : ComputeSwapWithinBucketOutGivenIn _ _ _ _ _ = Ok _ |- _ =>
    apply (exact_in_toward _ spf Hs zfo _ _ _ _ _ _ _ _ Ah Hl C0) in X; rename X into Mv end.
  lazymatch goal with A : afterStep _ _ _ _ _ _ _ _ _ _ _ _ = _ |- _ =>
    pose proof (afterStep_short _ _ _ _ _ _ _ _ _ _ _ _ _ _ _ _ _ _ A) as Sh; apply afterStep_inv in A as (P & _) end.
  cbn [stepped sqrtPrice] in P, Sh. rewrite P in Et. unfold toward, backed. rewrite Ef, Et, El.
  split; [exact Mv|]. intros Ne. rewrite (li_liquidity _ _ _ _ _ L).
  exact (active_spans _ _ _ _ _ _ _ It (li_aligned _ _ _ _ _ L) Mv Sh Ne).
Qed.

(** The loop as a path of steps. *)
Lemma out_loop_trace bt upd zfo spf acc f d fuel : 0 <= spf <= 5 * 10 ^ 17 -> forall st p iter n k st' k',
  LI zfo st p iter k ->
  swapLoop (outGivenInStep bt upd (New zfo (end_price zfo) spf) acc f d) (end_price zfo) fuel (st, p, iter, n) k = Some (Ok st', k') ->
  exists tr, chain (sqrtPrice st) tr (sqrtPrice st') /\ Forall (fun s => fair zfo spf s /\ toward zfo s /\ backed s) tr /\
    amountSpecifiedRemaining st' = amountSpecifiedRemaining st - total_in tr /\
    amountCalculated st' = amountCalculated st + total_out tr /\ continues (end_price zfo) st' = false.
Proof using Bk BS Hpid Hsp KS SS Positive.
  intros Hs. induction fuel as [|fuel IH]; intros st p iter n k st' k' L H; cbn [swapLoop fst] in H;
    destruct (continues (end_price zfo) st) eqn:C0; try discriminate;
    try (injection H as <- <-; exists []; cbn; repeat split; auto; lia).
  destruct (outGivenInStep _ _ _ _ _ _ _ k) as [[[[[st1 p1] iter1] n1]| |] k1] eqn:E; try discriminate.
  assert (Pe : 0 < end_price zfo) by (destruct zfo; reflexivity).
  destruct (outGivenInStep_iteration _ spf Hs Pe _ _ _ _ _ _ _ _ _ _ _ _ _ _ _ _ C0 (li_price _ _ _ _ _ L) (li_nonneg _ _ _ _ _ L) E)
    as (s & F & Es & Et & R & A & _ & _ & El).
  destruct (out_step_backed _ _ _ _ _ _ _ _ _ _ _ _ _ _ _ _ _ s Hs L C0 E Es Et El) as [Tw Bd].
  destruct (IH _ _ _ _ _ _ _ (out_step_kept _ _ _ _ _ _ _ Hs _ _ _ _ _ _ _ _ _ _ L C0 E) H) as (tr & Ch & Fr & R' & A' & C1).
  exists (s :: tr). cbn [chain]. rewrite Et. split; [auto|]. split; [constructor; auto|].
  unfold total_in, total_out, zsum in *. cbn [map fold_right]. split; [lia|]. split; [lia | exact C1].
Qed.

(** ** The start *)

Lemma ticks_wf_kb : ticks_wf (k_ticks kb) pid.
Proof using Bk Hpid KS.
  intros key v H. rewrite st_get_prefix in H.
  destruct (b_keys _ Bk pid key Hpid) as (t & q & E & _ & U); [unfold liq_at; rewrite H; eexists; reflexivity|].
  exists t. split; [exact (usable_int64 _ _ U) | exact E].
Qed.

Lemma initial_iter zfo limit spf cur iter :
  MinInitializedTickV2 <= cur <= MaxTick ->
  InitializeNextTickIterator (New zfo limit spf) (k_ticks kb) pid cur = Ok iter ->
  exists ts, iter = map enc ts /\ iter_ok zfo cur ts.
Proof using Bk BS Hpid KS.
  intros Hc H. assert (Rc : - 2 ^ 63 <= cur < 2 ^ 63 - 1) by (unfold MinInitializedTickV2, MaxTick in Hc; lia).
  assert (Get : forall t i, st_get (k_ticks kb) (KeyTick pid t) = Some i -> liq_at kb (KeyTick pid t) = Some (liq_of i))
    by (intros t i G; unfold liq_at; now rewrite G).
  assert (Back : forall t, is_Some (liq_at kb (KeyTick pid t)) -> exists i, st_get (k_ticks kb) (KeyTick pid t) = Some i)
    by (intros t [x G]; unfold liq_at in G; apply fmap_Some in G as (i & G & _); eauto).
  unfold InitializeNextTickIterator in H. destruct zfo; cbn [New ZeroForOne zeroForOneStrategy oneForZeroStrategy] in H.
  - destruct (left_ticks (k_ticks kb) pid cur ticks_wf_kb Rc) as (ts & E & Srt & Mem & F).
    rewrite E in H. apply Ok_inj in H as <-. exists ts. split; [reflexivity|]. rewrite Forall_forall in F. split.
    + refine (sorted_weaken _ _ _ _ Srt). unfold tick_lt, onward. intros; lia.
    + intros t i In. pose proof (F _ In) as It. apply Mem in In as [G L]; [|exact It]. auto.
    + intros t It O Hs. destruct (Back t Hs) as (i & G). exists i. apply Mem; auto.
  - destruct (right_ticks (k_ticks kb) pid cur ticks_wf_kb ltac:(lia)) as (ts & E & Srt & Mem & F).
    rewrite E in H. apply Ok_inj in H as <-. exists ts. split; [reflexivity|]. rewrite Forall_forall in F. split.
    + refine (sorted_weaken _ _ _ _ Srt). unfold tick_lt, onward. intros; lia.
    + intros t i In. pose proof (F _ In) as It. apply Mem in In as [G L]; [|exact It]. auto.
    + intros t It O Hs. destruct (Back t Hs) as (i & G). exists i. apply Mem; auto.
Qed.


End Loop.

(** ** Whole swaps *)

Section Swaps.
Context {S : SdkMath} {SS : SdkMathSpec S} {B : BigEndian} {BS : BigEndianSpec B} {C : DecCoinsOps}
  {EK : ExternalKeepers C} {KT : KVStore TickInfo} {KS : KVStoreSpec KT} {KA : KVStore StoreValue}.

(** The result of a computed swap fits the books of the pool. *)
Record fits (k : Keeper) (pid : Z) (p : Pool) (upd : PoolUpdates) : Prop := {
  ft_tick : MinInitializedTickV2 <= NewCurrentTick upd <= MaxTick;
  ft_liquidity : NewLiquidity upd = msum (active_at pid (NewCurrentTick upd)) (k_positions k);
  ft_price : 0 < NewSqrtPrice upd;
  ft_aligned b : usable (TickSpacing p) b ->
    (b <= NewCurrentTick upd -> tick_sqrt_price b <= NewSqrtPrice upd) /\
    (NewCurrentTick upd < b -> NewSqrtPrice upd <= tick_sqrt_price b)
}.

Lemma swapSetup_position poolId inD outD upd p acc (k k' : Keeper) :
  swapSetup poolId inD outD upd k = (Ok (p, acc), k') -> PoolHasPosition p = true.
Proof using Type.
  unfold swapSetup, getPoolForSwap. intros H. inv_m H. inv_m E. case_if_in E; [discriminate|]. b2p. inv_m E. subst.
  inv_m H. destruct upd; inv_m H; [inv_m H|]; congruence.
Qed.

Lemma framed_addSpreadRewards upd acc d g : framed (addSpreadRewards upd acc d g).
Proof using Type. unfold addSpreadRewards. frame_auto. Qed.

(** The loop starts within its invariant. *)
Lemma start_kept inD outD n spf upd strategy limit f acc ls k k' pid p :
  Books k -> k_pools k !! pid = Some p ->
  let zfo := getZeroForOne inD (Token0 p) in
  swapStart pid inD outD n spf (GetPriceLimit zfo) upd k = (Ok (strategy, limit, f, acc, ls), k') ->
  k' = k /\ limit = end_price zfo /\ strategy = New zfo limit spf /\
  exists st iter, ls = (st, p, iter, 0%nat) /\ LI k pid (TickSpacing p) zfo st p iter k.
Proof using SS BS KS.
  intros Bk Hp zfo H. pose proof (pb_id _ _ _ (b_pools _ Bk _ _ Hp)) as Ip.
  assert (HP : PoolHasPosition p = true).
  { unfold swapStart in H. inv_m H. destruct v as [p' acc']. pose proof (swapSetup_position _ _ _ _ _ _ _ _ E).
    apply swapSetup_inv in E as [_ E]. congruence. }
  apply swapStart_inv in H as (p' & iter & st & -> & Ep & -> & E1 & E2 & E3).
  rewrite Hp in Ep. injection Ep as <-. unfold setupSwapStrategy in E1. fold zfo in E1. rewrite entry_limit in E1.
  inv_bind E1. apply Ok_inj in E1. injection E1 as <- <-. split; [reflexivity|]. split; [reflexivity|].
  split; [reflexivity|]. exists st, iter. split; [reflexivity|]. apply newSwapState_inv in E2 as ->.
  destruct (b_pools _ Bk _ _ Hp) as [_ Sp Tk Lq Al]. destruct (Al HP) as [Pos Sep].
  split; cbn [sqrtPrice tick liquidity]; auto.
  - reflexivity.
  - unfold stored, pool_at. now rewrite (b_ids _ Bk _ _ Hp), Hp.
  - exact (b_ids _ Bk _ _ Hp).
  - intros b [Rb Db]. now apply Sep.
  - exact (initial_iter k pid Bk Ip zfo _ _ _ _ Tk E3).
Qed.

Lemma li_fits k pid sp zfo st p p' iter k' upd :
  LI k pid sp zfo st p' iter k' -> TickSpacing p = sp ->
  upd = {| NewCurrentTick := tick st; NewLiquidity := liquidity st; NewSqrtPrice := sqrtPrice st |} ->
  fits k pid p upd.
Proof using Type. intros [] <- ->. split; cbn; auto. Qed.

Lemma compute_out_fits bt fuel inD n outD spf k res upd k' pid p :
  Books k -> k_pools k !! pid = Some p -> 0 <= spf <= 5 * 10 ^ 17 ->
  computeOutAmtGivenIn bt fuel pid inD n outD spf (GetPriceLimit (getZeroForOne inD (Token0 p))) true k =
    (Ok (res, upd), k') -> frame k k' /\ fits k pid p upd.
Proof using SS BS KS.
  intros Bk Hp Hs H. pose proof (pb_id _ _ _ (b_pools _ Bk _ _ Hp)) as Ip. unfold computeOutAmtGivenIn in H.
  inv_m H. destruct v as [[[[strategy limit] f] acc] ls].
  apply (start_kept _ _ _ _ _ _ _ _ _ _ _ _ _ _ Bk Hp) in E as (-> & -> & -> & st & iter & -> & L).
  inv_m H. unfold finished in E. destruct (swapLoop _ _ _ _ _) as [[[st'| |] k1]|] eqn:Lp; try discriminate.
  injection E as <- <-.
  eapply (loop_kept k pid (TickSpacing p)) in Lp as (p' & iter' & L'); [|apply out_step_kept; auto; congruence | exact L].
  case_if_in H; [discriminate|]. inv_m H.
  pose proof (framed_addSpreadRewards _ _ _ _ _ _ _ (li_ids k pid (TickSpacing p) Bk _ _ _ _ _ L') I E) as F.
  inv_ok. split; [exact (transitivity (li_frame _ _ _ _ _ _ _ _ L') F) | exact (li_fits _ _ _ _ _ _ _ _ _ _ L' eq_refl eq_refl)].
Qed.

Lemma totals_nonneg zfo spf (P : swapStep -> Prop) tr : Forall (fun s => fair zfo spf s /\ P s) tr -> 0 <= total_in tr /\ 0 <= total_out tr.
Proof using Type.
  unfold total_in, total_out, zsum. induction 1 as [|x tr [Fs _] _ IH]; cbn; [lia|].
  destruct Fs as (_ & _ & _ & _ & F1 & F2 & F3 & _). lia.
Qed.

(** C2: a swap of exact tokens in (a spread factor of at most one half, the
    price limit of the entry points), computed with or without updating
    accumulators, from a state whose books balance.  It is a path of steps from
    the pool's square-root price to the new one, all in the direction of the
    swap.  The liquidity of a step that moves the price is the sum of the
    liquidity of exactly the positions whose price range spans the step.  Every
    step takes the curve's exact amount for that liquidity, rounded up to
    whole tokens (up to half of the last of 36 decimals for token 1), gives the
    exact amount rounded down, and charges a non-negative spread reward, zero
    without a spread factor.  The amount in of the result is the sum taken and
    charged, rounded up, and the amount out the sum given, rounded down.  Either
    all tokens specified are taken, or fewer and the price is at its limit. *)
Theorem swap_trades_against_positions (bt : Z) (fuel : nat) (k k' : Keeper) (p : Pool) (pid n : Z)
    (inD outD : string) (spf : Z) (updAccums : bool) (res : SwapResult) (upd : PoolUpdates) :
  Inv k -> k_pools k !! pid = Some p -> 0 <= spf <= 5 * 10 ^ 17 ->
  let zfo := getZeroForOne inD (Token0 p) in
  computeOutAmtGivenIn bt fuel pid inD n outD spf (GetPriceLimit zfo) updAccums k = (Ok (res, upd), k') ->
  exists tr,
    chain (CurrentSqrtPrice p) tr (NewSqrtPrice upd) /\
    Forall (fun s => fair zfo spf s /\ toward zfo s /\ backed k pid s) tr /\
    AmountIn res = cdiv (total_in tr) OneDec /\ AmountOut res = total_out tr / OneDec /\
    0 <= AmountIn res <= n /\ (AmountIn res = n \/ NewSqrtPrice upd = end_price zfo).
Proof using SS BS KS.
  intros Iv Hp Hs zfo H. pose proof (i_books _ Iv) as Bk. pose proof (pb_id _ _ _ (b_pools _ Bk _ _ Hp)) as Ip.
  unfold computeOutAmtGivenIn in H. inv_m H. destruct v as [[[[strategy limit] f] acc] ls]. pose proof E as Es.
  apply (start_kept _ _ _ _ _ _ _ _ _ _ _ _ _ _ Bk Hp) in E as (-> & -> & -> & st & iter & -> & L).
  apply swapStart_inv in Es as (p' & iter' & st0 & _ & Ep & El & _ & E2 & _).
  assert (st0 = st) as -> by (injection El; auto). clear El. rewrite Hp in Ep. injection Ep as <-. apply newSwapState_inv in E2 as ->.
  inv_m H. unfold finished in E. destruct (swapLoop _ _ _ _ _) as [[[st'| |] k1]|] eqn:Lp; try discriminate. injection E as <- <-.
  apply (out_loop_trace k pid (TickSpacing p) Bk Ip) in Lp as (tr & Ch & F & R & A & C0); [|congruence | exact (i_positive _ Iv) | exact Hs | exact L].
  destruct (Z.ltb_spec (amountSpecifiedRemaining st') 0); [discriminate|]. inv_ok. dec_exact.
  cbn [NewSqrtPrice AmountIn AmountOut]. cbn [sqrtPrice amountSpecifiedRemaining amountCalculated] in *.
  pose proof (totals_nonneg _ _ _ _ F) as G. exists tr. split; [exact Ch|]. split; [exact F|]. rewrite R, A.
  replace (n * OneDec - (n * OneDec - total_in tr)) with (total_in tr) by ring. rewrite Z.add_0_l.
  rewrite Z.quot_mul by discriminate. rewrite quot_nonneg by (apply G || apply OneDec_pos).
  split; [reflexivity|]. split; [reflexivity|]. pose proof OneDec_pos as O.
  pose proof (cdiv_spec (total_in tr) OneDec O) as D. pose proof (cdiv_nonneg _ _ O (proj1 G)).
  split; [split; [lia | nia]|]. unfold continues, SmallestDec, Equal in C0.
  apply Bool.andb_false_iff in C0 as [C0 | C0]; [left | right; now apply Bool.negb_false_iff, Z.eqb_eq in C0]. rewrite Z.gtb_ltb in C0. apply Z.ltb_ge in C0.
  assert (1 < OneDec) by reflexivity. nia.
Qed.

Lemma compute_in_fits bt fuel inD n outD spf k res upd k' pid p :
  Books k -> k_pools k !! pid = Some p ->
  computeInAmtGivenOut bt fuel pid outD n inD spf (GetPriceLimit (getZeroForOne inD (Token0 p))) true k =
    (Ok (res, upd), k') -> frame k k' /\ fits k pid p upd.
Proof using SS BS KS.
  intros Bk Hp H. pose proof (pb_id _ _ _ (b_pools _ Bk _ _ Hp)) as Ip. unfold computeInAmtGivenOut in H.
  inv_m H. destruct v as [[[[strategy limit] f] acc] ls].
  apply (start_kept _ _ _ _ _ _ _ _ _ _ _ _ _ _ Bk Hp) in E as (-> & -> & -> & st & iter & -> & L).
  inv_m H. unfold finished in E. destruct (swapLoop _ _ _ _ _) as [[[st'| |] k1]|] eqn:Lp; try discriminate.
  injection E as <- <-.
  eapply (loop_kept k pid (TickSpacing p)) in Lp as (p' & iter' & L'); [|apply in_step_kept; auto; congruence | exact L].
  case_if_in H; [discriminate|]. inv_m H.
  pose proof (framed_addSpreadRewards _ _ _ _ _ _ _ (li_ids k pid (TickSpacing p) Bk _ _ _ _ _ L') I E) as F.
  inv_ok. split; [exact (transitivity (li_frame _ _ _ _ _ _ _ _ L') F) | exact (li_fits _ _ _ _ _ _ _ _ _ _ L' eq_refl eq_refl)].
Qed.

Lemma framed_as_error {A} P e (c : M Keeper A) : framed_on P c -> framed_on P (as_error e c).
Proof using Type.
  intros H k a k' Ids HP E. unfold as_error in E. destruct (c k) as [[x| |] k1] eqn:Ec; try discriminate E.
  injection E as <- <-. exact (H _ _ _ Ids HP Ec).
Qed.

(** Writing the result to the pool. *)
Lemma updatePoolForSwap_inv k1 k pid sender inD inA outD outA upd sf p a k' :
  Inv k1 -> frame k1 k -> k_pools k1 !! pid = Some p -> fits k1 pid p upd ->
  updatePoolForSwap pid sender inD inA outD outA upd sf k = (Ok a, k') -> Inv k'.
Proof using SS BS KS.
  intros Iv1 F Hp1 Ft H. pose proof (frame_inv _ _ F Iv1) as Iv. pose proof (i_books _ Iv) as Bk.
  unfold updatePoolForSwap in H. inv_m H. apply getPoolById_inv in E as [-> Hp].
  destruct (pool_at_transfer k1 k pid v (fr_pools _ _ (fr_rest _ _ F) pid) Hp) as (p' & Hp' & Un).
  rewrite Hp1 in Hp'. injection Hp' as <-. pose proof (undated_fields _ _ Un) as (Sp & _ & _ & _).
  do 4 (inv_m H; inv_m E; subst).
  inv_m H. pose proof (framed_as_error always _ _ (framed_external always _) _ _ _ (b_ids _ Bk) I E) as F1. clear E.
  pose proof (frame_inv _ _ F1 Iv) as Iv2. inv_m H.
  assert (F2 : frame s s1).
  { destruct (negb _); [|injection E as _ <-; reflexivity].
    exact (framed_as_error always _ _ (framed_external always _) _ _ _ (b_ids _ (i_books _ Iv2)) I E). }
  clear E. pose proof (frame_inv _ _ F2 Iv2) as Iv3. inv_m H.
  pose proof (framed_as_error always _ _ (framed_external always _) _ _ _ (b_ids _ (i_books _ Iv3)) I E) as F3. clear E.
  pose proof (frame_inv _ _ F3 Iv3) as Iv4. pose proof (transitivity F1 (transitivity F2 F3)) as F4. clear F1 F2 F3 Iv2 Iv3.
  inv_m H. inv_m E. subst s3. unfold ApplySwap in E4. repeat (case_if_in E4; [discriminate|]). apply Ok_inj in E4 as <-.
  pose proof (transitivity F F4) as G. inv_m H.
  destruct (pool_at_transfer s2 s0 pid v (eq_sym (fr_pools _ _ (fr_rest _ _ F4) pid)) Hp) as (q & Hq & Uq).
  pose proof (undated_fields _ _ Uq) as (Sq & _ & _ & _). pose proof (undated_Id _ _ Uq) as Iq.
  pose proof (setPool_rest _ _ _ _ E) as (R1 & _ & _ & _ & R5).
  assert (Bk5 : Books s3).
  { apply (set_pool_books s2 s3 v7 pid q (with_price v (NewLiquidity upd) (NewSqrtPrice upd) (NewCurrentTick upd)));
      cbn [with_price Id TickSpacing CurrentTick CurrentTickLiquidity CurrentSqrtPrice]; auto.
    - apply (i_books _ Iv4).
    - exact (b_ids _ Bk _ _ Hp).
    - apply (ft_tick _ _ _ _ Ft).
    - rewrite (fr_positions _ _ (fr_rest _ _ G)). apply (ft_liquidity _ _ _ _ Ft).
    - intros _. split; [apply (ft_price _ _ _ _ Ft)|]. cbn. intros b Rb Db.
      apply (ft_aligned _ _ _ _ Ft). split; congruence.
    - intros _. unfold PoolHasPosition, IsZero. cbn. pose proof (ft_price _ _ _ _ Ft).
      destruct (Z.eqb_spec (Z.sgn (NewSqrtPrice upd)) 0); [lia | reflexivity]. }
  pose proof (same_inv _ _ Bk5 R1 R5 Iv4) as Iv5. rest_framed H (b_ids _ Bk5) F5. exact (frame_inv _ _ F5 Iv5).
Qed.

(** A swap reports its amounts once the pool is updated. *)
Lemma SwapExactAmountIn_inv bt fuel sender pool inD n outD minOut spf k r k' :
  Inv k -> k_pools k !! Id pool = Some pool -> 0 <= spf <= 5 * 10 ^ 17 ->
  SwapExactAmountIn bt fuel sender pool inD n outD minOut spf k = (Ok r, k') -> Inv k'.
Proof using SS BS KS.
  intros Iv Hp Hs H. unfold SwapExactAmountIn in H. case_if_in H; [discriminate|]. inv_m H.
  pose proof (framed_external always _ _ _ _ (b_ids _ (i_books _ Iv)) I E) as F0.
  assert (Hp0 : k_pools s !! Id pool = Some pool) by (unfold external, zoom in E; destruct (callPoolActionListener _ _ _); injection E as _ <-; now destruct k).
  pose proof (frame_inv _ _ F0 Iv) as Iv0. clear E F0. inv_m H. destruct v0 as [[tin tout] upd].
  assert (Iv1 : Inv s0).
  { unfold swapOutAmtGivenIn in E. inv_m E. destruct v0 as [res upd'].
    apply (compute_out_fits _ _ _ _ _ _ _ _ _ _ _ _ (i_books _ Iv0) Hp0 Hs) in E0 as [F Ft].
    do 2 (inv_m E; lazymatch goal with L : lift _ _ = _ |- _ => inv_m L; subst end). case_if_in E; [discriminate|].
    inv_m E. inv_m E. subst. exact (updatePoolForSwap_inv _ _ _ _ _ _ _ _ _ _ _ _ _ Iv0 F Hp0 Ft E0). }
  clear E. rest_framed H (b_ids _ (i_books _ Iv1)) F. exact (frame_inv _ _ F Iv1).
Qed.

Lemma SwapExactAmountOut_inv bt fuel sender pool inD maxIn outD n spf k r k' :
  Inv k -> k_pools k !! Id pool = Some pool ->
  SwapExactAmountOut bt fuel sender pool inD maxIn outD n spf k = (Ok r, k') -> Inv k'.
Proof using SS BS KS.
  intros Iv Hp H. unfold SwapExactAmountOut in H. case_if_in H; [discriminate|]. inv_m H.
  pose proof (framed_external always _ _ _ _ (b_ids _ (i_books _ Iv)) I E) as F0.
  assert (Hp0 : k_pools s !! Id pool = Some pool) by (unfold external, zoom in E; destruct (callPoolActionListener _ _ _); injection E as _ <-; now destruct k).
  pose proof (frame_inv _ _ F0 Iv) as Iv0. clear E F0. inv_m H. destruct v0 as [[tin tout] upd].
  assert (Iv1 : Inv s0).
  { unfold swapInAmtGivenOut in E. inv_m E. destruct v0 as [res upd'].
    apply (compute_in_fits _ _ _ _ _ _ _ _ _ _ _ _ (i_books _ Iv0) Hp0) in E0 as [F Ft].
    do 2 (inv_m E; lazymatch goal with L : lift _ _ = _ |- _ => inv_m L; subst end). case_if_in E; [discriminate|].
    inv_m E. inv_m E. subst. exact (updatePoolForSwap_inv _ _ _ _ _ _ _ _ _ _ _ _ _ Iv0 F Hp0 Ft E0). }
  clear E. rest_framed H (b_ids _ (i_books _ Iv1)) F. exact (frame_inv _ _ F Iv1).
Qed.

End Swaps.
