(* ===== verification/CLInvariant.v ===== *)
(** * Concentrated liquidity: the invariant of the module

    The operations of the module as the steps of a transition system: its
    states are the keeper's stores, a step is the successful run of an entry
    point (a transaction that fails is rolled back).  In every state that the
    steps reach from an empty module the books balance.  The spacing of a pool may
    only be decreased while the pool's tick is the tick of its price
    ([respaceable]); otherwise new positions may be taken for inactive. *)

From stdpp Require Import base gmap strings pretty.
From Stdlib Require Import ZArith Lia List Bool Sorted.
From S2P Require Import Prelude GoBig BigInt BigDec MonoSqrt SdkMath CLMath CLTick Store CLKeys SwapStrategy SwapStep MapSum GoState DecCoins Accum CLDirection CLState CLPool CLUptime CLRewards CLSwap CLSwapCorrect CLPosition CLFrame CLBooks CLLiquidity CLSwapBooks.
Import ListNotations.

Section Invariant.
Context {S : SdkMath} {SS : SdkMathSpec S} {B : BigEndian} {BS : BigEndianSpec B} {C : DecCoinsOps}
  {EK : ExternalKeepers C} {KT : KVStore TickInfo} {KS : KVStoreSpec KT} {KA : KVStore StoreValue}.

(** ** New pools *)

Lemma no_pool_no_position k pid : Books k -> k_pools k !! pid = None -> ~ in_pool k pid.
Proof.
  intros Bk N (id & q & Hq & <-). destruct (qb_pool _ _ _ (b_positions _ Bk _ _ Hq)) as (p & Hp & _). congruence.
Qed.

Lemma new_pool_books k k' a p :
  Books k -> k_pools k !! Id p = None -> is_uint64 (Id p) -> 0 < TickSpacing p < 2 ^ 62 ->
  CurrentTickLiquidity p = 0 -> CurrentTick p = 0 -> PoolHasPosition p = false ->
  setPool p k = (Ok a, k') -> Books k'.
Proof.
  intros Bk N Ip Hs L0 T0 HP E. pose proof (no_pool_no_position _ _ Bk N) as NP.
  assert (Pn : k_pools k' = <[Id p := p]> (k_pools k)) by (injection E as _ <-; now destruct k).
  assert (Pp : forall pid q, k_pools k !! pid = Some q -> k_pools k' !! pid = Some q).
  { intros pid q Hq. rewrite Pn, lookup_insert_ne; [exact Hq | congruence]. }
  apply setPool_rest in E as (R1 & R2 & R3 & R4 & R5).
  split; unfold sums_at; rewrite ?R1, ?R2, ?R3, ?R4; try apply Bk.
  - intros i q Hq. rewrite Pn in Hq. apply lookup_insert_Some in Hq as [[<- <-] | [_ Hq]]; [reflexivity | exact (b_ids _ Bk _ _ Hq)].
  - intros pid q Hq. rewrite Pn in Hq. apply lookup_insert_Some in Hq as [[<- <-] | [_ Hq]].
    + split; auto; [rewrite T0; split; vm_compute; discriminate | now rewrite R1, L0, no_positions_active | congruence].
    + pose proof (b_pools _ Bk _ _ Hq) as [I1 I2 I3 I4 I5]. split; rewrite ?R1; auto.
  - intros i q Hq. apply (position_books_pools k k' i q); [|exact (b_positions _ Bk _ _ Hq)]. eauto.
  - intros pid t Hpid It. rewrite R5. exact (b_ticks _ Bk pid t Hpid It).
  - intros pid key Hpid Hk. rewrite R5 in Hk. destruct (b_keys _ Bk _ _ Hpid Hk) as (t & q & E1 & Hq & U). eauto 6.
Qed.

Lemma InitializePool_inv bt id d0 d1 sp sf pool creator k a k' :
  Inv k -> k_pools k !! id = None -> is_uint64 id -> 0 < sp < 2 ^ 62 ->
  NewConcentratedLiquidityPool id d0 d1 sp sf = Ok pool ->
  InitializePool bt pool creator k = (Ok a, k') -> Inv k'.
Proof.
  intros Iv N Ip Hs E H. unfold NewConcentratedLiquidityPool in E.
  repeat (case_if_in E; [discriminate|]). apply Ok_inj in E as <-. unfold InitializePool in H.
  inv_m H. injection E as <- <-. inv_m H. injection E as <- <-. inv_m H.
  assert (s = k) as ->. { repeat case_if_in E; inv_m E; congruence. } clear E. cbn [Id] in H.
  inv_m H. pose proof (framed_on_accum_store always _ _ _ _ (b_ids _ (i_books _ Iv)) I E) as F1. clear E.
  pose proof (frame_inv _ _ F1 Iv) as Iv1. inv_m H.
  assert (F2 : frame s s0).
  { refine (framed_for_each always _ _ always_stable _ _ _ _ (b_ids _ (i_books _ Iv1)) I E).
    intros x. apply framed_on_accum_store. }
  clear E. pose proof (frame_inv _ _ F2 Iv1) as Iv2. pose proof (transitivity F1 F2) as F. inv_m H.
  assert (N2 : k_pools s0 !! id = None).
  { pose proof (fr_pools _ _ (fr_rest _ _ F) id) as Q. unfold pool_at in Q. rewrite N in Q. now apply fmap_None in Q. }
  pose proof (setPool_rest _ _ _ _ E) as (R1 & _ & _ & _ & R5).
  apply new_pool_books in E as Bk3; auto; [|apply (i_books _ Iv2)].
  pose proof (same_inv _ _ Bk3 R1 R5 Iv2) as Iv3. rest_framed H (b_ids _ Bk3) F3. exact (frame_inv _ _ F3 Iv3).
Qed.

(** ** A smaller spacing *)

(** The current tick is that of the price.  The tick of a first position is the
    tick of the price rounded down to the spacing; until a swap moves the price,
    usable ticks of a smaller spacing may lie between the two. *)
Definition in_bucket (p : Pool) : Prop :=
  (MinInitializedTick <= CurrentTick p -> tick_sqrt_price (CurrentTick p) <= CurrentSqrtPrice p) /\
  (CurrentTick p < MaxTick -> CurrentSqrtPrice p <= tick_sqrt_price (Z.max (CurrentTick p + 1) MinInitializedTick)).

Lemma in_bucket_aligned p : 0 < CurrentSqrtPrice p -> CurrentTick p <= MaxTick -> in_bucket p -> aligned p.
Proof.
  intros P T [L U]. split; [exact P|]. intros b Rb _. assert (Mn : MinCurrentTick < MinInitializedTick) by reflexivity. split; intros H.
  - apply Z.le_trans with (tick_sqrt_price (CurrentTick p)); [apply tick_sqrt_price_mono | apply L]; lia.
  - apply Z.le_trans with (tick_sqrt_price (Z.max (CurrentTick p + 1) MinInitializedTick)); [apply U | apply tick_sqrt_price_mono]; lia.
Qed.

(** What a decrease of the spacing of [p] to [sp] needs. *)
Definition respaceable (p : Pool) (sp : Z) : Prop := 0 < sp /\ (sp | TickSpacing p) /\ (PoolHasPosition p = true -> in_bucket p).

Lemma pool_read pid k p k' : GetConcentratedPoolById pid k = (Ok p, k') -> k_pools k !! pid = Some p /\ k' = k.
Proof. unfold GetConcentratedPoolById, getPoolById. destruct (k_pools k !! pid) eqn:E; [|discriminate]. intros H. injection H as -> <-. auto. Qed.

Lemma decrease_inv records : forall k a k', Inv k -> List.NoDup (map fst records) ->
  (forall pid sp p, In (pid, sp) records -> k_pools k !! pid = Some p -> respaceable p sp) ->
  DecreaseConcentratedPoolTickSpacing records k = (Ok a, k') -> Inv k'.
Proof.
  induction records as [|[pid sp] records IH]; intros k a k' Iv Nd Ok1 H; [now injection H as _ <-|].
  unfold DecreaseConcentratedPoolTickSpacing in H. cbn [for_each] in H. inv_m H. fold (DecreaseConcentratedPoolTickSpacing records) in H.
  apply NoDup_cons_iff in Nd as [Ni Nd]. pose proof (i_books _ Iv) as Bk. rename E into E1.
  inv_m E1. apply pool_read in E as [Hp ->]. inv_m E1. injection E as _ <-. case_if_in E1; [discriminate|].
  pose proof (b_ids _ Bk _ _ Hp) as Ei. destruct (b_pools _ Bk _ _ Hp) as [Ip Is It Il Ia]. destruct (Ok1 pid sp _ (or_introl eq_refl) Hp) as (P & D & Ib).
  pose proof (setPool_rest _ _ _ _ E1) as (R1 & _ & _ & _ & R5).
  assert (Iv1 : Inv s).
  { refine (same_inv _ _ _ R1 R5 Iv). match type of Hp with _ = Some ?q => rename q into p end.
    apply (respace_books k s v pid p (SetTickSpacing p sp) Bk Hp Ei P D It Il); [|intros In1; apply (in_pool_has_position k pid p Bk Hp In1)|exact E1].
    intros HP. apply in_bucket_aligned; [apply (Ia HP) | apply It | exact (Ib HP)]. }
  apply (IH s a k' Iv1 Nd); [|exact H]. intros pid' sp' p' I Hp'. apply (Ok1 pid' sp' p' (or_intror I)).
  injection E1 as _ <-. destruct k as [ps]; cbn in Hp' |- *. rewrite lookup_insert_ne in Hp'; [exact Hp'|]. intros E2. apply Ni.
  cbn [SetTickSpacing Id] in E2. rewrite Ei in E2. subst pid'. exact (in_map fst _ _ I).
Qed.

(** ** The transition system *)

Inductive cl_step (k k' : Keeper) : Prop :=
| step_create_pool bt id d0 d1 sp sf pool creator a :
    k_pools k !! id = None -> is_uint64 id -> 0 < sp < 2 ^ 62 ->
    NewConcentratedLiquidityPool id d0 d1 sp sf = Ok pool ->
    InitializePool bt pool creator k = (Ok a, k') -> cl_step k k'
| step_create bt pid owner coins m0 m1 lo hi d :
    CreatePosition bt pid owner coins m0 m1 lo hi k = (Ok d, k') -> cl_step k k'
| step_withdraw bt owner id amount r :
    WithdrawPosition bt owner id amount k = (Ok r, k') -> cl_step k k'
| step_add bt owner id a0 a1 m0 m1 r :
    addToPosition bt owner id a0 a1 m0 m1 k = (Ok r, k') -> cl_step k k'
| step_full_range bt pid owner coins d :
    CreateFullRangePosition bt pid owner coins k = (Ok d, k') -> cl_step k k'
| step_full_range_locked bt pid owner coins dur d :
    CreateFullRangePositionLocked bt pid owner coins dur k = (Ok d, k') -> cl_step k k'
| step_full_range_unlocking bt pid owner coins dur d :
    CreateFullRangePositionUnlocking bt pid owner coins dur k = (Ok d, k') -> cl_step k k'
| step_transfer bt ids sender recipient a :
    transferPositions bt ids sender recipient k = (Ok a, k') -> cl_step k k'
| step_swap_in bt fuel sender pool inD n outD minOut spf r :
    k_pools k !! Id pool = Some pool -> 0 <= spf <= 5 * 10 ^ 17 ->
    SwapExactAmountIn bt fuel sender pool inD n outD minOut spf k = (Ok r, k') -> cl_step k k'
| step_swap_out bt fuel sender pool inD maxIn outD n spf r :
    k_pools k !! Id pool = Some pool ->
    SwapExactAmountOut bt fuel sender pool inD maxIn outD n spf k = (Ok r, k') -> cl_step k k'
| step_collect_spread bt sender ids total r :
    CollectSpreadRewards bt sender ids total k = (Ok r, k') -> cl_step k k'
| step_collect_incentives bt sender ids t f r :
    CollectIncentives bt sender ids t f k = (Ok r, k') -> cl_step k k'
| step_create_incentive bt pid sender denom amount rate start uptime r :
    CreateIncentive bt pid sender denom amount rate start uptime k = (Ok r, k') -> cl_step k k'
| step_accrue bt pid a :
    UpdatePoolUptimeAccumulatorsToNow bt pid k = (Ok a, k') -> cl_step k k'
| step_decrease_spacing records a :
    List.NoDup (map fst records) ->
    (forall pid sp p, In (pid, sp) records -> k_pools k !! pid = Some p -> respaceable p sp) ->
    DecreaseConcentratedPoolTickSpacing records k = (Ok a, k') -> cl_step k k'.

(** The module before the first pool. *)
Record started (k : Keeper) : Prop := {
  sd_pools : k_pools k = ∅;
  sd_positions : k_positions k = ∅;
  sd_byPool : k_poolPosition k = ∅;
  sd_byOwner : k_addressPoolPosition k = ∅;
  sd_ticks key : st_get (k_ticks k) key = None;
  sd_next : k_nextPositionId k = 1
}.

Inductive reachable : Keeper -> Prop :=
| reach_start k : started k -> reachable k
| reach_step k k' : reachable k -> cl_step k k' -> reachable k'.

Lemma started_inv k : started k -> Inv k.
Proof.
  intros [P Q P1 P2 T N]. assert (L : forall key, liq_at k key = None) by (intros; unfold liq_at; now rewrite T).
  split; [split|..]; unfold ids_ok, sums_at; rewrite ?P, ?Q, ?P1, ?P2, ?N; intros; rewrite ?L in *;
    try (exfalso; lazymatch goal with H : ∅ !! _ = Some _ |- _ => rewrite lookup_empty in H; discriminate H
         | H : is_Some None |- _ => now apply is_Some_None in H end).
  - now rewrite !msum_empty.
  - split; [intros H; now apply elem_of_empty in H | intros (q & H & _); rewrite lookup_empty in H; discriminate H].
  - split; [intros H; now apply elem_of_empty in H | intros (q & H & _); rewrite lookup_empty in H; discriminate H].
  - unfold is_uint64. lia.
Qed.

Lemma cl_step_inv k k' : cl_step k k' -> Inv k -> Inv k'.
Proof.
  intros H Iv. pose proof (b_ids _ (i_books _ Iv)) as Ids. destruct H as
    [bt id d0 d1 sp sf pool creator a N U Hs E H|bt pid owner coins m0 m1 lo hi d H|bt owner id amount r H
    |bt owner id a0 a1 m0 m1 r H|bt pid owner coins d H|bt pid owner coins dur d H|bt pid owner coins dur d H
    |bt ids sender recipient a H|bt fuel sender pool inD n outD minOut spf r Hp Hs H
    |bt fuel sender pool inD maxIn outD n spf r Hp H|bt sender ids total r H|bt sender ids t f r H
    |bt pid sender denom amount rate start uptime r H|bt pid a H|records a Nd Ok1 H].
  - exact (InitializePool_inv _ _ _ _ _ _ _ _ _ _ _ Iv N U Hs E H).
  - exact (CreatePosition_inv _ _ _ _ _ _ _ _ _ _ _ Iv H).
  - exact (WithdrawPosition_inv _ _ _ _ _ _ _ Iv H).
  - exact (addToPosition_inv _ _ _ _ _ _ _ _ _ _ Iv H).
  - exact (CreateFullRangePosition_inv _ _ _ _ _ _ _ Iv H).
  - exact (CreateFullRangePositionLocked_inv _ _ _ _ _ _ _ _ Iv (or_introl H)).
  - exact (CreateFullRangePositionLocked_inv _ _ _ _ _ _ _ _ Iv (or_intror H)).
  - exact (transferPositions_inv _ _ _ _ _ _ _ Iv H).
  - exact (SwapExactAmountIn_inv _ _ _ _ _ _ _ _ _ _ _ _ Iv Hp Hs H).
  - exact (SwapExactAmountOut_inv _ _ _ _ _ _ _ _ _ _ _ _ Iv Hp H).
  - exact (frame_inv _ _ (framed_CollectSpreadRewards _ _ _ _ _ _ _ Ids I H) Iv).
  - exact (frame_inv _ _ (framed_CollectIncentives _ _ _ _ _ _ _ _ Ids I H) Iv).
  - exact (frame_inv _ _ (framed_CreateIncentive _ _ _ _ _ _ _ _ _ _ _ Ids I H) Iv).
  - exact (frame_inv _ _ (framed_UpdatePoolUptimeAccumulatorsToNow _ _ _ _ _ Ids I H) Iv).
  - exact (decrease_inv _ _ _ _ Iv Nd Ok1 H).
Qed.

Lemma reachable_inv k : reachable k -> Inv k.
Proof. induction 1 as [k H | k k' _ IH H]; [now apply started_inv | exact (cl_step_inv _ _ H IH)]. Qed.

(** ** What the invariant gives swaps *)

Lemma iter_nets zfo k pid sp limit spf : forall ts cur,
  Books k -> is_uint64 pid -> (forall p, k_pools k !! pid = Some p -> TickSpacing p = sp) ->
  MinInitializedTickV2 <= cur <= MaxTick -> iter_ok k pid zfo cur ts ->
  nets_ok (SetLiquidityDeltaSign (New zfo limit spf)) (act k pid cur) (map enc ts).
Proof.
  induction ts as [|[t i] ts IH]; intros cur Bk Ip Hsp Hc It; cbn [map nets_ok enc fst snd];
    (split; [now apply act_nonneg|]); [exact I|].
  assert (Ic : is_int64 cur) by (unfold is_int64, MinInitializedTickV2, MaxTick in *; lia).
  assert (Ss : SetLiquidityDeltaSign (New zfo limit spf) (LiquidityNet i) = (if zfo then - LiquidityNet i else LiquidityNet i))
    by (now destruct zfo).
  rewrite Ss, (cross_act k pid sp Bk Ip Hsp zfo cur t i ts It Ic).
  destruct (iter_head k pid sp Bk Ip Hsp _ _ _ _ _ It) as ([R _] & _).
  assert (V : MinInitializedTickV2 < MinInitializedTick) by reflexivity.
  apply IH; auto; [destruct zfo; cbn [crossed]; lia | exact (iter_next k pid zfo cur t i ts It)].
Qed.

(** C1: in every state reached by the operations of [cl_step] (new pools with
    a spacing below 2^62, positions created, extended, withdrawn and
    transferred, swaps, of exact amounts in with a spread factor of at most
    one half, claims, incentives, and decreases of a spacing to a divisor when the
    tick of the pool is that of its price) the books of the module balance.  For every
    pool the liquidity at the current tick is the sum of the positions whose
    range contains that tick; for every tick the gross and net liquidity are
    the sums over the positions it bounds, and a tick is stored only while a
    position uses it; no stored position is empty, each lies on the spacing of
    its pool and is found by both indexes; the current tick and the square-root
    price are on the same side of every usable tick. *)
Theorem reachable_books (k : Keeper) : reachable k -> Inv k.
Proof. exact (reachable_inv k). Qed.

(** C6: in every state reached by the operations of [cl_step] (with its
    conditions on spacings, spread factors and decreases of a spacing) a pool with positions has a positive price and
    its liquidity stays non-negative along the initialized ticks of either
    direction, which is what the soundness and the termination of the swap
    computation ask of a pool. *)
Theorem reachable_pool_ok (k : Keeper) (pid : Z) (p : Pool) (zfo : bool) :
  reachable k -> k_pools k !! pid = Some p -> PoolHasPosition p = true -> pool_ok zfo (k_ticks k) p pid.
Proof.
  intros R Hp HP. pose proof (i_books _ (reachable_inv k R)) as Bk. destruct (b_pools _ Bk _ _ Hp) as [Ip Sp Tk Lq Al].
  split; [exact (proj1 (Al HP))|]. intros limit spf iter H.
  destruct (initial_iter k pid Bk Ip zfo _ _ _ _ Tk H) as (ts & -> & It). rewrite Lq.
  apply (iter_nets zfo k pid (TickSpacing p)); auto. congruence.
Qed.

End Invariant.

(** ** A run

    A pool, two positions, a swap that moves the price, a smaller spacing, a
    position on it and a withdrawal. *)

#[local] Existing Instance sdk_ref.
#[local] Existing Instance ext_ref.
#[local] Existing Instance ref_ticks.
#[local] Existing Instance ref_accums.

Definition run_state (k : RefKeeper) {A} (c : M RefKeeper A) : RefKeeper := snd (c k).

Lemma run_ok {A} (k k' : RefKeeper) (c : M RefKeeper A) :
  k' = run_state k c -> is_ok (fst (c k)) = true -> exists a, c k = (Ok a, k').
Proof. intros ->. unfold run_state. destruct (c k) as [[a| |] k']; cbn; [eauto | discriminate..]. Qed.

Definition run_pool : Pool :=
  match NewConcentratedLiquidityPool 1 "eth" "usdc" 100 0 with Ok p => p | _ => eth_usdc end.
Definition run_coins (x y : Z) : Coins := match NewCoins [("eth", x); ("usdc", y)] with Ok c => c | _ => coins_empty end.

Definition run0 : RefKeeper :=
  empty_keeper {| balances := {[ ("alice", "eth") := 10 ^ 12; ("alice", "usdc") := 10 ^ 15;
                                 ("bob", "eth") := 10 ^ 12; ("bob", "usdc") := 10 ^ 15 ]}; locks := ∅ |}.
Definition run1 : RefKeeper := run_state run0 (InitializePool 1 run_pool "carol").
Definition run2 : RefKeeper :=
  run_state run1 (CreatePosition 10 1 "alice" (run_coins 1000000 5000000000) 0 0 30545000 31500000).
Definition run3 : RefKeeper :=
  run_state run2 (CreatePosition 11 1 "bob" (run_coins 2000000 10000000000) 0 0 30900000 31100000).
Definition run3_pool : Pool := default eth_usdc (k_pools run3 !! 1).
Definition run4 : RefKeeper :=
  run_state run3 (SwapExactAmountIn 20 200 "bob" run3_pool "eth" 3000000 "usdc" 0 0).
Definition run5 : RefKeeper := run_state run4 (DecreaseConcentratedPoolTickSpacing [(1, 10)]).
Definition run6 : RefKeeper :=
  run_state run5 (CreatePosition 25 1 "bob" (run_coins 2000000 10000000000) 0 0 30573050 31100000).
Definition run7 : RefKeeper := run_state run6 (WithdrawPosition 30 "alice" 1 (10 ^ 18)).

Definition tick_and_liquidity (k : RefKeeper) : option (Z * Z) :=
  p ← k_pools k !! 1; Some (CurrentTick p, CurrentTickLiquidity p).

Example run_crosses_a_tick :
  map tick_and_liquidity [run2; run3; run4; run6; run7] =
    [Some (31000000, 1517882343751510417627556287); Some (31000000, 15588950155616985643508299293);
     Some (30573054, 1517882343751510417627556287); Some (30573054, 4066400178648124491505401488);
     Some (30573054, 4066400177648124491505401488)].
Proof. vm_compute. reflexivity. Qed.

Lemma run4_respaceable p : k_pools run4 !! 1 = Some p -> respaceable p 10.
Proof.
  assert (E : (fun q => (TickSpacing q =? 100, CurrentTick q, CurrentSqrtPrice q)) <$> k_pools run4 !! 1 =
    Some (true, 30573054, 67624359663737830208816521523005933144)) by (vm_compute; reflexivity).
  intros Hp. rewrite Hp in E. cbn [fmap option_fmap option_map] in E. injection E as Es Et Ep. apply Z.eqb_eq in Es.
  split; [lia|]. split; [exists 10; now rewrite Es|]. intros _. unfold in_bucket. rewrite Et, Ep. split; intros _; vm_compute; congruence.
Qed.

Lemma run4_decrease : List.NoDup (map fst [(1, 10)]) /\
  forall pid sp p, In (pid, sp) [(1, 10)] -> k_pools run4 !! pid = Some p -> respaceable p sp.
Proof.
  split; [constructor; [intros [] | constructor]|]. intros pid sp p [Hr | []]. assert (pid = 1) as -> by exact (eq_sym (f_equal fst Hr)).
  assert (sp = 10) as -> by exact (eq_sym (f_equal snd Hr)). apply run4_respaceable.
Qed.

Lemma run3_reachable : reachable run3.
Proof.
  assert (R0 : reachable run0) by (constructor; split; reflexivity).
  assert (R1 : reachable run1).
  { refine (reach_step _ _ R0 _).
    destruct (run_ok run0 run1 (InitializePool 1 run_pool "carol") ltac:(unfold run1; reflexivity) ltac:(vm_compute; reflexivity)) as (a & E).
    refine (step_create_pool _ _ 1 1 "eth" "usdc" 100 0 run_pool "carol" a _ _ _ _ E);
      [vm_compute; reflexivity | split; vm_compute; congruence | split; vm_compute; reflexivity | vm_compute; reflexivity]. }
  assert (R2 : reachable run2).
  { refine (reach_step _ _ R1 _).
    destruct (run_ok run1 run2 (CreatePosition 10 1 "alice" (run_coins 1000000 5000000000) 0 0 30545000 31500000)
      ltac:(unfold run2; reflexivity) ltac:(vm_compute; reflexivity)) as (a & E). exact (step_create _ _ _ _ _ _ _ _ _ _ _ E). }
  refine (reach_step _ _ R2 _).
    destruct (run_ok run2 run3 (CreatePosition 11 1 "bob" (run_coins 2000000 10000000000) 0 0 30900000 31100000)
      ltac:(unfold run3; reflexivity) ltac:(vm_compute; reflexivity)) as (a & E). exact (step_create _ _ _ _ _ _ _ _ _ _ _ E).
Qed.

Lemma run_reachable : reachable run7.
Proof.
  pose proof run3_reachable as R3.
  assert (Hp : k_pools run3 !! Id run3_pool = Some run3_pool) by (vm_compute; reflexivity).
  assert (R4 : reachable run4).
  { refine (reach_step _ _ R3 _).
    destruct (run_ok run3 run4 (SwapExactAmountIn 20 200 "bob" run3_pool "eth" 3000000 "usdc" 0 0)
      ltac:(unfold run4; reflexivity) ltac:(vm_compute; reflexivity)) as (a & E).
    refine (step_swap_in run3 run4 20 200 "bob" run3_pool "eth" 3000000 "usdc" 0 0 a Hp _ E); split; vm_compute; congruence. }
  assert (R5 : reachable run5).
  { refine (reach_step _ _ R4 _).
    destruct (run_ok run4 run5 (DecreaseConcentratedPoolTickSpacing [(1, 10)]) ltac:(unfold run5; reflexivity) ltac:(vm_compute; reflexivity)) as (a & E).
    refine (step_decrease_spacing run4 run5 [(1, 10)] a (proj1 run4_decrease) (proj2 run4_decrease) E). }
  assert (R6 : reachable run6).
  { refine (reach_step _ _ R5 _).
    destruct (run_ok run5 run6 (CreatePosition 25 1 "bob" (run_coins 2000000 10000000000) 0 0 30573050 31100000)
      ltac:(unfold run6; reflexivity) ltac:(vm_compute; reflexivity)) as (a & E). exact (step_create _ _ _ _ _ _ _ _ _ _ _ E). }
  refine (reach_step _ _ R6 _).
  destruct (run_ok run6 run7 (WithdrawPosition 30 "alice" 1 (10 ^ 18)) ltac:(unfold run7; reflexivity) ltac:(vm_compute; reflexivity)) as (a & E).
  exact (step_withdraw _ _ _ _ _ _ _ E).
Qed.

Lemma run_pool_at_end : exists p, k_pools run7 !! 1 = Some p /\ PoolHasPosition p = true.
Proof.
  assert (H : (PoolHasPosition <$> k_pools run7 !! 1) = Some true) by (vm_compute; reflexivity).
  apply fmap_Some in H as (p & E & H). eauto.
Qed.

(** The swap of the run: it crosses a tick, so its steps trade against the two
    positions and then against one of them. *)
Lemma run3_swap : amounts_and_tick (computeOutAmtGivenIn 20 200 1 "eth" 3000000 "usdc" 0 (GetPriceLimit true) true run3) =
  Some (3000000, 14684668289, 30573054).
Proof. vm_compute. reflexivity. Qed.

Lemma run3_facts : k_pools run3 !! 1 = Some run3_pool /\ getZeroForOne "eth" (Token0 run3_pool) = true.
Proof. split; vm_compute; reflexivity. Qed.

Lemma swap_trades_against_positions_witness :
  exists tr p q, chain p tr q /\ Forall (fun s => fair true 0 s /\ toward true s /\ backed run3 1 s) tr /\
    cdiv (total_in tr) OneDec = 3000000 /\ total_out tr / OneDec = 14684668289.
Proof.
  pose proof run3_swap as X. unfold amounts_and_tick in X.
  destruct (computeOutAmtGivenIn 20 200 1 "eth" 3000000 "usdc" 0 (GetPriceLimit true) true run3) as [[[res upd]| |] k'] eqn:R; [|discriminate X..].
  pose proof (swap_trades_against_positions 20 200 run3 k' run3_pool 1 3000000 "eth" "usdc" 0 true res upd
    (reachable_inv run3 run3_reachable) (proj1 run3_facts) ltac:(split; vm_compute; congruence)) as T. cbv zeta in T.
  rewrite (proj2 run3_facts) in T. destruct (T R) as (tr & Ch & F & I & O & _). cbn [fst] in X. injection X as X1 X2 _.
  exists tr, (CurrentSqrtPrice run3_pool), (NewSqrtPrice upd). split; [exact Ch|]. split; [exact F|]. split; congruence.
Defined.

Lemma reachable_books_witness :
  exists p, k_pools run7 !! 1 = Some p /\
    CurrentTickLiquidity p = msum (active_at 1 (CurrentTick p)) (k_positions run7).
Proof.
  destruct run_pool_at_end as (p & Hp & _). exists p. split; [exact Hp|].
  exact (pb_liquidity _ _ _ (b_pools _ (i_books _ (reachable_books run7 run_reachable)) _ _ Hp)).
Defined.

Lemma reachable_pool_ok_witness : exists p, k_pools run7 !! 1 = Some p /\ pool_ok false (k_ticks run7) p 1.
Proof.
  destruct run_pool_at_end as (p & Hp & HP). exists p. split; [exact Hp|].
  exact (reachable_pool_ok run7 1 p false run_reachable Hp HP).
Defined.

(** ** Runs that show defects *)

Definition runs {A} (c : M RefKeeper A) : option A := match fst (c run0) with Ok a => Some a | _ => None end.

Definition pool_of (id : Z) : Pool :=
  match NewConcentratedLiquidityPool id "eth" "usdc" 100 0 with Ok p => p | _ => eth_usdc end.

(** The user's positions of a pool: the pool id is written to the key in
    decimal and read back as hexadecimal, so a position of pool 10 is missed,
    although it is found without the filter; in pool 9 it is found. *)
Definition positions_found (id : Z) : M RefKeeper (nat * nat) :=
  InitializePool 1 (pool_of id) "carol" ~;;
  CreatePosition 10 id "alice" (run_coins 1000000 5000000000) 0 0 30545000 31500000 ~;;
  filtered <~ GetUserPositions "alice" id ;;
  all <~ GetUserPositions "alice" 0 ;;
  ret (length filtered, length all).

(** The recorded total of a denomination after a position is created and after
    it is withdrawn in full: the withdrawal is not subtracted. *)
Definition totals : M RefKeeper (Z * Z) :=
  InitializePool 1 (pool_of 1) "carol" ~;;
  d <~ CreatePosition 10 1 "alice" (run_coins 1000000 5000000000) 0 0 30545000 31500000 ;;
  before <~ GetDenomLiquidity "eth" ;;
  WithdrawPosition 20 "alice" (ID d) (cpd_Liquidity d) ~;;
  after <~ GetDenomLiquidity "eth" ;;
  ret (before, after).

(** The full-range liquidity of a pool counts a position again when it is
    transferred, and is not reduced when it is removed. *)
Definition full_range : M RefKeeper (Z * Z * Z * Z) :=
  InitializePool 1 (pool_of 1) "carol" ~;;
  CreatePosition 10 1 "bob" (run_coins 1000000 5000000000) 0 0 30545000 31500000 ~;;
  d <~ CreateFullRangePosition 11 1 "alice" (run_coins 1000000 5000000000) ;;
  created <~ GetFullRangeLiquidityInPool 1 ;;
  transferPositions 12 [fr_ID d] "alice" "bob" ~;;
  transferred <~ GetFullRangeLiquidityInPool 1 ;;
  WithdrawPosition 20 "bob" (fr_ID d) (fr_Liquidity d) ~;;
  removed <~ GetFullRangeLiquidityInPool 1 ;;
  ret (fr_Liquidity d, created, transferred, removed).

(** Three records that go wrong.  The filter of a user's positions by pool
    finds the position in pool 9 and misses it in pool 10; withdrawing a whole
    position leaves the recorded total of a denomination where it was; the
    full-range liquidity of a pool is counted twice after a transfer and stays
    after the position is removed. *)
Theorem record_defects :
  (runs (positions_found 9) = Some (1%nat, 1%nat) /\ runs (positions_found 10) = Some (0%nat, 1%nat)) /\
  (exists total, 0 < total /\ runs totals = Some (total, total)) /\
  (exists l, 0 < l /\ runs full_range = Some (l, l, 2 * l, 2 * l)).
Proof.
  split; [split; vm_compute; reflexivity|]. split.
  - exists 998977. split; [reflexivity | vm_compute; reflexivity].
  - exists 70710678118654752941000000. split; [reflexivity | vm_compute; reflexivity].
Qed.
