(* ===== verification/SdkMore.v ===== *)
(** * More of [cosmossdk.io/math]

    The operations of [LegacyDec] and [Int] that the modules around
    concentrated liquidity use, in the style of [SdkMath]: scaling by an
    integer is exact, division by an integer truncates, [Mul] and [RoundInt]
    round to nearest, and an operation panics when its result does not fit. *)

From Stdlib Require Import ZArith Lia List Bool String.
From S2P Require Import Prelude GoBig BigInt BigDec SdkMath.

Class SdkMore : Type := {
  dec_Mul : Z -> Z -> Res Z;
  dec_MulInt64 : Z -> Z -> Res Z;
  dec_QuoInt64 : Z -> Z -> Res Z;
  dec_MulInt : Z -> Z -> Res Z;
  dec_QuoInt : Z -> Z -> Res Z;
  dec_RoundInt : Z -> Res Z;
  dec_Power : Z -> Z -> Res Z;
  int_Mul : Z -> Z -> Res Z
}.

Class SdkMoreSpec (M : SdkMore) : Prop := {
  dec_Mul_bound a b r : dec_Mul a b = Ok r -> 2 * Z.abs (r * OneDec - a * b) <= OneDec;
  dec_Mul_total a b : sdk_fits (2 * (a * b)) -> is_ok (dec_Mul a b) = true;
  dec_MulInt64_exact a n r : dec_MulInt64 a n = Ok r -> r = a * n;
  dec_MulInt64_total a n : sdk_fits (a * n) -> dec_MulInt64 a n = Ok (a * n);
  dec_QuoInt64_exact a n r : dec_QuoInt64 a n = Ok r -> n <> 0 /\ r = Z.quot a n;
  dec_QuoInt64_total a n : n <> 0 -> dec_QuoInt64 a n = Ok (Z.quot a n);
  dec_QuoInt64_zero a : exists m, dec_QuoInt64 a 0 = Panic m;
  dec_MulInt_exact a n r : dec_MulInt a n = Ok r -> r = a * n;
  dec_MulInt_total a n : sdk_fits (a * n) -> dec_MulInt a n = Ok (a * n);
  dec_QuoInt_exact a n r : dec_QuoInt a n = Ok r -> n <> 0 /\ r = Z.quot a n;
  dec_QuoInt_total a n : n <> 0 -> dec_QuoInt a n = Ok (Z.quot a n);
  dec_RoundInt_bound a r : dec_RoundInt a = Ok r -> 2 * Z.abs (r * OneDec - a) <= OneDec;
  dec_Power_integer m n r : 0 <= n < 2 ^ 64 -> dec_Power (m * OneDec) n = Ok r -> r = m ^ n * OneDec;
  int_Mul_exact a b r : int_Mul a b = Ok r -> r = a * b;
  int_Mul_total a b : Z.abs (a * b) < 2 ^ 255 -> int_Mul a b = Ok (a * b)
}.

(** ** A reference implementation *)

(** Rounding half to even, as [chopPrecisionAndRound] of the SDK. *)
Definition nearest (a : Z) : Z :=
  let q := Z.quot (Z.abs a) OneDec in
  let r := Z.rem (Z.abs a) OneDec in
  let up := if 2 * r <? OneDec then q else if OneDec <? 2 * r then q + 1 else if Z.even q then q else q + 1 in
  Z.sgn a * up.

Lemma nearest_bound a : 2 * Z.abs (nearest a * OneDec - a) <= OneDec.
Proof.
  unfold nearest. pose proof OneDec_pos as P. pose proof (Z.quot_rem' (Z.abs a) OneDec) as E.
  pose proof (Z.rem_bound_pos (Z.abs a) OneDec ltac:(lia) P) as R.
  set (q := Z.quot (Z.abs a) OneDec) in *. set (r := Z.rem (Z.abs a) OneDec) in *.
  set (up := if 2 * r <? OneDec then q else if OneDec <? 2 * r then q + 1 else if Z.even q then q else q + 1).
  assert (U : 2 * Z.abs (up * OneDec - Z.abs a) <= OneDec).
  { subst up. destruct (Z.ltb_spec (2 * r) OneDec), (Z.ltb_spec OneDec (2 * r)); try (destruct (Z.even q)); lia. }
  destruct (Z.lt_trichotomy a 0) as [L | [-> | G]].
  - rewrite (Z.sgn_neg a L). lia.
  - change (Z.sgn 0) with 0. lia.
  - rewrite (Z.sgn_pos a G). lia.
Qed.

(** The loop of [LegacyDec.Power]. *)
Fixpoint dec_power_loop (fuel : nat) (d tmp n : Z) : Res Z :=
  match fuel with
  | O => sdk_check (nearest (d * tmp))
  | S fuel' =>
      if n <=? 1 then sdk_check (nearest (d * tmp)) else
      tmp' <- (if Z.odd n then sdk_check (nearest (tmp * d)) else Ok tmp) ;;
      d' <- sdk_check (nearest (d * d)) ;;
      dec_power_loop fuel' d' tmp' (n / 2)
  end.

#[export] Instance sdk_more_ref : SdkMore := {|
  dec_Mul a b := sdk_check (nearest (a * b));
  dec_MulInt64 a n := sdk_check (a * n);
  dec_QuoInt64 a n := bigQuo a n;
  dec_MulInt a n := sdk_check (a * n);
  dec_QuoInt a n := bigQuo a n;
  dec_RoundInt a := int_check (nearest a);
  dec_Power a n := if n =? 0 then Ok OneDec else dec_power_loop 64 a OneDec n;
  int_Mul a b := int_check (a * b)
|}.

Lemma nearest_exact m : nearest (m * OneDec) = m.
Proof. pose proof (nearest_bound (m * OneDec)). pose proof OneDec_pos. nia. Qed.

Lemma nearest_integers m n : nearest (m * OneDec * (n * OneDec)) = m * n * OneDec.
Proof. rewrite <- (nearest_exact (m * n * OneDec)). f_equal. ring. Qed.

Lemma power_loop_integer fuel : forall m t n r,
  1 <= n < 2 ^ Z.of_nat fuel * 2 -> dec_power_loop fuel (m * OneDec) (t * OneDec) n = Ok r -> r = m ^ n * t * OneDec.
Proof.
  induction fuel as [|fuel IH]; intros m t n r Hn H; cbn [dec_power_loop] in H.
  - apply sdk_check_ok in H as ->. rewrite nearest_integers. replace n with 1 by (cbn in Hn; lia). ring.
  - destruct (Z.leb_spec n 1).
    { apply sdk_check_ok in H as ->. rewrite nearest_integers. replace n with 1 by lia. ring. }
    inv_bind H. inv_bind H. apply sdk_check_ok in E0 as ->. rewrite nearest_integers in H.
    rewrite Nat2Z.inj_succ, Z.pow_succ_r in Hn by lia. pose proof (Z.div_mod n 2 ltac:(lia)) as D.
    pose proof (Z.mod_pos_bound n 2 ltac:(lia)) as B. assert (N2 : 1 <= n / 2 < 2 ^ Z.of_nat fuel * 2) by lia.
    rewrite Zodd_mod in E. destruct (Z.eqb_spec (n mod 2) 1) as [O | O].
    + apply sdk_check_ok in E as ->. rewrite nearest_integers in H. apply (IH _ _ _ _ N2) in H as ->.
      rewrite D at 2. rewrite O, Z.pow_add_r, Z.pow_mul_r, Z.pow_1_r by lia. rewrite Z.pow_2_r. ring.
    + apply Ok_inj in E as <-. apply (IH _ _ _ _ N2) in H as ->.
      rewrite D at 2. replace (n mod 2) with 0 by lia. rewrite Z.add_0_r, Z.pow_mul_r by lia. now rewrite Z.pow_2_r.
Qed.

#[export] Instance sdk_more_ref_spec : SdkMoreSpec sdk_more_ref.
Proof.
  pose proof OneDec_pos as P. split; cbn [dec_Mul dec_MulInt64 dec_QuoInt64 dec_MulInt dec_QuoInt dec_RoundInt
    dec_Power int_Mul sdk_more_ref].
  - intros a b r H. apply sdk_check_ok in H as ->. apply nearest_bound.
  - intros a b H. apply sdk_check_is_ok. unfold sdk_fits in *. pose proof (nearest_bound (a * b)).
    assert (1 < OneDec) by reflexivity. nia.
  - intros a n r. apply sdk_check_ok.
  - intros a n. apply sdk_check_total.
  - intros a n r. apply bigQuo_inv.
  - intros a n H. now apply bigQuo_ok.
  - intros a. eexists. reflexivity.
  - intros a n r. apply sdk_check_ok.
  - intros a n. apply sdk_check_total.
  - intros a n r. apply bigQuo_inv.
  - intros a n H. now apply bigQuo_ok.
  - intros a r H. apply int_check_ok in H as ->. apply nearest_bound.
  - intros m n r Hn H. destruct (Z.eqb_spec n 0) as [-> | N]; [apply Ok_inj in H as <-; now rewrite Z.pow_0_r, Z.mul_1_l|].
    replace OneDec with (1 * OneDec) in H at 2 by lia.
    apply power_loop_integer in H as ->; [ring|]. change (2 ^ Z.of_nat 64 * 2) with (2 ^ 65). lia.
  - intros a b r. apply int_check_ok.
  - intros a b. apply int_check_total.
Qed.
