(* ===== verification/Twap.v ===== *)
(** * Time-weighted average prices ([x/twap])

    For every pair of denominations of a pool the module keeps records: the
    spot prices at the end of a block, and accumulators of price times
    milliseconds up to it.  A price average between two times is the difference
    of the accumulators, interpolated to those times, over the time between
    them.  Records are kept in a store under text keys, the most recent one
    and all historical ones; old ones are pruned a few per block. *)

From stdpp Require Import base strings pretty.
From Stdlib Require Import ZArith Lia List Bool Ascii.
From S2P Require Import Prelude GoBig BigInt BigDec BigDecPow SdkMath SdkMore Store GoState.
Import ListNotations.

(** ** Records *)

Record TwapRecord : Type := {
  PoolId : Z;
  Asset0Denom : string;
  Asset1Denom : string;
  Height : Z;
  Time : Z;
  P0LastSpotPrice : Z;
  P1LastSpotPrice : Z;
  P0ArithmeticTwapAccumulator : Z;
  P1ArithmeticTwapAccumulator : Z;
  GeometricTwapAccumulator : Z;
  LastErrorTime : Z
}.

Record PruningState : Type := { IsPruning : bool; LastKeptTime : Z; LastSeenPoolId : Z }.

Record Params : Type := { PruneEpochIdentifier : string; RecordHistoryKeepPeriod : Z }.

(** The pools the prices come from.  A price comes with an error or without,
    and may be missing ([BigDec{}]) when there is one. *)
Class PoolManagerInterface : Type := {
  Pools : Type;
  RouteGetPoolDenoms : Pools -> Z -> list string * option string;
  RouteCalculateSpotPrice : Pools -> Z -> string -> string -> option Z * bool;
  GetNextPoolId : Pools -> Z
}.

(** [FormatTimeString] uses the sortable layout of the SDK: texts of one length
    in the order of the times, here from 1970 to 2262. *)
Class TimeFormat : Type := { FormatTimeString : Z -> string }.

Definition valid_time (t : Z) : Prop := 0 <= t < 2 ^ 63.

Class TimeFormatSpec (F : TimeFormat) : Prop := {
  FormatTimeString_length t : valid_time t -> List.length (string_bytes (FormatTimeString t)) = 29%nat;
  FormatTimeString_order t u : valid_time t -> valid_time u ->
    bcompare (string_bytes (FormatTimeString t)) (string_bytes (FormatTimeString u)) = Z.compare t u
}.

(** ** Utilities ([types/utils.go], [types/keys.go]) *)

Definition string_lt (a b : string) : bool := bltb (string_bytes a) (string_bytes b).

Definition MaxSpotPrice : Z := (2 ^ 128 - 1) * OneDec.
Definition MaxSpotPriceBigDec : Z := (2 ^ 128 - 1) * 10 ^ 36.

Fixpoint insert_string (x : string) (l : list string) : list string :=
  match l with
  | [] => [x]
  | y :: l' => if string_lt y x then y :: insert_string x l' else x :: l
  end.

Definition sort_Strings (l : list string) : list string := fold_right insert_string [] l.

(** The pairs of a denomination with the later ones. *)
Fixpoint pairs_from (x : string) (rest : list string) : Res (list (string * string)) :=
  match rest with
  | [] => Ok []
  | y :: rest' =>
      if String.eqb x y then Panic "input had duplicated denom" else
      ps <- pairs_from x rest' ;; Ok ((x, y) :: ps)
  end.

Fixpoint all_pairs (l : list string) : Res (list (string * string)) :=
  match l with
  | [] => Ok []
  | x :: rest => ps <- pairs_from x rest ;; qs <- all_pairs rest ;; Ok (ps ++ qs)%list
  end.

Definition GetAllUniqueDenomPairs (denoms : list string) : Res (list (string * string)) :=
  all_pairs (sort_Strings denoms).

Definition LexicographicalOrderDenoms (denom0 denom1 : string) : Res (string * string) :=
  if String.eqb denom0 denom1 then Err "both assets cannot be of the same denom" else
  if string_lt denom1 denom0 then Ok (denom1, denom0) else Ok (denom0, denom1).

(** [twapTime.Round(0).UnixMilli()] rounds down to milliseconds. *)
Definition CanonicalTimeMs (twapTime : Z) : Z := twapTime / 10 ^ 6.

Definition SpotPriceMulDuration {M : SdkMore} (sp timeDeltaMs : Z) : Res Z := dec_MulInt64 sp timeDeltaMs.
Definition AccumDiffDivDuration {M : SdkMore} (accumDiff timeDeltaMs : Z) : Res Z := dec_QuoInt64 accumDiff timeDeltaMs.

Definition KeySeparator : string := "|".
Definition mostRecentTWAPsPrefix : string := "recent_twap" +:+ KeySeparator.
Definition HistoricalTWAPPoolIndexPrefix : string := "historical_pool_index" +:+ KeySeparator.

(** [fmt.Sprintf] of a [uint64] with the verb for twenty digits. *)
Definition FormatFixedLengthU64 (d : Z) : bytes :=
  map (fun i => 48 + d / 10 ^ i mod 10) [19; 18; 17; 16; 15; 14; 13; 12; 11; 10; 9; 8; 7; 6; 5; 4; 3; 2; 1; 0].

(** [[]byte(s + KeySeparator)] *)
Definition sep (s : string) : bytes := string_bytes (s +:+ KeySeparator).

Definition FormatKeyPoolTwapRecords (poolId : Z) : bytes :=
  string_bytes (HistoricalTWAPPoolIndexPrefix +:+ pretty poolId).

Definition FormatMostRecentTWAPKey (poolId : Z) (denom1 denom2 : string) : bytes :=
  string_bytes mostRecentTWAPsPrefix ++ FormatFixedLengthU64 poolId ++ string_bytes KeySeparator ++
  sep denom1 ++ string_bytes denom2.

Definition FormatHistoricalPoolIndexDenomPairTWAPKey (poolId : Z) (denom1 denom2 : string) : bytes :=
  string_bytes HistoricalTWAPPoolIndexPrefix ++ sep (pretty poolId) ++ sep denom1 ++ sep denom2.

Definition FormatHistoricalPoolIndexTimePrefix (poolId : Z) (denom1 denom2 : string) : bytes :=
  string_bytes HistoricalTWAPPoolIndexPrefix ++ sep (pretty poolId) ++ sep denom1 ++ sep denom2.

Definition FormatHistoricalPoolIndexTWAPKeyFromStrTime (poolId : Z) (denom1 denom2 timeS : string) : bytes :=
  string_bytes HistoricalTWAPPoolIndexPrefix ++ sep (pretty poolId) ++ sep denom1 ++ sep denom2 ++
  string_bytes timeS.

Definition FormatHistoricalPoolIndexTWAPKey {F : TimeFormat} (poolId : Z) (denom1 denom2 : string) (t : Z) : bytes :=
  FormatHistoricalPoolIndexTWAPKeyFromStrTime poolId denom1 denom2 (FormatTimeString t).

Definition FormatHistoricalPoolIndexTimeSuffix {F : TimeFormat} (poolId : Z) (denom1 denom2 : string) (t : Z) : bytes :=
  string_bytes HistoricalTWAPPoolIndexPrefix ++ sep (pretty poolId) ++ sep denom1 ++ sep denom2 ++
  string_bytes (FormatTimeString t +:+ ".").

(** Eight bytes, least significant first. *)
Definition PutUint64_LE (n : Z) : bytes := map (fun i => Z.shiftr n (8 * i) mod 256) [0; 1; 2; 3; 4; 5; 6; 7].
Definition Uint64_LE (bs : bytes) : Z := be_value 0 (rev bs).

(** ** [osmomath.SigFigRound] *)

Definition pointOne : Z := 10 ^ 17.

(** The scaling loop; [100] steps exceed the width of a [Dec]. *)
Fixpoint sig_scale {M : SdkMore} (fuel : nat) (d k : Z) : Res (Z * Z) :=
  match fuel with
  | O => Panic "out of fuel"
  | Datatypes.S fuel' =>
      if d <? pointOne then d' <- dec_MulInt64 d 10 ;; sig_scale fuel' d' (k + 1) else Ok (d, k)
  end.

Definition SigFigRound {S : SdkMath} {M : SdkMore} (d tenToSigFig : Z) : Res Z :=
  if d =? 0 then Ok d else
  '(dTimesK, k) <- sig_scale 100 d 0 ;;
  dkSigFig <- dec_MulInt dTimesK tenToSigFig ;;
  rounded <- dec_RoundInt dkSigFig ;;
  numerator <- int_ToLegacyDec rounded ;;
  ten <- int_ToLegacyDec 10 ;;
  tenToK <- dec_Power ten k ;;
  t <- dec_TruncateInt tenToK ;;
  denominator <- int_Mul tenToSigFig t ;;
  dec_QuoInt numerator denominator.

Definition SpotPriceSigFigs : Z := 10 ^ 8.

(** ** Records in the store ([store.go]) *)

Section Twap.
Context {S : SdkMath} {SM : SdkMore} {PM : PoolManagerInterface} {F : TimeFormat}
  {KT : KVStore TwapRecord} {KC : KVStore unit}.

Record Keeper : Type := {
  tw_store : @St _ KT;
  tw_pruning : PruningState;
  tw_transient : @St _ KC;
  tw_params : Params;
  tw_pools : Pools
}.

Definition set_store (f : @St _ KT -> @St _ KT) : M Keeper unit :=
  modify (fun k => {| tw_store := f (tw_store k); tw_pruning := tw_pruning k; tw_transient := tw_transient k;
                      tw_params := tw_params k; tw_pools := tw_pools k |}).

Definition SetPruningState (s : PruningState) : M Keeper unit :=
  modify (fun k => {| tw_store := tw_store k; tw_pruning := s; tw_transient := tw_transient k;
                      tw_params := tw_params k; tw_pools := tw_pools k |}).

Definition GetPruningState : M Keeper PruningState := fun k => (Ok (tw_pruning k), k).

Definition set_transient (f : @St _ KC -> @St _ KC) : M Keeper unit :=
  modify (fun k => {| tw_store := tw_store k; tw_pruning := tw_pruning k; tw_transient := f (tw_transient k);
                      tw_params := tw_params k; tw_pools := tw_pools k |}).

Definition trackChangedPool (poolId : Z) : M Keeper unit := set_transient (fun s => st_set s (PutUint64_LE poolId) tt).

Definition getChangedPools : M Keeper (list Z) :=
  look (fun k => map (fun e => Uint64_LE (fst e)) (st_iter (tw_transient k) None None)).

Definition StoreHistoricalTWAP (twap : TwapRecord) : M Keeper unit :=
  set_store (fun s => st_set s
    (FormatHistoricalPoolIndexTWAPKey (PoolId twap) (Asset0Denom twap) (Asset1Denom twap) (Time twap)) twap).

Definition StoreNewRecord (twap : TwapRecord) : M Keeper unit :=
  set_store (fun s => st_set s (FormatMostRecentTWAPKey (PoolId twap) (Asset0Denom twap) (Asset1Denom twap)) twap) ~;;
  StoreHistoricalTWAP twap.

Definition DeleteHistoricalRecord (twap : TwapRecord) : M Keeper unit :=
  set_store (fun s => st_delete s
    (FormatHistoricalPoolIndexTWAPKey (PoolId twap) (Asset0Denom twap) (Asset1Denom twap) (Time twap))).

Definition DeleteMostRecentRecord (twap : TwapRecord) : M Keeper unit :=
  set_store (fun s => st_delete s (FormatMostRecentTWAPKey (PoolId twap) (Asset0Denom twap) (Asset1Denom twap))).

(** Records are stored decoded: parsing fails on a missing value only. *)
Definition ParseTwapFromBz (v : option TwapRecord) : Res TwapRecord :=
  match v with None => Err "twap not found" | Some r => Ok r end.

Definition getMostRecentRecordStoreRepresentation (poolId : Z) (asset0Denom asset1Denom : string) :
    M Keeper TwapRecord :=
  '(d0, d1) <~ lift (LexicographicalOrderDenoms asset0Denom asset1Denom) ;;
  fun k => (match ParseTwapFromBz (st_get (tw_store k) (FormatMostRecentTWAPKey poolId d0 d1)) with
            | Err _ => Err "error in get most recent twap"
            | r => r
            end, k).

Definition GetAllMostRecentTwapsForPool (poolId : Z) : M Keeper (list TwapRecord) :=
  look (fun k => map snd (st_iter (tw_store k)
    (Some (string_bytes mostRecentTWAPsPrefix ++ FormatFixedLengthU64 poolId ++ string_bytes KeySeparator))
    (Some (string_bytes mostRecentTWAPsPrefix ++ FormatFixedLengthU64 (uint64 (poolId + 1)) ++
           string_bytes KeySeparator)))).

Definition GetAllMostRecentRecordsForPoolWithDenoms (poolId : Z) (denoms : list string) : M Keeper (list TwapRecord) :=
  match denoms with
  | [a; b] =>
      '(d0, d1) <~ lift (LexicographicalOrderDenoms a b) ;;
      r <~ (fun k => (ParseTwapFromBz (st_get (tw_store k) (FormatMostRecentTWAPKey poolId d0 d1)), k)) ;;
      ret [r]
  | _ => GetAllMostRecentTwapsForPool poolId
  end.

Definition getAllHistoricalPoolIndexedTWAPs : M Keeper (list TwapRecord) :=
  look (fun k => map snd (st_iter (st_prefix (tw_store k) (string_bytes HistoricalTWAPPoolIndexPrefix)) None None)).

Definition GetAllHistoricalPoolIndexedTWAPsForPoolId (poolId : Z) : M Keeper (list TwapRecord) :=
  look (fun k => map snd (st_iter (st_prefix (tw_store k) (FormatKeyPoolTwapRecords poolId)) None None)).

(** ** Accumulators ([logic.go]) *)

Definition with_errors (r : TwapRecord) (lastErrorTime : Z) : TwapRecord :=
  {| PoolId := PoolId r; Asset0Denom := Asset0Denom r; Asset1Denom := Asset1Denom r; Height := Height r;
     Time := Time r; P0LastSpotPrice := P0LastSpotPrice r; P1LastSpotPrice := P1LastSpotPrice r;
     P0ArithmeticTwapAccumulator := P0ArithmeticTwapAccumulator r;
     P1ArithmeticTwapAccumulator := P1ArithmeticTwapAccumulator r;
     GeometricTwapAccumulator := GeometricTwapAccumulator r; LastErrorTime := lastErrorTime |}.

Definition twapLog (price : Z) : Res Z :=
  if price =? 0 then Panic "twap: cannot take logarithm of zero" else
  b <- BigDecFromDec price ;; l <- LogBase2 b ;; Ok (Dec l).

(** The record interpolated to a later time. *)
Definition recordWithUpdatedAccumulators (r : TwapRecord) (newTime : Z) : Res TwapRecord :=
  if Time r =? newTime then Ok r else
  let timeDelta := CanonicalTimeMs newTime - CanonicalTimeMs (Time r) in
  p0New <- SpotPriceMulDuration (P0LastSpotPrice r) timeDelta ;;
  p0 <- dec_Add p0New (P0ArithmeticTwapAccumulator r) ;;
  p1New <- SpotPriceMulDuration (P1LastSpotPrice r) timeDelta ;;
  p1 <- dec_Add p1New (P1ArithmeticTwapAccumulator r) ;;
  let updated geom lastErr :=
    {| PoolId := PoolId r; Asset0Denom := Asset0Denom r; Asset1Denom := Asset1Denom r; Height := Height r;
       Time := newTime; P0LastSpotPrice := P0LastSpotPrice r; P1LastSpotPrice := P1LastSpotPrice r;
       P0ArithmeticTwapAccumulator := p0; P1ArithmeticTwapAccumulator := p1;
       GeometricTwapAccumulator := geom; LastErrorTime := lastErr |} in
  if P0LastSpotPrice r =? 0 then Ok (updated (GeometricTwapAccumulator r) newTime) else
  logP0 <- twapLog (P0LastSpotPrice r) ;;
  gNew <- SpotPriceMulDuration logP0 timeDelta ;;
  g <- dec_Add gNew (GeometricTwapAccumulator r) ;;
  Ok (updated g (LastErrorTime r)).

(** The spot prices of both directions and the time of the last error. *)
Definition getSpotPrices (ctx : Ctx) (pools : Pools) (poolId : Z) (denom0 denom1 : string)
    (previousErrorTime : Z) : Res (Z * Z * Z) :=
  let '(sp0, err0) := RouteCalculateSpotPrice pools poolId denom0 denom1 in
  let '(sp1, err1) := RouteCalculateSpotPrice pools poolId denom1 denom0 in
  let failed := err0 || err1 in
  let latest := if failed then BlockTime ctx else previousErrorTime in
  match (if failed then Some (default 0 sp0) else sp0), (if failed then Some (default 0 sp1) else sp1) with
  | Some sp0, Some sp1 =>
      let '(sp0, latest) := if GT sp0 MaxSpotPriceBigDec then (MaxSpotPriceBigDec, BlockTime ctx) else (sp0, latest) in
      let '(sp1, latest) := if GT sp1 MaxSpotPriceBigDec then (MaxSpotPriceBigDec, BlockTime ctx) else (sp1, latest) in
      Ok (Dec sp0, Dec sp1, latest)
  | _, _ => Panic "nil pointer dereference"
  end.

Definition newTwapRecord (ctx : Ctx) (pools : Pools) (poolId : Z) (denom0 denom1 : string) : Res TwapRecord :=
  '(d0, d1) <- LexicographicalOrderDenoms denom0 denom1 ;;
  '(sp0, sp1, lastErrorTime) <- getSpotPrices ctx pools poolId d0 d1 zero_time ;;
  Ok {| PoolId := poolId; Asset0Denom := d0; Asset1Denom := d1; Height := BlockHeight ctx; Time := BlockTime ctx;
        P0LastSpotPrice := sp0; P1LastSpotPrice := sp1;
        P0ArithmeticTwapAccumulator := 0; P1ArithmeticTwapAccumulator := 0; GeometricTwapAccumulator := 0;
        LastErrorTime := lastErrorTime |}.

(** The error of [RouteGetPoolDenoms] is returned at the end. *)
Definition afterCreatePool (ctx : Ctx) (poolId : Z) : M Keeper unit :=
  '(denoms, err) <~ look (fun k => RouteGetPoolDenoms (tw_pools k) poolId) ;;
  denomPairs <~ lift (GetAllUniqueDenomPairs denoms) ;;
  for_each denomPairs (fun dp =>
    record <~ (fun k => (newTwapRecord ctx (tw_pools k) poolId dp.1 dp.2, k)) ;;
    StoreNewRecord record) ~;;
  trackChangedPool poolId ~;;
  match err with Some e => fail e | None => ret tt end.

Definition mustTrackCreatedPool (ctx : Ctx) (poolId : Z) : M Keeper unit :=
  fun k => match afterCreatePool ctx poolId k with (Err e, k') => (Panic e, k') | r => r end.

Definition updateRecord (ctx : Ctx) (pools : Pools) (r : TwapRecord) : Res TwapRecord :=
  if ((Height r =? BlockHeight ctx) || (Time r =? BlockTime ctx)) &&
     negb (P1ArithmeticTwapAccumulator r =? 0) && negb (P0ArithmeticTwapAccumulator r =? 0)
  then Err "InvalidUpdateRecordError" else
  if (Height r >? BlockHeight ctx) || (Time r >? BlockTime ctx) then Err "InvalidUpdateRecordError" else
  n <- recordWithUpdatedAccumulators r (BlockTime ctx) ;;
  '(newSp0, newSp1, lastErrorTime) <-
    getSpotPrices ctx pools (PoolId r) (Asset0Denom r) (Asset1Denom r) (LastErrorTime r) ;;
  Ok {| PoolId := PoolId n; Asset0Denom := Asset0Denom n; Asset1Denom := Asset1Denom n; Height := BlockHeight ctx;
        Time := Time n; P0LastSpotPrice := newSp0; P1LastSpotPrice := newSp1;
        P0ArithmeticTwapAccumulator := P0ArithmeticTwapAccumulator n;
        P1ArithmeticTwapAccumulator := P1ArithmeticTwapAccumulator n;
        GeometricTwapAccumulator := GeometricTwapAccumulator n; LastErrorTime := lastErrorTime |}.

Definition updateRecords (ctx : Ctx) (poolId : Z) : M Keeper unit :=
  '(denoms, err) <~ look (fun k => RouteGetPoolDenoms (tw_pools k) poolId) ;;
  match err with
  | Some e => fail e
  | None =>
      records <~ GetAllMostRecentRecordsForPoolWithDenoms poolId denoms ;;
      let denomNum := Z.of_nat (List.length denoms) in
      if negb (Z.quot (denomNum * (denomNum - 1)) 2 =? Z.of_nat (List.length records))
      then fail "InvalidRecordCountError" else
      for_each records (fun record =>
        newRecord <~ (fun k => (updateRecord ctx (tw_pools k) record, k)) ;;
        StoreNewRecord newRecord)
  end.

(** ** Pruning *)

Definition NumRecordsToPrunePerBlock : Z := 200.

(** Delete the given keys until the limit; the flag says whether it was hit. *)
Fixpoint prune_keys (keys : list bytes) (numPruned : Z) : M Keeper (Z * bool) :=
  match keys with
  | [] => ret (numPruned, false)
  | key :: rest =>
      set_store (fun s => st_delete s key) ~;;
      if numPruned + 1 >=? NumRecordsToPrunePerBlock then ret (numPruned + 1, true)
      else prune_keys rest (numPruned + 1)
  end.

(** The records of a pair before the time, newest first; the newest stays. *)
Definition prune_pair (poolId : Z) (dp : string * string) (lastKept numPruned : Z) : M Keeper (Z * bool) :=
  keys <~ look (fun k => map fst (st_riter (tw_store k)
    (Some (FormatHistoricalPoolIndexDenomPairTWAPKey poolId dp.1 dp.2))
    (Some (FormatHistoricalPoolIndexTWAPKey poolId dp.1 dp.2 lastKept)))) ;;
  prune_keys (tl keys) numPruned.

Fixpoint prune_pairs (poolId : Z) (pairs : list (string * string)) (lastKept numPruned : Z) : M Keeper (Z * bool) :=
  match pairs with
  | [] => ret (numPruned, false)
  | dp :: rest =>
      '(n, hit) <~ prune_pair poolId dp lastKept numPruned ;;
      if hit : bool then ret (n, true) else prune_pairs poolId rest lastKept n
  end.

(** From the given pool id down to one. *)
Fixpoint prune_pools (n : nat) (state : PruningState) (numPruned : Z) : M Keeper bool :=
  match n with
  | O => ret false
  | Datatypes.S n' =>
      let poolId := Z.of_nat n in
      '(denoms, err) <~ look (fun k => RouteGetPoolDenoms (tw_pools k) poolId) ;;
      match err with
      | Some e => fail e
      | None =>
          pairs <~ lift (GetAllUniqueDenomPairs denoms) ;;
          '(m, hit) <~ prune_pairs poolId pairs (LastKeptTime state) numPruned ;;
          if hit : bool then
            SetPruningState {| IsPruning := IsPruning state; LastKeptTime := LastKeptTime state;
                               LastSeenPoolId := poolId |} ~;; ret true
          else prune_pools n' state m
      end
  end.

(** The last pool completed is the first one unless none was left. *)
Definition pruneRecordsBeforeTimeButNewest (state : PruningState) : M Keeper unit :=
  hit <~ prune_pools (Z.to_nat (LastSeenPoolId state)) state 0 ;;
  when (negb hit && (0 <? LastSeenPoolId state))
    (SetPruningState {| IsPruning := false; LastKeptTime := LastKeptTime state;
                        LastSeenPoolId := LastSeenPoolId state |}).

(** An error is logged; the changes made so far stay. *)
Definition logged (c : M Keeper unit) : M Keeper unit :=
  fun k => match c k with (Err _, k') => (Ok tt, k') | r => r end.

Definition EndBlock (ctx : Ctx) : M Keeper unit :=
  changedPoolIds <~ getChangedPools ;;
  for_each changedPoolIds (fun id => logged (updateRecords ctx id)) ~;;
  state <~ GetPruningState ;;
  when (IsPruning state) (logged (pruneRecordsBeforeTimeButNewest state)).

(** The hook at the end of an epoch ([listeners.go]). *)
Definition AfterEpochEnd (ctx : Ctx) (epochIdentifier : string) : M Keeper unit :=
  params <~ look tw_params ;;
  if String.eqb epochIdentifier (PruneEpochIdentifier params) then
    next <~ look (fun k => GetNextPoolId (tw_pools k)) ;;
    let poolIdToStartFrom := uint64 (next - 1) in
    when (poolIdToStartFrom >? 0)
      (SetPruningState {| IsPruning := true; LastKeptTime := BlockTime ctx - RecordHistoryKeepPeriod params;
                          LastSeenPoolId := poolIdToStartFrom |})
  else ret tt.

(** ** Queries ([api.go]) *)

Definition getMostRecentRecord (ctx : Ctx) (poolId : Z) (assetA assetB : string) : M Keeper TwapRecord :=
  record <~ getMostRecentRecordStoreRepresentation poolId assetA assetB ;;
  lift (recordWithUpdatedAccumulators record (BlockTime ctx)).

Definition getRecordAtOrBeforeTime (ctx : Ctx) (poolId t : Z) (asset0Denom asset1Denom : string) :
    M Keeper TwapRecord :=
  '(d0, d1) <~ lift (LexicographicalOrderDenoms asset0Denom asset1Denom) ;;
  found <~ look (fun k => st_riter (tw_store k)
    (Some (FormatHistoricalPoolIndexTimePrefix poolId d0 d1))
    (Some (FormatHistoricalPoolIndexTimeSuffix poolId d0 d1 t))) ;;
  match found with
  | [] => fun k => match getMostRecentRecord ctx poolId d0 d1 k with
                   | (Ok _, k') => (Err "timeTooOldError", k')
                   | (Err _, k') => (Err "getTwapRecord: querying for assets that are not in pool", k')
                   | (Panic m, k') => (Panic m, k')
                   end
  | (_, twap) :: _ =>
      if negb (String.eqb (Asset0Denom twap) d0) || negb (String.eqb (Asset1Denom twap) d1) ||
         negb (PoolId twap =? poolId)
      then fail "internal error, got twap but its data is wrong" else ret twap
  end.

Definition getInterpolatedRecord (ctx : Ctx) (poolId t : Z) (assetA assetB : string) : M Keeper TwapRecord :=
  record <~ getRecordAtOrBeforeTime ctx poolId t assetA assetB ;;
  lift (recordWithUpdatedAccumulators
          (if Time record =? LastErrorTime record then with_errors record t else record) t).

Definition twapStrategy : Type := TwapRecord -> TwapRecord -> string -> Res Z.

Definition arithmetic : twapStrategy := fun startRecord endRecord quoteAsset =>
  accumDiff <- (if String.eqb quoteAsset (Asset0Denom startRecord)
                then dec_Sub (P0ArithmeticTwapAccumulator endRecord) (P0ArithmeticTwapAccumulator startRecord)
                else dec_Sub (P1ArithmeticTwapAccumulator endRecord) (P1ArithmeticTwapAccumulator startRecord)) ;;
  AccumDiffDivDuration accumDiff (CanonicalTimeMs (Time endRecord) - CanonicalTimeMs (Time startRecord)).

Definition geometric : twapStrategy := fun startRecord endRecord quoteAsset =>
  accumDiff <- dec_Sub (GeometricTwapAccumulator endRecord) (GeometricTwapAccumulator startRecord) ;;
  if accumDiff =? 0 then Ok 0 else
  exponent <- AccumDiffDivDuration accumDiff
    (CanonicalTimeMs (Time endRecord) - CanonicalTimeMs (Time startRecord)) ;;
  b <- BigDecFromDec (Z.abs exponent) ;;
  result <- Exp2 b ;;
  let isExponentNegative := exponent <? 0 in
  let isQuoteAsset0 := String.eqb quoteAsset (Asset0Denom startRecord) in
  result <- (if (isExponentNegative && isQuoteAsset0) || (negb isExponentNegative && negb isQuoteAsset0)
             then BigDec.Quo OneBigDec result else Ok result) ;;
  SigFigRound (Dec result) SpotPriceSigFigs.

(** The average and whether an error of the spot price may have spoilt it. *)
Definition computeTwap (startRecord endRecord : TwapRecord) (quoteAsset : string) (strategy : twapStrategy) :
    Res (Z * bool) :=
  let faulty := (LastErrorTime endRecord >? Time startRecord) || (LastErrorTime endRecord =? Time startRecord)
    || (LastErrorTime startRecord =? Time startRecord) in
  if time_Sub (Time endRecord) (Time startRecord) =? 0 then
    Ok (if String.eqb quoteAsset (Asset0Denom startRecord) then P0LastSpotPrice endRecord
        else P1LastSpotPrice endRecord, faulty)
  else v <- strategy startRecord endRecord quoteAsset ;; Ok (v, faulty).

Definition GetBeginBlockAccumulatorRecord (ctx : Ctx) (poolId : Z) (asset0Denom asset1Denom : string) :
    M Keeper TwapRecord :=
  getMostRecentRecord ctx poolId asset0Denom asset1Denom.

Definition getTwapToNow (ctx : Ctx) (poolId : Z) (baseAssetDenom quoteAssetDenom : string) (startTime : Z)
    (strategy : twapStrategy) : M Keeper (Z * bool) :=
  if startTime >? BlockTime ctx then fail "StartTimeAfterEndTimeError" else
  startRecord <~ getInterpolatedRecord ctx poolId startTime baseAssetDenom quoteAssetDenom ;;
  endRecord <~ GetBeginBlockAccumulatorRecord ctx poolId baseAssetDenom quoteAssetDenom ;;
  lift (computeTwap startRecord endRecord quoteAssetDenom strategy).

Definition getTwap (ctx : Ctx) (poolId : Z) (baseAssetDenom quoteAssetDenom : string) (startTime endTime : Z)
    (strategy : twapStrategy) : M Keeper (Z * bool) :=
  if startTime >? endTime then fail "StartTimeAfterEndTimeError" else
  if endTime =? BlockTime ctx then getTwapToNow ctx poolId baseAssetDenom quoteAssetDenom startTime strategy else
  if endTime >? BlockTime ctx then fail "EndTimeInFutureError" else
  startRecord <~ getInterpolatedRecord ctx poolId startTime baseAssetDenom quoteAssetDenom ;;
  endRecord <~ getInterpolatedRecord ctx poolId endTime baseAssetDenom quoteAssetDenom ;;
  lift (computeTwap startRecord endRecord quoteAssetDenom strategy).

Definition GetArithmeticTwap (ctx : Ctx) (poolId : Z) (baseAssetDenom quoteAssetDenom : string)
    (startTime endTime : Z) : M Keeper (Z * bool) :=
  getTwap ctx poolId baseAssetDenom quoteAssetDenom startTime endTime arithmetic.

Definition GetGeometricTwap (ctx : Ctx) (poolId : Z) (baseAssetDenom quoteAssetDenom : string)
    (startTime endTime : Z) : M Keeper (Z * bool) :=
  getTwap ctx poolId baseAssetDenom quoteAssetDenom startTime endTime geometric.

Definition GetArithmeticTwapToNow (ctx : Ctx) (poolId : Z) (baseAssetDenom quoteAssetDenom : string)
    (startTime : Z) : M Keeper (Z * bool) :=
  getTwapToNow ctx poolId baseAssetDenom quoteAssetDenom startTime arithmetic.

Definition GetGeometricTwapToNow (ctx : Ctx) (poolId : Z) (baseAssetDenom quoteAssetDenom : string)
    (startTime : Z) : M Keeper (Z * bool) :=
  getTwapToNow ctx poolId baseAssetDenom quoteAssetDenom startTime geometric.

(** ** Genesis and the clearing of an old index ([keeper.go], [store.go]) *)

Definition record_validate (t : TwapRecord) : Res unit :=
  if PoolId t =? 0 then Err "pool id cannot be 0" else
  if String.eqb (Asset0Denom t) "" then Err "twap record asset0 denom cannot be empty" else
  if String.eqb (Asset1Denom t) "" then Err "twap record asset1 denom cannot be empty" else
  if Height t <=? 0 then Err "twap record height must be positive" else
  if Time t =? zero_time then Err "twap record time cannot be 0" else
  (if LastErrorTime t =? Time t then
     if negb (P0LastSpotPrice t =? 0) && negb (P1LastSpotPrice t =? 0)
     then Err "one of twap record p0 and p1 last spot price must be zero due to having an error" else Ok tt
   else
     if P0LastSpotPrice t <=? 0 then Err "twap record p0 last spot price must be positive" else
     if P1LastSpotPrice t <=? 0 then Err "twap record p1 last spot price must be positive" else Ok tt) ;;;
  if P0ArithmeticTwapAccumulator t <? 0 then Err "twap record p0 accumulator cannot be negative" else
  if P1ArithmeticTwapAccumulator t <? 0 then Err "twap record p1 accumulator cannot be negative" else
  Ok tt.

Definition Params_Validate (p : Params) : Res unit :=
  if String.eqb (PruneEpochIdentifier p) "" then Err "empty distribution epoch identifier" else
  if RecordHistoryKeepPeriod p <=? 0 then Err "time must be positive" else Ok tt.

Fixpoint records_validate (l : list TwapRecord) : Res unit :=
  match l with [] => Ok tt | t :: l' => record_validate t ;;; records_validate l' end.

Definition Genesis_Validate (params : Params) (twaps : list TwapRecord) : Res unit :=
  Params_Validate params ;;; records_validate twaps.

Definition SetParams (params : Params) : M Keeper unit :=
  modify (fun k => {| tw_store := tw_store k; tw_pruning := tw_pruning k; tw_transient := tw_transient k;
                      tw_params := params; tw_pools := tw_pools k |}).

(** [sort.Slice] by time, as an insertion sort. *)
Fixpoint insert_by_time (t : TwapRecord) (l : list TwapRecord) : list TwapRecord :=
  match l with
  | [] => [t]
  | u :: l' => if Time u <? Time t then u :: insert_by_time t l' else t :: l
  end.

Definition sort_by_time (l : list TwapRecord) : list TwapRecord := fold_right insert_by_time [] l.

Definition InitGenesis (params : Params) (twaps : list TwapRecord) : M Keeper unit :=
  match Genesis_Validate params twaps with
  | Ok _ => SetParams params ~;; for_each (sort_by_time twaps) StoreNewRecord
  | Err e => panic e
  | Panic m => panic m
  end.

Definition ExportGenesis : M Keeper (Params * list TwapRecord) :=
  twapRecords <~ getAllHistoricalPoolIndexedTWAPs ;;
  params <~ look tw_params ;;
  ret (params, twapRecords).

Definition NumDeprecatedRecordsToPrunePerBlock : Z := 200.
Definition DeprecatedHistoricalTWAPsIsPruningKey : bytes := [2].

(** Delete the keys of an index until the limit; the number deleted, and
    whether the limit was hit. *)
Fixpoint delete_index (keys : list bytes) (iterationCounter : Z) : M Keeper (Z * bool) :=
  match keys with
  | [] => ret (iterationCounter, false)
  | key :: rest =>
      set_store (fun s => st_delete s key) ~;;
      if iterationCounter + 1 >=? NumDeprecatedRecordsToPrunePerBlock then ret (iterationCounter + 1, true)
      else delete_index rest (iterationCounter + 1)
  end.

Definition DeleteDeprecatedHistoricalTWAPsIsPruning : M Keeper unit :=
  set_store (fun s => st_delete s DeprecatedHistoricalTWAPsIsPruningKey).

Definition DeleteHistoricalTimeIndexedTWAPs : M Keeper unit :=
  keys <~ look (fun k => map (fun e => (string_bytes "historical_time_index" ++ fst e)%list)
    (st_iter (st_prefix (tw_store k) (string_bytes "historical_time_index")) None None)) ;;
  '(iterationCounter, hit) <~ delete_index keys 0 ;;
  when (negb hit && (iterationCounter =? 0)) DeleteDeprecatedHistoricalTWAPsIsPruning.

End Twap.
