(* ===== verification/TwapKeys.v ===== *)
(** * Pairs of denominations, and the keys of the price records

    [GetAllUniqueDenomPairs] lists every pair of distinct denominations once,
    in the order the records use.

    The keys of [x/twap/types/keys.go] determine the pool, the two denominations
    and the time they are written for, and a range of keys of one pair is a
    range of times: what the searches of the module rely on. *)

From stdpp Require Import base strings pretty.
From Stdlib Require Import ZArith Lia List Bool Ascii Sorted Permutation.
From S2P Require Import Prelude GoBig BigInt BigDec SdkMath SdkMore Store GoState Twap.
Import ListNotations.
(** ** Pairs *)

Definition string_le (a b : string) : Prop := string_lt b a = false.

Lemma string_lt_irrefl a : string_lt a a = false.
Proof. unfold string_lt, bltb. now rewrite bcompare_refl. Qed.

Lemma string_lt_spec a b : string_lt a b = true <-> blt (string_bytes a) (string_bytes b).
Proof. apply bltb_spec. Qed.

Lemma string_lt_trans a b c : string_lt a b = true -> string_lt b c = true -> string_lt a c = true.
Proof. rewrite !string_lt_spec. apply blt_trans. Qed.

Lemma string_le_lt a b : string_le a b -> a <> b -> string_lt a b = true.
Proof.
  unfold string_le, string_lt, bltb. rewrite (bcompare_antisym (string_bytes a)). intros H N.
  destruct (bcompare (string_bytes a) (string_bytes b)) eqn:E; cbn in H; try congruence.
  apply bcompare_eq, string_bytes_inj in E. contradiction.
Qed.

Lemma string_lt_le a b : string_lt a b = true -> string_le a b.
Proof.
  unfold string_le. intros H. destruct (string_lt b a) eqn:E; [|reflexivity].
  pose proof (string_lt_trans _ _ _ H E) as T. now rewrite string_lt_irrefl in T.
Qed.

Lemma string_le_trans a b c : string_le a b -> string_le b c -> string_le a c.
Proof.
  intros H1 H2. destruct (String.eqb_spec a b) as [-> | N]; [exact H2|]. destruct (String.eqb_spec b c) as [<- | N']; [exact H1|].
  apply string_lt_le. eapply string_lt_trans; apply string_le_lt; eassumption.
Qed.

(** ** Sorting *)

Lemma insert_string_perm x l : Permutation (insert_string x l) (x :: l).
Proof.
  induction l as [|y l IH]; cbn [insert_string]; [reflexivity|]. destruct (string_lt y x); [|reflexivity].
  rewrite IH. apply perm_swap.
Qed.

Lemma insert_string_sorted x l : StronglySorted string_le l -> StronglySorted string_le (insert_string x l).
Proof.
  induction 1 as [|y l O IH A]; cbn [insert_string]; [repeat constructor|].
  destruct (string_lt y x) eqn:E.
  - constructor; [exact IH|]. rewrite Forall_forall in *. intros z I.
    apply (Permutation_in _ (insert_string_perm x l)) in I as [<- | I]; [now apply string_lt_le | auto].
  - constructor; [now constructor|]. constructor; [exact E|]. revert A. apply Forall_impl. intros z. now apply string_le_trans.
Qed.

Lemma sort_Strings_perm l : Permutation (sort_Strings l) l.
Proof. induction l as [|x l IH]; cbn; [reflexivity|]. now rewrite insert_string_perm, IH. Qed.

Lemma sort_Strings_sorted l : StronglySorted string_le (sort_Strings l).
Proof. induction l as [|x l IH]; cbn; [constructor | now apply insert_string_sorted]. Qed.

(** ** The pairs *)

Fixpoint later_pairs (l : list string) : list (string * string) :=
  match l with [] => [] | x :: rest => map (fun y => (x, y)) rest ++ later_pairs rest end.

Lemma pairs_from_distinct x rest : ~ In x rest -> pairs_from x rest = Ok (map (fun y => (x, y)) rest).
Proof.
  induction rest as [|y rest IH]; intros N; [reflexivity|]. cbn [pairs_from map].
  destruct (String.eqb_spec x y) as [-> | _]; [destruct N; now left|]. rewrite IH; [reflexivity|]. intros I. apply N. now right.
Qed.

Lemma all_pairs_distinct l : NoDup l -> all_pairs l = Ok (later_pairs l).
Proof.
  induction 1 as [|x l N _ IH]; [reflexivity|]. cbn [all_pairs later_pairs].
  now rewrite pairs_from_distinct, IH.
Qed.

Lemma later_pairs_in l a b : In (a, b) (later_pairs l) -> In a l /\ In b l.
Proof.
  induction l as [|x l IH]; cbn [later_pairs]; [intros []|]. intros I. apply in_app_or in I as [I | I].
  - apply in_map_iff in I as (y & E & I). injection E as <- <-. split; [now left | now right].
  - apply IH in I as [A B]. split; now right.
Qed.

Lemma later_pairs_nodup l : NoDup l -> NoDup (later_pairs l).
Proof.
  induction 1 as [|x l N ND IH]; cbn [later_pairs]; [constructor|]. apply NoDup_app; [|exact IH |].
  - apply Finite.Injective_map_NoDup; [intros a b E; now injection E | exact ND].
  - intros [a b] I J. apply in_map_iff in I as (y & E & _). injection E as <- <-. now apply later_pairs_in in J as [J _].
Qed.

Lemma later_pairs_length l : 2 * Z.of_nat (List.length (later_pairs l)) = Z.of_nat (List.length l) * (Z.of_nat (List.length l) - 1).
Proof.
  induction l as [|x l IH]; [reflexivity|]. cbn [later_pairs List.length]. rewrite length_app, length_map. lia.
Qed.

Lemma later_pairs_ordered l : StronglySorted string_le l -> NoDup l ->
  forall a b, In (a, b) (later_pairs l) -> LexicographicalOrderDenoms a b = Ok (a, b).
Proof.
  induction 1 as [|x l O IH A]; intros ND a b I; [destruct I|]. inversion ND as [|? ? N ND']; subst. cbn [later_pairs] in I.
  apply in_app_or in I as [I | I]; [|auto]. apply in_map_iff in I as (y & E & I). injection E as <- <-.
  rewrite Forall_forall in A. specialize (A _ I). unfold LexicographicalOrderDenoms.
  destruct (String.eqb_spec x y) as [-> |]; [contradiction|]. unfold string_le in A. now rewrite A.
Qed.

(** The pairs of distinct denominations. *)
Lemma unique_pairs ds : NoDup ds -> exists pairs, GetAllUniqueDenomPairs ds = Ok pairs /\ NoDup pairs /\
  2 * Z.of_nat (List.length pairs) = Z.of_nat (List.length ds) * (Z.of_nat (List.length ds) - 1) /\
  (forall a b, In (a, b) pairs -> In a ds /\ In b ds /\ LexicographicalOrderDenoms a b = Ok (a, b)).
Proof.
  intros ND. pose proof (sort_Strings_perm ds) as P.
  assert (ND' : NoDup (sort_Strings ds)) by (eapply Permutation_NoDup; [symmetry; exact P | exact ND]).
  exists (later_pairs (sort_Strings ds)). split; [now apply all_pairs_distinct|].
  split; [now apply later_pairs_nodup|]. split; [now rewrite later_pairs_length, (Permutation_length P)|].
  intros a b I. pose proof (later_pairs_in _ _ _ I) as [A B].
  split; [now apply (Permutation_in _ P)|]. split; [now apply (Permutation_in _ P)|].
  now apply (later_pairs_ordered _ (sort_Strings_sorted ds) ND').
Qed.

(** A pool of two denominations has one pair. *)
Lemma two_denoms a b : a <> b -> exists d0 d1, GetAllUniqueDenomPairs [a; b] = Ok [(d0, d1)] /\
  LexicographicalOrderDenoms a b = Ok (d0, d1).
Proof.
  intros N. unfold GetAllUniqueDenomPairs, LexicographicalOrderDenoms. cbn [sort_Strings fold_right insert_string].
  apply String.eqb_neq in N as N1. rewrite N1. apply not_eq_sym, String.eqb_neq in N.
  destruct (string_lt b a); cbn [all_pairs pairs_from bind app]; [rewrite N | rewrite N1]; eauto.
Qed.

(** ** Keys *)

Definition bar : Z := 124.

(** A denomination does not contain the separator. *)
Definition sepfree (s : string) : Prop := ~ In bar (string_bytes s).

Lemma sep_bytes s : sep s = (string_bytes s ++ [bar])%list.
Proof. unfold sep. now rewrite string_bytes_app. Qed.

Lemma digit_free n : (n < 10)%N -> forall s, sepfree s -> sepfree (String (pretty_N_char n) s).
Proof.
  intros Hn s F [E | I]; [|now apply F]. revert E. unfold pretty_N_char, bar.
  destruct n as [|p]; [discriminate|]. do 4 (try destruct p as [p|p|]); (lia || discriminate).
Qed.

Lemma pretty_N_free (n : N) : sepfree (pretty n).
Proof.
  assert (G : forall n s, sepfree s -> sepfree (pretty_N_go n s)).
  { clear n. intros n. induction (N.lt_wf_0 n) as [n _ IH]. intros s F.
    destruct (decide (0 < n)%N) as [P | N]; [|assert (n = 0%N) as -> by lia; rewrite pretty_N_go_0; exact F].
    rewrite pretty_N_go_step by exact P. apply IH; [apply N.div_lt; lia|].
    apply digit_free; [apply N.mod_lt; lia | exact F]. }
  unfold pretty, pretty_N. destruct (decide (n = 0%N)); [intros [E | []]; discriminate E | apply G; intros []].
Qed.

Lemma pretty_Z_free (z : Z) : sepfree (pretty z).
Proof.
  destruct z as [|p|p]; [intros [E | []]; discriminate E | apply pretty_N_free |].
  intros I. destruct I as [E | I]; [discriminate E | now apply pretty_N_free in I].
Qed.

(** The part before the first separator is determined. *)
Lemma sep_split a b x y : sepfree a -> sepfree b ->
  (sep a ++ x)%list = (sep b ++ y)%list -> a = b /\ x = y.
Proof.
  rewrite !sep_bytes, <- !app_assoc. cbn [app]. unfold sepfree. intros Fa Fb E.
  assert (H : string_bytes a = string_bytes b /\ x = y); [|destruct H as [H ->]; split; [now apply string_bytes_inj | auto]].
  revert Fa Fb E. generalize (string_bytes b). generalize (string_bytes a). clear a b.
  intros l. induction l as [|c l IH]; intros [|d m] Fa Fb E; cbn [app] in E; injection E; clear E.
  - intros ->. auto.
  - intros _ <-. destruct Fb. now left.
  - intros _ ->. destruct Fa. now left.
  - intros E ->. destruct (IH m (fun I => Fa (or_intror I)) (fun I => Fb (or_intror I)) E) as [-> ->]. auto.
Qed.

(** ** Historical keys *)

(** What the historical keys of a pair begin with. *)
Definition hist_prefix (poolId : Z) (d0 d1 : string) : bytes :=
  (string_bytes HistoricalTWAPPoolIndexPrefix ++ sep (pretty poolId) ++ sep d0 ++ sep d1)%list.

Section Keys.
Context {F : TimeFormat} {FS : TimeFormatSpec F}.

Lemma hist_key_eq poolId d0 d1 t :
  FormatHistoricalPoolIndexTWAPKey poolId d0 d1 t =
  (hist_prefix poolId d0 d1 ++ string_bytes (FormatTimeString t))%list.
Proof.
  unfold FormatHistoricalPoolIndexTWAPKey, FormatHistoricalPoolIndexTWAPKeyFromStrTime, hist_prefix.
  now rewrite !app_assoc.
Qed.

Lemma suffix_key_eq poolId d0 d1 t :
  FormatHistoricalPoolIndexTimeSuffix poolId d0 d1 t =
  (hist_prefix poolId d0 d1 ++ string_bytes (FormatTimeString t) ++ [46])%list.
Proof.
  unfold FormatHistoricalPoolIndexTimeSuffix, hist_prefix. rewrite string_bytes_app, !app_assoc. reflexivity.
Qed.

Lemma hist_prefix_split p d0 d1 p' d0' d1' x y :
  sepfree d0 -> sepfree d1 -> sepfree d0' -> sepfree d1' ->
  (hist_prefix p d0 d1 ++ x)%list = (hist_prefix p' d0' d1' ++ y)%list -> p = p' /\ d0 = d0' /\ d1 = d1' /\ x = y.
Proof.
  unfold hist_prefix. intros F0 F1 F0' F1' E. rewrite <- !app_assoc in E. apply app_inv_head in E.
  apply sep_split in E as [P E]; [|apply pretty_Z_free..]. apply sep_split in E as [D0 E]; [|assumption..].
  apply sep_split in E as [D1 E]; [|assumption..]. apply (inj pretty) in P. auto.
Qed.

Lemma time_inj t u : valid_time t -> valid_time u ->
  string_bytes (FormatTimeString t) = string_bytes (FormatTimeString u) -> t = u.
Proof.
  intros Ht Hu E. apply Z.compare_eq. rewrite <- FormatTimeString_order by assumption.
  rewrite E. apply bcompare_refl.
Qed.

Lemma hist_key_inj p d0 d1 t p' d0' d1' t' :
  sepfree d0 -> sepfree d1 -> sepfree d0' -> sepfree d1' -> valid_time t -> valid_time t' ->
  FormatHistoricalPoolIndexTWAPKey p d0 d1 t = FormatHistoricalPoolIndexTWAPKey p' d0' d1' t' ->
  p = p' /\ d0 = d0' /\ d1 = d1' /\ t = t'.
Proof.
  intros F0 F1 F0' F1' Vt Vt'. rewrite !hist_key_eq. intros E.
  apply hist_prefix_split in E as (-> & -> & -> & E); auto using time_inj.
Qed.

(** ** Ranges of keys *)

Lemma bcompare_extend a b x : List.length a = List.length b ->
  bcompare a (b ++ [x]) = match bcompare a b with Gt => Gt | _ => Lt end.
Proof.
  revert b. induction a as [|c a IH]; intros [|d b] L; try discriminate L; [reflexivity|].
  cbn [bcompare app]. injection L as L. destruct (Z.compare c d); auto.
Qed.

(** A historical key is in the range of a pair up to the suffix key of a time
    exactly when it is one of the pair for a time not after it. *)
Lemma in_suffix_range p d0 d1 t p' d0' d1' t' :
  sepfree d0 -> sepfree d1 -> sepfree d0' -> sepfree d1' -> valid_time t -> valid_time t' ->
  in_rng (Some (FormatHistoricalPoolIndexTimePrefix p d0 d1)) (Some (FormatHistoricalPoolIndexTimeSuffix p d0 d1 t))
    (FormatHistoricalPoolIndexTWAPKey p' d0' d1' t') = true <-> p' = p /\ d0' = d0 /\ d1' = d1 /\ t' <= t.
Proof.
  intros F0 F1 F0' F1' Vt Vt'. change (FormatHistoricalPoolIndexTimePrefix p d0 d1) with (hist_prefix p d0 d1).
  rewrite suffix_key_eq, hist_key_eq. unfold in_rng. split.
  - intros H. apply andb_prop in H as [L U]. destruct (between_prefix _ _ _ L U) as [w E].
    apply hist_prefix_split in E as (-> & -> & -> & _); [|assumption..]. rewrite bltb_app in U. revert U.
    unfold bltb. rewrite bcompare_extend, FormatTimeString_order by (rewrite ?FormatTimeString_length; auto).
    destruct (Z.compare_spec t' t); intros; try discriminate; repeat split; lia.
  - intros (-> & -> & -> & L). rewrite bleb_prefix, bltb_app. unfold bltb.
    rewrite bcompare_extend, FormatTimeString_order by (rewrite ?FormatTimeString_length; auto).
    destruct (Z.compare_spec t' t); auto; lia.
Qed.

Lemma in_time_range p d0 d1 t p' d0' d1' t' :
  sepfree d0 -> sepfree d1 -> sepfree d0' -> sepfree d1' -> valid_time t -> valid_time t' ->
  in_rng (Some (FormatHistoricalPoolIndexDenomPairTWAPKey p d0 d1)) (Some (FormatHistoricalPoolIndexTWAPKey p d0 d1 t))
    (FormatHistoricalPoolIndexTWAPKey p' d0' d1' t') = true <-> p' = p /\ d0' = d0 /\ d1' = d1 /\ t' < t.
Proof.
  intros F0 F1 F0' F1' Vt Vt'. change (FormatHistoricalPoolIndexDenomPairTWAPKey p d0 d1) with (hist_prefix p d0 d1).
  rewrite !hist_key_eq. unfold in_rng. split.
  - intros H. apply andb_prop in H as [L U]. destruct (between_prefix _ _ _ L U) as [w E].
    apply hist_prefix_split in E as (-> & -> & -> & _); [|assumption..]. rewrite bltb_app in U.
    unfold bltb in U. rewrite FormatTimeString_order in U by assumption.
    destruct (Z.compare_spec t' t); try discriminate; repeat split; lia.
  - intros (-> & -> & -> & L). rewrite bleb_prefix, bltb_app. unfold bltb.
    rewrite FormatTimeString_order by assumption. destruct (Z.compare_spec t' t); auto; lia.
Qed.

(** The order of the historical keys of a pair is that of their times. *)
Lemma hist_key_order p d0 d1 t u : valid_time t -> valid_time u ->
  blt (FormatHistoricalPoolIndexTWAPKey p d0 d1 t) (FormatHistoricalPoolIndexTWAPKey p d0 d1 u) <-> t < u.
Proof.
  intros Vt Vu. rewrite !hist_key_eq. unfold blt. rewrite bcompare_app, FormatTimeString_order by assumption. reflexivity.
Qed.

(** ** Most recent keys *)

(** The indices of the digits, most significant first. *)
Fixpoint down (k : nat) : list Z := match k with O => [] | Datatypes.S k' => Z.of_nat k' :: down k' end.

Lemma digits_compare a b k :
  bcompare (map (fun i => 48 + a / 10 ^ i mod 10) (down k)) (map (fun i => 48 + b / 10 ^ i mod 10) (down k)) =
  Z.compare (a mod 10 ^ Z.of_nat k) (b mod 10 ^ Z.of_nat k).
Proof.
  induction k as [|k IH]; [now rewrite !Z.mod_1_r|]. cbn [down map bcompare]. rewrite IH.
  rewrite Nat2Z.inj_succ, Z.pow_succ_r, Z.mul_comm by lia.
  assert (P : 0 < 10 ^ Z.of_nat k) by (apply Z.pow_pos_nonneg; lia).
  rewrite !Z.rem_mul_r by lia. rewrite (Z.add_compare_mono_l).
  pose proof (Z.mod_pos_bound a _ P). pose proof (Z.mod_pos_bound b _ P).
  set (x := a / 10 ^ Z.of_nat k mod 10). set (y := b / 10 ^ Z.of_nat k mod 10).
  destruct (Z.compare_spec x y) as [-> | L | L].
  - symmetry. rewrite (Z.add_comm (a mod _)), (Z.add_comm (b mod _)). apply Z.add_compare_mono_l.
  - symmetry. apply Z.compare_lt_iff. nia.
  - symmetry. apply Z.compare_gt_iff. nia.
Qed.

Lemma FormatFixedLengthU64_order a b : 0 <= a < 2 ^ 64 -> 0 <= b < 2 ^ 64 ->
  bcompare (FormatFixedLengthU64 a) (FormatFixedLengthU64 b) = Z.compare a b.
Proof.
  intros Ha Hb. assert (B : 2 ^ 64 <= 10 ^ Z.of_nat 20) by (vm_compute; discriminate).
  unfold FormatFixedLengthU64. change [19; 18; 17; 16; 15; 14; 13; 12; 11; 10; 9; 8; 7; 6; 5; 4; 3; 2; 1; 0] with (down 20).
  rewrite digits_compare, !Z.mod_small by lia. reflexivity.
Qed.

Lemma FormatFixedLengthU64_inj a b : 0 <= a < 2 ^ 64 -> 0 <= b < 2 ^ 64 ->
  FormatFixedLengthU64 a = FormatFixedLengthU64 b -> a = b.
Proof.
  intros Ha Hb E. apply Z.compare_eq. rewrite <- FormatFixedLengthU64_order by assumption. rewrite E. apply bcompare_refl.
Qed.

Lemma recent_key_inj p d0 d1 p' d0' d1' :
  0 <= p < 2 ^ 64 -> 0 <= p' < 2 ^ 64 -> sepfree d0 -> sepfree d0' ->
  FormatMostRecentTWAPKey p d0 d1 = FormatMostRecentTWAPKey p' d0' d1' -> p = p' /\ d0 = d0' /\ d1 = d1'.
Proof.
  intros Hp Hp' F0 F0' E. unfold FormatMostRecentTWAPKey in E. apply app_inv_head in E.
  apply app_eq_length in E as [P E]; [|reflexivity]. apply app_inv_head in E.
  apply sep_split in E as [-> E]; [|assumption..]. apply string_bytes_inj in E.
  auto using FormatFixedLengthU64_inj.
Qed.

Lemma recent_not_hist p d0 d1 p' d0' d1' t :
  FormatMostRecentTWAPKey p d0 d1 <> FormatHistoricalPoolIndexTWAPKey p' d0' d1' t.
Proof. intros E. apply (f_equal (hd 0)) in E. discriminate E. Qed.

(** The search of a pair never meets a most recent key. *)
Lemma recent_not_in_range p d0 d1 x p' d0' d1' :
  in_rng (Some (hist_prefix p d0 d1)) (Some (hist_prefix p d0 d1 ++ x)%list) (FormatMostRecentTWAPKey p' d0' d1') = false.
Proof.
  apply not_true_iff_false. intros H. apply andb_prop in H as [L U].
  destruct (between_prefix _ _ _ L U) as [w E]. apply (f_equal (hd 0)) in E. discriminate E.
Qed.

(** The keys of the most recent records of a pool are the range the module
    iterates. *)
Lemma in_recent_range p q d0 d1 : 0 <= p < 2 ^ 64 - 1 -> 0 <= q < 2 ^ 64 ->
  in_rng (Some (string_bytes mostRecentTWAPsPrefix ++ FormatFixedLengthU64 p ++ string_bytes KeySeparator)%list)
    (Some (string_bytes mostRecentTWAPsPrefix ++ FormatFixedLengthU64 (uint64 (p + 1)) ++ string_bytes KeySeparator)%list)
    (FormatMostRecentTWAPKey q d0 d1) = true <-> q = p.
Proof.
  intros Hp Hq. assert (U : uint64 (p + 1) = p + 1) by (unfold uint64; rewrite Z.mod_small; lia). rewrite U.
  unfold in_rng, FormatMostRecentTWAPKey, bleb, bltb. rewrite !bcompare_app, !bcompare_app_eq by reflexivity.
  rewrite !FormatFixedLengthU64_order by lia. change (string_bytes KeySeparator) with [bar].
  assert (E1 : forall x, bcompare [bar] ([bar] ++ x) = match x with [] => Eq | _ => Lt end) by (now intros []).
  assert (E2 : forall x, bcompare ([bar] ++ x) [bar] = match x with [] => Eq | _ => Gt end) by (now intros []).
  rewrite E1, E2. generalize (sep d0 ++ string_bytes d1)%list as x.
  destruct (Z.compare_spec p q), (Z.compare_spec q (p + 1)); intros [|c x]; cbn [andb]; split; intros; subst; try discriminate; try lia;
    reflexivity.
Qed.

Lemma hist_not_recent_range p d0 d1 t lo hi :
  in_rng (Some (string_bytes mostRecentTWAPsPrefix ++ lo)%list) hi (FormatHistoricalPoolIndexTWAPKey p d0 d1 t) = false.
Proof. reflexivity. Qed.

End Keys.
