(* ===== verification/TwapHistory.v ===== *)
(** * Price histories and what the records say about them

    The specification of [x/twap]: the history of a pair lists the prices that
    were recorded for it, newest first.  [integral] is the area under the step
    function it describes, in milliseconds; a record represents a history when
    it holds its newest prices and the areas up to its time.  [tracks] relates
    the store to the histories of all pairs, and interpolation and the search
    by time compute with records what the specification says of histories. *)

From stdpp Require Import base strings pretty.
From Stdlib Require Import ZArith Lia List Bool Ascii Sorted.
From S2P Require Import Prelude GoBig BigInt BigDec BigDecPow SdkMath SdkMore Store GoState Twap TwapKeys.
Import ListNotations.

Definition History : Type := list (Z * (Z * Z)).

(** The area under a price up to a time. *)
Fixpoint integral (f : Z * Z -> Z) (h : History) (t : Z) : Z :=
  match h with
  | [] => 0
  | (t0, p) :: rest =>
      if t0 <=? t then integral f rest t0 + f p * (CanonicalTimeMs t - CanonicalTimeMs t0) else integral f rest t
  end.

(** The history without what came after a time. *)
Fixpoint from (t : Z) (h : History) : History :=
  match h with [] => [] | (t0, p) :: rest => if t0 <=? t then h else from t rest end.

(** Writing down the prices of a time; a second note of a time replaces the first. *)
Definition note (t : Z) (p : Z * Z) (h : History) : History :=
  match h with
  | (t0, p0) :: rest => if t0 =? t then (t, p) :: rest else (t, p) :: h
  | [] => [(t, p)]
  end.

Definition later (x y : Z * (Z * Z)) : Prop := fst y < fst x.

Definition entry_ok (e : Z * (Z * Z)) : Prop :=
  valid_time (fst e) /\ 0 <= fst (snd e) <= MaxSpotPrice /\ 0 <= snd (snd e) <= MaxSpotPrice.

Definition hist_ok (h : History) : Prop := StronglySorted later h /\ Forall entry_ok h.

(** The logarithm that is accumulated; a price of zero counts as zero. *)
Definition log_price (p : Z * Z) : Z := match twapLog (fst p) with Ok l => l | _ => 0 end.

(** ** Histories *)

Lemma ms_mono t u : t <= u -> CanonicalTimeMs t <= CanonicalTimeMs u.
Proof. intros. apply Z.div_le_mono; [reflexivity | assumption]. Qed.

Lemma ms_bound t : valid_time t -> 0 <= CanonicalTimeMs t < 2 ^ 44.
Proof.
  intros [A B]. split; [apply Z.div_pos; [assumption | reflexivity]|].
  apply Z.div_lt_upper_bound; [reflexivity|]. eapply Z.lt_trans; [exact B | reflexivity].
Qed.

Lemma integral_bound f c h t : 0 <= c -> Forall (fun e => valid_time (fst e) /\ Z.abs (f (snd e)) <= c) h ->
  valid_time t -> Z.abs (integral f h t) <= c * CanonicalTimeMs t.
Proof.
  intros Hc F. revert t. induction F as [|[t0 p] h [V0 Hp] F IH]; intros t V; cbn [integral fst snd] in *.
  - pose proof (ms_bound t V). nia.
  - destruct (Z.leb_spec t0 t) as [L | L]; [|now apply IH].
    pose proof (IH t0 V0). pose proof (ms_mono t0 t L). nia.
Qed.

Lemma from_split t h : exists newer, h = newer ++ from t h.
Proof.
  induction h as [|[t0 p] h [n E]]; [now exists []|]. cbn [from]. destruct (t0 <=? t); [now exists []|].
  exists ((t0, p) :: n). cbn. congruence.
Qed.

Lemma integral_from f h t : integral f (from t h) t = integral f h t.
Proof.
  induction h as [|[t0 p] h IH]; [reflexivity|]. cbn [from integral]. destruct (t0 <=? t) eqn:E; [|exact IH].
  cbn [integral]. now rewrite E.
Qed.

Lemma from_head t h t0 p rest : from t h = (t0, p) :: rest -> t0 <= t.
Proof.
  induction h as [|[t1 q] h IH]; cbn [from]; [discriminate|].
  destruct (Z.leb_spec t1 t); [|exact IH]. intros E. injection E as -> _ _. assumption.
Qed.

(** The entry a history starts with from a time on is the newest until then. *)
Lemma from_newest t h u x : StronglySorted later h -> In (u, x) h -> u <= t ->
  exists t0 p rest, from t h = (t0, p) :: rest /\ u <= t0.
Proof.
  induction 1 as [|[t1 q] h S IH F]; intros I L; [destruct I|]. cbn [from].
  destruct (Z.leb_spec t1 t).
  - exists t1, q, h. split; [reflexivity|]. destruct I as [E | I]; [injection E as -> _; lia|].
    rewrite Forall_forall in F. specialize (F _ I). unfold later in F. cbn in F. lia.
  - destruct I as [E | I]; [injection E as -> _; lia | auto].
Qed.

Lemma from_in t h e : In e (from t h) -> In e h.
Proof. destruct (from_split t h) as [n E]. rewrite E at 2. intros. apply in_or_app. now right. Qed.

Lemma from_hist_ok t h : hist_ok h -> hist_ok (from t h).
Proof.
  intros [S F]. split.
  - clear F. induction S as [|[t0 p] h S IH F]; cbn [from]; [constructor|]. destruct (t0 <=? t); [now constructor | exact IH].
  - rewrite Forall_forall in *. eauto using from_in.
Qed.

(** Two entries of one time are the same. *)
Lemma from_own t h x : StronglySorted later h -> In (t, x) h -> exists rest, from t h = (t, x) :: rest.
Proof.
  induction 1 as [|[t1 q] h S IH F]; intros I; [destruct I|]. cbn [from]. destruct I as [E | I].
  - injection E as -> ->. rewrite Z.leb_refl. eauto.
  - rewrite Forall_forall in F. pose proof (F _ I) as L. unfold later in L. cbn in L.
    destruct (Z.leb_spec t1 t); [lia | auto].
Qed.

(** What [note] changes. *)
Definition up_to (t : Z) (h : History) : Prop := match h with [] => True | (t0, _) :: _ => t0 <= t end.

Lemma note_shape t p h : hist_ok h -> up_to t h ->
  exists rest, note t p h = (t, p) :: rest /\ (forall f, integral f rest t = integral f h t) /\
    Forall (fun e => fst e < t) rest /\ (forall e, In e rest -> In e h) /\ (forall u, u < t -> from u h = from u rest) /\
    hist_ok rest.
Proof.
  intros [S F] U. destruct h as [|[t0 q] h]; cbn [note up_to] in *.
  { exists []. repeat split; auto; try constructor. }
  inversion S as [|? ? S' L]; subst. inversion F as [|? ? E0 F']; subst. rewrite Forall_forall in L.
  destruct (Z.eqb_spec t0 t) as [-> | N].
  - exists h. repeat split; auto.
    + intros f. cbn [integral]. rewrite Z.leb_refl. lia.
    + apply Forall_forall. intros e I. specialize (L _ I). exact L.
    + intros e I. now right.
    + intros u Hu. cbn [from]. destruct (Z.leb_spec t u); [lia | reflexivity].
  - exists ((t0, q) :: h). repeat split; auto.
    apply Forall_forall. intros e [<- | I]; [cbn; lia|]. specialize (L _ I). unfold later in L. cbn in *. lia.
Qed.

Lemma note_hist_ok t p h : hist_ok h -> up_to t h -> entry_ok (t, p) -> hist_ok (note t p h).
Proof.
  intros H U E. destruct (note_shape t p h H U) as (rest & -> & _ & L & _ & _ & S & F).
  split; constructor; auto.
Qed.

Lemma from_note_before t p h u : hist_ok h -> up_to t h -> u < t -> from u (note t p h) = from u h.
Proof.
  intros H U L. destruct (note_shape t p h H U) as (rest & -> & _ & _ & _ & Fr & _).
  cbn [from]. destruct (Z.leb_spec t u); [lia|]. now rewrite Fr.
Qed.

Lemma from_note_after t p h u : hist_ok h -> up_to t h -> t <= u -> from u (note t p h) = note t p h.
Proof.
  intros H U L. destruct (note_shape t p h H U) as (rest & -> & _). cbn [from].
  destruct (Z.leb_spec t u); [reflexivity | lia].
Qed.

(** ** Records *)

Definition represents (r : TwapRecord) (h : History) : Prop :=
  exists rest, h = (Time r, (P0LastSpotPrice r, P1LastSpotPrice r)) :: rest /\
    P0ArithmeticTwapAccumulator r = integral fst rest (Time r) /\
    P1ArithmeticTwapAccumulator r = integral snd rest (Time r) /\
    GeometricTwapAccumulator r = integral log_price rest (Time r).

(** The record interpolated to a time. *)
Definition at_time (r : TwapRecord) (h : History) (t : Z) : TwapRecord :=
  {| PoolId := PoolId r; Asset0Denom := Asset0Denom r; Asset1Denom := Asset1Denom r; Height := Height r; Time := t;
     P0LastSpotPrice := P0LastSpotPrice r; P1LastSpotPrice := P1LastSpotPrice r;
     P0ArithmeticTwapAccumulator := integral fst h t; P1ArithmeticTwapAccumulator := integral snd h t;
     GeometricTwapAccumulator := integral log_price h t;
     LastErrorTime := if negb (Time r =? t) && (P0LastSpotPrice r =? 0) then t else LastErrorTime r |}.

Lemma twapLog_total p : 0 < p <= MaxSpotPrice -> exists l, twapLog p = Ok l /\ Z.abs l <= 130 * OneDec.
Proof.
  intros Hp. unfold twapLog. destruct (Z.eqb_spec p 0); [lia|].
  assert (E : BigDecFromDec p = Ok (p * 10 ^ 18)) by reflexivity. rewrite E. cbn [bind]. clear E.
  assert (M : MaxSpotPrice * 10 ^ 18 < 2 ^ 128 * 10 ^ 36) by reflexivity.
  assert (B : 10 ^ 18 <= p * 10 ^ 18 < 2 ^ 128 * 10 ^ 36) by nia. clear M. set (x := p * 10 ^ 18) in *. clearbody x.
  destruct (LogBase2_value x) as (k & y & -> & Y & K1 & K2).
  - apply (Z.lt_le_trans _ (10 ^ 18)); [reflexivity | lia].
  - apply in_range_pow10. assert (2 ^ 128 * 10 ^ 36 < 10 ^ 344) by reflexivity. lia.
  - cbn [bind]. exists (Dec y). split; [reflexivity|].
    assert (KB : - 62 <= k <= 128).
    { split.
      - destruct (Z.le_gt_cases (- 62) k) as [|G]; [assumption|]. exfalso.
        pose proof (Z.pow_le_mono_r 2 62 (- k) ltac:(lia) ltac:(lia)).
        assert (2 * 10 ^ 36 < 10 ^ 18 * 2 ^ 62) by reflexivity. specialize (K2 ltac:(lia)). nia.
      - destruct (Z.le_gt_cases k 128) as [|G]; [assumption|]. exfalso.
        pose proof (Z.pow_le_mono_r 2 128 k ltac:(lia) ltac:(lia)). specialize (K1 ltac:(lia)). nia. }
    unfold Dec. change bigDecDecPrecisionFactorDiff with OneDec. change (10 ^ 36) with (OneDec * OneDec) in Y.
    pose proof OneDec_pos. pose proof (Z.quot_rem' y OneDec).
    assert (Z.abs (Z.rem y OneDec) < OneDec) by (pose proof (Z.rem_bound_abs y OneDec); lia). nia.
Qed.

Lemma log_price_bound p : 0 <= fst p <= MaxSpotPrice -> Z.abs (log_price p) <= 130 * OneDec.
Proof.
  intros H. unfold log_price. destruct (Z.eqb_spec (fst p) 0) as [E | N].
  - unfold twapLog. rewrite E. pose proof OneDec_pos. cbn [Z.eqb]. lia.
  - destruct (twapLog_total (fst p)) as (l & -> & B); [lia | exact B].
Qed.

(** A bound of everything that is accumulated. *)
Definition sel_ok (f : Z * Z -> Z) : Prop :=
  forall p, 0 <= fst p <= MaxSpotPrice -> 0 <= snd p <= MaxSpotPrice -> Z.abs (f p) <= 2 ^ 200.

Lemma fst_ok : sel_ok fst.
Proof. intros p A B. assert (MaxSpotPrice < 2 ^ 200) by reflexivity. lia. Qed.
Lemma snd_ok : sel_ok snd.
Proof. intros p A B. assert (MaxSpotPrice < 2 ^ 200) by reflexivity. lia. Qed.
Lemma log_ok : sel_ok log_price.
Proof. intros p A B. pose proof (log_price_bound p A). assert (130 * OneDec < 2 ^ 200) by reflexivity. lia. Qed.

Lemma area_bound f h t : sel_ok f -> hist_ok h -> valid_time t -> Z.abs (integral f h t) <= 2 ^ 200 * CanonicalTimeMs t.
Proof.
  intros Hf [_ F] V. apply integral_bound; [lia | | exact V]. revert F. apply Forall_impl.
  intros [u p] (Vu & A & B). split; [exact Vu | now apply Hf].
Qed.

(** Sums and differences of areas fit. *)
Lemma area_fits x y t u : valid_time t -> valid_time u ->
  Z.abs x <= 2 ^ 200 * CanonicalTimeMs t -> Z.abs y <= 2 ^ 200 * CanonicalTimeMs u -> Z.abs (x + y) < 2 ^ 300.
Proof.
  intros Vt Vu X Y. pose proof (ms_bound t Vt). pose proof (ms_bound u Vu).
  assert (2 ^ 200 * 2 ^ 45 < 2 ^ 300) by reflexivity. assert (2 ^ 45 = 2 * 2 ^ 44) by reflexivity. nia.
Qed.

Lemma fits_300 x : Z.abs x < 2 ^ 300 -> sdk_fits x.
Proof. unfold sdk_fits. assert (2 ^ 300 < 2 ^ 315) by reflexivity. lia. Qed.

Section Records.
Context {S : SdkMath} {SS : SdkMathSpec S} {SM : SdkMore} {SMS : SdkMoreSpec SM}.

(** Adding a price over the time since the record gives the area. *)
Lemma accumulate f h t rest t0 p : sel_ok f -> hist_ok h -> valid_time t -> h = (t0, p) :: rest -> t0 <= t ->
  (x <- SpotPriceMulDuration (f p) (CanonicalTimeMs t - CanonicalTimeMs t0) ;; dec_Add x (integral f rest t0)) =
  Ok (integral f h t).
Proof.
  intros Hf Hh V -> L. pose proof Hh as [HS HF]. inversion HF as [|? ? (V0 & P0 & P1) _]; subst. cbn [fst snd] in *.
  pose proof (Hf p P0 P1) as Fp. pose proof (ms_bound t V). pose proof (ms_bound t0 V0). pose proof (ms_mono t0 t L).
  unfold SpotPriceMulDuration. rewrite dec_MulInt64_total.
  - cbn [bind integral]. destruct (Z.leb_spec t0 t); [|lia]. rewrite dec_Add_total; [f_equal; lia|].
    apply fits_300. pose proof (area_bound f _ t Hf Hh V) as A. cbn [integral] in A.
    destruct (Z.leb_spec t0 t); [|lia]. rewrite Z.add_comm.
    pose proof (area_fits _ 0 t t V V A ltac:(lia)) as B. now rewrite Z.add_0_r in B.
  - apply fits_300. assert (2 ^ 200 * 2 ^ 44 < 2 ^ 300) by reflexivity. nia.
Qed.

Lemma interpolate r h t : represents r h -> hist_ok h -> valid_time t -> Time r <= t ->
  recordWithUpdatedAccumulators r t = Ok (at_time r h t).
Proof.
  intros (rest & E & A0 & A1 & G) Hh V L. unfold recordWithUpdatedAccumulators, at_time.
  pose proof Hh as [_ F]. rewrite E in F. inversion F as [|? ? (_ & P0 & _) _]; subst. cbn [fst snd] in *.
  destruct (Z.eqb_spec (Time r) t) as [<- | N].
  - cbn [integral negb andb]. rewrite Z.leb_refl, Z.sub_diag, !Z.mul_0_r, !Z.add_0_r, <- A0, <- A1, <- G.
    now destruct r.
  - cbn [negb andb].
    set (h := (Time r, (P0LastSpotPrice r, P1LastSpotPrice r)) :: rest) in *.
    pose proof (accumulate fst h t rest _ _ fst_ok Hh V eq_refl L) as B0.
    pose proof (accumulate snd h t rest _ _ snd_ok Hh V eq_refl L) as B1. cbn [fst snd] in B0, B1.
    apply bind_ok_inv in B0 as (x0 & -> & B0). apply bind_ok_inv in B1 as (x1 & -> & B1).
    rewrite bind_ok, A0, B0. rewrite !bind_ok, A1, B1. rewrite bind_ok.
    pose proof (accumulate log_price h t rest _ _ log_ok Hh V eq_refl L) as B2.
    destruct (Z.eqb_spec (P0LastSpotPrice r) 0) as [Z0 | NZ].
    + do 2 f_equal. rewrite G. subst h. cbn [integral]. destruct (Z.leb_spec (Time r) t); [|lia].
      unfold log_price at 3. cbn [fst]. unfold twapLog at 1. rewrite Z0. cbn [Z.eqb]. lia.
    + destruct (twapLog_total (P0LastSpotPrice r)) as (l & El & _); [lia|]. rewrite El, bind_ok.
      unfold log_price at 1 in B2. cbn [fst] in B2. rewrite El in B2.
      apply bind_ok_inv in B2 as (x2 & -> & B2). now rewrite bind_ok, G, B2, bind_ok.
Qed.

End Records.

(** ** The store *)

(** The histories of all pairs. *)
Definition Book : Type := Z -> string -> string -> History.

Definition good_id (p : Z) (d0 d1 : string) : Prop := 0 <= p < 2 ^ 64 - 1 /\ sepfree d0 /\ sepfree d1.

Section Tracks.
Context {F : TimeFormat} {FS : TimeFormatSpec F} {KT : KVStore TwapRecord} {KTS : KVStoreSpec KT}.
Implicit Types (s : @St _ KT) (B : Book).

Definition recent_key (r : TwapRecord) : bytes := FormatMostRecentTWAPKey (PoolId r) (Asset0Denom r) (Asset1Denom r).
Definition hist_key (r : TwapRecord) : bytes :=
  FormatHistoricalPoolIndexTWAPKey (PoolId r) (Asset0Denom r) (Asset1Denom r) (Time r).
Definition hist_of B (r : TwapRecord) : History := B (PoolId r) (Asset0Denom r) (Asset1Denom r).

(** What is in the store is right, and enough of it is there to answer for
    every time from [kept] on. *)
Record tracks (kept : Z) s B : Prop := {
  tr_sound key r : st_get s key = Some r ->
    (key = recent_key r /\ represents r (hist_of B r)) \/ (key = hist_key r /\ represents r (from (Time r) (hist_of B r)));
  tr_recent p d0 d1 : B p d0 d1 <> [] -> exists r, st_get s (FormatMostRecentTWAPKey p d0 d1) = Some r;
  tr_kept p d0 d1 t t0 x rest : kept <= t -> from t (B p d0 d1) = (t0, x) :: rest ->
    exists r, st_get s (FormatHistoricalPoolIndexTWAPKey p d0 d1 t0) = Some r;
  tr_ok p d0 d1 : hist_ok (B p d0 d1);
  tr_id p d0 d1 : B p d0 d1 <> [] -> good_id p d0 d1
}.

Lemma represents_from_in r t h : represents r (from t h) -> exists x, In (Time r, x) h.
Proof. intros (rest & E & _). eexists. apply (from_in t). rewrite E. now left. Qed.

Lemma tracked_record kept s B key r : tracks kept s B -> st_get s key = Some r ->
  good_id (PoolId r) (Asset0Denom r) (Asset1Denom r) /\ valid_time (Time r) /\ exists x, In (Time r, x) (hist_of B r).
Proof.
  intros T G. assert (I : exists x, In (Time r, x) (hist_of B r)).
  { destruct (tr_sound _ _ _ T _ _ G) as [[_ (rest & E & _)] | [_ R]]; [|now apply represents_from_in in R].
    eexists. rewrite E. now left. }
  destruct I as [x I]. repeat split.
  1-4: apply (tr_id _ _ _ T (PoolId r) (Asset0Denom r) (Asset1Denom r)); intros N; unfold hist_of in I; now rewrite N in I.
  1-2: destruct (tr_ok _ _ _ T (PoolId r) (Asset0Denom r) (Asset1Denom r)) as [_ O]; rewrite Forall_forall in O;
    apply (O _ I).
  eauto.
Qed.

(** The most recent record of a pair. *)
Lemma recent_record kept s B p d0 d1 : tracks kept s B -> B p d0 d1 <> [] ->
  exists r, st_get s (FormatMostRecentTWAPKey p d0 d1) = Some r /\
    PoolId r = p /\ Asset0Denom r = d0 /\ Asset1Denom r = d1 /\ represents r (B p d0 d1).
Proof.
  intros T N. destruct (tr_recent _ _ _ T _ _ _ N) as [r G]. exists r. split; [exact G|].
  destruct (tracked_record _ _ _ _ _ T G) as [(P & F0 & F1) _]. destruct (tr_id _ _ _ T _ _ _ N) as (P' & F0' & F1').
  destruct (tr_sound _ _ _ T _ _ G) as [[E R] | [E _]]; [|now apply recent_not_hist in E].
  apply recent_key_inj in E as (-> & -> & ->); auto; lia.
Qed.

(** A historical record of a pair. *)
Lemma hist_record kept s B p d0 d1 t r : tracks kept s B -> good_id p d0 d1 -> valid_time t ->
  st_get s (FormatHistoricalPoolIndexTWAPKey p d0 d1 t) = Some r ->
  PoolId r = p /\ Asset0Denom r = d0 /\ Asset1Denom r = d1 /\ Time r = t /\ represents r (from t (B p d0 d1)).
Proof.
  intros T (P & F0 & F1) V G. destruct (tracked_record _ _ _ _ _ T G) as [(P' & F0' & F1') [V' _]].
  destruct (tr_sound _ _ _ T _ _ G) as [[E _] | [E R]]; [symmetry in E; now apply recent_not_hist in E|].
  apply hist_key_inj in E as (-> & -> & -> & ->); auto 10.
Qed.

(** The first element of a reversed iteration is the greatest. *)
Lemma rev_head_max {V} (l : list (bytes * V)) x tl : StronglySorted key_lt l -> rev l = x :: tl ->
  In x l /\ forall y, In y l -> y = x \/ key_lt y x.
Proof.
  intros O E. assert (L : l = (rev tl ++ [x])%list) by (rewrite <- (rev_involutive l), E; reflexivity). subst l.
  split; [apply in_or_app; right; now left|]. intros y I. apply in_app_or in I as [I | [-> | []]]; [right | now left].
  clear E. induction (rev tl) as [|z m IH]; [destruct I|]. cbn [app] in O. inversion O as [|? ? O' A]; subst.
  destruct I as [<- | I]; [|auto]. rewrite Forall_forall in A. apply A, in_or_app. right. now left.
Qed.

(** The search finds the record of the newest entry at or before the time. *)
Lemma find_record kept s B p d0 d1 t t0 x rest : tracks kept s B -> valid_time t -> kept <= t ->
  from t (B p d0 d1) = (t0, x) :: rest ->
  exists r tl, st_riter s (Some (FormatHistoricalPoolIndexTimePrefix p d0 d1))
      (Some (FormatHistoricalPoolIndexTimeSuffix p d0 d1 t)) = (FormatHistoricalPoolIndexTWAPKey p d0 d1 t0, r) :: tl /\
    PoolId r = p /\ Asset0Denom r = d0 /\ Asset1Denom r = d1 /\ represents r (from t (B p d0 d1)).
Proof.
  intros T V K E. assert (ID : good_id p d0 d1) by (apply (tr_id _ _ _ T); intros N; now rewrite N in E).
  pose proof ID as (P & F0 & F1). pose proof (tr_ok _ _ _ T p d0 d1) as Hh. pose proof (from_head _ _ _ _ _ E) as L.
  assert (V0 : valid_time t0).
  { destruct (from_hist_ok t _ Hh) as [_ A]. rewrite E in A. inversion A as [|? ? [V0 _] _]; subst. exact V0. }
  assert (OWN : from t0 (B p d0 d1) = from t (B p d0 d1)).
  { rewrite E. clear - E L. induction (B p d0 d1) as [|[t1 q] h IH]; [discriminate E|]. cbn [from] in *.
    destruct (Z.leb_spec t1 t) as [A | A].
    - injection E as -> -> ->. now rewrite Z.leb_refl.
    - destruct (Z.leb_spec t1 t0); [lia | auto]. }
  destruct (tr_kept _ _ _ T _ _ _ _ _ _ _ K E) as [r0 G0].
  set (lo := Some (FormatHistoricalPoolIndexTimePrefix p d0 d1)).
  set (hi := Some (FormatHistoricalPoolIndexTimeSuffix p d0 d1 t)).
  assert (I0 : In (FormatHistoricalPoolIndexTWAPKey p d0 d1 t0, r0) (st_iter s lo hi)).
  { apply st_iter_in. split; [exact G0|]. apply in_suffix_range; auto. }
  rewrite st_riter_rev. destruct (rev (st_iter s lo hi)) as [|[k r] tl] eqn:R.
  { apply in_rev in I0. now rewrite R in I0. }
  apply rev_head_max in R as [I M]; [|apply st_iter_sorted]. apply st_iter_in in I as [G Rg].
  destruct (tracked_record _ _ _ _ _ T G) as [(P' & F0' & F1') [V' [y Iy]]].
  destruct (tr_sound _ _ _ T _ _ G) as [[-> _] | [-> Rr]].
  { unfold lo, hi in Rg. change (FormatHistoricalPoolIndexTimePrefix p d0 d1) with (hist_prefix p d0 d1) in Rg.
    rewrite suffix_key_eq in Rg. unfold recent_key in Rg. now rewrite recent_not_in_range in Rg. }
  apply in_suffix_range in Rg as (EP & E0 & E1 & Le); auto. unfold hist_of in Iy, Rr. rewrite EP, E0, E1 in Iy, Rr.
  assert (TR : Time r = t0).
  { destruct (from_newest t _ _ _ (proj1 Hh) Iy Le) as (t1 & p1 & r1 & E' & L1). rewrite E in E'. injection E' as <- _ _.
    destruct (M _ I0) as [Eq | Lt].
    - apply (f_equal fst) in Eq as Ek. cbn [fst] in Ek. unfold hist_key in Ek. rewrite EP, E0, E1 in Ek.
      apply hist_key_inj in Ek as (_ & _ & _ & ->); auto.
    - unfold key_lt in Lt. cbn [fst] in Lt. unfold hist_key in Lt. rewrite EP, E0, E1 in Lt.
      apply hist_key_order in Lt; auto. lia. }
  rewrite TR, OWN in Rr. exists r, tl. unfold hist_key. rewrite EP, E0, E1, TR. auto 10.
Qed.

End Tracks.
