(* ===== verification/TwapQuery.v ===== *)
(** * Price queries

    On a store that tracks the histories, the queries of [x/twap/api.go] answer
    for every time from which records are kept: the arithmetic average is the
    area under the recorded prices between the two times over the milliseconds
    between them, and lies between the prices in effect then. *)

From stdpp Require Import base strings pretty.
From Stdlib Require Import ZArith Lia List Bool Ascii Sorted.
From S2P Require Import Prelude GoBig BigInt BigDec BigDecPow SdkMath SdkMore Store GoState Twap TwapKeys TwapHistory.
Import ListNotations.

(** ** Averages of a history *)

(** The entries whose prices are in effect at some moment of [s, e). *)
Definition in_effect (s e : Z) (h : History) (x : Z * (Z * Z)) : Prop :=
  In x h /\ fst x < e /\ (s < fst x \/ exists rest, from s h = x :: rest).

Lemma area_between f lo hi s e h : StronglySorted later h -> s <= e -> from s h <> [] ->
  (forall x, in_effect s e h x -> lo <= f (snd x) <= hi) ->
  lo * (CanonicalTimeMs e - CanonicalTimeMs s) <= integral f h e - integral f h s
    <= hi * (CanonicalTimeMs e - CanonicalTimeMs s).
Proof.
  intros Sh. revert e. induction Sh as [|[t0 p] h Sh IH F]; intros e L N B; [now destruct N|].
  cbn [from] in N. cbn [integral]. pose proof (ms_mono s e L) as M.
  destruct (Z.leb_spec t0 s) as [A | A].
  - destruct (Z.leb_spec t0 e); [|lia].
    destruct (Z.eq_dec s e) as [-> | Ne]; [lia|].
    specialize (B (t0, p)). cbn [snd] in B.
    assert (lo <= f p <= hi); [|nia].
    apply B. repeat split; [now left | cbn; lia |]. right. exists h. cbn [from]. destruct (Z.leb_spec t0 s); [reflexivity | lia].
  - assert (Fr : from s ((t0, p) :: h) = from s h) by (cbn [from]; destruct (Z.leb_spec t0 s); [lia | reflexivity]).
    destruct (Z.leb_spec t0 e) as [Le | Gt].
    + assert (H1 : lo * (CanonicalTimeMs t0 - CanonicalTimeMs s) <= integral f h t0 - integral f h s
                     <= hi * (CanonicalTimeMs t0 - CanonicalTimeMs s)).
      { apply IH; [lia | exact N |]. intros x (I & X & W). apply B.
        split; [now right|]. split; [lia|]. rewrite Fr. exact W. }
      pose proof (ms_mono t0 e Le). destruct (Z.eq_dec t0 e) as [-> | Ne]; [nia|].
      specialize (B (t0, p)). cbn [snd] in B. assert (lo <= f p <= hi); [|nia].
      apply B. repeat split; [now left | cbn; lia | left; cbn; lia].
    + apply IH; [exact L | exact N |]. intros x (I & X & W). apply B.
      split; [now right|]. split; [exact X|]. rewrite Fr. exact W.
Qed.

Lemma quot_between a b lo hi : 0 < b -> lo * b <= a <= hi * b -> lo <= Z.quot a b <= hi.
Proof.
  intros Hb H. pose proof (Z.quot_rem' a b). pose proof (Z.rem_bound_abs a b ltac:(lia)).
  destruct (Z.le_gt_cases 0 a).
  - pose proof (Z.rem_nonneg a b ltac:(lia) ltac:(lia)). nia.
  - pose proof (Z.rem_nonpos a b ltac:(lia) ltac:(lia)). nia.
Qed.

(** ** Records for a time *)

Section Query.
Context {S : SdkMath} {SS : SdkMathSpec S} {SM : SdkMore} {SMS : SdkMoreSpec SM} {PM : PoolManagerInterface}
  {F : TimeFormat} {FS : TimeFormatSpec F} {KT : KVStore TwapRecord} {KTS : KVStoreSpec KT} {KC : KVStore unit}.

(** What a record interpolated to a time says. *)
Record snapshot (r : TwapRecord) (d0 d1 : string) (h : History) (t : Z) : Prop := {
  sn_d0 : Asset0Denom r = d0;
  sn_d1 : Asset1Denom r = d1;
  sn_time : Time r = t;
  sn_p0 : P0ArithmeticTwapAccumulator r = integral fst h t;
  sn_p1 : P1ArithmeticTwapAccumulator r = integral snd h t;
  sn_g : GeometricTwapAccumulator r = integral log_price h t
}.

Lemma LexicographicalOrderDenoms_idem a b d0 d1 :
  LexicographicalOrderDenoms a b = Ok (d0, d1) -> LexicographicalOrderDenoms d0 d1 = Ok (d0, d1).
Proof.
  unfold LexicographicalOrderDenoms. case_if; [discriminate|]. case_if; intros H; apply Ok_inj in H; injection H as <- <-.
  - rewrite String.eqb_sym, C. assert (string_lt a b = false) as ->; [|reflexivity].
    revert C0. unfold string_lt, bltb. rewrite (bcompare_antisym (string_bytes a)). now destruct (bcompare _ _).
  - now rewrite C, C0.
Qed.

Lemma at_snapshot r p d0 d1 h t : PoolId r = p -> Asset0Denom r = d0 -> Asset1Denom r = d1 ->
  snapshot (at_time r (from t h) t) d0 d1 h t.
Proof. intros. split; cbn; auto using integral_from. Qed.

Lemma interpolated kept (k : Keeper) B ctx p t base quote d0 d1 :
  tracks kept (tw_store k) B -> LexicographicalOrderDenoms base quote = Ok (d0, d1) -> valid_time t -> kept <= t ->
  from t (B p d0 d1) <> [] ->
  exists r, getInterpolatedRecord ctx p t base quote k = (Ok r, k) /\ snapshot r d0 d1 (B p d0 d1) t.
Proof.
  intros T O V K N. destruct (from t (B p d0 d1)) as [|[t0 x] rest] eqn:E; [now destruct N|]. rewrite <- E in N.
  destruct (find_record _ _ _ _ _ _ _ _ _ _ T V K E) as (r & tl & Ri & EP & E0 & E1 & R).
  pose proof (from_head _ _ _ _ _ E) as L. assert (Time r = t0) by (destruct R as (? & R & _); congruence). subst t0.
  set (r' := if Time r =? LastErrorTime r then with_errors r t else r).
  assert (R' : represents r' (from t (B p d0 d1)) /\ PoolId r' = p /\ Asset0Denom r' = d0 /\ Asset1Denom r' = d1
               /\ Time r' = Time r).
  { unfold r'. destruct (_ =? _); auto. }
  destruct R' as (R' & EP' & E0' & E1' & ET).
  exists (at_time r' (from t (B p d0 d1)) t). split; [|eapply at_snapshot; eauto].
  unfold getInterpolatedRecord, getRecordAtOrBeforeTime, lift, look, mbind. rewrite O, Ri, E0, E1, EP.
  rewrite !String.eqb_refl, Z.eqb_refl. cbn [negb orb]. unfold ret. fold r'.
  pose proof (tr_ok _ _ _ T p d0 d1). rewrite (interpolate r' (from t (B p d0 d1)) t); auto using from_hist_ok. lia.
Qed.

Lemma most_recent kept (k : Keeper) B ctx p base quote d0 d1 :
  tracks kept (tw_store k) B -> LexicographicalOrderDenoms base quote = Ok (d0, d1) -> valid_time (BlockTime ctx) ->
  B p d0 d1 <> [] -> up_to (BlockTime ctx) (B p d0 d1) ->
  exists r, getMostRecentRecord ctx p base quote k = (Ok r, k) /\ snapshot r d0 d1 (B p d0 d1) (BlockTime ctx).
Proof.
  intros T O V N U. destruct (recent_record _ _ _ _ _ _ T N) as (r & G & EP & E0 & E1 & R).
  assert (L : Time r <= BlockTime ctx) by (destruct R as (? & E & _); rewrite E in U; exact U).
  exists (at_time r (B p d0 d1) (BlockTime ctx)). split; [|split; cbn; auto].
  unfold getMostRecentRecord, getMostRecentRecordStoreRepresentation, lift, mbind. rewrite O, G.
  pose proof (tr_ok _ _ _ T p d0 d1). cbn [ParseTwapFromBz]. now rewrite (interpolate r (B p d0 d1)) by auto.
Qed.

(** The price of which the quote asset asks for the average. *)
Definition quoted (quote d0 : string) : Z * Z -> Z := if String.eqb quote d0 then fst else snd.

Lemma quoted_ok quote d0 : sel_ok (quoted quote d0).
Proof. unfold quoted. destruct (String.eqb quote d0); [apply fst_ok | apply snd_ok]. Qed.

Lemma arithmetic_value a b d0 d1 h s e quote : hist_ok h -> valid_time s -> valid_time e ->
  snapshot a d0 d1 h s -> snapshot b d0 d1 h e -> CanonicalTimeMs s < CanonicalTimeMs e ->
  exists faulty, computeTwap a b quote arithmetic =
    Ok (Z.quot (integral (quoted quote d0) h e - integral (quoted quote d0) h s) (CanonicalTimeMs e - CanonicalTimeMs s), faulty).
Proof.
  intros Hh Vs Ve A B L. unfold computeTwap. rewrite (sn_time _ _ _ _ _ A), (sn_time _ _ _ _ _ B).
  destruct (Z.eqb_spec (time_Sub e s) 0) as [Z0 | _].
  { exfalso. assert (e = s); [|subst; lia]. unfold valid_time in *. unfold time_Sub in Z0.
    repeat case_if_in Z0; b2p; lia. }
  assert (D : (if String.eqb quote (Asset0Denom a)
      then dec_Sub (P0ArithmeticTwapAccumulator b) (P0ArithmeticTwapAccumulator a)
      else dec_Sub (P1ArithmeticTwapAccumulator b) (P1ArithmeticTwapAccumulator a)) =
    Ok (integral (quoted quote d0) h e - integral (quoted quote d0) h s)).
  { rewrite (sn_d0 _ _ _ _ _ A), (sn_p0 _ _ _ _ _ A), (sn_p0 _ _ _ _ _ B), (sn_p1 _ _ _ _ _ A), (sn_p1 _ _ _ _ _ B).
    pose proof (area_bound _ h s (quoted_ok quote d0) Hh Vs) as Bs.
    pose proof (area_bound _ h e (quoted_ok quote d0) Hh Ve) as Be.
    assert (Ft : sdk_fits (integral (quoted quote d0) h e - integral (quoted quote d0) h s)).
    { apply fits_300. rewrite <- Z.add_opp_r. apply (area_fits _ _ e s); auto. now rewrite Z.abs_opp. }
    unfold quoted in *. destruct (String.eqb quote d0); now apply dec_Sub_total. }
  unfold arithmetic at 1. rewrite D, bind_ok. unfold AccumDiffDivDuration.
  rewrite (sn_time _ _ _ _ _ A), (sn_time _ _ _ _ _ B), dec_QuoInt64_total by lia. rewrite bind_ok. eauto.
Qed.

(** Both ends of a query are found. *)
Lemma query_snapshots kept (k : Keeper) B ctx p base quote d0 d1 s e strategy :
  tracks kept (tw_store k) B -> LexicographicalOrderDenoms base quote = Ok (d0, d1) ->
  valid_time s -> valid_time e -> kept <= s <= e -> e <= BlockTime ctx -> valid_time (BlockTime ctx) ->
  from s (B p d0 d1) <> [] -> up_to (BlockTime ctx) (B p d0 d1) ->
  exists a b, snapshot a d0 d1 (B p d0 d1) s /\ snapshot b d0 d1 (B p d0 d1) e /\
    getTwap ctx p base quote s e strategy k = (computeTwap a b quote strategy, k).
Proof.
  intros T O Vs Ve [K L] En Vn N U.
  destruct (interpolated _ k B ctx p s _ _ _ _ T O Vs K N) as (a & Ea & A).
  assert (NB : B p d0 d1 <> []) by (intros Z; now rewrite Z in N).
  assert (NE : from e (B p d0 d1) <> []).
  { destruct (from s (B p d0 d1)) as [|[t0 x] rest] eqn:Fs; [now destruct N|].
    pose proof (from_head _ _ _ _ _ Fs). assert (I : In (t0, x) (B p d0 d1)) by (apply (from_in s); rewrite Fs; now left).
    destruct (from_newest e _ _ _ (proj1 (tr_ok _ _ _ T p d0 d1)) I ltac:(lia)) as (? & ? & ? & -> & _). discriminate. }
  unfold getTwap, getTwapToNow. destruct (Z.gtb_spec s e); [lia|].
  destruct (Z.eqb_spec e (BlockTime ctx)) as [-> | Ne].
  - destruct (most_recent _ k B ctx p _ _ _ _ T O Vn NB U) as (b & Eb & Bb). exists a, b.
    split; [exact A|]. split; [exact Bb|]. destruct (Z.gtb_spec s (BlockTime ctx)); [lia|].
    unfold mbind. rewrite Ea. unfold GetBeginBlockAccumulatorRecord. rewrite Eb. reflexivity.
  - destruct (interpolated _ k B ctx p e _ _ _ _ T O Ve ltac:(lia) NE) as (b & Eb & Bb). exists a, b.
    split; [exact A|]. split; [exact Bb|]. destruct (Z.gtb_spec e (BlockTime ctx)); [lia|].
    unfold mbind. rewrite Ea, Eb. reflexivity.
Qed.

Lemma arithmetic_query kept (k : Keeper) B ctx p base quote d0 d1 s e :
  tracks kept (tw_store k) B -> LexicographicalOrderDenoms base quote = Ok (d0, d1) ->
  valid_time s -> valid_time e -> kept <= s -> CanonicalTimeMs s < CanonicalTimeMs e ->
  e <= BlockTime ctx -> valid_time (BlockTime ctx) -> from s (B p d0 d1) <> [] -> up_to (BlockTime ctx) (B p d0 d1) ->
  exists faulty, GetArithmeticTwap ctx p base quote s e k =
    (Ok (Z.quot (integral (quoted quote d0) (B p d0 d1) e - integral (quoted quote d0) (B p d0 d1) s)
           (CanonicalTimeMs e - CanonicalTimeMs s), faulty), k).
Proof.
  intros T O Vs Ve K L En Vn N U.
  assert (Lt : s < e) by (destruct (Z.lt_ge_cases s e) as [|G]; [assumption | apply ms_mono in G; lia]).
  destruct (query_snapshots _ k B ctx p _ _ _ _ s e arithmetic T O Vs Ve ltac:(lia) En Vn N U) as (a & b & A & Bb & Q).
  destruct (arithmetic_value a b _ _ _ _ _ quote (tr_ok _ _ _ T p d0 d1) Vs Ve A Bb L) as [f V]. exists f.
  unfold GetArithmeticTwap. now rewrite Q, V.
Qed.

End Query.
