(* ===== verification/TwapUpdate.v ===== *)
(** * Recording prices

    Storing a record, updating the records of a pool at the end of a block and
    pruning old records, against the histories of [TwapHistory]: an update
    notes the prices of the pool at the time of the block, and pruning forgets
    no record that a query from the time it keeps needs. *)

From stdpp Require Import base strings pretty.
From Stdlib Require Import ZArith Lia List Bool Ascii Sorted Permutation.
From S2P Require Import Prelude GoBig BigInt BigDec BigDecPow SdkMath SdkMore Store GoState Twap TwapKeys TwapHistory.
Import ListNotations.

(** What the module relies on from the pools: denominations are distinct and
    without the separator of the keys, prices are there unless there is an
    error, and are not negative. *)
Class PoolManagerSpec (PM : PoolManagerInterface) : Prop := {
  RouteGetPoolDenoms_ok P p ds e : RouteGetPoolDenoms P p = (ds, e) -> NoDup ds /\ Forall sepfree ds;
  RouteCalculateSpotPrice_some P p a b : RouteCalculateSpotPrice P p a b <> (None, false);
  RouteCalculateSpotPrice_nonneg P p a b x e : RouteCalculateSpotPrice P p a b = (Some x, e) -> 0 <= x;
  (** Pool ids count from one. *)
  GetNextPoolId_range P : 1 <= GetNextPoolId P < 2 ^ 64
}.

(** The histories with one of them replaced. *)
Definition upd (B : Book) (p : Z) (d0 d1 : string) (h : History) : Book :=
  fun p' d0' d1' => if (p' =? p) && String.eqb d0' d0 && String.eqb d1' d1 then h else B p' d0' d1'.

Lemma upd_eq B p d0 d1 h : upd B p d0 d1 h p d0 d1 = h.
Proof. unfold upd. now rewrite Z.eqb_refl, !String.eqb_refl. Qed.

Lemma upd_ne B p d0 d1 h p' d0' d1' : (p', d0', d1') <> (p, d0, d1) -> upd B p d0 d1 h p' d0' d1' = B p' d0' d1'.
Proof.
  intros N. unfold upd. destruct (Z.eqb_spec p' p), (String.eqb_spec d0' d0), (String.eqb_spec d1' d1); try reflexivity.
  now subst.
Qed.

Lemma same_pair_dec (p p' : Z) (d0 d0' d1 d1' : string) :
  {(p', d0', d1') = (p, d0, d1)} + {(p', d0', d1') <> (p, d0, d1)}.
Proof. repeat decide equality. Qed.

(** ** The store *)

Section Store.
Context {F : TimeFormat} {FS : TimeFormatSpec F} {KT : KVStore TwapRecord} {KTS : KVStoreSpec KT}.
Implicit Types (s : @St _ KT) (B : Book).

Definition prices (r : TwapRecord) : Z * Z := (P0LastSpotPrice r, P1LastSpotPrice r).

(** The histories after a new record. *)
Definition noted B (r : TwapRecord) : Book :=
  upd B (PoolId r) (Asset0Denom r) (Asset1Denom r) (note (Time r) (prices r) (hist_of B r)).

Definition put_record s (r : TwapRecord) : @St _ KT := st_set (st_set s (recent_key r) r) (hist_key r) r.

Lemma get_put s r key : key <> recent_key r -> key <> hist_key r -> st_get (put_record s r) key = st_get s key.
Proof. intros. unfold put_record. rewrite !get_set_ne; auto. Qed.

Lemma get_put_some s r key : (exists x, st_get s key = Some x) -> exists x, st_get (put_record s r) key = Some x.
Proof.
  unfold put_record. rewrite !st_get_set. destruct (bcompare (hist_key r) key); eauto;
  destruct (bcompare (recent_key r) key); eauto.
Qed.

Lemma get_put_recent s r : st_get (put_record s r) (recent_key r) = Some r.
Proof. unfold put_record. rewrite get_set_ne; [apply get_set_eq | intros E; symmetry in E; now apply recent_not_hist in E]. Qed.

Lemma get_put_hist s r : st_get (put_record s r) (hist_key r) = Some r.
Proof. apply get_set_eq. Qed.

(** The historical records of a pair are those of its other times. *)
Lemma sound_other kept s B r key x : tracks kept s B -> hist_ok (hist_of B r) -> up_to (Time r) (hist_of B r) ->
  st_get s key = Some x -> key <> recent_key r -> key <> hist_key r ->
  (key = recent_key x /\ represents x (hist_of (noted B r) x)) \/
  (key = hist_key x /\ represents x (from (Time x) (hist_of (noted B r) x))).
Proof.
  intros T Hh U G Nr Nh. pose proof (tr_sound _ _ _ T _ _ G) as So.
  destruct (tracked_record _ _ _ _ _ T G) as (_ & _ & y & I).
  destruct (same_pair_dec (PoolId r) (PoolId x) (Asset0Denom r) (Asset0Denom x) (Asset1Denom r) (Asset1Denom x)) as [E | N].
  - injection E as EP E0 E1. destruct So as [[K _] | [K R]].
    { destruct Nr. rewrite K. unfold recent_key. congruence. }
    right. split; [exact K|]. assert (H : hist_of B x = hist_of B r) by (unfold hist_of; congruence).
    assert (L : Time x < Time r).
    { rewrite H in I. assert (Time x <> Time r).
      { intros ET. apply Nh. rewrite K. unfold hist_key. congruence. }
      destruct (hist_of B r) as [|[t0 q] h] eqn:Eh; [destruct I|]. cbn [up_to] in U.
      destruct Hh as [Sh _]. inversion Sh as [|? ? _ A]; subst. rewrite Forall_forall in A.
      destruct I as [Ei | I]; [injection Ei as -> _; lia|]. specialize (A _ I). unfold later in A. cbn in A. lia. }
    unfold noted, hist_of at 1. rewrite EP, E0, E1, upd_eq, from_note_before by assumption.
    rewrite <- H. exact R.
  - unfold noted, hist_of. rewrite upd_ne by exact N. exact So.
Qed.

Lemma put_tracks kept s B r : tracks kept s B -> good_id (PoolId r) (Asset0Denom r) (Asset1Denom r) ->
  up_to (Time r) (hist_of B r) -> entry_ok (Time r, prices r) ->
  represents r (note (Time r) (prices r) (hist_of B r)) -> tracks kept (put_record s r) (noted B r).
Proof.
  intros T ID U O R. pose proof (tr_ok _ _ _ T (PoolId r) (Asset0Denom r) (Asset1Denom r)) as Hh.
  assert (New : hist_of (noted B r) r = note (Time r) (prices r) (hist_of B r)) by apply upd_eq.
  split.
  - intros key x G. destruct (list_eq_dec Z.eq_dec key (hist_key r)) as [-> | Nh].
    { rewrite get_put_hist in G. apply (inj Some) in G as <-. right. split; [reflexivity|].
      rewrite New, from_note_after by (auto; lia). exact R. }
    destruct (list_eq_dec Z.eq_dec key (recent_key r)) as [-> | Nr].
    { rewrite get_put_recent in G. apply (inj Some) in G as <-. left. split; [reflexivity|]. now rewrite New. }
    rewrite get_put in G by assumption. eauto using sound_other.
  - intros p d0 d1 N. destruct (same_pair_dec (PoolId r) p (Asset0Denom r) d0 (Asset1Denom r) d1) as [E | E].
    + injection E as -> -> ->. exists r. apply get_put_recent.
    + unfold noted in N. rewrite upd_ne in N by exact E. apply get_put_some, (tr_recent _ _ _ T _ _ _ N).
  - intros p d0 d1 t t0 x rest K. destruct (same_pair_dec (PoolId r) p (Asset0Denom r) d0 (Asset1Denom r) d1) as [E | E].
    + injection E as -> -> ->. unfold noted. rewrite upd_eq. destruct (Z.lt_ge_cases t (Time r)) as [Lt | Ge].
      * rewrite from_note_before by assumption. intros Fr. apply get_put_some, (tr_kept _ _ _ T _ _ _ _ _ _ _ K Fr).
      * rewrite from_note_after by assumption. destruct R as (rs & -> & _). intros Fr. injection Fr as <- _ _.
        exists r. apply get_put_hist.
    + unfold noted. rewrite upd_ne by exact E. intros Fr. apply get_put_some, (tr_kept _ _ _ T _ _ _ _ _ _ _ K Fr).
  - intros p d0 d1. destruct (same_pair_dec (PoolId r) p (Asset0Denom r) d0 (Asset1Denom r) d1) as [E | E].
    + injection E as -> -> ->. unfold noted. rewrite upd_eq. now apply note_hist_ok.
    + unfold noted. rewrite upd_ne by exact E. apply (tr_ok _ _ _ T).
  - intros p d0 d1. destruct (same_pair_dec (PoolId r) p (Asset0Denom r) d0 (Asset1Denom r) d1) as [E | E].
    + injection E as -> -> ->. auto.
    + unfold noted. rewrite upd_ne by exact E. apply (tr_id _ _ _ T).
Qed.

(** A historical record that is older than another one before the time kept is
    not needed. *)
Lemma delete_tracks kept s B p d0 d1 u u2 x2 : tracks kept s B -> good_id p d0 d1 -> valid_time u ->
  In (u2, x2) (B p d0 d1) -> u < u2 -> u2 <= kept ->
  tracks kept (st_delete s (FormatHistoricalPoolIndexTWAPKey p d0 d1 u)) B.
Proof.
  intros T ID V I L K. set (key := FormatHistoricalPoolIndexTWAPKey p d0 d1 u).
  split; try apply (tr_ok _ _ _ T); try apply (tr_id _ _ _ T).
  - intros k r G. apply (tr_sound _ _ _ T). destruct (list_eq_dec Z.eq_dec key k) as [<- | N].
    + rewrite get_delete_eq in G. discriminate.
    + now rewrite get_delete_ne in G.
  - intros p' d0' d1' N. rewrite get_delete_ne; [now apply (tr_recent _ _ _ T)|].
    intros E. symmetry in E. now apply recent_not_hist in E.
  - intros p' d0' d1' t t0 x rest Kt Fr. rewrite get_delete_ne; [eapply (tr_kept _ _ _ T); eassumption|].
    intros E. assert (I' : In (t0, x) (B p' d0' d1')) by (apply (from_in t); rewrite Fr; now left).
    assert (NE : B p' d0' d1' <> []) by (intros Z; now rewrite Z in I').
    destruct ID as (P & F0 & F1). destruct (tr_id _ _ _ T _ _ _ NE) as (P' & F0' & F1').
    destruct (tr_ok _ _ _ T p' d0' d1') as [Sh A]. rewrite Forall_forall in A. destruct (A _ I') as [V0 _].
    apply hist_key_inj in E as (<- & <- & <- & ->); auto.
    destruct (from_newest t _ _ _ Sh I ltac:(lia)) as (t1 & ? & ? & Fr' & L1). rewrite Fr in Fr'. injection Fr' as -> _ _. lia.
Qed.

Lemma tracks_weaken kept kept' s B : kept <= kept' -> tracks kept s B -> tracks kept' s B.
Proof. intros L [A1 A2 A3 A4 A5]. split; auto. intros. eapply A3; [|eassumption]. lia. Qed.

End Store.

(** ** The prices that are recorded *)

Lemma quot_between_nonneg a b m : 0 < b -> 0 <= a <= m * b -> 0 <= Z.quot a b <= m.
Proof. intros. rewrite Z.quot_div_nonneg by lia. split; [apply Z.div_pos | apply Z.div_le_upper_bound]; lia. Qed.

Section Prices.
Context {PM : PoolManagerInterface} {PMS : PoolManagerSpec PM}.

(** The spot price in units of [Dec], cut off at the greatest one. *)
Definition recorded_price (P : Pools) (p : Z) (quote base : string) : Z :=
  Dec (Z.min (default 0 (fst (RouteCalculateSpotPrice P p quote base))) MaxSpotPriceBigDec).

Definition observed (P : Pools) (p : Z) (d0 d1 : string) : Z * Z :=
  (recorded_price P p d0 d1, recorded_price P p d1 d0).

Lemma recorded_price_bound P p a b : 0 <= recorded_price P p a b <= MaxSpotPrice.
Proof.
  unfold recorded_price, Dec. change bigDecDecPrecisionFactorDiff with OneDec.
  assert (0 <= default 0 (fst (RouteCalculateSpotPrice P p a b))).
  { destruct (RouteCalculateSpotPrice P p a b) as [[x|] e] eqn:E; cbn; [eapply RouteCalculateSpotPrice_nonneg; exact E | lia]. }
  assert (M : MaxSpotPriceBigDec = MaxSpotPrice * OneDec) by reflexivity. pose proof OneDec_pos.
  assert (0 <= MaxSpotPrice) by (vm_compute; discriminate).
  apply quot_between_nonneg; [assumption|]. rewrite M. nia.
Qed.

Lemma getSpotPrices_observed ctx P p d0 d1 e :
  exists e', getSpotPrices ctx P p d0 d1 e = Ok (fst (observed P p d0 d1), snd (observed P p d0 d1), e').
Proof.
  unfold getSpotPrices, observed, recorded_price.
  destruct (RouteCalculateSpotPrice P p d0 d1) as [s0 e0] eqn:E0.
  destruct (RouteCalculateSpotPrice P p d1 d0) as [s1 e1] eqn:E1.
  assert (H0 : (if e0 || e1 then Some (default 0 s0) else s0) = Some (default 0 s0)).
  { destruct s0; [now destruct (e0 || e1)|]. destruct e0; [reflexivity|]. now apply RouteCalculateSpotPrice_some in E0. }
  assert (H1 : (if e0 || e1 then Some (default 0 s1) else s1) = Some (default 0 s1)).
  { destruct s1; [now destruct (e0 || e1)|]. destruct e1; [now rewrite orb_true_r|].
    now apply RouteCalculateSpotPrice_some in E1. }
  rewrite H0, H1. cbn [fst snd].
  assert (G : forall x, (if GT x MaxSpotPriceBigDec then MaxSpotPriceBigDec else x) = Z.min x MaxSpotPriceBigDec).
  { intros x. unfold GT. destruct (Z.gtb_spec x MaxSpotPriceBigDec); lia. }
  rewrite <- !G. destruct (GT (default 0 s0) MaxSpotPriceBigDec), (GT (default 0 s1) MaxSpotPriceBigDec); eauto.
Qed.

End Prices.

(** ** The records of a pool at the end of a block *)

Section Update.
Context {S : SdkMath} {SS : SdkMathSpec S} {SM : SdkMore} {SMS : SdkMoreSpec SM}
  {PM : PoolManagerInterface} {PMS : PoolManagerSpec PM}.

(** A record that a block may update: one of an earlier block, or one of this
    block with nothing accumulated. *)
Definition fresh (ctx : Ctx) (r : TwapRecord) : Prop :=
  Height r <= BlockHeight ctx /\
  (Height r < BlockHeight ctx /\ Time r < BlockTime ctx \/
   P0ArithmeticTwapAccumulator r = 0 \/ P1ArithmeticTwapAccumulator r = 0).

(** The new record of a pair. *)
Definition updated (ctx : Ctx) (P : Pools) (r n : TwapRecord) (h : History) : Prop :=
  PoolId n = PoolId r /\ Asset0Denom n = Asset0Denom r /\ Asset1Denom n = Asset1Denom r /\
  Time n = BlockTime ctx /\ Height n = BlockHeight ctx /\
  prices n = observed P (PoolId r) (Asset0Denom r) (Asset1Denom r) /\ represents n (note (Time n) (prices n) h).

Lemma updateRecord_updates ctx P r h : represents r h -> hist_ok h -> valid_time (BlockTime ctx) -> up_to (BlockTime ctx) h ->
  (exists e, updateRecord ctx P r = Err e /\ ~ fresh ctx r) \/
  (exists n, updateRecord ctx P r = Ok n /\ updated ctx P r n h).
Proof.
  intros R Hh V U. assert (L : Time r <= BlockTime ctx) by (destruct R as (? & -> & _); exact U).
  unfold updateRecord, fresh. case_if.
  { left. eexists. split; [reflexivity|]. rewrite !andb_true_iff, orb_true_iff in C.
    destruct C as [[[C | C] C1] C2]; b2p; lia. }
  case_if.
  { left. eexists. split; [reflexivity|]. apply orb_true_iff in C0 as [H0 | H0]; b2p; lia. }
  right. rewrite (interpolate r h) by assumption. rewrite bind_ok.
  destruct (getSpotPrices_observed ctx P (PoolId r) (Asset0Denom r) (Asset1Denom r) (LastErrorTime r)) as [e' ->].
  rewrite bind_ok. eexists. split; [reflexivity|]. unfold updated, prices. cbn. repeat split.
  destruct (note_shape (BlockTime ctx) (observed P (PoolId r) (Asset0Denom r) (Asset1Denom r)) h Hh U)
    as (rest & E & A & _). exists rest. cbn. rewrite !A. split; [exact E | auto].
Qed.

Context {F : TimeFormat} {FS : TimeFormatSpec F} {KT : KVStore TwapRecord} {KTS : KVStoreSpec KT}
  {KC : KVStore unit}.

Definition with_store (k : Keeper) (s : @St _ KT) : Keeper :=
  {| tw_store := s; tw_pruning := tw_pruning k; tw_transient := tw_transient k; tw_params := tw_params k;
     tw_pools := tw_pools k |}.

Lemma StoreNewRecord_put r k : StoreNewRecord r k = (Ok tt, with_store k (put_record (tw_store k) r)).
Proof. reflexivity. Qed.

(** No pair has a note after the time. *)
Definition timely (t : Z) (B : Book) : Prop := forall p d0 d1, up_to t (B p d0 d1).

Lemma up_to_note t p h : up_to t (note t p h).
Proof. destruct h as [|[t0 q] h]; cbn; [lia|]. destruct (t0 =? t); cbn; lia. Qed.

Lemma noted_timely B r : timely (Time r) B -> timely (Time r) (noted B r).
Proof.
  intros U p d0 d1. destruct (same_pair_dec (PoolId r) p (Asset0Denom r) d0 (Asset1Denom r) d1) as [E | E].
  - injection E as -> -> ->. unfold noted. rewrite upd_eq. apply up_to_note.
  - unfold noted. rewrite upd_ne by exact E. apply U.
Qed.

(** Some pairs of some pools get a note of the prices of the block. *)
Definition moves (ctx : Ctx) (P : Pools) (ids : Z -> Prop) (B B' : Book) : Prop :=
  forall p d0 d1, B' p d0 d1 = B p d0 d1 \/
    (ids p /\ B p d0 d1 <> [] /\ B' p d0 d1 = note (BlockTime ctx) (observed P p d0 d1) (B p d0 d1)).

Lemma note_twice t p q h : note t p (note t q h) = note t p h.
Proof. destruct h as [|[t0 x] h]; cbn; [now rewrite Z.eqb_refl|]. destruct (t0 =? t); cbn; now rewrite Z.eqb_refl. Qed.

Lemma note_some t p h : note t p h <> [].
Proof. destruct h as [|[t0 x] h]; cbn; [discriminate|]. destruct (t0 =? t); discriminate. Qed.

Lemma moves_trans ctx P ids B1 B2 B3 : moves ctx P ids B1 B2 -> moves ctx P ids B2 B3 -> moves ctx P ids B1 B3.
Proof.
  intros A C p d0 d1. destruct (A p d0 d1) as [E | (I & N & E)], (C p d0 d1) as [E' | (I' & N' & E')]; rewrite E', ?E in *; auto.
  right. now rewrite note_twice.
Qed.

Lemma moves_mono ctx P (ids ids' : Z -> Prop) B B' : (forall p, ids p -> ids' p) -> moves ctx P ids B B' -> moves ctx P ids' B B'.
Proof. intros M A p d0 d1. destruct (A p d0 d1) as [|(? & ? & ?)]; auto. Qed.

Lemma moves_refl ctx P ids B : moves ctx P ids B B.
Proof. intros p d0 d1. now left. Qed.

Lemma moves_nonempty ctx P ids B B' p d0 d1 : moves ctx P ids B B' -> (B' p d0 d1 <> [] <-> B p d0 d1 <> []).
Proof. intros A. destruct (A p d0 d1) as [-> | (_ & N & ->)]; [reflexivity|]. split; intros _; [exact N | apply note_some]. Qed.

(** A pair that has been given its note keeps it. *)
Lemma moves_keep ctx P ids B B' B2 p d0 d1 : moves ctx P ids B' B2 ->
  B' p d0 d1 = note (BlockTime ctx) (observed P p d0 d1) (B p d0 d1) ->
  B2 p d0 d1 = note (BlockTime ctx) (observed P p d0 d1) (B p d0 d1).
Proof. intros A E. destruct (A p d0 d1) as [-> | (_ & _ & ->)]; [exact E|]. now rewrite E, note_twice. Qed.

(** The records a pool's update works on. *)
Definition recents_of (s : @St _ KT) (p : Z) (rs : list TwapRecord) : Prop :=
  NoDup (map recent_key rs) /\ Forall (fun r => PoolId r = p /\ st_get s (recent_key r) = Some r) rs.

Definition same_recents (q : Z) (s s' : @St _ KT) : Prop :=
  forall d0 d1, good_id q d0 d1 -> st_get s' (FormatMostRecentTWAPKey q d0 d1) = st_get s (FormatMostRecentTWAPKey q d0 d1).

Lemma put_other_recents r s : good_id (PoolId r) (Asset0Denom r) (Asset1Denom r) ->
  forall q, q <> PoolId r -> same_recents q s (put_record s r).
Proof.
  intros (P & F0 & F1) q N d0 d1 (P' & F0' & F1'). apply get_put.
  - intros E. apply recent_key_inj in E as (-> & _); auto; lia.
  - intros E. now apply recent_not_hist in E.
Qed.

(** One record. *)
Lemma update_one kept k B ctx r n : tracks kept (tw_store k) B -> timely (BlockTime ctx) B -> valid_time (BlockTime ctx) ->
  st_get (tw_store k) (recent_key r) = Some r -> updated ctx (tw_pools k) r n (hist_of B r) ->
  let s' := put_record (tw_store k) n in
  tracks kept s' (noted B n) /\ timely (BlockTime ctx) (noted B n) /\
  moves ctx (tw_pools k) (eq (PoolId r)) B (noted B n) /\ (forall q, q <> PoolId r -> same_recents q (tw_store k) s') /\
  hist_of (noted B n) r = note (BlockTime ctx) (observed (tw_pools k) (PoolId r) (Asset0Denom r) (Asset1Denom r)) (hist_of B r).
Proof.
  intros T U V G (EP & E0 & E1 & ET & EH & EO & R). destruct (tracked_record _ _ _ _ _ T G) as (ID & _ & x & I).
  assert (Hn : hist_of B n = hist_of B r) by (unfold hist_of; congruence).
  assert (New : hist_of (noted B n) r =
    note (BlockTime ctx) (observed (tw_pools k) (PoolId r) (Asset0Denom r) (Asset1Denom r)) (hist_of B r)).
  { unfold noted, hist_of at 1. rewrite <- EP, <- E0, <- E1, upd_eq, ET, EO, Hn. now rewrite <- EP, <- E0, <- E1. }
  intros s'. split; [|split; [|split; [|split; [|exact New]]]].
  - apply put_tracks; [exact T | now rewrite EP, E0, E1 | rewrite ET, Hn; apply U | | now rewrite Hn].
    rewrite ET, EO. split; [exact V|]. cbn [fst snd]. split; apply recorded_price_bound.
  - rewrite <- ET in *. now apply noted_timely.
  - intros p d0 d1. destruct (same_pair_dec (PoolId n) p (Asset0Denom n) d0 (Asset1Denom n) d1) as [E | E].
    + right. injection E as -> -> ->. rewrite EP, E0, E1 in *. repeat split; [|exact New].
      intros Z. unfold hist_of in I. now rewrite Z in I.
    + left. unfold noted. now rewrite upd_ne.
  - rewrite <- EP. apply put_other_recents. now rewrite EP, E0, E1.
Qed.

(** No record is of a later block. *)
Definition low (ctx : Ctx) (s : @St _ KT) : Prop := forall key r, st_get s key = Some r -> Height r <= BlockHeight ctx.

Lemma put_low ctx s r : Height r <= BlockHeight ctx -> low ctx s -> low ctx (put_record s r).
Proof.
  intros H L key x. unfold put_record. rewrite !st_get_set.
  destruct (bcompare (hist_key r) key), (bcompare (recent_key r) key); intros E;
    first [apply (inj Some) in E; now subst | now apply L in E].
Qed.

(** What an update of a pool leaves behind, also when it stops with an error. *)
Record outcome (kept : Z) (ctx : Ctx) (ids : Z -> Prop) (k : Keeper) (B : Book) (res : Res unit) (k' : Keeper) (B' : Book) : Prop := {
  oc_result : is_panic res = false;
  oc_frame : k' = with_store k (tw_store k');
  oc_tracks : tracks kept (tw_store k') B';
  oc_timely : timely (BlockTime ctx) B';
  oc_moves : moves ctx (tw_pools k) ids B B';
  oc_low : low ctx (tw_store k) -> low ctx (tw_store k');
  oc_others q : ~ ids q -> same_recents q (tw_store k) (tw_store k')
}.

Lemma outcome_stop kept ctx ids k B e : tracks kept (tw_store k) B -> timely (BlockTime ctx) B ->
  outcome kept ctx ids k B (Err e) k B.
Proof. intros. split; auto using moves_refl. - now destruct k. - now intros q _ d0 d1 _. Qed.

Lemma outcome_trans kept ctx ids k1 B1 r1 k2 B2 r2 k3 B3 : outcome kept ctx ids k1 B1 r1 k2 B2 ->
  outcome kept ctx ids k2 B2 r2 k3 B3 -> outcome kept ctx ids k1 B1 r2 k3 B3.
Proof.
  intros [_ F1 _ _ M1 L1 O1] [N2 F2 T2 U2 M2 L2 O2]. assert (P : tw_pools k2 = tw_pools k1) by now rewrite F1.
  rewrite P in M2. split; auto.
  - now rewrite F2, F1.
  - eauto using moves_trans.
  - intros q N d0 d1 ID. rewrite (O2 q N d0 d1 ID). now apply O1.
Qed.

Lemma update_loop kept ctx p : forall rs k B,
  tracks kept (tw_store k) B -> timely (BlockTime ctx) B -> valid_time (BlockTime ctx) ->
  recents_of (tw_store k) p rs ->
  exists res k' B',
    for_each rs (fun record => newRecord <~ (fun k => (updateRecord ctx (tw_pools k) record, k)) ;; StoreNewRecord newRecord) k
      = (res, k') /\ outcome kept ctx (eq p) k B res k' B' /\
    (Forall (fresh ctx) rs -> res = Ok tt /\ Forall (fun r => hist_of B' r =
      note (BlockTime ctx) (observed (tw_pools k) (PoolId r) (Asset0Denom r) (Asset1Denom r)) (hist_of B r)) rs).
Proof.
  intros rs. induction rs as [|r rs IH]; intros k B T U V [ND A]; cbn [for_each].
  { exists (Ok tt), k, B. split; [reflexivity|]. split; [|auto].
    split; auto using moves_refl; [now destruct k | now intros q _ d0 d1 _]. }
  inversion A as [|? ? [EP G] A']; subst. cbn [map] in ND. inversion ND as [|? ? NI ND']; subst.
  assert (R : represents r (hist_of B r)).
  { destruct (tr_sound _ _ _ T _ _ G) as [[_ R] | [E _]]; [exact R | now apply recent_not_hist in E]. }
  unfold mbind at 1. unfold mbind at 1.
  destruct (updateRecord_updates ctx (tw_pools k) r _ R (tr_ok _ _ _ T _ _ _) V (U _ _ _)) as [(e & -> & NF) | (n & -> & Un)].
  { exists (Err e), k, B. split; [reflexivity|]. split; [now apply outcome_stop|].
    intros Fr. inversion Fr; contradiction. }
  rewrite StoreNewRecord_put.
  destruct (update_one kept k B ctx r n T U V G Un) as (T1 & U1 & M1 & O1 & New).
  pose proof Un as (EPn & E0n & E1n & _).
  set (k1 := with_store k (put_record (tw_store k) n)).
  assert (Rs : recents_of (tw_store k1) (PoolId r) rs).
  { split; [exact ND'|]. rewrite Forall_forall in *. intros x Ix. destruct (A' x Ix) as [EPx Gx]. split; [exact EPx|].
    cbn [tw_store k1 with_store]. rewrite get_put; [exact Gx | | intros E; now apply recent_not_hist in E].
    intros E. apply NI. replace (recent_key r) with (recent_key x) by (rewrite E; unfold recent_key; congruence).
    now apply in_map. }
  destruct (IH k1 (noted B n) T1 U1 V Rs) as (res & k' & B' & E & OC & All). exists res, k', B'. split; [exact E|].
  assert (OC1 : outcome kept ctx (eq (PoolId r)) k B (Ok tt) k1 (noted B n)).
  { split; auto. apply put_low. destruct Un as (_ & _ & _ & _ & -> & _). lia. }
  split; [now apply (outcome_trans _ _ _ _ _ _ _ _ _ _ _ OC1 OC)|].
  intros Fr. inversion Fr as [|? ? F0 Fr']; subst. destruct (All Fr') as [-> Ns]. split; [reflexivity|]. constructor.
  - apply (moves_keep ctx (tw_pools k) _ B (noted B n) B' _ _ _ (oc_moves _ _ _ _ _ _ _ _ OC)). exact New.
  - rewrite Forall_forall in *. intros x Ix. rewrite (Ns x Ix). cbn [tw_pools k1 with_store]. f_equal.
    unfold hist_of, noted. apply upd_ne. intros E3. injection E3 as X1 X2 X3. apply NI.
    replace (recent_key r) with (recent_key x) by (unfold recent_key; congruence). now apply in_map.
Qed.
(** ** The most recent records of a pool *)

Lemma recent_sound kept s B key r : tracks kept s B -> st_get s key = Some r ->
  hd 0 key <> hd 0 (string_bytes HistoricalTWAPPoolIndexPrefix) -> key = recent_key r.
Proof. intros T G N. destruct (tr_sound _ _ _ T _ _ G) as [[E _] | [E _]]; [exact E|]. rewrite E in N. now destruct N. Qed.

Lemma sorted_keys_nodup {V} (l : list (bytes * V)) : StronglySorted key_lt l -> NoDup (map fst l).
Proof.
  induction 1 as [|x l O IH A]; cbn [map]; constructor; [|exact IH]. intros I. apply in_map_iff in I as (y & E & I).
  rewrite Forall_forall in A. specialize (A _ I). unfold key_lt in A. rewrite E in A. now apply blt_irrefl in A.
Qed.

(** The iteration over the most recent records of a pool finds them all. *)
Lemma iterated_recents kept k B p : tracks kept (tw_store k) B -> 0 <= p < 2 ^ 64 - 1 ->
  exists rs, GetAllMostRecentTwapsForPool p k = (Ok rs, k) /\ recents_of (tw_store k) p rs /\
    forall d0 d1, B p d0 d1 <> [] -> exists r, In r rs /\ Asset0Denom r = d0 /\ Asset1Denom r = d1.
Proof.
  intros T Hp. unfold GetAllMostRecentTwapsForPool, look.
  match goal with |- context [st_iter (tw_store k) ?lo ?hi] => set (l := st_iter (tw_store k) lo hi);
    pose proof (st_iter_sorted (tw_store k) lo hi) as O; fold l in O;
    pose proof (st_iter_in (tw_store k) lo hi) as I; fold l in I end.
  assert (A : forall key r, In (key, r) l -> st_get (tw_store k) key = Some r /\ key = recent_key r /\ PoolId r = p).
  { intros key r J. apply I in J as [G Rg]. split; [exact G|]. destruct (tracked_record _ _ _ _ _ T G) as [(P & _) _].
    destruct (tr_sound _ _ _ T _ _ G) as [[-> _] | [-> _]].
    - split; [reflexivity|]. unfold recent_key in Rg. apply in_recent_range in Rg; [exact Rg | exact Hp | lia].
    - unfold hist_key in Rg. now rewrite hist_not_recent_range in Rg. }
  exists (map snd l). split; [reflexivity|]. split.
  - split.
    + replace (map recent_key (map snd l)) with (map fst l); [now apply sorted_keys_nodup|].
      rewrite map_map. apply map_ext_in. intros [key r] J. now destruct (A _ _ J) as (_ & -> & _).
    + apply Forall_forall. intros r J. apply in_map_iff in J as ([key r'] & E & J). cbn in E. subst r'.
      destruct (A _ _ J) as (G & -> & EP). auto.
  - intros d0 d1 N. destruct (recent_record _ _ _ _ _ _ T N) as (r & G & EP & E0 & E1 & _). exists r.
    split; [|auto]. apply in_map_iff. exists (FormatMostRecentTWAPKey p d0 d1, r). split; [reflexivity|].
    apply I. split; [exact G|]. apply in_recent_range; lia.
Qed.

(** The pairs that have records are those of the pool's denominations. *)
Definition conforms (P : Pools) (B : Book) (p : Z) : Prop :=
  exists ds pairs, RouteGetPoolDenoms P p = (ds, None) /\ GetAllUniqueDenomPairs ds = Ok pairs /\
    forall d0 d1, B p d0 d1 <> [] <-> In (d0, d1) pairs.

(** One record for every pair that has a history. *)
Definition covers (B : Book) (p : Z) (ds : list string) (rs : list TwapRecord) : Prop :=
  Z.quot (Z.of_nat (List.length ds) * (Z.of_nat (List.length ds) - 1)) 2 = Z.of_nat (List.length rs) /\
  forall d0 d1, B p d0 d1 <> [] -> exists r, In r rs /\ Asset0Denom r = d0 /\ Asset1Denom r = d1.

Lemma iterated_covers kept k B p ds pairs rs : tracks kept (tw_store k) B -> NoDup ds ->
  GetAllUniqueDenomPairs ds = Ok pairs -> (forall d0 d1, B p d0 d1 <> [] <-> In (d0, d1) pairs) ->
  recents_of (tw_store k) p rs ->
  (forall d0 d1, B p d0 d1 <> [] -> exists r, In r rs /\ Asset0Denom r = d0 /\ Asset1Denom r = d1) -> covers B p ds rs.
Proof.
  intros T ND E Iff [NK A] All. split; [|exact All].
  destruct (unique_pairs ds ND) as (ps & E' & NP & Len & _). rewrite E in E'. apply Ok_inj in E'. subst ps.
  set (ids := map (fun r => (Asset0Denom r, Asset1Denom r)) rs). rewrite Forall_forall in A.
  assert (NI : NoDup ids).
  { replace (map recent_key rs) with (map (fun d => FormatMostRecentTWAPKey p (fst d) (snd d)) ids) in NK.
    - revert NK. apply NoDup_map_inv.
    - unfold ids. rewrite map_map. apply map_ext_in. intros r I. cbn [fst snd]. unfold recent_key.
      now destruct (A r I) as [-> _]. }
  assert (P : Permutation ids pairs).
  { apply NoDup_Permutation; [exact NI | exact NP|]. intros [d0 d1]. rewrite <- Iff. split.
    - intros I. apply in_map_iff in I as (r & Er & I). injection Er as <- <-. destruct (A r I) as [EP G].
      destruct (tracked_record _ _ _ _ _ T G) as (_ & _ & x & J). unfold hist_of in J. rewrite EP in J.
      intros Z. now rewrite Z in J.
    - intros N. destruct (All _ _ N) as (r & I & <- & <-). apply in_map_iff. eauto. }
  apply Permutation_length in P. unfold ids in P. rewrite length_map in P. rewrite P, <- Len, Z.mul_comm, Z.quot_mul; lia.
Qed.

Lemma pool_records kept k B p ds e : tracks kept (tw_store k) B -> 0 <= p < 2 ^ 64 - 1 ->
  RouteGetPoolDenoms (tw_pools k) p = (ds, e) ->
  (exists m, GetAllMostRecentRecordsForPoolWithDenoms p ds k = (Err m, k) /\ ~ conforms (tw_pools k) B p) \/
  (exists rs, GetAllMostRecentRecordsForPoolWithDenoms p ds k = (Ok rs, k) /\ recents_of (tw_store k) p rs /\
     (conforms (tw_pools k) B p -> covers B p ds rs)).
Proof.
  intros T Hp D. destruct (RouteGetPoolDenoms_ok _ _ _ _ D) as [ND SF].
  assert (Iter : exists rs, GetAllMostRecentTwapsForPool p k = (Ok rs, k) /\ recents_of (tw_store k) p rs /\
     (conforms (tw_pools k) B p -> covers B p ds rs)).
  { destruct (iterated_recents _ k B p T Hp) as (rs & Q & R & All). exists rs. split; [exact Q|]. split; [exact R|].
    intros (ds' & pairs & D' & E & Iff). rewrite D in D'. injection D' as <- _. eauto using iterated_covers. }
  destruct ds as [|a [|b [|c ds]]]; try (right; exact Iter).
  inversion ND as [|? ? Na _]; subst. assert (Nab : a <> b) by (intros ->; apply Na; now left).
  destruct (two_denoms a b Nab) as (d0 & d1 & Ep & Eo).
  assert (S01 : sepfree d0 /\ sepfree d1).
  { inversion SF as [|? ? Sa SF']; subst. inversion SF' as [|? ? Sb _]; subst. revert Eo. unfold LexicographicalOrderDenoms.
    case_if; [discriminate|]. case_if; intros H; apply Ok_inj in H; injection H as <- <-; auto. }
  cbn [GetAllMostRecentRecordsForPoolWithDenoms]. unfold lift, mbind. rewrite Eo.
  destruct (st_get (tw_store k) (FormatMostRecentTWAPKey p d0 d1)) as [r|] eqn:G; cbn [ParseTwapFromBz].
  - right. exists [r]. destruct (tracked_record _ _ _ _ _ T G) as [(P' & F0' & F1') _].
    assert (K : FormatMostRecentTWAPKey p d0 d1 = recent_key r) by (apply (recent_sound _ _ _ _ _ T G); discriminate).
    pose proof K as K'. unfold recent_key in K'. apply recent_key_inj in K' as (EP & E0 & E1); try tauto; try lia.
    split; [reflexivity|]. split.
    { split; [repeat constructor; auto|]. repeat constructor; [congruence | now rewrite <- K]. }
    intros (ds' & pairs & D' & E & Iff). rewrite D in D'. injection D' as <-. rewrite Ep in E. apply Ok_inj in E. subst pairs.
    split; [reflexivity|]. intros x0 x1 N. apply Iff in N as [N | []]. injection N as <- <-. exists r. split; [now left | auto].
  - left. eexists. split; [reflexivity|]. intros (ds' & pairs & D' & E & Iff). rewrite D in D'. injection D' as <- _.
    rewrite Ep in E. apply Ok_inj in E. subst pairs.
    destruct (tr_recent _ _ _ T p d0 d1) as [r Gr]; [apply Iff; now left | congruence].
Qed.

(** The records of a pool that its update may work on. *)
Definition settled (ctx : Ctx) (s : @St _ KT) (p : Z) : Prop :=
  forall d0 d1 r, good_id p d0 d1 -> st_get s (FormatMostRecentTWAPKey p d0 d1) = Some r -> fresh ctx r.

Lemma updateRecords_outcome kept ctx p k B :
  tracks kept (tw_store k) B -> timely (BlockTime ctx) B -> valid_time (BlockTime ctx) -> 0 <= p < 2 ^ 64 - 1 ->
  exists res k' B', updateRecords ctx p k = (res, k') /\ outcome kept ctx (eq p) k B res k' B' /\
    (conforms (tw_pools k) B p -> settled ctx (tw_store k) p -> forall d0 d1, B p d0 d1 <> [] ->
       B' p d0 d1 = note (BlockTime ctx) (observed (tw_pools k) p d0 d1) (B p d0 d1)).
Proof.
  intros T U V Hp. unfold updateRecords, look. unfold mbind at 1.
  destruct (RouteGetPoolDenoms (tw_pools k) p) as [ds [e|]] eqn:D.
  { exists (Err e), k, B. split; [reflexivity|]. split; [now apply outcome_stop|]. intros (? & ? & D' & _). congruence. }
  unfold mbind at 1. destruct (pool_records _ k B p ds None T Hp D) as [(m & -> & NC) | (rs & -> & R & C)].
  { exists (Err m), k, B. split; [reflexivity|]. split; [now apply outcome_stop | contradiction]. }
  cbv zeta. case_if.
  { exists (Err "InvalidRecordCountError"), k, B. split; [reflexivity|]. split; [now apply outcome_stop|].
    intros Cf. destruct (C Cf) as [L _]. rewrite L, Z.eqb_refl in C0. discriminate. }
  destruct (update_loop kept ctx p rs k B T U V R) as (res & k' & B' & E & OC & All). exists res, k', B'.
  split; [exact E|]. split; [exact OC|]. intros Cf St d0 d1 N. destruct (C Cf) as [_ Cov].
  destruct (Cov d0 d1 N) as (r & I & <- & <-). destruct R as [_ A]. rewrite Forall_forall in A.
  destruct All as [_ Ns].
  - apply Forall_forall. intros x J. destruct (A x J) as [<- G]. destruct (tracked_record _ _ _ _ _ T G) as [ID _]. eauto.
  - rewrite Forall_forall in Ns. specialize (Ns r I). destruct (A r I) as [EP _]. unfold hist_of in Ns. now rewrite EP in Ns.
Qed.

End Update.
