(* ===== verification/TwapPrune.v ===== *)
(** * Pruning old price records

    [pruneRecordsBeforeTimeButNewest] deletes, a limited number per block, the
    historical records before a time except the newest of each pair, so every
    query from that time on still finds the record it needs. *)

From stdpp Require Import base strings pretty.
From Stdlib Require Import ZArith Lia List Bool Ascii Sorted Permutation.
From S2P Require Import Prelude GoBig BigInt BigDec BigDecPow SdkMath SdkMore Store GoState Twap TwapKeys.
From S2P Require Import TwapHistory TwapUpdate.
Import ListNotations.

Section Prune.
Context {PM : PoolManagerInterface} {PMS : PoolManagerSpec PM} {F : TimeFormat} {FS : TimeFormatSpec F}
  {KT : KVStore TwapRecord} {KTS : KVStoreSpec KT} {KC : KVStore unit}.

(** The most recent records are untouched and the histories still tracked. *)
Record pruned (kept : Z) (B : Book) (s s' : @St _ KT) : Prop := {
  pr_tracks : tracks kept s' B;
  pr_less key r : st_get s' key = Some r -> st_get s key = Some r;
  pr_recents q : same_recents q s s'
}.

Lemma pruned_refl kept B s : tracks kept s B -> pruned kept B s s.
Proof. intros T. split; auto. now intros q d0 d1 _. Qed.

Lemma pruned_trans kept B s1 s2 s3 : pruned kept B s1 s2 -> pruned kept B s2 s3 -> pruned kept B s1 s3.
Proof. intros [_ L1 R1] [T2 L2 R2]. split; auto. intros q d0 d1 I. now rewrite (R2 q d0 d1 I), (R1 q d0 d1 I). Qed.

(** A key that pruning may delete. *)
Definition outdated (kept : Z) (B : Book) (p : Z) (d0 d1 : string) (key : bytes) : Prop :=
  exists u u2 x2, key = FormatHistoricalPoolIndexTWAPKey p d0 d1 u /\ valid_time u /\
    In (u2, x2) (B p d0 d1) /\ u < u2 /\ u2 <= kept.

Lemma delete_pruned kept B p d0 d1 s key : tracks kept s B -> good_id p d0 d1 -> outdated kept B p d0 d1 key ->
  pruned kept B s (st_delete s key).
Proof.
  intros T ID (u & u2 & x2 & -> & V & I & L & K). split.
  - eauto using delete_tracks.
  - intros k r G. rewrite st_get_delete in G. now destruct (bcompare _ k).
  - intros q e0 e1 _. apply get_delete_ne. intros E. symmetry in E. now apply recent_not_hist in E.
Qed.

Lemma prune_keys_pruned kept B p d0 d1 : good_id p d0 d1 -> forall keys n k, tracks kept (tw_store k) B ->
  Forall (outdated kept B p d0 d1) keys ->
  exists m hit s', prune_keys keys n k = (Ok (m, hit), with_store k s') /\ pruned kept B (tw_store k) s'.
Proof.
  intros ID keys. induction keys as [|key keys IH]; intros n k T A; cbn [prune_keys].
  - exists n, false, (tw_store k). split; [now destruct k | now apply pruned_refl].
  - inversion A as [|? ? O A']; subst. pose proof (delete_pruned _ _ _ _ _ _ _ T ID O) as P1.
    unfold mbind at 1, set_store, modify. destruct (n + 1 >=? NumRecordsToPrunePerBlock).
    + exists (n + 1), true, (st_delete (tw_store k) key). split; [reflexivity | exact P1].
    + destruct (IH (n + 1) (with_store k (st_delete (tw_store k) key)) (pr_tracks _ _ _ _ P1) A') as (m & hit & s' & E & P2).
      exists m, hit, s'. split; [exact E | eapply pruned_trans; eassumption].
Qed.

(** In a reversed iteration every key is below the first one. *)
Lemma rev_tail_lt {V} (l : list (bytes * V)) x tl : StronglySorted key_lt l -> rev l = x :: tl ->
  Forall (fun y => key_lt y x) tl.
Proof.
  intros O E. apply Forall_forall. intros y I. destruct (rev_head_max l x tl O E) as [_ M].
  assert (L : l = (rev tl ++ [x])%list) by (rewrite <- (rev_involutive l), E; reflexivity).
  assert (ND : NoDup (map fst l)) by now apply sorted_keys_nodup.
  destruct (M y) as [-> | Lt]; [|  | exact Lt].
  - rewrite L. apply in_or_app. left. now apply -> in_rev.
  - rewrite L, map_app in ND. cbn [map] in ND. apply NoDup_remove_2 in ND. destruct ND. rewrite app_nil_r.
    apply in_map. now apply -> in_rev.
Qed.

Lemma prune_pair_pruned kept B p dp last n k : tracks kept (tw_store k) B -> good_id p dp.1 dp.2 -> valid_time last -> last <= kept ->
  exists m hit s', prune_pair p dp last n k = (Ok (m, hit), with_store k s') /\ pruned kept B (tw_store k) s'.
Proof.
  intros T ID V L. pose proof ID as (P & F0 & F1). unfold prune_pair, look. unfold mbind at 1.
  apply (prune_keys_pruned kept B p dp.1 dp.2 ID); [exact T|]. rewrite st_riter_rev.
  match goal with |- context [st_iter (tw_store k) ?lo ?hi] => set (l := st_iter (tw_store k) lo hi);
    pose proof (st_iter_sorted (tw_store k) lo hi) as O; fold l in O;
    pose proof (st_iter_in (tw_store k) lo hi) as I; fold l in I end.
  assert (A : forall key r, In (key, r) l -> key = FormatHistoricalPoolIndexTWAPKey p dp.1 dp.2 (Time r) /\
    valid_time (Time r) /\ Time r < last /\ exists x, In (Time r, x) (B p dp.1 dp.2)).
  { intros key r J. apply I in J as [G Rg]. destruct (tracked_record _ _ _ _ _ T G) as ((P' & F0' & F1') & V' & x & Ix).
    destruct (tr_sound _ _ _ T _ _ G) as [[-> _] | [-> _]].
    - change (FormatHistoricalPoolIndexDenomPairTWAPKey p dp.1 dp.2) with (hist_prefix p dp.1 dp.2) in Rg.
      rewrite hist_key_eq in Rg. unfold recent_key in Rg. now rewrite recent_not_in_range in Rg.
    - unfold hist_key in Rg |- *. apply in_time_range in Rg as (EP & E0 & E1 & Lt); auto. unfold hist_of in Ix.
      rewrite EP, E0, E1 in *. eauto. }
  destruct (rev l) as [|[k0 r0] tl] eqn:R; [constructor|]. cbn [map List.tl].
  pose proof (rev_tail_lt _ _ _ O R) as Below. destruct (rev_head_max _ _ _ O R) as [I0 _].
  destruct (A _ _ I0) as (E0 & V0 & L0 & x0 & Ix0).
  apply Forall_forall. intros key J. apply in_map_iff in J as ([key' r] & E & J). cbn [fst] in E. subst key'.
  assert (Il : In (key, r) l) by (apply in_rev; rewrite R; now right). destruct (A _ _ Il) as (Ek & Vk & Lk & _).
  rewrite Forall_forall in Below. specialize (Below _ J). unfold key_lt in Below. cbn [fst] in Below.
  rewrite Ek, E0 in Below. apply hist_key_order in Below; [|assumption..].
  exists (Time r), (Time r0), x0. repeat split; try assumption; try apply Vk. lia.
Qed.

Lemma prune_pairs_pruned kept B p last : valid_time last -> last <= kept -> forall pairs n k, tracks kept (tw_store k) B ->
  Forall (fun dp => good_id p dp.1 dp.2) pairs ->
  exists m hit s', prune_pairs p pairs last n k = (Ok (m, hit), with_store k s') /\ pruned kept B (tw_store k) s'.
Proof.
  intros V L pairs. induction pairs as [|dp pairs IH]; intros n k T A; cbn [prune_pairs].
  - exists n, false, (tw_store k). split; [now destruct k | now apply pruned_refl].
  - inversion A as [|? ? ID A']; subst. unfold mbind at 1.
    destruct (prune_pair_pruned kept B p dp last n k T ID V L) as (m & hit & s' & -> & P1). destruct hit.
    + exists m, true, s'. split; [reflexivity | exact P1].
    + destruct (IH m (with_store k s') (pr_tracks _ _ _ _ P1) A') as (m2 & hit2 & s2 & E & P2).
      exists m2, hit2, s2. split; [exact E | eapply pruned_trans; eassumption].
Qed.

(** What the keeper looks like after pruning. *)
Definition after_prune (kept : Z) (B : Book) (k k' : Keeper) : Prop :=
  pruned kept B (tw_store k) (tw_store k') /\ tw_transient k' = tw_transient k /\ tw_params k' = tw_params k /\
  tw_pools k' = tw_pools k.

Lemma after_prune_refl kept B k : tracks kept (tw_store k) B -> after_prune kept B k k.
Proof. intros T. split; [now apply pruned_refl | auto]. Qed.

Definition pruning_ok (kept : Z) (st : PruningState) : Prop :=
  IsPruning st = true -> valid_time (LastKeptTime st) /\ LastKeptTime st <= kept /\ 0 <= LastSeenPoolId st < 2 ^ 64 - 1.

Lemma prune_pools_pruned kept B st : valid_time (LastKeptTime st) -> LastKeptTime st <= kept ->
  forall n numPruned k, Z.of_nat n < 2 ^ 64 - 1 -> tracks kept (tw_store k) B ->
  exists res k', prune_pools n st numPruned k = (res, k') /\ is_panic res = false /\ after_prune kept B k k' /\
    (tw_pruning k' = tw_pruning k \/ exists id, 0 <= id < 2 ^ 64 - 1 /\
       tw_pruning k' = {| IsPruning := IsPruning st; LastKeptTime := LastKeptTime st; LastSeenPoolId := id |}).
Proof.
  intros V L n. induction n as [|n IH]; intros num k Hn T; cbn [prune_pools].
  { exists (Ok false), k. auto using after_prune_refl. }
  cbv zeta. unfold mbind at 1, look. destruct (RouteGetPoolDenoms (tw_pools k) (Z.of_nat (Datatypes.S n))) as [ds [e|]] eqn:D.
  { exists (Err e), k. auto using after_prune_refl. }
  destruct (RouteGetPoolDenoms_ok _ _ _ _ D) as [ND SF]. rewrite Forall_forall in SF.
  destruct (unique_pairs ds ND) as (pairs & Ep & _ & _ & In2). unfold mbind at 1, lift. rewrite Ep. unfold mbind at 1.
  destruct (prune_pairs_pruned kept B (Z.of_nat (Datatypes.S n)) _ V L pairs num k T) as (m & hit & s' & -> & P1).
  { apply Forall_forall. intros [a b] I. destruct (In2 a b I) as (Ia & Ib & _). repeat split; auto; lia. }
  destruct hit.
  - eexists (Ok true), _. split; [reflexivity|]. split; [reflexivity|]. split; [split; [exact P1 | auto]|].
    right. exists (Z.of_nat (Datatypes.S n)). split; [lia | reflexivity].
  - destruct (IH m (with_store k s') ltac:(lia) (pr_tracks _ _ _ _ P1)) as (res & k' & E & NP & (P2 & E1 & E2 & E3) & Pr).
    exists res, k'. split; [exact E|]. split; [exact NP|]. split; [|exact Pr].
    split; [eapply pruned_trans; eassumption | auto].
Qed.

Lemma prune_records_pruned kept B k : tracks kept (tw_store k) B -> pruning_ok kept (tw_pruning k) ->
  IsPruning (tw_pruning k) = true ->
  exists res k', pruneRecordsBeforeTimeButNewest (tw_pruning k) k = (res, k') /\ is_panic res = false /\
    after_prune kept B k k' /\ pruning_ok kept (tw_pruning k').
Proof.
  intros T Ok On. destruct (Ok On) as (V & L & R). unfold pruneRecordsBeforeTimeButNewest. unfold mbind at 1.
  destruct (prune_pools_pruned kept B (tw_pruning k) V L (Z.to_nat (LastSeenPoolId (tw_pruning k))) 0 k ltac:(lia) T)
    as (res & k' & -> & NP & A & Pr).
  assert (Ok' : pruning_ok kept (tw_pruning k')).
  { destruct Pr as [-> | (id & Hid & ->)]; [exact Ok|]. intros _. auto. }
  destruct res as [hit|e|m]; [|exists (Err e), k'; auto | discriminate NP].
  unfold when. destruct (negb hit && (0 <? LastSeenPoolId (tw_pruning k))).
  - eexists (Prelude.Ok tt), _. split; [reflexivity|]. split; [reflexivity|]. split; [exact A|]. intros E. discriminate E.
  - exists (Prelude.Ok tt), k'. auto.
Qed.

End Prune.
