(* ===== verification/TwapCorrect.v ===== *)
(** * Correctness of [x/twap]

    [Chain] is what the module promises to keep: for every pair of every pool
    the history of prices at the ends of the blocks that changed the pool.
    [twap_refines]: whatever the chain does (blocks, swaps, new pools, epochs),
    the module follows, it neither fails nor panics, and its store answers for
    these histories; [arithmetic_twap_average] and [arithmetic_twap_between] say
    what the answers are. *)

From stdpp Require Import base strings pretty.
From Stdlib Require Import ZArith Lia List Bool Ascii Sorted Permutation.
From S2P Require Import Prelude GoBig BigInt BigDec BigDecPow SdkMath SdkMore Store GoState Twap TwapKeys.
From S2P Require Import TwapHistory TwapQuery TwapUpdate TwapPrune.
Import ListNotations.

Section Chain.
Context {S : SdkMath} {SS : SdkMathSpec S} {SM : SdkMore} {SMS : SdkMoreSpec SM}
  {PM : PoolManagerInterface} {PMS : PoolManagerSpec PM} {F : TimeFormat} {FS : TimeFormatSpec F}
  {KT : KVStore TwapRecord} {KTS : KVStoreSpec KT} {KC : KVStore unit} {KCS : KVStoreSpec KC}.

(** ** The specification *)

Record Chain : Type := {
  c_ctx : Ctx;            (** the block *)
  c_ended : bool;         (** its end has been handled *)
  c_changed : list Z;     (** the pools changed in it *)
  c_kept : Z;             (** answers are promised from this time on *)
  c_book : Book;          (** the prices noted so far *)
  c_params : Params;
  c_pools : Pools
}.

Inductive Op : Type :=
| NextBlock (ctx : Ctx)
| PoolsMove (P : Pools)
| PoolCreated (p : Z)
| PoolChanged (p : Z)
| EpochEnd (id : string)
| BlockEnd.

Definition now (c : Chain) : Z := BlockTime (c_ctx c).

Definition pairs_of (P : Pools) (p : Z) : list (string * string) :=
  match GetAllUniqueDenomPairs (fst (RouteGetPoolDenoms P p)) with Ok l => l | _ => [] end.

Definition has_pair (d0 d1 : string) (l : list (string * string)) : bool :=
  existsb (fun dp => String.eqb dp.1 d0 && String.eqb dp.2 d1) l.

(** A new pool starts histories for its pairs. *)
Definition opened (t : Z) (P : Pools) (p : Z) (l : list (string * string)) (B : Book) : Book :=
  fun q d0 d1 => if (q =? p) && has_pair d0 d1 l then [(t, observed P p d0 d1)] else B q d0 d1.

(** At the end of a block every pair of a changed pool gets its prices noted. *)
Definition recorded (c : Chain) : Book :=
  fun q d0 d1 =>
    match c_book c q d0 d1 with
    | [] => []
    | h => if existsb (Z.eqb q) (c_changed c) then note (now c) (observed (c_pools c) q d0 d1) h else h
    end.

Definition spec_op (op : Op) (c : Chain) : Chain :=
  match op with
  | NextBlock ctx =>
      {| c_ctx := ctx; c_ended := false; c_changed := []; c_kept := c_kept c; c_book := c_book c;
         c_params := c_params c; c_pools := c_pools c |}
  | PoolsMove P =>
      {| c_ctx := c_ctx c; c_ended := c_ended c; c_changed := c_changed c; c_kept := c_kept c; c_book := c_book c;
         c_params := c_params c; c_pools := P |}
  | PoolCreated p =>
      {| c_ctx := c_ctx c; c_ended := c_ended c; c_changed := p :: c_changed c; c_kept := c_kept c;
         c_book := opened (now c) (c_pools c) p (pairs_of (c_pools c) p) (c_book c);
         c_params := c_params c; c_pools := c_pools c |}
  | PoolChanged p =>
      {| c_ctx := c_ctx c; c_ended := c_ended c; c_changed := p :: c_changed c; c_kept := c_kept c; c_book := c_book c;
         c_params := c_params c; c_pools := c_pools c |}
  | EpochEnd id =>
      {| c_ctx := c_ctx c; c_ended := c_ended c; c_changed := c_changed c;
         c_kept := if String.eqb id (PruneEpochIdentifier (c_params c))
                   then Z.max (c_kept c) (now c - RecordHistoryKeepPeriod (c_params c)) else c_kept c;
         c_book := c_book c; c_params := c_params c; c_pools := c_pools c |}
  | BlockEnd =>
      {| c_ctx := c_ctx c; c_ended := true; c_changed := c_changed c; c_kept := c_kept c; c_book := recorded c;
         c_params := c_params c; c_pools := c_pools c |}
  end.

(** What the chain may do: time and height grow, the denominations of a pool
    with records stay, a pool is created once, a block ends once. *)
Definition allowed (op : Op) (c : Chain) : Prop :=
  match op with
  | NextBlock ctx => BlockHeight (c_ctx c) < BlockHeight ctx /\ now c < BlockTime ctx /\ valid_time (BlockTime ctx)
  | PoolsMove P => forall p d0 d1, c_book c p d0 d1 <> [] -> RouteGetPoolDenoms P p = RouteGetPoolDenoms (c_pools c) p
  | PoolCreated p => 0 <= p < 2 ^ 64 - 1 /\ (forall d0 d1, c_book c p d0 d1 = []) /\
      exists ds, RouteGetPoolDenoms (c_pools c) p = (ds, None)
  | PoolChanged p => 0 <= p < 2 ^ 64 - 1
  | EpochEnd _ => 0 <= RecordHistoryKeepPeriod (c_params c) <= now c
  | BlockEnd => c_ended c = false
  end.

(** ** The module *)

(** A transient store is empty at the beginning of a block. *)
Definition run_op (op : Op) (ctx : Ctx) (k : Keeper) : Res unit * Keeper :=
  match op with
  | NextBlock _ => (Ok tt, {| tw_store := tw_store k; tw_pruning := tw_pruning k; tw_transient := st_empty;
                              tw_params := tw_params k; tw_pools := tw_pools k |})
  | PoolsMove P => (Ok tt, {| tw_store := tw_store k; tw_pruning := tw_pruning k; tw_transient := tw_transient k;
                              tw_params := tw_params k; tw_pools := P |})
  | PoolCreated p => mustTrackCreatedPool ctx p k
  | PoolChanged p => trackChangedPool p k
  | EpochEnd id => AfterEpochEnd ctx id k
  | BlockEnd => EndBlock ctx k
  end.

Definition marks (changed : list Z) (tr : @St _ KC) : Prop :=
  (forall p, In p changed -> 0 <= p < 2 ^ 64 - 1) /\
  forall key, st_get tr key = Some tt <-> exists p, In p changed /\ key = PutUint64_LE p.

Record refines (c : Chain) (k : Keeper) : Prop := {
  rf_tracks : tracks (c_kept c) (tw_store k) (c_book c);
  rf_timely : timely (now c) (c_book c);
  rf_time : valid_time (now c);
  rf_low : low (c_ctx c) (tw_store k);
  rf_fresh : c_ended c = false -> forall p, settled (c_ctx c) (tw_store k) p;
  rf_conforms p d0 d1 : c_book c p d0 d1 <> [] -> conforms (c_pools c) (c_book c) p;
  rf_changed : marks (c_changed c) (tw_transient k);
  rf_pruning : pruning_ok (c_kept c) (tw_pruning k);
  rf_params : tw_params k = c_params c;
  rf_pools : tw_pools k = c_pools c
}.

(** ** The pools changed in a block *)

Lemma Uint64_LE_Put n : 0 <= n < 2 ^ 64 -> Uint64_LE (PutUint64_LE n) = n.
Proof. intros H. exact (Uint64ToBigEndian_value (BigEndianSpec := big_endian_ref_spec) n H). Qed.

Lemma changed_pools c k : marks (c_changed c) (tw_transient k) ->
  exists ids, getChangedPools k = (Ok ids, k) /\ forall p, In p ids <-> In p (c_changed c).
Proof.
  intros [R M]. unfold getChangedPools, look. eexists. split; [reflexivity|]. intros p. rewrite in_map_iff. split.
  - intros ([key []] & E & I). apply st_iter_in in I as [G _]. apply M in G as (q & I & ->). cbn [fst] in E.
    rewrite Uint64_LE_Put in E by (specialize (R q I); lia). now subst.
  - intros I. exists (PutUint64_LE p, tt). split; [apply Uint64_LE_Put; specialize (R p I); lia|].
    apply st_iter_in. split; [|reflexivity]. apply M. eauto.
Qed.

Lemma marks_set changed tr p : 0 <= p < 2 ^ 64 - 1 -> marks changed tr -> marks (p :: changed) (st_set tr (PutUint64_LE p) tt).
Proof.
  intros Hp [R M]. split; [intros q [<- | I]; auto|]. intros key.
  destruct (list_eq_dec Z.eq_dec (PutUint64_LE p) key) as [<- | N].
  - rewrite get_set_eq. split; [|reflexivity]. intros _. exists p. split; [now left | reflexivity].
  - rewrite get_set_ne by exact N. rewrite M. split; intros (q & I & E); exists q; (split; [|exact E]); [now right|].
    destruct I as [<- | I]; [congruence | exact I].
Qed.

(** ** The end of a block *)

Lemma moves_conforms ctx P ids B B' p : moves ctx P ids B B' -> conforms P B p -> conforms P B' p.
Proof.
  intros M (ds & pairs & D & E & Iff). exists ds, pairs. split; [exact D|]. split; [exact E|].
  intros d0 d1. rewrite <- Iff. eauto using moves_nonempty.
Qed.

Lemma update_all kept ctx : forall ids k B, tracks kept (tw_store k) B -> timely (BlockTime ctx) B -> valid_time (BlockTime ctx) ->
  (forall p, In p ids -> 0 <= p < 2 ^ 64 - 1) ->
  exists k' B', for_each ids (fun id => logged (updateRecords ctx id)) k = (Ok tt, k') /\
    outcome kept ctx (fun p => In p ids) k B (Ok tt) k' B' /\
    forall p d0 d1, In p ids -> conforms (tw_pools k) B p -> settled ctx (tw_store k) p -> B p d0 d1 <> [] ->
      B' p d0 d1 = note (BlockTime ctx) (observed (tw_pools k) p d0 d1) (B p d0 d1).
Proof.
  intros ids. induction ids as [|id ids IH]; intros k B T U V R; cbn [for_each].
  { exists k, B. split; [reflexivity|]. split; [|intros ? ? ? []].
    split; auto using moves_refl; [now destruct k | now intros q _ d0 d1 _]. }
  destruct (updateRecords_outcome kept ctx id k B T U V (R id (or_introl eq_refl))) as (res & k1 & B1 & E & OC & N1).
  assert (El : logged (updateRecords ctx id) k = (Ok tt, k1)).
  { unfold logged. rewrite E. destruct res as [[]|e|m]; [reflexivity..|]. destruct OC as [X _ _ _ _ _ _]. discriminate X. }
  unfold mbind. rewrite El.
  destruct (IH k1 B1 (oc_tracks _ _ _ _ _ _ _ _ OC) (oc_timely _ _ _ _ _ _ _ _ OC) V (fun p I => R p (or_intror I)))
    as (k2 & B2 & E2 & OC2 & N2).
  exists k2, B2. split; [exact E2|].
  assert (P1 : tw_pools k1 = tw_pools k) by (rewrite (oc_frame _ _ _ _ _ _ _ _ OC); reflexivity).
  assert (W1 : outcome kept ctx (fun p => In p (id :: ids)) k B res k1 B1).
  { destruct OC as [A1 A2 A3 A4 A5 A6 A7]. split; auto.
    - eapply moves_mono; [|exact A5]. intros p ->. now left.
    - intros q N. apply A7. intros ->. apply N. now left. }
  assert (W2 : outcome kept ctx (fun p => In p (id :: ids)) k1 B1 (Ok tt) k2 B2).
  { destruct OC2 as [A1 A2 A3 A4 A5 A6 A7]. split; auto.
    - eapply moves_mono; [|exact A5]. intros p I. now right.
    - intros q N. apply A7. intros I. apply N. now right. }
  split; [eapply outcome_trans; eassumption|].
  intros p d0 d1 I Cf St N. rewrite P1 in N2. pose proof (oc_moves _ _ _ _ _ _ _ _ OC2) as M2. rewrite P1 in M2.
  destruct (Z.eq_dec id p) as [-> | Ne].
  - eapply moves_keep; [exact M2|]. now apply N1.
  - destruct I as [I | I]; [congruence|].
    assert (Same : forall e0 e1, B1 p e0 e1 = B p e0 e1).
    { intros e0 e1. destruct (oc_moves _ _ _ _ _ _ _ _ OC p e0 e1) as [Eq | (Eq & _)]; [exact Eq | congruence]. }
    rewrite <- Same. apply N2; [exact I | | | now rewrite Same].
    + eapply moves_conforms; [exact (oc_moves _ _ _ _ _ _ _ _ OC) | exact Cf].
    + intros e0 e1 r ID G. apply (St e0 e1); [exact ID|]. rewrite <- (oc_others _ _ _ _ _ _ _ _ OC p); auto.
Qed.

(** The books agree on every pair. *)
Definition same_book (B B' : Book) : Prop := forall p d0 d1, B p d0 d1 = B' p d0 d1.

Lemma tracks_same kept (s : @St _ KT) B B' : same_book B B' -> tracks kept s B -> tracks kept s B'.
Proof.
  intros E [A1 A2 A3 A4 A5]. split.
  - intros key r G. unfold hist_of. rewrite <- E. now apply A1.
  - intros p d0 d1. rewrite <- E. auto.
  - intros p d0 d1 t t0 x rest. rewrite <- E. eauto.
  - intros p d0 d1. rewrite <- E. auto.
  - intros p d0 d1. rewrite <- E. auto.
Qed.

Lemma moves_recorded c B : moves (c_ctx c) (c_pools c) (fun p => In p (c_changed c)) (c_book c) B ->
  (forall p d0 d1, In p (c_changed c) -> c_book c p d0 d1 <> [] ->
     B p d0 d1 = note (now c) (observed (c_pools c) p d0 d1) (c_book c p d0 d1)) -> same_book B (recorded c).
Proof.
  intros M N p d0 d1. unfold recorded. destruct (M p d0 d1) as [E | (_ & Ne & E)].
  - destruct (c_book c p d0 d1) as [|e h] eqn:Eh; [exact E|].
    destruct (existsb (Z.eqb p) (c_changed c)) eqn:X; [|exact E].
    apply existsb_exists in X as (q & I & Eq). apply Z.eqb_eq in Eq as <-. rewrite <- Eh. apply N; [exact I | congruence].
  - destruct (c_book c p d0 d1) as [|e h] eqn:Eh; [now destruct Ne|].
    destruct (existsb (Z.eqb p) (c_changed c)) eqn:X; [exact E|].
    destruct (M p d0 d1) as [E' | (I & _ & _)]; [now rewrite E', Eh|].
    exfalso. assert (T : existsb (Z.eqb p) (c_changed c) = true) by (apply existsb_exists; exists p; split; [exact I | apply Z.eqb_refl]).
    congruence.
Qed.

Lemma recorded_moves c : moves (c_ctx c) (c_pools c) (fun p => In p (c_changed c)) (c_book c) (recorded c).
Proof.
  intros p d0 d1. unfold recorded. destruct (c_book c p d0 d1) as [|e h] eqn:Eh; [now left|].
  destruct (existsb (Z.eqb p) (c_changed c)) eqn:X; [right | now left].
  apply existsb_exists in X as (q & I & Eq). apply Z.eqb_eq in Eq as <-. repeat split; [exact I | discriminate].
Qed.

Lemma block_end_refines c k : refines c k -> c_ended c = false ->
  exists k', EndBlock (c_ctx c) k = (Ok tt, k') /\ refines (spec_op BlockEnd c) k'.
Proof.
  intros [T U V L Fr Cf Ch Pr Pa Po] En. destruct (changed_pools c k Ch) as (ids & Eids & Iff).
  destruct (update_all (c_kept c) (c_ctx c) ids k (c_book c) T U V) as (k1 & B1 & E1 & OC & N).
  { intros p I. apply Iff in I. now apply (proj1 Ch). }
  destruct OC as [_ F1 T1 U1 M1 L1 O1]. rewrite Po in M1, N.
  assert (SB : same_book B1 (recorded c)).
  { apply moves_recorded; [eapply moves_mono; [|exact M1]; intros p; apply Iff|]. intros p d0 d1 I Ne.
    apply N; [now apply Iff | now apply (Cf p d0 d1) | now apply Fr | exact Ne]. }
  pose proof (tracks_same _ _ _ _ SB T1) as T1'.
  assert (Rest : forall k', pruned (c_kept c) (recorded c) (tw_store k1) (tw_store k') -> tw_transient k' = tw_transient k ->
     tw_params k' = tw_params k -> tw_pools k' = tw_pools k -> pruning_ok (c_kept c) (tw_pruning k') ->
     refines (spec_op BlockEnd c) k').
  { intros k' P Et Ep Eo Pk. split; cbn [spec_op c_ctx c_kept c_book c_ended c_changed c_params c_pools]; auto; try congruence.
    - apply P.
    - intros p d0 d1. rewrite <- SB. apply U1.
    - intros key r G. eapply L1; [exact L | eapply (pr_less _ _ _ _ P); exact G].
    - intros p d0 d1 Ne. eapply moves_conforms; [apply recorded_moves|]. apply (Cf p d0 d1).
      now apply (moves_nonempty _ _ _ _ _ p d0 d1 (recorded_moves c)). }
  unfold EndBlock. unfold mbind at 1. rewrite Eids. unfold mbind at 1. rewrite E1. unfold mbind, GetPruningState.
  assert (Pr1 : tw_pruning k1 = tw_pruning k) by now rewrite F1.
  unfold when. destruct (IsPruning (tw_pruning k1)) eqn:On.
  - destruct (prune_records_pruned (c_kept c) (recorded c) k1 T1') as (res & k' & Ek & NP & (P & X1 & X2 & X3) & Pk);
      [now rewrite Pr1 | exact On |].
    exists k'. split.
    { unfold logged. rewrite Ek. destruct res as [[]|e|m]; try discriminate NP; reflexivity. }
    apply Rest; auto; rewrite F1 in *; assumption.
  - exists k1. split; [reflexivity|]. apply Rest; try (now rewrite F1); auto using pruned_refl.
Qed.

(** ** A new pool *)

Lemma put_settled ctx (s : @St _ KT) r : fresh ctx r -> (forall p, settled ctx s p) -> forall p, settled ctx (put_record s r) p.
Proof.
  intros Fr A p d0 d1 x ID G. revert G. unfold put_record. rewrite !st_get_set.
  set (key := FormatMostRecentTWAPKey p d0 d1). destruct (bcompare (hist_key r) key), (bcompare (recent_key r) key); intros E;
    first [apply (inj Some) in E; now subst | now apply (A p d0 d1)].
Qed.

Lemma has_pair_in d0 d1 l : has_pair d0 d1 l = true <-> In (d0, d1) l.
Proof.
  unfold has_pair. rewrite existsb_exists. split.
  - intros ([a b] & I & E). cbn [fst snd] in E. apply andb_prop in E as [Ea Eb].
    apply String.eqb_eq in Ea as ->. apply String.eqb_eq in Eb as ->. exact I.
  - intros I. exists (d0, d1). cbn. now rewrite !String.eqb_refl.
Qed.

Lemma newTwapRecord_value ctx P p d0 d1 : LexicographicalOrderDenoms d0 d1 = Ok (d0, d1) ->
  exists r, newTwapRecord ctx P p d0 d1 = Ok r /\ PoolId r = p /\ Asset0Denom r = d0 /\ Asset1Denom r = d1 /\
    Time r = BlockTime ctx /\ prices r = observed P p d0 d1 /\ fresh ctx r /\ represents r [(BlockTime ctx, observed P p d0 d1)].
Proof.
  intros O. unfold newTwapRecord. rewrite O, bind_ok.
  destruct (getSpotPrices_observed ctx P p d0 d1 zero_time) as [e ->]. rewrite bind_ok. eexists. split; [reflexivity|].
  unfold fresh, represents, prices. cbn. repeat split; auto; [lia|]. exists []. auto.
Qed.

(** What the records of a new pool leave behind. *)
Record created (kept : Z) (ctx : Ctx) (P : Pools) (p : Z) (l : list (string * string)) (B : Book) (s s' : @St _ KT) : Prop := {
  cr_tracks : tracks kept s' (opened (BlockTime ctx) P p l B);
  cr_timely : timely (BlockTime ctx) (opened (BlockTime ctx) P p l B);
  cr_low : low ctx s -> low ctx s';
  cr_settled : (forall q, settled ctx s q) -> forall q, settled ctx s' q
}.

Lemma create_loop kept ctx p : valid_time (BlockTime ctx) -> forall l k B, tracks kept (tw_store k) B -> timely (BlockTime ctx) B ->
  NoDup l -> (forall a b, In (a, b) l -> good_id p a b /\ LexicographicalOrderDenoms a b = Ok (a, b) /\ B p a b = []) ->
  exists s', for_each l (fun dp => record <~ (fun k => (newTwapRecord ctx (tw_pools k) p dp.1 dp.2, k)) ;; StoreNewRecord record) k
      = (Ok tt, with_store k s') /\ created kept ctx (tw_pools k) p l B (tw_store k) s'.
Proof.
  intros V l. induction l as [|[a b] l IH]; intros k B T U ND A; cbn [for_each].
  { exists (tw_store k). split; [now destruct k|].
    assert (SB : same_book B (opened (BlockTime ctx) (tw_pools k) p [] B)) by (intros q d0 d1; unfold opened; now rewrite andb_false_r).
    split; auto; [eapply tracks_same; eassumption|]. intros q d0 d1. rewrite <- SB. apply U. }
  inversion ND as [|? ? NI ND']; subst. destruct (A a b (or_introl eq_refl)) as (ID & O & Em).
  destruct (newTwapRecord_value ctx (tw_pools k) p a b O) as (r & Er & EP & E0 & E1 & ET & EO & Fr & R).
  assert (Hr : hist_of B r = []) by (unfold hist_of; congruence).
  assert (T1 : tracks kept (put_record (tw_store k) r) (noted B r)).
  { apply put_tracks; [exact T | now rewrite EP, E0, E1 | now rewrite Hr | | rewrite Hr; cbn [note]; now rewrite ET, EO].
    rewrite ET, EO. split; [exact V|]. cbn [fst snd]. split; apply recorded_price_bound. }
  assert (U1 : timely (BlockTime ctx) (noted B r)) by (rewrite <- ET in *; now apply noted_timely).
  unfold mbind at 1. unfold mbind at 1. cbn [fst snd]. rewrite Er, StoreNewRecord_put.
  destruct (IH (with_store k (put_record (tw_store k) r)) (noted B r) T1 U1 ND') as (s' & E & [C1 C2 C3 C4]).
  { intros x y I. destruct (A x y (or_intror I)) as (IDx & Ox & Ex). split; [exact IDx|]. split; [exact Ox|].
    unfold noted. rewrite upd_ne; [exact Ex|]. rewrite EP, E0, E1. intros Eq. injection Eq as -> ->. contradiction. }
  exists s'. split; [exact E|]. cbn [tw_store tw_pools with_store] in *.
  assert (SB : same_book (opened (BlockTime ctx) (tw_pools k) p l (noted B r)) (opened (BlockTime ctx) (tw_pools k) p ((a, b) :: l) B)).
  { intros q d0 d1. unfold opened, noted, upd. cbn [has_pair existsb fst snd]. fold (has_pair d0 d1 l). rewrite EP, E0, E1, ET, EO, Hr.
    cbn [note]. destruct (Z.eqb_spec q p) as [-> |]; [|reflexivity]. cbn [andb].
    rewrite (String.eqb_sym d0 a), (String.eqb_sym d1 b).
    destruct (String.eqb_spec a d0) as [<- |]; [|reflexivity]. destruct (String.eqb_spec b d1) as [<- |]; [|reflexivity].
    cbn [andb orb]. now destruct (has_pair a b l). }
  split; [eapply tracks_same; eassumption | | |].
  - intros q d0 d1. rewrite <- SB. apply C2.
  - intros Lo. apply C3, put_low; [apply Fr | exact Lo].
  - intros St. apply C4. now apply put_settled.
Qed.

Lemma conforms_opened t P p ds pairs B q d0 d1 : RouteGetPoolDenoms P p = (ds, None) -> GetAllUniqueDenomPairs ds = Ok pairs ->
  (forall a b, B p a b = []) -> (forall a b, B q a b <> [] -> conforms P B q) ->
  opened t P p pairs B q d0 d1 <> [] -> conforms P (opened t P p pairs B) q.
Proof.
  intros D E Em Cf N. unfold opened in N. destruct (Z.eqb_spec q p) as [-> | Ne]; cbn [andb] in N.
  - exists ds, pairs. split; [exact D|]. split; [exact E|]. intros a b. unfold opened. rewrite Z.eqb_refl. cbn [andb].
    rewrite <- has_pair_in. destruct (has_pair a b pairs); [split; [reflexivity | discriminate]|].
    rewrite Em. split; [now intros [] | discriminate].
  - destruct (Cf _ _ N) as (ds' & ps & D' & E' & Iff). exists ds', ps. split; [exact D'|]. split; [exact E'|].
    intros a b. unfold opened. destruct (Z.eqb_spec q p); [contradiction|]. cbn [andb]. apply Iff.
Qed.

Lemma pool_created_refines c k p : refines c k -> allowed (PoolCreated p) c ->
  exists k', mustTrackCreatedPool (c_ctx c) p k = (Ok tt, k') /\ refines (spec_op (PoolCreated p) c) k'.
Proof.
  intros [T U V L Fr Cf Ch Pr Pa Po] (Hp & Em & ds & D). destruct (RouteGetPoolDenoms_ok _ _ _ _ D) as [ND SF].
  rewrite Forall_forall in SF. destruct (unique_pairs ds ND) as (pairs & Ep & NP & _ & Ord).
  destruct (create_loop (c_kept c) (c_ctx c) p V pairs k (c_book c) T U NP) as (s' & E & C).
  { intros a b I. destruct (Ord a b I) as (Ia & Ib & O). split; [repeat split; auto; lia | auto]. }
  rewrite Po in C. destruct C as [C1 C2 C3 C4].
  assert (PE : pairs_of (c_pools c) p = pairs) by (unfold pairs_of; rewrite D; cbn [fst]; now rewrite Ep).
  eexists. split.
  { unfold mustTrackCreatedPool, afterCreatePool, look. unfold mbind at 1. rewrite Po, D. unfold mbind at 1, lift. rewrite Ep.
    unfold mbind at 1. rewrite E. reflexivity. }
  split; cbn [spec_op c_ctx c_kept c_book c_ended c_changed c_params c_pools tw_store tw_transient tw_pruning tw_params tw_pools
    with_store]; rewrite ?PE; auto.
  - intros q d0 d1. eauto using conforms_opened.
  - now apply marks_set.
Qed.

Lemma next_block_refines c k ctx : refines c k -> allowed (NextBlock ctx) c ->
  exists k', run_op (NextBlock ctx) (c_ctx c) k = (Ok tt, k') /\ refines (spec_op (NextBlock ctx) c) k'.
Proof.
  intros [T U V L Fr Cf Ch Pr Pa Po] (Hh & Ht & Vt). eexists. split; [reflexivity|].
  assert (Lo : low ctx (tw_store k)) by (intros key r G; apply L in G; lia).
  split; cbn [spec_op c_ctx c_kept c_book c_ended c_changed c_params c_pools tw_store tw_transient tw_pruning tw_params tw_pools]; auto.
  - intros p d0 d1. specialize (U p d0 d1). unfold up_to in *. unfold now in *. cbn [c_ctx] in *.
    destruct (c_book c p d0 d1) as [|[t0 x] h]; [exact U | lia].
  - intros _ p d0 d1 r ID G. pose proof (L _ _ G) as Hr. split; [lia|]. left. split; [lia|].
    assert (R : represents r (hist_of (c_book c) r)).
    { destruct (tr_sound _ _ _ T _ _ G) as [[_ R] | [E _]]; [exact R | now apply recent_not_hist in E]. }
    destruct R as (rest & E & _). specialize (U (PoolId r) (Asset0Denom r) (Asset1Denom r)). unfold hist_of in E.
    rewrite E in U. cbn [up_to] in U. unfold now in *. lia.
  - split; [intros p []|]. intros key. rewrite st_get_empty. split; [discriminate | intros (p & [] & _)].
Qed.

Lemma epoch_end_refines c k id : refines c k -> allowed (EpochEnd id) c ->
  exists k', AfterEpochEnd (c_ctx c) id k = (Ok tt, k') /\ refines (spec_op (EpochEnd id) c) k'.
Proof.
  intros [T U V L Fr Cf Ch Pr Pa Po] Hp. cbn [allowed] in Hp. unfold AfterEpochEnd, look. unfold mbind at 1. rewrite Pa.
  assert (Stay : forall kept st, c_kept c <= kept -> pruning_ok kept st ->
    refines {| c_ctx := c_ctx c; c_ended := c_ended c; c_changed := c_changed c; c_kept := kept; c_book := c_book c;
               c_params := c_params c; c_pools := c_pools c |}
      {| tw_store := tw_store k; tw_pruning := st; tw_transient := tw_transient k; tw_params := tw_params k; tw_pools := tw_pools k |}).
  { intros kept st Le Ok. split; auto. eapply tracks_weaken; eassumption. }
  cbn [spec_op]. destruct (String.eqb id (PruneEpochIdentifier (c_params c))).
  - unfold mbind, when. pose proof (GetNextPoolId_range (tw_pools k)) as Hn.
    assert (E : uint64 (GetNextPoolId (tw_pools k) - 1) = GetNextPoolId (tw_pools k) - 1) by (unfold uint64; rewrite Z.mod_small; lia).
    rewrite E. unfold now, valid_time in *. case_if.
    + eexists. split; [reflexivity|]. apply Stay; [lia|]. intros _. cbn [LastKeptTime LastSeenPoolId]. unfold valid_time. lia.
    + exists k. split; [reflexivity|]. replace k with {| tw_store := tw_store k; tw_pruning := tw_pruning k;
        tw_transient := tw_transient k; tw_params := tw_params k; tw_pools := tw_pools k |} by now destruct k.
      apply Stay; [lia|]. intros On. destruct (Pr On) as (A & B & D). split; [exact A|]. split; [lia | exact D].
  - exists k. split; [reflexivity|]. replace k with {| tw_store := tw_store k; tw_pruning := tw_pruning k;
      tw_transient := tw_transient k; tw_params := tw_params k; tw_pools := tw_pools k |} by now destruct k.
    now apply Stay.
Qed.

Lemma op_refines c k op : refines c k -> allowed op c ->
  exists k', run_op op (c_ctx c) k = (Ok tt, k') /\ refines (spec_op op c) k'.
Proof.
  intros R A. destruct op as [ctx|P|p|p|id|].
  - now apply next_block_refines.
  - destruct R as [T U V L Fr Cf Ch Pr Pa Po]. eexists. split; [reflexivity|]. split; auto.
    intros p d0 d1 N. destruct (Cf p d0 d1 N) as (ds & ps & D & X). exists ds, ps.
    split; [|exact X]. cbn [spec_op c_pools]. now rewrite (A p d0 d1 N).
  - now apply pool_created_refines.
  - destruct R as [T U V L Fr Cf Ch Pr Pa Po]. eexists. split; [reflexivity|]. split; auto. now apply marks_set.
  - now apply epoch_end_refines.
  - now apply block_end_refines.
Qed.

(** ** Runs *)

Definition start_chain (ctx : Ctx) (params : Params) (P : Pools) : Chain :=
  {| c_ctx := ctx; c_ended := false; c_changed := []; c_kept := 0; c_book := fun _ _ _ => []; c_params := params; c_pools := P |}.

Definition start_keeper (params : Params) (P : Pools) : Keeper :=
  {| tw_store := st_empty; tw_pruning := {| IsPruning := false; LastKeptTime := 0; LastSeenPoolId := 0 |};
     tw_transient := st_empty; tw_params := params; tw_pools := P |}.

Fixpoint spec_run (ops : list Op) (c : Chain) : Chain :=
  match ops with [] => c | op :: ops' => spec_run ops' (spec_op op c) end.

Fixpoint all_allowed (ops : list Op) (c : Chain) : Prop :=
  match ops with [] => True | op :: ops' => allowed op c /\ all_allowed ops' (spec_op op c) end.

(** The same operations on the module, each in its block. *)
Fixpoint run (ops : list Op) (c : Chain) (k : Keeper) : Res unit * Keeper :=
  match ops with
  | [] => (Ok tt, k)
  | op :: ops' => match run_op op (c_ctx c) k with (Ok _, k') => run ops' (spec_op op c) k' | r => r end
  end.

Lemma start_refines ctx params P : valid_time (BlockTime ctx) -> refines (start_chain ctx params P) (start_keeper params P).
Proof.
  intros V. split; cbn; auto.
  - split; cbn; try congruence; [intros key r G; now rewrite st_get_empty in G|]. intros. split; constructor.
  - now intros p d0 d1.
  - intros key r G. now rewrite st_get_empty in G.
  - intros _ p d0 d1 r _ G. now rewrite st_get_empty in G.
  - congruence.
  - split; [intros p []|]. intros key. rewrite st_get_empty. split; [discriminate | intros (p & [] & _)].
  - intros E. discriminate E.
Qed.

Lemma run_refines ops : forall c k, refines c k -> all_allowed ops c ->
  exists k', run ops c k = (Ok tt, k') /\ refines (spec_run ops c) k'.
Proof.
  induction ops as [|op ops IH]; intros c k R A; cbn [run spec_run all_allowed] in *; [eauto|].
  destruct A as [A As]. destruct (op_refines c k op R A) as (k1 & -> & R1). now apply IH.
Qed.

(** ** Theorems *)

(** C9: whatever happens on the chain (blocks, swaps, new pools, epochs with
    their pruning, ends of blocks), the module handles every event without an
    error or a panic, and ends in a state that refines the specification: its
    store represents the history of the prices at the ends of the blocks that
    changed a pool, and holds every record needed from the kept time on. *)
Theorem twap_refines (ctx : Ctx) (params : Params) (P : Pools) (ops : list Op) :
  valid_time (BlockTime ctx) -> all_allowed ops (start_chain ctx params P) ->
  exists k, run ops (start_chain ctx params P) (start_keeper params P) = (Ok tt, k) /\
    refines (spec_run ops (start_chain ctx params P)) k.
Proof. intros V A. apply run_refines; [now apply start_refines | exact A]. Qed.

(** C10: after any run, [GetArithmeticTwap] answers for every pair with a record
    at or before the start time and every time the pruning keeps: the result is
    the area under the recorded prices (of the asked direction) between the two
    times, divided by the milliseconds between them and truncated. *)
Theorem arithmetic_twap_average (ctx : Ctx) (params : Params) (P : Pools) (ops : list Op) p base quote d0 d1 s e :
  valid_time (BlockTime ctx) -> all_allowed ops (start_chain ctx params P) ->
  let c := spec_run ops (start_chain ctx params P) in
  let h := c_book c p d0 d1 in
  LexicographicalOrderDenoms base quote = Ok (d0, d1) -> from s h <> [] ->
  0 <= s -> c_kept c <= s -> CanonicalTimeMs s < CanonicalTimeMs e -> e <= now c ->
  exists k faulty, run ops (start_chain ctx params P) (start_keeper params P) = (Ok tt, k) /\
    GetArithmeticTwap (c_ctx c) p base quote s e k =
    (Ok (Z.quot (integral (quoted quote d0) h e - integral (quoted quote d0) h s)
           (CanonicalTimeMs e - CanonicalTimeMs s), faulty), k).
Proof.
  intros V A c h O N Hs K L En.
  destruct (run_refines ops _ _ (start_refines ctx params P V) A) as (k & E & [T U Vn _ _ _ _ _ _ _]).
  assert (s < e) by (destruct (Z.lt_ge_cases s e) as [|G]; [assumption | apply ms_mono in G; lia]).
  fold c in T, U, Vn. unfold now in *.
  destruct (arithmetic_query (c_kept c) k (c_book c) (c_ctx c) p base quote d0 d1 s e T O) as [f Q];
    try assumption; try (unfold valid_time in *; lia); [apply U|]. eauto.
Qed.

(** C35: The average that [GetArithmeticTwap] returns lies between any bounds of
    the recorded prices that were in effect between the two times: the last one
    noted at or before the start and those noted before the end. *)
Theorem arithmetic_twap_between (ctx : Ctx) (params : Params) (P : Pools) (ops : list Op) p base quote d0 d1 s e lo hi :
  valid_time (BlockTime ctx) -> all_allowed ops (start_chain ctx params P) ->
  let c := spec_run ops (start_chain ctx params P) in
  let h := c_book c p d0 d1 in
  LexicographicalOrderDenoms base quote = Ok (d0, d1) -> from s h <> [] ->
  0 <= s -> c_kept c <= s -> CanonicalTimeMs s < CanonicalTimeMs e -> e <= now c ->
  (forall x, in_effect s e h x -> lo <= quoted quote d0 (snd x) <= hi) ->
  exists k v faulty, run ops (start_chain ctx params P) (start_keeper params P) = (Ok tt, k) /\
    GetArithmeticTwap (c_ctx c) p base quote s e k = (Ok (v, faulty), k) /\ lo <= v <= hi.
Proof.
  intros V A c h O N Hs K L En B.
  destruct (run_refines ops _ _ (start_refines ctx params P V) A) as (k & E & [T U Vn _ _ _ _ _ _ _]).
  assert (Lt : s < e) by (destruct (Z.lt_ge_cases s e) as [|G]; [assumption | apply ms_mono in G; lia]).
  fold c in T, U, Vn. unfold now in *.
  destruct (arithmetic_query (c_kept c) k (c_book c) (c_ctx c) p base quote d0 d1 s e T O) as [f Q];
    try assumption; try (unfold valid_time in *; lia); [apply U|].
  eexists k, _, f. split; [exact E|]. split; [exact Q|]. apply quot_between; [lia|].
  apply area_between; [apply (tr_ok _ _ _ T) | lia | exact N | exact B].
Qed.

End Chain.

(** ** A run *)

(** Times as 29 digits. *)
Definition digits_string (l : list Z) : string := fold_right (fun d s => String (ascii_of_nat (Z.to_nat d)) s) EmptyString l.

#[export] Instance time_ref : TimeFormat := {|
  FormatTimeString t := digits_string (map (fun i => 48 + t / 10 ^ i mod 10) (down 29))
|}.

Lemma digits_string_bytes l : Forall (fun d => 0 <= d < 256) l -> string_bytes (digits_string l) = l.
Proof.
  induction 1 as [|d l Hd _ IH]; [reflexivity|]. cbn [digits_string fold_right string_bytes]. fold (digits_string l).
  rewrite IH, nat_ascii_embedding, Z2Nat.id by lia. reflexivity.
Qed.

Lemma time_digits t l : string_bytes (digits_string (map (fun i => 48 + t / 10 ^ i mod 10) l)) =
  map (fun i => 48 + t / 10 ^ i mod 10) l.
Proof.
  apply digits_string_bytes, Forall_forall. intros d I. apply in_map_iff in I as (i & <- & _).
  pose proof (Z.mod_pos_bound (t / 10 ^ i) 10). lia.
Qed.

#[export] Instance time_ref_spec : TimeFormatSpec time_ref.
Proof.
  split; cbn [FormatTimeString time_ref].
  - intros t _. now rewrite time_digits, length_map.
  - intros t u Vt Vu. rewrite !time_digits, digits_compare. unfold valid_time in *.
    assert (2 ^ 63 < 10 ^ Z.of_nat 29) by reflexivity. rewrite !Z.mod_small by lia. reflexivity.
Qed.

(** One pool, whose state is the price of its second denomination. *)
#[export] Instance pools_ref : PoolManagerInterface := {|
  Pools := Z;
  RouteGetPoolDenoms _ p := if p =? 1 then (["atom"; "osmo"], None) else ([], Some "pool not found");
  RouteCalculateSpotPrice P _ quote _ := (Some (if String.eqb quote "atom" then Z.abs P else 10 ^ 72 / Z.abs P), false);
  GetNextPoolId _ := 2
|}.

#[export] Instance pools_ref_spec : PoolManagerSpec pools_ref.
Proof.
  split; cbn [Pools RouteGetPoolDenoms RouteCalculateSpotPrice GetNextPoolId pools_ref].
  - intros P p ds e. destruct (p =? 1); intros E; injection E as <- <-; (split; [repeat constructor; cbn; intuition discriminate|]);
      repeat constructor; intros I; vm_compute in I; intuition discriminate.
  - discriminate.
  - intros P p a b x e E. injection E as <- _. destruct (String.eqb a "atom"); [lia|].
    destruct (Z.eq_dec (Z.abs P) 0) as [-> |]; [now rewrite Z.div_0_r | apply Z.div_pos; lia].
  - intros P. cbn. lia.
Qed.

Definition block (n : Z) : Ctx := {| BlockHeight := n; BlockTime := n * 5 * Second |}.
Definition day_params : Params := {| PruneEpochIdentifier := "day"; RecordHistoryKeepPeriod := 12 * Second |}.

(** A price of two for a block, then of three for two blocks; an epoch prunes. *)
Definition example_ops : list Op :=
  [PoolCreated 1; BlockEnd; NextBlock (block 3); PoolsMove (3 * 10 ^ 36 : @Pools pools_ref); PoolChanged 1; BlockEnd;
   NextBlock (block 5); EpochEnd "day"; BlockEnd; NextBlock (block 6)].

Definition example_start : Chain := start_chain (block 2) day_params (2 * 10 ^ 36 : @Pools pools_ref).

Lemma example_allowed : all_allowed example_ops example_start.
Proof.
  unfold example_ops, example_start. cbn [all_allowed allowed].
  repeat match goal with |- _ /\ _ => split end; try exact I; try reflexivity; try (vm_compute; discriminate).
  all: first [eexists; reflexivity | vm_compute; split; [discriminate | reflexivity]].
Qed.

Lemma twap_refines_witness : exists k, run example_ops example_start
    (start_keeper (KT := assoc_store) (KC := assoc_store) day_params (2 * 10 ^ 36 : @Pools pools_ref)) = (Ok tt, k).
Proof.
  destruct (twap_refines (S := sdk_ref) (SM := sdk_more_ref) (KT := assoc_store) (KC := assoc_store) (block 2) day_params
    (2 * 10 ^ 36 : @Pools pools_ref) example_ops) as (k & E & _).
  - vm_compute. split; [discriminate | reflexivity].
  - exact example_allowed.
  - exists k. exact E.
Defined.

#[local] Existing Instance sdk_ref.
#[local] Existing Instance sdk_more_ref.

(** From 13 s to 28 s: two seconds at a price of 2 and thirteen at 3. *)
Lemma arithmetic_twap_average_witness : exists k faulty, run example_ops example_start
    (start_keeper (KT := assoc_store) (KC := assoc_store) day_params (2 * 10 ^ 36 : @Pools pools_ref)) = (Ok tt, k) /\
  GetArithmeticTwap (block 6) 1 "osmo" "atom" (13 * Second) (28 * Second) k = (Ok (43 * OneDec / 15, faulty), k).
Proof.
  exact (arithmetic_twap_average (KT := assoc_store) (KC := assoc_store) (block 2) day_params (2 * 10 ^ 36 : @Pools pools_ref)
    example_ops 1 "osmo" "atom" "atom" "osmo" (13 * Second) (28 * Second) ltac:(vm_compute; split; [discriminate | reflexivity])
    example_allowed eq_refl ltac:(vm_compute; discriminate) ltac:(vm_compute; discriminate) ltac:(vm_compute; discriminate)
    ltac:(vm_compute; reflexivity) ltac:(vm_compute; discriminate)).
Defined.

Lemma arithmetic_twap_between_witness : exists k v faulty, run example_ops example_start
    (start_keeper (KT := assoc_store) (KC := assoc_store) day_params (2 * 10 ^ 36 : @Pools pools_ref)) = (Ok tt, k) /\
  GetArithmeticTwap (block 6) 1 "osmo" "atom" (13 * Second) (28 * Second) k = (Ok (v, faulty), k) /\ 2 * OneDec <= v <= 3 * OneDec.
Proof.
  refine (arithmetic_twap_between (KT := assoc_store) (KC := assoc_store) (block 2) day_params (2 * 10 ^ 36 : @Pools pools_ref)
    example_ops 1 "osmo" "atom" "atom" "osmo" (13 * Second) (28 * Second) (2 * OneDec) (3 * OneDec)
    ltac:(vm_compute; split; [discriminate | reflexivity])
    example_allowed eq_refl ltac:(vm_compute; discriminate) ltac:(vm_compute; discriminate) ltac:(vm_compute; discriminate)
    ltac:(vm_compute; reflexivity) ltac:(vm_compute; discriminate) _).
  intros x [I _]. vm_compute in I. destruct I as [<- | [<- | []]]; vm_compute; split; discriminate.
Defined.

(** ** Concrete runs

    States that show where the module does not do what it means to: two times
    within a millisecond, the records of a pool whose id is a prefix of
    another's, and queries while a long history is being pruned. *)

#[local] Existing Instance sdk_ref.
#[local] Existing Instance sdk_more_ref.
#[local] Existing Instance assoc_store.

(** The record of the [i]th second, with a price of [i] since then. *)
Definition second_record (p i : Z) : TwapRecord :=
  {| PoolId := p; Asset0Denom := "atom"; Asset1Denom := "osmo"; Height := i; Time := i * Second;
     P0LastSpotPrice := i * OneDec; P1LastSpotPrice := OneDec / i;
     P0ArithmeticTwapAccumulator := i * (i - 1) / 2 * 1000 * OneDec; P1ArithmeticTwapAccumulator := 0;
     GeometricTwapAccumulator := 0; LastErrorTime := zero_time |}.

(** Pool [p] with the records of the first [n] seconds. *)
Definition with_records (p : Z) (n : nat) (st : PruningState) : Keeper :=
  {| tw_store := fold_right (fun i s => put_record s (second_record p (Z.of_nat i))) st_empty (rev (seq 1 n));
     tw_pruning := st; tw_transient := st_empty; tw_params := day_params; tw_pools := (10 ^ 36 : @Pools pools_ref) |}.

Definition pruning_until (t : Z) : PruningState := {| IsPruning := true; LastKeptTime := t; LastSeenPoolId := 1 |}.

(** The average of 100 s to 150 s as a state answers. *)
Definition answer (k : Keeper) : Res Z :=
  match fst (GetArithmeticTwap (block 300) 1 "osmo" "atom" (100 * Second) (150 * Second) k) with
  | Ok (v, _) => Ok v | Err e => Err e | Panic m => Panic m
  end.

(** Three defects.  (a) A query between two different times within one
    millisecond panics (the guard compares nanoseconds, the division is by
    milliseconds).  (b) The records of pool 10 are returned for pool 1, because
    the prefix of the key has no separator after the id.  (c) Pruning deletes
    newest first and stops after 200 records: until it goes on, a query before
    the kept time is not refused but answered from a record that is too old,
    here with 4 where the average is 124.5. *)
Theorem twap_defects :
  is_panic (fst (GetArithmeticTwap (block 300) 1 "osmo" "atom" (5 * Second) (5 * Second + 1) (with_records 1 10 (pruning_until 0)))) = true /\
  match fst (GetAllHistoricalPoolIndexedTWAPsForPoolId 1 (with_records 10 1 (pruning_until 0))) with
  | Ok l => map PoolId l | _ => [] end = [10] /\
  let k := with_records 1 205 (pruning_until (1000 * Second)) in
  answer k = Ok (1245 * OneDec / 10) /\ answer (snd (EndBlock (block 300) k)) = Ok (4 * OneDec).
Proof. split; [|split]; [vm_compute; reflexivity .. |]. split; vm_compute; reflexivity. Qed.
