(* ===== verification/Epochs.v ===== *)
(** * Epoch timers ([x/epochs])

    Every named timer counts epochs of a fixed duration.  At the beginning of a
    block each timer that is due ends its epoch and starts the next one, and
    the hooks of other modules run, each on its own: a hook that fails or
    panics leaves no trace. *)

From stdpp Require Import base strings.
From Stdlib Require Import ZArith Lia List Bool Ascii Sorted.
From S2P Require Import Prelude GoBig Store GoState.
Import ListNotations.

Record EpochInfo : Type := {
  Identifier : string;
  StartTime : Z;
  Duration : Z;
  CurrentEpoch : Z;
  CurrentEpochStartTime : Z;
  EpochCountingStarted : bool;
  CurrentEpochStartHeight : Z
}.

(** [EpochInfo{}] *)
Definition no_epoch : EpochInfo :=
  {| Identifier := ""; StartTime := zero_time; Duration := 0; CurrentEpoch := 0; CurrentEpochStartTime := zero_time;
     EpochCountingStarted := false; CurrentEpochStartHeight := 0 |}.

Definition EpochInfo_eqb (a b : EpochInfo) : bool :=
  String.eqb (Identifier a) (Identifier b) && (StartTime a =? StartTime b) && (Duration a =? Duration b) &&
  (CurrentEpoch a =? CurrentEpoch b) && (CurrentEpochStartTime a =? CurrentEpochStartTime b) &&
  Bool.eqb (EpochCountingStarted a) (EpochCountingStarted b) &&
  (CurrentEpochStartHeight a =? CurrentEpochStartHeight b).

Definition NewGenesisEpochInfo (identifier : string) (duration : Z) : EpochInfo :=
  {| Identifier := identifier; StartTime := zero_time; Duration := duration; CurrentEpoch := 0;
     CurrentEpochStartTime := zero_time; EpochCountingStarted := false; CurrentEpochStartHeight := 0 |}.

Definition Validate (epoch : EpochInfo) : Res unit :=
  if String.eqb (Identifier epoch) "" then Err "epoch identifier should NOT be empty" else
  if Duration epoch =? 0 then Err "epoch duration should NOT be 0" else
  if CurrentEpoch epoch <? 0 then Err "epoch CurrentEpoch must be non-negative" else
  if CurrentEpochStartHeight epoch <? 0 then Err "epoch CurrentEpochStartHeight must be non-negative" else
  Ok tt.

Definition KeyPrefixEpoch : bytes := [1].

(** [osmoutils.ApplyFuncIfNoError]: the changes of a failed call are dropped.
    (A call that runs out of gas panics instead; blocks have no gas limit.) *)
Definition ApplyFuncIfNoError {X} (f : M X unit) : M X unit :=
  fun x => match f x with
           | (Ok _, x') => (Ok tt, x')
           | (Err e, _) => (Err e, x)
           | (Panic _, _) => (Err "panic occurred during execution", x)
           end.

(** What another module does at the end and before the start of an epoch. *)
Record EpochHooks (X : Type) : Type := {
  hook_AfterEpochEnd : string -> Z -> M X unit;
  hook_BeforeEpochStart : string -> Z -> M X unit
}.
Arguments hook_AfterEpochEnd {X}.
Arguments hook_BeforeEpochStart {X}.

(** The error is logged. *)
Definition panicCatchingEpochHook {X} (hookFn : string -> Z -> M X unit) (epochIdentifier : string) (epochNumber : Z) :
    M X unit :=
  fun x => (Ok tt, snd (ApplyFuncIfNoError (hookFn epochIdentifier epochNumber) x)).

Definition MultiAfterEpochEnd {X} (h : list (EpochHooks X)) (epochIdentifier : string) (epochNumber : Z) : M X unit :=
  for_each h (fun hook => panicCatchingEpochHook (hook_AfterEpochEnd hook) epochIdentifier epochNumber).

Definition MultiBeforeEpochStart {X} (h : list (EpochHooks X)) (epochIdentifier : string) (epochNumber : Z) : M X unit :=
  for_each h (fun hook => panicCatchingEpochHook (hook_BeforeEpochStart hook) epochIdentifier epochNumber).

Section Epochs.
Context {X : Type} {K : KVStore EpochInfo} (hooks : list (EpochHooks X)).

Record Keeper : Type := { ep_store : @St _ K; ep_ext : X }.

Definition on_ext {A} (c : M X A) : M Keeper A :=
  zoom ep_ext (fun x k => {| ep_store := ep_store k; ep_ext := x |}) c.

Definition set_epochs (f : @St _ K -> @St _ K) : M Keeper unit :=
  modify (fun k => {| ep_store := f (ep_store k); ep_ext := ep_ext k |}).

Definition epoch_key (identifier : string) : bytes := KeyPrefixEpoch ++ string_bytes identifier.

Definition GetEpochInfo (identifier : string) (k : Keeper) : EpochInfo :=
  match st_get (ep_store k) (epoch_key identifier) with None => no_epoch | Some epoch => epoch end.

Definition setEpochInfo (epoch : EpochInfo) : M Keeper unit :=
  set_epochs (fun s => st_set s (epoch_key (Identifier epoch)) epoch).

Definition DeleteEpochInfo (identifier : string) : M Keeper unit :=
  set_epochs (fun s => st_delete s (epoch_key identifier)).

Definition AddEpochInfo (ctx : Ctx) (epoch : EpochInfo) : M Keeper unit :=
  lift (Validate epoch) ~;;
  existing <~ look (GetEpochInfo (Identifier epoch)) ;;
  if negb (EpochInfo_eqb existing no_epoch) then fail "epoch with identifier already exists" else
  setEpochInfo
    {| Identifier := Identifier epoch;
       StartTime := if StartTime epoch =? zero_time then BlockTime ctx else StartTime epoch;
       Duration := Duration epoch; CurrentEpoch := CurrentEpoch epoch;
       CurrentEpochStartTime := CurrentEpochStartTime epoch; EpochCountingStarted := EpochCountingStarted epoch;
       CurrentEpochStartHeight := BlockHeight ctx |}.

(** [IterateEpochInfo] with a callback that never stops. *)
Definition AllEpochInfos (k : Keeper) : list EpochInfo :=
  map snd (st_iter (st_prefix (ep_store k) KeyPrefixEpoch) None None).

Definition NumBlocksSinceEpochStart (ctx : Ctx) (identifier : string) : M Keeper Z :=
  epoch <~ look (GetEpochInfo identifier) ;;
  if EpochInfo_eqb epoch no_epoch then fail "epoch not found" else
  ret (BlockHeight ctx - CurrentEpochStartHeight epoch).

Definition AfterEpochEnd (identifier : string) (epochNumber : Z) : M Keeper unit :=
  on_ext (MultiAfterEpochEnd hooks identifier epochNumber).

Definition BeforeEpochStart (identifier : string) (epochNumber : Z) : M Keeper unit :=
  on_ext (MultiBeforeEpochStart hooks identifier epochNumber).

(** One timer at the beginning of a block. *)
Definition beginEpoch (ctx : Ctx) (epochInfo : EpochInfo) : M Keeper unit :=
  if BlockTime ctx <? StartTime epochInfo then ret tt else
  let shouldInitialEpochStart := negb (EpochCountingStarted epochInfo) in
  let epochEndTime := CurrentEpochStartTime epochInfo + Duration epochInfo in
  let shouldEpochStart := (BlockTime ctx >? epochEndTime) || shouldInitialEpochStart in
  if negb shouldEpochStart then ret tt else
  (if shouldInitialEpochStart then ret tt else AfterEpochEnd (Identifier epochInfo) (CurrentEpoch epochInfo)) ~;;
  let epochInfo' :=
    {| Identifier := Identifier epochInfo; StartTime := StartTime epochInfo; Duration := Duration epochInfo;
       CurrentEpoch := if shouldInitialEpochStart then 1 else CurrentEpoch epochInfo + 1;
       CurrentEpochStartTime := if shouldInitialEpochStart then StartTime epochInfo
                                else CurrentEpochStartTime epochInfo + Duration epochInfo;
       EpochCountingStarted := true; CurrentEpochStartHeight := BlockHeight ctx |} in
  setEpochInfo epochInfo' ~;;
  BeforeEpochStart (Identifier epochInfo') (CurrentEpoch epochInfo').

Definition BeginBlocker (ctx : Ctx) : M Keeper unit :=
  infos <~ look AllEpochInfos ;;
  for_each infos (beginEpoch ctx).

Definition InitGenesis (ctx : Ctx) (epochs : list EpochInfo) : M Keeper unit :=
  for_each epochs (fun epoch k => match AddEpochInfo ctx epoch k with (Err e, k') => (Panic e, k') | r => r end).

Definition ExportGenesis (k : Keeper) : list EpochInfo := AllEpochInfos k.

End Epochs.
