(* ===== verification/EpochsCorrect.v ===== *)
(** * Correctness of the epoch timers

    The specification is [tick], what one timer does in one block, with the
    events it causes; [block_ticks] relates [BeginBlocker] to it and
    [epochs_in_order] says what a run of blocks amounts to: the epochs of a
    timer start and end in order, none is skipped or repeated, and epoch [n]
    is dated [n - 1] durations after the start. *)

From stdpp Require Import base strings.
From Stdlib Require Import ZArith Lia List Bool Ascii Sorted.
From S2P Require Import Prelude GoBig Store GoState Epochs.
Import ListNotations.

Inductive Event : Type :=
| Ended (identifier : string) (n : Z)
| Started (identifier : string) (n : Z).

Definition about (e : Event) : string := match e with Ended i _ => i | Started i _ => i end.

(** What one timer does in a block. *)
Definition tick (ctx : Ctx) (e : EpochInfo) : EpochInfo * list Event :=
  let moved n start :=
    {| Identifier := Identifier e; StartTime := StartTime e; Duration := Duration e; CurrentEpoch := n;
       CurrentEpochStartTime := start; EpochCountingStarted := true; CurrentEpochStartHeight := BlockHeight ctx |} in
  if BlockTime ctx <? StartTime e then (e, [])
  else if negb (EpochCountingStarted e) then (moved 1 (StartTime e), [Started (Identifier e) 1])
  else if CurrentEpochStartTime e + Duration e <? BlockTime ctx then
    (moved (CurrentEpoch e + 1) (CurrentEpochStartTime e + Duration e),
     [Ended (Identifier e) (CurrentEpoch e); Started (Identifier e) (CurrentEpoch e + 1)])
  else (e, []).

Definition of_id (identifier : string) (l : list Event) : list Event := filter (fun v => String.eqb (about v) identifier) l.

(** The events of the first [n] epochs of a timer, up to the start of the last. *)
Fixpoint first_epochs (identifier : string) (n : nat) : list Event :=
  match n with
  | O => []
  | 1%nat => [Started identifier 1]
  | S n' => first_epochs identifier n' ++ [Ended identifier (Z.of_nat n'); Started identifier (Z.of_nat n)]
  end.

Section Correct.
Context {X : Type} {K : KVStore EpochInfo} {KS : KVStoreSpec K} (hooks : list (EpochHooks X)).
Implicit Types k : (@Keeper X K).

(** The hooks that an event runs. *)
Definition fire (x : X) (v : Event) : X :=
  snd (match v with
       | Ended i n => MultiAfterEpochEnd hooks i n x
       | Started i n => MultiBeforeEpochStart hooks i n x
       end).

Lemma multi_after_ok h i n (x : X) : MultiAfterEpochEnd h i n x = (Ok tt, snd (MultiAfterEpochEnd h i n x)).
Proof. unfold MultiAfterEpochEnd. revert x. induction h as [|hook h IH]; intros x; cbn [for_each]; [reflexivity|]. apply IH. Qed.

Lemma multi_before_ok h i n (x : X) : MultiBeforeEpochStart h i n x = (Ok tt, snd (MultiBeforeEpochStart h i n x)).
Proof. unfold MultiBeforeEpochStart. revert x. induction h as [|hook h IH]; intros x; cbn [for_each]; [reflexivity|]. apply IH. Qed.

Definition put_epoch (s : @St _ K) (e : EpochInfo) : @St _ K := st_set s (epoch_key (Identifier e)) e.

(** A timer does its tick: its entry is replaced and its events run the hooks. *)
Lemma beginEpoch_tick ctx e k : st_get (ep_store k) (epoch_key (Identifier e)) = Some e ->
  exists s', beginEpoch hooks ctx e k = (Ok tt, {| ep_store := s'; ep_ext := fold_left fire (snd (tick ctx e)) (ep_ext k) |}) /\
    forall key, st_get s' key = if decide (key = epoch_key (Identifier e)) then Some (fst (tick ctx e)) else st_get (ep_store k) key.
Proof.
  intros G. unfold beginEpoch, tick.
  assert (Stay : exists s', (ret tt k : Res unit * Keeper) = (Ok tt, {| ep_store := s'; ep_ext := ep_ext k |}) /\
    forall key, st_get s' key = if decide (key = epoch_key (Identifier e)) then Some e else st_get (ep_store k) key).
  { exists (ep_store k). split; [now destruct k|]. intros key. destruct (decide _) as [-> |]; auto. }
  assert (Put : forall e', Identifier e' = Identifier e -> forall key,
    st_get (st_set (ep_store k) (epoch_key (Identifier e')) e') key =
    if decide (key = epoch_key (Identifier e)) then Some e' else st_get (ep_store k) key).
  { intros e' -> key. destruct (decide _) as [-> | N]; [apply get_set_eq | now apply get_set_ne]. }
  destruct (BlockTime ctx <? StartTime e); [exact Stay|]. rewrite Z.gtb_ltb.
  destruct (EpochCountingStarted e); cbn [negb orb].
  - rewrite orb_false_r. destruct (CurrentEpochStartTime e + Duration e <? BlockTime ctx); [|exact Stay]. cbn [negb fst snd fold_left fire].
    eexists. split; [|apply Put; reflexivity].
    unfold mbind, AfterEpochEnd, on_ext, zoom. rewrite multi_after_ok.
    unfold setEpochInfo, set_epochs, modify, BeforeEpochStart, on_ext, zoom. cbn [ep_store ep_ext Identifier CurrentEpoch].
    rewrite multi_before_ok. reflexivity.
  - rewrite orb_true_r. cbn [negb fst snd fold_left fire]. eexists. split; [|apply Put; reflexivity].
    unfold mbind, ret, setEpochInfo, set_epochs, modify, BeforeEpochStart, on_ext, zoom. cbn [ep_store ep_ext Identifier CurrentEpoch].
    rewrite multi_before_ok. reflexivity.
Qed.

(** Entries are stored under their identifiers. *)
Definition keys_ok (s : @St _ K) : Prop := forall key e, st_get s key = Some e -> key = epoch_key (Identifier e).

Lemma epoch_key_inj a b : epoch_key a = epoch_key b -> a = b.
Proof. unfold epoch_key. intros E. apply app_inv_head in E. now apply string_bytes_inj. Qed.

Lemma tick_id ctx e : Identifier (fst (tick ctx e)) = Identifier e.
Proof. unfold tick. repeat case_if; reflexivity. Qed.

Lemma tick_about ctx e v : In v (snd (tick ctx e)) -> about v = Identifier e.
Proof. unfold tick. repeat case_if; cbn; intuition (subst; auto). Qed.

Lemma ticks_loop ctx : forall l k, keys_ok (ep_store k) -> NoDup (map Identifier l) ->
  (forall e, In e l -> st_get (ep_store k) (epoch_key (Identifier e)) = Some e) ->
  exists s', for_each l (beginEpoch hooks ctx) k =
      (Ok tt, {| ep_store := s'; ep_ext := fold_left fire (flat_map (fun e => snd (tick ctx e)) l) (ep_ext k) |}) /\
    keys_ok s' /\ (forall e, In e l -> st_get s' (epoch_key (Identifier e)) = Some (fst (tick ctx e))) /\
    (forall key, ~ In key (map (fun e => epoch_key (Identifier e)) l) -> st_get s' key = st_get (ep_store k) key).
Proof.
  intros l. induction l as [|e l IH]; intros k KO ND A; cbn [for_each flat_map map].
  { exists (ep_store k). repeat split; auto; [now destruct k | intros ? []]. }
  inversion ND as [|? ? NI ND']; subst.
  destruct (beginEpoch_tick ctx e k (A e (or_introl eq_refl))) as (s1 & E1 & G1). unfold mbind. rewrite E1.
  assert (Other : forall e2, In e2 l -> epoch_key (Identifier e2) <> epoch_key (Identifier e)).
  { intros e2 I E. apply epoch_key_inj in E. apply NI. rewrite <- E. now apply in_map. }
  destruct (IH {| ep_store := s1; ep_ext := fold_left fire (snd (tick ctx e)) (ep_ext k) |}) as (s' & E & KO' & In' & Out');
    [| exact ND' | |]; cbn [ep_store ep_ext].
  - intros key e2 G. cbn [ep_store] in G. rewrite G1 in G. destruct (decide _) as [-> | N]; [|now apply KO].
    apply (inj Some) in G as <-. now rewrite tick_id.
  - intros e2 I. rewrite G1. destruct (decide _) as [Eq | _]; [now apply Other in Eq|]. apply A. now right.
  - exists s'. rewrite fold_left_app. split; [exact E|]. split; [exact KO'|]. split.
    + intros e2 [<- | I]; [|now apply In']. rewrite Out'.
      * cbn [ep_store]. rewrite G1. destruct (decide _) as [|N]; [reflexivity | now destruct N].
      * intros I. apply in_map_iff in I as (e2 & Eq & I). now apply Other in I.
    + intros key N. rewrite Out' by (intros I; apply N; now right). cbn [ep_store]. rewrite G1.
      destruct (decide _) as [-> | _]; [|reflexivity]. destruct N. now left.
Qed.

(** ** The iteration *)

Lemma all_infos_spec k e : keys_ok (ep_store k) ->
  In e (AllEpochInfos k) <-> st_get (ep_store k) (epoch_key (Identifier e)) = Some e.
Proof.
  intros KO. unfold AllEpochInfos. rewrite in_map_iff. split.
  - intros ([key e'] & E & I). cbn [snd] in E. subst e'. apply st_iter_in in I as [G _]. rewrite st_get_prefix in G.
    pose proof (KO _ _ G) as Ek. now rewrite <- Ek.
  - intros G. exists (string_bytes (Identifier e), e). split; [reflexivity|]. apply st_iter_in. split; [|reflexivity].
    rewrite st_get_prefix. exact G.
Qed.

Lemma all_infos_nodup k : keys_ok (ep_store k) -> NoDup (map Identifier (AllEpochInfos k)).
Proof.
  intros KO. unfold AllEpochInfos.
  pose proof (st_iter_sorted (st_prefix (ep_store k) KeyPrefixEpoch) None None) as O.
  pose proof (st_iter_in (st_prefix (ep_store k) KeyPrefixEpoch) None None) as A.
  set (l := st_iter (st_prefix (ep_store k) KeyPrefixEpoch) None None) in *.
  assert (Key : forall key e, In (key, e) l -> key = string_bytes (Identifier e)).
  { intros key e I. apply A in I as [G _]. rewrite st_get_prefix in G. apply KO in G. unfold epoch_key in G.
    now apply app_inv_head in G. }
  clear A. induction O as [|[key e] l O IH F]; cbn [map snd]; constructor.
  - intros I. apply in_map_iff in I as (e2 & E & I). apply in_map_iff in I as ([key2 e2'] & E2 & I). cbn [snd] in E2. subst e2'.
    rewrite Forall_forall in F. specialize (F _ I). unfold key_lt in F. cbn [fst] in F.
    rewrite (Key key e (or_introl eq_refl)), (Key key2 e2 (or_intror I)), E in F. now apply blt_irrefl in F.
  - apply IH. intros key2 e2 I. apply Key. now right.
Qed.

(** The events of one timer among those of a block. *)
Lemma events_of_id ctx l e : NoDup (map Identifier l) -> In e l ->
  of_id (Identifier e) (flat_map (fun e => snd (tick ctx e)) l) = snd (tick ctx e).
Proof.
  assert (Own : forall e, of_id (Identifier e) (snd (tick ctx e)) = snd (tick ctx e)).
  { intros e0. unfold of_id. apply forallb_filter_id. apply forallb_forall. intros v I. rewrite (tick_about ctx e0 v I). apply String.eqb_refl. }
  assert (Foreign : forall i l, ~ In i (map Identifier l) -> of_id i (flat_map (fun e => snd (tick ctx e)) l) = []).
  { intros i m. induction m as [|e0 m IH]; intros N; [reflexivity|]. cbn [flat_map]. unfold of_id in *. rewrite filter_app, IH.
    - rewrite app_nil_r. assert (Z : forall vs, (forall v, In v vs -> about v = Identifier e0) -> filter (fun v => String.eqb (about v) i) vs = []).
      { induction vs as [|v vs IHv]; intros H; [reflexivity|]. cbn [filter]. rewrite (H v (or_introl eq_refl)).
        destruct (String.eqb_spec (Identifier e0) i) as [<- |]; [destruct N; now left|]. apply IHv. intros w I. apply H. now right. }
      apply Z. apply tick_about.
    - intros I. apply N. now right. }
  induction l as [|e0 l IH]; intros ND I; [destruct I|]. inversion ND as [|? ? NI ND']; subst. cbn [flat_map].
  unfold of_id. rewrite filter_app. fold (of_id (Identifier e)). destruct I as [-> | I].
  - change (of_id (Identifier e) (snd (tick ctx e)) ++ of_id (Identifier e) (flat_map (fun e => snd (tick ctx e)) l) = snd (tick ctx e))%list.
    rewrite Own, Foreign by exact NI. apply app_nil_r.
  - assert (N : Identifier e <> Identifier e0) by (intros E; apply NI; rewrite <- E; now apply in_map).
    change (of_id (Identifier e) (snd (tick ctx e0)) ++ of_id (Identifier e) (flat_map (fun e => snd (tick ctx e)) l) = snd (tick ctx e))%list.
    rewrite IH by assumption. replace (of_id (Identifier e) (snd (tick ctx e0))) with (@nil Event); [reflexivity|].
    rewrite <- (app_nil_r (snd (tick ctx e0))). symmetry. apply (Foreign (Identifier e) [e0]). cbn. intuition.
Qed.

(** A block: [BeginBlocker] never fails, whatever the hooks do; every timer
    ticks, in the order of the identifiers. *)
Lemma block_ticks ctx k : keys_ok (ep_store k) ->
  exists s', BeginBlocker hooks ctx k =
      (Ok tt, {| ep_store := s'; ep_ext := fold_left fire (flat_map (fun e => snd (tick ctx e)) (AllEpochInfos k)) (ep_ext k) |}) /\
    keys_ok s' /\ forall id e, st_get (ep_store k) (epoch_key id) = Some e -> st_get s' (epoch_key id) = Some (fst (tick ctx e)).
Proof.
  intros KO. destruct (ticks_loop ctx (AllEpochInfos k) k KO (all_infos_nodup k KO)) as (s' & E & KO' & A & _).
  { intros e I. now apply all_infos_spec. }
  exists s'. split; [exact E|]. split; [exact KO'|]. intros id e G. pose proof (KO _ _ G) as Ek. apply epoch_key_inj in Ek as ->.
  apply A. now apply all_infos_spec.
Qed.

(** ** Runs of blocks *)

Fixpoint run_blocks (ctxs : list Ctx) (k : @Keeper X K) : Res unit * @Keeper X K :=
  match ctxs with
  | [] => (Ok tt, k)
  | ctx :: rest => match BeginBlocker hooks ctx k with (Ok _, k') => run_blocks rest k' | r => r end
  end.

Definition last_time (ctxs : list Ctx) : Z := match rev ctxs with [] => zero_time | ctx :: _ => BlockTime ctx end.

(** Where a timer that started at [CurrentEpoch = 0] stands. *)
Definition in_order (e0 e : EpochInfo) (t : Z) (events : list Event) : Prop :=
  Identifier e = Identifier e0 /\ StartTime e = StartTime e0 /\ Duration e = Duration e0 /\
  events = first_epochs (Identifier e0) (Z.to_nat (CurrentEpoch e)) /\
  (if EpochCountingStarted e
   then 1 <= CurrentEpoch e /\ CurrentEpochStartTime e = StartTime e0 + (CurrentEpoch e - 1) * Duration e0 /\
        CurrentEpochStartTime e <= t
   else CurrentEpoch e = 0 /\ t < StartTime e0).

Lemma first_epochs_succ i n : 1 <= n ->
  first_epochs i (Z.to_nat (n + 1)) = (first_epochs i (Z.to_nat n) ++ [Ended i n; Started i (n + 1)])%list.
Proof.
  intros H. replace (Z.to_nat (n + 1)) with (S (Z.to_nat n)) by lia. destruct (Z.to_nat n) as [|m] eqn:E; [lia|].
  change (first_epochs i (S (S m))) with (first_epochs i (S m) ++ [Ended i (Z.of_nat (S m)); Started i (Z.of_nat (S (S m)))])%list.
  do 4 f_equal; [lia|]. do 2 f_equal. lia.
Qed.

Lemma tick_in_order ctx e0 e t events : in_order e0 e t events -> t <= BlockTime ctx ->
  in_order e0 (fst (tick ctx e)) (BlockTime ctx) (events ++ snd (tick ctx e)).
Proof.
  intros (Ei & Es & Ed & Ev & St) L. unfold tick. destruct (Z.ltb_spec (BlockTime ctx) (StartTime e)).
  - cbn [fst snd]. rewrite app_nil_r. repeat split; auto. destruct (EpochCountingStarted e); lia.
  - destruct (EpochCountingStarted e) eqn:C; cbn [negb].
    + destruct (Z.ltb_spec (CurrentEpochStartTime e + Duration e) (BlockTime ctx)); cbn [fst snd].
      * unfold in_order. cbn. repeat split; auto; try lia; try nia.
        rewrite first_epochs_succ by lia. now rewrite Ev, Ei.
      * rewrite app_nil_r. unfold in_order. rewrite C. repeat split; auto; lia.
    + unfold in_order. cbn. destruct St as [Z0 _]. rewrite Z0 in Ev. cbn in Ev. subst events. rewrite Ei. repeat split; auto; lia.
Qed.

Lemma run_in_order id : forall ctxs k e0 e t events0, keys_ok (ep_store k) ->
  st_get (ep_store k) (epoch_key id) = Some e -> in_order e0 e t events0 ->
  StronglySorted (fun a b => BlockTime a <= BlockTime b) ctxs -> (forall c, In c ctxs -> t <= BlockTime c) ->
  exists k' events e', run_blocks ctxs k = (Ok tt, k') /\ ep_ext k' = fold_left fire events (ep_ext k) /\
    st_get (ep_store k') (epoch_key id) = Some e' /\
    in_order e0 e' (match ctxs with [] => t | _ => last_time ctxs end) (events0 ++ of_id id events).
Proof.
  intros ctxs. induction ctxs as [|ctx ctxs IH]; intros k e0 e t events0 KO G O Sd L; cbn [run_blocks].
  { exists k, [], e. cbn. rewrite app_nil_r. auto. }
  inversion Sd as [|? ? Sd' F]; subst. rewrite Forall_forall in F.
  destruct (block_ticks ctx k KO) as (s' & E & KO' & A). rewrite E.
  pose proof (KO _ _ G) as Ei. apply epoch_key_inj in Ei.
  pose proof (tick_in_order ctx e0 e t events0 O (L ctx (or_introl eq_refl))) as O1.
  set (evs := flat_map (fun e => snd (tick ctx e)) (AllEpochInfos k)) in *.
  assert (Eo : of_id id evs = snd (tick ctx e)).
  { rewrite Ei. apply events_of_id; [now apply all_infos_nodup | apply all_infos_spec; [exact KO | now rewrite <- Ei]]. }
  destruct (IH {| ep_store := s'; ep_ext := fold_left fire evs (ep_ext k) |} e0 (fst (tick ctx e)) (BlockTime ctx)
    (events0 ++ snd (tick ctx e))%list KO' (A _ _ G) O1 Sd' F) as (k' & events & e' & R & Ex & G' & O').
  exists k', (evs ++ events)%list, e'. split; [exact R|]. split; [rewrite fold_left_app; exact Ex|]. split; [exact G'|].
  unfold of_id in *. rewrite filter_app, Eo, app_assoc.
  replace (last_time (ctx :: ctxs)) with (match ctxs with [] => BlockTime ctx | _ => last_time ctxs end); [exact O'|].
  unfold last_time. cbn [rev]. destruct ctxs as [|c2 r]; [reflexivity|]. cbn [rev].
  destruct (rev r); reflexivity.
Qed.

(** ** Theorems *)

(** C19: over any run of blocks in the order of time, a timer that has not
    started is still waiting (the last block is before its start), or its
    epochs so far are 1 to [n], each started once and all but the last ended
    once, in order, with the start of the last dated [n - 1] durations after
    the start of the timer and not in the future. *)
Theorem epochs_in_order ctxs k e0 :
  keys_ok (ep_store k) -> st_get (ep_store k) (epoch_key (Identifier e0)) = Some e0 ->
  EpochCountingStarted e0 = false -> CurrentEpoch e0 = 0 -> zero_time < StartTime e0 ->
  StronglySorted (fun a b => BlockTime a <= BlockTime b) ctxs -> (forall c, In c ctxs -> zero_time <= BlockTime c) ->
  exists k' events e, run_blocks ctxs k = (Ok tt, k') /\ ep_ext k' = fold_left fire events (ep_ext k) /\
    st_get (ep_store k') (epoch_key (Identifier e0)) = Some e /\
    of_id (Identifier e0) events = first_epochs (Identifier e0) (Z.to_nat (CurrentEpoch e)) /\
    if EpochCountingStarted e
    then 1 <= CurrentEpoch e /\ CurrentEpochStartTime e = StartTime e0 + (CurrentEpoch e - 1) * Duration e0 /\
         CurrentEpochStartTime e <= last_time ctxs
    else CurrentEpoch e = 0 /\ last_time ctxs < StartTime e0.
Proof.
  intros KO G St C0 Z Sd L.
  destruct (run_in_order (Identifier e0) ctxs k e0 e0 zero_time [] KO G) as (k' & events & e & R & Ex & G' & O); auto.
  { unfold in_order. rewrite C0, St. repeat split; auto. }
  exists k', events, e. destruct O as (_ & _ & _ & Ev & O). split; [exact R|]. split; [exact Ex|]. split; [exact G'|].
  split; [exact Ev|]. destruct ctxs; [exact O | exact O].
Qed.

End Correct.
