(* ===== verification/Mint.v ===== *)
(** * Minting ([x/mint])

    At the end of every epoch of one timer new coins are minted to the module
    and given out: to stakers, to pool incentives, to developers and, what is
    left, to the community pool.  The amount is reduced by a factor after every
    period of epochs.  Developer rewards are paid from an account that was
    funded at genesis and does not count as supply; the same amount of minted
    coins is burnt. *)

From stdpp Require Import base strings.
From Stdlib Require Import ZArith Lia List Bool Ascii.
From S2P Require Import Prelude GoBig BigInt BigDec SdkMath SdkMore Store GoState SdkCoins Epochs.
Import ListNotations.

Record DistributionProportions : Type := {
  Staking : Z;
  PoolIncentives : Z;
  DeveloperRewards : Z;
  CommunityPool : Z
}.

Record WeightedAddress : Type := { Address : string; Weight : Z }.

Record Params : Type := {
  MintDenom : string;
  GenesisEpochProvisions : Z;
  EpochIdentifier : string;
  ReductionPeriodInEpochs : Z;
  ReductionFactor : Z;
  Proportions : DistributionProportions;
  WeightedDeveloperRewardsReceivers : list WeightedAddress;
  MintingRewardsDistributionStartEpoch : Z
}.

(** The module works with coins of one denomination: [sdk.NewCoins] of one coin. *)
Definition NewCoins (c : Coin) : list Coin := if Amount c =? 0 then [] else [c].

(** The other modules: the bank, the accounts, the community pool, and the hook
    of pool incentives. *)
Class MintKeepers : Type := {
  Bank : Type;
  GetBalance : Bank -> string -> string -> Z;
  GetModuleAddress : string -> string;
  HasAccount : Bank -> string -> bool;
  CreateModuleAccount : string -> M Bank unit;
  MintCoins : string -> list Coin -> M Bank unit;
  BurnCoins : string -> list Coin -> M Bank unit;
  SendCoinsFromModuleToModule : string -> string -> list Coin -> M Bank unit;
  SendCoinsFromModuleToAccount : string -> string -> list Coin -> M Bank unit;
  FundCommunityPool : list Coin -> string -> M Bank unit;
  AddSupplyOffset : string -> Z -> M Bank unit;
  AccAddressFromBech32 : string -> Res string;
  AfterDistributeMintedCoin : M Bank unit
}.

Definition ModuleName : string := "mint".
Definition DeveloperVestingModuleAcctName : string := "developer_vesting_unvested".
Definition feeCollectorName : string := "fee_collector".
Definition poolIncentivesModuleName : string := "poolincentives".
Definition emptyWeightedAddressReceiver : string := "".
Definition developerVestingAmount : Z := 225000000000000.

Section Mint.
Context {S : SdkMath} {SM : SdkMore} {MK : MintKeepers}.

Record Keeper : Type := {
  m_provisions : Z;     (** [Minter.EpochProvisions] *)
  m_lastReduction : Z;
  m_params : Params;
  m_bank : Bank
}.

Definition on_bank {A} (c : M Bank A) : M Keeper A :=
  zoom m_bank (fun b k => {| m_provisions := m_provisions k; m_lastReduction := m_lastReduction k;
                             m_params := m_params k; m_bank := b |}) c.

Definition SetMinter (provisions : Z) : M Keeper unit :=
  modify (fun k => {| m_provisions := provisions; m_lastReduction := m_lastReduction k; m_params := m_params k;
                      m_bank := m_bank k |}).

Definition setLastReductionEpochNum (epochNum : Z) : M Keeper unit :=
  modify (fun k => {| m_provisions := m_provisions k; m_lastReduction := epochNum; m_params := m_params k;
                      m_bank := m_bank k |}).

Definition SetParams (params : Params) : M Keeper unit :=
  modify (fun k => {| m_provisions := m_provisions k; m_lastReduction := m_lastReduction k; m_params := params;
                      m_bank := m_bank k |}).

(** ** The minter ([types/minter.go]) *)

Definition NextEpochProvisions (epochProvisions : Z) (params : Params) : Res Z :=
  dec_Mul epochProvisions (ReductionFactor params).

Definition EpochProvision (epochProvisions : Z) (params : Params) : Res Coin :=
  amt <- dec_TruncateInt epochProvisions ;; NewCoin (MintDenom params) amt.

Definition GetDeveloperVestingProportion (p : Params) : Z := DeveloperRewards (Proportions p).
Definition GetInflationProportion (p : Params) : Res Z := dec_Sub OneDec (GetDeveloperVestingProportion p).
Definition GetInflationProvisions (epochProvisions : Z) (params : Params) : Res Z :=
  p <- GetInflationProportion params ;; dec_Mul epochProvisions p.
Definition GetDeveloperVestingEpochProvisions (epochProvisions : Z) (params : Params) : Res Z :=
  dec_Mul epochProvisions (GetDeveloperVestingProportion params).

(** ** Distribution ([keeper/keeper.go]) *)

Definition mintCoins (newCoins : list Coin) : M Keeper unit :=
  match newCoins with
  | [] => ret tt
  | _ => on_bank (MintCoins ModuleName newCoins)
  end.

Definition getProportions (mintedCoin : Coin) (ratio : Z) : Res Coin :=
  if ratio >? OneDec then Err "mint allocation ratio is greater than 1" else
  d <- int_ToLegacyDec (Amount mintedCoin) ;;
  x <- dec_Mul d ratio ;;
  amt <- dec_TruncateInt x ;;
  NewCoin (Denom mintedCoin) amt.

Definition distributeToModule (recipientModule : string) (mintedCoin : Coin) (proportion : Z) : M Keeper Z :=
  distributionCoin <~ lift (getProportions mintedCoin proportion) ;;
  on_bank (SendCoinsFromModuleToModule ModuleName recipientModule (NewCoins distributionCoin)) ~;;
  ret (Amount distributionCoin).

Definition payReceiver (devRewardCoin : Coin) (w : WeightedAddress) : M Keeper unit :=
  devPortionCoin <~ lift (getProportions devRewardCoin (Weight w)) ;;
  if String.eqb (Address w) emptyWeightedAddressReceiver then
    on_bank (FundCommunityPool (NewCoins devPortionCoin) (GetModuleAddress DeveloperVestingModuleAcctName))
  else
    devRewardsAddr <~ lift (AccAddressFromBech32 (Address w)) ;;
    on_bank (SendCoinsFromModuleToAccount DeveloperVestingModuleAcctName devRewardsAddr (NewCoins devPortionCoin)).

Definition distributeDeveloperRewards (totalMintedCoin : Coin) (developerRewardsProportion : Z)
    (developerRewardsReceivers : list WeightedAddress) : M Keeper Z :=
  devRewardCoin <~ lift (getProportions totalMintedCoin developerRewardsProportion) ;;
  let developerRewardsModuleAccountAddress := GetModuleAddress DeveloperVestingModuleAcctName in
  balance <~ look (fun k => GetBalance (m_bank k) developerRewardsModuleAccountAddress (Denom totalMintedCoin)) ;;
  if balance <? Amount devRewardCoin then fail "developer vesting balance is smaller than requested distribution" else
  let devRewardCoins := NewCoins devRewardCoin in
  on_bank (BurnCoins ModuleName devRewardCoins) ~;;
  on_bank (AddSupplyOffset (Denom totalMintedCoin) balance) ~;;
  (match developerRewardsReceivers with
   | [] => on_bank (FundCommunityPool devRewardCoins developerRewardsModuleAccountAddress)
   | _ => for_each developerRewardsReceivers (payReceiver devRewardCoin)
   end) ~;;
  balance' <~ look (fun k => GetBalance (m_bank k) developerRewardsModuleAccountAddress (Denom totalMintedCoin)) ;;
  on_bank (AddSupplyOffset (Denom totalMintedCoin) (- balance')) ~;;
  ret (Amount devRewardCoin).

Definition DistributeMintedCoin (mintedCoin : Coin) : M Keeper unit :=
  params <~ look m_params ;;
  let proportions := Proportions params in
  stakingIncentivesAmount <~ distributeToModule feeCollectorName mintedCoin (Staking proportions) ;;
  poolIncentivesAmount <~ distributeToModule poolIncentivesModuleName mintedCoin (PoolIncentives proportions) ;;
  devRewardAmount <~ distributeDeveloperRewards mintedCoin (DeveloperRewards proportions)
    (WeightedDeveloperRewardsReceivers params) ;;
  a <~ lift (int_Sub (Amount mintedCoin) stakingIncentivesAmount) ;;
  b <~ lift (int_Sub a poolIncentivesAmount) ;;
  communityPoolAmount <~ lift (int_Sub b devRewardAmount) ;;
  c <~ lift (NewCoin (MintDenom params) communityPoolAmount) ;;
  on_bank (FundCommunityPool (NewCoins c) (GetModuleAddress ModuleName)) ~;;
  on_bank AfterDistributeMintedCoin.

(** ** The end of an epoch ([keeper/hooks.go]) *)

(** Reduce the provisions when a period has passed. *)
Definition reduceIfDue (params : Params) (epochNumber : Z) : M Keeper unit :=
  last <~ look m_lastReduction ;;
  if epochNumber >=? ReductionPeriodInEpochs params + last then
    provisions <~ look m_provisions ;;
    next <~ lift (NextEpochProvisions provisions params) ;;
    SetMinter next ~;;
    setLastReductionEpochNum epochNumber
  else ret tt.

Definition AfterEpochEnd (epochIdentifier : string) (epochNumber : Z) : M Keeper unit :=
  params <~ look m_params ;;
  if String.eqb epochIdentifier (EpochIdentifier params) then
    if epochNumber <? MintingRewardsDistributionStartEpoch params then ret tt else
    when (epochNumber =? MintingRewardsDistributionStartEpoch params) (setLastReductionEpochNum epochNumber) ~;;
    reduceIfDue params epochNumber ~;;
    provisions <~ look m_provisions ;;
    mintedCoin <~ lift (EpochProvision provisions params) ;;
    mintCoins (NewCoins mintedCoin) ~;;
    DistributeMintedCoin mintedCoin
  else ret tt.

Definition BeforeEpochStart (epochIdentifier : string) (epochNumber : Z) : M Keeper unit := ret tt.

(** The module as a listener of the epoch timers. *)
Definition Hooks : EpochHooks Keeper :=
  {| hook_AfterEpochEnd := AfterEpochEnd; hook_BeforeEpochStart := BeforeEpochStart |}.

(** ** Genesis and parameters *)

Definition createDeveloperVestingModuleAccount (amount : Coin) : M Keeper unit :=
  if Amount amount =? 0 then fail "amount cannot be nil or zero" else
  exists_ <~ look (fun k => HasAccount (m_bank k) (GetModuleAddress DeveloperVestingModuleAcctName)) ;;
  if exists_ : bool then fail "vesting module account already exist" else
  on_bank (CreateModuleAccount DeveloperVestingModuleAcctName) ~;;
  on_bank (MintCoins DeveloperVestingModuleAcctName (NewCoins amount)).

Definition InitGenesis (params : Params) (reductionStartedEpoch : Z) : M Keeper unit :=
  SetMinter (GenesisEpochProvisions params) ~;;
  SetParams params ~;;
  on_bank (CreateModuleAccount ModuleName) ~;;
  has <~ look (fun k => HasAccount (m_bank k) (GetModuleAddress DeveloperVestingModuleAcctName)) ;;
  (if has : bool then ret tt else
   totalDeveloperVestingCoins <~ lift (NewCoin (MintDenom params) developerVestingAmount) ;;
   (fun k => match createDeveloperVestingModuleAccount totalDeveloperVestingCoins k with
             | (Err e, k') => (Panic e, k') | r => r end) ~;;
   on_bank (AddSupplyOffset (MintDenom params) (- developerVestingAmount))) ~;;
  setLastReductionEpochNum reductionStartedEpoch.

Definition ExportGenesis (k : Keeper) : Z * Params * Z := (m_provisions k, m_params k, m_lastReduction k).

Definition validateDistributionProportions (v : DistributionProportions) : Res unit :=
  if Staking v <? 0 then Err "staking distribution ratio should not be negative" else
  if PoolIncentives v <? 0 then Err "pool incentives distribution ratio should not be negative" else
  if DeveloperRewards v <? 0 then Err "developer rewards distribution ratio should not be negative" else
  if CommunityPool v <? 0 then Err "community pool distribution ratio should not be negative" else
  a <- dec_Add (Staking v) (PoolIncentives v) ;;
  b <- dec_Add a (DeveloperRewards v) ;;
  totalProportions <- dec_Add b (CommunityPool v) ;;
  if negb (totalProportions =? OneDec) then Err "total distributions ratio should be 1" else Ok tt.

Fixpoint validateReceivers (l : list WeightedAddress) (weightSum : Z) : Res Z :=
  match l with
  | [] => Ok weightSum
  | w :: l' =>
      (if String.eqb (Address w) "" then Ok tt else
       match AccAddressFromBech32 (Address w) with Ok _ => Ok tt | Err _ => Err "invalid address" | Panic m => Panic m end) ;;;
      if Weight w <=? 0 then Err "non-positive weight" else
      if Weight w >? OneDec then Err "more than 1 weight" else
      sum <- dec_Add weightSum (Weight w) ;;
      validateReceivers l' sum
  end.

Definition validateWeightedDeveloperRewardsReceivers (v : list WeightedAddress) : Res unit :=
  match v with
  | [] => Ok tt
  | _ => weightSum <- validateReceivers v 0 ;; if negb (weightSum =? OneDec) then Err "invalid weight sum" else Ok tt
  end.

(** [sdk.ValidateDenom] is not part of the repository. *)
Definition Validate (validDenom : string -> bool) (p : Params) : Res unit :=
  (if negb (validDenom (MintDenom p)) then Err "invalid mint denom" else Ok tt) ;;;
  (if GenesisEpochProvisions p <? 0 then Err "genesis epoch provision must be non-negative" else Ok tt) ;;;
  (if String.eqb (EpochIdentifier p) "" then Err "empty distribution epoch identifier" else Ok tt) ;;;
  (if ReductionPeriodInEpochs p <=? 0 then Err "max validators must be positive" else Ok tt) ;;;
  (if ReductionFactor p >? OneDec then Err "reduction factor cannot be greater than 1" else
   if ReductionFactor p <? 0 then Err "reduction factor cannot be negative" else Ok tt) ;;;
  validateDistributionProportions (Proportions p) ;;;
  validateWeightedDeveloperRewardsReceivers (WeightedDeveloperRewardsReceivers p) ;;;
  (if MintingRewardsDistributionStartEpoch p <? 0 then Err "start epoch must be non-negative" else Ok tt).

End Mint.
