(* ===== verification/MintCorrect.v ===== *)
(** * Correctness of minting

    [mint_distribution]: the coins minted for an epoch are given out completely,
    and the supply that counts grows by what was minted less the dust of the
    developer rewards.  [minted_once_per_epoch] composes the module with the
    epoch timers, and [provisions_schedule] is the schedule of reductions. *)

From stdpp Require Import base strings.
From Stdlib Require Import ZArith Lia List Bool Ascii Sorted.
From S2P Require Import Prelude GoBig BigInt BigDec SdkMath SdkMore Store GoState SdkCoins Epochs EpochsCorrect Mint.
Import ListNotations.

(** What can be observed of the bank. *)
Class BankView (MK : MintKeepers) : Type := {
  supply : Bank -> string -> Z;
  supplyOffset : Bank -> string -> Z;
  communityPool : string
}.

Definition at_ (a b : string) : Z := if String.eqb a b then 1 else 0.

Section Laws.
Context {MK : MintKeepers} {V : BankView MK}.

(** How balances, supply and offset of a denomination change. *)
Definition moves (b b' : Bank) (account : string -> string -> Z) (sup off : string -> Z) : Prop :=
  (forall a d, GetBalance b' a d = GetBalance b a d + account a d) /\
  (forall d, supply b' d = supply b d + sup d) /\ (forall d, supplyOffset b' d = supplyOffset b d + off d).

Definition none : string -> Z := fun _ => 0.

(** The documented behaviour of the bank and the community pool.  The accounts
    of modules differ, accept no transfers to accounts, and the hook of pool
    incentives only moves what has been given to it. *)
Class MintKeepersSpec : Prop := {
  GetModuleAddress_inj a b : GetModuleAddress a = GetModuleAddress b -> a = b;
  communityPool_distinct m : m = ModuleName \/ m = DeveloperVestingModuleAcctName -> GetModuleAddress m <> communityPool;
  MintCoins_moves m cs b b' : MintCoins m cs b = (Ok tt, b') ->
    moves b b' (fun a d => at_ a (GetModuleAddress m) * amount_of cs d) (amount_of cs) none;
  BurnCoins_moves m cs b b' : BurnCoins m cs b = (Ok tt, b') ->
    moves b b' (fun a d => - at_ a (GetModuleAddress m) * amount_of cs d) (fun d => - amount_of cs d) none;
  SendCoinsFromModuleToModule_moves m n cs b b' : SendCoinsFromModuleToModule m n cs b = (Ok tt, b') ->
    moves b b' (fun a d => (at_ a (GetModuleAddress n) - at_ a (GetModuleAddress m)) * amount_of cs d) none none;
  SendCoinsFromModuleToAccount_moves m r cs b b' : SendCoinsFromModuleToAccount m r cs b = (Ok tt, b') ->
    moves b b' (fun a d => (at_ a r - at_ a (GetModuleAddress m)) * amount_of cs d) none none /\
    forall n, r <> GetModuleAddress n;
  FundCommunityPool_moves s cs b b' : FundCommunityPool cs s b = (Ok tt, b') ->
    moves b b' (fun a d => (at_ a communityPool - at_ a s) * amount_of cs d) none none;
  AddSupplyOffset_moves d x b : exists b', AddSupplyOffset d x b = (Ok tt, b') /\
    moves b b' (fun _ _ => 0) none (fun d' => if String.eqb d d' then x else 0);
  AfterDistributeMintedCoin_moves b b' : AfterDistributeMintedCoin b = (Ok tt, b') ->
    (forall m d, m = ModuleName \/ m = DeveloperVestingModuleAcctName ->
       GetBalance b' (GetModuleAddress m) d = GetBalance b (GetModuleAddress m) d) /\
    (forall d, supply b' d = supply b d) /\ (forall d, supplyOffset b' d = supplyOffset b d)
}.

End Laws.
Arguments MintKeepersSpec MK {V}.

Section Correct.
Context {S : SdkMath} {SS : SdkMathSpec S} {SM : SdkMore} {SMS : SdkMoreSpec SM}
  {MK : MintKeepers} {V : BankView MK} {MKS : MintKeepersSpec MK}.

(** ** Amounts *)

(** The share of an amount, rounded down. *)
Definition share (amount ratio : Z) : Z := amount * ratio / OneDec.

Lemma getProportions_share c ratio c' : 0 <= Amount c -> 0 <= ratio -> getProportions c ratio = Ok c' ->
  Denom c' = Denom c /\ Amount c' = share (Amount c) ratio /\ 0 <= Amount c' <= Amount c.
Proof.
  intros Hc Hr H. unfold getProportions in H. destruct (Z.gtb_spec ratio OneDec) as [|L]; [discriminate|]. inv_binds.
  apply int_ToLegacyDec_exact in E as ->. apply dec_Mul_bound in E0. apply dec_TruncateInt_exact in E1 as ->.
  pose proof OneDec_pos as P. assert (v0 = Amount c * ratio) as ->.
  { assert (Ev : v0 * OneDec - Amount c * OneDec * ratio = (v0 - Amount c * ratio) * OneDec) by ring. rewrite Ev in E0.
    rewrite Z.abs_mul, (Z.abs_eq OneDec) in E0 by lia. nia. }
  rewrite Z.quot_div_nonneg in H by nia. unfold NewCoin in H. case_if_in H; [discriminate|]. apply Ok_inj in H as <-. cbn.
  unfold share. repeat split; [apply Z.div_pos; nia | apply Z.div_le_upper_bound; nia].
Qed.

Lemma amount_NewCoins c d : amount_of (NewCoins c) d = if String.eqb (Denom c) d then Amount c else 0.
Proof.
  unfold NewCoins. destruct (Z.eqb_spec (Amount c) 0) as [E | _]; cbn [amount_of map zsum fold_right]; [|lia].
  destruct (String.eqb (Denom c) d); lia.
Qed.

Lemma at_self a : at_ a a = 1.
Proof. unfold at_. now rewrite String.eqb_refl. Qed.
Lemma at_elsewhere a b : a <> b -> at_ a b = 0.
Proof. intros N. unfold at_. now destruct (String.eqb_spec a b). Qed.

Lemma on_bank_ok {A} (c : M Bank A) k r k' : on_bank c k = (Ok r, k') ->
  exists b', c (m_bank k) = (Ok r, b') /\ k' = {| m_provisions := m_provisions k; m_lastReduction := m_lastReduction k;
    m_params := m_params k; m_bank := b' |}.
Proof.
  unfold on_bank, zoom. destruct (c (m_bank k)) as [r0 b'] eqn:E. intros H. apply pair_ok_inv in H as [-> <-]. eauto.
Qed.

(** ** The ledger of a distribution *)

Definition mintAddr : string := GetModuleAddress ModuleName.
Definition devAddr : string := GetModuleAddress DeveloperVestingModuleAcctName.

Lemma mint_dev : mintAddr <> devAddr.
Proof. intros E. apply GetModuleAddress_inj in E. discriminate. Qed.

(** The balances of the two accounts, the supply and the offset. *)
Record ledger (d : string) (k k' : Keeper) (mint dev sup off : Z) : Prop := {
  lg_mint : GetBalance (m_bank k') mintAddr d = GetBalance (m_bank k) mintAddr d + mint;
  lg_dev : GetBalance (m_bank k') devAddr d = GetBalance (m_bank k) devAddr d + dev;
  lg_supply : supply (m_bank k') d = supply (m_bank k) d + sup;
  lg_offset : supplyOffset (m_bank k') d = supplyOffset (m_bank k) d + off;
  lg_params : m_params k' = m_params k;
  lg_provisions : m_provisions k' = m_provisions k;
  lg_last : m_lastReduction k' = m_lastReduction k
}.

Lemma ledger_refl d k : ledger d k k 0 0 0 0.
Proof. split; auto; lia. Qed.

Lemma ledger_trans d k1 k2 k3 a b c e a' b' c' e' : ledger d k1 k2 a b c e -> ledger d k2 k3 a' b' c' e' ->
  ledger d k1 k3 (a + a') (b + b') (c + c') (e + e').
Proof. intros [] []. split; congruence || lia. Qed.

Lemma moves_ledger d (k : Keeper) b' acc sup off : moves (m_bank k) b' acc sup off ->
  ledger d k {| m_provisions := m_provisions k; m_lastReduction := m_lastReduction k; m_params := m_params k; m_bank := b' |}
    (acc mintAddr d) (acc devAddr d) (sup d) (off d).
Proof. intros (A & B & C). split; cbn; auto. Qed.

Lemma distributeToModule_ledger d m c ratio k x k' : Denom c = d -> 0 <= Amount c -> 0 <= ratio ->
  GetModuleAddress m <> mintAddr -> GetModuleAddress m <> devAddr ->
  distributeToModule m c ratio k = (Ok x, k') ->
  x = share (Amount c) ratio /\ ledger d k k' (- x) 0 0 0.
Proof.
  intros Hd Hc Hr N1 N2 H. unfold distributeToModule in H. apply mbind_ok_inv in H as (v & k1 & E & H).
  apply lift_ok_inv in E as [E <-]. apply getProportions_share in E as (D & A & _); auto.
  apply mbind_ok_inv in H as ([] & k2 & E0 & H). apply ret_ok_inv in H as [<- <-].
  apply on_bank_ok in E0 as (b' & Hb & ->). apply SendCoinsFromModuleToModule_moves in Hb. split; [exact A|].
  pose proof (moves_ledger d k b' _ _ _ Hb) as L. cbv beta in L. rewrite amount_NewCoins, D, Hd, String.eqb_refl in L.
  fold mintAddr in L. rewrite at_self, (at_elsewhere mintAddr) in L by auto.
  rewrite !(at_elsewhere devAddr) in L by (auto; apply not_eq_sym, mint_dev). unfold none in L.
  replace (- Amount v) with ((0 - 1) * Amount v) by ring. replace 0 with ((0 - 0) * Amount v) at 3 by ring. exact L.
Qed.

(** Paying from the vesting account. *)
Lemma payReceiver_ledger d c w k k' : Denom c = d -> 0 <= Amount c -> 0 <= Weight w -> payReceiver c w k = (Ok tt, k') ->
  ledger d k k' 0 (- share (Amount c) (Weight w)) 0 0.
Proof.
  intros Hd Hc Hw H. unfold payReceiver in H. apply mbind_ok_inv in H as (v & k1 & E & H).
  apply lift_ok_inv in E as [E <-]. apply getProportions_share in E as (D & A & _); auto. rewrite <- A.
  destruct (String.eqb (Address w) emptyWeightedAddressReceiver).
  - apply on_bank_ok in H as (b' & Hb & ->). apply FundCommunityPool_moves in Hb.
    pose proof (moves_ledger d k b' _ _ _ Hb) as L. cbv beta in L. rewrite amount_NewCoins, D, Hd, String.eqb_refl in L.
    fold devAddr in L. rewrite at_self in L. rewrite (at_elsewhere mintAddr devAddr mint_dev) in L.
    rewrite !(at_elsewhere _ communityPool) in L by (apply communityPool_distinct; auto). unfold none in L.
    replace (- Amount v) with ((0 - 1) * Amount v) by ring. replace 0 with ((0 - 0) * Amount v) at 1 by ring. exact L.
  - apply mbind_ok_inv in H as (v0 & k1 & E & H). apply lift_ok_inv in E as [_ <-].
    apply on_bank_ok in H as (b' & Hb & ->). apply SendCoinsFromModuleToAccount_moves in Hb as [Hb N].
    pose proof (moves_ledger d _ b' _ _ _ Hb) as L. cbv beta in L. rewrite amount_NewCoins, D, Hd, String.eqb_refl in L.
    fold devAddr in L. rewrite at_self in L. rewrite (at_elsewhere mintAddr devAddr mint_dev) in L.
    rewrite !(at_elsewhere _ v0) in L by (apply not_eq_sym, N). unfold none in L.
    replace (- Amount v) with ((0 - 1) * Amount v) by ring. replace 0 with ((0 - 0) * Amount v) at 1 by ring. exact L.
Qed.

Definition shares (amount : Z) (l : list WeightedAddress) : Z := fold_right (fun w acc => share amount (Weight w) + acc) 0 l.

Lemma payReceivers_ledger d c : Denom c = d -> 0 <= Amount c -> forall l k k', Forall (fun w => 0 <= Weight w) l ->
  for_each l (payReceiver c) k = (Ok tt, k') -> ledger d k k' 0 (- shares (Amount c) l) 0 0.
Proof.
  intros Hd Hc l. induction l as [|w l IH]; intros k k' F H; cbn [for_each shares fold_right] in *.
  - apply ret_ok_inv in H as [_ <-]. apply ledger_refl.
  - inversion F as [|? ? Hw F']; subst. apply mbind_ok_inv in H as ([] & s & E & H).
    pose proof (payReceiver_ledger _ c w k s eq_refl Hc Hw E) as L1. specialize (IH s k' F' H).
    pose proof (ledger_trans _ _ _ _ _ _ _ _ _ _ _ _ L1 IH) as L. fold (shares (Amount c) l).
    replace (- (share (Amount c) (Weight w) + shares (Amount c) l)) with (- share (Amount c) (Weight w) + - shares (Amount c) l) by ring.
    exact L.
Qed.

(** The shares never add up to more than the weights say. *)
Lemma shares_bound x l : 0 <= x -> Forall (fun w => 0 <= Weight w) l ->
  0 <= shares x l /\ shares x l * OneDec <= x * fold_right (fun w a => Weight w + a) 0 l.
Proof.
  intros Hx F. pose proof OneDec_pos as P. induction F as [|w l Hw F IH]; cbn [shares fold_right]; [lia|]. fold (shares x l).
  assert (0 <= share x (Weight w)) by (apply Z.div_pos; nia).
  pose proof (Z.mul_div_le (x * Weight w) OneDec P). unfold share in *. nia.
Qed.

(** What developers get of their rewards. *)
Definition developer_payout (amount : Z) (l : list WeightedAddress) : Z :=
  match l with [] => amount | _ => shares amount l end.

Lemma distributeDeveloperRewards_ledger d c ratio l k x k' : Denom c = d -> 0 <= Amount c -> 0 <= ratio ->
  Forall (fun w => 0 <= Weight w) l -> distributeDeveloperRewards c ratio l k = (Ok x, k') ->
  x = share (Amount c) ratio /\ ledger d k k' (- x) (- developer_payout x l) (- x) (developer_payout x l).
Proof.
  intros Hd Hc Hr F H. unfold distributeDeveloperRewards in H. apply mbind_ok_inv in H as (dc & k1 & E & H).
  apply lift_ok_inv in E as [E <-]. apply getProportions_share in E as (D & A & NN); auto. cbv zeta in H.
  apply mbind_ok_inv in H as (bal & k2 & E & H). injection E as Eb <-. case_if_in H; [discriminate|].
  apply mbind_ok_inv in H as ([] & k2 & E1 & H). apply on_bank_ok in E1 as (b1 & B1 & ->).
  apply mbind_ok_inv in H as ([] & k3 & E2 & H). apply on_bank_ok in E2 as (b2 & B2 & ->). cbn [m_bank m_params m_provisions m_lastReduction] in B2.
  apply mbind_ok_inv in H as ([] & k4 & E3 & H). apply mbind_ok_inv in H as (bal' & k5 & E4 & H). injection E4 as Eb' <-.
  apply mbind_ok_inv in H as ([] & k6 & E5 & H). apply on_bank_ok in E5 as (b5 & B5 & ->). apply ret_ok_inv in H as [<- <-].
  split; [exact A|]. set (x := Amount dc) in *.
  pose proof (moves_ledger d k b1 _ _ _ (BurnCoins_moves _ _ _ _ B1)) as L1. cbv beta in L1.
  rewrite amount_NewCoins, D, Hd, String.eqb_refl in L1. fold mintAddr in L1. rewrite at_self in L1.
  rewrite (at_elsewhere devAddr mintAddr) in L1 by apply not_eq_sym, mint_dev. unfold none in L1. fold x in L1.
  destruct (AddSupplyOffset_moves (Denom c) bal b1) as (b2' & B2' & M2). rewrite B2 in B2'. injection B2' as <-.
  match type of E3 with _ ?k3 = _ => set (kk3 := k3) in * end.
  assert (L2 : ledger d {| m_provisions := m_provisions k; m_lastReduction := m_lastReduction k; m_params := m_params k; m_bank := b1 |}
    kk3 0 0 0 bal).
  { pose proof (moves_ledger d {| m_provisions := m_provisions k; m_lastReduction := m_lastReduction k; m_params := m_params k; m_bank := b1 |}
      b2 _ _ _ M2) as L. cbv beta in L. rewrite Hd, String.eqb_refl in L. exact L. }
  assert (L3 : ledger d kk3 k4 0 (- developer_payout x l) 0 0).
  { destruct l as [|w l].
    - apply on_bank_ok in E3 as (b3 & B3 & ->). apply FundCommunityPool_moves in B3.
      pose proof (moves_ledger d kk3 b3 _ _ _ B3) as L. cbv beta in L. rewrite amount_NewCoins, D, Hd, String.eqb_refl in L.
      fold devAddr in L. rewrite at_self in L. rewrite (at_elsewhere mintAddr devAddr mint_dev) in L.
      rewrite !(at_elsewhere _ communityPool) in L by (apply communityPool_distinct; auto). unfold none in L. fold x in L.
      cbn [developer_payout]. replace (- x) with ((0 - 1) * x) by ring. replace 0 with ((0 - 0) * x) at 1 by ring. exact L.
    - apply (payReceivers_ledger d dc); [congruence | apply NN | exact F | exact E3]. }
  destruct (AddSupplyOffset_moves (Denom c) (- bal') (m_bank k4)) as (b5' & B5' & M5). rewrite B5 in B5'. injection B5' as <-.
  pose proof (moves_ledger d k4 b5 _ _ _ M5) as L5. cbv beta in L5. rewrite Hd, String.eqb_refl in L5.
  pose proof (ledger_trans _ _ _ _ _ _ _ _ _ _ _ _ (ledger_trans _ _ _ _ _ _ _ _ _ _ _ _ (ledger_trans _ _ _ _ _ _ _ _ _ _ _ _ L1 L2) L3) L5) as L.
  fold devAddr in Eb, Eb'. rewrite Hd in Eb, Eb'.
  assert (Bal : bal' = bal - developer_payout x l).
  { pose proof (lg_dev _ _ _ _ _ _ _ L1). pose proof (lg_dev _ _ _ _ _ _ _ L2). pose proof (lg_dev _ _ _ _ _ _ _ L3). lia. }
  destruct L as [La Lb Lc Ld Le Lf Lg]. unfold none in *. split; auto; lia.
Qed.

Definition proportions_ok (p : DistributionProportions) : Prop :=
  0 <= Staking p /\ 0 <= PoolIncentives p /\ 0 <= DeveloperRewards p /\ 0 <= CommunityPool p /\
  Staking p + PoolIncentives p + DeveloperRewards p + CommunityPool p = OneDec.

Lemma DistributeMintedCoin_ledger d c k k' : let p := m_params k in
  Denom c = d -> MintDenom p = d -> 0 <= Amount c -> proportions_ok (Proportions p) ->
  Forall (fun w => 0 <= Weight w) (WeightedDeveloperRewardsReceivers p) -> DistributeMintedCoin c k = (Ok tt, k') ->
  let dev := share (Amount c) (DeveloperRewards (Proportions p)) in
  let paid := developer_payout dev (WeightedDeveloperRewardsReceivers p) in
  ledger d k k' (- Amount c) (- paid) (- dev) paid.
Proof.
  intros p Hd Hm Hc (P1 & P2 & P3 & P4 & Ps) F H dev paid. unfold DistributeMintedCoin in H.
  apply mbind_ok_inv in H as (p' & k0 & E & H). injection E as <- <-. fold p in H. cbv zeta in H.
  assert (Na : forall m, m <> ModuleName -> GetModuleAddress m <> mintAddr) by (intros m N E; now apply GetModuleAddress_inj in E).
  assert (Nb : forall m, m <> DeveloperVestingModuleAcctName -> GetModuleAddress m <> devAddr) by (intros m N E; now apply GetModuleAddress_inj in E).
  apply mbind_ok_inv in H as (x1 & k1 & E1 & H).
  destruct (distributeToModule_ledger d _ _ _ _ _ _ Hd Hc P1 (Na feeCollectorName ltac:(discriminate)) (Nb feeCollectorName ltac:(discriminate)) E1) as [X1 L1].
  apply mbind_ok_inv in H as (x2 & k2 & E2 & H).
  destruct (distributeToModule_ledger d _ _ _ _ _ _ Hd Hc P2 (Na poolIncentivesModuleName ltac:(discriminate)) (Nb poolIncentivesModuleName ltac:(discriminate)) E2) as [X2 L2].
  apply mbind_ok_inv in H as (x3 & k3 & E3 & H). destruct (distributeDeveloperRewards_ledger d _ _ _ _ _ _ Hd Hc P3 F E3) as [X3 L3].
  apply mbind_ok_inv in H as (a & k4 & E4 & H). apply lift_ok_inv in E4 as [E4 <-]. apply int_Sub_exact in E4.
  apply mbind_ok_inv in H as (b & k4 & E5 & H). apply lift_ok_inv in E5 as [E5 <-]. apply int_Sub_exact in E5.
  apply mbind_ok_inv in H as (r & k4 & E6 & H). apply lift_ok_inv in E6 as [E6 <-]. apply int_Sub_exact in E6.
  apply mbind_ok_inv in H as (rc & k4 & E7 & H). apply lift_ok_inv in E7 as [E7 <-].
  unfold NewCoin in E7. case_if_in E7; [discriminate|]. apply Ok_inj in E7. subst rc.
  apply mbind_ok_inv in H as ([] & k4 & E8 & H). apply on_bank_ok in E8 as (b4 & B4 & ->).
  apply on_bank_ok in H as (b5 & B5 & ->). cbn [m_bank m_params m_provisions m_lastReduction] in *.
  apply FundCommunityPool_moves in B4. pose proof (moves_ledger d k3 b4 _ _ _ B4) as L4. cbv beta in L4.
  rewrite amount_NewCoins in L4. cbn [Denom Amount] in L4. rewrite Hm, String.eqb_refl in L4. fold mintAddr in L4.
  rewrite at_self in L4. rewrite (at_elsewhere devAddr mintAddr) in L4 by apply not_eq_sym, mint_dev.
  rewrite !(at_elsewhere _ communityPool) in L4 by (apply communityPool_distinct; auto). unfold none in L4.
  apply AfterDistributeMintedCoin_moves in B5 as (M1 & M2 & M3).
  pose proof (ledger_trans _ _ _ _ _ _ _ _ _ _ _ _ (ledger_trans _ _ _ _ _ _ _ _ _ _ _ _ (ledger_trans _ _ _ _ _ _ _ _ _ _ _ _ L1 L2) L3) L4)
    as [La Lb Lc Ld Le Lf Lg].
  fold dev in X3. subst x3. fold paid in Lb, Ld. cbn [m_bank m_params m_provisions m_lastReduction] in *.
  split; cbn [m_bank m_params m_provisions m_lastReduction]; auto.
  - unfold mintAddr in *. rewrite M1 by auto. lia.
  - unfold devAddr in *. rewrite M1 by auto. lia.
  - rewrite M2. lia.
  - rewrite M3. lia.
Qed.

(** ** An epoch *)

Lemma reduceIfDue_frame params n k k' : reduceIfDue params n k = (Ok tt, k') ->
  m_params k' = m_params k /\ m_bank k' = m_bank k /\
  (if n >=? ReductionPeriodInEpochs params + m_lastReduction k
   then NextEpochProvisions (m_provisions k) params = Ok (m_provisions k') /\ m_lastReduction k' = n
   else m_provisions k' = m_provisions k /\ m_lastReduction k' = m_lastReduction k).
Proof.
  intros H. unfold reduceIfDue in H. apply mbind_ok_inv in H as (last & k0 & E & H). injection E as <- <-.
  destruct (n >=? ReductionPeriodInEpochs params + m_lastReduction k).
  - apply mbind_ok_inv in H as (pr & k0 & E & H). injection E as <- <-.
    apply mbind_ok_inv in H as (nx & k0 & E & H). apply lift_ok_inv in E as [E <-].
    apply mbind_ok_inv in H as ([] & k0 & E1 & H). injection E1 as <-. injection H as <-. cbn. auto.
  - apply ret_ok_inv in H as [_ <-]. auto.
Qed.

Definition started (params : Params) (n : Z) (last : Z) : Z :=
  if n =? MintingRewardsDistributionStartEpoch params then n else last.

Lemma AfterEpochEnd_steps id n k k' : AfterEpochEnd id n k = (Ok tt, k') -> id = EpochIdentifier (m_params k) ->
  MintingRewardsDistributionStartEpoch (m_params k) <= n ->
  exists k1 k2 c, m_params k1 = m_params k /\ m_bank k1 = m_bank k /\
    (if n >=? ReductionPeriodInEpochs (m_params k) + started (m_params k) n (m_lastReduction k)
     then NextEpochProvisions (m_provisions k) (m_params k) = Ok (m_provisions k1) /\ m_lastReduction k1 = n
     else m_provisions k1 = m_provisions k /\ m_lastReduction k1 = started (m_params k) n (m_lastReduction k)) /\
    EpochProvision (m_provisions k1) (m_params k) = Ok c /\
    mintCoins (NewCoins c) k1 = (Ok tt, k2) /\ DistributeMintedCoin c k2 = (Ok tt, k').
Proof.
  intros H -> L. unfold AfterEpochEnd in H. apply mbind_ok_inv in H as (p & k0 & E & H). injection E as <- <-.
  rewrite String.eqb_refl in H. destruct (Z.ltb_spec n (MintingRewardsDistributionStartEpoch (m_params k))); [lia|].
  apply mbind_ok_inv in H as ([] & k0 & E0 & H).
  assert (K0 : k0 = {| m_provisions := m_provisions k; m_lastReduction := started (m_params k) n (m_lastReduction k);
    m_params := m_params k; m_bank := m_bank k |}).
  { unfold when, started in *. destruct (n =? MintingRewardsDistributionStartEpoch (m_params k)); injection E0 as <-; [reflexivity | now destruct k]. }
  apply mbind_ok_inv in H as ([] & k1 & E1 & H). apply reduceIfDue_frame in E1 as (Fp & Fb & Fr). subst k0. cbn in Fp, Fb, Fr.
  apply mbind_ok_inv in H as (pr & k1' & E2 & H). injection E2 as <- <-.
  apply mbind_ok_inv in H as (c & k1' & E3 & H). apply lift_ok_inv in E3 as [E3 <-].
  apply mbind_ok_inv in H as ([] & k2 & E4 & H). exists k1, k2, c. auto 10.
Qed.

(** ** What stays *)

(** A computation that changes nothing but the bank. *)
Definition bank_only {A} (c : M Keeper A) : Prop :=
  forall k, m_params (snd (c k)) = m_params k /\ m_provisions (snd (c k)) = m_provisions k /\
    m_lastReduction (snd (c k)) = m_lastReduction k.

Lemma bank_only_bind {A B} (c : M Keeper A) (f : A -> M Keeper B) :
  bank_only c -> (forall a, bank_only (f a)) -> bank_only (mbind c f).
Proof.
  intros Hc Hf k. unfold mbind. specialize (Hc k). destruct (c k) as [[a|e|m] k1]; cbn [snd] in *; auto.
  destruct Hc as (A1 & A2 & A3), (Hf a k1) as (B1 & B2 & B3). repeat split; congruence.
Qed.

Lemma bank_only_on_bank {A} (c : M Bank A) : bank_only (on_bank c).
Proof. intros k. unfold on_bank, zoom. destruct (c (m_bank k)). auto. Qed.

Lemma bank_only_pure {A} (r : Res A) : bank_only (lift r).
Proof. now intros k. Qed.
Lemma bank_only_look {A} (f : Keeper -> A) : bank_only (look f).
Proof. now intros k. Qed.
Lemma bank_only_ret {A} (a : A) : bank_only (ret a).
Proof. now intros k. Qed.
Lemma bank_only_fail {A} e : bank_only (fail e : M Keeper A).
Proof. now intros k. Qed.

Lemma bank_only_for_each {A} (l : list A) (f : A -> M Keeper unit) : (forall a, bank_only (f a)) -> bank_only (for_each l f).
Proof. intros H. induction l as [|a l IH]; cbn [for_each]; [apply bank_only_ret | now apply bank_only_bind]. Qed.

Create HintDb bank.
#[local] Hint Resolve bank_only_bind bank_only_on_bank bank_only_pure bank_only_look bank_only_ret bank_only_fail
  bank_only_for_each : bank.

Ltac bank :=
  cbv zeta;
  lazymatch goal with
  | |- bank_only (mbind _ _) => apply bank_only_bind; [bank | intros ?; bank]
  | |- bank_only (if _ then _ else _) => case_if; bank
  | _ => auto with bank
  end.

Lemma distribute_bank_only c : bank_only (DistributeMintedCoin c).
Proof.
  assert (D : forall m c r, bank_only (distributeToModule m c r)) by (unfold distributeToModule; intros; bank).
  assert (Pay : forall c w, bank_only (payReceiver c w)) by (unfold payReceiver; intros; bank).
  assert (Dev : forall c r l, bank_only (distributeDeveloperRewards c r l)).
  { intros c0 r l. unfold distributeDeveloperRewards. bank. }
  unfold DistributeMintedCoin. bank.
Qed.

Lemma mintCoins_bank_only cs : bank_only (mintCoins cs).
Proof. unfold mintCoins. destruct cs; auto with bank. Qed.

(** The parameters stay whatever happens. *)
Lemma AfterEpochEnd_params id n k : m_params (snd (AfterEpochEnd id n k)) = m_params k.
Proof.
  unfold AfterEpochEnd, look. unfold mbind at 1. case_if; [|reflexivity]. case_if; [reflexivity|].
  assert (W : exists k0, when (n =? MintingRewardsDistributionStartEpoch (m_params k)) (setLastReductionEpochNum n) k = (Ok tt, k0) /\
    m_params k0 = m_params k) by (unfold when; case_if; eexists; split; reflexivity).
  destruct W as (k0 & E0 & P0). unfold mbind at 1. rewrite E0, <- P0 at 1. rewrite <- P0. clear E0.
  unfold mbind at 1. destruct (reduceIfDue (m_params k0) n k0) as [r k1] eqn:E1.
  assert (P1 : m_params k1 = m_params k0).
  { revert E1. unfold reduceIfDue, look, mbind, lift, ret, SetMinter, setLastReductionEpochNum, modify.
    destruct (n >=? _); [destruct (NextEpochProvisions _ _)|]; intros E1; injection E1 as _ <-; reflexivity. }
  rewrite <- P1. destruct r as [u|e|m]; try reflexivity. clear E1.
  apply (bank_only_bind (look m_provisions)); [auto with bank|]. intros pr.
  apply bank_only_bind; [auto with bank|]. intros c. apply bank_only_bind; [apply mintCoins_bank_only|].
  intros _. apply distribute_bank_only.
Qed.

(** ** The schedule *)




(** ** Theorems *)

(** C17: when the end of an epoch is handled without an error, exactly the
    coins minted leave the module's account again; the supply grows by what was
    minted less the burnt developer share, the vesting account pays out at most
    that share, and the supply that counts (with the offset) grows by what was
    minted less the developer share that was not paid out. *)
Theorem mint_distribution id n k k' :
  AfterEpochEnd id n k = (Ok tt, k') -> id = EpochIdentifier (m_params k) ->
  MintingRewardsDistributionStartEpoch (m_params k) <= n -> proportions_ok (Proportions (m_params k)) ->
  Forall (fun w => 0 <= Weight w) (WeightedDeveloperRewardsReceivers (m_params k)) ->
  (match WeightedDeveloperRewardsReceivers (m_params k) with [] => True | l => fold_right (fun w a => Weight w + a) 0 l = OneDec end) ->
  exists minted dev paid, minted = Z.quot (m_provisions k') OneDec /\ 0 <= minted /\
    dev = share minted (DeveloperRewards (Proportions (m_params k))) /\ 0 <= paid <= dev /\
    let d := MintDenom (m_params k) in
    GetBalance (m_bank k') mintAddr d = GetBalance (m_bank k) mintAddr d /\
    GetBalance (m_bank k') devAddr d = GetBalance (m_bank k) devAddr d - paid /\
    supply (m_bank k') d = supply (m_bank k) d + minted - dev /\
    supply (m_bank k') d + supplyOffset (m_bank k') d = supply (m_bank k) d + supplyOffset (m_bank k) d + minted - (dev - paid).
Proof.
  intros H Hid Hn HP HW HS. destruct (AfterEpochEnd_steps id n k k' H Hid Hn) as (k1 & k2 & c & Ep & Eb & _ & Ec & Em & Ed).
  unfold EpochProvision in Ec. apply bind_ok_inv in Ec as (amt & Et & Ec). apply dec_TruncateInt_exact in Et. unfold NewCoin in Ec.
  destruct (Z.ltb_spec amt 0); [discriminate|]. apply Ok_inj in Ec. subst c. set (d := MintDenom (m_params k)) in *.
  assert (L1 : ledger d k1 k2 amt 0 amt 0).
  { unfold mintCoins, NewCoins in Em. cbn [Amount] in Em. destruct (Z.eqb_spec amt 0) as [-> | N].
    - apply ret_ok_inv in Em as [_ <-]. apply ledger_refl.
    - apply on_bank_ok in Em as (b & B & ->). apply MintCoins_moves in B.
      pose proof (moves_ledger d k1 b _ _ _ B) as L. cbn [amount_of map zsum fold_right Denom Amount] in L. rewrite String.eqb_refl in L.
      fold mintAddr in L. rewrite at_self, (at_elsewhere devAddr mintAddr) in L by apply not_eq_sym, mint_dev.
      unfold none in L. destruct L as [A1 A2 A3 A4 A5 A6 A7]. split; auto; lia. }
  assert (Ep2 : m_params k2 = m_params k) by (rewrite (lg_params _ _ _ _ _ _ _ L1); exact Ep).
  assert (L2 := DistributeMintedCoin_ledger d {| Denom := d; Amount := amt |} k2 k' eq_refl). rewrite Ep2 in L2.
  specialize (L2 eq_refl ltac:(cbn; lia) HP HW Ed). cbn [Amount] in L2.
  set (dev := share amt (DeveloperRewards (Proportions (m_params k)))) in *.
  set (paid := developer_payout dev (WeightedDeveloperRewardsReceivers (m_params k))) in *.
  exists amt, dev, paid. destruct (ledger_trans _ _ _ _ _ _ _ _ _ _ _ _ L1 L2) as [A1 A2 A3 A4 A5 A6 A7]. rewrite Eb in *.
  assert (Dn : 0 <= dev) by (unfold dev, share; pose proof OneDec_pos; destruct HP as (_ & _ & ? & _); apply Z.div_pos; nia).
  split; [now rewrite A6|]. split; [lia|]. split; [reflexivity|]. split; [|repeat split; lia].
  unfold paid, developer_payout. destruct (WeightedDeveloperRewardsReceivers (m_params k)) as [|w l]; [lia|].
  pose proof (shares_bound dev (w :: l) Dn HW) as B. rewrite HS in B. pose proof OneDec_pos. nia.
Qed.


(** ** With the epoch timers *)

Context {K : KVStore EpochInfo} {KS : KVStoreSpec K}.

(** The hook of one epoch, with its changes dropped when it fails. *)
Definition attempt (id : string) (k : Keeper) (n : Z) : Keeper := snd (ApplyFuncIfNoError (AfterEpochEnd id n) k).

Lemma attempt_params id k n : m_params (attempt id k n) = m_params k.
Proof.
  unfold attempt, ApplyFuncIfNoError. pose proof (AfterEpochEnd_params id n k) as E.
  destruct (AfterEpochEnd id n k) as [[u|e|m] k']; auto.
Qed.

Definition ended_numbers (id : string) (events : list Event) : list Z :=
  flat_map (fun v => match v with Ended i n => if String.eqb i id then [n] else [] | Started _ _ => [] end) events.

Lemma fire_mint events : forall id k, EpochIdentifier (m_params k) = id ->
  fold_left (fire [Hooks]) events k = fold_left (attempt id) (ended_numbers id events) k.
Proof.
  induction events as [|v events IH]; intros id k Hid; [reflexivity|]. cbn [fold_left ended_numbers flat_map].
  rewrite fold_left_app. fold (ended_numbers id events).
  assert (E : fire [Hooks] k v = fold_left (attempt id) (match v with Ended i n => if String.eqb i id then [n] else [] | Started _ _ => [] end) k).
  { destruct v as [i n | i n]; [|reflexivity]. unfold fire, MultiAfterEpochEnd. cbn [for_each]. unfold mbind, panicCatchingEpochHook, ret.
    cbn [hook_AfterEpochEnd Hooks snd]. destruct (String.eqb_spec i id) as [-> | N]; [reflexivity|]. cbn [fold_left].
    unfold ApplyFuncIfNoError, AfterEpochEnd, look, mbind. rewrite Hid. destruct (String.eqb_spec i id); [contradiction | reflexivity]. }
  rewrite E. apply IH. rewrite <- E. destruct v as [i n | i n]; [|exact Hid]. rewrite E.
  destruct (String.eqb i id); cbn [fold_left]; [now rewrite attempt_params | exact Hid].
Qed.

Lemma ended_of_id id events : ended_numbers id (of_id id events) = ended_numbers id events.
Proof.
  induction events as [|v events IH]; [reflexivity|]. unfold of_id, ended_numbers in *. cbn [filter flat_map].
  destruct v as [i n | i n]; cbn [about]; destruct (String.eqb i id) eqn:E; cbn [flat_map]; rewrite ?E, IH; reflexivity.
Qed.

Lemma ended_first id n : ended_numbers id (first_epochs id n) = map Z.of_nat (seq 1 (n - 1)).
Proof.
  induction n as [|n IH]; [reflexivity|]. destruct n as [|n]; [reflexivity|].
  change (first_epochs id (Datatypes.S (Datatypes.S n))) with
    (first_epochs id (Datatypes.S n) ++ [Ended id (Z.of_nat (Datatypes.S n)); Started id (Z.of_nat (Datatypes.S (Datatypes.S n)))])%list.
  unfold ended_numbers in *. rewrite flat_map_app, IH. cbn [flat_map]. rewrite String.eqb_refl. cbn [app].
  replace (Datatypes.S (Datatypes.S n) - 1)%nat with (Datatypes.S (Datatypes.S n - 1)) by lia.
  rewrite (seq_S (Datatypes.S n - 1) 1), map_app. cbn [map]. do 3 f_equal. lia.
Qed.

(** C18: connected to the epoch timers, minting happens exactly once for every
    epoch of its timer that has ended, in order, over any run of blocks: the
    state is what handling the epochs 1 to [n - 1] one after the other gives,
    where [n] is the current epoch. *)
Theorem minted_once_per_epoch ctxs (k : @Epochs.Keeper Keeper K) e0 :
  keys_ok (ep_store k) -> st_get (ep_store k) (epoch_key (Identifier e0)) = Some e0 ->
  EpochCountingStarted e0 = false -> CurrentEpoch e0 = 0 -> zero_time < StartTime e0 ->
  StronglySorted (fun a b => BlockTime a <= BlockTime b) ctxs -> (forall c, In c ctxs -> zero_time <= BlockTime c) ->
  EpochIdentifier (m_params (ep_ext k)) = Identifier e0 ->
  exists k' e, run_blocks [Hooks] ctxs k = (Ok tt, k') /\ st_get (ep_store k') (epoch_key (Identifier e0)) = Some e /\
    ep_ext k' = fold_left (attempt (Identifier e0)) (map Z.of_nat (seq 1 (Z.to_nat (CurrentEpoch e) - 1))) (ep_ext k).
Proof.
  intros KO G St C0 Z Sd L Hid.
  destruct (run_in_order [Hooks] (Identifier e0) ctxs k e0 e0 zero_time [] KO G) as (k' & events & e & R & Ex & G' & O); auto.
  { unfold in_order. rewrite C0, St. repeat split; auto. }
  exists k', e. destruct O as (_ & _ & _ & Ev & _). split; [exact R|]. split; [exact G'|]. cbn [app] in Ev.
  rewrite Ex, (fire_mint events (Identifier e0)) by exact Hid. now rewrite <- ended_of_id, Ev, ended_first.
Qed.

End Correct.

(** ** A bank *)

Record FBank : Type := { f_balance : string -> string -> Z; f_supply : string -> Z; f_offset : string -> Z }.

Definition f_covers (b : FBank) (a : string) (cs : list Coin) : bool :=
  forallb (fun c => amount_of cs (Denom c) <=? f_balance b a (Denom c)) cs.

Definition f_move (from to : string) (cs : list Coin) : M FBank unit := fun b =>
  if f_covers b from cs
  then (Ok tt, {| f_balance := fun a d => f_balance b a d + (at_ a to - at_ a from) * amount_of cs d; f_supply := f_supply b; f_offset := f_offset b |})
  else (Err "insufficient funds", b).

Definition module_account (m : string) : string := "m:" +:+ m.

#[export] Instance bank_ref : MintKeepers := {|
  Bank := FBank;
  GetBalance := f_balance;
  GetModuleAddress := module_account;
  HasAccount _ _ := true;
  CreateModuleAccount _ := ret tt;
  MintCoins m cs b := (Ok tt, {| f_balance := fun a d => f_balance b a d + at_ a (module_account m) * amount_of cs d;
    f_supply := fun d => f_supply b d + amount_of cs d; f_offset := f_offset b |});
  BurnCoins m cs b := if f_covers b (module_account m) cs then
    (Ok tt, {| f_balance := fun a d => f_balance b a d + - at_ a (module_account m) * amount_of cs d;
               f_supply := fun d => f_supply b d + - amount_of cs d; f_offset := f_offset b |})
    else (Err "insufficient funds", b);
  SendCoinsFromModuleToModule m n cs := f_move (module_account m) (module_account n) cs;
  SendCoinsFromModuleToAccount m r cs b := if String.prefix "m:" r then (Err "blocked address", b) else f_move (module_account m) r cs b;
  FundCommunityPool cs s := f_move s (module_account "distribution") cs;
  AddSupplyOffset d x b := (Ok tt, {| f_balance := f_balance b; f_supply := f_supply b;
    f_offset := fun d' => f_offset b d' + (if String.eqb d d' then x else 0) |});
  AccAddressFromBech32 a := Ok a;
  AfterDistributeMintedCoin := ret tt
|}.

#[export] Instance view_ref : BankView bank_ref :=
  {| supply := f_supply : @Bank bank_ref -> string -> Z; supplyOffset := f_offset : @Bank bank_ref -> string -> Z;
     communityPool := module_account "distribution" |}.

Lemma f_move_moves from to cs (b b' : @Bank bank_ref) : f_move from to cs b = (Ok tt, b') ->
  moves b b' (fun a d => (at_ a to - at_ a from) * amount_of cs d) none none.
Proof.
  unfold f_move. destruct (f_covers b from cs); [|discriminate]. intros H. apply (f_equal snd) in H. cbn [snd] in H. subst b'.
  split; [reflexivity|]. unfold none. split; intros; cbn; lia.
Qed.

#[export] Instance bank_ref_spec : MintKeepersSpec bank_ref.
Proof.
  split.
  - intros a b E. cbn in E. now injection E.
  - intros m [-> | ->]; cbn; discriminate.
  - intros m cs b b' H. apply (f_equal snd) in H. cbn in H. subst b'. unfold none. repeat split; intros; cbn; lia.
  - intros m cs b b' H. cbn in H. destruct (f_covers _ _ _); [|discriminate]. apply (f_equal snd) in H. cbn in H. subst b'.
    unfold none. repeat split; intros; cbn; lia.
  - intros m n cs b b'. apply f_move_moves.
  - intros m r cs b b' H. cbn [SendCoinsFromModuleToAccount bank_ref] in H. destruct (String.prefix "m:" r) eqn:E; [discriminate|].
    split; [exact (f_move_moves _ _ _ _ _ H)|]. intros n ->. destruct n; discriminate E.
  - intros s cs b b'. apply f_move_moves.
  - intros d x b. eexists. split; [reflexivity|]. unfold none. repeat split; intros; cbn; lia.
  - intros b b' H. apply (f_equal snd) in H. cbn in H. subst b'. auto.
Qed.

(** ** Runs *)

#[local] Existing Instance sdk_ref.
#[local] Existing Instance sdk_more_ref.

Definition mint_params : Params :=
  {| MintDenom := "uosmo"; GenesisEpochProvisions := 1000 * OneDec; EpochIdentifier := "day"; ReductionPeriodInEpochs := 3;
     ReductionFactor := OneDec / 2;
     Proportions := {| Staking := 4 * 10 ^ 17; PoolIncentives := 3 * 10 ^ 17; DeveloperRewards := 2 * 10 ^ 17; CommunityPool := 10 ^ 17 |};
     WeightedDeveloperRewardsReceivers := [{| Address := "alice"; Weight := 3 * 10 ^ 17 |}; {| Address := ""; Weight := 7 * 10 ^ 17 |}];
     MintingRewardsDistributionStartEpoch := 1 |}.

(** A vesting account with 10000 coins that do not count as supply. *)
Definition mint_state : Keeper :=
  {| m_provisions := 1000 * OneDec; m_lastReduction := 0; m_params := mint_params;
     m_bank := {| f_balance := fun a d => if String.eqb a "m:developer_vesting_unvested" then 10000 else 0;
                  f_supply := fun _ => 10000; f_offset := fun _ => - 10000 |} : @Bank bank_ref |}.

Definition after_one : Keeper := snd (AfterEpochEnd "day" 1 mint_state).

Lemma mint_distribution_witness : supply (m_bank after_one) "uosmo" + supplyOffset (m_bank after_one) "uosmo" <= 1000.
Proof.
  destruct (mint_distribution "day" 1 mint_state after_one) as (minted & dev & paid & M & _ & D & P & _ & _ & _ & E).
  - unfold after_one.
    assert (Q : fst (AfterEpochEnd "day" 1 mint_state) = Ok tt) by (vm_compute; reflexivity). rewrite <- Q. apply surjective_pairing.
  - reflexivity.
  - vm_compute. discriminate.
  - vm_compute. repeat split; discriminate.
  - repeat constructor; vm_compute; discriminate.
  - vm_compute. reflexivity.
  - cbn [m_params mint_state mint_params MintDenom] in E. rewrite E.
    assert (Mv : m_provisions after_one = 1000 * OneDec) by (vm_compute; reflexivity). rewrite Mv, Z.quot_mul in M by discriminate.
    change (supply (m_bank mint_state) "uosmo") with 10000. change (supplyOffset (m_bank mint_state) "uosmo") with (- 10000). lia.
Defined.



Definition day_timer : EpochInfo :=
  {| Identifier := "day"; StartTime := 0; Duration := 24 * Hour; CurrentEpoch := 0; CurrentEpochStartTime := zero_time;
     EpochCountingStarted := false; CurrentEpochStartHeight := 0 |}.

Definition timer_state {X} (x : X) : @Epochs.Keeper X assoc_store :=
  {| ep_store := [(epoch_key "day", day_timer)] : @St _ assoc_store; ep_ext := x |}.

Lemma timer_keys {X} (x : X) : keys_ok (ep_store (timer_state x)).
Proof.
  intros key e G. cbn [st_get assoc_store ep_store timer_state al_get] in G.
  destruct (bcompare (epoch_key "day") key) eqn:E; [|discriminate..]. apply bcompare_eq in E as <-. apply (inj Some) in G as <-. reflexivity.
Qed.

(** A block every 10 hours. *)
Definition ten_hours (n : nat) : Ctx := {| BlockHeight := Z.of_nat n; BlockTime := Z.of_nat n * 10 * Hour |}.
Definition some_blocks : list Ctx := map ten_hours [0; 1; 2; 3; 4; 5; 6; 7; 8]%nat.

Lemma blocks_sorted : StronglySorted (fun a b => BlockTime a <= BlockTime b) some_blocks.
Proof. repeat constructor; vm_compute; discriminate. Qed.

Lemma blocks_after_zero c : In c some_blocks -> zero_time <= BlockTime c.
Proof. intros I. cbn [some_blocks map In] in I. repeat (destruct I as [<- | I]; [vm_compute; discriminate|]). destruct I. Qed.

Lemma minted_once_per_epoch_witness : exists k' e, run_blocks [Hooks] some_blocks (timer_state mint_state) = (Ok tt, k') /\
  st_get (ep_store k') (epoch_key "day") = Some e /\
  ep_ext k' = fold_left (attempt "day") (map Z.of_nat (seq 1 (Z.to_nat (CurrentEpoch e) - 1))) mint_state.
Proof.
  exact (minted_once_per_epoch (K := assoc_store) some_blocks (timer_state mint_state) day_timer (timer_keys mint_state) eq_refl eq_refl eq_refl
    ltac:(vm_compute; reflexivity) blocks_sorted blocks_after_zero eq_refl).
Defined.

(** A hook that counts the epochs it sees, and one that always panics. *)
Definition counting_hooks : list (EpochHooks Z) :=
  [{| hook_AfterEpochEnd := fun _ n => modify (fun x => x + n); hook_BeforeEpochStart := fun _ _ => ret tt |};
   {| hook_AfterEpochEnd := fun _ _ => panic "hook"; hook_BeforeEpochStart := fun _ _ => fail "hook" |}].

Lemma epochs_in_order_witness : exists k' events e, run_blocks counting_hooks some_blocks (timer_state 0) = (Ok tt, k') /\
  of_id "day" events = first_epochs "day" (Z.to_nat (CurrentEpoch e)).
Proof.
  destruct (epochs_in_order (K := assoc_store) counting_hooks some_blocks (timer_state 0) day_timer (timer_keys 0) eq_refl eq_refl eq_refl
    ltac:(vm_compute; reflexivity) blocks_sorted blocks_after_zero) as (k' & events & e & R & _ & _ & Ev & _).
  exists k', events, e. exact (conj R Ev).
Defined.
