(* ===== verification/Lockup.v ===== *)
(** * Token locks ([x/lockup])

    Owners lock coins in the account of the module for a duration; a lock that
    has started to unlock matures that much later and is then paid back at the
    end of a block.  The store of the module holds the locks, synthetic locks
    (which superfluid staking attaches to locks), and for every lock a set of
    reference keys by duration, owner, denomination and end time, over which
    iterators enumerate locks.  For every denomination an accumulation store
    ([osmoutils/sumtree]) keeps the amounts locked by duration.

    The key-value store of the module is modelled as two stores: the
    accumulation stores, whose keys begin with the byte 0x20, are in one
    ([lk_acc]), all other keys in the other ([lk_store]), both with the bytes of
    their keys.  The values of the second are held decoded.  Events, telemetry
    and logs are left out.  Times are nanoseconds since the epoch of Unix and
    durations nanoseconds. *)

From Stdlib Require Import ZArith Lia List Bool String Ascii.
From S2P Require Import Prelude GoBig SdkMath Store SumTree GoState PrefixStore SdkCoins.
Import ListNotations.

(** ** Data ([types/lock.pb.go], [types/lock.go]) *)

Record PeriodLock : Type := {
  ID : Z;
  Owner : string;
  Duration : Z;
  EndTime : Z;
  Coins : list Coin;
  RewardReceiverAddress : string
}.

Record SyntheticLock : Type := {
  UnderlyingLockId : Z;
  SynthDenom : string;
  SynthEndTime : Z;
  SynthDuration : Z
}.

(** The zero value of the struct. *)
Definition no_synthetic : SyntheticLock := {| UnderlyingLockId := 0; SynthDenom := ""; SynthEndTime := zero_time; SynthDuration := 0 |}.

Definition AccAddress : Type := bytes.

(** [sdk.AccAddressFromBech32], [AccAddress.String], [sdk.FormatTimeBytes] *)
Class SdkText : Type := {
  AccAddressFromBech32 : string -> Res AccAddress;
  AccString : AccAddress -> string;
  FormatTimeBytes : Z -> bytes
}.

Definition DefaultOwnerReceiverPlaceholder : string := "".

Definition NewPeriodLock {T : SdkText} (ID : Z) (owner : AccAddress) (reward_address : string) (duration endTime : Z)
  (coins : list Coin) : PeriodLock :=
  {| ID := ID; Owner := AccString owner; Duration := duration; EndTime := endTime; Coins := coins;
     RewardReceiverAddress := if String.eqb (AccString owner) reward_address then DefaultOwnerReceiverPlaceholder else reward_address |}.

Definition IsUnlocking (p : PeriodLock) : bool := negb (EndTime p =? zero_time).
Definition synth_IsUnlocking (p : SyntheticLock) : bool := negb (SynthEndTime p =? zero_time).
Definition IsNil (p : SyntheticLock) : bool :=
  (UnderlyingLockId p =? 0) && String.eqb (SynthDenom p) "" && (SynthEndTime p =? zero_time) && (SynthDuration p =? 0).

Definition OwnerAddress {T : SdkText} (p : PeriodLock) : Res AccAddress :=
  match AccAddressFromBech32 (Owner p) with Ok a => Ok a | Err e => Panic e | Panic m => Panic m end.

Definition SingleCoin (p : PeriodLock) : Res Coin :=
  match Coins p with [c] => Ok c | _ => Err "PeriodLock has no single coin" end.

(** [strings.Contains(denom, sep)] and [strings.Split(denom, sep)[0]] *)
Fixpoint before (sep s : string) : option string :=
  if String.prefix sep s then Some ""%string
  else match s with EmptyString => None | String c s' => option_map (String c) (before sep s') end.

Definition NativeDenom (denom : string) : string :=
  match before "/superbonding" denom with
  | Some d => d
  | None => match before "/superunbonding" denom with Some d => d | None => denom end
  end.
Definition IsSyntheticDenom (denom : string) : bool := negb (String.eqb (NativeDenom denom) denom).

(** [SumLocksByDenom]: the sum is unbounded and checked at the end. *)
Definition maxWordLen : Z := 256 / 64.
Definition checkBigInt (bi : Z) : Res unit :=
  if BitLen bi >? maxWordLen * 64 then if BitLen bi >? 256 then Err "bigInt overflow" else Ok tt else Ok tt.

Definition SumLocksByDenom {C : CoinsOps} (locks : list PeriodLock) (denom : string) : Res Z :=
  if negb (ValidateDenom denom) then Err "invalid denom used internally" else
  let amt lock := match Coins lock with [c] => Amount c | cs => amount_of cs denom end in
  let sumBi := zsum (map amt locks) in
  _ <- checkBigInt sumBi ;; Ok sumBi.

(** ** Keys ([types/keys.go], [keeper/utils.go], [keeper/store.go]) *)

Definition ModuleName : string := "lockup".
Definition KeyLastLockID : bytes := [1].
Definition KeyPrefixPeriodLock : bytes := [2].
Definition KeyPrefixNotUnlocking : bytes := [3].
Definition KeyPrefixUnlocking : bytes := [4].
Definition KeyPrefixTimestamp : bytes := [5].
Definition KeyPrefixDuration : bytes := [6].
Definition KeyPrefixLockDuration : bytes := [7].
Definition KeyPrefixAccountLockDuration : bytes := [8].
Definition KeyPrefixDenomLockDuration : bytes := [9].
Definition KeyPrefixAccountDenomLockDuration : bytes := [10].
Definition KeyPrefixLockTimestamp : bytes := [11].
Definition KeyPrefixAccountLockTimestamp : bytes := [12].
Definition KeyPrefixDenomLockTimestamp : bytes := [13].
Definition KeyPrefixAccountDenomLockTimestamp : bytes := [14].
Definition KeyPrefixSyntheticLockup : bytes := [15].
Definition KeyPrefixSyntheticLockTimestamp : bytes := [16].
Definition KeyIndexSeparator : bytes := [255].

(** [bytes.Join(keys, KeyIndexSeparator)] *)
Fixpoint combineKeys (keys : list bytes) : bytes :=
  match keys with [] => [] | [k] => k | k :: rest => k ++ KeyIndexSeparator ++ combineKeys rest end.

Section Keys.
Context {B : BigEndian} {T : SdkText}.

Definition getTimeKey (timestamp : Z) : bytes :=
  let timeBz := FormatTimeBytes timestamp in
  KeyPrefixTimestamp ++ Uint64ToBigEndian (Z.of_nat (List.length timeBz)) ++ timeBz.

Definition getDurationKey (duration : Z) : bytes :=
  let duration := if duration <? 0 then 0 else duration in
  combineKeys [KeyPrefixDuration; Uint64ToBigEndian (uint64 duration)].

Definition lockStoreKey (ID : Z) : bytes := combineKeys [KeyPrefixPeriodLock; Uint64ToBigEndian ID].

Definition syntheticLockStoreKey (lockID : Z) (synthDenom : string) : bytes :=
  combineKeys [combineKeys [KeyPrefixSyntheticLockup; Uint64ToBigEndian lockID]; string_bytes synthDenom].

Definition syntheticLockTimeStoreKey (lockID : Z) (synthDenom : string) (endTime : Z) : bytes :=
  combineKeys [combineKeys [combineKeys [KeyPrefixSyntheticLockTimestamp; getTimeKey endTime]; Uint64ToBigEndian lockID];
               string_bytes synthDenom].

Definition accumulationKey (duration : Z) : bytes := Uint64ToBigEndian (uint64 duration).

(** Without the first byte, 0x20, which all keys of [lk_acc] have. *)
Definition accumulationStorePrefix (denom : string) : bytes := string_bytes (denom ++ "/").

Definition durationLockRefKeys (lock : PeriodLock) : Res (list bytes) :=
  let durationKey := getDurationKey (Duration lock) in
  owner <- AccAddressFromBech32 (Owner lock) ;;
  Ok ([combineKeys [KeyPrefixLockDuration; durationKey]; combineKeys [KeyPrefixAccountLockDuration; owner; durationKey]] ++
      flat_map (fun coin =>
        [combineKeys [KeyPrefixDenomLockDuration; string_bytes (Denom coin); durationKey];
         combineKeys [KeyPrefixAccountDenomLockDuration; owner; string_bytes (Denom coin); durationKey]]) (Coins lock)).

(** The error of the first call is ignored; the second call reports it. *)
Definition lockRefKeys (lock : PeriodLock) : Res (list bytes) :=
  let refKeys := match durationLockRefKeys lock with Ok ks => ks | _ => [] end in
  let timeKey := getTimeKey (EndTime lock) in
  owner <- AccAddressFromBech32 (Owner lock) ;;
  Ok (refKeys ++ [combineKeys [KeyPrefixLockTimestamp; timeKey]; combineKeys [KeyPrefixAccountLockTimestamp; owner; timeKey]] ++
      flat_map (fun coin =>
        [combineKeys [KeyPrefixDenomLockTimestamp; string_bytes (Denom coin); timeKey];
         combineKeys [KeyPrefixAccountDenomLockTimestamp; owner; string_bytes (Denom coin); timeKey]]) (Coins lock)).

Definition syntheticLockRefKeys (lock : PeriodLock) (synthLock : SyntheticLock) : Res (list bytes) :=
  let timeKey := getTimeKey (SynthEndTime synthLock) in
  let durationKey := getDurationKey (SynthDuration synthLock) in
  owner <- AccAddressFromBech32 (Owner lock) ;;
  let denomBz := string_bytes (SynthDenom synthLock) in
  Ok [combineKeys [KeyPrefixDenomLockTimestamp; denomBz; timeKey];
      combineKeys [KeyPrefixDenomLockDuration; denomBz; durationKey];
      combineKeys [KeyPrefixAccountDenomLockTimestamp; owner; denomBz; timeKey];
      combineKeys [KeyPrefixAccountDenomLockDuration; owner; denomBz; durationKey]].

Definition unlockingPrefix (isUnlocking : bool) : bytes := if isUnlocking then KeyPrefixUnlocking else KeyPrefixNotUnlocking.

End Keys.

(** ** Other modules ([types/expected_keepers.go], [types/hooks.go]) *)

(** The hooks, as functions on the state of the other modules. *)
Record LockupHooks (Ext : Type) : Type := {
  AfterAddTokensToLock : AccAddress -> Z -> list Coin -> M Ext unit;
  OnTokenLocked : AccAddress -> Z -> list Coin -> Z -> Z -> M Ext unit;
  OnStartUnlock : AccAddress -> Z -> list Coin -> Z -> Z -> M Ext unit;
  OnTokenUnlocked : AccAddress -> Z -> list Coin -> Z -> Z -> M Ext unit;
  OnTokenSlashed : Z -> list Coin -> M Ext unit;
  OnLockupExtend : Z -> Z -> Z -> M Ext unit
}.
Arguments AfterAddTokensToLock {Ext}.
Arguments OnTokenLocked {Ext}.
Arguments OnStartUnlock {Ext}.
Arguments OnTokenUnlocked {Ext}.
Arguments OnTokenSlashed {Ext}.
Arguments OnLockupExtend {Ext}.

(** [MultiLockupHooks]: one list of hooks after the other. *)
Definition MultiLockupHooks {Ext} (h : list (LockupHooks Ext)) : LockupHooks Ext := {|
  AfterAddTokensToLock a id cs := for_each h (fun h => AfterAddTokensToLock h a id cs);
  OnTokenLocked a id cs d t := for_each h (fun h => OnTokenLocked h a id cs d t);
  OnStartUnlock a id cs d t := for_each h (fun h => OnStartUnlock h a id cs d t);
  OnTokenUnlocked a id cs d t := for_each h (fun h => OnTokenUnlocked h a id cs d t);
  OnTokenSlashed id cs := for_each h (fun h => OnTokenSlashed h id cs);
  OnLockupExtend id d d' := for_each h (fun h => OnLockupExtend h id d d')
|}.

(** The bank, the accounts and the community pool. *)
Class LockupKeepers : Type := {
  Ext : Type;
  GetModuleAddress : string -> AccAddress;
  GetAllBalances : AccAddress -> Ext -> list Coin;
  SendCoinsFromModuleToAccount : string -> AccAddress -> list Coin -> M Ext unit;
  SendCoinsFromAccountToModule : AccAddress -> string -> list Coin -> M Ext unit;
  BurnCoins : string -> list Coin -> M Ext unit;
  FundCommunityPool : list Coin -> AccAddress -> M Ext unit;
  lockup_hooks : option (LockupHooks Ext)
}.

(** What is stored: an id under a reference key, a lock or a synthetic lock. *)
Inductive Stored : Type :=
| VId (id : Z)
| VLock (lock : PeriodLock)
| VSynth (lock : SyntheticLock).

Section Lockup.
Context {S : SdkMath} {B : BigEndian} {T : SdkText} {C : CoinsOps} {P : PrefixEnd} {LK : LockupKeepers}
  {KL : KVStore Stored} {KA : KVStore (list Child)}.

Record Keeper : Type := {
  lk_store : @St _ KL;
  lk_acc : @St _ KA;
  lk_params : list string;    (** [Params.ForceUnlockAllowedAddresses] *)
  lk_ext : Ext
}.

Definition set_lk (f : @St _ KL -> @St _ KL) : M Keeper unit :=
  modify (fun k => {| lk_store := f (lk_store k); lk_acc := lk_acc k; lk_params := lk_params k; lk_ext := lk_ext k |}).
Definition set_acc (s : @St _ KA) (k : Keeper) : Keeper :=
  {| lk_store := lk_store k; lk_acc := s; lk_params := lk_params k; lk_ext := lk_ext k |}.
Definition SetParams (params : list string) : M Keeper unit :=
  modify (fun k => {| lk_store := lk_store k; lk_acc := lk_acc k; lk_params := params; lk_ext := lk_ext k |}).
Definition on_ext {A} (c : M Ext A) : M Keeper A :=
  zoom lk_ext (fun e k => {| lk_store := lk_store k; lk_acc := lk_acc k; lk_params := lk_params k; lk_ext := e |}) c.

(** ** The accumulation stores ([accumulationStore])

    A tree with 8-byte keys has fewer than 70 levels, so the fuel is never used
    up.  A panic inside the tree leaves the state of before the call: nothing
    reads the state of a transaction that panicked. *)
Definition tree_fuel : nat := 80.

Definition accumulationStore (denom : string) : KVStore (list Child) := prefix_kv KA (accumulationStorePrefix denom).

Definition on_tree {A} (denom : string) (f : @St _ (accumulationStore denom) -> Res (A * @St _ (accumulationStore denom))) : M Keeper A :=
  fun k => match (s <- @NewTree S (accumulationStore denom) P 10 tree_fuel (lk_acc k) ;; f s) with
           | Ok (a, s') => (Ok a, set_acc s' k)
           | Err e => (Err e, k)
           | Panic m => (Panic m, k)
           end.

Definition acc_Increase (denom : string) (key : bytes) (amt : Z) : M Keeper unit :=
  on_tree denom (fun s => s' <- @Increase S (accumulationStore denom) P 10 tree_fuel s (Some key) amt ;; Ok (tt, s')).
Definition acc_Decrease (denom : string) (key : bytes) (amt : Z) : M Keeper unit :=
  on_tree denom (fun s => s' <- @Decrease S (accumulationStore denom) P 10 tree_fuel s (Some key) amt ;; Ok (tt, s')).
Definition acc_SubsetFrom (denom : string) (key : bytes) : M Keeper Z :=
  on_tree denom (fun s => x <- @SubsetAccumulation S (accumulationStore denom) P s (Some key) None ;; Ok (x, s)).

(** ** Store ([keeper/store.go], [keeper/lock_refs.go]) *)

Definition GetLastLockID (k : Keeper) : Z := match st_get (lk_store k) KeyLastLockID with Some (VId id) => id | _ => 0 end.
Definition SetLastLockID (ID : Z) : M Keeper unit := set_lk (fun s => st_set s KeyLastLockID (VId ID)).

Definition GetLockByID (lockID : Z) : M Keeper PeriodLock := fun k =>
  match st_get (lk_store k) (lockStoreKey lockID) with
  | Some (VLock lock) => (Ok lock, k)
  | Some _ => (Err "proto: wrong wireType", k)
  | None => (Err "lockup not found", k)
  end.

Definition addLockRefByKey (key : bytes) (lockID : Z) : M Keeper unit :=
  let endKey := combineKeys [key; Uint64ToBigEndian lockID] in
  k <~ get ;;
  match st_get (lk_store k) endKey with
  | Some _ => fail "lock with same ID exist"
  | None => set_lk (fun s => st_set s endKey (VId lockID))
  end.

Definition deleteLockRefByKey (key : bytes) (lockID : Z) : M Keeper unit :=
  set_lk (fun s => st_delete s (combineKeys [key; Uint64ToBigEndian lockID])).

Definition addLockRefs (lock : PeriodLock) : M Keeper unit :=
  refKeys <~ lift (if IsUnlocking lock then lockRefKeys lock else durationLockRefKeys lock) ;;
  let lockRefPrefix := unlockingPrefix (IsUnlocking lock) in
  for_each refKeys (fun refKey => addLockRefByKey (combineKeys [lockRefPrefix; refKey]) (ID lock)).

Definition deleteLockRefs (lockRefPrefix : bytes) (lock : PeriodLock) : M Keeper unit :=
  refKeys <~ lift (lockRefKeys lock) ;;
  for_each refKeys (fun refKey => deleteLockRefByKey (combineKeys [lockRefPrefix; refKey]) (ID lock)).

Definition addSyntheticLockRefs (lock : PeriodLock) (synthLock : SyntheticLock) : M Keeper unit :=
  refKeys <~ lift (syntheticLockRefKeys lock synthLock) ;;
  let lockRefPrefix := unlockingPrefix (synth_IsUnlocking synthLock) in
  for_each refKeys (fun refKey => addLockRefByKey (combineKeys [lockRefPrefix; refKey]) (UnderlyingLockId synthLock)).

Definition deleteSyntheticLockRefs (lock : PeriodLock) (synthLock : SyntheticLock) : M Keeper unit :=
  refKeys <~ lift (syntheticLockRefKeys lock synthLock) ;;
  let lockRefPrefix := unlockingPrefix (synth_IsUnlocking synthLock) in
  for_each refKeys (fun refKey => deleteLockRefByKey (combineKeys [lockRefPrefix; refKey]) (UnderlyingLockId synthLock)).

Definition setLock (lock : PeriodLock) : M Keeper unit := set_lk (fun s => st_set s (lockStoreKey (ID lock)) (VLock lock)).
Definition setLockAndAddLockRefs (lock : PeriodLock) : M Keeper unit := setLock lock ~;; addLockRefs lock.
Definition deleteLock (id : Z) : M Keeper unit := set_lk (fun s => st_delete s (lockStoreKey id)).

(** ** Iterators ([keeper/iterator.go]): the entries they enumerate *)

Definition iteratorAfterTime (prefix : bytes) (time : Z) (k : Keeper) : list (bytes * Stored) :=
  let key := combineKeys [prefix; getTimeKey time] in
  st_iter (lk_store k) (PrefixEndBytes key) (PrefixEndBytes prefix).
Definition iteratorBeforeTime (prefix : bytes) (maxTime : Z) (k : Keeper) : list (bytes * Stored) :=
  let key := combineKeys [prefix; getTimeKey maxTime] in
  st_iter (lk_store k) (Some prefix) (PrefixEndBytes key).
Definition iteratorDuration (prefix : bytes) (duration : Z) (k : Keeper) : list (bytes * Stored) :=
  let key := combineKeys [prefix; getDurationKey duration] in
  st_iter (lk_store k) (Some key) (PrefixEndBytes key).
Definition iteratorLongerDuration (prefix : bytes) (duration : Z) (k : Keeper) : list (bytes * Stored) :=
  let key := combineKeys [prefix; getDurationKey duration] in
  st_iter (lk_store k) (Some key) (PrefixEndBytes prefix).
Definition iteratorShorterDuration (prefix : bytes) (duration : Z) (k : Keeper) : list (bytes * Stored) :=
  let key := combineKeys [prefix; getDurationKey duration] in
  st_iter (lk_store k) (Some prefix) (Some key).
Definition iterator (prefix : bytes) (k : Keeper) : list (bytes * Stored) :=
  st_iter (lk_store k) (Some prefix) (PrefixEndBytes prefix).

Definition LockIteratorAfterTime (time : Z) : Keeper -> list (bytes * Stored) :=
  iteratorAfterTime (combineKeys [unlockingPrefix true; KeyPrefixLockTimestamp]) time.
Definition LockIteratorBeforeTime (time : Z) : Keeper -> list (bytes * Stored) :=
  iteratorBeforeTime (combineKeys [unlockingPrefix true; KeyPrefixLockTimestamp]) time.
Definition LockIterator (isUnlocking : bool) : Keeper -> list (bytes * Stored) :=
  iterator (combineKeys [unlockingPrefix isUnlocking; KeyPrefixLockDuration]).
Definition LockIteratorAfterTimeDenom (denom : string) (time : Z) : Keeper -> list (bytes * Stored) :=
  iteratorAfterTime (combineKeys [unlockingPrefix true; KeyPrefixDenomLockTimestamp; string_bytes denom]) time.
Definition LockIteratorBeforeTimeDenom (denom : string) (time : Z) : Keeper -> list (bytes * Stored) :=
  iteratorBeforeTime (combineKeys [unlockingPrefix true; KeyPrefixDenomLockTimestamp; string_bytes denom]) time.
Definition LockIteratorLongerThanDurationDenom (isUnlocking : bool) (denom : string) (duration : Z) : Keeper -> list (bytes * Stored) :=
  iteratorLongerDuration (combineKeys [unlockingPrefix isUnlocking; KeyPrefixDenomLockDuration; string_bytes denom]) duration.
Definition LockIteratorDenom (isUnlocking : bool) (denom : string) : Keeper -> list (bytes * Stored) :=
  iterator (combineKeys [unlockingPrefix isUnlocking; KeyPrefixDenomLockDuration; string_bytes denom]).
Definition AccountLockIteratorAfterTime (addr : AccAddress) (time : Z) : Keeper -> list (bytes * Stored) :=
  iteratorAfterTime (combineKeys [unlockingPrefix true; KeyPrefixAccountLockTimestamp; addr]) time.
Definition AccountLockIteratorBeforeTime (addr : AccAddress) (time : Z) : Keeper -> list (bytes * Stored) :=
  iteratorBeforeTime (combineKeys [unlockingPrefix true; KeyPrefixAccountLockTimestamp; addr]) time.
Definition AccountLockIterator (isUnlocking : bool) (addr : AccAddress) : Keeper -> list (bytes * Stored) :=
  iterator (combineKeys [unlockingPrefix isUnlocking; KeyPrefixAccountLockDuration; addr]).
Definition AccountLockIteratorAfterTimeDenom (addr : AccAddress) (denom : string) (time : Z) : Keeper -> list (bytes * Stored) :=
  iteratorAfterTime (combineKeys [unlockingPrefix true; KeyPrefixAccountDenomLockTimestamp; addr; string_bytes denom]) time.
Definition AccountLockIteratorBeforeTimeDenom (addr : AccAddress) (denom : string) (time : Z) : Keeper -> list (bytes * Stored) :=
  iteratorBeforeTime (combineKeys [unlockingPrefix true; KeyPrefixAccountDenomLockTimestamp; addr; string_bytes denom]) time.
Definition AccountLockIteratorDenom (isUnlocking : bool) (addr : AccAddress) (denom : string) : Keeper -> list (bytes * Stored) :=
  iterator (combineKeys [unlockingPrefix isUnlocking; KeyPrefixAccountDenomLockDuration; addr; string_bytes denom]).
Definition AccountLockIteratorLongerDuration (isUnlocking : bool) (addr : AccAddress) (duration : Z) : Keeper -> list (bytes * Stored) :=
  iteratorLongerDuration (combineKeys [unlockingPrefix isUnlocking; KeyPrefixAccountLockDuration; addr]) duration.
Definition AccountLockIteratorDuration (isUnlocking : bool) (addr : AccAddress) (duration : Z) : Keeper -> list (bytes * Stored) :=
  iteratorDuration (combineKeys [unlockingPrefix isUnlocking; KeyPrefixAccountLockDuration; addr]) duration.
Definition AccountLockIteratorShorterThanDuration (isUnlocking : bool) (addr : AccAddress) (duration : Z) : Keeper -> list (bytes * Stored) :=
  iteratorShorterDuration (combineKeys [unlockingPrefix isUnlocking; KeyPrefixAccountLockDuration; addr]) duration.
Definition AccountLockIteratorLongerDurationDenom (isUnlocking : bool) (addr : AccAddress) (denom : string) (duration : Z)
  : Keeper -> list (bytes * Stored) :=
  iteratorLongerDuration (combineKeys [unlockingPrefix isUnlocking; KeyPrefixAccountDenomLockDuration; addr; string_bytes denom]) duration.
Definition AccountLockIteratorDurationDenom (isUnlocking : bool) (addr : AccAddress) (denom : string) (duration : Z)
  : Keeper -> list (bytes * Stored) :=
  iteratorDuration (combineKeys [unlockingPrefix isUnlocking; KeyPrefixAccountDenomLockDuration; addr; string_bytes denom]) duration.

(** [getLocksFromIterator]: a reference to a lock that is not there panics. *)
Fixpoint locks_at (it : list (bytes * Stored)) : M Keeper (list PeriodLock) :=
  match it with
  | [] => ret []
  | (_, v) :: rest =>
      lock <~ (fun k => match v with
                        | VId id => match GetLockByID id k with (Err e, k') => (Panic e, k') | r => r end
                        | _ => (Panic "lockup not found", k)
                        end) ;;
      locks <~ locks_at rest ;; ret (lock :: locks)
  end.
Definition getLocksFromIterator (it : Keeper -> list (bytes * Stored)) : M Keeper (list PeriodLock) :=
  k <~ get ;; locks_at (it k).

Definition combineLocks (pl1 pl2 : list PeriodLock) : list PeriodLock := pl1 ++ pl2.

Definition getCoinsFromLocks (locks : list PeriodLock) : Res (list Coin) :=
  fold_left (fun r lock => coins <- r ;; Coins_Add coins (Coins lock)) locks (Ok []).
Definition getCoinsFromIterator (it : Keeper -> list (bytes * Stored)) : M Keeper (list Coin) :=
  locks <~ getLocksFromIterator it ;; lift (getCoinsFromLocks locks).

(** ** Queries of the keeper ([keeper/store.go], [keeper/lock.go]) *)

Definition GetModuleBalance (k : Keeper) : list Coin := GetAllBalances (GetModuleAddress ModuleName) (lk_ext k).

Definition GetModuleLockedCoins (ctx : Ctx) : M Keeper (list Coin) :=
  notUnlockingCoins <~ getCoinsFromIterator (LockIterator false) ;;
  unlockingCoins <~ getCoinsFromIterator (LockIteratorAfterTime (BlockTime ctx)) ;;
  lift (Coins_Add notUnlockingCoins unlockingCoins).

Definition GetPeriodLocksAccumulation (denom : string) (duration : Z) : M Keeper Z := acc_SubsetFrom denom (accumulationKey duration).
Definition GetLockedDenom (denom : string) (duration : Z) : M Keeper Z := GetPeriodLocksAccumulation denom duration.

Definition GetAccountUnlockableCoins (ctx : Ctx) (addr : AccAddress) : M Keeper (list Coin) :=
  getCoinsFromIterator (AccountLockIteratorBeforeTime addr (BlockTime ctx)).
Definition GetAccountUnlockingCoins (ctx : Ctx) (addr : AccAddress) : M Keeper (list Coin) :=
  getCoinsFromIterator (AccountLockIteratorAfterTime addr (BlockTime ctx)).
Definition GetAccountLockedCoins (ctx : Ctx) (addr : AccAddress) : M Keeper (list Coin) :=
  notUnlockingCoins <~ getCoinsFromIterator (AccountLockIterator false addr) ;;
  unlockingCoins <~ getCoinsFromIterator (AccountLockIteratorAfterTime addr (BlockTime ctx)) ;;
  lift (Coins_Add notUnlockingCoins unlockingCoins).

(** The time from now until [timestamp], zero for the past. *)
Definition until (ctx : Ctx) (timestamp : Z) : Z :=
  if timestamp >? BlockTime ctx then time_Sub timestamp (BlockTime ctx) else 0.

Definition GetAccountLockedPastTime (ctx : Ctx) (addr : AccAddress) (timestamp : Z) : M Keeper (list PeriodLock) :=
  unlockings <~ getLocksFromIterator (AccountLockIteratorAfterTime addr timestamp) ;;
  notUnlockings <~ getLocksFromIterator (AccountLockIteratorLongerDuration false addr (until ctx timestamp)) ;;
  ret (combineLocks notUnlockings unlockings).
Definition GetAccountLockedPastTimeNotUnlockingOnly (ctx : Ctx) (addr : AccAddress) (timestamp : Z) : M Keeper (list PeriodLock) :=
  getLocksFromIterator (AccountLockIteratorLongerDuration false addr (until ctx timestamp)).
Definition GetAccountUnlockedBeforeTime (ctx : Ctx) (addr : AccAddress) (timestamp : Z) : M Keeper (list PeriodLock) :=
  unlockings <~ getLocksFromIterator (AccountLockIteratorBeforeTime addr timestamp) ;;
  if timestamp <? BlockTime ctx then ret unlockings else
  let duration := time_Sub timestamp (BlockTime ctx) in
  notUnlockings <~ getLocksFromIterator (AccountLockIteratorShorterThanDuration false addr duration) ;;
  ret (combineLocks notUnlockings unlockings).
Definition GetAccountLockedPastTimeDenom (ctx : Ctx) (addr : AccAddress) (denom : string) (timestamp : Z) : M Keeper (list PeriodLock) :=
  unlockings <~ getLocksFromIterator (AccountLockIteratorAfterTimeDenom addr denom timestamp) ;;
  notUnlockings <~ getLocksFromIterator (AccountLockIteratorLongerDurationDenom false addr denom (until ctx timestamp)) ;;
  ret (combineLocks notUnlockings unlockings).
Definition GetAccountLockedDurationNotUnlockingOnly (addr : AccAddress) (denom : string) (duration : Z) : M Keeper (list PeriodLock) :=
  getLocksFromIterator (AccountLockIteratorDurationDenom false addr denom duration).
Definition GetAccountLockedLongerDuration (addr : AccAddress) (duration : Z) : M Keeper (list PeriodLock) :=
  unlockings <~ getLocksFromIterator (AccountLockIteratorLongerDuration true addr duration) ;;
  notUnlockings <~ getLocksFromIterator (AccountLockIteratorLongerDuration false addr duration) ;;
  ret (combineLocks notUnlockings unlockings).
Definition GetAccountLockedDuration (addr : AccAddress) (duration : Z) : M Keeper (list PeriodLock) :=
  unlockedLocks <~ getLocksFromIterator (AccountLockIteratorDuration true addr duration) ;;
  lockedLocks <~ getLocksFromIterator (AccountLockIteratorDuration false addr duration) ;;
  ret (combineLocks unlockedLocks lockedLocks).
Definition GetAccountLockedLongerDurationNotUnlockingOnly (addr : AccAddress) (duration : Z) : M Keeper (list PeriodLock) :=
  getLocksFromIterator (AccountLockIteratorLongerDuration false addr duration).
Definition GetAccountLockedLongerDurationDenom (addr : AccAddress) (denom : string) (duration : Z) : M Keeper (list PeriodLock) :=
  unlockings <~ getLocksFromIterator (AccountLockIteratorLongerDurationDenom true addr denom duration) ;;
  notUnlockings <~ getLocksFromIterator (AccountLockIteratorLongerDurationDenom false addr denom duration) ;;
  ret (combineLocks notUnlockings unlockings).
Definition GetAccountLockedLongerDurationDenomNotUnlockingOnly (addr : AccAddress) (denom : string) (duration : Z) : M Keeper (list PeriodLock) :=
  getLocksFromIterator (AccountLockIteratorLongerDurationDenom false addr denom duration).
Definition GetLocksPastTimeDenom (ctx : Ctx) (denom : string) (timestamp : Z) : M Keeper (list PeriodLock) :=
  unlockings <~ getLocksFromIterator (LockIteratorAfterTimeDenom denom timestamp) ;;
  notUnlockings <~ getLocksFromIterator (LockIteratorLongerThanDurationDenom false denom (until ctx timestamp)) ;;
  ret (combineLocks notUnlockings unlockings).
Definition GetLocksLongerThanDurationDenom (denom : string) (duration : Z) : M Keeper (list PeriodLock) :=
  unlockings <~ getLocksFromIterator (LockIteratorLongerThanDurationDenom true denom duration) ;;
  notUnlockings <~ getLocksFromIterator (LockIteratorLongerThanDurationDenom false denom duration) ;;
  ret (combineLocks notUnlockings unlockings).
Definition GetLocksDenom (denom : string) : M Keeper (list PeriodLock) := GetLocksLongerThanDurationDenom denom 0.

Definition GetLockRewardReceiver (lockID : Z) : M Keeper string :=
  lock <~ GetLockByID lockID ;;
  ret (if String.eqb (RewardReceiverAddress lock) "" then Owner lock else RewardReceiverAddress lock).

Definition GetPeriodLocks : M Keeper (list PeriodLock) :=
  unlockings <~ getLocksFromIterator (LockIterator true) ;;
  notUnlockings <~ getLocksFromIterator (LockIterator false) ;;
  ret (combineLocks notUnlockings unlockings).
Definition GetAccountPeriodLocks (addr : AccAddress) : M Keeper (list PeriodLock) :=
  unlockings <~ getLocksFromIterator (AccountLockIterator true addr) ;;
  notUnlockings <~ getLocksFromIterator (AccountLockIterator false addr) ;;
  ret (combineLocks notUnlockings unlockings).

Definition HasLock (owner : AccAddress) (denom : string) (duration : Z) : M Keeper bool :=
  locks <~ GetAccountLockedDurationNotUnlockingOnly owner denom duration ;;
  ret (match locks with [] => false | _ => true end).

(** ** Synthetic locks ([keeper/synthetic_lock.go]) *)

Definition GetSyntheticLockup (lockID : Z) (synthdenom : string) : M Keeper SyntheticLock := fun k =>
  match st_get (lk_store k) (syntheticLockStoreKey lockID synthdenom) with
  | Some (VSynth l) => (Ok l, k)
  | Some _ => (Err "proto: wrong wireType", k)
  | None => (Err "synthetic lock does not exist", k)
  end.

Fixpoint synths_at (it : list (bytes * Stored)) : Res (list SyntheticLock) :=
  match it with
  | [] => Ok []
  | (_, VSynth l) :: rest => ls <- synths_at rest ;; Ok (l :: ls)
  | _ :: _ => Err "proto: wrong wireType"
  end.

Definition syntheticsOf (lockID : Z) : Keeper -> list (bytes * Stored) :=
  iterator (combineKeys [KeyPrefixSyntheticLockup; Uint64ToBigEndian lockID]).

Definition GetSyntheticLockupByUnderlyingLockId (lockID : Z) : M Keeper (SyntheticLock * bool) := fun k =>
  match synths_at (syntheticsOf lockID k) with
  | Ok [] => (Ok (no_synthetic, false), k)
  | Ok [l] => (Ok (l, true), k)
  | Ok _ => (Err "synthetic lockup with same lock id should not exist", k)
  | Err e => (Err e, k)
  | Panic m => (Panic m, k)
  end.

Definition HasAnySyntheticLockups (lockID : Z) (k : Keeper) : bool :=
  match syntheticsOf lockID k with [] => false | _ => true end.

Definition GetAllSyntheticLockups : M Keeper (list SyntheticLock) := fun k =>
  match synths_at (iterator KeyPrefixSyntheticLockup k) with Err e => (Panic e, k) | r => (r, k) end.

Fixpoint synths_of (locks : list PeriodLock) : M Keeper (list SyntheticLock) :=
  match locks with
  | [] => ret []
  | lock :: rest =>
      '(l, found) <~ (fun k => match GetSyntheticLockupByUnderlyingLockId (ID lock) k with (Err e, k') => (Panic e, k') | r => r end) ;;
      ls <~ synths_of rest ;;
      ret (if found then l :: ls else ls)
  end.
Definition GetAllSyntheticLockupsByAddr (owner : AccAddress) : M Keeper (list SyntheticLock) :=
  locks <~ GetAccountPeriodLocks owner ;; synths_of locks.

Definition setSyntheticLockupObject (synthLock : SyntheticLock) : M Keeper unit :=
  set_lk (fun s => st_set s (syntheticLockStoreKey (UnderlyingLockId synthLock) (SynthDenom synthLock)) (VSynth synthLock)) ~;;
  when (negb (SynthEndTime synthLock =? zero_time))
    (set_lk (fun s => st_set s (syntheticLockTimeStoreKey (UnderlyingLockId synthLock) (SynthDenom synthLock) (SynthEndTime synthLock))
                               (VSynth synthLock))).

Definition deleteSyntheticLockupObject (lockID : Z) (synthdenom : string) : M Keeper unit :=
  k <~ get ;;
  (match fst (GetSyntheticLockup lockID synthdenom k) with
   | Ok synthLock => when (negb (SynthEndTime synthLock =? zero_time))
       (set_lk (fun s => st_delete s (syntheticLockTimeStoreKey lockID synthdenom (SynthEndTime synthLock))))
   | _ => ret tt
   end) ~;;
  set_lk (fun s => st_delete s (syntheticLockStoreKey lockID synthdenom)).

Definition setSyntheticLockAndResetRefs (lock : PeriodLock) (synthLock : SyntheticLock) : M Keeper unit :=
  setSyntheticLockupObject synthLock ~;; addSyntheticLockRefs lock synthLock.

Definition CreateSyntheticLockup (ctx : Ctx) (lockID : Z) (synthDenom : string) (unlockDuration : Z) (isUnlocking : bool) : M Keeper unit :=
  '(_, found) <~ GetSyntheticLockupByUnderlyingLockId lockID ;;
  if found then fail "synthetic lockup already exists for same lock" else
  lock <~ GetLockByID lockID ;;
  endTime <~ (if isUnlocking
              then if unlockDuration >? Duration lock
                   then fail "synthetic lockup duration should be shorter than native lockup duration"
                   else ret (BlockTime ctx + unlockDuration)
              else ret zero_time) ;;
  let synthLock := {| UnderlyingLockId := lockID; SynthDenom := synthDenom; SynthEndTime := endTime; SynthDuration := unlockDuration |} in
  setSyntheticLockupObject synthLock ~;;
  addSyntheticLockRefs lock synthLock ~;;
  coin <~ lift (SingleCoin lock) ;;
  acc_Increase (SynthDenom synthLock) (accumulationKey unlockDuration) (Amount coin).

(** The amount is taken from the key of the duration of the lock, not of the
    synthetic lock. *)
Definition DeleteSyntheticLockup (lockID : Z) (synthdenom : string) : M Keeper unit :=
  synthLock <~ GetSyntheticLockup lockID synthdenom ;;
  lock <~ GetLockByID lockID ;;
  let lock := {| ID := ID lock; Owner := Owner lock; Duration := Duration lock; EndTime := SynthEndTime synthLock;
                 Coins := Coins lock; RewardReceiverAddress := RewardReceiverAddress lock |} in
  deleteSyntheticLockupObject lockID synthdenom ~;;
  deleteSyntheticLockRefs lock synthLock ~;;
  coin <~ lift (SingleCoin lock) ;;
  acc_Decrease (SynthDenom synthLock) (accumulationKey (Duration lock)) (Amount coin).

Definition deleteMaturedSynthetic (kv : bytes * Stored) : M Keeper unit :=
  match snd kv with
  | VSynth synthLock => fun k =>
      match DeleteSyntheticLockup (UnderlyingLockId synthLock) (SynthDenom synthLock) k with (Err e, k') => (Panic e, k') | r => r end
  | _ => panic "proto: wrong wireType"
  end.
Definition DeleteAllMaturedSyntheticLocks (ctx : Ctx) : M Keeper unit :=
  k <~ get ;; for_each (iteratorBeforeTime (combineKeys [KeyPrefixSyntheticLockTimestamp]) (BlockTime ctx) k) deleteMaturedSynthetic.

Definition GetUnderlyingLock (synthlock : SyntheticLock) : M Keeper PeriodLock := fun k =>
  match GetLockByID (UnderlyingLockId synthlock) k with (Err e, k') => (Panic e, k') | r => r end.

(** ** Locking and unlocking ([keeper/lock.go]) *)

Definition set_Coins (lock : PeriodLock) (cs : list Coin) : PeriodLock :=
  {| ID := ID lock; Owner := Owner lock; Duration := Duration lock; EndTime := EndTime lock; Coins := cs;
     RewardReceiverAddress := RewardReceiverAddress lock |}.
Definition set_EndTime (lock : PeriodLock) (t : Z) : PeriodLock :=
  {| ID := ID lock; Owner := Owner lock; Duration := Duration lock; EndTime := t; Coins := Coins lock;
     RewardReceiverAddress := RewardReceiverAddress lock |}.
Definition set_Duration (lock : PeriodLock) (d : Z) : PeriodLock :=
  {| ID := ID lock; Owner := Owner lock; Duration := d; EndTime := EndTime lock; Coins := Coins lock;
     RewardReceiverAddress := RewardReceiverAddress lock |}.
Definition set_RewardReceiver (lock : PeriodLock) (r : string) : PeriodLock :=
  {| ID := ID lock; Owner := Owner lock; Duration := Duration lock; EndTime := EndTime lock; Coins := Coins lock;
     RewardReceiverAddress := r |}.

(** A hook that is called whether or not hooks are set, and one that is called
    only when they are. *)
Definition call_hook (f : LockupHooks Ext -> M Ext unit) : M Keeper unit :=
  match lockup_hooks with Some h => on_ext (f h) | None => panic "nil pointer dereference" end.
Definition call_hook_if_set (f : LockupHooks Ext -> M Ext unit) : M Keeper unit :=
  match lockup_hooks with Some h => on_ext (f h) | None => ret tt end.

Definition lock (lock : PeriodLock) (tokensToLock : list Coin) : M Keeper unit :=
  owner <~ lift (AccAddressFromBech32 (Owner lock)) ;;
  setLock lock ~;;
  for_each tokensToLock (fun coin => acc_Increase (Denom coin) (accumulationKey (Duration lock)) (Amount coin)) ~;;
  call_hook (fun h => OnTokenLocked h owner (ID lock) (Coins lock) (Duration lock) (EndTime lock)).

Definition AddTokensToLockByID (lockID : Z) (owner : AccAddress) (tokensToAdd : Coin) : M Keeper PeriodLock :=
  l <~ GetLockByID lockID ;;
  if negb (String.eqb (Owner l) (AccString owner)) then fail "msg sender is not the owner of specified lock" else
  coins <~ lift (Coins_Add (Coins l) [tokensToAdd]) ;;
  let l := set_Coins l coins in
  added <~ lift (MakeCoins [tokensToAdd]) ;;
  on_ext (SendCoinsFromAccountToModule owner ModuleName added) ~;;
  lock l added ~;;
  '(synthlock, _) <~ GetSyntheticLockupByUnderlyingLockId (ID l) ;;
  acc_Increase (SynthDenom synthlock) (accumulationKey (SynthDuration synthlock)) (Amount tokensToAdd) ~;;
  match lockup_hooks with
  | None => ret l
  | Some h => a <~ lift (OwnerAddress l) ;; on_ext (AfterAddTokensToLock h a (ID l) added) ~;; ret l
  end.

Definition AddToExistingLock (owner : AccAddress) (coin : Coin) (duration : Z) : M Keeper Z :=
  locks <~ GetAccountLockedDurationNotUnlockingOnly owner (Denom coin) duration ;;
  match locks with
  | [] => fail "lockup not found"
  | l :: _ => AddTokensToLockByID (ID l) owner coin ~;; ret (ID l)
  end.

Definition CreateLockNoSend (owner : AccAddress) (coins : list Coin) (duration : Z) : M Keeper PeriodLock :=
  k <~ get ;;
  let ID := uint64 (GetLastLockID k + 1) in
  let l := NewPeriodLock ID owner "" duration zero_time coins in
  lock l (Coins l) ~;;
  addLockRefs l ~;;
  SetLastLockID ID ~;;
  ret l.

Definition CreateLock (owner : AccAddress) (coins : list Coin) (duration : Z) : M Keeper PeriodLock :=
  on_ext (SendCoinsFromAccountToModule owner ModuleName coins) ~;;
  CreateLockNoSend owner coins duration.

(** The lock that takes the coins away is stored, the references of the lock
    it was split from stay. *)
Definition SplitLock (l : PeriodLock) (coins : list Coin) (forceUnlock : bool) : M Keeper PeriodLock :=
  if negb forceUnlock && IsUnlocking l then fail "cannot split unlocking lock" else
  rest <~ lift (Coins_Sub (Coins l) coins) ;;
  let l := set_Coins l rest in
  setLock l ~;;
  k <~ get ;;
  let splitLockID := uint64 (GetLastLockID k + 1) in
  SetLastLockID splitLockID ~;;
  owner <~ lift (OwnerAddress l) ;;
  let splitLock := NewPeriodLock splitLockID owner (RewardReceiverAddress l) (Duration l) (EndTime l) coins in
  setLock splitLock ~;;
  ret splitLock.

(** The first coin of the lock is read for the event. *)
Definition createBeginUnlockEvent (l : PeriodLock) : Res unit :=
  match Coins l with [] => Panic "index out of range" | _ => Ok tt end.

Definition beginUnlock (ctx : Ctx) (l : PeriodLock) (coins : list Coin) : M Keeper Z :=
  if negb (Coins_IsAllLTE coins (Coins l)) then fail "requested amount to unlock exceeds locked tokens" else
  if IsUnlocking l then fail "trying to unlock a lock that is already unlocking" else
  l <~ (match coins with
        | [] => ret l
        | _ => if Coins_Equal coins (Coins l) then ret l else SplitLock l coins false
        end) ;;
  deleteLockRefs KeyPrefixNotUnlocking l ~;;
  let l := set_EndTime l (BlockTime ctx + Duration l) in
  setLock l ~;;
  addLockRefs l ~;;
  (match lockup_hooks with
   | Some h => a <~ lift (OwnerAddress l) ;; on_ext (OnStartUnlock h a (ID l) (Coins l) (Duration l) (EndTime l))
   | None => ret tt
   end) ~;;
  lift (createBeginUnlockEvent l) ~;;
  ret (ID l).

Definition BeginUnlock (ctx : Ctx) (lockID : Z) (coins : list Coin) : M Keeper Z :=
  l <~ GetLockByID lockID ;;
  k <~ get ;;
  if HasAnySyntheticLockups (ID l) k then fail "cannot BeginUnlocking a lock with synthetic lockup" else
  beginUnlock ctx l coins.

Definition BeginForceUnlock (ctx : Ctx) (lockID : Z) (coins : list Coin) : M Keeper Z :=
  l <~ GetLockByID lockID ;; beginUnlock ctx l coins.

Definition beginForceUnlockWithEndTime (l : PeriodLock) (endTime : Z) : M Keeper unit :=
  deleteLockRefs KeyPrefixNotUnlocking l ~;;
  let l := set_EndTime l endTime in
  setLock l ~;;
  addLockRefs l ~;;
  match lockup_hooks with
  | Some h => a <~ lift (OwnerAddress l) ;; on_ext (OnStartUnlock h a (ID l) (Coins l) (Duration l) (EndTime l))
  | None => ret tt
  end.
Definition BeginForceUnlockWithEndTime (lockID endTime : Z) : M Keeper unit :=
  l <~ GetLockByID lockID ;; beginForceUnlockWithEndTime l endTime.

Definition ConcentratedLiquidityTokenPrefix : string := "cl/pool".

(** Shares of concentrated liquidity are burnt, the rest goes to the owner. *)
Fixpoint coinsToReturn (coins acc : list Coin) : M Keeper (list Coin) :=
  match coins with
  | [] => ret acc
  | coin :: rest =>
      if String.prefix ConcentratedLiquidityTokenPrefix (Denom coin)
      then burnt <~ lift (MakeCoins [coin]) ;; on_ext (BurnCoins ModuleName burnt) ~;; coinsToReturn rest acc
      else acc <~ lift (Coins_Add acc [coin]) ;; coinsToReturn rest acc
  end.

Definition unlockMaturedLockInternalLogic (l : PeriodLock) : M Keeper unit :=
  owner <~ lift (AccAddressFromBech32 (Owner l)) ;;
  final <~ coinsToReturn (Coins l) [] ;;
  (match final with [] => ret tt | _ => on_ext (SendCoinsFromModuleToAccount ModuleName owner final) end) ~;;
  deleteLock (ID l) ~;;
  deleteLockRefs KeyPrefixUnlocking l ~;;
  for_each (Coins l) (fun coin => acc_Decrease (Denom coin) (accumulationKey (Duration l)) (Amount coin)) ~;;
  call_hook (fun h => OnTokenUnlocked h owner (ID l) (Coins l) (Duration l) (EndTime l)).

Definition UnlockMaturedLock (ctx : Ctx) (lockID : Z) : M Keeper unit :=
  l <~ GetLockByID lockID ;;
  if negb (IsUnlocking l) then fail "lock hasn't started unlocking yet" else
  if BlockTime ctx <? EndTime l then fail "lock is not unlockable yet" else
  unlockMaturedLockInternalLogic l.

(** An error of one lock panics. *)
Fixpoint unlock_each (ctx : Ctx) (locks : list PeriodLock) (acc : list Coin) : M Keeper (list Coin) :=
  match locks with
  | [] => ret acc
  | l :: rest =>
      (fun k => match UnlockMaturedLock ctx (ID l) k with (Err e, k') => (Panic e, k') | r => r end) ~;;
      acc <~ lift (Coins_Add acc (Coins l)) ;; unlock_each ctx rest acc
  end.
Definition unlockFromIterator (ctx : Ctx) (it : Keeper -> list (bytes * Stored)) : M Keeper (list PeriodLock * list Coin) :=
  locks <~ getLocksFromIterator it ;;
  coins <~ unlock_each ctx locks [] ;;
  ret (locks, coins).
Definition WithdrawAllMaturedLocks (ctx : Ctx) : M Keeper unit :=
  unlockFromIterator ctx (LockIteratorBeforeTime (BlockTime ctx)) ~;; ret tt.

Definition beginUnlockFromIterator (ctx : Ctx) (it : Keeper -> list (bytes * Stored)) : M Keeper (list PeriodLock) :=
  locks <~ getLocksFromIterator it ;;
  for_each locks (fun l => BeginUnlock ctx (ID l) [] ~;; ret tt) ~;;
  ret locks.
Definition BeginUnlockAllNotUnlockings (ctx : Ctx) (account : AccAddress) : M Keeper (list PeriodLock) :=
  beginUnlockFromIterator ctx (AccountLockIterator false account).

Definition ForceUnlock (ctx : Ctx) (l : PeriodLock) : M Keeper unit :=
  '(synthLock, _) <~ GetSyntheticLockupByUnderlyingLockId (ID l) ;;
  when (negb (IsNil synthLock)) (DeleteSyntheticLockup (ID l) (SynthDenom synthLock)) ~;;
  when (negb (IsUnlocking l)) (BeginUnlock ctx (ID l) [] ~;; ret tt) ~;;
  l <~ GetLockByID (ID l) ;;
  unlockMaturedLockInternalLogic l.

Definition PartialForceUnlock (ctx : Ctx) (l : PeriodLock) (coins : list Coin) : M Keeper unit :=
  if negb (Coins_IsAllLTE coins (Coins l)) then fail "requested amount to unlock exceeds locked tokens" else
  l <~ (match coins with
        | [] => ret l
        | _ => if Coins_Equal coins (Coins l) then ret l else SplitLock l coins true
        end) ;;
  ForceUnlock ctx l.

Definition SetLockRewardReceiverAddress (lockID : Z) (owner : AccAddress) (newReceiverAddress : string) : M Keeper unit :=
  l <~ GetLockByID lockID ;;
  if negb (String.eqb (Owner l) (AccString owner)) then fail "msg sender is not the owner of specified lock" else
  let newReceiverAddress := if String.eqb (Owner l) newReceiverAddress then DefaultOwnerReceiverPlaceholder else newReceiverAddress in
  if String.eqb (RewardReceiverAddress l) newReceiverAddress then fail "reward receiver is the same" else
  setLock (set_RewardReceiver l newReceiverAddress).

Definition moveAccumulation (oldDuration newDuration : Z) (coin : Coin) : M Keeper unit :=
  acc_Decrease (Denom coin) (accumulationKey oldDuration) (Amount coin) ~;;
  acc_Increase (Denom coin) (accumulationKey newDuration) (Amount coin).

Definition ExtendLockup (lockID : Z) (owner : AccAddress) (newDuration : Z) : M Keeper unit :=
  l <~ GetLockByID lockID ;;
  if negb (String.eqb (Owner l) (AccString owner)) then fail "msg sender is not the owner of specified lock" else
  if IsUnlocking l then fail "cannot edit unlocking lockup" else
  k <~ get ;;
  if HasAnySyntheticLockups (ID l) k then fail "cannot edit lockup with synthetic lock" else
  deleteLockRefs (unlockingPrefix (IsUnlocking l)) l ~;;
  let oldDuration := Duration l in
  l <~ (if negb (newDuration =? 0)
        then if newDuration <=? oldDuration then fail "new duration should be greater than the original" else
             for_each (Coins l) (moveAccumulation (Duration l) newDuration) ~;;
             ret (set_Duration l newDuration)
        else ret l) ;;
  addLockRefs l ~;;
  setLock l ~;;
  call_hook (fun h => OnLockupExtend h (ID l) oldDuration (Duration l)).

(** [coins[0]] panics when there are none. *)
Definition removeTokensFromLock (l : PeriodLock) (coins : list Coin) : M Keeper PeriodLock :=
  rest <~ lift (Coins_Sub (Coins l) coins) ;;
  let l := set_Coins l rest in
  setLock l ~;;
  for_each coins (fun coin => acc_Decrease (Denom coin) (accumulationKey (Duration l)) (Amount coin)) ~;;
  '(synthLock, _) <~ GetSyntheticLockupByUnderlyingLockId (ID l) ;;
  match coins with
  | [] => panic "index out of range"
  | c :: _ => acc_Decrease (SynthDenom synthLock) (accumulationKey (SynthDuration synthLock)) (Amount c) ~;; ret l
  end.

Definition SlashTokensFromLockByID (lockID : Z) (coins : list Coin) : M Keeper PeriodLock :=
  l <~ GetLockByID lockID ;;
  on_ext (FundCommunityPool coins (GetModuleAddress ModuleName)) ~;;
  l <~ removeTokensFromLock l coins ;;
  call_hook_if_set (fun h => OnTokenSlashed h (ID l) coins) ~;;
  ret l.

Definition SlashTokensFromLockByIDSendUnderlyingAndBurn (lockID : Z) (liquiditySharesToSlash underlyingPositionAssets : list Coin)
  (poolAddress : AccAddress) : M Keeper PeriodLock :=
  l <~ GetLockByID lockID ;;
  on_ext (FundCommunityPool underlyingPositionAssets poolAddress) ~;;
  on_ext (BurnCoins ModuleName liquiditySharesToSlash) ~;;
  l <~ removeTokensFromLock l liquiditySharesToSlash ;;
  call_hook_if_set (fun h => OnTokenSlashed h (ID l) liquiditySharesToSlash) ~;;
  ret l.

(** ** Bulk initialization and rebuilding ([keeper/lock.go], [keeper/genesis.go])

    The maps from durations to amounts are association lists; they are read in
    the order of the sorted keys. *)

Definition addDuration (m : list (Z * Z)) (d amt : Z) : Res (list (Z * Z)) :=
  (fix go m := match m with
   | [] => Ok [(d, amt)]
   | (d', a) :: rest => if d' =? d then s <- int_Add amt a ;; Ok ((d', s) :: rest) else r <- go rest ;; Ok ((d', a) :: r)
   end) m.

Definition addEntry (m : list (string * list (Z * Z))) (denom : string) (d amt : Z) : Res (list (string * list (Z * Z))) :=
  (fix go m := match m with
   | [] => Ok [(denom, [(d, amt)])]
   | (e, ds) :: rest => if String.eqb e denom then ds' <- addDuration ds d amt ;; Ok ((e, ds') :: rest)
                        else r <- go rest ;; Ok ((e, ds) :: r)
   end) m.

Fixpoint insert_by {A} (le : A -> A -> bool) (x : A) (l : list A) : list A :=
  match l with [] => [x] | y :: r => if le x y then x :: l else y :: insert_by le x r end.
Definition sort_by {A} (le : A -> A -> bool) (l : list A) : list A := fold_right (insert_by le) [] l.

Definition writeDurationValuesToAccumTree (denom : string) (durationValueMap : list (Z * Z)) : M Keeper unit :=
  for_each (sort_by (fun a b => fst a <=? fst b) durationValueMap)
    (fun da => acc_Increase denom (accumulationKey (fst da)) (snd da)).

Definition writeEntries (m : list (string * list (Z * Z))) : M Keeper unit :=
  for_each (sort_by (fun a b => bleb (string_bytes (fst a)) (string_bytes (fst b))) m)
    (fun e => writeDurationValuesToAccumTree (fst e) (snd e)).

Definition addLockEntries (l : PeriodLock) (m : list (string * list (Z * Z))) : Res (list (string * list (Z * Z))) :=
  fold_left (fun r coin => m <- r ;; addEntry m (Denom coin) (Duration l) (Amount coin)) (Coins l) (Ok m).

Definition InitializeAllLocks (locks : list PeriodLock) : M Keeper unit :=
  entries <~ (fix go ls m := match ls with
              | [] => ret m
              | l :: rest => setLockAndAddLockRefs l ~;; m <~ lift (addLockEntries l m) ;; go rest m
              end) locks [] ;;
  writeEntries entries.

Definition InitializeAllSyntheticLocks (syntheticLocks : list SyntheticLock) : M Keeper unit :=
  entries <~ (fix go ls m := match ls with
              | [] => ret m
              | synthLock :: rest =>
                  l <~ GetLockByID (UnderlyingLockId synthLock) ;;
                  setSyntheticLockAndResetRefs l synthLock ~;;
                  coin <~ lift (SingleCoin l) ;;
                  m <~ lift (addEntry m (SynthDenom synthLock) (SynthDuration synthLock) (Amount coin)) ;;
                  go rest m
              end) syntheticLocks [] ;;
  writeEntries entries.

Definition clearKeysByPrefix (prefix : bytes) : M Keeper unit := fun k =>
  (Ok tt, set_acc (fold_left (fun s kv => st_delete s (fst kv)) (st_iter (lk_acc k) (Some prefix) (PrefixEndBytes prefix)) (lk_acc k)) k).
Definition ClearAccumulationStores : M Keeper unit := clearKeysByPrefix [].

Fixpoint sumByDuration (denom : string) (locks : list PeriodLock) (m : list (Z * Z)) : Res (list (Z * Z)) :=
  match locks with
  | [] => Ok m
  | l :: rest => amt <- Coins_AmountOf (Coins l) denom ;; m <- addDuration m (Duration l) amt ;; sumByDuration denom rest m
  end.
Definition RebuildAccumulationStoreForDenom (denom : string) : M Keeper unit :=
  clearKeysByPrefix (accumulationStorePrefix denom) ~;;
  locks <~ GetLocksDenom denom ;;
  m <~ lift (sumByDuration denom locks []) ;;
  writeDurationValuesToAccumTree denom m.

(** The prefix without its last byte, the slash.  The entries of the map are
    written in the order of its keys: the order of the code, which ranges over
    the map, is not determined. *)
Definition RebuildSuperfluidAccumulationStoresForDenom (denom : string) : M Keeper unit :=
  clearKeysByPrefix (string_bytes (denom ++ "/super")) ~;;
  locks <~ GetLocksDenom denom ;;
  entries <~ (fix go ls m := match ls with
              | [] => ret m
              | l :: rest =>
                  k <~ get ;;
                  match fst (GetSyntheticLockupByUnderlyingLockId (ID l) k) with
                  | Ok (synthLock, true) =>
                      newAmt <~ lift (Coins_AmountOf (Coins l) denom) ;;
                      m <~ lift (addEntry m (SynthDenom synthLock) (SynthDuration synthLock) newAmt) ;; go rest m
                  | _ => go rest m
                  end
              end) locks [] ;;
  writeEntries entries.

Definition InitGenesis (params : option (list string)) (lastLockId : Z) (locks : list PeriodLock) (synths : list SyntheticLock) : M Keeper unit :=
  SetParams (match params with Some p => p | None => [] end) ~;;
  SetLastLockID lastLockId ~;;
  (fun k => match InitializeAllLocks locks k with
            | (Err _, k') => (Ok tt, k')
            | (Ok _, k') => match InitializeAllSyntheticLocks synths k' with (Err _, k'') => (Ok tt, k'') | r => r end
            | r => r
            end).

Definition ExportGenesis : M Keeper (Z * list PeriodLock * list SyntheticLock * list string) :=
  locks <~ GetPeriodLocks ;;
  k <~ get ;;
  synths <~ GetAllSyntheticLockups ;;
  ret (GetLastLockID k, locks, synths, lk_params k).

(** ** Administration ([keeper/admin_keeper.go]) *)

Definition Relock (lockID : Z) (newCoins : list Coin) : M Keeper unit :=
  l <~ GetLockByID lockID ;;
  owner <~ lift (AccAddressFromBech32 (Owner l)) ;;
  on_ext (SendCoinsFromModuleToAccount ModuleName owner (Coins l)) ~;;
  on_ext (SendCoinsFromAccountToModule owner ModuleName newCoins) ~;;
  set_lk (fun s => st_set s (lockStoreKey lockID) (VLock (set_Coins l newCoins))).

(** The reference keys are deleted without the prefix they are stored under. *)
Definition BreakLock (lockID : Z) : M Keeper unit :=
  l <~ GetLockByID lockID ;;
  owner <~ lift (AccAddressFromBech32 (Owner l)) ;;
  on_ext (SendCoinsFromModuleToAccount ModuleName owner (Coins l)) ~;;
  deleteLock lockID ~;;
  refKeys <~ lift (lockRefKeys l) ;;
  for_each refKeys (fun refKey => deleteLockRefByKey refKey lockID).

(** ** Messages ([keeper/msg_server.go], [types/msgs.go]) and blocks ([abci.go]) *)

Definition valid_address (a : string) : bool := is_ok (AccAddressFromBech32 a).

Definition MsgLockTokens_ValidateBasic (owner : string) (duration : Z) (coins : list Coin) : bool :=
  valid_address owner && (0 <? duration) && (match coins with [_] => true | _ => false end) && Coins_IsAllPositive coins.
Definition MsgBeginUnlocking_ValidateBasic (owner : string) (id : Z) (coins : list Coin) : bool :=
  valid_address owner && negb (id =? 0) && (match coins with [] => true | [_] => Coins_IsAllPositive coins | _ => false end).
Definition MsgExtendLockup_ValidateBasic (owner : string) (id duration : Z) : bool :=
  valid_address owner && negb (id =? 0) && (0 <? duration).
Definition MsgForceUnlock_ValidateBasic (owner : string) (id : Z) (coins : list Coin) : bool :=
  valid_address owner && negb (id =? 0) && Coins_IsValid coins.
Definition MsgSetRewardReceiverAddress_ValidateBasic (owner receiver : string) (id : Z) : bool :=
  valid_address owner && valid_address receiver && negb (id =? 0).

Definition LockTokens (owner : string) (duration : Z) (coins : list Coin) : M Keeper Z :=
  addr <~ lift (AccAddressFromBech32 owner) ;;
  match coins with
  | [] => panic "index out of range"
  | c :: _ =>
      lockExists <~ HasLock addr (Denom c) duration ;;
      if lockExists : bool then AddToExistingLock addr c duration
      else l <~ CreateLock addr coins duration ;; ret (ID l)
  end.

Definition BeginUnlocking (ctx : Ctx) (owner : string) (id : Z) (coins : list Coin) : M Keeper Z :=
  l <~ GetLockByID id ;;
  if negb (String.eqb owner (Owner l)) then fail "msg sender is not the owner of specified lock" else
  BeginUnlock ctx (ID l) coins.

Definition BeginUnlockingAll (ctx : Ctx) (owner : string) : M Keeper unit :=
  addr <~ lift (AccAddressFromBech32 owner) ;;
  unlocks <~ BeginUnlockAllNotUnlockings ctx addr ;;
  lift (getCoinsFromLocks unlocks) ~;;
  for_each unlocks (fun l => lift (createBeginUnlockEvent l)).

Definition MsgExtendLockup (owner : string) (id duration : Z) : M Keeper unit :=
  addr <~ lift (AccAddressFromBech32 owner) ;;
  ExtendLockup id addr duration ~;;
  GetLockByID id ~;; ret tt.

Definition MsgForceUnlock (ctx : Ctx) (owner : string) (id : Z) (coins : list Coin) : M Keeper unit :=
  l <~ GetLockByID id ;;
  if negb (String.eqb (Owner l) owner) then fail "Sender does not match lock owner" else
  k <~ get ;;
  if negb (existsb (fun addr => String.eqb addr (Owner l) && String.eqb addr owner) (lk_params k))
  then fail "Sender not allowed to force unlock" else
  '(synthLock, _) <~ GetSyntheticLockupByUnderlyingLockId (ID l) ;;
  if negb (IsNil synthLock) then fail "superfluid delegation exists for lock" else
  PartialForceUnlock ctx l coins.

Definition SetRewardReceiverAddress (owner receiver : string) (id : Z) : M Keeper unit :=
  addr <~ lift (AccAddressFromBech32 owner) ;;
  newRewardRecepient <~ lift (AccAddressFromBech32 receiver) ;;
  SetLockRewardReceiverAddress id addr (AccString newRewardRecepient).

Definition EndBlocker (ctx : Ctx) : M Keeper unit :=
  when (Z.rem (BlockHeight ctx) 30 =? 0) (DeleteAllMaturedSyntheticLocks ctx ~;; WithdrawAllMaturedLocks ctx).

(** ** The invariants the module registers ([keeper/invariants.go]): [true] when
    broken *)

Definition SyntheticLockupInvariant : M Keeper bool :=
  synthlocks <~ GetAllSyntheticLockups ;;
  (fix go ls := match ls with
   | [] => ret false
   | s :: rest => baselock <~ GetUnderlyingLock s ;;
                  if negb (ID baselock =? UnderlyingLockId s) then ret true else go rest
   end) synthlocks.

Definition sumAmounts (denom : string) (locks : list PeriodLock) : Res Z :=
  fold_left (fun r l => s <- r ;; a <- Coins_AmountOf (Coins l) denom ;; int_Add s a) locks (Ok 0).

Definition invariantDurations : list Z := [Second; Hour * 24; Hour * 24 * 7; Hour * 24 * 14].

Definition accumulationMatches (denom : string) (duration : Z) : M Keeper bool :=
  accumulation <~ GetPeriodLocksAccumulation denom duration ;;
  locks <~ GetLocksLongerThanDurationDenom denom duration ;;
  lockupSum <~ lift (sumAmounts denom locks) ;;
  ret (accumulation =? lockupSum).

(** Whether a check fails for one of the elements. *)
Fixpoint any_broken {A} (check : A -> M Keeper bool) (l : list A) : M Keeper bool :=
  match l with
  | [] => ret false
  | x :: rest => ok <~ check x ;; if ok : bool then any_broken check rest else ret true
  end.

Definition AccumulationStoreInvariant : M Keeper bool :=
  k <~ get ;;
  any_broken (fun x => accumulationMatches (fst x) (snd x))
    (flat_map (fun coin => map (fun d => (Denom coin, d)) invariantDurations) (GetModuleBalance k)).

Definition balanceMatches (coin : Coin) : M Keeper bool :=
  locksByDenom <~ GetLocksDenom (Denom coin) ;;
  lockedAmount <~ lift (sumAmounts (Denom coin) locksByDenom) ;;
  ret (lockedAmount =? Amount coin).

Definition LocksBalancesInvariant : M Keeper bool := k <~ get ;; any_broken balanceMatches (GetModuleBalance k).

End Lockup.
