(* ===== verification/LockupStore.v ===== *)
(** * The keys of [x/lockup], and its store as a map of locks

    Reference keys end with the identifier of their lock, so references of
    different locks never collide.  The parts before it are recovered from the
    ranges the iterators of the module use: denominations have no separator
    byte, durations and times are written with a fixed width in their order.

    [StoreOk s L R n]: the store holds the locks of [L] under their keys, the
    reference keys are exactly those of the locks of [R], the last id given out
    is [n], and there are no synthetic locks.  Between operations [L] and [R]
    are the same map; inside an operation a lock is stored before it is
    referred to.  One lemma per step says how the two maps change. *)

From Stdlib Require Import ZArith Lia List Bool String Ascii Sorted.
From S2P Require Import Prelude GoBig SdkMath Store SumTree GoState SdkCoins Lockup.
Import ListNotations.

(** ** Keys *)

Definition uint64_ok (n : Z) : Prop := 0 <= n < 2 ^ 64.

(** The documented behaviour of the text formats of the SDK.  Times are written
    with a fixed number of digits from the year to the nanosecond. *)
Class SdkTextSpec (T : SdkText) : Prop := {
  Bech32_String s a : AccAddressFromBech32 s = Ok a -> AccAddressFromBech32 (AccString a) = Ok a;
  Bech32_bytes s a : AccAddressFromBech32 s = Ok a -> Forall byte a;
  FormatTimeBytes_length t : uint64_ok t -> List.length (FormatTimeBytes t) = 29%nat;
  FormatTimeBytes_bytes t : uint64_ok t -> Forall byte (FormatTimeBytes t);
  FormatTimeBytes_order t u : uint64_ok t -> uint64_ok u -> bcompare (FormatTimeBytes t) (FormatTimeBytes u) = Z.compare t u
}.

Section Keys.
Context {B : BigEndian} {BS : BigEndianSpec B} {T : SdkText} {TS : SdkTextSpec T}.

Lemma app_tail {A} (a b x y : list A) : a ++ x = b ++ y -> List.length x = List.length y -> a = b /\ x = y.
Proof.
  revert b. induction a as [|c a IH]; intros [|d b] E L; cbn [app] in E.
  - auto.
  - apply (f_equal (@List.length A)) in E. cbn [List.length] in E. rewrite length_app in E. lia.
  - apply (f_equal (@List.length A)) in E. cbn [List.length] in E. rewrite length_app in E. lia.
  - injection E as -> E. destruct (IH b E L) as [-> ->]. auto.
Qed.

Lemma be_inj n m : uint64_ok n -> uint64_ok m -> Uint64ToBigEndian n = Uint64ToBigEndian m -> n = m.
Proof. intros N M E. rewrite <- (Uint64ToBigEndian_value n N), <- (Uint64ToBigEndian_value m M). now rewrite E. Qed.

Lemma be_order n m : uint64_ok n -> uint64_ok m -> bcompare (Uint64ToBigEndian n) (Uint64ToBigEndian m) = Z.compare n m.
Proof.
  intros N M. rewrite bcompare_be; try apply Uint64ToBigEndian_bytes; auto.
  - now rewrite !Uint64ToBigEndian_value.
  - now rewrite !Uint64ToBigEndian_length.
Qed.

Lemma lockStoreKey_app id : lockStoreKey id = [2; 255] ++ Uint64ToBigEndian id.
Proof. reflexivity. Qed.

Lemma lockStoreKey_inj n m : uint64_ok n -> uint64_ok m -> lockStoreKey n = lockStoreKey m -> n = m.
Proof. intros N M E. rewrite !lockStoreKey_app in E. apply app_inv_head in E. now apply be_inj. Qed.

Lemma accumulationKey_inj n m : 0 <= n < 2 ^ 63 -> 0 <= m < 2 ^ 63 -> accumulationKey n = accumulationKey m -> n = m.
Proof. unfold accumulationKey, uint64. intros N M. rewrite !Z.mod_small by lia. apply be_inj; unfold uint64_ok; lia. Qed.

(** A reference key: the state of the lock, what it is referred by, its id. *)
Definition ref_key (u : bool) (rk : bytes) (id : Z) : bytes :=
  combineKeys [combineKeys [unlockingPrefix u; rk]; Uint64ToBigEndian id].

Lemma ref_key_app u rk id : ref_key u rk id = (if u then 4 else 3) :: 255 :: rk ++ 255 :: Uint64ToBigEndian id.
Proof. unfold ref_key, combineKeys, unlockingPrefix, KeyPrefixUnlocking, KeyPrefixNotUnlocking. now destruct u; cbn [app]; rewrite <- ?app_assoc. Qed.

Lemma ref_key_inj u rk id u' rk' id' : uint64_ok id -> uint64_ok id' -> ref_key u rk id = ref_key u' rk' id' ->
  u = u' /\ rk = rk' /\ id = id'.
Proof.
  intros I I' E. rewrite !ref_key_app in E. injection E as Eu E.
  change (rk ++ 255 :: Uint64ToBigEndian id) with (rk ++ [255] ++ Uint64ToBigEndian id) in E.
  change (rk' ++ 255 :: Uint64ToBigEndian id') with (rk' ++ [255] ++ Uint64ToBigEndian id') in E.
  apply app_tail in E as [E1 E2]; [|rewrite !length_app, !Uint64ToBigEndian_length by assumption; reflexivity].
  apply app_inv_head in E2. apply be_inj in E2; auto. split; [destruct u, u'; congruence | auto].
Qed.

Definition is_ref (k : bytes) : Prop := match k with b :: _ => b = 3 \/ b = 4 | [] => False end.

Lemma ref_key_is_ref u rk id : is_ref (ref_key u rk id).
Proof. rewrite ref_key_app. destruct u; cbn; auto. Qed.

Lemma lockStoreKey_not_ref id : ~ is_ref (lockStoreKey id).
Proof. rewrite lockStoreKey_app. cbn. lia. Qed.

(** ** What a lock is referred by *)

Definition duration_refs (a : AccAddress) (l : PeriodLock) : list bytes :=
  let d := getDurationKey (Duration l) in
  [combineKeys [KeyPrefixLockDuration; d]; combineKeys [KeyPrefixAccountLockDuration; a; d]] ++
  flat_map (fun coin => [combineKeys [KeyPrefixDenomLockDuration; string_bytes (Denom coin); d];
                         combineKeys [KeyPrefixAccountDenomLockDuration; a; string_bytes (Denom coin); d]]) (Coins l).

Definition time_refs (a : AccAddress) (l : PeriodLock) : list bytes :=
  let t := getTimeKey (EndTime l) in
  [combineKeys [KeyPrefixLockTimestamp; t]; combineKeys [KeyPrefixAccountLockTimestamp; a; t]] ++
  flat_map (fun coin => [combineKeys [KeyPrefixDenomLockTimestamp; string_bytes (Denom coin); t];
                         combineKeys [KeyPrefixAccountDenomLockTimestamp; a; string_bytes (Denom coin); t]]) (Coins l).

Definition refs (a : AccAddress) (l : PeriodLock) : list bytes :=
  if IsUnlocking l then duration_refs a l ++ time_refs a l else duration_refs a l.

Lemma durationLockRefKeys_ok l a : AccAddressFromBech32 (Owner l) = Ok a -> durationLockRefKeys l = Ok (duration_refs a l).
Proof. intros E. unfold durationLockRefKeys. rewrite E. reflexivity. Qed.

Lemma lockRefKeys_ok l a : AccAddressFromBech32 (Owner l) = Ok a -> lockRefKeys l = Ok (duration_refs a l ++ time_refs a l).
Proof. intros E. unfold lockRefKeys. rewrite (durationLockRefKeys_ok l a E), E. reflexivity. Qed.

Lemma refs_deleted a l rk : In rk (refs a l) -> In rk (duration_refs a l ++ time_refs a l).
Proof. unfold refs. destruct (IsUnlocking l); [auto|]. intros I. apply in_or_app. now left. Qed.

(** All keys are byte strings. *)
Lemma string_bytes_byte s : Forall byte (string_bytes s).
Proof.
  induction s as [|c s IH]; [constructor|]. cbn [string_bytes]. constructor; [|exact IH]. unfold byte. pose proof (nat_ascii_bounded c). lia.
Qed.

Lemma combine_bytes ks : Forall (Forall byte) ks -> Forall byte (combineKeys ks).
Proof.
  induction 1 as [|k ks Hk F IH]; [constructor|]. cbn [combineKeys]. destruct ks; [exact Hk|]. apply Forall_app. split; [exact Hk|].
  constructor; [unfold byte; lia | exact IH].
Qed.

Lemma uint64_in_range n : uint64_ok (uint64 n).
Proof. unfold uint64_ok, uint64. apply Z.mod_pos_bound. lia. Qed.

Lemma durationKey_bytes d : Forall byte (getDurationKey d).
Proof.
  unfold getDurationKey. apply combine_bytes. constructor; [repeat constructor; unfold byte; lia|].
  constructor; [|constructor]. apply Uint64ToBigEndian_bytes, uint64_in_range.
Qed.

Lemma timeKey_bytes t : uint64_ok t -> Forall byte (getTimeKey t).
Proof.
  intros H. unfold getTimeKey. rewrite FormatTimeBytes_length by exact H. constructor; [unfold byte; lia|]. cbn [app]. apply Forall_app.
  split; [apply Uint64ToBigEndian_bytes; lia | now apply FormatTimeBytes_bytes].
Qed.

Lemma refs_bytes a l rk : Forall byte a -> (IsUnlocking l = true -> uint64_ok (EndTime l)) -> In rk (refs a l) -> Forall byte rk.
Proof.
  intros Ha Ht I. pose proof (durationKey_bytes (Duration l)) as Hd.
  assert (One : forall b, 0 <= b < 256 -> Forall byte [b]) by (repeat constructor; unfold byte; lia).
  assert (D : In rk (duration_refs a l) -> Forall byte rk).
  { clear I. unfold duration_refs. intros I. apply in_app_or in I as [I | I].
    - destruct I as [<- | [<- | []]]; apply combine_bytes; repeat (apply Forall_cons; [first [exact Ha | exact Hd | apply One; lia]|]); constructor.
    - apply in_flat_map in I as (c & _ & [<- | [<- | []]]); apply combine_bytes;
        repeat (apply Forall_cons; [first [exact Ha | exact Hd | apply string_bytes_byte | apply One; lia]|]); constructor. }
  unfold refs in I. destruct (IsUnlocking l); [|now apply D]. apply in_app_or in I as [I | I]; [now apply D|].
  pose proof (timeKey_bytes (EndTime l) (Ht eq_refl)) as Hk. unfold time_refs in I. apply in_app_or in I as [I | I].
  - destruct I as [<- | [<- | []]]; apply combine_bytes; repeat (apply Forall_cons; [first [exact Ha | exact Hk | apply One; lia]|]); constructor.
  - apply in_flat_map in I as (c & _ & [<- | [<- | []]]); apply combine_bytes;
      repeat (apply Forall_cons; [first [exact Ha | exact Hk | apply string_bytes_byte | apply One; lia]|]); constructor.
Qed.

Lemma ref_key_bytes u rk id : uint64_ok id -> Forall byte rk -> Forall byte (ref_key u rk id).
Proof.
  intros U H. rewrite ref_key_app. constructor; [unfold byte; destruct u; lia|]. constructor; [unfold byte; lia|]. apply Forall_app.
  split; [exact H|]. constructor; [unfold byte; lia | now apply Uint64ToBigEndian_bytes].
Qed.

Lemma lockStoreKey_bytes id : uint64_ok id -> Forall byte (lockStoreKey id).
Proof. intros U. rewrite lockStoreKey_app. repeat (constructor; [unfold byte; lia|]). now apply Uint64ToBigEndian_bytes. Qed.

End Keys.

(** ** The store *)

From stdpp Require Import base gmap.
From Stdlib Require Import ZArith Lia List Bool String Sorted.
From S2P Require Import Prelude GoBig SdkMath Store SumTree GoState PrefixStore SdkCoins Lockup.
Import ListNotations.
Open Scope Z_scope.
Abbreviation lockmap := (gmap Z PeriodLock).

Section LockupStore.
Context {S : SdkMath} {B : BigEndian} {BS : BigEndianSpec B} {T : SdkText} {TS : SdkTextSpec T} {C : CoinsOps} {P : PrefixEnd} {PS : PrefixEndSpec P}
  {LK : LockupKeepers} {KL : KVStore Stored} {KLS : KVStoreSpec KL} {KA : KVStore (list Child)}.

(** [y] is a reference key of the lock [id]. *)
Definition refers (R : lockmap) (y : bytes) (id : Z) : Prop :=
  exists l a rk, R !! id = Some l /\ AccAddressFromBech32 (Owner l) = Ok a /\ In rk (refs a l) /\ y = ref_key (IsUnlocking l) rk id.

Record StoreOk (s : @St _ KL) (L R : lockmap) (n : Z) : Prop := {
  so_locks : forall id, uint64_ok id -> st_get s (lockStoreKey id) = VLock <$> (L !! id);
  so_refs : forall y v, is_ref y -> (st_get s y = Some v <-> exists id, v = VId id /\ refers R y id);
  so_range : forall id l, R !! id = Some l -> uint64_ok id;
  so_last : (match st_get s KeyLastLockID with Some (VId id) => id | _ => 0 end) = n;
  so_nosynth : forall b y, b = 15 \/ b = 16 -> st_get s (b :: y) = None;
  so_bytes : forall y v, st_get s y = Some v -> Forall byte y
}.

(** The rest of the keeper is untouched. *)
Definition same_rest (k k' : Keeper) : Prop := lk_acc k' = lk_acc k /\ lk_params k' = lk_params k /\ lk_ext k' = lk_ext k.

Lemma same_rest_refl k : same_rest k k.
Proof. repeat split. Qed.
Lemma same_rest_trans k1 k2 k3 : same_rest k1 k2 -> same_rest k2 k3 -> same_rest k1 k3.
Proof. unfold same_rest. intuition congruence. Qed.

Lemma set_lk_ok f k r k' : set_lk f k = (Ok r, k') -> lk_store k' = f (lk_store k) /\ same_rest k k'.
Proof. unfold set_lk, modify. intros H. apply (f_equal snd) in H. cbn in H. subst k'. repeat split. Qed.

Lemma not_ref_first y b : is_ref y -> hd_error y = Some b -> b = 3 \/ b = 4.
Proof. destruct y; [intros []|]. cbn. intros H E. injection E as <-. exact H. Qed.

(** A write outside of the references. *)
Lemma store_lock s L R n l : StoreOk s L R n -> uint64_ok (ID l) -> StoreOk (st_set s (lockStoreKey (ID l)) (VLock l)) (<[ID l := l]> L) R n.
Proof.
  intros [A1 A2 A3 A4 A5 A6] U. split; auto.
  - intros id Ui. destruct (Z.eq_dec id (ID l)) as [-> | N].
    + now rewrite get_set_eq, lookup_insert_eq.
    + rewrite get_set_ne, lookup_insert_ne by (try congruence; intros E; apply lockStoreKey_inj in E; congruence). auto.
  - intros y v Hy. rewrite get_set_ne; [now apply A2|]. intros E. apply (lockStoreKey_not_ref (ID l)). now rewrite E.
  - rewrite get_set_ne; [exact A4|]. rewrite lockStoreKey_app. discriminate.
  - intros b y Hb. rewrite get_set_ne; [now apply A5|]. rewrite lockStoreKey_app. intros E. injection E. lia.
  - intros y v. rewrite st_get_set. destruct (bcompare _ y) eqn:E; eauto. apply bcompare_eq in E as <-. intros _. now apply lockStoreKey_bytes.
Qed.

Lemma remove_lock s L R n id : StoreOk s L R n -> uint64_ok id -> StoreOk (st_delete s (lockStoreKey id)) (base.delete id L) R n.
Proof.
  intros [A1 A2 A3 A4 A5 A6] U. split; auto.
  - intros i Ui. destruct (Z.eq_dec i id) as [-> | N].
    + now rewrite get_delete_eq, lookup_delete_eq.
    + rewrite get_delete_ne, lookup_delete_ne by (try congruence; intros E; apply lockStoreKey_inj in E; congruence). auto.
  - intros y v Hy. rewrite get_delete_ne; [now apply A2|]. intros E. apply (lockStoreKey_not_ref id). now rewrite E.
  - rewrite get_delete_ne; [exact A4|]. rewrite lockStoreKey_app. discriminate.
  - intros b y Hb. rewrite get_delete_ne; [now apply A5|]. rewrite lockStoreKey_app. intros E. injection E. lia.
  - intros y v. rewrite st_get_delete. destruct (bcompare _ y); [discriminate | apply A6 | apply A6].
Qed.

Lemma store_last s L R n m : StoreOk s L R n -> StoreOk (st_set s KeyLastLockID (VId m)) L R m.
Proof.
  intros [A1 A2 A3 A4 A5 A6]. split; auto.
  - intros id U. rewrite get_set_ne; [auto|]. rewrite lockStoreKey_app. discriminate.
  - intros y v Hy. rewrite get_set_ne; [now apply A2|]. intros <-. unfold is_ref, KeyLastLockID in Hy. lia.
  - now rewrite get_set_eq.
  - intros b y Hb. rewrite get_set_ne; [now apply A5|]. unfold KeyLastLockID. intros E. injection E. lia.
  - intros y v. rewrite st_get_set. destruct (bcompare _ y) eqn:E; eauto. apply bcompare_eq in E as <-. intros _. repeat constructor; unfold byte; lia.
Qed.

Lemma setLock_ok k l k' r L R n : StoreOk (lk_store k) L R n -> uint64_ok (ID l) -> setLock l k = (Ok r, k') ->
  StoreOk (lk_store k') (<[ID l := l]> L) R n /\ same_rest k k'.
Proof. intros O U H. apply set_lk_ok in H as [-> H]. split; [now apply store_lock | exact H]. Qed.

Lemma deleteLock_ok k id k' r L R n : StoreOk (lk_store k) L R n -> uint64_ok id -> deleteLock id k = (Ok r, k') ->
  StoreOk (lk_store k') (base.delete id L) R n /\ same_rest k k'.
Proof. intros O U H. apply set_lk_ok in H as [-> H]. split; [now apply remove_lock | exact H]. Qed.

Lemma SetLastLockID_ok k m k' r L R n : StoreOk (lk_store k) L R n -> SetLastLockID m k = (Ok r, k') ->
  StoreOk (lk_store k') L R m /\ same_rest k k'.
Proof. intros O H. apply set_lk_ok in H as [-> H]. split; [now apply (store_last _ _ _ n) | exact H]. Qed.

Lemma GetLastLockID_ok k L R n : StoreOk (lk_store k) L R n -> GetLastLockID k = n.
Proof. intros O. apply (so_last _ _ _ _ O). Qed.

Lemma GetLockByID_ok k id L R n r k' : StoreOk (lk_store k) L R n -> uint64_ok id -> GetLockByID id k = (Ok r, k') ->
  L !! id = Some r /\ k' = k.
Proof.
  intros O U. unfold GetLockByID. rewrite (so_locks _ _ _ _ O id U). destruct (L !! id) as [l|]; cbn; [|discriminate].
  intros H. injection H as -> ->. auto.
Qed.

Lemma GetLockByID_some k id L R n l : StoreOk (lk_store k) L R n -> uint64_ok id -> L !! id = Some l -> GetLockByID id k = (Ok l, k).
Proof. intros O U E. unfold GetLockByID. rewrite (so_locks _ _ _ _ O id U), E. reflexivity. Qed.

(** ** References *)

(** Writes to reference keys of one lock only. *)
Definition only_refs_of (id : Z) (s s' : @St _ KL) : Prop :=
  forall y, (forall u rk, y <> ref_key u rk id) -> st_get s' y = st_get s y.

Lemma only_refs_store id s s' L R n : StoreOk s L R n -> only_refs_of id s s' ->
  (forall i, uint64_ok i -> st_get s' (lockStoreKey i) = VLock <$> (L !! i)) /\
  (match st_get s' KeyLastLockID with Some (VId i) => i | _ => 0 end) = n /\
  (forall b y, b = 15 \/ b = 16 -> st_get s' (b :: y) = None).
Proof.
  intros O H. split; [|split].
  - intros i U. rewrite H; [now apply O|]. intros u rk E. apply (lockStoreKey_not_ref i). rewrite E. apply ref_key_is_ref.
  - rewrite H; [apply O|]. intros u rk E. pose proof (ref_key_is_ref u rk id) as X. rewrite <- E in X. cbn in X. unfold KeyLastLockID in *. cbn in X. lia.
  - intros b y Hb. rewrite H; [now apply O|]. intros u rk E. pose proof (ref_key_is_ref u rk id) as X. rewrite <- E in X. cbn in X. lia.
Qed.

Lemma delete_keys_get id u (ks : list bytes) : forall s,
  let s' := fold_left (fun s rk => st_delete s (ref_key u rk id)) ks s in
  only_refs_of id s s' /\ (forall rk, In rk ks -> st_get s' (ref_key u rk id) = None) /\
  (forall y, st_get s y = None -> st_get s' y = None) /\ (forall y v, st_get s' y = Some v -> st_get s y = Some v).
Proof.
  induction ks as [|k ks IH]; intros s; cbn [fold_left].
  - split; [now intros y|]. split; [intros rk []|]. auto.
  - destruct (IH (st_delete s (ref_key u k id))) as (I1 & I2 & I3 & I4). set (s' := fold_left _ ks _) in *. split; [|split; [|split]].
    + intros y Hy. rewrite I1 by exact Hy. apply get_delete_ne. intros E. now apply (Hy u k).
    + intros rk [<- | I]; [|now apply I2]. apply I3. apply get_delete_eq.
    + intros y E. apply I3. rewrite st_get_delete. destruct (bcompare _ y); [reflexivity | exact E | exact E].
    + intros y v E. apply I4 in E. rewrite st_get_delete in E. destruct (bcompare _ y); [discriminate | exact E | exact E].
Qed.

Lemma deleteLockRefs_run u l a k : AccAddressFromBech32 (Owner l) = Ok a ->
  exists k', deleteLockRefs (unlockingPrefix u) l k = (Ok tt, k') /\ same_rest k k' /\
    lk_store k' = fold_left (fun s rk => st_delete s (ref_key u rk (ID l))) (duration_refs a l ++ time_refs a l) (lk_store k).
Proof.
  intros E. unfold deleteLockRefs. rewrite (lockRefKeys_ok l a E). unfold mbind, lift.
  generalize (duration_refs a l ++ time_refs a l) as ks. intros ks. revert k. induction ks as [|rk ks IH]; intros k; cbn [for_each fold_left].
  - exists k. repeat split.
  - unfold mbind, deleteLockRefByKey, set_lk, modify. fold (ref_key u rk (ID l)).
    destruct (IH {| lk_store := st_delete (lk_store k) (ref_key u rk (ID l)); lk_acc := lk_acc k; lk_params := lk_params k; lk_ext := lk_ext k |})
      as (k' & E' & R & Es). exists k'. split; [exact E'|]. split; [exact R | exact Es].
Qed.

(** The references of a lock go. *)
Lemma deleteLockRefs_ok k l a L R n : StoreOk (lk_store k) L R n -> uint64_ok (ID l) -> AccAddressFromBech32 (Owner l) = Ok a ->
  (forall l', R !! ID l = Some l' -> l' = l) ->
  exists k', deleteLockRefs (unlockingPrefix (IsUnlocking l)) l k = (Ok tt, k') /\ same_rest k k' /\
    StoreOk (lk_store k') L (base.delete (ID l) R) n.
Proof.
  intros O U E HR. destruct (deleteLockRefs_run (IsUnlocking l) l a k E) as (k' & Ek & Rk & Es). exists k'. split; [exact Ek|].
  split; [exact Rk|]. destruct (delete_keys_get (ID l) (IsUnlocking l) (duration_refs a l ++ time_refs a l) (lk_store k)) as (D1 & D2 & D3 & D4).
  rewrite <- Es in D1, D2, D3, D4. destruct (only_refs_store _ _ _ _ _ _ O D1) as (A1 & A4 & A5). split; auto.
  - intros y v Hy. split.
    + intros G. pose proof (D4 y v G) as G0. apply (so_refs _ _ _ _ O y v Hy) in G0 as (id & -> & (l0 & a0 & rk & El & Ea & I & Ey)).
      exists id. split; [reflexivity|]. destruct (Z.eq_dec id (ID l)) as [-> | N].
      * exfalso. pose proof (HR l0 El) as ->. assert (a0 = a) as -> by congruence. rewrite Ey in G.
        rewrite (D2 rk (refs_deleted a l rk I)) in G. discriminate.
      * exists l0, a0, rk. rewrite lookup_delete_ne by congruence. auto.
    + intros (id & -> & (l0 & a0 & rk & El & Ea & I & Ey)). apply lookup_delete_Some in El as [N El].
      rewrite D1; [apply (so_refs _ _ _ _ O y _ Hy); exists id; split; [reflexivity | exists l0, a0, rk; auto]|].
      intros u rk' E'. rewrite Ey in E'. apply ref_key_inj in E' as (_ & _ & E'); [congruence | eapply so_range; eauto | exact U].
  - intros id l0 El. apply lookup_delete_Some in El as [_ El]. eapply so_range; eauto.
  - intros y v G. eapply so_bytes; [exact O | eapply D4; exact G].
Qed.

Lemma add_keys_run u id (ks : list bytes) : forall k k', for_each ks (fun rk => addLockRefByKey (combineKeys [unlockingPrefix u; rk]) id) k = (Ok tt, k') ->
  same_rest k k' /\ only_refs_of id (lk_store k) (lk_store k') /\
  (forall rk, In rk ks -> st_get (lk_store k') (ref_key u rk id) = Some (VId id)) /\
  (forall y v, st_get (lk_store k') y = Some v -> st_get (lk_store k) y = Some v \/ (v = VId id /\ exists rk, In rk ks /\ y = ref_key u rk id)) /\
  (forall y v, st_get (lk_store k) y = Some v -> st_get (lk_store k') y = Some v).
Proof.
  induction ks as [|rk ks IH]; intros k k' H; cbn [for_each] in H.
  - apply ret_ok_inv in H as [_ <-]. repeat split; auto; try (intros rk []).
  - apply mbind_ok_inv in H as (x & k1 & E & H). unfold addLockRefByKey, mbind, get in E. fold (ref_key u rk id) in E.
    destruct (st_get (lk_store k) (ref_key u rk id)) as [v0|] eqn:G; [discriminate|]. apply set_lk_ok in E as [Es Rs].
    destruct (IH k1 k' H) as (R' & I1 & I2 & I3 & I4). rewrite Es in I1, I3, I4. split; [eapply same_rest_trans; eauto|]. split; [|split; [|split]].
    + intros y Hy. rewrite I1 by exact Hy. apply get_set_ne. intros X. now apply (Hy u rk).
    + intros rk' [<- | I]; [|now apply I2]. apply I4. apply get_set_eq.
    + intros y v Gy. destruct (I3 y v Gy) as [Gy' | (-> & rk' & I & ->)]; [|right; split; [reflexivity | exists rk'; cbn; auto]].
      rewrite st_get_set in Gy'. destruct (bcompare (ref_key u rk id) y) eqn:Eb; [|now left..].
      apply bcompare_eq in Eb as <-. injection Gy' as <-. right. split; [reflexivity | exists rk; cbn; auto].
    + intros y v Gy. apply I4. rewrite get_set_ne; [exact Gy|]. congruence.
Qed.

(** The references of a lock come. *)
Lemma addLockRefs_ok k l a r k' L R n : StoreOk (lk_store k) L R n -> uint64_ok (ID l) -> AccAddressFromBech32 (Owner l) = Ok a ->
  (IsUnlocking l = true -> uint64_ok (EndTime l)) -> R !! ID l = None -> addLockRefs l k = (Ok r, k') ->
  StoreOk (lk_store k') L (<[ID l := l]> R) n /\ same_rest k k'.
Proof.
  intros O U E Ht N H. unfold addLockRefs in H. apply mbind_ok_inv in H as (ks & k1 & Ek & H). apply lift_ok_inv in Ek as [Ek <-].
  assert (ks = refs a l) as ->.
  { unfold refs. destruct (IsUnlocking l); [rewrite (lockRefKeys_ok l a E) in Ek | rewrite (durationLockRefKeys_ok l a E) in Ek];
      now apply Ok_inj in Ek. }
  destruct r. destruct (add_keys_run _ _ _ _ _ H) as (Rs & I1 & I2 & I3 & I4). split; [|exact Rs].
  destruct (only_refs_store _ _ _ _ _ _ O I1) as (A1 & A4 & A5). split; auto.
  - intros y v Hy. split.
    + intros G. destruct (I3 y v G) as [G0 | (-> & rk & I & ->)].
      * apply (so_refs _ _ _ _ O y v Hy) in G0 as (id & -> & (l0 & a0 & rk & El & Ea & I & Ey)). exists id. split; [reflexivity|].
        exists l0, a0, rk. rewrite lookup_insert_ne by congruence. auto.
      * exists (ID l). split; [reflexivity|]. exists l, a, rk. rewrite lookup_insert_eq. auto.
    + intros (id & -> & (l0 & a0 & rk & El & Ea & I & Ey)). apply lookup_insert_Some in El as [[<- <-] | [Ni El]].
      * rewrite Ey. apply I2. congruence.
      * apply I4. apply (so_refs _ _ _ _ O y _ Hy). exists id. split; [reflexivity|]. exists l0, a0, rk. auto.
  - intros id l0 El. apply lookup_insert_Some in El as [[<- _] | [_ El]]; [exact U | eapply so_range; eauto].
  - intros y v G. destruct (I3 y v G) as [G0 | (_ & rk & I & ->)]; [eapply so_bytes; eauto|].
    apply ref_key_bytes; [exact U|]. eapply refs_bytes; [eapply Bech32_bytes; exact E | exact Ht | exact I].
Qed.

(** A change that keeps what a lock is referred by. *)
Lemma refs_unchanged s L R n id l l' : StoreOk s L R n -> R !! id = Some l -> Owner l' = Owner l -> IsUnlocking l' = IsUnlocking l ->
  (forall a, refs a l' = refs a l) -> StoreOk s L (<[id := l']> R) n.
Proof.
  intros [A1 A2 A3 A4 A5 A6] El Eo Eu Er. split; auto.
  - intros y v Hy. rewrite (A2 y v Hy). split; intros (i & -> & (l0 & a0 & rk & E0 & Ea & I & Ey)); exists i; (split; [reflexivity|]);
      destruct (Z.eq_dec i id) as [-> | N].
    + exists l', a0, rk. rewrite lookup_insert_eq. assert (l0 = l) as -> by congruence. rewrite Eo, Er, Eu. auto.
    + exists l0, a0, rk. rewrite lookup_insert_ne by congruence. auto.
    + rewrite lookup_insert_eq in E0. injection E0 as <-. exists l, a0, rk. rewrite Eo in Ea. rewrite Er in I. rewrite Eu in Ey. auto.
    + rewrite lookup_insert_ne in E0 by congruence. exists l0, a0, rk. auto.
  - intros i l0 E0. apply lookup_insert_Some in E0 as [[<- _] | [_ E0]]; eauto.
Qed.

(** No synthetic locks. *)
Lemma no_synthetics k L R n id : StoreOk (lk_store k) L R n -> uint64_ok id -> syntheticsOf id k = [].
Proof.
  intros O U. unfold syntheticsOf, iterator. destruct (st_iter _ _ _) as [|[y v] r] eqn:I; [reflexivity|]. exfalso.
  assert (J : In (y, v) (st_iter (lk_store k) (Some (combineKeys [KeyPrefixSyntheticLockup; Uint64ToBigEndian id]))
    (PrefixEndBytes (combineKeys [KeyPrefixSyntheticLockup; Uint64ToBigEndian id])))) by (rewrite I; now left).
  apply st_iter_in in J as [G J]. apply PrefixEndBytes_range in J; [|apply combine_bytes | eapply so_bytes; eauto].
  - destruct J as (z & ->). unfold combineKeys, KeyPrefixSyntheticLockup in G. cbn [app] in G. rewrite (so_nosynth _ _ _ _ O) in G by auto.
    discriminate.
  - constructor; [repeat constructor; unfold byte; lia|]. constructor; [now apply Uint64ToBigEndian_bytes | constructor].
Qed.

Lemma no_synthetic_found k L R n id : StoreOk (lk_store k) L R n -> uint64_ok id ->
  GetSyntheticLockupByUnderlyingLockId id k = (Ok (no_synthetic, false), k) /\ HasAnySyntheticLockups id k = false.
Proof.
  intros O U. unfold GetSyntheticLockupByUnderlyingLockId, HasAnySyntheticLockups. rewrite (no_synthetics k L R n id O U). split; reflexivity.
Qed.

End LockupStore.
