(* ===== verification/LockupAcc.v ===== *)
(** * The accumulation stores of [x/lockup]

    [TreeHas a d W]: the accumulation store of the denomination [d] holds
    amounts by duration whose sum over any set [f] of keys is [W f].  The trees
    of all denominations live in one store, told apart by prefixes that end
    with a slash; [apart] says when one tree does not see the nodes of another
    (denominations may contain slashes themselves). *)

From Stdlib Require Import ZArith Lia List Bool String Sorted.
From S2P Require Import Prelude GoBig SdkMath Store SumTree SumTreeSet GoState PrefixStore SdkCoins Lockup.
From S2P Require Import LockupStore.
Import ListNotations.

(** Distinct integers of a range. *)
Lemma nodup_range (l : list Z) lo hi : NoDup l -> Forall (fun z => lo <= z < hi) l -> lo <= hi -> Z.of_nat (List.length l) <= hi - lo.
Proof.
  intros N F L. assert (I : incl l (map (fun i => lo + Z.of_nat i) (seq 0 (Z.to_nat (hi - lo))))).
  { intros z Iz. rewrite Forall_forall in F. specialize (F z Iz). apply in_map_iff. exists (Z.to_nat (z - lo)). split; [lia|].
    apply in_seq. lia. }
  apply NoDup_incl_length in I; [|exact N]. rewrite length_map, length_seq in I. lia.
Qed.

(** Trees that agree on their nodes. *)
Lemma tree_transfer (K1 K2 : KVStore (list Child)) (s1 : @St _ K1) (s2 : @St _ K2) n D :
  (forall r, @st_get _ K2 s2 (nodeKeyPrefix ++ r) = @st_get _ K1 s1 (nodeKeyPrefix ++ r)) ->
  (forall k v, @st_get _ K2 s2 k = Some v -> Forall byte k) -> @tree K1 s1 n D -> @tree K2 s2 n D.
Proof.
  intros E HB [Kd TL TT Sd H HD].
  assert (En : forall l k, @st_get _ K2 s2 (nodeKey l k) = @st_get _ K1 s1 (nodeKey l k)) by (intros; apply E).
  split; auto.
  - split; [exact HB|]. intros r v G. rewrite E in G. exact (proj2 Kd r v G).
  - destruct TL as [S1 A]. split; [exact S1|]. intros k cs. rewrite En. apply A.
  - clear TL H HD. revert TT Sd. generalize (Datatypes.S n) 1 D. clear n D. intros n. induction n as [|n IH]; intros lv D TT Sd.
    + destruct TT as [T1 T2]. split; [exact T1|]. intros l k B. rewrite En. auto.
    + destruct TT as (L & ED & (SL & A) & BK & OC & T). exists L. split; [exact ED|].
      split; [split; [exact SL | intros k cs; rewrite En; apply A]|]. split; [exact BK|]. split; [exact OC|].
      apply IH; [exact T | now apply entries_sorted].
Qed.

Section LockupAcc.
Context {S : SdkMath} {SS : SdkMathSpec S} {B : BigEndian} {BS : BigEndianSpec B} {T : SdkText} {C : CoinsOps}
  {P : PrefixEnd} {PS : PrefixEndSpec P} {LK : LockupKeepers} {KL : KVStore Stored}
  {KA : KVStore (list Child)} {KAS : KVStoreSpec KA}.

Definition apart (d1 d2 : string) : Prop := forall r1 r2,
  accumulationStorePrefix d1 ++ nodeKeyPrefix ++ r1 <> accumulationStorePrefix d2 ++ nodeKeyPrefix ++ r2.

Definition all_bytes (a : @St _ KA) : Prop := forall k v, st_get a k = Some v -> Forall byte k.

Definition duration_ok (d : Z) : Prop := 0 <= d < 2 ^ 63.
Definition duration_keys (D : list Child) : Prop :=
  forall k, In k (indices D) -> k = [] \/ exists d, duration_ok d /\ k = accumulationKey d.

Definition TreeHas (a : @St _ KA) (d : string) (W : (bytes -> bool) -> Z) : Prop :=
  (@vacant (accumulationStore d) a /\ forall f, W f = 0) \/
  exists n D, @tree (accumulationStore d) a n D /\ duration_keys D /\ forall f, wsum f D = W f.

(** Only nodes of one tree are written. *)
Definition in_tree (d : string) (a a' : @St _ KA) : Prop :=
  forall y, (forall r, y <> accumulationStorePrefix d ++ nodeKeyPrefix ++ r) -> st_get a' y = st_get a y.

Lemma prefix_bytes d : Forall byte (accumulationStorePrefix d).
Proof. apply string_bytes_byte. Qed.

Lemma writes_in_tree d (a a' : @St _ KA) : @writes (accumulationStore d) a a' -> in_tree d a a' /\ (all_bytes a -> all_bytes a').
Proof.
  induction 1 as [|a1 l k cs W [I1 I2] LO HB]; [split; [now intros y | auto]|]. split.
  - intros y N. cbn [st_set accumulationStore prefix_kv]. rewrite get_set_ne; [now apply I1|].
    intros E. apply (N (put_uint16 l ++ k)). rewrite <- E. unfold nodeKey. reflexivity.
  - intros A y v. cbn [st_set accumulationStore prefix_kv]. rewrite st_get_set. destruct (bcompare _ y) eqn:E; [|apply (I2 A) | apply (I2 A)].
    intros _. apply bcompare_eq in E as <-. apply Forall_app. split; [apply prefix_bytes | now apply nodeKey_byte].
Qed.

Lemma in_tree_trans d a a1 a2 : in_tree d a a1 -> in_tree d a1 a2 -> in_tree d a a2.
Proof. intros H1 H2 y N. rewrite H2, H1 by exact N. reflexivity. Qed.

(** Another tree is not affected. *)
Lemma TreeHas_frame a a' d e W : apart d e -> in_tree e a a' -> all_bytes a' -> TreeHas a d W -> TreeHas a' d W.
Proof.
  intros A I HB H.
  assert (E : forall r, @st_get _ (accumulationStore d) a' (nodeKeyPrefix ++ r) = @st_get _ (accumulationStore d) a (nodeKeyPrefix ++ r)).
  { intros r. cbn [st_get accumulationStore prefix_kv]. apply I. intros r'. apply A. }
  assert (HB' : forall k v, @st_get _ (accumulationStore d) a' k = Some v -> Forall byte k).
  { intros k v G. cbn [st_get accumulationStore prefix_kv] in G. apply HB in G. apply Forall_app in G. apply G. }
  destruct H as [((Kd & V) & Z) | (n & D & TD & KD & W')].
  - left. split; [|exact Z]. split; [split; [exact HB'|] | intros l k LO; unfold nodeKey; rewrite E; now apply V].
    intros r v G. rewrite E in G. exact (proj2 Kd r v G).
  - right. exists n, D. split; [|auto]. now apply (tree_transfer (accumulationStore d) (accumulationStore d) a).
Qed.

Lemma key_not_nil d : duration_ok d -> accumulationKey d <> [].
Proof.
  intros H E. apply (f_equal (@List.length Z)) in E. unfold accumulationKey in E. rewrite Uint64ToBigEndian_length in E by apply uint64_in_range.
  discriminate.
Qed.

Lemma accumulationKey_bytes d : Forall byte (accumulationKey d).
Proof. apply Uint64ToBigEndian_bytes, uint64_in_range. Qed.

Lemma sorted_nodup D : StronglySorted ilt D -> NoDup (indices D).
Proof.
  unfold indices. induction 1 as [|d D Sd IH F]; cbn [map]; constructor; [|exact IH]. intros I. apply in_map_iff in I as (e & E & I).
  rewrite Forall_forall in F. specialize (F e I). unfold ilt in F. rewrite E in F. exact (blt_irrefl _ F).
Qed.

(** Durations bound the number of leaves and with it the height. *)
Lemma duration_tree_small a n D d : @tree (accumulationStore d) a n D -> duration_keys D -> (n < 66)%nat.
Proof.
  intros TD KD. apply (small_height (K := accumulationStore d) a n D 66 TD). change (Z.of_nat 66) with 66.
  set (f := fun k : bytes => match k with [] => -1 | _ => be_value 0 k end).
  assert (V : forall x, duration_ok x -> f (accumulationKey x) = x).
  { intros x Hx. unfold f. pose proof (key_not_nil x Hx) as N. destruct (accumulationKey x) eqn:E; [contradiction|]. rewrite <- E.
    unfold accumulationKey, uint64. unfold duration_ok in Hx. rewrite Z.mod_small by lia. apply Uint64ToBigEndian_value. lia. }
  assert (ND : NoDup (map f (indices D))).
  { pose proof (sorted_nodup D (tree_sorted _ _ _ TD)) as N. revert KD N. unfold duration_keys. generalize (indices D) as l. intros l KD N.
    induction N as [|k l Nk N IH]; cbn [map]; constructor; [|apply IH; intros; apply KD; now right].
    intros I. apply in_map_iff in I as (k' & E & I). apply Nk. replace k with k'; [exact I|].
    destruct (KD k (or_introl eq_refl)) as [-> | (x & Hx & ->)], (KD k' (or_intror I)) as [-> | (x' & Hx' & ->)];
      rewrite ?V in E by assumption; cbn in E; unfold duration_ok in *; try lia; congruence. }
  assert (F : Forall (fun z => -1 <= z < 2 ^ 63) (map f (indices D))).
  { apply Forall_forall. intros z I. apply in_map_iff in I as (k & <- & I). destruct (KD k I) as [-> | (x & Hx & ->)];
      [cbn; lia | rewrite V by exact Hx; unfold duration_ok in Hx; lia]. }
  pose proof (nodup_range _ _ _ ND F ltac:(lia)) as L. unfold indices in L. rewrite !length_map in L. lia.
Qed.

Lemma open_tree a d W : TreeHas a d W -> exists a0, @NewTree S (accumulationStore d) P 10 tree_fuel a = Ok a0 /\
  @writes (accumulationStore d) a a0 /\
  exists n D, @tree (accumulationStore d) a0 n D /\ duration_keys D /\ forall f, wsum f D = W f.
Proof.
  intros [(V & Z) | (n & D & TD & KD & E)].
  - destruct (new_tree_vacant (K := accumulationStore d) 10 tree_fuel a V ltac:(unfold tree_fuel; lia)) as (a0 & E0 & T0 & W0).
    exists a0. split; [exact E0|]. split; [exact W0|]. exists 0%nat, [ {| Index := []; Accumulation := 0 |} ]. split; [exact T0|].
    split; [intros k [<- | []]; now left|]. intros f. rewrite Z. unfold wsum. cbn. now destruct (f []).
  - exists a. split; [apply (new_tree_tree (K := accumulationStore d) 10 tree_fuel a n D TD)|]. split; [constructor|]. eauto.
Qed.

Definition grow (W : (bytes -> bool) -> Z) (d amt : Z) : (bytes -> bool) -> Z :=
  fun f => W f + (if f (accumulationKey d) then amt else 0).

(** What an operation on one tree leaves alone. *)
Definition only_tree (d : string) (k k' : @Keeper LK KL KA) : Prop :=
  lk_store k' = lk_store k /\ lk_params k' = lk_params k /\ lk_ext k' = lk_ext k /\
  in_tree d (lk_acc k) (lk_acc k') /\ (all_bytes (lk_acc k) -> all_bytes (lk_acc k')).

Lemma on_tree_ok {A} d (f : @St _ (accumulationStore d) -> Res (A * @St _ (accumulationStore d))) (k : @Keeper LK KL KA) r k' a0 :
  @NewTree S (accumulationStore d) P 10 tree_fuel (lk_acc k) = Ok a0 -> on_tree (KA := KA) d f k = (Ok r, k') ->
  exists a', f a0 = Ok (r, a') /\ k' = set_acc (KA := KA) a' k.
Proof.
  intros E H. unfold on_tree in H. rewrite E in H. cbn [bind] in H. destruct (f a0) as [[x a']|e|m]; try discriminate H.
  injection H as -> <-. eauto.
Qed.

Definition total_of (W : (bytes -> bool) -> Z) : Z := W (fun _ => true).

(** Sums that stay far from the limit of an amount. *)
Lemma abs_total D : Forall (fun d => 0 <= Accumulation d) D -> abs_sum D = wsum (fun _ => true) D.
Proof. induction 1 as [|d D Hd F IH]; [reflexivity|]. rewrite wsum_cons, <- IH. unfold abs_sum, zsum. cbn [map fold_right]. lia. Qed.

Definition nonneg_sums (W : (bytes -> bool) -> Z) : Prop := forall f, 0 <= W f.

Lemma nonneg_leaves D W : StronglySorted ilt D -> (forall f, wsum f D = W f) -> nonneg_sums W -> Forall (fun d => 0 <= Accumulation d) D.
Proof.
  intros Sd E N. apply Forall_forall. intros d I. specialize (N (fun k' => match bcompare k' (Index d) with Eq => true | _ => false end)).
  rewrite <- E, wsum_key in N by exact Sd. unfold leaf_value in N. now rewrite (value_in D d Sd I) in N.
Qed.

Lemma acc_Increase_ok d dur amt (k : @Keeper LK KL KA) W : TreeHas (lk_acc k) d W -> duration_ok dur ->
  (forall r k', acc_Increase d (accumulationKey dur) amt k = (Ok r, k') -> only_tree d k k' /\ TreeHas (lk_acc k') d (grow W dur amt)) /\
  (nonneg_sums W -> total_of W < 2 ^ 240 -> Z.abs amt < 2 ^ 240 -> exists k', acc_Increase d (accumulationKey dur) amt k = (Ok tt, k')).
Proof.
  intros H Hd. destruct (open_tree _ _ _ H) as (a0 & E0 & W0 & n & D & TD & KD & ED).
  pose proof (duration_tree_small a0 n D d TD KD) as Hn.
  destruct (increase_tree (K := accumulationStore d) 10 ltac:(lia) tree_fuel a0 n D (Some (accumulationKey dur)) amt TD
    (accumulationKey_bytes dur) ltac:(lia) ltac:(unfold tree_fuel; lia)) as [R1 R2]. cbn [content] in R1, R2.
  fold (bump D (accumulationKey dur) amt) in R1. pose proof (tree_sorted _ _ _ TD) as Sd. split.
  - intros r k' E. unfold acc_Increase in E. destruct (on_tree_ok d _ k r k' a0 E0 E) as (a' & E1 & ->).
    apply bind_ok_inv in E1 as (a1 & E1 & E2). apply Ok_inj in E2. injection E2 as _ <-. destruct (R1 a1 E1) as ((n' & _ & T') & W1).
    assert (Wr : @writes (accumulationStore d) (lk_acc k) a1) by exact (writes_trans _ _ _ W0 W1).
    destruct (writes_in_tree d _ _ Wr) as [I1 I2]. split; [repeat split; assumption|]. right. exists n', (bump D (accumulationKey dur) amt).
    split; [exact T'|]. split.
    + intros x I. unfold bump in I. apply put_indices in I as [-> | I]; [right; exists dur; auto | now apply KD].
    + intros f. rewrite wsum_bump by exact Sd. unfold grow. now rewrite ED.
  - intros N Bt Ba. destruct R2 as (a1 & E1).
    + pose proof (nonneg_leaves D W Sd ED N) as Nl. unfold budget. cbn [Accumulation].
      pose proof (leaf_abs D (accumulationKey dur)) as Lb. rewrite (abs_total D Nl), ED in *. fold (total_of W) in *.
      assert (0 <= total_of W) by apply N. assert (0 <= Z.of_nat n < 66) by lia.
      assert ((Z.of_nat n + 4) * (Z.of_nat n + 4) <= 70 * 70) by (apply Z.mul_le_mono_nonneg; lia).
      assert ((Z.of_nat n + 4) * (Z.of_nat n + 4) * total_of W <= 70 * 70 * total_of W) by (apply Z.mul_le_mono_nonneg_r; lia).
      assert ((Z.of_nat n + 4) * Z.abs (leaf_value D (accumulationKey dur) + amt) <= 70 * (total_of W + Z.abs amt)) by (apply Z.mul_le_mono_nonneg; lia).
      lia.
    + exists (set_acc (KA := KA) a1 k). unfold acc_Increase, on_tree. rewrite E0. cbn [bind]. now rewrite E1.
Qed.

Lemma acc_Decrease_is d key amt (k : @Keeper LK KL KA) : acc_Decrease d key amt k = acc_Increase d key (- amt) k.
Proof. reflexivity. Qed.

(** The query over a range of durations. *)
Lemma acc_SubsetFrom_ok d dur (k : @Keeper LK KL KA) W : TreeHas (lk_acc k) d W -> duration_ok dur -> nonneg_sums W -> total_of W < 2 ^ 240 ->
  exists k', acc_SubsetFrom d (accumulationKey dur) k = (Ok (W (fun key => bleb (accumulationKey dur) key)), k') /\
    only_tree d k k' /\ TreeHas (lk_acc k') d W.
Proof.
  intros H Hd N Bt. destruct (open_tree _ _ _ H) as (a0 & E0 & W0 & n & D & TD & KD & ED).
  pose proof (duration_tree_small a0 n D d TD KD) as Hn. pose proof (tree_sorted _ _ _ TD) as Sd.
  pose proof (nonneg_leaves D W Sd ED N) as Nl.
  assert (At : acc_sum D < 2 ^ 255) by (rewrite <- wsum_all, ED; fold (total_of W); lia).
  pose proof (tree_is_ok (K := accumulationStore d) a0 n D TD ltac:(lia) Nl At) as OK.
  exists (set_acc (KA := KA) a0 k). split; [|split].
  - unfold acc_SubsetFrom, on_tree. rewrite E0. cbn [bind]. unfold SubsetAccumulation. rewrite (SplitAcc_holds a0 _ _ OK). cbn [content bind].
    set (key := accumulationKey dur). pose proof (sum_at_bound Eq key _ (proj1 (proj2 OK))). pose proof (sum_at_bound Gt key _ (proj1 (proj2 OK))).
    pose proof (sum_at_bound Lt key _ (proj1 (proj2 OK))). pose proof (sum_at_total key (leaves_of D)). pose proof (proj2 (proj2 OK)).
    rewrite int_Add_total by lia. cbn [bind]. now rewrite wsum_from, ED.
  - destruct (writes_in_tree d _ _ W0). repeat split; assumption.
  - right. exists n, D. auto.
Qed.

End LockupAcc.
