(* ===== verification/LockupBooks.v ===== *)
(** * The books of [x/lockup]

    [Books k L n]: the state of the module represents the map [L] of locks.
    The store holds these locks and exactly their references; for every
    denomination the accumulation store holds the locked amounts by duration;
    the account of the module holds what is locked.  Inside an operation the
    references may be those of another map ([Ledger k L R n]). *)

From stdpp Require Import base gmap.
From Stdlib Require Import ZArith Lia List Bool String Sorted.
From S2P Require Import Prelude GoBig SdkMath Store SumTree SumTreeSet MapSum GoState PrefixStore SdkCoins Lockup.
From S2P Require Import LockupStore LockupAcc.
Import ListNotations.
Open Scope Z_scope.

(** What can be observed of the bank, and the accounts it pays nothing to. *)
Class LockupView (LK : LockupKeepers) : Type := {
  balance : Ext -> AccAddress -> string -> Z;
  blocked : AccAddress -> bool
}.

Section Laws.
Context {C : CoinsOps} {LK : LockupKeepers} {V : LockupView LK}.

Definition lockup_addr : AccAddress := GetModuleAddress ModuleName.

(** A hook has no error result and does not touch the account of the module. *)
Definition hook_ok (f : M Ext unit) : Prop := forall e r e', f e = (r, e') ->
  (forall m, r <> Err m) /\ forall d, balance e' lockup_addr d = balance e lockup_addr d.

Record hooks_ok (h : LockupHooks Ext) : Prop := {
  ho_add a id cs : hook_ok (AfterAddTokensToLock h a id cs);
  ho_locked a id cs d t : hook_ok (OnTokenLocked h a id cs d t);
  ho_start a id cs d t : hook_ok (OnStartUnlock h a id cs d t);
  ho_extend id d d' : hook_ok (OnLockupExtend h id d d');
  (** Nothing happens to balances when a lock is paid out. *)
  ho_unlocked a id cs d t e : exists e', OnTokenUnlocked h a id cs d t e = (Ok tt, e') /\ forall b x, balance e' b x = balance e b x
}.

(** The documented behaviour of the bank. *)
Class LockupKeepersSpec : Prop := {
  balances_listed a e : coins_ok (GetAllBalances a e) /\ forall d, amount_of (GetAllBalances a e) d = balance e a d;
  send_out m a cs e e' : SendCoinsFromModuleToAccount m a cs e = (Ok tt, e') ->
    forall b d, balance e' b d = balance e b d + (at_addr a b - at_addr (GetModuleAddress m) b) * amount_of cs d;
  send_in a m cs e e' : SendCoinsFromAccountToModule a m cs e = (Ok tt, e') ->
    forall b d, balance e' b d = balance e b d + (at_addr (GetModuleAddress m) b - at_addr a b) * amount_of cs d;
  burn m cs e e' : BurnCoins m cs e = (Ok tt, e') ->
    forall b d, balance e' b d = balance e b d - at_addr (GetModuleAddress m) b * amount_of cs d;
  send_out_total m a cs e : coins_ok cs -> (forall d, amount_of cs d <= balance e (GetModuleAddress m) d) -> blocked a = false ->
    exists e', SendCoinsFromModuleToAccount m a cs e = (Ok tt, e');
  burn_total cs e : coins_ok cs -> (forall d, amount_of cs d <= balance e lockup_addr d) -> exists e', BurnCoins ModuleName cs e = (Ok tt, e');
  hooks_lawful h : lockup_hooks = Some h -> hooks_ok h;
  hooks_set : exists h, lockup_hooks = Some h
}.

End Laws.
Arguments LockupKeepersSpec {C} LK {V}.

(** The denominations that get locked and the accounts that lock them.  No
    denomination extends another by a suffix that makes their accumulation
    stores overlap, no address is a prefix of another, and the accounts are not
    those of modules, which the bank does not pay. *)
Class LockupDomain {C : CoinsOps} {LK : LockupKeepers} {V : LockupView LK} : Type := {
  native : string -> Prop;
  account : AccAddress -> Prop;
  force_allowed : list string;    (** [Params.ForceUnlockAllowedAddresses] *)
  tracked (d : string) : Prop := native d \/ d = ""%string;
  native_apart d e : tracked d -> tracked e -> d <> e -> apart d e;
  native_nonempty : ~ native ""%string;
  native_valid d : native d -> ValidateDenom d = true;
  account_free a b x y : account a -> account b -> a ++ x = b ++ y -> a = b;
  account_other a : account a -> a <> lockup_addr;
  account_open a : account a -> blocked a = false
}.

Create HintDb lockup.
#[export] Hint Extern 1 (ValidateDenom _ = true) => apply native_valid : lockup.
#[export] Hint Extern 1 (_ <> lockup_addr) => apply account_other : lockup.

Section Books.
Context {S : SdkMath} {SS : SdkMathSpec S} {B : BigEndian} {BS : BigEndianSpec B} {T : SdkText} {TS : SdkTextSpec T}
  {C : CoinsOps} {CS : CoinsSpec C} {P : PrefixEnd} {PS : PrefixEndSpec P} {LK : LockupKeepers} {V : LockupView LK} {LKS : LockupKeepersSpec LK}
  {KL : KVStore Stored} {KLS : KVStoreSpec KL} {KA : KVStore (list Child)} {KAS : KVStoreSpec KA} {LD : LockupDomain}.

Record lock_ok (l : PeriodLock) : Prop := {
  lo_coin : exists c, Coins l = [c] /\ 0 < Amount c /\ native (Denom c);
  lo_duration : 0 < Duration l < 2 ^ 63;
  lo_owner : exists a, AccAddressFromBech32 (Owner l) = Ok a /\ Owner l = AccString a /\ account a;
  lo_end : EndTime l = zero_time \/ uint64_ok (EndTime l)
}.

(** The amount of a denomination locked for the durations in a set of keys. *)
Definition locked (L : lockmap) (d : string) (f : bytes -> bool) : Z :=
  msum (fun l => if f (accumulationKey (Duration l)) then amount_of (Coins l) d else 0) L.

Definition locks_ok (L : lockmap) (n : Z) : Prop := forall id l, L !! id = Some l -> ID l = id /\ 1 <= id <= n /\ lock_ok l.

Definition AccOk (a : @St _ KA) (W : string -> (bytes -> bool) -> Z) : Prop :=
  all_bytes a /\ (forall d, native d -> TreeHas a d (W d)) /\ exists W0, TreeHas a "" W0.

Record Ledger (k : @Keeper LK KL KA) (L R : lockmap) (n : Z) : Prop := {
  bk_store : StoreOk (lk_store k) L R n;
  bk_locks : locks_ok L n;
  bk_last : 0 <= n < 2 ^ 64;
  bk_acc : AccOk (lk_acc k) (locked L);
  bk_balance : forall d, balance (lk_ext k) lockup_addr d = msum (fun l => amount_of (Coins l) d) L;
  bk_params : lk_params k = force_allowed
}.
Definition Books (k : @Keeper LK KL KA) (L : lockmap) (n : Z) : Prop := Ledger k L L n.

(** ** Steps outside the store *)

Lemma TreeHas_ext a d W W' : (forall f, W f = W' f) -> TreeHas a d W -> TreeHas a d W'.
Proof.
  intros E [(Va & Z) | (n & D & TD & KD & EW)]; [left | right].
  - split; [exact Va|]. intros f. now rewrite <- E.
  - exists n, D. split; [exact TD|]. split; [exact KD|]. intros f. now rewrite <- E.
Qed.

Definition add_at (W : string -> (bytes -> bool) -> Z) (d : string) (dur amt : Z) : string -> (bytes -> bool) -> Z :=
  fun e f => W e f + (if String.eqb d e then (if f (accumulationKey dur) then amt else 0) else 0).

Lemma AccOk_ext a W W' : (forall d f, native d -> W d f = W' d f) -> AccOk a W -> AccOk a W'.
Proof. intros E (HB & HT & HJ). split; [exact HB|]. split; [|exact HJ]. intros d N. apply (TreeHas_ext a d (W d)); auto. Qed.

(** Only the accumulation stores change. *)
Definition only_acc (k k' : @Keeper LK KL KA) : Prop := lk_store k' = lk_store k /\ lk_params k' = lk_params k /\ lk_ext k' = lk_ext k.

Lemma increase_ok d dur amt (k k' : @Keeper LK KL KA) r W : AccOk (lk_acc k) W -> native d -> duration_ok dur ->
  acc_Increase d (accumulationKey dur) amt k = (Ok r, k') -> AccOk (lk_acc k') (add_at W d dur amt) /\ only_acc k k'.
Proof.
  intros (HB & HT & W0 & HJ) N Hd E. destruct (acc_Increase_ok d dur amt k (W d) (HT d N) Hd) as [R _].
  destruct (R r k' E) as ((E1 & E2 & E3 & I1 & I2) & H'). split; [|repeat split; auto]. split; [auto|]. split.
  - intros e Ne. unfold add_at. destruct (String.eqb_spec d e) as [<- | Nd]; [exact H'|].
    apply (TreeHas_ext _ e (W e)); [intros f; lia|]. apply (TreeHas_frame (lk_acc k) _ e d); auto. apply native_apart; [now left | now left | congruence].
  - exists W0. apply (TreeHas_frame (lk_acc k) _ ""%string d); auto. apply native_apart; [now right | now left|]. intros E'. apply native_nonempty. now rewrite E'.
Qed.

Lemma increase_junk dur amt (k k' : @Keeper LK KL KA) r W : AccOk (lk_acc k) W -> duration_ok dur ->
  acc_Increase "" (accumulationKey dur) amt k = (Ok r, k') -> AccOk (lk_acc k') W /\ only_acc k k'.
Proof.
  intros (HB & HT & W0 & HJ) Hd E. destruct (acc_Increase_ok "" dur amt k W0 HJ Hd) as [R _].
  destruct (R r k' E) as ((E1 & E2 & E3 & I1 & I2) & H'). split; [|repeat split; auto]. split; [auto|]. split; [|eauto].
  intros e Ne. apply (TreeHas_frame (lk_acc k) _ e ""%string); auto. apply native_apart; [now left | now right|]. intros ->. now apply native_nonempty. 
Qed.

Definition same_stores (k k' : @Keeper LK KL KA) : Prop := lk_store k' = lk_store k /\ lk_acc k' = lk_acc k /\ lk_params k' = lk_params k.

Lemma on_ext_ok {A} (c : M Ext A) (k k' : @Keeper LK KL KA) r : on_ext c k = (Ok r, k') -> c (lk_ext k) = (Ok r, lk_ext k') /\ same_stores k k'.
Proof.
  unfold on_ext, zoom. destruct (c (lk_ext k)) as [r0 e] eqn:E. intros H. apply pair_ok_inv in H as [-> <-]. repeat split.
Qed.

Lemma hook_step (f : M Ext unit) (k k' : @Keeper LK KL KA) r : hook_ok f -> on_ext f k = (Ok r, k') ->
  same_stores k k' /\ forall d, balance (lk_ext k') lockup_addr d = balance (lk_ext k) lockup_addr d.
Proof. intros H E. apply on_ext_ok in E as [E R]. split; [exact R|]. apply (H _ _ _ E). Qed.

Lemma call_hook_step (f : LockupHooks Ext -> M Ext unit) (k k' : @Keeper LK KL KA) r : (forall h, lockup_hooks = Some h -> hook_ok (f h)) ->
  call_hook f k = (Ok r, k') -> same_stores k k' /\ forall d, balance (lk_ext k') lockup_addr d = balance (lk_ext k) lockup_addr d.
Proof. unfold call_hook. destruct lockup_hooks as [h|]; [|discriminate]. intros H E. eapply hook_step; eauto. Qed.

Lemma at_same a : at_addr a a = 1.
Proof. unfold at_addr. now rewrite decide_True. Qed.
Lemma at_other a b : a <> b -> at_addr a b = 0.
Proof. intros N. unfold at_addr. now rewrite decide_False. Qed.

(** ** Sums of maps *)

Lemma locked_insert L id l d f : L !! id = None ->
  locked (<[id := l]> L) d f = locked L d f + (if f (accumulationKey (Duration l)) then amount_of (Coins l) d else 0).
Proof. intros N. unfold locked. rewrite msum_insert by exact N. lia. Qed.

Lemma locked_update L id l l' d f : L !! id = Some l ->
  locked (<[id := l']> L) d f = locked L d f - (if f (accumulationKey (Duration l)) then amount_of (Coins l) d else 0)
    + (if f (accumulationKey (Duration l')) then amount_of (Coins l') d else 0).
Proof. intros E. unfold locked. now rewrite (msum_update _ L id l l' E). Qed.

Lemma locked_delete L id l d f : L !! id = Some l ->
  locked (base.delete id L) d f = locked L d f - (if f (accumulationKey (Duration l)) then amount_of (Coins l) d else 0).
Proof. intros E. unfold locked. now rewrite (msum_delete _ L id l E). Qed.

Lemma fresh_lock_id L n id : locks_ok L n -> n < id -> L !! id = None.
Proof. intros H Hn. destruct (L !! id) as [l|] eqn:E; [|reflexivity]. destruct (H id l E) as (_ & R & _). lia. Qed.

Lemma locks_ok_insert L n n' id l : locks_ok L n -> n <= n' -> ID l = id -> 1 <= id <= n' -> lock_ok l -> locks_ok (<[id := l]> L) n'.
Proof.
  intros H Hn E R O i l0 E0. apply lookup_insert_Some in E0 as [[<- <-] | [_ E0]]; [auto|]. destruct (H i l0 E0) as (? & ? & ?).
  split; [auto | split; [lia | auto]].
Qed.

Lemma locks_ok_delete L n id : locks_ok L n -> locks_ok (base.delete id L) n.
Proof. intros H i l E. apply lookup_delete_Some in E as [_ E]. exact (H i l E). Qed.

Lemma ids_range k L R n id l : Ledger k L R n -> L !! id = Some l -> uint64_ok id.
Proof.
  intros Bk E. destruct (bk_locks _ _ _ _ Bk id l E) as (_ & Rg & _). pose proof (bk_last _ _ _ _ Bk). unfold uint64_ok. lia.
Qed.

End Books.
