(* ===== verification/LockupOps.v ===== *)
(** * The operations of [x/lockup] on the books

    Each operation of the keeper that succeeds takes a state that represents a
    map of locks to a state that represents the map its contract asks for. *)

From stdpp Require Import base gmap.
From Stdlib Require Import ZArith Lia List Bool String Sorted.
From S2P Require Import Prelude GoBig SdkMath Store SumTree SumTreeSet MapSum GoState PrefixStore SdkCoins Lockup.
From S2P Require Import LockupStore LockupAcc LockupBooks.
Import ListNotations.
Open Scope Z_scope.

Lemma for_each_single {S A} (x : A) (f : A -> M S unit) s r s' : for_each [x] f s = (Ok r, s') -> f x s = (Ok tt, s').
Proof.
  cbn [for_each]. intros H. apply mbind_ok_inv in H as ([] & s1 & E & H). apply ret_ok_inv in H as [_ <-]. exact E.
Qed.

Lemma zero_time_past t : 0 <= t -> (t =? zero_time) = false.
Proof. intros H. apply Z.eqb_neq. unfold zero_time, Second. lia. Qed.

Section Ops.
Context {S : SdkMath} {SS : SdkMathSpec S} {B : BigEndian} {BS : BigEndianSpec B} {T : SdkText} {TS : SdkTextSpec T}
  {C : CoinsOps} {CS : CoinsSpec C} {P : PrefixEnd} {PS : PrefixEndSpec P} {LK : LockupKeepers} {V : LockupView LK} {LKS : LockupKeepersSpec LK}
  {KL : KVStore Stored} {KLS : KVStoreSpec KL} {KA : KVStore (list Child)} {KAS : KVStoreSpec KA} {LD : LockupDomain}.

Implicit Types k : @Keeper LK KL KA.

Lemma duration_pos d : 0 < d < 2 ^ 63 -> duration_ok d.
Proof. unfold duration_ok. lia. Qed.

(** ** Locking *)

Lemma lock_step l c k r k' L R n W : StoreOk (lk_store k) L R n -> AccOk (lk_acc k) W -> uint64_ok (ID l) -> native (Denom c) ->
  duration_ok (Duration l) -> lock l [c] k = (Ok r, k') ->
  StoreOk (lk_store k') (<[ID l := l]> L) R n /\ AccOk (lk_acc k') (add_at W (Denom c) (Duration l) (Amount c)) /\
  (forall d, balance (lk_ext k') lockup_addr d = balance (lk_ext k) lockup_addr d) /\ lk_params k' = lk_params k.
Proof.
  intros O A U N D H. unfold lock in H. apply mbind_ok_inv in H as (a & k0 & Ea & H). apply lift_ok_inv in Ea as [Ea <-].
  apply mbind_ok_inv in H as (x & k1 & E1 & H). destruct (setLock_ok _ _ _ _ _ _ _ O U E1) as [O1 (A1 & Pm1 & X1)].
  apply mbind_ok_inv in H as (y & k2 & E2 & H). apply for_each_single in E2. rewrite <- A1 in A.
  destruct (increase_ok _ _ _ _ _ _ _ A N D E2) as [A2 (S2 & Pm2 & X2)].
  destruct (call_hook_step _ _ _ _ (fun h E => ho_locked h (hooks_lawful h E) a _ _ _ _) H) as [(S3 & A3 & Pm3) B3].
  rewrite <- S2, <- S3 in O1. rewrite <- A3 in A2. split; [exact O1|]. split; [exact A2|]. split; [|congruence]. intros d. now rewrite B3, X2, X1.
Qed.

Definition new_lock (id : Z) (owner : AccAddress) (c : Coin) (duration : Z) : PeriodLock := NewPeriodLock id owner "" duration zero_time [c].

Lemma new_lock_ok id s owner c dur : AccAddressFromBech32 s = Ok owner -> account owner -> 0 < Amount c -> native (Denom c) -> 0 < dur < 2 ^ 63 ->
  lock_ok (new_lock id owner c dur).
Proof.
  intros E N Pc Nc D. split; cbn [Coins Duration Owner EndTime new_lock NewPeriodLock].
  - exists c. auto.
  - exact D.
  - exists owner. split; [eapply Bech32_String; exact E | auto].
  - now left.
Qed.

Lemma CreateLock_books s owner c dur k l k' L n : Books k L n -> AccAddressFromBech32 s = Ok owner -> account owner ->
  0 < Amount c -> native (Denom c) -> 0 < dur < 2 ^ 63 -> n + 1 < 2 ^ 64 -> CreateLock owner [c] dur k = (Ok l, k') ->
  l = new_lock (n + 1) owner c dur /\ Books k' (<[n + 1 := l]> L) (n + 1).
Proof.
  intros Bk Ea No Pc Nc Hd Hn H. destruct Bk as [O LO Rn A Bal Pa]. unfold CreateLock in H. apply mbind_ok_inv in H as (x & k1 & E1 & H).
  apply on_ext_ok in E1 as [E1 (S1 & A1 & Pm1)]. destruct x. pose proof (send_in _ _ _ _ _ E1) as B1. unfold CreateLockNoSend in H.
  apply mbind_ok_inv in H as (k2 & k3 & E2 & H). injection E2 as <- <-. cbv zeta in H.
  rewrite <- S1 in O. rewrite <- A1 in A. rewrite (GetLastLockID_ok k1 _ _ _ O) in H. unfold uint64 in H. rewrite (Z.mod_small (n + 1)) in H by lia.
  fold (new_lock (n + 1) owner c dur) in H. set (l0 := new_lock (n + 1) owner c dur) in *.
  apply mbind_ok_inv in H as (x & k4 & E4 & H). apply mbind_ok_inv in H as (y & k5 & E5 & H). apply mbind_ok_inv in H as (z & k6 & E6 & H).
  apply ret_ok_inv in H as [<- <-]. split; [reflexivity|].
  pose proof (new_lock_ok (n + 1) s owner c dur Ea No Pc Nc Hd) as Ok0. fold l0 in Ok0.
  destruct (lock_step l0 c k1 x k4 L L n (locked L) O A ltac:(cbn; unfold uint64_ok; lia) Nc ltac:(now apply duration_pos) E4) as (O4 & A4 & B4 & Pm4).
  assert (Fr : L !! (n + 1) = None) by (eapply fresh_lock_id; [exact LO | lia]).
  destruct (addLockRefs_ok k4 l0 owner y k5 _ _ _ O4 ltac:(cbn; unfold uint64_ok; lia) (Bech32_String _ _ Ea) ltac:(discriminate) Fr E5)
    as [O5 (A5 & Pm5 & X5)].
  destruct (SetLastLockID_ok _ _ _ _ _ _ _ O5 E6) as [O6 (A6 & Pm6 & X6)]. change (ID l0) with (n + 1) in *. split.
  - exact O6.
  - apply (locks_ok_insert L n); auto; lia.
  - lia.
  - rewrite A6, A5. eapply AccOk_ext; [|exact A4]. intros d f _. rewrite locked_insert by exact Fr. unfold add_at. cbn [Coins Duration l0 new_lock NewPeriodLock].
    rewrite amount_single. destruct (String.eqb (Denom c) d), (f (accumulationKey dur)); lia.
  - intros d. rewrite X6, X5, B4, B1, Bal, msum_insert by exact Fr. fold lockup_addr. rewrite at_same, at_other by now apply account_other.
    change (Coins l0) with [c]. lia.
  - congruence.
Qed.

(** ** Adding to a lock *)

Lemma lock_coin l : lock_ok l -> exists c, Coins l = [c] /\ coins_ok (Coins l) /\ 0 < Amount c /\ native (Denom c).
Proof. intros [(c & E & Pc & Nc) _ _ _]. exists c. rewrite E. split; [reflexivity|]. split; [apply single_ok; auto with lockup|]. auto. Qed.

Lemma coins_merge c e r : 0 < Amount c -> 0 < Amount e -> Denom e = Denom c -> native (Denom c) -> Coins_Add [c] [e] = Ok r ->
  r = [ {| Denom := Denom c; Amount := Amount c + Amount e |} ].
Proof.
  intros Pc Pe D N E. destruct (Coins_Add_exact [c] [e] r) as [Or Ar]; [apply single_ok; auto with lockup | apply single_ok; [exact Pe | rewrite D; auto with lockup] | exact E|].
  rewrite (single_coins r (Denom c) Or), Ar, !amount_single, D, String.eqb_refl.
  - destruct (Z.eqb_spec (Amount c + Amount e) 0); [lia | reflexivity].
  - intros x Nx. rewrite Ar, !amount_single, D. destruct (String.eqb_spec (Denom c) x); [congruence | reflexivity].
Qed.

Lemma make_single c r : 0 < Amount c -> MakeCoins [c] = Ok r -> r = [c].
Proof.
  intros Pc E. destruct (MakeCoins_exact _ _ E) as [Or Ar]. rewrite (single_coins r (Denom c) Or), Ar, amount_single, String.eqb_refl.
  - destruct (Z.eqb_spec (Amount c) 0); [lia | now destruct c].
  - intros x Nx. rewrite Ar, amount_single. destruct (String.eqb_spec (Denom c) x); [congruence | reflexivity].
Qed.

(** Another amount of the same denomination. *)
Definition with_amount (l : PeriodLock) (c : Coin) (amt : Z) : PeriodLock := set_Coins l [ {| Denom := Denom c; Amount := amt |} ].

Lemma with_amount_ok l c amt : lock_ok l -> Coins l = [c] -> 0 < amt -> lock_ok (with_amount l c amt).
Proof.
  intros [(e & E & Pe & Ne) D O Z] Ec Pa. rewrite Ec in E. injection E as <-. split; cbn [Coins Duration Owner EndTime with_amount set_Coins]; auto.
  exists {| Denom := Denom c; Amount := amt |}. auto.
Qed.

Lemma with_amount_refs l c amt a : Coins l = [c] -> refs a (with_amount l c amt) = refs a l.
Proof. intros E. unfold refs, duration_refs, time_refs, IsUnlocking. cbn [Coins Duration EndTime with_amount set_Coins]. rewrite E. reflexivity. Qed.

Lemma with_amount_locked L id l c amt d f : L !! id = Some l -> Coins l = [c] ->
  locked (<[id := with_amount l c amt]> L) d f = add_at (locked L) (Denom c) (Duration l) (amt - Amount c) d f.
Proof.
  intros E Ec. rewrite (locked_update L id l _ d f E). unfold add_at. cbn [Coins Duration with_amount set_Coins].
  rewrite Ec, !amount_single. cbn [Denom Amount]. destruct (String.eqb (Denom c) d), (f (accumulationKey (Duration l))); lia.
Qed.

Lemma owner_address l a : AccAddressFromBech32 (Owner l) = Ok a -> OwnerAddress l = Ok a.
Proof. unfold OwnerAddress. now intros ->. Qed.

Lemma AddTokens_books s id owner l c e k l' k' L n : Books k L n -> AccAddressFromBech32 s = Ok owner -> account owner ->
  L !! id = Some l -> Coins l = [c] -> Denom e = Denom c -> 0 < Amount e ->
  AddTokensToLockByID id owner e k = (Ok l', k') ->
  Owner l = AccString owner /\ l' = with_amount l c (Amount c + Amount e) /\ Books k' (<[id := l']> L) n.
Proof.
  intros Bk Ea No El Ec De Pe H. pose proof (ids_range _ _ _ _ _ _ Bk El) as U. destruct Bk as [O LO Rn A Bal Pa].
  destruct (LO id l El) as (Ei & Ri & Ok0). destruct (lock_coin l Ok0) as (c0 & Ec0 & Oc & Pc & Nc). rewrite Ec in Ec0. injection Ec0 as <-.
  unfold AddTokensToLockByID in H. apply mbind_ok_inv in H as (l0 & k0 & E0 & H). destruct (GetLockByID_ok _ _ _ _ _ _ _ O U E0) as [El0 ->].
  rewrite El in El0. injection El0 as <-. destruct (String.eqb_spec (Owner l) (AccString owner)) as [Eo|]; cbn [negb] in H; [|discriminate H].
  apply mbind_ok_inv in H as (cs & k1 & E1 & H). apply lift_ok_inv in E1 as [E1 <-]. rewrite Ec in E1.
  apply coins_merge in E1; auto. subst cs. cbv zeta in H. fold (with_amount l c (Amount c + Amount e)) in H. set (l1 := with_amount _ _ _) in *.
  apply mbind_ok_inv in H as (added & k1 & E1 & H). apply lift_ok_inv in E1 as [E1 <-]. apply make_single in E1; [|exact Pe]. subst added.
  apply mbind_ok_inv in H as (u & k1 & E1 & H). destruct u. apply on_ext_ok in E1 as [E1 (S1 & A1 & Pm1)]. pose proof (send_in _ _ _ _ _ E1) as B1.
  rewrite <- S1 in O. rewrite <- A1 in A. apply mbind_ok_inv in H as (u & k2 & E2 & H).
  destruct (lock_step l1 e k1 u k2 L L n (locked L) O A ltac:(cbn; now rewrite Ei) ltac:(now rewrite De)
    ltac:(apply duration_pos, (lo_duration _ Ok0)) E2) as (O2 & A2 & B2 & Pm2).
  apply mbind_ok_inv in H as ([sy fd] & k3 & E3 & H). destruct (no_synthetic_found k2 _ _ _ (ID l1) O2 ltac:(cbn; now rewrite Ei)) as [NS _].
  rewrite NS in E3. injection E3 as <- <- <-. apply mbind_ok_inv in H as (v & k4 & E4 & H).
  destruct (increase_junk 0 _ _ _ _ _ A2 ltac:(unfold duration_ok; cbn; lia) E4) as [A4 (S4 & Pm4 & X4)].
  assert (X : l1 = l' /\ same_stores k4 k' /\ forall d, balance (lk_ext k') lockup_addr d = balance (lk_ext k4) lockup_addr d).
  { destruct lockup_hooks as [h|] eqn:Eh; [|apply ret_ok_inv in H as [<- <-]; repeat split].
    apply mbind_ok_inv in H as (a & k5 & E5 & H). apply lift_ok_inv in E5 as [_ <-]. apply mbind_ok_inv in H as (w & k6 & E6 & H).
    apply ret_ok_inv in H as [<- <-]. split; [reflexivity|]. exact (hook_step _ _ _ _ (ho_add h (hooks_lawful h Eh) a _ _) E6). }
  destruct X as (<- & (S5 & A5 & Pm5) & B5). split; [exact Eo|]. split; [reflexivity|]. change (ID l1) with (ID l) in *. rewrite Ei in *. split.
  - rewrite S5, S4. apply (refs_unchanged _ _ _ _ id l); auto. intros a. now apply with_amount_refs.
  - apply (locks_ok_insert L n); auto; try lia. apply with_amount_ok; auto; lia.
  - exact Rn.
  - rewrite A5. eapply AccOk_ext; [|exact A4]. intros d f _. unfold l1. rewrite (with_amount_locked L id l c _ d f El Ec).
    unfold add_at. rewrite De. cbn [Duration with_amount set_Coins]. destruct (String.eqb (Denom c) d), (f (accumulationKey (Duration l))); lia.
  - intros d. rewrite B5, X4, B2, B1, Bal. fold lockup_addr. rewrite at_same, at_other by now apply account_other. rewrite (msum_update _ L id l l1 El).
    cbn [Coins l1 with_amount set_Coins]. rewrite Ec, !amount_single, De. cbn [Denom Amount]. destruct (String.eqb (Denom c) d); lia.
  - congruence.
Qed.

(** ** Splitting and starting to unlock *)

(** Coins a lock with one coin can give. *)
Lemma coins_within c cs : 0 < Amount c -> native (Denom c) -> Forall (fun e => 0 < Amount e) cs -> StronglySorted denom_lt cs -> Coins_IsAllLTE cs [c] = true ->
  cs = [] \/ exists e, cs = [e] /\ Denom e = Denom c /\ 0 < Amount e <= Amount c.
Proof.
  intros Pc Nc F Sd E. apply Coins_IsAllLTE_spec in E; [|apply single_ok; auto with lockup].
  assert (D : forall e, In e cs -> Denom e = Denom c /\ 0 < Amount e <= Amount c).
  { intros e I. rewrite Forall_forall in E, F. specialize (E e I). specialize (F e I). rewrite amount_single in E.
    destruct (String.eqb_spec (Denom c) (Denom e)); [auto with lia | lia]. }
  destruct cs as [|e [|e' cs]]; [now left | right; exists e; split; [reflexivity | apply D; now left] | exfalso].
  inversion Sd as [|? ? _ F']; subst. inversion F' as [|? ? L _]; subst. unfold denom_lt in L.
  rewrite (proj1 (D e (or_introl eq_refl))), (proj1 (D e' (or_intror (or_introl eq_refl)))) in L. exact (blt_irrefl _ L).
Qed.

Definition split_lock (id : Z) (l : PeriodLock) (e : Coin) : PeriodLock :=
  {| ID := id; Owner := Owner l; Duration := Duration l; EndTime := EndTime l; Coins := [e];
     RewardReceiverAddress := if String.eqb (Owner l) (RewardReceiverAddress l) then DefaultOwnerReceiverPlaceholder else RewardReceiverAddress l |}.

Lemma split_lock_ok id l c e : lock_ok l -> Coins l = [c] -> Denom e = Denom c -> 0 < Amount e -> lock_ok (split_lock id l e).
Proof.
  intros [(x & E & Px & Nx) D O Z] Ec De Pe. rewrite Ec in E. injection E as <-. split; cbn [Coins Duration Owner EndTime split_lock]; auto.
  exists e. rewrite De. auto.
Qed.

Lemma coins_minus c e r : 0 < Amount c -> 0 < Amount e < Amount c -> Denom e = Denom c -> native (Denom c) -> Coins_Sub [c] [e] = Ok r ->
  r = [ {| Denom := Denom c; Amount := Amount c - Amount e |} ].
Proof.
  intros Pc Pe D N E. destruct (Coins_Sub_exact [c] [e] r) as [Or Ar];
    [apply single_ok; auto with lockup | apply single_ok; [apply Pe | rewrite D; auto with lockup] | exact E|].
  rewrite (single_coins r (Denom c) Or), Ar, !amount_single, D, String.eqb_refl.
  - destruct (Z.eqb_spec (Amount c - Amount e) 0); [lia | reflexivity].
  - intros x Nx. rewrite Ar, !amount_single, D. destruct (String.eqb_spec (Denom c) x); [congruence | reflexivity].
Qed.

Lemma SplitLock_ledger id l c e force k r k' L n : Books k L n -> L !! id = Some l -> Coins l = [c] -> Denom e = Denom c ->
  0 < Amount e < Amount c -> n + 1 < 2 ^ 64 -> SplitLock l [e] force k = (Ok r, k') ->
  let l1 := with_amount l c (Amount c - Amount e) in
  r = split_lock (n + 1) l e /\ Ledger k' (<[n + 1 := r]> (<[id := l1]> L)) (<[id := l1]> L) (n + 1).
Proof.
  intros Bk El Ec De Pe Hn H l1. pose proof (ids_range _ _ _ _ _ _ Bk El) as U. destruct Bk as [O LO Rn A Bal Pa].
  destruct (LO id l El) as (Ei & Ri & Ok0). destruct (lock_coin l Ok0) as (c0 & Ec0 & Oc & Pc & Nc). rewrite Ec in Ec0. injection Ec0 as <-.
  unfold SplitLock in H. destruct (negb force && IsUnlocking l); [discriminate H|].
  apply mbind_ok_inv in H as (rest & k0 & E0 & H). apply lift_ok_inv in E0 as [E0 <-]. rewrite Ec in E0. apply coins_minus in E0; auto. subst rest.
  cbv zeta in H. fold (with_amount l c (Amount c - Amount e)) in H. fold l1 in H.
  apply mbind_ok_inv in H as (u & k1 & E1 & H). destruct (setLock_ok _ l1 _ _ _ _ _ O ltac:(cbn; now rewrite Ei) E1) as [O1 (A1 & Pm1 & X1)].
  apply mbind_ok_inv in H as (k2 & k3 & E2 & H). injection E2 as <- <-. rewrite (GetLastLockID_ok k1 _ _ _ O1) in H. unfold uint64 in H.
  rewrite (Z.mod_small (n + 1)) in H by lia. apply mbind_ok_inv in H as (u' & k4 & E4 & H).
  destruct (SetLastLockID_ok _ _ _ _ _ _ _ O1 E4) as [O4 (A4 & Pm4 & X4)]. destruct (lo_owner _ Ok0) as (a & Ea & Eo & Na).
  apply mbind_ok_inv in H as (a' & k5 & E5 & H). apply lift_ok_inv in E5 as [E5 <-]. rewrite (owner_address l1 a Ea) in E5. apply Ok_inj in E5 as <-.
  assert (Es : NewPeriodLock (n + 1) a (RewardReceiverAddress l1) (Duration l1) (EndTime l1) [e] = split_lock (n + 1) l e).
  { unfold NewPeriodLock, split_lock. now rewrite <- Eo. }
  rewrite Es in H. apply mbind_ok_inv in H as (u6 & k6 & E6 & H). apply ret_ok_inv in H as [<- <-]. split; [reflexivity|].
  set (r0 := split_lock (n + 1) l e) in *. destruct (setLock_ok _ r0 _ _ _ _ _ O4 ltac:(cbn; unfold uint64_ok; lia) E6) as [O6 (A6 & Pm6 & X6)].
  change (ID l1) with (ID l) in *. change (ID r0) with (n + 1) in *. rewrite Ei in *. pose proof (fresh_lock_id L n (n + 1) LO ltac:(lia)) as Fr.
  assert (Fr1 : (<[id := l1]> L : lockmap) !! (n + 1) = None) by (rewrite lookup_insert_ne; [exact Fr | lia]). split.
  - apply (refs_unchanged _ _ _ _ id l); auto. intros a0. now apply with_amount_refs.
  - assert (LO1 : locks_ok (<[id := l1]> L) n) by (apply (locks_ok_insert L n); auto; try lia; apply with_amount_ok; auto; lia).
    apply (locks_ok_insert _ n); auto; try lia. apply (split_lock_ok _ l c); auto; lia.
  - lia.
  - rewrite A6, A4, A1. eapply AccOk_ext; [|exact A]. intros d f _. rewrite locked_insert by exact Fr1. unfold l1.
    rewrite (with_amount_locked L id l c _ d f El Ec). unfold add_at. cbn [Coins Duration r0 split_lock]. rewrite amount_single, De.
    destruct (String.eqb (Denom c) d), (f (accumulationKey (Duration l))); lia.
  - intros d. rewrite X6, X4, X1, Bal, msum_insert by exact Fr1. rewrite (msum_update _ L id l l1 El). cbn [Coins l1 r0 split_lock with_amount set_Coins].
    rewrite Ec, !amount_single, De. cbn [Denom Amount]. destruct (String.eqb (Denom c) d); lia.
  - congruence.
Qed.

Definition block_ok (ctx : Ctx) : Prop := 0 <= BlockTime ctx < 2 ^ 63.

Lemma start_unlock_ok l t : lock_ok l -> uint64_ok t -> lock_ok (set_EndTime l t).
Proof. intros [Hc Hd Ho He] U. split; cbn [Coins Duration Owner EndTime set_EndTime]; auto. Qed.

(** The last steps of starting to unlock a lock, which may have no references yet. *)
Lemma start_unlock_step id l t k r k' L R n : Ledger k L R n -> L !! id = Some l -> R !! id = None \/ R !! id = Some l -> IsUnlocking l = false ->
  uint64_ok t ->
  (deleteLockRefs KeyPrefixNotUnlocking l ~;; setLock (set_EndTime l t) ~;; addLockRefs (set_EndTime l t) ~;;
   (match lockup_hooks with
    | Some h => a <~ lift (OwnerAddress (set_EndTime l t)) ;; on_ext (OnStartUnlock h a (ID l) (Coins l) (Duration l) t)
    | None => ret tt
    end)) k = (Ok r, k') ->
  Ledger k' (<[id := set_EndTime l t]> L) (<[id := set_EndTime l t]> R) n.
Proof.
  intros Lg El HR Nu Ut H. pose proof (ids_range _ _ _ _ _ _ Lg El) as U. destruct Lg as [O LO Rn A Bal Pa].
  destruct (LO id l El) as (Ei & Ri & Ok0). destruct (lo_owner _ Ok0) as (a & Ea & Eo & Na). set (l1 := set_EndTime l t) in *.
  apply mbind_ok_inv in H as (u0 & k0 & E0 & H).
  destruct (deleteLockRefs_ok k l a L R n O ltac:(now rewrite Ei) Ea ltac:(rewrite Ei; intros l' E'; destruct HR as [N | N]; congruence))
    as (k0' & E0' & (A0 & Pm0 & X0) & O0). rewrite Nu in E0'. change (unlockingPrefix false) with KeyPrefixNotUnlocking in E0'. rewrite E0 in E0'.
  apply (f_equal snd) in E0'. cbn in E0'. subst k0'. rewrite Ei in O0.
  apply mbind_ok_inv in H as (u1 & k1 & E1 & H). destruct (setLock_ok _ l1 _ _ _ _ _ O0 ltac:(cbn; now rewrite Ei) E1) as [O1 (A1 & Pm1 & X1)].
  apply mbind_ok_inv in H as (u2 & k2 & E2 & H). change (ID l1) with (ID l) in *. rewrite Ei in O1.
  destruct (addLockRefs_ok k1 l1 a _ k2 _ _ _ O1 ltac:(cbn; now rewrite Ei) Ea ltac:(intros _; exact Ut) ltac:(cbn; rewrite Ei; apply lookup_delete_eq) E2)
    as [O2 (A2 & Pm2 & X2)]. change (ID l1) with (ID l) in *. rewrite Ei, insert_delete_eq in O2.
  assert (X : same_stores k2 k' /\ forall d, balance (lk_ext k') lockup_addr d = balance (lk_ext k2) lockup_addr d).
  { destruct lockup_hooks as [h|] eqn:Eh; [|apply ret_ok_inv in H as [_ <-]; repeat split]. apply mbind_ok_inv in H as (a1 & k3 & E3 & H).
    apply lift_ok_inv in E3 as [_ <-]. exact (hook_step _ _ _ _ (ho_start h (hooks_lawful h Eh) a1 _ _ _ _) H). }
  destruct X as ((S3 & A3 & Pm3) & B3). split.
  - now rewrite S3.
  - apply (locks_ok_insert L n); auto; try lia. now apply start_unlock_ok.
  - exact Rn.
  - rewrite A3, A2, A1, A0. eapply AccOk_ext; [|exact A]. intros d f _. rewrite (locked_update L id l l1 d f El). cbn [Coins Duration l1 set_EndTime]. lia.
  - intros d. rewrite B3, X2, X1, X0, Bal, (msum_update _ L id l l1 El). cbn [Coins l1 set_EndTime]. lia.
  - congruence.
Qed.

(** Starting to unlock a whole lock. *)
Lemma beginUnlock_full ctx id l cs k r k' L R n : Ledger k L R n -> L !! id = Some l -> R !! id = None \/ R !! id = Some l -> block_ok ctx ->
  cs = [] \/ Coins_Equal cs (Coins l) = true -> beginUnlock ctx l cs k = (Ok r, k') ->
  let l' := set_EndTime l (BlockTime ctx + Duration l) in
  IsUnlocking l = false /\ r = id /\ Ledger k' (<[id := l']> L) (<[id := l']> R) n.
Proof.
  intros Lg El HR Hb Hc H l'. destruct (bk_locks _ _ _ _ Lg id l El) as (Ei & Ri & Ok0). unfold beginUnlock in H.
  destruct (negb (Coins_IsAllLTE cs (Coins l))); [discriminate H|]. destruct (IsUnlocking l) eqn:Nu; [discriminate H|].
  assert (E : (match cs with [] => ret l | _ => if Coins_Equal cs (Coins l) then ret l else SplitLock l cs false end) = ret l).
  { destruct cs; [reflexivity|]. destruct Hc as [Hc | ->]; [discriminate Hc | reflexivity]. }
  rewrite E in H. clear E. apply mbind_ok_inv in H as (l0 & k0 & E0 & H). apply ret_ok_inv in E0 as [<- <-]. cbv zeta in H. fold l' in H.
  apply mbind_ok_inv in H as (u1 & k1 & E1 & H). apply mbind_ok_inv in H as (u2 & k2 & E2 & H). apply mbind_ok_inv in H as (u3 & k3 & E3 & H).
  apply mbind_ok_inv in H as (u4 & k4 & E4 & H). apply mbind_ok_inv in H as (u5 & k5 & E5 & H). apply lift_ok_inv in E5 as [_ <-].
  apply ret_ok_inv in H as [Er <-]. split; [reflexivity|]. split; [now rewrite <- Er|].
  apply (start_unlock_step id l (BlockTime ctx + Duration l) k u4 k4); auto.
  - pose proof (lo_duration _ Ok0). unfold block_ok, uint64_ok in *. lia.
  - unfold mbind. subst l'. rewrite E1, E2, E3. exact E4.
Qed.

(** What starting to unlock makes of the locks: the whole lock unlocks, or a
    new lock that takes the amount. *)
Inductive begin_unlock (t id : Z) (cs : list Coin) (L : lockmap) (n : Z) : Z -> lockmap -> Z -> Prop :=
| begin_whole l : L !! id = Some l -> IsUnlocking l = false -> cs = [] \/ cs = Coins l ->
    begin_unlock t id cs L n id (<[id := set_EndTime l (t + Duration l)]> L) n
| begin_part l c e : L !! id = Some l -> IsUnlocking l = false -> Coins l = [c] -> cs = [e] -> Denom e = Denom c -> 0 < Amount e < Amount c ->
    begin_unlock t id cs L n (n + 1)
      (<[n + 1 := set_EndTime (split_lock (n + 1) l e) (t + Duration l)]> (<[id := with_amount l c (Amount c - Amount e)]> L)) (n + 1).

(** The coins of a request. *)
Definition request_ok (cs : list Coin) : Prop := Forall (fun e => 0 < Amount e) cs /\ StronglySorted denom_lt cs.

Lemma beginUnlock_books ctx id l cs k r k' L n : Books k L n -> L !! id = Some l -> block_ok ctx -> request_ok cs -> n + 1 < 2 ^ 64 ->
  beginUnlock ctx l cs k = (Ok r, k') -> exists L' n', begin_unlock (BlockTime ctx) id cs L n r L' n' /\ Books k' L' n'.
Proof.
  intros Bk El Hb [Fc Sc] Hn H. pose proof (bk_locks _ _ _ _ Bk id l El) as (Ei & Ri & Ok0).
  destruct (lock_coin l Ok0) as (c & Ec & Oc & Pc & Nc). rewrite Ec in Oc.
  assert (W : cs = [] \/ Coins_Equal cs (Coins l) = true \/ Coins_IsAllLTE cs (Coins l) = true /\ Coins_Equal cs (Coins l) = false).
  { unfold beginUnlock in H. destruct (Coins_IsAllLTE cs (Coins l)); [|discriminate H]. destruct (Coins_Equal cs (Coins l)); auto. }
  assert (Whole : cs = [] \/ Coins_Equal cs (Coins l) = true -> cs = [] \/ cs = Coins l ->
    exists L' n', begin_unlock (BlockTime ctx) id cs L n r L' n' /\ Books k' L' n').
  { intros Hc Hc'. destruct (beginUnlock_full ctx id l cs k r k' L L n Bk El (or_intror El) Hb Hc H) as (Nu & -> & Lg).
    exists (<[id := set_EndTime l (BlockTime ctx + Duration l)]> L), n. split; [now apply begin_whole | exact Lg]. }
  destruct (Coins_IsAllLTE cs (Coins l)) eqn:EL; [|unfold beginUnlock in H; rewrite EL in H; discriminate H].
  rewrite Ec in EL. destruct (coins_within c cs Pc Nc Fc Sc EL) as [-> | (e & -> & De & Pe)]; [apply Whole; auto|].
  destruct (Coins_Equal [e] (Coins l)) eqn:EE.
  - apply Whole; [auto|]. right. rewrite Ec in EE |- *. apply Coins_Equal_spec in EE; auto. apply single_ok; [apply Pe | rewrite De; auto with lockup].
  - clear W Whole. unfold beginUnlock in H. rewrite Ec, EL in H. cbn [negb] in H. destruct (IsUnlocking l) eqn:Nu; [discriminate H|].
    rewrite Ec in EE. rewrite EE in H. apply mbind_ok_inv in H as (s & k0 & E0 & H).
    assert (Pe' : 0 < Amount e < Amount c).
    { enough (Amount e <> Amount c) by lia. intros E. assert (e = c) as -> by (destruct e, c; cbn in *; congruence).
      assert (Coins_Equal [c] [c] = true) by (apply Coins_Equal_spec; auto). congruence. }
    destruct (SplitLock_ledger id l c e false k s k0 L n Bk El Ec De Pe' Hn E0) as [-> Lg]. cbv zeta in H, Lg.
    set (l1 := with_amount l c (Amount c - Amount e)) in *. set (s := split_lock (n + 1) l e) in *.
    apply mbind_ok_inv in H as (u1 & k1 & E1 & H). apply mbind_ok_inv in H as (u2 & k2 & E2 & H). apply mbind_ok_inv in H as (u3 & k3 & E3 & H).
    apply mbind_ok_inv in H as (u4 & k4 & E4 & H). apply mbind_ok_inv in H as (u5 & k5 & E5 & H). apply lift_ok_inv in E5 as [_ <-].
    apply ret_ok_inv in H as [Er <-]. cbn [ID set_EndTime s split_lock] in Er. subst r.
    eexists _, (n + 1). split; [eapply begin_part; eauto|]. fold l1. fold s. unfold Books.
    assert (Fr : (<[id := l1]> L : lockmap) !! (n + 1) = None).
    { rewrite lookup_insert_ne by lia. apply (fresh_lock_id L n); [apply (bk_locks _ _ _ _ Bk) | lia]. }
    assert (Ut : uint64_ok (BlockTime ctx + Duration l)) by (pose proof (lo_duration _ Ok0); unfold block_ok, uint64_ok in *; lia).
    pose proof (start_unlock_step (n + 1) s (BlockTime ctx + Duration l) k0 u4 k4 _ _ _ Lg (lookup_insert_eq _ _ _) (or_introl Fr) Nu Ut) as Z.
    rewrite insert_insert_eq in Z. apply Z. unfold mbind. cbn [Duration s split_lock] in *. rewrite E1, E2, E3. exact E4.
Qed.

(** ** Paying a lock out *)

Definition released (l : PeriodLock) (a b : AccAddress) (d : string) : Z :=
  match Coins l with
  | [c] => if String.prefix ConcentratedLiquidityTokenPrefix (Denom c) then 0 else at_addr a b * amount_of [c] d
  | _ => 0
  end.

Lemma add_nothing c r : 0 < Amount c -> native (Denom c) -> Coins_Add [] [c] = Ok r -> r = [c].
Proof.
  intros Pc Nc E. destruct (Coins_Add_exact [] [c] r) as [Or Ar]; [split; constructor | apply single_ok; auto with lockup | exact E|].
  rewrite (single_coins r (Denom c) Or), Ar, amount_single, String.eqb_refl.
  - cbn [amount_of map zsum fold_right]. destruct (Z.eqb_spec (0 + Amount c) 0); [lia | now destruct c].
  - intros x Nx. rewrite Ar, amount_single. destruct (String.eqb_spec (Denom c) x); [congruence | reflexivity].
Qed.

Lemma unlock_step id l a k r k' L R n : Ledger k L R n -> L !! id = Some l -> R !! id = None \/ R !! id = Some l -> IsUnlocking l = true ->
  AccAddressFromBech32 (Owner l) = Ok a -> unlockMaturedLockInternalLogic l k = (Ok r, k') ->
  Ledger k' (base.delete id L) (base.delete id R) n /\
  forall b d, b <> lockup_addr -> balance (lk_ext k') b d = balance (lk_ext k) b d + released l a b d.
Proof.
  intros Lg El HR Hu Ea H. pose proof (ids_range _ _ _ _ _ _ Lg El) as U. destruct Lg as [O LO Rn A Bal Pa].
  destruct (LO id l El) as (Ei & Ri & Ok0). destruct (lock_coin l Ok0) as (c & Ec & Oc & Pc & Nc).
  unfold unlockMaturedLockInternalLogic in H. rewrite Ea in H. apply mbind_ok_inv in H as (a0 & k0 & E0 & H). apply lift_ok_inv in E0 as [E0 <-].
  apply Ok_inj in E0 as <-. apply mbind_ok_inv in H as (fin & k1 & E1 & H). apply mbind_ok_inv in H as (u2 & k2 & E2 & H).
  assert (X : same_stores k k2 /\ forall b d, balance (lk_ext k2) b d = balance (lk_ext k) b d + released l a b d - at_addr lockup_addr b * amount_of [c] d).
  { unfold released. rewrite Ec in E1 |- *. cbn [coinsToReturn] in E1. destruct (String.prefix _ _).
    - apply mbind_ok_inv in E1 as (bs & k3 & E3 & E1). apply lift_ok_inv in E3 as [E3 <-]. apply make_single in E3; [|exact Pc]. subst bs.
      apply mbind_ok_inv in E1 as (u & k3 & E3 & E1). apply ret_ok_inv in E1 as [<- <-]. apply ret_ok_inv in E2 as [_ <-].
      apply on_ext_ok in E3 as [E3 Sm]. split; [exact Sm|]. intros b d. destruct u. rewrite (burn _ _ _ _ E3). fold lockup_addr. lia.
    - apply mbind_ok_inv in E1 as (bs & k3 & E3 & E1). apply lift_ok_inv in E3 as [E3 <-]. apply add_nothing in E3; auto. subst bs.
      apply ret_ok_inv in E1 as [<- <-]. apply on_ext_ok in E2 as [E2 Sm]. split; [exact Sm|]. intros b d. destruct u2.
      rewrite (send_out _ _ _ _ _ E2). fold lockup_addr. lia. }
  destruct X as [(S2 & A2 & Pm2) B2]. rewrite <- S2 in O. rewrite <- A2 in A.
  apply mbind_ok_inv in H as (u3 & k3 & E3 & H). rewrite Ei in E3. destruct (deleteLock_ok _ _ _ _ _ _ _ O U E3) as [O3 (A3 & Pm3 & X3)].
  apply mbind_ok_inv in H as (u4 & k4 & E4 & H).
  destruct (deleteLockRefs_ok k3 l a _ R n O3 ltac:(now rewrite Ei) Ea ltac:(rewrite Ei; intros l' E'; destruct HR as [N | N]; congruence))
    as (k4' & E4' & (A4 & Pm4 & X4) & O4). rewrite Hu in E4'. change (unlockingPrefix true) with KeyPrefixUnlocking in E4'. rewrite E4 in E4'.
  apply (f_equal snd) in E4'. cbn in E4'. subst k4'. rewrite Ei in O4.
  apply mbind_ok_inv in H as (u5 & k5 & E5 & H). rewrite Ec in E5. apply for_each_single in E5. rewrite acc_Decrease_is in E5.
  rewrite <- A3, <- A4 in A.
  destruct (increase_ok _ _ _ _ _ _ _ A Nc ltac:(apply duration_pos, (lo_duration _ Ok0)) E5) as [A5 (S5 & Pm5 & X5)].
  unfold call_hook in H. destruct lockup_hooks as [h|] eqn:Eh; [|discriminate H]. apply on_ext_ok in H as [H (S6 & A6 & Pm6)].
  destruct (ho_unlocked h (hooks_lawful h Eh) a (ID l) (Coins l) (Duration l) (EndTime l) (lk_ext k5)) as (e' & E' & B6). rewrite H in E'.
  apply (f_equal snd) in E'. cbn in E'. subst e'.
  assert (BB : forall b d, balance (lk_ext k') b d = balance (lk_ext k) b d + released l a b d - at_addr lockup_addr b * amount_of [c] d).
  { intros b d. now rewrite B6, X5, X4, X3, B2. }
  split; [split|].
  - now rewrite S6, S5.
  - now apply locks_ok_delete.
  - exact Rn.
  - rewrite A6. eapply AccOk_ext; [|exact A5]. intros d f _. rewrite (locked_delete L id l d f El). unfold add_at. rewrite Ec, amount_single.
    destruct (String.eqb (Denom c) d), (f (accumulationKey (Duration l))); lia.
  - intros d. rewrite BB, Bal, (msum_delete _ L id l El), at_same, Ec. unfold released. rewrite Ec. destruct (lo_owner _ Ok0) as (a' & Ea' & _ & Na).
    rewrite Ea in Ea'. apply Ok_inj in Ea' as <-. rewrite at_other by now apply account_other. destruct (String.prefix _ _); lia.
  - congruence.
  - intros b d Nb. rewrite BB, at_other by congruence. lia.
Qed.

Lemma BeginUnlock_books ctx id cs k r k' L n : Books k L n -> uint64_ok id -> block_ok ctx -> request_ok cs -> n + 1 < 2 ^ 64 ->
  BeginUnlock ctx id cs k = (Ok r, k') -> exists L' n', begin_unlock (BlockTime ctx) id cs L n r L' n' /\ Books k' L' n'.
Proof.
  intros Bk U Hb Hc Hn H. unfold BeginUnlock in H. apply mbind_ok_inv in H as (l & k0 & E0 & H).
  destruct (GetLockByID_ok _ _ _ _ _ _ _ (bk_store _ _ _ _ Bk) U E0) as [El ->]. apply mbind_ok_inv in H as (k1 & k2 & E1 & H). injection E1 as <- <-.
  destruct (HasAnySyntheticLockups _ _); [discriminate H|]. eapply beginUnlock_books; eauto.
Qed.

Lemma UnlockMatured_books ctx id k r k' L n : Books k L n -> uint64_ok id -> UnlockMaturedLock ctx id k = (Ok r, k') ->
  exists l a, L !! id = Some l /\ IsUnlocking l = true /\ EndTime l <= BlockTime ctx /\ AccAddressFromBech32 (Owner l) = Ok a /\
    Books k' (base.delete id L) n /\ forall b d, b <> lockup_addr -> balance (lk_ext k') b d = balance (lk_ext k) b d + released l a b d.
Proof.
  intros Bk U H. unfold UnlockMaturedLock in H. apply mbind_ok_inv in H as (l & k0 & E0 & H).
  destruct (GetLockByID_ok _ _ _ _ _ _ _ (bk_store _ _ _ _ Bk) U E0) as [El ->]. destruct (bk_locks _ _ _ _ Bk id l El) as (_ & _ & Ok0).
  destruct (lo_owner _ Ok0) as (a & Ea & _). destruct (IsUnlocking l) eqn:Hu; [|discriminate H].
  cbn [negb] in H. destruct (Z.ltb_spec (BlockTime ctx) (EndTime l)); [discriminate H|]. exists l, a.
  destruct (unlock_step id l a k r k' L L n Bk El (or_intror El) Hu Ea H) as [Lg Pay]. auto 10.
Qed.

(** ** Unlocking by force *)

Lemma ForceUnlock_ledger ctx id l k r k' L R n : Ledger k L R n -> L !! id = Some l -> R !! id = None \/ R !! id = Some l -> block_ok ctx ->
  ForceUnlock ctx l k = (Ok r, k') -> Ledger k' (base.delete id L) (base.delete id R) n.
Proof.
  intros Lg El HR Hb H. pose proof (ids_range _ _ _ _ _ _ Lg El) as U. destruct (bk_locks _ _ _ _ Lg id l El) as (Ei & Ri & Ok0).
  destruct (lo_owner _ Ok0) as (a & Ea & _). unfold ForceUnlock in H. rewrite Ei in H.
  destruct (no_synthetic_found k L R n id (bk_store _ _ _ _ Lg) U) as [NS _].
  apply mbind_ok_inv in H as ([sy fd] & k0 & E0 & H). rewrite NS in E0. injection E0 as <- <- <-.
  apply mbind_ok_inv in H as (u & k1 & E1 & H). apply ret_ok_inv in E1 as [_ <-]. apply mbind_ok_inv in H as (u1 & k1 & E1 & H).
  apply mbind_ok_inv in H as (l1 & k2 & E2 & H). destruct (IsUnlocking l) eqn:Hu; cbn [negb when] in E1.
  - apply ret_ok_inv in E1 as [_ <-]. destruct (GetLockByID_ok _ _ _ _ _ _ _ (bk_store _ _ _ _ Lg) U E2) as [El1 ->].
    rewrite El in El1. injection El1 as <-. eapply unlock_step; eauto.
  - apply mbind_ok_inv in E1 as (i & k3 & E1 & E3). apply ret_ok_inv in E3 as [_ ->]. unfold BeginUnlock in E1.
    apply mbind_ok_inv in E1 as (l0 & k4 & E4 & E1). destruct (GetLockByID_ok _ _ _ _ _ _ _ (bk_store _ _ _ _ Lg) U E4) as [El0 ->].
    rewrite El in El0. injection El0 as <-. apply mbind_ok_inv in E1 as (k5 & k6 & E5 & E1). injection E5 as <- <-.
    destruct (HasAnySyntheticLockups _ _); [discriminate E1|].
    destruct (beginUnlock_full ctx id l [] k i k1 L R n Lg El HR Hb (or_introl eq_refl) E1) as (_ & _ & Lg1). cbv zeta in Lg1.
    destruct (GetLockByID_ok _ _ _ _ _ _ _ (bk_store _ _ _ _ Lg1) U E2) as [El1 ->]. rewrite lookup_insert_eq in El1. injection El1 as <-.
    set (l' := set_EndTime l _) in *. assert (Hu' : IsUnlocking l' = true).
    { unfold IsUnlocking, l'. cbn [EndTime set_EndTime]. rewrite zero_time_past; [reflexivity|]. pose proof (lo_duration _ Ok0). unfold block_ok in Hb. lia. }
    destruct (unlock_step id l' a k1 r k' _ _ n Lg1 (lookup_insert_eq _ _ _) (or_intror (lookup_insert_eq _ _ _)) Hu' Ea H) as [Lg2 _].
    rewrite !delete_insert_eq in Lg2. exact Lg2.
Qed.

Inductive force_unlock (id : Z) (cs : list Coin) (L : lockmap) (n : Z) : lockmap -> Z -> Prop :=
| force_whole l : L !! id = Some l -> cs = [] \/ cs = Coins l -> force_unlock id cs L n (base.delete id L) n
| force_part l c e : L !! id = Some l -> Coins l = [c] -> cs = [e] -> Denom e = Denom c -> 0 < Amount e < Amount c ->
    force_unlock id cs L n (<[id := with_amount l c (Amount c - Amount e)]> L) (n + 1).

Lemma PartialForceUnlock_books ctx id l cs k r k' L n : Books k L n -> L !! id = Some l -> block_ok ctx -> request_ok cs -> n + 1 < 2 ^ 64 ->
  PartialForceUnlock ctx l cs k = (Ok r, k') -> exists L' n', force_unlock id cs L n L' n' /\ Books k' L' n'.
Proof.
  intros Bk El Hb [Fc Sc] Hn H. destruct (bk_locks _ _ _ _ Bk id l El) as (Ei & Ri & Ok0). destruct (lock_coin l Ok0) as (c & Ec & Oc & Pc & Nc).
  rewrite Ec in Oc. unfold PartialForceUnlock in H. destruct (Coins_IsAllLTE cs (Coins l)) eqn:EL; [|discriminate H]. cbn [negb] in H.
  rewrite Ec in EL. apply mbind_ok_inv in H as (l0 & k0 & E0 & H).
  assert (Whole : (l0, k0) = (l, k) -> cs = [] \/ cs = Coins l -> exists L' n', force_unlock id cs L n L' n' /\ Books k' L' n').
  { intros E Hc. injection E as -> ->. exists (base.delete id L), n. split; [now apply force_whole with l|].
    exact (ForceUnlock_ledger ctx id l k r k' L L n Bk El (or_intror El) Hb H). }
  destruct (coins_within c cs Pc Nc Fc Sc EL) as [-> | (e & -> & De & Pe)]; [apply ret_ok_inv in E0 as [<- <-]; auto|].
  destruct (Coins_Equal [e] (Coins l)) eqn:EE.
  - apply ret_ok_inv in E0 as [<- <-]. apply Whole; [auto|]. right. rewrite Ec in EE |- *. apply Coins_Equal_spec in EE; auto.
    apply single_ok; [apply Pe | rewrite De; auto with lockup].
  - assert (Pe' : 0 < Amount e < Amount c).
    { enough (Amount e <> Amount c) by lia. intros E. assert (e = c) as -> by (destruct e, c; cbn in *; congruence).
      assert (Coins_Equal [c] [c] = true) by (apply Coins_Equal_spec; auto). congruence. }
    destruct (SplitLock_ledger id l c e true k l0 k0 L n Bk El Ec De Pe' Hn E0) as [-> Lg]. cbv zeta in Lg.
    assert (Fr : (<[id := with_amount l c (Amount c - Amount e)]> L : lockmap) !! (n + 1) = None).
    { rewrite lookup_insert_ne by lia. apply (fresh_lock_id L n); [apply (bk_locks _ _ _ _ Bk) | lia]. }
    pose proof (ForceUnlock_ledger ctx (n + 1) _ k0 r k' _ _ _ Lg (lookup_insert_eq _ _ _) (or_introl Fr) Hb H) as Lg1.
    rewrite delete_insert_eq, !delete_id in Lg1 by exact Fr. eexists _, (n + 1). split; [eapply force_part; eauto | exact Lg1].
Qed.

(** ** Extending a lock, and the receiver of its rewards *)

Lemma ExtendLockup_books id owner dur k r k' L n : Books k L n -> uint64_ok id -> 0 < dur < 2 ^ 63 -> ExtendLockup id owner dur k = (Ok r, k') ->
  exists l, L !! id = Some l /\ Owner l = AccString owner /\ IsUnlocking l = false /\ Duration l < dur /\ Books k' (<[id := set_Duration l dur]> L) n.
Proof.
  intros Bk U Hd H. unfold ExtendLockup in H. apply mbind_ok_inv in H as (l & k0 & E0 & H). destruct Bk as [O LO Rn A Bal Pa].
  destruct (GetLockByID_ok _ _ _ _ _ _ _ O U E0) as [El ->]. destruct (LO id l El) as (Ei & Ri & Ok0). destruct (lock_coin l Ok0) as (c & Ec & Oc & Pc & Nc).
  destruct (lo_owner _ Ok0) as (a & Ea & Eo & Na). destruct (String.eqb_spec (Owner l) (AccString owner)) as [Eow|]; [|discriminate H]. cbn [negb] in H.
  destruct (IsUnlocking l) eqn:Nu; [discriminate H|]. apply mbind_ok_inv in H as (k1 & k2 & E1 & H). injection E1 as <- <-.
  destruct (HasAnySyntheticLockups _ _); [discriminate H|]. apply mbind_ok_inv in H as (u0 & k0 & E1 & H).
  destruct (deleteLockRefs_ok k l a L L n O ltac:(now rewrite Ei) Ea ltac:(rewrite Ei; intros l' E'; congruence)) as (k0' & E1' & (A0 & Pm0 & X0) & O0).
  rewrite Nu, E1 in E1'. apply (f_equal snd) in E1'. cbn in E1'. subst k0'. rewrite Ei in O0. cbv zeta in H.
  apply mbind_ok_inv in H as (l1 & k3 & E3 & H). destruct (Z.eqb_spec dur 0) as [|_]; [lia|]. cbn [negb] in E3.
  destruct (Z.leb_spec dur (Duration l)) as [|Lt]; [discriminate E3|]. exists l. do 4 (split; [assumption || reflexivity|]).
  apply mbind_ok_inv in E3 as (u3 & k4 & E3 & E4). apply ret_ok_inv in E4 as [<- <-]. rewrite Ec in E3. apply for_each_single in E3.
  unfold moveAccumulation in E3. apply mbind_ok_inv in E3 as (u4 & k5 & E4 & E5). rewrite acc_Decrease_is in E4. rewrite <- A0 in A.
  destruct (increase_ok _ _ _ _ _ _ _ A Nc ltac:(apply duration_pos, (lo_duration _ Ok0)) E4) as [A5 (S5 & Pm5 & X5)].
  destruct (increase_ok _ dur _ _ _ _ _ A5 Nc ltac:(now apply duration_pos) E5) as [A6 (S6 & Pm6 & X6)].
  rewrite <- S5, <- S6 in O0. set (l1 := set_Duration l dur) in *. apply mbind_ok_inv in H as (u7 & k7 & E7 & H).
  destruct (addLockRefs_ok k4 l1 a _ k7 _ _ _ O0 ltac:(cbn; now rewrite Ei) Ea ltac:(intros Z; unfold IsUnlocking in *; cbn in Z; congruence)
    ltac:(cbn; rewrite Ei; apply lookup_delete_eq) E7) as [O7 (A7 & Pm7 & X7)].
  apply mbind_ok_inv in H as (u8 & k8 & E8 & H). destruct (setLock_ok _ l1 _ _ _ _ _ O7 ltac:(cbn; now rewrite Ei) E8) as [O8 (A8 & Pm8 & X8)].
  change (ID l1) with (ID l) in *. rewrite Ei, insert_delete_eq in O8.
  destruct (call_hook_step _ _ _ _ (fun h E => ho_extend h (hooks_lawful h E) (ID l) (Duration l) (Duration l1)) H) as [(S9 & A9 & Pm9) B9]. split.
  - now rewrite S9.
  - apply (locks_ok_insert L n); auto; try lia. destruct Ok0. split; cbn [Coins Duration Owner EndTime l1 set_Duration]; auto.
  - exact Rn.
  - rewrite A9, A8, A7. eapply AccOk_ext; [|exact A6]. intros d f _. rewrite (locked_update L id l l1 d f El). unfold add_at.
    cbn [Coins Duration l1 set_Duration]. rewrite Ec, amount_single.
    destruct (String.eqb (Denom c) d), (f (accumulationKey (Duration l))), (f (accumulationKey dur)); lia.
  - intros d. rewrite B9, X8, X7, X6, X5, X0, Bal, (msum_update _ L id l l1 El). cbn [Coins l1 set_Duration]. lia.
  - congruence.
Qed.

Lemma SetLockRewardReceiver_books id owner rcv k r k' L n : Books k L n -> uint64_ok id -> SetLockRewardReceiverAddress id owner rcv k = (Ok r, k') ->
  exists l, L !! id = Some l /\ Owner l = AccString owner /\
    Books k' (<[id := set_RewardReceiver l (if String.eqb (Owner l) rcv then DefaultOwnerReceiverPlaceholder else rcv)]> L) n.
Proof.
  intros Bk U H. unfold SetLockRewardReceiverAddress in H. apply mbind_ok_inv in H as (l & k0 & E0 & H). destruct Bk as [O LO Rn A Bal Pa].
  destruct (GetLockByID_ok _ _ _ _ _ _ _ O U E0) as [El ->]. destruct (LO id l El) as (Ei & Ri & Ok0). exists l.
  destruct (String.eqb_spec (Owner l) (AccString owner)) as [Eow|]; [|discriminate H]. cbn [negb] in H. cbv zeta in H.
  set (rcv' := if String.eqb (Owner l) rcv then _ else _) in *. destruct (String.eqb (RewardReceiverAddress l) rcv'); [discriminate H|].
  do 2 (split; [assumption|]). set (l1 := set_RewardReceiver l rcv') in *.
  destruct (setLock_ok _ l1 _ _ _ _ _ O ltac:(cbn; now rewrite Ei) H) as [O1 (A1 & Pm1 & X1)]. change (ID l1) with (ID l) in *. rewrite Ei in O1. split.
  - apply (refs_unchanged _ _ _ _ id l); auto.
  - apply (locks_ok_insert L n); auto; try lia. destruct Ok0. split; cbn [Coins Duration Owner EndTime l1 set_RewardReceiver]; auto.
  - exact Rn.
  - rewrite A1. eapply AccOk_ext; [|exact A]. intros d f _. rewrite (locked_update L id l l1 d f El). cbn [Coins Duration l1 set_RewardReceiver]. lia.
  - intros d. rewrite X1, Bal, (msum_update _ L id l l1 El). cbn [Coins l1 set_RewardReceiver]. lia.
  - congruence.
Qed.

End Ops.
