(* ===== verification/LockupIter.v ===== *)
(** * The iterators of [x/lockup]

    An iterator enumerates a range of reference keys.  For the ranges the
    module uses, the locks it yields are exactly those with the attributes that
    were asked for, each once ([exactly]). *)

From stdpp Require Import base gmap.
From Stdlib Require Import ZArith Lia List Bool String Sorted.
From S2P Require Import Prelude GoBig SdkMath Store SumTree SumTreeSet MapSum GoState PrefixStore SdkCoins Lockup.
From S2P Require Import LockupStore LockupAcc LockupBooks LockupOps.
Import ListNotations.
Open Scope Z_scope.

Section Ranges.
Context {P : PrefixEnd} {PS : PrefixEndSpec P}.

Definition below (hi : option bytes) (y : bytes) : bool := match hi with None => true | Some h => bltb y h end.

Lemma in_rng_below lo hi y : in_rng (Some lo) hi y = bleb lo y && below hi y.
Proof. reflexivity. Qed.

(** The end of a prefix is above what is smaller and what has the prefix. *)
Lemma below_end p y : Forall byte p -> Forall byte y -> below (PrefixEndBytes p) y = true <-> bltb y p = true \/ exists z, y = p ++ z.
Proof.
  intros Hp Hy. pose proof (PrefixEndBytes_range p y Hp Hy) as R. pose proof (PrefixEndBytes_range p p Hp Hp) as Rp.
  rewrite in_rng_below in R, Rp. assert (Pp : bleb p p && below (PrefixEndBytes p) p = true) by (apply Rp; exists []; now rewrite app_nil_r).
  apply andb_prop in Pp as [_ Pp]. destruct (bltb y p) eqn:L.
  - split; [auto|]. intros _. unfold below in *. destruct (PrefixEndBytes p) as [h|]; [|reflexivity]. apply bltb_spec in L, Pp. apply bltb_spec.
    eapply blt_trans; eauto.
  - assert (E : bleb p y = true). { apply bleb_spec. intros X. apply bltb_spec in X. congruence. }
    rewrite E in R. cbn [andb] in R. rewrite R. split; [auto|]. now intros [X | X].
Qed.

(** A range that ends with the prefix it starts in. *)
Lemma range_prefix p s x y : Forall byte (p ++ x) -> Forall byte y -> in_rng (Some (p ++ s)) (PrefixEndBytes (p ++ x)) y = true ->
  exists w, y = p ++ w /\ bleb s w = true.
Proof.
  intros Hp Hy R. rewrite in_rng_below in R. apply andb_prop in R as [R1 R2].
  assert (E : exists w, y = p ++ w).
  { apply below_end in R2 as [R2 | (z & ->)]; auto; [|exists (x ++ z); now rewrite app_assoc].
    apply (between_prefix p y x); [|exact R2]. apply bleb_spec. intros L. apply bleb_spec in R1. apply R1.
    apply bltb_spec. pose proof (bleb_prefix p s) as Ls. apply bleb_spec in Ls. apply bltb_spec.
    destruct (bcompare y (p ++ s)) eqn:Ec; [|exact Ec|].
    - apply bcompare_eq in Ec. subst y. contradiction.
    - exfalso. apply Ls. apply blt_trans with y; [|exact L]. unfold blt. rewrite bcompare_antisym, Ec. reflexivity. }
  destruct E as (w & ->). exists w. split; [reflexivity|]. now rewrite bleb_app in R1.
Qed.

End Ranges.

(** The locks a list holds: those of the map with a property, each once. *)
Definition exactly (ls : list PeriodLock) (L : lockmap) (P : PeriodLock -> bool) : Prop :=
  List.NoDup ls /\ forall l, In l ls <-> L !! ID l = Some l /\ P l = true.

Lemma exactly_sum ls : forall L P f, (forall id l, L !! id = Some l -> ID l = id) -> exactly ls L P ->
  zsum (map f ls) = msum (fun l => if P l then f l else 0) L.
Proof.
  induction ls as [|l ls IH]; intros L P f HI [N E].
  - symmetry. apply msum_zero. intros id l El. destruct (P l) eqn:Pl; [|reflexivity]. exfalso. apply (E l). rewrite (HI id l El). auto.
  - inversion N as [|? ? Nl N']; subst. destruct (proj1 (E l) (or_introl eq_refl)) as [El Pl].
    assert (X : exactly ls (base.delete (ID l) L) P).
    { split; [exact N'|]. intros l'. rewrite lookup_delete_Some. split.
      - intros I. destruct (proj1 (E l') (or_intror I)) as [E' P']. split; [|exact P']. split; [|exact E']. intros Ei. rewrite <- Ei, El in E'. congruence.
      - intros [[Ni E'] P']. destruct (proj2 (E l') (conj E' P')) as [-> | I]; [congruence | exact I]. }
    cbn [map]. change (zsum (f l :: map f ls)) with (f l + zsum (map f ls)). rewrite (IH _ P f) with (2 := X).
    + rewrite (msum_delete _ L (ID l) l El), Pl. lia.
    + intros id l' E'. apply lookup_delete_Some in E' as [_ E']. eauto.
Qed.

Lemma exactly_app l1 l2 L P1 P2 : exactly l1 L P1 -> exactly l2 L P2 -> (forall l, P1 l = true -> P2 l = true -> False) ->
  exactly (l1 ++ l2) L (fun l => P1 l || P2 l).
Proof.
  intros [N1 E1] [N2 E2] D. split.
  - apply List.NoDup_app; auto. intros x I1 I2. apply E1 in I1 as [_ I1]. apply E2 in I2 as [_ I2]. eauto.
  - intros l. rewrite in_app_iff, E1, E2, orb_true_iff. tauto.
Qed.

Section Iter.
Context {S : SdkMath} {SS : SdkMathSpec S} {B : BigEndian} {BS : BigEndianSpec B} {T : SdkText} {TS : SdkTextSpec T}
  {C : CoinsOps} {CS : CoinsSpec C} {P : PrefixEnd} {PS : PrefixEndSpec P} {LK : LockupKeepers} {V : LockupView LK} {LKS : LockupKeepersSpec LK}
  {KL : KVStore Stored} {KLS : KVStoreSpec KL} {KA : KVStore (list Child)} {KAS : KVStoreSpec KA} {LD : LockupDomain}.

Implicit Types k : @Keeper LK KL KA.

Lemma locks_at_ok it k L R n : StoreOk (lk_store k) L R n ->
  (forall y v, In (y, v) it -> exists id l, v = VId id /\ uint64_ok id /\ L !! id = Some l) ->
  exists ls, locks_at it k = (Ok ls, k) /\ Forall2 (fun kv l => exists id, snd kv = VId id /\ L !! id = Some l) it ls.
Proof.
  intros O. induction it as [|[y v] it IH]; intros H; [exists []; split; [reflexivity | constructor]|].
  destruct (H y v (or_introl eq_refl)) as (id & l & -> & U & El). destruct IH as (ls & E & F); [intros y' v' I; apply (H y' v'); now right|].
  exists (l :: ls). split; [|constructor; [exists id; auto | exact F]]. cbn [locks_at]. unfold mbind.
  rewrite (GetLockByID_some k id L R n l O U El), E. reflexivity.
Qed.

(** What a range of reference keys yields. *)
Lemma range_locks k L n lo hi (sel : PeriodLock -> bool) (kf : PeriodLock -> bytes) : Books k L n ->
  (forall y, Forall byte y -> in_rng lo hi y = true -> is_ref y) ->
  (forall id l a rk, L !! id = Some l -> AccAddressFromBech32 (Owner l) = Ok a -> In rk (refs a l) -> in_rng lo hi (ref_key (IsUnlocking l) rk id) = true ->
    Forall byte (ref_key (IsUnlocking l) rk id) -> sel l = true /\ ref_key (IsUnlocking l) rk id = kf l) ->
  (forall l a, L !! ID l = Some l -> AccAddressFromBech32 (Owner l) = Ok a -> sel l = true ->
    exists rk, In rk (refs a l) /\ kf l = ref_key (IsUnlocking l) rk (ID l) /\ (Forall byte (kf l) -> in_rng lo hi (kf l) = true)) ->
  exists ls, locks_at (st_iter (lk_store k) lo hi) k = (Ok ls, k) /\ exactly ls L sel.
Proof.
  intros Bk Hr H1 H2. pose proof (bk_store _ _ _ _ Bk) as O. pose proof (bk_locks _ _ _ _ Bk) as LO. set (it := st_iter (lk_store k) lo hi).
  assert (HE : forall y v, In (y, v) it -> exists id l, v = VId id /\ L !! id = Some l /\ sel l = true /\ y = kf l).
  { intros y v I. apply st_iter_in in I as [G R]. pose proof (so_bytes _ _ _ _ O y v G) as Hy.
    apply (so_refs _ _ _ _ O y v (Hr y Hy R)) in G as (id & -> & (l & a & rk & El & Ea & I & ->)).
    destruct (H1 id l a rk El Ea I R Hy). exists id, l. auto. }
  destruct (locks_at_ok it k L L n O) as (ls & E & F).
  { intros y v I. destruct (HE y v I) as (id & l & -> & El & _). exists id, l. split; [reflexivity|]. split; [|exact El]. exact (ids_range _ _ _ _ _ _ Bk El). }
  exists ls. split; [exact E|].
  assert (F' : Forall2 (fun kv l => fst kv = kf l /\ L !! ID l = Some l /\ sel l = true) it ls).
  { clear E. revert HE. generalize it F. clear it F. intros it F. induction F as [|[y v] l it ls (id & Ev & El) F IH]; intros HE; constructor.
    - destruct (HE y v (or_introl eq_refl)) as (id' & l' & Ev' & El' & Sl & Ey). cbn in Ev. rewrite Ev in Ev'. injection Ev' as <-.
      rewrite El in El'. injection El' as <-. destruct (LO id l El) as (Ei & _). rewrite Ei. auto.
    - apply IH. intros y' v' I. apply HE. now right. }
  split.
  - assert (Ek : map kf ls = map fst it) by (clear - F'; induction F' as [|? ? ? ? [Ex _] _ IH]; cbn; congruence).
    apply (NoDup_map_inv kf). rewrite Ek. pose proof (st_iter_sorted (lk_store k) lo hi) as Sd. fold it in Sd. clear - Sd.
    induction Sd as [|x it Sd IH Fx]; cbn; constructor; [|exact IH]. intros I. apply in_map_iff in I as (z & Ez & I).
    rewrite List.Forall_forall in Fx. specialize (Fx z I). unfold key_lt in Fx. rewrite Ez in Fx. exact (blt_irrefl _ Fx).
  - intros l. split.
    + assert (FL : List.Forall (fun l => L !! ID l = Some l /\ sel l = true) ls) by (clear - F'; induction F' as [|? ? ? ? [_ X] _ IH]; constructor; auto).
      rewrite List.Forall_forall in FL. apply FL.
    + intros [El Sl]. destruct (LO (ID l) l El) as (_ & _ & Ok0). destruct (lo_owner _ Ok0) as (a & Ea & _).
      destruct (H2 l a El Ea Sl) as (rk & I & Ey & R).
      assert (G : st_get (lk_store k) (kf l) = Some (VId (ID l))).
      { apply (so_refs _ _ _ _ O); [rewrite Ey; apply ref_key_is_ref|]. exists (ID l). split; [reflexivity|]. exists l, a, rk. auto. }
      assert (J : In (kf l, VId (ID l)) it) by (apply st_iter_in; split; [exact G | apply R; eapply so_bytes; eauto]).
      clear E. induction F as [|[y v] l0 it0 ls0 (id & Ev & El0) F0 IH]; [destruct J|]. inversion F' as [|? ? ? ? _ F0']; subst.
      destruct J as [J | J]; [|right; apply IH; auto; intros y' v' I'; apply HE; now right].
      left. injection J as _ ->. cbn in Ev. injection Ev as <-. congruence.
Qed.

(** ** The keys of a lock *)

Lemma refs_cases a l c rk : Coins l = [c] -> In rk (refs a l) ->
  let D := getDurationKey (Duration l) in let Tm := getTimeKey (EndTime l) in let m := string_bytes (Denom c) in
  rk = 7 :: 255 :: D \/ rk = 8 :: 255 :: a ++ 255 :: D \/ rk = 9 :: 255 :: m ++ 255 :: D \/ rk = 10 :: 255 :: a ++ 255 :: m ++ 255 :: D \/
  IsUnlocking l = true /\
    (rk = 11 :: 255 :: Tm \/ rk = 12 :: 255 :: a ++ 255 :: Tm \/ rk = 13 :: 255 :: m ++ 255 :: Tm \/ rk = 14 :: 255 :: a ++ 255 :: m ++ 255 :: Tm).
Proof.
  intros Ec I. unfold refs, duration_refs, time_refs in I. rewrite Ec in I. destruct (IsUnlocking l); cbn [flat_map app] in I;
    repeat (destruct I as [<- | I]; [cbn [combineKeys app]; tauto|]); destruct I.
Qed.

Lemma durationKey_app d : duration_ok d -> getDurationKey d = 6 :: 255 :: Uint64ToBigEndian d.
Proof.
  unfold duration_ok, getDurationKey, uint64. intros H. destruct (Z.ltb_spec d 0); [lia|]. rewrite Z.mod_small by lia. reflexivity.
Qed.

Lemma be_le n m x : uint64_ok n -> uint64_ok m -> bleb (Uint64ToBigEndian n) (Uint64ToBigEndian m ++ x) = (n <=? m).
Proof.
  intros N M. unfold bleb. rewrite <- (app_nil_r (Uint64ToBigEndian n)).
  rewrite bcompare_app_eq by (rewrite !Uint64ToBigEndian_length by assumption; reflexivity). rewrite be_order by assumption.
  unfold Z.leb. destruct (n ?= m); [destruct x|..]; reflexivity.
Qed.

Lemma duration_uint64 d : duration_ok d -> uint64_ok d.
Proof. unfold duration_ok, uint64_ok. lia. Qed.

Lemma durationKey_le d d' x : duration_ok d -> duration_ok d' -> bleb (255 :: getDurationKey d) (255 :: getDurationKey d' ++ x) = (d <=? d').
Proof.
  intros H H'. rewrite !durationKey_app by assumption. rewrite <- (be_le d d' x) by now apply duration_uint64. reflexivity.
Qed.

(** The separator ends the denomination. *)
Lemma denom_end (m m' : bytes) s x w : Forall (fun b => 0 <= b < 128) m -> Forall (fun b => 0 <= b < 128) m' -> m' ++ 255 :: x = m ++ w ->
  bleb (255 :: s) w = true -> m' = m /\ w = 255 :: x.
Proof.
  intros Fm. revert m'. induction Fm as [|b m Hb Fm IH]; intros m' Fm' E Le; destruct Fm' as [|b' m' Hb' Fm']; cbn [app] in E.
  - auto.
  - subst w. unfold bleb in Le. cbn [bcompare] in Le. destruct (Z.compare_spec 255 b'); [lia | lia | discriminate Le].
  - injection E as E _. lia.
  - injection E as -> E. destruct (IH m' Fm' E Le) as [-> ->]. auto.
Qed.

Lemma native_bytes d : native d -> Forall (fun b => 0 <= b < 128) (string_bytes d).
Proof. intros N. apply ValidateDenom_bytes, native_valid, N. Qed.

Definition has_denom (l : PeriodLock) (d : string) : bool := match Coins l with [c] => String.eqb (Denom c) d | _ => false end.

Definition state_byte (u : bool) : Z := if u then 4 else 3.

Lemma state_byte_inj u u' : state_byte u = state_byte u' -> u = u'.
Proof. now destruct u, u'. Qed.

Lemma range_is_ref u p s x y : Forall byte (state_byte u :: p ++ x) -> Forall byte y ->
  in_rng (Some (state_byte u :: p ++ s)) (PrefixEndBytes (state_byte u :: p ++ x)) y = true -> is_ref y.
Proof. intros Hp Hy R. destruct (range_prefix (state_byte u :: p) s x y Hp Hy R) as (w & -> & _). destruct u; cbn; auto. Qed.

(** ** Locks of a denomination with at least a duration *)

Definition longer_sel (u : bool) (denom : string) (dur : Z) (l : PeriodLock) : bool :=
  Bool.eqb (IsUnlocking l) u && has_denom l denom && (dur <=? Duration l).

Lemma longer_locks u denom dur k L n : Books k L n -> native denom -> duration_ok dur ->
  exists ls, getLocksFromIterator (LockIteratorLongerThanDurationDenom u denom dur) k = (Ok ls, k) /\ exactly ls L (longer_sel u denom dur).
Proof.
  intros Bk Nd Hd. set (m := string_bytes denom).
  assert (Ep : combineKeys [unlockingPrefix u; KeyPrefixDenomLockDuration; m] = state_byte u :: [255; 9; 255] ++ m) by now destruct u.
  assert (Es : combineKeys [combineKeys [unlockingPrefix u; KeyPrefixDenomLockDuration; m]; getDurationKey dur] =
    state_byte u :: ([255; 9; 255] ++ m) ++ 255 :: getDurationKey dur) by now rewrite Ep.
  pose proof (native_bytes denom Nd) as Fm. fold m in Fm.
  assert (Hp : Forall byte (state_byte u :: ([255; 9; 255] ++ m) ++ [])).
  { rewrite app_nil_r. constructor; [destruct u; unfold byte; cbn; lia|]. apply Forall_app. split; [repeat constructor; unfold byte; lia|]. apply string_bytes_byte. }
  unfold getLocksFromIterator, LockIteratorLongerThanDurationDenom, iteratorLongerDuration. fold m. rewrite Es, Ep.
  unfold mbind, get. replace (state_byte u :: [255; 9; 255] ++ m) with (state_byte u :: ([255; 9; 255] ++ m) ++ []) by now rewrite app_nil_r.
  apply (range_locks k L n _ _ _ (fun l => ref_key u (9 :: 255 :: m ++ 255 :: getDurationKey (Duration l)) (ID l)) Bk).
  - intros y Hy R. exact (range_is_ref u _ _ _ y Hp Hy R).
  - intros id l a rk El Ea I R Hy. destruct (bk_locks _ _ _ _ Bk id l El) as (Ei & _ & Ok0). destruct (lock_coin l Ok0) as (c & Ec & _ & _ & Nc).
    destruct (range_prefix (state_byte u :: ([255; 9; 255] ++ m)) _ _ _ Hp Hy R) as (w & Ew & Lw). pose proof (refs_cases a l c rk Ec I) as Cs. cbv zeta in Cs.
    rewrite ref_key_app in Ew. fold (state_byte (IsUnlocking l)) in Ew.
    destruct Cs as [-> | [-> | [-> | [-> | (_ & [-> | [-> | [-> | ->]]])]]]]; cbn [app] in Ew; try discriminate Ew.
    injection Ew as Eu Ew. apply state_byte_inj in Eu. rewrite <- app_assoc in Ew. cbn [app] in Ew.
    destruct (denom_end m (string_bytes (Denom c)) _ _ w Fm (native_bytes _ Nc) Ew Lw) as [Em ->]. pose proof (lo_duration _ Ok0) as Dl.
    rewrite durationKey_le in Lw by (try assumption; unfold duration_ok; lia). apply string_bytes_inj in Em. split.
    + unfold longer_sel, has_denom. rewrite Ec, Eu, eqb_reflx, Em, String.eqb_refl, Lw. reflexivity.
    + unfold m. now rewrite Eu, Em, Ei.
  - intros l a El Ea Sl. destruct (bk_locks _ _ _ _ Bk _ l El) as (_ & _ & Ok0). destruct (lock_coin l Ok0) as (c & Ec & _ & _ & Nc).
    unfold longer_sel, has_denom in Sl. rewrite Ec in Sl. apply andb_prop in Sl as [Sl Ld]. apply andb_prop in Sl as [Eu Em].
    apply eqb_prop in Eu. apply String.eqb_eq in Em. exists (9 :: 255 :: m ++ 255 :: getDurationKey (Duration l)). split; [|split].
    + unfold refs, duration_refs. rewrite Ec. unfold m. rewrite <- Em. destruct (IsUnlocking l); cbn [flat_map app]; right; right; left; reflexivity.
    + now rewrite Eu.
    + intros Hy. rewrite ref_key_app in Hy |- *. fold (state_byte u) in Hy |- *.
      assert (Ey : state_byte u :: 255 :: (9 :: 255 :: m ++ 255 :: getDurationKey (Duration l)) ++ 255 :: Uint64ToBigEndian (ID l) =
        (state_byte u :: [255; 9; 255] ++ m) ++ 255 :: getDurationKey (Duration l) ++ 255 :: Uint64ToBigEndian (ID l))
        by (cbn [app]; rewrite <- !app_assoc; reflexivity).
      rewrite Ey in Hy |- *. rewrite in_rng_below. apply andb_true_intro. split.
      * change (state_byte u :: ([255; 9; 255] ++ m) ++ 255 :: getDurationKey dur) with ((state_byte u :: [255; 9; 255] ++ m) ++ 255 :: getDurationKey dur).
        rewrite bleb_app, durationKey_le; auto. pose proof (lo_duration _ Ok0). unfold duration_ok. lia.
      * apply below_end; [exact Hp | exact Hy|]. right. rewrite app_nil_r. eexists. cbn [app]. reflexivity.
Qed.

(** ** Locks that have matured *)

Lemma timeKey_app t : uint64_ok t -> getTimeKey t = 5 :: Uint64ToBigEndian 29 ++ FormatTimeBytes t.
Proof. intros U. unfold getTimeKey. rewrite FormatTimeBytes_length by exact U. reflexivity. Qed.

Lemma timeKey_before t t' x : uint64_ok t -> uint64_ok t' ->
  (bltb (getTimeKey t' ++ x) (getTimeKey t) = true \/ exists z, getTimeKey t' ++ x = getTimeKey t ++ z) <-> t' <= t.
Proof.
  intros U U'. rewrite !timeKey_app by assumption. set (h := 5 :: Uint64ToBigEndian 29).
  change (5 :: Uint64ToBigEndian 29 ++ FormatTimeBytes t) with (h ++ FormatTimeBytes t).
  change (5 :: Uint64ToBigEndian 29 ++ FormatTimeBytes t') with (h ++ FormatTimeBytes t'). rewrite <- !app_assoc, bltb_app.
  assert (Ln : List.length (FormatTimeBytes t') = List.length (FormatTimeBytes t)) by (now rewrite !FormatTimeBytes_length).
  unfold bltb. rewrite <- (app_nil_r (FormatTimeBytes t)) at 1. rewrite bcompare_app_eq by exact Ln. rewrite (FormatTimeBytes_order t' t) by assumption. split.
  - intros [H | (z & H)].
    + destruct (Z.compare_spec t' t); [lia | lia | discriminate H].
    + rewrite <- app_assoc in H. apply app_inv_head in H. apply app_eq_length in H as [H _]; [|exact Ln].
      pose proof (FormatTimeBytes_order t' t U' U) as Co. rewrite H, bcompare_refl in Co. symmetry in Co. apply Z.compare_eq in Co. lia.
  - intros Le. destruct (Z.compare_spec t' t) as [-> | |]; [right; exists x; now rewrite <- app_assoc | now left | lia].
Qed.

Definition matured_sel (t : Z) (l : PeriodLock) : bool := IsUnlocking l && (EndTime l <=? t).

Lemma unlocking_end l : lock_ok l -> IsUnlocking l = true -> uint64_ok (EndTime l).
Proof.
  intros [_ _ _ [E | E]] H; [|exact E]. unfold IsUnlocking in H. rewrite E, Z.eqb_refl in H. discriminate H.
Qed.

Lemma matured_locks t k L n : Books k L n -> uint64_ok t ->
  exists ls, getLocksFromIterator (LockIteratorBeforeTime t) k = (Ok ls, k) /\ exactly ls L (matured_sel t).
Proof.
  intros Bk Ut. unfold getLocksFromIterator, LockIteratorBeforeTime, iteratorBeforeTime.
  change (combineKeys [unlockingPrefix true; KeyPrefixLockTimestamp]) with [4; 255; 11].
  change (combineKeys [ [4; 255; 11]; getTimeKey t]) with ([4; 255; 11] ++ 255 :: getTimeKey t). unfold mbind, get.
  change (Some [4; 255; 11]) with (Some ([4; 255; 11] ++ [])).
  assert (Hp : Forall byte ([4; 255; 11] ++ 255 :: getTimeKey t)).
  { do 4 (constructor; [unfold byte; lia|]). now apply timeKey_bytes. }
  apply (range_locks k L n _ _ _ (fun l => ref_key true (11 :: 255 :: getTimeKey (EndTime l)) (ID l)) Bk).
  - intros y Hy R. exact (range_is_ref true [255; 11] _ _ y Hp Hy R).
  - intros id l a rk El Ea I R Hy. destruct (bk_locks _ _ _ _ Bk id l El) as (Ei & _ & Ok0). destruct (lock_coin l Ok0) as (c & Ec & _ & _ & Nc).
    destruct (range_prefix [4; 255; 11] _ _ _ Hp Hy R) as (w & Ew & _). pose proof (refs_cases a l c rk Ec I) as Cs. cbv zeta in Cs.
    rewrite in_rng_below in R. apply andb_prop in R as [_ R]. apply below_end in R; [|exact Hp | exact Hy].
    rewrite ref_key_app in Ew, R. fold (state_byte (IsUnlocking l)) in Ew, R.
    destruct Cs as [-> | [-> | [-> | [-> | (Hu & [-> | [-> | [-> | ->]]])]]]]; cbn [app] in Ew, R; try discriminate Ew.
    rewrite Hu in R |- *. pose proof (unlocking_end l Ok0 Hu) as Ue. cbn [state_byte] in R.
    assert (Le : EndTime l <= t).
    { apply (timeKey_before t (EndTime l) (255 :: Uint64ToBigEndian id) Ut Ue). destruct R as [R | (z & R)]; [left; exact R | right; exists z; exact (f_equal (skipn 4) R)]. }
    split; [unfold matured_sel; rewrite Hu; now apply Z.leb_le | now rewrite Ei].
  - intros l a El Ea Sl. destruct (bk_locks _ _ _ _ Bk _ l El) as (_ & _ & Ok0). destruct (lock_coin l Ok0) as (c & Ec & _ & _ & Nc).
    unfold matured_sel in Sl. apply andb_prop in Sl as [Hu Le]. apply Z.leb_le in Le. pose proof (unlocking_end l Ok0 Hu) as Ue.
    exists (11 :: 255 :: getTimeKey (EndTime l)). split; [|split].
    + unfold refs, duration_refs, time_refs. rewrite Hu, Ec. cbn [flat_map app]. do 4 right. left. reflexivity.
    + now rewrite Hu.
    + intros Hy. rewrite in_rng_below. apply andb_true_intro. split; [rewrite ref_key_app; reflexivity|]. apply below_end; [exact Hp | exact Hy|].
      rewrite ref_key_app. cbn [app]. destruct (proj2 (timeKey_before t (EndTime l) (255 :: Uint64ToBigEndian (ID l)) Ut Ue) Le) as [R | (z & R)];
        [left; exact R | right; exists z; now rewrite R].
Qed.

(** ** Locks of an account *)

Lemma prefix_locks k L n p (sel : PeriodLock -> bool) (kf : PeriodLock -> bytes) : Books k L n -> is_ref p -> Forall byte p ->
  (forall id l a c rk z, L !! id = Some l -> lock_ok l -> AccAddressFromBech32 (Owner l) = Ok a -> account a -> Coins l = [c] -> ID l = id ->
    In rk (refs a l) -> state_byte (IsUnlocking l) :: 255 :: rk ++ 255 :: Uint64ToBigEndian id = p ++ z ->
    sel l = true /\ ref_key (IsUnlocking l) rk id = kf l) ->
  (forall l a, L !! ID l = Some l -> lock_ok l -> AccAddressFromBech32 (Owner l) = Ok a -> sel l = true ->
    exists rk z, In rk (refs a l) /\ kf l = ref_key (IsUnlocking l) rk (ID l) /\ kf l = p ++ z) ->
  exists ls, locks_at (st_iter (lk_store k) (Some p) (PrefixEndBytes p)) k = (Ok ls, k) /\ exactly ls L sel.
Proof.
  intros Bk Hr Hp H1 H2. apply (range_locks k L n _ _ sel kf Bk).
  - intros y Hy R. apply PrefixEndBytes_range in R as (z & ->); auto. destruct p; [destruct Hr | exact Hr].
  - intros id l a rk El Ea I R Hy. destruct (bk_locks _ _ _ _ Bk id l El) as (Ei & _ & Ok0). destruct (lock_coin l Ok0) as (c & Ec & _ & _ & Nc).
    destruct (lo_owner _ Ok0) as (a' & Ea' & _ & Aa). rewrite Ea in Ea'. apply Ok_inj in Ea' as <-.
    apply PrefixEndBytes_range in R as (z & Ez); auto. rewrite ref_key_app in Ez. eapply H1; eauto.
  - intros l a El Ea Sl. destruct (bk_locks _ _ _ _ Bk _ l El) as (_ & _ & Ok0). destruct (H2 l a El Ok0 Ea Sl) as (rk & z & I & Ek & Ez).
    exists rk. split; [exact I|]. split; [exact Ek|]. intros Hy. apply PrefixEndBytes_range; eauto.
Qed.

Definition owned_sel (addr : AccAddress) (l : PeriodLock) : bool := negb (IsUnlocking l) && String.eqb (Owner l) (AccString addr).
Definition joinable (addr : AccAddress) (denom : string) (dur : Z) (l : PeriodLock) : bool :=
  owned_sel addr l && has_denom l denom && (Duration l =? dur).

Lemma owned_iff s addr l a : AccAddressFromBech32 s = Ok addr -> lock_ok l -> AccAddressFromBech32 (Owner l) = Ok a ->
  String.eqb (Owner l) (AccString addr) = true <-> a = addr.
Proof.
  intros Es Ok0 Ea. rewrite String.eqb_eq. destruct (lo_owner _ Ok0) as (a' & Ea' & Eo & _). rewrite Ea in Ea'. apply Ok_inj in Ea' as <-. split.
  - intros E. rewrite E, (Bech32_String s addr Es) in Ea. now apply Ok_inj in Ea.
  - now intros <-.
Qed.

Lemma account_locks s addr k L n : Books k L n -> AccAddressFromBech32 s = Ok addr -> account addr ->
  exists ls, getLocksFromIterator (AccountLockIterator false addr) k = (Ok ls, k) /\ exactly ls L (owned_sel addr).
Proof.
  intros Bk Es Aa. unfold getLocksFromIterator, AccountLockIterator, iterator.
  change (combineKeys [unlockingPrefix false; KeyPrefixAccountLockDuration; addr]) with ([3; 255; 8; 255] ++ addr). unfold mbind, get.
  apply (prefix_locks k L n _ _ (fun l => ref_key false (8 :: 255 :: addr ++ 255 :: getDurationKey (Duration l)) (ID l)) Bk).
  - cbn. auto.
  - apply Forall_app. split; [repeat constructor; unfold byte; lia | eapply Bech32_bytes; eauto].
  - intros id l a c rk z El Ok0 Ea Ac Ec Ei I E. pose proof (refs_cases a l c rk Ec I) as Cs. cbv zeta in Cs.
    destruct Cs as [-> | [-> | [-> | [-> | (_ & [-> | [-> | [-> | ->]]])]]]]; cbn [app] in E; try discriminate E.
    injection E as Eu E. apply (state_byte_inj (IsUnlocking l) false) in Eu. rewrite <- app_assoc in E. apply account_free in E as ->; auto.
    split; [|now rewrite Eu, Ei]. unfold owned_sel. rewrite Eu. cbn [negb andb]. now apply (owned_iff s addr l addr).
  - intros l a El Ok0 Ea Sl. unfold owned_sel in Sl. apply andb_prop in Sl as [Hu So]. apply (owned_iff s addr l a Es Ok0 Ea) in So as ->.
    apply negb_true_iff in Hu. exists (8 :: 255 :: addr ++ 255 :: getDurationKey (Duration l)). eexists. split; [|split].
    + unfold refs, duration_refs. rewrite Hu. cbn [app]. right. left. reflexivity.
    + now rewrite Hu.
    + rewrite ref_key_app. cbn [app]. rewrite <- app_assoc. reflexivity.
Qed.

Lemma joinable_locks s addr denom dur k L n : Books k L n -> AccAddressFromBech32 s = Ok addr -> account addr -> native denom -> duration_ok dur ->
  exists ls, GetAccountLockedDurationNotUnlockingOnly addr denom dur k = (Ok ls, k) /\ exactly ls L (joinable addr denom dur).
Proof.
  intros Bk Es Aa Nd Hd. set (m := string_bytes denom). pose proof (native_bytes denom Nd) as Fm. fold m in Fm.
  unfold GetAccountLockedDurationNotUnlockingOnly, getLocksFromIterator, AccountLockIteratorDurationDenom, iteratorDuration. fold m.
  assert (Ep : combineKeys [combineKeys [unlockingPrefix false; KeyPrefixAccountDenomLockDuration; addr; m]; getDurationKey dur] =
    [3; 255; 10; 255] ++ addr ++ 255 :: m ++ 255 :: getDurationKey dur).
  { cbn [combineKeys app unlockingPrefix KeyPrefixNotUnlocking KeyPrefixAccountDenomLockDuration KeyIndexSeparator]. rewrite <- !app_assoc. reflexivity. }
  rewrite Ep. unfold mbind, get.
  apply (prefix_locks k L n _ _ (fun l => ref_key false (10 :: 255 :: addr ++ 255 :: m ++ 255 :: getDurationKey (Duration l)) (ID l)) Bk).
  - cbn. auto.
  - apply Forall_app. split; [repeat constructor; unfold byte; lia|]. apply Forall_app. split; [eapply Bech32_bytes; eauto|].
    constructor; [unfold byte; lia|]. apply Forall_app. split; [apply string_bytes_byte|]. constructor; [unfold byte; lia | apply durationKey_bytes].
  - intros id l a c rk z El Ok0 Ea Ac Ec Ei I E. pose proof (refs_cases a l c rk Ec I) as Cs. cbv zeta in Cs. destruct (lock_coin l Ok0) as (c' & Ec' & _ & _ & Nc).
    rewrite Ec in Ec'. injection Ec' as <-.
    destruct Cs as [-> | [-> | [-> | [-> | (_ & [-> | [-> | [-> | ->]]])]]]]; cbn [app] in E; try discriminate E.
    injection E as Eu E. apply (state_byte_inj (IsUnlocking l) false) in Eu. rewrite <- !app_assoc in E.
    pose proof (account_free _ _ _ _ Ac Aa E) as ->. apply app_inv_head in E. cbn [app] in E. injection E as E. rewrite <- !app_assoc in E. cbn [app] in E.
    destruct (denom_end m (string_bytes (Denom c)) [] _ _ Fm (native_bytes _ Nc) E ltac:(reflexivity)) as [Em E2]. apply string_bytes_inj in Em.
    pose proof (lo_duration _ Ok0) as Dl. rewrite !durationKey_app in E2 by (try assumption; unfold duration_ok; lia).
    injection E2 as E2. apply app_eq_length in E2 as [E2 _]; [|rewrite !Uint64ToBigEndian_length by (unfold duration_ok in *; lia); reflexivity].
    apply be_inj in E2; [|unfold uint64_ok, duration_ok in *; lia..]. split; [|now rewrite Eu, Ei; unfold m; rewrite Em].
    unfold joinable, owned_sel, has_denom. rewrite Eu, Ec, Em, String.eqb_refl, E2, Z.eqb_refl. rewrite (proj2 (owned_iff s addr l addr Es Ok0 Ea) eq_refl). reflexivity.
  - intros l a El Ok0 Ea Sl. destruct (lock_coin l Ok0) as (c & Ec & _ & _ & Nc). unfold joinable, owned_sel, has_denom in Sl. rewrite Ec in Sl.
    apply andb_prop in Sl as [Sl Ed]. apply andb_prop in Sl as [Sl Em]. apply andb_prop in Sl as [Hu So]. apply (owned_iff s addr l a Es Ok0 Ea) in So as ->.
    apply negb_true_iff in Hu. apply String.eqb_eq in Em. apply Z.eqb_eq in Ed.
    exists (10 :: 255 :: addr ++ 255 :: m ++ 255 :: getDurationKey (Duration l)). eexists. split; [|split].
    + unfold refs, duration_refs. rewrite Hu, Ec. unfold m. rewrite <- Em. cbn [flat_map app]. do 3 right. left. reflexivity.
    + now rewrite Hu.
    + rewrite ref_key_app, Ed. cbn [app]. rewrite <- !app_assoc. cbn [app]. rewrite <- !app_assoc. reflexivity.
Qed.

End Iter.
