(* ===== verification/LockupCorrect.v ===== *)
(** * What [x/lockup] promises

    The module is specified by maps of locks: [spec_msg] says what each message
    makes of the map, and the end of a block removes the locks that have
    matured.  A run of the module refines this specification, the books being
    exact in every state. *)

From stdpp Require Import base gmap.
From Stdlib Require Import ZArith Lia List Bool String Sorted.
From S2P Require Import Prelude GoBig SdkMath Store SumTree SumTreeSet MapSum GoState PrefixStore SdkCoins Lockup.
From S2P Require Import LockupStore LockupAcc LockupBooks LockupOps LockupIter.
Import ListNotations.
Open Scope Z_scope.

(** ** Messages *)

Inductive Msg : Type :=
| MsgLockTokens (owner : string) (duration : Z) (coins : list Coin)
| MsgBeginUnlocking (owner : string) (id : Z) (coins : list Coin)
| MsgBeginUnlockingAll (owner : string)
| MsgExtend (owner : string) (id duration : Z)
| MsgForce (owner : string) (id : Z) (coins : list Coin)
| MsgSetRewardReceiver (owner receiver : string) (id : Z).

Section Messages.
Context {S : SdkMath} {B : BigEndian} {T : SdkText} {C : CoinsOps} {P : PrefixEnd} {LK : LockupKeepers} {KL : KVStore Stored} {KA : KVStore (list Child)}.

Definition ValidateBasic (m : Msg) : bool :=
  match m with
  | MsgLockTokens owner duration coins => MsgLockTokens_ValidateBasic owner duration coins
  | MsgBeginUnlocking owner id coins => MsgBeginUnlocking_ValidateBasic owner id coins
  | MsgBeginUnlockingAll owner => valid_address owner
  | MsgExtend owner id duration => MsgExtendLockup_ValidateBasic owner id duration
  | MsgForce owner id coins => MsgForceUnlock_ValidateBasic owner id coins
  | MsgSetRewardReceiver owner receiver id => MsgSetRewardReceiverAddress_ValidateBasic owner receiver id
  end.

Definition handle (ctx : Ctx) (m : Msg) : M (@Keeper LK KL KA) unit :=
  match m with
  | MsgLockTokens owner duration coins => LockTokens owner duration coins ~;; ret tt
  | MsgBeginUnlocking owner id coins => BeginUnlocking ctx owner id coins ~;; ret tt
  | MsgBeginUnlockingAll owner => BeginUnlockingAll ctx owner
  | MsgExtend owner id duration => MsgExtendLockup owner id duration
  | MsgForce owner id coins => MsgForceUnlock ctx owner id coins
  | MsgSetRewardReceiver owner receiver id => SetRewardReceiverAddress owner receiver id
  end.

(** The values fit the types of the fields. *)
Definition msg_typed (m : Msg) : Prop :=
  match m with
  | MsgLockTokens _ duration _ => duration < 2 ^ 63
  | MsgBeginUnlocking _ id _ | MsgForce _ id _ | MsgSetRewardReceiver _ _ id => uint64_ok id
  | MsgBeginUnlockingAll _ => True
  | MsgExtend _ id duration => uint64_ok id /\ duration < 2 ^ 63
  end.

End Messages.

(** ** The specification *)

Section Spec.
Context {B : BigEndian} {T : SdkText} {C : CoinsOps} {LK : LockupKeepers} {V : LockupView LK} {LD : LockupDomain}.

(** The owner and the denominations of a message are of the domain. *)
Definition msg_domain (m : Msg) : Prop :=
  let known s := forall a, AccAddressFromBech32 s = Ok a -> account a in
  match m with
  | MsgLockTokens owner _ coins => known owner /\ List.Forall (fun c => native (Denom c)) coins
  | MsgBeginUnlocking owner _ _ | MsgBeginUnlockingAll owner | MsgExtend owner _ _ | MsgForce owner _ _ | MsgSetRewardReceiver owner _ _ => known owner
  end.

Definition start_all (t : Z) (addr : AccAddress) (L : lockmap) : lockmap :=
  (fun l => if owned_sel addr l then set_EndTime l (t + Duration l) else l) <$> L.

(** What a message makes of the locks at a time. *)
Inductive spec_msg (t : Z) : Msg -> lockmap -> Z -> lockmap -> Z -> Prop :=
| spec_create s owner dur c L n : AccAddressFromBech32 s = Ok owner ->
    (forall id l, L !! id = Some l -> joinable owner (Denom c) dur l = false) ->
    spec_msg t (MsgLockTokens s dur [c]) L n (<[n + 1 := new_lock (n + 1) owner c dur]> L) (n + 1)
| spec_join s owner dur c L n id l e : AccAddressFromBech32 s = Ok owner -> L !! id = Some l -> joinable owner (Denom c) dur l = true -> Coins l = [e] ->
    spec_msg t (MsgLockTokens s dur [c]) L n (<[id := with_amount l e (Amount e + Amount c)]> L) n
| spec_begin s id cs L n r L' n' l : L !! id = Some l -> Owner l = s -> begin_unlock t id cs L n r L' n' ->
    spec_msg t (MsgBeginUnlocking s id cs) L n L' n'
| spec_begin_all s owner L n : AccAddressFromBech32 s = Ok owner -> spec_msg t (MsgBeginUnlockingAll s) L n (start_all t owner L) n
| spec_extend s owner id dur L n l : AccAddressFromBech32 s = Ok owner -> L !! id = Some l -> Owner l = AccString owner -> IsUnlocking l = false ->
    Duration l < dur -> spec_msg t (MsgExtend s id dur) L n (<[id := set_Duration l dur]> L) n
| spec_force s id cs L n L' n' l : L !! id = Some l -> Owner l = s -> In s force_allowed -> force_unlock id cs L n L' n' ->
    spec_msg t (MsgForce s id cs) L n L' n'
| spec_receiver s owner r rcv id L n l : AccAddressFromBech32 s = Ok owner -> AccAddressFromBech32 r = Ok rcv -> L !! id = Some l -> Owner l = AccString owner ->
    spec_msg t (MsgSetRewardReceiver s r id) L n
      (<[id := set_RewardReceiver l (if String.eqb (Owner l) (AccString rcv) then DefaultOwnerReceiverPlaceholder else AccString rcv)]> L) n.

End Spec.

Section Correct.
Context {S : SdkMath} {SS : SdkMathSpec S} {B : BigEndian} {BS : BigEndianSpec B} {T : SdkText} {TS : SdkTextSpec T}
  {C : CoinsOps} {CS : CoinsSpec C} {P : PrefixEnd} {PS : PrefixEndSpec P} {LK : LockupKeepers} {V : LockupView LK} {LKS : LockupKeepersSpec LK}
  {KL : KVStore Stored} {KLS : KVStoreSpec KL} {KA : KVStore (list Child)} {KAS : KVStoreSpec KA} {LD : LockupDomain}.

Implicit Types k : @Keeper LK KL KA.

(** ** Messages refine the specification *)

Lemma lock_refines t s dur cs k k' L n : Books k L n -> ValidateBasic (MsgLockTokens s dur cs) = true -> msg_typed (MsgLockTokens s dur cs) ->
  msg_domain (MsgLockTokens s dur cs) -> n + 1 < 2 ^ 64 -> handle t (MsgLockTokens s dur cs) k = (Ok tt, k') ->
  exists L' n', spec_msg (BlockTime t) (MsgLockTokens s dur cs) L n L' n' /\ Books k' L' n'.
Proof.
  intros Bk Vb Ty [Ka Nc] Hn H. cbn [ValidateBasic msg_typed handle] in *. unfold MsgLockTokens_ValidateBasic in Vb.
  apply andb_prop in Vb as [Vb Pos]. apply andb_prop in Vb as [Vb One]. apply andb_prop in Vb as [_ Dp]. apply Z.ltb_lt in Dp.
  destruct cs as [|c [|]]; try discriminate One. apply Coins_IsAllPositive_spec in Pos as [_ Pos]. inversion Pos as [|? ? Pc _]; subst.
  inversion Nc as [|? ? Nd _]; subst. apply mbind_ok_inv in H as (r & k1 & H & E). apply ret_ok_inv in E as [_ <-]. unfold LockTokens in H.
  apply mbind_ok_inv in H as (a & k0 & Ea & H). apply lift_ok_inv in Ea as [Ea <-]. pose proof (Ka a Ea) as Aa.
  destruct (joinable_locks s a (Denom c) dur k L n Bk Ea Aa Nd ltac:(unfold duration_ok; lia)) as (ls & El & Nl & Ex).
  assert (Hl : HasLock a (Denom c) dur k = (Ok (match ls with [] => false | _ => true end), k)) by (unfold HasLock, mbind; now rewrite El).
  apply mbind_ok_inv in H as (hl & k2 & E2 & H). rewrite Hl in E2. injection E2 as <- <-. destruct ls as [|l ls].
  - apply mbind_ok_inv in H as (l & k2 & E2 & H).
    apply ret_ok_inv in H as [_ <-]. destruct (CreateLock_books s a c dur k l k2 L n Bk Ea Aa Pc Nd ltac:(lia) Hn E2) as [-> Bk'].
    eexists _, (n + 1). split; [|exact Bk']. apply spec_create; [exact Ea|]. intros id l El'. destruct (joinable a (Denom c) dur l) eqn:J; [|reflexivity].
    exfalso. apply (Ex l). destruct (bk_locks _ _ _ _ Bk id l El') as (-> & _). auto.
  - unfold AddToExistingLock in H. apply mbind_ok_inv in H as (ls' & k2 & E2 & H). rewrite El in E2. injection E2 as <- <-.
    destruct (proj1 (Ex l) (or_introl eq_refl)) as [Ei J]. destruct (bk_locks _ _ _ _ Bk _ l Ei) as (_ & _ & Ok0). destruct (lock_coin l Ok0) as (e & Ee & _).
    assert (De : Denom c = Denom e).
    { unfold joinable, has_denom in J. rewrite Ee in J. apply andb_prop in J as [J _]. apply andb_prop in J as [_ J]. apply String.eqb_eq in J. congruence. }
    apply mbind_ok_inv in H as (l' & k2 & E2 & H). apply ret_ok_inv in H as [_ <-].
    destruct (AddTokens_books s (ID l) a l e c k l' k2 L n Bk Ea Aa Ei Ee De Pc E2) as (_ & -> & Bk').
    eexists _, n. split; [|exact Bk']. eapply spec_join; eauto.
Qed.

(** Starting to unlock one lock after the other. *)
Definition starts (t : Z) (ls : list PeriodLock) (L : lockmap) : lockmap := fold_left (fun L l => <[ID l := set_EndTime l (t + Duration l)]> L) ls L.

Lemma starts_other t ls id : forall L, (forall l, In l ls -> ID l <> id) -> starts t ls L !! id = L !! id.
Proof.
  induction ls as [|l ls IH]; intros L H; [reflexivity|]. cbn [starts fold_left]. fold (starts t ls (<[ID l := set_EndTime l (t + Duration l)]> L)).
  rewrite IH; [apply lookup_insert_ne, H; now left | intros l' I; apply H; now right].
Qed.

Lemma starts_member t l ls : forall L, In l ls -> (forall l', In l' ls -> ID l' = ID l -> l' = l) ->
  starts t ls L !! ID l = Some (set_EndTime l (t + Duration l)).
Proof.
  induction ls as [|l0 ls IH]; intros L I H; [destruct I|]. cbn [starts fold_left]. fold (starts t ls (<[ID l0 := set_EndTime l0 (t + Duration l0)]> L)).
  destruct (existsb (fun l' => ID l' =? ID l) ls) eqn:Ex.
  - apply existsb_exists in Ex as (l' & I' & E'). apply Z.eqb_eq in E'. pose proof (H l' (or_intror I') E') as ->.
    apply IH; [exact I' | intros l' I2; apply H; now right].
  - assert (N : forall l', In l' ls -> ID l' <> ID l).
    { intros l' I' E'. enough (existsb (fun l' => ID l' =? ID l) ls = true) by congruence. apply existsb_exists. exists l'. split; [exact I' | now apply Z.eqb_eq]. }
    rewrite starts_other by exact N. destruct I as [-> | I]; [apply lookup_insert_eq | exfalso; now apply (N l I)].
Qed.

Lemma starts_all t addr ls L : (forall id l, L !! id = Some l -> ID l = id) -> exactly ls L (owned_sel addr) -> starts t ls L = start_all t addr L.
Proof.
  intros HI [_ Ex]. apply map_eq. intros id. unfold start_all. rewrite lookup_fmap. destruct (L !! id) as [l|] eqn:El; cbn.
  - pose proof (HI id l El) as <-. destruct (owned_sel addr l) eqn:So.
    + apply starts_member; [now apply Ex|]. intros l' I E. apply Ex in I as [El' _]. rewrite E, El in El'. congruence.
    + rewrite starts_other; [exact El|]. intros l' I E. apply Ex in I as [El' So']. rewrite E, El in El'. congruence.
  - rewrite starts_other; [exact El|]. intros l' I E. apply Ex in I as [El' _]. rewrite E, El in El'. discriminate.
Qed.

Lemma start_steps ctx ls : forall k k' r L n, Books k L n -> block_ok ctx -> n + 1 < 2 ^ 64 -> List.NoDup ls -> (forall l, In l ls -> L !! ID l = Some l) ->
  for_each ls (fun l => BeginUnlock ctx (ID l) [] ~;; ret tt) k = (Ok r, k') -> Books k' (starts (BlockTime ctx) ls L) n.
Proof.
  induction ls as [|l ls IH]; intros k k' r L n Bk Hb Hn Nd Hl H; cbn [for_each] in H.
  - apply ret_ok_inv in H as [_ <-]. exact Bk.
  - inversion Nd as [|? ? Nl Nd']; subst. pose proof (Hl l (or_introl eq_refl)) as El. apply mbind_ok_inv in H as (u & k1 & E1 & H).
    apply mbind_ok_inv in E1 as (i & k2 & E1 & E2). apply ret_ok_inv in E2 as [_ <-].
    destruct (BeginUnlock_books ctx (ID l) [] k i k2 L n Bk (ids_range _ _ _ _ _ _ Bk El) Hb ltac:(split; constructor) Hn E1) as (L1 & n1 & Bg & Bk1).
    inversion Bg as [l' El' Nu _ Ei EL En | l' c e El' Nu Ec Ecs]; subst; [|discriminate Ecs]. rewrite El in El'. injection El' as <-.
    refine (IH k2 k' r _ n1 Bk1 Hb Hn Nd' _ H). intros l' I. rewrite lookup_insert_ne; [apply Hl; now right|].
    intros X. pose proof (Hl l' (or_intror I)) as El'. rewrite <- X, El in El'. congruence.
Qed.

(** A message that succeeds does to the locks what the specification says. *)
Definition refines_spec (m : Msg) : Prop := forall ctx k k' L n, Books k L n -> block_ok ctx -> ValidateBasic m = true -> msg_typed m -> msg_domain m ->
  n + 1 < 2 ^ 64 -> handle ctx m k = (Ok tt, k') -> exists L' n', spec_msg (BlockTime ctx) m L n L' n' /\ Books k' L' n'.

Lemma begin_refines s id cs : refines_spec (MsgBeginUnlocking s id cs).
Proof.
  intros ctx k k' L n Bk Hb Vb Ty Dm Hn H.
  cbn [ValidateBasic msg_typed handle] in *. unfold MsgBeginUnlocking_ValidateBasic in Vb. apply andb_prop in Vb as [_ Vc].
  assert (Rq : request_ok cs).
  { destruct cs as [|c [|]]; try discriminate Vc; [split; constructor|]. apply Coins_IsAllPositive_spec in Vc as [_ Fc].
    split; [exact Fc | repeat constructor]. }
  apply mbind_ok_inv in H as (r & k1 & H & E). apply ret_ok_inv in E as [_ <-]. unfold BeginUnlocking in H.
  apply mbind_ok_inv in H as (l & k0 & E0 & H). destruct (GetLockByID_ok _ _ _ _ _ _ _ (bk_store _ _ _ _ Bk) Ty E0) as [El ->].
  destruct (String.eqb_spec s (Owner l)) as [Eo|]; [|discriminate H]. cbn [negb] in H. destruct (bk_locks _ _ _ _ Bk id l El) as (Ei & _). rewrite Ei in H.
  destruct (BeginUnlock_books ctx id cs k r k1 L n Bk Ty Hb Rq Hn H) as (L' & n' & Sp & Bk'). exists L', n'. split; [eapply spec_begin; eauto | exact Bk'].
Qed.

Lemma begin_all_refines s : refines_spec (MsgBeginUnlockingAll s).
Proof.
  intros ctx k k' L n Bk Hb Vb Ty Dm Hn H.
  cbn [ValidateBasic handle] in *. unfold BeginUnlockingAll in H. apply mbind_ok_inv in H as (a & k0 & Ea & H). apply lift_ok_inv in Ea as [Ea <-].
  apply mbind_ok_inv in H as (un & k1 & E1 & H). apply mbind_ok_inv in H as (cs & k2 & E2 & H). apply lift_ok_inv in E2 as [_ <-].
  assert (k' = k1) as ->.
  { clear - H. revert k1 H. induction un as [|l un IH]; intros k1 H; cbn [for_each] in H; [now apply ret_ok_inv in H as [_ <-]|].
    apply mbind_ok_inv in H as (u & k2 & E & H). apply lift_ok_inv in E as [_ <-]. now apply IH. }
  unfold BeginUnlockAllNotUnlockings, beginUnlockFromIterator in E1. apply mbind_ok_inv in E1 as (ls & k0 & E0 & E1).
  destruct (account_locks s a k L n Bk Ea (Dm a Ea)) as (ls' & El & Ex). rewrite El in E0. injection E0 as <- <-.
  apply mbind_ok_inv in E1 as (u & k2 & E2 & E3). apply ret_ok_inv in E3 as [_ <-].
  pose proof (start_steps ctx ls' k k2 u L n Bk Hb Hn (proj1 Ex) ltac:(intros l I; now apply Ex) E2) as Bk'.
  rewrite (starts_all _ a ls' L) in Bk'; [|intros id l E; apply (bk_locks _ _ _ _ Bk id l E) | exact Ex].
  exists (start_all (BlockTime ctx) a L), n. split; [now apply spec_begin_all | exact Bk'].
Qed.

Lemma extend_refines s id dur : refines_spec (MsgExtend s id dur).
Proof.
  intros ctx k k' L n Bk Hb Vb Ty Dm Hn H.
  cbn [ValidateBasic msg_typed handle] in *. unfold MsgExtendLockup_ValidateBasic in Vb. apply andb_prop in Vb as [_ Dp]. apply Z.ltb_lt in Dp. destruct Ty as [Ui Ud].
  unfold MsgExtendLockup in H. apply mbind_ok_inv in H as (a & k0 & Ea & H). apply lift_ok_inv in Ea as [Ea <-].
  apply mbind_ok_inv in H as (u & k1 & E1 & H). apply mbind_ok_inv in H as (l1 & k2 & E2 & H). apply ret_ok_inv in H as [_ <-].
  destruct (ExtendLockup_books id a dur k u k1 L n Bk Ui ltac:(lia) E1) as (l & El & Eo & Nu & Lt & Bk').
  destruct (GetLockByID_ok _ _ _ _ _ _ _ (bk_store _ _ _ _ Bk') Ui E2) as [_ ->]. eexists _, n. split; [eapply spec_extend; eauto | exact Bk'].
Qed.

Lemma force_refines s id cs : refines_spec (MsgForce s id cs).
Proof.
  intros ctx k k' L n Bk Hb Vb Ty Dm Hn H.
  cbn [ValidateBasic msg_typed handle] in *. unfold MsgForceUnlock_ValidateBasic in Vb. apply andb_prop in Vb as [_ Vc]. apply Coins_IsValid_spec in Vc as [Sc Fc].
  assert (Rq : request_ok cs) by (split; [eapply Forall_impl; [|exact Fc]; now intros c [? _] | exact Sc]).
  unfold MsgForceUnlock in H. apply mbind_ok_inv in H as (l & k0 & E0 & H). destruct (GetLockByID_ok _ _ _ _ _ _ _ (bk_store _ _ _ _ Bk) Ty E0) as [El ->].
  destruct (String.eqb_spec (Owner l) s) as [Eo|]; [|discriminate H]. cbn [negb] in H. apply mbind_ok_inv in H as (k1 & k2 & E1 & H). injection E1 as <- <-.
  destruct (existsb _ (lk_params k)) eqn:Al; [|discriminate H]. cbn [negb] in H. apply mbind_ok_inv in H as ([sy fd] & k1 & E1 & H).
  destruct (bk_locks _ _ _ _ Bk id l El) as (Ei & _). rewrite Ei in E1. destruct (no_synthetic_found k L L n id (bk_store _ _ _ _ Bk) Ty) as [NS _].
  rewrite NS in E1. injection E1 as <- <- <-. change (negb (IsNil no_synthetic)) with false in H. cbv iota in H.
  destruct (PartialForceUnlock_books ctx id l cs k tt k' L n Bk El Hb Rq Hn H) as (L' & n' & Sp & Bk'). exists L', n'. split; [|exact Bk'].
  eapply spec_force; eauto. rewrite (bk_params _ _ _ _ Bk) in Al. apply existsb_exists in Al as (x & I & E). apply andb_prop in E as [_ E].
  apply String.eqb_eq in E as <-. exact I.
Qed.

Lemma receiver_refines s r id : refines_spec (MsgSetRewardReceiver s r id).
Proof.
  intros ctx k k' L n Bk Hb Vb Ty Dm Hn H.
  cbn [ValidateBasic msg_typed handle] in *. unfold SetRewardReceiverAddress in H. apply mbind_ok_inv in H as (a & k0 & Ea & H). apply lift_ok_inv in Ea as [Ea <-].
  apply mbind_ok_inv in H as (rc & k0 & Er & H). apply lift_ok_inv in Er as [Er <-].
  destruct (SetLockRewardReceiver_books id a _ k _ k' L n Bk Ty H) as (l & El & Eo & Bk'). eexists _, n. split; [eapply spec_receiver; eauto | exact Bk'].
Qed.

Lemma handle_refines m : refines_spec m.
Proof.
  destruct m; [|apply begin_refines | apply begin_all_refines | apply extend_refines | apply force_refines | apply receiver_refines].
  intros ctx k k' L n Bk Hb. now apply lock_refines.
Qed.

(** ** The end of a block *)

Definition owner_of (l : PeriodLock) : AccAddress := match AccAddressFromBech32 (Owner l) with Ok a => a | _ => [] end.

Definition removes (ls : list PeriodLock) (L : lockmap) : lockmap := fold_left (fun L l => base.delete (ID l) L) ls L.
Definition paid (ls : list PeriodLock) (b : AccAddress) (d : string) : Z := zsum (map (fun l => released l (owner_of l) b d) ls).

Definition unmatured (t : Z) (L : lockmap) : lockmap := base.filter (fun x => matured_sel t (snd x) = false) L.
Definition payout (t : Z) (L : lockmap) (b : AccAddress) (d : string) : Z :=
  msum (fun l => if matured_sel t l then released l (owner_of l) b d else 0) L.

Lemma removes_lookup ls id : forall L, removes ls L !! id = if existsb (fun l => ID l =? id) ls then None else L !! id.
Proof.
  induction ls as [|l ls IH]; intros L; [reflexivity|]. cbn [removes fold_left existsb]. fold (removes ls (base.delete (ID l) L)). rewrite IH.
  destruct (Z.eqb_spec (ID l) id) as [<- |]; cbn [orb]; [rewrite lookup_delete_eq; now destruct (existsb _ ls) | now rewrite lookup_delete_ne].
Qed.

Lemma removes_unmatured t ls L : (forall id l, L !! id = Some l -> ID l = id) -> exactly ls L (matured_sel t) -> removes ls L = unmatured t L.
Proof.
  intros HI [_ Ex]. apply map_eq. intros id. rewrite removes_lookup. unfold unmatured. destruct (existsb _ ls) eqn:E.
  - apply existsb_exists in E as (l & I & Ei). apply Z.eqb_eq in Ei as <-. apply Ex in I as [El M]. symmetry. apply map_lookup_filter_None. right.
    intros x Ex'. rewrite El in Ex'. injection Ex' as <-. cbn. congruence.
  - destruct (L !! id) as [l|] eqn:El; symmetry.
    + apply map_lookup_filter_Some. split; [exact El|]. cbn. destruct (matured_sel t l) eqn:M; [|reflexivity]. exfalso.
      pose proof (HI id l El) as <-. enough (existsb (fun l' => ID l' =? ID l) ls = true) by congruence. apply existsb_exists. exists l.
      split; [now apply Ex | apply Z.eqb_refl].
    + apply map_lookup_filter_None. now left.
Qed.

Lemma lock_remains (L : lockmap) l l' ls : List.NoDup (l :: ls) -> (forall x, In x (l :: ls) -> L !! ID x = Some x) -> In l' ls -> base.delete (ID l) L !! ID l' = Some l'.
Proof.
  intros Nd Hl I. inversion Nd as [|? ? Nl _]; subst. rewrite lookup_delete_ne; [apply Hl; now right|]. intros X.
  pose proof (Hl l' (or_intror I)) as El'. rewrite <- X, (Hl l (or_introl eq_refl)) in El'. congruence.
Qed.

Lemma unlock_each_books ctx ls : forall acc k r k' L n, Books k L n -> List.NoDup ls -> (forall l, In l ls -> L !! ID l = Some l) ->
  unlock_each ctx ls acc k = (Ok r, k') ->
  Books k' (removes ls L) n /\ forall b d, b <> lockup_addr -> balance (lk_ext k') b d = balance (lk_ext k) b d + paid ls b d.
Proof.
  induction ls as [|l ls IH]; intros acc k r k' L n Bk Nd Hl H; cbn [unlock_each] in H.
  - apply ret_ok_inv in H as [_ <-]. split; [exact Bk|]. intros b d _. unfold paid. cbn [map zsum fold_right]. lia.
  - apply mbind_ok_inv in H as (u & k1 & E1 & H). apply mbind_ok_inv in H as (acc' & k2 & E2 & H). apply lift_ok_inv in E2 as [_ <-].
    assert (E : UnlockMaturedLock ctx (ID l) k = (Ok u, k1)) by (destruct (UnlockMaturedLock ctx (ID l) k) as [[|e|m] kk]; [exact E1 | discriminate E1 | discriminate E1]).
    pose proof (Hl l (or_introl eq_refl)) as El.
    destruct (UnlockMatured_books ctx (ID l) k u k1 L n Bk (ids_range _ _ _ _ _ _ Bk El) E) as (l' & a & El' & _ & _ & Ea & Bk1 & Pay1).
    rewrite El in El'. injection El' as <-.
    destruct (IH acc' k1 r k' _ n Bk1) as [Bk' Pay]; [now inversion Nd | intros l' I; eapply lock_remains; eauto | exact H|].
    split; [exact Bk'|]. intros b d Nb. rewrite Pay, Pay1 by exact Nb. unfold paid. cbn [map].
    change (zsum (released l (owner_of l) b d :: map (fun l => released l (owner_of l) b d) ls))
      with (released l (owner_of l) b d + zsum (map (fun l => released l (owner_of l) b d) ls)). unfold owner_of at 2. rewrite Ea. lia.
Qed.

Lemma no_matured_synthetics ctx k L n : Books k L n -> block_ok ctx -> DeleteAllMaturedSyntheticLocks ctx k = (Ok tt, k).
Proof.
  intros Bk Hb. unfold DeleteAllMaturedSyntheticLocks, mbind, get, iteratorBeforeTime. destruct (st_iter _ _ _) as [|[y v] it] eqn:E; [reflexivity|]. exfalso.
  match type of E with ?x = _ => assert (I : In (y, v) x) by (rewrite E; now left) end. apply st_iter_in in I as [G R].
  assert (U : uint64_ok (BlockTime ctx)) by (unfold block_ok, uint64_ok in *; lia).
  destruct (range_prefix [16] [] (255 :: getTimeKey (BlockTime ctx)) y) as (w & -> & _); [| |exact R|].
  - do 2 (constructor; [unfold byte; lia|]). now apply timeKey_bytes.
  - eapply so_bytes; [apply (bk_store _ _ _ _ Bk) | exact G].
  - cbn [app] in G. rewrite (so_nosynth _ _ _ _ (bk_store _ _ _ _ Bk)) in G by auto. discriminate G.
Qed.

Definition sweeps (ctx : Ctx) : bool := Z.rem (BlockHeight ctx) 30 =? 0.

(** What the end of a block makes of the locks. *)
Definition spec_end (ctx : Ctx) (L : lockmap) : lockmap := if sweeps ctx then unmatured (BlockTime ctx) L else L.
Definition spec_pay (ctx : Ctx) (L : lockmap) (b : AccAddress) (d : string) : Z := if sweeps ctx then payout (BlockTime ctx) L b d else 0.

Lemma EndBlocker_books ctx k k' L n : Books k L n -> block_ok ctx -> EndBlocker ctx k = (Ok tt, k') ->
  Books k' (spec_end ctx L) n /\ forall b d, b <> lockup_addr -> balance (lk_ext k') b d = balance (lk_ext k) b d + spec_pay ctx L b d.
Proof.
  intros Bk Hb H. unfold EndBlocker in H. unfold spec_end, spec_pay. fold (sweeps ctx) in H. destruct (sweeps ctx); cbn [when] in H.
  - apply mbind_ok_inv in H as (u & k1 & E1 & H). rewrite (no_matured_synthetics ctx k L n Bk Hb) in E1. injection E1 as _ <-.
    unfold WithdrawAllMaturedLocks, unlockFromIterator in H. apply mbind_ok_inv in H as (x & k2 & E2 & H). apply ret_ok_inv in H as [_ <-].
    assert (U : uint64_ok (BlockTime ctx)) by (unfold block_ok, uint64_ok in *; lia). destruct (matured_locks (BlockTime ctx) k L n Bk U) as (ls & El & Ex).
    apply mbind_ok_inv in E2 as (ls' & k3 & E3 & E2). rewrite El in E3. injection E3 as <- <-. apply mbind_ok_inv in E2 as (cs & k3 & E3 & E2).
    apply ret_ok_inv in E2 as [_ <-]. assert (HI : forall id l, L !! id = Some l -> ID l = id) by (intros id l E; apply (bk_locks _ _ _ _ Bk id l E)).
    destruct (unlock_each_books ctx ls [] k cs k3 L n Bk (proj1 Ex) ltac:(intros l I; now apply Ex) E3) as [Bk' Pay].
    rewrite (removes_unmatured _ ls L HI Ex) in Bk'. split; [exact Bk'|]. intros b d Nb. rewrite Pay by exact Nb. unfold paid, payout.
    now rewrite (exactly_sum ls L (matured_sel (BlockTime ctx)) _ HI Ex).
  - apply ret_ok_inv in H as [_ <-]. split; [exact Bk|]. intros; lia.
Qed.

(** ** Paying out never fails *)

(** The amounts locked stay far from the limit of an amount. *)
Definition bounded (L : lockmap) : Prop := forall d, msum (fun l => amount_of (Coins l) d) L < 2 ^ 240.

Lemma lock_amounts L n id l d : locks_ok L n -> L !! id = Some l -> 0 <= amount_of (Coins l) d.
Proof. intros LO El. destruct (LO id l El) as (_ & _ & Ok0). destruct (lock_coin l Ok0) as (c & _ & Oc & _). now apply coins_ok_nonneg. Qed.

Lemma locked_sums L n d : locks_ok L n -> nonneg_sums (locked L d) /\ total_of (locked L d) = msum (fun l => amount_of (Coins l) d) L.
Proof.
  intros LO. split; [|reflexivity]. intros f. apply msum_nonneg. intros id l El. destruct (f _); [eapply lock_amounts; eauto | lia].
Qed.

Lemma lock_le_total L n id l d : locks_ok L n -> L !! id = Some l -> amount_of (Coins l) d <= msum (fun l => amount_of (Coins l) d) L.
Proof. intros LO El. apply (msum_member (fun l => amount_of (Coins l) d) L id l); [|exact El]. intros i l' E'. eapply lock_amounts; eauto. Qed.

(** The coins of a lock leave the account of the module. *)
Lemma return_total l c a k : Coins l = [c] -> 0 < Amount c -> native (Denom c) -> account a ->
  (forall d, amount_of [c] d <= balance (lk_ext k) lockup_addr d) -> Amount c < 2 ^ 240 ->
  exists fin k1 k2, coinsToReturn (Coins l) [] k = (Ok fin, k1) /\
    (match fin with [] => ret tt | _ => on_ext (SendCoinsFromModuleToAccount ModuleName a fin) end) k1 = (Ok tt, k2) /\ same_stores k k2.
Proof.
  intros Ec Pc Nc Aa Le Lt. rewrite Ec. cbn [coinsToReturn]. assert (Oc : coins_ok [c]) by (apply single_ok; auto with lockup). destruct (String.prefix _ _).
  - destruct (burn_total [c] (lk_ext k) Oc Le) as (e' & Eb). eexists [], _, _. split; [|split; [reflexivity|]].
    + unfold mbind, lift. rewrite (MakeCoins_total [c] Oc). unfold on_ext, zoom. rewrite Eb. reflexivity.
    + repeat split.
  - destruct (Coins_Add_total [] [c]) as (r & Er); [split; constructor | exact Oc | |].
    { intros d. rewrite amount_single. cbn [amount_of map zsum fold_right]. destruct (String.eqb (Denom c) d); lia. }
    pose proof (add_nothing c r Pc Nc Er) as ->. destruct (send_out_total ModuleName a [c] (lk_ext k) Oc Le (account_open a Aa)) as (e' & Es).
    exists [c], k. eexists. split; [unfold mbind, lift; now rewrite Er|]. split; [unfold on_ext, zoom; rewrite Es; reflexivity | repeat split].
Qed.

Lemma unlock_total id l k L n : Books k L n -> bounded L -> L !! id = Some l -> IsUnlocking l = true ->
  exists k', unlockMaturedLockInternalLogic l k = (Ok tt, k').
Proof.
  intros Bk Bd El Hu. pose proof (ids_range _ _ _ _ _ _ Bk El) as U. destruct Bk as [O LO Rn A Bal Pa]. destruct (LO id l El) as (Ei & Ri & Ok0).
  destruct (lock_coin l Ok0) as (c & Ec & Oc & Pc & Nc). destruct (lo_owner _ Ok0) as (a & Ea & _ & Aa).
  assert (Le : forall d, amount_of [c] d <= balance (lk_ext k) lockup_addr d).
  { intros d. rewrite Bal, <- Ec. eapply lock_le_total; eauto. }
  assert (Lt : Amount c < 2 ^ 240).
  { pose proof (lock_le_total L n id l (Denom c) LO El) as X. rewrite Ec, amount_single, String.eqb_refl in X. specialize (Bd (Denom c)). lia. }
  destruct (return_total l c a k Ec Pc Nc Aa Le Lt) as (fin & k1 & k2 & E1 & E2 & (S2 & A2 & _)).
  unfold unlockMaturedLockInternalLogic. rewrite Ea. unfold mbind at 1, lift. unfold mbind at 1. rewrite E1. unfold mbind at 1. rewrite E2.
  unfold mbind at 1. destruct (deleteLock (ID l) k2) as [r3 k3] eqn:E3. destruct r3 as [u3|e|m]; [|discriminate E3..]. destruct u3. rewrite Ei in E3. rewrite <- S2 in O.
  destruct (deleteLock_ok k2 id k3 tt L L n O U E3) as [O3 (A3 & _ & _)].
  destruct (deleteLockRefs_ok k3 l a _ L n O3 ltac:(now rewrite Ei) Ea ltac:(rewrite Ei; intros l' E'; congruence)) as (k4 & E4 & (A4 & _ & _) & O4).
  rewrite Hu in E4. change (unlockingPrefix true) with KeyPrefixUnlocking in E4. unfold mbind at 1. rewrite E4. rewrite Ec. cbn [for_each].
  rewrite <- A2, <- A3, <- A4 in A. destruct A as (HB & HT & _). destruct (locked_sums L n (Denom c) LO) as [Ns Tt].
  destruct (acc_Increase_ok (Denom c) (Duration l) (- Amount c) k4 _ (HT _ Nc) ltac:(apply duration_pos, (lo_duration _ Ok0))) as [_ Tot].
  destruct Tot as (k5 & E5); [exact Ns | rewrite Tt; apply Bd | lia|]. unfold mbind at 1. unfold mbind at 1. rewrite acc_Decrease_is, E5. unfold ret at 1.
  destruct hooks_set as (h & Eh). unfold call_hook. rewrite Eh. unfold on_ext, zoom.
  destruct (ho_unlocked h (hooks_lawful h Eh) a (ID l) [c] (Duration l) (EndTime l) (lk_ext k5)) as (e' & E' & _). rewrite E'. eauto.
Qed.

Lemma UnlockMatured_total ctx id l k L n : Books k L n -> bounded L -> L !! id = Some l -> matured_sel (BlockTime ctx) l = true ->
  exists k', UnlockMaturedLock ctx id k = (Ok tt, k').
Proof.
  intros Bk Bd El M. apply andb_prop in M as [Hu Le]. apply Z.leb_le in Le. destruct (unlock_total id l k L n Bk Bd El Hu) as (k' & E). exists k'.
  unfold UnlockMaturedLock, mbind. rewrite (GetLockByID_some k id L L n l (bk_store _ _ _ _ Bk) (ids_range _ _ _ _ _ _ Bk El) El), Hu. cbn [negb].
  destruct (Z.ltb_spec (BlockTime ctx) (EndTime l)); [lia | exact E].
Qed.

Lemma unlock_each_total ctx ls : forall acc k L n, Books k L n -> List.NoDup ls ->
  (forall l, In l ls -> L !! ID l = Some l /\ matured_sel (BlockTime ctx) l = true) ->
  coins_ok acc -> (forall d, amount_of acc d + msum (fun l => amount_of (Coins l) d) L < 2 ^ 240) ->
  exists cs k', unlock_each ctx ls acc k = (Ok cs, k').
Proof.
  induction ls as [|l ls IH]; intros acc k L n Bk Nd Hl Oa Ba; [now exists acc, k|]. cbn [unlock_each].
  destruct (Hl l (or_introl eq_refl)) as [El M]. pose proof (bk_locks _ _ _ _ Bk) as LO.
  assert (Bd : bounded L) by (intros d; specialize (Ba d); pose proof (coins_ok_nonneg acc d Oa); lia).
  destruct (UnlockMatured_total ctx (ID l) l k L n Bk Bd El M) as (k1 & E1). unfold mbind at 1. rewrite E1.
  destruct (UnlockMatured_books ctx (ID l) k tt k1 L n Bk (ids_range _ _ _ _ _ _ Bk El) E1) as (l' & a & El' & _ & _ & _ & Bk1 & _).
  destruct (LO _ l El) as (_ & _ & Ok0). destruct (lock_coin l Ok0) as (c & _ & Oc & _).
  destruct (Coins_Add_total acc (Coins l) Oa Oc) as (acc' & Ea).
  { intros d. specialize (Ba d). pose proof (lock_le_total L n _ l d LO El). lia. }
  destruct (Coins_Add_exact acc (Coins l) acc' Oa Oc Ea) as [Oa' Am]. unfold mbind at 1, lift. rewrite Ea.
  apply (IH acc' k1 _ n Bk1); [now inversion Nd | | exact Oa' |].
  - intros l2 I. split; [|apply Hl; now right]. eapply lock_remains; [exact Nd | intros x Ix; now apply Hl | exact I].
  - intros d. rewrite Am, (msum_delete _ L (ID l) l El). specialize (Ba d). lia.
Qed.

Lemma EndBlocker_total ctx k L n : Books k L n -> block_ok ctx -> bounded L -> exists k', EndBlocker ctx k = (Ok tt, k').
Proof.
  intros Bk Hb Bd. unfold EndBlocker. fold (sweeps ctx). destruct (sweeps ctx); cbn [when]; [|now exists k].
  unfold mbind at 1. rewrite (no_matured_synthetics ctx k L n Bk Hb). unfold WithdrawAllMaturedLocks, unlockFromIterator.
  assert (U : uint64_ok (BlockTime ctx)) by (unfold block_ok, uint64_ok in *; lia). destruct (matured_locks (BlockTime ctx) k L n Bk U) as (ls & El & Nd & Ex).
  destruct (unlock_each_total ctx ls [] k L n Bk Nd) as (cs & k' & E).
  - intros l I. now apply Ex.
  - split; constructor.
  - intros d. cbn [amount_of map zsum fold_right]. apply Bd.
  - exists k'. unfold mbind. rewrite El, E. reflexivity.
Qed.

(** ** Runs *)

Inductive Event : Type :=
| EvMsg (ctx : Ctx) (m : Msg)    (** a message that succeeds *)
| EvEnd (ctx : Ctx)              (** the end of a block *)
| EvOther.                       (** other modules; they do not touch the account of the module *)

Inductive lockup_step : Event -> @Keeper LK KL KA -> @Keeper LK KL KA -> Prop :=
| step_msg ctx m k k' : block_ok ctx -> ValidateBasic m = true -> msg_typed m -> msg_domain m -> GetLastLockID k + 1 < 2 ^ 64 ->
    handle ctx m k = (Ok tt, k') -> lockup_step (EvMsg ctx m) k k'
| step_end ctx k k' : block_ok ctx -> EndBlocker ctx k = (Ok tt, k') -> lockup_step (EvEnd ctx) k k'
| step_other k k' : same_stores k k' -> (forall d, balance (lk_ext k') lockup_addr d = balance (lk_ext k) lockup_addr d) -> lockup_step EvOther k k'.

Inductive lockup_run : list Event -> @Keeper LK KL KA -> @Keeper LK KL KA -> Prop :=
| run_nil k : lockup_run [] k k
| run_cons ev evs k k1 k' : lockup_step ev k k1 -> lockup_run evs k1 k' -> lockup_run (ev :: evs) k k'.

Inductive spec_step : Event -> lockmap -> Z -> lockmap -> Z -> Prop :=
| spec_step_msg ctx m L n L' n' : spec_msg (BlockTime ctx) m L n L' n' -> spec_step (EvMsg ctx m) L n L' n'
| spec_step_end ctx L n : spec_step (EvEnd ctx) L n (spec_end ctx L) n
| spec_step_other L n : spec_step EvOther L n L n.

Inductive spec_run : list Event -> lockmap -> Z -> lockmap -> Z -> Prop :=
| spec_nil L n : spec_run [] L n L n
| spec_cons ev evs L n L1 n1 L' n' : spec_step ev L n L1 n1 -> spec_run evs L1 n1 L' n' -> spec_run (ev :: evs) L n L' n'.

Lemma step_refines ev k k' L n : lockup_step ev k k' -> Books k L n -> exists L' n', spec_step ev L n L' n' /\ Books k' L' n'.
Proof.
  intros H Bk. destruct H as [ctx m k k' Hb Vb Ty Dm Hn H | ctx k k' Hb H | k k' (E1 & E2 & E3) Eb].
  - rewrite (GetLastLockID_ok k _ _ _ (bk_store _ _ _ _ Bk)) in Hn. destruct (handle_refines m ctx k k' L n Bk Hb Vb Ty Dm Hn H) as (L' & n' & Sp & Bk').
    exists L', n'. split; [now constructor | exact Bk'].
  - exists (spec_end ctx L), n. split; [constructor|]. eapply EndBlocker_books; eauto.
  - exists L, n. split; [constructor|]. destruct Bk as [O LO Rn A Bal Pa]. split; [now rewrite E1 | exact LO | exact Rn | now rewrite E2 | intros d; now rewrite Eb | congruence].
Qed.

Lemma lockup_run_refines evs k k' : lockup_run evs k k' -> forall L n, Books k L n -> exists L' n', spec_run evs L n L' n' /\ Books k' L' n'.
Proof.
  induction 1 as [k | ev evs k k1 k' Hs Hr IH]; intros L n Bk; [exists L, n; split; [constructor | exact Bk]|].
  destruct (step_refines ev k k1 L n Hs Bk) as (L1 & n1 & Sp & Bk1). destruct (IH L1 n1 Bk1) as (L' & n' & Sr & Bk').
  exists L', n'. split; [econstructor; eauto | exact Bk'].
Qed.

(** C20: for every run of messages, ends of blocks and activity of other modules
    that leaves the stores and the account of the module alone, the module refines
    its specification: locks are created, joined, split, extended, unlocked and
    removed as the specification says, each only by its owner, and in every
    state the store holds exactly the locks and their references, the
    accumulation store of every denomination holds exactly the locked amounts by
    duration, and the account of the module holds exactly what is locked.
    Assumed of the run ([LockupDomain], [msg_domain], [Books]): the messages name
    denominations whose accumulation trees do not overlap and accounts none of
    which is a prefix of another, and there are no synthetic locks. *)
Theorem lockup_refinement evs k k' L n : lockup_run evs k k' -> Books k L n ->
  exists L' n', spec_run evs L n L' n' /\ Books k' L' n' /\
    (forall id l, uint64_ok id -> GetLockByID id k' = (Ok l, k') <-> L' !! id = Some l) /\
    (forall d, balance (lk_ext k') lockup_addr d = msum (fun l => amount_of (Coins l) d) L').
Proof.
  intros H Bk0. destruct (lockup_run_refines evs k k' H L n Bk0) as (L' & n' & Sr & Bk). exists L', n'. split; [exact Sr|]. split; [exact Bk|]. split; [|apply Bk].
  intros id l U. split.
  - intros E. now apply (GetLockByID_ok _ _ _ _ _ _ _ (bk_store _ _ _ _ Bk) U E).
  - now apply (GetLockByID_some _ _ _ _ _ _ (bk_store _ _ _ _ Bk)).
Qed.

(** C21: in a state whose books balance ([Books]: in particular without synthetic
    locks, one of which can make the end of a block panic when it outlives its
    lock, and with denominations and accounts of the domain) and whose locked
    amounts are below 2^240, the end of a block succeeds.  At the heights at which it
    sweeps it pays every lock that has matured to its owner, burns the shares of
    concentrated liquidity, and leaves the other locks alone. *)
Theorem matured_locks_are_paid ctx k L n : Books k L n -> block_ok ctx -> bounded L ->
  exists k', EndBlocker ctx k = (Ok tt, k') /\ Books k' (spec_end ctx L) n /\
    forall b d, b <> lockup_addr -> balance (lk_ext k') b d = balance (lk_ext k) b d + spec_pay ctx L b d.
Proof.
  intros Bk Hb Bd. destruct (EndBlocker_total ctx k L n Bk Hb Bd) as (k' & E). exists k'. split; [exact E|]. now apply EndBlocker_books.
Qed.

End Correct.
