(* ===== verification/LockupInvariants.v ===== *)
(** * The queries and the registered invariants of [x/lockup]

    The sum an accumulation store answers for a duration is the sum over the
    locks the iterators enumerate, so the checks the module registers with the
    crisis module never report a broken invariant. *)

From stdpp Require Import base gmap.
From Stdlib Require Import ZArith Lia List Bool String Sorted.
From S2P Require Import Prelude GoBig SdkMath Store SumTree SumTreeSet MapSum GoState PrefixStore SdkCoins Lockup.
From S2P Require Import LockupStore LockupAcc LockupBooks LockupOps LockupIter LockupCorrect.
Import ListNotations.
Open Scope Z_scope.

Section Invariants.
Context {S : SdkMath} {SS : SdkMathSpec S} {B : BigEndian} {BS : BigEndianSpec B} {T : SdkText} {TS : SdkTextSpec T}
  {C : CoinsOps} {CS : CoinsSpec C} {P : PrefixEnd} {PS : PrefixEndSpec P} {LK : LockupKeepers} {V : LockupView LK} {LKS : LockupKeepersSpec LK}
  {KL : KVStore Stored} {KLS : KVStoreSpec KL} {KA : KVStore (list Child)} {KAS : KVStoreSpec KA} {LD : LockupDomain}.

Implicit Types k : @Keeper LK KL KA.

(** What is locked of a denomination for at least a duration. *)
Definition locked_for (L : lockmap) (d : string) (dur : Z) : Z := msum (fun l => if dur <=? Duration l then amount_of (Coins l) d else 0) L.

Lemma locked_from L n d dur : locks_ok L n -> duration_ok dur -> locked L d (fun key => bleb (accumulationKey dur) key) = locked_for L d dur.
Proof.
  intros LO Hd. apply msum_ext. intros id l El. destruct (LO id l El) as (_ & _ & Ok0). pose proof (lo_duration _ Ok0).
  unfold accumulationKey, uint64. rewrite !Z.mod_small by (unfold duration_ok in *; lia). rewrite <- (app_nil_r (Uint64ToBigEndian (Duration l))).
  now rewrite be_le by (unfold uint64_ok, duration_ok in *; lia).
Qed.

(** A query of an accumulation store may write the root of an empty tree, but keeps the books. *)
Lemma query_books d dur k L n : Books k L n -> bounded L -> native d -> duration_ok dur ->
  exists k', GetPeriodLocksAccumulation d dur k = (Ok (locked_for L d dur), k') /\ Books k' L n.
Proof.
  intros [O LO Rn A Bal Pa] Bd Nd Hd. destruct A as (HB & HT & W0 & HJ). destruct (locked_sums L n d LO) as [Ns Tt].
  destruct (acc_SubsetFrom_ok d dur k (locked L d) (HT d Nd) Hd Ns ltac:(rewrite Tt; apply Bd)) as (k' & E & (E1 & E2 & E3 & I1 & I2) & H').
  exists k'. split; [rewrite <- (locked_from L n d dur LO Hd); exact E|].
  split; [now rewrite E1 | exact LO | exact Rn | | now rewrite E3 | congruence]. split; [auto|]. split.
  - intros e Ne. destruct (String.string_dec e d) as [-> | N]; [exact H'|].
    apply (TreeHas_frame (lk_acc k) _ e d); auto. apply native_apart; [now left | now left | exact N].
  - exists W0. apply (TreeHas_frame (lk_acc k) _ ""%string d); auto. apply native_apart; [now right | now left|]. intros E'. apply native_nonempty. now rewrite E'.
Qed.

Lemma longer_all denom dur k L n : Books k L n -> native denom -> duration_ok dur ->
  exists ls, GetLocksLongerThanDurationDenom denom dur k = (Ok ls, k) /\ exactly ls L (fun l => has_denom l denom && (dur <=? Duration l)).
Proof.
  intros Bk Nd Hd. destruct (longer_locks true denom dur k L n Bk Nd Hd) as (ut & Eu & Xu). destruct (longer_locks false denom dur k L n Bk Nd Hd) as (nt & En & Xn).
  exists (nt ++ ut). split.
  - unfold GetLocksLongerThanDurationDenom, mbind. rewrite Eu, En. reflexivity.
  - destruct (exactly_app nt ut L _ _ Xn Xu) as [N E].
    + unfold longer_sel. intros l. now destruct (IsUnlocking l).
    + split; [exact N|]. intros l. rewrite E. unfold longer_sel. now destruct (IsUnlocking l); cbn [Bool.eqb andb orb]; rewrite ?orb_false_r.
Qed.

Lemma sumAmounts_from denom : ValidateDenom denom = true -> forall ls s0, 0 <= s0 -> (forall l, In l ls -> coins_ok (Coins l)) ->
  s0 + zsum (map (fun l => amount_of (Coins l) denom) ls) < 2 ^ 255 ->
  fold_left (fun r l => s <- r ;; a <- Coins_AmountOf (Coins l) denom ;; int_Add s a) ls (Ok s0) = Ok (s0 + zsum (map (fun l => amount_of (Coins l) denom) ls)).
Proof.
  intros Vd. induction ls as [|l ls IH]; intros s0 P0 Hl Bs; cbn [fold_left map].
  - f_equal. cbn [zsum fold_right]. lia.
  - cbn [map] in Bs. change (zsum (amount_of (Coins l) denom :: map (fun l => amount_of (Coins l) denom) ls))
      with (amount_of (Coins l) denom + zsum (map (fun l => amount_of (Coins l) denom) ls)) in *.
    pose proof (coins_ok_nonneg (Coins l) denom (Hl l (or_introl eq_refl))).
    assert (Nn : 0 <= zsum (map (fun l => amount_of (Coins l) denom) ls)).
    { assert (Hl' : forall x, In x ls -> coins_ok (Coins x)) by (intros x I; apply Hl; now right). clear - Hl'. induction ls as [|x ls IH]; [cbn; lia|]. cbn [map].
      change (0 <= amount_of (Coins x) denom + zsum (map (fun l => amount_of (Coins l) denom) ls)).
      pose proof (coins_ok_nonneg (Coins x) denom (Hl' x (or_introl eq_refl))). assert (0 <= zsum (map (fun l => amount_of (Coins l) denom) ls)); [|lia].
      apply IH. intros y I. apply Hl'. now right. }
    cbn [bind]. rewrite Coins_AmountOf_spec by (try exact Vd; apply Hl; now left). cbn [bind]. rewrite int_Add_total by lia.
    rewrite IH; [f_equal; lia | lia | intros x I; apply Hl; now right | lia].
Qed.

Lemma has_denom_amount l d : lock_ok l -> (if has_denom l d then amount_of (Coins l) d else 0) = amount_of (Coins l) d.
Proof.
  intros Ok0. destruct (lock_coin l Ok0) as (c & Ec & _). unfold has_denom. rewrite Ec, amount_single. now destruct (String.eqb (Denom c) d).
Qed.

(** The sum over the locks the iterators enumerate. *)
Lemma sum_locks denom dur ls L n : locks_ok L n -> bounded L -> native denom -> exactly ls L (fun l => has_denom l denom && (dur <=? Duration l)) ->
  sumAmounts denom ls = Ok (locked_for L denom dur).
Proof.
  intros LO Bd Nd Ex. assert (HI : forall id l, L !! id = Some l -> ID l = id) by (intros id l E; apply (LO id l E)).
  pose proof (exactly_sum ls L _ (fun l => amount_of (Coins l) denom) HI Ex) as Es.
  assert (El : zsum (map (fun l => amount_of (Coins l) denom) ls) = locked_for L denom dur).
  { rewrite Es. apply msum_ext. intros id l E. destruct (LO id l E) as (_ & _ & Ok0). rewrite <- (has_denom_amount l denom Ok0) at 2.
    destruct (has_denom l denom), (dur <=? Duration l); reflexivity. }
  assert (Lt : locked_for L denom dur <= msum (fun l => amount_of (Coins l) denom) L).
  { apply msum_le. intros id l E. pose proof (lock_amounts L n id l denom LO E). destruct (dur <=? Duration l); lia. }
  unfold sumAmounts. rewrite sumAmounts_from; [now rewrite El | auto with lockup | lia | |].
  - intros l I. apply Ex in I as [E _]. destruct (LO _ l E) as (_ & _ & Ok0). destruct (lock_coin l Ok0) as (c & _ & Oc & _). exact Oc.
  - rewrite El. specialize (Bd denom). lia.
Qed.

(** C22: in a state whose books balance (without synthetic locks, for
    denominations whose trees do not overlap, amounts below 2^240), the amount an
    accumulation store answers for such a denomination and a duration is the sum
    over the locks of that denomination and at least that duration, and the locks
    the iterators enumerate for the same question are exactly those, each once,
    with the same sum. *)
Theorem accumulation_query_exact d dur k L n : Books k L n -> bounded L -> native d -> duration_ok dur ->
  exists k' ls, GetPeriodLocksAccumulation d dur k = (Ok (locked_for L d dur), k') /\ Books k' L n /\
    GetLocksLongerThanDurationDenom d dur k = (Ok ls, k) /\ exactly ls L (fun l => has_denom l d && (dur <=? Duration l)) /\
    sumAmounts d ls = Ok (locked_for L d dur).
Proof.
  intros Bk Bd Nd Hd. destruct (query_books d dur k L n Bk Bd Nd Hd) as (k' & E & Bk'). destruct (longer_all d dur k L n Bk Nd Hd) as (ls & El & Ex).
  exists k', ls. do 4 (split; [assumption|]). now apply (sum_locks d dur ls L n (bk_locks _ _ _ _ Bk)).
Qed.

(** ** The registered invariants *)

Lemma any_broken_false {A} (check : A -> M (@Keeper LK KL KA) bool) L n : forall xs,
  (forall x k, In x xs -> Books k L n -> exists k', check x k = (Ok true, k') /\ Books k' L n) ->
  forall k, Books k L n -> exists k', any_broken check xs k = (Ok false, k') /\ Books k' L n.
Proof.
  induction xs as [|x xs IH]; intros H k Bk; cbn [any_broken]; [exists k; split; [reflexivity | exact Bk]|].
  destruct (H x k (or_introl eq_refl) Bk) as (k1 & E & Bk1). unfold mbind. rewrite E. apply IH; [intros y k2 I; apply H; now right | exact Bk1].
Qed.

Lemma msum_some {A} (f : A -> Z) (m : gmap Z A) : msum f m <> 0 -> exists id x, m !! id = Some x /\ f x <> 0.
Proof.
  induction m as [|i x m Hi IH] using map_ind; intros H; [now rewrite msum_empty in H|]. rewrite msum_insert in H by exact Hi.
  destruct (Z.eq_dec (f x) 0) as [E | N]; [|exists i, x; split; [apply lookup_insert_eq | exact N]].
  destruct IH as (j & y & Ej & Ny); [lia|]. exists j, y. split; [|exact Ny]. rewrite lookup_insert_ne; [exact Ej | congruence].
Qed.

(** The account of the module holds only coins that are locked. *)
Lemma balance_native k L n c : Books k L n -> In c (GetModuleBalance k) -> native (Denom c) /\ Amount c = locked_for L (Denom c) 0.
Proof.
  intros [O LO Rn A Bal Pa] I. destruct (balances_listed (GetModuleAddress ModuleName) (lk_ext k)) as [Oc Am].
  pose proof (amount_in c _ Oc I) as E. rewrite Am in E. fold lockup_addr in E. rewrite Bal in E.
  destruct Oc as [_ F]. rewrite List.Forall_forall in F. destruct (F c I) as [Pc _]. split.
  - destruct (msum_some _ _ ltac:(rewrite E; lia)) as (id & l & El & Nl). destruct (LO id l El) as (_ & _ & Ok0). destruct (lock_coin l Ok0) as (e & Ee & _ & _ & Ne).
    rewrite Ee, amount_single in Nl. destruct (String.eqb_spec (Denom e) (Denom c)) as [<-|]; [exact Ne | congruence].
  - rewrite <- E. apply msum_ext. intros id l El. destruct (LO id l El) as (_ & _ & Ok0). pose proof (lo_duration _ Ok0).
    destruct (Z.leb_spec 0 (Duration l)); [reflexivity | lia].
Qed.

Lemma accumulationMatches_true d dur k L n : Books k L n -> bounded L -> native d -> duration_ok dur ->
  exists k', accumulationMatches d dur k = (Ok true, k') /\ Books k' L n.
Proof.
  intros Bk Bd Nd Hd. destruct (query_books d dur k L n Bk Bd Nd Hd) as (k' & E & Bk'). destruct (longer_all d dur k' L n Bk' Nd Hd) as (ls & El & Ex).
  exists k'. split; [|exact Bk']. unfold accumulationMatches, mbind. rewrite E, El. unfold lift.
  rewrite (sum_locks d dur ls L n (bk_locks _ _ _ _ Bk) Bd Nd Ex), Z.eqb_refl. reflexivity.
Qed.

Lemma balanceMatches_true c k L n : Books k L n -> bounded L -> native (Denom c) -> Amount c = locked_for L (Denom c) 0 -> balanceMatches c k = (Ok true, k).
Proof.
  intros Bk Bd Nd E. destruct (longer_all (Denom c) 0 k L n Bk Nd ltac:(unfold duration_ok; lia)) as (ls & El & Ex).
  unfold balanceMatches, GetLocksDenom, mbind. rewrite El. unfold lift. rewrite (sum_locks (Denom c) 0 ls L n (bk_locks _ _ _ _ Bk) Bd Nd Ex), E, Z.eqb_refl. reflexivity.
Qed.

(** C23: in every state whose books balance (without synthetic locks, for
    denominations whose trees do not overlap, amounts below 2^240), the two
    registered invariants about locked amounts, of the accumulation stores and of
    the balances, are not reported broken, and checking them does not fail. *)
Theorem registered_invariants_hold k L n : Books k L n -> bounded L ->
  (exists k', AccumulationStoreInvariant k = (Ok false, k')) /\
  (exists k', LocksBalancesInvariant k = (Ok false, k')).
Proof.
  intros Bk Bd. split.
  - unfold AccumulationStoreInvariant, mbind at 1, get. destruct (any_broken_false (fun x => accumulationMatches (fst x) (snd x)) L n
      (flat_map (fun coin => map (fun d => (Denom coin, d)) invariantDurations) (GetModuleBalance k))) with (k := k) as (k' & E & _); [|exact Bk | eauto].
    intros [d dur] k1 I Bk1. apply in_flat_map in I as (c & Ic & I). apply in_map_iff in I as (dur' & E & I). injection E as <- <-.
    destruct (balance_native k L n c Bk Ic) as [Nd _]. apply accumulationMatches_true; auto.
    destruct I as [<- | [<- | [<- | [<- | []]]]]; unfold duration_ok, Hour, Minute, Second; cbn; lia.
  - unfold LocksBalancesInvariant, mbind at 1, get. destruct (any_broken_false balanceMatches L n (GetModuleBalance k)) with (k := k) as (k' & E & _);
      [|exact Bk | eauto].
    intros c k1 Ic Bk1. destruct (balance_native k L n c Bk Ic) as [Nd Ea]. exists k1. split; [now apply (balanceMatches_true c k1 L n) | exact Bk1].
Qed.

End Invariants.
