(* ===== verification/LockupRuns.v ===== *)
(** * Runs of [x/lockup]

    A reference bank, text formats and stores satisfy what the theorems assume
    of them, and a run from the empty state goes through every kind of message. *)

From stdpp Require Import base gmap.
From Stdlib Require Import ZArith Lia List Bool String Ascii Sorted.
From S2P Require Import Prelude GoBig SdkMath Store SumTree SumTreeSet MapSum GoState PrefixStore SdkCoins SdkCoinsRef Lockup.
From S2P Require Import LockupStore LockupAcc LockupBooks LockupOps LockupIter LockupCorrect LockupInvariants.
Import ListNotations.
Open Scope Z_scope.

(** ** Text *)

Fixpoint bytes_string (a : bytes) : string :=
  match a with [] => EmptyString | b :: r => String (ascii_of_nat (Z.to_nat b)) (bytes_string r) end.

Lemma bytes_string_bytes s : bytes_string (string_bytes s) = s.
Proof. induction s as [|c s IH]; cbn; [reflexivity|]. rewrite IH, Nat2Z.id, ascii_nat_embedding. reflexivity. Qed.

#[export] Instance text_ref : SdkText := {|
  AccAddressFromBech32 s := match s with EmptyString => Err "empty address string is not allowed" | _ => Ok (string_bytes s) end;
  AccString := bytes_string;
  FormatTimeBytes t := repeat 0 21 ++ Uint64ToBigEndian t
|}.

#[export] Instance text_ref_spec : SdkTextSpec text_ref.
Proof.
  split; cbn [AccAddressFromBech32 AccString FormatTimeBytes text_ref].
  - intros s a H. destruct s as [|c s]; [discriminate|]. apply Ok_inj in H as <-. now rewrite bytes_string_bytes.
  - intros s a H. destruct s as [|c s]; [discriminate|]. apply Ok_inj in H as <-. apply string_bytes_byte.
  - intros t U. rewrite length_app, Uint64ToBigEndian_length by exact U. reflexivity.
  - intros t U. apply Forall_app. split; [apply List.Forall_forall; intros b I; apply repeat_spec in I as ->; unfold byte; lia | now apply Uint64ToBigEndian_bytes].
  - intros t u Ut Uu. rewrite bcompare_app. now apply be_order.
Qed.

(** ** The bank *)

Definition module_addr : AccAddress := [9; 9; 9; 9].
Definition pool_addr : AccAddress := [7; 7; 7; 7].

#[export] Instance lockup_bank : LockupKeepers := {|
  Ext := Bank;
  GetModuleAddress _ := module_addr;
  GetAllBalances a e := held e a;
  SendCoinsFromModuleToAccount _ a cs := if addr_eqb a module_addr then fail "is not allowed to receive funds" else send module_addr a cs;
  SendCoinsFromAccountToModule a _ cs := send a module_addr cs;
  BurnCoins _ cs := fun e => if covers cs (held e module_addr) then (Ok tt, take module_addr cs e) else (Err "insufficient funds", e);
  FundCommunityPool cs a := send a pool_addr cs;
  lockup_hooks := Some (MultiLockupHooks [])
|}.

#[export] Instance lockup_bank_view : LockupView lockup_bank := {|
  balance e a d := amount_of (held e a) d;
  blocked a := addr_eqb a module_addr
|}.

#[export] Instance lockup_bank_spec : LockupKeepersSpec lockup_bank.
Proof.
  split; cbn [balance blocked GetAllBalances SendCoinsFromModuleToAccount SendCoinsFromAccountToModule BurnCoins GetModuleAddress lockup_bank lockup_bank_view Ext].
  - intros a e. split; [apply held_ok | reflexivity].
  - intros m a cs e e' H. destruct (addr_eqb a module_addr); [discriminate H|]. now apply send_balance.
  - intros a m cs e e' H. now apply send_balance.
  - intros m cs e e' H b d. destruct (covers cs (held e module_addr)) eqn:Cv; [|discriminate H]. apply (f_equal snd) in H. cbn [snd] in H. subst e'.
    apply covers_le in Cv as [O Le]; [|apply held_ok]. now rewrite take_balance.
  - intros m a cs e O Le Nb. rewrite Nb. unfold send. rewrite (le_covers cs _ O Le). eauto.
  - intros cs e O Le. change lockup_addr with module_addr in Le. rewrite (le_covers cs _ O Le). eauto.
  - intros h E. injection E as <-. split; intros; try (intros e r e' H; injection H as <- <-; split; [discriminate | reflexivity]). exists e. split; reflexivity.
  - eauto.
Qed.

(** ** The domain *)

Definition some_denoms : list string := ["uosmo"%string; "gamm/pool/1"%string; "cl/pool/1"%string].

Lemma some_apart d e : In d some_denoms \/ d = ""%string -> In e some_denoms \/ e = ""%string -> d <> e -> apart d e.
Proof.
  intros D E N. cbn in D, E. unfold apart. repeat match goal with H : _ \/ _ |- _ => destruct H as [H|H] | H : False |- _ => destruct H end; subst;
    try congruence; intros r1 r2; cbn; discriminate.
Qed.

#[export, refine] Instance some_domain : LockupDomain := {|
  native d := In d some_denoms;
  account a := List.length a = 3%nat;
  force_allowed := ["abc"%string];
  native_apart := some_apart;
  native_nonempty := _; native_valid := _; account_free := _; account_other := _; account_open := _
|}.
Proof.
  - cbn. intuition discriminate.
  - cbn. intros d [<- | [<- | [<- | []]]]; reflexivity.
  - intros a b x y La Lb E. apply app_eq_length in E as [E _]; [exact E | congruence].
  - intros a La ->. discriminate La.
  - intros a La. cbn. destruct (addr_eqb a module_addr) eqn:E; [|reflexivity]. apply addr_eqb_eq in E as ->. discriminate La.
Defined.

(** ** A run *)

#[local] Existing Instance sdk_ref.
#[local] Existing Instance assoc_store.

Abbreviation K0 := (@Keeper lockup_bank assoc_store assoc_store).

Definition coin (d : string) (a : Z) : Coin := {| Denom := d; Amount := a |}.

Definition start : K0 := {|
  lk_store := [] : @St _ (assoc_store (V := Stored));
  lk_acc := [] : @St _ (assoc_store (V := list Child));
  lk_params := ["abc"%string];
  lk_ext := [(string_bytes "abc", [coin "uosmo" 1000]); (string_bytes "xyz", [coin "cl/pool/1" 70; coin "gamm/pool/1" 500])]
|}.

Lemma start_books : Books start ∅ 0.
Proof.
  split.
  - split.
    + intros id _. rewrite lookup_empty. reflexivity.
    + intros y v _. split; [discriminate|]. intros (id & _ & (l & a & rk & E & _)). rewrite lookup_empty in E. discriminate E.
    + intros id l E. rewrite lookup_empty in E. discriminate E.
    + reflexivity.
    + reflexivity.
    + intros y v E. discriminate E.
  - intros id l E. rewrite lookup_empty in E. discriminate E.
  - lia.
  - assert (Vc : forall d, TreeHas (KA := assoc_store) (lk_acc start) d (fun _ => 0)).
    { intros d. left. split; [|reflexivity]. split; [split; [intros k v H; discriminate H | intros r v H; discriminate H] | reflexivity]. }
    split; [intros y v E; discriminate E|]. split; [|exists (fun _ => 0); apply Vc]. intros d _. apply (TreeHas_ext _ d (fun _ => 0)); [|apply Vc].
    intros f. symmetry. apply msum_empty.
  - intros d. rewrite msum_empty. reflexivity.
  - reflexivity.
Qed.

Definition at_block (h t : Z) : Ctx := {| BlockHeight := h; BlockTime := t |}.

Definition some_msgs : list (Ctx * Msg) :=
  [(at_block 1 1, MsgLockTokens "abc" 10 [coin "uosmo" 100]);
   (at_block 2 2, MsgLockTokens "abc" 10 [coin "uosmo" 50]);
   (at_block 3 3, MsgLockTokens "xyz" 5 [coin "gamm/pool/1" 30]);
   (at_block 4 4, MsgLockTokens "xyz" 7 [coin "cl/pool/1" 70]);
   (at_block 5 5, MsgBeginUnlocking "abc" 1 [coin "uosmo" 40]);
   (at_block 6 6, MsgExtend "abc" 1 20);
   (at_block 7 7, MsgSetRewardReceiver "abc" "xyz" 1);
   (at_block 8 8, MsgBeginUnlockingAll "xyz");
   (at_block 9 9, MsgForce "abc" 1 [coin "uosmo" 10])].

Definition run_msgs (ms : list (Ctx * Msg)) (k : K0) : K0 := fold_left (fun k cm => snd (handle (fst cm) (snd cm) k)) ms k.
Definition run_ok (ms : list (Ctx * Msg)) (k : K0) : bool :=
  fst (fold_left (fun bk cm => (fst bk && ValidateBasic (snd cm) && (match fst (handle (fst cm) (snd cm) (snd bk)) with Ok _ => true | _ => false end)
    && (GetLastLockID (snd bk) <? 100), snd (handle (fst cm) (snd cm) (snd bk)))) ms (true, k)).

Lemma run_ok_step cm ms k : run_ok (cm :: ms) k = true ->
  ValidateBasic (snd cm) = true /\ handle (fst cm) (snd cm) k = (Ok tt, snd (handle (fst cm) (snd cm) k)) /\ GetLastLockID k < 100 /\
  run_ok ms (snd (handle (fst cm) (snd cm) k)) = true.
Proof.
  assert (Mono : forall ms b k, fst (fold_left (fun bk cm => (fst bk && ValidateBasic (snd cm) && (match fst (handle (fst cm) (snd cm) (snd bk)) with Ok _ => true | _ => false end)
    && (GetLastLockID (snd bk) <? 100), snd (handle (fst cm) (snd cm) (snd bk)))) ms (b, k)) = b && run_ok ms k).
  { clear. intros ms b k. destruct b; [reflexivity|]. cbn [andb]. revert k. induction ms as [|cm ms IH]; intros k; [reflexivity|]. cbn [fold_left fst snd andb]. apply IH. }
  unfold run_ok at 1. cbn [fold_left fst snd andb]. rewrite Mono. intros H. apply andb_prop in H as [H Hr]. apply andb_prop in H as [H Hn]. apply andb_prop in H as [Hv Hk].
  split; [exact Hv|]. split; [|split; [now apply Z.ltb_lt | exact Hr]]. destruct (handle (fst cm) (snd cm) k) as [[[]|e|m] k']; [reflexivity | discriminate Hk | discriminate Hk].
Qed.

Lemma run_of_msgs ms : forall k, List.Forall (fun cm => block_ok (fst cm) /\ msg_typed (snd cm) /\ msg_domain (snd cm)) ms -> run_ok ms k = true ->
  lockup_run (map (fun cm => EvMsg (fst cm) (snd cm)) ms) k (run_msgs ms k).
Proof.
  induction ms as [|cm ms IH]; intros k F R; [constructor|]. inversion F as [|? ? (Hb & Ht & Hd) F']; subst. destruct (run_ok_step cm ms k R) as (Hv & Hh & Hn & R').
  cbn [map run_msgs fold_left]. econstructor; [|apply IH; assumption]. constructor; auto. lia.
Qed.

Lemma some_msgs_fit : List.Forall (fun cm => block_ok (fst cm) /\ msg_typed (snd cm) /\ msg_domain (snd cm)) some_msgs.
Proof.
  assert (A : account (string_bytes "abc")) by reflexivity. assert (X : account (string_bytes "xyz")) by reflexivity.
  unfold some_msgs. repeat (apply List.Forall_cons; [split; [unfold block_ok; cbn; lia|]|]); try apply List.Forall_nil; cbn [snd];
    (split; [cbn [msg_typed]; unfold uint64_ok; lia|]); cbn [msg_domain];
    first [intros a E; apply Ok_inj in E as <-; assumption | split; [intros a E; apply Ok_inj in E as <-; assumption | apply List.Forall_cons; [cbn; auto | apply List.Forall_nil]]].
Qed.

Definition after_msgs : K0 := run_msgs some_msgs start.

Lemma lockup_refinement_witness : exists k' L' n', lockup_run (map (fun cm => EvMsg (fst cm) (snd cm)) some_msgs) start k' /\
  spec_run (map (fun cm => EvMsg (fst cm) (snd cm)) some_msgs) ∅ 0 L' n' /\ Books k' L' n'.
Proof.
  pose proof (run_of_msgs some_msgs start some_msgs_fit ltac:(vm_compute; reflexivity)) as R.
  destruct (lockup_refinement _ _ _ _ _ R start_books) as (L' & n' & Sp & Bk & _). exists after_msgs, L', n'. auto.
Defined.

Lemma bounded_by k L n : Books k L n -> held (lk_ext k) module_addr = [coin "cl/pool/1" 70; coin "gamm/pool/1" 30; coin "uosmo" 140] -> bounded L.
Proof.
  intros Bk E d. rewrite <- (bk_balance _ _ _ _ Bk d). change (amount_of (held (lk_ext k) module_addr) d < 2 ^ 240). rewrite E, !amount_cons.
  cbn [coin Denom Amount amount_of map zsum fold_right]. repeat destruct (String.eqb _ _); lia.
Qed.

Lemma after_msgs_books : exists L n, Books after_msgs L n /\ bounded L.
Proof.
  pose proof (run_of_msgs some_msgs start some_msgs_fit ltac:(vm_compute; reflexivity)) as R.
  destruct (lockup_run_refines _ _ _ R ∅ 0 start_books) as (L & n & _ & Bk). exists L, n. split; [exact Bk|]. apply (bounded_by _ L n Bk). vm_compute. reflexivity.
Qed.

Lemma matured_locks_are_paid_witness : exists k', EndBlocker (at_block 30 100) after_msgs = (Ok tt, k').
Proof.
  destruct after_msgs_books as (L & n & Bk & Bd).
  destruct (matured_locks_are_paid (at_block 30 100) after_msgs L n Bk ltac:(unfold block_ok; cbn; lia) Bd) as (k' & E & _). eauto.
Defined.

(** The sweep pays what has matured: the shares of concentrated liquidity are burnt. *)
Example sweep_pays : held (lk_ext (snd (EndBlocker (at_block 30 100) after_msgs))) module_addr = [coin "uosmo" 100] /\
  held (lk_ext (snd (EndBlocker (at_block 30 100) after_msgs))) (string_bytes "abc") = [coin "uosmo" 900] /\
  held (lk_ext (snd (EndBlocker (at_block 30 100) after_msgs))) (string_bytes "xyz") = [coin "gamm/pool/1" 500].
Proof. vm_compute. auto. Qed.

Lemma accumulation_query_exact_witness : exists k', GetPeriodLocksAccumulation "uosmo" 11 after_msgs = (Ok 100, k').
Proof.
  destruct after_msgs_books as (L & n & Bk & Bd).
  destruct (accumulation_query_exact "uosmo" 11 after_msgs L n Bk Bd ltac:(cbn; auto) ltac:(unfold duration_ok; lia)) as (k' & ls & E & _).
  exists k'. rewrite E. do 2 f_equal. pose proof (f_equal fst E) as F. cbn [fst] in F.
  assert (X : fst (GetPeriodLocksAccumulation "uosmo" 11 after_msgs) = Ok 100) by (vm_compute; reflexivity). rewrite X in F. now apply Ok_inj in F.
Defined.

Lemma registered_invariants_hold_witness : exists k', LocksBalancesInvariant after_msgs = (Ok false, k').
Proof.
  destruct after_msgs_books as (L & n & Bk & Bd). destruct (registered_invariants_hold after_msgs L n Bk Bd) as (_ & H). exact H.
Defined.

(** ** What the books do not cover *)

(** A lock of 20, and a synthetic lock of duration 14 on it that is created and deleted. *)
Definition one_lock : K0 := run_msgs [(at_block 1 1, MsgLockTokens "abc" 20 [coin "uosmo" 100])] start.
Definition synth_denom : string := "uosmo/superbonding/val".
Definition with_synth : K0 := snd (CreateSyntheticLockup (at_block 2 2) 1 synth_denom 14 false one_lock).
Definition without_synth : K0 := snd (DeleteSyntheticLockup 1 synth_denom with_synth).

(** A second denomination that extends the first by "/node". *)
Definition shadowed : K0 :=
  run_msgs [(at_block 1 1, MsgLockTokens "abc" 20 [coin "uosmo" 100]); (at_block 1 1, MsgLockTokens "xyz" 20 [coin "uosmo/node" 5])]
    {| lk_store := lk_store start; lk_acc := lk_acc start; lk_params := lk_params start;
       lk_ext := (string_bytes "xyz", [coin "uosmo/node" 9]) :: lk_ext start |}.

Definition broken : K0 := snd (BreakLock 1 one_lock).

Definition twice_locked : K0 :=
  run_msgs [(at_block 1 1, MsgLockTokens "abc" 20 [coin "uosmo" 100]); (at_block 1 1, MsgLockTokens "abc" 20 [coin "uosmo" 11])] start.

Definition accumulated (k : K0) (denom : string) (duration : Z) : Res Z := fst (GetPeriodLocksAccumulation denom duration k).

(** Four defects of the module.  Deleting a synthetic lock takes its amount
    from the duration of the lock instead of its own, so that an accumulation
    becomes negative.  Adding to a lock that has no synthetic lock adds the amount
    to the accumulation store of the empty denomination.  Locking a denomination
    that extends another by "/node" makes every query of the other's
    accumulation panic.  Breaking a lock pays it out but leaves its references,
    after which the locks cannot be listed, and its accumulation. *)
Theorem lockup_defects :
  (accumulated with_synth synth_denom 14 = Ok 100 /\ accumulated without_synth synth_denom 15 = Ok (-100)) /\
  (accumulated one_lock "" 0 = Ok 0 /\ accumulated twice_locked "" 0 = Ok 11) /\
  (accumulated one_lock "uosmo" 14 = Ok 100 /\ exists m, accumulated shadowed "uosmo" 14 = Panic m) /\
  (fst (BreakLock 1 one_lock) = Ok tt /\ held (lk_ext broken) module_addr = [] /\ accumulated broken "uosmo" 14 = Ok 100 /\
   exists m, fst (GetPeriodLocks broken) = Panic m).
Proof. vm_compute. repeat split; eauto. Qed.
