(* ===== verification/SdkPool.v ===== *)
(** * What the pools of [x/gamm] use of the Cosmos SDK

    The remaining operations of [LegacyDec] and of [sdk.Coins], in the style of
    [SdkMath], [SdkMore] and [SdkCoins]: a class of operations, a class of
    documented laws; [SdkPoolRef] has reference instances. *)

From Stdlib Require Import ZArith Lia List Bool String Sorted Permutation.
From S2P Require Import Prelude GoBig BigInt BigDec SdkMath SdkMore Store GoState SdkCoins.
Import ListNotations.

Class SdkPool : Type := {
  dec_TruncateDec : Z -> Z;
  dec_TruncateInt64 : Z -> Res Z;
  dec_ApproxSqrt : Z -> Res Z;
  (** [math.LegacyMaxSortableDec] *)
  LegacyMaxSortableDec : Z
}.

Class SdkPoolSpec (S : SdkMath) (M : SdkMore) (P : SdkPool) : Prop := {
  dec_TruncateDec_exact a : dec_TruncateDec a = Z.quot a OneDec * OneDec;
  dec_TruncateInt64_exact a : Z.abs (Z.quot a OneDec) < 2 ^ 63 -> dec_TruncateInt64 a = Ok (Z.quot a OneDec);
  LegacyMaxSortableDec_exact : LegacyMaxSortableDec = 10 ^ 36;
  dec_Mul_one a : sdk_fits a -> dec_Mul OneDec a = Ok a;
  dec_Power_zero a : dec_Power a 0 = Ok OneDec;
  dec_Power_one a : sdk_fits a -> dec_Power a 1 = Ok a;
  dec_Quo_total a b : 0 <= a -> 0 < b -> sdk_fits (a * 10 ^ 36) -> is_ok (dec_Quo a b) = true;
  dec_RoundInt_total a : Z.abs a < 2 ^ 255 -> is_ok (dec_RoundInt a) = true;
  (** [Mul] and [Quo] keep signs. *)
  dec_Mul_nonneg a b r : 0 <= a -> 0 <= b -> dec_Mul a b = Ok r -> 0 <= r;
  dec_Quo_nonneg a b r : 0 <= a -> 0 < b -> dec_Quo a b = Ok r -> 0 <= r;
  (** Rounding to nearest does not cross a representable number. *)
  dec_Quo_le a b r m : 0 < b -> 0 <= m -> a * OneDec <= m * b -> dec_Quo a b = Ok r -> r <= m;
  dec_Quo_ge a b r m : 0 <= a -> 0 < b -> m * b <= a * OneDec -> dec_Quo a b = Ok r -> m <= r
}.

Class CoinsMore : Type := {
  Coins_DenomsSubsetOf : list Coin -> list Coin -> bool;
  Coins_IsAnyGT : list Coin -> list Coin -> bool;
  Coins_IsAllGTE : list Coin -> list Coin -> bool;
  Coins_AmountOfNoDenomValidation : list Coin -> string -> Z;
  Coins_Sort : list Coin -> list Coin
}.

Class CoinsMoreSpec (C : CoinsOps) (CM : CoinsMore) : Prop := {
  Coins_DenomsSubsetOf_spec a b : coins_ok a -> coins_ok b ->
    Coins_DenomsSubsetOf a b = true <-> forall d, amount_of a d <> 0 -> amount_of b d <> 0;
  Coins_IsAnyGT_spec a b : coins_ok a -> coins_ok b ->
    Coins_IsAnyGT a b = true <-> exists d, amount_of b d <> 0 /\ amount_of b d < amount_of a d;
  Coins_IsAllGTE_spec a b : coins_ok a -> coins_ok b ->
    Coins_IsAllGTE a b = true <-> forall d, amount_of b d <= amount_of a d;
  Coins_AmountOfNoDenomValidation_spec a d : coins_ok a -> Coins_AmountOfNoDenomValidation a d = amount_of a d;
  (** The sort is not stable; on coins without repetitions there is one order. *)
  Coins_Sort_spec cs : Permutation cs (Coins_Sort cs) /\ (NoDup (map Denom cs) -> StronglySorted denom_lt (Coins_Sort cs));
  Coins_Sub_total a b : coins_ok a -> coins_ok b -> (forall d, amount_of b d <= amount_of a d) -> exists r, Coins_Sub a b = Ok r;
  (** A missing denomination makes [Sub] panic. *)
  Coins_Sub_panics a b d : coins_ok a -> coins_ok b -> amount_of a d < amount_of b d -> exists m, Coins_Sub a b = Panic m
}.

(** ** Facts *)

Lemma nonzero_in cs d : amount_of cs d <> 0 -> In d (map Denom cs).
Proof. intros N. destruct (in_dec String.string_dec d (map Denom cs)) as [I|A]; [exact I|]. now rewrite amount_absent in N. Qed.

Section Facts.
Context {C : CoinsOps}.

Lemma amount_coin cs d : coins_ok cs -> amount_of cs d <> 0 -> exists c, In c cs /\ Denom c = d /\ Amount c = amount_of cs d.
Proof.
  intros O N. apply nonzero_in, in_map_iff in N as (c & <- & I). exists c. repeat split; [exact I|]. symmetry. now apply amount_in.
Qed.

Lemma in_amount_pos cs c : coins_ok cs -> In c cs -> 0 < Amount c.
Proof. intros [_ F] I. rewrite Forall_forall in F. now apply F. Qed.

Lemma below_absent c b : coins_ok b -> (match b with [] => True | e :: _ => denom_lt c e end) -> amount_of b (Denom c) = 0.
Proof.
  intros O L. apply amount_absent. intros I. destruct b as [|e b]; [destruct I|]. destruct O as [Sd _]. inversion Sd as [|? ? _ F]; subst.
  destruct I as [E | I].
  - unfold denom_lt in L. rewrite E in L. exact (blt_irrefl _ L).
  - apply in_map_iff in I as (x & E & I). rewrite Forall_forall in F. specialize (F x I). unfold denom_lt in *. rewrite E in F.
    exact (blt_irrefl _ (blt_trans _ _ _ L F)).
Qed.

(** Valid coins are determined by their amounts. *)
Lemma coins_ext a : forall b, coins_ok a -> coins_ok b -> (forall d, amount_of a d = amount_of b d) -> a = b.
Proof.
  induction a as [|c a IH]; intros [|e b] Oa Ob E; [reflexivity| | |].
  - specialize (E (Denom e)). rewrite (amount_in e (e :: b)) in E; [|exact Ob | now left]. pose proof (in_amount_pos _ e Ob (or_introl eq_refl)). cbn in E. lia.
  - specialize (E (Denom c)). rewrite (amount_in c (c :: a)) in E; [|exact Oa | now left]. pose proof (in_amount_pos _ c Oa (or_introl eq_refl)). cbn in E. lia.
  - pose proof (in_amount_pos _ c Oa (or_introl eq_refl)) as Pc. pose proof (in_amount_pos _ e Ob (or_introl eq_refl)) as Pe.
    assert (D : Denom c = Denom e).
    { destruct (bcompare (string_bytes (Denom c)) (string_bytes (Denom e))) eqn:Cm.
      - now apply bcompare_eq, string_bytes_inj in Cm.
      - exfalso. specialize (E (Denom c)). rewrite (amount_in c (c :: a)), (below_absent c (e :: b)) in E; [lia | exact Ob | exact Cm | exact Oa | now left].
      - exfalso. specialize (E (Denom e)). rewrite (amount_in e (e :: b)), (below_absent e (c :: a)) in E;
          [lia | exact Oa | unfold denom_lt, blt; now rewrite bcompare_antisym, Cm | exact Ob | now left]. }
    assert (A : Amount c = Amount e).
    { specialize (E (Denom c)). rewrite (amount_in c (c :: a)) in E; [|exact Oa | now left]. rewrite D, (amount_in e (e :: b)) in E; [exact E | exact Ob | now left]. }
    f_equal; [destruct c, e; cbn in *; congruence|]. apply IH; [now apply coins_ok_tail in Oa | now apply coins_ok_tail in Ob|].
    intros d. specialize (E d). rewrite !amount_cons, D, A in E. lia.
Qed.

Lemma sorted_denoms (l l' : list Coin) : map Denom l = map Denom l' -> StronglySorted denom_lt l -> StronglySorted denom_lt l'.
Proof.
  revert l'. induction l as [|c l IH]; intros [|c' l'] E Sd; try discriminate E; [constructor|]. injection E as E0 E. inversion Sd as [|? ? Sl F]; subst.
  constructor; [now apply IH|]. rewrite Forall_forall in *. intros e I. apply (in_map Denom) in I. rewrite <- E in I. apply in_map_iff in I as (x & Ex & I).
  unfold denom_lt in *. rewrite <- E0, <- Ex. exact (F x I).
Qed.

(** The denominations of valid coins are those with an amount, in order. *)
Lemma same_denoms a b : coins_ok a -> coins_ok b -> (forall d, amount_of a d = 0 <-> amount_of b d = 0) -> map Denom a = map Denom b.
Proof.
  intros Oa Ob Z0. set (a' := map (fun c => {| Denom := Denom c; Amount := amount_of b (Denom c) |}) a).
  assert (Ed : map Denom a' = map Denom a) by (unfold a'; rewrite map_map; reflexivity).
  assert (Nz : forall c, In c a -> amount_of b (Denom c) <> 0).
  { intros c I E. apply Z0 in E. rewrite (amount_in c a Oa I) in E. pose proof (in_amount_pos a c Oa I). lia. }
  assert (O' : coins_ok a').
  { split; [apply (sorted_denoms a); [now rewrite Ed | apply Oa]|]. apply Forall_map, Forall_forall. intros c I. cbn [Denom Amount].
    pose proof (coins_ok_nonneg b (Denom c) Ob). specialize (Nz c I). split; [lia|]. destruct Oa as [_ F]. rewrite Forall_forall in F. now apply F. }
  rewrite <- Ed. f_equal. apply coins_ext; [exact O' | exact Ob|]. intros d. destruct (in_dec String.string_dec d (map Denom a)) as [I|A].
  - apply in_map_iff in I as (c & <- & I). exact (amount_in _ a' O' (in_map (fun c => {| Denom := Denom c; Amount := amount_of b (Denom c) |}) a c I)).
  - rewrite (amount_absent a') by now rewrite Ed. symmetry. apply Z0. now apply amount_absent.
Qed.

Lemma coins_nodup cs : coins_ok cs -> NoDup (map Denom cs).
Proof.
  intros [Sd _]. induction Sd as [|c cs _ IH F]; cbn [map]; constructor; [now apply later_absent | exact IH].
Qed.

Lemma denom_amount cs d : coins_ok cs -> In d (map Denom cs) <-> amount_of cs d <> 0.
Proof.
  intros O. split; [|apply nonzero_in]. intros I. apply in_map_iff in I as (c & <- & I). rewrite (amount_in c cs O I). pose proof (in_amount_pos cs c O I). lia.
Qed.

(** As many coins as the pool has assets, and of its denominations only. *)
Lemma coins_cover cs l : coins_ok cs -> coins_ok l -> List.length cs = List.length l -> (forall d, amount_of cs d <> 0 -> amount_of l d <> 0) ->
  forall d, amount_of l d <> 0 -> amount_of cs d <> 0.
Proof.
  intros Oc Ol Len Sub d Nz. apply (denom_amount cs d Oc). apply (denom_amount l d Ol) in Nz. revert d Nz.
  apply NoDup_length_incl; [now apply coins_nodup | rewrite !length_map; lia|]. intros d I. apply (denom_amount l d Ol), Sub. now apply (denom_amount cs d Oc).
Qed.

End Facts.
