(* ===== verification/SdkPoolRef.v ===== *)
(** * Reference instances for [SdkPool]

    Instances of the classes of [SdkPool] that satisfy their laws; the concrete
    examples run on them. *)

From Stdlib Require Import ZArith Lia List Bool String Sorted Permutation.
From S2P Require Import Prelude GoBig BigInt BigDec SdkMath SdkMore Store GoState SdkCoins SdkCoinsRef SdkPool.
Import ListNotations.

(** Newton's iteration of the SDK stops at a square root that is exact to one
    unit; the integer square root is within that. *)
#[export] Instance sdk_pool_ref : SdkPool := {|
  dec_TruncateDec a := Z.quot a OneDec * OneDec;
  dec_TruncateInt64 a := if IsInt64 (Z.quot a OneDec) then Ok (Z.quot a OneDec) else Panic "Int64() out of bound";
  dec_ApproxSqrt a := if a <? 0 then Err "cannot calculate square root of a negative number" else Ok (Z.sqrt (a * OneDec));
  LegacyMaxSortableDec := 10 ^ 36
|}.

Lemma nearest_nonneg a : 0 <= a -> 0 <= nearest a.
Proof. intros H. pose proof (nearest_bound a). pose proof OneDec_pos. nia. Qed.

#[export] Instance sdk_pool_ref_spec : SdkPoolSpec sdk_ref sdk_more_ref sdk_pool_ref.
Proof.
  pose proof OneDec_pos as P. split; cbn [dec_TruncateDec dec_TruncateInt64 LegacyMaxSortableDec sdk_pool_ref].
  - reflexivity.
  - intros a H. replace (IsInt64 (Z.quot a OneDec)) with true; [reflexivity|]. symmetry. apply IsInt64_spec. lia.
  - reflexivity.
  - intros a F. cbn [dec_Mul sdk_more_ref]. rewrite (Z.mul_comm OneDec a), nearest_exact. now apply sdk_check_total.
  - reflexivity.
  - intros a F. cbn [dec_Power sdk_more_ref Z.eqb dec_power_loop]. cbn [Z.leb Z.compare Pos.compare Pos.compare_cont].
    rewrite nearest_exact. now apply sdk_check_total.
  - intros a b Ha Hb F. cbn [dec_Quo sdk_ref]. destruct (Z.eqb_spec b 0); [lia|]. rewrite bigQuo_ok by lia. cbn [bind].
    apply sdk_check_is_ok. revert F. apply sdk_fits_le. rewrite quot_nonneg by nia.
    pose proof (div_spec (2 * a * OneDec + b) (2 * b) ltac:(lia)) as D. set (q := (2 * a * OneDec + b) / (2 * b)) in *.
    assert (1 < OneDec) by reflexivity. change (10 ^ 36) with (OneDec * OneDec).
    destruct (Z.eq_dec a 0) as [-> | N]; [assert (q = 0) by nia; lia|]. assert (2 * q <= 2 * a * OneDec + 1) by nia. nia.
  - intros a H. cbn [dec_RoundInt sdk_more_ref]. rewrite int_check_total; [reflexivity|]. pose proof (nearest_bound a). assert (1 < OneDec) by reflexivity. nia.
  - intros a b r Ha Hb H. apply sdk_check_ok in H as ->. apply nearest_nonneg. nia.
  - intros a b r Ha Hb H. cbn [dec_Quo sdk_ref] in H. destruct (Z.eqb_spec b 0); [lia|]. rewrite bigQuo_ok in H by lia. cbn [bind] in H.
    apply sdk_check_ok in H as ->. apply Z.quot_pos; nia.
  - intros a b r m Hb Hm L H. cbn [dec_Quo sdk_ref] in H. destruct (Z.eqb_spec b 0); [lia|]. rewrite bigQuo_ok in H by lia. cbn [bind] in H.
    apply sdk_check_ok in H as ->. pose proof (Z.quot_le_mono (2 * a * OneDec + b) (m * (2 * b) + b) (2 * b) ltac:(lia) ltac:(lia)) as Q.
    rewrite (quot_nonneg (m * (2 * b) + b)), Z.div_add_l, (Z.div_small b) in Q by nia. lia.
  - intros a b r m Ha Hb L H. cbn [dec_Quo sdk_ref] in H. destruct (Z.eqb_spec b 0); [lia|]. rewrite bigQuo_ok in H by lia. cbn [bind] in H.
    apply sdk_check_ok in H as ->. rewrite quot_nonneg by nia. apply Z.div_le_lower_bound; nia.
Qed.

Fixpoint ins_coin (c : Coin) (l : list Coin) : list Coin :=
  match l with
  | [] => [c]
  | e :: l' => if bltb (string_bytes (Denom e)) (string_bytes (Denom c)) then e :: ins_coin c l' else c :: l
  end.

#[export] Instance coins_more_ref : CoinsMore := {|
  Coins_DenomsSubsetOf a b := forallb (fun c => negb (amount_of b (Denom c) =? 0)) a;
  Coins_IsAnyGT a b := existsb (fun c => negb (amount_of b (Denom c) =? 0) && (amount_of b (Denom c) <? Amount c)) a;
  Coins_IsAllGTE a b := forallb (fun c => Amount c <=? amount_of a (Denom c)) b;
  Coins_AmountOfNoDenomValidation := amount_of;
  Coins_Sort := fold_right ins_coin []
|}.

Lemma ins_coin_perm c l : Permutation (c :: l) (ins_coin c l).
Proof.
  induction l as [|e l IH]; cbn; [reflexivity|]. destruct (bltb _ _); [|reflexivity].
  rewrite perm_swap. now apply perm_skip.
Qed.

Lemma ins_coin_sorted c l : ~ In (Denom c) (map Denom l) -> StronglySorted denom_lt l -> StronglySorted denom_lt (ins_coin c l).
Proof.
  induction l as [|e l IH]; intros N Sd; cbn [ins_coin]; [repeat constructor|]. inversion Sd as [|? ? Sl F]; subst.
  destruct (bltb (string_bytes (Denom e)) (string_bytes (Denom c))) eqn:L.
  - constructor; [apply IH; [cbn in N; tauto | exact Sl]|]. rewrite Forall_forall in *. intros y I.
    apply (Permutation_in _ (Permutation_sym (ins_coin_perm c l))) in I as [<- | I]; [now apply bltb_spec | auto].
  - assert (Lt : denom_lt c e).
    { unfold denom_lt, blt. unfold bltb in *. destruct (bcompare (string_bytes (Denom e)) (string_bytes (Denom c))) eqn:Ce; try discriminate L.
      - apply bcompare_eq in Ce. apply string_bytes_inj in Ce. exfalso. apply N. left. exact Ce.
      - rewrite bcompare_antisym, Ce. reflexivity. }
    constructor; [exact Sd|]. constructor; [exact Lt|]. revert F. apply Forall_impl. intros y. unfold denom_lt. intros Hy.
    exact (blt_trans _ _ _ Lt Hy).
Qed.

Lemma sort_perm cs : Permutation cs (fold_right ins_coin [] cs).
Proof. induction cs as [|c cs IH]; cbn; [reflexivity|]. rewrite <- ins_coin_perm. now apply perm_skip. Qed.

#[export] Instance coins_more_ref_spec : CoinsMoreSpec coins_ref coins_more_ref.
Proof.
  split; cbn [Coins_DenomsSubsetOf Coins_IsAnyGT Coins_IsAllGTE Coins_AmountOfNoDenomValidation Coins_Sort coins_more_ref].
  - intros a b Oa Ob. rewrite forallb_forall. split.
    + intros H d N. apply nonzero_in, in_map_iff in N as (c & <- & I). specialize (H c I). b2p. assumption.
    + intros H c I. apply negb_true_iff, Z.eqb_neq, H. rewrite amount_in by assumption. pose proof (in_amount_pos a c Oa I). lia.
  - intros a b Oa Ob. rewrite existsb_exists. split.
    + intros (c & I & H). b2p. exists (Denom c). rewrite (amount_in c a) by assumption. auto.
    + intros (d & N & L). destruct (amount_coin a d Oa) as (c & I & <- & E); [pose proof (coins_ok_nonneg b d Ob); lia|].
      exists c. split; [exact I|]. rewrite E. apply andb_true_iff. split; [now apply negb_true_iff, Z.eqb_neq | now apply Z.ltb_lt].
  - intros a b Oa Ob. rewrite forallb_forall. split.
    + intros H d. destruct (Z.eq_dec (amount_of b d) 0) as [-> | N]; [now apply coins_ok_nonneg|].
      destruct (amount_coin b d Ob N) as (c & I & <- & <-). now apply Z.leb_le, H.
    + intros H c I. apply Z.leb_le. rewrite <- (amount_in c b) by assumption. apply H.
  - reflexivity.
  - intros cs. split; [apply sort_perm|]. induction cs as [|c cs IH]; cbn [fold_right map]; intros N; [constructor|]. inversion N; subst.
    apply ins_coin_sorted; [|now apply IH]. intros I. apply in_map_iff in I as (e & E & I).
    apply (Permutation_in _ (Permutation_sym (sort_perm cs))) in I. apply in_map with (f := Denom) in I. rewrite E in I. contradiction.
  - intros a b Oa Ob H. cbn [Coins_Sub coins_ref]. destruct (forallb _ _) eqn:E; [eauto|]. exfalso.
    enough (X : forallb (fun c => 0 <? Amount c) (canon_coins (a ++ map neg_coin b)) = true) by congruence.
    apply forallb_forall. intros c I. apply canon_member in I as (Ea & N & _). apply Z.ltb_lt.
    rewrite amount_app, amount_neg in Ea. specialize (H (Denom c)). lia.
  - intros a b d Oa Ob H. cbn [Coins_Sub coins_ref]. destruct (forallb _ _) eqn:E; [|eauto]. exfalso. rewrite forallb_forall in E.
    assert (Am : amount_of (canon_coins (a ++ map neg_coin b)) d = amount_of a d - amount_of b d) by (rewrite amount_canon, amount_app, amount_neg; lia).
    assert (N : In d (map Denom (canon_coins (a ++ map neg_coin b)))) by (apply nonzero_in; lia).
    apply in_map_iff in N as (c & <- & I). pose proof (E c I) as P. apply canon_member in I as (Ea & _). rewrite amount_canon in Am. b2p. lia.
Qed.
