(* ===== verification/DecMath.v ===== *)
(** * [osmomath/math.go]

    Powers of a [Dec] with a fractional exponent: the integer part of the
    exponent by repeated multiplication, the fractional part by the binomial
    series.  The loop of [PowApprox] ends with the source's own bound of
    iterations, which is its fuel. *)

From Stdlib Require Import ZArith Lia List Bool String.
From S2P Require Import Prelude GoBig BigInt BigDec SdkMath SdkMore SdkPool.

Definition powPrecision : Z := 10 ^ 10.
Definition powIterationLimit : Z := 150000.
Definition one_half : Z := 5 * 10 ^ 17.
Definition twoDec : Z := 2 * OneDec.

Definition GetPowPrecision : Z := powPrecision.

Section Math.
Context {S : SdkMath} {M : SdkMore} {P : SdkPool}.

Definition AbsDifferenceWithSign (a b : Z) : Res (Z * bool) :=
  if b <=? a then d <- dec_Sub a b ;; Ok (d, false)
  else d <- dec_Add (- a) b ;; Ok (d, true).

(** The loop of [PowApprox], at iteration [i]; [x] is [|base - 1|]. *)
Fixpoint powLoop (fuel : nat) (exp precision x : Z) (xneg : bool) (i term sum : Z) (negative : bool) : Res Z :=
  match fuel with
  | O => Panic "failed to reach precision"
  | Datatypes.S fuel' =>
      if term <? precision then Ok sum else
      '(c, cneg) <- AbsDifferenceWithSign exp ((i - 1) * OneDec) ;;
      t1 <- dec_Mul term c ;;
      t2 <- dec_Mul t1 x ;;
      term' <- dec_Quo t2 (i * OneDec) ;;
      if term' =? 0 then Ok sum else
      let n1 := if xneg then negb negative else negative in
      let n2 := if cneg then negb n1 else n1 in
      sum' <- (if n2 then dec_Sub sum term' else dec_Add sum term') ;;
      if i =? powIterationLimit then Panic "failed to reach precision"
      else powLoop fuel' exp precision x xneg (i + 1) term' sum' n2
  end.

Definition PowApprox (originalBase exp precision : Z) : Res Z :=
  if negb (0 <? originalBase) then Panic "base must be greater than 0" else
  if exp =? 0 then Ok OneDec else
  if exp =? one_half then
    match dec_ApproxSqrt originalBase with
    | Ok r => Ok r
    | Err e => Panic e
    | Panic m => Panic m
    end
  else
  '(x, xneg) <- AbsDifferenceWithSign originalBase OneDec ;;
  powLoop (Z.to_nat powIterationLimit) exp precision x xneg 1 OneDec OneDec false.

Definition Pow (base exp : Z) : Res Z :=
  if negb (0 <? base) then Panic "base must be greater than 0" else
  if twoDec <=? base then Panic "base must be lesser than two" else
  let integer := dec_TruncateDec exp in
  fractional <- dec_Sub exp integer ;;
  n <- dec_TruncateInt64 integer ;;
  integerPow <- dec_Power base (uint64 n) ;;
  if fractional =? 0 then Ok integerPow else
  fractionalPow <- PowApprox base fractional powPrecision ;;
  dec_Mul integerPow fractionalPow.

End Math.
