(* ===== verification/DecMathReal.v ===== *)
(** * The accuracy of fractional powers

    [PowApprox] against the real power: for bases between 1/2 and 3/2 the loop
    ends after at most 27 terms, and its sum is within [powPrecision] (and a few
    units of the last decimal) of the power.  The comments of the source leave
    this open ("perhaps this actually is true").

    The first part is about the binomial series: for [|x| <= 1/2] and
    [0 <= a <= 1] the distance of a partial sum from [(1 + x)^a] is at most twice
    the next term. *)

From Stdlib Require Import ZArith Lia List Bool String Reals Lra.
From S2P Require Import Prelude GoBig BigInt BigDec SdkMath SdkMore SdkPool SdkPoolRef DecMath.

#[local] Open Scope R_scope.

(** ** The binomial series *)

Lemma abs_between y b : Rabs y <= b -> - b <= y <= b.
Proof. intros L. unfold Rabs in L. destruct (Rcase_abs y); lra. Qed.

Lemma derive_eq f y l l' : l = l' -> derivable_pt_lim f y l -> derivable_pt_lim f y l'.
Proof. now intros ->. Qed.

Lemma Rpower_one e : Rpower 1 e = 1.
Proof. unfold Rpower. now rewrite ln_1, Rmult_0_r, exp_0. Qed.

Section Series.
Context (x a : R).

(** The terms, and the polynomial [sum_{k <= n} T k * v^k]. *)
Fixpoint T (k : nat) : R :=
  match k with
  | O => 1
  | S j => T j * x * (a - INR j) / INR (S j)
  end.

Fixpoint Q (n : nat) (v : R) : R :=
  match n with
  | O => 1
  | S m => Q m v + T (S m) * v ^ S m
  end.

Fixpoint Q' (n : nat) (v : R) : R :=
  match n with
  | O => 0
  | S m => Q' m v + T (S m) * (INR (S m) * v ^ m)
  end.

Definition partial (n : nat) : R := Q n 1.

Lemma INR_S_pos n : 0 < INR (S n).
Proof. apply lt_0_INR. lia. Qed.

Lemma T_step k : INR (S k) * T (S k) = T k * x * (a - INR k).
Proof. cbn [T]. pose proof (INR_S_pos k). field. lra. Qed.

Lemma Q_derive n v : derivable_pt_lim (Q n) v (Q' n v).
Proof.
  induction n as [|n IH].
  - apply derivable_pt_lim_const.
  - apply (derivable_pt_lim_plus (Q n) (fun w => T (S n) * w ^ S n)); [exact IH|].
    apply (derivable_pt_lim_scal (fun w => w ^ S n)). exact (derivable_pt_lim_pow v (S n)).
Qed.

(** The differential equation of [(1 + v x)^a], up to one term. *)
Lemma Q_equation n v : Q' n v * (1 + v * x) - a * x * Q n v = - (INR (S n) * T (S n) * v ^ n).
Proof.
  induction n as [|n IH].
  - rewrite T_step. cbn. ring.
  - cbn [Q Q']. rewrite (T_step (S n)).
    replace ((Q' n v + T (S n) * (INR (S n) * v ^ n)) * (1 + v * x) - a * x * (Q n v + T (S n) * v ^ S n))
      with ((Q' n v * (1 + v * x) - a * x * Q n v) + INR (S n) * T (S n) * v ^ n * (1 + v * x) - a * x * T (S n) * v ^ S n) by ring.
    rewrite IH. cbn [pow]. ring.
Qed.

Context (Hx : Rabs x <= / 2) (Ha : 0 <= a <= 1).

Lemma base_bounds v : 0 <= v <= 1 -> / 2 <= 1 + v * x <= 3 / 2.
Proof.
  intros [H0 H1]. apply abs_between in Hx. destruct Hx as [L U]. split.
  - assert (v * (x + / 2) >= 0) by nra. nra.
  - assert (v * (/ 2 - x) >= 0) by nra. nra.
Qed.

Definition F (n : nat) (v : R) : R := Q n v * Rpower (1 + v * x) (- a).
Definition F' (n : nat) (v : R) : R := - (INR (S n) * T (S n) * v ^ n) * Rpower (1 + v * x) (- a - 1).

Lemma affine_derive v : derivable_pt_lim (fun w => 1 + w * x) v x.
Proof.
  apply (derive_eq _ _ (0 + (1 * x + v * 0))); [ring|].
  apply (derivable_pt_lim_plus (fun _ => 1) (fun w => w * x)); [apply derivable_pt_lim_const|].
  apply (derivable_pt_lim_mult id (fun _ => x)); [apply derivable_pt_lim_id | apply derivable_pt_lim_const].
Qed.

Lemma F_derive n v : 0 <= v <= 1 -> derivable_pt_lim (F n) v (F' n v).
Proof.
  intros Hv. pose proof (base_bounds v Hv) as B.
  assert (P : derivable_pt_lim (fun w => Rpower (1 + w * x) (- a)) v (- a * Rpower (1 + v * x) (- a - 1) * x)).
  { apply (derivable_pt_lim_comp (fun w => 1 + w * x) (fun y => Rpower y (- a))); [apply affine_derive|].
    apply derivable_pt_lim_power. lra. }
  apply (derive_eq _ _ (Q' n v * Rpower (1 + v * x) (- a) + Q n v * (- a * Rpower (1 + v * x) (- a - 1) * x)));
    [|apply (derivable_pt_lim_mult (Q n) (fun w => Rpower (1 + w * x) (- a))); [apply Q_derive | exact P]].
  - unfold F'. rewrite <- Q_equation.
    assert (E : Rpower (1 + v * x) (- a) = Rpower (1 + v * x) (- a - 1) * (1 + v * x)).
    { rewrite <- (Rpower_1 (1 + v * x)) at 3 by lra. rewrite <- Rpower_plus. f_equal. ring. }
    rewrite E. ring.
Qed.

(** A bound for [(1 + v x)^(-a-1)] on the interval. *)
Definition peak : R := Rmax 1 (Rpower (1 + x) (- a - 1)).

Lemma Rpower_base_le c d e : 0 < c <= d -> e <= 0 -> Rpower d e <= Rpower c e.
Proof.
  intros Hc He. unfold Rpower. assert (ln c <= ln d) by (destruct Hc as [P [L|E]]; [left; now apply ln_increasing | right; now rewrite E]).
  destruct (Rle_lt_or_eq_dec (e * ln d) (e * ln c)) as [L|E]; [nra | left; now apply exp_increasing | right; now rewrite E].
Qed.

Lemma peak_bound v : 0 <= v <= 1 -> Rpower (1 + v * x) (- a - 1) <= peak.
Proof.
  intros Hv. pose proof (base_bounds v Hv) as B. pose proof (base_bounds 1 ltac:(lra)) as B1. rewrite Rmult_1_l in B1. unfold peak.
  destruct (Rle_or_lt 0 x) as [P|N].
  - apply Rle_trans with 1; [|apply Rmax_l]. apply Rle_trans with (Rpower 1 (- a - 1)); [|right; apply Rpower_one].
    apply Rpower_base_le; [|lra]. assert (0 <= v * x) by nra. lra.
  - apply Rle_trans with (Rpower (1 + x) (- a - 1)); [|apply Rmax_r]. apply Rpower_base_le; [|lra].
    assert (x <= v * x) by nra. lra.
Qed.

Lemma nonneg_derive_le f f' : (forall c, 0 <= c <= 1 -> derivable_pt_lim f c (f' c)) -> (forall c, 0 <= c <= 1 -> 0 <= f' c) -> f 0 <= f 1.
Proof.
  intros D P. destruct (MVT_cor2 f f' 0 1 ltac:(lra) D) as (c & E & Hc). specialize (P c ltac:(lra)). lra.
Qed.

Definition Major (n : nat) (v : R) : R := peak * Rabs (T (S n)) * v ^ S n.
Definition Major' (n : nat) (v : R) : R := peak * Rabs (T (S n)) * (INR (S n) * v ^ n).

Lemma Major_derive n v : derivable_pt_lim (Major n) v (Major' n v).
Proof. apply (derivable_pt_lim_scal (fun w => w ^ S n)). exact (derivable_pt_lim_pow v (S n)). Qed.

Lemma F'_bound n v : 0 <= v <= 1 -> Rabs (F' n v) <= Major' n v.
Proof.
  intros Hv. unfold F', Major'. pose proof (INR_S_pos n). pose proof (pow_le v n (proj1 Hv)) as Pv. pose proof (peak_bound v Hv) as Pk.
  assert (Pp : 0 < Rpower (1 + v * x) (- a - 1)) by apply exp_pos.
  rewrite Rabs_mult, Rabs_Ropp, !Rabs_mult, (Rabs_right (INR (S n))), (Rabs_right (v ^ n)), (Rabs_right (Rpower _ _)) by lra.
  pose proof (Rabs_pos (T (S n))) as PT.
  replace (peak * Rabs (T (S n)) * (INR (S n) * v ^ n)) with (INR (S n) * Rabs (T (S n)) * v ^ n * peak) by ring.
  apply Rmult_le_compat_l; [|exact Pk]. apply Rmult_le_pos; [apply Rmult_le_pos|]; lra.
Qed.

Lemma Q_zero n : Q n 0 = 1.
Proof. induction n as [|n IH]; [reflexivity|]. cbn [Q pow]. rewrite IH. ring. Qed.

Lemma F_close n : Rabs (F n 1 - 1) <= peak * Rabs (T (S n)).
Proof.
  assert (F0 : F n 0 = 1) by (unfold F; rewrite Q_zero, Rmult_0_l, Rplus_0_r, Rpower_one; ring).
  assert (H0 : Major n 0 = 0) by (unfold Major; cbn [pow]; ring).
  assert (H1 : Major n 1 = peak * Rabs (T (S n))) by (unfold Major; rewrite pow1; ring).
  assert (U : (Major n - F n)%F 0 <= (Major n - F n)%F 1).
  { apply (nonneg_derive_le _ (fun c => Major' n c - F' n c)).
    - intros c Hc. apply derivable_pt_lim_minus; [apply Major_derive | now apply F_derive].
    - intros c Hc. pose proof (F'_bound n c Hc) as B. apply abs_between in B. lra. }
  assert (L : (Major n + F n)%F 0 <= (Major n + F n)%F 1).
  { apply (nonneg_derive_le _ (fun c => Major' n c + F' n c)).
    - intros c Hc. apply derivable_pt_lim_plus; [apply Major_derive | now apply F_derive].
    - intros c Hc. pose proof (F'_bound n c Hc) as B. apply abs_between in B. lra. }
  unfold minus_fct, plus_fct in U, L. rewrite F0, H0, H1 in *. apply Rabs_le. lra.
Qed.

Lemma peak_power : Rpower (1 + x) a * peak <= 2.
Proof.
  pose proof (base_bounds 1 ltac:(lra)) as B. rewrite Rmult_1_l in B. unfold peak.
  assert (Pp : 0 < Rpower (1 + x) a) by apply exp_pos.
  unfold Rmax. destruct (Rle_dec 1 (Rpower (1 + x) (- a - 1))) as [_|N].
  - rewrite <- Rpower_plus. replace (a + (- a - 1)) with (- (1)) by ring. rewrite Rpower_Ropp, Rpower_1 by lra.
    rewrite <- (Rinv_inv 2). apply Rinv_le_contravar; lra.
  - rewrite Rmult_1_r. apply Rle_trans with (Rpower 2 a).
    + apply Rle_Rpower_l; lra.
    + rewrite <- (Rpower_1 2) at 2 by lra. apply Rle_Rpower; lra.
Qed.

Theorem series_error n : Rabs (partial n - Rpower (1 + x) a) <= 2 * Rabs (T (S n)).
Proof.
  pose proof (F_close n) as Cl. pose proof peak_power as Pp. assert (Pw : 0 < Rpower (1 + x) a) by apply exp_pos.
  unfold partial. replace (Q n 1 - Rpower (1 + x) a) with (Rpower (1 + x) a * (F n 1 - 1)).
  - rewrite Rabs_mult, (Rabs_right (Rpower _ _)) by lra. pose proof (Rabs_pos (T (S n))).
    apply Rle_trans with (Rpower (1 + x) a * (peak * Rabs (T (S n)))); [apply Rmult_le_compat_l; lra|].
    rewrite <- Rmult_assoc. now apply Rmult_le_compat_r.
  - unfold F. rewrite Rmult_1_l, Rmult_minus_distr_l, Rmult_1_r. f_equal.
    rewrite <- Rmult_assoc, (Rmult_comm _ (Q n 1)), Rmult_assoc, <- Rpower_plus.
    replace (a + - a) with 0 by ring. pose proof (base_bounds 1 ltac:(lra)). rewrite Rpower_O by lra. ring.
Qed.

(** ** The terms shrink by half. *)

Lemma T_half k : Rabs (T (S k)) <= / 2 * Rabs (T k).
Proof.
  pose proof (INR_S_pos k) as P. assert (E : T (S k) = T k * (x * ((a - INR k) / INR (S k)))) by (cbn [T]; field; lra).
  rewrite E, Rabs_mult, Rmult_comm. apply Rmult_le_compat_r; [apply Rabs_pos|]. rewrite Rabs_mult.
  assert (C : Rabs ((a - INR k) / INR (S k)) <= 1).
  { unfold Rdiv. rewrite Rabs_mult, (Rabs_right (/ INR (S k))) by (left; now apply Rinv_0_lt_compat).
    apply (Rmult_le_reg_r (INR (S k))); [exact P|]. rewrite Rmult_assoc, Rinv_l, !Rmult_1_r, Rmult_1_l by lra.
    rewrite S_INR in *. pose proof (pos_INR k). apply Rabs_le. lra. }
  pose proof (Rabs_pos x). pose proof (Rabs_pos ((a - INR k) / INR (S k))). nra.
Qed.

Lemma T_bound k : Rabs (T k) <= (/ 2) ^ k.
Proof.
  induction k as [|k IH]; [cbn; rewrite Rabs_R1; lra|]. cbn [pow]. eapply Rle_trans; [apply T_half|]. nra.
Qed.

Lemma partial_step n : partial (S n) = partial n + T (S n).
Proof. unfold partial. cbn [Q]. rewrite pow1. ring. Qed.

Lemma series_error_last n : Rabs (partial n - Rpower (1 + x) a) <= Rabs (T n).
Proof. eapply Rle_trans; [apply series_error|]. pose proof (T_half n). lra. Qed.

End Series.

(** ** Decimals *)

(** The value of a [Dec]. *)
Definition dec_R (d : Z) : R := IZR d / IZR OneDec.

Definition U : R := IZR OneDec.

Lemma U_value : U = 1000000000000000000.
Proof. unfold U, OneDec. apply f_equal. reflexivity. Qed.

Lemma U_pos : 0 < U.
Proof. rewrite U_value. lra. Qed.

Lemma dec_R_units d : U * dec_R d = IZR d.
Proof. unfold dec_R. fold U. pose proof U_pos. field. lra. Qed.

Definition sg (b : bool) : R := if b then -1 else 1.

Lemma sg_negb b : sg (negb b) = - sg b.
Proof. destruct b; cbn; lra. Qed.

Lemma sg_abs b y : Rabs (sg b * y) = Rabs y.
Proof. destruct b; cbn [sg]; [replace (-1 * y) with (- y) by ring; apply Rabs_Ropp | now rewrite Rmult_1_l]. Qed.

Lemma flip_sign (f b : bool) : sg (if f then negb b else b) = sg f * sg b.
Proof. destruct f; cbn [sg]; [rewrite sg_negb|]; ring. Qed.

Section Accuracy.
Context {S : SdkMath} {SS : SdkMathSpec S} {M : SdkMore} {MS : SdkMoreSpec M} {P : SdkPool} {PS : SdkPoolSpec S M P}.

(** ** One operation *)

Lemma mul_real a b r : dec_Mul a b = Ok r -> Rabs (IZR r - IZR a * dec_R b) <= / 2.
Proof.
  intros H. apply dec_Mul_bound in H. apply IZR_le in H. rewrite mult_IZR, abs_IZR, minus_IZR, !mult_IZR in H. fold U in H.
  pose proof U_pos as PU. replace (IZR r - IZR a * dec_R b) with ((IZR r * U - IZR a * IZR b) * / U) by (unfold dec_R; fold U; field; lra).
  rewrite Rabs_mult, (Rabs_right (/ U)) by (left; now apply Rinv_0_lt_compat).
  apply (Rmult_le_reg_r U); [exact PU|]. rewrite Rmult_assoc, Rinv_l, Rmult_1_r by lra. lra.
Qed.

Lemma quo_real a b r : (0 <= a)%Z -> (0 < b)%Z -> dec_Quo a b = Ok r -> Rabs (IZR r - IZR a / dec_R b) <= 1.
Proof.
  intros Ha Hb H. apply dec_Quo_bound in H; [|assumption..]. apply IZR_le in H. rewrite abs_IZR, minus_IZR, !mult_IZR in H. fold U in H.
  pose proof U_pos as PU. apply IZR_lt in Hb.
  replace (IZR r - IZR a / dec_R b) with ((IZR r * IZR b - IZR a * U) * / IZR b) by (unfold dec_R; fold U; field; lra).
  rewrite Rabs_mult, (Rabs_right (/ IZR b)) by (left; now apply Rinv_0_lt_compat).
  apply (Rmult_le_reg_r (IZR b)); [exact Hb|]. rewrite Rmult_assoc, Rinv_l, Rmult_1_r by lra. lra.
Qed.

Lemma abs_diff a b d neg : AbsDifferenceWithSign a b = Ok (d, neg) -> (0 <= d)%Z /\ sg neg * IZR d = IZR a - IZR b.
Proof.
  unfold AbsDifferenceWithSign. destruct (Z.leb_spec b a) as [L|L]; intros H; inv_bind H; inversion H; subst; dec_exact.
  - split; [lia|]. cbn [sg]. rewrite minus_IZR. ring.
  - split; [lia|]. cbn [sg]. rewrite plus_IZR, opp_IZR. ring.
Qed.

Lemma abs_diff_total a b : sdk_fits (a - b) -> exists d neg, AbsDifferenceWithSign a b = Ok (d, neg) /\ d = Z.abs (a - b).
Proof.
  intros F. unfold AbsDifferenceWithSign. destruct (Z.leb_spec b a).
  - rewrite dec_Sub_total by assumption. cbn [bind]. do 2 eexists. split; [reflexivity | lia].
  - rewrite dec_Add_total by (revert F; apply sdk_fits_le; lia). cbn [bind]. do 2 eexists. split; [reflexivity | lia].
Qed.

(** ** The loop *)

Context (x exp : Z) (xneg : bool).
Let X : R := sg xneg * dec_R x.
Let A : R := dec_R exp.
Context (Hx : (0 <= x)%Z) (HX : Rabs X <= / 2) (He : (0 < exp < OneDec)%Z).

Lemma A_range : 0 <= A <= 1.
Proof.
  destruct He as [L G]. apply IZR_lt in L, G. fold U in G. pose proof U_pos. unfold A, dec_R. fold U. split.
  - apply Rmult_le_pos; [lra | left; now apply Rinv_0_lt_compat].
  - apply (Rmult_le_reg_r U); [assumption|]. unfold Rdiv. rewrite Rmult_assoc, Rinv_l by lra. lra.
Qed.

Lemma x_half : dec_R x <= / 2.
Proof. unfold X in HX. rewrite sg_abs in HX. apply abs_between in HX. lra. Qed.

Lemma x_nonneg : 0 <= dec_R x.
Proof. apply IZR_le in Hx. unfold dec_R. fold U. pose proof U_pos. apply Rmult_le_pos; [lra | left; now apply Rinv_0_lt_compat]. Qed.

(** At iteration [j + 1], up to four units per term. *)
Definition LoopInv (j : nat) (term sum : Z) (neg : bool) : Prop :=
  Rabs (sg neg * IZR term - U * T X A j) <= 4 /\ Rabs (IZR sum - U * partial X A j) <= 4 * INR j /\ (0 <= term)%Z.

Lemma error_step e k y : Rabs e <= 4 -> Rabs k <= / 2 -> Rabs y <= 2 -> Rabs (e * k + y) <= 4.
Proof.
  intros He' Hk Hy. eapply Rle_trans; [apply Rabs_triang|]. rewrite Rabs_mult.
  pose proof (Rabs_pos e). pose proof (Rabs_pos k). nra.
Qed.

Lemma rounding_error e1 e2 e3 n xr : Rabs e1 <= / 2 -> Rabs e2 <= / 2 -> Rabs e3 <= 1 -> 0 <= xr <= / 2 -> 1 <= n ->
  Rabs ((e1 * xr + e2) / n + e3) <= 2.
Proof.
  intros H1 H2 H3 Hxr Hn. assert (P1 : Rabs (e1 * xr + e2) <= 1).
  { eapply Rle_trans; [apply Rabs_triang|]. rewrite Rabs_mult, (Rabs_right xr) by lra. pose proof (Rabs_pos e1). nra. }
  eapply Rle_trans; [apply Rabs_triang|]. assert (Rabs ((e1 * xr + e2) / n) <= 1); [|lra].
  unfold Rdiv. rewrite Rabs_mult, (Rabs_right (/ n)) by (left; apply Rinv_0_lt_compat; lra).
  apply (Rmult_le_reg_r n); [lra|]. rewrite Rmult_assoc, Rinv_l by lra. lra.
Qed.

Lemma factor_half j : Rabs (X * ((A - INR j) / INR (Datatypes.S j))) <= / 2.
Proof.
  pose proof (T_half X A HX A_range j) as H. pose proof (INR_S_pos j) as Pj. rewrite Rabs_mult.
  assert (C : Rabs ((A - INR j) / INR (Datatypes.S j)) <= 1).
  { unfold Rdiv. rewrite Rabs_mult, (Rabs_right (/ INR (Datatypes.S j))) by (left; now apply Rinv_0_lt_compat).
    apply (Rmult_le_reg_r (INR (Datatypes.S j))); [exact Pj|]. rewrite Rmult_assoc, Rinv_l, !Rmult_1_r, Rmult_1_l by lra.
    rewrite S_INR in *. pose proof (pos_INR j). pose proof A_range. apply Rabs_le. lra. }
  pose proof (Rabs_pos X). pose proof (Rabs_pos ((A - INR j) / INR (Datatypes.S j))). nra.
Qed.

Lemma IZR_index (j : nat) : dec_R ((Z.of_nat j + 1) * OneDec) = INR (Datatypes.S j).
Proof.
  unfold dec_R. rewrite mult_IZR, plus_IZR, <- INR_IZR_INZ, S_INR. fold U. pose proof U_pos. field. lra.
Qed.

(** The next term, with its sign. *)
Lemma next_term j term sum neg c cneg t1 t2 t3 :
  LoopInv j term sum neg -> AbsDifferenceWithSign exp (Z.of_nat j * OneDec) = Ok (c, cneg) ->
  dec_Mul term c = Ok t1 -> dec_Mul t1 x = Ok t2 -> (0 <= t2)%Z -> dec_Quo t2 ((Z.of_nat j + 1) * OneDec) = Ok t3 ->
  Rabs (sg cneg * (sg xneg * sg neg) * IZR t3 - U * T X A (Datatypes.S j)) <= 4.
Proof.
  intros (It & _ & _) Ec E1 E2 P2 E3. apply abs_diff in Ec as [_ Ec]. apply mul_real in E1, E2.
  apply quo_real in E3; [|exact P2 | pose proof OneDec_pos; lia]. rewrite IZR_index in E3.
  pose proof (INR_S_pos j) as Pj. pose proof U_pos as PU.
  assert (Ec' : sg cneg * dec_R c = A - INR j).
  { unfold A, dec_R. fold U. rewrite mult_IZR, <- INR_IZR_INZ in Ec. fold U in Ec. apply (Rmult_eq_reg_r U); [|lra].
    replace (sg cneg * (IZR c / U) * U) with (sg cneg * IZR c) by (field; lra). rewrite Ec. field. lra. }
  set (e1 := IZR t1 - IZR term * dec_R c) in *. set (e2 := IZR t2 - IZR t1 * dec_R x) in *.
  set (e3 := IZR t3 - IZR t2 / INR (Datatypes.S j)) in *.
  assert (R : IZR t3 = IZR term * dec_R c * dec_R x / INR (Datatypes.S j) + ((e1 * dec_R x + e2) / INR (Datatypes.S j) + e3))
    by (unfold e1, e2, e3; field; lra).
  rewrite R. cbn [T]. set (y := (e1 * dec_R x + e2) / INR (Datatypes.S j) + e3).
  replace (sg cneg * (sg xneg * sg neg) * (IZR term * dec_R c * dec_R x / INR (Datatypes.S j) + y) - U * (T X A j * X * (A - INR j) / INR (Datatypes.S j)))
    with ((sg neg * IZR term - U * T X A j) * (X * ((A - INR j) / INR (Datatypes.S j))) + sg cneg * (sg xneg * (sg neg * y)))
    by (rewrite <- Ec'; unfold X; field; lra).
  apply error_step; [exact It | apply factor_half|]. rewrite !sg_abs. apply rounding_error; auto.
  - split; [apply x_nonneg | apply x_half].
  - rewrite S_INR. pose proof (pos_INR j). lra.
Qed.

Lemma next_loop_inv j term sum neg neg' term' sum' :
  LoopInv j term sum neg -> Rabs (sg neg' * IZR term' - U * T X A (Datatypes.S j)) <= 4 -> (0 <= term')%Z ->
  IZR sum' = IZR sum + sg neg' * IZR term' -> LoopInv (Datatypes.S j) term' sum' neg'.
Proof.
  intros (It & Is & Ip) H Hp Es. split; [exact H|]. split; [|exact Hp].
  rewrite partial_step, Es, (S_INR j). replace (IZR sum + sg neg' * IZR term' - U * (partial X A j + T X A (Datatypes.S j)))
    with ((IZR sum - U * partial X A j) + (sg neg' * IZR term' - U * T X A (Datatypes.S j))) by ring.
  eapply Rle_trans; [apply Rabs_triang|]. lra.
Qed.

(** ** Sizes *)

Lemma term_small j term neg : Rabs (sg neg * IZR term - U * T X A j) <= 4 -> (0 <= term)%Z -> IZR term <= U * (/ 2) ^ j + 4.
Proof.
  intros It Ip. pose proof (T_bound X A HX A_range j) as B. apply IZR_le in Ip. pose proof U_pos as PU.
  assert (E : IZR term = Rabs (sg neg * IZR term)) by (rewrite sg_abs, Rabs_right; lra). rewrite E.
  replace (sg neg * IZR term) with ((sg neg * IZR term - U * T X A j) + U * T X A j) by ring.
  eapply Rle_trans; [apply Rabs_triang|]. rewrite (Rabs_mult U), (Rabs_right U) by lra. nra.
Qed.

Lemma half_pow_le j : (/ 2) ^ j <= 1.
Proof. rewrite <- (pow1 j). apply pow_incr. lra. Qed.

Lemma term_bound j term neg : Rabs (sg neg * IZR term - U * T X A j) <= 4 -> (0 <= term)%Z -> (term <= OneDec + 4)%Z.
Proof.
  intros It Ip. pose proof (term_small _ _ _ It Ip) as I. pose proof (half_pow_le j). pose proof U_pos. apply le_IZR. rewrite plus_IZR. fold U. nra.
Qed.

Lemma term_last term sum neg : LoopInv 27 term sum neg -> (term < powPrecision)%Z.
Proof.
  intros (It & _ & Ip). pose proof (term_small _ _ _ It Ip) as I. apply lt_IZR. unfold powPrecision. change (10 ^ 10)%Z with 10000000000%Z.
  eapply Rle_lt_trans; [exact I|]. rewrite U_value. simpl pow. lra.
Qed.

(** ** What a sum is worth when the loop stops *)

Lemma stop_error j term sum neg b : LoopInv j term sum neg -> (j <= 27)%nat ->
  Rabs (U * partial X A j - U * Rpower (1 + X) A) <= b -> Rabs (IZR sum - U * Rpower (1 + X) A) <= b + 108.
Proof.
  intros (_ & Is & _) Hj Hb. apply le_INR in Hj. replace (INR 27) with 27 in Hj by (cbn; lra).
  replace (IZR sum - U * Rpower (1 + X) A) with ((IZR sum - U * partial X A j) + (U * partial X A j - U * Rpower (1 + X) A)) by ring.
  eapply Rle_trans; [apply Rabs_triang|]. lra.
Qed.

Lemma series_units j b : Rabs (partial X A j - Rpower (1 + X) A) <= b -> Rabs (U * partial X A j - U * Rpower (1 + X) A) <= U * b.
Proof.
  intros H. rewrite <- Rmult_minus_distr_l, Rabs_mult, (Rabs_right U) by (left; exact U_pos). apply Rmult_le_compat_l; [left; exact U_pos | exact H].
Qed.

Lemma abs_term j term neg : Rabs (sg neg * IZR term - U * T X A j) <= 4 -> (0 <= term)%Z -> U * Rabs (T X A j) <= IZR term + 4.
Proof.
  intros It Ip. apply IZR_le in Ip. replace (U * Rabs (T X A j)) with (Rabs (U * T X A j)) by (rewrite Rabs_mult, (Rabs_right U); [reflexivity | left; exact U_pos]).
  replace (U * T X A j) with (sg neg * IZR term + - (sg neg * IZR term - U * T X A j)) by ring.
  eapply Rle_trans; [apply Rabs_triang|]. rewrite sg_abs, Rabs_Ropp, (Rabs_right (IZR term)) by lra. lra.
Qed.

Lemma stop_on_precision j term sum neg : LoopInv j term sum neg -> (j <= 27)%nat -> (term < powPrecision)%Z ->
  Rabs (IZR sum - U * Rpower (1 + X) A) <= 10000000112.
Proof.
  intros I Hj Ht. replace 10000000112 with (10000000004 + 108) by lra. apply (stop_error j term sum neg); [exact I | exact Hj|].
  destruct I as (It & _ & Ip). eapply Rle_trans; [apply series_units, (series_error_last X A HX A_range)|].
  pose proof (abs_term _ _ _ It Ip). apply IZR_lt in Ht. unfold powPrecision in Ht. change (10 ^ 10)%Z with 10000000000%Z in Ht. lra.
Qed.

Lemma stop_on_zero j term sum neg neg' : LoopInv j term sum neg -> (j <= 27)%nat ->
  Rabs (sg neg' * IZR 0 - U * T X A (Datatypes.S j)) <= 4 -> Rabs (IZR sum - U * Rpower (1 + X) A) <= 10000000112.
Proof.
  intros I Hj H0. apply Rle_trans with (8 + 108); [|lra]. apply (stop_error j term sum neg); [exact I | exact Hj|].
  eapply Rle_trans; [apply series_units, (series_error X A HX A_range)|].
  pose proof (abs_term _ _ _ H0 (Z.le_refl 0)). lra.
Qed.

(** ** The loop runs to its end *)

Lemma fits_small y : (Z.abs y <= 10 ^ 80)%Z -> sdk_fits y.
Proof. unfold sdk_fits. assert (10 ^ 80 < 2 ^ 315)%Z by reflexivity. lia. Qed.

Lemma mul_size a b r ba bb : dec_Mul a b = Ok r -> (0 <= a <= ba)%Z -> (0 <= b <= bb)%Z -> (0 <= r)%Z /\ (r * OneDec <= ba * bb + OneDec)%Z.
Proof.
  intros E Ha Hb. split; [apply (dec_Mul_nonneg a b r); [lia | lia | exact E]|]. apply dec_Mul_bound in E. pose proof OneDec_pos. nia.
Qed.

Lemma mul_ok a b : (Z.abs (a * b) <= 10 ^ 79)%Z -> exists r, dec_Mul a b = Ok r.
Proof.
  intros H. assert (F : sdk_fits (2 * (a * b))) by (apply fits_small; lia). pose proof (dec_Mul_total a b F) as E.
  destruct (dec_Mul a b) as [r| |]; try discriminate E. eauto.
Qed.

Lemma prod_size a b ba bb : (0 <= a <= ba)%Z -> (0 <= b <= bb)%Z -> (ba * bb <= 10 ^ 79)%Z -> (Z.abs (a * b) <= 10 ^ 79)%Z.
Proof. intros Ha Hb L. rewrite Z.abs_eq by nia. nia. Qed.

(** The operations of one iteration succeed. *)
Lemma iteration_ok j term : (j <= 27)%nat -> (0 <= term <= OneDec + 4)%Z -> exists c cneg t1 t2 t3,
  AbsDifferenceWithSign exp (Z.of_nat j * OneDec) = Ok (c, cneg) /\ dec_Mul term c = Ok t1 /\ dec_Mul t1 x = Ok t2 /\ (0 <= t2)%Z /\
  dec_Quo t2 ((Z.of_nat j + 1) * OneDec) = Ok t3 /\ (0 <= t3)%Z.
Proof.
  intros Hj Ht. pose proof OneDec_pos as PO. assert (HO : OneDec = (10 ^ 18)%Z) by reflexivity.
  assert (Xb : (x <= OneDec)%Z).
  { apply le_IZR. pose proof x_half as Xh. unfold dec_R in Xh. fold U in *. pose proof U_pos as PU.
    apply (Rmult_le_reg_r (/ U)); [now apply Rinv_0_lt_compat|]. rewrite Rinv_r by lra. unfold Rdiv in Xh. lra. }
  assert (Hj' : (0 <= Z.of_nat j * OneDec <= 27 * OneDec)%Z) by (split; [apply Z.mul_nonneg_nonneg | apply Z.mul_le_mono_nonneg_r]; lia).
  destruct (abs_diff_total exp (Z.of_nat j * OneDec)) as (c & cneg & Ec & Vc); [apply fits_small; rewrite HO in *; lia|].
  assert (Hc : (0 <= c <= 28 * OneDec)%Z) by lia.
  destruct (mul_ok term c) as (t1 & E1); [exact (prod_size _ _ _ _ Ht Hc ltac:(apply Z.leb_le; vm_compute; reflexivity))|]. destruct (mul_size _ _ _ _ _ E1 Ht Hc) as [P1 S1].
  assert (B1 : (0 <= t1 <= 30 * OneDec)%Z) by nia.
  destruct (mul_ok t1 x) as (t2 & E2); [exact (prod_size _ _ _ _ B1 (conj Hx Xb) ltac:(apply Z.leb_le; vm_compute; reflexivity))|]. destruct (mul_size _ _ _ _ _ E2 B1 (conj Hx Xb)) as [P2 S2].
  assert (B2 : (t2 <= 31 * OneDec)%Z) by nia.
  assert (Pi : (0 < (Z.of_nat j + 1) * OneDec)%Z) by nia.
  assert (F2 : sdk_fits (t2 * 10 ^ 36)) by (apply fits_small; rewrite Z.abs_eq by nia; rewrite HO in B2; lia).
  pose proof (dec_Quo_total t2 _ P2 Pi F2) as E3. destruct (dec_Quo t2 _) as [t3| |] eqn:Q3; try discriminate E3.
  exists c, cneg, t1, t2, t3. repeat split; try assumption. exact (dec_Quo_nonneg _ _ _ P2 Pi Q3).
Qed.

Lemma powLoop_ok m : forall j fuel term sum neg, (j + m = 27)%nat -> (m < fuel)%nat ->
  LoopInv j term sum neg -> (Z.abs sum <= (OneDec + 4) * (Z.of_nat j + 1))%Z ->
  exists r, powLoop fuel exp powPrecision x xneg (Z.of_nat j + 1) term sum neg = Ok r /\ Rabs (IZR r - U * Rpower (1 + X) A) <= 10000000112 /\ (Z.abs r <= 30 * OneDec)%Z.
Proof.
  induction m as [|m IH]; intros j [|fuel] term sum neg Hj Hf I Hs; try lia; cbn [powLoop]; assert (HO : OneDec = (10 ^ 18)%Z) by reflexivity.
  - rewrite Nat.add_0_r in Hj. subst j. pose proof (term_last term sum neg I) as L. destruct (Z.ltb_spec term powPrecision); [|lia].
    eexists. split; [reflexivity|]. split; [now apply (stop_on_precision 27 term sum neg) | lia].
  - destruct (Z.ltb_spec term powPrecision) as [L|G]; [eexists; split; [reflexivity|]; split; [apply (stop_on_precision j term sum neg); [exact I | lia | exact L] | nia]|].
    assert (Ht : (0 <= term <= OneDec + 4)%Z) by (destruct I as (It & _ & Ip); split; [exact Ip | exact (term_bound _ _ _ It Ip)]).
    destruct (iteration_ok j term ltac:(lia) Ht) as (c & cneg & t1 & t2 & t3 & Ec & E1 & E2 & P2 & E3 & P3).
    pose proof (next_term j term sum neg c cneg t1 t2 t3 I Ec E1 E2 P2 E3) as N.
    replace (Z.of_nat j + 1 - 1)%Z with (Z.of_nat j) by lia. rewrite Ec. cbn [bind]. rewrite E1. cbn [bind]. rewrite E2. cbn [bind]. rewrite E3. cbn [bind].
    set (n2 := if cneg then negb (if xneg then negb neg else neg) else if xneg then negb neg else neg).
    assert (Sn : sg n2 = sg cneg * (sg xneg * sg neg)) by (unfold n2; now rewrite !flip_sign). rewrite <- Sn in N.
    destruct (Z.eqb_spec t3 0) as [Z0|NZ]; [subst t3; eexists; split; [reflexivity|]; split; [apply (stop_on_zero j term sum neg n2); [exact I | lia | exact N] | nia]|].
    assert (I' : forall sum', IZR sum' = IZR sum + sg n2 * IZR t3 -> LoopInv (Datatypes.S j) t3 sum' n2) by (intros; now apply (next_loop_inv j term sum neg)).
    assert (Es : exists sum', (if n2 then dec_Sub sum t3 else dec_Add sum t3) = Ok sum' /\ IZR sum' = IZR sum + sg n2 * IZR t3 /\ (Z.abs sum' <= Z.abs sum + t3)%Z).
    { pose proof (term_bound _ _ _ N P3) as B3.
      destruct n2; cbn [sg].
      - rewrite dec_Sub_total by (apply fits_small; nia). eexists. split; [reflexivity|]. rewrite minus_IZR. split; [ring | lia].
      - rewrite dec_Add_total by (apply fits_small; nia). eexists. split; [reflexivity|]. rewrite plus_IZR. split; [ring | lia]. }
    destruct Es as (sum' & Es & Vs & As). rewrite Es. cbn [bind].
    destruct (Z.eqb_spec (Z.of_nat j + 1) powIterationLimit) as [Bad|_]; [exfalso; unfold powIterationLimit in Bad; lia|].
    specialize (I' sum' Vs). pose proof (term_bound _ _ _ N P3).
    replace (Z.of_nat j + 1 + 1)%Z with (Z.of_nat (Datatypes.S j) + 1)%Z by lia. apply IH; [lia | lia | exact I'|]. nia.
Qed.

End Accuracy.

Section PowAccuracy.
Context {S : SdkMath} {SS : SdkMathSpec S} {M : SdkMore} {MS : SdkMoreSpec M} {P : SdkPool} {PS : SdkPoolSpec S M P}.

Lemma LoopInv_start (X : Z) xneg exp : LoopInv X exp xneg 0 OneDec OneDec false.
Proof.
  unfold LoopInv. cbn [T partial Q sg INR]. unfold partial. cbn [Q]. fold U.
  repeat split; [replace (1 * U - U * 1) with 0 by ring; rewrite Rabs_R0; lra | replace (U - U * 1) with 0 by ring; rewrite Rabs_R0; lra|].
  pose proof OneDec_pos. lia.
Qed.

Lemma PowApprox_close base exp : (OneDec <= 2 * base <= 3 * OneDec)%Z -> (0 < exp < OneDec)%Z -> exp <> one_half ->
  exists r, PowApprox base exp powPrecision = Ok r /\ Rabs (dec_R r - Rpower (dec_R base) (dec_R exp)) <= / 10 ^ 8 + / 10 ^ 15 /\ (Z.abs r <= 30 * OneDec)%Z.
Proof.
  intros Hb He Hn. pose proof OneDec_pos as PO. unfold PowApprox. destruct (Z.ltb_spec 0 base); [|lia]. cbn [negb].
  destruct (Z.eqb_spec exp 0); [lia|]. destruct (Z.eqb_spec exp one_half); [contradiction|].
  destruct (abs_diff_total base OneDec) as (x & xneg & Ex & Vx); [apply fits_small; assert (HO : OneDec = (10 ^ 18)%Z) by reflexivity; rewrite HO in *; lia|].
  rewrite Ex. cbn [bind]. apply abs_diff in Ex as [Px Sx].
  assert (E1 : 1 + sg xneg * dec_R x = dec_R base).
  { unfold dec_R. fold U in *. pose proof U_pos. replace (sg xneg * (IZR x / U)) with (sg xneg * IZR x / U) by (field; lra). rewrite Sx. field. lra. }
  assert (HX : Rabs (sg xneg * dec_R x) <= / 2).
  { rewrite sg_abs. assert (B : (0 <= 2 * x <= OneDec)%Z) by lia. destruct B as [B1 B2]. apply IZR_le in B1, B2. rewrite mult_IZR in *. fold U in B2.
    unfold dec_R. fold U. pose proof U_pos as PU. rewrite Rabs_right by (apply Rle_ge, Rmult_le_pos; [lra | left; now apply Rinv_0_lt_compat]).
    apply (Rmult_le_reg_r U); [exact PU|]. unfold Rdiv. rewrite Rmult_assoc, Rinv_l by lra. lra. }
  destruct (powLoop_ok x exp xneg Px HX He 27 0 (Z.to_nat powIterationLimit) OneDec OneDec false) as (r & Er & Br & Zr).
  - reflexivity.
  - unfold powIterationLimit. lia.
  - apply LoopInv_start.
  - lia.
  - change (Z.of_nat 0 + 1)%Z with 1%Z in Er. rewrite Er. exists r. split; [reflexivity|]. split; [|exact Zr]. rewrite E1 in Br.
    pose proof U_pos as PU. rewrite <- (dec_R_units r), <- Rmult_minus_distr_l, Rabs_mult, (Rabs_right U) in Br by lra.
    apply (Rmult_le_reg_l U); [exact PU|]. eapply Rle_trans; [exact Br|]. rewrite U_value. lra.
Qed.

(** C27: [osmomath.Pow] is accurate.  For a base between 1/2 and 3/2 and an
    exponent below one (other than one half, which goes to the square root of
    the SDK), [Pow] returns and its result differs from the real power by at
    most [powPrecision] plus [10^-15]; the exponent one is exact. *)
Theorem Pow_accurate base exp : (OneDec <= 2 * base <= 3 * OneDec)%Z -> (0 < exp <= OneDec)%Z -> exp <> one_half ->
  exists r, Pow base exp = Ok r /\ Rabs (dec_R r - Rpower (dec_R base) (dec_R exp)) <= / 10 ^ 8 + / 10 ^ 15 /\ (exp = OneDec -> r = base).
Proof.
  intros Hb He Hn. pose proof OneDec_pos as PO. assert (HO : OneDec = (10 ^ 18)%Z) by reflexivity. unfold Pow.
  destruct (Z.ltb_spec 0 base); [|lia]. cbn [negb]. destruct (Z.leb_spec twoDec base) as [L|_]; [unfold twoDec in L; lia|].
  rewrite dec_TruncateDec_exact. destruct (Z.eq_dec exp OneDec) as [-> | N].
  - rewrite Z.quot_same, Z.mul_1_l by lia. rewrite dec_Sub_total by (apply fits_small; lia). cbn [bind].
    rewrite dec_TruncateInt64_exact by (rewrite Z.quot_same by lia; lia). rewrite Z.quot_same by lia. cbn [bind].
    rewrite (uint64_id 1) by lia. rewrite dec_Power_one by (apply fits_small; lia). cbn [bind]. rewrite Z.sub_diag, Z.eqb_refl.
    exists base. split; [reflexivity|]. split; [|reflexivity].
    replace (dec_R OneDec) with 1 by (unfold dec_R; fold U; pose proof U_pos; field; lra).
    assert (0 < dec_R base) by (unfold dec_R; apply Rdiv_lt_0_compat; apply IZR_lt; lia). rewrite Rpower_1 by assumption.
    rewrite Rminus_diag, Rabs_R0. lra.
  - rewrite Z.quot_small by lia. rewrite Z.mul_0_l. rewrite dec_Sub_total by (apply fits_small; lia). rewrite Z.sub_0_r. cbn [bind].
    rewrite dec_TruncateInt64_exact by (rewrite Z.quot_0_l by lia; lia). rewrite Z.quot_0_l by lia. cbn [bind].
    rewrite (uint64_id 0) by lia. rewrite dec_Power_zero. cbn [bind]. destruct (Z.eqb_spec exp 0); [lia|].
    destruct (PowApprox_close base exp Hb ltac:(lia) Hn) as (r & Er & Br & Zr). rewrite Er. cbn [bind].
    rewrite dec_Mul_one; [exists r; split; [reflexivity | split; [exact Br | contradiction]]|].
    apply fits_small. lia.
Qed.
End PowAccuracy.

Lemma Pow_accurate_witness : exists r, Pow (7 * 10 ^ 17) 333333333333333333 = Ok r /\
  Rabs (dec_R r - Rpower (dec_R (7 * 10 ^ 17)) (dec_R 333333333333333333)) <= / 10 ^ 8 + / 10 ^ 15 /\ (333333333333333333%Z = OneDec -> r = (7 * 10 ^ 17)%Z).
Proof.
  apply (Pow_accurate (7 * 10 ^ 17) 333333333333333333).
  - split; apply Z.leb_le; vm_compute; reflexivity.
  - split; [apply Z.ltb_lt | apply Z.leb_le]; vm_compute; reflexivity.
  - apply Z.eqb_neq. vm_compute. reflexivity.
Defined.
