(* ===== verification/Cfmm.v ===== *)
(** * Shares of a constant-function pool ([x/gamm/pool-models/internal/cfmm_common/lp.go])

    The routines that both pool models share: what an exit pays, what a join in
    the ratio of the pool is worth in shares, and the single-asset join found by
    binary search.  A pool is used through [types.CFMMPoolI]: the class
    [CFMMView] has its pure getters and [CFMMOps] the operations that change it.

    The shares are rounded so that nobody gains: an exit pays at most its part
    of every asset, a join gets at most its part of the shares. *)

From Stdlib Require Import ZArith Lia List Bool String Sorted.
From S2P Require Import Prelude GoBig BigInt BigDec SdkMath SdkMore BinarySearch Store GoState SdkCoins SdkPool.
Import ListNotations.

Class CFMMView (P : Type) : Type := {
  GetTotalShares : P -> Z;
  GetTotalPoolLiquidity : P -> Res (list Coin)
}.

Class CFMMOps (P : Type) : Type := {
  cfmm_view :: CFMMView P;
  ExitPool : Z -> Z -> M P (list Coin);
  SwapOutAmtGivenIn : list Coin -> string -> Z -> M P Coin
}.

Section Cfmm.
Context {S : SdkMath} {D : SdkMore} {DP : SdkPool} {C : CoinsOps} {CM : CoinsMore}.

(** ** [CalcExitPool] *)

Fixpoint exitedCoins (shareOutRatio : Z) (poolLiquidity : list Coin) : Res (list Coin) :=
  match poolLiquidity with
  | [] => Ok []
  | asset :: rest =>
      x <- dec_MulInt shareOutRatio (Amount asset) ;;
      exitAmt <- dec_TruncateInt x ;;
      if exitAmt <=? 0 then exitedCoins shareOutRatio rest else
      if Amount asset <=? exitAmt then Err "too many shares out" else
      cs <- exitedCoins shareOutRatio rest ;;
      Ok ({| Denom := Denom asset; Amount := exitAmt |} :: cs)
  end.

Definition CalcExitPool {P} {V : CFMMView P} (pool : P) (exitingShares exitFee : Z) : Res (list Coin) :=
  let totalShares := GetTotalShares pool in
  if totalShares <=? exitingShares then Err "cannot exit all shares in a pool" else
  refundedShares <- (if negb (exitFee =? 0)
                     then oneSubExitFee <- dec_Sub OneDec exitFee ;; dec_MulInt oneSubExitFee exitingShares
                     else int_ToLegacyDec exitingShares) ;;
  shareOutRatio <- dec_QuoInt refundedShares totalShares ;;
  poolLiquidity <- GetTotalPoolLiquidity pool ;;
  exitedCoins shareOutRatio poolLiquidity.

(** ** [MaximalExactRatioJoin] *)

(** The first loop: the ratio of every coin, and the extreme ones. *)
Fixpoint shareRatios (poolLiquidity tokensIn : list Coin) (minShareRatio maxShareRatio : Z) : Res (list Z * Z * Z) :=
  match tokensIn with
  | [] => Ok ([], minShareRatio, maxShareRatio)
  | coin :: rest =>
      d <- int_ToLegacyDec (Amount coin) ;;
      shareRatio <- dec_QuoInt d (Coins_AmountOfNoDenomValidation poolLiquidity (Denom coin)) ;;
      let mn := if shareRatio <? minShareRatio then shareRatio else minShareRatio in
      let mx := if maxShareRatio <? shareRatio then shareRatio else maxShareRatio in
      '(rs, mn', mx') <- shareRatios poolLiquidity rest mn mx ;;
      Ok (shareRatio :: rs, mn', mx')
  end.

(** The second loop: what is left of the coins that are in excess. *)
Fixpoint remainingCoins (poolLiquidity : list Coin) (minShareRatio : Z) (coins : list (Coin * Z)) (remCoins : list Coin) : Res (list Coin) :=
  match coins with
  | [] => Ok remCoins
  | (coin, ratio) :: rest =>
      if ratio =? minShareRatio then remainingCoins poolLiquidity minShareRatio rest remCoins else
      m <- dec_MulInt minShareRatio (Coins_AmountOfNoDenomValidation poolLiquidity (Denom coin)) ;;
      ce <- dec_Ceil m ;;
      usedAmount <- dec_TruncateInt ce ;;
      newAmt <- int_Sub (Amount coin) usedAmount ;;
      if newAmt =? 0 then remainingCoins poolLiquidity minShareRatio rest remCoins else
      rem' <- Coins_Add remCoins [ {| Denom := Denom coin; Amount := newAmt |} ] ;;
      remainingCoins poolLiquidity minShareRatio rest rem'
  end.

Definition MaximalExactRatioJoin {P} {V : CFMMView P} (p : P) (tokensIn : list Coin) : Res (Z * list Coin) :=
  poolLiquidity <- GetTotalPoolLiquidity p ;;
  let totalShares := GetTotalShares p in
  '(coinShareRatios, minShareRatio, maxShareRatio) <- shareRatios poolLiquidity tokensIn LegacyMaxSortableDec 0 ;;
  if minShareRatio =? LegacyMaxSortableDec then Err "unexpected error in MaximalExactRatioJoin" else
  m <- dec_MulInt minShareRatio totalShares ;;
  numShares <- dec_TruncateInt m ;;
  remCoins <- (if negb (minShareRatio =? maxShareRatio)
               then remainingCoins poolLiquidity minShareRatio (combine tokensIn coinShareRatios) []
               else Ok []) ;;
  Ok (numShares, remCoins).

(** ** Single-asset joins *)

Section Ops.
Context {P : Type} {O : CFMMOps P}.

Fixpoint swapAllLoop (inTokens : list Coin) (swapToDenom : string) (spreadFactor tokenOutAmt : Z) : M P Z :=
  match inTokens with
  | [] => ret tokenOutAmt
  | coin :: rest =>
      if String.eqb (Denom coin) swapToDenom then swapAllLoop rest swapToDenom spreadFactor tokenOutAmt else
      cs <~ lift (MakeCoins [coin]) ;;
      tokenOut <~ SwapOutAmtGivenIn cs swapToDenom spreadFactor ;;
      amt <~ lift (int_Add tokenOutAmt (Amount tokenOut)) ;;
      swapAllLoop rest swapToDenom spreadFactor amt
  end.

Definition SwapAllCoinsToSingleAsset (inTokens : list Coin) (swapToDenom : string) (spreadFactor : Z) : M P Z :=
  swapAllLoop inTokens swapToDenom spreadFactor (Coins_AmountOfNoDenomValidation inTokens swapToDenom).

(** Exiting the pool that has the new liquidity and swapping everything back. *)
Definition estimateCoinOutGivenShares (poolWithAddedLiquidityAndShares : Coin -> Z -> Res P) (tokenIn : Coin) (sharesIn : Z) : Res Z :=
  pool <- poolWithAddedLiquidityAndShares tokenIn sharesIn ;;
  fst ((exited <~ ExitPool sharesIn 0 ;; SwapAllCoinsToSingleAsset exited (Denom tokenIn) 0) pool).

Definition joinTolerance : ErrTolerance :=
  {| AdditiveTolerance := Some OneDec; MultiplicativeTolerance := None; RoundingDir := RoundDown |}.

Definition BinarySearchSingleAssetJoin (pool : P) (tokenIn : Coin) (poolWithAddedLiquidityAndShares : Coin -> Z -> Res P) : Res Z :=
  poolLiquidity <- GetTotalPoolLiquidity pool ;;
  existingTokenLiquidity <- Coins_AmountOf poolLiquidity (Denom tokenIn) ;;
  let existingLPShares := GetTotalShares pool in
  m <- int_Mul existingLPShares (Amount tokenIn) ;;
  d <- int_ToLegacyDec m ;;
  q <- dec_QuoInt d existingTokenLiquidity ;;
  ce <- dec_Ceil q ;;
  LPShareUpperBound <- dec_TruncateInt ce ;;
  BinarySearch (estimateCoinOutGivenShares poolWithAddedLiquidityAndShares tokenIn) 0 LPShareUpperBound (Amount tokenIn) joinTolerance 300.

End Ops.

(** ** Exits pay at most their part *)

Context {SS : SdkMathSpec S} {DS : SdkMoreSpec D} {DPS : SdkPoolSpec S D DP} {CS : CoinsSpec C} {CMS : CoinsMoreSpec C CM}.

Lemma exited_sub ratio liq cs : 0 <= ratio -> coins_ok liq -> exitedCoins ratio liq = Ok cs ->
  coins_ok cs /\ incl (map Denom cs) (map Denom liq) /\
  (forall d, amount_of cs d * OneDec <= ratio * amount_of liq d < (amount_of cs d + 1) * OneDec) /\
  (forall d, amount_of liq d <> 0 -> amount_of cs d < amount_of liq d).
Proof.
  pose proof OneDec_pos as PO. intros Hr. revert cs. induction liq as [|asset liq IH]; intros cs O H; cbn [exitedCoins] in H.
  { apply Ok_inj in H as <-. split; [split; constructor|]. split; [intros x []|]. split; intros d; cbn; [nia | contradiction]. }
  pose proof (coins_ok_tail _ _ O) as O'. pose proof (coins_ok_nonneg _ (Denom asset) O') as Nn.
  inv_bind H. inv_bind H. apply dec_MulInt_exact in E. subst v. apply dec_TruncateInt_exact in E0. subst v0.
  assert (Pa : 0 < Amount asset) by (apply (in_amount_pos (asset :: liq)); [exact O | now left]).
  assert (Ab : amount_of liq (Denom asset) = 0) by (apply amount_absent, later_absent; destruct O as [Sd _]; now inversion Sd).
  destruct (quot_rem_pos (ratio * Amount asset) OneDec PO ltac:(nia)) as (Eq & Rm & Pq). set (q := Z.quot (ratio * Amount asset) OneDec) in *.
  assert (Amt : forall d, amount_of (asset :: liq) d = if String.eqb (Denom asset) d then Amount asset else amount_of liq d).
  { intros d. rewrite amount_cons. destruct (String.eqb_spec (Denom asset) d) as [<-|]; lia. }
  destruct (Z.leb_spec q 0) as [L|G].
  - destruct (IH cs O' H) as (Oc & Ic & Bc & Sc). split; [exact Oc|]. split; [intros x I; right; now apply Ic|].
    assert (Z0 : amount_of cs (Denom asset) = 0) by (specialize (Bc (Denom asset)); rewrite Ab in Bc; nia).
    split; intros d; rewrite Amt; (destruct (String.eqb_spec (Denom asset) d) as [<-|]; [rewrite Z0|]; auto); lia.
  - destruct (Z.leb_spec (Amount asset) q) as [|Lt]; [discriminate H|]. inv_bind H. apply Ok_inj in H. subst cs.
    destruct (IH v O' E) as (Oc & Ic & Bc & Sc).
    assert (Z0 : amount_of v (Denom asset) = 0) by (specialize (Bc (Denom asset)); rewrite Ab in Bc; nia).
    assert (Amt' : forall d, amount_of ({| Denom := Denom asset; Amount := q |} :: v) d = if String.eqb (Denom asset) d then q else amount_of v d).
    { intros d. rewrite amount_cons. cbn [Denom Amount]. destruct (String.eqb_spec (Denom asset) d) as [<-|]; lia. }
    split; [|split; [intros x [<- | I]; [now left | right; now apply Ic]|]].
    + destruct O as [Sd Fo]. destruct Oc as [Sc' Fc]. inversion Sd as [|? ? _ Fl]; subst. inversion Fo as [|? ? [_ Vd] _]; subst.
      split; constructor; [exact Sc'| | split; [exact G | exact Vd] | exact Fc].
      rewrite Forall_forall in *. intros c I. apply in_map with (f := Denom), Ic, in_map_iff in I as (e & E1 & I).
      unfold denom_lt. cbn [Denom]. rewrite <- E1. exact (Fl e I).
    + split; intros d; rewrite Amt, Amt'; (destruct (String.eqb_spec (Denom asset) d) as [<-|]; [|auto]); [lia | intros _; exact Lt].
Qed.

Section Exit.
Context {P : Type} {V : CFMMView P} (pool : P) (liq : list Coin).
Hypothesis pool_liq : GetTotalPoolLiquidity pool = Ok liq.
Hypothesis liq_ok : coins_ok liq.

(** What an exit of [k] of [n] shares pays: at most [k/n] of every asset, less
    the fee, and less than that by no more than one token and the rounding of
    the ratio to 18 decimals. *)
Lemma exit_bounds k fee cs : 0 <= k -> 0 <= fee <= OneDec -> CalcExitPool pool k fee = Ok cs ->
  coins_ok cs /\ incl (map Denom cs) (map Denom liq) /\ k < GetTotalShares pool /\
  (forall d, amount_of cs d * OneDec * GetTotalShares pool <= (OneDec - fee) * k * amount_of liq d) /\
  (forall d, (OneDec - fee) * k * amount_of liq d < (amount_of cs d + 1) * OneDec * GetTotalShares pool + amount_of liq d * GetTotalShares pool) /\
  (forall d, amount_of liq d <> 0 -> amount_of cs d < amount_of liq d).
Proof.
  pose proof OneDec_pos as PO. intros Hk Hf H. unfold CalcExitPool in H. destruct (Z.leb_spec (GetTotalShares pool) k) as [|Lt]; [discriminate H|].
  inv_bind H. inv_bind H. rewrite pool_liq in H. cbn [bind] in H.
  assert (Rf : v = (OneDec - fee) * k).
  { destruct (Z.eqb_spec fee 0) as [-> | N]; cbn [negb] in E.
    - apply int_ToLegacyDec_exact in E. lia.
    - inv_bind E. apply dec_Sub_exact in E1. apply dec_MulInt_exact in E. subst. reflexivity. }
  subst v. apply dec_QuoInt_exact in E0 as [Nz ->]. set (n := GetTotalShares pool) in *.
  destruct (quot_rem_pos ((OneDec - fee) * k) n ltac:(lia) ltac:(nia)) as (Eq & Rm & Pq). set (q := Z.quot ((OneDec - fee) * k) n) in *.
  destruct (exited_sub q liq cs Pq liq_ok H) as (Oc & Ic & Bc & Sc). repeat split; try assumption; try apply Oc.
  - intros d. specialize (Bc d). pose proof (coins_ok_nonneg liq d liq_ok). nia.
  - intros d. specialize (Bc d). pose proof (coins_ok_nonneg liq d liq_ok). nia.
Qed.

(** ** Joins get at most their part *)

Definition ratio_of (c : Coin) : Z := Z.quot (Amount c * OneDec) (amount_of liq (Denom c)).

Lemma shareRatios_spec toks : forall mn mx rs mn' mx', shareRatios liq toks mn mx = Ok (rs, mn', mx') ->
  rs = map ratio_of toks /\ Forall (fun c => amount_of liq (Denom c) <> 0) toks /\
  mn' <= mn /\ (mn' = mn \/ In mn' rs) /\ Forall (fun r => mn' <= r <= mx') rs /\ mx <= mx'.
Proof.
  induction toks as [|c toks IH]; intros mn mx rs mn' mx' H; cbn [shareRatios] in H.
  { apply Ok_inj in H. injection H as <- <- <-. repeat split; try constructor; lia || auto. }
  inv_bind H. inv_bind H. apply int_ToLegacyDec_exact in E as ->. rewrite Coins_AmountOfNoDenomValidation_spec in E0 by assumption.
  apply dec_QuoInt_exact in E0 as [Nz ->]. inv_bind H. destruct v as [[rs0 mn0] mx0]. apply Ok_inj in H. injection H as <- <- <-.
  apply IH in E as (-> & F & L & I & R & G). fold (ratio_of c) in *.
  split; [reflexivity|]. split; [now constructor|].
  destruct (Z.ltb_spec (ratio_of c) mn), (Z.ltb_spec mx (ratio_of c)); (split; [lia|]); (split; [cbn [In]; intuition lia|]);
    (split; [constructor; [lia | exact R] | lia]).
Qed.

(** The unused part of a coin. *)
Definition leftover (r : Z) (cr : Coin * Z) : Z :=
  if snd cr =? r then 0 else Amount (fst cr) - cdiv (r * amount_of liq (Denom (fst cr))) OneDec.

Lemma remainingCoins_spec r crs : forall rem rem', coins_ok rem -> 0 <= r ->
  Forall (fun cr => ValidateDenom (Denom (fst cr)) = true /\ 0 <= leftover r cr) crs ->
  remainingCoins liq r crs rem = Ok rem' ->
  coins_ok rem' /\ forall d, amount_of rem' d = amount_of rem d + zsum (map (fun cr => if String.eqb (Denom (fst cr)) d then leftover r cr else 0) crs).
Proof.
  induction crs as [|[c q] crs IH]; intros rem rem' O Hr F H; cbn [remainingCoins] in H.
  { apply Ok_inj in H as <-. split; [exact O|]. intros d. cbn. lia. }
  inversion F as [|? ? [Vd Nn] F']; subst. cbn [fst] in Vd.
  assert (Lf : leftover r (c, q) = if q =? r then 0 else Amount c - cdiv (r * amount_of liq (Denom c)) OneDec) by reflexivity.
  assert (Skip : leftover r (c, q) = 0 -> remainingCoins liq r crs rem = Ok rem' ->
    coins_ok rem' /\ forall d, amount_of rem' d = amount_of rem d + zsum (map (fun cr => if String.eqb (Denom (fst cr)) d then leftover r cr else 0) ((c, q) :: crs))).
  { intros Z0 H'. destruct (IH _ _ O Hr F' H') as [O' A]. split; [exact O'|]. intros d. cbn [map zsum fold_right fst]. rewrite Z0, A.
    unfold zsum. destruct (String.eqb _ _); lia. }
  destruct (Z.eqb_spec q r) as [Eq|Nq]; [now apply Skip|].
  inv_bind H. inv_bind H. inv_bind H. inv_bind H. rewrite Coins_AmountOfNoDenomValidation_spec in E by assumption.
  apply dec_MulInt_exact in E as ->. apply dec_Ceil_exact in E0 as ->. apply dec_TruncateInt_exact in E1 as ->.
  rewrite quot_exact in E2 by (pose proof OneDec_pos; lia). apply int_Sub_exact in E2 as ->. rewrite <- Lf in H.
  destruct (Z.eqb_spec (leftover r (c, q)) 0) as [Z0|NZ]; [now apply Skip|]. inv_bind H.
  set (nc := {| Denom := Denom c; Amount := leftover r (c, q) |}) in *.
  assert (On : coins_ok [nc]) by (apply single_ok; [change (0 < leftover r (c, q)); lia | exact Vd]).
  apply Coins_Add_exact in E as [O1 A1]; [|assumption..]. destruct (IH _ _ O1 Hr F' H) as [O' A]. split; [exact O'|]. intros d.
  rewrite A, A1, amount_single. cbn [map zsum fold_right fst nc Denom Amount]. unfold zsum. lia.
Qed.

Lemma leftover_bounds r c : 0 <= r <= ratio_of c -> 0 < Amount c -> 0 < amount_of liq (Denom c) ->
  0 <= leftover r (c, ratio_of c) <= Amount c /\ r * amount_of liq (Denom c) <= (Amount c - leftover r (c, ratio_of c)) * OneDec /\
  (Amount c - leftover r (c, ratio_of c)) * OneDec < r * amount_of liq (Denom c) + OneDec + amount_of liq (Denom c).
Proof.
  pose proof OneDec_pos as PO. intros Hr Pa Pl. unfold leftover. cbn [fst snd].
  destruct (quot_rem_pos (Amount c * OneDec) _ Pl ltac:(nia)) as (Eq & Rm & Pq). fold (ratio_of c) in *.
  destruct (Z.eqb_spec (ratio_of c) r) as [<-|N]; [split; [lia | split; nia]|].
  pose proof (cdiv_spec (r * amount_of liq (Denom c)) OneDec PO) as Cd. pose proof (cdiv_nonneg (r * amount_of liq (Denom c)) OneDec PO ltac:(nia)).
  assert (r * amount_of liq (Denom c) < Amount c * OneDec) by nia. split; [nia | split; nia].
Qed.

(** The sum in [remainingCoins_spec] picks the coin of the denomination. *)
Lemma leftover_sum r toks d : coins_ok toks ->
  (amount_of toks d = 0 -> zsum (map (fun cr => if String.eqb (Denom (fst cr)) d then leftover r cr else 0) (combine toks (map ratio_of toks))) = 0) /\
  (forall c, In c toks -> Denom c = d ->
     zsum (map (fun cr => if String.eqb (Denom (fst cr)) d then leftover r cr else 0) (combine toks (map ratio_of toks))) = leftover r (c, ratio_of c)).
Proof.
  induction toks as [|e toks IH]; intros O; [split; [reflexivity | intros c []]|]. destruct (IH (coins_ok_tail _ _ O)) as [I0 I1].
  assert (Pa : 0 < Amount e) by (apply (in_amount_pos (e :: toks)); [exact O | now left]).
  assert (Ab : amount_of toks (Denom e) = 0) by (apply amount_absent, later_absent; destruct O as [Sd _]; now inversion Sd).
  pose proof (coins_ok_nonneg _ d (coins_ok_tail _ _ O)). rewrite amount_cons. cbn [combine map zsum fold_right fst]. fold zsum. unfold zsum in *.
  destruct (String.eqb_spec (Denom e) d) as [<-|N].
  - split; [lia|]. intros c [-> | I] Ed; [rewrite I0; lia|]. exfalso. rewrite <- Ed in Ab. rewrite (amount_in c toks) in Ab; [|now apply coins_ok_tail in O | exact I].
    pose proof (in_amount_pos toks c (coins_ok_tail _ _ O) I). lia.
  - split; [intros Z0; rewrite I0; lia|]. intros c [<- | I] Ed; [contradiction|]. rewrite (I1 c I Ed). lia.
Qed.

(** A join in the ratio of the pool: it takes [joined = tokensIn - rem] and
    gives [n] shares, at most the part that [joined] is of every asset; and it
    takes no more than that needs, up to one token and the rounding of the
    ratio. *)
Lemma join_bounds toks n rem : coins_ok toks -> 0 <= GetTotalShares pool -> MaximalExactRatioJoin pool toks = Ok (n, rem) ->
  coins_ok rem /\ 0 <= n /\ (forall d, amount_of rem d <= amount_of toks d) /\
  (forall d, amount_of toks d <> 0 -> amount_of liq d <> 0 /\ n * amount_of liq d <= GetTotalShares pool * (amount_of toks d - amount_of rem d)) /\
  (forall d, amount_of toks d <> 0 -> (amount_of toks d - amount_of rem d) * OneDec * GetTotalShares pool <
      (n + 1) * amount_of liq d * OneDec + OneDec * GetTotalShares pool + amount_of liq d * GetTotalShares pool).
Proof.
  pose proof OneDec_pos as PO. intros O Ps H. unfold MaximalExactRatioJoin in H. rewrite pool_liq in H. cbn [bind] in H. inv_bind H.
  destruct v as [[rs mn] mx]. apply shareRatios_spec in E as (-> & Fz & _ & Imn & R & _).
  destruct (Z.eqb_spec mn LegacyMaxSortableDec); [discriminate H|]. destruct Imn as [|Imn]; [contradiction|].
  inv_bind H. apply dec_MulInt_exact in E as ->. inv_bind H. apply dec_TruncateInt_exact in E as ->. inv_bind H. apply Ok_inj in H. injection H as <- <-.
  assert (Lq : forall c, In c toks -> 0 < amount_of liq (Denom c)).
  { intros c I. rewrite Forall_forall in Fz. specialize (Fz c I). pose proof (coins_ok_nonneg liq (Denom c) liq_ok). lia. }
  assert (Rc : forall c, In c toks -> mn <= ratio_of c <= mx) by (intros c I; rewrite Forall_forall in R; apply R, in_map, I).
  assert (Pm : 0 <= mn).
  { apply in_map_iff in Imn as (c & <- & I). apply Z.quot_pos; [pose proof (in_amount_pos toks c O I); nia | now apply Lq]. }
  assert (Lb : forall c, In c toks -> _) by (intros c I; exact (leftover_bounds mn c (conj Pm (proj1 (Rc c I))) (in_amount_pos toks c O I) (Lq c I))).
  assert (Rem : coins_ok v /\ forall d, amount_of v d = zsum (map (fun cr => if String.eqb (Denom (fst cr)) d then leftover mn cr else 0) (combine toks (map ratio_of toks)))).
  { destruct (Z.eqb_spec mn mx) as [<- | N]; cbn [negb] in E.
    - apply Ok_inj in E as <-. split; [split; constructor|]. intros d. destruct (leftover_sum mn toks d O) as [S0 S1].
      destruct (Z.eq_dec (amount_of toks d) 0) as [Z0|Nz]; [now rewrite S0|]. destruct (amount_coin toks d O Nz) as (c & I & Ed & _).
      rewrite (S1 c I Ed). unfold leftover. cbn [snd]. specialize (Rc c I). replace (ratio_of c) with mn by lia. now rewrite Z.eqb_refl.
    - assert (Fc : Forall (fun cr => ValidateDenom (Denom (fst cr)) = true /\ 0 <= leftover mn cr) (combine toks (map ratio_of toks))).
      { apply Forall_forall. intros [c q] I. assert (Eq : q = ratio_of c) by (clear - I; induction toks as [|e l IH]; [destruct I | destruct I as [X | I]; [now injection X as <- <- | auto]]).
        apply in_combine_l in I. subst q. split; [destruct O as [_ F]; rewrite Forall_forall in F; now apply F | apply Lb, I]. }
      apply remainingCoins_spec in E as [Ov Av]; [split; [exact Ov|]; intros d; now rewrite Av | split; constructor | exact Pm | exact Fc]. }
  destruct Rem as [Ov Av].
  assert (Each : forall d, amount_of toks d <> 0 -> exists c, In c toks /\ Denom c = d /\ Amount c = amount_of toks d /\ amount_of v d = leftover mn (c, ratio_of c)).
  { intros d Nz. destruct (amount_coin toks d O Nz) as (c & I & Ed & Ea). exists c. repeat split; try assumption. rewrite Av.
    now apply (leftover_sum mn toks d O). }
  destruct (quot_rem_pos (mn * GetTotalShares pool) OneDec PO (Z.mul_nonneg_nonneg mn _ Pm Ps)) as (Eq & Rm & Pq). set (n := Z.quot (mn * GetTotalShares pool) OneDec) in *.
  split; [exact Ov|]. split; [exact Pq|]. split; [|split].
  - intros d. destruct (Z.eq_dec (amount_of toks d) 0) as [Z0|Nz].
    + rewrite Av, (proj1 (leftover_sum mn toks d O) Z0). lia.
    + destruct (Each d Nz) as (c & I & <- & <- & ->). apply Lb, I.
  - intros d Nz. destruct (Each d Nz) as (c & I & <- & <- & ->). specialize (Lq c I). destruct (Lb c I) as (_ & B & _). split; [lia|]. nia.
  - intros d Nz. destruct (Each d Nz) as (c & I & <- & <- & ->). specialize (Lq c I). destruct (Lb c I) as (_ & _ & B). nia.
Qed.

End Exit.
End Cfmm.
