(* ===== verification/GammTypes.v ===== *)
(** * Shared types of [x/gamm] ([x/gamm/types])

    Constants, store keys and the denomination of pool shares.  Addresses are
    those of the SDK: a pool keeps the text of its address, which
    [poolmanagertypes.NewPoolAddress] derives from its id by hashing. *)

From Stdlib Require Import ZArith Lia List Bool String Ascii DecimalString DecimalN.
From S2P Require Import Prelude GoBig SdkMath SdkMore Store GoState SdkCoins SdkPool.
Import ListNotations.

Definition Address : Type := bytes.

(** [sdk.AccAddressFromBech32], the text of [NewPoolAddress(id)] and
    [time.ParseDuration]. *)
Class GammText : Type := {
  FromBech32 : string -> Res Address;
  NewPoolAddress : Z -> string;
  ParseDuration : string -> Res Z
}.

Definition OneShareExponent : Z := 18.
Definition BalancerGasFeeForSwap : Z := 10000.
Definition StableswapMinScaledAmtPerAsset : Z := 1.
Definition ScalingFactorMultiplier : Z := 1.
Definition MinNumOfAssetsInPool : Z := 2.
Definition MaxNumOfAssetsInPool : Z := 8.
Definition OneShare : Z := 10 ^ OneShareExponent.
Definition InitPoolSharesSupply : Z := OneShare * 100.
Definition SpotPriceSigFigs : Z := 10 ^ 8.
Definition MaxSpotPriceBigDec : Z := (2 ^ 128 - 1) * 10 ^ 36.
Definition StableswapMaxScaledAmtPerAsset : Z := 10 ^ 34.

Definition GammModuleName : string := "gamm".
Definition GAMMTokenPrefix : string := "gamm/pool/".

(** [fmt.Sprintf] of a [uint64] *)
Definition decimal (n : Z) : string := NilEmpty.string_of_uint (N.to_uint (Z.to_N n)).

Definition GetPoolShareDenom (poolId : Z) : string := GAMMTokenPrefix ++ decimal poolId.

(** ** Keys ([types/key.go]) *)

Definition KeyNextGlobalPoolId : bytes := [1].
Definition KeyPrefixPools : bytes := [2].
Definition KeyTotalLiquidity : bytes := [3].

Definition GetDenomPrefix (denom : string) : bytes := KeyTotalLiquidity ++ string_bytes denom.
Definition GetKeyPrefixPools {B : BigEndian} (poolId : Z) : bytes := KeyPrefixPools ++ Uint64ToBigEndian poolId.

(** ** [ValidateFutureGovernor] ([types/msgs.go]) *)

(** [strings.Split] at a character *)
Fixpoint split_at (sep : ascii) (s : string) : list string :=
  match s with
  | EmptyString => [EmptyString]
  | String c s' =>
      if Ascii.eqb c sep then EmptyString :: split_at sep s'
      else match split_at sep s' with [] => [String c EmptyString] | p :: ps => String c p :: ps end
  end.

Definition ValidateFutureGovernor {T : GammText} {C : CoinsOps} (governor : string) : Res unit :=
  if String.eqb governor "" then Ok tt else
  match FromBech32 governor with
  | Ok _ => Ok tt
  | _ =>
      let parse lockTimeStr := match ParseDuration lockTimeStr with Ok _ => Ok tt | _ => Err "invalid future governor" end in
      match split_at "," governor with
      | [lpTokenStr; lockTimeStr] => if ValidateDenom lpTokenStr then parse lockTimeStr else Err "invalid future governor"
      | [lockTimeStr] => parse lockTimeStr
      | _ => Err "invalid future governor"
      end
  end.

(** ** [sort.Search] of the Go library *)

Fixpoint sort_search (fuel : nat) (f : nat -> bool) (i j : nat) : nat :=
  match fuel with
  | O => i
  | Datatypes.S fuel' =>
      if (i <? j)%nat then
        let h := ((i + j) / 2)%nat in
        if f h then sort_search fuel' f i h else sort_search fuel' f (Datatypes.S h) j
      else i
  end.

(** Every round halves the interval, so [n] rounds are more than enough. *)
Definition sort_Search (n : nat) (f : nat -> bool) : nat := sort_search n f 0 n.

(** ** Facts *)

Lemma decimal_inj n m : 0 <= n -> 0 <= m -> decimal n = decimal m -> n = m.
Proof.
  unfold decimal. intros Hn Hm E. apply (f_equal NilEmpty.uint_of_string) in E. rewrite !NilEmpty.usu in E.
  injection E as E. apply (f_equal N.of_uint) in E. rewrite !DecimalN.Unsigned.of_to in E. lia.
Qed.

Lemma append_inj_l p a b : (p ++ a)%string = (p ++ b)%string -> a = b.
Proof. induction p as [|c p IH]; cbn; [auto|]. intros E. injection E. exact IH. Qed.

Lemma GetPoolShareDenom_inj n m : 0 <= n -> 0 <= m -> GetPoolShareDenom n = GetPoolShareDenom m -> n = m.
Proof. intros Hn Hm E. apply append_inj_l in E. now apply decimal_inj. Qed.

(** For a predicate that is false up to a point and true from there on, the
    search finds the point. *)
Lemma sort_search_spec f k fuel : forall i j, (i <= k <= j)%nat -> (j - i <= fuel)%nat ->
  (forall h, (i <= h < k)%nat -> f h = false) -> (forall h, (k <= h < j)%nat -> f h = true) -> sort_search fuel f i j = k.
Proof.
  induction fuel as [|fuel IH]; intros i j K F Lo Hi; cbn [sort_search]; [lia|].
  destruct (Nat.ltb_spec i j) as [L|G]; [|lia]. assert (Hh : (i <= (i + j) / 2 < j)%nat).
  { split; [apply Nat.div_le_lower_bound; lia | apply Nat.Div0.div_lt_upper_bound; lia]. }
  destruct (f ((i + j) / 2)%nat) eqn:E.
  - apply IH; try lia; try (intros; apply Lo || apply Hi; lia). destruct (Nat.lt_ge_cases ((i + j) / 2) k) as [Lt|]; [|lia].
    rewrite Lo in E by lia. discriminate E.
  - apply IH; try lia; try (intros; apply Lo || apply Hi; lia). destruct (Nat.lt_ge_cases ((i + j) / 2) k) as [|Ge]; [lia|].
    rewrite Hi in E by lia. discriminate E.
Qed.

Lemma sort_Search_spec n f k : (k <= n)%nat -> (forall h, (h < k)%nat -> f h = false) -> (forall h, (k <= h < n)%nat -> f h = true) -> sort_Search n f = k.
Proof. intros K Lo Hi. apply sort_search_spec; try lia; intros; [apply Lo | apply Hi]; lia. Qed.
