(* ===== verification/GammBalancer.v ===== *)
(** * Weighted pools ([x/gamm/pool-models/balancer])

    A pool holds assets with weights; its curve keeps the weighted product of
    the balances.  [amm.go] has the formulas, [pool.go] the operations of a
    pool, [pool_asset.go] and [pool_params.go] the validation.  A method with a
    pointer receiver that changes the pool is a computation on [Pool]. *)

From stdpp Require Import base gmap strings.
From Stdlib Require Import ZArith Lia List Bool String Sorted.
From S2P Require Import Prelude GoBig BigInt BigDec SdkMath SdkMore BinarySearch Store GoState SdkCoins SdkPool DecMath Cfmm GammTypes.
Import ListNotations.
Open Scope Z_scope.

Module Balancer.

(** ** Data ([balancerPool.pb.go], [constants.go]) *)

Definition MaxUserSpecifiedWeight : Z := 2 ^ 20.
Definition GuaranteedWeightPrecision : Z := 2 ^ 30.

Record PoolAsset : Type := { Token : Coin; Weight : Z }.

Record SmoothWeightChangeParams : Type := {
  StartTime : Z;
  Duration : Z;
  InitialPoolWeights : list PoolAsset;
  TargetPoolWeights : list PoolAsset
}.

Record PoolParams : Type := {
  SwapFee : Z;
  ExitFee : Z;
  Smooth : option SmoothWeightChangeParams
}.

Record Pool : Type := {
  PoolAddress : string;
  Id : Z;
  Params : PoolParams;
  FuturePoolGovernor : string;
  TotalShares : Coin;
  PoolAssets : list PoolAsset;
  TotalWeight : Z
}.

Definition set_params (v : PoolParams) (p : Pool) : Pool :=
  {| PoolAddress := PoolAddress p; Id := Id p; Params := v; FuturePoolGovernor := FuturePoolGovernor p;
     TotalShares := TotalShares p; PoolAssets := PoolAssets p; TotalWeight := TotalWeight p |}.
Definition set_shares (v : Coin) (p : Pool) : Pool :=
  {| PoolAddress := PoolAddress p; Id := Id p; Params := Params p; FuturePoolGovernor := FuturePoolGovernor p;
     TotalShares := v; PoolAssets := PoolAssets p; TotalWeight := TotalWeight p |}.
Definition set_assets (v : list PoolAsset) (w : Z) (p : Pool) : Pool :=
  {| PoolAddress := PoolAddress p; Id := Id p; Params := Params p; FuturePoolGovernor := FuturePoolGovernor p;
     TotalShares := TotalShares p; PoolAssets := v; TotalWeight := w |}.

Definition asset_denom (a : PoolAsset) : string := Denom (Token a).
Definition with_amount (a : PoolAsset) (amt : Z) : PoolAsset :=
  {| Token := {| Denom := asset_denom a; Amount := amt |}; Weight := Weight a |}.

Definition denom_ltb (d e : string) : bool := bltb (string_bytes d) (string_bytes e).

(** ** Sorting ([sort.Slice] with [strings.Compare]) *)

Fixpoint insertAsset (a : PoolAsset) (l : list PoolAsset) : list PoolAsset :=
  match l with
  | [] => [a]
  | b :: l' => if denom_ltb (asset_denom b) (asset_denom a) then b :: insertAsset a l' else a :: l
  end.

Definition sortPoolAssetsByDenom (assets : list PoolAsset) : list PoolAsset := fold_right insertAsset [] assets.
Definition sortPoolAssetsOutOfPlaceByDenom (assets : list PoolAsset) : list PoolAsset := sortPoolAssetsByDenom assets.

Section Pool.
Context {S : SdkMath} {D : SdkMore} {DP : SdkPool} {C : CoinsOps} {CM : CoinsMore} {T : GammText}.

(** ** Validation ([pool_asset.go], [amm.go], [pool_params.go]) *)

Definition validateWeight (pa : PoolAsset) : Res unit :=
  if Weight pa <=? 0 then Err "a token's weight in the pool must be greater than 0" else Ok tt.

Definition ValidateUserSpecifiedWeight (weight : Z) : Res unit :=
  if negb (0 <? weight) then Err "weight must be positive" else
  if MaxUserSpecifiedWeight <=? weight then Err "weight too large" else Ok tt.

Fixpoint validateAssetsLoop (assets : list PoolAsset) (seen : list string) : Res unit :=
  match assets with
  | [] => Ok tt
  | asset :: rest =>
      ValidateUserSpecifiedWeight (Weight asset) ;;;
      if negb (ValidateDenom (asset_denom asset) && (0 <? Amount (Token asset))) then Err "invalid coins" else
      if existsb (String.eqb (asset_denom asset)) seen then Err "pool asset already exists" else
      validateAssetsLoop rest (asset_denom asset :: seen)
  end.

Definition validateUserSpecifiedPoolAssets (assets : list PoolAsset) : Res unit :=
  if Z.of_nat (List.length assets) <? MinNumOfAssetsInPool then Err "too few pool assets" else
  if MaxNumOfAssetsInPool <? Z.of_nat (List.length assets) then Err "too many pool assets" else
  validateAssetsLoop assets [].

Fixpoint validateWeights (l : list PoolAsset) : Res unit :=
  match l with
  | [] => Ok tt
  | v :: l' => ValidateUserSpecifiedWeight (Weight v) ;;; validateWeights l'
  end.

Fixpoint sameDenoms (sortedPoolWeights sortedTargetPoolWeights : list PoolAsset) : Res unit :=
  match sortedPoolWeights, sortedTargetPoolWeights with
  | [], _ => Ok tt
  | _ :: _, [] => Panic "index out of range"
  | v :: l, t :: l' => if String.eqb (asset_denom t) (asset_denom v) then sameDenoms l l' else Err "invalid denom in pool params"
  end.

Definition Validate (params : PoolParams) (poolWeights : list PoolAsset) : Res unit :=
  if ExitFee params <? 0 then Err "exit fee is negative" else
  if OneDec <=? ExitFee params then Err "exit fee too large" else
  if SwapFee params <? 0 then Err "spread factor is negative" else
  if OneDec <=? SwapFee params then Err "spread factor too large" else
  match Smooth params with
  | None => Ok tt
  | Some sp =>
      let targetWeights := TargetPoolWeights sp in
      if negb (Nat.eqb (List.length targetWeights) (List.length poolWeights)) then Err "invalid number of denoms" else
      validateWeights targetWeights ;;;
      sameDenoms (sortPoolAssetsOutOfPlaceByDenom poolWeights) (sortPoolAssetsOutOfPlaceByDenom targetWeights) ;;;
      if Duration sp <=? 0 then Err "params.SmoothWeightChangeParams must have a positive duration" else Ok tt
  end.

(** ** Creation *)

(** The loop of [SetInitialPoolAssets], with the denominations seen. *)
Fixpoint scaleAssets (assets : list PoolAsset) (exists_ : list string) (newTotalWeight : Z) : Res (list PoolAsset * Z) :=
  match assets with
  | [] => Ok ([], newTotalWeight)
  | asset :: rest =>
      if Amount (Token asset) <=? 0 then Err "can't add the zero or negative balance of token" else
      validateWeight asset ;;;
      if existsb (String.eqb (asset_denom asset)) exists_ then Err "same PoolAsset already exists" else
      w <- int_Mul (Weight asset) GuaranteedWeightPrecision ;;
      tw <- int_Add newTotalWeight w ;;
      '(l, tw') <- scaleAssets rest (asset_denom asset :: exists_) tw ;;
      Ok ({| Token := Token asset; Weight := w |} :: l, tw')
  end.

Definition SetInitialPoolAssets (assets : list PoolAsset) : M Pool unit :=
  p <~ get ;;
  '(scaledPoolAssets, newTotalWeight) <~ lift (scaleAssets assets (map asset_denom (PoolAssets p)) (TotalWeight p)) ;;
  put (set_assets (sortPoolAssetsByDenom (PoolAssets p ++ scaledPoolAssets)) newTotalWeight p).

Fixpoint scaleTargets (l : list PoolAsset) : Res (list PoolAsset) :=
  match l with
  | [] => Ok []
  | v :: l' =>
      ValidateUserSpecifiedWeight (Weight v) ;;;
      w <- int_Mul (Weight v) GuaranteedWeightPrecision ;;
      r <- scaleTargets l' ;;
      Ok ({| Token := Token v; Weight := w |} :: r)
  end.

(** [time.Time.Unix] *)
Definition unix (t : Z) : Z := t / Second.

(** The parameters hold a pointer to the smooth weight change, so the changes
    made through [params] are those of the pool. *)
Definition setInitialPoolParams (params : PoolParams) (sortedAssets : list PoolAsset) (curBlockTime : Z) : M Pool unit :=
  match Smooth params with
  | None => modify (set_params params)
  | Some sp =>
      let initialWeights := map (fun v => {| Token := {| Denom := asset_denom v; Amount := 0 |}; Weight := Weight v |}) sortedAssets in
      targets <~ lift (scaleTargets (sortPoolAssetsByDenom (TargetPoolWeights sp))) ;;
      let start := if unix (StartTime sp) <=? 0 then unix curBlockTime * Second else StartTime sp in
      modify (set_params {| SwapFee := SwapFee params; ExitFee := ExitFee params;
        Smooth := Some {| StartTime := start; Duration := Duration sp; InitialPoolWeights := initialWeights; TargetPoolWeights := targets |} |})
  end.

Definition no_params : PoolParams := {| SwapFee := 0; ExitFee := 0; Smooth := None |}.

Definition NewBalancerPool (poolId : Z) (balancerPoolParams : PoolParams) (assets : list PoolAsset) (futureGovernor : string)
  (blockTime : Z) : Res Pool :=
  shares <- NewCoin (GetPoolShareDenom poolId) InitPoolSharesSupply ;;
  let pool := {| PoolAddress := NewPoolAddress poolId; Id := poolId; Params := no_params; FuturePoolGovernor := futureGovernor;
                 TotalShares := shares; PoolAssets := []; TotalWeight := 0 |} in
  let '(r, p) := (SetInitialPoolAssets assets ~;;
                  q <~ get ;;
                  lift (Validate balancerPoolParams (PoolAssets q)) ~;;
                  setInitialPoolParams balancerPoolParams (PoolAssets q) blockTime) pool in
  r ;;; Ok p.

(** ** Getters *)

Definition GetAddress (p : Pool) : Res Address :=
  match FromBech32 (PoolAddress p) with Ok a => Ok a | _ => Panic "could not bech32 decode address of pool" end.

Fixpoint poolAssetsCoinsLoop (assets : list PoolAsset) (coins : list Coin) : Res (list Coin) :=
  match assets with
  | [] => Ok coins
  | asset :: rest => cs <- Coins_Add coins [Token asset] ;; poolAssetsCoinsLoop rest cs
  end.
Definition poolAssetsCoins (assets : list PoolAsset) : Res (list Coin) := poolAssetsCoinsLoop assets [].

#[export] Instance view : CFMMView Pool := {|
  GetTotalShares p := Amount (TotalShares p);
  GetTotalPoolLiquidity p := poolAssetsCoins (PoolAssets p)
|}.

Definition NumAssets (p : Pool) : nat := List.length (PoolAssets p).
Definition GetSpreadFactor (p : Pool) : Z := SwapFee (Params p).
Definition GetExitFee (p : Pool) : Z := ExitFee (Params p).

Definition AddTotalShares (amt : Z) : M Pool unit :=
  p <~ get ;; a <~ lift (int_Add (Amount (TotalShares p)) amt) ;;
  put (set_shares {| Denom := Denom (TotalShares p); Amount := a |} p).
Definition SubTotalShares (amt : Z) : M Pool unit :=
  p <~ get ;; a <~ lift (int_Sub (Amount (TotalShares p)) amt) ;;
  put (set_shares {| Denom := Denom (TotalShares p); Amount := a |} p).

Definition getPoolAssetAndIndex (p : Pool) (denom : string) : Res (nat * PoolAsset) :=
  if String.eqb denom "" then Err "you tried to find the PoolAsset with empty denom" else
  match PoolAssets p with
  | [] => Err "can't find the PoolAsset"
  | _ =>
      let i := sort_Search (List.length (PoolAssets p))
                 (fun i => match PoolAssets p !! i with Some a => negb (denom_ltb (asset_denom a) denom) | None => false end) in
      match PoolAssets p !! i with
      | None => Err "can't find the PoolAsset"
      | Some a => if String.eqb (asset_denom a) denom then Ok (i, a) else Err "can't find the PoolAsset"
      end
  end.

Definition GetPoolAsset (p : Pool) (denom : string) : Res PoolAsset := '(_, a) <- getPoolAssetAndIndex p denom ;; Ok a.
Definition GetTokenWeight (p : Pool) (denom : string) : Res Z := a <- GetPoolAsset p denom ;; Ok (Weight a).
Definition GetTokenBalance (p : Pool) (denom : string) : Res Z := a <- GetPoolAsset p denom ;; Ok (Amount (Token a)).

Fixpoint GetPoolAssets (p : Pool) (denoms : list string) : Res (list PoolAsset) :=
  match denoms with
  | [] => Ok []
  | d :: ds => a <- GetPoolAsset p d ;; r <- GetPoolAssets p ds ;; Ok (a :: r)
  end.

Definition getPoolAssetByDenom (assets : list PoolAsset) (denom : string) : option PoolAsset :=
  List.find (fun a => String.eqb (asset_denom a) denom) assets.

Definition parsePoolAssetsByDenoms (p : Pool) (tokenADenom tokenBDenom : string) : Res (PoolAsset * PoolAsset) :=
  match getPoolAssetByDenom (PoolAssets p) tokenADenom, getPoolAssetByDenom (PoolAssets p) tokenBDenom with
  | Some a, Some b => Ok (a, b)
  | _, _ => Err "does not exist in the pool"
  end.

Definition parsePoolAssets (p : Pool) (tokensA : list Coin) (tokenBDenom : string) : Res (Coin * PoolAsset * PoolAsset) :=
  match tokensA with
  | [tokenA] => '(a, b) <- parsePoolAssetsByDenoms p (Denom tokenA) tokenBDenom ;; Ok (tokenA, a, b)
  | _ => Err "expected tokensB to be of length one"
  end.

Definition parsePoolAssetsCoins (p : Pool) (tokensA tokensB : list Coin) : Res (Coin * Coin * PoolAsset * PoolAsset) :=
  match tokensB with
  | [tokenB] => '(tokenA, a, b) <- parsePoolAssets p tokensA (Denom tokenB) ;; Ok (tokenA, tokenB, a, b)
  | _ => Err "expected tokensA to be of length one"
  end.

(** ** Balances *)

Definition set_asset (i : nat) (a : PoolAsset) (p : Pool) : Pool := set_assets (<[i := a]> (PoolAssets p)) (TotalWeight p) p.

Definition UpdatePoolAssetBalance (coin : Coin) : M Pool unit :=
  p <~ get ;;
  '(assetIndex, existingAsset) <~ lift (getPoolAssetAndIndex p (Denom coin)) ;;
  if Amount coin <=? 0 then fail "can't set the pool's balance of a token to be zero or negative" else
  put (set_asset assetIndex {| Token := coin; Weight := Weight existingAsset |} p).

Definition UpdatePoolAssetBalances (coins : list Coin) : M Pool unit :=
  if negb (Coins_IsValid coins) then fail "provided coins are invalid" else for_each coins UpdatePoolAssetBalance.

Definition addToPoolAssetBalances (coins : list Coin) : M Pool unit :=
  for_each coins (fun coin =>
    p <~ get ;;
    '(i, poolAsset) <~ lift (getPoolAssetAndIndex p (Denom coin)) ;;
    amt <~ lift (int_Add (Amount (Token poolAsset)) (Amount coin)) ;;
    put (set_asset i (with_amount poolAsset amt) p)).

(** An error of the inner call is raised as a panic. *)
Definition must {X A} (c : M X A) : M X A := fun s => match c s with (Err e, s') => (Panic e, s') | r => r end.

Definition IncreaseLiquidity (sharesOut : Z) (coinsIn : list Coin) : M Pool unit :=
  must (addToPoolAssetBalances coinsIn) ~;; AddTotalShares sharesOut.

(** ** Weights that change over time *)

(** [subPoolAssetWeights] and [addPoolAssetWeights]: the same loop over both slices. *)
Fixpoint zipWeights (f : Z -> Z -> Res Z) (base other : list PoolAsset) : Res (list PoolAsset) :=
  match base, other with
  | [], [] => Ok []
  | a :: base', b :: other' =>
      if negb (String.eqb (asset_denom a) (asset_denom b)) then Panic "called with invalid input" else
      w <- f (Weight a) (Weight b) ;;
      r <- zipWeights f base' other' ;;
      Ok ({| Token := Token a; Weight := w |} :: r)
  | _, _ => Panic "called with invalid input, len(base) != len(other)"
  end.
Definition subPoolAssetWeights (base other : list PoolAsset) : Res (list PoolAsset) := zipWeights int_Sub base other.
Definition addPoolAssetWeights (base other : list PoolAsset) : Res (list PoolAsset) := zipWeights int_Add base other.

Fixpoint poolAssetsMulDec (base : list PoolAsset) (d : Z) : Res (list PoolAsset) :=
  match base with
  | [] => Ok []
  | asset :: rest =>
      x <- dec_MulInt d (Weight asset) ;;
      newWeight <- dec_RoundInt x ;;
      r <- poolAssetsMulDec rest d ;;
      Ok ({| Token := Token asset; Weight := newWeight |} :: r)
  end.

Fixpoint weightsLoop (assets newWeights : list PoolAsset) (totalWeight : Z) : Res (list PoolAsset * Z) :=
  match assets, newWeights with
  | [], _ => Ok ([], totalWeight)
  | _ :: _, [] => Panic "index out of range"
  | asset :: rest, w :: ws =>
      if negb (String.eqb (asset_denom asset) (asset_denom w)) then Panic "updateAllWeights called with invalid input" else
      if is_ok (validateWeight w) then
        tw <- int_Add totalWeight (Weight w) ;;
        '(r, tw') <- weightsLoop rest ws tw ;;
        Ok ({| Token := Token asset; Weight := Weight w |} :: r, tw')
      else Panic "updateAllWeights: Tried to set an invalid weight"
  end.

Definition updateAllWeights (newWeights : list PoolAsset) : M Pool unit :=
  p <~ get ;;
  if negb (Nat.eqb (List.length (PoolAssets p)) (List.length newWeights)) then panic "updateAllWeights called with invalid input" else
  '(assets, totalWeight) <~ lift (weightsLoop (PoolAssets p) newWeights 0) ;;
  put (set_assets assets totalWeight p).

Definition Milliseconds (d : Z) : Z := Z.quot d (10 ^ 6).

Definition PokePool (blockTime : Z) : M Pool unit :=
  p <~ get ;;
  match Smooth (Params p) with
  | None => ret tt
  | Some params =>
      if blockTime <=? StartTime params then ret tt else
      if StartTime params + Duration params <? blockTime then
        updateAllWeights (TargetPoolWeights params) ~;;
        modify (fun q => set_params {| SwapFee := SwapFee (Params q); ExitFee := ExitFee (Params q); Smooth := None |} q)
      else
        let shiftedBlockTime := Milliseconds (time_Sub blockTime (StartTime params)) in
        percentDurationElapsed <~ lift (dec_QuoInt64 (shiftedBlockTime * OneDec) (Milliseconds (Duration params))) ;;
        if OneDec <=? percentDurationElapsed then updateAllWeights (TargetPoolWeights params) else
        totalWeightsDiff <~ lift (subPoolAssetWeights (TargetPoolWeights params) (InitialPoolWeights params)) ;;
        scaledDiff <~ lift (poolAssetsMulDec totalWeightsDiff percentDurationElapsed) ;;
        updatedWeights <~ lift (addPoolAssetWeights (InitialPoolWeights params) scaledDiff) ;;
        updateAllWeights updatedWeights
  end.

(** ** The curve ([amm.go]) *)

Definition solveConstantFunctionInvariant (tokenBalanceFixedBefore tokenBalanceFixedAfter tokenWeightFixed
  tokenBalanceUnknownBefore tokenWeightUnknown : Z) : Res Z :=
  weightRatio <- dec_Quo tokenWeightFixed tokenWeightUnknown ;;
  y <- dec_Quo tokenBalanceFixedBefore tokenBalanceFixedAfter ;;
  yToWeightRatio <- Pow y weightRatio ;;
  paranthetical <- dec_Sub OneDec yToWeightRatio ;;
  dec_Mul paranthetical tokenBalanceUnknownBefore.

Definition feeRatio (normalizedWeight spreadFactor : Z) : Res Z :=
  a <- dec_Sub OneDec normalizedWeight ;;
  b <- dec_Mul a spreadFactor ;;
  dec_Sub OneDec b.

Definition calcPoolSharesOutGivenSingleAssetIn (tokenBalanceIn normalizedTokenWeightIn poolShares tokenAmountIn spreadFactor : Z) : Res Z :=
  fr <- feeRatio normalizedTokenWeightIn spreadFactor ;;
  tokenAmountInAfterFee <- dec_Mul tokenAmountIn fr ;;
  after <- dec_Add tokenBalanceIn tokenAmountInAfterFee ;;
  poolAmountOut <- solveConstantFunctionInvariant after tokenBalanceIn normalizedTokenWeightIn poolShares OneDec ;;
  Ok (- poolAmountOut).

Definition calcSingleAssetInGivenPoolSharesOut (tokenBalanceIn normalizedTokenWeightIn totalPoolSharesSupply sharesAmountOut spreadFactor : Z) : Res Z :=
  after <- dec_Add totalPoolSharesSupply sharesAmountOut ;;
  x <- solveConstantFunctionInvariant after totalPoolSharesSupply OneDec tokenBalanceIn normalizedTokenWeightIn ;;
  fr <- feeRatio normalizedTokenWeightIn spreadFactor ;;
  dec_Quo (- x) fr.

Definition calcPoolSharesInGivenSingleAssetOut (tokenBalanceOut normalizedTokenWeightOut totalPoolSharesSupply tokenAmountOut
  spreadFactor exitFee : Z) : Res Z :=
  fr <- feeRatio normalizedTokenWeightOut spreadFactor ;;
  tokenAmountOutFeeIncluded <- dec_Quo tokenAmountOut fr ;;
  after <- dec_Sub tokenBalanceOut tokenAmountOutFeeIncluded ;;
  sharesIn <- solveConstantFunctionInvariant after tokenBalanceOut normalizedTokenWeightOut totalPoolSharesSupply OneDec ;;
  oneMinus <- dec_Sub OneDec exitFee ;;
  dec_Quo sharesIn oneMinus.

(** ** Swaps *)

Definition CalcOutAmtGivenIn (p : Pool) (tokensIn : list Coin) (tokenOutDenom : string) (spreadFactor : Z) : Res Coin :=
  '(tokenIn, poolAssetIn, poolAssetOut) <- parsePoolAssets p tokensIn tokenOutDenom ;;
  inDec <- int_ToLegacyDec (Amount tokenIn) ;;
  oneMinus <- dec_Sub OneDec spreadFactor ;;
  tokenAmountInAfterFee <- dec_Mul inDec oneMinus ;;
  poolTokenInBalance <- int_ToLegacyDec (Amount (Token poolAssetIn)) ;;
  poolPostSwapInBalance <- dec_Add tokenAmountInAfterFee poolTokenInBalance ;;
  wIn <- int_ToLegacyDec (Weight poolAssetIn) ;;
  outBalance <- int_ToLegacyDec (Amount (Token poolAssetOut)) ;;
  wOut <- int_ToLegacyDec (Weight poolAssetOut) ;;
  tokenAmountOut <- solveConstantFunctionInvariant poolTokenInBalance poolPostSwapInBalance wIn outBalance wOut ;;
  tokenAmountOutInt <- dec_TruncateInt tokenAmountOut ;;
  if negb (0 <? tokenAmountOutInt) then Err "token amount must be positive" else NewCoin tokenOutDenom tokenAmountOutInt.

Definition CalcInAmtGivenOut (p : Pool) (tokensOut : list Coin) (tokenInDenom : string) (spreadFactor : Z) : Res Coin :=
  '(tokenOut, poolAssetOut, poolAssetIn) <- parsePoolAssets p tokensOut tokenInDenom ;;
  poolTokenOutBalance <- int_ToLegacyDec (Amount (Token poolAssetOut)) ;;
  outDec <- int_ToLegacyDec (Amount tokenOut) ;;
  poolPostSwapOutBalance <- dec_Sub poolTokenOutBalance outDec ;;
  wOut <- int_ToLegacyDec (Weight poolAssetOut) ;;
  inBalance <- int_ToLegacyDec (Amount (Token poolAssetIn)) ;;
  wIn <- int_ToLegacyDec (Weight poolAssetIn) ;;
  x <- solveConstantFunctionInvariant poolTokenOutBalance poolPostSwapOutBalance wOut inBalance wIn ;;
  oneMinus <- dec_Sub OneDec spreadFactor ;;
  tokenAmountInBeforeFee <- dec_Quo (- x) oneMinus ;;
  ce <- dec_Ceil tokenAmountInBeforeFee ;;
  tokenInAmt <- dec_TruncateInt ce ;;
  if negb (0 <? tokenInAmt) then Err "token amount must be positive" else NewCoin tokenInDenom tokenInAmt.

(** The gas charged for a swap is not modelled. *)
Definition applySwap (tokensIn tokensOut : list Coin) : M Pool unit :=
  p <~ get ;;
  '(tokenIn, tokenOut, inPoolAsset, outPoolAsset) <~ lift (parsePoolAssetsCoins p tokensIn tokensOut) ;;
  inAmt <~ lift (int_Add (Amount (Token inPoolAsset)) (Amount tokenIn)) ;;
  outAmt <~ lift (int_Sub (Amount (Token outPoolAsset)) (Amount tokenOut)) ;;
  cs <~ lift (MakeCoins [ {| Denom := asset_denom inPoolAsset; Amount := inAmt |}; {| Denom := asset_denom outPoolAsset; Amount := outAmt |} ]) ;;
  UpdatePoolAssetBalances cs.

Definition SwapOutAmtGivenIn (tokensIn : list Coin) (tokenOutDenom : string) (spreadFactor : Z) : M Pool Coin :=
  p <~ get ;;
  tokenOutCoin <~ lift (CalcOutAmtGivenIn p tokensIn tokenOutDenom spreadFactor) ;;
  applySwap tokensIn [tokenOutCoin] ~;;
  ret tokenOutCoin.

Definition SwapInAmtGivenOut (tokensOut : list Coin) (tokenInDenom : string) (spreadFactor : Z) : M Pool Coin :=
  p <~ get ;;
  tokenInCoin <~ lift (CalcInAmtGivenOut p tokensOut tokenInDenom spreadFactor) ;;
  applySwap [tokenInCoin] tokensOut ~;;
  ret tokenInCoin.

Definition SpotPrice (p : Pool) (quoteAsset baseAsset : string) : Res Z :=
  '(quote, base) <- parsePoolAssetsByDenoms p quoteAsset baseAsset ;;
  if (Weight base =? 0) || (Weight quote =? 0) then Err "pool is misconfigured, got 0 weight" else
  bw <- int_ToLegacyDec (Weight base) ;;
  qw <- int_ToLegacyDec (Weight quote) ;;
  invWeightRatio <- dec_Quo bw qw ;;
  qa <- int_ToLegacyDec (Amount (Token quote)) ;;
  ba <- int_ToLegacyDec (Amount (Token base)) ;;
  supplyRatio <- dec_Quo qa ba ;;
  spotPriceDec <- dec_Mul supplyRatio invWeightRatio ;;
  BigDecFromDecMut spotPriceDec.

(** ** Joins *)

Definition normalizedWeightOf (p : Pool) (a : PoolAsset) : Res Z :=
  w <- int_ToLegacyDec (Weight a) ;; tw <- int_ToLegacyDec (TotalWeight p) ;; dec_Quo w tw.

Definition calcSingleAssetJoin (p : Pool) (tokenIn : Coin) (spreadFactor : Z) (tokenInPoolAsset : PoolAsset) (totalShares : Z) : Res Z :=
  GetPoolAsset p (Denom tokenIn) ;;;
  if TotalWeight p =? 0 then Err "pool misconfigured, total weight = 0" else
  normalizedWeight <- normalizedWeightOf p tokenInPoolAsset ;;
  bal <- int_ToLegacyDec (Amount (Token tokenInPoolAsset)) ;;
  sh <- int_ToLegacyDec totalShares ;;
  amt <- int_ToLegacyDec (Amount tokenIn) ;;
  x <- calcPoolSharesOutGivenSingleAssetIn bal normalizedWeight sh amt spreadFactor ;;
  dec_TruncateInt x.

Fixpoint getPoolAssetsByDenomLoop (poolAssets : list PoolAsset) (m : gmap string PoolAsset) : Res (gmap string PoolAsset) :=
  match poolAssets with
  | [] => Ok m
  | a :: rest =>
      match m !! asset_denom a with
      | Some _ => Err "repeating pool assets not allowed"
      | None => getPoolAssetsByDenomLoop rest (<[asset_denom a := a]> m)
      end
  end.
Definition getPoolAssetsByDenom (poolAssets : list PoolAsset) : Res (gmap string PoolAsset) := getPoolAssetsByDenomLoop poolAssets ∅.

Fixpoint ensureDenomInPool (m : gmap string PoolAsset) (tokensIn : list Coin) : Res unit :=
  match tokensIn with
  | [] => Ok tt
  | coin :: rest => match m !! Denom coin with None => Err "input denoms must already exist in the pool" | Some _ => ensureDenomInPool m rest end
  end.

Fixpoint updateIntermediaryPoolAssetsLiquidity (liquidity : list Coin) (m : gmap string PoolAsset) : Res (gmap string PoolAsset) :=
  match liquidity with
  | [] => Ok m
  | coin :: rest =>
      match m !! Denom coin with
      | None => Err "failed to update interim liquidity"
      | Some a =>
          amt <- int_Add (Amount (Token a)) (Amount coin) ;;
          updateIntermediaryPoolAssetsLiquidity rest (<[Denom coin := with_amount a amt]> m)
      end
  end.

(** Reading a missing key gives an asset without a weight, which panics when used. *)
Definition asset_at (m : gmap string PoolAsset) (d : string) : Res PoolAsset :=
  match m !! d with Some a => Ok a | None => Panic "nil pointer dereference" end.

Fixpoint calcJoinSingleAssetTokensIn (p : Pool) (tokensIn : list Coin) (totalShares : Z) (m : gmap string PoolAsset)
  (spreadFactor totalNewShares : Z) (totalNewLiquidity : list Coin) : Res (Z * list Coin) :=
  match tokensIn with
  | [] => Ok (totalNewShares, totalNewLiquidity)
  | coin :: rest =>
      a <- asset_at m (Denom coin) ;;
      ts <- int_Add totalShares totalNewShares ;;
      newShares <- calcSingleAssetJoin p coin spreadFactor a ts ;;
      liq <- Coins_Add totalNewLiquidity [coin] ;;
      tn <- int_Add totalNewShares newShares ;;
      calcJoinSingleAssetTokensIn p rest totalShares m spreadFactor tn liq
  end.

Definition CalcJoinPoolNoSwapShares (p : Pool) (tokensIn : list Coin) (spreadFactor : Z) : Res (Z * list Coin) :=
  poolAssetsByDenom <- getPoolAssetsByDenom (PoolAssets p) ;;
  ensureDenomInPool poolAssetsByDenom tokensIn ;;;
  if negb (Nat.eqb (List.length tokensIn) (NumAssets p)) then Err "no-swap joins require LP'ing with all assets in pool" else
  '(numShares, remainingTokensIn) <- MaximalExactRatioJoin p tokensIn ;;
  tokensJoined <- Coins_Sub tokensIn remainingTokensIn ;;
  if Coins_IsAnyGT tokensJoined tokensIn then Err "an error has occurred, more coins joined than token In" else
  Ok (numShares, tokensJoined).

Definition CalcJoinPoolShares (p : Pool) (tokensIn : list Coin) (spreadFactor : Z) : Res (Z * list Coin) :=
  poolAssetsByDenom <- getPoolAssetsByDenom (PoolAssets p) ;;
  ensureDenomInPool poolAssetsByDenom tokensIn ;;;
  let totalShares := Amount (TotalShares p) in
  match tokensIn with
  | [tokenIn] =>
      a <- asset_at poolAssetsByDenom (Denom tokenIn) ;;
      numShares <- calcSingleAssetJoin p tokenIn spreadFactor a totalShares ;;
      Ok (numShares, tokensIn)
  | _ =>
      if negb (Nat.eqb (List.length tokensIn) (NumAssets p))
      then Err "balancer pool only supports LP'ing with one asset or all assets in pool" else
      '(numShares, tokensJoined) <- CalcJoinPoolNoSwapShares p tokensIn spreadFactor ;;
      if Coins_IsAnyGT tokensJoined tokensIn then Err "an error has occurred, more coins joined than tokens passed in" else
      if Coins_Equal tokensJoined tokensIn then Ok (numShares, tokensJoined) else
      m <- updateIntermediaryPoolAssetsLiquidity tokensJoined poolAssetsByDenom ;;
      newTotalShares <- int_Add totalShares numShares ;;
      remainingTokensIn <- Coins_Sub tokensIn tokensJoined ;;
      '(newNumShares, newLiquidity) <- calcJoinSingleAssetTokensIn p remainingTokensIn newTotalShares m spreadFactor 0 [] ;;
      numShares' <- int_Add numShares newNumShares ;;
      tokensJoined' <- Coins_Add tokensJoined newLiquidity ;;
      if Coins_IsAnyGT tokensJoined' tokensIn then Err "an error has occurred, more coins joined than token In" else
      Ok (numShares', tokensJoined')
  end.

Definition JoinPool (tokensIn : list Coin) (spreadFactor : Z) : M Pool Z :=
  p <~ get ;;
  '(numShares, newLiquidity) <~ lift (CalcJoinPoolShares p tokensIn spreadFactor) ;;
  IncreaseLiquidity numShares newLiquidity ~;;
  ret numShares.

Definition JoinPoolNoSwap (tokensIn : list Coin) (spreadFactor : Z) : M Pool Z :=
  p <~ get ;;
  '(numShares, tokensJoined) <~ lift (CalcJoinPoolNoSwapShares p tokensIn spreadFactor) ;;
  IncreaseLiquidity numShares tokensJoined ~;;
  ret numShares.

Definition CalcTokenInShareAmountOut (p : Pool) (tokenInDenom : string) (shareOutAmount spreadFactor : Z) : Res Z :=
  '(_, poolAssetIn) <- getPoolAssetAndIndex p tokenInDenom ;;
  normalizedWeight <- normalizedWeightOf p poolAssetIn ;;
  bal <- int_ToLegacyDec (Amount (Token poolAssetIn)) ;;
  sh <- int_ToLegacyDec (Amount (TotalShares p)) ;;
  so <- int_ToLegacyDec shareOutAmount ;;
  x <- calcSingleAssetInGivenPoolSharesOut bal normalizedWeight sh so spreadFactor ;;
  ce <- dec_Ceil x ;;
  tokenInAmount <- dec_TruncateInt ce ;;
  if negb (0 <? tokenInAmount) then Err "token amount must be positive" else Ok tokenInAmount.

Definition JoinPoolTokenInMaxShareAmountOut (tokenInDenom : string) (shareOutAmount : Z) : M Pool Z :=
  p <~ get ;;
  '(_, poolAssetIn) <~ lift (getPoolAssetAndIndex p tokenInDenom) ;;
  normalizedWeight <~ lift (normalizedWeightOf p poolAssetIn) ;;
  bal <~ lift (int_ToLegacyDec (Amount (Token poolAssetIn))) ;;
  sh <~ lift (int_ToLegacyDec (Amount (TotalShares p))) ;;
  so <~ lift (int_ToLegacyDec shareOutAmount) ;;
  x <~ lift (calcSingleAssetInGivenPoolSharesOut bal normalizedWeight sh so (GetSpreadFactor p)) ;;
  tokenInAmount <~ lift (dec_TruncateInt x) ;;
  if negb (0 <? tokenInAmount) then fail "token amount must be positive" else
  amt <~ lift (int_Add (Amount (Token poolAssetIn)) tokenInAmount) ;;
  UpdatePoolAssetBalance {| Denom := asset_denom poolAssetIn; Amount := amt |} ~;;
  ret tokenInAmount.

(** ** Exits *)

Definition CalcExitPoolCoinsFromShares (p : Pool) (exitingShares exitFee : Z) : Res (list Coin) := CalcExitPool p exitingShares exitFee.

Definition exitPool (exitingCoins : list Coin) (exitingShares : Z) : M Pool unit :=
  p <~ get ;;
  liq <~ lift (GetTotalPoolLiquidity p) ;;
  balances <~ lift (Coins_Sub liq exitingCoins) ;;
  UpdatePoolAssetBalances balances ~;;
  q <~ get ;;
  a <~ lift (int_Sub (Amount (TotalShares q)) exitingShares) ;;
  c <~ lift (NewCoin (Denom (TotalShares q)) a) ;;
  put (set_shares c q).

Definition ExitPool (exitingShares exitFee : Z) : M Pool (list Coin) :=
  p <~ get ;;
  exitingCoins <~ lift (CalcExitPoolCoinsFromShares p exitingShares exitFee) ;;
  exitPool exitingCoins exitingShares ~;;
  ret exitingCoins.

Definition ExitSwapExactAmountOut (tokenOut : Coin) (shareInMaxAmount : Z) : M Pool Z :=
  p <~ get ;;
  '(_, poolAssetOut) <~ lift (getPoolAssetAndIndex p (Denom tokenOut)) ;;
  bal <~ lift (int_ToLegacyDec (Amount (Token poolAssetOut))) ;;
  nw <~ lift (normalizedWeightOf p poolAssetOut) ;;
  sh <~ lift (int_ToLegacyDec (Amount (TotalShares p))) ;;
  out <~ lift (int_ToLegacyDec (Amount tokenOut)) ;;
  x <~ lift (calcPoolSharesInGivenSingleAssetOut bal nw sh out (GetSpreadFactor p) (GetExitFee p)) ;;
  sharesIn <~ lift (dec_TruncateInt x) ;;
  if negb (0 <? sharesIn) then fail "shares amount must be positive" else
  if shareInMaxAmount <? sharesIn then fail "resulted shares is larger than the max amount" else
  cs <~ lift (MakeCoins [tokenOut]) ;;
  exitPool cs sharesIn ~;;
  ret sharesIn.

#[export] Instance ops : CFMMOps Pool := {|
  cfmm_view := view;
  Cfmm.ExitPool := ExitPool;
  Cfmm.SwapOutAmtGivenIn := SwapOutAmtGivenIn
|}.

End Pool.
End Balancer.
