(* ===== verification/GammStableswap.v ===== *)
(** * Stableswap pools ([x/gamm/pool-models/stableswap])

    A pool whose curve is [x y (x^2 + y^2 + w) = k] on scaled reserves, where
    [w] is the sum of the squares of the other reserves.  [amm.go] solves the
    curve by binary search, [pool.go] has the operations of a pool.  Amounts on
    the curve are [BigDec]s, so the arithmetic is that of [BigDec.v]. *)

From stdpp Require Import base list.
From Stdlib Require Import ZArith Lia List Bool String Sorted.
From S2P Require Import Prelude GoBig BigInt BigDec SdkMath SdkMore BinarySearch Store GoState SdkCoins SdkPool Cfmm GammTypes.
Import ListNotations.
Open Scope Z_scope.

Module Stableswap.

(** ** The curve ([amm.go]) *)

Definition cfmmConstantMultiNoVY (xReserve yReserve wSumSquares : Z) : Res Z :=
  if negb (IsPositive xReserve) || negb (IsPositive yReserve) || IsNegative wSumSquares
  then Panic "invalid input: reserves must be positive" else
  x2 <- Mul xReserve xReserve ;;
  y2 <- Mul yReserve yReserve ;;
  s <- Add x2 y2 ;;
  t <- Add s wSumSquares ;;
  Mul xReserve t.

Definition cfmmConstantMultiNoV (xReserve yReserve wSumSquares : Z) : Res Z :=
  k <- cfmmConstantMultiNoVY xReserve yReserve wSumSquares ;; Mul k yReserve.

Definition targetKCalculator (x0 y0 w yf : Z) : Res Z :=
  startK <- cfmmConstantMultiNoV x0 y0 w ;;
  yfRemoved <- QuoMut startK yf ;;
  yf2 <- Mul yf yf ;;
  i1 <- AddMut yf2 w ;;
  x02 <- Mul x0 x0 ;;
  innerTerm <- AddMut i1 x02 ;;
  constantTerm <- Mul innerTerm x0 ;;
  Sub yfRemoved constantTerm.

(** [iterKCalculator] computes the coefficients once and returns the closure. *)
Definition iterKCoefficients (x0 w yf : Z) : Res (Z * Z) :=
  quadraticCoeff <- MulInt64 x0 3 ;;
  l1 <- Mul quadraticCoeff x0 ;;
  l2 <- AddMut l1 w ;;
  yf2 <- Mul yf yf ;;
  l3 <- AddMut l2 yf2 ;;
  Ok (quadraticCoeff, NegMut l3).

Definition iterK (x0 quadraticCoeff linearCoeff xf : Z) : Res Z :=
  xOut <- Sub x0 xf ;;
  r1 <- AddMut (Neg xOut) quadraticCoeff ;;
  r2 <- MulMut r1 xOut ;;
  r3 <- AddMut r2 linearCoeff ;;
  MulMut r3 xOut.

Definition deriveUpperLowerXFinalReserveBounds (xReserve yReserve wSumSquares yFinal : Z) : Res (Z * Z) :=
  k0 <- cfmmConstantMultiNoV xReserve yFinal wSumSquares ;;
  k <- cfmmConstantMultiNoV xReserve yReserve wSumSquares ;;
  if Equal k0 ZeroBigDec || Equal k ZeroBigDec then Panic "k should never be zero" else
  kRatio <- Quo k0 k ;;
  if LT kRatio OneBigDec then
    q <- Quo xReserve kRatio ;;
    xFinalUpperbound <- Ceil q ;;
    Ok (xReserve, xFinalUpperbound)
  else if GT kRatio OneBigDec then Ok (ZeroBigDec, xReserve)
  else Ok (xReserve, xReserve).

Definition solveTolerance : ErrTolerance :=
  {| AdditiveTolerance := None; MultiplicativeTolerance := Some (10 ^ 6); RoundingDir := RoundUp |}.

Definition solveCFMMBinarySearchMulti (xReserve yReserve wSumSquares yIn : Z) : Res Z :=
  if negb (IsPositive xReserve) || negb (IsPositive yReserve) || IsNegative wSumSquares
  then Panic "invalid input: reserves and input must be positive" else
  if GTE (Abs yIn) yReserve then Panic "cannot input more than pool reserves" else
  yFinal <- Add yReserve yIn ;;
  '(xLowEst, xHighEst) <- deriveUpperLowerXFinalReserveBounds xReserve yReserve wSumSquares yFinal ;;
  targetK <- targetKCalculator xReserve yReserve wSumSquares yFinal ;;
  '(quadraticCoeff, linearCoeff) <- iterKCoefficients xReserve wSumSquares yFinal ;;
  match BinarySearchBigDec (iterK xReserve quadraticCoeff linearCoeff) xLowEst xHighEst targetK solveTolerance 256 with
  | Err e => Panic e
  | Panic m => Panic m
  | Ok xEst =>
      xOut <- Sub xReserve xEst ;;
      if GTE (Abs xOut) xReserve then Panic "invalid output: greater than full pool reserves" else Ok xOut
  end.

Fixpoint sumSquares (remReserves : list Z) (wSumSquares : Z) : Res Z :=
  match remReserves with
  | [] => Ok wSumSquares
  | r :: rest => sq <- Mul r r ;; w <- Add wSumSquares sq ;; sumSquares rest w
  end.

Definition solveCfmm (xReserve yReserve : Z) (remReserves : list Z) (yIn : Z) : Res Z :=
  wSumSquares <- sumSquares remReserves ZeroBigDec ;; solveCFMMBinarySearchMulti xReserve yReserve wSumSquares yIn.

(** ** Data ([stableswap_pool.pb.go]) *)

Record PoolParams : Type := { SwapFee : Z; ExitFee : Z }.

Record Pool : Type := {
  PoolAddress : string;
  Id : Z;
  Params : PoolParams;
  FuturePoolGovernor : string;
  TotalShares : Coin;
  PoolLiquidity : list Coin;
  ScalingFactors : list Z;
  ScalingFactorController : string
}.

Definition set_liquidity (v : list Coin) (p : Pool) : Pool :=
  {| PoolAddress := PoolAddress p; Id := Id p; Params := Params p; FuturePoolGovernor := FuturePoolGovernor p; TotalShares := TotalShares p;
     PoolLiquidity := v; ScalingFactors := ScalingFactors p; ScalingFactorController := ScalingFactorController p |}.
Definition set_shares (v : Coin) (p : Pool) : Pool :=
  {| PoolAddress := PoolAddress p; Id := Id p; Params := Params p; FuturePoolGovernor := FuturePoolGovernor p; TotalShares := v;
     PoolLiquidity := PoolLiquidity p; ScalingFactors := ScalingFactors p; ScalingFactorController := ScalingFactorController p |}.
Definition set_factors (v : list Z) (p : Pool) : Pool :=
  {| PoolAddress := PoolAddress p; Id := Id p; Params := Params p; FuturePoolGovernor := FuturePoolGovernor p; TotalShares := TotalShares p;
     PoolLiquidity := PoolLiquidity p; ScalingFactors := v; ScalingFactorController := ScalingFactorController p |}.
Definition set_controller (v : string) (p : Pool) : Pool :=
  {| PoolAddress := PoolAddress p; Id := Id p; Params := Params p; FuturePoolGovernor := FuturePoolGovernor p; TotalShares := TotalShares p;
     PoolLiquidity := PoolLiquidity p; ScalingFactors := ScalingFactors p; ScalingFactorController := v |}.

Section Pool.
Context {S : SdkMath} {D : SdkMore} {DP : SdkPool} {C : CoinsOps} {CM : CoinsMore} {T : GammText}.

(** ** Validation *)

Definition Validate (params : PoolParams) : Res unit :=
  if ExitFee params <? 0 then Err "exit fee is negative" else
  if OneDec <=? ExitFee params then Err "exit fee too large" else
  if SwapFee params <? 0 then Err "spread factor is negative" else
  if OneDec <=? SwapFee params then Err "spread factor too large" else Ok tt.

Definition validateScalingFactorController (scalingFactorController : string) : Res unit :=
  if String.eqb scalingFactorController "" then Ok tt else FromBech32 scalingFactorController ;;; Ok tt.

Fixpoint factorsPositive (scalingFactors : list Z) : Res unit :=
  match scalingFactors with
  | [] => Ok tt
  | f :: rest => if int64 f <=? 0 then Err "invalid scaling factors" else factorsPositive rest
  end.

Definition validateScalingFactors (scalingFactors : list Z) (numAssets : nat) : Res unit :=
  if negb (Nat.eqb (List.length scalingFactors) numAssets) then Err "invalid scaling factor length" else factorsPositive scalingFactors.

(** The loop of [validatePoolLiquidity] over the assets, their sorted copy and
    the factors. *)
Fixpoint liquidityLoop (liquidity sorted : list Coin) (scalingFactors : list Z) : Res unit :=
  match liquidity, sorted, scalingFactors with
  | asset :: l, asset' :: l', f :: fs =>
      if negb (String.eqb (Denom asset) (Denom asset') && (Amount asset =? Amount asset')) then Err "unsorted pool liquidity" else
      scaledAmount <- int_QuoRaw (Amount asset) (int64 f) ;;
      if StableswapMaxScaledAmtPerAsset <? scaledAmount then Err "hit max scaled assets" else
      if scaledAmount <? StableswapMinScaledAmtPerAsset then Err "hit min scaled assets" else
      liquidityLoop l l' fs
  | _, _, _ => Ok tt
  end.

Definition validatePoolLiquidity (liquidity : list Coin) (scalingFactors : list Z) : Res unit :=
  if negb (Nat.eqb (List.length liquidity) (List.length scalingFactors)) then Err "liquidity and scaling factor count mismatch" else
  if Z.of_nat (List.length liquidity) <? MinNumOfAssetsInPool then Err "too few pool assets" else
  if MaxNumOfAssetsInPool <? Z.of_nat (List.length liquidity) then Err "too many pool assets" else
  liquidityLoop liquidity (Coins_Sort liquidity) scalingFactors.

Fixpoint applyScalingFactorMultiplier (scalingFactors : list Z) : Res (list Z) :=
  match scalingFactors with
  | [] => Ok []
  | f :: rest =>
      let f' := uint64 (f * ScalingFactorMultiplier) in
      if f' <? f then Err "invalid scaling factors" else
      r <- applyScalingFactorMultiplier rest ;; Ok (f' :: r)
  end.

Definition NewStableswapPool (poolId : Z) (stableswapPoolParams : PoolParams) (initialLiquidity : list Coin) (scalingFactors : list Z)
  (scalingFactorController futureGovernor : string) : Res Pool :=
  let scalingFactors := match scalingFactors with [] => repeat 1 (List.length initialLiquidity) | _ => scalingFactors end in
  sf <- applyScalingFactorMultiplier scalingFactors ;;
  validateScalingFactors sf (List.length initialLiquidity) ;;;
  validatePoolLiquidity initialLiquidity sf ;;;
  ValidateFutureGovernor futureGovernor ;;;
  shares <- NewCoin (GetPoolShareDenom poolId) InitPoolSharesSupply ;;
  Ok {| PoolAddress := NewPoolAddress poolId; Id := poolId; Params := stableswapPoolParams; FuturePoolGovernor := futureGovernor;
        TotalShares := shares; PoolLiquidity := initialLiquidity; ScalingFactors := sf; ScalingFactorController := scalingFactorController |}.

(** ** Getters and scaling *)

Definition GetAddress (p : Pool) : Res Address :=
  match FromBech32 (PoolAddress p) with Ok a => Ok a | _ => Panic "could not bech32 decode address of pool" end.

#[export] Instance view : CFMMView Pool := {|
  GetTotalShares p := Amount (TotalShares p);
  GetTotalPoolLiquidity p := Ok (PoolLiquidity p)
|}.

Definition GetSpreadFactor (p : Pool) : Z := SwapFee (Params p).
Definition GetExitFee (p : Pool) : Z := ExitFee (Params p).
Definition NumAssets (p : Pool) : nat := List.length (PoolLiquidity p).

(** An index past the scaling factors panics. *)
Fixpoint factorOf (coins : list Coin) (factors : list Z) (denom : string) : Res Z :=
  match coins, factors with
  | [], _ => Ok 0
  | c :: cs, fs =>
      if String.eqb denom (Denom c) then match fs with f :: _ => Ok f | [] => Panic "index out of range" end
      else factorOf cs (tl fs) denom
  end.
Definition GetScalingFactorByDenom (p : Pool) (denom : string) : Res Z := factorOf (PoolLiquidity p) (ScalingFactors p) denom.

Definition scaleCoin (p : Pool) (input : Coin) (roundingDirection : RoundingDirection) : Res Z :=
  scalingFactor <- GetScalingFactorByDenom p (Denom input) ;; DivIntByU64ToBigDec (Amount input) scalingFactor roundingDirection.

Definition getDescaledPoolAmt (p : Pool) (denom : string) (amount : Z) : Res Z :=
  scalingFactor <- GetScalingFactorByDenom p denom ;; m <- MulInt64 amount (int64 scalingFactor) ;; Ok (Dec m).

(** The loop of [reorderReservesAndScalingFactors]: the two named slots, and the
    others in order; [curIndex] counts from 2. *)
Fixpoint reorderLoop (coins : list Coin) (factors : list Z) (first second : string) (n : nat)
  (r0 r1 : Coin * Z) (others : list (Coin * Z)) : Res (list (Coin * Z)) :=
  match coins, factors with
  | [], _ => Ok (r0 :: r1 :: others)
  | _ :: _, [] => Panic "index out of range"
  | coin :: cs, f :: fs =>
      if String.eqb (Denom coin) first then reorderLoop cs fs first second n (coin, f) r1 others
      else if String.eqb (Denom coin) second then reorderLoop cs fs first second n r0 (coin, f) others
      else if Nat.eqb (2 + List.length others) n then Err "one of denom not found in pool liquidity"
      else reorderLoop cs fs first second n r0 r1 (others ++ [(coin, f)])
  end.

Definition no_coin : Coin * Z := ({| Denom := ""; Amount := 0 |}, 0).

Definition reorderReservesAndScalingFactors (p : Pool) (first second : string) : Res (list (Coin * Z)) :=
  if (List.length (PoolLiquidity p) <? 2)%nat then Panic "index out of range" else
  reorderLoop (PoolLiquidity p) (ScalingFactors p) first second (List.length (PoolLiquidity p)) no_coin no_coin [].

Definition scaledSortedPoolReserves (p : Pool) (first second : string) (round : RoundingDirection) : Res (list Z) :=
  reordered <- reorderReservesAndScalingFactors p first second ;;
  validateScalingFactors (map snd reordered) (List.length reordered) ;;;
  DivCoinAmtsByU64ToBigDec (map (fun cf => Amount (fst cf)) reordered) (map snd reordered) round.

(** ** Changes of the liquidity *)

Definition updatePoolLiquidityForSwap (tokensIn tokensOut : list Coin) : M Pool unit :=
  p <~ get ;;
  l1 <~ lift (Coins_Add (PoolLiquidity p) tokensIn) ;;
  l2 <~ lift (Coins_Sub l1 tokensOut) ;;
  put (set_liquidity l2 p) ~;;
  if negb (Nat.eqb (List.length l2) (List.length (PoolLiquidity p)))
  then panic "updatePoolLiquidityForSwap changed number of tokens in pool" else ret tt.

Definition set_total (f : Z -> Res Z) : M Pool unit :=
  p <~ get ;; a <~ lift (f (Amount (TotalShares p))) ;; put (set_shares {| Denom := Denom (TotalShares p); Amount := a |} p).

Definition updatePoolLiquidityForExit (tokensOut : list Coin) (exitingShares : Z) : M Pool unit :=
  updatePoolLiquidityForSwap [] tokensOut ~;; set_total (fun a => int_Sub a exitingShares).

Definition updatePoolForJoin (tokensIn : list Coin) (newShares : Z) : M Pool unit :=
  p <~ get ;;
  l <~ lift (Coins_Add (PoolLiquidity p) tokensIn) ;;
  put (set_liquidity l p) ~;;
  (if negb (Nat.eqb (List.length l) (NumAssets p)) then panic "updatePoolForJoin changed number of tokens in pool" else ret tt) ~;;
  set_total (fun a => int_Add a newShares).

(** ** Swaps *)

Definition oneMinus (spreadFactor : Z) : Res Z := d <- dec_Sub OneDec spreadFactor ;; BigDecFromDecMut d.

Definition calcOutAmtGivenIn (p : Pool) (tokenIn : Coin) (tokenOutDenom : string) (spreadFactor : Z) : Res Z :=
  reserves <- scaledSortedPoolReserves p (Denom tokenIn) tokenOutDenom RoundDown ;;
  match reserves with
  | tokenInSupply :: tokenOutSupply :: remReserves =>
      tokenInDec <- scaleCoin p tokenIn RoundDown ;;
      om <- oneMinus spreadFactor ;;
      ammIn <- Mul tokenInDec om ;;
      cfmmOut <- solveCfmm tokenOutSupply tokenInSupply remReserves ammIn ;;
      getDescaledPoolAmt p tokenOutDenom cfmmOut
  | _ => Panic "index out of range"
  end.

Definition calcInAmtGivenOut (p : Pool) (tokenOut : Coin) (tokenInDenom : string) (spreadFactor : Z) : Res Z :=
  reserves <- scaledSortedPoolReserves p tokenInDenom (Denom tokenOut) RoundDown ;;
  match reserves with
  | tokenInSupply :: tokenOutSupply :: remReserves =>
      tokenOutAmount <- scaleCoin p tokenOut RoundUp ;;
      cfmmIn <- solveCfmm tokenInSupply tokenOutSupply remReserves (Neg tokenOutAmount) ;;
      om <- oneMinus spreadFactor ;;
      inAmt <- QuoRoundUpMut (Neg cfmmIn) om ;;
      getDescaledPoolAmt p tokenInDenom inAmt
  | _ => Panic "index out of range"
  end.

Definition CalcOutAmtGivenIn (p : Pool) (tokenIn : list Coin) (tokenOutDenom : string) (spreadFactor : Z) : Res Coin :=
  match tokenIn with
  | [c] =>
      outAmtDec <- calcOutAmtGivenIn p c tokenOutDenom spreadFactor ;;
      tokenOutAmt <- dec_TruncateInt outAmtDec ;;
      if negb (0 <? tokenOutAmt) then Err "token amount must be positive" else NewCoin tokenOutDenom tokenOutAmt
  | _ => Err "stableswap CalcOutAmtGivenIn: tokenIn is of wrong length"
  end.

Definition CalcInAmtGivenOut (p : Pool) (tokenOut : list Coin) (tokenInDenom : string) (spreadFactor : Z) : Res Coin :=
  match tokenOut with
  | [c] =>
      amt <- calcInAmtGivenOut p c tokenInDenom spreadFactor ;;
      ce <- dec_Ceil amt ;;
      tokenInAmt <- dec_TruncateInt ce ;;
      if negb (0 <? tokenInAmt) then Err "token amount must be positive" else NewCoin tokenInDenom tokenInAmt
  | _ => Err "stableswap CalcInAmtGivenOut: tokenOut is of wrong length"
  end.

Definition SwapOutAmtGivenIn (tokenIn : list Coin) (tokenOutDenom : string) (spreadFactor : Z) : M Pool Coin :=
  p <~ get ;;
  l <~ lift (Coins_Add (PoolLiquidity p) tokenIn) ;;
  lift (validatePoolLiquidity l (ScalingFactors p)) ~;;
  tokenOut <~ lift (CalcOutAmtGivenIn p tokenIn tokenOutDenom spreadFactor) ;;
  outs <~ lift (MakeCoins [tokenOut]) ;;
  updatePoolLiquidityForSwap tokenIn outs ~;;
  ret tokenOut.

Definition SwapInAmtGivenOut (tokenOut : list Coin) (tokenInDenom : string) (spreadFactor : Z) : M Pool Coin :=
  p <~ get ;;
  tokenIn <~ lift (CalcInAmtGivenOut p tokenOut tokenInDenom spreadFactor) ;;
  l <~ lift (Coins_Add (PoolLiquidity p) [tokenIn]) ;;
  lift (validatePoolLiquidity l (ScalingFactors p)) ~;;
  ins <~ lift (MakeCoins [tokenIn]) ;;
  updatePoolLiquidityForSwap ins tokenOut ~;;
  ret tokenIn.

Definition SpotPrice (p : Pool) (quoteAssetDenom baseAssetDenom : string) : Res Z :=
  c <- NewCoin baseAssetDenom 1 ;;
  spotPriceDec <- calcOutAmtGivenIn p c quoteAssetDenom 0 ;;
  BigDecFromDecMut spotPriceDec.

(** ** Exits *)

Definition CalcExitPoolCoinsFromShares (p : Pool) (exitingShares exitFee : Z) : Res (list Coin) := CalcExitPool p exitingShares exitFee.

Definition ExitPool (exitingShares exitFee : Z) : M Pool (list Coin) :=
  p <~ get ;;
  exitingCoins <~ lift (CalcExitPoolCoinsFromShares p exitingShares exitFee) ;;
  postExitLiquidity <~ lift (Coins_Sub (PoolLiquidity p) exitingCoins) ;;
  lift (validatePoolLiquidity postExitLiquidity (ScalingFactors p)) ~;;
  updatePoolLiquidityForExit exitingCoins exitingShares ~;;
  ret exitingCoins.

#[export] Instance ops : CFMMOps Pool := {|
  cfmm_view := view;
  Cfmm.ExitPool := ExitPool;
  Cfmm.SwapOutAmtGivenIn := SwapOutAmtGivenIn
|}.

(** ** Joins *)

Definition Copy (p : Pool) : Res Pool := l <- MakeCoins (PoolLiquidity p) ;; Ok (set_liquidity l p).

Fixpoint sumBigDec (l : list Z) (acc : Z) : Res Z :=
  match l with
  | [] => Ok acc
  | x :: l' => acc' <- Add acc x ;; sumBigDec l' acc'
  end.

Definition singleAssetJoinSpreadFactorRatio (p : Pool) (tokenInDenom : string) : Res Z :=
  match PoolLiquidity p with
  | [] => Panic "index out of range"
  | c0 :: rest =>
      tokenOut <- (if String.eqb (Denom c0) tokenInDenom
                   then match rest with c1 :: _ => Ok c1 | [] => Panic "index out of range" end else Ok c0) ;;
      scaledLiquidity <- scaledSortedPoolReserves p tokenInDenom (Denom tokenOut) RoundDown ;;
      totalLiquidityDenominator <- sumBigDec scaledLiquidity ZeroBigDec ;;
      match scaledLiquidity with
      | first :: _ =>
          ratio <- Quo first totalLiquidityDenominator ;;
          dec_Sub OneDec (Dec ratio)
      | [] => Panic "index out of range"
      end
  end.

Definition poolWithAddedLiquidityAndShares (p : Pool) (newLiquidity : Coin) (newShares : Z) : Res Pool :=
  paCopy <- Copy p ;;
  cs <- MakeCoins [newLiquidity] ;;
  let '(r, p') := updatePoolForJoin cs newShares paCopy in
  r ;;; Ok p'.

Definition calcSingleAssetJoinShares (p : Pool) (tokenIn : Coin) (spreadFactor : Z) : Res Z :=
  spreadFactorApplicableRatio <- singleAssetJoinSpreadFactorRatio p (Denom tokenIn) ;;
  m <- dec_Mul spreadFactor spreadFactorApplicableRatio ;;
  oneMinusSpreadFactor <- dec_Sub OneDec m ;;
  d <- int_ToLegacyDec (Amount tokenIn) ;;
  m2 <- dec_Mul d oneMinusSpreadFactor ;;
  tokenInAmtAfterFee <- dec_TruncateInt m2 ;;
  c <- NewCoin (Denom tokenIn) tokenInAmtAfterFee ;;
  BinarySearchSingleAssetJoin p c (poolWithAddedLiquidityAndShares p).

Definition joinPoolSharesInternal (tokensIn : list Coin) (spreadFactor : Z) : M Pool (Z * list Coin) :=
  p <~ get ;;
  if negb (Coins_DenomsSubsetOf tokensIn (PoolLiquidity p)) then fail "attempted joining pool with assets that do not exist in pool" else
  '(numShares, tokensJoined) <~
    lift (match tokensIn with
          | [c] => if 1 <? Amount c then n <- calcSingleAssetJoinShares p c spreadFactor ;; Ok (n, tokensIn)
                   else if negb (Nat.eqb 1 (NumAssets p)) then Err "stableswap pool only supports LP'ing with one asset, or all assets in pool"
                   else '(n, remCoins) <- MaximalExactRatioJoin p tokensIn ;; joined <- Coins_Sub tokensIn remCoins ;; Ok (n, joined)
          | _ => if negb (Nat.eqb (List.length tokensIn) (NumAssets p)) then Err "stableswap pool only supports LP'ing with one asset, or all assets in pool"
                 else '(n, remCoins) <- MaximalExactRatioJoin p tokensIn ;; joined <- Coins_Sub tokensIn remCoins ;; Ok (n, joined)
          end) ;;
  updatePoolForJoin tokensJoined numShares ~;;
  q <~ get ;;
  lift (validatePoolLiquidity (PoolLiquidity q) (ScalingFactors q)) ~;;
  ret (numShares, tokensJoined).

Definition CalcJoinPoolShares (p : Pool) (tokensIn : list Coin) (spreadFactor : Z) : Res (Z * list Coin) :=
  pCopy <- Copy p ;; fst (joinPoolSharesInternal tokensIn spreadFactor pCopy).

Definition CalcJoinPoolNoSwapShares (p : Pool) (tokensIn : list Coin) (spreadFactor : Z) : Res (Z * list Coin) :=
  if negb (Nat.eqb (List.length tokensIn) (NumAssets p)) || negb (Coins_DenomsSubsetOf tokensIn (PoolLiquidity p))
  then Err "no-swap joins require LP'ing with all assets in pool" else
  '(numShares, remainingTokensIn) <- MaximalExactRatioJoin p tokensIn ;;
  tokensJoined <- Coins_Sub tokensIn remainingTokensIn ;;
  if Coins_IsAnyGT tokensJoined tokensIn then Err "an error has occurred, more coins joined than token In" else
  Ok (numShares, tokensJoined).

Definition JoinPool (tokensIn : list Coin) (spreadFactor : Z) : M Pool Z :=
  '(numShares, _) <~ joinPoolSharesInternal tokensIn spreadFactor ;; ret numShares.

Definition JoinPoolNoSwap (tokensIn : list Coin) (spreadFactor : Z) : M Pool Z :=
  p <~ get ;;
  '(newShares, tokensJoined) <~ lift (CalcJoinPoolNoSwapShares p tokensIn spreadFactor) ;;
  updatePoolForJoin tokensJoined newShares ~;;
  ret newShares.

(** ** Governance of the scaling factors *)

Definition SetScalingFactors (scalingFactors : list Z) (sender : string) : M Pool unit :=
  p <~ get ;;
  if negb (String.eqb sender (ScalingFactorController p)) then fail "not scaling factor governor" else
  sf <~ lift (applyScalingFactorMultiplier scalingFactors) ;;
  lift (validateScalingFactors sf (List.length (PoolLiquidity p))) ~;;
  lift (validatePoolLiquidity (PoolLiquidity p) sf) ~;;
  put (set_factors sf p).

End Pool.
End Stableswap.
