(* ===== verification/GammBalancerOk.v ===== *)
(** * Weighted pools keep their form

    [pool_ok]: the assets are sorted by denomination, with positive balances and
    weights, and the total weight is the sum of the weights.  Every operation
    keeps it; the lemmas also say what the operation does to the balances
    ([liq]), the shares and the weights. *)

From stdpp Require Import base gmap strings list.
From Stdlib Require Import ZArith Lia List Bool String Sorted Permutation.
From S2P Require Import Prelude GoBig BigInt BigDec SdkMath SdkMore BinarySearch Store GoState SdkCoins SdkPool DecMath Cfmm GammTypes GammBalancer.
Import ListNotations.
Import Balancer.
Open Scope Z_scope.

Section Ok.
Context {S : SdkMath} {SS : SdkMathSpec S} {D : SdkMore} {DS : SdkMoreSpec D} {DP : SdkPool} {DPS : SdkPoolSpec S D DP}
  {C : CoinsOps} {CS : CoinsSpec C} {CM : CoinsMore} {CMS : CoinsMoreSpec C CM} {T : GammText}.

Definition tokens (p : Pool) : list Coin := map Token (PoolAssets p).
Definition liq (p : Pool) (d : string) : Z := amount_of (tokens p) d.
Definition weights (l : list PoolAsset) : list Z := map Weight l.

Record pool_ok (p : Pool) : Prop := {
  po_tokens : coins_ok (tokens p);
  po_weights : Forall (fun a => 0 < Weight a) (PoolAssets p);
  po_total : TotalWeight p = zsum (weights (PoolAssets p));
  po_share : Denom (TotalShares p) = GetPoolShareDenom (Id p)
}.

(** Everything but balances and shares. *)
Definition same_pool (p p' : Pool) : Prop :=
  Id p' = Id p /\ PoolAddress p' = PoolAddress p /\ Params p' = Params p /\ weights (PoolAssets p') = weights (PoolAssets p) /\
  map asset_denom (PoolAssets p') = map asset_denom (PoolAssets p).

Lemma same_pool_refl p : same_pool p p.
Proof. repeat split. Qed.
Lemma same_pool_trans p q r : same_pool p q -> same_pool q r -> same_pool p r.
Proof. unfold same_pool. intuition congruence. Qed.

(** ** Lookup by binary search finds what a linear search finds *)

Lemma lookup_token (l : list PoolAsset) i a : l !! i = Some a -> In a l.
Proof. intros H. apply list_elem_of_In. now apply list_elem_of_lookup_2 in H. Qed.

Lemma sorted_lookup (l : list PoolAsset) : StronglySorted denom_lt (map Token l) -> forall i j a b,
  l !! i = Some a -> l !! j = Some b -> (i < j)%nat -> blt (string_bytes (asset_denom a)) (string_bytes (asset_denom b)).
Proof.
  induction l as [|e l IH]; intros Sd i j a b Hi Hj L; [discriminate Hi|]. inversion Sd as [|? ? Sl F]; subst.
  destruct j as [|j]; [lia|]. destruct i as [|i]; cbn in Hi, Hj.
  - injection Hi as <-. rewrite Forall_forall in F. apply lookup_token in Hj. exact (F _ (in_map Token _ _ Hj)).
  - apply (IH Sl i j); auto. lia.
Qed.

Lemma find_asset p i a : coins_ok (tokens p) -> PoolAssets p !! i = Some a -> getPoolAssetAndIndex p (asset_denom a) = Ok (i, a).
Proof.
  intros [Sd F] H. assert (V : ValidateDenom (asset_denom a) = true).
  { rewrite Forall_forall in F. apply lookup_token, (in_map Token) in H. now apply F in H. }
  apply ValidateDenom_bytes in V as [Ne _]. unfold getPoolAssetAndIndex. destruct (String.eqb_spec (asset_denom a) ""); [contradiction|].
  destruct (PoolAssets p) as [|e l] eqn:El; [discriminate H|]. rewrite <- El in *. clear e l El.
  assert (Sr : sort_Search (List.length (PoolAssets p)) (fun j => match PoolAssets p !! j with Some b => negb (denom_ltb (asset_denom b) (asset_denom a)) | None => false end) = i).
  { apply sort_Search_spec.
    - apply lookup_lt_Some in H. lia.
    - intros h Hh. destruct (PoolAssets p !! h) as [b|] eqn:Eb; [|reflexivity]. apply negb_false_iff, bltb_spec.
      exact (sorted_lookup _ Sd h i b a Eb H Hh).
    - intros h [Hh Hl]. destruct (lookup_lt_is_Some_2 (PoolAssets p) h Hl) as [b Eb]. rewrite Eb. apply negb_true_iff.
      destruct (denom_ltb (asset_denom b) (asset_denom a)) eqn:L; [|reflexivity]. exfalso. apply bltb_spec in L.
      destruct (Nat.eq_dec h i) as [-> | N].
      + rewrite H in Eb. injection Eb as <-. exact (blt_irrefl _ L).
      + pose proof (sorted_lookup _ Sd i h a b H Eb ltac:(lia)) as L'. exact (blt_irrefl _ (blt_trans _ _ _ L L')). }
  rewrite Sr, H. now rewrite String.eqb_refl.
Qed.

Lemma found_asset p d i a : getPoolAssetAndIndex p d = Ok (i, a) -> PoolAssets p !! i = Some a /\ asset_denom a = d.
Proof.
  unfold getPoolAssetAndIndex. destruct (String.eqb d ""); [discriminate|]. destruct (PoolAssets p) as [|e l] eqn:El; [discriminate|]. rewrite <- El.
  set (j := sort_Search _ _). destruct (PoolAssets p !! j) as [b|] eqn:Eb; [|discriminate]. destruct (String.eqb_spec (asset_denom b) d); [|discriminate].
  intros H. apply Ok_inj in H. injection H as <- <-. auto.
Qed.

(** The binary search of [getPoolAssetAndIndex] and the linear one of
    [getPoolAssetByDenom] agree. *)
Lemma lookups_agree p d : coins_ok (tokens p) -> forall a, getPoolAssetByDenom (PoolAssets p) d = Some a <-> GetPoolAsset p d = Ok a.
Proof.
  intros O a. unfold GetPoolAsset. split.
  - unfold getPoolAssetByDenom. intros H. apply find_some in H as [I E]. apply String.eqb_eq in E as <-.
    apply list_elem_of_In, list_elem_of_lookup_1 in I as (i & I). now rewrite (find_asset p i a O I).
  - intros H. apply bind_ok_inv in H as ([i b] & H & E). apply Ok_inj in E as <-. pose proof H as H0. apply found_asset in H as [I <-].
    unfold getPoolAssetByDenom. destruct (List.find _ (PoolAssets p)) as [c|] eqn:Ef.
    + apply find_some in Ef as [Ic Ec]. apply String.eqb_eq in Ec. apply list_elem_of_In, list_elem_of_lookup_1 in Ic as (j & Ic).
      pose proof (find_asset p j c O Ic) as Fc. rewrite Ec, H0 in Fc. apply Ok_inj in Fc. congruence.
    + exfalso. apply lookup_token in I. pose proof (find_none _ _ Ef b I) as N. cbn in N. now rewrite String.eqb_refl in N.
Qed.

(** ** Replacing an asset *)

Lemma insert_map {A B} (f : A -> B) l i b : map f (<[i := b]> l) = <[i := f b]> (map f l).
Proof. exact (list_fmap_insert f l i b). Qed.

Lemma insert_id {A} (l : list A) i a b : l !! i = Some a -> b = a -> <[i := b]> l = l.
Proof. intros H ->. now apply list_insert_id. Qed.

Lemma amount_insert (l : list Coin) i c c' d : l !! i = Some c -> Denom c' = Denom c ->
  amount_of (<[i := c']> l) d = amount_of l d + if String.eqb (Denom c) d then Amount c' - Amount c else 0.
Proof.
  revert i. induction l as [|e l IH]; intros i H E; [discriminate H|]. destruct i as [|i]; cbn in H.
  - injection H as ->. change (<[0%nat := c']> (c :: l)) with (c' :: l). rewrite !amount_cons, E. destruct (String.eqb _ _); lia.
  - change (<[Datatypes.S i := c']> (e :: l)) with (e :: <[i := c']> l). rewrite !amount_cons, (IH i H E). lia.
Qed.

Lemma insert_coins_ok (l : list Coin) i c c' : coins_ok l -> l !! i = Some c -> Denom c' = Denom c -> 0 < Amount c' -> coins_ok (<[i := c']> l).
Proof.
  intros [Sd F] H E P. split.
  - apply (sorted_denoms l); [|exact Sd]. rewrite insert_map. symmetry. apply (insert_id _ i (Denom c)); [|exact E].
    change (map Denom l) with (Denom <$> l). rewrite list_lookup_fmap, H. reflexivity.
  - rewrite List.Forall_forall in *. intros x I. apply list_elem_of_In, list_elem_of_lookup in I as (j & I).
    destruct (Nat.eq_dec i j) as [<- | N].
    + rewrite list_lookup_insert_eq in I by (now apply lookup_lt_Some in H). injection I as <-. split; [exact P|]. rewrite E.
      apply F, list_elem_of_In. now apply list_elem_of_lookup_2 in H.
    + rewrite list_lookup_insert_ne in I by exact N. apply F, list_elem_of_In. now apply list_elem_of_lookup_2 in I.
Qed.

Lemma replace_asset p i a b : pool_ok p -> PoolAssets p !! i = Some a -> asset_denom b = asset_denom a -> Weight b = Weight a ->
  0 < Amount (Token b) ->
  pool_ok (set_asset i b p) /\ same_pool p (set_asset i b p) /\ TotalShares (set_asset i b p) = TotalShares p /\
  forall d, liq (set_asset i b p) d = liq p d + if String.eqb (asset_denom a) d then Amount (Token b) - Amount (Token a) else 0.
Proof.
  intros [Ot Ow Ew Es] H Ed Ewt Pb. assert (Ht : tokens p !! i = Some (Token a)).
  { unfold tokens. change (map Token (PoolAssets p)) with (Token <$> PoolAssets p). now rewrite list_lookup_fmap, H. }
  assert (W : weights (<[i := b]> (PoolAssets p)) = weights (PoolAssets p)).
  { unfold weights. rewrite insert_map. apply (insert_id _ i (Weight a)); [|exact Ewt].
    change (map Weight (PoolAssets p)) with (Weight <$> PoolAssets p). now rewrite list_lookup_fmap, H. }
  assert (Tk : tokens (set_asset i b p) = <[i := Token b]> (tokens p)) by (unfold tokens, set_asset, set_assets; cbn [PoolAssets]; apply insert_map).
  split; [|split; [|split; [reflexivity|]]].
  - split; cbn [set_asset set_assets TotalWeight PoolAssets TotalShares Id].
    + rewrite Tk. now apply (insert_coins_ok _ _ (Token a)).
    + rewrite <- Forall_map with (P := fun w => 0 < w) (f := Weight) in *. fold weights. unfold weights in W. rewrite W. exact Ow.
    + now rewrite W.
    + exact Es.
  - repeat split; cbn [set_asset set_assets PoolAssets]; [exact W|].
    rewrite insert_map. apply (insert_id _ i (asset_denom a)); [|exact Ed]. change (map asset_denom (PoolAssets p)) with (asset_denom <$> PoolAssets p).
    now rewrite list_lookup_fmap, H.
  - intros d. unfold liq. rewrite Tk. now apply amount_insert.
Qed.

(** ** Setting and adding balances *)

Lemma asset_amount p i a : coins_ok (tokens p) -> PoolAssets p !! i = Some a -> liq p (asset_denom a) = Amount (Token a).
Proof. intros O H. apply (amount_in (Token a)); [exact O|]. apply (in_map Token). now apply lookup_token in H. Qed.

Lemma update_balance coin p r p' : pool_ok p -> UpdatePoolAssetBalance coin p = (Ok r, p') ->
  pool_ok p' /\ same_pool p p' /\ TotalShares p' = TotalShares p /\ liq p (Denom coin) <> 0 /\
  forall d, liq p' d = if String.eqb (Denom coin) d then Amount coin else liq p d.
Proof.
  intros O H. unfold UpdatePoolAssetBalance in H. apply mbind_ok_inv in H as (q & s & E & H). injection E as <- <-.
  apply mbind_ok_inv in H as ([i a] & s & E & H). apply lift_ok_inv in E as [E <-]. apply found_asset in E as [I Ed].
  destruct (Z.leb_spec (Amount coin) 0); [discriminate H|]. injection H as _ <-.
  destruct (replace_asset p i a {| Token := coin; Weight := Weight a |} O I) as (Ok' & Sm & Sh & L); cbn [Token Weight]; auto.
  split; [exact Ok'|]. split; [exact Sm|]. split; [exact Sh|]. pose proof (asset_amount p i a (po_tokens p O) I) as Am.
  assert (0 < Amount (Token a)) by (apply (in_amount_pos (tokens p)); [apply O | apply (in_map Token); now apply lookup_token in I]).
  split; [rewrite <- Ed; lia|]. intros d. rewrite L, Ed. cbn [Token]. destruct (String.eqb_spec (Denom coin) d) as [<-|]; [|lia]. rewrite <- Ed, Am. lia.
Qed.

Lemma update_balances_loop cs : forall p r p', pool_ok p -> List.NoDup (map Denom cs) -> for_each cs UpdatePoolAssetBalance p = (Ok r, p') ->
  pool_ok p' /\ same_pool p p' /\ TotalShares p' = TotalShares p /\ (forall d, In d (map Denom cs) -> liq p d <> 0) /\
  forall d, liq p' d = if existsb (String.eqb d) (map Denom cs) then amount_of cs d else liq p d.
Proof.
  induction cs as [|c cs IH]; intros p r p' O N H; cbn [for_each] in H.
  { injection H as _ <-. split; [exact O|]. split; [apply same_pool_refl|]. split; [reflexivity|]. split; [intros d []|]. intros d. reflexivity. }
  apply mbind_ok_inv in H as (u & q & E & H). cbn [map] in N. inversion N as [|? ? Nc N']; subst. clear N. rename N' into N.
  destruct (update_balance c p u q O E) as (Oq & Sq & Shq & Pq & Lq). destruct (IH q r p' Oq N H) as (O' & S' & Sh' & P' & L').
  split; [exact O'|]. split; [now apply (same_pool_trans p q)|]. split; [congruence|]. split.
  - intros d [<- | I]; [exact Pq|]. pose proof (P' d I) as X. rewrite Lq in X. destruct (String.eqb_spec (Denom c) d) as [<-|]; [|exact X].
    contradiction.
  - intros d. rewrite L', Lq, amount_cons. cbn [map existsb]. rewrite (String.eqb_sym d).
    destruct (String.eqb_spec (Denom c) d) as [<-|Nd]; cbn [orb].
    + destruct (existsb (String.eqb (Denom c)) (map Denom cs)) eqn:Ex; [apply existsb_exists in Ex as (x & I & Ex); apply String.eqb_eq in Ex as <-; contradiction|].
      rewrite amount_absent; [lia | exact Nc].
    + destruct (existsb _ _); lia.
Qed.

Lemma coins_ok_NoDup cs : coins_ok cs -> List.NoDup (map Denom cs).
Proof.
  intros [Sd _]. induction Sd as [|c cs Sd IH F]; cbn [map]; constructor; [|exact IH]. now apply later_absent.
Qed.

(** Setting balances replaces those that are named. *)
Lemma update_balances cs p r p' : pool_ok p -> UpdatePoolAssetBalances cs p = (Ok r, p') ->
  pool_ok p' /\ same_pool p p' /\ TotalShares p' = TotalShares p /\
  forall d, liq p' d = if amount_of cs d =? 0 then liq p d else amount_of cs d.
Proof.
  intros O H. unfold UpdatePoolAssetBalances in H. destruct (Coins_IsValid cs) eqn:V; [|discriminate H]. cbn [negb] in H.
  apply Coins_IsValid_spec in V. destruct (update_balances_loop cs p r p' O (coins_ok_NoDup cs V) H) as (O' & S' & Sh & _ & L).
  repeat split; try assumption; try apply O'; try apply S'. intros d. rewrite L.
  destruct (existsb (String.eqb d) (map Denom cs)) eqn:Ex; destruct (Z.eqb_spec (amount_of cs d) 0) as [Z0|Nz]; try reflexivity.
  - exfalso. apply existsb_exists in Ex as (x & I & Ex). apply String.eqb_eq in Ex as <-. apply in_map_iff in I as (c & <- & I).
    rewrite amount_in in Z0 by assumption. pose proof (in_amount_pos cs c V I). lia.
  - exfalso. apply nonzero_in in Nz. enough (X : existsb (String.eqb d) (map Denom cs) = true) by congruence. apply existsb_exists. exists d. split; [exact Nz | apply String.eqb_refl].
Qed.

Lemma add_balances cs : forall p r p', pool_ok p -> Forall (fun c => 0 <= Amount c) cs -> addToPoolAssetBalances cs p = (Ok r, p') ->
  pool_ok p' /\ same_pool p p' /\ TotalShares p' = TotalShares p /\ forall d, liq p' d = liq p d + amount_of cs d.
Proof.
  unfold addToPoolAssetBalances. induction cs as [|c cs IH]; intros p r p' O F H; cbn [for_each] in H.
  { injection H as _ <-. split; [exact O|]. split; [apply same_pool_refl|]. split; [reflexivity|]. intros d. cbn. lia. }
  apply mbind_ok_inv in H as (u & q & E & H). inversion F as [|? ? Pc F']; subst.
  apply mbind_ok_inv in E as (p0 & s & E0 & E). injection E0 as <- <-. apply mbind_ok_inv in E as ([i a] & s & E0 & E).
  apply lift_ok_inv in E0 as [E0 <-]. apply found_asset in E0 as [I Ed]. apply mbind_ok_inv in E as (amt & s & E0 & E).
  apply lift_ok_inv in E0 as [E0 <-]. apply int_Add_exact in E0 as ->. injection E as _ <-.
  assert (Pa : 0 < Amount (Token a)) by (apply (in_amount_pos (tokens p)); [apply O | apply (in_map Token); now apply lookup_token in I]).
  destruct (replace_asset p i a (with_amount a (Amount (Token a) + Amount c)) O I) as (Oq & Sq & Shq & Lq); cbn [with_amount Token Amount Weight]; auto; [lia|].
  destruct (IH _ r p' Oq F' H) as (O' & S' & Sh' & L'). split; [exact O'|]. split; [now apply (same_pool_trans p _ p' Sq)|]. split; [congruence|].
  intros d. rewrite L', Lq, amount_cons, Ed. cbn [with_amount Token Amount]. destruct (String.eqb _ _); lia.
Qed.

Lemma add_shares n p r p' : pool_ok p -> AddTotalShares n p = (Ok r, p') ->
  pool_ok p' /\ same_pool p p' /\ Amount (TotalShares p') = Amount (TotalShares p) + n /\ forall d, liq p' d = liq p d.
Proof.
  intros [Ot Ow Ew Es] H. unfold AddTotalShares in H. apply mbind_ok_inv in H as (q & s & E & H). injection E as <- <-.
  apply mbind_ok_inv in H as (a & s & E & H). apply lift_ok_inv in E as [E <-]. apply int_Add_exact in E as ->. injection H as _ <-.
  split; [now split|]. split; [repeat split|]. split; reflexivity.
Qed.

Lemma must_ok {X A} (c : M X A) s a s' : must c s = (Ok a, s') -> c s = (Ok a, s').
Proof. unfold must. destruct (c s) as [[v|e|m] t]; intros H; [exact H | discriminate H | exact H]. Qed.

Lemma increase_liquidity n cs p r p' : pool_ok p -> Forall (fun c => 0 <= Amount c) cs -> IncreaseLiquidity n cs p = (Ok r, p') ->
  pool_ok p' /\ same_pool p p' /\ Amount (TotalShares p') = Amount (TotalShares p) + n /\ forall d, liq p' d = liq p d + amount_of cs d.
Proof.
  intros O F H. unfold IncreaseLiquidity in H. apply mbind_ok_inv in H as (u & q & E & H). apply must_ok in E.
  destruct (add_balances cs p u q O F E) as (Oq & Sq & Shq & Lq). destruct (add_shares n q r p' Oq H) as (O' & S' & Sh' & L').
  split; [exact O'|]. split; [now apply (same_pool_trans p q)|]. split; [congruence|]. intros d. now rewrite L', Lq.
Qed.

(** ** The total liquidity is the balances *)

Lemma poolAssetsCoins_loop l : forall cs r, coins_ok cs -> Forall (fun a => 0 < Amount (Token a) /\ ValidateDenom (asset_denom a) = true) l ->
  poolAssetsCoinsLoop l cs = Ok r -> coins_ok r /\ forall d, amount_of r d = amount_of cs d + amount_of (map Token l) d.
Proof.
  induction l as [|a l IH]; intros cs r O F H; cbn [poolAssetsCoinsLoop] in H.
  { apply Ok_inj in H as <-. split; [exact O|]. intros d. cbn. lia. }
  inversion F as [|? ? [Pa Va] F']; subst. inv_bind H. apply Coins_Add_exact in E as [Ov Av]; [|exact O | now apply single_ok].
  destruct (IH v r Ov F' H) as [Or Ar]. split; [exact Or|]. intros d. cbn [map]. rewrite Ar, Av, amount_single, amount_cons. lia.
Qed.

Lemma total_liquidity p l : pool_ok p -> GetTotalPoolLiquidity p = Ok l -> l = tokens p.
Proof.
  intros O H. apply (poolAssetsCoins_loop (PoolAssets p) [] l) in H as [Ol Al].
  - apply coins_ext; [exact Ol | apply O|]. intros d. rewrite Al. reflexivity.
  - split; constructor.
  - destruct (po_tokens p O) as [_ F]. unfold tokens in F. rewrite Forall_map in F. exact F.
Qed.

(** ** Swaps and exits *)

Lemma parsed p ta tb a b : parsePoolAssetsByDenoms p ta tb = Ok (a, b) ->
  In a (PoolAssets p) /\ In b (PoolAssets p) /\ asset_denom a = ta /\ asset_denom b = tb.
Proof.
  unfold parsePoolAssetsByDenoms, getPoolAssetByDenom. destruct (List.find _ _) as [x|] eqn:Ex; [|discriminate].
  destruct (List.find (fun a => String.eqb (asset_denom a) tb) _) as [y|] eqn:Ey; [|discriminate]. intros H. apply Ok_inj in H. injection H as <- <-.
  apply find_some in Ex as [Ix Ex], Ey as [Iy Ey]. now apply String.eqb_eq in Ex, Ey.
Qed.

Lemma asset_liq p a : coins_ok (tokens p) -> In a (PoolAssets p) -> liq p (asset_denom a) = Amount (Token a) /\ 0 < Amount (Token a).
Proof.
  intros O I. apply (in_map Token) in I. split; [now apply amount_in | now apply (in_amount_pos (tokens p))].
Qed.

(** A swap that leaves something of the asset that is paid out. *)
Lemma apply_swap tin tout p r p' : pool_ok p -> Denom tin <> Denom tout -> 0 < Amount tin -> Amount tout < liq p (Denom tout) ->
  applySwap [tin] [tout] p = (Ok r, p') ->
  pool_ok p' /\ same_pool p p' /\ TotalShares p' = TotalShares p /\
  forall d, liq p' d = liq p d + amount_of [tin] d - amount_of [tout] d.
Proof.
  intros O Ne Pin Lt H. unfold applySwap in H. apply mbind_ok_inv in H as (q & s & E & H). injection E as <- <-.
  apply mbind_ok_inv in H as ([[[ti to] a] b] & s & E & H). apply lift_ok_inv in E as [E <-]. cbn [parsePoolAssetsCoins parsePoolAssets] in E.
  inv_bind E. inv_bind E0. destruct v0 as [a0 b0]. apply Ok_inj in E0. subst v. apply Ok_inj in E. injection E as <- <- <- <-.
  apply parsed in E1 as (Ia & Ib & Ea & Eb). destruct (asset_liq p a0 (po_tokens p O) Ia) as [La Pa]. destruct (asset_liq p b0 (po_tokens p O) Ib) as [Lb Pb].
  apply mbind_ok_inv in H as (x & s & E & H). apply lift_ok_inv in E as [E <-]. apply int_Add_exact in E as ->.
  apply mbind_ok_inv in H as (y & s & E & H). apply lift_ok_inv in E as [E <-]. apply int_Sub_exact in E as ->.
  apply mbind_ok_inv in H as (cs & s & E & H). apply lift_ok_inv in E as [E <-]. apply MakeCoins_exact in E as [Oc Ac].
  destruct (update_balances cs p r p' O H) as (O' & S' & Sh & L). repeat split; try assumption; try apply O'; try apply S'.
  intros d. rewrite L, Ac, !amount_single, !amount_cons. cbn [amount_of map zsum fold_right Denom Amount]. rewrite Ea, Eb.
  rewrite Ea in La. rewrite Eb in Lb.
  destruct (String.eqb_spec (Denom tin) d) as [E1|N1]; destruct (String.eqb_spec (Denom tout) d) as [E2|N2]; try congruence.
  - rewrite <- E1 in *. destruct (Z.eqb_spec (Amount (Token a0) + Amount tin + (0 + 0)) 0); lia.
  - rewrite <- E2 in *. destruct (Z.eqb_spec (0 + (Amount (Token b0) - Amount tout + 0)) 0); lia.
  - rewrite Z.eqb_refl. lia.
Qed.

Lemma exit_pool cs k p r p' : pool_ok p -> coins_ok cs -> (forall d, liq p d <> 0 -> amount_of cs d < liq p d) -> exitPool cs k p = (Ok r, p') ->
  pool_ok p' /\ same_pool p p' /\ 0 <= Amount (TotalShares p') /\ Amount (TotalShares p') = Amount (TotalShares p) - k /\
  forall d, liq p' d = liq p d - amount_of cs d.
Proof.
  intros O Oc Lt H. unfold exitPool in H. apply mbind_ok_inv in H as (q & s & E & H). injection E as <- <-.
  apply mbind_ok_inv in H as (l & s & E & H). apply lift_ok_inv in E as [E <-]. apply (total_liquidity p l O) in E as ->.
  apply mbind_ok_inv in H as (bs & s & E & H). apply lift_ok_inv in E as [E <-]. apply Coins_Sub_exact in E as [Ob Ab]; [|apply O | exact Oc].
  apply mbind_ok_inv in H as (u & q & E & H). destruct (update_balances bs p u q O E) as (Oq & Sq & Shq & Lq).
  apply mbind_ok_inv in H as (q0 & s & E0 & H). injection E0 as <- <-. apply mbind_ok_inv in H as (a & s & E0 & H). apply lift_ok_inv in E0 as [E0 <-].
  apply int_Sub_exact in E0 as ->. apply mbind_ok_inv in H as (c & s & E0 & H). apply lift_ok_inv in E0 as [E0 <-]. injection H as _ <-.
  unfold NewCoin in E0. destruct (Z.ltb_spec (Amount (TotalShares q) - k) 0); [discriminate E0|]. apply Ok_inj in E0 as <-.
  destruct Oq as [Ot Ow Ew Es]. split; [now split|]. split; [exact Sq|]. split; [cbn; lia|]. split; [cbn; now rewrite Shq|].
  intros d. change (liq q d = liq p d - amount_of cs d). rewrite Lq, Ab. fold (liq p d). specialize (Lt d).
  pose proof (coins_ok_nonneg bs d Ob) as Nb. rewrite Ab in Nb. fold (liq p d) in Nb. pose proof (coins_ok_nonneg cs d Oc).
  destruct (Z.eqb_spec (liq p d - amount_of cs d) 0); [|reflexivity]. destruct (Z.eq_dec (liq p d) 0); lia.
Qed.

(** ** Weights *)

Lemma weightsLoop_spec l : forall ws tw l' tw', weightsLoop l ws tw = Ok (l', tw') -> List.length l = List.length ws ->
  map Token l' = map Token l /\ weights l' = weights ws /\ tw' = tw + zsum (weights ws) /\ Forall (fun a => 0 < Weight a) l'.
Proof.
  induction l as [|a l IH]; intros [|w ws] tw l' tw' H Len; cbn [weightsLoop] in H; try discriminate Len.
  { apply Ok_inj in H. injection H as <- <-. repeat split; [cbn; lia | constructor]. }
  destruct (String.eqb _ _); cbn [negb] in H; [|discriminate H]. unfold validateWeight in H. destruct (Z.leb_spec (Weight w) 0); cbn [is_ok] in H; [discriminate H|].
  inv_bind H. apply int_Add_exact in E as ->. inv_bind H. destruct v as [r tw0]. apply Ok_inj in H. injection H as <- <-.
  injection Len as Len. destruct (IH _ _ _ _ E Len) as (Tk & Wt & Tt & F). cbn [map weights Token Weight zsum fold_right].
  repeat split; [now rewrite Tk | unfold weights in *; cbn [map]; now rewrite Wt | unfold weights, zsum in *; lia | constructor; [assumption | exact F]].
Qed.

Lemma update_weights ws p r p' : pool_ok p -> updateAllWeights ws p = (Ok r, p') ->
  pool_ok p' /\ tokens p' = tokens p /\ TotalShares p' = TotalShares p /\ Id p' = Id p /\ PoolAddress p' = PoolAddress p /\ Params p' = Params p /\
  weights (PoolAssets p') = weights ws.
Proof.
  intros [Ot Ow Ew Es] H. unfold updateAllWeights in H. apply mbind_ok_inv in H as (q & s & E & H). injection E as <- <-.
  destruct (Nat.eqb_spec (List.length (PoolAssets p)) (List.length ws)) as [Len|]; [|discriminate H]. cbn [negb] in H.
  apply mbind_ok_inv in H as ([l tw] & s & E & H). apply lift_ok_inv in E as [E <-]. injection H as _ <-.
  destruct (weightsLoop_spec _ _ _ _ _ E Len) as (Tk & Wt & Tt & F).
  split; [split; cbn [set_assets PoolAssets TotalWeight TotalShares Id]; [unfold tokens; cbn; now rewrite Tk | exact F | rewrite Tt, Wt; reflexivity | exact Es]|].
  repeat split; [exact Tk | exact Wt].
Qed.

(** Poking changes weights only. *)
Lemma poke_ok t p r p' : pool_ok p -> PokePool t p = (Ok r, p') ->
  pool_ok p' /\ tokens p' = tokens p /\ TotalShares p' = TotalShares p /\ Id p' = Id p /\ PoolAddress p' = PoolAddress p /\
  SwapFee (Params p') = SwapFee (Params p) /\ ExitFee (Params p') = ExitFee (Params p).
Proof.
  intros O H. unfold PokePool in H. apply mbind_ok_inv in H as (q & s & E & H). injection E as <- <-.
  destruct (Smooth (Params p)) as [sp|] eqn:Es; [|injection H as _ <-; repeat split; apply O].
  destruct (t <=? StartTime sp); [injection H as _ <-; repeat split; apply O|].
  assert (Up : forall ws u q, updateAllWeights ws p = (Ok u, q) -> pool_ok q /\ tokens q = tokens p /\ TotalShares q = TotalShares p /\ Id q = Id p /\
    PoolAddress q = PoolAddress p /\ SwapFee (Params q) = SwapFee (Params p) /\ ExitFee (Params q) = ExitFee (Params p)).
  { intros ws u q E. destruct (update_weights ws p u q O E) as (Oq & Tq & Shq & Iq & Aq & Pq & _). rewrite Pq. auto 10. }
  destruct (StartTime sp + Duration sp <? t).
  - apply mbind_ok_inv in H as (u & q & E & H). injection H as _ <-. destruct (Up _ _ _ E) as ([Ot Ow Ew Ed] & R). split; [now split | exact R].
  - apply mbind_ok_inv in H as (pct & s & E & H). apply lift_ok_inv in E as [_ <-]. destruct (OneDec <=? pct); [exact (Up _ _ _ H)|].
    apply mbind_ok_inv in H as (df & s & E & H). apply lift_ok_inv in E as [_ <-]. apply mbind_ok_inv in H as (sd & s & E & H). apply lift_ok_inv in E as [_ <-].
    apply mbind_ok_inv in H as (uw & s & E & H). apply lift_ok_inv in E as [_ <-]. exact (Up _ _ _ H).
Qed.

(** ** Smooth changes of weights *)

Definition user_weights (l : list PoolAsset) : Prop := Forall (fun a => 0 < Weight a < 2 ^ 50) l.

Record smooth_ok (assets : list PoolAsset) (sp : SmoothWeightChangeParams) : Prop := {
  so_initial : map asset_denom (InitialPoolWeights sp) = map asset_denom assets;
  so_target : map asset_denom (TargetPoolWeights sp) = map asset_denom assets;
  so_iw : user_weights (InitialPoolWeights sp);
  so_tw : user_weights (TargetPoolWeights sp);
  so_dur : 10 ^ 6 <= Duration sp < 2 ^ 63;
  so_len : (List.length assets <= 8)%nat
}.

Lemma weightsLoop_total l : forall ws tw, map asset_denom ws = map asset_denom l -> user_weights ws ->
  0 <= tw -> tw + 2 ^ 50 * Z.of_nat (List.length l) < 2 ^ 255 -> exists r, weightsLoop l ws tw = Ok r.
Proof.
  induction l as [|a l IH]; intros [|w ws] tw E F Pt Lt; try discriminate E; cbn [weightsLoop]; [eauto|].
  injection E as E0 E. rewrite E0, String.eqb_refl. cbn [negb]. inversion F as [|? ? Pw F']; subst. unfold validateWeight.
  destruct (Z.leb_spec (Weight w) 0); [lia|]. cbn [is_ok]. cbn [List.length] in Lt. rewrite Nat2Z.inj_succ in Lt.
  rewrite int_Add_total by lia. cbn [bind]. destruct (IH ws (tw + Weight w) E F' ltac:(lia) ltac:(lia)) as ([r tw'] & ->). cbn [bind]. eauto.
Qed.

Lemma update_weights_total ws p : map asset_denom ws = map asset_denom (PoolAssets p) -> user_weights ws -> (List.length (PoolAssets p) <= 8)%nat ->
  exists p', updateAllWeights ws p = (Ok tt, p').
Proof.
  intros E F L. unfold updateAllWeights, mbind, get. assert (Len : List.length (PoolAssets p) = List.length ws) by (rewrite <- (length_map asset_denom ws), E; now rewrite length_map).
  rewrite Len, Nat.eqb_refl. cbn [negb]. unfold lift. destruct (weightsLoop_total (PoolAssets p) ws 0 E F) as ([l tw] & ->); [lia | lia|]. unfold put. eauto.
Qed.

(** Between two weights, at the fraction [pct] of the way. *)
Definition step_between (pct w0 w1 w : Z) : Prop :=
  Z.min w0 w1 <= w <= Z.max w0 w1 /\ 2 * Z.abs ((w - w0) * OneDec - pct * (w1 - w0)) <= OneDec.

Lemma blend pct : forall l0 l1, 0 <= pct < OneDec -> map asset_denom l1 = map asset_denom l0 -> user_weights l0 -> user_weights l1 ->
  exists df sd l, subPoolAssetWeights l1 l0 = Ok df /\ poolAssetsMulDec df pct = Ok sd /\ addPoolAssetWeights l0 sd = Ok l /\
    map asset_denom l = map asset_denom l0 /\ user_weights l /\
    Forall2 (fun w ww => step_between pct (fst ww) (snd ww) w) (weights l) (combine (weights l0) (weights l1)).
Proof.
  unfold subPoolAssetWeights, addPoolAssetWeights. pose proof OneDec_pos as PO. assert (HO : OneDec = 10 ^ 18) by reflexivity.
  induction l0 as [|a l0 IH]; intros [|b l1] Hp E F0 F1; try discriminate E; cbn [zipWeights poolAssetsMulDec].
  { exists [], [], []. repeat split; constructor. }
  injection E as E0 E. inversion F0 as [|? ? Pa F0']; inversion F1 as [|? ? Pb F1']; subst.
  destruct (IH l1 Hp E F0' F1') as (df & sd & l & Ed & Es & El & Em & Fl & Fs). rewrite E0, String.eqb_refl. cbn [negb].
  rewrite int_Sub_total by lia. cbn [bind]. rewrite Ed. cbn [bind].
  set (diff := Weight b - Weight a) in *. assert (Hd : Z.abs diff < 2 ^ 50) by lia.
  assert (Hm : Z.abs (pct * diff) <= 10 ^ 18 * 2 ^ 50) by (rewrite Z.abs_mul, (Z.abs_eq pct) by lia; apply Z.mul_le_mono_nonneg; lia).
  assert (Rt : exists s, dec_RoundInt (pct * diff) = Ok s).
  { pose proof (dec_RoundInt_total (pct * diff) ltac:(lia)) as R. destruct (dec_RoundInt (pct * diff)); try discriminate R. eauto. }
  destruct Rt as (s & Rs). pose proof (dec_RoundInt_bound _ _ Rs) as B.
  assert (Sb : Z.min 0 diff <= s <= Z.max 0 diff) by (clear - B Hp PO; nia).
  assert (St : step_between pct (Weight a) (Weight b) (Weight a + s)).
  { split; [lia|]. replace (Weight a + s - Weight a) with s by lia. exact B. }
  exists ({| Token := Token b; Weight := diff |} :: df), ({| Token := Token b; Weight := s |} :: sd), ({| Token := Token a; Weight := Weight a + s |} :: l).
  cbn [poolAssetsMulDec zipWeights Weight Token asset_denom]. rewrite dec_MulInt_total by (unfold sdk_fits; assert (10 ^ 18 * 2 ^ 50 < 2 ^ 315) by reflexivity; lia).
  cbn [bind]. rewrite Rs. cbn [bind]. rewrite Es. cbn [bind]. split; [reflexivity|]. split; [reflexivity|].
  unfold asset_denom in E0 |- *. cbn [Token Denom]. rewrite E0, String.eqb_refl. cbn [negb]. rewrite int_Add_total by lia. cbn [bind]. rewrite El. cbn [bind].
  split; [reflexivity|]. cbn [map Token Weight weights combine]. split; [f_equal; exact Em|]. split; [constructor; [cbn; lia | exact Fl]|].
  unfold weights in *. cbn [map combine]. constructor; [exact St | exact Fs].
Qed.

(** The fraction of the change that has passed, at most one. *)
Definition elapsed (sp : SmoothWeightChangeParams) (t : Z) : Z :=
  Z.min OneDec (Z.quot (Milliseconds (t - StartTime sp) * OneDec) (Milliseconds (Duration sp))).

Lemma at_target l0 : forall l1, map asset_denom l1 = map asset_denom l0 ->
  Forall2 (fun w ww => step_between OneDec (fst ww) (snd ww) w) (weights l1) (combine (weights l0) (weights l1)).
Proof.
  pose proof OneDec_pos as PO. induction l0 as [|a l0 IH]; intros [|b l1] E; try discriminate E; [constructor|]. injection E as _ E.
  unfold weights in *. cbn [map combine]. constructor; [|now apply IH]. cbn [fst snd]. split; [lia|].
  replace ((Weight b - Weight a) * OneDec - OneDec * (Weight b - Weight a)) with 0 by ring. lia.
Qed.

Lemma milliseconds_pos d : 10 ^ 6 <= d -> 0 < Milliseconds d.
Proof. intros H. unfold Milliseconds. rewrite quot_nonneg by lia. pose proof (div_spec d (10 ^ 6) ltac:(lia)). nia. Qed.

Lemma elapsed_nonneg sp t : StartTime sp < t -> 10 ^ 6 <= Duration sp -> 0 <= elapsed sp t.
Proof.
  intros Ht Hd. unfold elapsed. pose proof OneDec_pos. pose proof (milliseconds_pos _ Hd).
  assert (0 <= Milliseconds (t - StartTime sp)) by (apply Z.quot_pos; lia). pose proof (Z.quot_pos (Milliseconds (t - StartTime sp) * OneDec) (Milliseconds (Duration sp)) ltac:(nia) ltac:(lia)). lia.
Qed.

(** C26: Weights that change over time stay between their initial and target
    values.  For a well-formed pool of at most eight assets, weights below 2^50
    and a change that lasts at least a millisecond (a shorter one, which the
    parameters may have, panics): once the start time has passed, [PokePool]
    succeeds and touches neither balances nor shares.  After the end it sets the
    target weights and drops the parameters; before, every weight is the point at
    the elapsed fraction (in milliseconds, 18 decimals) of the way from initial to
    target, rounded to the nearest integer and between the two, and the total
    weight is the sum of the weights. *)
Theorem PokePool_interpolates p sp t : pool_ok p -> Smooth (Params p) = Some sp -> smooth_ok (PoolAssets p) sp ->
  StartTime sp < t < StartTime sp + 2 ^ 63 ->
  exists p', PokePool t p = (Ok tt, p') /\ tokens p' = tokens p /\ TotalShares p' = TotalShares p /\
    TotalWeight p' = zsum (weights (PoolAssets p')) /\
    (if StartTime sp + Duration sp <? t
     then weights (PoolAssets p') = weights (TargetPoolWeights sp) /\ Smooth (Params p') = None
     else Forall2 (fun w ww => step_between (elapsed sp t) (fst ww) (snd ww) w) (weights (PoolAssets p'))
            (combine (weights (InitialPoolWeights sp)) (weights (TargetPoolWeights sp)))).
Proof.
  intros O Es So Ht. pose proof (update_weights_total (TargetPoolWeights sp) p (so_target _ _ So) (so_tw _ _ So) (so_len _ _ So)) as (q & Uq).
  destruct (update_weights _ p tt q O Uq) as (Oq & Tq & Shq & _ & _ & Pq & Wq).
  unfold PokePool. unfold mbind at 1. cbn [get]. rewrite Es. destruct (Z.leb_spec t (StartTime sp)); [lia|].
  destruct (Z.ltb_spec (StartTime sp + Duration sp) t) as [L|G].
  - unfold mbind. rewrite Uq. unfold modify. eexists. split; [reflexivity|]. cbn [set_params PoolAssets TotalShares TotalWeight Params Smooth].
    split; [exact Tq|]. split; [exact Shq|]. split; [apply Oq|]. split; [exact Wq | reflexivity].
  - pose proof (so_dur _ _ So) as Dr. pose proof (milliseconds_pos _ (proj1 Dr)) as Md.
    assert (Ts : time_Sub t (StartTime sp) = t - StartTime sp) by (unfold time_Sub; lia). rewrite Ts.
    assert (Eq : dec_QuoInt64 (Milliseconds (t - StartTime sp) * OneDec) (Milliseconds (Duration sp)) = Ok (Z.quot (Milliseconds (t - StartTime sp) * OneDec) (Milliseconds (Duration sp)))).
    { apply dec_QuoInt64_total. lia. }
    unfold mbind at 1. unfold lift at 1. rewrite Eq. pose proof (elapsed_nonneg sp t ltac:(lia) (proj1 Dr)) as En. unfold elapsed in *.
    set (pct := Z.quot _ _) in *. destruct (Z.leb_spec OneDec pct) as [Le|Lt].
    + rewrite Z.min_l by lia. exists q. split; [exact Uq|]. split; [exact Tq|]. split; [exact Shq|]. split; [apply Oq|]. rewrite Wq. apply at_target.
      now rewrite (so_target _ _ So), (so_initial _ _ So).
    + rewrite Z.min_r in * by lia. destruct (blend pct (InitialPoolWeights sp) (TargetPoolWeights sp) ltac:(lia)) as (df & sd & l & E1 & E2 & E3 & Em & Fl & Fs);
        [now rewrite (so_target _ _ So), (so_initial _ _ So) | apply So | apply So|].
      unfold mbind, lift. rewrite E1, E2, E3.
      destruct (update_weights_total l p) as (q' & Uq'); [now rewrite Em, (so_initial _ _ So) | exact Fl | apply So|].
      destruct (update_weights _ p tt q' O Uq') as (Oq' & Tq' & Shq' & _ & _ & _ & Wq'). exists q'. split; [exact Uq'|]. split; [exact Tq'|].
      split; [exact Shq'|]. split; [apply Oq'|]. rewrite Wq'. exact Fs.
Qed.

(** ** Creation *)

Lemma insertAsset_perm a l : Permutation (a :: l) (insertAsset a l).
Proof.
  induction l as [|e l IH]; cbn; [reflexivity|]. destruct (denom_ltb _ _); [|reflexivity]. rewrite perm_swap. now apply perm_skip.
Qed.

Lemma sort_assets_perm l : Permutation l (sortPoolAssetsByDenom l).
Proof. induction l as [|a l IH]; cbn; [reflexivity|]. rewrite <- insertAsset_perm. now apply perm_skip. Qed.

Definition asset_lt (a b : PoolAsset) : Prop := denom_lt (Token a) (Token b).

Lemma insertAsset_sorted a l : ~ In (asset_denom a) (map asset_denom l) -> StronglySorted asset_lt l -> StronglySorted asset_lt (insertAsset a l).
Proof.
  induction l as [|e l IH]; intros N Sd; cbn [insertAsset]; [repeat constructor|]. inversion Sd as [|? ? Sl F]; subst.
  destruct (denom_ltb (asset_denom e) (asset_denom a)) eqn:L.
  - constructor; [apply IH; [cbn in N; tauto | exact Sl]|]. rewrite List.Forall_forall in *. intros y I.
    apply (Permutation_in _ (Permutation_sym (insertAsset_perm a l))) in I as [<- | I]; [now apply bltb_spec | auto].
  - assert (Lt : asset_lt a e).
    { unfold asset_lt, denom_lt, blt. unfold denom_ltb, bltb, asset_denom in *. destruct (bcompare (string_bytes (Denom (Token e))) (string_bytes (Denom (Token a)))) eqn:Ce; try discriminate L.
      - apply bcompare_eq in Ce. apply string_bytes_inj in Ce. exfalso. apply N. left. exact Ce.
      - rewrite bcompare_antisym, Ce. reflexivity. }
    constructor; [exact Sd|]. constructor; [exact Lt|]. revert F. apply Forall_impl. intros y Hy. exact (blt_trans _ _ _ Lt Hy).
Qed.

Lemma sort_assets_sorted l : List.NoDup (map asset_denom l) -> StronglySorted asset_lt (sortPoolAssetsByDenom l).
Proof.
  induction l as [|a l IH]; cbn [map]; intros N; [constructor|]. inversion N; subst. cbn [sortPoolAssetsByDenom fold_right]. apply insertAsset_sorted; [|now apply IH].
  intros I. apply in_map_iff in I as (e & E & I). apply (Permutation_in _ (Permutation_sym (sort_assets_perm l))) in I. apply (in_map asset_denom) in I. rewrite E in I. contradiction.
Qed.

Lemma sorted_tokens l : StronglySorted asset_lt l -> StronglySorted denom_lt (map Token l).
Proof. intros Sd. induction Sd as [|a l Sd IH F]; cbn [map]; constructor; [exact IH|]. apply Forall_map. exact F. Qed.

Lemma amount_perm a b d : Permutation a b -> amount_of a d = amount_of b d.
Proof. intros P. induction P; rewrite ?amount_cons; lia. Qed.

Lemma zsum_perm a b : Permutation a b -> zsum a = zsum b.
Proof. intros P. induction P; unfold zsum in *; cbn [fold_right]; lia. Qed.

Lemma scaleAssets_spec l : forall ex tw l' tw', scaleAssets l ex tw = Ok (l', tw') ->
  map Token l' = map Token l /\ weights l' = map (fun w => w * GuaranteedWeightPrecision) (weights l) /\ tw' = tw + zsum (weights l') /\
  Forall (fun a => 0 < Amount (Token a) /\ 0 < Weight a) l' /\ List.NoDup (map asset_denom l') /\ (forall d, In d (map asset_denom l') -> ~ In d ex).
Proof.
  induction l as [|a l IH]; intros ex tw l' tw' H; cbn [scaleAssets] in H.
  { apply Ok_inj in H. injection H as <- <-. repeat split; try constructor; [cbn; lia | intros d []]. }
  destruct (Z.leb_spec (Amount (Token a)) 0); [discriminate H|]. unfold validateWeight in H. destruct (Z.leb_spec (Weight a) 0); [discriminate H|]. cbn [bind] in H.
  destruct (existsb _ _) eqn:Ex; [discriminate H|]. inv_bind H. apply int_Mul_exact in E as ->. inv_bind H. apply int_Add_exact in E as ->.
  inv_bind H. destruct v as [r tw0]. apply Ok_inj in H. injection H as <- <-. destruct (IH _ _ _ _ E) as (Tk & Wt & Tt & F & N & Nx).
  assert (Na : ~ In (asset_denom a) ex).
  { intros I. enough (X : existsb (String.eqb (asset_denom a)) ex = true) by congruence. apply existsb_exists. exists (asset_denom a). split; [exact I | apply String.eqb_refl]. }
  unfold weights in *. cbn [map Token Weight]. split; [now rewrite Tk|]. split; [now rewrite Wt|]. split; [unfold zsum in *; cbn [fold_right]; lia|].
  split; [constructor; [split; [assumption | cbn; unfold GuaranteedWeightPrecision; lia] | exact F]|]. unfold asset_denom at 1 3. cbn [Token]. fold (asset_denom a). split.
  - constructor; [|exact N]. intros I. apply (Nx _ I). now left.
  - intros d [<- | I]; [exact Na|]. intros X. apply (Nx _ I). now right.
Qed.

Lemma new_pool id params assets gov t p : NewBalancerPool id params assets gov t = Ok p -> Forall (fun a => ValidateDenom (asset_denom a) = true) assets ->
  pool_ok p /\ TotalShares p = {| Denom := GetPoolShareDenom id; Amount := InitPoolSharesSupply |} /\ Id p = id /\ PoolAddress p = NewPoolAddress id /\
  (forall d, liq p d = amount_of (map Token assets) d) /\ 0 <= SwapFee (Params p) < OneDec /\ 0 <= ExitFee (Params p) < OneDec /\
  PoolAssets p = sortPoolAssetsByDenom (map (fun a => {| Token := Token a; Weight := Weight a * GuaranteedWeightPrecision |}) assets).
Proof.
  intros H V. unfold NewBalancerPool in H. inv_bind H. unfold NewCoin in E. change (InitPoolSharesSupply <? 0) with false in E. apply Ok_inj in E as <-.
  destruct ((SetInitialPoolAssets assets ~;; _) _) as [r p0] eqn:Er. destruct r as [u| |]; try discriminate H. cbn [bind] in H. apply Ok_inj in H as ->.
  apply mbind_ok_inv in Er as (u0 & q & E & Er). unfold SetInitialPoolAssets in E. apply mbind_ok_inv in E as (p1 & s & E0 & E). injection E0 as <- <-.
  apply mbind_ok_inv in E as ([l tw] & s & E0 & E). apply lift_ok_inv in E0 as [E0 <-]. injection E as _ <-. cbn [PoolAssets TotalWeight app map] in *.
  destruct (scaleAssets_spec _ _ _ _ _ E0) as (Tk & Wt & Tt & F & N & _).
  apply mbind_ok_inv in Er as (q & s & E & Er). injection E as <- <-. apply mbind_ok_inv in Er as (u1 & s & E & Er). apply lift_ok_inv in E as [Va <-].
  set (l' := sortPoolAssetsByDenom l) in *. pose proof (sort_assets_perm l) as Pm. fold l' in Pm.
  assert (Al : l = map (fun a => {| Token := Token a; Weight := Weight a * GuaranteedWeightPrecision |}) assets).
  { clear - Tk Wt. revert assets Tk Wt. induction l as [|a l IH]; intros [|b assets] Tk Wt; try discriminate Tk; [reflexivity|]. unfold weights in *. cbn [map] in *.
    injection Tk as T0 T1. injection Wt as W0 W1. rewrite <- T0, <- W0. f_equal; [now destruct a | now apply IH]. }
  assert (Fees : 0 <= SwapFee params < OneDec /\ 0 <= ExitFee params < OneDec).
  { unfold Validate in Va. destruct (Z.ltb_spec (ExitFee params) 0); [discriminate Va|]. destruct (Z.leb_spec OneDec (ExitFee params)); [discriminate Va|].
    destruct (Z.ltb_spec (SwapFee params) 0); [discriminate Va|]. destruct (Z.leb_spec OneDec (SwapFee params)); [discriminate Va|]. lia. }
  assert (R : exists sm, p = set_params {| SwapFee := SwapFee params; ExitFee := ExitFee params; Smooth := sm |}
      (set_assets l' tw {| PoolAddress := NewPoolAddress id; Id := id; Params := no_params; FuturePoolGovernor := gov;
         TotalShares := {| Denom := GetPoolShareDenom id; Amount := InitPoolSharesSupply |}; PoolAssets := []; TotalWeight := 0 |})).
  { unfold setInitialPoolParams in Er. destruct (Smooth params) as [sp|] eqn:Sp.
    - apply mbind_ok_inv in Er as (tg & s & E & Er). apply lift_ok_inv in E as [_ <-]. injection Er as _ <-. eauto.
    - injection Er as _ <-. exists None. f_equal. destruct params. cbn in *. now rewrite Sp. }
  destruct R as (sm & ->). cbn [set_params set_assets]. split; [|repeat split; try apply Fees; try reflexivity].
  - split; cbn [set_params set_assets PoolAssets TotalWeight TotalShares Id Denom].
    + split; [apply sorted_tokens, sort_assets_sorted, N|]. unfold tokens. cbn [set_params set_assets PoolAssets]. apply Forall_map. rewrite List.Forall_forall in *. intros a I.
      apply (Permutation_in _ (Permutation_sym Pm)) in I. split; [apply F, I|]. apply (in_map Token) in I. rewrite Tk in I. apply in_map_iff in I as (b & Eb & I). rewrite <- Eb. exact (V b I).
    + rewrite List.Forall_forall in *. intros a I. apply (Permutation_in _ (Permutation_sym Pm)) in I. apply F, I.
    + rewrite Tt. apply zsum_perm, Permutation_map, Pm.
    + reflexivity.
  - intros d. unfold liq, tokens. cbn [set_params set_assets PoolAssets]. rewrite <- Tk. symmetry. apply amount_perm, Permutation_map, Pm.
  - cbn [set_params set_assets PoolAssets]. unfold l'. now rewrite Al.
Qed.

End Ok.
