(* ===== verification/GammStableswapOk.v ===== *)
(** * Stableswap pools keep their form

    [stable_ok]: the liquidity is a valid set of coins with one positive scaling
    factor each.  Every operation keeps it; the lemmas also say what it does to
    the liquidity and the shares. *)

From stdpp Require Import base list.
From Stdlib Require Import ZArith Lia List Bool String Sorted.
From S2P Require Import Prelude GoBig BigInt BigDec SdkMath SdkMore BinarySearch Store GoState SdkCoins SdkPool Cfmm GammTypes GammStableswap.
Import ListNotations.
Import Stableswap.
Open Scope Z_scope.

Section Ok.
Context {S : SdkMath} {SS : SdkMathSpec S} {D : SdkMore} {DS : SdkMoreSpec D} {DP : SdkPool} {DPS : SdkPoolSpec S D DP}
  {C : CoinsOps} {CS : CoinsSpec C} {CM : CoinsMore} {CMS : CoinsMoreSpec C CM} {T : GammText}.

Definition sliq (p : Pool) (d : string) : Z := amount_of (PoolLiquidity p) d.

Record stable_ok (p : Pool) : Prop := {
  st_coins : coins_ok (PoolLiquidity p);
  st_count : List.length (ScalingFactors p) = List.length (PoolLiquidity p);
  st_factors : Forall (fun f => 0 < f < 2 ^ 63) (ScalingFactors p);
  st_share : Denom (TotalShares p) = GetPoolShareDenom (Id p)
}.

(** Everything but liquidity and shares. *)
Definition same_stable (p p' : Pool) : Prop :=
  Id p' = Id p /\ PoolAddress p' = PoolAddress p /\ Params p' = Params p /\ ScalingFactors p' = ScalingFactors p.

Lemma same_stable_trans p q r : same_stable p q -> same_stable q r -> same_stable p r.
Proof. unfold same_stable. intuition congruence. Qed.

Lemma nil_ok : coins_ok [].
Proof. split; constructor. Qed.

Lemma update_for_swap ins outs p r p' : stable_ok p -> coins_ok ins -> coins_ok outs -> updatePoolLiquidityForSwap ins outs p = (Ok r, p') ->
  stable_ok p' /\ same_stable p p' /\ TotalShares p' = TotalShares p /\ forall d, sliq p' d = sliq p d + amount_of ins d - amount_of outs d.
Proof.
  intros [Oc Ct Fa Sh] Oi Oo H. unfold updatePoolLiquidityForSwap in H. apply mbind_ok_inv in H as (q & s & E & H). injection E as <- <-.
  apply mbind_ok_inv in H as (l1 & s & E & H). apply lift_ok_inv in E as [E <-]. apply Coins_Add_exact in E as [O1 A1]; [|assumption..].
  apply mbind_ok_inv in H as (l2 & s & E & H). apply lift_ok_inv in E as [E <-]. apply Coins_Sub_exact in E as [O2 A2]; [|assumption..].
  apply mbind_ok_inv in H as (u & s & E & H). injection E as _ <-.
  destruct (Nat.eqb_spec (List.length l2) (List.length (PoolLiquidity p))) as [Le|]; [|discriminate H]. cbn [negb] in H. injection H as _ <-.
  split; [split; cbn [set_liquidity PoolLiquidity ScalingFactors TotalShares Id]; [exact O2 | congruence | exact Fa | exact Sh]|].
  split; [repeat split|]. split; [reflexivity|]. intros d. unfold sliq. cbn [set_liquidity PoolLiquidity]. now rewrite A2, A1.
Qed.

Lemma set_total_spec f p r p' : stable_ok p -> set_total f p = (Ok r, p') ->
  stable_ok p' /\ same_stable p p' /\ f (Amount (TotalShares p)) = Ok (Amount (TotalShares p')) /\ forall d, sliq p' d = sliq p d.
Proof.
  intros [Oc Ct Fa Sh] H. unfold set_total in H. apply mbind_ok_inv in H as (q & s & E & H). injection E as <- <-.
  apply mbind_ok_inv in H as (a & s & E & H). apply lift_ok_inv in E as [E <-]. injection H as _ <-.
  split; [now split|]. split; [repeat split|]. split; [exact E | reflexivity].
Qed.

Lemma update_for_join cs n p r p' : stable_ok p -> coins_ok cs -> updatePoolForJoin cs n p = (Ok r, p') ->
  stable_ok p' /\ same_stable p p' /\ Amount (TotalShares p') = Amount (TotalShares p) + n /\ forall d, sliq p' d = sliq p d + amount_of cs d.
Proof.
  intros O Oc H. unfold updatePoolForJoin in H. apply mbind_ok_inv in H as (q & s & E & H). injection E as <- <-.
  apply mbind_ok_inv in H as (l & s & E & H). apply lift_ok_inv in E as [E <-]. apply Coins_Add_exact in E as [Ol Al]; [|apply O | exact Oc].
  apply mbind_ok_inv in H as (u & s & E & H). injection E as _ <-. apply mbind_ok_inv in H as (u' & s & E & H).
  destruct (Nat.eqb_spec (List.length l) (NumAssets p)) as [Le|]; [|discriminate E]. cbn [negb] in E. injection E as _ <-.
  assert (Oq : stable_ok (set_liquidity l p)).
  { destruct O as [_ Ct Fa Sh]. split; cbn [set_liquidity PoolLiquidity ScalingFactors TotalShares Id]; [exact Ol | unfold NumAssets in Le; congruence | exact Fa | exact Sh]. }
  destruct (set_total_spec _ _ _ _ Oq H) as (O' & S' & Sh & L). apply int_Add_exact in Sh.
  split; [exact O'|]. split; [apply (same_stable_trans p (set_liquidity l p)); [repeat split | exact S']|]. split; [exact Sh|].
  intros d. rewrite L. unfold sliq. cbn [set_liquidity PoolLiquidity]. apply Al.
Qed.

Lemma update_for_exit cs k p r p' : stable_ok p -> coins_ok cs -> updatePoolLiquidityForExit cs k p = (Ok r, p') ->
  stable_ok p' /\ same_stable p p' /\ Amount (TotalShares p') = Amount (TotalShares p) - k /\ forall d, sliq p' d = sliq p d - amount_of cs d.
Proof.
  intros O Oc H. unfold updatePoolLiquidityForExit in H. apply mbind_ok_inv in H as (u & q & E & H).
  destruct (update_for_swap [] cs p u q O nil_ok Oc E) as (Oq & Sq & Shq & Lq). destruct (set_total_spec _ _ _ _ Oq H) as (O' & S' & Sh & L).
  apply int_Sub_exact in Sh. split; [exact O'|]. split; [now apply (same_stable_trans p q)|]. split; [congruence|]. intros d. rewrite L, Lq. cbn. lia.
Qed.

(** The factors are [uint64]s that pass for positive as [int64]s. *)
Lemma factors_positive l : Forall (fun f => 0 <= f < 2 ^ 64) l -> factorsPositive l = Ok tt -> Forall (fun f => 0 < f < 2 ^ 63) l.
Proof.
  induction 1 as [|f l R _ IH]; cbn [factorsPositive]; intros H; [constructor|]. destruct (Z.leb_spec (int64 f) 0); [discriminate H|].
  constructor; [|now apply IH]. destruct (Z.lt_ge_cases f (2 ^ 63)) as [L|G].
  - rewrite int64_id in * by lia. lia.
  - destruct (int64_wraps f) as [_ N]; lia.
Qed.

Lemma factors_valid l n : Forall (fun f => 0 <= f < 2 ^ 64) l -> validateScalingFactors l n = Ok tt ->
  List.length l = n /\ Forall (fun f => 0 < f < 2 ^ 63) l.
Proof.
  intros R. unfold validateScalingFactors. destruct (Nat.eqb_spec (List.length l) n); [|discriminate]. cbn [negb]. intros H.
  split; [assumption | now apply factors_positive].
Qed.

Lemma multiplied l : forall l', applyScalingFactorMultiplier l = Ok l' -> Forall (fun f => 0 <= f < 2 ^ 64) l'.
Proof.
  induction l as [|f l IH]; intros l' H; cbn [applyScalingFactorMultiplier] in H; [apply Ok_inj in H as <-; constructor|].
  destruct (uint64 _ <? f); [discriminate H|]. inv_bind H. apply Ok_inj in H as <-. constructor; [|now apply IH].
  apply Z.mod_pos_bound. reflexivity.
Qed.

Lemma res_unit (r : Res unit) u : r = Ok u -> r = Ok tt.
Proof. now destruct u. Qed.

Lemma set_factors_ok sf sender p r p' : stable_ok p -> SetScalingFactors sf sender p = (Ok r, p') ->
  stable_ok p' /\ sender = ScalingFactorController p /\ Id p' = Id p /\ PoolAddress p' = PoolAddress p /\ Params p' = Params p /\
  TotalShares p' = TotalShares p /\ PoolLiquidity p' = PoolLiquidity p.
Proof.
  intros [Oc Ct Fa Sh] H. unfold SetScalingFactors in H. apply mbind_ok_inv in H as (q & s & E & H). injection E as <- <-.
  destruct (String.eqb_spec sender (ScalingFactorController p)) as [Ec|]; [|discriminate H]. cbn [negb] in H.
  apply mbind_ok_inv in H as (l & s & El & H). apply lift_ok_inv in El as [El <-]. apply multiplied in El.
  apply mbind_ok_inv in H as (u & s & E & H). apply lift_ok_inv in E as [E <-]. apply mbind_ok_inv in H as (u' & s & E' & H). apply lift_ok_inv in E' as [_ <-]. injection H as _ <-. apply res_unit, factors_valid in E as [Le Fl]; [|exact El].
  split; [now split|]. repeat split; assumption.
Qed.

Lemma new_stable id params l sf ctl gov p : NewStableswapPool id params l sf ctl gov = Ok p -> coins_ok l ->
  stable_ok p /\ TotalShares p = {| Denom := GetPoolShareDenom id; Amount := InitPoolSharesSupply |} /\ Id p = id /\ PoolAddress p = NewPoolAddress id /\
  PoolLiquidity p = l /\ Params p = params.
Proof.
  intros H O. unfold NewStableswapPool in H. inv_bind H. inv_bind H. inv_bind H. inv_bind H. inv_bind H. apply Ok_inj in H as <-.
  unfold NewCoin in E3. change (InitPoolSharesSupply <? 0) with false in E3. apply Ok_inj in E3 as <-. apply multiplied in E. apply res_unit, factors_valid in E0 as [Le F]; [|exact E].
  split; [now split|]. repeat split.
Qed.

End Ok.
