(* ===== verification/GammStableswapSwap.v ===== *)
(** * Swaps of stableswap pools

    A swap moves the amounts of two assets.  [reserve] is the scaled reserve the
    curve is evaluated on, [amount * 10^36 / factor]; the theorem at the end says
    that no swap, in either direction, moves the pool below its curve by more
    than the rounding of the arithmetic.

    The first part is about the solver: up to the rounding of its [BigDec]
    arithmetic, which is bounded explicitly, what it returns does not decrease
    [x y (x^2 + y^2 + w)]. *)

From stdpp Require Import base list.
From Stdlib Require Import ZArith Lia List Bool String Sorted.
From S2P Require Import Prelude GoBig BigInt BigDec SdkMath SdkMore BinarySearch Store GoState SdkCoins SdkPool Cfmm GammTypes GammStableswap.
From S2P Require Import GammStableswapOk.
Import ListNotations.
Import Stableswap.
Open Scope Z_scope.

(** ** The curve *)

Abbreviation P := defaultBigDecPrecisionReuse.

(** [x (x^2 + y^2 + w)] and [x y (x^2 + y^2 + w)] on the integers behind the
    decimals; [w] is already divided by the precision once. *)
Definition G (w y x : Z) : Z := x * (x * x + y * y + w * P).
Definition curve (w x y : Z) : Z := y * G w y x.

(** ** Rounding errors *)

Definition half_unit (e : Z) : Prop := 2 * Z.abs e <= P.

Lemma mul_err a b r : Mul a b = Ok r -> exists e, r * P = a * b + e /\ half_unit e.
Proof. intros H. apply Mul_iff in H as [_ [N _]]. exists (r * P - a * b). unfold half_unit. split; [ring|]. lia. Qed.

Lemma quo_err a b r : 0 < b -> Quo a b = Ok r -> exists e, r * b = a * P + e /\ Z.abs e <= b.
Proof.
  intros Hb H. apply Quo_error_bound in H as (_ & _ & H & _). exists (r * b - a * P). split; [ring|]. change (10 ^ 36) with P in H.
  assert (HP : 2 < P) by reflexivity. rewrite (Z.abs_eq b) in H by lia. nia.
Qed.

Lemma add_val a b r : Add a b = Ok r -> r = a + b.
Proof. intros H. now apply Add_iff in H. Qed.
Lemma sub_val a b r : Sub a b = Ok r -> r = a - b.
Proof. intros H. now apply Sub_iff in H. Qed.

(** Open the next multiplication or exact step of a computation. *)
Tactic Notation "next_mul" hyp(H) "as" ident(v) ident(Q) ident(e) ident(B) :=
  let E := fresh "E" in apply bind_ok_inv in H as (v & E & H); apply mul_err in E as (e & Q & B).
Tactic Notation "next_val" hyp(H) "as" ident(v) :=
  let E := fresh "E" in apply bind_ok_inv in H as (v & E & H);
  lazymatch type of E with Sub _ _ = _ => apply sub_val in E | _ => apply add_val in E end.

(** The error analysis, over any precision [p]. *)
Section Errors.
Context (p : Z) (Hp : 0 < p).

Lemma abs_prod k e b : 0 <= k -> Z.abs e <= b -> Z.abs (k * e) <= k * b.
Proof. intros Hk He. rewrite Z.abs_mul, (Z.abs_eq k) by lia. now apply Z.mul_le_mono_nonneg_l. Qed.
Lemma abs_prod2 k e b : 0 <= k -> 2 * Z.abs e <= b -> 2 * Z.abs (k * e) <= k * b.
Proof. intros Hk He. rewrite Z.abs_mul, (Z.abs_eq k) by lia. apply (Z.mul_le_mono_nonneg_l _ _ k) in He; lia. Qed.

Lemma iter_errors o e1 e2 e3 e4 : 2 * Z.abs e1 <= p -> 2 * Z.abs e2 <= p -> 2 * Z.abs e3 <= p -> 2 * Z.abs e4 <= p ->
  2 * Z.abs (o * (e3 - e1 - e2) + p * e4) <= 3 * Z.abs o * p + p ^ 2.
Proof.
  intros B1 B2 B3 B4. assert (B : 2 * Z.abs (e3 - e1 - e2) <= 3 * p) by lia. apply (Z.mul_le_mono_nonneg_l _ _ (Z.abs o)) in B; [|lia].
  pose proof (abs_prod2 p e4 p ltac:(lia) B4) as T. pose proof (Z.abs_mul o (e3 - e1 - e2)) as A. rewrite Z.pow_2_r.
  set (s := o * (e3 - e1 - e2)) in *. set (t := p * e4) in *. set (k := Z.abs (e3 - e1 - e2)) in *. clearbody s t k. nia.
Qed.

Lemma target_errors x y yf e1 e2 e3 e4 f e6 e7 e8 : 0 < x -> 0 < y -> 0 < yf ->
  2 * Z.abs e1 <= p -> 2 * Z.abs e2 <= p -> 2 * Z.abs e3 <= p -> 2 * Z.abs e4 <= p -> Z.abs f <= yf ->
  2 * Z.abs e6 <= p -> 2 * Z.abs e7 <= p -> 2 * Z.abs e8 <= p ->
  2 * Z.abs (x * y * (e1 + e2) + p * y * e3 + p ^ 2 * e4 + p ^ 2 * f - yf * x * (e6 + e7) - yf * p * e8)
  <= 2 * p * x * (y + yf) + p ^ 2 * (y + 3 * yf) + p ^ 3.
Proof.
  intros Px Py Hy B1 B2 B3 B4 B5 B6 B7 B8. assert (A1 : Z.abs (e1 + e2) <= p) by lia. assert (A2 : Z.abs (e6 + e7) <= p) by lia.
  assert (N : 0 <= x * y /\ 0 <= p * y /\ 0 <= p ^ 2 /\ 0 <= yf * x /\ 0 <= yf * p) by (clear - Hp Px Py Hy; nia).
  destruct N as (N1 & N2 & N3 & N4 & N5).
  pose proof (abs_prod (x * y) (e1 + e2) p N1 A1) as T1. pose proof (abs_prod2 (p * y) e3 p N2 B3) as T2.
  pose proof (abs_prod2 (p ^ 2) e4 p N3 B4) as T3. pose proof (abs_prod (p ^ 2) f yf N3 B5) as T4.
  pose proof (abs_prod (yf * x) (e6 + e7) p N4 A2) as T5. pose proof (abs_prod2 (yf * p) e8 p N5 B8) as T6.
  clear - T1 T2 T3 T4 T5 T6.
  set (t1 := x * y * (e1 + e2)) in *. set (t2 := p * y * e3) in *. set (t3 := p ^ 2 * e4) in *. set (t4 := p ^ 2 * f) in *.
  set (t5 := yf * x * (e6 + e7)) in *. set (t6 := yf * p * e8) in *.
  assert (Tr : 2 * Z.abs (t1 + t2 + t3 + t4 - t5 - t6) <= 2 * Z.abs t1 + 2 * Z.abs t2 + 2 * Z.abs t3 + 2 * Z.abs t4 + 2 * Z.abs t5 + 2 * Z.abs t6)
    by (clearbody t1 t2 t3 t4 t5 t6; clear; lia).
  clearbody t1 t2 t3 t4 t5 t6. replace (2 * p * x * (y + yf) + p ^ 2 * (y + 3 * yf) + p ^ 3)
    with (2 * (x * y * p) + p * y * p + p ^ 2 * p + 2 * (p ^ 2 * yf) + 2 * (yf * x * p) + yf * p * p) by ring.
  set (a1 := Z.abs t1) in *. set (a2 := Z.abs t2) in *. set (a3 := Z.abs t3) in *. set (a4 := Z.abs t4) in *. set (a5 := Z.abs t5) in *. set (a6 := Z.abs t6) in *.
  clearbody a1 a2 a3 a4 a5 a6. lia.
Qed.

(** The search's answer [v] at least meets its target [t]. *)
Lemma solver_errors t v x xe y yf gx ge k : 0 < yf -> Z.abs (x - xe) < x -> t <= v ->
  2 * Z.abs (t * p ^ 2 * yf - (k - yf * gx)) <= 2 * p * x * (y + yf) + p ^ 2 * (y + 3 * yf) + p ^ 3 ->
  2 * Z.abs (v * p ^ 2 - (ge - gx)) <= 3 * Z.abs (x - xe) * p + p ^ 2 ->
  2 * k <= 2 * (yf * ge) + (p * x * (2 * y + 5 * yf) + p ^ 2 * (y + 4 * yf) + p ^ 3).
Proof.
  intros Hy Lx Htv T I. assert (U1 : t * p ^ 2 * yf <= v * p ^ 2 * yf) by (apply Z.mul_le_mono_nonneg_r; [lia|]; apply Z.mul_le_mono_nonneg_r; nia).
  assert (X : 2 * (v * p ^ 2) <= 2 * (ge - gx) + (3 * x * p + p ^ 2)).
  { assert (3 * Z.abs (x - xe) * p <= 3 * x * p) by (apply Z.mul_le_mono_nonneg_r; lia). clear - I H. lia. }
  apply (Z.mul_le_mono_nonneg_l _ _ yf) in X; [|lia].
  replace (p * x * (2 * y + 5 * yf) + p ^ 2 * (y + 4 * yf) + p ^ 3)
    with (2 * p * x * (y + yf) + p ^ 2 * (y + 3 * yf) + p ^ 3 + yf * (3 * x * p + p ^ 2)) by ring.
  set (c := 2 * p * x * (y + yf) + p ^ 2 * (y + 3 * yf) + p ^ 3) in *. clearbody c. set (d := 3 * x * p + p ^ 2) in *. clearbody d.
  set (a := t * p ^ 2 * yf) in *. replace (v * p ^ 2 * yf) with (yf * (v * p ^ 2)) in U1 by ring. set (b := v * p ^ 2) in *. clearbody a b. nia.
Qed.

End Errors.

(** The closure of [iterKCalculator] computes [G xf - G x0]. *)
Lemma iterK_close x0 w yf q l xf r : iterKCoefficients x0 w yf = Ok (q, l) -> iterK x0 q l xf = Ok r ->
  2 * Z.abs (r * P ^ 2 - (G w yf xf - G w yf x0)) <= 3 * Z.abs (x0 - xf) * P + P ^ 2.
Proof.
  intros H K. unfold iterKCoefficients in H. inv_bind H. apply checked_iff in E as [_ ->].
  next_mul H as l1 Q1 e1 B1. next_val H as l2. next_mul H as yf2 Q2 e2 B2. next_val H as l3. apply Ok_inj in H. injection H as <- <-. subst l2 l3.
  unfold iterK in K. next_val K as o. next_val K as r1. next_mul K as r2 Q3 e3 B3. next_val K as r3. apply mul_err in K as (e4 & Q4 & B4).
  unfold Neg, NegMut in *. subst r1 r3. unfold half_unit in *. unfold G. pose proof (iter_errors P prec_pos o e1 e2 e3 e4 B1 B2 B3 B4) as Er.
  generalize dependent P. intros p Q1 B1 Q2 B2 Q3 B3 Q4 B4 Er. rewrite <- E.
  assert (Ex : r * p ^ 2 - (xf * (xf * xf + yf * yf + w * p) - x0 * (x0 * x0 + yf * yf + w * p)) = o * (e3 - e1 - e2) + p * e4).
  { replace xf with (x0 - o) by lia. clear - Q1 Q2 Q3 Q4. replace (r * p ^ 2) with (p * (r * p)) by ring. rewrite Q4.
    replace (p * ((r2 + - (l1 + w + yf2)) * o + e4)) with (o * (r2 * p - l1 * p - w * p - yf2 * p) + p * e4) by ring. rewrite Q1, Q2, Q3. ring. }
  rewrite Ex. exact Er.
Qed.

(** [targetKCalculator] computes [k / yf - G x0]. *)
Lemma targetK_close x0 y0 w yf t : 0 < yf -> targetKCalculator x0 y0 w yf = Ok t ->
  0 < x0 /\ 0 < y0 /\ 0 <= w /\
  2 * Z.abs (t * P ^ 2 * yf - (curve w x0 y0 - yf * G w yf x0)) <= 2 * P * x0 * (y0 + yf) + P ^ 2 * (y0 + 3 * yf) + P ^ 3.
Proof.
  intros Hy H. unfold targetKCalculator, cfmmConstantMultiNoV, cfmmConstantMultiNoVY in H. apply bind_ok_inv in H as (sk & K & H). inv_bind K.
  destruct (negb (IsPositive x0) || negb (IsPositive y0) || IsNegative w) eqn:G0; [discriminate E|].
  apply orb_false_iff in G0 as [G0 G3]. apply orb_false_iff in G0 as [G1 G2]. apply negb_false_iff in G1, G2. unfold IsPositive, IsNegative in *. b2p.
  assert (Px : 0 < x0) by lia. assert (Py : 0 < y0) by lia. assert (Pw : 0 <= w) by lia.
  next_mul E as x2 Q1 e1 B1. next_mul E as y2 Q2 e2 B2. next_val E as s1. next_val E as s2. apply mul_err in E as (e3 & Q3 & B3). subst s1 s2.
  apply mul_err in K as (e4 & Q4 & B4). apply bind_ok_inv in H as (yr & E & H). apply quo_err in E as (f & Q5 & B5); [|exact Hy].
  next_mul H as yf2 Q6 e6 B6. next_val H as i1. next_mul H as x02 Q7 e7 B7. next_val H as i2. next_mul H as ct Q8 e8 B8. apply sub_val in H. subst i1 i2 t.
  split; [exact Px|]. split; [exact Py|]. split; [exact Pw|]. unfold half_unit in *. unfold curve, G.
  pose proof (target_errors P prec_pos x0 y0 yf e1 e2 e3 e4 f e6 e7 e8 Px Py Hy B1 B2 B3 B4 B5 B6 B7 B8) as Er. clear B1 B2 B3 B4 B5 B6 B7 B8.
  generalize dependent P. intros p Q1 Q2 Q3 Q4 Q5 Q6 Q7 Q8 Er.
  set (err := x0 * y0 * (e1 + e2) + p * y0 * e3 + p ^ 2 * e4 + p ^ 2 * f - yf * x0 * (e6 + e7) - yf * p * e8) in Er.
  assert (Ex : (yr - ct) * p ^ 2 * yf - (y0 * (x0 * (x0 * x0 + y0 * y0 + w * p)) - yf * (x0 * (x0 * x0 + yf * yf + w * p))) = err).
  { unfold err. clear - Q1 Q2 Q3 Q4 Q5 Q6 Q7 Q8.
    replace ((yr - ct) * p ^ 2 * yf) with (p ^ 2 * (yr * yf) - yf * p * (ct * p)) by ring. rewrite Q5, Q8.
    replace (p ^ 2 * (sk * p + f)) with (p ^ 2 * (sk * p) + p ^ 2 * f) by ring. rewrite Q4.
    replace (p ^ 2 * (v * y0 + e4)) with (p * y0 * (v * p) + p ^ 2 * e4) by ring. rewrite Q3.
    replace (p * y0 * (x0 * (x2 + y2 + w) + e3)) with (x0 * y0 * (x2 * p + y2 * p + w * p) + p * y0 * e3) by ring. rewrite Q1, Q2.
    replace (yf * p * ((yf2 + w + x02) * x0 + e8)) with (yf * x0 * (yf2 * p + w * p + x02 * p) + yf * p * e8) by ring. rewrite Q6, Q7. ring. }
  rewrite Ex. exact Er.
Qed.

(** ** The solver *)

Lemma search_accepts mid f e target n : forall lo hi y, searchLoop mid f (CompareBigDec e target) n lo hi = Ok y -> exists v, f y = Ok v /\ accepted e target v.
Proof.
  induction n as [|n IH]; intros lo hi y H; cbn [searchLoop] in H; [discriminate H|]. inv_bind H. inv_bind H. inv_bind H.
  destruct (Z.ltb_spec v1 0); [exact (IH _ _ _ H)|]. destruct (Z.gtb_spec v1 0); [exact (IH _ _ _ H)|]. apply Ok_inj in H as <-.
  exists v0. split; [exact E0|]. apply (proj1 (CompareBigDec_sound _ _ _ _ E1)). lia.
Qed.

Lemma big_search_meets f lo hi target e n y : RoundingDir e = RoundUp -> BinarySearchBigDec f lo hi target e n = Ok y ->
  exists v, f y = Ok v /\ target <= v.
Proof.
  intros D. unfold BinarySearchBigDec. generalize (Z.to_nat n). intros k H.
  apply search_accepts in H as (v & Ev & (_ & Up & _)). exists v. split; [exact Ev | exact (Up D)].
Qed.

(** The rounding of a swap that moves the reserves from [(x, y)] to [(x', y')]. *)
Definition slack (x y y' : Z) : Z := P * x * (2 * y + 5 * y') + P ^ 2 * (y + 4 * y') + P ^ 3.

Lemma solve_curve x y w yIn xOut : solveCFMMBinarySearchMulti x y w yIn = Ok xOut ->
  0 < x /\ 0 < y /\ 0 <= w /\ Z.abs xOut < x /\ Z.abs yIn < y /\
  2 * curve w x y <= 2 * curve w (x - xOut) (y + yIn) + slack x y (y + yIn).
Proof.
  unfold solveCFMMBinarySearchMulti. destruct (negb (IsPositive x) || negb (IsPositive y) || IsNegative w); [discriminate|].
  unfold GTE, Abs. destruct (Z.geb_spec (Z.abs yIn) y) as [|Ly]; [discriminate|]. intros H. next_val H as yf. subst yf.
  assert (Pf : 0 < y + yIn) by lia. apply bind_ok_inv in H as ([lo hi] & _ & H). apply bind_ok_inv in H as (t & Et & H).
  apply bind_ok_inv in H as ([q l] & Ec & H). destruct (BinarySearchBigDec _ _ _ _ _ _) as [xe| |] eqn:Es; [|discriminate H..].
  apply big_search_meets in Es as (v & Ev & Up); [|reflexivity]. next_val H as o.
  destruct (Z.geb_spec (Z.abs o) x) as [|Lo]; [discriminate H|]. apply Ok_inj in H as <-. subst o.
  pose proof (targetK_close x y w _ t Pf Et) as (Px & Py & Pw & T). pose proof (iterK_close x w _ q l xe v Ec Ev) as I.
  split; [exact Px|]. split; [exact Py|]. split; [exact Pw|]. split; [exact Lo|]. split; [exact Ly|].
  replace (x - (x - xe)) with xe by lia. 
  pose proof (solver_errors P prec_pos t v x xe y (y + yIn) (G w (y + yIn) x) (G w (y + yIn) xe) (curve w x y) Pf Lo Up T I) as R.
  unfold slack. unfold curve at 2. exact R.
Qed.

(** ** Arithmetic *)

Section Arithmetic.
Context (p : Z) (Hp : 0 < p).

Lemma mul3_mono x y s x' y' s' : 0 <= x <= x' -> 0 <= y <= y' -> 0 <= s <= s' -> y * (x * s) <= y' * (x' * s').
Proof.
  intros Hx Hy Hs. apply Z.mul_le_mono_nonneg; [lia | lia | apply Z.mul_nonneg_nonneg; lia|]. apply Z.mul_le_mono_nonneg; lia.
Qed.

Lemma scaled_add a t f : 0 < f -> 0 <= a -> 0 <= t -> a * p / f + t * p / f <= (a + t) * p / f.
Proof. intros Hf Ha Ht. apply Z.div_le_lower_bound; [lia|]. pose proof (Z.mul_div_le (a * p) f Hf). pose proof (Z.mul_div_le (t * p) f Hf). lia. Qed.

Lemma scaled_sub a o f k : 0 < f -> o * p <= k * f -> a * p / f - k <= (a - o) * p / f.
Proof. intros Hf Ho. apply Z.div_le_lower_bound; [lia|]. pose proof (Z.mul_div_le (a * p) f Hf). lia. Qed.

Lemma paid_below a o f k : 0 < f -> o * p <= k * f -> k < a * p / f -> o < a.
Proof. intros Hf Ho Hk. pose proof (Z.mul_div_le (a * p) f Hf). assert (k * f < (a * p / f) * f) by (apply Z.mul_lt_mono_pos_r; lia). nia. Qed.

Lemma scaled_in a t f k e : 0 < f -> 0 <= e -> k * f <= t * p + e -> a * p / f + k <= (a + t) * p / f + e.
Proof.
  intros Hf He Ht. cut (a * p / f + k - e <= (a + t) * p / f); [lia|]. apply Z.div_le_lower_bound; [lia|].
  pose proof (Z.mul_div_le (a * p) f Hf). nia.
Qed.

Lemma nearest_below t om r : 0 <= t -> 0 <= om <= p -> 2 * Z.abs (r * p - t * om) <= p -> r <= t.
Proof. intros Ht Ho H. destruct (Z.le_gt_cases r t) as [|G]; [assumption|]. exfalso. assert ((t + 1) * p <= r * p) by (apply Z.mul_le_mono_nonneg_r; lia). nia. Qed.

Lemma cdiv_above t om : 0 <= t -> 0 < om <= p -> t <= cdiv (t * p) om.
Proof. intros Ht Ho. pose proof (cdiv_spec (t * p) om ltac:(lia)). nia. Qed.

End Arithmetic.

Lemma curve_mono w x y x' y' : 0 <= w -> 0 <= x <= x' -> 0 <= y <= y' -> curve w x y <= curve w x' y'.
Proof.
  intros Hw Hx Hy. unfold curve, G. assert (Nw : 0 <= w * P) by (apply Z.mul_nonneg_nonneg; [exact Hw | now apply Z.lt_le_incl, prec_pos]).
  set (c := w * P) in *. clearbody c. apply mul3_mono; [lia | lia|]. pose proof (Z.mul_le_mono_nonneg x x' x x' ltac:(lia) ltac:(lia) ltac:(lia) ltac:(lia)).
  pose proof (Z.mul_le_mono_nonneg y y' y y' ltac:(lia) ltac:(lia) ltac:(lia) ltac:(lia)). pose proof (Z.square_nonneg x). pose proof (Z.square_nonneg y). lia.
Qed.

Lemma curve_sym w x y : curve w x y = curve w y x.
Proof. unfold curve, G. generalize P. intros p. ring. Qed.

Lemma slack_mono x y y1 y2 : 0 <= x -> y1 <= y2 -> slack x y y1 <= slack x y y2.
Proof.
  intros Hx Hy. unfold slack. assert (Np : 0 <= P) by now apply Z.lt_le_incl, prec_pos. generalize dependent P. intros p Np.
  pose proof (Z.mul_le_mono_nonneg_l y1 y2 (p * x) ltac:(nia) Hy). pose proof (Z.mul_le_mono_nonneg_l y1 y2 (p ^ 2) ltac:(nia) Hy). lia.
Qed.

(** ** Reordered reserves *)

(** The other assets of the pool. *)
Definition neither (first second : string) (cf : Coin * Z) : bool :=
  negb (String.eqb (Denom (fst cf)) first) && negb (String.eqb (Denom (fst cf)) second).

Definition slot (d : string) (l : list (Coin * Z)) (cf r : Coin * Z) : Prop := r = cf \/ (In r l /\ Denom (fst r) = d).

Lemma slot_cons d e l cf r : slot d l cf r -> slot d (e :: l) cf r.
Proof. unfold slot. cbn [In]. tauto. Qed.
Lemma slot_head d e l cf r : slot d l e r -> Denom (fst e) = d -> slot d (e :: l) cf r.
Proof. unfold slot. cbn [In]. intros [-> | []]; intuition. Qed.

Lemma reorderLoop_spec cs : forall fs first second n r0 r1 others l, reorderLoop cs fs first second n r0 r1 others = Ok l ->
  exists s0 s1, l = s0 :: s1 :: others ++ List.filter (neither first second) (combine cs fs) /\
    slot first (combine cs fs) r0 s0 /\ slot second (combine cs fs) r1 s1 /\ (first = second -> s1 = r1).
Proof.
  induction cs as [|c cs IH]; intros [|f fs] first second n r0 r1 others l H; cbn [reorderLoop] in H; try discriminate H.
  1-2: apply Ok_inj in H as <-; exists r0, r1; rewrite app_nil_r; repeat split; now left.
  cbn [combine List.filter]. assert (N : neither first second (c, f) = negb (String.eqb (Denom c) first) && negb (String.eqb (Denom c) second)) by reflexivity.
  destruct (String.eqb_spec (Denom c) first) as [E1|E1]; [|destruct (String.eqb_spec (Denom c) second) as [E2|E2]].
  - apply IH in H as (s0 & s1 & -> & S0 & S1 & D). exists s0, s1. rewrite N. cbn [negb andb].
    repeat split; [now apply slot_head | now apply slot_cons | exact D].
  - apply IH in H as (s0 & s1 & -> & S0 & S1 & D). exists s0, s1. rewrite N. cbn [negb andb].
    repeat split; [now apply slot_cons | now apply slot_head | congruence].
  - destruct (Nat.eqb _ _); [discriminate H|]. apply IH in H as (s0 & s1 & -> & S0 & S1 & D). exists s0, s1. rewrite N. cbn [negb andb].
    rewrite <- app_assoc. repeat split; [now apply slot_cons | now apply slot_cons | exact D].
Qed.

Lemma factor_of_in {C : CoinsOps} cs : forall fs c f, coins_ok cs -> In (c, f) (combine cs fs) -> factorOf cs fs (Denom c) = Ok f.
Proof.
  induction cs as [|e cs IH]; intros [|g fs] c f O I; cbn [combine In] in I; try contradiction; destruct I as [E | I].
  - injection E as <- <-. cbn [factorOf]. now rewrite String.eqb_refl.
  - cbn [factorOf tl]. destruct (String.eqb_spec (Denom c) (Denom e)) as [E|]; [|apply IH; [now apply coins_ok_tail in O | exact I]]. exfalso.
    destruct O as [Sd _]. inversion Sd as [|? ? _ F]; subst. apply later_absent in F. apply F. rewrite <- E. apply in_map. now apply in_combine_l in I.
Qed.

Section Swap.
Context {S : SdkMath} {SS : SdkMathSpec S} {D : SdkMore} {DS : SdkMoreSpec D} {DP : SdkPool} {DPS : SdkPoolSpec S D DP}
  {C : CoinsOps} {CS : CoinsSpec C} {CM : CoinsMore} {CMS : CoinsMoreSpec C CM} {T : GammText}.

(** The scaled reserve of [amount] at a factor, rounded down. *)
Definition scaled (amount f : Z) : Z := amount * P / f.

(** The reserves of the assets a swap does not touch. *)
Definition other_reserves (p : Pool) (din dout : string) : list Z :=
  map (fun cf => scaled (Amount (fst cf)) (snd cf)) (List.filter (neither din dout) (combine (PoolLiquidity p) (ScalingFactors p))).

Lemma div_amounts_spec l : forall rs, Forall (fun cf => 0 <= Amount (fst cf) /\ 0 < snd cf < 2 ^ 63) l ->
  DivCoinAmtsByU64ToBigDec (map (fun cf : Coin * Z => Amount (fst cf)) l) (map snd l) RoundDown = Ok rs ->
  rs = map (fun cf => scaled (Amount (fst cf)) (snd cf)) l.
Proof.
  induction l as [|[c f] l IH]; intros rs F H; cbn [map DivCoinAmtsByU64ToBigDec] in H; [now apply Ok_inj in H as <-|].
  inversion F as [|? ? [Ha Hf] F']; subst. inv_bind H. inv_bind H. apply Ok_inj in H as <-. cbn [map]. f_equal; [|now apply IH].
  now apply DivIntByU64_down in E.
Qed.

Lemma pool_factors p cf : stable_ok p -> In cf (combine (PoolLiquidity p) (ScalingFactors p)) ->
  0 < Amount (fst cf) /\ 0 < snd cf < 2 ^ 63 /\ GetScalingFactorByDenom p (Denom (fst cf)) = Ok (snd cf) /\ sliq p (Denom (fst cf)) = Amount (fst cf).
Proof.
  destruct cf as [c f]. intros O I. pose proof (in_combine_l _ _ _ _ I) as Ic. pose proof (in_combine_r _ _ _ _ I) as If. cbn [fst snd].
  split; [now apply (in_amount_pos (PoolLiquidity p)); [apply O|]|].
  split; [pose proof (st_factors p O) as Fa; rewrite List.Forall_forall in Fa; now apply Fa|].
  split; [apply factor_of_in; [apply O | exact I]|]. apply amount_in; [apply O | exact Ic].
Qed.

(** The reserves a swap between two assets works on. *)
Lemma sorted_reserves p din dout l : stable_ok p -> scaledSortedPoolReserves p din dout RoundDown = Ok l ->
  exists fi fo, GetScalingFactorByDenom p din = Ok fi /\ GetScalingFactorByDenom p dout = Ok fo /\ 0 < fi < 2 ^ 63 /\ 0 < fo < 2 ^ 63 /\
    0 < sliq p din /\ 0 < sliq p dout /\ din <> dout /\
    l = scaled (sliq p din) fi :: scaled (sliq p dout) fo :: other_reserves p din dout.
Proof.
  intros O H. unfold scaledSortedPoolReserves, reorderReservesAndScalingFactors in H. inv_bind H. destruct (_ <? 2)%nat; [discriminate E|].
  apply reorderLoop_spec in E as (s0 & s1 & -> & S0 & S1 & Df). cbn [app] in H. inv_bind H.
  unfold validateScalingFactors in E. destruct (negb _) in E; [discriminate E|]. cbn [map factorsPositive] in E.
  assert (N0 : s0 <> no_coin) by (intros ->; discriminate E). destruct (int64 (snd s0) <=? 0); [discriminate E|].
  assert (N1 : s1 <> no_coin) by (intros ->; discriminate E).
  destruct S0 as [X|[I0 D0]]; [contradiction|]. destruct S1 as [X|[I1 D1]]; [contradiction|].
  destruct (pool_factors p s0 O I0) as (A0 & F0 & G0 & L0). destruct (pool_factors p s1 O I1) as (A1 & F1 & G1 & L1). rewrite D0 in *. rewrite D1 in *.
  exists (snd s0), (snd s1). split; [exact G0|]. split; [exact G1|]. split; [exact F0|]. split; [exact F1|]. split; [lia|]. split; [lia|].
  split; [intros X; exact (N1 (Df X))|]. apply div_amounts_spec in H; [|].
  - rewrite H. cbn [map]. rewrite L0, L1. reflexivity.
  - constructor; [split; [lia | exact F0]|]. constructor; [split; [lia | exact F1]|]. apply List.Forall_forall. intros cf I. apply filter_In in I as [I _].
    destruct (pool_factors p cf O I) as (A & F & _). split; [lia | exact F].
Qed.

(** ** What a swap computes *)

Lemma fee_factor fee om : 0 <= fee <= OneDec -> oneMinus fee = Ok om -> 0 <= om <= P /\ (fee < OneDec -> 0 < om).
Proof.
  intros Hf H. unfold oneMinus in H. inv_bind H. apply dec_Sub_exact in E as ->. rewrite BigDecFromDecMut_ok in H. apply Ok_inj in H as <-.
  change P with (OneDec * precisionReuseSDKDec). assert (Pp : 0 < precisionReuseSDKDec) by reflexivity. generalize dependent precisionReuseSDKDec. intros q Hq. nia.
Qed.

Lemma prec_split : P = precisionReuseSDKDec * OneDec /\ 0 < precisionReuseSDKDec.
Proof. split; reflexivity. Qed.

(** The descaled amount, truncated to 18 decimals. *)
Lemma descaled p d amount f r : GetScalingFactorByDenom p d = Ok f -> 0 < f < 2 ^ 63 -> getDescaledPoolAmt p d amount = Ok r ->
  r = Z.quot (amount * f) precisionReuseSDKDec.
Proof.
  intros G Hf H. unfold getDescaledPoolAmt in H. rewrite G in H. cbn [bind] in H. inv_bind H. apply checked_iff in E as [_ ->]. apply Ok_inj in H as <-.
  now rewrite int64_id by lia.
Qed.

(** An amount out: positive, and worth no more than the solver's answer. *)
Lemma trunc_out q one k f o : 0 < q -> 0 < one -> 0 < f -> o = Z.quot (Z.quot (k * f) q) one -> 0 < o -> 0 < k /\ o * (q * one) <= k * f.
Proof.
  intros Hq Ho Hf -> Pos. assert (Pk : 0 < k).
  { destruct (Z.lt_ge_cases 0 k) as [|L]; [assumption|]. exfalso. assert (k * f <= 0) by nia.
    pose proof (Z.quot_opp_l (k * f) q ltac:(lia)). pose proof (Z.quot_pos (- (k * f)) q ltac:(lia) Hq). set (z := Z.quot (k * f) q) in *.
    pose proof (Z.quot_opp_l z one ltac:(lia)). pose proof (Z.quot_pos (- z) one ltac:(lia) Ho). lia. }
  split; [exact Pk|]. destruct (quot_rem_pos (k * f) q Hq ltac:(nia)) as (E1 & R1 & P1). set (z := Z.quot (k * f) q) in *.
  destruct (quot_rem_pos z one Ho P1) as (E2 & R2 & P2). set (o := Z.quot z one) in *. clearbody o z. nia.
Qed.

Lemma calc_out p tin dout fee out : stable_ok p -> 0 <= fee <= OneDec -> 0 < Amount tin -> CalcOutAmtGivenIn p [tin] dout fee = Ok out ->
  exists fi fo w, GetScalingFactorByDenom p (Denom tin) = Ok fi /\ GetScalingFactorByDenom p dout = Ok fo /\ 0 < fi /\ 0 < fo /\ 0 <= w /\
    sumSquares (other_reserves p (Denom tin) dout) ZeroBigDec = Ok w /\ Denom tin <> dout /\ 0 < sliq p (Denom tin) /\
    Denom out = dout /\ 0 < Amount out < sliq p dout /\
    let x := scaled (sliq p dout) fo in let y := scaled (sliq p (Denom tin)) fi in
    let x' := scaled (sliq p dout - Amount out) fo in let y' := scaled (sliq p (Denom tin) + Amount tin) fi in
    2 * curve w x y <= 2 * curve w x' y' + slack x y y'.
Proof.
  intros O Hf Pt H. unfold CalcOutAmtGivenIn, calcOutAmtGivenIn in H. inv_bind H. inv_bind E.
  apply sorted_reserves in E0 as (fi & fo & Gi & Go & Fi & Fo & Li & Lo & Ne & ->); [|exact O]. unfold scaleCoin in E. rewrite Gi in E. cbn [bind] in E.
  inv_bind E. apply DivIntByU64_down in E0; [|lia | exact Fi]. change (10 ^ 36) with P in E0. inv_bind E. apply fee_factor in E1 as [Hom _]; [|exact Hf].
  apply bind_ok_inv in E as (amm & Em & E). apply mul_err in Em as (e & Qm & Bm). apply bind_ok_inv in E as (k & Ek & E). unfold solveCfmm in Ek. apply bind_ok_inv in Ek as (w & Ew & Ek).
  apply solve_curve in Ek as (Px & Py & Pw & Lk & La & Cv). apply (descaled p dout k fo) in E; [|exact Go | exact Fo]. inv_bind H.
  apply dec_TruncateInt_exact in E1. destruct (Z.ltb_spec 0 v2) as [Po|]; [|discriminate H]. cbn [negb] in H. unfold NewCoin in H.
  destruct (v2 <? 0); [discriminate H|]. apply Ok_inj in H as <-. destruct prec_split as [HP Hq]. rewrite E in E1.
  destruct (trunc_out precisionReuseSDKDec OneDec k fo v2 Hq OneDec_pos ltac:(lia) E1 Po) as [Pk Ho]. rewrite <- HP in Ho.
  exists fi, fo, w. split; [exact Gi|]. split; [exact Go|]. split; [lia|]. split; [lia|]. split; [exact Pw|]. split; [exact Ew|]. split; [exact Ne|]. split; [exact Li|].
  split; [reflexivity|]. cbn [Amount]. rewrite Z.abs_eq in Lk by lia.
  split; [split; [exact Po | exact (paid_below P prec_pos _ _ fo k ltac:(lia) Ho Lk)]|]. cbv zeta.
  assert (Hv : 0 <= v0) by (subst v0; apply Z.div_pos; [apply Z.mul_nonneg_nonneg; [lia | now apply Z.lt_le_incl, prec_pos] | lia]).
  assert (Ha : amm <= v0) by (apply (nearest_below P prec_pos v0 v1); [exact Hv | exact Hom | unfold half_unit in Bm; rewrite Qm; replace (v0 * v1 + e - v0 * v1) with e by ring; exact Bm]).
  pose proof (scaled_add P (sliq p (Denom tin)) (Amount tin) fi ltac:(lia) ltac:(lia) ltac:(lia)) as Sy. rewrite <- E0 in Sy.
  pose proof (scaled_sub P (sliq p dout) v2 fo k ltac:(lia) Ho) as Sx. fold (scaled (sliq p (Denom tin)) fi) (scaled (sliq p (Denom tin) + Amount tin) fi) in Sy.
  fold (scaled (sliq p dout) fo) (scaled (sliq p dout - v2) fo) in Sx.
  set (x := scaled (sliq p dout) fo) in *. set (y := scaled (sliq p (Denom tin)) fi) in *. set (y' := scaled (sliq p (Denom tin) + Amount tin) fi) in *.
  set (x' := scaled (sliq p dout - v2) fo) in *.
  pose proof (curve_mono w (x - k) (y + amm) x' y' Pw ltac:(lia) ltac:(lia)) as Cm. pose proof (slack_mono x y (y + amm) y' ltac:(lia) ltac:(lia)) as Sm.
  clear - Cv Cm Sm. lia.
Qed.

(** An amount in: it covers what is asked, up to the 18 decimals that the
    descaled amount keeps. *)
Lemma ceil_in q one k f t : 0 < q -> 0 < one -> 0 < f -> t = cdiv (Z.quot (k * f) q) one -> 0 < t -> 0 < k /\ k * f <= t * (q * one) + q.
Proof.
  intros Hq Ho Hf -> Pos. pose proof (cdiv_spec (Z.quot (k * f) q) one Ho) as Cd. set (z := Z.quot (k * f) q) in *. assert (Pz : 0 < z) by nia.
  assert (Pk : 0 < k).
  { destruct (Z.lt_ge_cases 0 k) as [|L]; [assumption|]. exfalso. pose proof (Z.quot_opp_l (k * f) q ltac:(lia)).
    pose proof (Z.quot_pos (- (k * f)) q ltac:(nia) Hq). unfold z in Pz. lia. }
  split; [exact Pk|]. destruct (quot_rem_pos (k * f) q Hq ltac:(nia)) as (E1 & R1 & P1). fold z in E1. clearbody z. set (t := cdiv z one) in *. clearbody t. nia.
Qed.

(** Rounding up only ever increases; of a negative amount nothing positive is left. *)
Lemma quo_up k om r : 0 < om <= P -> QuoRoundUpMut k om = Ok r -> 0 < r -> 0 <= k /\ k <= r.
Proof.
  intros Ho H Pr. destruct (Z.le_gt_cases 0 k) as [Hk|Hk].
  - apply QuoRoundUpMut_iff in H as [_ ->]; [|exact Hk | lia]. split; [exact Hk | now apply cdiv_above].
  - exfalso. unfold QuoRoundUpMut in H. rewrite bigQuoRem_ok in H by lia. cbn [bind] in H. apply checked_iff in H as [_ ->]. unfold incBasedOnRem in Pr.
    assert (B : Z.quot (k * P) om <= -1).
    { assert (k * P <= - om) by nia. pose proof (Z.quot_opp_l (k * P) om ltac:(lia)). pose proof (Z.quot_le_mono om (- (k * P)) om ltac:(lia) ltac:(lia)).
      rewrite Z.quot_same in * by lia. lia. }
    destruct (Z.sgn _ =? 0) in Pr; lia.
Qed.

Lemma calc_in p tout din fee tin : stable_ok p -> 0 <= fee < OneDec -> 0 < Amount tout -> CalcInAmtGivenOut p [tout] din fee = Ok tin ->
  exists fi fo w, GetScalingFactorByDenom p din = Ok fi /\ GetScalingFactorByDenom p (Denom tout) = Ok fo /\ 0 < fi /\ 0 < fo /\ 0 <= w /\
    sumSquares (other_reserves p din (Denom tout)) ZeroBigDec = Ok w /\ din <> Denom tout /\ 0 < sliq p din /\
    Denom tin = din /\ 0 < Amount tin /\ Amount tout < sliq p (Denom tout) /\
    let x := scaled (sliq p din) fi in let y := scaled (sliq p (Denom tout)) fo in
    let x' := scaled (sliq p din + Amount tin) fi in let y' := scaled (sliq p (Denom tout) - Amount tout) fo in
    2 * curve w x y <= 2 * curve w (x' + precisionReuseSDKDec) y' + slack x y y'.
Proof.
  intros O Hf Pt H. unfold CalcInAmtGivenOut, calcInAmtGivenOut in H. inv_bind H. inv_bind E.
  apply sorted_reserves in E0 as (fi & fo & Gi & Go & Fi & Fo & Li & Lo & Ne & ->); [|exact O]. unfold scaleCoin in E. rewrite Go in E. cbn [bind] in E.
  apply bind_ok_inv in E as (co & Ec & E). apply DivIntByU64_up in Ec; [|lia | exact Fo]. change (10 ^ 36) with P in Ec.
  apply bind_ok_inv in E as (k & Ek & E). unfold solveCfmm in Ek. apply bind_ok_inv in Ek as (w & Ew & Ek).
  apply solve_curve in Ek as (Px & Py & Pw & Lk & La & Cv). inv_bind E. apply fee_factor in E0 as [Hom Pom]; [|lia].
  apply bind_ok_inv in E as (i & Ei & E). apply (descaled p din i fi) in E; [|exact Gi | exact Fi].
  inv_bind H. inv_bind H. apply dec_Ceil_exact in E0 as ->. apply dec_TruncateInt_exact in E1. rewrite quot_exact in E1 by (pose proof OneDec_pos; lia).
  destruct (Z.ltb_spec 0 v2) as [Po|]; [|discriminate H]. cbn [negb] in H. unfold NewCoin in H.
  destruct (v2 <? 0); [discriminate H|]. apply Ok_inj in H as <-. destruct prec_split as [HP Hq]. rewrite E in E1.
  destruct (ceil_in precisionReuseSDKDec OneDec i fi v2 Hq OneDec_pos ltac:(lia) E1 Po) as [Pi Hi]. rewrite <- HP in Hi.
  destruct (quo_up (Neg k) v0 i (conj (Pom ltac:(lia)) (proj2 Hom)) Ei Pi) as [Nk Ki]. unfold Neg in *.
  pose proof (cdiv_spec (Amount tout * P) fo ltac:(lia)) as Cd. rewrite <- Ec in Cd.
  assert (Ho : Amount tout * P <= co * fo) by lia.
  assert (Nco : 0 <= co) by (rewrite Ec; apply cdiv_nonneg; [lia | apply Z.mul_nonneg_nonneg; [lia | now apply Z.lt_le_incl, prec_pos]]).
  rewrite Z.abs_opp, Z.abs_eq in La by exact Nco.
  exists fi, fo, w. split; [exact Gi|]. split; [exact Go|]. split; [lia|]. split; [lia|]. split; [exact Pw|]. split; [exact Ew|]. split; [exact Ne|]. split; [exact Li|].
  split; [reflexivity|]. cbn [Amount]. split; [exact Po|]. split; [exact (paid_below P prec_pos _ _ fo co ltac:(lia) Ho La)|]. cbv zeta.
  pose proof (scaled_in P (sliq p din) v2 fi i precisionReuseSDKDec ltac:(lia) ltac:(lia) Hi) as Sx.
  pose proof (scaled_sub P (sliq p (Denom tout)) (Amount tout) fo co ltac:(lia) Ho) as Sy.
  fold (scaled (sliq p din) fi) (scaled (sliq p din + v2) fi) in Sx. fold (scaled (sliq p (Denom tout)) fo) (scaled (sliq p (Denom tout) - Amount tout) fo) in Sy, La.
  set (x := scaled (sliq p din) fi) in *. set (y := scaled (sliq p (Denom tout)) fo) in *. set (x' := scaled (sliq p din + v2) fi) in *.
  set (y' := scaled (sliq p (Denom tout) - Amount tout) fo) in *. replace (y + - co) with (y - co) in * by ring.
  pose proof (curve_mono w (x - k) (y - co) (x' + precisionReuseSDKDec) y' Pw ltac:(lia) ltac:(lia)) as Cm. pose proof (slack_mono x y (y - co) y' ltac:(lia) ltac:(lia)) as Sm.
  clear - Cv Cm Sm. lia.
Qed.

(** ** Whole swaps *)

(** The pool after a swap of [tin] for [tout]. *)
Definition swapped (p : Pool) (tin tout : Coin) (p' : Pool) : Prop :=
  stable_ok p' /\ same_stable p p' /\ TotalShares p' = TotalShares p /\
  (map Denom (PoolLiquidity p') = map Denom (PoolLiquidity p) /\ Denom tin <> Denom tout /\ 0 < sliq p (Denom tin) /\ Amount tout < sliq p (Denom tout)) /\
  forall d, sliq p' d = sliq p d + amount_of [tin] d - amount_of [tout] d.

Lemma swapped_ok p tin tout r p' : stable_ok p -> coins_ok [tin] -> coins_ok [tout] -> Denom tin <> Denom tout -> 0 < sliq p (Denom tin) ->
  Amount tout < sliq p (Denom tout) -> updatePoolLiquidityForSwap [tin] [tout] p = (Ok r, p') -> swapped p tin tout p'.
Proof.
  intros O Oi Oo Ne Li Lo H. destruct (update_for_swap [tin] [tout] p r p' O Oi Oo H) as (O' & S' & Sh & L). split; [exact O'|]. split; [exact S'|]. split; [exact Sh|].
  split; [|exact L]. split; [|auto]. symmetry. apply same_denoms; [apply O | apply O'|]. intros d. specialize (L d). unfold sliq in *. rewrite L, !amount_single.
  assert (0 < Amount tin) by (apply (in_amount_pos [tin]); [exact Oi | now left]). assert (0 < Amount tout) by (apply (in_amount_pos [tout]); [exact Oo | now left]). pose proof (coins_ok_nonneg _ d (st_coins p O)).
  destruct (String.eqb_spec (Denom tin) d) as [E1|]; destruct (String.eqb_spec (Denom tout) d) as [E2|]; try congruence; try subst d; lia.
Qed.

Lemma swap_out_curve p tin dout fee out p' : stable_ok p -> 0 <= fee <= OneDec -> coins_ok [tin] -> ValidateDenom dout = true ->
  SwapOutAmtGivenIn [tin] dout fee p = (Ok out, p') ->
  swapped p tin out p' /\ Denom out = dout /\
  exists fi fo w, GetScalingFactorByDenom p (Denom tin) = Ok fi /\ GetScalingFactorByDenom p dout = Ok fo /\
    sumSquares (other_reserves p (Denom tin) dout) ZeroBigDec = Ok w /\
    let x := scaled (sliq p dout) fo in let y := scaled (sliq p (Denom tin)) fi in
    let x' := scaled (sliq p' dout) fo in let y' := scaled (sliq p' (Denom tin)) fi in
    2 * curve w x y <= 2 * curve w x' y' + slack x y y'.
Proof.
  intros O Hf Oi Vd H. unfold SwapOutAmtGivenIn in H. apply mbind_ok_inv in H as (q & s & E & H). injection E as <- <-.
  apply mbind_ok_inv in H as (l & s & E & H). apply lift_ok_inv in E as [_ <-]. apply mbind_ok_inv in H as (u & s & E & H). apply lift_ok_inv in E as [_ <-].
  apply mbind_ok_inv in H as (o & s & E & H). apply lift_ok_inv in E as [E <-]. apply calc_out in E as (fi & fo & w & Gi & Go & Fi & Fo & Pw & Ew & Ne & Li & Do & Lo & Cv);
    [|exact O | exact Hf | apply (in_amount_pos [tin]); [exact Oi | now left]].
  apply mbind_ok_inv in H as (outs & s & E & H). apply lift_ok_inv in E as [E <-]. assert (Oo : coins_ok [o]) by (apply single_ok; [lia | congruence]).
  rewrite MakeCoins_total in E by exact Oo. apply Ok_inj in E as <-. apply mbind_ok_inv in H as (u' & s & E & H). injection H as <- <-.
  apply swapped_ok in E; [|exact O | exact Oi | exact Oo | congruence | exact Li | rewrite Do; apply Lo]. split; [exact E|]. split; [exact Do|].
  exists fi, fo, w. split; [exact Gi|]. split; [exact Go|]. split; [exact Ew|]. destruct E as (_ & _ & _ & _ & L). cbv zeta. rewrite (L dout), (L (Denom tin)), !amount_single, Do, !String.eqb_refl.
  destruct (String.eqb_spec (Denom tin) dout); [contradiction|]. destruct (String.eqb_spec dout (Denom tin)); [congruence|].
  rewrite Z.add_0_r, Z.sub_0_r. exact Cv.
Qed.

Lemma swap_in_curve p tout din fee tin p' : stable_ok p -> 0 <= fee < OneDec -> coins_ok [tout] -> ValidateDenom din = true ->
  SwapInAmtGivenOut [tout] din fee p = (Ok tin, p') ->
  swapped p tin tout p' /\ Denom tin = din /\
  exists fi fo w, GetScalingFactorByDenom p din = Ok fi /\ GetScalingFactorByDenom p (Denom tout) = Ok fo /\
    sumSquares (other_reserves p din (Denom tout)) ZeroBigDec = Ok w /\
    let x := scaled (sliq p din) fi in let y := scaled (sliq p (Denom tout)) fo in
    let x' := scaled (sliq p' din) fi in let y' := scaled (sliq p' (Denom tout)) fo in
    2 * curve w x y <= 2 * curve w (x' + precisionReuseSDKDec) y' + slack x y y'.
Proof.
  intros O Hf Oo Vd H. unfold SwapInAmtGivenOut in H. apply mbind_ok_inv in H as (q & s & E & H). injection E as <- <-.
  apply mbind_ok_inv in H as (i & s & E & H). apply lift_ok_inv in E as [E <-]. apply calc_in in E as (fi & fo & w & Gi & Go & Fi & Fo & Pw & Ew & Ne & Li & Di & Pi & Lo & Cv);
    [|exact O | exact Hf | apply (in_amount_pos [tout]); [exact Oo | now left]].
  apply mbind_ok_inv in H as (l & s & E & H). apply lift_ok_inv in E as [_ <-]. apply mbind_ok_inv in H as (u & s & E & H). apply lift_ok_inv in E as [_ <-].
  apply mbind_ok_inv in H as (ins & s & E & H). apply lift_ok_inv in E as [E <-]. assert (Oi : coins_ok [i]) by (apply single_ok; [lia | congruence]).
  rewrite MakeCoins_total in E by exact Oi. apply Ok_inj in E as <-. apply mbind_ok_inv in H as (u' & s & E & H). injection H as <- <-.
  apply swapped_ok in E; [|exact O | exact Oi | exact Oo | congruence | rewrite Di; exact Li | exact Lo]. split; [exact E|]. split; [exact Di|].
  exists fi, fo, w. split; [exact Gi|]. split; [exact Go|]. split; [exact Ew|]. destruct E as (_ & _ & _ & _ & L). cbv zeta. rewrite (L din), (L (Denom tout)), !amount_single, Di, !String.eqb_refl.
  destruct (String.eqb_spec din (Denom tout)); [contradiction|]. destruct (String.eqb_spec (Denom tout) din); [congruence|].
  rewrite Z.add_0_r, Z.sub_0_r. exact Cv.
Qed.

(** The rounding of a swap between reserves of at most [m]. *)
Definition rounding (m : Z) : Z := 7 * P * m ^ 2 + 5 * P ^ 2 * m + P ^ 3.

Lemma slack_rounding x y y' m : 0 <= x <= m -> 0 <= y <= m -> 0 <= y' <= m -> slack x y y' <= rounding m.
Proof.
  intros Hx Hy Hy'. unfold slack, rounding. assert (Np : 0 <= P) by now apply Z.lt_le_incl, prec_pos. generalize dependent P. intros p Np.
  assert (A : x * (2 * y + 5 * y') <= m * (7 * m)) by (apply Z.mul_le_mono_nonneg; lia).
  apply (Z.mul_le_mono_nonneg_l _ _ p) in A; [|exact Np]. assert (B : y + 4 * y' <= 5 * m) by lia. apply (Z.mul_le_mono_nonneg_l _ _ (p ^ 2)) in B; [|nia].
  replace (7 * p * m ^ 2) with (p * (m * (7 * m))) by ring. replace (5 * p ^ 2 * m) with (p ^ 2 * (5 * m)) by ring. lia.
Qed.

Lemma scaled_bounds a b f : 0 < f -> 0 <= a <= b -> 0 <= scaled a f <= scaled b f.
Proof.
  intros Hf H. unfold scaled. assert (Np : 0 <= P) by now apply Z.lt_le_incl, prec_pos. split; [apply Z.div_pos; [apply Z.mul_nonneg_nonneg; lia | exact Hf]|].
  apply Z.div_le_mono; [exact Hf|]. apply Z.mul_le_mono_nonneg_r; [exact Np | lia].
Qed.

Lemma factor_range p d f : stable_ok p -> GetScalingFactorByDenom p d = Ok f -> amount_of (PoolLiquidity p) d <> 0 -> 0 < f.
Proof.
  intros O G Nz. destruct (amount_coin _ d (st_coins p O) Nz) as (c & I & <- & _). apply (In_nth _ _ c) in I as (n & Ln & Ec).
  assert (Ic : In (c, nth n (ScalingFactors p) 0) (combine (PoolLiquidity p) (ScalingFactors p))).
  { rewrite <- Ec at 1. rewrite <- (combine_nth _ _ n c 0) by (symmetry; apply O). apply nth_In. rewrite length_combine, (st_count p O). lia. }
  destruct (pool_factors p _ O Ic) as (_ & Hf & Gf & _). cbn [fst snd] in *. rewrite G in Gf. apply Ok_inj in Gf as ->. lia.
Qed.

(** A swap adds to one reserve and takes from the other. *)
Lemma swapped_bounds p tin tout p' fi fo : stable_ok p -> coins_ok [tin] -> coins_ok [tout] -> swapped p tin tout p' ->
  GetScalingFactorByDenom p (Denom tin) = Ok fi -> GetScalingFactorByDenom p (Denom tout) = Ok fo ->
  0 <= scaled (sliq p (Denom tin)) fi <= scaled (sliq p' (Denom tin)) fi /\ 0 <= scaled (sliq p (Denom tout)) fo /\
  0 <= scaled (sliq p' (Denom tout)) fo <= scaled (sliq p (Denom tout)) fo.
Proof.
  intros O Oi Oo (O' & _ & _ & (_ & Ne & Li & Lo) & L) Gi Go. pose proof (in_amount_pos _ _ Oi (or_introl eq_refl)) as Pi. pose proof (in_amount_pos _ _ Oo (or_introl eq_refl)) as Po.
  pose proof (factor_range p _ fi O Gi ltac:(unfold sliq in Li; lia)) as Fi. pose proof (factor_range p _ fo O Go ltac:(unfold sliq in Lo; lia)) as Fo.
  rewrite (L (Denom tin)), (L (Denom tout)), !amount_single, !String.eqb_refl. destruct (String.eqb_spec (Denom tin) (Denom tout)); [contradiction|].
  destruct (String.eqb_spec (Denom tout) (Denom tin)); [congruence|]. split; [apply scaled_bounds; lia|]. split; [apply (scaled_bounds _ (sliq p (Denom tout))); lia | apply scaled_bounds; lia].
Qed.

(** C13: A swap never takes a stableswap pool below its curve
    [x y (x^2 + y^2 + w)], evaluated on the scaled reserves of the two assets
    ([w] is the sum of the squares of the others), by more than the rounding of
    its arithmetic.  An exact amount out is charged only up to the 18 decimals
    that [getDescaledPoolAmt] keeps, hence the [10^18] units of [10^-36].  The
    denominations, the factors and the shares of the pool stay as they are, and
    the liquidity moves by exactly the two coins. *)
Theorem swaps_keep_curve p p' tin tout fee : stable_ok p -> 0 <= fee < OneDec -> coins_ok [tin] -> coins_ok [tout] ->
  let reserves q fi fo := (scaled (sliq q (Denom tin)) fi, scaled (sliq q (Denom tout)) fo) in
  let bounded exact unit := exact -> swapped p tin tout p' /\
    exists fi fo w, GetScalingFactorByDenom p (Denom tin) = Ok fi /\ GetScalingFactorByDenom p (Denom tout) = Ok fo /\
      sumSquares (other_reserves p (Denom tin) (Denom tout)) ZeroBigDec = Ok w /\
      let '(x, y) := reserves p fi fo in let '(x', y') := reserves p' fi fo in
      2 * curve w y x <= 2 * curve w y' (x' + unit) + rounding (Z.max x' y) in
  bounded (SwapOutAmtGivenIn [tin] (Denom tout) fee p = (Ok tout, p')) 0 /\
  bounded (SwapInAmtGivenOut [tout] (Denom tin) fee p = (Ok tin, p')) (10 ^ 18).
Proof.
  intros O Hf Oi Oo. cbv zeta. assert (Vi : ValidateDenom (Denom tin) = true) by (destruct Oi as [_ F]; inversion F as [|? ? [_ X] _]; exact X).
  assert (Vo : ValidateDenom (Denom tout) = true) by (destruct Oo as [_ F]; inversion F as [|? ? [_ X] _]; exact X).
  split; intros H.
  - destruct (swap_out_curve p tin (Denom tout) fee tout p' O ltac:(lia) Oi Vo H) as (Sw & _ & fi & fo & w & Gi & Go & Ew & Cv). cbv zeta in Cv.
    split; [exact Sw|]. exists fi, fo, w. split; [exact Gi|]. split; [exact Go|]. split; [exact Ew|]. rewrite Z.add_0_r.
    enough (slack (scaled (sliq p (Denom tout)) fo) (scaled (sliq p (Denom tin)) fi) (scaled (sliq p' (Denom tin)) fi) <= rounding (Z.max (scaled (sliq p' (Denom tin)) fi) (scaled (sliq p (Denom tout)) fo))) by (clear - Cv H0; lia).
    destruct (swapped_bounds p tin tout p' fi fo O Oi Oo Sw Gi Go) as (B1 & B2 & _). apply slack_rounding; lia.
  - destruct (swap_in_curve p tout (Denom tin) fee tin p' O Hf Oo Vi H) as (Sw & _ & fi & fo & w & Gi & Go & Ew & Cv). cbv zeta in Cv.
    split; [exact Sw|]. exists fi, fo, w. split; [exact Gi|]. split; [exact Go|]. split; [exact Ew|]. rewrite (curve_sym w (scaled (sliq p (Denom tout)) fo)), (curve_sym w (scaled (sliq p' (Denom tout)) fo)).
    change (10 ^ 18) with precisionReuseSDKDec.
    enough (slack (scaled (sliq p (Denom tin)) fi) (scaled (sliq p (Denom tout)) fo) (scaled (sliq p' (Denom tout)) fo) <= rounding (Z.max (scaled (sliq p' (Denom tin)) fi) (scaled (sliq p (Denom tout)) fo))) by (clear - Cv H0; lia).
    destruct (swapped_bounds p tin tout p' fi fo O Oi Oo Sw Gi Go) as (B1 & B2 & B3). apply slack_rounding; lia.
Qed.

End Swap.
