(* ===== verification/GammPool.v ===== *)
(** * The pools of [x/gamm] through their interface ([x/gamm/types/pool.go])

    [PoolModel] is [types.CFMMPoolI] with its two extensions; [PoolModelSpec] is
    what a pool promises to the keeper: what each operation does to its
    liquidity and its shares, and that shares are never given away.  The
    keeper's theorems use only the promise; [GammPoolLaws] proves it for both
    pool models. *)

From Stdlib Require Import ZArith Lia List Bool String.
From S2P Require Import Prelude GoBig BigInt BigDec SdkMath SdkMore BinarySearch Store GoState SdkCoins SdkPool Cfmm GammTypes GammBalancer GammStableswap.
Import ListNotations.
Open Scope Z_scope.

Module CFMMPool.

Class PoolModel (P : Type) : Type := {
  pm_view :: CFMMView P;
  GetId : P -> Z;
  GetAddress : P -> Res Address;
  GetSpreadFactor : P -> Z;
  GetExitFee : P -> Z;
  IsActive : P -> bool;
  SwapOutAmtGivenIn : list Coin -> string -> Z -> M P Coin;
  CalcOutAmtGivenIn : P -> list Coin -> string -> Z -> Res Coin;
  SwapInAmtGivenOut : list Coin -> string -> Z -> M P Coin;
  CalcInAmtGivenOut : P -> list Coin -> string -> Z -> Res Coin;
  SpotPrice : P -> string -> string -> Res Z;
  JoinPool : list Coin -> Z -> M P Z;
  JoinPoolNoSwap : list Coin -> Z -> M P Z;
  ExitPool : Z -> Z -> M P (list Coin);
  (** [pool.(types.WeightedPoolExtension)] *)
  is_weighted : P -> bool;
  PokePool : Z -> M P unit;
  (** [pool.(types.PoolAmountOutExtension)] *)
  is_amount_out : P -> bool;
  CalcTokenInShareAmountOut : P -> string -> Z -> Z -> Res Z;
  IncreaseLiquidity : Z -> list Coin -> M P unit;
  ExitSwapExactAmountOut : Coin -> Z -> M P Z
}.

(** What can be observed of a pool, and when it is in order. *)
Class PoolView (P : Type) : Type := {
  pool_inv : P -> Prop;
  pool_liq : P -> string -> Z
}.

Section Laws.
Context {C : CoinsOps} {P : Type} {PM : PoolModel P} {V : PoolView P}.

(** What no operation of a pool changes. *)
Definition steady (p p' : P) : Prop :=
  pool_inv p' /\ GetId p' = GetId p /\ GetAddress p' = GetAddress p /\ GetSpreadFactor p' = GetSpreadFactor p /\ GetExitFee p' = GetExitFee p /\
  is_amount_out p' = is_amount_out p.

(** A join of [n] shares that takes [joined], which is at most [offered]. *)
Definition joins (p : P) (n : Z) (joined offered : list Coin) (p' : P) : Prop :=
  steady p p' /\ coins_ok joined /\ (forall d, amount_of joined d <= amount_of offered d) /\
  GetTotalShares p' = GetTotalShares p + n /\ forall d, pool_liq p' d = pool_liq p d + amount_of joined d.

(** An exit of [n] shares that pays [cs]. *)
Definition exits (p : P) (n : Z) (cs : list Coin) (p' : P) : Prop :=
  steady p p' /\ coins_ok cs /\ (forall d, amount_of cs d <= pool_liq p d) /\
  0 <= GetTotalShares p' /\ GetTotalShares p' = GetTotalShares p - n /\ forall d, pool_liq p' d = pool_liq p d - amount_of cs d.

Definition swaps (p : P) (tin tout : Coin) (p' : P) : Prop :=
  steady p p' /\ GetTotalShares p' = GetTotalShares p /\ forall d, pool_liq p' d = pool_liq p d + amount_of [tin] d - amount_of [tout] d.

Class PoolModelSpec : Prop := {
  liq_nonneg p d : pool_inv p -> 0 <= pool_liq p d;
  liq_listed p l : pool_inv p -> GetTotalPoolLiquidity p = Ok l -> coins_ok l /\ forall d, amount_of l d = pool_liq p d;
  fees_inv p : pool_inv p -> 0 <= GetSpreadFactor p < OneDec /\ 0 <= GetExitFee p < OneDec;
  poke_law t p r p' : pool_inv p -> is_weighted p = true -> PokePool t p = (Ok r, p') ->
    steady p p' /\ GetTotalShares p' = GetTotalShares p /\ forall d, pool_liq p' d = pool_liq p d;
  (** A pool pays at most what it has; the books only work if something is left. *)
  swap_out_law tin dout fee p out p' : pool_inv p -> 0 <= fee < OneDec -> coins_ok [tin] -> ValidateDenom dout = true -> Denom tin <> dout ->
    SwapOutAmtGivenIn [tin] dout fee p = (Ok out, p') ->
    Denom out = dout /\ 0 < Amount out <= pool_liq p dout /\ (Amount out < pool_liq p dout -> swaps p tin out p');
  swap_in_law tout din fee p tin p' : pool_inv p -> 0 <= fee < OneDec -> coins_ok [tout] -> ValidateDenom din = true -> din <> Denom tout ->
    Amount tout < pool_liq p (Denom tout) -> SwapInAmtGivenOut [tout] din fee p = (Ok tin, p') ->
    Denom tin = din /\ 0 < Amount tin /\ swaps p tin tout p';
  join_law cs fee p n p' : pool_inv p -> 0 <= GetTotalShares p -> coins_ok cs -> JoinPool cs fee p = (Ok n, p') -> exists joined, joins p n joined cs p';
  (** Without a swap, a join gets at most its part of the shares. *)
  join_no_swap_law cs fee p n p' : pool_inv p -> 0 <= GetTotalShares p -> coins_ok cs -> JoinPoolNoSwap cs fee p = (Ok n, p') ->
    0 <= n /\ exists joined, joins p n joined cs p' /\
      forall d, pool_liq p d <> 0 -> n * pool_liq p d <= GetTotalShares p * amount_of joined d;
  (** An exit pays at most its part of the assets. *)
  exit_law k fee p cs p' : pool_inv p -> 0 <= k -> 0 <= fee < OneDec -> ExitPool k fee p = (Ok cs, p') ->
    k < GetTotalShares p /\ exits p k cs p' /\
    forall d, amount_of cs d * OneDec * GetTotalShares p <= (OneDec - fee) * k * pool_liq p d;
  calc_token_in_law p d n fee a : pool_inv p -> CalcTokenInShareAmountOut p d n fee = Ok a -> 0 < a /\ pool_liq p d <> 0;
  increase_law n cs p r p' : pool_inv p -> coins_ok cs -> IncreaseLiquidity n cs p = (Ok r, p') -> joins p n cs cs p';
  exit_swap_law c mx p n p' : pool_inv p -> 0 <= GetTotalShares p -> coins_ok [c] -> ExitSwapExactAmountOut c mx p = (Ok n, p') -> 0 < n <= mx /\ exits p n [c] p'
}.

End Laws.
Arguments PoolModelSpec {C} P {PM V}.

(** ** The two models *)

Inductive PoolI : Type :=
| PBalancer (p : Balancer.Pool)
| PStable (p : Stableswap.Pool).

Section Models.
Context {S : SdkMath} {D : SdkMore} {DP : SdkPool} {C : CoinsOps} {CM : CoinsMore} {T : GammText}.

(** A type assertion that does not hold. *)
Definition not_implemented {X A} : M X A := panic "interface conversion".

#[export] Instance balancer_model : PoolModel Balancer.Pool := {|
  pm_view := Balancer.view;
  GetId := Balancer.Id;
  GetAddress := Balancer.GetAddress;
  GetSpreadFactor := Balancer.GetSpreadFactor;
  GetExitFee := Balancer.GetExitFee;
  IsActive _ := true;
  SwapOutAmtGivenIn := Balancer.SwapOutAmtGivenIn;
  CalcOutAmtGivenIn := Balancer.CalcOutAmtGivenIn;
  SwapInAmtGivenOut := Balancer.SwapInAmtGivenOut;
  CalcInAmtGivenOut := Balancer.CalcInAmtGivenOut;
  SpotPrice := Balancer.SpotPrice;
  JoinPool := Balancer.JoinPool;
  JoinPoolNoSwap := Balancer.JoinPoolNoSwap;
  ExitPool := Balancer.ExitPool;
  is_weighted _ := true;
  PokePool := Balancer.PokePool;
  is_amount_out _ := true;
  CalcTokenInShareAmountOut := Balancer.CalcTokenInShareAmountOut;
  IncreaseLiquidity := Balancer.IncreaseLiquidity;
  ExitSwapExactAmountOut := Balancer.ExitSwapExactAmountOut
|}.

#[export] Instance stable_model : PoolModel Stableswap.Pool := {|
  pm_view := Stableswap.view;
  GetId := Stableswap.Id;
  GetAddress := Stableswap.GetAddress;
  GetSpreadFactor := Stableswap.GetSpreadFactor;
  GetExitFee := Stableswap.GetExitFee;
  IsActive _ := true;
  SwapOutAmtGivenIn := Stableswap.SwapOutAmtGivenIn;
  CalcOutAmtGivenIn := Stableswap.CalcOutAmtGivenIn;
  SwapInAmtGivenOut := Stableswap.SwapInAmtGivenOut;
  CalcInAmtGivenOut := Stableswap.CalcInAmtGivenOut;
  SpotPrice := Stableswap.SpotPrice;
  JoinPool := Stableswap.JoinPool;
  JoinPoolNoSwap := Stableswap.JoinPoolNoSwap;
  ExitPool := Stableswap.ExitPool;
  is_weighted _ := false;
  PokePool _ := not_implemented;
  is_amount_out _ := false;
  CalcTokenInShareAmountOut _ _ _ _ := Panic "interface conversion";
  IncreaseLiquidity _ _ := not_implemented;
  ExitSwapExactAmountOut _ _ := not_implemented
|}.

(** Dynamic dispatch. *)
Definition on_pool {A} (b : M Balancer.Pool A) (s : M Stableswap.Pool A) : M PoolI A := fun pool =>
  match pool with
  | PBalancer p => let '(r, p') := b p in (r, PBalancer p')
  | PStable p => let '(r, p') := s p in (r, PStable p')
  end.
Definition of_pool {A} (b : Balancer.Pool -> A) (s : Stableswap.Pool -> A) (pool : PoolI) : A :=
  match pool with PBalancer p => b p | PStable p => s p end.

#[export] Instance pool_model : PoolModel PoolI := {|
  pm_view := {| GetTotalShares := of_pool GetTotalShares GetTotalShares; GetTotalPoolLiquidity := of_pool GetTotalPoolLiquidity GetTotalPoolLiquidity |};
  GetId := of_pool GetId GetId;
  GetAddress := of_pool GetAddress GetAddress;
  GetSpreadFactor := of_pool GetSpreadFactor GetSpreadFactor;
  GetExitFee := of_pool GetExitFee GetExitFee;
  IsActive := of_pool IsActive IsActive;
  SwapOutAmtGivenIn cs d f := on_pool (SwapOutAmtGivenIn cs d f) (SwapOutAmtGivenIn cs d f);
  CalcOutAmtGivenIn := of_pool CalcOutAmtGivenIn CalcOutAmtGivenIn;
  SwapInAmtGivenOut cs d f := on_pool (SwapInAmtGivenOut cs d f) (SwapInAmtGivenOut cs d f);
  CalcInAmtGivenOut := of_pool CalcInAmtGivenOut CalcInAmtGivenOut;
  SpotPrice := of_pool SpotPrice SpotPrice;
  JoinPool cs f := on_pool (JoinPool cs f) (JoinPool cs f);
  JoinPoolNoSwap cs f := on_pool (JoinPoolNoSwap cs f) (JoinPoolNoSwap cs f);
  ExitPool k f := on_pool (ExitPool k f) (ExitPool k f);
  is_weighted := of_pool is_weighted is_weighted;
  PokePool t := on_pool (PokePool t) (PokePool t);
  is_amount_out := of_pool is_amount_out is_amount_out;
  CalcTokenInShareAmountOut := of_pool CalcTokenInShareAmountOut CalcTokenInShareAmountOut;
  IncreaseLiquidity n cs := on_pool (IncreaseLiquidity n cs) (IncreaseLiquidity n cs);
  ExitSwapExactAmountOut c m := on_pool (ExitSwapExactAmountOut c m) (ExitSwapExactAmountOut c m)
|}.

End Models.
End CFMMPool.
