(* ===== verification/GammBalancerLaws.v ===== *)
(** * Balancer pools keep the promise of [GammPool]

    What every operation of a balancer pool does to its liquidity and shares. *)

From stdpp Require Import base list gmap strings.
From Stdlib Require Import ZArith Lia List Bool String Sorted.
From S2P Require Import Prelude GoBig BigInt BigDec SdkMath SdkMore BinarySearch Store GoState SdkCoins SdkPool DecMath Cfmm GammTypes GammBalancer GammStableswap.
From S2P Require Import GammBalancerOk GammPool.
Import ListNotations.
Import CFMMPool.
Open Scope Z_scope.

Section Laws.
Context {S : SdkMath} {SS : SdkMathSpec S} {D : SdkMore} {DS : SdkMoreSpec D} {DP : SdkPool} {DPS : SdkPoolSpec S D DP}
  {C : CoinsOps} {CS : CoinsSpec C} {CM : CoinsMore} {CMS : CoinsMoreSpec C CM} {T : GammText}.

Definition fees_ok (spread exit : Z) : Prop := 0 <= spread < OneDec /\ 0 <= exit < OneDec.

#[export] Instance balancer_view : PoolView Balancer.Pool := {|
  pool_inv p := pool_ok p /\ fees_ok (Balancer.GetSpreadFactor p) (Balancer.GetExitFee p);
  pool_liq := liq
|}.

Lemma balancer_steady p p' : pool_inv p -> pool_ok p' -> same_pool p p' -> steady p p'.
Proof.
  intros [_ F] O (Ei & Ea & Ep & _). unfold steady. cbn [GetId GetAddress GetSpreadFactor GetExitFee is_amount_out balancer_model pool_inv balancer_view].
  unfold Balancer.GetAddress, Balancer.GetSpreadFactor, Balancer.GetExitFee in *. rewrite Ei, Ea, Ep. repeat split; try assumption; try apply O; apply F.
Qed.

(** ** Swaps *)

Lemma calc_out_coin p cs d fee out : Balancer.CalcOutAmtGivenIn p cs d fee = Ok out -> Denom out = d /\ 0 < Amount out.
Proof.
  unfold Balancer.CalcOutAmtGivenIn. intros H. apply bind_ok_inv in H as ([[tin a] b] & _ & H). do 9 inv_bind H. inv_bind H.
  destruct (Z.ltb_spec 0 v8) as [L|]; [|discriminate H]. cbn [negb] in H. unfold NewCoin in H. destruct (v8 <? 0); [discriminate H|].
  apply Ok_inj in H as <-. auto.
Qed.

Lemma calc_in_coin p cs d fee tin : Balancer.CalcInAmtGivenOut p cs d fee = Ok tin -> Denom tin = d /\ 0 < Amount tin.
Proof.
  unfold Balancer.CalcInAmtGivenOut. intros H. apply bind_ok_inv in H as ([[tout a] b] & _ & H). do 10 inv_bind H. inv_bind H.
  destruct (Z.ltb_spec 0 v9) as [L|]; [|discriminate H]. cbn [negb] in H. unfold NewCoin in H. destruct (v9 <? 0); [discriminate H|].
  apply Ok_inj in H as <-. auto.
Qed.

(** A swap that goes through pays at most what the pool has. *)
Lemma swap_covered tin tout p r p' : pool_ok p -> Denom tin <> Denom tout -> Balancer.applySwap [tin] [tout] p = (Ok r, p') ->
  Amount tout <= liq p (Denom tout).
Proof.
  intros O Ne H. unfold Balancer.applySwap in H. apply mbind_ok_inv in H as (q & s & E & H). injection E as <- <-.
  apply mbind_ok_inv in H as ([[[ti to] a] b] & s & E & H). apply lift_ok_inv in E as [E <-]. cbn [Balancer.parsePoolAssetsCoins Balancer.parsePoolAssets] in E.
  inv_bind E. inv_bind E0. destruct v0 as [a0 b0]. apply Ok_inj in E0. subst v. apply Ok_inj in E. injection E as <- <- <- <-.
  apply parsed in E1 as (Ia & Ib & Ea & Eb). destruct (asset_liq p b0 (po_tokens p O) Ib) as [Lb Pb].
  apply mbind_ok_inv in H as (x & s & E & H). apply lift_ok_inv in E as [E <-]. apply int_Add_exact in E as ->.
  apply mbind_ok_inv in H as (y & s & E & H). apply lift_ok_inv in E as [E <-]. apply int_Sub_exact in E as ->.
  apply mbind_ok_inv in H as (cs & s & E & H). apply lift_ok_inv in E as [E <-]. apply MakeCoins_exact in E as [Oc Ac].
  pose proof (coins_ok_nonneg cs (Denom tout) Oc) as Nn. rewrite Ac, !amount_cons in Nn. cbn [Denom Amount amount_of map zsum fold_right] in Nn. rewrite Ea, Eb in *.
  rewrite String.eqb_refl in Nn. destruct (String.eqb_spec (Denom tin) (Denom tout)); [contradiction|]. lia.
Qed.

Lemma balancer_swaps p tin tout r p' : pool_inv p -> Denom tin <> Denom tout -> 0 < Amount tin -> Amount tout < liq p (Denom tout) ->
  Balancer.applySwap [tin] [tout] p = (Ok r, p') -> swaps p tin tout p'.
Proof.
  intros I Ne Pt Lt H. pose proof I as [O _]. destruct (apply_swap tin tout p r p' O Ne Pt Lt H) as (O' & S' & Sh & L).
  split; [now apply balancer_steady|]. split; [cbn; congruence | exact L].
Qed.

Lemma balancer_swap_out tin dout fee p out p' : pool_inv p -> 0 <= fee < OneDec -> coins_ok [tin] -> ValidateDenom dout = true -> Denom tin <> dout ->
  Balancer.SwapOutAmtGivenIn [tin] dout fee p = (Ok out, p') ->
  Denom out = dout /\ 0 < Amount out <= liq p dout /\ (Amount out < liq p dout -> swaps p tin out p').
Proof.
  intros I _ Oi _ Ne H. unfold Balancer.SwapOutAmtGivenIn in H. apply mbind_ok_inv in H as (q & s & E & H). injection E as <- <-.
  apply mbind_ok_inv in H as (o & s & E & H). apply lift_ok_inv in E as [E <-]. apply calc_out_coin in E as [<- Po].
  apply mbind_ok_inv in H as (u & s & E & H). injection H as <- <-. split; [reflexivity|].
  split; [split; [exact Po | exact (swap_covered tin o p u s (proj1 I) Ne E)]|]. intros Lt.
  apply (balancer_swaps p tin o u s I Ne); [apply (in_amount_pos [tin]); [exact Oi | now left] | exact Lt | exact E].
Qed.

Lemma balancer_swap_in tout din fee p tin p' : pool_inv p -> 0 <= fee < OneDec -> coins_ok [tout] -> ValidateDenom din = true -> din <> Denom tout ->
  Amount tout < liq p (Denom tout) -> Balancer.SwapInAmtGivenOut [tout] din fee p = (Ok tin, p') ->
  Denom tin = din /\ 0 < Amount tin /\ swaps p tin tout p'.
Proof.
  intros I _ Oo _ Ne Lt H. unfold Balancer.SwapInAmtGivenOut in H. apply mbind_ok_inv in H as (q & s & E & H). injection E as <- <-.
  apply mbind_ok_inv in H as (i & s & E & H). apply lift_ok_inv in E as [E <-]. apply calc_in_coin in E as [<- Pi].
  apply mbind_ok_inv in H as (u & s & E & H). injection H as <- <-. split; [reflexivity|]. split; [exact Pi|].
  exact (balancer_swaps p i tout u s I Ne Pi Lt E).
Qed.

(** ** Joins *)

Lemma coins_amounts_nonneg cs : coins_ok cs -> Forall (fun c => 0 <= Amount c) cs.
Proof. intros [_ F]. revert F. apply List.Forall_impl. intros c [P _]. lia. Qed.

Lemma balancer_increase n cs p r p' : pool_inv p -> coins_ok cs -> Balancer.IncreaseLiquidity n cs p = (Ok r, p') -> joins p n cs cs p'.
Proof.
  intros I O H. pose proof I as [Op _]. destruct (increase_liquidity n cs p r p' Op (coins_amounts_nonneg cs O) H) as (O' & S' & Sh & L).
  split; [now apply balancer_steady|]. split; [exact O|]. split; [intros; lia|]. split; [exact Sh | exact L].
Qed.

(** Only denominations of the pool pass. *)
Lemma assets_by_denom l : forall m m' d, Balancer.getPoolAssetsByDenomLoop l m = Ok m' -> m' !! d <> None -> m !! d <> None \/ In d (map Balancer.asset_denom l).
Proof.
  induction l as [|a l IH]; intros m m' d H N; cbn [Balancer.getPoolAssetsByDenomLoop] in H; [apply Ok_inj in H as <-; now left|].
  destruct (m !! Balancer.asset_denom a) eqn:E; [discriminate H|]. apply (IH _ _ d) in H as [H | I]; [|right; now right | exact N].
  destruct (String.string_dec (Balancer.asset_denom a) d) as [<-|Ne]; [right; now left|]. rewrite lookup_insert_ne in H by exact Ne. now left.
Qed.

Lemma ensured cs : forall m r, Balancer.ensureDenomInPool m cs = Ok r -> forall d, In d (map Denom cs) -> m !! d <> None.
Proof.
  induction cs as [|c cs IH]; intros m r H d I; [destruct I|]. cbn [Balancer.ensureDenomInPool] in H. destruct (m !! Denom c) eqn:E; [|discriminate H].
  destruct I as [<- | I]; [congruence | now apply (IH m r H)].
Qed.

Lemma known_denoms p m cs r : coins_ok (tokens p) -> coins_ok cs -> Balancer.getPoolAssetsByDenom (Balancer.PoolAssets p) = Ok m -> Balancer.ensureDenomInPool m cs = Ok r ->
  forall d, amount_of cs d <> 0 -> liq p d <> 0.
Proof.
  intros Ot Oc Em Er d Nz. apply (denom_amount cs d Oc) in Nz. apply (ensured cs m r Er) in Nz. apply (assets_by_denom _ _ _ d Em) in Nz as [N | I]; [now rewrite lookup_empty in N|].
  apply (denom_amount (tokens p) d Ot). unfold tokens. now rewrite map_map.
Qed.

(** The shares for what is in the ratio of the pool. *)
Lemma no_swap_shares p cs fee n joined : pool_ok p -> 0 <= Amount (Balancer.TotalShares p) -> coins_ok cs ->
  Balancer.CalcJoinPoolNoSwapShares p cs fee = Ok (n, joined) ->
  0 <= n /\ coins_ok joined /\ (forall d, amount_of joined d <= amount_of cs d) /\
  forall d, liq p d <> 0 -> n * liq p d <= Amount (Balancer.TotalShares p) * amount_of joined d.
Proof.
  intros O Ps Oc H. unfold Balancer.CalcJoinPoolNoSwapShares in H. inv_bind H. inv_bind H. destruct (Nat.eqb_spec (List.length cs) (Balancer.NumAssets p)) as [Len|]; [|discriminate H].
  cbn [negb] in H. apply bind_ok_inv in H as ([m rem] & Ej & H). inv_bind H. destruct (Coins_IsAnyGT v1 cs); [discriminate H|]. apply Ok_inj in H. injection H as <- <-.
  assert (El : Cfmm.GetTotalPoolLiquidity p = Ok (tokens p)).
  { unfold MaximalExactRatioJoin in Ej. apply bind_ok_inv in Ej as (l & El & _). now rewrite <- (total_liquidity p l O El). }
  apply (join_bounds p (tokens p) El (po_tokens p O)) in Ej as (Or & Nn & Le & Sh & _); [|exact Oc | exact Ps].
  apply Coins_Sub_exact in E1 as [Oj Aj]; [|assumption..]. split; [exact Nn|]. split; [exact Oj|].
  split; [intros d; rewrite Aj; pose proof (coins_ok_nonneg rem d Or); lia|]. intros d Nz. rewrite Aj. apply Sh.
  apply (coins_cover cs (tokens p)); [exact Oc | apply O | unfold tokens; now rewrite length_map | exact (known_denoms p v cs v0 (po_tokens p O) Oc E E0) | exact Nz].
Qed.

Lemma single_tokens p fee m ts : forall cs n0 l0 n l, coins_ok cs -> coins_ok l0 ->
  Balancer.calcJoinSingleAssetTokensIn p cs ts m fee n0 l0 = Ok (n, l) -> coins_ok l /\ forall d, amount_of l d = amount_of l0 d + amount_of cs d.
Proof.
  induction cs as [|c cs IH]; intros n0 l0 n l O O0 H; cbn [Balancer.calcJoinSingleAssetTokensIn] in H.
  { apply Ok_inj in H. injection H as _ <-. split; [exact O0|]. intros d. cbn. lia. }
  do 3 inv_bind H. apply bind_ok_inv in H as (l1 & El & H). inv_bind H.
  assert (Oc : coins_ok [c]) by (destruct O as [_ F]; inversion F as [|? ? [Pc Vc] _]; now apply single_ok).
  apply Coins_Add_exact in El as [O1 A1]; [|assumption..]. apply IH in H as [Ol Al]; [|now apply coins_ok_tail in O | exact O1].
  split; [exact Ol|]. intros d. rewrite Al, A1, amount_single, amount_cons. lia.
Qed.

Lemma join_shares p cs fee n joined : pool_ok p -> 0 <= Amount (Balancer.TotalShares p) -> coins_ok cs -> Balancer.CalcJoinPoolShares p cs fee = Ok (n, joined) ->
  coins_ok joined /\ forall d, amount_of joined d <= amount_of cs d.
Proof.
  intros O Ps Oc H. unfold Balancer.CalcJoinPoolShares in H. inv_bind H. inv_bind H.
  assert (Many : (if negb (Nat.eqb (List.length cs) (Balancer.NumAssets p)) then Err "balancer pool only supports LP'ing with one asset or all assets in pool" else
    '(numShares, tokensJoined) <- Balancer.CalcJoinPoolNoSwapShares p cs fee ;;
    if Coins_IsAnyGT tokensJoined cs then Err "an error has occurred, more coins joined than tokens passed in" else
    if Coins_Equal tokensJoined cs then Ok (numShares, tokensJoined) else
    m <- Balancer.updateIntermediaryPoolAssetsLiquidity tokensJoined v ;;
    newTotalShares <- int_Add (Amount (Balancer.TotalShares p)) numShares ;;
    remainingTokensIn <- Coins_Sub cs tokensJoined ;;
    '(newNumShares, newLiquidity) <- Balancer.calcJoinSingleAssetTokensIn p remainingTokensIn newTotalShares m fee 0 [] ;;
    numShares' <- int_Add numShares newNumShares ;;
    tokensJoined' <- Coins_Add tokensJoined newLiquidity ;;
    if Coins_IsAnyGT tokensJoined' cs then Err "an error has occurred, more coins joined than token In" else
    Ok (numShares', tokensJoined')) = Ok (n, joined) -> coins_ok joined /\ forall d, amount_of joined d <= amount_of cs d).
  { clear H. intros H. destruct (negb _); [discriminate H|]. apply bind_ok_inv in H as ([n1 j1] & E1 & H). apply no_swap_shares in E1 as (_ & O1 & L1 & _); [|assumption..].
    destruct (Coins_IsAnyGT j1 cs); [discriminate H|]. destruct (Coins_Equal j1 cs); [apply Ok_inj in H; injection H as <- <-; auto|].
    inv_bind H. inv_bind H. apply bind_ok_inv in H as (rem & Er & H). apply Coins_Sub_exact in Er as [Or Ar]; [|assumption..].
    apply bind_ok_inv in H as ([n2 l2] & E4 & H). apply single_tokens in E4 as [O2 A2]; [|exact Or | split; constructor]. inv_bind H. apply bind_ok_inv in H as (j & Ej & H).
    apply Coins_Add_exact in Ej as [Oj Aj]; [|assumption..]. destruct (Coins_IsAnyGT j cs); [discriminate H|]. apply Ok_inj in H. injection H as <- <-.
    split; [exact Oj|]. intros d. rewrite Aj, A2, Ar. cbn. lia. }
  destruct cs as [|c [|c' cs]]; [exact (Many H) | | exact (Many H)]. inv_bind H. inv_bind H. apply Ok_inj in H. injection H as <- <-.
  split; [exact Oc | intros; lia].
Qed.

Lemma joined_by p n joined cs r p' : pool_inv p -> coins_ok joined -> (forall d, amount_of joined d <= amount_of cs d) ->
  Balancer.IncreaseLiquidity n joined p = (Ok r, p') -> joins p n joined cs p'.
Proof.
  intros I O Le H. destruct (balancer_increase n joined p r p' I O H) as (St & _ & _ & Sh & L).
  split; [exact St|]. split; [exact O|]. split; [exact Le|]. split; [exact Sh | exact L].
Qed.

Lemma balancer_join cs fee p n p' : pool_inv p -> 0 <= Amount (Balancer.TotalShares p) -> coins_ok cs -> Balancer.JoinPool cs fee p = (Ok n, p') ->
  exists joined, joins p n joined cs p'.
Proof.
  intros I Ps Oc H. unfold Balancer.JoinPool in H. apply mbind_ok_inv in H as (q & s & E & H). injection E as <- <-.
  apply mbind_ok_inv in H as ([m l] & s & E & H). apply lift_ok_inv in E as [E <-]. apply mbind_ok_inv in H as (u & s & Ei & H). injection H as <- <-.
  apply join_shares in E as [Oj Lj]; [|apply I | exact Ps | exact Oc]. exists l. exact (joined_by p m l cs u s I Oj Lj Ei).
Qed.

Lemma balancer_join_no_swap cs fee p n p' : pool_inv p -> 0 <= Amount (Balancer.TotalShares p) -> coins_ok cs -> Balancer.JoinPoolNoSwap cs fee p = (Ok n, p') ->
  0 <= n /\ exists joined, joins p n joined cs p' /\ forall d, liq p d <> 0 -> n * liq p d <= Amount (Balancer.TotalShares p) * amount_of joined d.
Proof.
  intros I Ps Oc H. unfold Balancer.JoinPoolNoSwap in H. apply mbind_ok_inv in H as (q & s & E & H). injection E as <- <-.
  apply mbind_ok_inv in H as ([m l] & s & E & H). apply lift_ok_inv in E as [E <-]. apply mbind_ok_inv in H as (u & s & Ei & H). injection H as <- <-.
  apply no_swap_shares in E as (Nn & Oj & Lj & Sh); [|apply I | exact Ps | exact Oc]. split; [exact Nn|]. exists l.
  split; [exact (joined_by p m l cs u s I Oj Lj Ei) | exact Sh].
Qed.

(** ** Exits *)

Lemma balancer_exits p n cs r p' : pool_inv p -> coins_ok cs -> (forall d, liq p d <> 0 -> amount_of cs d < liq p d) -> (forall d, amount_of cs d <= liq p d) ->
  Balancer.exitPool cs n p = (Ok r, p') -> exits p n cs p'.
Proof.
  intros I O Lt Le H. destruct (exit_pool cs n p r p' (proj1 I) O Lt H) as (O' & S' & Nn & Sh & L).
  split; [now apply balancer_steady|]. split; [exact O|]. split; [exact Le|]. split; [exact Nn|]. split; [exact Sh | exact L].
Qed.

Lemma balancer_exit k fee p cs p' : pool_inv p -> 0 <= k -> 0 <= fee < OneDec -> Balancer.ExitPool k fee p = (Ok cs, p') ->
  k < Amount (Balancer.TotalShares p) /\ exits p k cs p' /\
  forall d, amount_of cs d * OneDec * Amount (Balancer.TotalShares p) <= (OneDec - fee) * k * liq p d.
Proof.
  intros I Hk Hf H. pose proof I as [O _]. unfold Balancer.ExitPool in H. apply mbind_ok_inv in H as (q & s & E & H). injection E as <- <-.
  apply mbind_ok_inv in H as (l & s & E & H). apply lift_ok_inv in E as [E <-]. apply mbind_ok_inv in H as (u & s & Ee & H). injection H as <- <-.
  assert (El : Cfmm.GetTotalPoolLiquidity p = Ok (tokens p)).
  { pose proof Ee as X. unfold Balancer.exitPool in X. apply mbind_ok_inv in X as (q & s' & Eq & X). injection Eq as <- <-.
    apply mbind_ok_inv in X as (t & s' & Et & _). apply lift_ok_inv in Et as [Et _]. now rewrite <- (total_liquidity p t O Et). }
  apply (exit_bounds p (tokens p) El (po_tokens p O)) in E as (Oc & Ic & Ls & Up & _ & Lt); [|exact Hk | lia].
  split; [exact Ls|]. split; [|exact Up]. apply (balancer_exits p k l u s I Oc Lt); [|exact Ee]. intros d.
  destruct (Z.eq_dec (liq p d) 0) as [Z0|N]; [|apply Z.lt_le_incl, Lt, N]. rewrite amount_absent; [lia|]. intros X. apply Ic in X.
  apply (denom_amount (tokens p) d (po_tokens p O)) in X. contradiction.
Qed.

Lemma Pow_base y e r : Pow y e = Ok r -> 0 < y.
Proof. unfold Pow. destruct (Z.ltb_spec 0 y); [auto|discriminate]. Qed.

Lemma zsum_member l x : Forall (fun y => 0 < y) l -> In x l -> x <= zsum l.
Proof.
  induction 1 as [|y l Py F IH]; intros I; [destruct I|]. cbn [zsum fold_right]. fold (zsum l).
  assert (N : 0 <= zsum l) by (clear - F; induction F as [|z l Pz _ IH]; [cbn; lia|]; cbn [zsum fold_right]; fold (zsum l); lia).
  destruct I as [<- | I]; [lia|]. specialize (IH I). lia.
Qed.

(** The fee on a single-asset exit leaves a factor in (0, 1]. *)
Lemma fee_ratio_range nw fee r : 0 <= nw <= OneDec -> 0 <= fee < OneDec -> Balancer.feeRatio nw fee = Ok r -> 0 < r <= OneDec.
Proof.
  intros Hn Hf H. unfold Balancer.feeRatio in H. inv_bind H. apply dec_Sub_exact in E as ->. inv_bind H. apply dec_Sub_exact in H as ->.
  pose proof (dec_Mul_nonneg (OneDec - nw) fee v ltac:(lia) ltac:(lia) E) as Nn. apply dec_Mul_bound in E. pose proof OneDec_pos.
  assert (v <= fee) by (clear - E Hn Hf H; nia). lia.
Qed.

(** A single-asset exit leaves something of the asset: the curve has no point
    where all of it is gone. *)
Lemma single_exit_leaves bal nw sh out fee ef x : 0 < bal -> 0 <= out -> 0 <= nw <= OneDec -> 0 <= fee < OneDec ->
  Balancer.calcPoolSharesInGivenSingleAssetOut (bal * OneDec) nw sh (out * OneDec) fee ef = Ok x -> out < bal.
Proof.
  pose proof OneDec_pos as PO. intros Pb Po Hn Hf H. unfold Balancer.calcPoolSharesInGivenSingleAssetOut in H. inv_bind H. apply fee_ratio_range in E; [|exact Hn | exact Hf].
  inv_bind H. rename v0 into o. apply (dec_Quo_ge _ _ _ (out * OneDec)) in E0; [|nia | lia | nia]. inv_bind H. apply dec_Sub_exact in E1 as ->. inv_bind H.
  unfold Balancer.solveConstantFunctionInvariant in E1. inv_bind E1. inv_bind E1. inv_bind E1. apply Pow_base in E4.
  destruct (Z.lt_ge_cases out bal) as [|G]; [assumption|]. exfalso. apply (dec_Quo_le _ _ _ 0) in E3; [lia | nia | lia | nia].
Qed.

Lemma normalized_range p a r : pool_ok p -> In a (Balancer.PoolAssets p) -> Balancer.normalizedWeightOf p a = Ok r -> 0 <= r <= OneDec.
Proof.
  pose proof OneDec_pos as PO. intros O I H. unfold Balancer.normalizedWeightOf in H. inv_bind H. apply int_ToLegacyDec_exact in E as ->. inv_bind H. apply int_ToLegacyDec_exact in E as ->.
  pose proof (po_weights p O) as F. assert (Pw : 0 < Balancer.Weight a) by (rewrite List.Forall_forall in F; now apply F).
  assert (Le : Balancer.Weight a <= Balancer.TotalWeight p).
  { rewrite (po_total p O). apply zsum_member; [|unfold weights; now apply in_map]. unfold weights. now apply List.Forall_map. }
  split; [apply (dec_Quo_nonneg _ _ _) in H; nia|]. apply (dec_Quo_le _ _ _ OneDec) in H; nia.
Qed.

Lemma balancer_exit_swap c mx p n p' : pool_inv p -> 0 <= Amount (Balancer.TotalShares p) -> coins_ok [c] -> Balancer.ExitSwapExactAmountOut c mx p = (Ok n, p') ->
  0 < n <= mx /\ exits p n [c] p'.
Proof.
  intros I _ Oc H. pose proof I as [O [Fs _]]. unfold Balancer.ExitSwapExactAmountOut in H. apply mbind_ok_inv in H as (q & s & E & H). injection E as <- <-.
  apply mbind_ok_inv in H as ([i a] & s & E & H). apply lift_ok_inv in E as [E <-]. apply found_asset in E as [Ia Da].
  pose proof (lookup_token _ _ _ Ia) as In_a. destruct (asset_liq p a (po_tokens p O) In_a) as [La Pa].
  apply mbind_ok_inv in H as (bal & s & E & H). apply lift_ok_inv in E as [E <-]. apply int_ToLegacyDec_exact in E as ->.
  apply mbind_ok_inv in H as (nw & s & E & H). apply lift_ok_inv in E as [E <-]. apply (normalized_range p a nw O In_a) in E as Hn. clear E.
  apply mbind_ok_inv in H as (sh & s & E & H). apply lift_ok_inv in E as [_ <-].
  apply mbind_ok_inv in H as (o & s & E & H). apply lift_ok_inv in E as [E <-]. apply int_ToLegacyDec_exact in E as ->.
  apply mbind_ok_inv in H as (x & s & E & H). apply lift_ok_inv in E as [E <-].
  assert (Pc : 0 < Amount c) by (apply (in_amount_pos [c]); [exact Oc | now left]).
  apply single_exit_leaves in E; [|exact Pa | lia | exact Hn | exact Fs].
  apply mbind_ok_inv in H as (m & s & Em & H). apply lift_ok_inv in Em as [_ <-]. destruct (Z.ltb_spec 0 m) as [Pm|]; [|discriminate H]. cbn [negb] in H.
  destruct (Z.ltb_spec mx m) as [|Lm]; [discriminate H|]. apply mbind_ok_inv in H as (cs & s & Ec & H). apply lift_ok_inv in Ec as [Ec <-].
  rewrite MakeCoins_total in Ec by exact Oc. apply Ok_inj in Ec as <-. apply mbind_ok_inv in H as (u & s & Ee & H). injection H as <- <-.
  split; [lia|]. rewrite Da in La. assert (Lt : forall d, liq p d <> 0 -> amount_of [c] d < liq p d).
  { intros d N. rewrite amount_single. pose proof (coins_ok_nonneg (tokens p) d (po_tokens p O)). unfold liq in *. destruct (String.eqb_spec (Denom c) d) as [<-|]; lia. }
  apply (balancer_exits p m [c] u s I Oc Lt); [|exact Ee]. intros d. rewrite amount_single. pose proof (coins_ok_nonneg (tokens p) d (po_tokens p O)).
  unfold liq in *. destruct (String.eqb_spec (Denom c) d) as [<-|]; lia.
Qed.

Lemma balancer_token_in p d n fee a : pool_inv p -> Balancer.CalcTokenInShareAmountOut p d n fee = Ok a -> 0 < a /\ liq p d <> 0.
Proof.
  intros [O _] H. unfold Balancer.CalcTokenInShareAmountOut in H. apply bind_ok_inv in H as ([i b] & E & H). apply found_asset in E as [I <-].
  destruct (asset_liq p b (po_tokens p O) (lookup_token _ _ _ I)) as [L P]. do 6 inv_bind H. inv_bind H. destruct (Z.ltb_spec 0 v5); [|discriminate H].
  cbn [negb] in H. apply Ok_inj in H as <-. split; [assumption | lia].
Qed.

Lemma balancer_poke t p r p' : pool_inv p -> Balancer.PokePool t p = (Ok r, p') ->
  steady p p' /\ Amount (Balancer.TotalShares p') = Amount (Balancer.TotalShares p) /\ forall d, liq p' d = liq p d.
Proof.
  intros [O F] H. destruct (poke_ok t p r p' O H) as (O' & Et & Es & Ei & Ea & Ef & Ee).
  split; [|split; [congruence | intros d; unfold liq; now rewrite Et]]. unfold steady.
  cbn [GetId GetAddress GetSpreadFactor GetExitFee is_amount_out balancer_model pool_inv balancer_view]. unfold Balancer.GetAddress, Balancer.GetSpreadFactor, Balancer.GetExitFee in *.
  rewrite Ei, Ea, Ef, Ee. repeat split; try assumption; try apply O'; apply F.
Qed.

#[export] Instance balancer_spec : PoolModelSpec Balancer.Pool.
Proof.
  split; cbn [GetTotalShares GetTotalPoolLiquidity pm_view Balancer.view balancer_model pool_liq balancer_view GetSpreadFactor GetExitFee
    SwapOutAmtGivenIn SwapInAmtGivenOut JoinPool JoinPoolNoSwap ExitPool PokePool CalcTokenInShareAmountOut IncreaseLiquidity ExitSwapExactAmountOut is_weighted].
  - intros p d [O _]. apply coins_ok_nonneg, O.
  - intros p l [O _] H. rewrite (total_liquidity p l O H). split; [apply O | reflexivity].
  - intros p [_ F]. exact F.
  - intros t p r p' I _. now apply balancer_poke.
  - exact balancer_swap_out.
  - exact balancer_swap_in.
  - exact balancer_join.
  - exact balancer_join_no_swap.
  - exact balancer_exit.
  - exact balancer_token_in.
  - exact balancer_increase.
  - exact balancer_exit_swap.
Qed.

End Laws.
