(* ===== verification/GammPoolLaws.v ===== *)
(** * Both pool models implement the interface

    The laws of [GammPool] for stableswap pools and so for a pool of either model, and what follows from
    them for every pool: nobody gains by joining and leaving again. *)

From stdpp Require Import base relations.
From Stdlib Require Import ZArith Lia List Bool String.
From S2P Require Import Prelude GoBig BigInt BigDec SdkMath SdkMore BinarySearch Store GoState SdkCoins SdkPool Cfmm GammTypes GammBalancer GammStableswap.
From S2P Require Import GammBalancerOk GammStableswapOk GammStableswapSwap GammPool GammBalancerLaws.
Import ListNotations.
Import CFMMPool.
Open Scope Z_scope.

(** ** Stableswap pools *)

Section Laws.
Context {S : SdkMath} {SS : SdkMathSpec S} {D : SdkMore} {DS : SdkMoreSpec D} {DP : SdkPool} {DPS : SdkPoolSpec S D DP}
  {C : CoinsOps} {CS : CoinsSpec C} {CM : CoinsMore} {CMS : CoinsMoreSpec C CM} {T : GammText}.

#[export] Instance stable_view : PoolView Stableswap.Pool := {|
  pool_inv p := stable_ok p /\ fees_ok (Stableswap.GetSpreadFactor p) (Stableswap.GetExitFee p);
  pool_liq := sliq
|}.

Lemma stable_steady p p' : pool_inv p -> stable_ok p' -> same_stable p p' -> steady p p'.
Proof.
  intros [_ F] O (Ei & Ea & Ep & _). unfold steady. cbn [GetId GetAddress GetSpreadFactor GetExitFee is_amount_out stable_model pool_inv stable_view].
  unfold Stableswap.GetAddress, Stableswap.GetSpreadFactor, Stableswap.GetExitFee in *. rewrite Ei, Ea, Ep. repeat split; try assumption; try apply O; apply F.
Qed.

Lemma stable_swaps p tin tout p' : pool_inv p -> swapped p tin tout p' -> swaps p tin tout p'.
Proof.
  intros I (O' & S' & Sh & _ & L). split; [now apply stable_steady|]. split; [cbn; congruence | exact L].
Qed.

Lemma stable_swap_out tin dout fee p out p' : pool_inv p -> 0 <= fee < OneDec -> coins_ok [tin] -> ValidateDenom dout = true -> Denom tin <> dout ->
  Stableswap.SwapOutAmtGivenIn [tin] dout fee p = (Ok out, p') ->
  Denom out = dout /\ 0 < Amount out <= sliq p dout /\ (Amount out < sliq p dout -> swaps p tin out p').
Proof.
  intros I Hf Oi Vd Ne H. destruct (swap_out_curve p tin dout fee out p' (proj1 I) ltac:(lia) Oi Vd H) as (Sw & Do & _). split; [exact Do|].
  unfold Stableswap.SwapOutAmtGivenIn in H. apply mbind_ok_inv in H as (q & s & E & H). injection E as <- <-.
  apply mbind_ok_inv in H as (l & s & E & H). apply lift_ok_inv in E as [_ <-]. apply mbind_ok_inv in H as (u & s & E & H). apply lift_ok_inv in E as [_ <-].
  apply mbind_ok_inv in H as (o & s & E & H). apply lift_ok_inv in E as [E <-]. apply mbind_ok_inv in H as (os & s & Eo & H). apply mbind_ok_inv in H as (u' & s' & Eu & H).
  injection H as <- <-. apply calc_out in E as (fi & fo & w & _ & _ & _ & _ & _ & _ & _ & _ & _ & B & _); [|apply I | lia | apply (in_amount_pos [tin]); [exact Oi | now left]].
  split; [lia|]. intros _. now apply stable_swaps.
Qed.

Lemma stable_swap_in tout din fee p tin p' : pool_inv p -> 0 <= fee < OneDec -> coins_ok [tout] -> ValidateDenom din = true -> din <> Denom tout ->
  Amount tout < sliq p (Denom tout) -> Stableswap.SwapInAmtGivenOut [tout] din fee p = (Ok tin, p') ->
  Denom tin = din /\ 0 < Amount tin /\ swaps p tin tout p'.
Proof.
  intros I Hf Oo Vd Ne _ H. destruct (swap_in_curve p tout din fee tin p' (proj1 I) Hf Oo Vd H) as (Sw & Di & _). split; [exact Di|].
  unfold Stableswap.SwapInAmtGivenOut in H. apply mbind_ok_inv in H as (q & s & E & H). injection E as <- <-.
  apply mbind_ok_inv in H as (i & s & E & H). apply lift_ok_inv in E as [E <-]. do 3 apply mbind_ok_inv in H as (? & ? & _ & H). apply mbind_ok_inv in H as (u' & s' & Eu & H).
  injection H as <- <-. apply calc_in in E as (fi & fo & w & _ & _ & _ & _ & _ & _ & _ & _ & _ & B & _); [|apply I | exact Hf | apply (in_amount_pos [tout]); [exact Oo | now left]].
  split; [exact B | now apply stable_swaps].
Qed.

(** ** Joins and exits *)

Lemma stable_joined p n joined cs r p' : pool_inv p -> coins_ok joined -> (forall d, amount_of joined d <= amount_of cs d) ->
  Stableswap.updatePoolForJoin joined n p = (Ok r, p') -> joins p n joined cs p'.
Proof.
  intros I O Le H. destruct (update_for_join joined n p r p' (proj1 I) O H) as (O' & S' & Sh & L).
  split; [now apply stable_steady|]. split; [exact O|]. split; [exact Le|]. split; [exact Sh | exact L].
Qed.

(** What a join in the ratio of the pool takes. *)
Lemma ratio_join p cs n rem joined : stable_ok p -> 0 <= Amount (Stableswap.TotalShares p) -> coins_ok cs ->
  MaximalExactRatioJoin (V := Stableswap.view) p cs = Ok (n, rem) -> Coins_Sub cs rem = Ok joined ->
  0 <= n /\ coins_ok joined /\ (forall d, amount_of joined d <= amount_of cs d) /\
  forall d, amount_of cs d <> 0 -> n * sliq p d <= Amount (Stableswap.TotalShares p) * amount_of joined d.
Proof.
  intros O Ps Oc H E. apply (join_bounds (V := Stableswap.view) p (Stableswap.PoolLiquidity p) eq_refl (st_coins p O)) in H as (Or & Nn & Le & Sh & _); [|exact Oc | exact Ps].
  apply Coins_Sub_exact in E as [Oj Aj]; [|assumption..]. split; [exact Nn|]. split; [exact Oj|].
  split; [intros d; rewrite Aj; pose proof (coins_ok_nonneg rem d Or); lia|]. intros d Nz. rewrite Aj. now apply Sh.
Qed.

Lemma stable_join cs fee p n p' : pool_inv p -> 0 <= Amount (Stableswap.TotalShares p) -> coins_ok cs -> Stableswap.JoinPool cs fee p = (Ok n, p') ->
  exists joined, joins p n joined cs p'.
Proof.
  intros I Ps Oc H. unfold Stableswap.JoinPool in H. apply mbind_ok_inv in H as ([n0 j0] & s & E & H). injection H as <- <-.
  unfold Stableswap.joinPoolSharesInternal in E. apply mbind_ok_inv in E as (q & s1 & E0 & E). injection E0 as <- <-.
  destruct (negb (Coins_DenomsSubsetOf _ _)); [discriminate E|]. apply mbind_ok_inv in E as ([m joined] & s1 & Ej & E). apply lift_ok_inv in Ej as [Ej <-].
  apply mbind_ok_inv in E as (u & s1 & Eu & E). apply mbind_ok_inv in E as (q & s2 & Eq & E). injection Eq as <- <-.
  apply mbind_ok_inv in E as (u' & s2 & Ev & E). apply lift_ok_inv in Ev as [_ <-]. injection E as <- <- <-. exists joined.
  assert (Rj : ('(n, remCoins) <- MaximalExactRatioJoin (V := Stableswap.view) p cs ;; joined <- Coins_Sub cs remCoins ;; Ok (n, joined)) = Ok (m, joined) ->
    coins_ok joined /\ forall d, amount_of joined d <= amount_of cs d).
  { intros R. apply bind_ok_inv in R as ([n1 rem] & R1 & R). apply bind_ok_inv in R as (j & R2 & R). apply Ok_inj in R. injection R as <- <-.
    destruct (ratio_join p cs n1 rem j (proj1 I) Ps Oc R1 R2) as (_ & Oj & Lj & _). auto. }
  assert (J : coins_ok joined /\ forall d, amount_of joined d <= amount_of cs d).
  { destruct cs as [|c [|c' cs]].
    - destruct (negb _) in Ej; [discriminate Ej | exact (Rj Ej)].
    - destruct (1 <? Amount c); [apply bind_ok_inv in Ej as (n1 & _ & Ej); apply Ok_inj in Ej; injection Ej as _ <-; split; [exact Oc | intros; lia]|].
      destruct (negb _) in Ej; [discriminate Ej | exact (Rj Ej)].
    - destruct (negb _) in Ej; [discriminate Ej | exact (Rj Ej)]. }
  exact (stable_joined p m joined cs u s1 I (proj1 J) (proj2 J) Eu).
Qed.

Lemma stable_join_no_swap cs fee p n p' : pool_inv p -> 0 <= Amount (Stableswap.TotalShares p) -> coins_ok cs -> Stableswap.JoinPoolNoSwap cs fee p = (Ok n, p') ->
  0 <= n /\ exists joined, joins p n joined cs p' /\ forall d, sliq p d <> 0 -> n * sliq p d <= Amount (Stableswap.TotalShares p) * amount_of joined d.
Proof.
  intros I Ps Oc H. pose proof I as [O _]. unfold Stableswap.JoinPoolNoSwap in H. apply mbind_ok_inv in H as (q & s & E & H). injection E as <- <-.
  apply mbind_ok_inv in H as ([m joined] & s & E & H). apply lift_ok_inv in E as [E <-]. apply mbind_ok_inv in H as (u & s & Eu & H). injection H as <- <-.
  unfold Stableswap.CalcJoinPoolNoSwapShares in E. destruct (Nat.eqb_spec (List.length cs) (Stableswap.NumAssets p)) as [Len|]; [|discriminate E].
  destruct (Coins_DenomsSubsetOf cs (Stableswap.PoolLiquidity p)) eqn:Sub; [|discriminate E]. cbn [negb orb] in E.
  apply bind_ok_inv in E as ([n1 rem] & E1 & E). inv_bind E. destruct (Coins_IsAnyGT v cs); [discriminate E|]. apply Ok_inj in E. injection E as <- <-.
  destruct (ratio_join p cs n1 rem v O Ps Oc E1 E0) as (Nn & Oj & Lj & Sh). split; [exact Nn|]. exists v. split; [exact (stable_joined p n1 v cs u s I Oj Lj Eu)|].
  intros d Nz. apply Sh. apply (coins_cover cs (Stableswap.PoolLiquidity p)); [exact Oc | apply O | exact Len | | exact Nz].
  apply Coins_DenomsSubsetOf_spec; [exact Oc | apply O | exact Sub].
Qed.

Lemma stable_exit k fee p cs p' : pool_inv p -> 0 <= k -> 0 <= fee < OneDec -> Stableswap.ExitPool k fee p = (Ok cs, p') ->
  k < Amount (Stableswap.TotalShares p) /\ exits p k cs p' /\
  forall d, amount_of cs d * OneDec * Amount (Stableswap.TotalShares p) <= (OneDec - fee) * k * sliq p d.
Proof.
  intros I Hk Hf H. pose proof I as [O _]. unfold Stableswap.ExitPool in H. apply mbind_ok_inv in H as (q & s & E & H). injection E as <- <-.
  apply mbind_ok_inv in H as (l & s & E & H). apply lift_ok_inv in E as [E <-]. apply mbind_ok_inv in H as (l2 & s & X & H). apply lift_ok_inv in X as [_ <-].
  apply mbind_ok_inv in H as (u0 & s & X & H). apply lift_ok_inv in X as [_ <-]. apply mbind_ok_inv in H as (u & s & Ee & H). injection H as <- <-.
  apply (exit_bounds (V := Stableswap.view) p (Stableswap.PoolLiquidity p) eq_refl (st_coins p O)) in E as (Oc & Ic & Ls & Up & _ & Lt); [|exact Hk | lia].
  split; [exact Ls|]. split; [|exact Up]. destruct (update_for_exit l k p u s O Oc Ee) as (O' & S' & Sh & L).
  split; [now apply stable_steady|]. split; [exact Oc|]. split; [|split; [cbn in Ls |- *; lia | split; [exact Sh | exact L]]]. intros d.
  destruct (Z.eq_dec (sliq p d) 0) as [Z0|N]; [|apply Z.lt_le_incl, Lt, N]. unfold pool_liq, stable_view. rewrite amount_absent; [lia|]. intros X. apply Ic in X.
  apply (denom_amount (Stableswap.PoolLiquidity p) d (st_coins p O)) in X. contradiction.
Qed.

#[export] Instance stable_spec : PoolModelSpec Stableswap.Pool.
Proof.
  split; cbn [GetTotalShares GetTotalPoolLiquidity pm_view Stableswap.view stable_model pool_liq stable_view GetSpreadFactor GetExitFee
    SwapOutAmtGivenIn SwapInAmtGivenOut JoinPool JoinPoolNoSwap ExitPool PokePool CalcTokenInShareAmountOut IncreaseLiquidity ExitSwapExactAmountOut is_weighted].
  - intros p d [O _]. apply coins_ok_nonneg, O.
  - intros p l [O _] H. apply Ok_inj in H as <-. split; [apply O | reflexivity].
  - intros p [_ F]. exact F.
  - discriminate.
  - exact stable_swap_out.
  - exact stable_swap_in.
  - exact stable_join.
  - exact stable_join_no_swap.
  - exact stable_exit.
  - discriminate.
  - intros n cs p r p' _ _ H. discriminate H.
  - intros c mx p n p' _ _ _ H. discriminate H.
Qed.

End Laws.

(** ** Either model *)

Section Models.
Context {S : SdkMath} {SS : SdkMathSpec S} {D : SdkMore} {DS : SdkMoreSpec D} {DP : SdkPool} {DPS : SdkPoolSpec S D DP}
  {C : CoinsOps} {CS : CoinsSpec C} {CM : CoinsMore} {CMS : CoinsMoreSpec C CM} {T : GammText}.

#[export] Instance pool_view : PoolView PoolI := {|
  pool_inv := of_pool pool_inv pool_inv;
  pool_liq := of_pool pool_liq pool_liq
|}.

Lemma on_pool_inv {A} (b : M Balancer.Pool A) s p (r : Res A) p' : on_pool b s p = (r, p') ->
  match p with
  | PBalancer q => exists q', b q = (r, q') /\ p' = PBalancer q'
  | PStable q => exists q', s q = (r, q') /\ p' = PStable q'
  end.
Proof.
  destruct p as [q|q]; cbn [on_pool]; [destruct (b q) as [r0 q0] | destruct (s q) as [r0 q0]]; intros H; injection H as <- <-; eauto.
Qed.

(** A law of both models is a law of their sum. *)
Ltac by_model p H :=
  apply on_pool_inv in H; destruct p as [p|p]; destruct H as (q & H & ->).

#[export] Instance pool_spec : PoolModelSpec PoolI.
Proof.
  split.
  - intros [p|p] d; exact (liq_nonneg p d).
  - intros [p|p] l; exact (liq_listed p l).
  - intros [p|p]; exact (fees_inv p).
  - intros t p r p' I W H. by_model p H; exact (poke_law t p r q I W H).
  - intros tin dout fee p out p' I Hf Oi Vd Ne H. by_model p H; exact (swap_out_law tin dout fee p out q I Hf Oi Vd Ne H).
  - intros tout din fee p tin p' I Hf Oo Vd Ne Lt H. by_model p H; exact (swap_in_law tout din fee p tin q I Hf Oo Vd Ne Lt H).
  - intros cs fee p n p' I Ps Oc H. by_model p H; exact (join_law cs fee p n q I Ps Oc H).
  - intros cs fee p n p' I Ps Oc H. by_model p H; exact (join_no_swap_law cs fee p n q I Ps Oc H).
  - intros k fee p cs p' I Hk Hf H. by_model p H; exact (exit_law k fee p cs q I Hk Hf H).
  - intros [p|p] d n fee a I H; exact (calc_token_in_law p d n fee a I H).
  - intros n cs p r p' I Oc H. by_model p H; exact (increase_law n cs p r q I Oc H).
  - intros c mx p n p' I Ps Oc H. by_model p H; exact (exit_swap_law c mx p n q I Ps Oc H).
Qed.

(** ** Pools stay in order *)

(** Pools come from their constructors, with the parameters that the messages
    validate. *)
Inductive created : PoolI -> Prop :=
| created_balancer id params assets gov t p : List.Forall (fun a => ValidateDenom (Balancer.asset_denom a) = true) assets ->
    Balancer.NewBalancerPool id params assets gov t = Ok p -> created (PBalancer p)
| created_stable id params l sf ctl gov p : coins_ok l -> Stableswap.Validate params = Ok tt ->
    Stableswap.NewStableswapPool id params l sf ctl gov = Ok p -> created (PStable p).

Inductive pool_step (p p' : PoolI) : Prop :=
| ps_poke t r : is_weighted p = true -> PokePool t p = (Ok r, p') -> pool_step p p'
| ps_swap_out tin dout fee out : 0 <= fee < OneDec -> coins_ok [tin] -> ValidateDenom dout = true -> Denom tin <> dout ->
    SwapOutAmtGivenIn [tin] dout fee p = (Ok out, p') -> pool_step p p'
| ps_swap_in tout din fee tin : 0 <= fee < OneDec -> coins_ok [tout] -> ValidateDenom din = true -> din <> Denom tout ->
    SwapInAmtGivenOut [tout] din fee p = (Ok tin, p') -> pool_step p p'
| ps_join cs fee n : coins_ok cs -> JoinPool cs fee p = (Ok n, p') -> 0 <= n -> pool_step p p'
| ps_join_no_swap cs fee n : coins_ok cs -> JoinPoolNoSwap cs fee p = (Ok n, p') -> pool_step p p'
| ps_join_max d n a : on_pool (Balancer.JoinPoolTokenInMaxShareAmountOut d n) not_implemented p = (Ok a, p') -> pool_step p p'
| ps_increase cs n r : coins_ok cs -> 0 <= n -> IncreaseLiquidity n cs p = (Ok r, p') -> pool_step p p'
| ps_exit k fee cs : 0 <= k -> 0 <= fee < OneDec -> ExitPool k fee p = (Ok cs, p') -> pool_step p p'
| ps_exit_swap c mx n : coins_ok [c] -> ExitSwapExactAmountOut c mx p = (Ok n, p') -> pool_step p p'
| ps_factors sf sender r : on_pool not_implemented (Stableswap.SetScalingFactors sf sender) p = (Ok r, p') -> pool_step p p'.

(** A swap keeps a pool in order, also one that pays all of an asset: then the
    old balance of that asset stays recorded. *)
Lemma applied_inv tin tout p r p' : pool_inv p -> Balancer.applySwap [tin] [tout] p = (Ok r, p') -> pool_inv p' /\ Balancer.TotalShares p' = Balancer.TotalShares p.
Proof.
  intros I H. unfold Balancer.applySwap in H. apply mbind_ok_inv in H as (q & s & E & H). injection E as <- <-.
  apply mbind_ok_inv in H as ([[[ti to] a] b] & s & E & H). apply lift_ok_inv in E as [_ <-].
  do 2 (apply mbind_ok_inv in H as (? & s & E & H); apply lift_ok_inv in E as [_ <-]). apply mbind_ok_inv in H as (cs & s & E & H). apply lift_ok_inv in E as [_ <-].
  destruct (GammBalancerOk.update_balances cs p r p' (proj1 I) H) as (O' & S' & Sh & _). split; [exact (proj1 (balancer_steady p p' I O' S')) | exact Sh].
Qed.

Lemma swapped_out_inv tin dout fee p out p' : pool_inv p -> 0 <= fee < OneDec -> coins_ok [tin] -> ValidateDenom dout = true ->
  SwapOutAmtGivenIn [tin] dout fee p = (Ok out, p') -> pool_inv p' /\ GetTotalShares p' = GetTotalShares p.
Proof.
  intros I Hf Oi Vd H. by_model p H.
  - cbn [SwapOutAmtGivenIn balancer_model] in H. unfold Balancer.SwapOutAmtGivenIn in H. apply mbind_ok_inv in H as (q0 & s & E & H). injection E as <- <-.
    apply mbind_ok_inv in H as (o & s & E & H). apply lift_ok_inv in E as [_ <-]. apply mbind_ok_inv in H as (u & s & E & H). injection H as _ <-.
    destruct (applied_inv tin o p u s I E) as [I' Sh]. split; [exact I' | cbn; now rewrite Sh].
  - destruct (swap_out_curve p tin dout fee out q (proj1 I) ltac:(lia) Oi Vd H) as (Sw & _). destruct (stable_swaps p tin out q I Sw) as ((I' & _) & Sh & _). now split.
Qed.

Lemma swapped_in_inv tout din fee p tin p' : pool_inv p -> 0 <= fee < OneDec -> coins_ok [tout] -> ValidateDenom din = true ->
  SwapInAmtGivenOut [tout] din fee p = (Ok tin, p') -> pool_inv p' /\ GetTotalShares p' = GetTotalShares p.
Proof.
  intros I Hf Oo Vd H. by_model p H.
  - cbn [SwapInAmtGivenOut balancer_model] in H. unfold Balancer.SwapInAmtGivenOut in H. apply mbind_ok_inv in H as (q0 & s & E & H). injection E as <- <-.
    apply mbind_ok_inv in H as (o & s & E & H). apply lift_ok_inv in E as [_ <-]. apply mbind_ok_inv in H as (u & s & E & H). injection H as _ <-.
    destruct (applied_inv o tout p u s I E) as [I' Sh]. split; [exact I' | cbn; now rewrite Sh].
  - destruct (swap_in_curve p tout din fee tin q (proj1 I) Hf Oo Vd H) as (Sw & _). destruct (stable_swaps p tin tout q I Sw) as ((I' & _) & Sh & _). now split.
Qed.

Lemma join_max_inv d n p a p' : pool_inv p -> Balancer.JoinPoolTokenInMaxShareAmountOut d n p = (Ok a, p') -> pool_inv p' /\ Balancer.TotalShares p' = Balancer.TotalShares p.
Proof.
  intros I H. unfold Balancer.JoinPoolTokenInMaxShareAmountOut in H. apply mbind_ok_inv in H as (q & s & E & H). injection E as <- <-.
  apply mbind_ok_inv in H as ([i b] & s & E & H). apply lift_ok_inv in E as [_ <-]. do 6 (apply mbind_ok_inv in H as (? & s & E & H); apply lift_ok_inv in E as [_ <-]).
  destruct (negb _); [discriminate H|]. apply mbind_ok_inv in H as (amt & s & E & H). apply lift_ok_inv in E as [_ <-]. apply mbind_ok_inv in H as (u & s & E & H). injection H as _ <-.
  destruct (GammBalancerOk.update_balance _ p u s (proj1 I) E) as (O' & S' & Sh & _). split; [exact (proj1 (balancer_steady p s I O' S')) | exact Sh].
Qed.

(** The shape of a pool: coins sorted by denomination, without repetitions and
    positive; positive weights that add up to the total weight, or a positive
    scaling factor of 63 bits for every asset; the pool's own share denomination,
    not a negative number of shares; fees below one. *)
Definition well_formed (p : PoolI) : Prop :=
  match p with
  | PBalancer q =>
      coins_ok (map Balancer.Token (Balancer.PoolAssets q)) /\ List.Forall (fun a => 0 < Balancer.Weight a) (Balancer.PoolAssets q) /\
      Balancer.TotalWeight q = zsum (map Balancer.Weight (Balancer.PoolAssets q)) /\
      Denom (Balancer.TotalShares q) = GetPoolShareDenom (Balancer.Id q) /\ 0 <= Amount (Balancer.TotalShares q)
  | PStable q =>
      coins_ok (Stableswap.PoolLiquidity q) /\ List.length (Stableswap.ScalingFactors q) = List.length (Stableswap.PoolLiquidity q) /\
      List.Forall (fun f => 0 < f < 2 ^ 63) (Stableswap.ScalingFactors q) /\
      Denom (Stableswap.TotalShares q) = GetPoolShareDenom (Stableswap.Id q) /\ 0 <= Amount (Stableswap.TotalShares q)
  end /\ fees_ok (GetSpreadFactor p) (GetExitFee p).

Lemma created_pool_inv p : created p -> pool_inv p /\ 0 <= GetTotalShares p.
Proof.
  destruct 1 as [id params assets gov t p Vd H | id params l sf ctl gov p Ol Vp H].
  - destruct (GammBalancerOk.new_pool id params assets gov t p H Vd) as (O & Sh & _ & _ & _ & Fs & Fe & _). split; [exact (conj O (conj Fs Fe))|].
    cbn. rewrite Sh. apply Z.leb_le. vm_compute. reflexivity.
  - destruct (GammStableswapOk.new_stable id params l sf ctl gov p H Ol) as (O & Sh & _ & _ & _ & Ep).
    assert (F : fees_ok (Stableswap.SwapFee params) (Stableswap.ExitFee params)).
    { unfold Stableswap.Validate in Vp. unfold fees_ok. destruct (Z.ltb_spec (Stableswap.ExitFee params) 0); [discriminate Vp|].
      destruct (Z.leb_spec OneDec (Stableswap.ExitFee params)); [discriminate Vp|]. destruct (Z.ltb_spec (Stableswap.SwapFee params) 0); [discriminate Vp|].
      destruct (Z.leb_spec OneDec (Stableswap.SwapFee params)); [discriminate Vp | lia]. }
    split; [split; [exact O|]; unfold Stableswap.GetSpreadFactor, Stableswap.GetExitFee; now rewrite Ep|]. cbn. rewrite Sh. apply Z.leb_le. vm_compute. reflexivity.
Qed.

Lemma step_inv p p' : pool_inv p -> 0 <= GetTotalShares p -> pool_step p p' -> pool_inv p' /\ 0 <= GetTotalShares p'.
Proof.
  intros I Nn H. destruct H as [t r W H | tin dout fee out Hf Oi Vd Ne H | tout din fee tin Hf Oo Vd Ne H | cs fee n Oc H Pn | cs fee n Oc H | d n a H | cs n r Oc Pn H
    | k fee cs Hk Hf H | c mx n Oc H | sf sender r H].
  - apply poke_law in H as ((I' & _) & Sh & _); [|assumption..]. split; [exact I' | lia].
  - apply swapped_out_inv in H as [I' Sh]; [|assumption..]. split; [exact I' | lia].
  - apply swapped_in_inv in H as [I' Sh]; [|assumption..]. split; [exact I' | lia].
  - apply join_law in H as (j & ((I' & _) & _ & _ & Sh & _)); [|assumption..]. split; [exact I' | lia].
  - apply join_no_swap_law in H as (Pn & j & ((I' & _) & _ & _ & Sh & _) & _); [|assumption..]. split; [exact I' | lia].
  - by_model p H; [|discriminate H]. apply join_max_inv in H as [I' Sh]; [|exact I]. split; [exact I' | cbn in *; now rewrite Sh].
  - apply increase_law in H as ((I' & _) & _ & _ & Sh & _); [|assumption..]. split; [exact I' | lia].
  - apply exit_law in H as (_ & ((I' & _) & _ & _ & Nn' & _) & _); [|assumption..]. split; [exact I' | exact Nn'].
  - apply exit_swap_law in H as (_ & ((I' & _) & _ & _ & Nn' & _)); [|assumption..]. split; [exact I' | exact Nn'].
  - by_model p H; [discriminate H|]. destruct I as [O F]. destruct (GammStableswapOk.set_factors_ok sf sender p r q O H) as (O' & _ & _ & _ & Ep & Es & _).
    split; [split; [exact O'|]; unfold Stableswap.GetSpreadFactor, Stableswap.GetExitFee in *; now rewrite Ep | cbn in *; now rewrite Es].
Qed.

Lemma inv_well_formed p : pool_inv p -> 0 <= GetTotalShares p -> well_formed p.
Proof.
  destruct p as [q|q]; intros [O F] Nn; (split; [|exact F]); destruct O; repeat split; assumption || idtac.
  all: try (destruct po_tokens; assumption). all: destruct st_coins; assumption.
Qed.

(** C25: A pool of either model that its constructor built stays well formed
    through every operation of the pool that succeeds: pokes, swaps with a spread
    factor below one and two different denominations, joins (of a number of
    shares that is not negative), exits (likewise) and new scaling factors. *)
Theorem pools_well_formed p p' : created p -> rtc pool_step p p' -> well_formed p'.
Proof.
  intros Cr R. destruct (created_pool_inv p Cr) as [I Nn]. clear Cr. revert I Nn. induction R as [p|p q r H _ IH]; intros I Nn; [now apply inv_well_formed|].
  destruct (step_inv p q I Nn H) as [I' Nn']. exact (IH I' Nn').
Qed.

End Models.

(** ** Joining and leaving *)

Section Fair.
Context {C : CoinsOps} {P : Type} {PM : PoolModel P} {V : PoolView P} {PS : PoolModelSpec P}.

Lemma fair_share l s j n c one fee : 0 <= s -> 0 <= n -> 0 < s + n -> 0 <= fee < one -> 0 <= l -> 0 <= j -> n * l <= s * j ->
  c * one * (s + n) <= (one - fee) * n * (l + j) -> c <= j.
Proof.
  intros Ps Pn Psn Hf Pl Pj Hj Hc. destruct (Z.le_gt_cases c j) as [|G]; [assumption|]. exfalso.
  assert (A : (one - fee) * (n * (l + j)) <= one * (n * (l + j))) by (apply Z.mul_le_mono_nonneg_r; nia).
  assert (B : n * (l + j) <= (s + n) * j) by nia. assert (E : (j + 1) * (s + n) <= c * (s + n)) by (apply Z.mul_le_mono_nonneg_r; lia).
  assert (F : one * ((j + 1) * (s + n)) <= one * (c * (s + n))) by (apply Z.mul_le_mono_nonneg_l; lia).
  assert (Fin : one * (n * (l + j)) <= one * ((s + n) * j)) by (apply Z.mul_le_mono_nonneg_l; lia). nia.
Qed.

Lemma join_exit_fair cs spread p n p1 k fee out p2 : pool_inv p -> 0 <= GetTotalShares p -> coins_ok cs -> 0 <= fee < OneDec -> 0 <= k <= n ->
  JoinPoolNoSwap cs spread p = (Ok n, p1) -> ExitPool k fee p1 = (Ok out, p2) -> forall d, pool_liq p d <> 0 -> amount_of out d <= amount_of cs d.
Proof.
  intros I Ps Oc Hf Hk HJ HE d Nz. apply join_no_swap_law in HJ as (Nn & j & ((I1 & _) & Oj & Lj & Sh & Lq) & Fj); [|assumption..].
  apply exit_law in HE as (Lk & _ & Up); [|exact I1 | lia | exact Hf]. specialize (Up d). rewrite Sh in Lk. rewrite Sh, Lq in Up. specialize (Fj d Nz). specialize (Lj d).
  pose proof (coins_ok_nonneg j d Oj) as Pj. pose proof (liq_nonneg p d I) as Pl.
  enough (amount_of out d <= amount_of j d) by lia.
  apply (fair_share (pool_liq p d) (GetTotalShares p) (amount_of j d) n (amount_of out d) OneDec fee); try assumption; [lia|].
  assert ((OneDec - fee) * k * (pool_liq p d + amount_of j d) <= (OneDec - fee) * n * (pool_liq p d + amount_of j d)); [|lia].
  apply Z.mul_le_mono_nonneg_r; [lia|]. apply Z.mul_le_mono_nonneg_l; lia.
Qed.

End Fair.
