(* ===== verification/Gamm.v ===== *)
(** * The keeper of [x/gamm] ([x/gamm/keeper])

    Pools in the store, the record of the total liquidity, and the operations of
    liquidity providers and traders.  The keeper is written against the
    interface [PoolModel].  The bank and the hooks act on a state [Ext] of their
    own.  In Go a pool is a pointer that the pool's methods update; here an
    operation that takes a pool returns the updated one.  Events, logs and the
    metadata of share denominations are left out; the block time is an argument.
    A panic that a deferred function recovers becomes an error. *)

From Stdlib Require Import ZArith Lia List Bool String Ascii.
From S2P Require Import Twap.
From S2P Require Import Prelude GoBig BigInt BigDec SdkMath SdkMore Store SumTree GoState SdkCoins SdkPool Cfmm GammTypes GammStableswap GammPool.
Import ListNotations.
Import CFMMPool.
Open Scope Z_scope.

(** [string(iterator.Key())] *)
Fixpoint key_string (a : bytes) : string :=
  match a with [] => EmptyString | b :: r => String (ascii_of_nat (Z.to_nat b)) (key_string r) end.

(** ** Hooks ([types/hooks.go]) *)

Record GammHooks (Ext : Type) : Type := {
  AfterCFMMPoolCreated : Address -> Z -> M Ext unit;
  AfterJoinPool : Address -> Z -> list Coin -> Z -> M Ext unit;
  AfterExitPool : Address -> Z -> Z -> list Coin -> M Ext unit;
  AfterCFMMSwap : Address -> Z -> list Coin -> list Coin -> M Ext unit
}.
Arguments AfterCFMMPoolCreated {Ext}.
Arguments AfterJoinPool {Ext}.
Arguments AfterExitPool {Ext}.
Arguments AfterCFMMSwap {Ext}.

Definition MultiGammHooks {Ext} (h : list (GammHooks Ext)) : GammHooks Ext := {|
  AfterCFMMPoolCreated a id := for_each h (fun h => AfterCFMMPoolCreated h a id);
  AfterJoinPool a id cs n := for_each h (fun h => AfterJoinPool h a id cs n);
  AfterExitPool a id n cs := for_each h (fun h => AfterExitPool h a id n cs);
  AfterCFMMSwap a id ins outs := for_each h (fun h => AfterCFMMSwap h a id ins outs)
|}.

(** The bank keeper and the hooks. *)
Class GammKeepers : Type := {
  Ext : Type;
  GetAllBalances : Address -> Ext -> list Coin;
  SendCoins : Address -> Address -> list Coin -> M Ext unit;
  MintCoins : string -> list Coin -> M Ext unit;
  BurnCoins : string -> list Coin -> M Ext unit;
  SendCoinsFromModuleToAccount : string -> Address -> list Coin -> M Ext unit;
  SendCoinsFromAccountToModule : Address -> string -> list Coin -> M Ext unit;
  gamm_hooks : GammHooks Ext
}.

(** What is stored: a pool, or the total liquidity of a denomination. *)
Inductive Stored (P : Type) : Type :=
| VPool (p : P)
| VAmount (n : Z).
Arguments VPool {P}.
Arguments VAmount {P}.

(** [defer func() { if r := recover() ... }] *)
Definition recovering {X A} (name : string) (c : M X A) : M X A := fun s =>
  match c s with
  | (Panic m, s') => (Err ("function " ++ name ++ " failed due to internal reason: " ++ m), s')
  | r => r
  end.

Section Gamm.
Context {S : SdkMath} {D : SdkMore} {DP : SdkPool} {C : CoinsOps} {CM : CoinsMore} {B : BigEndian} {E : PrefixEnd} {GK : GammKeepers}.
Context {P : Type} {PM : PoolModel P} {KV : KVStore (Stored P)}.

Record Keeper : Type := { g_store : St; g_ext : Ext }.

Definition set_store (f : St -> St) : M Keeper unit := modify (fun k => {| g_store := f (g_store k); g_ext := g_ext k |}).
Definition on_ext {A} (c : M Ext A) : M Keeper A := zoom g_ext (fun e k => {| g_store := g_store k; g_ext := e |}) c.

(** Running an operation of a pool that is in memory. *)
Definition with_pool {A} (p : P) (c : M P A) : M Keeper (A * P) := fun k =>
  match c p with
  | (Ok a, p') => (Ok (a, p'), k)
  | (Err e, _) => (Err e, k)
  | (Panic m, _) => (Panic m, k)
  end.

(** ** Pools ([keeper/pool.go]) *)

Definition poke (blockTime : Z) (p : P) : M Keeper P :=
  if is_weighted p then '(_, p') <~ with_pool p (PokePool blockTime) ;; ret p' else ret p.

Definition GetPoolAndPoke (blockTime poolId : Z) : M Keeper P :=
  k <~ get ;;
  match st_get (g_store k) (GetKeyPrefixPools poolId) with
  | None => fail "pool does not exist"
  | Some (VPool p) => poke blockTime p
  | Some (VAmount _) => fail "unmarshal"
  end.

Definition GetPool (blockTime poolId : Z) : M Keeper P := GetPoolAndPoke blockTime poolId.

Definition GetCFMMPool (blockTime poolId : Z) : M Keeper P :=
  pool <~ GetPoolAndPoke blockTime poolId ;; if negb (IsActive pool) then fail "swap on inactive pool" else ret pool.

Fixpoint pokeAll (blockTime : Z) (l : list (bytes * Stored P)) : M Keeper (list P) :=
  match l with
  | [] => ret []
  | (_, VPool p) :: rest => p' <~ poke blockTime p ;; ps <~ pokeAll blockTime rest ;; ret (p' :: ps)
  | (_, VAmount _) :: _ => fail "unmarshal"
  end.

Definition GetPoolsAndPoke (blockTime : Z) : M Keeper (list P) :=
  k <~ get ;; pokeAll blockTime (st_iter (g_store k) (Some KeyPrefixPools) (PrefixEndBytes KeyPrefixPools)).

Definition setPool (pool : P) : M Keeper unit := set_store (fun st => st_set st (GetKeyPrefixPools (GetId pool)) (VPool pool)).

Definition DeletePool (poolId : Z) : M Keeper unit :=
  k <~ get ;;
  match st_get (g_store k) (GetKeyPrefixPools poolId) with
  | None => fail "pool does not exist"
  | Some _ => set_store (fun st => st_delete st (GetKeyPrefixPools poolId))
  end.

Definition GetPoolDenoms (blockTime poolId : Z) : M Keeper (list string) :=
  pool <~ GetPoolAndPoke blockTime poolId ;; l <~ lift (GetTotalPoolLiquidity pool) ;; ret (map Denom l).

Definition gamm_GetTotalPoolLiquidity (blockTime poolId : Z) : M Keeper (list Coin) :=
  pool <~ GetCFMMPool blockTime poolId ;; lift (GetTotalPoolLiquidity pool).

Definition GetTotalPoolShares (blockTime poolId : Z) : M Keeper Z :=
  pool <~ GetCFMMPool blockTime poolId ;; ret (GetTotalShares pool).

(** ** The record of the total liquidity ([keeper/total_liquidity.go]) *)

Definition setDenomLiquidity (denom : string) (amount : Z) : M Keeper unit := set_store (fun st => st_set st (GetDenomPrefix denom) (VAmount amount)).

Definition GetDenomLiquidity (denom : string) : M Keeper Z :=
  k <~ get ;;
  match st_get (g_store k) (GetDenomPrefix denom) with
  | None => ret 0
  | Some (VAmount n) => ret n
  | Some (VPool _) => panic "unmarshal"
  end.

Definition setTotalLiquidity (coins : list Coin) : M Keeper unit := for_each coins (fun c => setDenomLiquidity (Denom c) (Amount c)).

Definition RecordTotalLiquidityIncrease (coins : list Coin) : M Keeper unit :=
  for_each coins (fun c => amount <~ GetDenomLiquidity (Denom c) ;; a <~ lift (int_Add amount (Amount c)) ;; setDenomLiquidity (Denom c) a).

Definition RecordTotalLiquidityDecrease (coins : list Coin) : M Keeper unit :=
  for_each coins (fun c => amount <~ GetDenomLiquidity (Denom c) ;; a <~ lift (int_Sub amount (Amount c)) ;; setDenomLiquidity (Denom c) a).

(** The callback of [GetTotalLiquidity] over the iterator of the prefix store. *)
Fixpoint sumDenoms (l : list (bytes * Stored P)) (coins : list Coin) : Res (list Coin) :=
  match l with
  | [] => Ok coins
  | (key, VAmount n) :: rest =>
      c <- NewCoin (key_string key) n ;; cs <- Coins_Add coins [c] ;; sumDenoms rest cs
  | (_, VPool _) :: _ => Panic "unmarshal"
  end.
Definition GetTotalLiquidity : M Keeper (list Coin) :=
  k <~ get ;; lift (sumDenoms (st_iter (st_prefix (g_store k) KeyTotalLiquidity) None None) []).

(** ** Shares ([keeper/share.go]) *)

Definition MintPoolShareToAccount (pool : P) (addr : Address) (amount : Z) : M Keeper unit :=
  c <~ lift (NewCoin (GetPoolShareDenom (GetId pool)) amount) ;;
  amt <~ lift (MakeCoins [c]) ;;
  on_ext (MintCoins GammModuleName amt) ~;;
  on_ext (SendCoinsFromModuleToAccount GammModuleName addr amt).

Definition BurnPoolShareFromAccount (pool : P) (addr : Address) (amount : Z) : M Keeper unit :=
  c <~ lift (NewCoin (GetPoolShareDenom (GetId pool)) amount) ;;
  on_ext (SendCoinsFromAccountToModule addr GammModuleName [c]) ~;;
  on_ext (BurnCoins GammModuleName [c]).

Definition applyJoinPoolStateChange (pool : P) (joiner : Address) (numShares : Z) (joinCoins : list Coin) : M Keeper unit :=
  addr <~ lift (GetAddress pool) ;;
  on_ext (SendCoins joiner addr joinCoins) ~;;
  MintPoolShareToAccount pool joiner numShares ~;;
  setPool pool ~;;
  on_ext (AfterJoinPool gamm_hooks joiner (GetId pool) joinCoins numShares) ~;;
  RecordTotalLiquidityIncrease joinCoins.

Definition applyExitPoolStateChange (pool : P) (exiter : Address) (numShares : Z) (exitCoins : list Coin) : M Keeper unit :=
  addr <~ lift (GetAddress pool) ;;
  on_ext (SendCoins addr exiter exitCoins) ~;;
  BurnPoolShareFromAccount pool exiter numShares ~;;
  setPool pool ~;;
  on_ext (AfterExitPool gamm_hooks exiter (GetId pool) numShares exitCoins) ~;;
  RecordTotalLiquidityDecrease exitCoins.

(** ** Liquidity providers ([keeper/pool_service.go]) *)

Definition InitializePool (pool : P) (sender : Address) : M Keeper unit :=
  if negb (GetExitFee pool =? 0) then fail "can not create pool with non zero exit fee" else
  MintPoolShareToAccount pool sender (GetTotalShares pool) ~;;
  setPool pool ~;;
  on_ext (AfterCFMMPoolCreated gamm_hooks sender (GetId pool)) ~;;
  l <~ lift (GetTotalPoolLiquidity pool) ;;
  RecordTotalLiquidityIncrease l.

Fixpoint neededLoop (shareRatio : Z) (poolLiquidity neededLpLiquidity : list Coin) : Res (list Coin) :=
  match poolLiquidity with
  | [] => Ok neededLpLiquidity
  | coin :: rest =>
      d <- int_ToLegacyDec (Amount coin) ;;
      m <- dec_Mul d shareRatio ;;
      ce <- dec_Ceil m ;;
      neededAmt <- dec_RoundInt ce ;;
      if neededAmt <=? 0 then Err "Too few shares out wanted" else
      l <- Coins_Add neededLpLiquidity [ {| Denom := Denom coin; Amount := neededAmt |} ] ;;
      neededLoop shareRatio rest l
  end.

Definition getMaximalNoSwapLPAmount (pool : P) (shareOutAmount : Z) : Res (list Coin) :=
  d <- int_ToLegacyDec shareOutAmount ;;
  shareRatio <- dec_QuoInt d (GetTotalShares pool) ;;
  if shareRatio <=? 0 then Err "Too few shares out wanted. (debug: getMaximalNoSwapLPAmount share ratio is zero or negative)" else
  poolLiquidity <- GetTotalPoolLiquidity pool ;;
  neededLoop shareRatio poolLiquidity [].

Definition JoinPoolNoSwap (blockTime : Z) (sender : Address) (poolId shareOutAmount : Z) (tokenInMaxs : list Coin) : M Keeper (list Coin * Z) :=
  recovering "JoinPoolNoSwap" (
    pool <~ GetPoolAndPoke blockTime poolId ;;
    neededLpLiquidity <~ lift (getMaximalNoSwapLPAmount pool shareOutAmount) ;;
    (match tokenInMaxs with
     | [] => ret tt
     | _ =>
         if negb (Coins_DenomsSubsetOf neededLpLiquidity tokenInMaxs)
         then fail "TokenInMaxs does not include all the tokens that are part of the target pool"
         else if negb (Coins_DenomsSubsetOf tokenInMaxs neededLpLiquidity)
         then fail "TokenInMaxs includes tokens that are not part of the target pool"
         else if negb (Coins_IsAllGTE tokenInMaxs neededLpLiquidity)
         then fail "TokenInMaxs is less than the needed LP liquidity to this JoinPoolNoSwap" else ret tt
     end) ~;;
    '(sharesOut, pool') <~ with_pool pool (CFMMPool.JoinPoolNoSwap neededLpLiquidity (GetSpreadFactor pool)) ;;
    applyJoinPoolStateChange pool' sender sharesOut neededLpLiquidity ~;;
    ret (neededLpLiquidity, sharesOut)).

Definition JoinSwapExactAmountIn (blockTime : Z) (sender : Address) (poolId : Z) (tokensIn : list Coin) (shareOutMinAmount : Z) : M Keeper Z :=
  recovering "JoinSwapExactAmountIn" (
    pool <~ GetCFMMPool blockTime poolId ;;
    '(sharesOut, pool') <~ with_pool pool (CFMMPool.JoinPool tokensIn (GetSpreadFactor pool)) ;;
    if sharesOut <? shareOutMinAmount then fail "too much slippage" else
    if sharesOut <=? 0 then fail "share amount is zero or negative" else
    applyJoinPoolStateChange pool' sender sharesOut tokensIn ~;;
    ret sharesOut).

Definition JoinSwapShareAmountOut (blockTime : Z) (sender : Address) (poolId : Z) (tokenInDenom : string) (shareOutAmount tokenInMaxAmount : Z) : M Keeper Z :=
  recovering "JoinSwapShareAmountOut" (
    pool <~ GetCFMMPool blockTime poolId ;;
    if negb (is_amount_out pool) then fail "pool does not support this kind of join" else
    tokenInAmount <~ lift (CalcTokenInShareAmountOut pool tokenInDenom shareOutAmount (GetSpreadFactor pool)) ;;
    if tokenInMaxAmount <? tokenInAmount then fail "resulted tokens is larger than the max amount" else
    c <~ lift (NewCoin tokenInDenom tokenInAmount) ;;
    tokenIn <~ lift (MakeCoins [c]) ;;
    '(_, pool') <~ with_pool pool (IncreaseLiquidity shareOutAmount tokenIn) ;;
    applyJoinPoolStateChange pool' sender shareOutAmount tokenIn ~;;
    ret tokenInAmount).

Definition ExitPool (blockTime : Z) (sender : Address) (poolId shareInAmount : Z) (tokenOutMins : list Coin) : M Keeper (list Coin) :=
  pool <~ GetPoolAndPoke blockTime poolId ;;
  if GetTotalShares pool <=? shareInAmount then fail "Trying to exit >= the number of shares contained in the pool." else
  if shareInAmount <=? 0 then fail "Trying to exit a negative amount of shares" else
  '(exitCoins, pool') <~ with_pool pool (CFMMPool.ExitPool shareInAmount (GetExitFee pool)) ;;
  if negb (Coins_DenomsSubsetOf tokenOutMins exitCoins) || Coins_IsAnyGT tokenOutMins exitCoins
  then fail "Exit pool returned less than the minimum tokens out specified" else
  applyExitPoolStateChange pool' sender shareInAmount exitCoins ~;;
  ret exitCoins.

Definition ExitSwapExactAmountOut (blockTime : Z) (sender : Address) (poolId : Z) (tokenOut : Coin) (shareInMaxAmount : Z) : M Keeper Z :=
  pool <~ GetCFMMPool blockTime poolId ;;
  if negb (is_amount_out pool) then fail "pool does not support this kind of exit" else
  '(shareInAmount, pool') <~ with_pool pool (CFMMPool.ExitSwapExactAmountOut tokenOut shareInMaxAmount) ;;
  applyExitPoolStateChange pool' sender shareInAmount [tokenOut] ~;;
  ret shareInAmount.

(** The gRPC queries and other modules read prices through this. *)
Definition CalculateSpotPrice (blockTime poolID : Z) (quoteAssetDenom baseAssetDenom : string) : M Keeper Z :=
  pool <~ GetPoolAndPoke blockTime poolID ;;
  match (spotPrice <- CFMMPool.SpotPrice pool quoteAssetDenom baseAssetDenom ;;
         spotPrice <- ChopPrecisionMut spotPrice DecPrecision ;;
         if GT spotPrice MaxSpotPriceBigDec then Err "spot price overflowed" else
         if negb (IsPositive spotPrice) then Err "internal spot price error" else
         r <- SigFigRound (Dec spotPrice) SpotPriceSigFigs ;;
         BigDecFromDec r) with
  | Ok r => ret r
  | Err e => fail e
  | Panic _ => fail "internal spot price error"
  end.

(** ** Swaps ([keeper/swap.go]) *)

Definition updatePoolForSwap (pool : P) (sender : Address) (tokenIn tokenOut : Coin) : M Keeper unit :=
  setPool pool ~;;
  addr <~ lift (GetAddress pool) ;;
  on_ext (SendCoins sender addr [tokenIn]) ~;;
  on_ext (SendCoins addr sender [tokenOut]) ~;;
  on_ext (AfterCFMMSwap gamm_hooks sender (GetId pool) [tokenIn] [tokenOut]) ~;;
  RecordTotalLiquidityIncrease [tokenIn] ~;;
  RecordTotalLiquidityDecrease [tokenOut].

Definition SwapExactAmountIn (sender : Address) (pool : P) (tokenIn : Coin) (tokenOutDenom : string) (tokenOutMinAmount spreadFactor : Z) : M Keeper (Z * P) :=
  if String.eqb (Denom tokenIn) tokenOutDenom then fail "cannot trade same denomination in and out" else
  half <~ lift (dec_QuoInt64 (GetSpreadFactor pool) 2) ;;
  if spreadFactor <? half then fail "given spread factor must be greater than or equal to half of the pool's spread factor" else
  recovering "swapExactAmountIn" (
    '(tokenOutCoin, pool') <~ with_pool pool (CFMMPool.SwapOutAmtGivenIn [tokenIn] tokenOutDenom spreadFactor) ;;
    if negb (0 <? Amount tokenOutCoin) then fail "token amount must be positive" else
    if Amount tokenOutCoin <? tokenOutMinAmount then fail "token is lesser than min amount" else
    updatePoolForSwap pool' sender tokenIn tokenOutCoin ~;;
    ret (Amount tokenOutCoin, pool')).

Definition SwapExactAmountOut (blockTime : Z) (sender : Address) (pool : P) (tokenInDenom : string) (tokenInMaxAmount : Z) (tokenOut : Coin) (spreadFactor : Z) : M Keeper (Z * P) :=
  if String.eqb tokenInDenom (Denom tokenOut) then fail "cannot trade same denomination in and out" else
  recovering "swapExactAmountOut" (
    liquidity <~ gamm_GetTotalPoolLiquidity blockTime (GetId pool) ;;
    poolOutBal <~ lift (Coins_AmountOf liquidity (Denom tokenOut)) ;;
    if poolOutBal <=? Amount tokenOut then fail "can't get more tokens out than there are tokens in the pool" else
    '(tokenIn, pool') <~ with_pool pool (CFMMPool.SwapInAmtGivenOut [tokenOut] tokenInDenom spreadFactor) ;;
    if Amount tokenIn <=? 0 then fail "token amount is zero or negative" else
    if tokenInMaxAmount <? Amount tokenIn then fail "Swap requires more than the maximum" else
    updatePoolForSwap pool' sender tokenIn tokenOut ~;;
    ret (Amount tokenIn, pool')).

(** The loop of [ExitSwapShareAmountIn]; the swaps update one pool in memory. *)
Fixpoint exitSwapLoop (sender : Address) (pool : P) (exitCoins : list Coin) (tokenOutDenom : string) (spreadFactor tokenOutAmount : Z) : M Keeper Z :=
  match exitCoins with
  | [] => ret tokenOutAmount
  | coin :: rest =>
      if String.eqb (Denom coin) tokenOutDenom then exitSwapLoop sender pool rest tokenOutDenom spreadFactor tokenOutAmount else
      '(swapOut, pool') <~ SwapExactAmountIn sender pool coin tokenOutDenom 0 spreadFactor ;;
      amt <~ lift (int_Add tokenOutAmount swapOut) ;;
      exitSwapLoop sender pool' rest tokenOutDenom spreadFactor amt
  end.

Definition ExitSwapShareAmountIn (blockTime : Z) (sender : Address) (poolId : Z) (tokenOutDenom : string) (shareInAmount tokenOutMinAmount : Z) : M Keeper Z :=
  exitCoins <~ ExitPool blockTime sender poolId shareInAmount [] ;;
  pool <~ GetPool blockTime poolId ;;
  amt <~ lift (Coins_AmountOf exitCoins tokenOutDenom) ;;
  tokenOutAmount <~ exitSwapLoop sender pool exitCoins tokenOutDenom (GetSpreadFactor pool) amt ;;
  if tokenOutAmount <? tokenOutMinAmount then fail "Provided LP shares yield less than the wanted minimum" else
  ret tokenOutAmount.

Definition gamm_CalcOutAmtGivenIn (pool : P) (tokenIn : Coin) (tokenOutDenom : string) (spreadFactor : Z) : Res Coin :=
  cs <- MakeCoins [tokenIn] ;; CFMMPool.CalcOutAmtGivenIn pool cs tokenOutDenom spreadFactor.
Definition gamm_CalcInAmtGivenOut (pool : P) (tokenOut : Coin) (tokenInDenom : string) (spreadFactor : Z) : Res Coin :=
  cs <- MakeCoins [tokenOut] ;; CFMMPool.CalcInAmtGivenOut pool cs tokenInDenom spreadFactor.

(** ** [PoolAccountInvariant] ([keeper/invariants.go]): is it broken? *)

Fixpoint accountsBroken (e : Ext) (pools : list P) : Res bool :=
  match pools with
  | [] => Ok false
  | pool :: rest =>
      expectedCoins <- GetTotalPoolLiquidity pool ;;
      addr <- GetAddress pool ;;
      if negb (Coins_IsAllGTE (GetAllBalances addr e) expectedCoins) then Ok true else accountsBroken e rest
  end.

Definition PoolAccountInvariant (blockTime : Z) : M Keeper bool := fun k =>
  match GetPoolsAndPoke blockTime k with
  | (Ok pools, k') => (accountsBroken (g_ext k') pools, k')
  | (Err _, k') => (Ok true, k')
  | (Panic m, k') => (Panic m, k')
  end.

End Gamm.

(** ** Scaling factors of stableswap pools ([keeper/pool.go]) *)

Section Stable.
Context {S : SdkMath} {D : SdkMore} {DP : SdkPool} {C : CoinsOps} {CM : CoinsMore} {T : GammText} {B : BigEndian} {GK : GammKeepers} {KV : KVStore (Stored PoolI)}.

Inductive PoolType : Type := TBalancer | TStableswap.

Definition GetPoolType (blockTime poolId : Z) : M Keeper PoolType :=
  pool <~ GetPoolAndPoke blockTime poolId ;; ret (match pool with PBalancer _ => TBalancer | PStable _ => TStableswap end).

Definition setStableSwapScalingFactors (blockTime poolId : Z) (scalingFactors : list Z) (sender : string) : M Keeper unit :=
  pool <~ GetPoolAndPoke blockTime poolId ;;
  match pool with
  | PBalancer _ => fail "pool is not of type stableswap pool"
  | PStable _ => '(_, pool') <~ with_pool pool (on_pool not_implemented (Stableswap.SetScalingFactors scalingFactors sender)) ;; setPool pool'
  end.

Definition setStableSwapScalingFactorController (blockTime poolId : Z) (controllerAddress : string) : M Keeper unit :=
  pool <~ GetPoolAndPoke blockTime poolId ;;
  match pool with
  | PBalancer _ => fail "pool is not of type stableswap pool"
  | PStable p => setPool (PStable (Stableswap.set_controller controllerAddress p))
  end.

End Stable.
