(* ===== verification/GammBooks.v ===== *)
(** * The books of [x/gamm]

    [Books k L]: the state of the keeper represents the pools [L].  The store
    holds them; the account of every pool holds at least the pool's liquidity;
    the supply of every share denomination is the pool's total shares; the
    record of the total liquidity covers the liquidity of all pools. *)

From stdpp Require Import base gmap.
From Stdlib Require Import ZArith Lia List Bool String.
From S2P Require Import Prelude GoBig BigInt BigDec SdkMath SdkMore Store SumTree MapSum GoState SdkCoins SdkPool Cfmm GammTypes GammPool.
Import ListNotations.
Import CFMMPool.
From S2P Require Import Gamm.
Open Scope Z_scope.

(** What can be observed of the bank. *)
Class GammView (GK : GammKeepers) : Type := {
  balance : Ext -> Address -> string -> Z;
  supply : Ext -> string -> Z;
  module_addr : string -> Address;
  pool_addr : Z -> Address
}.

Section Laws.
Context {C : CoinsOps} {GK : GammKeepers} {V : GammView GK}.

(** Coins that move, are made and are destroyed. *)
Definition moves (a b : Address) (cs : list Coin) (e e' : Ext) : Prop :=
  (forall x d, balance e' x d = balance e x d + (at_addr b x - at_addr a x) * amount_of cs d) /\ forall d, supply e' d = supply e d.
Definition mints (a : Address) (cs : list Coin) (e e' : Ext) : Prop :=
  (forall x d, balance e' x d = balance e x d + at_addr a x * amount_of cs d) /\ forall d, supply e' d = supply e d + amount_of cs d.

(** A hook takes nothing from the account of a pool and makes no shares. *)
Definition harmless (e e' : Ext) : Prop :=
  (forall id d, balance e (pool_addr id) d <= balance e' (pool_addr id) d) /\ forall id, supply e' (GetPoolShareDenom id) = supply e (GetPoolShareDenom id).

Record hooks_ok (h : GammHooks Ext) : Prop := {
  ho_created a id e r e' : AfterCFMMPoolCreated h a id e = (Ok r, e') -> harmless e e';
  ho_join a id cs n e r e' : AfterJoinPool h a id cs n e = (Ok r, e') -> harmless e e';
  ho_exit a id n cs e r e' : AfterExitPool h a id n cs e = (Ok r, e') -> harmless e e';
  ho_swap a id i o e r e' : AfterCFMMSwap h a id i o e = (Ok r, e') -> harmless e e'
}.

(** The documented behaviour of the bank. *)
Class GammKeepersSpec : Prop := {
  balances_listed a e : coins_ok (GetAllBalances a e) /\ forall d, amount_of (GetAllBalances a e) d = balance e a d;
  send_law a b cs e r e' : SendCoins a b cs e = (Ok r, e') -> moves a b cs e e';
  mint_law m cs e r e' : MintCoins m cs e = (Ok r, e') -> mints (module_addr m) cs e e';
  burn_law m cs e r e' : BurnCoins m cs e = (Ok r, e') -> mints (module_addr m) cs e' e;
  pay_law m a cs e r e' : SendCoinsFromModuleToAccount m a cs e = (Ok r, e') -> moves (module_addr m) a cs e e';
  take_law a m cs e r e' : SendCoinsFromAccountToModule a m cs e = (Ok r, e') -> moves a (module_addr m) cs e e';
  hooks_lawful : hooks_ok gamm_hooks
}.

End Laws.
Arguments GammKeepersSpec {C} GK {V}.

(** The accounts of pools are distinct from each other, from the account of the
    module and from those that call the keeper. *)
Class GammDomain {GK : GammKeepers} {V : GammView GK} : Type := {
  account : Address -> Prop;
  account_not_pool a id : account a -> a <> pool_addr id;
  module_not_pool id : module_addr GammModuleName <> pool_addr id;
  pool_addr_inj n m : 0 <= n -> 0 <= m -> pool_addr n = pool_addr m -> n = m
}.
Arguments GammDomain GK {V}.

Section Books.
Context {S : SdkMath} {SS : SdkMathSpec S} {D : SdkMore} {DS : SdkMoreSpec D} {DP : SdkPool} {DPS : SdkPoolSpec S D DP}
  {C : CoinsOps} {CS : CoinsSpec C} {CM : CoinsMore} {CMS : CoinsMoreSpec C CM} {B : BigEndian} {BS : BigEndianSpec B} {E : PrefixEnd} {ES : PrefixEndSpec E}.
Context {GK : GammKeepers} {V : GammView GK} {GS : GammKeepersSpec GK} {GD : GammDomain GK}.
Context {P : Type} {PM : PoolModel P} {PV : PoolView P} {PS : PoolModelSpec P} {KV : KVStore (Stored P)} {KS : KVStoreSpec KV}.

Definition id_ok (id : Z) : Prop := 0 <= id < 2 ^ 64.

(** ** The state as maps *)

Definition v_pool (k : Keeper) (id : Z) : option (Stored P) := st_get (g_store k) (GetKeyPrefixPools id).
Definition v_stored (k : Keeper) (d : string) : option (Stored P) := st_get (g_store k) (GetDenomPrefix d).
Definition v_rec (k : Keeper) (d : string) : Z := match v_stored k d with Some (VAmount n) => n | _ => 0 end.
Definition v_bal (k : Keeper) (id : Z) (d : string) : Z := balance (g_ext k) (pool_addr id) d.
Definition v_sup (k : Keeper) (id : Z) : Z := supply (g_ext k) (GetPoolShareDenom id).

(** Nothing else is in the store. *)
Definition typed (st : St) : Prop := forall key v, st_get st key = Some v ->
  (exists id p, id_ok id /\ key = GetKeyPrefixPools id /\ v = VPool p) \/ (exists d n, key = GetDenomPrefix d /\ v = VAmount n).

Record Books (k : Keeper) (L : gmap Z P) : Prop := {
  bk_pools id : id_ok id -> v_pool k id = VPool <$> L !! id;
  bk_typed : typed (g_store k);
  bk_ids id p : L !! id = Some p -> id_ok id /\ GetId p = id /\ pool_inv p /\ GetAddress p = Ok (pool_addr id) /\ 0 <= GetTotalShares p;
  bk_funds id p d : L !! id = Some p -> pool_liq p d <= v_bal k id d;
  bk_supply id : id_ok id -> v_sup k id = match L !! id with Some p => GetTotalShares p | None => 0 end;
  bk_record d : msum (fun p => pool_liq p d) L <= v_rec k d
}.

(** ** Keys *)

Lemma pool_key_inj n m : id_ok n -> id_ok m -> GetKeyPrefixPools n = GetKeyPrefixPools m -> n = m.
Proof.
  intros Hn Hm H. unfold GetKeyPrefixPools in H. apply app_inv_head in H. apply (f_equal (be_value 0)) in H. rewrite !Uint64ToBigEndian_value in H by assumption. exact H.
Qed.

Lemma get_set st key v key' : st_get (st_set st key v) key' = if decide (key = key') then Some v else st_get st key'.
Proof.
  rewrite st_get_set. destruct (bcompare key key') eqn:Cm; destruct (decide (key = key')) as [E0|N]; try reflexivity.
  - apply bcompare_eq in Cm. contradiction.
  - subst. now rewrite bcompare_refl in Cm.
  - subst. now rewrite bcompare_refl in Cm.
Qed.

Lemma denom_key_inj d e : GetDenomPrefix d = GetDenomPrefix e -> d = e.
Proof. intros H. unfold GetDenomPrefix in H. apply app_inv_head in H. now apply string_bytes_inj in H. Qed.

(** ** Effects of the parts of an operation *)

(** [changes k k' ps f]: the store of pools becomes [ps], the record moves by [f]
    and the store stays typed. *)
Record changes (k k' : Keeper) (pools : Z -> option (Stored P)) (f : string -> Z) : Prop := {
  ch_pools id : id_ok id -> v_pool k' id = pools id;
  ch_typed : typed (g_store k) -> typed (g_store k');
  ch_rec d : v_rec k' d = v_rec k d + f d
}.

Definition put_at (id : Z) (p : P) (pools : Z -> option (Stored P)) : Z -> option (Stored P) := fun i => if decide (i = id) then Some (VPool p) else pools i.

Lemma changes_none k k' : g_store k' = g_store k -> changes k k' (v_pool k) (fun _ => 0).
Proof. intros Es. split; unfold v_rec, v_pool, v_stored; rewrite Es; [reflexivity | auto | intros; lia]. Qed.

Lemma bank_call_ok {A} (c : M Ext A) k a k' : on_ext c k = (Ok a, k') -> exists e, c (g_ext k) = (Ok a, e) /\ k' = {| g_store := g_store k; g_ext := e |}.
Proof. unfold on_ext, zoom. destruct (c (g_ext k)) as [r e]. intros H. injection H as -> <-. eauto. Qed.

Lemma setPool_changes p k r k' : id_ok (GetId p) -> setPool p k = (Ok r, k') ->
  changes k k' (put_at (GetId p) p (v_pool k)) (fun _ => 0) /\ g_ext k' = g_ext k.
Proof.
  intros Hi H. unfold setPool, set_store, modify in H. injection H as _ <-. split; [|reflexivity].
  assert (Ne : forall d, GetKeyPrefixPools (GetId p) <> GetDenomPrefix d) by (intros d X; discriminate X).
  split; unfold v_pool, v_stored, v_rec, v_stored, put_at; cbn [g_store].
  - intros id Hd. rewrite get_set. destruct (decide (_ = _)) as [E0|N]; destruct (decide (id = GetId p)) as [E1|N1]; try reflexivity.
    + apply pool_key_inj in E0; [congruence | assumption..].
    + subst. contradiction.
  - intros Ty key v. rewrite get_set. destruct (decide _) as [<-|]; [|apply Ty]. intros X. injection X as <-. left. eauto.
  - intros d. rewrite get_set, decide_False by apply Ne. lia.
Qed.

Lemma set_denom_changes d n k r k' : setDenomLiquidity d n k = (Ok r, k') ->
  (forall id, v_pool k' id = v_pool k id) /\ (forall e, v_stored k' e = if decide (d = e) then Some (VAmount n) else v_stored k e) /\
  (typed (g_store k) -> typed (g_store k')) /\ g_ext k' = g_ext k.
Proof.
  intros H. unfold setDenomLiquidity, set_store, modify in H. injection H as _ <-. unfold v_pool, v_stored. cbn [g_store].
  split; [intros id; now rewrite get_set, decide_False by (intros X; discriminate X)|]. split; [|split; [|reflexivity]];
    [|intros Ty key v; rewrite get_set; destruct (decide _) as [<-|]; [|apply Ty]; intros X; injection X as <-; right; eauto].
  intros e. rewrite get_set. destruct (decide (GetDenomPrefix d = GetDenomPrefix e)) as [X|N]; destruct (decide (d = e)) as [Y|M]; try reflexivity.
  - now apply denom_key_inj in X.
  - subst. contradiction.
Qed.

(** The loops over the coins, adding with either sign. *)
Lemma record_loop (f : Z -> Z -> Res Z) s : (forall a b r, f a b = Ok r -> r = a + s * b) -> forall cs k r k',
  for_each cs (fun c => amount <~ GetDenomLiquidity (Denom c) ;; a <~ lift (f amount (Amount c)) ;; setDenomLiquidity (Denom c) a) k = (Ok r, k') ->
  changes k k' (v_pool k) (fun d => s * amount_of cs d) /\ g_ext k' = g_ext k.
Proof.
  intros Hf. induction cs as [|c cs IH]; intros k r k' H; cbn [for_each] in H.
  { injection H as _ <-. split; [|reflexivity]. split; [reflexivity | auto | intros d; cbn; lia]. }
  apply mbind_ok_inv in H as (u & k1 & E1 & H). apply IH in H as [[Hp Ha Hr] He].
  apply mbind_ok_inv in E1 as (n & k0 & En & E1). unfold GetDenomLiquidity in En. apply mbind_ok_inv in En as (k2 & k3 & Ek & En). injection Ek as <- <-.
  assert (Nk : n = v_rec k (Denom c) /\ k0 = k).
  { unfold v_rec, v_stored. destruct (st_get _ _) as [[q|m]|]; [discriminate En | |]; injection En as <- <-; auto. }
  destruct Nk as [-> ->]. apply mbind_ok_inv in E1 as (a & k0 & Ea & E1). apply lift_ok_inv in Ea as [Ea <-]. apply Hf in Ea as ->.
  apply set_denom_changes in E1 as (P1 & S1 & T1 & X1). split; [|congruence]. split.
  - intros id Hi. now rewrite Hp, P1 by exact Hi.
  - intros A. exact (Ha (T1 A)).
  - intros d. rewrite Hr. unfold v_rec at 1. rewrite S1, amount_cons. destruct (decide (Denom c = d)) as [->|N]; [rewrite String.eqb_refl; lia|].
    destruct (String.eqb_spec (Denom c) d); [contradiction|]. fold (v_rec k d). lia.
Qed.

Lemma increase_changes cs k r k' : RecordTotalLiquidityIncrease cs k = (Ok r, k') -> changes k k' (v_pool k) (amount_of cs) /\ g_ext k' = g_ext k.
Proof.
  intros H. apply (record_loop int_Add 1) in H as [[Hp Ha Hr] He]; [|intros a b x X; apply int_Add_exact in X; lia].
  split; [|exact He]. split; [exact Hp | exact Ha | intros d; rewrite Hr; lia].
Qed.
Lemma decrease_changes cs k r k' : RecordTotalLiquidityDecrease cs k = (Ok r, k') -> changes k k' (v_pool k) (fun d => - amount_of cs d) /\ g_ext k' = g_ext k.
Proof.
  intros H. apply (record_loop int_Sub (-1)) in H as [[Hp Ha Hr] He]; [|intros a b x X; apply int_Sub_exact in X; lia].
  split; [|exact He]. split; [exact Hp | exact Ha | intros d; rewrite Hr; lia].
Qed.

(** ** Money *)

Definition ind (n m : Z) : Z := if decide (n = m) then 1 else 0.

(** What happens to the accounts of pools and the supply of shares. *)
Record money (e e' : Ext) (gain : Z -> string -> Z) (shares : Z -> Z) : Prop := {
  mo_bal id d : id_ok id -> balance e (pool_addr id) d + gain id d <= balance e' (pool_addr id) d;
  mo_sup id : id_ok id -> supply e' (GetPoolShareDenom id) = supply e (GetPoolShareDenom id) + shares id
}.

Lemma money_trans e1 e2 e3 g1 g2 s1 s2 : money e1 e2 g1 s1 -> money e2 e3 g2 s2 -> money e1 e3 (fun i d => g1 i d + g2 i d) (fun i => s1 i + s2 i).
Proof.
  intros [B1 S1] [B2 S2]. split; [intros id d Hi; specialize (B1 id d Hi); specialize (B2 id d Hi); lia|]. intros id Hi. rewrite S2, S1 by exact Hi. lia.
Qed.

Lemma at_pool n m : id_ok n -> id_ok m -> at_addr (pool_addr n) (pool_addr m) = ind n m.
Proof. intros [Hn _] [Hm _]. unfold at_addr, ind. destruct (decide (_ = _)) as [X|N]; destruct (decide (n = m)) as [Y|M]; try reflexivity; [now apply pool_addr_inj in X | congruence]. Qed.
Lemma at_account a id : account a -> at_addr a (pool_addr id) = 0.
Proof. intros H. unfold at_addr. rewrite decide_False; [reflexivity | now apply account_not_pool]. Qed.
Lemma at_module id : at_addr (module_addr GammModuleName) (pool_addr id) = 0.
Proof. unfold at_addr. rewrite decide_False; [reflexivity | apply module_not_pool]. Qed.

Lemma money_in a id0 cs e e' : account a -> id_ok id0 -> moves a (pool_addr id0) cs e e' -> money e e' (fun id d => ind id0 id * amount_of cs d) (fun _ => 0).
Proof. intros Ha H0 [Bm Sm]. split; [intros id d Hi; rewrite Bm, at_pool, at_account by assumption; lia | intros id _; rewrite Sm; lia]. Qed.
Lemma money_out a id0 cs e e' : account a -> id_ok id0 -> moves (pool_addr id0) a cs e e' -> money e e' (fun id d => ind id0 id * - amount_of cs d) (fun _ => 0).
Proof. intros Ha H0 [Bm Sm]. split; [intros id d Hi; rewrite Bm, at_pool, at_account by assumption; lia | intros id _; rewrite Sm; lia]. Qed.
Lemma money_harmless e e' : harmless e e' -> money e e' (fun _ _ => 0) (fun _ => 0).
Proof. intros [Hb Hs]. split; [intros id d _; specialize (Hb id d); lia | intros id _; rewrite Hs; lia]. Qed.

Lemma share_amount id0 id n : id_ok id0 -> id_ok id -> amount_of [ {| Denom := GetPoolShareDenom id0; Amount := n |} ] (GetPoolShareDenom id) = ind id0 id * n.
Proof.
  intros H0 Hi. rewrite amount_single. unfold ind. cbn [Denom Amount]. destruct (String.eqb_spec (GetPoolShareDenom id0) (GetPoolShareDenom id)) as [X|N]; destruct (decide (id0 = id)) as [Y|M];
    try lia; [exfalso; apply M, GetPoolShareDenom_inj; [apply H0 | apply Hi | exact X] | congruence].
Qed.

Lemma mint_money p a n k r k' : account a -> id_ok (GetId p) -> MintPoolShareToAccount p a n k = (Ok r, k') ->
  0 <= n /\ g_store k' = g_store k /\ money (g_ext k) (g_ext k') (fun _ _ => 0) (fun id => ind (GetId p) id * n).
Proof.
  intros Ha Hi H. unfold MintPoolShareToAccount in H. apply mbind_ok_inv in H as (c & k0 & Ec & H). apply lift_ok_inv in Ec as [Ec <-]. unfold NewCoin in Ec.
  destruct (Z.ltb_spec n 0); [discriminate Ec|]. apply Ok_inj in Ec as <-. apply mbind_ok_inv in H as (cs & k0 & Ec & H). apply lift_ok_inv in Ec as [Ec <-].
  apply MakeCoins_exact in Ec as [_ Am]. apply mbind_ok_inv in H as (u & k1 & E1 & H). apply bank_call_ok in E1 as (e1 & E1 & ->). apply bank_call_ok in H as (e2 & E2 & ->).
  cbn [g_ext g_store] in *. apply mint_law in E1 as [Bm Sm]. apply pay_law in E2 as [Bp Sp]. split; [lia|]. split; [reflexivity|]. split.
  - intros id d _. rewrite Bp, Bm, at_module, at_account by exact Ha. lia.
  - intros id Hd. rewrite Sp, Sm, Am, share_amount by assumption. reflexivity.
Qed.

Lemma burn_money p a n k r k' : account a -> id_ok (GetId p) -> BurnPoolShareFromAccount p a n k = (Ok r, k') ->
  0 <= n /\ g_store k' = g_store k /\ money (g_ext k) (g_ext k') (fun _ _ => 0) (fun id => ind (GetId p) id * - n).
Proof.
  intros Ha Hi H. unfold BurnPoolShareFromAccount in H. apply mbind_ok_inv in H as (c & k0 & Ec & H). apply lift_ok_inv in Ec as [Ec <-]. unfold NewCoin in Ec.
  destruct (Z.ltb_spec n 0); [discriminate Ec|]. apply Ok_inj in Ec as <-. apply mbind_ok_inv in H as (u & k1 & E1 & H). apply bank_call_ok in E1 as (e1 & E1 & ->).
  apply bank_call_ok in H as (e2 & E2 & ->). cbn [g_ext g_store] in *. apply take_law in E1 as [Bt St0]. apply burn_law in E2 as [Bb Sb].
  split; [lia|]. split; [reflexivity|]. split.
  - intros id d _. specialize (Bb (pool_addr id) d). rewrite Bt, at_module, at_account in Bb by exact Ha. lia.
  - intros id Hd. specialize (Sb (GetPoolShareDenom id)). rewrite St0, share_amount in Sb by assumption. lia.
Qed.

(** ** Settlement *)

(** The pool [p'] is stored; its account and the record move by [f], the supply
    of its shares by [n]. *)
Record settles (k k' : Keeper) (p' : P) (f : string -> Z) (n : Z) : Prop := {
  se_store : changes k k' (put_at (GetId p') p' (v_pool k)) f;
  se_bal id d : id_ok id -> v_bal k id d + ind (GetId p') id * f d <= v_bal k' id d;
  se_sup id : id_ok id -> v_sup k' id = v_sup k id + ind (GetId p') id * n
}.

Lemma apply_join_settles p a n cs k r k' : account a -> id_ok (GetId p) -> GetAddress p = Ok (pool_addr (GetId p)) ->
  applyJoinPoolStateChange p a n cs k = (Ok r, k') -> 0 <= n /\ settles k k' p (amount_of cs) n.
Proof.
  intros Ha Hi Ea H. unfold applyJoinPoolStateChange in H. rewrite Ea in H. apply mbind_ok_inv in H as (addr & k0 & E0 & H). apply lift_ok_inv in E0 as [E0 <-]. apply Ok_inj in E0 as <-.
  apply mbind_ok_inv in H as (u1 & k1 & E1 & H). apply bank_call_ok in E1 as (e1 & E1 & ->). apply send_law, (money_in a (GetId p) cs) in E1; [|exact Ha | exact Hi].
  apply mbind_ok_inv in H as (u2 & k2 & E2 & H). apply (mint_money p a n) in E2 as (Nn & Es2 & M2); [|assumption..]. cbn [g_ext g_store] in *.
  apply mbind_ok_inv in H as (u3 & k3 & E3 & H). apply setPool_changes in E3 as [[P3 A3 R3] X3]; [|exact Hi].
  apply mbind_ok_inv in H as (u4 & k4 & E4 & H). apply bank_call_ok in E4 as (e4 & E4 & ->). apply (ho_join _ hooks_lawful), money_harmless in E4.
  apply increase_changes in H as [[P5 A5 R5] X5]. cbn [g_ext g_store] in *. rewrite X3 in E4. pose proof (money_trans _ _ _ _ _ _ _ (money_trans _ _ _ _ _ _ _ E1 M2) E4) as [Mb Ms].
  split; [exact Nn|]. split.
  - split.
    + intros id Hd. rewrite P5 by exact Hd. change (v_pool k3 id = put_at (GetId p) p (v_pool k) id). rewrite P3 by exact Hd. unfold put_at, v_pool. now rewrite Es2.
    + intros A. apply A5. change (typed (g_store k3)). apply A3. rewrite Es2. exact A.
    + intros d. rewrite R5. change (v_rec k3 d + amount_of cs d = v_rec k d + amount_of cs d). rewrite R3. unfold v_rec, v_stored. rewrite Es2. lia.
  - intros id d Hd. unfold v_bal. rewrite X5. specialize (Mb id d Hd). lia.
  - intros id Hd. unfold v_sup. rewrite X5. specialize (Ms id Hd). lia.
Qed.

Lemma apply_exit_settles p a n cs k r k' : account a -> id_ok (GetId p) -> GetAddress p = Ok (pool_addr (GetId p)) ->
  applyExitPoolStateChange p a n cs k = (Ok r, k') -> settles k k' p (fun d => - amount_of cs d) (- n).
Proof.
  intros Ha Hi Ea H. unfold applyExitPoolStateChange in H. rewrite Ea in H. apply mbind_ok_inv in H as (addr & k0 & E0 & H). apply lift_ok_inv in E0 as [E0 <-]. apply Ok_inj in E0 as <-.
  apply mbind_ok_inv in H as (u1 & k1 & E1 & H). apply bank_call_ok in E1 as (e1 & E1 & ->). apply send_law, (money_out a (GetId p) cs) in E1; [|exact Ha | exact Hi].
  apply mbind_ok_inv in H as (u2 & k2 & E2 & H). apply (burn_money p a n) in E2 as (Nn & Es2 & M2); [|assumption..]. cbn [g_ext g_store] in *.
  apply mbind_ok_inv in H as (u3 & k3 & E3 & H). apply setPool_changes in E3 as [[P3 A3 R3] X3]; [|exact Hi].
  apply mbind_ok_inv in H as (u4 & k4 & E4 & H). apply bank_call_ok in E4 as (e4 & E4 & ->). apply (ho_exit _ hooks_lawful), money_harmless in E4.
  apply decrease_changes in H as [[P5 A5 R5] X5]. cbn [g_ext g_store] in *. rewrite X3 in E4. pose proof (money_trans _ _ _ _ _ _ _ (money_trans _ _ _ _ _ _ _ E1 M2) E4) as [Mb Ms].
  split.
  - split.
    + intros id Hd. rewrite P5 by exact Hd. change (v_pool k3 id = put_at (GetId p) p (v_pool k) id). rewrite P3 by exact Hd. unfold put_at, v_pool. now rewrite Es2.
    + intros A. apply A5. change (typed (g_store k3)). apply A3. rewrite Es2. exact A.
    + intros d. rewrite R5. change (v_rec k3 d + - amount_of cs d = v_rec k d + - amount_of cs d). rewrite R3. unfold v_rec, v_stored. rewrite Es2. lia.
  - intros id d Hd. unfold v_bal. rewrite X5. specialize (Mb id d Hd). lia.
  - intros id Hd. unfold v_sup. rewrite X5. specialize (Ms id Hd). lia.
Qed.

Lemma update_swap_settles p a tin tout k r k' : account a -> id_ok (GetId p) -> GetAddress p = Ok (pool_addr (GetId p)) ->
  updatePoolForSwap p a tin tout k = (Ok r, k') -> settles k k' p (fun d => amount_of [tin] d - amount_of [tout] d) 0.
Proof.
  intros Ha Hi Ea H. unfold updatePoolForSwap in H. apply mbind_ok_inv in H as (u3 & k3 & E3 & H). apply setPool_changes in E3 as [[P3 A3 R3] X3]; [|exact Hi].
  rewrite Ea in H. apply mbind_ok_inv in H as (addr & k0 & E0 & H). apply lift_ok_inv in E0 as [E0 <-]. apply Ok_inj in E0 as <-.
  apply mbind_ok_inv in H as (u1 & k1 & E1 & H). apply bank_call_ok in E1 as (e1 & E1 & ->). apply send_law, (money_in a (GetId p)) in E1; [|exact Ha | exact Hi].
  apply mbind_ok_inv in H as (u2 & k2 & E2 & H). apply bank_call_ok in E2 as (e2 & E2 & ->). apply send_law, (money_out a (GetId p)) in E2; [|exact Ha | exact Hi].
  apply mbind_ok_inv in H as (u4 & k4 & E4 & H). apply bank_call_ok in E4 as (e4 & E4 & ->). apply (ho_swap _ hooks_lawful), money_harmless in E4.
  apply mbind_ok_inv in H as (u5 & k5 & E5 & H). apply increase_changes in E5 as [[P5 A5 R5] X5]. apply decrease_changes in H as [[P6 A6 R6] X6]. cbn [g_ext g_store] in *.
  rewrite X3 in E1. pose proof (money_trans _ _ _ _ _ _ _ (money_trans _ _ _ _ _ _ _ E1 E2) E4) as [Mb Ms]. split.
  - split.
    + intros id Hd. rewrite P6, P5 by exact Hd. exact (P3 id Hd).
    + intros A. apply A6, A5. exact (A3 A).
    + intros d. rewrite R6, R5. change (v_rec k3 d + amount_of [tin] d + - amount_of [tout] d = v_rec k d + (amount_of [tin] d - amount_of [tout] d)). rewrite R3. lia.
  - intros id d Hd. unfold v_bal. rewrite X6, X5. specialize (Mb id d Hd). cbn [g_ext] in *. lia.
  - intros id Hd. unfold v_sup. rewrite X6, X5. specialize (Ms id Hd). cbn [g_ext] in *. lia.
Qed.

(** An operation on one pool keeps the books if the pool's own account of it is
    no larger than what was settled. *)
Lemma books_settle k k' L p0 p' f n : Books k L -> L !! GetId p' = Some p0 -> settles k k' p' f n -> steady p0 p' -> 0 <= GetTotalShares p' ->
  GetTotalShares p' = GetTotalShares p0 + n -> (forall d, pool_liq p' d <= pool_liq p0 d + f d) -> Books k' (<[GetId p' := p']> L).
Proof.
  intros [Bp Ba Bi Bf Bs Br] H0 [[Cp Ca Cr] Sb Ssup] (I' & Ei & Ea & _) Nn Es Lq. destruct (Bi _ _ H0) as (Hi & Eid & _ & Addr & _). split.
  - intros id Hd. rewrite Cp by exact Hd. unfold put_at. destruct (decide (id = GetId p')) as [->|N]; [now rewrite lookup_insert_eq|].
    rewrite lookup_insert_ne by congruence. now apply Bp.
  - exact (Ca Ba).
  - intros id p H. destruct (decide (id = GetId p')) as [->|N].
    + rewrite lookup_insert_eq in H. injection H as <-. repeat split; [apply Hi | apply Hi | exact I' | congruence | exact Nn].
    + rewrite lookup_insert_ne in H by congruence. now apply Bi.
  - intros id p d H. unfold ind in Sb. destruct (decide (id = GetId p')) as [->|N].
    + specialize (Sb (GetId p') d Hi). rewrite lookup_insert_eq in H. injection H as <-. rewrite decide_True in Sb by reflexivity. specialize (Bf _ _ d H0). specialize (Lq d). lia.
    + rewrite lookup_insert_ne in H by congruence. specialize (Sb id d (proj1 (Bi _ _ H))). rewrite decide_False in Sb by congruence. specialize (Bf _ _ d H). lia.
  - intros id Hd. rewrite Ssup, Bs by exact Hd. unfold ind. destruct (decide (id = GetId p')) as [->|N].
    + rewrite lookup_insert_eq, H0, decide_True by reflexivity. lia.
    + rewrite lookup_insert_ne, decide_False by congruence. lia.
  - intros d. rewrite (msum_update _ _ _ _ _ H0), Cr. specialize (Br d). specialize (Lq d). lia.
Qed.

End Books.
