(* ===== verification/GammCorrect.v ===== *)
(** * Every operation of [x/gamm] keeps the books

    Each operation of the keeper takes books to books; so do all runs of them
    ([gamm_step]), in which the invariant that the module itself registers,
    [PoolAccountInvariant], is never broken. *)

From stdpp Require Import base gmap.
From Stdlib Require Import ZArith Lia List Bool String.
From S2P Require Import Prelude GoBig BigInt BigDec SdkMath SdkMore BinarySearch Store SumTree MapSum GoState SdkCoins SdkPool Cfmm GammTypes GammBalancer GammStableswap GammStableswapOk GammPool.
Import ListNotations.
Import CFMMPool.
From S2P Require Import GammBalancerLaws GammPoolLaws Gamm GammBooks.
Open Scope Z_scope.

Lemma recovering_ok {X A} name (c : M X A) s a s' : recovering name c s = (Ok a, s') -> c s = (Ok a, s').
Proof. unfold recovering. destruct (c s) as [[r|e|m] s1]; intros H; try discriminate H. exact H. Qed.

Section Ops.
Context {S : SdkMath} {SS : SdkMathSpec S} {D : SdkMore} {DS : SdkMoreSpec D} {DP : SdkPool} {DPS : SdkPoolSpec S D DP}
  {C : CoinsOps} {CS : CoinsSpec C} {CM : CoinsMore} {CMS : CoinsMoreSpec C CM} {B : BigEndian} {BS : BigEndianSpec B} {E : PrefixEnd} {ES : PrefixEndSpec E}.
Context {GK : GammKeepers} {V : GammView GK} {GS : GammKeepersSpec GK} {GD : GammDomain GK}.
Context {P : Type} {PM : PoolModel P} {PV : PoolView P} {PS : PoolModelSpec P} {KV : KVStore (Stored P)} {KS : KVStoreSpec KV}.

Lemma with_pool_ok {A} (p : P) (c : M P A) k a p' k' : with_pool p c k = (Ok (a, p'), k') -> c p = (Ok a, p') /\ k' = k.
Proof. unfold with_pool. destruct (c p) as [[r|e|m] q]; intros H; try discriminate H. injection H as <- <- <-. auto. Qed.

(** The stored pool, poked: all that counts for the books is as stored. *)
Definition current (p0 p : P) : Prop :=
  steady p0 p /\ GetTotalShares p = GetTotalShares p0 /\ forall d, pool_liq p d = pool_liq p0 d.

Lemma poke_current t p0 k p k' : pool_inv p0 -> poke t p0 k = (Ok p, k') -> k' = k /\ current p0 p.
Proof.
  intros I H. unfold poke in H. destruct (is_weighted p0) eqn:W; [|injection H as <- <-; split; [reflexivity|]; repeat split; auto].
  apply mbind_ok_inv in H as ([u q] & k1 & E1 & H). injection H as <- <-. apply with_pool_ok in E1 as [E1 ->]. split; [reflexivity|].
  exact (poke_law t p0 u q I W E1).
Qed.

Lemma get_pool t id k L p k' : Books k L -> id_ok id -> GetPoolAndPoke t id k = (Ok p, k') -> k' = k /\ exists p0, L !! id = Some p0 /\ current p0 p.
Proof.
  intros Bk Hi H. unfold GetPoolAndPoke in H. apply mbind_ok_inv in H as (k1 & k2 & E1 & H). injection E1 as <- <-.
  pose proof (bk_pools k L Bk id Hi) as Ep. unfold v_pool in Ep. rewrite Ep in H. destruct (L !! id) as [p0|] eqn:El; cbn [fmap option_fmap option_map] in H; [|discriminate H].
  apply poke_current in H as [-> Cu]; [|apply (bk_ids k L Bk id p0 El)]. split; [reflexivity|]. eauto.
Qed.

Lemma get_cfmm_pool t id k L p k' : Books k L -> id_ok id -> GetCFMMPool t id k = (Ok p, k') -> k' = k /\ exists p0, L !! id = Some p0 /\ current p0 p.
Proof.
  intros Bk Hi H. unfold GetCFMMPool in H. apply mbind_ok_inv in H as (q & k1 & E1 & H). destruct (negb (IsActive q)); [discriminate H|]. injection H as <- <-.
  exact (get_pool t id k L q k1 Bk Hi E1).
Qed.

(** A pool that is in memory while the keeper works on it. *)
Definition loaded (k : Keeper) (L : gmap Z P) (p : P) : Prop :=
  exists p0, L !! GetId p = Some p0 /\ current p0 p /\ id_ok (GetId p) /\ pool_inv p /\ GetAddress p = Ok (pool_addr (GetId p)) /\ 0 <= GetTotalShares p.

Lemma current_loaded k L id p0 p : Books k L -> L !! id = Some p0 -> current p0 p -> GetId p = id /\ loaded k L p.
Proof.
  intros Bk H Cu. pose proof Cu as ((I & Ei & Ea & _) & Es & _). destruct (bk_ids k L Bk id p0 H) as (Hi & Eid & _ & Ead & Nn).
  assert (Ep : GetId p = id) by congruence. split; [exact Ep|]. exists p0. rewrite Ep. repeat split; try assumption; try apply Hi; try apply Cu; [congruence | lia].
Qed.

Lemma load t id k L p k' : Books k L -> id_ok id -> GetPoolAndPoke t id k = (Ok p, k') -> k' = k /\ GetId p = id /\ loaded k L p.
Proof. intros Bk Hi H. destruct (get_pool t id k L p k' Bk Hi H) as (-> & p0 & El & Cu). split; [reflexivity|]. exact (current_loaded k L id p0 p Bk El Cu). Qed.
Lemma load_cfmm t id k L p k' : Books k L -> id_ok id -> GetCFMMPool t id k = (Ok p, k') -> k' = k /\ GetId p = id /\ loaded k L p.
Proof. intros Bk Hi H. destruct (get_cfmm_pool t id k L p k' Bk Hi H) as (-> & p0 & El & Cu). split; [reflexivity|]. exact (current_loaded k L id p0 p Bk El Cu). Qed.

Lemma steady_trans p q r : steady p q -> steady q r -> steady p r.
Proof. unfold steady. intuition congruence. Qed.

(** Settling an operation on a loaded pool. *)
Lemma loaded_settles k k' L p p' f n : Books k L -> loaded k L p -> settles k k' p' f n -> steady p p' -> 0 <= GetTotalShares p' ->
  GetTotalShares p' = GetTotalShares p + n -> (forall d, pool_liq p' d <= pool_liq p d + f d) -> Books k' (<[GetId p' := p']> L).
Proof.
  intros Bk (p0 & El & (St & Sh & Lq) & _) Se St' Nn Es Le. pose proof St' as (_ & Ei & _). apply (books_settle k k' L p0 p' f n Bk);
    [congruence | exact Se | exact (steady_trans _ _ _ St St') | exact Nn | congruence | intros d; rewrite <- Lq; apply Le].
Qed.

(** ** Joins *)

Lemma books_join k k' L p p' a n joined cs r : Books k L -> loaded k L p -> account a -> joins p n joined cs p' ->
  applyJoinPoolStateChange p' a n cs k = (Ok r, k') -> Books k' (<[GetId p' := p']> L).
Proof.
  intros Bk Ld Ha (St & Oj & Le & Sh & Lq) H. pose proof Ld as (p0 & _ & _ & Hi & _ & Ea & Nn). pose proof St as (_ & Ei & Eadr & _).
  apply apply_join_settles in H as [Pn Se]; [|exact Ha | now rewrite Ei | congruence].
  apply (loaded_settles k k' L p p' _ _ Bk Ld Se St); [lia | exact Sh|]. intros d. rewrite Lq. specialize (Le d). lia.
Qed.

(** What a join by shares asks for. *)
Lemma neededLoop_ok ratio liq : forall acc l, coins_ok liq -> coins_ok acc -> neededLoop ratio liq acc = Ok l -> coins_ok l.
Proof.
  induction liq as [|c liq IH]; intros acc l Ol Oa H; cbn [neededLoop] in H; [now apply Ok_inj in H as <-|]. do 4 inv_bind H.
  destruct (Z.leb_spec v2 0); [discriminate H|]. apply bind_ok_inv in H as (l1 & El & H).
  assert (Oc : coins_ok [ {| Denom := Denom c; Amount := v2 |} ]) by (destruct Ol as [_ F]; inversion F as [|? ? [_ Vc] _]; now apply single_ok).
  apply Coins_Add_exact in El as [O1 _]; [|assumption..]. apply coins_ok_tail in Ol. exact (IH _ _ Ol O1 H).
Qed.

Lemma needed_ok p n l : pool_inv p -> getMaximalNoSwapLPAmount p n = Ok l -> coins_ok l.
Proof.
  intros I H. unfold getMaximalNoSwapLPAmount in H. do 2 inv_bind H. destruct (v0 <=? 0); [discriminate H|]. apply bind_ok_inv in H as (liq & El & H).
  apply liq_listed in El as [Ol _]; [|exact I]. apply neededLoop_ok in H; [exact H | exact Ol | split; constructor].
Qed.

Lemma join_no_swap_books t a id so maxs k L r k' : Books k L -> id_ok id -> account a -> JoinPoolNoSwap t a id so maxs k = (Ok r, k') -> exists p', Books k' (<[id := p']> L).
Proof.
  intros Bk Hi Ha H. unfold JoinPoolNoSwap in H. apply recovering_ok in H. apply mbind_ok_inv in H as (p & k1 & E1 & H).
  destruct (load t id k L p k1 Bk Hi E1) as (-> & Ep & Ld). pose proof Ld as (p0 & _ & _ & _ & I & _ & Nn).
  apply mbind_ok_inv in H as (need & k1 & E2 & H). apply lift_ok_inv in E2 as [E2 <-]. apply needed_ok in E2 as On; [|exact I].
  apply mbind_ok_inv in H as (u & k1 & E3 & H). assert (k1 = k) as ->.
  { destruct maxs; [now injection E3 as _ <-|]. destruct (negb _) in E3; [discriminate E3|]. destruct (negb _) in E3; [discriminate E3|].
    destruct (negb _) in E3; [discriminate E3|]. now injection E3 as _ <-. }
  apply mbind_ok_inv in H as ([n p'] & k1 & E4 & H). apply with_pool_ok in E4 as [E4 ->]. apply mbind_ok_inv in H as (u2 & k1 & E5 & H). injection H as _ <-.
  apply join_no_swap_law in E4 as (_ & joined & J & _); [|exact I | exact Nn | exact On]. exists p'.
  assert (GetId p' = id) as <- by (destruct J as ((_ & X & _) & _); congruence). exact (books_join k k1 L p p' a n joined need u2 Bk Ld Ha J E5).
Qed.

Lemma join_exact_in_books t a id cs mn k L r k' : Books k L -> id_ok id -> account a -> coins_ok cs -> JoinSwapExactAmountIn t a id cs mn k = (Ok r, k') ->
  exists p', Books k' (<[id := p']> L).
Proof.
  intros Bk Hi Ha Oc H. unfold JoinSwapExactAmountIn in H. apply recovering_ok in H. apply mbind_ok_inv in H as (p & k1 & E1 & H).
  destruct (load_cfmm t id k L p k1 Bk Hi E1) as (-> & Ep & Ld). pose proof Ld as (p0 & _ & _ & _ & I & _ & Nn).
  apply mbind_ok_inv in H as ([n p'] & k1 & E4 & H). apply with_pool_ok in E4 as [E4 ->]. destruct (n <? mn); [discriminate H|]. destruct (n <=? 0); [discriminate H|].
  apply mbind_ok_inv in H as (u2 & k1 & E5 & H). injection H as _ <-. apply join_law in E4 as (joined & J); [|exact I | exact Nn | exact Oc]. exists p'.
  assert (GetId p' = id) as <- by (destruct J as ((_ & X & _) & _); congruence). exact (books_join k k1 L p p' a n joined cs u2 Bk Ld Ha J E5).
Qed.

Lemma join_share_out_books t a id d n mx k L r k' : Books k L -> id_ok id -> account a -> JoinSwapShareAmountOut t a id d n mx k = (Ok r, k') ->
  exists p', Books k' (<[id := p']> L).
Proof.
  intros Bk Hi Ha H. unfold JoinSwapShareAmountOut in H. apply recovering_ok in H. apply mbind_ok_inv in H as (p & k1 & E1 & H).
  destruct (load_cfmm t id k L p k1 Bk Hi E1) as (-> & Ep & Ld). pose proof Ld as (p0 & _ & _ & _ & I & _ & Nn). destruct (negb _); [discriminate H|].
  apply mbind_ok_inv in H as (amt & k1 & E2 & H). apply lift_ok_inv in E2 as [_ <-]. destruct (mx <? amt); [discriminate H|].
  apply mbind_ok_inv in H as (c & k1 & E2 & H). apply lift_ok_inv in E2 as [_ <-]. apply mbind_ok_inv in H as (cs & k1 & E2 & H). apply lift_ok_inv in E2 as [E2 <-].
  apply MakeCoins_exact in E2 as [Oc _]. apply mbind_ok_inv in H as ([u p'] & k1 & E4 & H). apply with_pool_ok in E4 as [E4 ->].
  apply mbind_ok_inv in H as (u2 & k1 & E5 & H). injection H as _ <-. apply increase_law in E4 as J; [|exact I | exact Oc]. exists p'.
  assert (GetId p' = id) as <- by (destruct J as ((_ & X & _) & _); congruence). exact (books_join k k1 L p p' a n cs cs u2 Bk Ld Ha J E5).
Qed.

(** ** Exits *)

Lemma books_exit k k' L p p' a n cs r : Books k L -> loaded k L p -> account a -> exits p n cs p' ->
  applyExitPoolStateChange p' a n cs k = (Ok r, k') -> Books k' (<[GetId p' := p']> L).
Proof.
  intros Bk Ld Ha (St & Oc & Le & Nn & Sh & Lq) H. pose proof Ld as (p0 & _ & _ & Hi & _ & Ea & _). pose proof St as (_ & Ei & Eadr & _).
  apply apply_exit_settles in H as Se; [|exact Ha | now rewrite Ei | congruence].
  apply (loaded_settles k k' L p p' _ _ Bk Ld Se St Nn); [lia|]. intros d. rewrite Lq. lia.
Qed.

Lemma exit_pool_books t a id n mins k L cs k' : Books k L -> id_ok id -> account a -> ExitPool t a id n mins k = (Ok cs, k') ->
  exists p', Books k' (<[id := p']> L) /\ coins_ok cs.
Proof.
  intros Bk Hi Ha H. unfold ExitPool in H. apply mbind_ok_inv in H as (p & k1 & E1 & H).
  destruct (load t id k L p k1 Bk Hi E1) as (-> & Ep & Ld). pose proof Ld as (p0 & _ & _ & _ & I & _ & _).
  destruct (_ <=? n); [discriminate H|]. destruct (Z.leb_spec n 0); [discriminate H|]. apply mbind_ok_inv in H as ([out p'] & k1 & E4 & H).
  apply with_pool_ok in E4 as [E4 ->]. destruct (negb _ || _); [discriminate H|]. apply mbind_ok_inv in H as (u2 & k1 & E5 & H). injection H as <- <-.
  apply exit_law in E4 as (_ & X & _); [|exact I | lia | apply (fees_inv p I)]. exists p'.
  assert (GetId p' = id) as <- by (destruct X as ((_ & Y & _) & _); congruence). split; [exact (books_exit k k1 L p p' a n out u2 Bk Ld Ha X E5) | apply X].
Qed.

Lemma exit_exact_out_books t a id c mx k L n k' : Books k L -> id_ok id -> account a -> coins_ok [c] -> ExitSwapExactAmountOut t a id c mx k = (Ok n, k') ->
  exists p', Books k' (<[id := p']> L).
Proof.
  intros Bk Hi Ha Oc H. unfold ExitSwapExactAmountOut in H. apply mbind_ok_inv in H as (p & k1 & E1 & H).
  destruct (load_cfmm t id k L p k1 Bk Hi E1) as (-> & Ep & Ld). pose proof Ld as (p0 & _ & _ & _ & I & _ & Nn). destruct (negb _); [discriminate H|].
  apply mbind_ok_inv in H as ([m p'] & k1 & E4 & H). apply with_pool_ok in E4 as [E4 ->]. apply mbind_ok_inv in H as (u2 & k1 & E5 & H). injection H as <- <-.
  apply exit_swap_law in E4 as (_ & X); [|exact I | exact Nn | exact Oc]. exists p'.
  assert (GetId p' = id) as <- by (destruct X as ((_ & Y & _) & _); congruence). exact (books_exit k k1 L p p' a m [c] u2 Bk Ld Ha X E5).
Qed.

(** ** Swaps *)

Lemma books_swap k k' L p p' a tin tout r : Books k L -> loaded k L p -> account a -> swaps p tin tout p' ->
  updatePoolForSwap p' a tin tout k = (Ok r, k') -> Books k' (<[GetId p' := p']> L) /\ loaded k' (<[GetId p' := p']> L) p'.
Proof.
  intros Bk Ld Ha (St & Sh & Lq) H. pose proof Ld as (p0 & _ & _ & Hi & _ & Ea & Nn). pose proof St as (I' & Ei & Eadr & _).
  apply update_swap_settles in H as Se; [|exact Ha | now rewrite Ei | congruence].
  assert (Bk' : Books k' (<[GetId p' := p']> L)).
  { apply (loaded_settles k k' L p p' _ _ Bk Ld Se St); [lia | lia|]. intros d. rewrite Lq. lia. }
  split; [exact Bk'|]. apply (current_loaded k' _ (GetId p') p' p' Bk'); [apply lookup_insert_eq|]. repeat split; auto.
Qed.

(** A swap that leaves something of what it pays. *)
Lemma swap_in_books a p tin dout mn fee k L out p' k' : Books k L -> loaded k L p -> account a -> coins_ok [tin] -> ValidateDenom dout = true ->
  0 <= fee < OneDec -> SwapExactAmountIn a p tin dout mn fee k = (Ok (out, p'), k') -> out < pool_liq p dout ->
  GetId p' = GetId p /\ Books k' (<[GetId p := p']> L) /\ loaded k' (<[GetId p := p']> L) p'.
Proof.
  intros Bk Ld Ha Oi Vd Hf H Lt. pose proof Ld as (p0 & _ & _ & _ & I & _ & _). unfold SwapExactAmountIn in H.
  destruct (String.eqb_spec (Denom tin) dout) as [|Ne]; [discriminate H|]. apply mbind_ok_inv in H as (h & k1 & E1 & H). apply lift_ok_inv in E1 as [_ <-].
  destruct (fee <? h); [discriminate H|]. apply recovering_ok in H. apply mbind_ok_inv in H as ([o q] & k1 & E2 & H). apply with_pool_ok in E2 as [E2 ->].
  destruct (negb _); [discriminate H|]. destruct (_ <? mn); [discriminate H|]. apply mbind_ok_inv in H as (u & k1 & E3 & H). injection H as <- <- <-.
  apply swap_out_law in E2 as (_ & _ & Sw); [|assumption..]. specialize (Sw Lt). pose proof Sw as ((_ & Ei & _) & _). rewrite <- Ei.
  split; [reflexivity|]. exact (books_swap k k1 L p q a tin o u Bk Ld Ha Sw E3).
Qed.

Lemma swap_out_books t a p din mx tout fee k L r p' k' : Books k L -> loaded k L p -> account a -> coins_ok [tout] -> ValidateDenom din = true ->
  0 <= fee < OneDec -> SwapExactAmountOut t a p din mx tout fee k = (Ok (r, p'), k') ->
  GetId p' = GetId p /\ Books k' (<[GetId p := p']> L) /\ loaded k' (<[GetId p := p']> L) p'.
Proof.
  intros Bk Ld Ha Oo Vd Hf H. pose proof Ld as (p0 & El & Cu & Hi & I & _ & _). unfold SwapExactAmountOut in H.
  destruct (String.eqb_spec din (Denom tout)) as [|Ne]; [discriminate H|]. apply recovering_ok in H. apply mbind_ok_inv in H as (liq & k1 & E1 & H).
  unfold gamm_GetTotalPoolLiquidity in E1. apply mbind_ok_inv in E1 as (q & k2 & E1 & El2). apply lift_ok_inv in El2 as [El2 <-].
  destruct (get_cfmm_pool t (GetId p) k L q k2 Bk Hi E1) as (-> & q0 & Eq & Cq). rewrite El in Eq. injection Eq as <-.
  apply liq_listed in El2 as [Ol Al]; [|apply Cq]. apply mbind_ok_inv in H as (bal & k2 & E2 & H). apply lift_ok_inv in E2 as [E2 <-].
  rewrite Coins_AmountOf_spec in E2; [apply Ok_inj in E2; symmetry in E2 | exact Ol | destruct Oo as [_ F]; inversion F as [|? ? [_ Vt] _]; exact Vt]. destruct (Z.leb_spec bal (Amount tout)) as [|Lt]; [discriminate H|].
  apply mbind_ok_inv in H as ([i q'] & k1 & E3 & H). apply with_pool_ok in E3 as [E3 ->]. destruct (_ <=? 0); [discriminate H|]. destruct (mx <? _); [discriminate H|].
  apply mbind_ok_inv in H as (u & k1 & E4 & H). injection H as <- <- <-.
  assert (Lt' : Amount tout < pool_liq p (Denom tout)).
  { destruct Cu as (_ & _ & L1). destruct Cq as (_ & _ & L2). rewrite E2, Al, L2, <- L1 in Lt. exact Lt. }
  apply swap_in_law in E3 as (_ & _ & Sw); [|assumption..]. pose proof Sw as ((_ & Ei & _) & _). rewrite <- Ei.
  split; [reflexivity|]. exact (books_swap k k1 L p q' a i tout u Bk Ld Ha Sw E4).
Qed.

(** Every swap of [ExitSwapShareAmountIn] leaves something of what it pays. *)
Inductive exit_swaps (a : Address) (dout : string) (fee : Z) : list Coin -> P -> Keeper -> Prop :=
| es_nil p k : exit_swaps a dout fee [] p k
| es_same c cs p k : Denom c = dout -> exit_swaps a dout fee cs p k -> exit_swaps a dout fee (c :: cs) p k
| es_swap c cs p k : Denom c <> dout ->
    (forall out p' k', SwapExactAmountIn a p c dout 0 fee k = (Ok (out, p'), k') -> out < pool_liq p dout) ->
    (forall out p' k', SwapExactAmountIn a p c dout 0 fee k = (Ok (out, p'), k') -> exit_swaps a dout fee cs p' k') ->
    exit_swaps a dout fee (c :: cs) p k.

Lemma exit_loop_books a dout fee cs : forall p k L n r k', Books k L -> loaded k L p -> account a -> Forall (fun c => coins_ok [c]) cs -> ValidateDenom dout = true ->
  0 <= fee < OneDec -> exit_swaps a dout fee cs p k -> exitSwapLoop a p cs dout fee n k = (Ok r, k') -> exists L', Books k' L'.
Proof.
  induction cs as [|c cs IH]; intros p k L n r k' Bk Ld Ha F Vd Hf X H; cbn [exitSwapLoop] in H; [injection H as _ <-; eauto|].
  inversion F as [|? ? Oc F']; subst. destruct (String.eqb_spec (Denom c) dout) as [Ed|Nd].
  - inversion X; subst; [|contradiction]. exact (IH p k L n r k' Bk Ld Ha F' Vd Hf ltac:(assumption) H).
  - inversion X as [| |? ? ? ? _ Sw Nx]; subst; [contradiction|]. apply mbind_ok_inv in H as ([out p'] & k1 & E1 & H). pose proof (Sw out p' k1 E1) as Lt. pose proof (Nx out p' k1 E1) as X'.
    apply mbind_ok_inv in H as (m & k2 & E2 & H). apply lift_ok_inv in E2 as [_ <-].
    destruct (swap_in_books a p c dout 0 fee k L out p' k1 Bk Ld Ha Oc Vd Hf E1 Lt) as (_ & Bk' & Ld'). exact (IH p' k1 _ m r k' Bk' Ld' Ha F' Vd Hf X' H).
Qed.

Lemma exit_swap_books t a id dout n mn k L r k' : Books k L -> id_ok id -> account a -> ValidateDenom dout = true ->
  (forall cs k1 p, ExitPool t a id n [] k = (Ok cs, k1) -> GetPool t id k1 = (Ok p, k1) -> exit_swaps a dout (GetSpreadFactor p) cs p k1) ->
  ExitSwapShareAmountIn t a id dout n mn k = (Ok r, k') -> exists L', Books k' L'.
Proof.
  intros Bk Hi Ha Vd Sw H. unfold ExitSwapShareAmountIn in H. apply mbind_ok_inv in H as (cs & k1 & E1 & H).
  destruct (exit_pool_books t a id n [] k L cs k1 Bk Hi Ha E1) as (p1 & Bk1 & Oc). apply mbind_ok_inv in H as (p & k2 & E2 & H).
  destruct (load t id k1 _ p k2 Bk1 Hi E2) as (-> & _ & Ld). pose proof Ld as (_ & _ & _ & _ & I & _). apply mbind_ok_inv in H as (m & k2 & E3 & H). apply lift_ok_inv in E3 as [_ <-].
  apply mbind_ok_inv in H as (o & k2 & E4 & H). destruct (o <? mn); [discriminate H|]. injection H as _ <-.
  apply (exit_loop_books a dout (GetSpreadFactor p) cs p k1 _ m o k2 Bk1 Ld Ha); [|exact Vd | apply (fees_inv p I) | exact (Sw cs k1 p E1 E2) | exact E4].
  destruct Oc as [_ F]. revert F. apply List.Forall_impl. intros c [Pc Vc]. now apply single_ok.
Qed.

(** ** Creation *)

(** [poolmanager.CreatePool]: the pool is initialized, then its liquidity arrives. *)
Lemma create_books p a l k L k1 r k2 r2 : Books k L -> id_ok (GetId p) -> L !! GetId p = None -> pool_inv p -> GetAddress p = Ok (pool_addr (GetId p)) -> account a ->
  (forall d, amount_of l d = pool_liq p d) -> InitializePool p a k = (Ok r, k1) -> on_ext (SendCoins a (pool_addr (GetId p)) l) k1 = (Ok r2, k2) ->
  Books k2 (<[GetId p := p]> L).
Proof.
  intros [Bp Bt Bi Bf Bs Br] Hi Nl I Ea Ha Al H Hs. unfold InitializePool in H. destruct (negb _); [discriminate H|].
  apply mbind_ok_inv in H as (u1 & k3 & E1 & H). apply (mint_money p a) in E1 as (Nn & Es1 & M1); [|assumption..].
  apply mbind_ok_inv in H as (u2 & k4 & E2 & H). apply setPool_changes in E2 as [[P2 T2 R2] X2]; [|exact Hi].
  apply mbind_ok_inv in H as (u3 & k5 & E3 & H). apply bank_call_ok in E3 as (e5 & E3 & ->). apply (ho_created _ hooks_lawful), money_harmless in E3.
  apply mbind_ok_inv in H as (lq & k6 & E4 & H). apply lift_ok_inv in E4 as [E4 <-]. apply liq_listed in E4 as [_ Alq]; [|exact I].
  apply increase_changes in H as [[P5 T5 R5] X5]. cbn [g_ext g_store] in *. apply bank_call_ok in Hs as (e2 & Es & ->). rewrite X5 in Es. cbn [g_ext] in Es.
  apply send_law, (money_in a (GetId p) l) in Es; [|exact Ha | exact Hi]. rewrite X2 in E3. pose proof (money_trans _ _ _ _ _ _ _ (money_trans _ _ _ _ _ _ _ M1 E3) Es) as [Mb Ms].
  split; cbn [g_store g_ext].
  - intros id Hd. change (v_pool k1 id = VPool <$> <[GetId p := p]> L !! id). rewrite P5 by exact Hd. change (v_pool k4 id = VPool <$> <[GetId p := p]> L !! id). rewrite P2 by exact Hd. unfold put_at.
    destruct (decide (id = GetId p)) as [->|N]; [now rewrite lookup_insert_eq|]. rewrite lookup_insert_ne by congruence. unfold v_pool. rewrite Es1. now apply Bp.
  - apply T5. change (typed (g_store k4)). apply T2. rewrite Es1. exact Bt.
  - intros id q Hq. destruct (decide (id = GetId p)) as [->|N]; [rewrite lookup_insert_eq in Hq; injection Hq as <-; repeat split; auto; apply Hi|].
    rewrite lookup_insert_ne in Hq by congruence. now apply Bi.
  - intros id q d Hq. unfold v_bal. cbn [g_ext]. unfold ind in Mb. destruct (decide (id = GetId p)) as [->|N].
    + specialize (Mb (GetId p) d Hi). rewrite lookup_insert_eq in Hq. injection Hq as <-. rewrite decide_True in Mb by reflexivity. rewrite Al in Mb.
      destruct (balances_listed (pool_addr (GetId p)) (g_ext k)) as [Ob Ab]. pose proof (coins_ok_nonneg _ d Ob) as Nb. rewrite Ab in Nb. lia.
    + rewrite lookup_insert_ne in Hq by congruence. specialize (Mb id d (proj1 (Bi _ _ Hq))). rewrite decide_False in Mb by congruence. specialize (Bf _ _ d Hq). unfold v_bal in Bf. lia.
  - intros id Hd. specialize (Ms id Hd). unfold v_sup. cbn [g_ext]. rewrite Ms. fold (v_sup k id). rewrite Bs by exact Hd. unfold ind.
    destruct (decide (id = GetId p)) as [->|N]; [rewrite lookup_insert_eq, Nl, decide_True by reflexivity; lia|]. rewrite lookup_insert_ne, decide_False by congruence. lia.
  - intros d. rewrite msum_insert by exact Nl. change (pool_liq p d + msum (fun p => pool_liq p d) L <= v_rec k1 d). rewrite R5, Alq.
    change (pool_liq p d + msum (fun p => pool_liq p d) L <= v_rec k4 d + pool_liq p d). rewrite R2. unfold v_rec, v_stored. rewrite Es1. specialize (Br d). unfold v_rec, v_stored in Br. lia.
Qed.

(** ** Runs *)

(** One transaction of the module, or of somebody else that takes nothing from
    the account of a pool and makes no shares.  A swap leaves something of the
    asset that it pays: one that does not is out of the books. *)
Inductive gamm_step (k k' : Keeper) : Prop :=
| step_create p a l k1 r r2 : id_ok (GetId p) -> v_pool k (GetId p) = None -> pool_inv p -> GetAddress p = Ok (pool_addr (GetId p)) -> account a ->
    (forall d, amount_of l d = pool_liq p d) -> InitializePool p a k = (Ok r, k1) -> on_ext (SendCoins a (pool_addr (GetId p)) l) k1 = (Ok r2, k') -> gamm_step k k'
| step_join t a id n mx r : id_ok id -> account a -> JoinPoolNoSwap t a id n mx k = (Ok r, k') -> gamm_step k k'
| step_join_in t a id cs mn r : id_ok id -> account a -> coins_ok cs -> JoinSwapExactAmountIn t a id cs mn k = (Ok r, k') -> gamm_step k k'
| step_join_shares t a id d n mx r : id_ok id -> account a -> JoinSwapShareAmountOut t a id d n mx k = (Ok r, k') -> gamm_step k k'
| step_exit t a id n mn r : id_ok id -> account a -> ExitPool t a id n mn k = (Ok r, k') -> gamm_step k k'
| step_exit_out t a id c mx r : id_ok id -> account a -> coins_ok [c] -> ExitSwapExactAmountOut t a id c mx k = (Ok r, k') -> gamm_step k k'
| step_exit_swap t a id d n mn r : id_ok id -> account a -> ValidateDenom d = true ->
    (forall cs k1 p, ExitPool t a id n [] k = (Ok cs, k1) -> GetPool t id k1 = (Ok p, k1) -> exit_swaps a d (GetSpreadFactor p) cs p k1) ->
    ExitSwapShareAmountIn t a id d n mn k = (Ok r, k') -> gamm_step k k'
| step_swap_in t a id p tin dout mn fee out p' : id_ok id -> account a -> coins_ok [tin] -> ValidateDenom dout = true -> 0 <= fee < OneDec ->
    GetPool t id k = (Ok p, k) -> SwapExactAmountIn a p tin dout mn fee k = (Ok (out, p'), k') -> out < pool_liq p dout -> gamm_step k k'
| step_swap_out t a id p din mx tout fee r p' : id_ok id -> account a -> coins_ok [tout] -> ValidateDenom din = true -> 0 <= fee < OneDec ->
    GetPool t id k = (Ok p, k) -> SwapExactAmountOut t a p din mx tout fee k = (Ok (r, p'), k') -> gamm_step k k'
| step_retune t id p p' r : id_ok id -> GetPool t id k = (Ok p, k) -> current p p' -> setPool p' k = (Ok r, k') -> gamm_step k k'
| step_other : g_store k' = g_store k -> harmless (g_ext k) (g_ext k') -> gamm_step k k'.

Lemma none_stored k L id : Books k L -> id_ok id -> v_pool k id = None -> L !! id = None.
Proof. intros Bk Hi H. rewrite (bk_pools k L Bk id Hi) in H. now destruct (L !! id). Qed.

Lemma retune_books k L p p' r k' : Books k L -> loaded k L p -> current p p' -> setPool p' k = (Ok r, k') -> Books k' (<[GetId p' := p']> L).
Proof.
  intros Bk Ld (St & Sh & Lq) H. pose proof Ld as (p0 & _ & _ & Hi & _ & _ & Nn). pose proof St as (_ & Ei & _).
  apply setPool_changes in H as [Ch X]; [|now rewrite Ei]. apply (loaded_settles k k' L p p' (fun _ => 0) 0 Bk Ld); [|exact St | lia | lia | intros d; rewrite Lq; lia].
  split; [exact Ch | intros id d _; unfold v_bal; rewrite X; lia | intros id _; unfold v_sup; rewrite X; lia].
Qed.

Lemma step_books k k' L : Books k L -> gamm_step k k' -> exists L', Books k' L'.
Proof.
  intros Bk H. destruct H.
  - eexists. apply (create_books p a l k L k1 r k' r2); eauto using none_stored.
  - edestruct join_no_swap_books as [p' X]; eauto.
  - edestruct join_exact_in_books as [p' X]; eauto.
  - edestruct join_share_out_books as [p' X]; eauto.
  - edestruct exit_pool_books as (p' & X & _); eauto.
  - edestruct exit_exact_out_books as [p' X]; eauto.
  - eapply exit_swap_books; eauto.
  - match goal with X : GetPool _ _ _ = _ |- _ => destruct (load t id k L p k Bk ltac:(assumption) X) as (_ & _ & Ld) end.
    edestruct swap_in_books as (_ & X & _); eauto.
  - match goal with X : GetPool _ _ _ = _ |- _ => destruct (load t id k L p k Bk ltac:(assumption) X) as (_ & _ & Ld) end.
    edestruct swap_out_books as (_ & X & _); eauto.
  - match goal with X : GetPool _ _ _ = _ |- _ => destruct (load t id k L p k Bk ltac:(assumption) X) as (_ & _ & Ld) end. eauto using retune_books.
  - exists L. match goal with X : g_store _ = _, Y : harmless _ _ |- _ => rename X into Es; destruct Y as [Hb Hs] end. destruct Bk as [Bp Bt Bi Bf Bs Br]. split.
    + intros id Hi. unfold v_pool. rewrite Es. now apply Bp.
    + now rewrite Es.
    + exact Bi.
    + intros id p d Hp. specialize (Bf id p d Hp). specialize (Hb id d). unfold v_bal in *. lia.
    + intros id Hi. unfold v_sup. rewrite Hs. now apply Bs.
    + intros d. unfold v_rec, v_stored. rewrite Es. apply Br.
Qed.

Lemma run_books k k' : rtc gamm_step k k' -> forall L, Books k L -> exists L', Books k' L'.
Proof. induction 1 as [k|k k1 k' H _ IH]; intros L Bk; [eauto|]. destruct (step_books k k1 L Bk H) as [L1 B1]. exact (IH L1 B1). Qed.

(** ** The module's own invariant *)

Lemma poke_all_current t l : forall k L ps k', Books k L -> (forall key v, In (key, v) l -> st_get (g_store k) key = Some v) -> pokeAll t l k = (Ok ps, k') ->
  k' = k /\ Forall (fun p => loaded k L p) ps.
Proof.
  induction l as [|[key v] l IH]; intros k L ps k' Bk F H; cbn [pokeAll] in H; [injection H as <- <-; split; [reflexivity | constructor]|].
  pose proof (F key v (or_introl eq_refl)) as G. destruct v as [p0|n]; [|discriminate H].
  apply mbind_ok_inv in H as (p & k1 & E1 & H). apply mbind_ok_inv in H as (qs & k2 & E2 & H). injection H as <- <-.
  destruct (bk_typed k L Bk key _ G) as [(id & q & Hi & -> & X)|(d & n & _ & X)]; [|discriminate X].
  pose proof (bk_pools k L Bk id Hi) as Ep. unfold v_pool in Ep. rewrite G in Ep. destruct (L !! id) as [q0|] eqn:El; [|discriminate Ep]. cbn in Ep. injection Ep as <-.
  apply poke_current in E1 as [-> Cu]; [|apply (bk_ids k L Bk id p0 El)]. destruct (current_loaded k L id p0 p Bk El Cu) as [_ Ld].
  destruct (IH k L qs k2 Bk (fun key v I => F key v (or_intror I)) E2) as [-> Fq]. split; [reflexivity | now constructor].
Qed.

Lemma accounts_hold k L ps b : Books k L -> Forall (fun p => loaded k L p) ps -> accountsBroken (g_ext k) ps = Ok b -> b = false.
Proof.
  intros Bk. induction 1 as [|p ps (p0 & El & (_ & _ & Lq) & _ & I & Ea & _) _ IH]; intros H; cbn [accountsBroken] in H; [now apply Ok_inj in H as <-|].
  apply bind_ok_inv in H as (ex & E1 & H). apply liq_listed in E1 as [Oe Ae]; [|exact I]. rewrite Ea in H. cbn [bind] in H.
  destruct (balances_listed (pool_addr (GetId p)) (g_ext k)) as [Ob Ab]. rewrite (proj2 (Coins_IsAllGTE_spec _ _ Ob Oe)) in H; [exact (IH H)|].
  intros d. rewrite Ae, Ab, Lq. exact (bk_funds k L Bk _ _ d El).
Qed.

Lemma invariant_holds t k L k' : Books k L -> PoolAccountInvariant t k = (Ok true, k') -> exists e, GetPoolsAndPoke t k = (Err e, k').
Proof.
  intros Bk H. unfold PoolAccountInvariant in H. destruct (GetPoolsAndPoke t k) as [[ps|e|m] k1] eqn:G; [|injection H as <-; eauto | discriminate H]. exfalso.
  unfold GetPoolsAndPoke in G. apply mbind_ok_inv in G as (k2 & k3 & E1 & G). injection E1 as <- <-.
  apply (poke_all_current t _ k L ps k1 Bk) in G as [-> F]; [|intros key v I; now apply st_iter_in in I].
  assert (Hb : accountsBroken (g_ext k) ps = Ok true) by congruence. apply (accounts_hold k L ps true Bk F) in Hb. discriminate Hb.
Qed.

(** The shares of every pool are all in circulation, its account holds its
    liquidity, and the record covers the liquidity of all pools. *)
Definition solvent (k : Keeper) : Prop :=
  (forall id p, id_ok id -> v_pool k id = Some (VPool p) ->
     GetId p = id /\ v_sup k id = GetTotalShares p /\ forall d, pool_liq p d <= v_bal k id d /\ pool_liq p d <= v_rec k d) /\
  (forall id, id_ok id -> v_pool k id = None -> v_sup k id = 0).

Lemma books_solvent k L : Books k L -> solvent k.
Proof.
  intros Bk. split.
  - intros id p Hi Hp. rewrite (bk_pools k L Bk id Hi) in Hp. destruct (L !! id) as [q|] eqn:El; [|discriminate Hp]. cbn in Hp. injection Hp as ->.
    destruct (bk_ids k L Bk id p El) as (_ & Ei & I & _ & _). split; [exact Ei|]. split; [rewrite (bk_supply k L Bk id Hi), El; reflexivity|].
    intros d. split; [exact (bk_funds k L Bk id p d El)|]. pose proof (bk_record k L Bk d). enough (pool_liq p d <= msum (fun p => pool_liq p d) L) by lia.
    apply (msum_member (fun p => pool_liq p d) L id p); [|exact El]. intros j y Hy. apply liq_nonneg. apply (bk_ids k L Bk j y Hy).
  - intros id Hi Hp. rewrite (bk_supply k L Bk id Hi). now rewrite (none_stored k L id Bk Hi Hp).
Qed.

(** The state of a new chain. *)
Definition genesis (k : Keeper) : Prop := (forall key, st_get (g_store k) key = None) /\ forall id, id_ok id -> v_sup k id = 0.

Lemma genesis_books k : genesis k -> Books k ∅.
Proof.
  intros [Em Sz]. split.
  - intros id _. rewrite lookup_empty. apply Em.
  - intros key v H. now rewrite Em in H.
  - intros id p H. now rewrite lookup_empty in H.
  - intros id p d H. now rewrite lookup_empty in H.
  - intros id Hi. rewrite lookup_empty. now apply Sz.
  - intros d. rewrite msum_empty. unfold v_rec, v_stored. rewrite Em. lia.
Qed.

(** ** Joining and leaving through the keeper *)

Lemma join_exit_amounts t a id n mx t' a' m mn k L need sh k1 out k2 : Books k L -> id_ok id -> account a -> m <= sh ->
  JoinPoolNoSwap t a id n mx k = (Ok (need, sh), k1) -> ExitPool t' a' id m mn k1 = (Ok out, k2) -> forall d, amount_of out d <= amount_of need d.
Proof.
  intros Bk Hi Ha Hm HJ HE d. destruct (join_no_swap_books t a id n mx k L (need, sh) k1 Bk Hi Ha HJ) as (p1 & Bk1).
  assert (J : exists p joined, joins p sh joined need p1 /\ pool_inv p /\ 0 <= GetTotalShares p /\ 0 <= sh /\ forall d, pool_liq p d <> 0 -> sh * pool_liq p d <= GetTotalShares p * amount_of joined d).
  { unfold JoinPoolNoSwap in HJ. apply recovering_ok in HJ. apply mbind_ok_inv in HJ as (p & k3 & E1 & H). destruct (load t id k L p k3 Bk Hi E1) as (-> & Ep & Ld).
    pose proof Ld as (p0 & _ & _ & _ & I & Ea & Nn). apply mbind_ok_inv in H as (nd & k3 & E2 & H). apply lift_ok_inv in E2 as [E2 <-]. apply needed_ok in E2 as On; [|exact I].
    apply mbind_ok_inv in H as (u & k3 & _ & H). apply mbind_ok_inv in H as ([s p'] & k4 & E4 & H). apply with_pool_ok in E4 as [E4 ->].
    apply mbind_ok_inv in H as (u2 & k4 & E5 & H). injection H as -> -> ->. apply join_no_swap_law in E4 as (Ns & joined & J & Fj); [|exact I | exact Nn | exact On].
    exists p, joined. assert (p1 = p') as ->; [|auto]. pose proof J as ((_ & Ei & Eadr & _) & _). destruct Ld as (_ & _ & _ & Hid & _).
    apply apply_join_settles in E5 as [_ [[Cp _ _] _ _]]; [|exact Ha | congruence | congruence]. specialize (Cp id Hi). rewrite (bk_pools k1 _ Bk1 id Hi), lookup_insert_eq in Cp.
    unfold put_at in Cp. rewrite decide_True in Cp by congruence. cbn in Cp. now injection Cp. }
  destruct J as (p & joined & ((I1 & Ei & _) & Oj & Lj & Sh & Lq) & I & Nn & Ns & Fj). unfold ExitPool in HE. apply mbind_ok_inv in HE as (q & k3 & E1 & H).
  destruct (get_pool t' id k1 _ q k3 Bk1 Hi E1) as (-> & q0 & Eq & (St & Shq & Lqq)). rewrite lookup_insert_eq in Eq. injection Eq as <-. destruct (_ <=? m) in H; [discriminate H|].
  destruct (Z.leb_spec m 0) in H; [discriminate H|]. apply mbind_ok_inv in H as ([o q'] & k3 & E4 & H). apply with_pool_ok in E4 as [E4 ->]. destruct (negb _ || _); [discriminate H|].
  apply mbind_ok_inv in H as (u & k3 & E5 & H). injection H as -> ->. pose proof St as (Iq & _ & _ & _ & Ef & _).
  pose proof (fees_inv q Iq) as [_ Hf]. apply exit_law in E4 as (Lk & (_ & Oo & Le & _) & Up); [|exact Iq | lia | exact Hf].
  specialize (Up d). specialize (Le d). rewrite Shq, Sh in Lk. rewrite Shq, Sh, Lqq, Lq in Up. rewrite Lqq, Lq in Le. specialize (Lj d).
  pose proof (coins_ok_nonneg joined d Oj) as Pj. pose proof (liq_nonneg p d I) as Pl. destruct (Z.eq_dec (pool_liq p d) 0) as [Z0|Nz]; [lia|]. specialize (Fj d Nz).
  enough (amount_of out d <= amount_of joined d) by lia.
  apply (fair_share (pool_liq p d) (GetTotalShares p) (amount_of joined d) sh (amount_of out d) OneDec (GetExitFee q)); try assumption; [lia|].
  assert ((OneDec - GetExitFee q) * m * (pool_liq p d + amount_of joined d) <= (OneDec - GetExitFee q) * sh * (pool_liq p d + amount_of joined d)); [|lia].
  apply Z.mul_le_mono_nonneg_r; [lia|]. apply Z.mul_le_mono_nonneg_l; lia.
Qed.

(** ** Theorems *)

(** C11: From a new chain on, for any run of pool creations, joins, exits, swaps
    that leave something of the asset they pay (also those inside an exit into one
    asset), changes of weights or factors, and activity of others that takes
    nothing from a pool's account and makes no shares, the pools are solvent: the
    account of every pool holds its liquidity, all its shares are in circulation
    and no others, the record of the total liquidity covers it; and the invariant
    that the module registers is reported as broken only when a pool cannot be
    read.  (A swap of a weighted pool that pays all of an asset is not covered: it
    succeeds and leaves a balance recorded that the account no longer holds.) *)
Theorem gamm_solvent k k' : genesis k -> rtc gamm_step k k' ->
  solvent k' /\ forall t k2, PoolAccountInvariant t k' = (Ok true, k2) -> exists e, GetPoolsAndPoke t k' = (Err e, k2).
Proof.
  intros G R. destruct (run_books k k' R ∅ (genesis_books k G)) as (L & Bk). split; [exact (books_solvent k' L Bk)|].
  intros t k2. exact (invariant_holds t k' L k2 Bk).
Qed.

(** C12: Nobody gains by joining a pool in its ratio and leaving again: at most
    as many shares as the join gave, whenever they are returned and by whom, pay
    at most what the join took, in every denomination. *)
Theorem join_exit_no_gain t a id n mx t' a' m mn k0 k need sh k1 out k2 : genesis k0 -> rtc gamm_step k0 k -> id_ok id -> account a -> m <= sh ->
  JoinPoolNoSwap t a id n mx k = (Ok (need, sh), k1) -> ExitPool t' a' id m mn k1 = (Ok out, k2) -> forall d, amount_of out d <= amount_of need d.
Proof.
  intros G R Hi Ha Hm HJ HE. destruct (run_books k0 k R ∅ (genesis_books k0 G)) as (L & Bk). exact (join_exit_amounts t a id n mx t' a' m mn k L need sh k1 out k2 Bk Hi Ha Hm HJ HE).
Qed.

End Ops.

(** ** Governing the stableswap pools

    Changing the scaling factors of a pool, which its controller may do, or the
    controller are steps of the runs: they change nothing of what the books
    record. *)

Section Governed.
Context {S : SdkMath} {SS : SdkMathSpec S} {D : SdkMore} {DS : SdkMoreSpec D} {DP : SdkPool} {DPS : SdkPoolSpec S D DP}
  {C : CoinsOps} {CS : CoinsSpec C} {CM : CoinsMore} {CMS : CoinsMoreSpec C CM} {B : BigEndian} {BS : BigEndianSpec B} {E : PrefixEnd} {ES : PrefixEndSpec E} {T : GammText}.
Context {GK : GammKeepers} {V : GammView GK} {GS : GammKeepersSpec GK} {GD : GammDomain GK} {KV : KVStore (Stored PoolI)} {KS : KVStoreSpec KV}.

(** All that a change of parameters has to leave as it is. *)
Lemma stable_current q q' : pool_inv (PStable q) -> stable_ok q' -> Stableswap.Id q' = Stableswap.Id q -> Stableswap.PoolAddress q' = Stableswap.PoolAddress q ->
  Stableswap.Params q' = Stableswap.Params q -> Stableswap.TotalShares q' = Stableswap.TotalShares q -> Stableswap.PoolLiquidity q' = Stableswap.PoolLiquidity q ->
  current (PStable q) (PStable q').
Proof.
  intros [O F] O' Ei Ea Ep Es El. split; [|split; [cbn; now rewrite Es | intros d; cbn; unfold sliq; now rewrite El]].
  unfold steady. cbn. unfold Stableswap.GetAddress, Stableswap.GetSpreadFactor, Stableswap.GetExitFee in *. rewrite Ei, Ea, Ep. repeat split; try assumption; try apply O'; apply F.
Qed.

Lemma factors_step t id sf sender k L r k' : Books k L -> id_ok id -> setStableSwapScalingFactors t id sf sender k = (Ok r, k') -> gamm_step k k'.
Proof.
  intros Bk Hi H. unfold setStableSwapScalingFactors in H. apply mbind_ok_inv in H as (p & k1 & E1 & H).
  destruct (load t id k L p k1 Bk Hi E1) as (-> & _ & (p0 & _ & _ & _ & I & _)). destruct p as [q|q]; [discriminate H|].
  apply mbind_ok_inv in H as ([u p'] & k2 & E2 & H). apply with_pool_ok in E2 as [E2 ->].
  unfold on_pool in E2. destruct (Stableswap.SetScalingFactors sf sender q) as [r2 q'] eqn:Ef. pose proof (f_equal snd E2) as X. pose proof (f_equal fst E2) as Y. cbn in X, Y. subst p' r2.
  destruct (set_factors_ok sf sender q u q' (proj1 I) Ef) as (O' & _ & Ei & Ea & Ep & Es & El).
  exact (step_retune k k' t id (PStable q) (PStable q') r Hi E1 (stable_current q q' I O' Ei Ea Ep Es El) H).
Qed.

Lemma controller_step t id addr k L r k' : Books k L -> id_ok id -> setStableSwapScalingFactorController t id addr k = (Ok r, k') -> gamm_step k k'.
Proof.
  intros Bk Hi H. unfold setStableSwapScalingFactorController in H. apply mbind_ok_inv in H as (p & k1 & E1 & H).
  destruct (load t id k L p k1 Bk Hi E1) as (-> & _ & (p0 & _ & _ & _ & I & _)). destruct p as [q|q]; [discriminate H|].
  refine (step_retune k k' t id (PStable q) _ r Hi E1 _ H). destruct I as [O F]. apply stable_current; try reflexivity; [exact (conj O F)|]. destruct O. now split.
Qed.

End Governed.
