(* ===== verification/GammRuns.v ===== *)
(** * Runs of [x/gamm]

    A reference bank, text formats and stores satisfy what the theorems assume,
    and runs from a new chain go through the operations of both pool models. *)

From stdpp Require Import base gmap.
From Stdlib Require Import ZArith Lia List Bool String Ascii Sorted.
From S2P Require Import Prelude GoBig BigInt BigDec SdkMath SdkMore BinarySearch Store SumTree SumTreeSet MapSum GoState SdkCoins SdkCoinsRef SdkPool SdkPoolRef.
From S2P Require Import DecMath Cfmm GammTypes GammBalancer GammStableswap GammBalancerOk GammStableswapOk GammStableswapSwap GammPool.
Import ListNotations.
Import CFMMPool.
From S2P Require Import GammBalancerLaws GammPoolLaws Gamm GammBooks GammCorrect.
Open Scope Z_scope.

(** ** Text *)

Definition pool_text (id : Z) : string := "pool" ++ decimal id.

#[export] Instance gamm_text : GammText := {|
  FromBech32 s := match s with EmptyString => Err "empty address string is not allowed" | _ => Ok (string_bytes s) end;
  NewPoolAddress := pool_text;
  ParseDuration _ := Err "time: invalid duration"
|}.

(** ** The bank, with the supply of every denomination *)

Record GBank : Type := { gb_bal : Bank; gb_sup : list Coin }.

Definition gamm_module : Address := [9; 9; 9; 9; 9; 9].

Definition gsend (from to : Address) (cs : list Coin) : M GBank unit :=
  zoom gb_bal (fun b e => {| gb_bal := b; gb_sup := gb_sup e |}) (send from to cs).

Definition gmint (cs : list Coin) : M GBank unit := fun e =>
  if valid_coins cs then (Ok tt, {| gb_bal := give gamm_module cs (gb_bal e); gb_sup := cs ++ gb_sup e |}) else (Err "invalid coins", e).
Definition gburn (cs : list Coin) : M GBank unit := fun e =>
  if covers cs (held (gb_bal e) gamm_module) then (Ok tt, {| gb_bal := take gamm_module cs (gb_bal e); gb_sup := map neg_coin cs ++ gb_sup e |})
  else (Err "insufficient funds", e).

#[export] Instance gamm_bank : GammKeepers := {|
  Ext := GBank;
  GetAllBalances a e := held (gb_bal e) a;
  SendCoins := gsend;
  MintCoins _ := gmint;
  BurnCoins _ := gburn;
  Gamm.SendCoinsFromModuleToAccount _ a cs := gsend gamm_module a cs;
  Gamm.SendCoinsFromAccountToModule a _ cs := gsend a gamm_module cs;
  gamm_hooks := MultiGammHooks []
|}.

#[export] Instance gamm_bank_view : GammView gamm_bank := {|
  balance e a d := amount_of (held (gb_bal e) a) d;
  supply e d := amount_of (gb_sup e) d;
  module_addr _ := gamm_module;
  pool_addr id := string_bytes (pool_text id)
|}.

Lemma gsend_moves a b cs e r e' : gsend a b cs e = (Ok r, e') -> moves a b cs e e'.
Proof.
  unfold gsend, zoom. destruct (send a b cs (gb_bal e)) as [r0 b0] eqn:Es. intros H. injection H as -> <-. destruct r.
  pose proof (send_balance a b cs (gb_bal e) b0 Es) as Sb. split; [exact Sb | reflexivity].
Qed.

#[export] Instance gamm_bank_spec : GammKeepersSpec gamm_bank.
Proof.
  split; cbn [balance supply GetAllBalances SendCoins MintCoins BurnCoins Gamm.SendCoinsFromModuleToAccount Gamm.SendCoinsFromAccountToModule module_addr gamm_bank gamm_bank_view Ext].
  - intros a e. split; [apply held_ok | reflexivity].
  - exact gsend_moves.
  - intros m cs e r e' H. unfold gmint in H. destruct (valid_coins cs) eqn:Vc; [|discriminate H]. injection H as _ <-. apply valid_coins_ok in Vc.
    split; [intros x d; cbn [gb_bal balance gamm_bank_view]; now rewrite give_balance | intros d; cbn [gb_sup supply gamm_bank_view]; rewrite amount_app; lia].
  - intros m cs e r e' H. unfold gburn in H. destruct (covers cs (held (gb_bal e) gamm_module)) eqn:Cv; [|discriminate H]. injection H as _ <-.
    apply covers_le in Cv as [O Le]; [|apply held_ok].
    split; [intros x d; cbn [gb_bal balance gamm_bank_view]; rewrite take_balance by assumption; cbn [module_addr gamm_bank_view]; lia|].
    intros d; cbn [gb_sup supply gamm_bank_view]; rewrite amount_app, amount_neg; lia.
  - intros m a cs e r e' H. exact (gsend_moves _ _ _ _ _ _ H).
  - intros a m cs e r e' H. exact (gsend_moves _ _ _ _ _ _ H).
  - split; intros; match goal with H : _ = (Ok _, _) |- _ => injection H as _ <- end; split; intros; cbn; lia.
Qed.

#[export, refine] Instance gamm_domain : GammDomain gamm_bank := {| account a := List.length a = 3%nat; account_not_pool := _; module_not_pool := _; pool_addr_inj := _ |}.
Proof.
  - intros a id La ->. discriminate La.
  - intros id X. discriminate X.
  - intros n m Hn Hm H. cbn [pool_addr gamm_bank_view] in H. apply string_bytes_inj in H. unfold pool_text in H. apply append_inj_l in H. now apply decimal_inj in H.
Defined.

(** ** A run *)

#[local] Existing Instance sdk_ref.
#[local] Existing Instance assoc_store.

Definition alice : Address := string_bytes "abc".
Definition coin (d : string) (n : Z) : Coin := {| Denom := d; Amount := n |}.

Definition k0 : @Keeper gamm_bank PoolI _ :=
  {| g_store := []; g_ext := {| gb_bal := [(alice, [coin "uatom" (10 ^ 15); coin "uosmo" (10 ^ 15); coin "usdc" (10 ^ 15); coin "usdt" (10 ^ 15)])]; gb_sup := [] |} |}.

Definition balancer_params : Balancer.PoolParams := {| Balancer.SwapFee := 3 * 10 ^ 15; Balancer.ExitFee := 0; Balancer.Smooth := None |}.
Definition some_assets : list Balancer.PoolAsset :=
  [ {| Balancer.Token := coin "uosmo" (10 ^ 9); Balancer.Weight := 1 |}; {| Balancer.Token := coin "uatom" (10 ^ 9); Balancer.Weight := 3 |} ].

Definition res_or {A} (d : A) (r : Res A) : A := match r with Ok a => a | _ => d end.
Definition no_balancer : Balancer.Pool := {| Balancer.PoolAddress := ""; Balancer.Id := 0; Balancer.Params := balancer_params; Balancer.FuturePoolGovernor := "";
  Balancer.TotalShares := coin "" 0; Balancer.PoolAssets := []; Balancer.TotalWeight := 0 |}.
Definition balancer1 : Balancer.Pool := Eval vm_compute in res_or no_balancer (Balancer.NewBalancerPool 1 balancer_params some_assets "" 0).
Definition stable_params : Stableswap.PoolParams := {| Stableswap.SwapFee := 3 * 10 ^ 15; Stableswap.ExitFee := 0 |}.
Definition no_stable : Stableswap.Pool := {| Stableswap.PoolAddress := ""; Stableswap.Id := 0; Stableswap.Params := stable_params; Stableswap.FuturePoolGovernor := "";
  Stableswap.TotalShares := coin "" 0; Stableswap.PoolLiquidity := []; Stableswap.ScalingFactors := []; Stableswap.ScalingFactorController := "" |}.
Definition stable_liquidity : list Coin := [coin "usdc" (10 ^ 9); coin "usdt" (2 * 10 ^ 9)].
Definition stable2 : Stableswap.Pool := Eval vm_compute in res_or no_stable (Stableswap.NewStableswapPool 2 stable_params stable_liquidity [1; 2] "abc" "").

Definition KG : Type := @Keeper gamm_bank PoolI (@assoc_store (Stored PoolI)).

(** What [poolmanager.CreatePool] does with a new pool. *)
Definition create (p : PoolI) (l : list Coin) (k : KG) : Res unit * KG :=
  (InitializePool p alice ~;; on_ext (SendCoins alice (pool_addr (GetId p)) l)) k.

Definition state_of {A} (r : Res A * KG) : KG := snd r.
Definition value_of {A} (d : A) (r : Res A * KG) : A := res_or d (fst r).

Definition k1 : KG := Eval vm_compute in state_of (create (PBalancer balancer1) [coin "uatom" (10 ^ 9); coin "uosmo" (10 ^ 9)] k0).
Definition k2 : KG := Eval vm_compute in state_of (create (PStable stable2) stable_liquidity k1).

(** A swap on the stored pool of that id. *)
Definition swap_in (id : Z) (tin : Coin) (dout : string) : M KG (Z * PoolI) :=
  p <~ GetPool 0 id ;; SwapExactAmountIn alice p tin dout 0 (3 * 10 ^ 15).
Definition swap_out (id : Z) (din : string) (tout : Coin) : M KG (Z * PoolI) :=
  p <~ GetPool 0 id ;; SwapExactAmountOut 0 alice p din (10 ^ 12) tout (3 * 10 ^ 15).

Definition k3 : KG := Eval vm_compute in state_of (swap_in 1 (coin "uosmo" (10 ^ 6)) "uatom" k2).
Definition k4 : KG := Eval vm_compute in state_of (swap_out 2 "usdc" (coin "usdt" (10 ^ 6)) k3).
Definition k5 : KG := Eval vm_compute in state_of (JoinPoolNoSwap 0 alice 1 (10 ^ 18) [] k4).
Definition k6 : KG := Eval vm_compute in state_of (JoinSwapExactAmountIn 0 alice 2 [coin "usdc" (10 ^ 6); coin "usdt" (10 ^ 6)] 0 k5).
Definition k7 : KG := Eval vm_compute in state_of (JoinSwapShareAmountOut 0 alice 1 "uosmo" (10 ^ 15) (10 ^ 9) k6).
Definition k8 : KG := Eval vm_compute in state_of (ExitSwapExactAmountOut 0 alice 1 (coin "uatom" 5000) (10 ^ 18) k7).
Definition k9 : KG := Eval vm_compute in state_of (ExitPool 0 alice 2 (10 ^ 18) [] k8).

(** The run is one of the theorems' runs. *)

Lemma genesis_k0 : genesis k0.
Proof. split; intros; reflexivity. Qed.

Lemma alice_account : account alice.
Proof. reflexivity. Qed.

Lemma one_coin d n : ValidateDenom d = true -> 0 < n -> coins_ok [coin d n].
Proof. intros Vd Pn. now apply single_ok. Qed.

Lemma id_small id : 0 <= id < 10 -> id_ok id.
Proof. unfold id_ok. lia. Qed.

Lemma created1 : created (PBalancer balancer1).
Proof.
  apply (created_balancer 1 balancer_params some_assets "" 0); [|vm_compute; reflexivity]. repeat constructor.
Qed.
Lemma created2 : created (PStable stable2).
Proof.
  apply (created_stable 2 stable_params stable_liquidity [1; 2] "abc" ""); [apply valid_coins_ok; reflexivity | reflexivity | vm_compute; reflexivity].
Qed.

Ltac ran := match goal with |- _ = ?r => vm_cast_no_check (@eq_refl _ r) | |- _ < _ => vm_compute; reflexivity end.

Lemma liq1 d : amount_of (tokens balancer1) d = pool_liq (PBalancer balancer1) d.
Proof. unfold pool_liq, pool_view, of_pool. unfold pool_liq, balancer_view. unfold liq. reflexivity. Qed.
Lemma liq2 d : amount_of (Stableswap.PoolLiquidity stable2) d = pool_liq (PStable stable2) d.
Proof. unfold pool_liq, pool_view, of_pool. unfold pool_liq, stable_view. unfold sliq. reflexivity. Qed.

Lemma step_k1 : gamm_step k0 k1.
Proof.
  apply (step_create k0 k1 (PBalancer balancer1) alice (tokens balancer1) (state_of (InitializePool (PBalancer balancer1) alice k0)) tt tt);
    [apply id_small; cbn; lia | reflexivity | apply created_pool_inv, created1 | reflexivity | exact alice_account | exact liq1 | ran | ran].
Qed.
Lemma step_k2 : gamm_step k1 k2.
Proof.
  apply (step_create k1 k2 (PStable stable2) alice (Stableswap.PoolLiquidity stable2) (state_of (InitializePool (PStable stable2) alice k1)) tt tt);
    [apply id_small; cbn; lia | reflexivity | apply created_pool_inv, created2 | reflexivity | exact alice_account | exact liq2 | ran | ran].
Qed.
Lemma step_k3 : gamm_step k2 k3.
Proof.
  apply (step_swap_in k2 k3 0 alice 1 (value_of (PBalancer balancer1) (GetPool 0 1 k2)) (coin "uosmo" (10 ^ 6)) "uatom" 0 (3 * 10 ^ 15) 332112
    (snd (value_of (0, PBalancer balancer1) (swap_in 1 (coin "uosmo" (10 ^ 6)) "uatom" k2))));
    [apply id_small; lia | exact alice_account | apply one_coin; [reflexivity | lia] | reflexivity | unfold OneDec; lia | ran | ran | ran].
Qed.
Lemma step_k4 : gamm_step k3 k4.
Proof.
  apply (step_swap_out k3 k4 0 alice 2 (value_of (PBalancer balancer1) (GetPool 0 2 k3)) "usdc" (10 ^ 12) (coin "usdt" (10 ^ 6)) (3 * 10 ^ 15) 501505
    (snd (value_of (0, PBalancer balancer1) (swap_out 2 "usdc" (coin "usdt" (10 ^ 6)) k3))));
    [apply id_small; lia | exact alice_account | apply one_coin; [reflexivity | lia] | reflexivity | unfold OneDec; lia | ran | ran].
Qed.
Lemma step_k5 : gamm_step k4 k5.
Proof.
  apply (step_join k4 k5 0 alice 1 (10 ^ 18) [] (value_of ([], 0) (JoinPoolNoSwap 0 alice 1 (10 ^ 18) [] k4))); [apply id_small; lia | exact alice_account | ran].
Qed.
Lemma step_k6 : gamm_step k5 k6.
Proof.
  apply (step_join_in k5 k6 0 alice 2 [coin "usdc" (10 ^ 6); coin "usdt" (10 ^ 6)] 0 50025012506253100);
    [apply id_small; lia | exact alice_account | apply valid_coins_ok; reflexivity | ran].
Qed.
Lemma step_k7 : gamm_step k6 k7.
Proof. apply (step_join_shares k6 k7 0 alice 1 "uosmo" (10 ^ 15) (10 ^ 9) 40131); [apply id_small; lia | exact alice_account | ran]. Qed.
Lemma step_k8 : gamm_step k7 k8.
Proof.
  apply (step_exit_out k7 k8 0 alice 1 (coin "uatom" 5000) (10 ^ 18) 375410087386703); [apply id_small; lia | exact alice_account | apply one_coin; [reflexivity | lia] | ran].
Qed.
Lemma step_k9 : gamm_step k8 k9.
Proof. apply (step_exit k8 k9 0 alice 2 (10 ^ 18) [] (value_of [] (ExitPool 0 alice 2 (10 ^ 18) [] k8))); [apply id_small; lia | exact alice_account | ran]. Qed.

Lemma run_k4 : rtc gamm_step k0 k4.
Proof.
  apply (rtc_l _ _ k1 _ step_k1), (rtc_l _ _ k2 _ step_k2), (rtc_l _ _ k3 _ step_k3), (rtc_l _ _ k4 _ step_k4). apply rtc_refl.
Qed.
Lemma run_k9 : rtc gamm_step k0 k9.
Proof.
  transitivity k4; [exact run_k4|]. apply (rtc_l _ _ k5 _ step_k5), (rtc_l _ _ k6 _ step_k6), (rtc_l _ _ k7 _ step_k7), (rtc_l _ _ k8 _ step_k8), (rtc_l _ _ k9 _ step_k9). apply rtc_refl.
Qed.

Lemma gamm_solvent_witness : genesis k0 /\ rtc gamm_step k0 k9 /\ solvent k9 /\
  fst (PoolAccountInvariant 0 k9) = Ok false /\ forall t k, PoolAccountInvariant t k9 = (Ok true, k) -> exists e, GetPoolsAndPoke t k9 = (Err e, k).
Proof.
  split; [exact genesis_k0|]. split; [exact run_k9|]. pose proof (gamm_solvent k0 k9 genesis_k0 run_k9) as [Sol Inv].
  split; [exact Sol|]. split; [ran | exact Inv].
Defined.

Definition joined : Res (list Coin * Z) * KG := JoinPoolNoSwap 0 alice 1 (10 ^ 18) [] k4.
Definition left_again : Res (list Coin) * KG := ExitPool 0 alice 1 (10 ^ 18) [] (state_of joined).
Definition join_took : list Coin := Eval vm_compute in fst (value_of ([], 0) joined).
Definition exit_paid : list Coin := Eval vm_compute in value_of [] left_again.

Lemma join_exit_no_gain_witness :
  join_took = [coin "uatom" 9996679; coin "uosmo" 10010000] /\ exit_paid = [coin "uatom" 9996678; coin "uosmo" 10009999] /\
  forall d, amount_of exit_paid d <= amount_of join_took d.
Proof.
  split; [reflexivity|]. split; [reflexivity|].
  apply (join_exit_no_gain 0 alice 1 (10 ^ 18) [] 0 alice (10 ^ 18) [] k0 k4 join_took (10 ^ 18) (state_of joined) exit_paid (state_of left_again) genesis_k0 run_k4);
    [apply id_small; lia | exact alice_account | lia | ran | ran].
Defined.

(** ** Witnesses of the theorems about single pools *)

Lemma stable2_ok : stable_ok stable2.
Proof. apply (new_stable 2 stable_params stable_liquidity [1; 2] "abc" "" stable2); [ran | apply valid_coins_ok; reflexivity]. Qed.

Definition swapped_out : Res Coin * Stableswap.Pool := Stableswap.SwapOutAmtGivenIn [coin "usdc" (10 ^ 6)] "usdt" (3 * 10 ^ 15) stable2.
Definition swapped_in : Res Coin * Stableswap.Pool := Stableswap.SwapInAmtGivenOut [coin "usdt" (10 ^ 6)] "usdc" (3 * 10 ^ 15) stable2.

Lemma swaps_keep_curve_witness :
  fst swapped_out = Ok (coin "usdt" 1993999) /\ swapped stable2 (coin "usdc" (10 ^ 6)) (coin "usdt" 1993999) (snd swapped_out) /\
  fst swapped_in = Ok (coin "usdc" 501505) /\ swapped stable2 (coin "usdc" 501505) (coin "usdt" (10 ^ 6)) (snd swapped_in).
Proof.
  split; [ran|]. split; [|split; [ran|]].
  - apply (swaps_keep_curve stable2 (snd swapped_out) (coin "usdc" (10 ^ 6)) (coin "usdt" 1993999) (3 * 10 ^ 15) stable2_ok);
      [unfold OneDec; lia | apply one_coin; [reflexivity | lia] | apply one_coin; [reflexivity | lia] | ran].
  - apply (swaps_keep_curve stable2 (snd swapped_in) (coin "usdc" 501505) (coin "usdt" (10 ^ 6)) (3 * 10 ^ 15) stable2_ok);
      [unfold OneDec; lia | apply one_coin; [reflexivity | lia] | apply one_coin; [reflexivity | lia] | ran].
Defined.

(** A pool whose weights go from 1:3 to 3:1 in an hour from the time 1000 s on. *)
Definition hour : Z := 3600 * 10 ^ 9.
Definition smooth_assets (wosmo watom : Z) : list Balancer.PoolAsset :=
  [ {| Balancer.Token := coin "uosmo" (10 ^ 9); Balancer.Weight := wosmo |}; {| Balancer.Token := coin "uatom" (10 ^ 9); Balancer.Weight := watom |} ].
Definition smooth_params (duration : Z) : Balancer.PoolParams :=
  {| Balancer.SwapFee := 3 * 10 ^ 15; Balancer.ExitFee := 0; Balancer.Smooth := Some {| Balancer.StartTime := 1000 * 10 ^ 9; Balancer.Duration := duration;
     Balancer.InitialPoolWeights := []; Balancer.TargetPoolWeights := smooth_assets 3 1 |} |}.
Definition smooth3 : Balancer.Pool := Eval vm_compute in res_or no_balancer (Balancer.NewBalancerPool 3 (smooth_params hour) (smooth_assets 1 3) "" 0).
Definition smooth3_change : Balancer.SmoothWeightChangeParams :=
  match Balancer.Smooth (Balancer.Params smooth3) with Some sp => sp | None => {| Balancer.StartTime := 0; Balancer.Duration := 0; Balancer.InitialPoolWeights := []; Balancer.TargetPoolWeights := [] |} end.

Lemma smooth3_ok : pool_ok smooth3.
Proof. apply (new_pool 3 (smooth_params hour) (smooth_assets 1 3) "" 0 smooth3); [ran | repeat constructor]. Qed.

Lemma PokePool_interpolates_witness :
  exists p', Balancer.PokePool (1000 * 10 ^ 9 + hour / 4) smooth3 = (Ok tt, p') /\ tokens p' = tokens smooth3 /\
    Balancer.TotalWeight p' = zsum (weights (Balancer.PoolAssets p')) /\
    Forall2 (fun w ww => step_between (250 * 10 ^ 15) (fst ww) (snd ww) w) (weights (Balancer.PoolAssets p')) [(3 * 2 ^ 30, 2 ^ 30); (2 ^ 30, 3 * 2 ^ 30)].
Proof.
  destruct (PokePool_interpolates smooth3 smooth3_change (1000 * 10 ^ 9 + hour / 4)) as (p' & H & T & _ & W & F).
  - exact smooth3_ok.
  - reflexivity.
  - split; [reflexivity | reflexivity | repeat constructor | repeat constructor | split; [discriminate | reflexivity] | repeat constructor].
  - split; reflexivity.
  - exists p'. split; [exact H|]. split; [exact T|]. split; [exact W | exact F].
Defined.

Definition swapped_pool : PoolI := PStable (snd swapped_out).

Lemma pools_well_formed_witness : created (PStable stable2) /\ rtc pool_step (PStable stable2) swapped_pool /\ well_formed swapped_pool.
Proof.
  assert (R : rtc pool_step (PStable stable2) swapped_pool).
  { apply rtc_once. apply (ps_swap_out _ _ (coin "usdc" (10 ^ 6)) "usdt" (3 * 10 ^ 15) (coin "usdt" 1993999));
      [unfold OneDec; lia | apply one_coin; [reflexivity | lia] | reflexivity | discriminate | ran]. }
  split; [exact created2|]. split; [exact R|]. exact (pools_well_formed (PStable stable2) swapped_pool created2 R).
Defined.

(** ** What the runs show *)

(** A pool with the weights 64 : 1 whose second asset a swap can take whole. *)
Definition steep_assets : list Balancer.PoolAsset := smooth_assets 64 1.
Definition steep1 : Balancer.Pool := Eval vm_compute in res_or no_balancer (Balancer.NewBalancerPool 1 balancer_params steep_assets "" 0).
Definition s1 : KG := Eval vm_compute in state_of (create (PBalancer steep1) (tokens steep1) k0).
Definition drained : Res (Z * PoolI) * KG := swap_in 1 (coin "uosmo" (11 * 10 ^ 8)) "uatom" s1.

(** What pool [id] records of [d], and what its account holds. *)
Definition recorded (k : KG) (id : Z) (d : string) : Z := match fst (GetPool 0 id k) with Ok p => pool_liq p d | _ => 0 end.
Definition holds (k : KG) (id : Z) (d : string) : Z := balance (g_ext k) (pool_addr id) d.
Definition is_ok {A} (r : Res A) : bool := match r with Ok _ => true | _ => false end.

(** A pool whose weights change in less than a millisecond. *)
Definition hasty : Balancer.Pool := res_or no_balancer (Balancer.NewBalancerPool 3 (smooth_params 999999) (smooth_assets 1 3) "" 0).

(** What goes wrong.  A swap that pays the whole balance of a balancer pool
    passes the check that no balance becomes zero: the pool keeps recording what
    its account no longer holds, and the registered invariant is broken.  A
    stableswap pool that is joined with several tokens takes all of them and
    counts only those in its ratio.  [JoinPoolTokenInMaxShareAmountOut] takes
    the tokens into the balances and adds no shares.  A weight change of less
    than a millisecond, which [Validate] accepts, makes every read of the pool
    panic until it is over. *)
Theorem gamm_defects :
  (* the drained pool *)
  (let '(r, s2) := drained in
   match r with Ok (out, _) => out = 10 ^ 9 | _ => False end /\
   recorded s1 1 "uatom" = 10 ^ 9 /\ holds s1 1 "uatom" = 10 ^ 9 /\ fst (PoolAccountInvariant 0 s1) = Ok false /\
   recorded s2 1 "uatom" = 10 ^ 9 /\ holds s2 1 "uatom" = 0 /\ fst (PoolAccountInvariant 0 s2) = Ok true) /\
  (* joining the stableswap pool with 10^6 of both coins *)
  (holds k6 2 "usdc" - holds k5 2 "usdc" = 10 ^ 6 /\ recorded k6 2 "usdc" - recorded k5 2 "usdc" = 500502) /\
  (* tokens for no shares *)
  (let '(r, p) := Balancer.JoinPoolTokenInMaxShareAmountOut "uatom" (10 ^ 18) balancer1 in
   r = Ok 13365530 /\ Balancer.TotalShares p = Balancer.TotalShares balancer1 /\ amount_of (tokens p) "uatom" = amount_of (tokens balancer1) "uatom" + 13365530) /\
  (* the hasty pool *)
  (is_ok (Balancer.NewBalancerPool 3 (smooth_params 999999) (smooth_assets 1 3) "" 0) = true /\
   fst (Balancer.PokePool (1000 * 10 ^ 9 + 5) hasty) = Panic "division by zero" /\ fst (Balancer.PokePool (1000 * 10 ^ 9 + 10 ^ 6) hasty) = Ok tt).
Proof. vm_compute. repeat split; reflexivity. Qed.
