(* ===== verification/PoolManager.v ===== *)
(** * The pool manager ([x/poolmanager])

    Swaps along routes of pools, taker fees and the shares of them that are set
    aside, the volumes of pools, and the creation of pools.  Every pool belongs
    to a module: [PoolModuleI] is what the pool manager calls of one, and
    [PoolManagerKeepers] has the three modules, the bank, the accounts, staking,
    [x/protorev] and the contracts of alloyed assets; all of them act on a state
    [Ext] of their own.  Events, logs and gas are left out.  The keeper's caches
    are part of its state, except the decoded default taker fee, which is a
    function of the parameter it caches. *)

From stdpp Require Import base gmap strings.
From Stdlib Require Import ZArith Lia List Bool String Ascii.
From S2P Require Import Twap.
From S2P Require Import Prelude GoBig BigInt BigDec SdkMath SdkMore Store SumTree GoState SdkCoins SdkPool GammTypes Gamm.
Import ListNotations.
Open Scope Z_scope.
Open Scope list_scope.

(** ** Routes ([types/routes.go]) *)

Record SwapAmountInRoute : Type := { in_PoolId : Z; TokenOutDenom : string }.
Record SwapAmountOutRoute : Type := { out_PoolId : Z; TokenInDenom : string }.
Record SwapAmountInSplitRoute : Type := { in_Pools : list SwapAmountInRoute; TokenInAmount : Z }.
Record SwapAmountOutSplitRoute : Type := { out_Pools : list SwapAmountOutRoute; TokenOutAmount : Z }.

Definition in_eqb (a b : SwapAmountInRoute) : bool := (in_PoolId a =? in_PoolId b) && String.eqb (TokenOutDenom a) (TokenOutDenom b).
Definition out_eqb (a b : SwapAmountOutRoute) : bool := (out_PoolId a =? out_PoolId b) && String.eqb (TokenInDenom a) (TokenInDenom b).

Fixpoint list_eqb {A} (eqb : A -> A -> bool) (l m : list A) : bool :=
  match l, m with
  | [], [] => true
  | a :: l', b :: m' => eqb a b && list_eqb eqb l' m'
  | _, _ => false
  end.

(** [osmoutils.ContainsDuplicateDeepEqual]: neighbours are compared. *)
Fixpoint ContainsDuplicateDeepEqual {A} (eqb : A -> A -> bool) (l : list A) : bool :=
  match l with
  | a :: ((b :: _) as r) => eqb a b || ContainsDuplicateDeepEqual eqb r
  | _ => false
  end.

(** [osmoutils.Contains] on strings. *)
Definition Contains (slice : list string) (item : string) : bool := existsb (fun a => String.eqb a item) slice.

(** [osmoutils.MergeSlices] *)
Fixpoint MergeSlices {A} (less : A -> A -> bool) (slice1 : list A) : list A -> list A :=
  fix go (slice2 : list A) : list A :=
    match slice1, slice2 with
    | [], _ => slice2
    | _, [] => slice1
    | a :: l1, b :: l2 => if less a b then a :: MergeSlices less l1 slice2 else b :: go l2
    end.

Section Routes.
Context {C : CoinsOps}.

Fixpoint validDenoms (l : list string) : Res unit :=
  match l with [] => Ok tt | d :: r => if ValidateDenom d then validDenoms r else Err "invalid denom" end.

Definition in_Validate (routes : list SwapAmountInRoute) : Res unit :=
  match routes with [] => Err "provided empty routes" | _ => validDenoms (map TokenOutDenom routes) end.
Definition out_Validate (routes : list SwapAmountOutRoute) : Res unit :=
  match routes with [] => Err "provided empty routes" | _ => validDenoms (map TokenInDenom routes) end.

Fixpoint inSplitLoop (splitRoutes : list SwapAmountInSplitRoute) (previousLastDenomOut : string) : Res unit :=
  match splitRoutes with
  | [] => Ok tt
  | splitRoute :: rest =>
      in_Validate (in_Pools splitRoute) ;;;
      let lastDenomOut := List.last (map TokenOutDenom (in_Pools splitRoute)) EmptyString in
      if negb (String.eqb previousLastDenomOut EmptyString) && negb (String.eqb lastDenomOut previousLastDenomOut)
      then Err "invalid final token out" else inSplitLoop rest lastDenomOut
  end.
Definition ValidateSwapAmountInSplitRoute (splitRoutes : list SwapAmountInSplitRoute) : Res unit :=
  match splitRoutes with
  | [] => Err "provided empty routes"
  | _ =>
      inSplitLoop splitRoutes EmptyString ;;;
      if ContainsDuplicateDeepEqual (list_eqb in_eqb) (map in_Pools splitRoutes) then Err "duplicate multihop routes are not allowed" else Ok tt
  end.

Fixpoint outSplitLoop (splitRoutes : list SwapAmountOutSplitRoute) (previousFirstDenomIn : string) : Res unit :=
  match splitRoutes with
  | [] => Ok tt
  | splitRoute :: rest =>
      out_Validate (out_Pools splitRoute) ;;;
      let firstDenomIn := List.hd EmptyString (map TokenInDenom (out_Pools splitRoute)) in
      if negb (String.eqb previousFirstDenomIn EmptyString) && negb (String.eqb firstDenomIn previousFirstDenomIn)
      then Err "invalid final token out" else outSplitLoop rest firstDenomIn
  end.
Definition ValidateSwapAmountOutSplitRoute (splitRoutes : list SwapAmountOutSplitRoute) : Res unit :=
  match splitRoutes with
  | [] => Err "provided empty routes"
  | _ =>
      outSplitLoop splitRoutes EmptyString ;;;
      if ContainsDuplicateDeepEqual (list_eqb out_eqb) (map out_Pools splitRoutes) then Err "duplicate multihop routes are not allowed" else Ok tt
  end.

End Routes.

(** ** Keys ([types/keys.go]) *)

Definition KeySeparator : bytes := [124].
Definition KeyNextGlobalPoolId : bytes := [1].
Definition SwapModuleRouterPrefix : bytes := [2].
Definition KeyPoolVolumePrefix : bytes := [3].
Definition DenomTradePairPrefix : bytes := [4].
Definition TakerFeeSkimAccrualPrefix : bytes := [10].
Definition KeyTakerFeeShare : bytes := [11].
Definition KeyRegisteredAlloyPool : bytes := [12].

Definition FormatModuleRouteKey (poolId : Z) : bytes := SwapModuleRouterPrefix ++ string_bytes (decimal poolId).
Definition FormatDenomTradePairKey (tokenInDenom tokenOutDenom : string) : bytes :=
  DenomTradePairPrefix ++ KeySeparator ++ string_bytes tokenInDenom ++ KeySeparator ++ string_bytes tokenOutDenom.
Definition KeyPoolVolume (poolId : Z) : bytes := KeyPoolVolumePrefix ++ KeySeparator ++ string_bytes (decimal poolId) ++ KeySeparator.
Definition KeyTakerFeeShareDenomAccrualForAllDenoms (takerFeeShareDenom : string) : bytes :=
  TakerFeeSkimAccrualPrefix ++ KeySeparator ++ string_bytes takerFeeShareDenom.
Definition KeyTakerFeeShareDenomAccrualForTakerFeeChargedDenom (takerFeeShareDenom takerFeeChargedDenom : string) : bytes :=
  TakerFeeSkimAccrualPrefix ++ KeySeparator ++ string_bytes takerFeeShareDenom ++ KeySeparator ++ string_bytes takerFeeChargedDenom.
Definition FormatTakerFeeShareAgreementKey (denom : string) : bytes := KeyTakerFeeShare ++ KeySeparator ++ string_bytes denom.
Definition FormatRegisteredAlloyPoolKeyPoolIdOnly (poolId : Z) : bytes := KeyRegisteredAlloyPool ++ KeySeparator ++ string_bytes (decimal poolId).
Definition FormatRegisteredAlloyPoolKey (poolId : Z) (alloyedDenom : string) : bytes :=
  KeyRegisteredAlloyPool ++ KeySeparator ++ string_bytes (decimal poolId) ++ KeySeparator ++ string_bytes alloyedDenom.

(** [strings.Split(key, KeySeparator)] *)
Fixpoint split_key (k : bytes) : list bytes :=
  match k with
  | [] => [[]]
  | b :: r => if b =? 124 then [] :: split_key r else match split_key r with p :: ps => (b :: p) :: ps | [] => [[b]] end
  end.

(** [strconv.ParseUint(s, 10, 64)] *)
Fixpoint parse_digits (k : bytes) (acc : Z) : option Z :=
  match k with
  | [] => Some acc
  | b :: r => if (48 <=? b) && (b <=? 57) then parse_digits r (10 * acc + (b - 48)) else None
  end.
Definition ParseUint (k : bytes) : Res Z :=
  match k with
  | [] => Err "invalid syntax"
  | _ => match parse_digits k 0 with Some n => if n <? 2 ^ 64 then Ok n else Err "value out of range" | None => Err "invalid syntax" end
  end.

(** ** The interfaces ([types/expected_keepers.go], [types/pool.go]) *)

(** [PoolType] is an enumeration of the wire format: other values decode, too. *)
Definition Balancer_type : Z := 0.
Definition Stableswap_type : Z := 1.
Definition Concentrated_type : Z := 2.
Definition CosmWasm_type : Z := 3.

Class PoolI (P : Type) : Type := {
  p_GetId : P -> Z;
  p_GetAddress : P -> Res Address;
  p_GetSpreadFactor : P -> Z;
  p_IsActive : P -> bool;
  p_GetType : P -> Z;
  p_GetPoolDenoms : P -> Res (list string)
}.

Record PoolModuleI (Ext P : Type) : Type := {
  m_InitializePool : P -> Address -> M Ext unit;
  m_GetPool : Z -> M Ext P;
  m_GetPools : M Ext (list P);
  m_GetPoolDenoms : Z -> M Ext (list string);
  m_CalculateSpotPrice : Z -> string -> string -> M Ext Z;
  m_SwapExactAmountIn : Address -> P -> Coin -> string -> Z -> Z -> M Ext Z;
  m_CalcOutAmtGivenIn : P -> Coin -> string -> Z -> M Ext Coin;
  m_SwapExactAmountOut : Address -> P -> string -> Z -> Coin -> Z -> M Ext Z;
  m_CalcInAmtGivenOut : P -> Coin -> string -> Z -> M Ext Coin;
  m_GetTotalPoolLiquidity : Z -> M Ext (list Coin);
  m_GetTotalLiquidity : M Ext (list Coin)
}.
Arguments m_InitializePool {Ext P}.
Arguments m_GetPool {Ext P}.
Arguments m_GetPools {Ext P}.
Arguments m_GetPoolDenoms {Ext P}.
Arguments m_CalculateSpotPrice {Ext P}.
Arguments m_SwapExactAmountIn {Ext P}.
Arguments m_CalcOutAmtGivenIn {Ext P}.
Arguments m_SwapExactAmountOut {Ext P}.
Arguments m_CalcInAmtGivenOut {Ext P}.
Arguments m_GetTotalPoolLiquidity {Ext P}.
Arguments m_GetTotalLiquidity {Ext P}.

(** What [CanCreateModuleAccountAtAddr] looks at of an account. *)
Record Account : Type := { Sequence : Z; HasPubKey : bool; OverridableType : bool }.

(** [v3.AssetConfig] *)
Record AssetConfig : Type := { cfg_Denom : string; NormalizationFactor : string }.

Class PoolManagerKeepers : Type := {
  Ext : Type;
  Pool : Type;
  pool_i :: PoolI Pool;
  gammKeeper : PoolModuleI Ext Pool;
  concentratedKeeper : PoolModuleI Ext Pool;
  cosmwasmpoolKeeper : PoolModuleI Ext Pool;
  GetWhitelistedAddresses : M Ext (list string);
  SendCoins : Address -> Address -> list Coin -> M Ext unit;
  SendCoinsFromAccountToModule : Address -> string -> list Coin -> M Ext unit;
  FundCommunityPool : list Coin -> Address -> M Ext unit;
  BondDenom : M Ext string;
  GetPoolForDenomPair : string -> string -> M Ext Z;
  GetAccount : Address -> M Ext (option Account);
  (** [SetAccount] of a [NewAccount] that is a module account. *)
  SetModuleAccount : Address -> M Ext unit;
  GetModuleAddress : string -> Address;
  (** [AccAddress.String] and [AccAddressFromBech32] *)
  AddressString : Address -> string;
  AccAddressFromBech32 : string -> Res Address;
  (** [wasmKeeper.QuerySmart] with its answer decoded *)
  query_share_denom : Address -> M Ext string;
  query_total_pool_liquidity : Address -> M Ext (list Coin);
  query_asset_configs : Address -> M Ext (list AssetConfig);
  NewDecFromStr : string -> Res Z;
  (** [errors.Is(err, gammtypes.ErrInvalidMathApprox)] *)
  IsInvalidMathApprox : string -> bool
}.

(** ** The keeper ([keeper.go], [types/params.go]) *)

Record TakerFeeShareAgreement : Type := { share_Denom : string; SkimPercent : Z; SkimAddress : string }.
Record AlloyContractTakerFeeShareState : Type := { ContractAddress : string; TakerFeeShareAgreements : list TakerFeeShareAgreement }.

Record Params : Type := {
  PoolCreationFee : list Coin;
  DefaultTakerFee : Z;
  AdminAddresses : list string;
  ReducedFeeWhitelist : list string
}.

Inductive Stored : Type :=
| VUint (n : Z)
| VRoute (poolType : Z)
| VVolume (amount : list Coin)
| VDec (d : Z)
| VInt (n : Z)
| VAgreement (a : TakerFeeShareAgreement)
| VAlloy (a : AlloyContractTakerFeeShareState).

Definition MaxPoolId : Z := 99999999999.
Definition TakerFeeCollectorName : string := "taker_fee_collector".
Definition poolmanagerModuleName : string := "poolmanager".
Definition govModuleName : string := "gov".
Definition intMaxValue : Z := 2 ^ 256 - 1.
Definition AlloyedAssetCompositionUpdateRate : Z := 700.

Section Keeper.
Context {S : SdkMath} {D : SdkMore} {C : CoinsOps} {E : PrefixEnd} {PK : PoolManagerKeepers} {KV : KVStore Stored}.

Record Keeper : Type := {
  pm_store : St;
  pm_params : Params;
  (** [cachedPoolModules]: the pool type that determines the module *)
  pm_modules : gmap Z Z;
  pm_agreements : gmap string TakerFeeShareAgreement;
  pm_alloys : gmap string AlloyContractTakerFeeShareState;
  pm_ext : Ext
}.

Definition set_store (f : St -> St) : M Keeper unit := modify (fun k =>
  {| pm_store := f (pm_store k); pm_params := pm_params k; pm_modules := pm_modules k; pm_agreements := pm_agreements k; pm_alloys := pm_alloys k; pm_ext := pm_ext k |}).
Definition set_modules (f : gmap Z Z -> gmap Z Z) : M Keeper unit := modify (fun k =>
  {| pm_store := pm_store k; pm_params := pm_params k; pm_modules := f (pm_modules k); pm_agreements := pm_agreements k; pm_alloys := pm_alloys k; pm_ext := pm_ext k |}).
Definition set_agreements (f : gmap string TakerFeeShareAgreement -> gmap string TakerFeeShareAgreement) : M Keeper unit := modify (fun k =>
  {| pm_store := pm_store k; pm_params := pm_params k; pm_modules := pm_modules k; pm_agreements := f (pm_agreements k); pm_alloys := pm_alloys k; pm_ext := pm_ext k |}).
Definition set_alloys (f : gmap string AlloyContractTakerFeeShareState -> gmap string AlloyContractTakerFeeShareState) : M Keeper unit := modify (fun k =>
  {| pm_store := pm_store k; pm_params := pm_params k; pm_modules := pm_modules k; pm_agreements := pm_agreements k; pm_alloys := f (pm_alloys k); pm_ext := pm_ext k |}).
Definition on_ext {A} (c : M Ext A) : M Keeper A := zoom pm_ext (fun e k =>
  {| pm_store := pm_store k; pm_params := pm_params k; pm_modules := pm_modules k; pm_agreements := pm_agreements k; pm_alloys := pm_alloys k; pm_ext := e |}) c.

(** A call whose error the caller handles; panics go on. *)
Definition attempt {X A} (c : M X A) : M X (A + string) := fun s =>
  match c s with
  | (Ok a, s') => (Ok (inl a), s')
  | (Err e, s') => (Ok (inr e), s')
  | (Panic m, s') => (Panic m, s')
  end.

(** [osmoutils.Get] and [MustGet] *)
Definition store_Get {A} (key : bytes) (unmarshal : Stored -> option A) : M Keeper (option A) :=
  k <~ get ;;
  match st_get (pm_store k) key with
  | None => ret None
  | Some v => match unmarshal v with Some a => ret (Some a) | None => fail "unmarshal" end
  end.
Definition store_MustGet {A} (key : bytes) (unmarshal : Stored -> option A) : M Keeper A :=
  k <~ get ;;
  match st_get (pm_store k) key with
  | None => panic "getting at key should not have been nil"
  | Some v => match unmarshal v with Some a => ret a | None => panic "unmarshal" end
  end.
Definition as_uint (v : Stored) : option Z := match v with VUint n => Some n | _ => None end.
Definition as_route (v : Stored) : option Z := match v with VRoute t => Some t | _ => None end.
Definition as_volume (v : Stored) : option (list Coin) := match v with VVolume a => Some a | _ => None end.
Definition as_dec (v : Stored) : option Z := match v with VDec d => Some d | _ => None end.
Definition as_int (v : Stored) : option Z := match v with VInt n => Some n | _ => None end.
Definition as_agreement (v : Stored) : option TakerFeeShareAgreement := match v with VAgreement a => Some a | _ => None end.
Definition as_alloy (v : Stored) : option AlloyContractTakerFeeShareState := match v with VAlloy a => Some a | _ => None end.

(** [KVStorePrefixIterator] *)
Definition prefix_entries (k : Keeper) (p : bytes) : list (bytes * Stored) := st_iter (pm_store k) (Some p) (PrefixEndBytes p).

(** [routesMap] and [routesList] of [NewKeeper] *)
Definition routes (poolType : Z) : option (PoolModuleI Ext Pool) :=
  if (poolType =? Balancer_type) || (poolType =? Stableswap_type) then Some gammKeeper
  else if poolType =? Concentrated_type then Some concentratedKeeper
  else if poolType =? CosmWasm_type then Some cosmwasmpoolKeeper else None.
Definition poolModules : list (PoolModuleI Ext Pool) := [gammKeeper; concentratedKeeper; cosmwasmpoolKeeper].

Definition GetNextPoolId : M Keeper Z := store_MustGet KeyNextGlobalPoolId as_uint.
Definition SetNextPoolId (poolId : Z) : M Keeper unit := set_store (fun st => st_set st KeyNextGlobalPoolId (VUint poolId)).

(** ** Pools and their modules ([create_pool.go]) *)

Definition SetPoolRoute (poolId poolType : Z) : M Keeper unit :=
  set_store (fun st => st_set st (FormatModuleRouteKey poolId) (VRoute poolType)) ~;; set_modules (base.delete poolId).

Definition GetPoolModule (poolId : Z) : M Keeper (PoolModuleI Ext Pool) :=
  k <~ get ;;
  match pm_modules k !! poolId with
  | Some t => match routes t with Some m => ret m | None => panic "nil module" end
  | None =>
      found <~ store_Get (FormatModuleRouteKey poolId) as_route ;;
      match found with
      | None => fail "failed to find route for pool id"
      | Some t =>
          match routes t with
          | None => fail "route is not defined for the given pool type"
          | Some m => set_modules (<[poolId := t]>) ~;; ret m
          end
      end
  end.

Definition GetPoolType (poolId : Z) : M Keeper Z :=
  GetPoolModule poolId ~;; k <~ get ;; match pm_modules k !! poolId with Some t => ret t | None => ret 0 end.

Definition getNextPoolIdAndIncrement : M Keeper Z :=
  nextPoolId <~ GetNextPoolId ;; SetNextPoolId (uint64 (nextPoolId + 1)) ~;; ret nextPoolId.

(** [types.CreatePoolMsg] *)
Record CreatePoolMsg : Type := {
  msg_GetPoolType : Z;
  msg_PoolCreator : Address;
  msg_Validate : M Ext unit;
  msg_InitialLiquidity : list Coin;
  msg_CreatePool : Z -> M Ext Pool
}.

Definition validateCreatedPool (poolId : Z) (pool : Pool) : Res unit :=
  if negb (p_GetId pool =? poolId) then Err "incorrect pool id" else Ok tt.

(** [osmoutils.CreateModuleAccount] *)
Definition CanCreateModuleAccountAtAddr (addr : Address) : M Ext unit :=
  existingAcct <~ GetAccount addr ;;
  match existingAcct with
  | None => ret tt
  | Some a =>
      if negb (Sequence a =? 0) || HasPubKey a then fail "cannot create module account, due to an account at that address already existing & having sent txs" else
      if OverridableType a then ret tt else fail "cannot create module account, due to an account at that address already existing & not being an overridable type"
  end.
Definition CreateModuleAccount (addr : Address) : M Ext unit := CanCreateModuleAccountAtAddr addr ~;; SetModuleAccount addr.

Definition createPoolZeroLiquidityNoCreationFee (msg : CreatePoolMsg) : M Keeper Pool :=
  on_ext (msg_Validate msg) ~;;
  poolId <~ getNextPoolIdAndIncrement ;;
  if MaxPoolId <=? poolId then fail "next pool ID is greater than max pool ID" else
  let poolType := msg_GetPoolType msg in
  pool <~ on_ext (msg_CreatePool msg poolId) ;;
  SetPoolRoute poolId poolType ~;;
  lift (validateCreatedPool poolId pool) ~;;
  match routes poolType with
  | None => panic "invalid memory address or nil pointer dereference"
  | Some swapModule =>
      on_ext (m_InitializePool swapModule pool (msg_PoolCreator msg)) ~;;
      addr <~ lift (p_GetAddress pool) ;;
      on_ext (CreateModuleAccount addr) ~;;
      ret pool
  end.

Definition fundCommunityPoolIfNotWhitelisted (sender : Address) : M Keeper unit :=
  whitelist <~ on_ext GetWhitelistedAddresses ;;
  k <~ get ;;
  if Contains whitelist (AddressString sender) then ret tt else on_ext (FundCommunityPool (PoolCreationFee (pm_params k)) sender).

Definition CreatePool (msg : CreatePoolMsg) : M Keeper Z :=
  match routes (msg_GetPoolType msg) with
  | None => fail "invalid pool type"
  | Some _ =>
      pool <~ createPoolZeroLiquidityNoCreationFee msg ;;
      let sender := msg_PoolCreator msg in
      fundCommunityPoolIfNotWhitelisted sender ~;;
      addr <~ lift (p_GetAddress pool) ;;
      on_ext (SendCoins sender addr (msg_InitialLiquidity msg)) ~;;
      ret (p_GetId pool)
  end.

Definition addr_eqb (a b : Address) : bool := match bcompare a b with Eq => true | _ => false end.

Definition CreateConcentratedPoolAsPoolManager (msg : CreatePoolMsg) : M Keeper Pool :=
  if negb (addr_eqb (GetModuleAddress poolmanagerModuleName) (msg_PoolCreator msg)) then fail "invalid pool creator" else
  if negb (msg_GetPoolType msg =? Concentrated_type) then fail "invalid pool type" else
  createPoolZeroLiquidityNoCreationFee msg.

(** ** Taker fees ([taker_fee.go]) *)

Definition GetDefaultTakerFee : M Keeper Z := k <~ get ;; ret (DefaultTakerFee (pm_params k)).

Definition SetDenomPairTakerFee (denom0 denom1 : string) (takerFee : Z) : M Keeper unit :=
  let key := FormatDenomTradePairKey denom0 denom1 in
  default <~ GetDefaultTakerFee ;;
  if takerFee =? default then set_store (fun st => st_delete st key) else set_store (fun st => st_set st key (VDec takerFee)).

Definition SenderValidationSetDenomPairTakerFee (sender denom0 denom1 : string) (takerFee : Z) : M Keeper unit :=
  k <~ get ;;
  if negb (Contains (AdminAddresses (pm_params k)) sender) then fail "sender is not in the pool manager taker fee admin address list" else
  SetDenomPairTakerFee denom0 denom1 takerFee.

Definition GetTradingPairTakerFee (tokenInDenom tokenOutDenom : string) : M Keeper Z :=
  found <~ store_Get (FormatDenomTradePairKey tokenInDenom tokenOutDenom) as_dec ;;
  match found with None => GetDefaultTakerFee | Some takerFee => ret takerFee end.

(** [types.ParseDenomTradePairKey] *)
Definition ParseDenomTradePairKey (key : bytes) : Res (string * string) :=
  match split_key key with
  | _ :: a :: b :: _ =>
      let tokenInDenom := key_string a in let tokenOutDenom := key_string b in
      if negb (ValidateDenom tokenInDenom) then Err "invalid denom" else
      if negb (ValidateDenom tokenOutDenom) then Err "invalid denom" else Ok (tokenInDenom, tokenOutDenom)
  | _ => Panic "index out of range"
  end.

Fixpoint pairFees (l : list (bytes * Stored)) : Res (list (string * string * Z)) :=
  match l with
  | [] => Ok []
  | (key, v) :: rest =>
      match as_dec v with
      | None => Panic "unmarshal"
      | Some fee => ds <- ParseDenomTradePairKey key ;; r <- pairFees rest ;; Ok ((ds, fee) :: r)
      end
  end.
Definition GetAllTradingPairTakerFees : M Keeper (list (string * string * Z)) :=
  k <~ get ;; lift (pairFees (st_riter (pm_store k) (Some DenomTradePairPrefix) (PrefixEndBytes DenomTradePairPrefix))).

Definition CalcTakerFeeExactIn (tokenIn : Coin) (takerFee : Z) : Res (Coin * Coin) :=
  takerFeeFactor <- dec_Sub OneDec takerFee ;;
  amountInAfterSubTakerFee <- dec_MulInt takerFeeFactor (Amount tokenIn) ;;
  a <- dec_TruncateInt amountInAfterSubTakerFee ;;
  f <- int_Sub (Amount tokenIn) a ;;
  Ok ({| Denom := Denom tokenIn; Amount := a |}, {| Denom := Denom tokenIn; Amount := f |}).

Definition CalcTakerFeeExactOut (tokenIn : Coin) (takerFee : Z) : Res (Coin * Coin) :=
  takerFeeFactor <- dec_Sub OneDec takerFee ;;
  d <- int_ToLegacyDec (Amount tokenIn) ;;
  amountInAfterAddTakerFee <- dec_Quo d takerFeeFactor ;;
  c <- dec_Ceil amountInAfterAddTakerFee ;;
  a <- dec_TruncateInt c ;;
  f <- int_Sub a (Amount tokenIn) ;;
  Ok ({| Denom := Denom tokenIn; Amount := a |}, {| Denom := Denom tokenIn; Amount := f |}).

Definition chargeTakerFee (tokenIn : Coin) (tokenOutDenom : string) (sender : Address) (exactIn : bool) : M Keeper (Coin * Coin) :=
  k <~ get ;;
  if Contains (ReducedFeeWhitelist (pm_params k)) (AddressString sender) then ret (tokenIn, {| Denom := Denom tokenIn; Amount := 0 |}) else
  takerFee <~ GetTradingPairTakerFee (Denom tokenIn) tokenOutDenom ;;
  '(tokenInAfterTakerFee, takerFeeCoin) <~ lift (if exactIn then CalcTakerFeeExactIn tokenIn takerFee else CalcTakerFeeExactOut tokenIn takerFee) ;;
  coins <~ lift (MakeCoins [takerFeeCoin]) ;;
  on_ext (SendCoinsFromAccountToModule sender TakerFeeCollectorName coins) ~;;
  ret (tokenInAfterTakerFee, takerFeeCoin).

(** ** Share agreements ([store.go]) *)

Fixpoint gatherAgreements (l : list (bytes * Stored)) : Res (list TakerFeeShareAgreement) :=
  match l with
  | [] => Ok []
  | (_, v) :: rest => match as_agreement v with None => Err "unmarshal" | Some a => r <- gatherAgreements rest ;; Ok (a :: r) end
  end.
Definition GetAllTakerFeesShareAgreements : M Keeper (list TakerFeeShareAgreement) :=
  k <~ get ;; lift (gatherAgreements (prefix_entries k KeyTakerFeeShare)).
Definition getAllTakerFeeShareAgreementsMap : M Keeper (gmap string TakerFeeShareAgreement) :=
  l <~ GetAllTakerFeesShareAgreements ;; ret (fold_left (fun m a => <[share_Denom a := a]> m) l ∅).
Definition setTakerFeeShareAgreementsMapCached : M Keeper unit :=
  m <~ getAllTakerFeeShareAgreementsMap ;; set_agreements (fun _ => m).

Definition getTakerFeeShareAgreementFromDenom (takerFeeShareDenom : string) : M Keeper (option TakerFeeShareAgreement) :=
  k <~ get ;; ret (pm_agreements k !! takerFeeShareDenom).
Definition GetTakerFeeShareAgreementFromDenomNoCache (takerFeeShareDenom : string) : M Keeper (option TakerFeeShareAgreement) :=
  k <~ get ;;
  match st_get (pm_store k) (FormatTakerFeeShareAgreementKey takerFeeShareDenom) with
  | None => ret None
  | Some v => ret (as_agreement v)
  end.

Definition getRegisteredAlloyedPoolFromDenom (alloyedDenom : string) : M Keeper (option AlloyContractTakerFeeShareState) :=
  k <~ get ;; ret (pm_alloys k !! alloyedDenom).

(** The parts of a key of a registered alloyed pool: id and denomination. *)
Definition alloy_parts (key : bytes) : Res (bytes * bytes) :=
  let parts := split_key key in
  if (List.length parts <? 3)%nat then Err "invalid key format" else
  Ok (List.nth (List.length parts - 2) parts [], List.nth (List.length parts - 1) parts []).

Fixpoint insertId (n : Z) (l : list Z) : list Z :=
  match l with [] => [n] | m :: r => if n <? m then n :: l else m :: insertId n r end.
Fixpoint alloyIds (l : list (bytes * Stored)) : Res (list Z) :=
  match l with
  | [] => Ok []
  | (key, _) :: rest => '(id, _) <- alloy_parts key ;; n <- ParseUint id ;; r <- alloyIds rest ;; Ok (n :: r)
  end.
Definition getAllRegisteredAlloyedPoolsIdArray : M Keeper (list Z) :=
  k <~ get ;; ids <~ lift (alloyIds (prefix_entries k KeyRegisteredAlloyPool)) ;; ret (fold_right insertId [] ids).

Fixpoint alloyedDenomOf (poolId : Z) (l : list (bytes * Stored)) : Res string :=
  match l with
  | [] => Err "no registered alloyed pool"
  | (key, _) :: rest =>
      '(id, denom) <- alloy_parts key ;;
      n <- ParseUint id ;;
      if n =? poolId then Ok (key_string denom) else alloyedDenomOf poolId rest
  end.
Definition getAlloyedDenomFromPoolId (poolId : Z) : M Keeper string :=
  k <~ get ;; lift (alloyedDenomOf poolId (prefix_entries k KeyRegisteredAlloyPool)).

Definition getRegisteredAlloyedPoolFromPoolId (poolId : Z) : M Keeper AlloyContractTakerFeeShareState :=
  alloyedDenom <~ getAlloyedDenomFromPoolId poolId ;;
  found <~ getRegisteredAlloyedPoolFromDenom alloyedDenom ;;
  match found with None => fail "no registered alloyed pool" | Some a => ret a end.

Fixpoint gatherAlloys (l : list (bytes * Stored)) : Res (list AlloyContractTakerFeeShareState) :=
  match l with
  | [] => Ok []
  | (_, v) :: rest => match as_alloy v with None => Err "unmarshal" | Some a => r <- gatherAlloys rest ;; Ok (a :: r) end
  end.
Definition GetAllRegisteredAlloyedPools : M Keeper (list AlloyContractTakerFeeShareState) :=
  k <~ get ;; lift (gatherAlloys (prefix_entries k KeyRegisteredAlloyPool)).

Fixpoint alloysByDenom (l : list (bytes * Stored)) (m : gmap string AlloyContractTakerFeeShareState) : Res (gmap string AlloyContractTakerFeeShareState) :=
  match l with
  | [] => Ok m
  | (key, v) :: rest =>
      match as_alloy v with
      | None => Err "unmarshal"
      | Some a => '(_, denom) <- alloy_parts key ;; alloysByDenom rest (<[key_string denom := a]> m)
      end
  end.
Definition getAllRegisteredAlloyedPoolsByDenomMap : M Keeper (gmap string AlloyContractTakerFeeShareState) :=
  k <~ get ;; lift (alloysByDenom (prefix_entries k KeyRegisteredAlloyPool) ∅).
Definition setAllRegisteredAlloyedPoolsByDenomCached : M Keeper unit :=
  m <~ getAllRegisteredAlloyedPoolsByDenomMap ;; set_alloys (fun _ => m).

(** [strings.Split(denom, "/")] *)
Fixpoint split_slash (s : string) : list string :=
  match s with
  | EmptyString => [EmptyString]
  | String c r =>
      if Ascii.eqb c "/" then EmptyString :: split_slash r
      else match split_slash r with p :: ps => String c p :: ps | [] => [String c EmptyString] end
  end.

Definition queryAndCheckAlloyedDenom (contractAddr : Address) : M Keeper string :=
  alloyedDenom <~ on_ext (query_share_denom contractAddr) ;;
  match split_slash alloyedDenom with
  | [p0; p1; p2; _] =>
      if negb (String.eqb p0 "factory") then fail "invalid alloyed denom part" else
      if negb (String.eqb p1 (AddressString contractAddr)) then fail "invalid alloyed denom part" else
      if negb (String.eqb p2 "alloyed") then fail "invalid alloyed denom part" else ret alloyedDenom
  | _ => fail "invalid alloyed denom format"
  end.

Fixpoint createNormalizationFactorsMap (assetConfigs : list AssetConfig) (m : gmap string Z) : Res (gmap string Z) :=
  match assetConfigs with
  | [] => Ok m
  | config :: rest => factor <- NewDecFromStr (NormalizationFactor config) ;; createNormalizationFactorsMap rest (<[cfg_Denom config := factor]> m)
  end.

(** A denomination that is not in the map has a [Dec] without a value. *)
Definition normalizedAmount (normalizationFactors : gmap string Z) (coin : Coin) : Res Z :=
  match normalizationFactors !! Denom coin with
  | None => Panic "invalid memory address or nil pointer dereference"
  | Some f => d <- int_ToLegacyDec (Amount coin) ;; dec_Quo d f
  end.

(** The first loop: the total, and the assets that have an agreement. *)
Fixpoint alloyedLiquidity (agreements : gmap string TakerFeeShareAgreement) (fs : gmap string Z) (l : list Coin) (total : Z) : Res (Z * list (Coin * TakerFeeShareAgreement)) :=
  match l with
  | [] => Ok (total, [])
  | coin :: rest =>
      n <- normalizedAmount fs coin ;;
      t <- dec_Add total n ;;
      '(t', r) <- alloyedLiquidity agreements fs rest t ;;
      match agreements !! Denom coin with None => Ok (t', r) | Some a => Ok (t', (coin, a) :: r) end
  end.
Fixpoint scaledAgreements (fs : gmap string Z) (total : Z) (l : list (Coin * TakerFeeShareAgreement)) : Res (list TakerFeeShareAgreement) :=
  match l with
  | [] => Ok []
  | (coin, a) :: rest =>
      n <- normalizedAmount fs coin ;;
      q <- dec_Quo n total ;;
      scaledSkim <- dec_Mul q (SkimPercent a) ;;
      r <- scaledAgreements fs total rest ;;
      Ok ({| share_Denom := Denom coin; SkimPercent := scaledSkim; SkimAddress := SkimAddress a |} :: r)
  end.
Definition calculateTakerFeeShareAgreements (totalPoolLiquidity : list Coin) (normalizationFactors : gmap string Z) : M Keeper (list TakerFeeShareAgreement) :=
  k <~ get ;;
  '(totalAlloyedLiquidity, assets) <~ lift (alloyedLiquidity (pm_agreements k) normalizationFactors totalPoolLiquidity 0) ;;
  if totalAlloyedLiquidity =? 0 then fail "total alloyed liquidity is zero" else
  lift (scaledAgreements normalizationFactors totalAlloyedLiquidity assets).

Definition snapshotTakerFeeShareAlloyComposition (contractAddr : Address) : M Keeper (list TakerFeeShareAgreement) :=
  totalPoolLiquidity <~ on_ext (query_total_pool_liquidity contractAddr) ;;
  assetConfigs <~ on_ext (query_asset_configs contractAddr) ;;
  normalizationFactors <~ lift (createNormalizationFactorsMap assetConfigs ∅) ;;
  calculateTakerFeeShareAgreements totalPoolLiquidity normalizationFactors.

Definition recalculateAndSetTakerFeeShareAlloyComposition (poolId : Z) : M Keeper unit :=
  prior <~ getRegisteredAlloyedPoolFromPoolId poolId ;;
  addr <~ match AccAddressFromBech32 (ContractAddress prior) with Err e => panic e | r => lift r end ;;
  denoms <~ snapshotTakerFeeShareAlloyComposition addr ;;
  let registeredAlloyedPool := {| ContractAddress := ContractAddress prior; TakerFeeShareAgreements := denoms |} in
  alloyedDenom <~ getAlloyedDenomFromPoolId poolId ;;
  set_store (fun st => st_set st (FormatRegisteredAlloyPoolKey poolId alloyedDenom) (VAlloy registeredAlloyedPool)) ~;;
  set_alloys (<[alloyedDenom := registeredAlloyedPool]>).

Definition SetTakerFeeShareAgreementForDenom (takerFeeShare : TakerFeeShareAgreement) : M Keeper unit :=
  set_store (fun st => st_set st (FormatTakerFeeShareAgreementKey (share_Denom takerFeeShare)) (VAgreement takerFeeShare)) ~;;
  set_agreements (<[share_Denom takerFeeShare := takerFeeShare]>) ~;;
  poolIds <~ getAllRegisteredAlloyedPoolsIdArray ;;
  for_each poolIds (fun poolId =>
    pool <~ on_ext (m_GetPool cosmwasmpoolKeeper poolId) ;;
    poolDenoms <~ lift (p_GetPoolDenoms pool) ;;
    when (Contains poolDenoms (share_Denom takerFeeShare)) (recalculateAndSetTakerFeeShareAlloyComposition poolId)).

(** *** What has been set aside.  [None] is the error [NoAccruedValueError]. *)

Definition GetTakerFeeShareDenomsToAccruedValue (takerFeeShareDenom takerFeeChargedDenom : string) : M Keeper (option Z) :=
  store_Get (KeyTakerFeeShareDenomAccrualForTakerFeeChargedDenom takerFeeShareDenom takerFeeChargedDenom) as_int.
Definition SetTakerFeeShareDenomsToAccruedValue (takerFeeShareDenom takerFeeChargedDenom : string) (accruedValue : Z) : M Keeper unit :=
  set_store (fun st => st_set st (KeyTakerFeeShareDenomAccrualForTakerFeeChargedDenom takerFeeShareDenom takerFeeChargedDenom) (VInt accruedValue)).
Definition increaseTakerFeeShareDenomsToAccruedValue (takerFeeShareDenom takerFeeChargedDenom : string) (additiveValue : Z) : M Keeper unit :=
  found <~ GetTakerFeeShareDenomsToAccruedValue takerFeeShareDenom takerFeeChargedDenom ;;
  let accruedValueBefore := match found with None => 0 | Some n => n end in
  accruedValueAfter <~ lift (int_Add accruedValueBefore additiveValue) ;;
  SetTakerFeeShareDenomsToAccruedValue takerFeeShareDenom takerFeeChargedDenom accruedValueAfter.

(** The accumulators by agreement, in the order of the keys. *)
Fixpoint addAccrued (tierDenom : string) (c : Coin) (l : list (string * list Coin)) : Res (list (string * list Coin)) :=
  match l with
  | [] => cs <- Coins_Add [] [c] ;; Ok [(tierDenom, cs)]
  | (d, cs) :: rest =>
      if String.eqb d tierDenom then cs' <- Coins_Add cs [c] ;; Ok ((d, cs') :: rest)
      else r <- addAccrued tierDenom c rest ;; Ok ((d, cs) :: r)
  end.
Fixpoint gatherAccumulators (l : list (bytes * Stored)) (acc : list (string * list Coin)) : Res (list (string * list Coin)) :=
  match l with
  | [] => Ok acc
  | (key, v) :: rest =>
      match as_int v with
      | None => Err "unmarshal"
      | Some n =>
          match split_key key with
          | _ :: tier :: charged :: _ =>
              c <- NewCoin (key_string charged) n ;;
              acc' <- addAccrued (key_string tier) c acc ;;
              gatherAccumulators rest acc'
          | _ => Panic "index out of range"
          end
      end
  end.
Definition GetAllTakerFeeShareAccumulators : M Keeper (list (string * list Coin)) :=
  k <~ get ;; lift (gatherAccumulators (prefix_entries k TakerFeeSkimAccrualPrefix) []).

Definition DeleteAllTakerFeeShareAccumulatorsForTakerFeeShareDenom (takerFeeShareDenom : string) : M Keeper unit :=
  k <~ get ;;
  for_each (prefix_entries k (KeyTakerFeeShareDenomAccrualForAllDenoms takerFeeShareDenom)) (fun kv => set_store (fun st => st_delete st (fst kv))).

Definition GetPoolModuleAndPool (poolId : Z) : M Keeper (PoolModuleI Ext Pool * Pool) :=
  swapModule <~ GetPoolModule poolId ;; pool <~ on_ext (m_GetPool swapModule poolId) ;; ret (swapModule, pool).

Definition GetPool (poolId : Z) : M Keeper Pool := '(_, pool) <~ GetPoolModuleAndPool poolId ;; ret pool.

Definition setRegisteredAlloyedPool (poolId : Z) : M Keeper unit :=
  cwPool <~ GetPool poolId ;;
  if negb (p_GetType cwPool =? CosmWasm_type) then fail "pool is not a CosmWasm pool" else
  contractAddr <~ lift (p_GetAddress cwPool) ;;
  alloyedDenom <~ queryAndCheckAlloyedDenom contractAddr ;;
  takerFeeShareAgreements <~ snapshotTakerFeeShareAlloyComposition contractAddr ;;
  let registeredAlloyedPool := {| ContractAddress := AddressString contractAddr; TakerFeeShareAgreements := takerFeeShareAgreements |} in
  k <~ get ;;
  for_each (prefix_entries k (FormatRegisteredAlloyPoolKeyPoolIdOnly poolId)) (fun kv => set_store (fun st => st_delete st (fst kv))) ~;;
  set_store (fun st => st_set st (FormatRegisteredAlloyPoolKey poolId alloyedDenom) (VAlloy registeredAlloyedPool)) ~;;
  set_alloys (<[alloyedDenom := registeredAlloyedPool]>).

(** *** Skimming ([taker_fee.go]) *)

Fixpoint getTakerFeeShareAgreements (k : Keeper) (denomsInvolvedInRoute : list string) : list TakerFeeShareAgreement * list TakerFeeShareAgreement :=
  match denomsInvolvedInRoute with
  | [] => ([], [])
  | denom :: rest =>
      let '(ds, als) := getTakerFeeShareAgreements k rest in
      match pm_agreements k !! denom with
      | Some a => (a :: ds, als)
      | None => match pm_alloys k !! denom with Some st => (ds, TakerFeeShareAgreements st ++ als) | None => (ds, als) end
      end
  end.

Definition validatePercentage (percentage : Z) : Res unit :=
  if (OneDec <? percentage) || (percentage <? 0) then Err "invalid taker fee share percentage" else Ok tt.

Fixpoint sumPercents (l : list TakerFeeShareAgreement) (acc : Z) : Res Z :=
  match l with [] => Ok acc | a :: r => s <- dec_Add acc (SkimPercent a) ;; sumPercents r s end.

Definition amountToSkim (takerFeeCoin : Coin) (agreement : TakerFeeShareAgreement) : Res Z :=
  d <- int_ToLegacyDec (Amount takerFeeCoin) ;; m <- dec_Mul d (SkimPercent agreement) ;; dec_TruncateInt m.

Definition processShareAgreements (shareAgreements : list TakerFeeShareAgreement) (totalTakerFees : list Coin) : M Keeper unit :=
  match shareAgreements with
  | [] => ret tt
  | _ =>
      percentageOfTakerFeeToSkim <~ lift (sumPercents shareAgreements 0) ;;
      lift (validatePercentage percentageOfTakerFeeToSkim) ~;;
      for_each totalTakerFees (fun takerFeeCoin =>
        for_each shareAgreements (fun agreement =>
          amt <~ lift (amountToSkim takerFeeCoin agreement) ;;
          increaseTakerFeeShareDenomsToAccruedValue (share_Denom agreement) (Denom takerFeeCoin) amt))
  end.

Definition TakerFeeSkim (denomsInvolvedInRoute : list string) (totalTakerFees : list Coin) : M Keeper unit :=
  k <~ get ;;
  let '(denomShareAgreements, alloyedAssetShareAgreements) := getTakerFeeShareAgreements k (sort_Strings denomsInvolvedInRoute) in
  processShareAgreements (match denomShareAgreements with [] => alloyedAssetShareAgreements | _ => denomShareAgreements end) totalTakerFees.

(** ** Routing ([router.go]) *)

Definition SetVolume (poolId : Z) (totalVolume : list Coin) : M Keeper unit := set_store (fun st => st_set st (KeyPoolVolume poolId) (VVolume totalVolume)).

Definition GetTotalVolumeForPool (poolId : Z) : M Keeper (list Coin) := fun k =>
  match store_Get (KeyPoolVolume poolId) as_volume k with
  | (Ok None, k') => (Ok [], k')
  | (Ok (Some v), k') => (Ok v, k')
  | (Err e, k') => (Panic e, k')
  | (Panic m, k') => (Panic m, k')
  end.

Definition bond_denom : M Keeper string := fun k =>
  match on_ext BondDenom k with
  | (Err e, k') => (Panic e, k')
  | r => r
  end.

Definition GetOsmoVolumeForPool (poolId : Z) : M Keeper Z :=
  totalVolume <~ GetTotalVolumeForPool poolId ;; OSMO <~ bond_denom ;; lift (Coins_AmountOf totalVolume OSMO).

Definition addVolume (poolId : Z) (volumeGenerated : Coin) : M Keeper unit :=
  currentTotalVolume <~ GetTotalVolumeForPool poolId ;;
  newTotalVolume <~ lift (Coins_Add currentTotalVolume [volumeGenerated]) ;;
  SetVolume poolId newTotalVolume.

Definition RouteGetPoolDenoms (poolId : Z) : M Keeper (list string) :=
  swapModule <~ GetPoolModule poolId ;; on_ext (m_GetPoolDenoms swapModule poolId).

Definition RouteCalculateSpotPrice (poolId : Z) (quoteAssetDenom baseAssetDenom : string) : M Keeper Z :=
  swapModule <~ GetPoolModule poolId ;; on_ext (m_CalculateSpotPrice swapModule poolId quoteAssetDenom baseAssetDenom).

Definition trackVolume (poolId : Z) (volumeGenerated : Coin) : M Keeper unit :=
  OSMO <~ bond_denom ;;
  if String.eqb (Denom volumeGenerated) OSMO then addVolume poolId volumeGenerated else
  paired <~ attempt (on_ext (GetPoolForDenomPair OSMO (Denom volumeGenerated))) ;;
  match paired with
  | inr _ => ret tt
  | inl osmoPairedPoolId =>
      price <~ attempt (RouteCalculateSpotPrice osmoPairedPoolId OSMO (Denom volumeGenerated)) ;;
      match price with
      | inr _ => ret tt
      | inl osmoPerInputToken =>
          v <~ lift (a <- BigDecFromSDKInt (Amount volumeGenerated) ;; m <- Mul a osmoPerInputToken ;; dec_TruncateInt (Dec m)) ;;
          c <~ lift (NewCoin OSMO v) ;;
          addVolume poolId c
      end
  end.

Definition SwapExactAmountIn (sender : Address) (poolId : Z) (tokenIn : Coin) (tokenOutDenom : string) (tokenOutMinAmount : Z) : M Keeper (Z * Coin) :=
  '(swapModule, pool) <~ GetPoolModuleAndPool poolId ;;
  if negb (p_IsActive pool) then fail "pool is not active" else
  '(tokenInAfterSubTakerFee, takerFeeCharged) <~ chargeTakerFee tokenIn tokenOutDenom sender true ;;
  tokenOutAmount <~ on_ext (m_SwapExactAmountIn swapModule sender pool tokenInAfterSubTakerFee tokenOutDenom tokenOutMinAmount (p_GetSpreadFactor pool)) ;;
  trackVolume (p_GetId pool) tokenIn ~;;
  ret (tokenOutAmount, takerFeeCharged).

Definition SwapExactAmountInNoTakerFee (sender : Address) (poolId : Z) (tokenIn : Coin) (tokenOutDenom : string) (tokenOutMinAmount : Z) : M Keeper Z :=
  '(swapModule, pool) <~ GetPoolModuleAndPool poolId ;;
  if negb (p_IsActive pool) then fail "pool is not active" else
  tokenOutAmount <~ on_ext (m_SwapExactAmountIn swapModule sender pool tokenIn tokenOutDenom tokenOutMinAmount (p_GetSpreadFactor pool)) ;;
  trackVolume (p_GetId pool) tokenIn ~;;
  ret tokenOutAmount.

(** [if !Contains(denoms, d) { denoms = append(denoms, d) }] *)
Definition add_denom (denoms : list string) (d : string) : list string := if Contains denoms d then denoms else denoms ++ [d].

(** The loop of [RouteExactAmountIn] returns the last amount, the fees and the
    denominations. *)
Fixpoint routeInLoop (sender : Address) (route : list SwapAmountInRoute) (tokenIn : Coin) (tokenOutMinAmount : Z)
  (tokenOutAmount : Z) (totalTakerFeesCharged : list Coin) (denomsInvolvedInRoute : list string) : M Keeper (Z * list Coin * list string) :=
  match route with
  | [] => ret (tokenOutAmount, totalTakerFeesCharged, denomsInvolvedInRoute)
  | routeStep :: rest =>
      let outMinAmount := match rest with [] => tokenOutMinAmount | _ => 1 end in
      '(amountOut, takerFeeCharged) <~ SwapExactAmountIn sender (in_PoolId routeStep) tokenIn (TokenOutDenom routeStep) outMinAmount ;;
      nextIn <~ lift (NewCoin (TokenOutDenom routeStep) amountOut) ;;
      fees <~ lift (Coins_Add totalTakerFeesCharged [takerFeeCharged]) ;;
      routeInLoop sender rest nextIn tokenOutMinAmount amountOut fees (add_denom denomsInvolvedInRoute (TokenOutDenom routeStep))
  end.

Definition RouteExactAmountIn (sender : Address) (route : list SwapAmountInRoute) (tokenIn : Coin) (tokenOutMinAmount : Z) : M Keeper Z :=
  lift (in_Validate route) ~;;
  '(tokenOutAmount, totalTakerFeesCharged, denomsInvolvedInRoute) <~ routeInLoop sender route tokenIn tokenOutMinAmount 0 [] [Denom tokenIn] ;;
  TakerFeeSkim denomsInvolvedInRoute totalTakerFeesCharged ~;;
  ret tokenOutAmount.

Fixpoint splitInLoop (sender : Address) (rs : list SwapAmountInSplitRoute) (tokenInDenom : string) (totalOutAmount : Z) : M Keeper Z :=
  match rs with
  | [] => ret totalOutAmount
  | multihopRoute :: rest =>
      c <~ lift (NewCoin tokenInDenom (TokenInAmount multihopRoute)) ;;
      tokenOutAmount <~ RouteExactAmountIn sender (in_Pools multihopRoute) c 0 ;;
      total <~ lift (int_Add totalOutAmount tokenOutAmount) ;;
      splitInLoop sender rest tokenInDenom total
  end.
Definition SplitRouteExactAmountIn (sender : Address) (rs : list SwapAmountInSplitRoute) (tokenInDenom : string) (tokenOutMinAmount : Z) : M Keeper Z :=
  lift (ValidateSwapAmountInSplitRoute rs) ~;;
  totalOutAmount <~ splitInLoop sender rs tokenInDenom 0 ;;
  if negb (0 <? totalOutAmount) then fail "final total amount is not positive" else
  if totalOutAmount <? tokenOutMinAmount then fail "price impact protection" else ret totalOutAmount.

Fixpoint estimateOutLoop (route : list SwapAmountInRoute) (tokenIn : Coin) (applyTakerFee : bool) (tokenOutAmount : Z) : M Keeper Z :=
  match route with
  | [] => ret tokenOutAmount
  | routeStep :: rest =>
      '(swapModule, pool) <~ GetPoolModuleAndPool (in_PoolId routeStep) ;;
      actualTokenIn <~ (if applyTakerFee
        then takerFee <~ GetTradingPairTakerFee (Denom tokenIn) (TokenOutDenom routeStep) ;; '(a, _) <~ lift (CalcTakerFeeExactIn tokenIn takerFee) ;; ret a
        else ret tokenIn) ;;
      tokenOut <~ on_ext (m_CalcOutAmtGivenIn swapModule pool actualTokenIn (TokenOutDenom routeStep) (p_GetSpreadFactor pool)) ;;
      if negb (0 <? Amount tokenOut) then fail "token amount must be positive" else
      estimateOutLoop rest {| Denom := TokenOutDenom routeStep; Amount := Amount tokenOut |} applyTakerFee (Amount tokenOut)
  end.
Definition multihopEstimateOutGivenExactAmountInInternal (route : list SwapAmountInRoute) (tokenIn : Coin) (applyTakerFee : bool) : M Keeper Z :=
  recovering "MultihopEstimateOutGivenExactAmountIn" (lift (in_Validate route) ~;; estimateOutLoop route tokenIn applyTakerFee 0).
Definition MultihopEstimateOutGivenExactAmountIn (route : list SwapAmountInRoute) (tokenIn : Coin) : M Keeper Z :=
  multihopEstimateOutGivenExactAmountInInternal route tokenIn true.
Definition MultihopEstimateOutGivenExactAmountInNoTakerFee (route : list SwapAmountInRoute) (tokenIn : Coin) : M Keeper Z :=
  multihopEstimateOutGivenExactAmountInInternal route tokenIn false.

(** The loop of [createMultihopExpectedSwapOuts] goes from the last pool to the
    first: the result has the amount a pool takes and the coin the one before
    it has to give. *)
Fixpoint expectedIns (route : list SwapAmountOutRoute) (tokenOut : Coin) : M Keeper (list Z * Coin) :=
  match route with
  | [] => ret ([], tokenOut)
  | routeStep :: rest =>
      '(ins, out) <~ expectedIns rest tokenOut ;;
      '(swapModule, pool) <~ GetPoolModuleAndPool (out_PoolId routeStep) ;;
      takerFee <~ GetTradingPairTakerFee (TokenInDenom routeStep) (Denom out) ;;
      tokenIn <~ on_ext (m_CalcInAmtGivenOut swapModule pool out (TokenInDenom routeStep) (p_GetSpreadFactor pool)) ;;
      '(tokenInAfterTakerFee, _) <~ lift (CalcTakerFeeExactOut tokenIn takerFee) ;;
      ret (Amount tokenInAfterTakerFee :: ins, tokenInAfterTakerFee)
  end.
Definition createMultihopExpectedSwapOuts (route : list SwapAmountOutRoute) (tokenOut : Coin) : M Keeper (list Z) :=
  '(ins, _) <~ expectedIns route tokenOut ;; ret ins.

Definition MultihopEstimateInGivenExactAmountOut (route : list SwapAmountOutRoute) (tokenOut : Coin) : M Keeper Z :=
  recovering "MultihopEstimateInGivenExactAmountOut" (
    lift (out_Validate route) ~;;
    insExpected <~ createMultihopExpectedSwapOuts route tokenOut ;;
    match insExpected with [] => ret 0 | x :: _ => ret x end).

(** The loop of [RouteExactAmountOut]; [insExpected] starts with the limit of
    the current pool.  The amount of the first pool is the result.  The branch
    for [isMultiHopRouted], which is always false, is left out. *)
Fixpoint routeOutLoop (sender : Address) (route : list SwapAmountOutRoute) (insExpected : list Z) (tokenOut : Coin)
  (tokenInAmount : option Z) (totalTakerFeesCharged : list Coin) (denomsInvolvedInRoute : list string) : M Keeper (option Z * list Coin * list string) :=
  match route, insExpected with
  | [], _ => ret (tokenInAmount, totalTakerFeesCharged, denomsInvolvedInRoute)
  | _, [] => panic "index out of range"
  | routeStep :: rest, maxIn :: ins =>
      '(swapModule, pool) <~ GetPoolModuleAndPool (out_PoolId routeStep) ;;
      out <~ lift (match rest with [] => Ok tokenOut | next :: _ => match ins with x :: _ => NewCoin (TokenInDenom next) x | [] => Panic "index out of range" end end) ;;
      if negb (p_IsActive pool) then fail "pool is not active" else
      curTokenInAmount <~ on_ext (m_SwapExactAmountOut swapModule sender pool (TokenInDenom routeStep) maxIn out (p_GetSpreadFactor pool)) ;;
      tokenIn <~ lift (NewCoin (TokenInDenom routeStep) curTokenInAmount) ;;
      '(tokenInAfterAddTakerFee, takerFeeCharged) <~ chargeTakerFee tokenIn (Denom out) sender false ;;
      trackVolume (p_GetId pool) tokenIn ~;;
      fees <~ lift (Coins_Add totalTakerFeesCharged [takerFeeCharged]) ;;
      routeOutLoop sender rest ins tokenOut (match tokenInAmount with None => Some (Amount tokenInAfterAddTakerFee) | t => t end) fees
        (add_denom denomsInvolvedInRoute (TokenInDenom routeStep))
  end.

Definition RouteExactAmountOut (sender : Address) (route : list SwapAmountOutRoute) (tokenInMaxAmount : Z) (tokenOut : Coin) : M Keeper Z :=
  lift (out_Validate route) ~;;
  recovering "RouteExactAmountOut" (
    insExpected <~ createMultihopExpectedSwapOuts route tokenOut ;;
    match insExpected with
    | [] => ret 0
    | _ :: ins =>
        '(tokenInAmount, fees, denoms) <~ routeOutLoop sender route (tokenInMaxAmount :: ins) tokenOut None [] [Denom tokenOut] ;;
        TakerFeeSkim denoms fees ~;;
        ret (match tokenInAmount with Some n => n | None => 0 end)
    end).

Fixpoint splitOutLoop (sender : Address) (rs : list SwapAmountOutSplitRoute) (tokenOutDenom : string) (totalInAmount : Z) : M Keeper Z :=
  match rs with
  | [] => ret totalInAmount
  | multihopRoute :: rest =>
      c <~ lift (NewCoin tokenOutDenom (TokenOutAmount multihopRoute)) ;;
      amount <~ RouteExactAmountOut sender (out_Pools multihopRoute) intMaxValue c ;;
      total <~ lift (int_Add totalInAmount amount) ;;
      splitOutLoop sender rest tokenOutDenom total
  end.
Definition SplitRouteExactAmountOut (sender : Address) (rs : list SwapAmountOutSplitRoute) (tokenOutDenom : string) (tokenInMaxAmount : Z) : M Keeper Z :=
  lift (ValidateSwapAmountOutSplitRoute rs) ~;;
  totalInAmount <~ splitOutLoop sender rs tokenOutDenom 0 ;;
  if negb (0 <? totalInAmount) then fail "final total amount is not positive" else
  if tokenInMaxAmount <? totalInAmount then fail "price impact protection" else ret totalInAmount.

Fixpoint allPoolsLoop (ms : list (PoolModuleI Ext Pool)) (sortedPools : list Pool) : M Keeper (list Pool) :=
  match ms with
  | [] => ret sortedPools
  | m :: rest => ps <~ on_ext (m_GetPools m) ;; allPoolsLoop rest (MergeSlices (fun i j => p_GetId i <? p_GetId j) sortedPools ps)
  end.
Definition AllPools : M Keeper (list Pool) := GetNextPoolId ~;; allPoolsLoop poolModules [].

Fixpoint poolsWithDenom (m : PoolModuleI Ext Pool) (denom : string) (ps : list Pool) : M Keeper (list Pool) :=
  match ps with
  | [] => ret []
  | p :: rest =>
      r <~ attempt (on_ext (m_GetPoolDenoms m (p_GetId p))) ;;
      tl <~ poolsWithDenom m denom rest ;;
      ret (match r with inl ds => if Contains ds denom then p :: tl else tl | inr _ => tl end)
  end.
Fixpoint poolsByDenomLoop (ms : list (PoolModuleI Ext Pool)) (denom : string) (sortedPools : list Pool) : M Keeper (list Pool) :=
  match ms with
  | [] => ret sortedPools
  | m :: rest =>
      ps <~ on_ext (m_GetPools m) ;;
      qs <~ poolsWithDenom m denom ps ;;
      poolsByDenomLoop rest denom (MergeSlices (fun i j => p_GetId i <? p_GetId j) sortedPools qs)
  end.
Definition ListPoolsByDenom (denom : string) : M Keeper (list Pool) := poolsByDenomLoop poolModules denom [].

Definition RouteGetTotalPoolLiquidity (poolId : Z) : M Keeper (list Coin) :=
  swapModule <~ GetPoolModule poolId ;; on_ext (m_GetTotalPoolLiquidity swapModule poolId).

Definition TotalLiquidity : M Keeper (list Coin) :=
  totalGammLiquidity <~ on_ext (m_GetTotalLiquidity gammKeeper) ;;
  totalConcentratedLiquidity <~ on_ext (m_GetTotalLiquidity concentratedKeeper) ;;
  totalCosmwasmLiquidity <~ on_ext (m_GetTotalLiquidity cosmwasmpoolKeeper) ;;
  a <~ lift (Coins_Add totalGammLiquidity totalConcentratedLiquidity) ;;
  lift (Coins_Add a totalCosmwasmLiquidity).


(** *** Trades within a price impact *)

(** [NewDec(amount.Int64())] of an amount that is no [int64] panics. *)
Definition calculatePriceDeviation (currFromCoin tokenOut : Coin) (spotPrice : Z) : Res Z :=
  if negb ((- 2 ^ 63 <=? Amount currFromCoin) && (Amount currFromCoin <? 2 ^ 63)) then Panic "Int64() out of bound" else
  currTradePrice <- dec_QuoInt (Amount currFromCoin * OneDec) (Amount tokenOut) ;;
  d <- dec_Sub currTradePrice spotPrice ;;
  q <- dec_Quo d spotPrice ;;
  Ok (Z.abs q).

(** [osmoutils.ApplyFuncIfNoError]: a cached context, and panics as errors. *)
Definition apply_cached {X A} (c : M X A) : M X (A + string) := fun s =>
  match c s with
  | (Ok a, s') => (Ok (inl a), s')
  | (Err e, _) => (Ok (inr e), s)
  | (Panic _, _) => (Ok (inr "panic occurred during execution"%string), s)
  end.

(** [strings.Contains(err.Error(), "panic")] *)
Definition says_panic (e : string) : bool := match String.index 0 "panic" e with Some _ => true | None => false end.

Record ImpactRequest : Type := { FromCoin : Coin; ToCoinDenom : string; req_PoolId : Z; MaxPriceImpact : Z; ExternalPrice : Z }.

Definition emptyTrade (req : ImpactRequest) : M Keeper (Coin * Coin) :=
  i <~ lift (NewCoin (Denom (FromCoin req)) 0) ;; o <~ lift (NewCoin (ToCoinDenom req) 0) ;; ret (i, o).

(** What a tried amount shows: an acceptable price, an amount that is too
    large, or that the search ends without a trade. *)
Inductive Verdict : Type := Acceptable | TooLarge | NoTrade.

Definition judge (currFromCoin tokenOut : Coin) (spotPrice adjustedMaxPriceImpact : Z) : M Keeper Verdict :=
  priceDeviation <~ lift (calculatePriceDeviation currFromCoin tokenOut spotPrice) ;;
  ret (if priceDeviation <=? adjustedMaxPriceImpact then Acceptable else TooLarge).

(** The binary search of the three estimates; it ends with [highAmount] and the
    amount tried last, or with nothing when there is no trade. *)
Fixpoint impactLoop (fuel : nat) (try : Coin -> M Keeper Verdict) (denom : string) (lowAmount highAmount : Z) (currFromCoin : Coin) : M Keeper (option (Z * Coin)) :=
  match fuel with
  | O => panic "out of fuel"
  | Datatypes.S fuel' =>
      if negb (lowAmount <=? highAmount) then ret (Some (highAmount, currFromCoin)) else
      midAmount <~ lift (s <- int_Add lowAmount highAmount ;; int_QuoRaw s 2) ;;
      curr <~ lift (NewCoin denom midAmount) ;;
      verdict <~ try curr ;;
      match verdict with
      | NoTrade => ret None
      | Acceptable => low <~ lift (int_Add midAmount 1) ;; impactLoop fuel' try denom low highAmount curr
      | TooLarge => high <~ lift (int_Sub midAmount 1) ;; impactLoop fuel' try denom lowAmount high curr
      end
  end.
Definition impactFuel : nat := 258.

Definition searchTrade (try : Coin -> M Keeper Verdict) (req : ImpactRequest) (swapModule : PoolModuleI Ext Pool) (poolI : Pool) : M Keeper (Coin * Coin) :=
  found <~ impactLoop impactFuel try (Denom (FromCoin req)) 1 (Amount (FromCoin req)) (FromCoin req) ;;
  match found with
  | None => emptyTrade req
  | Some (highAmount, currFromCoin) =>
      if highAmount =? 0 then emptyTrade req else
      tokenOut <~ on_ext (m_CalcOutAmtGivenIn swapModule poolI currFromCoin (ToCoinDenom req) (p_GetSpreadFactor poolI)) ;;
      ret (currFromCoin, tokenOut)
  end.

Definition balancerTry (req : ImpactRequest) (spotPrice adjustedMaxPriceImpact : Z) (swapModule : PoolModuleI Ext Pool) (poolI : Pool) (currFromCoin : Coin) : M Keeper Verdict :=
  r <~ attempt (on_ext (m_CalcOutAmtGivenIn swapModule poolI currFromCoin (ToCoinDenom req) 0)) ;;
  match r with
  | inr e => if IsInvalidMathApprox e then ret NoTrade else fail e
  | inl tokenOut => if Amount tokenOut =? 0 then ret NoTrade else judge currFromCoin tokenOut spotPrice adjustedMaxPriceImpact
  end.
Definition EstimateTradeBasedOnPriceImpactBalancerPool (req : ImpactRequest) (spotPrice adjustedMaxPriceImpact : Z) (swapModule : PoolModuleI Ext Pool) (poolI : Pool) : M Keeper (Coin * Coin) :=
  let try := balancerTry req spotPrice adjustedMaxPriceImpact swapModule poolI in
  verdict <~ try (FromCoin req) ;;
  match verdict with
  | NoTrade => emptyTrade req
  | Acceptable =>
      r <~ attempt (on_ext (m_CalcOutAmtGivenIn swapModule poolI (FromCoin req) (ToCoinDenom req) (p_GetSpreadFactor poolI))) ;;
      match r with
      | inr e => if IsInvalidMathApprox e then emptyTrade req else fail e
      | inl tokenOut => ret (FromCoin req, tokenOut)
      end
  | TooLarge => searchTrade try req swapModule poolI
  end.

Definition stableswapTry (req : ImpactRequest) (spotPrice adjustedMaxPriceImpact : Z) (swapModule : PoolModuleI Ext Pool) (poolI : Pool) (currFromCoin : Coin) : M Keeper Verdict :=
  r <~ apply_cached (on_ext (m_CalcOutAmtGivenIn swapModule poolI currFromCoin (ToCoinDenom req) 0)) ;;
  match r with
  | inr e => ret (if says_panic e then TooLarge else NoTrade)
  | inl tokenOut => judge currFromCoin tokenOut spotPrice adjustedMaxPriceImpact
  end.
(** The whole amount, with the pool's own fee. *)
Definition wholeTrade (req : ImpactRequest) (swapModule : PoolModuleI Ext Pool) (poolI : Pool) : M Keeper (Coin * Coin) :=
  tokenOut <~ on_ext (m_CalcOutAmtGivenIn swapModule poolI (FromCoin req) (ToCoinDenom req) (p_GetSpreadFactor poolI)) ;;
  ret (FromCoin req, tokenOut).
Definition EstimateTradeBasedOnPriceImpactStableSwapPool (req : ImpactRequest) (spotPrice adjustedMaxPriceImpact : Z) (swapModule : PoolModuleI Ext Pool) (poolI : Pool) : M Keeper (Coin * Coin) :=
  let try := stableswapTry req spotPrice adjustedMaxPriceImpact swapModule poolI in
  verdict <~ try (FromCoin req) ;;
  match verdict with
  | NoTrade => emptyTrade req
  | Acceptable => wholeTrade req swapModule poolI
  | TooLarge => searchTrade try req swapModule poolI
  end.

Definition concentratedTry (req : ImpactRequest) (spotPrice adjustedMaxPriceImpact : Z) (swapModule : PoolModuleI Ext Pool) (poolI : Pool) (currFromCoin : Coin) : M Keeper Verdict :=
  r <~ attempt (on_ext (m_CalcOutAmtGivenIn swapModule poolI currFromCoin (ToCoinDenom req) 0)) ;;
  match r with
  | inr _ => ret TooLarge
  | inl tokenOut => if Amount tokenOut =? 0 then ret NoTrade else judge currFromCoin tokenOut spotPrice adjustedMaxPriceImpact
  end.
Definition EstimateTradeBasedOnPriceImpactConcentratedLiquidity (req : ImpactRequest) (spotPrice adjustedMaxPriceImpact : Z) (swapModule : PoolModuleI Ext Pool) (poolI : Pool) : M Keeper (Coin * Coin) :=
  let try := concentratedTry req spotPrice adjustedMaxPriceImpact swapModule poolI in
  verdict <~ try (FromCoin req) ;;
  match verdict with
  | NoTrade => emptyTrade req
  | Acceptable => wholeTrade req swapModule poolI
  | TooLarge => searchTrade try req swapModule poolI
  end.

(** The query ([client/query_proto_wrap.go]). *)
Definition EstimateTradeBasedOnPriceImpact (req : ImpactRequest) : M Keeper (Coin * Coin) :=
  if req_PoolId req =? 0 then fail "Invalid Pool Id" else
  if String.eqb (Denom (FromCoin req)) EmptyString then fail "invalid from coin denom" else
  if String.eqb (ToCoinDenom req) EmptyString then fail "invalid to coin denom" else
  '(swapModule, poolI) <~ GetPoolModuleAndPool (req_PoolId req) ;;
  spotPriceBigDec <~ on_ext (m_CalculateSpotPrice swapModule (req_PoolId req) (Denom (FromCoin req)) (ToCoinDenom req)) ;;
  let spotPrice := Dec spotPriceBigDec in
  adjustedMaxPriceImpact <~ lift (
    if ExternalPrice req =? 0 then Ok (MaxPriceImpact req) else
    d <- dec_Sub spotPrice (ExternalPrice req) ;; priceDeviation <- dec_Quo d (ExternalPrice req) ;; dec_Sub (MaxPriceImpact req) priceDeviation) ;;
  if negb (ExternalPrice req =? 0) && (adjustedMaxPriceImpact <=? 0) then emptyTrade req else
  let t := p_GetType poolI in
  if t =? Balancer_type then EstimateTradeBasedOnPriceImpactBalancerPool req spotPrice adjustedMaxPriceImpact swapModule poolI else
  if t =? Stableswap_type then EstimateTradeBasedOnPriceImpactStableSwapPool req spotPrice adjustedMaxPriceImpact swapModule poolI else
  if t =? Concentrated_type then EstimateTradeBasedOnPriceImpactConcentratedLiquidity req spotPrice adjustedMaxPriceImpact swapModule poolI else
  fail "pool type not supported".

(** ** Blocks, messages and proposals ([keeper.go], [msg_server.go], [gov.go]) *)

(** Errors are logged. *)
Definition logged {X} (c : M X unit) : M X unit := attempt c ~;; ret tt.

Definition BeginBlock : M Keeper unit :=
  k <~ get ;;
  when ((size (pm_agreements k) =? 0)%nat || (size (pm_alloys k) =? 0)%nat)
    (logged setTakerFeeShareAgreementsMapCached ~;; logged setAllRegisteredAlloyedPoolsByDenomCached).

Definition EndBlock (height : Z) : M Keeper unit :=
  when (Z.rem height AlloyedAssetCompositionUpdateRate =? 0) (
    ids <~ attempt getAllRegisteredAlloyedPoolsIdArray ;;
    match ids with
    | inr _ => ret tt
    | inl registeredAlloyPoolIds => for_each registeredAlloyPoolIds (fun id => logged (recalculateAndSetTakerFeeShareAlloyComposition id))
    end).

Definition msg_SwapExactAmountIn (Sender : string) (Routes : list SwapAmountInRoute) (TokenIn : Coin) (TokenOutMinAmount : Z) : M Keeper Z :=
  sender <~ lift (AccAddressFromBech32 Sender) ;; RouteExactAmountIn sender Routes TokenIn TokenOutMinAmount.
Definition msg_SwapExactAmountOut (Sender : string) (Routes : list SwapAmountOutRoute) (TokenInMaxAmount : Z) (TokenOut : Coin) : M Keeper Z :=
  sender <~ lift (AccAddressFromBech32 Sender) ;; RouteExactAmountOut sender Routes TokenInMaxAmount TokenOut.
Definition msg_SplitRouteSwapExactAmountIn (Sender : string) (Routes : list SwapAmountInSplitRoute) (TokenInDenom : string) (TokenOutMinAmount : Z) : M Keeper Z :=
  sender <~ lift (AccAddressFromBech32 Sender) ;; SplitRouteExactAmountIn sender Routes TokenInDenom TokenOutMinAmount.
Definition msg_SplitRouteSwapExactAmountOut (Sender : string) (Routes : list SwapAmountOutSplitRoute) (TokenOutDenom : string) (TokenInMaxAmount : Z) : M Keeper Z :=
  sender <~ lift (AccAddressFromBech32 Sender) ;; SplitRouteExactAmountOut sender Routes TokenOutDenom TokenInMaxAmount.

Record DenomPairTakerFee : Type := { pair_TokenInDenom : string; pair_TokenOutDenom : string; pair_TakerFee : Z }.

Definition msg_SetDenomPairTakerFee (Sender : string) (pairs : list DenomPairTakerFee) : M Keeper unit :=
  for_each pairs (fun denomPair => SenderValidationSetDenomPairTakerFee Sender (pair_TokenInDenom denomPair) (pair_TokenOutDenom denomPair) (pair_TakerFee denomPair)).
Definition msg_SetTakerFeeShareAgreementForDenom (Sender : string) (takerFeeShareAgreement : TakerFeeShareAgreement) : M Keeper unit :=
  if negb (String.eqb Sender (AddressString (GetModuleAddress govModuleName))) then fail "unauthorized gov" else
  if negb (ValidateDenom (share_Denom takerFeeShareAgreement)) then fail "invalid denom" else
  SetTakerFeeShareAgreementForDenom takerFeeShareAgreement.
Definition msg_SetRegisteredAlloyedPool (Sender : string) (PoolId : Z) : M Keeper unit :=
  if negb (String.eqb Sender (AddressString (GetModuleAddress govModuleName))) then fail "unauthorized gov" else
  setRegisteredAlloyedPool PoolId.
Definition HandleDenomPairTakerFeeProposal (pairs : list DenomPairTakerFee) : M Keeper unit :=
  for_each pairs (fun denomPair => SetDenomPairTakerFee (pair_TokenInDenom denomPair) (pair_TokenOutDenom denomPair) (pair_TakerFee denomPair)).

End Keeper.
