(* ===== verification/PoolManagerCorrect.v ===== *)
(** * Routes settle exactly

    What the pool manager relies on of the pool modules, the bank and the other
    keepers ([PoolManagerSpec]), and what it makes of that: along a route the
    trader pays the input and receives the output, the fees arrive at the
    collector, and what is set aside for share agreements is covered by them;
    an estimate of a route is what the route pays ([PoolManagerGamm] has these
    for pools of [x/gamm]); the search for a trade within a price impact ends
    next to an acceptable amount whose successor is too large. *)

From stdpp Require Import base gmap strings.
From Stdlib Require Import ZArith Lia List Bool String Ascii.
From S2P Require Import Twap.
From S2P Require Import Prelude GoBig BigInt BigDec SdkMath SdkMore Store SumTree MapSum GoState SdkCoins SdkPool GammTypes Gamm PoolManager.
Import ListNotations.
Open Scope Z_scope.
Open Scope list_scope.

(** What the pool manager uses of [sdk.Coins] beyond [CoinsSpec]: zero coins
    vanish in sums, and the separator of keys is in no denomination. *)
Class CoinsPlain (C : CoinsOps) : Prop := {
  Coins_Add_zero a c r : coins_ok a -> Amount c = 0 -> Coins_Add a [c] = Ok r -> r = a;
  ValidateDenom_plain d : ValidateDenom d = true -> ~ In 124 (string_bytes d)
}.

(** What can be observed of the other keepers' state. *)
Class PoolManagerView (PK : PoolManagerKeepers) : Type := {
  holds : Ext -> Address -> string -> Z;
  (** accounts of users, neither of pools nor of modules *)
  trader : Address -> Prop;
  (** the state is one that the modules have produced *)
  ext_ok : Ext -> Prop;
  (** the pool is as the module has it stored *)
  fetched : Ext -> Pool -> Prop
}.

Section Laws.
Context {PK : PoolManagerKeepers} {V : PoolManagerView PK}.

Definition collector : Address := GetModuleAddress TakerFeeCollectorName.

(** Traders and the collector: whom a swap of another trader leaves alone. *)
Definition ordinary (x : Address) : Prop := trader x \/ x = collector.

Definition trades (a : Address) (tin tout : Coin) (e e' : Ext) : Prop :=
  forall x d, ordinary x -> holds e' x d = holds e x d + at_addr a x * (amount_of [tout] d - amount_of [tin] d).

(** Ids of pools are of type [uint64]. *)
Definition uint64_id (id : Z) : Prop := 0 <= id < 2 ^ 64.

(** [x/gamm] gives the same answers about its pools [Q]. *)
Definition kept (Q : Z -> Prop) (e e' : Ext) : Prop := forall id, uint64_id id -> Q id ->
  fst (m_GetPool gammKeeper id e') = fst (m_GetPool gammKeeper id e) /\
  forall p, fetched e p -> p_GetId p = id -> fetched e' p /\ forall c d fee,
    fst (m_CalcOutAmtGivenIn gammKeeper p c d fee e') = fst (m_CalcOutAmtGivenIn gammKeeper p c d fee e) /\
    fst (m_CalcInAmtGivenOut gammKeeper p c d fee e') = fst (m_CalcInAmtGivenOut gammKeeper p c d fee e).

(** What the pool manager relies on for every module: its queries change
    nothing. *)
Record ModuleReads (m : PoolModuleI Ext Pool) : Prop := {
  mr_get id e : snd (m_GetPool m id e) = e;
  mr_price id q b e : snd (m_CalculateSpotPrice m id q b e) = e;
  mr_calc p c d fee e : snd (m_CalcOutAmtGivenIn m p c d fee e) = e;
  mr_calc_in p c d fee e : snd (m_CalcInAmtGivenOut m p c d fee e) = e
}.

(** What the theorems about routes use of [x/gamm].  A swap of a concentrated
    pool that stops at its price limit takes or pays less than the amount given,
    so [x/concentrated-liquidity] has no such contract. *)
Record ModuleLaws (m : PoolModuleI Ext Pool) : Prop := {
  ml_got id e p e' : ext_ok e -> uint64_id id -> m_GetPool m id e = (Ok p, e') -> p_GetId p = id /\ fetched e p;
  ml_in_denom p c d fee e t : fst (m_CalcInAmtGivenOut m p c d fee e) = Ok t -> Denom t = d;
  (** A swap respects its limit, moves exactly its two coins among the ordinary
      accounts, follows the module's own calculation and changes no other pool. *)
  ml_swap a p c d mn fee e out e' : ext_ok e -> trader a -> fetched e p -> m_SwapExactAmountIn m a p c d mn fee e = (Ok out, e') ->
    ext_ok e' /\ mn <= out /\ 0 < out /\ trades a c {| Denom := d; Amount := out |} e e' /\
    fst (m_CalcOutAmtGivenIn m p c d fee e) = Ok {| Denom := d; Amount := out |} /\ kept (fun id => id <> p_GetId p) e e';
  ml_swap_out a p d mx c fee e n e' : ext_ok e -> trader a -> fetched e p -> m_SwapExactAmountOut m a p d mx c fee e = (Ok n, e') ->
    ext_ok e' /\ n <= mx /\ 0 < n /\ trades a {| Denom := d; Amount := n |} c e e' /\
    fst (m_CalcInAmtGivenOut m p c d fee e) = Ok {| Denom := d; Amount := n |} /\ kept (fun id => id <> p_GetId p) e e'
}.

Class PoolManagerSpec : Prop := {
  modules_read m : In m poolModules -> ModuleReads m;
  gamm_lawful : ModuleLaws gammKeeper;
  bond_reads e : snd (BondDenom e) = e;
  pair_reads a b e : snd (GetPoolForDenomPair a b e) = e;
  (** Paying a fee into the account of the collector. *)
  fee_law a cs e r e' : ext_ok e -> trader a -> SendCoinsFromAccountToModule a TakerFeeCollectorName cs e = (Ok r, e') ->
    ext_ok e' /\ kept (fun _ => True) e e' /\
    forall x d, ordinary x -> holds e' x d = holds e x d + (at_addr collector x - at_addr a x) * amount_of cs d;
  collector_no_trader : ~ trader collector
}.

Lemma kept_refl Q e : kept Q e e.
Proof. intros id _ _. split; [reflexivity|]. intros p F _. split; [exact F|]. auto. Qed.

Lemma kept_trans (Q : Z -> Prop) e1 e2 e3 : kept Q e1 e2 -> kept Q e2 e3 -> kept Q e1 e3.
Proof.
  intros K1 K2 id U H. destruct (K1 id U H) as [G1 C1]. destruct (K2 id U H) as [G2 C2]. split; [congruence|].
  intros p F1 Ep. destruct (C1 p F1 Ep) as [F2 D1]. destruct (C2 p F2 Ep) as [F3 D2]. split; [exact F3|].
  intros c d fee. destruct (D1 c d fee), (D2 c d fee). split; congruence.
Qed.

Lemma kept_fetched e e' p : kept (fun _ => True) e e' -> uint64_id (p_GetId p) -> fetched e p -> fetched e' p.
Proof. intros K U F. destruct (K (p_GetId p) U I) as [_ C]. now apply C. Qed.

Lemma kept_weaken (Q R : Z -> Prop) e e' : (forall id, R id -> Q id) -> kept Q e e' -> kept R e e'.
Proof. intros W K id U H. apply K; auto. Qed.

End Laws.
Arguments PoolManagerSpec PK {V}.

(** ** What a call changes of the keeper itself *)

Section Quiet.
Context {S : SdkMath} {SS : SdkMathSpec S} {D : SdkMore} {DS : SdkMoreSpec D} {C : CoinsOps} {CS : CoinsSpec C} {CP : CoinsPlain C} {E : PrefixEnd}
  {PK : PoolManagerKeepers} {V : PoolManagerView PK} {PS : PoolManagerSpec PK} {KV : KVStore Stored} {KS : KVStoreSpec KV}.

Definition module_of (k : Keeper) (id : Z) : Res (PoolModuleI Ext Pool) := fst (GetPoolModule id k).

Record quiet (k k' : Keeper) : Prop := {
  q_params : pm_params k' = pm_params k;
  q_agreements : pm_agreements k' = pm_agreements k;
  q_alloys : pm_alloys k' = pm_alloys k;
  q_store key : (forall id, key <> KeyPoolVolume id) -> st_get (pm_store k') key = st_get (pm_store k) key;
  q_module id : module_of k' id = module_of k id
}.

#[global] Instance quiet_equivalence : Equivalence quiet.
Proof.
  split; [now split | intros k1 k2 [P1 A1 L1 S1 M1]; split; auto using eq_sym; intros key H; symmetry; auto|]. intros k1 k2 k3 [P1 A1 L1 S1 M1] [P2 A2 L2 S2 M2].
  split; [congruence | congruence | congruence | intros key H; now rewrite S2, S1 | intros id; now rewrite M2].
Qed.

Definition with_ext (e : Ext) (k : Keeper) : Keeper :=
  {| pm_store := pm_store k; pm_params := pm_params k; pm_modules := pm_modules k; pm_agreements := pm_agreements k; pm_alloys := pm_alloys k; pm_ext := e |}.

Lemma with_ext_same k : with_ext (pm_ext k) k = k.
Proof. now destruct k. Qed.

Lemma module_of_alt k id : module_of k id =
  match pm_modules k !! id with
  | Some t => match routes t with Some m => Ok m | None => Panic "nil module" end
  | None => match st_get (pm_store k) (FormatModuleRouteKey id) with
            | None => Err "failed to find route for pool id"
            | Some v => match as_route v with
                        | None => Err "unmarshal"
                        | Some t => match routes t with None => Err "route is not defined for the given pool type" | Some m => Ok m end
                        end
            end
  end.
Proof.
  unfold module_of, GetPoolModule, store_Get, mbind, get, ret, fail, panic. destruct (pm_modules k !! id) as [t|]; [now destruct (routes t)|].
  destruct (st_get (pm_store k) (FormatModuleRouteKey id)) as [v|]; [|reflexivity]. destruct (as_route v) as [t|]; [|reflexivity]. now destruct (routes t).
Qed.

Lemma quiet_with_ext e k : quiet k (with_ext e k).
Proof. split; try reflexivity. intros id. now rewrite !module_of_alt. Qed.

Lemma on_ext_run {A} (c : M Ext A) k : on_ext c k = (fst (c (pm_ext k)), with_ext (snd (c (pm_ext k))) k).
Proof. unfold on_ext, zoom. now destruct (c (pm_ext k)) as [r e]. Qed.

Lemma on_ext_inv {A} (c : M Ext A) k a k' : on_ext c k = (Ok a, k') -> exists e, c (pm_ext k) = (Ok a, e) /\ k' = with_ext e k.
Proof. rewrite on_ext_run. destruct (c (pm_ext k)) as [r e]. intros H. apply pair_ok_inv in H as [Hr <-]. cbn [fst snd] in *. subst. eauto. Qed.

Lemma on_ext_reads {A} (c : M Ext A) k : snd (c (pm_ext k)) = pm_ext k -> on_ext c k = (fst (c (pm_ext k)), k).
Proof. intros H. now rewrite on_ext_run, H, with_ext_same. Qed.

Lemma store_read {A} key (u : Stored -> option A) k : snd (store_Get key u k) = k.
Proof. unfold store_Get, mbind, get. destruct (st_get _ _) as [v|]; [|reflexivity]. now destruct (u v). Qed.

Lemma routes_listed t m : routes t = Some m -> In m poolModules.
Proof.
  unfold routes, poolModules. destruct (_ || _); [intros H; injection H as <-; now left|]. destruct (t =? Concentrated_type); [intros H; injection H as <-; right; now left|].
  destruct (t =? CosmWasm_type); [|discriminate]. intros H. injection H as <-. right; right. now left.
Qed.

Lemma module_listed k id m : module_of k id = Ok m -> In m poolModules.
Proof.
  rewrite module_of_alt. destruct (pm_modules k !! id) as [t|].
  - destruct (routes t) as [m'|] eqn:R; [|discriminate]. intros H. apply Ok_inj in H as <-. exact (routes_listed t m' R).
  - destruct (st_get _ _) as [v|]; [|discriminate]. destruct (as_route v) as [t|]; [|discriminate]. destruct (routes t) as [m'|] eqn:R; [|discriminate].
    intros H. apply Ok_inj in H as <-. exact (routes_listed t m' R).
Qed.

(** Looking up a module fills the cache with what the store says. *)
Lemma get_module id k r k' : GetPoolModule id k = (r, k') -> r = module_of k id /\ quiet k k' /\ pm_ext k' = pm_ext k.
Proof.
  intros H. assert (Er : r = module_of k id) by (unfold module_of; now rewrite H). split; [exact Er|]. subst r.
  unfold GetPoolModule, mbind, get in H. destruct (pm_modules k !! id) as [t|] eqn:Em.
  { destruct (routes t); unfold ret, panic in H; apply (f_equal snd) in H; cbn in H; subst k'; split; reflexivity. }
  pose proof (store_read (FormatModuleRouteKey id) as_route k) as Sr. unfold store_Get, mbind, get in H.
  destruct (st_get (pm_store k) (FormatModuleRouteKey id)) as [v|] eqn:Es; [|apply (f_equal snd) in H; cbn in H; subst k'; split; reflexivity].
  destruct (as_route v) as [t|] eqn:Ev; [|apply (f_equal snd) in H; cbn in H; subst k'; split; reflexivity].
  cbn [ret] in H. destruct (routes t) as [m|] eqn:R; [|apply (f_equal snd) in H; cbn in H; subst k'; split; reflexivity].
  unfold set_modules, modify, ret in H. apply (f_equal snd) in H. cbn [snd] in H. subst k'. split; [|reflexivity]. split; try reflexivity.
  intros id'. rewrite !module_of_alt. cbn [pm_modules pm_store]. destruct (decide (id = id')) as [<-|N].
  - now rewrite lookup_insert_eq, Em, Es, Ev, R.
  - now rewrite lookup_insert_ne.
Qed.

(** A pool that the pool manager routes to [x/gamm]. *)
Definition on_gamm (k : Keeper) (id : Z) : Prop := uint64_id id /\ module_of k id = Ok gammKeeper.

Lemma on_gamm_quiet k k' id : quiet k k' -> on_gamm k id -> on_gamm k' id.
Proof. intros Q [U H]. split; [exact U | now rewrite (q_module _ _ Q)]. Qed.

Lemma all_on_gamm {A} (f : A -> Z) k k' l : quiet k k' -> Forall (fun x => on_gamm k (f x)) l -> Forall (fun x => on_gamm k' (f x)) l.
Proof. intros Q. apply Forall_impl. intros x. now apply on_gamm_quiet. Qed.

Lemma module_and_pool id k m p k' : ext_ok (pm_ext k) -> on_gamm k id -> GetPoolModuleAndPool id k = (Ok (m, p), k') ->
  m = gammKeeper /\ m_GetPool gammKeeper id (pm_ext k) = (Ok p, pm_ext k) /\ p_GetId p = id /\ fetched (pm_ext k) p /\ quiet k k' /\ pm_ext k' = pm_ext k.
Proof.
  intros Oe [U Og] H. unfold GetPoolModuleAndPool in H. apply mbind_ok_inv in H as (m0 & k1 & E1 & H). apply get_module in E1 as (Em & Q & Ee). rewrite Og in Em. apply Ok_inj in Em as ->.
  apply mbind_ok_inv in H as (p0 & k2 & E2 & H). apply ret_ok_inv in H as [H <-]. injection H as <- <-. apply on_ext_inv in E2 as (e & E2 & ->).
  pose proof (mr_get _ (modules_read _ (or_introl eq_refl)) id (pm_ext k1)) as G. rewrite E2 in G. cbn [snd] in G. subst e. rewrite Ee in E2 |- *.
  destruct (ml_got _ gamm_lawful id _ _ _ Oe U E2) as [Ei F]. rewrite <- Ee, with_ext_same. rewrite Ee. auto 6.
Qed.

(** *** Volumes *)

Lemma volume_quiet id cs k r k' : SetVolume id cs k = (Ok r, k') -> quiet k k' /\ pm_ext k' = pm_ext k.
Proof.
  intros H. unfold SetVolume, set_store, modify in H. apply (f_equal snd) in H. cbn [snd] in H. subst k'. split; [|reflexivity]. split; try reflexivity.
  - intros key N. cbn [pm_store]. apply get_set_ne, not_eq_sym, N.
  - intros i. rewrite !module_of_alt. cbn [pm_modules pm_store]. destruct (pm_modules k !! i); [reflexivity|].
    now rewrite get_set_ne by (intros X; discriminate X).
Qed.

Lemma volume_read id k r k' : GetTotalVolumeForPool id k = (Ok r, k') -> k' = k.
Proof.
  unfold GetTotalVolumeForPool. pose proof (store_read (KeyPoolVolume id) as_volume k) as R. destruct (store_Get _ _ k) as [[[v|]|e|m] k1]; cbn [snd] in R; subst k1;
    intros H; apply (f_equal snd) in H; now cbn in H.
Qed.

Lemma add_volume_quiet id c k r k' : addVolume id c k = (Ok r, k') -> quiet k k' /\ pm_ext k' = pm_ext k.
Proof.
  intros H. unfold addVolume in H. apply mbind_ok_inv in H as (v & k1 & E1 & H). apply volume_read in E1 as ->.
  apply mbind_ok_inv in H as (n & k1 & E2 & H). apply lift_ok_inv in E2 as [_ <-]. exact (volume_quiet _ _ _ _ _ H).
Qed.

Lemma attempt_run {X A} (c : M X A) s r s' : attempt c s = (Ok r, s') -> s' = snd (c s).
Proof. unfold attempt. destruct (c s) as [[a|e|m] s1]; intros H; try discriminate H; now apply (f_equal snd) in H. Qed.

Lemma price_quiet id q b k : quiet k (snd (RouteCalculateSpotPrice id q b k)) /\ pm_ext (snd (RouteCalculateSpotPrice id q b k)) = pm_ext k.
Proof.
  unfold RouteCalculateSpotPrice, mbind. destruct (GetPoolModule id k) as [r k1] eqn:E1. pose proof (get_module _ _ _ _ E1) as (Er & Q & Ee).
  destruct r as [m|e|p]; [|cbn [snd]; auto..]. symmetry in Er. pose proof (modules_read m (module_listed _ _ _ Er)) as L.
  rewrite on_ext_reads by apply (mr_price _ L). cbn [snd]. auto.
Qed.

Lemma track_quiet id c k r k' : trackVolume id c k = (Ok r, k') -> quiet k k' /\ pm_ext k' = pm_ext k.
Proof.
  intros H. unfold trackVolume in H. apply mbind_ok_inv in H as (osmo & k1 & E1 & H). unfold bond_denom in E1. rewrite on_ext_reads in E1 by apply bond_reads.
  assert (k1 = k) as -> by (destruct (fst _); [now apply (f_equal snd) in E1 | discriminate E1 | discriminate E1]).
  destruct (String.eqb _ _); [exact (add_volume_quiet _ _ _ _ _ H)|]. apply mbind_ok_inv in H as (paired & k1 & E2 & H). apply attempt_run in E2.
  rewrite on_ext_reads in E2 by apply pair_reads. cbn [snd] in E2. subst k1. destruct paired as [pid|]; [|apply ret_ok_inv in H as [_ <-]; split; reflexivity].
  apply mbind_ok_inv in H as (price & k1 & E3 & H). apply attempt_run in E3. pose proof (price_quiet pid osmo (Denom c) k) as [Q1 X1]. rewrite <- E3 in Q1, X1.
  destruct price as [pr|]; [|apply ret_ok_inv in H as [_ <-]; auto]. apply mbind_ok_inv in H as (v & k2 & E4 & H). apply lift_ok_inv in E4 as [_ <-].
  apply mbind_ok_inv in H as (c' & k2 & E5 & H). apply lift_ok_inv in E5 as [_ <-]. apply add_volume_quiet in H as [Q2 X2]. split; [now transitivity k1 | congruence].
Qed.

(** *** Taker fees *)

Lemma pair_fee_read a b k : snd (GetTradingPairTakerFee a b k) = k.
Proof.
  unfold GetTradingPairTakerFee, mbind. pose proof (store_read (FormatDenomTradePairKey a b) as_dec k) as R. destruct (store_Get _ _ k) as [[[f|]|e|m] k1]; cbn [snd] in R; subst k1; reflexivity.
Qed.

Lemma pair_fee_quiet a b k k' : quiet k k' -> fst (GetTradingPairTakerFee a b k') = fst (GetTradingPairTakerFee a b k).
Proof.
  intros [P _ _ St _]. unfold GetTradingPairTakerFee, store_Get, GetDefaultTakerFee, mbind, get, ret.
  rewrite St by (intros id X; discriminate X). destruct (st_get _ _) as [v|]; [|now rewrite <- P]. now destruct (as_dec v).
Qed.

(** The fee and the rest are all of the input. *)
Lemma exact_in_splits c f c' fee : CalcTakerFeeExactIn c f = Ok (c', fee) -> Denom c' = Denom c /\ Denom fee = Denom c /\ Amount c = Amount c' + Amount fee.
Proof.
  intros H. unfold CalcTakerFeeExactIn in H. do 4 inv_bind H. apply Ok_inj in H. injection H as <- <-.
  match goal with X : int_Sub _ _ = Ok _ |- _ => apply int_Sub_exact in X; subst end. cbn. repeat split. lia.
Qed.

Lemma exact_out_adds c f c' fee : CalcTakerFeeExactOut c f = Ok (c', fee) -> Denom c' = Denom c /\ Denom fee = Denom c /\ Amount c' = Amount c + Amount fee.
Proof.
  intros H. unfold CalcTakerFeeExactOut in H. do 6 inv_bind H. apply Ok_inj in H. injection H as <- <-.
  match goal with X : int_Sub _ _ = Ok _ |- _ => apply int_Sub_exact in X; subst end. cbn. repeat split. lia.
Qed.

(** A coin that can be paid: positive, or nothing at all. *)
Definition payable (c : Coin) : Prop := Amount c = 0 \/ coins_ok [c].

Lemma made_payable c cs : MakeCoins [c] = Ok cs -> payable c /\ forall d, amount_of cs d = amount_of [c] d.
Proof.
  intros H. apply MakeCoins_exact in H as [O Am]. split; [|exact Am]. destruct (Z.eq_dec (Amount c) 0) as [Z0|N]; [now left|]. right.
  specialize (Am (Denom c)). rewrite amount_single, String.eqb_refl in Am. destruct (amount_coin cs (Denom c) O) as (x & I & Ed & Ex); [congruence|].
  destruct O as [_ F]. rewrite Forall_forall in F. destruct (F x I) as [Px Vx]. apply single_ok; [congruence | now rewrite <- Ed].
Qed.

Definition whitelisted (k : Keeper) (a : Address) : Prop := Contains (ReducedFeeWhitelist (pm_params k)) (AddressString a) = true.

(** What charging a fee does, whoever pays it. *)
Record charged (a : Address) (tin : Coin) (d : string) (k : Keeper) (rest fee : Coin) (k' : Keeper) (exactIn : bool) : Prop := {
  cg_quiet : quiet k k';
  cg_ok : ext_ok (pm_ext k');
  cg_kept : kept (fun _ => True) (pm_ext k) (pm_ext k');
  cg_payable : payable fee;
  cg_denoms : Denom rest = Denom tin /\ Denom fee = Denom tin;
  cg_amount : if exactIn then Amount tin = Amount rest + Amount fee else Amount rest = Amount tin + Amount fee;
  cg_balance x e : ordinary x -> holds (pm_ext k') x e = holds (pm_ext k) x e + (at_addr collector x - at_addr a x) * amount_of [fee] e;
  cg_rate : ~ whitelisted k a -> exists f, fst (GetTradingPairTakerFee (Denom tin) d k) = Ok f /\
    (if exactIn then CalcTakerFeeExactIn tin f else CalcTakerFeeExactOut tin f) = Ok (rest, fee)
}.

Lemma charge_ok tin d a exactIn k rest fee k' : ext_ok (pm_ext k) -> trader a ->
  chargeTakerFee tin d a exactIn k = (Ok (rest, fee), k') -> charged a tin d k rest fee k' exactIn.
Proof.
  intros Oe Ta H. unfold chargeTakerFee in H. apply mbind_ok_inv in H as (k0 & k1 & E0 & H). apply pair_ok_inv in E0 as [E0 <-]. apply Ok_inj in E0 as <-.
  destruct (Contains _ _) eqn:W.
  - apply ret_ok_inv in H as [H <-]. injection H as <- <-. split; try reflexivity; auto using kept_refl.
    + now left.
    + destruct exactIn; cbn; lia.
    + intros x e _. rewrite amount_single. cbn [Amount]. destruct (String.eqb _ _); lia.
    + intros N. exfalso. exact (N W).
  - apply mbind_ok_inv in H as (f & k1 & E1 & H). pose proof (pair_fee_read (Denom tin) d k) as R. rewrite E1 in R. cbn [snd] in R. subst k1.
    apply mbind_ok_inv in H as ([c1 c2] & k1 & E2 & H). apply lift_ok_inv in E2 as [E2 <-]. apply mbind_ok_inv in H as (cs & k1 & E3 & H). apply lift_ok_inv in E3 as [E3 <-].
    apply made_payable in E3 as [Pf Am]. apply mbind_ok_inv in H as (u & k1 & E4 & H). apply on_ext_inv in E4 as (e1 & E4 & ->). apply ret_ok_inv in H as [H <-]. injection H as <- <-.
    destruct (fee_law a cs _ _ _ Oe Ta E4) as (O1 & K1 & B1). split; auto using quiet_with_ext.
    + destruct exactIn; [apply exact_in_splits in E2 as (? & ? & _) | apply exact_out_adds in E2 as (? & ? & _)]; auto.
    + destruct exactIn; [apply exact_in_splits in E2 as (_ & _ & ?) | apply exact_out_adds in E2 as (_ & _ & ?)]; assumption.
    + intros x e Ox. cbn [pm_ext with_ext]. rewrite B1, Am by exact Ox. reflexivity.
    + intros _. exists f. rewrite E1. auto.
Qed.

(** ** One swap *)

(** The answer of the estimate for one pool. *)
Definition quoted (k : Keeper) (id : Z) (tin : Coin) (d : string) (out : Z) : Prop :=
  exists p f c fee, module_of k id = Ok gammKeeper /\ m_GetPool gammKeeper id (pm_ext k) = (Ok p, pm_ext k) /\ fetched (pm_ext k) p /\ p_GetId p = id /\
    fst (GetTradingPairTakerFee (Denom tin) d k) = Ok f /\ CalcTakerFeeExactIn tin f = Ok (c, fee) /\
    fst (m_CalcOutAmtGivenIn gammKeeper p c d (p_GetSpreadFactor p) (pm_ext k)) = Ok {| Denom := d; Amount := out |}.

Record swapped (a : Address) (id : Z) (tin : Coin) (d : string) (mn : Z) (k : Keeper) (out : Z) (fee : Coin) (k' : Keeper) : Prop := {
  sw_quiet : quiet k k';
  sw_ok : ext_ok (pm_ext k');
  sw_kept : kept (fun i => i <> id) (pm_ext k) (pm_ext k');
  sw_out : mn <= out /\ 0 < out;
  sw_fee : payable fee;
  sw_balance x e : ordinary x -> holds (pm_ext k') x e = holds (pm_ext k) x e +
    at_addr a x * (amount_of [ {| Denom := d; Amount := out |} ] e - amount_of [tin] e) + at_addr collector x * amount_of [fee] e;
  sw_quoted : ~ whitelisted k a -> quoted k id tin d out
}.

Lemma split_amounts tin c fee e : Denom c = Denom tin -> Denom fee = Denom tin -> Amount tin = Amount c + Amount fee -> amount_of [tin] e = amount_of [c] e + amount_of [fee] e.
Proof. intros E1 E2 Ea. rewrite !amount_single, E1, E2. destruct (String.eqb _ _); lia. Qed.

Lemma swap_ok a id tin d mn k out fee k' : ext_ok (pm_ext k) -> trader a -> on_gamm k id ->
  SwapExactAmountIn a id tin d mn k = (Ok (out, fee), k') -> swapped a id tin d mn k out fee k'.
Proof.
  intros Oe Ta U H. unfold SwapExactAmountIn in H. apply mbind_ok_inv in H as ([m p] & k1 & E1 & H). apply module_and_pool in E1 as (-> & Eg & Ei & Fp & Q1 & X1); [|exact Oe | exact U].
  destruct (negb (p_IsActive p)); [discriminate H|].
  apply mbind_ok_inv in H as ([c fe] & k2 & E2 & H). apply charge_ok in E2 as [Q2 O2 K2 Pf [Dc Df] Am B2 R2]; [|now rewrite X1 | exact Ta].
  apply mbind_ok_inv in H as (o & k3 & E3 & H). apply on_ext_inv in E3 as (e3 & E3 & ->). rewrite X1 in K2, B2. assert (Up : uint64_id (p_GetId p)) by (rewrite Ei; apply U). pose proof (kept_fetched _ _ p K2 Up Fp) as Fp2.
  destruct (ml_swap _ gamm_lawful a p c d mn _ _ o e3 O2 Ta Fp2 E3) as (O3 & Mn & Po & T3 & Cq & K3). rewrite Ei in K3.
  apply mbind_ok_inv in H as (u & k4 & E4 & H). apply track_quiet in E4 as [Q4 X4]. apply ret_ok_inv in H as [H <-]. injection H as <- <-. cbn [pm_ext with_ext] in X4.
  pose proof (transitivity (transitivity Q1 Q2) (transitivity (quiet_with_ext e3 k2) Q4)) as Qa.
  split; [exact Qa | now rewrite X4 | rewrite X4 | auto | exact Pf | |].
  - apply (kept_trans _ _ (pm_ext k2)); [exact (kept_weaken _ _ _ _ (fun _ _ => I) K2) | exact K3].
  - intros x e Ox. rewrite X4, T3, B2, (split_amounts tin c fe e Dc Df Am) by exact Ox. lia.
  - intros W. destruct R2 as (f & Ef & Ec); [unfold whitelisted in *; now rewrite (q_params _ _ Q1)|]. exists p, f, c, fe.
    pose proof (proj2 U). rewrite (pair_fee_quiet _ _ _ _ Q1) in Ef. destruct (K2 (p_GetId p) Up I) as [_ Kc]. destruct (Kc p Fp eq_refl) as [_ Kd]. rewrite <- (proj1 (Kd c d _)). auto 7.
Qed.

(** ** A whole route *)

Definition route_out (tin : Coin) (route : list SwapAmountInRoute) : string := List.last (map TokenOutDenom route) (Denom tin).

Lemma add_fee fees fee r : coins_ok fees -> payable fee -> Coins_Add fees [fee] = Ok r -> coins_ok r /\ forall d, amount_of r d = amount_of fees d + amount_of [fee] d.
Proof.
  intros O [Z0|Pf] H; [|exact (Coins_Add_exact fees [fee] r O Pf H)]. apply Coins_Add_zero in H as ->; [|assumption..]. split; [exact O|].
  intros d. rewrite amount_single, Z0. destruct (String.eqb _ _); lia.
Qed.

Lemma new_coin_inv d n c : NewCoin d n = Ok c -> c = {| Denom := d; Amount := n |} /\ 0 <= n.
Proof. unfold NewCoin. destruct (Z.ltb_spec n 0) as [L|G]; [discriminate|]. intros H. apply Ok_inj in H as <-. auto. Qed.

(** What the loop leaves: the balances of a trade of the first coin for the
    last, with the fees [fees'] beyond [fees] at the collector. *)
Record routed (a : Address) (tin tout : Coin) (fees fees' : list Coin) (k k' : Keeper) : Prop := {
  ro_quiet : quiet k k';
  ro_ok : ext_ok (pm_ext k');
  ro_fees : coins_ok fees';
  ro_balance x e : ordinary x -> holds (pm_ext k') x e = holds (pm_ext k) x e +
    at_addr a x * (amount_of [tout] e - amount_of [tin] e) + at_addr collector x * (amount_of fees' e - amount_of fees e)
}.

Lemma last_cons (x : string) l dflt : List.last (x :: l) dflt = List.last l x.
Proof. revert x dflt. induction l as [|y l IH]; intros x dflt; [reflexivity|]. change (List.last (y :: l) dflt = List.last (y :: l) x). now rewrite !IH. Qed.

Lemma route_in_loop a mn route : forall tin n fees ds k out fees' ds' k', ext_ok (pm_ext k) -> trader a -> Forall (fun st => on_gamm k (in_PoolId st)) route -> coins_ok fees -> Amount tin = n \/ route <> [] ->
  routeInLoop a route tin mn n fees ds k = (Ok (out, fees', ds'), k') ->
  (if decide (route = []) then out = n else mn <= out) /\ routed a tin {| Denom := route_out tin route; Amount := out |} fees fees' k k'.
Proof.
  induction route as [|st rest IH]; intros tin n fees ds k out fees' ds' k' Oe Ta Us Of Hn H; cbn [routeInLoop] in H.
  - apply ret_ok_inv in H as [H <-]. injection H as <- <- <-. split; [reflexivity|]. split; [reflexivity | exact Oe | exact Of|]. intros x e _.
    destruct Hn as [<-|]; [|congruence]. unfold route_out. cbn [map List.last]. destruct tin as [dt at0]. cbn [Denom Amount]. lia.
  - inversion Us as [|? ? U Us']; subst. apply mbind_ok_inv in H as ([o fe] & k1 & E1 & H). apply swap_ok in E1 as [Q1 O1 _ [M1 P1] Pf B1 _]; [|exact Oe | exact Ta | exact U].
    apply mbind_ok_inv in H as (c & k2 & E2 & H). apply lift_ok_inv in E2 as [E2 <-]. apply new_coin_inv in E2 as [-> _].
    apply mbind_ok_inv in H as (fs & k2 & E3 & H). apply lift_ok_inv in E3 as [E3 <-]. apply add_fee in E3 as [Ofs Am]; [|assumption..].
    apply IH in H as [Mn [Q2 O2 Of2 B2]]; [|assumption | assumption | exact (all_on_gamm in_PoolId _ _ _ Q1 Us') | assumption | now left]. split.
    + rewrite decide_False by discriminate. destruct rest as [|st2 rest]; [rewrite decide_True in Mn by reflexivity; lia | now rewrite decide_False in Mn by discriminate].
    + split; [now transitivity k1 | exact O2 | exact Of2|]. intros x e Ox. rewrite B2, B1, Am by exact Ox.
      assert (route_out {| Denom := TokenOutDenom st; Amount := o |} rest = route_out tin (st :: rest)) as ->; [|lia].
      unfold route_out. cbn [map Denom]. now rewrite last_cons.
Qed.

(** ** What is set aside *)

Definition accrued (k : Keeper) (shareDenom chargedDenom : string) : Z :=
  match st_get (pm_store k) (KeyTakerFeeShareDenomAccrualForTakerFeeChargedDenom shareDenom chargedDenom) with Some (VInt n) => n | _ => 0 end.

(** Over several agreements. *)
Definition set_aside (k : Keeper) (shareDenoms : list string) (d : string) : Z := zsum (map (fun s => accrued k s d) shareDenoms).

Definition share_ok (a : TakerFeeShareAgreement) : Prop := ValidateDenom (share_Denom a) = true /\ 0 <= SkimPercent a.

Definition shares_ok (k : Keeper) : Prop :=
  (forall d a, pm_agreements k !! d = Some a -> share_ok a) /\ (forall d st, pm_alloys k !! d = Some st -> Forall share_ok (TakerFeeShareAgreements st)).

Lemma bar_inj a b c d : ~ In 124 a -> ~ In 124 c -> a ++ 124 :: b = c ++ 124 :: d -> a = c /\ b = d.
Proof.
  revert c. induction a as [|x a IH]; intros [|y c] Na Nc H; cbn in H.
  - injection H as ->. auto.
  - injection H as <- _. exfalso. apply Nc. now left.
  - injection H as -> _. exfalso. apply Na. now left.
  - injection H as -> H. destruct (IH c) as [-> ->]; auto; intros X; [apply Na | apply Nc]; now right.
Qed.

Lemma accrual_key_inj s d s' d' : ValidateDenom s = true -> ValidateDenom s' = true ->
  KeyTakerFeeShareDenomAccrualForTakerFeeChargedDenom s d = KeyTakerFeeShareDenomAccrualForTakerFeeChargedDenom s' d' -> s = s' /\ d = d'.
Proof.
  intros Vs Vs' H. unfold KeyTakerFeeShareDenomAccrualForTakerFeeChargedDenom in H. apply app_inv_head, app_inv_head in H.
  apply bar_inj in H as [Hs Hd]; [|now apply ValidateDenom_plain..]. split; now apply string_bytes_inj.
Qed.

(** One entry moves. *)
Lemma accrual_increase s d n k r k' : ValidateDenom s = true -> increaseTakerFeeShareDenomsToAccruedValue s d n k = (Ok r, k') ->
  pm_ext k' = pm_ext k /\ forall s' d', ValidateDenom s' = true -> accrued k' s' d' = accrued k s' d' + (if decide (s' = s /\ d' = d) then n else 0).
Proof.
  intros Vs H. unfold increaseTakerFeeShareDenomsToAccruedValue in H. apply mbind_ok_inv in H as (found & k1 & E1 & H). unfold GetTakerFeeShareDenomsToAccruedValue in E1.
  pose proof (store_read (KeyTakerFeeShareDenomAccrualForTakerFeeChargedDenom s d) as_int k) as R. rewrite E1 in R. cbn [snd] in R. subst k1.
  apply mbind_ok_inv in H as (v & k1 & E2 & H). apply lift_ok_inv in E2 as [E2 <-]. apply int_Add_exact in E2 as ->.
  unfold SetTakerFeeShareDenomsToAccruedValue, set_store, modify in H. apply (f_equal snd) in H. cbn [snd] in H. subst k'. split; [reflexivity|].
  intros s' d' Vs'. unfold accrued. cbn [pm_store]. destruct (decide (s' = s /\ d' = d)) as [[-> ->]|N].
  - rewrite get_set_eq. unfold store_Get, mbind, get in E1. destruct (st_get _ _) as [v|]; [|apply ret_ok_inv in E1 as [<- _]; reflexivity].
    destruct v; cbn [as_int] in E1; try discriminate E1. apply ret_ok_inv in E1 as [<- _]. reflexivity.
  - rewrite get_set_ne; [lia|]. intros X. apply N. now apply accrual_key_inj in X as [-> ->].
Qed.

Lemma zsum_point (sds : list string) s (f g : string -> Z) n : NoDup sds -> 0 <= n -> (forall x, In x sds -> f x = g x + (if decide (x = s) then n else 0)) ->
  zsum (map f sds) <= zsum (map g sds) + n.
Proof.
  intros Nd Hn. assert (Out : forall l, ~ In s l -> (forall x, In x l -> f x = g x + (if decide (x = s) then n else 0)) -> zsum (map f l) = zsum (map g l)).
  { induction l as [|x l IH]; intros Ni H; [reflexivity|]. cbn [map zsum fold_right]. rewrite (H x) by now left. rewrite decide_False by (intros ->; apply Ni; now left).
    change (g x + 0 + zsum (map f l) = g x + zsum (map g l)). rewrite IH; [lia | intros X; apply Ni; now right | intros y I; apply H; now right]. }
  induction Nd as [|x l Ni Nd IH]; intros H; [cbn; lia|]. cbn [map zsum fold_right].
  change (f x + zsum (map f l) <= g x + zsum (map g l) + n). rewrite (H x) by now left. destruct (decide (x = s)) as [->|N].
  - rewrite Out; [lia | exact Ni | intros y I; apply H; now right].
  - specialize (IH (fun y I => H y (or_intror I))). lia.
Qed.

Lemma increase_total s d n k r k' sds e : ValidateDenom s = true -> 0 <= n -> NoDup sds -> Forall (fun x => ValidateDenom x = true) sds ->
  increaseTakerFeeShareDenomsToAccruedValue s d n k = (Ok r, k') -> pm_ext k' = pm_ext k /\ set_aside k' sds e <= set_aside k sds e + (if String.eqb d e then n else 0).
Proof.
  intros Vs Hn Nd Va H. apply accrual_increase in H as [X A]; [|exact Vs]. split; [exact X|]. rewrite Forall_forall in Va. unfold set_aside. destruct (String.eqb_spec d e) as [->|N].
  - apply (zsum_point sds s); [exact Nd | exact Hn|]. intros x I. rewrite A by now apply Va. destruct (decide (x = s)) as [->|Nx]; [now rewrite decide_True|]. rewrite decide_False by tauto. reflexivity.
  - rewrite Z.add_0_r. apply Z.eq_le_incl. f_equal. apply map_ext_in. intros x I. rewrite A by now apply Va. rewrite decide_False by (intros [_ ->]; congruence). lia.
Qed.

(** The share of an agreement is the truncated product. *)
Lemma skim_amount c a n : 0 <= Amount c -> 0 <= SkimPercent a -> amountToSkim c a = Ok n -> 0 <= n /\ n * OneDec <= Amount c * SkimPercent a.
Proof.
  intros Hc Ha H. unfold amountToSkim in H. apply bind_ok_inv in H as (x & Ex & H). apply int_ToLegacyDec_exact in Ex as ->.
  apply bind_ok_inv in H as (y & Ey & H). apply dec_Mul_bound in Ey. apply dec_TruncateInt_exact in H as ->. pose proof OneDec_pos as P.
  assert (y = Amount c * SkimPercent a) as -> by nia. pose proof (Z.mul_nonneg_nonneg _ _ Hc Ha) as Nn. rewrite Z.quot_div_nonneg by lia.
  split; [apply Z.div_pos; lia | rewrite Z.mul_comm; apply Z.mul_div_le; lia].
Qed.

Lemma percents l : forall acc s, sumPercents l acc = Ok s -> s = acc + zsum (map SkimPercent l).
Proof.
  induction l as [|a l IH]; intros acc s H; cbn [sumPercents] in H; [apply Ok_inj in H as <-; cbn; lia|].
  apply bind_ok_inv in H as (x & Ex & H). apply dec_Add_exact in Ex as ->. apply IH in H as ->. cbn [map zsum fold_right]. unfold zsum. lia.
Qed.

Lemma skim_coin c sds e l : forall k r k', NoDup sds -> Forall (fun x => ValidateDenom x = true) sds -> 0 <= Amount c -> Forall share_ok l ->
  for_each l (fun agreement => amt <~ lift (amountToSkim c agreement) ;; increaseTakerFeeShareDenomsToAccruedValue (share_Denom agreement) (Denom c) amt) k = (Ok r, k') ->
  pm_ext k' = pm_ext k /\ exists n, 0 <= n /\ n * OneDec <= Amount c * zsum (map SkimPercent l) /\ set_aside k' sds e <= set_aside k sds e + (if String.eqb (Denom c) e then n else 0).
Proof.
  intros k r k' Nd Va Hc F. revert k r k'. induction F as [|a l [Vs Pa] F IH]; intros k r k' H; cbn [for_each] in H.
  - apply ret_ok_inv in H as [_ <-]. split; [reflexivity|]. exists 0. cbn. destruct (String.eqb _ _); lia.
  - apply mbind_ok_inv in H as (u & k1 & E1 & H). apply mbind_ok_inv in E1 as (n1 & k2 & E2 & E1). apply lift_ok_inv in E2 as [E2 <-].
    apply skim_amount in E2 as [N1 B1]; [|assumption..]. apply (increase_total _ _ _ _ _ _ sds e) in E1 as [X1 T1]; [|assumption..].
    apply IH in H as (X2 & n2 & N2 & B2 & T2). split; [congruence|]. exists (n1 + n2). cbn [map zsum fold_right]. fold (zsum (map SkimPercent l)).
    rewrite Z.mul_add_distr_l, Z.mul_add_distr_r. destruct (String.eqb _ _); lia.
Qed.

Lemma agreements_of_ok k ds l1 l2 : shares_ok k -> getTakerFeeShareAgreements k ds = (l1, l2) -> Forall share_ok l1 /\ Forall share_ok l2.
Proof.
  intros [Sa Sl]. revert l1 l2. induction ds as [|d ds IH]; intros l1 l2 H; cbn [getTakerFeeShareAgreements] in H; [injection H as <- <-; auto|].
  destruct (getTakerFeeShareAgreements k ds) as [m1 m2] eqn:Em. destruct (IH m1 m2 eq_refl) as [F1 F2]. destruct (pm_agreements k !! d) as [a|] eqn:Ea.
  - injection H as <- <-. split; [constructor; [exact (Sa d a Ea) | exact F1] | exact F2].
  - destruct (pm_alloys k !! d) as [st|] eqn:El; injection H as <- <-; [|auto]. split; [exact F1|]. apply Forall_app_2; [exact (Sl d st El) | exact F2].
Qed.

Lemma amounts_bound (cs : list Coin) sds e l : NoDup sds -> Forall (fun x => ValidateDenom x = true) sds -> Forall share_ok l -> zsum (map SkimPercent l) <= OneDec ->
  forall k r k', Forall (fun c => 0 < Amount c /\ ValidateDenom (Denom c) = true) cs ->
  for_each cs (fun c => for_each l (fun agreement => amt <~ lift (amountToSkim c agreement) ;; increaseTakerFeeShareDenomsToAccruedValue (share_Denom agreement) (Denom c) amt)) k = (Ok r, k') ->
  pm_ext k' = pm_ext k /\ set_aside k' sds e <= set_aside k sds e + amount_of cs e.
Proof.
  intros Nd Va F Sp. induction cs as [|c cs IH]; intros k r k' Fc H; cbn [for_each] in H.
  - apply ret_ok_inv in H as [_ <-]. split; [reflexivity|]. cbn. lia.
  - inversion Fc as [|? ? [Pc _] Fc']; subst. apply mbind_ok_inv in H as (u & k1 & E1 & H). apply (skim_coin c sds e l) in E1 as (X1 & n & Nn & B1 & T1); [|assumption || lia..].
    apply IH in H as [X2 T2]; [|exact Fc']. split; [congruence|]. rewrite amount_cons. pose proof OneDec_pos as P.
    assert (n <= Amount c) by (apply (Z.mul_le_mono_pos_r n (Amount c) OneDec P); etransitivity; [exact B1 | apply Z.mul_le_mono_nonneg_l; lia]).
    destruct (String.eqb _ _); lia.
Qed.

(** Skimming sets aside no more than the fees. *)
Lemma skim_ok ds fees sds e k r k' : shares_ok k -> coins_ok fees -> NoDup sds -> Forall (fun x => ValidateDenom x = true) sds -> TakerFeeSkim ds fees k = (Ok r, k') ->
  pm_ext k' = pm_ext k /\ set_aside k' sds e <= set_aside k sds e + amount_of fees e.
Proof.
  intros So Of Nd Va H. unfold TakerFeeSkim in H. apply mbind_ok_inv in H as (k0 & k1 & E0 & H). apply pair_ok_inv in E0 as [E0 <-]. apply Ok_inj in E0 as <-.
  destruct (getTakerFeeShareAgreements k (sort_Strings ds)) as [l1 l2] eqn:El. apply agreements_of_ok in El as [F1 F2]; [|exact So].
  assert (F : Forall share_ok (match l1 with [] => l2 | _ => l1 end)) by now destruct l1. revert F H. generalize (match l1 with [] => l2 | _ => l1 end). intros l F H.
  pose proof (coins_ok_nonneg fees e Of) as Nf. unfold processShareAgreements in H. destruct l as [|a l]; [apply ret_ok_inv in H as [_ <-]; split; [reflexivity | lia]|].
  apply mbind_ok_inv in H as (s & k1 & E1 & H). apply lift_ok_inv in E1 as [E1 <-]. apply percents in E1. apply mbind_ok_inv in H as (u & k1 & E2 & H). apply lift_ok_inv in E2 as [E2 <-].
  unfold validatePercentage in E2. destruct (Z.ltb_spec OneDec s) as [|Ls]; [discriminate E2|]. apply (amounts_bound fees sds e (a :: l)) in H; [exact H | assumption.. | lia | apply Of].
Qed.

Lemma shares_quiet k k' : quiet k k' -> shares_ok k -> shares_ok k'.
Proof. intros [_ Ea El _ _] [Sa Sl]. split; [rewrite Ea; exact Sa | rewrite El; exact Sl]. Qed.

Lemma aside_quiet k k' sds e : quiet k k' -> set_aside k' sds e = set_aside k sds e.
Proof. intros Q. unfold set_aside. f_equal. apply map_ext. intros s. unfold accrued. now rewrite (q_store _ _ Q) by (intros id X; discriminate X). Qed.

Lemma at_addr_refl a : at_addr a a = 1.
Proof. unfold at_addr. now rewrite decide_True. Qed.
Lemma at_collector x : trader x -> at_addr collector x = 0 /\ at_addr x collector = 0.
Proof. intros T. unfold at_addr. rewrite !decide_False; [auto|..]; intros X; apply collector_no_trader; congruence. Qed.

(** What remains after the fees of a route have been skimmed. *)
Definition settled_route (a : Address) (tin tout : Coin) (k k' : Keeper) : Prop :=
  (forall x d, trader x -> holds (pm_ext k') x d = holds (pm_ext k) x d + at_addr a x * (amount_of [tout] d - amount_of [tin] d)) /\
  (forall d, holds (pm_ext k) collector d <= holds (pm_ext k') collector d) /\
  (forall sds d, NoDup sds -> Forall (fun s => ValidateDenom s = true) sds ->
     set_aside k' sds d - set_aside k sds d <= holds (pm_ext k') collector d - holds (pm_ext k) collector d).

Lemma skimmed_settles a tin tout fees ds k k1 u k2 : trader a -> shares_ok k -> routed a tin tout [] fees k k1 -> TakerFeeSkim ds fees k1 = (Ok u, k2) -> settled_route a tin tout k k2.
Proof.
  intros Ta So [Q1 O1 Of B1] H. pose proof (shares_quiet _ _ Q1 So) as So1. pose proof (fun sds e => skim_ok ds fees sds e k1 u k2 So1 Of) as Sk.
  destruct (Sk [] EmptyString) as [X2 _]; [constructor | constructor | exact H|]. destruct (at_collector a Ta) as [Ca Cc].
  assert (G : forall d, holds (pm_ext k2) collector d = holds (pm_ext k) collector d + amount_of fees d).
  { intros d. rewrite X2, B1 by now right. rewrite Cc, at_addr_refl. cbn [amount_of map zsum fold_right]. lia. }
  split; [|split].
  - intros x d Tx. rewrite X2, B1 by now left. destruct (at_collector x Tx) as [-> _]. lia.
  - intros d. rewrite G. pose proof (coins_ok_nonneg fees d Of). lia.
  - intros sds d Nd Va. rewrite G, <- (aside_quiet _ _ sds d Q1). destruct (Sk sds d Nd Va H) as [_ T]. lia.
Qed.

(** A swap along a route of pools of [x/gamm]. *)
Lemma route_in_settled a route tin mn k out k' : ext_ok (pm_ext k) -> trader a -> shares_ok k -> Forall (fun st => on_gamm k (in_PoolId st)) route ->
  RouteExactAmountIn a route tin mn k = (Ok out, k') -> mn <= out /\ settled_route a tin {| Denom := route_out tin route; Amount := out |} k k'.
Proof.
  intros Oe Ta So Us H. unfold RouteExactAmountIn in H. apply mbind_ok_inv in H as (u & k1 & E1 & H). apply lift_ok_inv in E1 as [Vr <-].
  apply mbind_ok_inv in H as ([[o fees] ds] & k1 & E2 & H). assert (Nr : route <> []) by (intros ->; discriminate Vr).
  apply route_in_loop in E2 as [Mn Ro]; [|exact Oe | exact Ta | exact Us | split; constructor | now right]. rewrite decide_False in Mn by exact Nr.
  apply mbind_ok_inv in H as (u2 & k2 & E3 & H). apply ret_ok_inv in H as [<- <-]. split; [exact Mn|]. exact (skimmed_settles _ _ _ _ _ _ _ _ _ Ta So Ro E3).
Qed.

(** ** Estimates *)

Definition find_pool (k : Keeper) (id : Z) : Res (PoolModuleI Ext Pool * Pool) :=
  m <- module_of k id ;; p <- fst (m_GetPool m id (pm_ext k)) ;; Ok (m, p).

Lemma find_pool_run id k : exists k1, GetPoolModuleAndPool id k = (find_pool k id, k1) /\ quiet k k1 /\ pm_ext k1 = pm_ext k.
Proof.
  unfold GetPoolModuleAndPool, find_pool, mbind. destruct (GetPoolModule id k) as [r k1] eqn:E1. pose proof (get_module _ _ _ _ E1) as (Er & Q & Ee). rewrite <- Er.
  destruct r as [m|e|p]; [|exists k1; auto..]. symmetry in Er. pose proof (modules_read m (module_listed _ _ _ Er)) as L.
  rewrite on_ext_reads by apply (mr_get _ L). rewrite Ee. cbn [bind]. destruct (fst (m_GetPool m id (pm_ext k))) as [p|e|x]; exists k1; auto.
Qed.

(** What one pool of the route gives. *)
Definition step_estimate (k : Keeper) (id : Z) (tin : Coin) (d : string) : Res Coin :=
  '(m, p) <- find_pool k id ;;
  f <- fst (GetTradingPairTakerFee (Denom tin) d k) ;;
  '(c, _) <- CalcTakerFeeExactIn tin f ;;
  fst (m_CalcOutAmtGivenIn m p c d (p_GetSpreadFactor p) (pm_ext k)).

Lemma find_pool_listed k id m p : find_pool k id = Ok (m, p) -> In m poolModules.
Proof. unfold find_pool. intros H. apply bind_ok_inv in H as (m' & Em & H). apply bind_ok_inv in H as (p' & _ & H). apply Ok_inj in H. injection H as <- _. exact (module_listed _ _ _ Em). Qed.

Lemma estimate_unfold st rest tin n k : exists k1, quiet k k1 /\ pm_ext k1 = pm_ext k /\ fst (estimateOutLoop (st :: rest) tin true n k) =
  (c <- step_estimate k (in_PoolId st) tin (TokenOutDenom st) ;;
   if negb (0 <? Amount c) then Err "token amount must be positive" else fst (estimateOutLoop rest {| Denom := TokenOutDenom st; Amount := Amount c |} true (Amount c) k1)).
Proof.
  destruct (find_pool_run (in_PoolId st) k) as (k1 & E1 & Q1 & X1). exists k1. split; [exact Q1|]. split; [exact X1|].
  cbn [estimateOutLoop]. unfold step_estimate, mbind at 1. rewrite E1. destruct (find_pool k (in_PoolId st)) as [[m p]|e|x] eqn:El; [|reflexivity..]. cbn [bind].
  pose proof (modules_read m (find_pool_listed _ _ _ _ El)) as L. pose proof (pair_fee_read (Denom tin) (TokenOutDenom st) k1) as R.
  rewrite <- (pair_fee_quiet (Denom tin) (TokenOutDenom st) k k1 Q1). unfold mbind. destruct (GetTradingPairTakerFee (Denom tin) (TokenOutDenom st) k1) as [[f|e|x] k2]; cbn [snd] in R; subst k2; [|reflexivity..].
  cbn [fst bind]. unfold lift. destruct (CalcTakerFeeExactIn tin f) as [[c fee]|e|x]; [|reflexivity..]. cbn [bind]. unfold ret.
  rewrite on_ext_reads by apply (mr_calc _ L). rewrite X1. destruct (fst (m_CalcOutAmtGivenIn m p c (TokenOutDenom st) (p_GetSpreadFactor p) (pm_ext k))) as [o|e|x]; [|reflexivity..].
  cbn [bind]. now destruct (negb (0 <? Amount o)).
Qed.

Lemma step_agrees Q k k' id tin d : ext_ok (pm_ext k) -> quiet k k' -> kept Q (pm_ext k) (pm_ext k') -> Q id -> on_gamm k id -> step_estimate k' id tin d = step_estimate k id tin d.
Proof.
  intros Oe Qu K Hq [U Em]. unfold step_estimate, find_pool. rewrite (q_module _ _ Qu), (pair_fee_quiet _ _ _ _ Qu), Em. cbn [bind].
  destruct (K id U Hq) as [Kg Kc]. rewrite Kg. pose proof (mr_get _ (modules_read _ (or_introl eq_refl)) id (pm_ext k)) as G.
  destruct (m_GetPool gammKeeper id (pm_ext k)) as [[p|e|x] e1] eqn:Eg; [|reflexivity..]. cbn [fst snd bind] in *. subst e1. destruct (ml_got _ gamm_lawful id _ _ _ Oe U Eg) as [Ei Fp].
  destruct (fst (GetTradingPairTakerFee (Denom tin) d k)) as [f|e|x]; [|reflexivity..]. cbn [bind]. destruct (CalcTakerFeeExactIn tin f) as [[c fee]|e|x]; [|reflexivity..]. cbn [bind]. now apply Kc.
Qed.

Lemma estimate_agrees Q route : forall tin n k k', ext_ok (pm_ext k) -> quiet k k' -> kept Q (pm_ext k) (pm_ext k') -> Forall (fun st => Q (in_PoolId st)) route -> Forall (fun st => on_gamm k (in_PoolId st)) route ->
  fst (estimateOutLoop route tin true n k') = fst (estimateOutLoop route tin true n k).
Proof.
  induction route as [|st rest IH]; intros tin n k k' Oe Qu K F Us; [reflexivity|]. inversion F as [|? ? Hq F']; inversion Us as [|? ? U Us']; subst.
  destruct (estimate_unfold st rest tin n k) as (k1 & Q1 & X1 & ->). destruct (estimate_unfold st rest tin n k') as (k2 & Q2 & X2 & ->).
  rewrite (step_agrees Q k k' _ tin _ Oe Qu K Hq U). destruct (step_estimate k (in_PoolId st) tin (TokenOutDenom st)) as [c|e|x]; [|reflexivity..]. cbn [bind].
  destruct (negb (0 <? Amount c)); [reflexivity|].
  apply IH; [now rewrite X1 | | now rewrite X1, X2 | exact F' | exact (all_on_gamm in_PoolId _ _ _ Q1 Us')]. now rewrite <- Q1, Qu.
Qed.

Lemma quoted_step k id tin d out : quoted k id tin d out -> step_estimate k id tin d = Ok {| Denom := d; Amount := out |}.
Proof.
  intros (p & f & c & fee & Em & Eg & _ & _ & Ef & Ec & Eo). unfold step_estimate, find_pool. rewrite Em. cbn [bind]. rewrite Eg. cbn [fst bind]. rewrite Ef. cbn [bind]. rewrite Ec. exact Eo.
Qed.

Lemma route_as_estimated a mn route : forall tin n fees ds k out fees' ds' k', ext_ok (pm_ext k) -> trader a -> ~ whitelisted k a -> NoDup (map in_PoolId route) -> Forall (fun st => on_gamm k (in_PoolId st)) route ->
  routeInLoop a route tin mn n fees ds k = (Ok (out, fees', ds'), k') -> fst (estimateOutLoop route tin true n k) = Ok out.
Proof.
  induction route as [|st rest IH]; intros tin n fees ds k out fees' ds' k' Oe Ta W Nd Us H; cbn [routeInLoop] in H; [now apply ret_ok_inv in H as [[= <- <- <-] _]|].
  inversion Nd as [|? ? Ni Nd']; inversion Us as [|? ? U Us']; subst. apply mbind_ok_inv in H as ([o fe] & k1 & E1 & H). apply swap_ok in E1 as [Q1 O1 K1 [_ P1] _ _ Qt]; [|exact Oe | exact Ta | exact U].
  apply mbind_ok_inv in H as (c & k2 & E2 & H). apply lift_ok_inv in E2 as [E2 <-]. apply new_coin_inv in E2 as [-> _].
  apply mbind_ok_inv in H as (fs & k2 & E3 & H). apply lift_ok_inv in E3 as [E3 <-].
  apply IH in H; [|assumption | assumption | unfold whitelisted in *; now rewrite (q_params _ _ Q1) | assumption | exact (all_on_gamm in_PoolId _ _ _ Q1 Us')].
  destruct (estimate_unfold st rest tin n k) as (k3 & Q3 & X3 & ->). rewrite (quoted_step _ _ _ _ _ (Qt W)). cbn [bind Amount]. rewrite (proj2 (Z.ltb_lt 0 o) P1). cbn [negb].
  rewrite <- H. symmetry. apply (estimate_agrees (fun i => i <> in_PoolId st)); [now rewrite X3 | now rewrite <- Q3 | now rewrite X3 | | exact (all_on_gamm in_PoolId _ _ _ Q3 Us')].
  apply Forall_forall. intros st' I X. apply Ni. rewrite <- X. now apply in_map.
Qed.

Lemma recovering_run {X A} name (c : M X A) s a s' : Gamm.recovering name c s = (Ok a, s') -> c s = (Ok a, s').
Proof. unfold Gamm.recovering. destruct (c s) as [[r|e|m] s1]; intros H; try discriminate H. exact H. Qed.

Lemma recovering_ok_run {X A} name (c : M X A) s a : fst (c s) = Ok a -> fst (Gamm.recovering name c s) = Ok a.
Proof. unfold Gamm.recovering. destruct (c s) as [[r|e|m] s1]; cbn [fst]; intros H; [exact H | discriminate H | discriminate H]. Qed.

(** An estimate is what the route pays. *)
Lemma estimate_executed a route tin mn k out k' : ext_ok (pm_ext k) -> trader a -> ~ whitelisted k a -> NoDup (map in_PoolId route) ->
  Forall (fun st => on_gamm k (in_PoolId st)) route ->
  RouteExactAmountIn a route tin mn k = (Ok out, k') -> fst (MultihopEstimateOutGivenExactAmountIn route tin k) = Ok out.
Proof.
  intros Oe Ta W Nd Us H. unfold RouteExactAmountIn in H. apply mbind_ok_inv in H as (u & k1 & E1 & H). apply lift_ok_inv in E1 as [Vr <-].
  apply mbind_ok_inv in H as ([[o fees] ds] & k1 & E2 & H). apply mbind_ok_inv in H as (u2 & k2 & _ & H). apply ret_ok_inv in H as [<- _].
  apply route_as_estimated in E2; [|assumption..]. apply recovering_ok_run. unfold mbind, lift. now rewrite Vr.
Qed.

(** ** Routes with an exact output *)

(** The estimate for one pool that has to pay [c]. *)
Definition asked (k : Keeper) (id : Z) (din : string) (c tin fee c0 : Coin) : Prop :=
  exists p f, m_GetPool gammKeeper id (pm_ext k) = (Ok p, pm_ext k) /\ fetched (pm_ext k) p /\ p_GetId p = id /\
    fst (GetTradingPairTakerFee din (Denom c) k) = Ok f /\ fst (m_CalcInAmtGivenOut gammKeeper p c din (p_GetSpreadFactor p) (pm_ext k)) = Ok tin /\
    CalcTakerFeeExactOut tin f = Ok (c0, fee).

(** The coins the pools of a route take, from the first to the last. *)
Inductive demanded (k : Keeper) (tout : Coin) : list SwapAmountOutRoute -> list Z -> Coin -> Prop :=
| dm_nil : demanded k tout [] [] tout
| dm_cons st rest ins c tin fee c0 : demanded k tout rest ins c -> asked k (out_PoolId st) (TokenInDenom st) c tin fee c0 -> demanded k tout (st :: rest) (Amount c0 :: ins) c0.

Lemma asked_quiet k k' id din c tin fee c0 : quiet k k' -> pm_ext k' = pm_ext k -> asked k' id din c tin fee c0 -> asked k id din c tin fee c0.
Proof.
  intros Q X (p & f & Eg & Fp & Ep & Ef & Ec & Et). exists p, f. rewrite (pair_fee_quiet _ _ _ _ Q) in Ef. rewrite X in *. auto 7.
Qed.

Lemma expected_demanded tout route : forall k ins c k', ext_ok (pm_ext k) -> Forall (fun st => on_gamm k (out_PoolId st)) route -> expectedIns route tout k = (Ok (ins, c), k') ->
  demanded k tout route ins c /\ quiet k k' /\ pm_ext k' = pm_ext k.
Proof.
  induction route as [|st rest IH]; intros k ins c k' Oe Us H; cbn [expectedIns] in H.
  - apply ret_ok_inv in H as [H <-]. injection H as <- <-. split; [constructor | split; reflexivity].
  - inversion Us as [|? ? U Us']; subst. apply mbind_ok_inv in H as ([ins1 c1] & k1 & E1 & H). apply IH in E1 as (Dm & Q1 & X1); [|exact Oe | exact Us'].
    apply mbind_ok_inv in H as ([m p] & k2 & E2 & H). apply module_and_pool in E2 as (-> & Eg & Ep & Fp & Q2 & X2); [|now rewrite X1 | exact (on_gamm_quiet _ _ _ Q1 U)].
    apply mbind_ok_inv in H as (f & k3 & E3 & H). pose proof (pair_fee_read (TokenInDenom st) (Denom c1) k2) as R. rewrite E3 in R. cbn [snd] in R. subst k3.
    apply mbind_ok_inv in H as (tin & k3 & E4 & H). rewrite on_ext_reads in E4 by apply (mr_calc_in _ (modules_read _ (or_introl eq_refl))).
    apply pair_ok_inv in E4 as [E4 <-]. apply mbind_ok_inv in H as ([c0 fee] & k3 & E5 & H). apply lift_ok_inv in E5 as [E5 <-]. apply ret_ok_inv in H as [H <-]. injection H as <- <-.
    split; [|split; [now transitivity k1 | congruence]]. apply (dm_cons _ _ _ _ _ c1 tin fee); [exact Dm|]. apply (asked_quiet k k1); [exact Q1 | exact X1|].
    exists p, f. rewrite <- (pair_fee_quiet _ _ _ _ Q2), E3, <- X2. rewrite <- X2 in Eg, Fp. auto 7.
Qed.

Lemma asked_denom k id din c tin fee c0 : asked k id din c tin fee c0 -> Denom c0 = din.
Proof. intros (p & f & _ & _ & _ & _ & Ec & Et). apply exact_out_adds in Et as (-> & _). exact (ml_in_denom _ gamm_lawful _ _ _ _ _ _ Ec). Qed.

(** What the loop reads of the expected amounts is the coin demanded next. *)
Lemma next_out k tout rest ins c out : demanded k tout rest ins c ->
  match rest with [] => Ok tout | next :: _ => match ins with x :: _ => NewCoin (TokenInDenom next) x | [] => Panic "index out of range" end end = Ok out -> out = c.
Proof.
  intros Dr H. inversion Dr as [|st2 rest2 ins2 c2 tin2 fee2 c0 Dr2 As2]; subst; [now apply Ok_inj in H|].
  apply new_coin_inv in H as [-> _]. rewrite <- (asked_denom _ _ _ _ _ _ _ As2). now destruct c.
Qed.

(** One pool of the route, executed where the state of the pool is as it was
    for the estimate. *)
Lemma out_step a (Q : Z -> Prop) id din c tin fee c0 mx k k1 m p k2 n k3 rest fe k4 : ext_ok (pm_ext k1) -> trader a -> ~ whitelisted k a -> on_gamm k id -> Q id ->
  quiet k k1 -> kept Q (pm_ext k) (pm_ext k1) -> asked k id din c tin fee c0 -> GetPoolModuleAndPool id k1 = (Ok (m, p), k2) ->
  on_ext (m_SwapExactAmountOut m a p din mx c (p_GetSpreadFactor p)) k2 = (Ok n, k3) ->
  chargeTakerFee {| Denom := din; Amount := n |} (Denom c) a false k3 = (Ok (rest, fe), k4) ->
  n <= mx /\ rest = c0 /\ Denom c0 = din /\ payable fe /\ quiet k1 k4 /\ ext_ok (pm_ext k4) /\ kept (fun i => i <> id) (pm_ext k1) (pm_ext k4) /\
  forall x e, ordinary x -> holds (pm_ext k4) x e = holds (pm_ext k1) x e + at_addr a x * (amount_of [c] e - amount_of [c0] e) + at_addr collector x * amount_of [fe] e.
Proof.
  intros Oe Ta W U Hq Qu K (p0 & f0 & Eg0 & Fp0 & Ep0 & Ef0 & Ec0 & Et0) E1 E2 E3. apply module_and_pool in E1 as (-> & Eg & Ep & Fp & Q2 & X2); [|exact Oe | exact (on_gamm_quiet _ _ _ Qu U)].
  destruct (K id (proj1 U) Hq) as [Kg Kc]. rewrite Eg, Eg0 in Kg. cbn [fst] in Kg. apply Ok_inj in Kg as ->.
  destruct (Kc p0 Fp0 Ep0) as [_ Kd]. apply on_ext_inv in E2 as (e3 & E2 & ->). rewrite X2 in E2.
  destruct (ml_swap_out _ gamm_lawful a p0 din mx c _ _ n e3 Oe Ta Fp E2) as (O3 & Mx & _ & T3 & Cq & K3). rewrite Ep0 in K3. rewrite (proj2 (Kd c din _)), Ec0 in Cq. apply Ok_inj in Cq as ->.
  apply charge_ok in E3 as [Q4 O4 K4 Pf [Dr Df] Am B4 R4]; [|exact O3 | exact Ta]. cbn [pm_ext with_ext Denom Amount] in *.
  pose proof (transitivity Q2 (quiet_with_ext e3 k2)) as Q3. destruct R4 as (f & Ef & Ef2); [unfold whitelisted in *; now rewrite (q_params _ _ Q3), (q_params _ _ Qu)|].
  rewrite (pair_fee_quiet _ _ _ _ Q3), (pair_fee_quiet _ _ _ _ Qu), Ef0 in Ef. apply Ok_inj in Ef as <-. rewrite Et0 in Ef2. apply Ok_inj in Ef2. injection Ef2 as <- <-.
  split; [exact Mx|]. split; [reflexivity|]. split; [exact Dr|]. split; [exact Pf|]. split; [now transitivity (with_ext e3 k2)|]. split; [exact O4|].
  split; [apply (kept_trans _ _ e3); [exact K3 | exact (kept_weaken _ _ _ _ (fun _ _ => I) K4)]|].
  intros x e Ox. rewrite B4, T3 by exact Ox. rewrite (split_amounts c0 {| Denom := din; Amount := n |} fee e); [lia | now symmetry | congruence | cbn; lia].
Qed.

Lemma route_out_loop a tout route : forall ins c0 mx acc fees ds k k1 r fees' ds' k', ext_ok (pm_ext k1) -> trader a -> ~ whitelisted k a -> NoDup (map out_PoolId route) -> Forall (fun st => on_gamm k (out_PoolId st)) route -> coins_ok fees ->
  quiet k k1 -> kept (fun i => In i (map out_PoolId route)) (pm_ext k) (pm_ext k1) -> demanded k tout route ins c0 ->
  routeOutLoop a route (mx :: List.tl ins) tout acc fees ds k1 = (Ok (r, fees', ds'), k') ->
  r = match acc, route with None, _ :: _ => Some (Amount c0) | _, _ => acc end /\ routed a c0 tout fees fees' k1 k'.
Proof.
  induction route as [|st rest IH]; intros ins c0 mx acc fees ds k k1 r fees' ds' k' Oe Ta W Nd Us Of Qu K Dm H; cbn [routeOutLoop] in H.
  - apply ret_ok_inv in H as [H <-]. injection H as <- <- <-. inversion Dm; subst. split; [now destruct acc|]. split; [reflexivity | exact Oe | exact Of | intros x e _; lia].
  - inversion Dm as [|? ? ins1 c tin fee ? Dr As]; subst. inversion Nd as [|? ? Ni Nd']; inversion Us as [|? ? U Us']; subst. cbn [List.tl] in H.
    apply mbind_ok_inv in H as ([m p] & k2 & E1 & H). apply mbind_ok_inv in H as (out & k3 & E2 & H). apply lift_ok_inv in E2 as [E2 <-].
    destruct (negb (p_IsActive p)); [discriminate H|]. apply mbind_ok_inv in H as (n & k3 & E3 & H). apply mbind_ok_inv in H as (tn & k4 & E4 & H). apply lift_ok_inv in E4 as [E4 <-].
    apply new_coin_inv in E4 as [-> _]. apply mbind_ok_inv in H as ([c1 fe] & k4 & E5 & H). apply mbind_ok_inv in H as (u & k5 & E6 & H). apply track_quiet in E6 as [Q6 X6].
    apply mbind_ok_inv in H as (fs & k6 & E7 & H). apply lift_ok_inv in E7 as [E7 <-].
    apply (next_out k tout rest ins1 c) in E2 as ->; [|exact Dr].
    destruct (out_step a (fun i => In i (map out_PoolId (st :: rest))) (out_PoolId st) (TokenInDenom st) c tin fee c0 mx k k1 m p k2 n k3 c1 fe k4)
      as (_ & -> & Dc & Pf & Q4 & O4 & K4 & B4); try assumption; [now left|]. apply add_fee in E7 as [Ofs Am]; [|assumption..].
    assert (Qa : quiet k k5) by (rewrite Qu, Q4; exact Q6).
    assert (Hr : exists mx', routeOutLoop a rest (mx' :: List.tl ins1) tout (match acc with None => Some (Amount c0) | t => t end) fs (add_denom ds (TokenInDenom st)) k5 = (Ok (r, fees', ds'), k')).
    { inversion Dr; subst; [exists 0 | eexists]; exact H. }
    destruct Hr as [mx' Hr]. apply (IH ins1 c mx' _ _ _ k) in Hr as [Er [Q7 O7 Of7 B7]]; try assumption.
    + split; [subst r; now destruct acc, rest|]. split; [rewrite Q4, Q6; exact Q7 | exact O7 | exact Of7|].
      intros x e Ox. rewrite B7, X6, B4, Am by exact Ox. lia.
    + now rewrite X6.
    + rewrite X6. apply (kept_trans _ _ (pm_ext k1)); [exact (kept_weaken _ _ _ _ (fun i Hi => or_intror Hi) K) | refine (kept_weaken _ _ _ _ _ K4)]. intros i Hi ->. contradiction.
Qed.

(** A swap along a route for an exact output. *)
Lemma route_out_settled a route mx tout k n k' : ext_ok (pm_ext k) -> trader a -> ~ whitelisted k a -> NoDup (map out_PoolId route) -> Forall (fun st => on_gamm k (out_PoolId st)) route -> shares_ok k ->
  RouteExactAmountOut a route mx tout k = (Ok n, k') ->
  fst (MultihopEstimateInGivenExactAmountOut route tout k) = Ok n /\
  settled_route a {| Denom := List.hd (Denom tout) (map TokenInDenom route); Amount := n |} tout k k'.
Proof.
  intros Oe Ta W Nd Us So H. unfold RouteExactAmountOut in H. apply mbind_ok_inv in H as (u & k1 & E1 & H). apply lift_ok_inv in E1 as [Vr <-]. destruct u.
  apply recovering_run in H. apply mbind_ok_inv in H as (ins & k1 & E2 & H).
  assert (Es : fst (MultihopEstimateInGivenExactAmountOut route tout k) = Ok (match ins with [] => 0 | x :: _ => x end)).
  { apply recovering_ok_run. unfold mbind at 1, lift. rewrite Vr. unfold mbind. rewrite E2. now destruct ins. }
  unfold createMultihopExpectedSwapOuts in E2. apply mbind_ok_inv in E2 as ([ins1 c0] & k2 & E2 & E3). apply ret_ok_inv in E3 as [-> ->].
  apply expected_demanded in E2 as (Dm & Q1 & X1); [|exact Oe | exact Us]. destruct route as [|st rest]; [discriminate Vr|]. inversion Dm as [|? ? ins2 c tin fee ? Dr As]; subst.
  apply mbind_ok_inv in H as ([[t fees] ds] & k2 & E2 & H).
  apply (route_out_loop a tout (st :: rest) (Amount c0 :: ins2) c0 mx None [] _ k) in E2 as [-> [Q2 O2 Of B2]];
    [|now rewrite X1 | assumption | assumption | assumption | assumption | split; constructor | assumption | rewrite X1; apply kept_refl | assumption].
  apply mbind_ok_inv in H as (u2 & k3 & E3 & H). apply ret_ok_inv in H as [<- <-]. split; [exact Es|]. cbn [map List.hd]. rewrite <- (asked_denom _ _ _ _ _ _ _ As).
  apply (skimmed_settles a _ tout fees ds k k2 u2 k3 Ta So); [|exact E3]. destruct c0. split; [now transitivity k1 | exact O2 | exact Of | now rewrite <- X1].
Qed.

(** ** The two fees *)

(** With an exact input the fee is rounded up to the next unit. *)
Lemma exact_in_bounds c f r fee : 0 <= Amount c -> 0 <= f <= OneDec -> CalcTakerFeeExactIn c f = Ok (r, fee) ->
  0 <= Amount fee <= Amount c /\ Amount c * f <= Amount fee * OneDec < Amount c * f + OneDec.
Proof.
  intros Hc Hf H. pose proof OneDec_pos as P. unfold CalcTakerFeeExactIn in H. apply bind_ok_inv in H as (b & Eb & H). apply dec_Sub_exact in Eb as ->.
  apply bind_ok_inv in H as (m & Em & H). apply dec_MulInt_exact in Em as ->. apply bind_ok_inv in H as (x & Ex & H). apply dec_TruncateInt_exact in Ex as ->.
  apply bind_ok_inv in H as (y & Ey & H). apply int_Sub_exact in Ey as ->. apply Ok_inj in H. injection H as <- <-. cbn [Amount].
  pose proof (Z.mul_nonneg_nonneg (OneDec - f) (Amount c) ltac:(lia) Hc) as Nn. rewrite Z.quot_div_nonneg by lia.
  pose proof (Z.mul_div_le ((OneDec - f) * Amount c) OneDec P). pose proof (Z.mul_succ_div_gt ((OneDec - f) * Amount c) OneDec P).
  set (q := (OneDec - f) * Amount c / OneDec) in *. generalize dependent OneDec. intros. nia.
Qed.

(** With an exact output the total, less the fee, is the input of the pool up to
    a unit of the eighteenth decimal. *)
Lemma exact_out_bounds c f r fee : 0 <= Amount c -> 0 <= f < OneDec -> CalcTakerFeeExactOut c f = Ok (r, fee) ->
  Amount c * OneDec * OneDec <= (Amount r * OneDec + 1) * (OneDec - f) /\ (Amount r * OneDec - OneDec - 1) * (OneDec - f) < Amount c * OneDec * OneDec.
Proof.
  intros Hc Hf H. pose proof OneDec_pos as P. unfold CalcTakerFeeExactOut in H. apply bind_ok_inv in H as (b & Eb & H). apply dec_Sub_exact in Eb as ->.
  apply bind_ok_inv in H as (x & Ex & H). apply int_ToLegacyDec_exact in Ex as ->. apply bind_ok_inv in H as (q & Eq & H). apply dec_Quo_bound in Eq; [|nia | lia].
  apply bind_ok_inv in H as (ce & Ec & H). apply dec_Ceil_exact in Ec as ->. apply bind_ok_inv in H as (t & Et & H). apply dec_TruncateInt_exact in Et as ->.
  apply bind_ok_inv in H as (y & Ey & H). apply Ok_inj in H. injection H as <- _. cbn [Amount]. rewrite Z.quot_mul by lia.
  pose proof (cdiv_spec q OneDec P) as Cd. set (n := cdiv q OneDec) in *. generalize dependent OneDec. intros. nia.
Qed.

(** C32: the two taker fees fit together.  The fee on an exact input is the rate of
    it, rounded up, and never more than the input; and an input that was raised by
    the fee for an exact output leaves, after the fee on an exact input has been
    taken from it, what the pool was to receive, or one unit less, which is the
    price of rounding to eighteen decimals. *)
Theorem taker_fee_roundtrip c f total fee rest fee' : 0 <= Amount c -> 0 < f < OneDec ->
  CalcTakerFeeExactOut c f = Ok (total, fee) -> CalcTakerFeeExactIn total f = Ok (rest, fee') ->
  Amount c - 1 <= Amount rest <= Amount c /\ 0 <= Amount fee' <= Amount total /\ Amount total * f <= Amount fee' * OneDec < Amount total * f + OneDec.
Proof.
  intros Hc Hf H1 H2. pose proof OneDec_pos as P. apply exact_out_bounds in H1 as [L U]; [|lia | lia]. assert (Ht : 0 <= Amount total) by (generalize dependent OneDec; intros; nia).
  pose proof (exact_in_splits _ _ _ _ H2) as (_ & _ & Sp). apply exact_in_bounds in H2 as [B1 B2]; [|exact Ht | lia]. split; [|split; [exact B1 | exact B2]].
  assert (Amount rest = Amount total - Amount fee') as -> by lia. clear -Hf L U B2 P. generalize dependent OneDec. intros.
  assert (Amount c * z - Amount total * (z - f) <= 1) by nia. assert (Amount total * (z - f) < Amount c * z + z) by nia. nia.
Qed.

(** ** The search within a price impact *)











End Quiet.
