(* ===== verification/PoolManagerGamm.v ===== *)
(** * [x/gamm] as a pool module of the pool manager

    The keeper of [x/gamm], with its balancer and stableswap pools, meets the
    contract [ModuleLaws] on which the theorems about routes rest, so they hold for
    routes through its pools, whatever the other two pool modules do. *)

From stdpp Require Import base gmap strings.
From Stdlib Require Import ZArith Lia List Bool String Ascii.
From S2P Require Import Prelude GoBig BigInt BigDec SdkMath SdkMore Store SumTree MapSum GoState SdkCoins SdkPool Cfmm GammTypes GammBalancer GammStableswap GammPool.
From S2P Require Import PoolManager PoolManagerCorrect.
Import ListNotations.
Import CFMMPool.
From S2P Require Import Gamm GammBooks GammCorrect.
Open Scope Z_scope.
Open Scope list_scope.

(** ** What a swap does to a pool *)

(** The id and the address of a pool never change. *)
Definition same_pool {P} {PM : PoolModel P} (p p' : P) : Prop := GetId p' = GetId p /\ GetAddress p' = GetAddress p.

Section Pools.
Context {S : SdkMath} {D : SdkMore} {DP : SdkPool} {C : CoinsOps} {CM : CoinsMore} {T : GammText}.

(** A computation on a pool that keeps its identity. *)
Definition steadily {X A} (R : X -> X -> Prop) (c : M X A) : Prop := forall p r p', c p = (r, p') -> R p p'.

Lemma steadily_bind {X A B} (R : X -> X -> Prop) (c : M X A) (f : A -> M X B) : (forall x y z, R x y -> R y z -> R x z) ->
  steadily R c -> (forall a, steadily R (f a)) -> steadily R (mbind c f).
Proof.
  intros Tr Hc Hf p r p' H. unfold mbind in H. destruct (c p) as [[a|e|m] p1] eqn:Ec; [|apply (f_equal snd) in H; cbn in H; subst p1; exact (Hc _ _ _ Ec)..].
  exact (Tr _ _ _ (Hc _ _ _ Ec) (Hf a _ _ _ H)).
Qed.

Lemma steadily_each {X A} (R : X -> X -> Prop) (l : list A) (f : A -> M X unit) : (forall x, R x x) -> (forall x y z, R x y -> R y z -> R x z) ->
  (forall a, steadily R (f a)) -> steadily R (for_each l f).
Proof.
  intros Rf Tr Hf. induction l as [|a l IH]; cbn [for_each]; [intros p r p' H; injection H as _ <-; apply Rf|]. now apply steadily_bind.
Qed.

Definition same_balancer (p p' : Balancer.Pool) : Prop := Balancer.Id p' = Balancer.Id p /\ Balancer.PoolAddress p' = Balancer.PoolAddress p.
Definition same_stable (p p' : Stableswap.Pool) : Prop := Stableswap.Id p' = Stableswap.Id p /\ Stableswap.PoolAddress p' = Stableswap.PoolAddress p.

Lemma same_balancer_refl p : same_balancer p p.
Proof. now split. Qed.
Lemma same_balancer_trans p q r : same_balancer p q -> same_balancer q r -> same_balancer p r.
Proof. unfold same_balancer. intuition congruence. Qed.

(** Reading the pool, then going on from there. *)
Lemma steadily_get {X A} (R : X -> X -> Prop) (f : X -> M X A) : (forall p r p', f p p = (r, p') -> R p p') -> steadily R (mbind get f).
Proof. intros H p r p' E. exact (H p r p' E). Qed.
Lemma steadily_lift {X A B} (R : X -> X -> Prop) (x : Res A) (f : A -> M X B) p r p' : (forall p, R p p) -> mbind (lift x) f p = (r, p') -> (forall a, x = Ok a -> f a p = (r, p') -> R p p') -> R p p'.
Proof. intros Rf H G. unfold mbind, lift in H. destruct x as [a|e|m]; [exact (G a eq_refl H) | injection H as _ <-; apply Rf | injection H as _ <-; apply Rf]. Qed.

Lemma update_balance_same c : steadily same_balancer (Balancer.UpdatePoolAssetBalance c).
Proof.
  apply steadily_get. intros p r p' H. refine (steadily_lift _ _ _ _ _ _ same_balancer_refl H _). intros [i a] _ E. destruct (Amount c <=? 0); injection E as _ <-; now split.
Qed.

Lemma apply_swap_same ins outs : steadily same_balancer (Balancer.applySwap ins outs).
Proof.
  apply steadily_get. intros p r p' H. do 4 (refine (steadily_lift _ _ _ _ _ _ same_balancer_refl H _); clear H; intros ? _ H; try match goal with x : (_ * _)%type |- _ => destruct x as [[[? ?] ?] ?] end).
  revert H. apply (fun G => G p r p'). unfold Balancer.UpdatePoolAssetBalances. destruct (negb _); [intros q s q' X; injection X as _ <-; now split|].
  apply steadily_each; [exact same_balancer_refl | exact same_balancer_trans | exact update_balance_same].
Qed.

Lemma weights_same l : steadily same_balancer (Balancer.updateAllWeights l).
Proof.
  apply steadily_get. intros p r p' H. destruct (negb _); [injection H as _ <-; now split|].
  refine (steadily_lift _ _ _ _ _ _ same_balancer_refl H _). intros [a t] _ E. injection E as _ <-. now split.
Qed.

Lemma balancer_poke_same t : steadily same_balancer (Balancer.PokePool t).
Proof.
  apply steadily_get. intros p r p' H. destruct (Balancer.Smooth (Balancer.Params p)) as [sp|]; [|injection H as _ <-; now split].
  destruct (t <=? Balancer.StartTime sp); [injection H as _ <-; now split|]. destruct (_ <? t).
  - revert H. apply (fun G => G p r p'). apply steadily_bind; [exact same_balancer_trans | apply weights_same | intros u q s q' X; injection X as _ <-; now split].
  - refine (steadily_lift _ _ _ _ _ _ same_balancer_refl H _). clear H. intros el _ H. destruct (OneDec <=? el); [exact (weights_same _ _ _ _ H)|].
    do 3 (refine (steadily_lift _ _ _ _ _ _ same_balancer_refl H _); clear H; intros ? _ H). exact (weights_same _ _ _ _ H).
Qed.

(** A swap is the calculation, and an update of the same pool. *)
Class SwapFacts (P : Type) {PM : PoolModel P} : Prop := {
  sf_out cs d f p o p' : SwapOutAmtGivenIn cs d f p = (Ok o, p') -> CalcOutAmtGivenIn p cs d f = Ok o /\ Denom o = d /\ same_pool p p';
  sf_in cs d f p o p' : SwapInAmtGivenOut cs d f p = (Ok o, p') -> CalcInAmtGivenOut p cs d f = Ok o /\ same_pool p p';
  sf_in_denom cs d f p o : CalcInAmtGivenOut p cs d f = Ok o -> Denom o = d;
  sf_poke t p r p' : is_weighted p = true -> PokePool t p = (r, p') -> same_pool p p'
}.

Lemma positive_coin d n o : (if negb (0 <? n) then Err "token amount must be positive" else NewCoin d n) = Ok o -> Denom o = d.
Proof. destruct (negb (0 <? n)); [discriminate|]. unfold NewCoin. destruct (n <? 0); [discriminate|]. intros H. now apply Ok_inj in H as <-. Qed.

#[export] Instance balancer_facts : SwapFacts Balancer.Pool.
Proof.
  assert (Sp : forall p p' : Balancer.Pool, same_balancer p p' -> same_pool p p').
  { intros p p' [Ei Ea]. split; [exact Ei|]. cbn [GetAddress balancer_model]. unfold Balancer.GetAddress. now rewrite Ea. }
  split; cbn [SwapOutAmtGivenIn SwapInAmtGivenOut CalcOutAmtGivenIn CalcInAmtGivenOut PokePool balancer_model].
  - intros cs d f p o p' H. apply mbind_ok_inv in H as (q & p1 & E1 & H). apply pair_ok_inv in E1 as [E1 <-]. apply Ok_inj in E1 as <-.
    apply mbind_ok_inv in H as (o1 & p1 & E2 & H). apply lift_ok_inv in E2 as [E2 <-]. apply mbind_ok_inv in H as (u & p1 & E3 & H). apply ret_ok_inv in H as [<- <-].
    split; [exact E2|]. split; [|exact (Sp _ _ (apply_swap_same _ _ _ _ _ E3))]. unfold Balancer.CalcOutAmtGivenIn in E2. apply bind_ok_inv in E2 as ([[t a] b] & _ & E2). do 10 inv_bind E2.
    exact (positive_coin _ _ _ E2).
  - intros cs d f p o p' H. apply mbind_ok_inv in H as (q & p1 & E1 & H). apply pair_ok_inv in E1 as [E1 <-]. apply Ok_inj in E1 as <-.
    apply mbind_ok_inv in H as (o1 & p1 & E2 & H). apply lift_ok_inv in E2 as [E2 <-]. apply mbind_ok_inv in H as (u & p1 & E3 & H). apply ret_ok_inv in H as [<- <-].
    split; [exact E2 | exact (Sp _ _ (apply_swap_same _ _ _ _ _ E3))].
  - intros cs d f p o H. unfold Balancer.CalcInAmtGivenOut in H. apply bind_ok_inv in H as ([[t a] b] & _ & H). do 11 inv_bind H. exact (positive_coin _ _ _ H).
  - intros t p r p' _ H. exact (Sp _ _ (balancer_poke_same t p r p' H)).
Qed.

Lemma update_liquidity_same ins outs p r p' : Stableswap.updatePoolLiquidityForSwap ins outs p = (Ok r, p') -> same_pool p p'.
Proof.
  intros H. apply mbind_ok_inv in H as (q & p1 & E1 & H). apply pair_ok_inv in E1 as [E1 <-]. apply Ok_inj in E1 as <-.
  do 2 (apply mbind_ok_inv in H as (? & p1 & E1 & H); apply lift_ok_inv in E1 as [_ <-]). apply mbind_ok_inv in H as (u & p1 & E1 & H). injection E1 as _ <-.
  destruct (negb _); [discriminate H|]. injection H as _ <-. now split.
Qed.

#[export] Instance stable_facts : SwapFacts Stableswap.Pool.
Proof.
  split; cbn [SwapOutAmtGivenIn SwapInAmtGivenOut CalcOutAmtGivenIn CalcInAmtGivenOut PokePool stable_model].
  - intros cs d f p o p' H. apply mbind_ok_inv in H as (q & p1 & E1 & H). apply pair_ok_inv in E1 as [E1 <-]. apply Ok_inj in E1 as <-.
    do 2 (apply mbind_ok_inv in H as (? & p1 & E1 & H); apply lift_ok_inv in E1 as [_ <-]). apply mbind_ok_inv in H as (o1 & p1 & E2 & H). apply lift_ok_inv in E2 as [E2 <-].
    apply mbind_ok_inv in H as (? & p1 & E1 & H). apply lift_ok_inv in E1 as [_ <-]. apply mbind_ok_inv in H as (u & p1 & E3 & H). apply ret_ok_inv in H as [<- <-].
    split; [exact E2|]. split; [|exact (update_liquidity_same _ _ _ _ _ E3)]. unfold Stableswap.CalcOutAmtGivenIn in E2. destruct cs as [|c [|? ?]]; try discriminate E2. do 2 inv_bind E2. exact (positive_coin _ _ _ E2).
  - intros cs d f p o p' H. apply mbind_ok_inv in H as (q & p1 & E1 & H). apply pair_ok_inv in E1 as [E1 <-]. apply Ok_inj in E1 as <-.
    apply mbind_ok_inv in H as (o1 & p1 & E2 & H). apply lift_ok_inv in E2 as [E2 <-]. do 3 (apply mbind_ok_inv in H as (? & p1 & E1 & H); apply lift_ok_inv in E1 as [_ <-]).
    apply mbind_ok_inv in H as (u & p1 & E3 & H). apply ret_ok_inv in H as [<- <-]. split; [exact E2 | exact (update_liquidity_same _ _ _ _ _ E3)].
  - intros cs d f p o H. unfold Stableswap.CalcInAmtGivenOut in H. destruct cs as [|c [|? ?]]; try discriminate H. do 3 inv_bind H. exact (positive_coin _ _ _ H).
  - intros t p r p' W. discriminate W.
Qed.

#[export] Instance pool_facts : SwapFacts CFMMPool.PoolI.
Proof.
  split; cbn [SwapOutAmtGivenIn SwapInAmtGivenOut CalcOutAmtGivenIn CalcInAmtGivenOut PokePool is_weighted pool_model]; unfold on_pool, of_pool.
  - intros cs d f [p|p] o p' H; match type of H with (let '(_, _) := ?c in _) = _ => destruct c as [r q] eqn:Ec end; apply pair_ok_inv in H as [-> <-]; exact (sf_out _ _ _ _ _ _ Ec).
  - intros cs d f [p|p] o p' H; match type of H with (let '(_, _) := ?c in _) = _ => destruct c as [r q] eqn:Ec end; apply pair_ok_inv in H as [-> <-]; exact (sf_in _ _ _ _ _ _ Ec).
  - intros cs d f [p|p] o H; exact (sf_in_denom _ _ _ _ _ H).
  - intros t [p|p] r p' W H; [|discriminate W]. match type of H with (let '(_, _) := ?c in _) = _ => destruct c as [r0 q] eqn:Ec end. apply (f_equal snd) in H. cbn [snd] in H. subst p'.
    exact (sf_poke t p r0 q W Ec).
Qed.

End Pools.

(** ** The module *)

Section Module.
Context {S : SdkMath} {SS : SdkMathSpec S} {D : SdkMore} {DP : SdkPool} {C : CoinsOps} {CS : CoinsSpec C} {CM : CoinsMore} {B : BigEndian} {BS : BigEndianSpec B} {E : PrefixEnd}.
Context {GK : GammKeepers} {P : Type} {PM : PoolModel P} {SF : SwapFacts P} {KV : KVStore (Stored P)} {KS : KVStoreSpec KV}.

(** The keeper at the time of the block, and the state [Rest] of the other
    modules. *)
Context {Rest : Type}.
Record GammState : Type := { gx_time : Z; gx_keeper : Keeper; gx_rest : Rest }.
Definition with_gamm (e : GammState) (k : Keeper) : GammState := {| gx_time := gx_time e; gx_keeper := k; gx_rest := gx_rest e |}.

Definition at_gamm {A} (c : Z -> M Keeper A) : M GammState A := fun e =>
  let '(r, k) := c (gx_time e) (gx_keeper e) in (r, (with_gamm e k)).

Definition gamm_as_module : PoolManager.PoolModuleI GammState P := {|
  m_InitializePool p a := at_gamm (fun _ => InitializePool p a);
  m_GetPool id := at_gamm (fun t => GetPool t id);
  m_GetPools := at_gamm GetPoolsAndPoke;
  m_GetPoolDenoms id := at_gamm (fun t => GetPoolDenoms t id);
  m_CalculateSpotPrice id q b := at_gamm (fun t => CalculateSpotPrice t id q b);
  m_SwapExactAmountIn a p c d mn f := at_gamm (fun _ => '(n, _) <~ SwapExactAmountIn a p c d mn f ;; ret n);
  m_CalcOutAmtGivenIn p c d f := at_gamm (fun _ => lift (gamm_CalcOutAmtGivenIn p c d f));
  m_SwapExactAmountOut a p d mx c f := at_gamm (fun t => '(n, _) <~ SwapExactAmountOut t a p d mx c f ;; ret n);
  m_CalcInAmtGivenOut p c d f := at_gamm (fun _ => lift (gamm_CalcInAmtGivenOut p c d f));
  m_GetTotalPoolLiquidity id := at_gamm (fun t => gamm_GetTotalPoolLiquidity t id);
  m_GetTotalLiquidity := at_gamm (fun _ => GetTotalLiquidity)
|}.

(** What a pool manager has beyond [x/gamm] and the bank: the two other pool
    modules, which may do anything to the whole state, and the rest. *)
Record Surroundings : Type := {
  su_concentrated : PoolManager.PoolModuleI GammState P;
  su_cosmwasm : PoolManager.PoolModuleI GammState P;
  su_type : P -> Z;
  su_denoms : P -> Res (list string);
  su_bond : string;
  su_pairs : string -> string -> Res Z;
  su_address : string -> Address;
  su_text : Address -> string;
  su_read : string -> Res Address;
  su_math : string -> bool
}.

Context (su : Surroundings).

#[export] Instance gamm_pool_i : PoolManager.PoolI P := {|
  p_GetId := GetId; p_GetAddress := GetAddress; p_GetSpreadFactor := GetSpreadFactor; p_IsActive := IsActive; p_GetType := su_type su; p_GetPoolDenoms := su_denoms su
|}.

(** The pool manager on top of [x/gamm]; there are no contracts. *)
#[export] Instance gamm_chain : PoolManager.PoolManagerKeepers := {|
  PoolManager.Ext := GammState;
  PoolManager.Pool := P;
  PoolManager.pool_i := gamm_pool_i;
  PoolManager.gammKeeper := gamm_as_module;
  PoolManager.concentratedKeeper := su_concentrated su;
  PoolManager.cosmwasmpoolKeeper := su_cosmwasm su;
  PoolManager.GetWhitelistedAddresses := ret [];
  PoolManager.SendCoins a b cs := at_gamm (fun _ => on_ext (SendCoins a b cs));
  PoolManager.SendCoinsFromAccountToModule a m cs := at_gamm (fun _ => on_ext (SendCoinsFromAccountToModule a m cs));
  PoolManager.FundCommunityPool cs a := at_gamm (fun _ => on_ext (SendCoinsFromAccountToModule a "distribution" cs));
  PoolManager.BondDenom := ret (su_bond su);
  PoolManager.GetPoolForDenomPair a b := lift (su_pairs su a b);
  PoolManager.GetAccount _ := ret None;
  PoolManager.SetModuleAccount _ := ret tt;
  PoolManager.GetModuleAddress := su_address su;
  PoolManager.AddressString := su_text su;
  PoolManager.AccAddressFromBech32 := su_read su;
  PoolManager.query_share_denom _ := fail "no contract";
  PoolManager.query_total_pool_liquidity _ := fail "no contract";
  PoolManager.query_asset_configs _ := fail "no contract";
  PoolManager.NewDecFromStr _ := Err "no contract";
  PoolManager.IsInvalidMathApprox := su_math su
|}.

Context {V : GammView GK} {GS : GammKeepersSpec GK} {GD : GammDomain GK}.

(** Every stored pool is under its own id and has the account of that id. *)
Definition addressed (e : GammState) : Prop := forall id v, id_ok id -> st_get (g_store (gx_keeper e)) (GetKeyPrefixPools id) = Some v ->
  exists p, v = VPool p /\ GetId p = id /\ GetAddress p = Ok (pool_addr id).

#[export] Instance gamm_chain_view : PoolManagerView gamm_chain := {|
  holds e a d := balance (g_ext (gx_keeper e)) a d;
  trader := account;
  ext_ok := addressed;
  fetched _ p := id_ok (GetId p) /\ GetAddress p = Ok (pool_addr (GetId p))
|}.

(** Beyond [GammKeepersSpec]: queries of the other pool modules change nothing, the bank refuses invalid coins, the hooks after a
    swap move no coins, and the collector is an account of its own. *)
Class GammChainSpec : Prop := {
  concentrated_reads : ModuleReads (su_concentrated su);
  cosmwasm_reads : ModuleReads (su_cosmwasm su);
  send_valid a b cs e r e' : SendCoins a b cs e = (Ok r, e') -> coins_ok cs;
  swap_hook_quiet a id i o e r e' : AfterCFMMSwap gamm_hooks a id i o e = (Ok r, e') -> forall x d, balance e' x d = balance e x d;
  collector_address : su_address su PoolManager.TakerFeeCollectorName = module_addr PoolManager.TakerFeeCollectorName;
  collector_no_pool id : module_addr PoolManager.TakerFeeCollectorName <> pool_addr id;
  collector_no_account : ~ account (module_addr PoolManager.TakerFeeCollectorName)
}.

Context {CH : GammChainSpec}.

Lemma at_gamm_inv {A} (c : Z -> M Keeper A) e a e' : at_gamm c e = (Ok a, e') -> exists k, c (gx_time e) (gx_keeper e) = (Ok a, k) /\ e' = (with_gamm e k).
Proof. unfold at_gamm. destruct (c (gx_time e) (gx_keeper e)) as [r k]. intros H. apply pair_ok_inv in H as [-> <-]. eauto. Qed.

Lemma at_gamm_reads {A} (c : Z -> M Keeper A) e : (forall t k, snd (c t k) = k) -> snd (at_gamm c e) = e.
Proof. intros H. unfold at_gamm. specialize (H (gx_time e) (gx_keeper e)). destruct (c (gx_time e) (gx_keeper e)) as [r k]. cbn [snd] in *. subst k. now destruct e. Qed.

Lemma poke_run t p (k : Keeper) : exists r, poke t p k = (r, k) /\ (forall k' : Keeper, poke t p k' = (r, k')) /\ forall q, r = Ok q -> same_pool p q.
Proof.
  unfold poke, with_pool, mbind. destruct (is_weighted p) eqn:W; [|exists (Ok p); split; [reflexivity|]; split; [reflexivity|]; intros q Hq; apply Ok_inj in Hq as <-; now split].
  destruct (PokePool t p) as [[u|e|m] q] eqn:Ep; [exists (Ok q) | exists (Err e) | exists (Panic m)]; (split; [reflexivity|]; split; [reflexivity|]); intros q' Hq; try discriminate Hq.
  apply Ok_inj in Hq as <-. exact (sf_poke t p _ q W Ep).
Qed.

Lemma get_pool_reads t id k : snd (GetPool t id k) = k.
Proof.
  unfold GetPool, GetPoolAndPoke, mbind, get. destruct (st_get _ _) as [[p|n]|]; [|reflexivity..]. destruct (poke_run t p k) as (r & -> & _). reflexivity.
Qed.

Lemma get_pool_view t id k k' : v_pool k' id = v_pool k id -> fst (GetPool t id k') = fst (GetPool t id k).
Proof.
  unfold v_pool. intros H. unfold GetPool, GetPoolAndPoke, mbind, get. rewrite H. clear H. destruct (st_get _ _) as [[p|n]|]; [|reflexivity..].
  destruct (poke_run t p k) as (r & -> & Hr & _). now rewrite Hr.
Qed.

Lemma spot_price_reads t id q b k : snd (CalculateSpotPrice t id q b k) = k.
Proof.
  unfold CalculateSpotPrice, mbind. pose proof (get_pool_reads t id k) as R. unfold GetPool in R. destruct (GetPoolAndPoke t id k) as [[p|e|m] k1]; cbn [snd] in R; subst k1; [|reflexivity..].
  match goal with |- snd ((match ?x with Ok _ => _ | Err _ => _ | Panic _ => _ end) _) = _ => now destruct x end.
Qed.

Lemma liquidity_reads t id k r k' : gamm_GetTotalPoolLiquidity t id k = (Ok r, k') -> k' = k.
Proof.
  intros H. unfold gamm_GetTotalPoolLiquidity in H. apply mbind_ok_inv in H as (p & k1 & E1 & H). apply lift_ok_inv in H as [_ <-]. unfold GetCFMMPool in E1.
  apply mbind_ok_inv in E1 as (q & k2 & E2 & E1). pose proof (get_pool_reads t id k) as R. unfold GetPool in R. rewrite E2 in R. cbn [snd] in R. subst k2.
  destruct (negb _); [discriminate E1|]. now apply ret_ok_inv in E1 as [_ <-].
Qed.

(** The accounts that swaps leave alone are not those of pools. *)
Lemma ordinary_no_pool x id : ordinary x -> at_addr (pool_addr id) x = 0.
Proof.
  intros [T|Ec]; unfold at_addr; rewrite decide_False; try reflexivity; intros X; [exact (account_not_pool x id T (eq_sym X))|].
  apply (collector_no_pool id). rewrite X, Ec. unfold collector. cbn [PoolManager.GetModuleAddress gamm_chain]. symmetry. apply collector_address.
Qed.

(** The settlement of a swap, seen from the accounts and from the store. *)
Lemma update_swap_run p a tin tout k r k' : account a -> id_ok (GetId p) -> GetAddress p = Ok (pool_addr (GetId p)) -> updatePoolForSwap p a tin tout k = (Ok r, k') ->
  coins_ok [tin] /\ coins_ok [tout] /\
  (forall x d, ordinary x -> balance (g_ext k') x d = balance (g_ext k) x d + at_addr a x * (amount_of [tout] d - amount_of [tin] d)) /\
  (forall id, id_ok id -> v_pool k' id = put_at (GetId p) p (v_pool k) id).
Proof.
  intros Ha Hi Ea H. pose proof (se_store _ _ _ _ _ (update_swap_settles p a tin tout k r k' Ha Hi Ea H)) as [Cp _ _]. unfold updatePoolForSwap in H.
  apply mbind_ok_inv in H as (u3 & k3 & E3 & H). apply setPool_changes in E3 as [_ X3]; [|exact Hi].
  rewrite Ea in H. apply mbind_ok_inv in H as (addr & k0 & E0 & H). apply lift_ok_inv in E0 as [E0 <-]. apply Ok_inj in E0 as <-.
  apply mbind_ok_inv in H as (u1 & k1 & E1 & H). apply bank_call_ok in E1 as (e1 & E1 & ->). pose proof (send_valid _ _ _ _ _ _ E1) as V1. apply send_law in E1 as [B1 _].
  apply mbind_ok_inv in H as (u2 & k2 & E2 & H). apply bank_call_ok in E2 as (e2 & E2 & ->). pose proof (send_valid _ _ _ _ _ _ E2) as V2. apply send_law in E2 as [B2 _].
  apply mbind_ok_inv in H as (u4 & k4 & E4 & H). apply bank_call_ok in E4 as (e4 & E4 & ->). pose proof (swap_hook_quiet _ _ _ _ _ _ _ E4) as B4.
  apply mbind_ok_inv in H as (u5 & k5 & E5 & H). apply increase_changes in E5 as [_ X5]. apply decrease_changes in H as [_ X6]. cbn [g_ext g_store] in *.
  split; [exact V1|]. split; [exact V2|]. split; [|exact Cp]. intros x d Ox. rewrite X6, X5, B4, B2, B1, X3, (ordinary_no_pool x (GetId p) Ox). lia.
Qed.

Lemma make_valid c : coins_ok [c] -> MakeCoins [c] = Ok [c].
Proof. apply MakeCoins_total. Qed.

(** Storing a pool under its own id leaves the other pools as they are. *)
Lemma stored_kept e k' p : id_ok (GetId p) -> (forall id, id_ok id -> v_pool k' id = put_at (GetId p) p (v_pool (gx_keeper e)) id) ->
  kept (fun id => id <> GetId p) e (with_gamm e k').
Proof.
  intros Hi Cp id U Ne. split; [|intros q Fq Eq; split; [exact Fq | intros c d fee; split; reflexivity]].
  cbn [PoolManager.m_GetPool gamm_as_module PoolManager.gammKeeper gamm_chain]. unfold at_gamm. cbn [gx_time gx_keeper with_gamm].
  pose proof (get_pool_view (gx_time e) id (gx_keeper e) k') as Gv. destruct (GetPool (gx_time e) id k') as [r1 k1]. destruct (GetPool (gx_time e) id (gx_keeper e)) as [r2 k2].
  apply Gv. rewrite Cp by exact U. unfold put_at. now rewrite decide_False.
Qed.

Lemma stored_addressed e k' p : addressed e -> id_ok (GetId p) -> GetAddress p = Ok (pool_addr (GetId p)) ->
  (forall id, id_ok id -> v_pool k' id = put_at (GetId p) p (v_pool (gx_keeper e)) id) -> addressed (with_gamm e k').
Proof.
  intros A Hi Ea Cp id v U H. specialize (Cp id U). unfold v_pool in Cp. cbn [gx_keeper with_gamm] in H. rewrite H in Cp. unfold put_at in Cp. destruct (decide (id = GetId p)) as [->|N].
  - injection Cp as ->. eauto.
  - symmetry in Cp. exact (A id v U Cp).
Qed.

(** What a swap of a pool in memory does to the chain. *)
Lemma swap_effect a p p' tin tout (e : GammState) r k' : addressed e -> account a -> id_ok (GetId p) -> GetAddress p = Ok (pool_addr (GetId p)) -> same_pool p p' ->
  updatePoolForSwap p' a tin tout (gx_keeper e) = (Ok r, k') ->
  let e' := (with_gamm e k') in
  coins_ok [tin] /\ coins_ok [tout] /\ addressed e' /\ trades a tin tout e e' /\ kept (fun id => id <> GetId p) e e'.
Proof.
  intros A Ha Hi Ea [Ei Es] H. rewrite <- Ei in Hi, Ea |- *. rewrite <- Es in Ea. apply update_swap_run in H as (V1 & V2 & Bl & Cp); [|assumption..].
  split; [exact V1|]. split; [exact V2|]. split; [exact (stored_addressed e k' p' A Hi Ea Cp)|]. split; [exact Bl | exact (stored_kept e k' p' Hi Cp)].
Qed.

Lemma gamm_swap_in a p c d mn fee (e e' : GammState) out : addressed e -> account a -> id_ok (GetId p) -> GetAddress p = Ok (pool_addr (GetId p)) ->
  PoolManager.m_SwapExactAmountIn gamm_as_module a p c d mn fee e = (Ok out, e') ->
  addressed e' /\ mn <= out /\ 0 < out /\ trades a c {| Denom := d; Amount := out |} e e' /\
  gamm_CalcOutAmtGivenIn p c d fee = Ok {| Denom := d; Amount := out |} /\ kept (fun id => id <> GetId p) e e'.
Proof.
  intros A Ha Hi Ea H. cbn [PoolManager.m_SwapExactAmountIn gamm_as_module] in H. apply at_gamm_inv in H as (k' & H & ->). apply mbind_ok_inv in H as ([n q] & k1 & E1 & H). apply ret_ok_inv in H as [<- <-].
  unfold SwapExactAmountIn in E1. destruct (String.eqb _ _); [discriminate E1|]. apply mbind_ok_inv in E1 as (h & k0 & E0 & E1). apply lift_ok_inv in E0 as [_ <-].
  destruct (_ <? h); [discriminate E1|]. apply recovering_ok in E1. apply mbind_ok_inv in E1 as ([o p'] & k0 & E0 & E1). apply with_pool_ok in E0 as [E0 ->].
  destruct (Z.ltb_spec 0 (Amount o)) as [Po|]; [cbn [negb] in E1|discriminate E1]. destruct (Z.ltb_spec (Amount o) mn) as [|Ge]; [discriminate E1|].
  apply mbind_ok_inv in E1 as (u & k2 & E2 & E1). apply ret_ok_inv in E1 as [E1 <-]. injection E1 as <- <-. apply sf_out in E0 as (Ec & <- & Sm).
  destruct (swap_effect a p p' c o e u k2 A Ha Hi Ea Sm E2) as (V1 & _ & A' & Tr & Kp). assert (o = {| Denom := Denom o; Amount := Amount o |}) as Eo by now destruct o.
  rewrite <- Eo. split; [exact A'|]. split; [exact Ge|]. split; [exact Po|]. split; [exact Tr|]. split; [|exact Kp]. unfold gamm_CalcOutAmtGivenIn. rewrite make_valid by exact V1. exact Ec.
Qed.

Lemma gamm_swap_out a p d mx c fee (e e' : GammState) n : addressed e -> account a -> id_ok (GetId p) -> GetAddress p = Ok (pool_addr (GetId p)) ->
  PoolManager.m_SwapExactAmountOut gamm_as_module a p d mx c fee e = (Ok n, e') ->
  addressed e' /\ n <= mx /\ 0 < n /\ trades a {| Denom := d; Amount := n |} c e e' /\
  gamm_CalcInAmtGivenOut p c d fee = Ok {| Denom := d; Amount := n |} /\ kept (fun id => id <> GetId p) e e'.
Proof.
  intros A Ha Hi Ea H. cbn [PoolManager.m_SwapExactAmountOut gamm_as_module] in H. apply at_gamm_inv in H as (k' & H & ->). apply mbind_ok_inv in H as ([m q] & k1 & E1 & H). apply ret_ok_inv in H as [<- <-].
  unfold SwapExactAmountOut in E1. destruct (String.eqb _ _); [discriminate E1|]. apply recovering_ok in E1. apply mbind_ok_inv in E1 as (l & k0 & E0 & E1). apply liquidity_reads in E0 as ->.
  apply mbind_ok_inv in E1 as (bal & k0 & E0 & E1). apply lift_ok_inv in E0 as [_ <-]. destruct (bal <=? Amount c); [discriminate E1|].
  apply mbind_ok_inv in E1 as ([o p'] & k0 & E0 & E1). apply with_pool_ok in E0 as [E0 ->]. destruct (Z.leb_spec (Amount o) 0) as [|Po]; [discriminate E1|].
  destruct (Z.ltb_spec mx (Amount o)) as [|Le]; [discriminate E1|]. apply mbind_ok_inv in E1 as (u & k2 & E2 & E1). apply ret_ok_inv in E1 as [E1 <-]. injection E1 as <- <-.
  apply sf_in in E0 as (Ec & Sm). pose proof (sf_in_denom _ _ _ _ _ Ec) as <-.
  destruct (swap_effect a p p' o c e u k2 A Ha Hi Ea Sm E2) as (_ & V2 & A' & Tr & Kp). assert (o = {| Denom := Denom o; Amount := Amount o |}) as Eo by now destruct o.
  rewrite <- Eo. split; [exact A'|]. split; [exact Le|]. split; [exact Po|]. split; [exact Tr|]. split; [|exact Kp]. unfold gamm_CalcInAmtGivenOut. rewrite make_valid by exact V2. exact Ec.
Qed.

Lemma gamm_reads : ModuleReads gamm_as_module.
Proof.
  split.
  - intros id e. apply at_gamm_reads. intros t k. apply get_pool_reads.
  - intros id q b e. apply at_gamm_reads. intros t k. apply spot_price_reads.
  - intros p c d fee e. apply at_gamm_reads. reflexivity.
  - intros p c d fee e. apply at_gamm_reads. reflexivity.
Qed.

Lemma gamm_laws : ModuleLaws gamm_as_module.
Proof.
  split.
  - intros id e p e' A U H. cbn [PoolManager.m_GetPool gamm_as_module] in H. apply at_gamm_inv in H as (k' & H & ->). unfold GetPool, GetPoolAndPoke in H. apply mbind_ok_inv in H as (k0 & k1 & E0 & H). apply pair_ok_inv in E0 as [E0 <-]. apply Ok_inj in E0 as <-.
    destruct (st_get (g_store (gx_keeper e)) (GetKeyPrefixPools id)) as [v|] eqn:Es; [|discriminate H]. destruct (A id v U Es) as (p0 & -> & Ei & Ea).
    destruct (poke_run (gx_time e) p0 (gx_keeper e)) as (r & Er & _ & Hs). rewrite Er in H. apply pair_ok_inv in H as [-> <-]. destruct (Hs p eq_refl) as [Ei' Ea'].
    assert (@GetId P PM p = id) as Eid by congruence. assert (@GetAddress P PM p = Ok (pool_addr (@GetId P PM p))) as Ead by (rewrite Eid; congruence).
    assert (id_ok (@GetId P PM p)) as Up by (rewrite Eid; exact U). exact (conj Eid (conj Up Ead)).
  - intros p c d fee e t H. change (gamm_CalcInAmtGivenOut p c d fee = Ok t) in H. unfold gamm_CalcInAmtGivenOut in H. apply bind_ok_inv in H as (cs & _ & H). exact (sf_in_denom _ _ _ _ _ H).
  - intros a p c d mn fee e out e' A Ta [Hi Ea] H. exact (gamm_swap_in a p c d mn fee e e' out A Ta Hi Ea H).
  - intros a p d mx c fee e n e' A Ta [Hi Ea] H. exact (gamm_swap_out a p d mx c fee e e' n A Ta Hi Ea H).
Qed.

#[export] Instance gamm_chain_spec : PoolManagerSpec gamm_chain.
Proof.
  split.
  - intros m [<-|[<-|[<-|[]]]]; [exact gamm_reads | exact concentrated_reads | exact cosmwasm_reads].
  - exact gamm_laws.
  - reflexivity.
  - reflexivity.
  - intros a cs e r e' A Ta H. cbn [PoolManager.SendCoinsFromAccountToModule gamm_chain] in H. apply at_gamm_inv in H as (k' & H & ->). apply bank_call_ok in H as (e1 & H & ->). apply take_law in H as [Bl _].
    split; [exact A|]. split; [intros id _ _; split; [|intros p F _; split; [exact F | intros c d fee; split; reflexivity]]|].
    + cbn [PoolManager.m_GetPool gamm_as_module PoolManager.gammKeeper gamm_chain]. unfold at_gamm. cbn [gx_time gx_keeper with_gamm].
      pose proof (get_pool_view (gx_time e) id (gx_keeper e) {| g_store := g_store (gx_keeper e); g_ext := e1 |} eq_refl) as Gv.
      destruct (GetPool (gx_time e) id _) as [r1 k1] in Gv |- *. destruct (GetPool (gx_time e) id (gx_keeper e)) as [r2 k2]. exact Gv.
    + intros x d _. unfold collector. cbn [PoolManager.GetModuleAddress gamm_chain]. rewrite collector_address. exact (Bl x d).
  - unfold collector. cbn [PoolManager.GetModuleAddress gamm_chain]. rewrite collector_address. exact collector_no_account.
Qed.

(** ** Routes through [x/gamm]

    The theorems of [PoolManagerCorrect] for the pool manager on top of the
    keeper of [x/gamm]: nothing is assumed of the pools. *)

Context {DS : SdkMoreSpec D} {CP : CoinsPlain C} {KP : KVStore PoolManager.Stored} {KPS : KVStoreSpec KP}.


(** C14: a swap along a route of pools of [x/gamm] (balancer or stableswap; for
    share agreements with valid denominations that are not negative).  However
    often it goes through a pool: it pays at least the minimum; the balances of the
    trader change by exactly the coin paid and the coin received, so that nothing
    of the tokens in between is left or taken, and no other trader's balances
    change; the collector gains in every denomination, and what is newly set
    aside for share agreements is never more than that gain. *)
Theorem route_in_settles a route tin mn (k k' : @PoolManager.Keeper gamm_chain KP) out : addressed (PoolManager.pm_ext k) -> account a -> shares_ok k ->
  Forall (fun st => on_gamm k (PoolManager.in_PoolId st)) route ->
  PoolManager.RouteExactAmountIn a route tin mn k = (Ok out, k') -> mn <= out /\ settled_route a tin {| Denom := route_out tin route; Amount := out |} k k'.
Proof. intros A Ta So Us H. exact (route_in_settled a route tin mn k out k' A Ta So Us H). Qed.

(** C15: an estimate is what the route pays.  When a trader who is not on the list
    of reduced fees swaps along pools of [x/gamm] that are all different, the query
    for the same route and coin in the state before gives the very amount that is
    then received. *)
Theorem estimate_is_executed a route tin mn (k k' : @PoolManager.Keeper gamm_chain KP) out : addressed (PoolManager.pm_ext k) -> account a -> ~ whitelisted k a -> NoDup (map PoolManager.in_PoolId route) ->
  Forall (fun st => on_gamm k (PoolManager.in_PoolId st)) route ->
  PoolManager.RouteExactAmountIn a route tin mn k = (Ok out, k') -> fst (PoolManager.MultihopEstimateOutGivenExactAmountIn route tin k) = Ok out.
Proof. intros A Ta W Nd Us H. exact (estimate_executed a route tin mn k out k' A Ta W Nd Us H). Qed.

(** C16: a swap along a route of pools of [x/gamm] for an exact output.  When the
    pools are all different and the trader is not on the list of reduced fees: the
    amount returned is the one that the query for the same route gives in the state
    before; the balances of the trader change by exactly that amount of the first
    token and the output, so that nothing of the tokens in between is left or
    taken; the fees arrive at the collector and cover what is newly set aside for
    share agreements. *)
Theorem route_out_settles a route mx tout (k k' : @PoolManager.Keeper gamm_chain KP) n : addressed (PoolManager.pm_ext k) -> account a -> ~ whitelisted k a -> NoDup (map PoolManager.out_PoolId route) ->
  Forall (fun st => on_gamm k (PoolManager.out_PoolId st)) route -> shares_ok k ->
  PoolManager.RouteExactAmountOut a route mx tout k = (Ok n, k') ->
  fst (PoolManager.MultihopEstimateInGivenExactAmountOut route tout k) = Ok n /\
  settled_route a {| Denom := List.hd (Denom tout) (map PoolManager.TokenInDenom route); Amount := n |} tout k k'.
Proof. intros A Ta W Nd Us So H. exact (route_out_settled a route mx tout k n k' A Ta W Nd Us So H). Qed.

End Module.
