(* ===== verification/PoolManagerRuns.v ===== *)
(** * Runs of the pool manager

    A chain with pools of [x/gamm], made by [CreatePool]: routes over several
    pools, estimates, fees and their shares, and what runs show of the limits of
    the code. *)

From stdpp Require Import base gmap strings.
From Stdlib Require Import ZArith Lia List Bool String Ascii.
From S2P Require Import Prelude GoBig BigInt BigDec SdkMath SdkMore BinarySearch Store SumTree SumTreeSet MapSum GoState SdkCoins SdkCoinsRef SdkPool SdkPoolRef.
From S2P Require Import DecMath Cfmm GammTypes GammBalancer GammStableswap GammPool.
Import ListNotations.
Import CFMMPool.
From S2P Require Import Gamm GammBooks GammCorrect GammRuns PoolManagerGamm PoolManager PoolManagerCorrect.
Open Scope Z_scope.
Open Scope list_scope.

(** ** The chain *)

#[local] Existing Instance sdk_ref.
#[local] Existing Instance assoc_store.

Lemma amount_zero_coin a c d : Amount c = 0 -> amount_of (a ++ [c]) d = amount_of a d.
Proof. intros Z0. rewrite amount_app, amount_single, Z0. destruct (String.eqb _ _); lia. Qed.

#[export] Instance coins_plain : CoinsPlain coins_ref.
Proof.
  split.
  - intros a c r O Z0. cbn [Coins_Add coins_ref]. destruct (forallb _ _); [|discriminate]. intros H. apply Ok_inj in H as <-.
    apply coins_ext; [|exact O | intros d; now rewrite amount_canon, amount_zero_coin]. split; [apply canon_sorted_coins|]. apply Forall_forall. intros x Ix.
    apply canon_member in Ix as (Ex & Nx & _). rewrite amount_zero_coin in Ex by exact Z0. destruct (amount_coin a (Denom x) O) as (y & Iy & Ed & Ey); [congruence|].
    destruct O as [_ F]. rewrite Forall_forall in F. destruct (F y Iy) as [Py Vy]. rewrite <- Ed. split; [congruence | exact Vy].
  - intros d Vd I. cbn [ValidateDenom coins_ref] in Vd. unfold valid_denom in Vd. destruct (string_bytes d) as [|b rest]; [discriminate Vd|].
    apply andb_prop in Vd as [Vd _]. apply andb_prop in Vd as [Vd _]. apply andb_prop in Vd as [Hb Hr]. destruct I as [->|I]; [discriminate Hb|].
    rewrite forallb_forall in Hr. specialize (Hr 124 I). discriminate Hr.
Qed.

(** A module without pools. *)
Definition no_module : PoolModuleI (@GammState gamm_bank CFMMPool.PoolI assoc_store unit) CFMMPool.PoolI := {|
  m_InitializePool _ _ := fail "no pools";
  m_GetPool _ := fail "no pools";
  m_GetPools := ret [];
  m_GetPoolDenoms _ := fail "no pools";
  m_CalculateSpotPrice _ _ _ := fail "no pools";
  m_SwapExactAmountIn _ _ _ _ _ _ := fail "no pools";
  m_CalcOutAmtGivenIn _ _ _ _ := fail "no pools";
  m_SwapExactAmountOut _ _ _ _ _ _ := fail "no pools";
  m_CalcInAmtGivenOut _ _ _ _ := fail "no pools";
  m_GetTotalPoolLiquidity _ := fail "no pools";
  m_GetTotalLiquidity := ret []
|}.

Definition around : @Surroundings gamm_bank CFMMPool.PoolI assoc_store unit := {|
  su_concentrated := no_module;
  su_cosmwasm := no_module;
  su_type p := match p with PBalancer _ => Balancer_type | PStable _ => Stableswap_type end;
  su_denoms p := l <- GetTotalPoolLiquidity p ;; Ok (map Denom l);
  su_bond := "uosmo";
  su_pairs a b := if String.eqb b "uatom" then Ok 1 else Err "no pool for the pair";
  su_address _ := gamm_module;
  su_text a := key_string a;
  su_read s := Ok (string_bytes s);
  su_math e := String.eqb e "token amount must be positive"
|}.

#[export] Instance gamm_chain_ok : GammChainSpec around.
Proof.
  split.
  - split; reflexivity.
  - split; reflexivity.
  - intros a b cs e r e' H. cbn [Gamm.SendCoins gamm_bank] in H. unfold gsend, zoom, send in H. destruct (covers cs (held (gb_bal e) a)) eqn:Cv; [|discriminate H].
    apply covers_le in Cv as [O _]; [exact O | apply held_ok].
  - intros a id i o e r e' H x d. apply (f_equal snd) in H. cbn in H. now subst e'.
  - reflexivity.
  - intros id X. discriminate X.
  - intros X. discriminate X.
Qed.

#[local] Instance chain_keepers : PoolManagerKeepers := gamm_chain around.
Definition ext0 : Ext := {| gx_time := 0; gx_keeper := k0; gx_rest := tt |}.
Definition KP : Type := @PoolManager.Keeper chain_keepers assoc_store.

Definition takerFee : Z := 10 ^ 15.
Definition agreement : TakerFeeShareAgreement := {| share_Denom := "uatom"; SkimPercent := 10 ^ 17; SkimAddress := "abc" |}.

Definition fresh : KP := {|
  pm_store := [(KeyNextGlobalPoolId, VUint 1)];
  pm_params := {| PoolCreationFee := [coin "uosmo" 100]; DefaultTakerFee := takerFee; AdminAddresses := []; ReducedFeeWhitelist := [] |};
  pm_modules := ∅; pm_agreements := {[ "uatom"%string := agreement ]}; pm_alloys := ∅;
  pm_ext := ext0
|}.

(** The message of a balancer pool of the given assets. *)
Definition balancer_msg (assets : list Balancer.PoolAsset) : CreatePoolMsg := {|
  msg_GetPoolType := Balancer_type; msg_PoolCreator := alice; msg_Validate := ret tt;
  msg_InitialLiquidity := canon_coins (map Balancer.Token assets);
  msg_CreatePool id := lift (p <- Balancer.NewBalancerPool id balancer_params assets "" 0 ;; Ok (PBalancer p))
|}.
Definition stable_msg (l : list Coin) : CreatePoolMsg := {|
  msg_GetPoolType := Stableswap_type; msg_PoolCreator := alice; msg_Validate := ret tt;
  msg_InitialLiquidity := l;
  msg_CreatePool id := lift (p <- Stableswap.NewStableswapPool id stable_params l [1; 2] "abc" "" ;; Ok (PStable p))
|}.
Definition asset (d : string) (n w : Z) : Balancer.PoolAsset := {| Balancer.Token := coin d n; Balancer.Weight := w |}.

Definition setup : M KP unit :=
  CreatePool (balancer_msg [asset "uosmo" (10 ^ 9) 1; asset "uatom" (10 ^ 9) 3]) ~;;
  CreatePool (stable_msg stable_liquidity) ~;;
  CreatePool (balancer_msg [asset "uosmo" (10 ^ 9) 1; asset "usdc" (10 ^ 9) 1]) ~;;
  CreatePool (balancer_msg [asset "uosmo" 100 1; asset "uatom" (10 ^ 9) 1]) ~;; ret tt.

Definition chain : KP := Eval vm_compute in snd (setup fresh).
Definition route : list SwapAmountInRoute :=
  [ {| in_PoolId := 1; TokenOutDenom := "uosmo" |}; {| in_PoolId := 3; TokenOutDenom := "usdc" |}; {| in_PoolId := 2; TokenOutDenom := "usdt" |} ].

(** ** The chain is in order *)

Definition entry_ok (kv : bytes * Gamm.Stored CFMMPool.PoolI) : bool :=
  match snd kv with
  | Gamm.VPool p => addr_eqb (fst kv) (GetKeyPrefixPools (GetId p)) && (0 <=? GetId p) && (GetId p <? 2 ^ 64) &&
      match GetAddress p with Ok a => addr_eqb a (pool_addr (GetId p)) | _ => false end
  | Gamm.VAmount _ => match fst kv with b :: _ => negb (b =? 2) | [] => false end
  end.

Lemma same_address a b : addr_eqb a b = true -> a = b.
Proof. unfold addr_eqb. destruct (bcompare a b) eqn:E; try discriminate. intros _. now apply bcompare_eq. Qed.

Lemma al_get_in {V} (s : list (bytes * V)) key v : al_get s key = Some v -> In (key, v) s.
Proof.
  induction s as [|[k w] s IH]; cbn [al_get]; [discriminate|]. destruct (bcompare k key) eqn:E; [|intros H; right; auto..].
  intros H. injection H as ->. apply bcompare_eq in E as ->. now left.
Qed.

Lemma addressed_check (e : @GammState gamm_bank CFMMPool.PoolI assoc_store unit) : forallb entry_ok (g_store (gx_keeper e)) = true -> addressed e.
Proof.
  intros F id v U H. apply al_get_in in H. rewrite forallb_forall in F. specialize (F _ H). unfold entry_ok in F. cbn [fst snd] in F. destruct v as [p|n].
  - apply andb_prop in F as [F Fa]. apply andb_prop in F as [F F3]. apply andb_prop in F as [F1 F2]. apply same_address in F1. apply pool_key_inj in F1 as ->; [|exact U | split; lia].
    exists p. split; [reflexivity|]. split; [reflexivity|]. destruct (GetAddress p) as [a|m|m]; try discriminate Fa. apply same_address in Fa as ->. reflexivity.
  - discriminate F.
Qed.

Lemma chain_ok : ext_ok (pm_ext chain).
Proof. apply addressed_check. ran. Qed.

Lemma chain_shares : shares_ok chain.
Proof.
  assert (Ea : pm_agreements chain = {[ "uatom"%string := agreement ]}) by ran. assert (El : pm_alloys chain = ∅) by ran.
  split; [rewrite Ea | rewrite El]; intros d a H; [|now rewrite lookup_empty in H]. apply lookup_singleton_Some in H as [_ <-]. split; [reflexivity | discriminate].
Qed.

Lemma ran_to {X A} (c : M X A) s a : fst (c s) = Ok a -> c s = (Ok a, snd (c s)).
Proof. destruct (c s). now intros [= ->]. Qed.

Lemma not_listed : ~ whitelisted chain alice.
Proof. intros X. discriminate X. Qed.

Definition payment : Coin := coin "uatom" (10 ^ 6).

(** The pools of the chain are pools of [x/gamm]. *)
Lemma listed_on_gamm id t : 0 <= id < 2 ^ 64 -> pm_modules chain !! id = None ->
  (st_get (pm_store chain) (FormatModuleRouteKey id) ≫= as_route) = Some t -> routes t = Some gammKeeper -> on_gamm chain id.
Proof.
  intros U N H R. split; [exact U|]. rewrite module_of_alt, N. destruct (st_get _ _) as [v|]; [|discriminate H]. change (as_route v = Some t) in H. now rewrite H, R.
Qed.

Lemma pools_on_gamm : on_gamm chain 1 /\ on_gamm chain 2 /\ on_gamm chain 3.
Proof.
  split; [|split]; [apply (listed_on_gamm 1 Balancer_type) | apply (listed_on_gamm 2 Stableswap_type) | apply (listed_on_gamm 3 Balancer_type)];
    first [split; [discriminate | reflexivity] | ran | reflexivity].
Qed.

Lemma route_on_gamm : Forall (fun st => on_gamm chain (in_PoolId st)) route.
Proof. destruct pools_on_gamm as (P1 & P2 & P3). constructor; [exact P1|]. constructor; [exact P3|]. constructor; [exact P2 | constructor]. Qed.

Lemma route_in_settles_witness : settled_route alice payment (coin "usdt" 5899025) chain (snd (RouteExactAmountIn alice route payment 5899025 chain)).
Proof.
  refine (proj2 (route_in_settles around alice route payment 5899025 chain _ 5899025 chain_ok eq_refl chain_shares route_on_gamm (ran_to _ _ _ _))). ran.
Defined.

Lemma estimate_is_executed_witness : fst (MultihopEstimateOutGivenExactAmountIn route payment chain) = Ok 5899025.
Proof.
  refine (estimate_is_executed around alice route payment 1 chain _ 5899025 chain_ok eq_refl not_listed _ route_on_gamm (ran_to _ _ _ _)); [|ran].
  repeat constructor; cbn; intros X; decompose [or] X; try discriminate; contradiction.
Defined.

Definition back_route : list SwapAmountOutRoute :=
  [ {| out_PoolId := 1; TokenInDenom := "uatom" |}; {| out_PoolId := 3; TokenInDenom := "uosmo" |}; {| out_PoolId := 2; TokenInDenom := "usdc" |} ].
Definition wanted : Coin := coin "usdt" (10 ^ 6).

Lemma back_on_gamm : Forall (fun st => on_gamm chain (out_PoolId st)) back_route.
Proof. destruct pools_on_gamm as (P1 & P2 & P3). constructor; [exact P1|]. constructor; [exact P3|]. constructor; [exact P2 | constructor]. Qed.

Lemma route_out_settles_witness : fst (MultihopEstimateInGivenExactAmountOut back_route wanted chain) = Ok 168824 /\
  settled_route alice (coin "uatom" 168824) wanted chain (snd (RouteExactAmountOut alice back_route (10 ^ 7) wanted chain)).
Proof.
  refine (route_out_settles around alice back_route (10 ^ 7) wanted chain _ 168824 chain_ok eq_refl not_listed _ back_on_gamm chain_shares (ran_to _ _ _ _)); [|ran].
  repeat constructor; cbn; intros X; decompose [or] X; try discriminate; contradiction.
Defined.

(** *** A shallow pool, where every unit moves the price by a hundredth *)

Definition impact_req (n : Z) : ImpactRequest := {| FromCoin := coin "uosmo" n; ToCoinDenom := "uatom"; req_PoolId := 4; MaxPriceImpact := 55 * 10 ^ 15; ExternalPrice := 0 |}.
Definition spot : Z := 10 ^ 11.


Lemma taker_fee_roundtrip_witness : let c := coin "uosmo" 1000003 in
  Amount c - 1 <= 1000003 <= Amount c /\ 0 <= 1002 <= 1001005 /\ 1001005 * takerFee <= 1002 * OneDec < 1001005 * takerFee + OneDec.
Proof.
  refine (taker_fee_roundtrip (coin "uosmo" 1000003) takerFee (coin "uosmo" 1001005) (coin "uosmo" 1002) (coin "uosmo" 1000003) (coin "uosmo" 1002) _ _ _ _);
    [cbn; lia | split; reflexivity | ran | ran].
Defined.

(** ** What runs show *)

(** The same chain with a trader who pays no fee. *)
Definition exempt : KP := {| pm_store := pm_store chain;
  pm_params := {| PoolCreationFee := []; DefaultTakerFee := takerFee; AdminAddresses := []; ReducedFeeWhitelist := ["abc"%string] |};
  pm_modules := pm_modules chain; pm_agreements := pm_agreements chain; pm_alloys := pm_alloys chain; pm_ext := pm_ext chain |}.

Definition purse (k : KP) (d : string) : Z := holds (pm_ext k) alice d.

Definition one_pool : list SwapAmountOutRoute := [ {| out_PoolId := 1; TokenInDenom := "uosmo" |} ].

(** Two share agreements of which one's denomination starts with the other's. *)
Definition two_shares : KP := snd ((SetTakerFeeShareDenomsToAccruedValue "uosmo" "usdc" 7 ~;; SetTakerFeeShareDenomsToAccruedValue "uosmo2" "usdc" 9) chain).
Definition cleared : KP := snd (DeleteAllTakerFeeShareAccumulatorsForTakerFeeShareDenom "uosmo" two_shares).

(** Two registered alloyed pools. *)
Definition alloyed (id : Z) (d : string) : bytes * Stored := (FormatRegisteredAlloyPoolKey id d, VAlloy {| ContractAddress := "abc"; TakerFeeShareAgreements := [] |}).
Definition two_alloys : KP := {| pm_store := [alloyed 1 "one"; alloyed 10 "ten"]; pm_params := pm_params chain; pm_modules := ∅; pm_agreements := ∅; pm_alloys := ∅; pm_ext := pm_ext chain |}.

Definition split_a : SwapAmountInSplitRoute := {| in_Pools := [ {| in_PoolId := 1; TokenOutDenom := "uatom" |} ]; TokenInAmount := 5 |}.
Definition split_b : SwapAmountInSplitRoute := {| in_Pools := [ {| in_PoolId := 4; TokenOutDenom := "uatom" |} ]; TokenInAmount := 5 |}.

(** What the pool manager does on some inputs.  An exact-output swap costs the
    trader more than the maximum it names, because the fee comes on top.  A trader
    who pays no fee is left with tokens of the pools in between, since the
    amounts there are calculated with fees.  A trade estimated within a price
    impact of 5.5 percent is one of 6 percent.  The deviation of the price of an
    amount that is no [int64] panics.  Clearing the shares of one denomination clears those of a
    denomination that it is a prefix of, and the entries under the
    prefix of pool 1, which registering it deletes, include those of pool 10.  Split routes with a repetition that is not next to
    its first occurrence are accepted.  With a fee of one the fee for an exact
    output cannot be calculated: [CalcTakerFeeExactOut] panics. *)
Theorem poolmanager_defects :
  fst (RouteExactAmountOut alice one_pool 3016000 (coin "uatom" (10 ^ 6)) chain) = Ok 3018075 /\
  purse (snd (RouteExactAmountOut alice back_route (10 ^ 7) wanted exempt)) "uosmo" = purse exempt "uosmo" + 505 /\
  (fst (EstimateTradeBasedOnPriceImpact (impact_req 10) chain) = Ok (coin "uosmo" 6, coin "uatom" 56443547) /\
   calculatePriceDeviation (coin "uosmo" 6) (coin "uatom" 56603773) spot = Ok 60000010950000000) /\
  calculatePriceDeviation (coin "uosmo" (2 ^ 63)) (coin "uatom" 1) spot = Panic "Int64() out of bound" /\
  (accrued two_shares "uosmo2" "usdc" = 9 /\ accrued cleared "uosmo2" "usdc" = 0) /\
  map fst (prefix_entries two_alloys (FormatRegisteredAlloyPoolKeyPoolIdOnly 1)) = [FormatRegisteredAlloyPoolKey 10 "ten"; FormatRegisteredAlloyPoolKey 1 "one"] /\
  ValidateSwapAmountInSplitRoute [split_a; split_b; split_a] = Ok tt /\
  CalcTakerFeeExactOut payment OneDec = Panic "division by zero".
Proof. repeat split; ran. Qed.
